(* ===== verification/_CoqProject ===== *)
-Q . S2P
Prelude.v
Logger.v
Ashmem.v
PmemAlloc.v
Pmem.v
Wakelock.v
EarlySuspend.v
LowMem.v
RbTree.v
RbErase.v
KString.v
UserWakelock.v
BinderAlloc.v
BinderRef.v
BinderObj.v
BinderTxn.v
BinderChain.v
BinderCalls.v
Crc32.v
Resource.v
ResourceInv.v
ResourceOps.v
ResourceRegion.v
ResourceWalk.v
ResourceTree.v
ResourceSetup.v
Devres.v
DevresInv.v
DevresRegion.v
BinderDeath.v
BinderDeathInv.v
BinderDeathRun.v
