(* ===== verification/Prelude.v ===== *)
(** * The Android platform core of the Merruk kernel, verified

    The repository is a Linux 2.6.35 kernel for a handset (32-bit ARM, little
    endian) with the Android platform drivers.  This development models the
    parts that make it an Android kernel, and the kernel library they stand on,
    and proves them correct.  Paths below are relative to src/common.

    ** The program and its model

    A kernel component is a set of C structures and the functions that change
    them under a lock.  Here it is a [Record] for the state, [Inductive]s and
    [Record]s for the data, and one [Definition] or [Fixpoint] per function, in
    the order of the C file and under its names.  Structures that C links by
    pointers live in a store (a finite map from addresses), and intrusive lists
    are lists of addresses, so that sharing is kept.  A critical section is one
    function from state to state; where the code drops its lock in between, it is
    two.  Integers are [Z] with the wrap of their C type written at every
    operation that can leave the range ([u32], [s32], ...).  [option] results
    stand for a BUG_ON, a fault or a loop out of fuel; the theorems show that the
    result is [Some], under conditions on the callers that are listed below.  What the code gets from the rest of the kernel
    (memory, clock, page services, user memory) is an argument of the definition
    that uses it, and may fail whenever it may fail in the kernel.

    - Prelude.v: integers at their width, error numbers, pages, byte strings,
      copies from and to user space, lemmas and automation.
    - Logger.v (drivers/staging/android/logger.c): ring buffers of log entries,
      their readers and every file operation.  C1-C2: a simulation of an abstract
      log that has one queue of entries per reader and the round trip of entries;
      further termination of the scan, the query calls and two flaws.
    - Ashmem.v (mm/ashmem.c): shared memory areas, unpinned ranges and the
      shrinker.  C3-C6: the invariant of lists and page count over any sequence
      of calls; pin, unpin and shrinking against the set of pages they mean; further
      mapping, names and the pin status.
    - PmemAlloc.v, Pmem.v (drivers/misc/pmem.c): the buddy allocator, and the
      driver on top of it with master and client files.  C7-C8: refinement of
      an abstract allocator, as long as a free does not go on into the word behind the
      table, and exclusiveness of ownership;
      further the view of a client, bounds in bytes and two flaws (a read behind the table, a client
      that outlives its master).
    - Wakelock.v (kernel/power/wakelock.c): wake locks, time-outs, the expire
      timer and the suspend work item.  C9-C11: the invariant, no sleep while
      a lock is in force, and sleep follows; further the answer of has_wake_lock.
    - EarlySuspend.v (kernel/power/earlysuspend.c): the state machine between the
      user's request and the drivers' handlers.  It uses the wake locks through
      the class [MainLock], which Wakelock.v implements.  C12-C13: safety in any
      interleaving, and that a request is carried out.
    - LowMem.v (drivers/staging/android/lowmemorykiller.c): C14: which
      process is killed; further that only one is at a time.
    - RbTree.v, RbErase.v (lib/rbtree.c, include/linux/rbtree.h): red-black trees
      as pointer code over a store of nodes with the packed parent and colour
      word.  C15-C16: insertion and removal; further walking.  [is_tree] is the interface for
      the components that keep their objects in trees.
    - KString.v (lib/ctype.c, lib/string.c, lib/vsprintf.c): character classes,
      strncmp and number parsing.
    - UserWakelock.v (kernel/power/userwakelock.c): the wake locks of user space,
      a tree of names over the class [LockService], which Wakelock.v implements.
      C17: refinement of a map from names to locks, with the time they are held for; further the round trip of
      time-outs, the listings and a flaw.
    - Crc32.v (lib/crc32.c, lib/gen_crc32table.c): the checksums of the kernel
      library and the generator of their tables.  C40: the implementations the
      configuration can choose are equivalent; further a message with its checksum
      has checksum zero, and short bursts of errors are detected.

    The resource tree (kernel/resource.c, include/linux/ioport.h) records who owns
    which range of ports and of physical memory.

    - Resource.v: the descriptors in a store and the functions of the file.
    - ResourceInv.v: the shape of the tree, the invariant, and what linking,
      unlinking and splicing do to it.
    - ResourceOps.v, ResourceRegion.v, ResourceWalk.v: the functions against the
      set of ranges the tree stands for: requests, insertions and widening; busy
      regions, first fit, reserving and releasing; the walks.
    - ResourceTree.v: C31-C36: the tree stays a tree over any sequence of
      operations whose callers keep their promises; requests, insertions, widening, allocation and exclusive regions;
      further the release of regions, the check for exclusive pages, reservation around other
      resources and seven flaws.
    - ResourceSetup.v: the boot parameters; they keep the tree whatever they say.

    The managed resources of a device (drivers/base/devres.c) are what a driver has
    registered to be released when it is detached.

    - Devres.v: the list of a device, its entries and groups, and the functions of
      the file.  What a release function does is an argument.
    - DevresInv.v: C37-C38: no BUG over any sequence of calls whose callers keep
      their promises, and what releasing a
      group releases and leaves; further the release of everything and a flaw.
    - DevresRegion.v: the managed regions of kernel/resource.c, where both
      components meet.  C39: a driver that gives up a group of regions leaves tree and
      device as it found them.

    Binder (drivers/staging/android/binder.c), the inter-process communication of
    Android, is in nine files.

    - BinderAlloc.v: the area a process receives transactions in.  The headers of
      the buffers lie in the area itself and can be touched only while their pages
      are mapped.  C18-C20: safety over any sequence of operations and failures,
      best-fit allocation, freeing and joining; further the lookup of user pointers
      and a flaw in mmap.
    - BinderRef.v: the nodes a process offers and the references others hold, their
      counts and what the owner is told.  C21-C22: one reference per node with the
      smallest free descriptor, and the work of a node is finished.
    - BinderObj.v: the objects in the data of a transaction, their translation for
      the receiver and their release.  C23-C24: the counts are exact over any
      sequence of operations, and what a translated object means; further a use
      after free that a transaction with overlapping objects brings about, and a NULL that
      is followed when memory is short.
    - BinderTxn.v: threads, calls, replies, one-way calls, failed replies and the
      exit of threads, over the transaction stacks.
    - BinderChain.v: the invariant behind them.  The calls in progress form chains
      across threads and processes; the stack of a thread is its part of a chain.
      Operations on stacks are shown to be operations on chains: a call makes a
      chain longer, a reply shorter, an exit cuts threads out of it.
    - BinderCalls.v: every operation keeps the invariant.  C28-C30: no BUG and no
      dangling pointer over any sequence of operations without a call that leads back to
      its own caller, no caller is left waiting
      for nobody, and replies reach exactly their callers; further that calls reach a
      thread that can take them, and two flaws.
    - BinderDeath.v: death notices, from the request of a client to the confirmation,
      and what the ends of references, nodes, threads and processes do to them.
    - BinderDeathInv.v: the invariant that ties the state of a notice to its node, its
      list and what user space has been told; every operation keeps it.
    - BinderDeathRun.v: any number of processes in any order.  C25-C27: no BUG and what is
      reported when, no death is missed, and reads deliver what waits; further two flaws.

    ** Conditions

    Some promises of callers the code relies on and does not check, and some of its
    failures it does not handle.  They are hypotheses of the theorems, or of the steps in
    the theorems about sequences of operations, and most have a theorem beside them that
    shows what happens without them:
    - Logger: a write that faults has not been overtaken between reading the write offset
      and taking the mutex ([not_overtaken], [logger_stale_orig_loses_entry]);
    - Ashmem: an area is at most 2^32 - 4096 bytes long when it is mapped;
    - Pmem: calls do not overlap in time, and no free leaves the table
      ([pmem_free_past_end]); the allocator itself is described in both cases;
    - Wakelock, for the half of the invariant that says that sleep follows: no lock is
      destroyed while it is held, and the timer is punctual ([wl_step]);
    - UserWakelock: a time-out is positive as a 32-bit number of jiffies
      ([user_wakelock_timeout_lost]);
    - BinderObj: the objects of a transaction do not overlap
      ([binder_overlap_use_after_free]), a command on handle 0 finds memory
      ([binder_handle0_no_memory]), and counts are raised less than 2^31 - 8 times;
    - BinderCalls: no call leads back to its own caller ([txns_possible],
      [binder_self_call_fault]);
    - BinderDeathRun, for the delivery of notices: only notices wait, the thread may take
      the work of its process, and reads do not fault;
    - ResourceTree: [res_pre], in particular a parent outlives the tasks that wait below it
      ([muxed_region_dangling]); allocation from two bytes on where rounding does not wrap
      ([allocate_resource_misses_byte], [allocate_resource_below_minimum]);
    - DevresInv: [dev_pre], in particular devres_get is called where there is no match
      ([devres_get_frees_wrong]) and a group is closed once.

    ** Fuel

    Loops that are not structural run on fuel: the scan of get_next_entry (one
    turn per byte of the length looked for), the buddy loops of pmem (128, more
    than the orders a table can hold), the loops of the trees (one more than the
    nodes in the store), the page loops of binder (the pages of the range and one),
    the colour loop of binder (four colours), its search for a free descriptor (the
    references of the process and one), the walks over its transaction stacks (the
    transactions in the store and one, since a chain has no call twice).  In each
    case a theorem or lemma shows that the result is [Some], that is, that the fuel
    is enough.  The loops that generate the checksum tables have 9 turns for the 8
    bits of an index and 256 for the entries; that the tables are complete is part of
    the theorem about them.  A walk over the resource tree has one turn more than there
    are descriptors; the release of a region, which also goes down, the square of
    that; the widening of a resource two turns for every descriptor and one, since
    every turn but the last moves an end of the range to that of another resource.  The passes of
    remove_nodes have one turn more than the list has nodes, the boot parameter one
    more than its string has characters.

    ** Not modelled

    Debug output, statistics files, registration of devices and module
    parameters; device drivers, architecture code and board files (hardware
    access without a specification); the scheduler, file systems, networking,
    block layer, sound and the rest of memory management (standard Linux code, of
    which the modelled components use only what appears as an argument); of
    rbtree.c the augmented-tree callbacks; of resource.c the text of the proc files;
    of binder.c looper states and priorities, and the release of the buffers of a
    process.  The release of a process tears down nodes, references, threads and
    buffers at once.  BinderDeath.v has its steps in their order for death notices;
    what it does to counts and transactions, which are modelled in separate
    components here, would need their product.  The RAM console encodes memory with
    the Reed-Solomon library of the kernel, which is not modelled either. *)

From stdpp Require Export prelude list list_numbers gmap sorting.
From Stdlib Require Export ZArith Znumtheory Lia Sorting.Sorted.


Declare Scope kernel_scope.
Delimit Scope kernel_scope with kernel.
Global Open Scope Z_scope.

(** ** Machine integers

    The target is 32-bit ARM (little endian): [size_t], [unsigned long] and
    [unsigned int] are 32 bits wide, [long] and [int] are their signed
    counterparts.  A value of a w-bit type is a [Z] in range; every operation
    that may leave the range is followed by the wrap of its type. *)

Definition u8 (x : Z) : Z := x mod 2 ^ 8.
Definition u16 (x : Z) : Z := x mod 2 ^ 16.
Definition u32 (x : Z) : Z := x mod 2 ^ 32.
Definition u64 (x : Z) : Z := x mod 2 ^ 64.
Definition s32 (x : Z) : Z := (x + 2 ^ 31) mod 2 ^ 32 - 2 ^ 31.
Definition s64 (x : Z) : Z := (x + 2 ^ 63) mod 2 ^ 64 - 2 ^ 63.

(** [len & ~mask] style tests are written with [Z.land]; a C condition on an
    integer is "different from zero". *)
Definition ctrue (x : Z) : bool := negb (x =? 0).

(** ** Error numbers (returned negated) *)

Definition EPERM : Z := 1.
Definition EINTR : Z := 4.
Definition EBADF : Z := 9.
Definition EAGAIN : Z := 11.
Definition ENOMEM : Z := 12.
Definition EFAULT : Z := 14.
Definition EBUSY : Z := 16.
Definition ENODEV : Z := 19.
Definition EINVAL : Z := 22.
Definition ENOTTY : Z := 25.

(** ** Pages

    Pages have 4 KiB; [ALIGN(x, a)] rounds up to a multiple of a power of two
    in the 32 bits of its type. *)
Definition PAGE_SHIFT : Z := 12.
Definition PAGE_SIZE : Z := 4096.
Definition PAGE_MASK : Z := u32 (- 4096).
Definition PAGE_ALIGN (x : Z) : Z := Z.land (u32 (x + 4095)) PAGE_MASK.

(** Flags of a mapping of user space. *)
Definition VM_READ : Z := 1.
Definition VM_WRITE : Z := 2.
Definition VM_EXEC : Z := 4.
Definition VM_SHARED : Z := 8.
Definition VM_MAYREAD : Z := 16.
Definition VM_MAYWRITE : Z := 32.
Definition VM_MAYEXEC : Z := 64.

(** ** Time

    The tick counter runs at 100 Hz (CONFIG_HZ of the device) and wraps at 32
    bits; times are compared by the sign of their difference. *)
Definition HZ : Z := 100.
Definition time_after_eq (a b : Z) : bool := s32 (a - b) >=? 0.
Definition time_before_eq (a b : Z) : bool := time_after_eq b a.

(** ** Lists with integer indices *)

Definition zlen {A} (l : list A) : Z := Z.of_nat (length l).

(** [a[i]] for an index known to be in range; the default is never read by a
    well-formed state. *)
Definition znth {A} (d : A) (l : list A) (i : Z) : A := nth (Z.to_nat i) l d.

(** [memcpy(dst + off, bs, length bs)] on an array of bytes or of records. *)
Definition memcpy {A} (dst : list A) (off : Z) (bs : list A) : list A :=
  list_inserts (Z.to_nat off) bs dst.

(** [a[i] = x]. *)
Definition zset {A} (l : list A) (i : Z) (x : A) : list A := <[Z.to_nat i := x]> l.

(** The bytes [src[off .. off + n)]. *)
Definition zslice {A} (src : list A) (off n : Z) : list A :=
  take (Z.to_nat n) (drop (Z.to_nat off) src).

(** The first element with a property. *)
Definition find_first {A} (P : A → Prop) `{!∀ x, Decision (P x)} (l : list A) : option A :=
  snd <$> list_find P l.

(** Little-endian encodings. *)
Definition le16 (x : Z) : list Z := [x mod 256; (x / 256) mod 256].
Definition le32 (x : Z) : list Z :=
  [x mod 256; (x / 256) mod 256; (x / 65536) mod 256; (x / 16777216) mod 256].

(** ** User space

    A user buffer is its claimed length and the bytes a copy can fetch before
    it faults ([ub_data] shorter than [ub_len] models a bad pointer). *)
Record ubuf := mk_ubuf { ub_len : Z; ub_data : list Z }.

(** [copy_from_user(to, from + off, n)]: the bytes stored at [to] (the rest of
    the destination is zeroed, as the ARM routine does) and the number of
    bytes that could not be copied. *)
Definition copy_from_user (from : ubuf) (off n : Z) : list Z * Z :=
  let got := zslice (ub_data from) off n in
  (got ++ replicate (Z.to_nat n - length got) 0, n - zlen got).

(** [copy_to_user(buf + off, src, length src)] into a user buffer of which the
    first [writable] bytes can be written: the bytes delivered and the number
    of bytes that could not be copied. *)
Definition copy_to_user (writable off : Z) (src : list Z) : list Z * Z :=
  let n := Z.max 0 (Z.min (zlen src) (writable - off)) in
  (take (Z.to_nat n) src, zlen src - n).

#[global] Arguments copy_from_user : simpl never.
#[global] Arguments copy_to_user : simpl never.

(** ** Automation *)

Create HintDb kernel.
Create Rewrite HintDb zlen.

(** Case analysis on the boolean comparisons of the goal and the context. *)
Ltac zbool :=
  repeat match goal with
  | |- context [?a <? ?b] => destruct (Z.ltb_spec a b)
  | |- context [?a <=? ?b] => destruct (Z.leb_spec a b)
  | |- context [?a =? ?b] => destruct (Z.eqb_spec a b)
  | |- context [?a >? ?b] => rewrite (Z.gtb_ltb a b)
  | |- context [?a >=? ?b] => rewrite (Z.geb_leb a b)
  | H : context [?a <? ?b] |- _ => destruct (Z.ltb_spec a b)
  | H : context [?a <=? ?b] |- _ => destruct (Z.leb_spec a b)
  | H : context [?a =? ?b] |- _ => destruct (Z.eqb_spec a b)
  | H : context [?a >? ?b] |- _ => rewrite (Z.gtb_ltb a b) in H
  | H : context [?a >=? ?b] |- _ => rewrite (Z.geb_leb a b) in H
  end.

(** Turn boolean hypotheses produced by [destruct ... eqn] into propositions. *)
Ltac zprop :=
  repeat match goal with
  | H : (_ && _)%bool = true |- _ => apply andb_true_iff in H; destruct H
  | H : (_ || _)%bool = false |- _ => apply orb_false_iff in H; destruct H
  | H : (_ || _)%bool = true |- _ => apply orb_true_iff in H
  | H : (_ && _)%bool = false |- _ => apply andb_false_iff in H
  | H : negb _ = true |- _ => apply negb_true_iff in H
  | H : negb _ = false |- _ => apply negb_false_iff in H
  | H : (_ <? _) = true |- _ => apply Z.ltb_lt in H
  | H : (_ <? _) = false |- _ => apply Z.ltb_ge in H
  | H : (_ <=? _) = true |- _ => apply Z.leb_le in H
  | H : (_ <=? _) = false |- _ => apply Z.leb_gt in H
  | H : (_ =? _) = true |- _ => apply Z.eqb_eq in H
  | H : (_ =? _) = false |- _ => apply Z.eqb_neq in H
  end.

(** ** Lemmas on lists and lengths *)

Section list_lemmas.
Context {A : Type}.
Implicit Types (l k : list A) (i n : Z).

Lemma zlen_nonneg l : 0 ≤ zlen l.
Proof. unfold zlen; lia. Qed.

Lemma zlen_nil : zlen (@nil A) = 0.
Proof. done. Qed.

Lemma zlen_cons x l : zlen (x :: l) = 1 + zlen l.
Proof. unfold zlen; simpl; lia. Qed.

Lemma zlen_app l k : zlen (l ++ k) = zlen l + zlen k.
Proof. unfold zlen; rewrite length_app; lia. Qed.

Lemma zlen_replicate (m : nat) (x : A) : zlen (replicate m x) = Z.of_nat m.
Proof. unfold zlen; by rewrite length_replicate. Qed.

Lemma zlen_memcpy l off k : zlen (memcpy l off k) = zlen l.
Proof. unfold zlen, memcpy; by rewrite length_inserts. Qed.

Lemma zlen_zset l i x : zlen (zset l i x) = zlen l.
Proof. unfold zlen, zset; by rewrite length_insert. Qed.

Lemma zlen_zslice l off n :
  0 ≤ off → 0 ≤ n → off + n ≤ zlen l → zlen (zslice l off n) = n.
Proof. unfold zlen, zslice; intros; rewrite length_take, length_drop; lia. Qed.

Lemma znth_memcpy (d : A) l off k i :
  0 ≤ off → 0 ≤ i → off + zlen k ≤ zlen l →
  znth d (memcpy l off k) i =
  if (off <=? i) && (i <? off + zlen k) then znth d k (i - off) else znth d l i.
Proof.
  unfold znth, memcpy, zlen; intros Ho Hi Hlen.
  rewrite !nth_lookup.
  destruct (Z.leb_spec off i), (Z.ltb_spec i (off + Z.of_nat (length k))); simpl.
  - rewrite list_lookup_inserts by lia. do 2 f_equal; lia.
  - rewrite list_lookup_inserts_ge by lia; done.
  - rewrite list_lookup_inserts_lt by lia; done.
  - rewrite list_lookup_inserts_lt by lia; done.
Qed.

Lemma znth_zset (d : A) l i j x :
  0 ≤ i < zlen l → 0 ≤ j →
  znth d (zset l i x) j = if i =? j then x else znth d l j.
Proof.
  unfold znth, zset, zlen; intros Hi Hj. rewrite !nth_lookup.
  destruct (Z.eqb_spec i j) as [->|].
  - rewrite list_lookup_insert_eq by lia; done.
  - rewrite list_lookup_insert_ne by lia; done.
Qed.

Lemma znth_app (d : A) l k i :
  0 ≤ i → znth d (l ++ k) i = if i <? zlen l then znth d l i else znth d k (i - zlen l).
Proof.
  unfold znth, zlen; intros Hi. destruct (Z.ltb_spec i (Z.of_nat (length l))).
  - apply app_nth1; lia.
  - rewrite app_nth2 by lia. f_equal; lia.
Qed.

Lemma znth_zslice (d : A) l off n i :
  0 ≤ off → 0 ≤ i < n → off + n ≤ zlen l → znth d (zslice l off n) i = znth d l (off + i).
Proof.
  unfold znth, zslice, zlen; intros. rewrite !nth_lookup, lookup_take_lt, lookup_drop by lia.
  do 2 f_equal; lia.
Qed.

(** Two lists of the same length that agree at every index are equal. *)
Lemma znth_ext (d : A) l k :
  zlen l = zlen k → (∀ i, 0 ≤ i < zlen l → znth d l i = znth d k i) → l = k.
Proof.
  unfold zlen, znth; intros Hlen Hnth. apply nth_ext with d d; [lia|].
  intros n Hn. specialize (Hnth (Z.of_nat n)). rewrite !Nat2Z.id in Hnth. apply Hnth; lia.
Qed.

Lemma zslice_app l off n m :
  0 ≤ off → 0 ≤ n → 0 ≤ m → zslice l off (n + m) = zslice l off n ++ zslice l (off + n) m.
Proof.
  intros. unfold zslice. rewrite !Z2Nat.inj_add by lia.
  rewrite <- take_take_drop, drop_drop. done.
Qed.
Lemma zslice_0 l off : zslice l off 0 = [].
Proof. done. Qed.

Lemma memcpy_nil l off : memcpy l off [] = l.
Proof. done. Qed.

Lemma zslice_all l : zslice l 0 (zlen l) = l.
Proof. unfold zslice, zlen. rewrite drop_0, Nat2Z.id. apply firstn_all. Qed.
End list_lemmas.

(** A relation between two lists strengthened by a fact on the second one. *)
Lemma Forall2_and_r {A B} (P : A → B → Prop) (Q : B → Prop) l k :
  Forall2 P l k → Forall Q k → Forall2 (λ x y, P x y ∧ Q y) l k.
Proof. induction 1; intros HQ; [constructor|]. apply Forall_cons in HQ as [? ?]. auto. Qed.

(** Removing one address from a list, and filtering sorted lists. *)
Lemma filter_ne_id {A} `{EqDecision A} (x : A) (l : list A) : x ∉ l → filter (λ y, y ≠ x) l = l.
Proof.
  induction l as [|y l IH]; intros Hx; [done|]. rewrite filter_cons_True.
  - rewrite IH; [done|]. intros ?; apply Hx. by right.
  - intros ->. apply Hx. by left.
Qed.

Lemma filter_all_id {A} (P : A → Prop) `{!∀ x, Decision (P x)} (l : list A) : Forall P l → filter P l = l.
Proof. induction 1; [done|]. rewrite filter_cons_True by done. by f_equal. Qed.

Lemma filter_none_nil {A} (P : A → Prop) `{!∀ x, Decision (P x)} (l : list A) :
  Forall (λ x, ¬ P x) l → filter P l = [].
Proof. induction 1; [done|]. by rewrite filter_cons_False. Qed.

Lemma Forall_filter_list {A} (P Q : A → Prop) `{!∀ x, Decision (P x)} (l : list A) :
  Forall Q l → Forall Q (filter P l).
Proof. rewrite !Forall_forall. intros HQ x [_ Hx]%list_elem_of_filter. auto. Qed.

Lemma StronglySorted_filter {A} (R : A → A → Prop) (P : A → Prop) `{!∀ x, Decision (P x)} (l : list A) :
  StronglySorted R l → StronglySorted R (filter P l).
Proof.
  induction 1 as [|x l Hl IH Hx]; [constructor|]. rewrite filter_cons.
  destruct (decide (P x)); [|done]. constructor; [done|]. by apply Forall_filter_list.
Qed.

Lemma StronglySorted_impl {A} (R R' : A → A → Prop) l :
  (∀ x y, x ∈ l → y ∈ l → R x y → R' x y) → StronglySorted R l → StronglySorted R' l.
Proof.
  intros HR. induction 1 as [|x l Hl IH Hx]; constructor.
  - apply IH. intros; apply HR; auto using list_elem_of_further.
  - rewrite Forall_forall in *. intros y Hy. apply HR; [by left|by right|auto].
Qed.

Lemma StronglySorted_pair {A} (R : A → A → Prop) (l : list A) x y :
  StronglySorted R l → x ∈ l → y ∈ l → x ≠ y → R x y ∨ R y x.
Proof.
  induction 1 as [|z l Hl IH Hz]; intros Hx Hy Hne; [by apply elem_of_nil in Hx|].
  rewrite Forall_forall in Hz. apply elem_of_cons in Hx, Hy. naive_solver.
Qed.

Lemma find_first_cons {A} (P : A → Prop) `{!∀ x, Decision (P x)} x l :
  find_first P (x :: l) = if decide (P x) then Some x else find_first P l.
Proof.
  unfold find_first. simpl. destruct (decide (P x)); [done|]. by destruct (list_find P l) as [[??]|].
Qed.

#[export] Hint Rewrite @zlen_nil @zlen_cons @zlen_app @zlen_replicate @zlen_memcpy @zlen_zset : zlen.
#[export] Hint Resolve zlen_nonneg : kernel.

Lemma copy_to_user_all writable off src :
  0 ≤ off → off + zlen src ≤ writable → copy_to_user writable off src = (src, 0).
Proof.
  intros. unfold copy_to_user. pose proof (zlen_nonneg src).
  replace (Z.max 0 _) with (zlen src) by lia. rewrite Z.sub_diag.
  unfold zlen. by rewrite Nat2Z.id, firstn_all.
Qed.

(** ** Modular arithmetic *)

(** [x & (2^k - 1)], the optimised modulus of the ring buffers. *)
Lemma land_pow2_mod x k : 0 ≤ k → Z.land x (2 ^ k - 1) = x mod 2 ^ k.
Proof. intros. rewrite <- Z.land_ones by lia. f_equal. rewrite Z.ones_equiv. lia. Qed.

Lemma mod_range x n : 0 < n → 0 ≤ x mod n < n.
Proof. apply Z.mod_pos_bound. Qed.

(** A number within one period of [x] that is in range is [x mod n]. *)
Lemma mod_unique_range x y n k : 0 ≤ y < n → x = n * k + y → x mod n = y.
Proof. intros Hy ->. rewrite Z.add_comm, Z.mul_comm, Z.mod_add by lia. apply Z.mod_small; lia. Qed.

Lemma mod_add_mod_l a b n : 0 < n → (a mod n + b) mod n = (a + b) mod n.
Proof. intros. apply Zplus_mod_idemp_l. Qed.

Lemma mod_add_mod_r a b n : 0 < n → (a + b mod n) mod n = (a + b) mod n.
Proof. intros. apply Zplus_mod_idemp_r. Qed.

Lemma mod_sub_mod_l a b n : 0 < n → (a mod n - b) mod n = (a - b) mod n.
Proof. intros. apply Zminus_mod_idemp_l. Qed.

Lemma mod_sub_mod_r a b n : 0 < n → (a - b mod n) mod n = (a - b) mod n.
Proof. intros. apply Zminus_mod_idemp_r. Qed.

(** The forward distance between two ring offsets. *)
Lemma mod_dist a b n :
  0 ≤ a < n → 0 ≤ b < n → (b - a) mod n = if a <=? b then b - a else b - a + n.
Proof.
  intros. destruct (Z.leb_spec a b).
  - apply Z.mod_small; lia.
  - apply (mod_unique_range _ _ _ (-1)); lia.
Qed.

(** Moving [b] forward by [m] moves the distance from [a] by [m] when it stays
    within one turn. *)
Lemma mod_dist_add a b m n :
  0 < n → 0 ≤ m → (b - a) mod n + m < n → (b + m - a) mod n = (b - a) mod n + m.
Proof.
  intros Hn Hm Hlt. pose proof (mod_range (b - a) n Hn).
  replace (b + m - a) with ((b - a) + m) by lia.
  rewrite <- (mod_add_mod_l (b - a) m) by lia. apply Z.mod_small; lia.
Qed.

Lemma u32_small x : 0 ≤ x < 2 ^ 32 → u32 x = x.
Proof. apply Z.mod_small. Qed.

Lemma u16_small x : 0 ≤ x < 2 ^ 16 → u16 x = x.
Proof. apply Z.mod_small. Qed.

Lemma u32_range x : 0 ≤ u32 x < 2 ^ 32.
Proof. apply Z.mod_pos_bound; lia. Qed.

Lemma s32_small x : - 2 ^ 31 ≤ x < 2 ^ 31 → s32 x = x.
Proof. intros. unfold s32. rewrite Z.mod_small; lia. Qed.

Lemma s32_range x : - 2 ^ 31 ≤ s32 x < 2 ^ 31.
Proof. unfold s32. pose proof (Z.mod_pos_bound (x + 2 ^ 31) (2 ^ 32)). lia. Qed.

(** A 32-bit mask: bits above the width never matter. *)
Lemma u32_mod_pow2 x k : 0 ≤ k ≤ 32 → u32 x mod 2 ^ k = x mod 2 ^ k.
Proof.
  intros. unfold u32. apply Z.mod_mod_divide.
  exists (2 ^ (32 - k)). rewrite <- Z.pow_add_r by lia. f_equal; lia.
Qed.

(** ** Page arithmetic *)

Lemma land_page_mask x : 0 ≤ x < 2 ^ 32 → Z.land x PAGE_MASK = x / 4096 * 4096.
Proof.
  intros Hx. change PAGE_MASK with (Z.ldiff (Z.ones 32) (Z.ones 12)).
  change 4096 with (2 ^ 12). rewrite <- Z.shiftr_div_pow2, <- Z.shiftl_mul_pow2 by lia.
  rewrite <- Z.ldiff_ones_r by lia. apply Z.bits_inj'. intros n Hn.
  rewrite Z.land_spec, !Z.ldiff_spec, Z.testbit_ones_nonneg by lia.
  destruct (Z.ltb_spec n 32); [by rewrite andb_true_l|]. rewrite andb_false_l, andb_false_r.
  symmetry. apply andb_false_iff. left. destruct (Z.eq_dec x 0) as [->|]; [apply Z.bits_0|].
  apply Z.bits_above_log2; [lia|]. apply Z.log2_lt_pow2; [lia|].
  apply Z.lt_le_trans with (2 ^ 32); [lia|]. apply Z.pow_le_mono_r; lia.
Qed.

Lemma page_align_spec x :
  0 < x ≤ 2 ^ 32 - 4096 →
  PAGE_ALIGN x = (x + 4095) / 4096 * 4096 ∧ 4096 ≤ PAGE_ALIGN x ≤ 2 ^ 32 - 4096.
Proof.
  intros Hx. unfold PAGE_ALIGN. rewrite u32_small, land_page_mask by lia. split; [done|].
  pose proof (Z.div_mod (x + 4095) 4096). pose proof (Z.mod_pos_bound (x + 4095) 4096).
  assert (1 ≤ (x + 4095) / 4096) by (apply Z.div_le_lower_bound; lia).
  assert ((x + 4095) / 4096 < 2 ^ 20) by (apply Z.div_lt_upper_bound; lia). lia.
Qed.
