(* ===== verification/Logger.v ===== *)
(** The Android logger (drivers/staging/android/logger.c): four ring buffers
    of variable-length entries, written by [logger_aio_write] and consumed by
    readers that each hold an offset into the ring.

    Definitions follow the C file function by function; a [struct logger_log]
    is [logger_log], a [struct logger_reader] is [logger_reader], a critical
    section under [log->mutex] is one function.  The abstract log is a queue of
    entries per reader ([alog]); [log_rel] relates the two. *)

From S2P Require Import Prelude.

(** ** Data (logger.h, logger.c) *)

Definition LOGGER_ENTRY_MAX_LEN : Z := 4 * 1024.
Definition sizeof_logger_entry : Z := 20.
Definition LOGGER_ENTRY_MAX_PAYLOAD : Z := LOGGER_ENTRY_MAX_LEN - sizeof_logger_entry.

Record logger_entry := mk_logger_entry {
  le_len : Z; le_pad : Z; le_pid : Z; le_tid : Z; le_sec : Z; le_nsec : Z }.

(** The 20 bytes of the header as they lie in memory. *)
Definition entry_bytes (e : logger_entry) : list Z :=
  le16 (le_len e) ++ le16 (le_pad e) ++ le32 (le_pid e) ++ le32 (le_tid e)
  ++ le32 (le_sec e) ++ le32 (le_nsec e).

(** A reader is identified by its address. *)
Record logger_reader := mk_logger_reader { rd_id : Z; r_off : Z }.

Record logger_log := mk_logger_log {
  buffer : list Z; readers : list logger_reader; w_off : Z; head : Z; size : Z }.

Definition set_buffer (log : logger_log) b :=
  mk_logger_log b (readers log) (w_off log) (head log) (size log).
Definition set_readers (log : logger_log) r :=
  mk_logger_log (buffer log) r (w_off log) (head log) (size log).
Definition set_w_off (log : logger_log) w :=
  mk_logger_log (buffer log) (readers log) w (head log) (size log).
Definition set_head (log : logger_log) h :=
  mk_logger_log (buffer log) (readers log) (w_off log) h (size log).

(** The bytes that happen to lie past the end of [log->buffer]. *)
Definition beyond := Z → Z.

Definition byte_at (oob : beyond) (log : logger_log) (i : Z) : Z :=
  if i <? zlen (buffer log) then znth 0 (buffer log) i else oob i.

Definition bytes_at (oob : beyond) (log : logger_log) (i n : Z) : list Z :=
  (λ j, byte_at oob log (i + Z.of_nat j)) <$> seq 0 (Z.to_nat n).

(** ** Operations *)

Definition logger_offset (log : logger_log) (n : Z) : Z := Z.land n (size log - 1).

Definition get_entry_len (oob : beyond) (log : logger_log) (off : Z) : Z :=
  let val :=
    if u32 (size log - off) =? 1
    then byte_at oob log off + 256 * byte_at oob log 0
    else byte_at oob log off + 256 * byte_at oob log (off + 1) in
  sizeof_logger_entry + val.

(** Result, bytes delivered to user space, new read offset. *)
Definition do_read_log_to_user (oob : beyond) (log : logger_log) (r : Z)
    (writable count : Z) : Z * list Z * Z :=
  let len := Z.min count (u32 (size log - r)) in
  let '(out1, left1) := copy_to_user writable 0 (bytes_at oob log r len) in
  if ctrue left1 then (- EFAULT, out1, r) else
  if negb (count =? len) then
    let '(out2, left2) := copy_to_user writable len (bytes_at oob log 0 (count - len)) in
    if ctrue left2 then (- EFAULT, out1 ++ out2, r)
    else (count, out1 ++ out2, logger_offset log (u32 (r + count)))
  else (count, out1, logger_offset log (u32 (r + count))).

(** [logger_read]: the wait loop (one turn of it), then the locked section. *)
Inductive read_wait := WaitErr (e : Z) | WaitSleep | WaitReady.

Definition logger_read_wait (log : logger_log) (r : Z) (nonblock signal : bool) : read_wait :=
  if negb (w_off log =? r) then WaitReady
  else if nonblock then WaitErr (- EAGAIN)
  else if signal then WaitErr (- EINTR)
  else WaitSleep.

Inductive read_result := ReadRestart | ReadDone (ret : Z) (out : list Z) (r' : Z).

Definition logger_read_locked (oob : beyond) (log : logger_log) (r : Z)
    (writable count : Z) : read_result :=
  if w_off log =? r then ReadRestart else
  let ret := get_entry_len oob log r in
  if count <? ret then ReadDone (- EINVAL) [] r
  else let '(ret, out, r') := do_read_log_to_user oob log r writable ret in
       ReadDone ret out r'.

(** The do-while of [get_next_entry]; [None] only when the fuel runs out. *)
Fixpoint get_next_entry_loop (oob : beyond) (fuel : nat) (log : logger_log)
    (off len count : Z) : option Z :=
  match fuel with
  | O => None
  | S fuel =>
      let nr := get_entry_len oob log off in
      let off := logger_offset log (u32 (off + nr)) in
      let count := u32 (count + nr) in
      if count <? len then get_next_entry_loop oob fuel log off len count else Some off
  end.

Definition get_next_entry (oob : beyond) (log : logger_log) (off len : Z) : Z :=
  default off (get_next_entry_loop oob (S (Z.to_nat len)) log off len 0).

Definition clock_interval (a b c : Z) : bool :=
  if b <? a then (a <? c) || (b >=? c)
  else (a <? c) && (b >=? c).

Definition fix_up_readers (oob : beyond) (log : logger_log) (len : Z) : logger_log :=
  let old := w_off log in
  let new := logger_offset log (u32 (old + len)) in
  let log :=
    if clock_interval old new (head log)
    then set_head log (get_next_entry oob log (head log) len) else log in
  set_readers log
    ((λ rd, if clock_interval old new (r_off rd)
            then mk_logger_reader (rd_id rd) (get_next_entry oob log (r_off rd) len)
            else rd) <$> readers log).

Definition do_write_log (log : logger_log) (buf : list Z) (count : Z) : logger_log :=
  let len := Z.min count (u32 (size log - w_off log)) in
  let log1 := set_buffer log (memcpy (buffer log) (w_off log) (zslice buf 0 len)) in
  let log2 :=
    if negb (count =? len)
    then set_buffer log1 (memcpy (buffer log1) 0 (zslice buf len (count - len)))
    else log1 in
  set_w_off log2 (logger_offset log2 (u32 (w_off log2 + count))).

(** "!@", the mark of the lines that are forwarded to the kernel log. *)
Definition klog_mark (b0 b1 : Z) : bool := (b0 =? 33) && (b1 =? 64).

(** The forwarding hook: [klog_buf] (256 bytes) after the write of a segment. *)
Definition klog_fill (oob : beyond) (log : logger_log) (klog_buf : list Z) (count : Z) : list Z :=
  let k := replicate 255 0 ++ [znth 0 klog_buf 255] in
  if klog_mark (byte_at oob log (w_off log)) (byte_at oob log (w_off log + 1)) then
    let n := if count <? 255 then count else 255 in
    zset (memcpy k 0 (bytes_at oob log (w_off log) n)) 255 0
  else k.

Definition do_write_log_from_user (oob : beyond) (log : logger_log) (klog_buf : list Z)
    (buf : ubuf) (count : Z) : Z * logger_log * list Z :=
  let len := Z.min count (u32 (size log - w_off log)) in
  let '(b1, left1) := copy_from_user buf 0 len in
  let log1 := if ctrue len then set_buffer log (memcpy (buffer log) (w_off log) b1) else log in
  if ctrue len && ctrue left1 then (- EFAULT, log1, klog_buf) else
  let '(b2, left2) := copy_from_user buf len (count - len) in
  let log2 := if negb (count =? len) then set_buffer log1 (memcpy (buffer log1) 0 b2) else log1 in
  if negb (count =? len) && ctrue left2 then (- EFAULT, log2, klog_buf) else
  let klog_buf := klog_fill oob log2 klog_buf count in
  (count, set_w_off log2 (logger_offset log2 (u32 (w_off log2 + count))), klog_buf).

(** The segment loop of [logger_aio_write]; [ret] is the payload written so far. *)
Fixpoint write_segments (oob : beyond) (orig hlen : Z) (log : logger_log) (klog_buf : list Z)
    (iov : list ubuf) (ret : Z) : Z * logger_log * list Z :=
  match iov with
  | [] => (ret, log, klog_buf)
  | v :: iov =>
      let len := Z.min (ub_len v) (u32 (hlen - ret)) in
      let '(nr, log, klog_buf) := do_write_log_from_user oob log klog_buf v len in
      if nr <? 0 then (nr, set_w_off log orig, klog_buf)
      else write_segments oob orig hlen log klog_buf iov (ret + nr)
  end.

(** What the writing task brings along when it takes the mutex: identity, time, the two
    bytes of stack that end up in the padding of the header, and [orig], the value that
    [log->w_off] had when the call began.  Other tasks may have written since. *)
Record write_ctx := mk_write_ctx {
  cur_tgid : Z; cur_pid : Z; now_sec : Z; now_nsec : Z; stack_pad : Z; orig : Z }.

Definition make_header (c : write_ctx) (ki_left : Z) : logger_entry :=
  mk_logger_entry (u16 (Z.min ki_left LOGGER_ENTRY_MAX_PAYLOAD)) (stack_pad c)
    (cur_tgid c) (cur_pid c) (now_sec c) (now_nsec c).

(** Result, log, [klog_buf], and the line given to [printk]. *)
Definition logger_aio_write (oob : beyond) (c : write_ctx) (log : logger_log)
    (klog_buf : list Z) (ki_left : Z) (iov : list ubuf)
    : Z * logger_log * list Z * option (list Z) :=
  let header := make_header c ki_left in
  if le_len header =? 0 then (0, log, klog_buf, None) else
  let log := fix_up_readers oob log (sizeof_logger_entry + le_len header) in
  let log := do_write_log log (entry_bytes header) sizeof_logger_entry in
  let '(ret, log, klog_buf) := write_segments oob (orig c) (le_len header) log klog_buf iov 0 in
  if ret <? 0 then (ret, log, klog_buf, None) else
  let out :=
    if klog_mark (znth 0 klog_buf 0) (znth 0 klog_buf 1) then Some klog_buf else None in
  (ret, log, klog_buf, out).

(** *** Files and devices *)

Inductive log_id := LOG_MAIN | LOG_EVENTS | LOG_RADIO | LOG_SYSTEM.
#[export] Instance log_id_eq_dec : EqDecision log_id.
Proof. solve_decision. Defined.

Definition FMODE_READ : Z := 1.
Definition FMODE_WRITE : Z := 2.

(** [file->private_data]: the reader of the log for a file open for reading,
    the log itself otherwise. *)
Inductive private_data := PReader (l : log_id) (rid : Z) | PLog (l : log_id).
Record lfile := mk_lfile { f_mode : Z; f_private : private_data }.

Definition file_get_log (f : lfile) : log_id :=
  if ctrue (Z.land (f_mode f) FMODE_READ)
  then match f_private f with PReader l _ => l | PLog l => l end
  else match f_private f with PLog l => l | PReader l _ => l end.

(** The initial value of [DEFINE_LOGGER_DEVICE(VAR, NAME, SIZE)]. *)
Definition DEFINE_LOGGER_DEVICE (SIZE : Z) : logger_log :=
  mk_logger_log (replicate (Z.to_nat SIZE) 0) [] 0 0 SIZE.

Definition logger_size (l : log_id) : Z :=
  match l with LOG_MAIN => 512 * 1024 | _ => 256 * 1024 end.

Record logger_sys := mk_logger_sys {
  sys_minor : log_id → Z; sys_log : log_id → logger_log; sys_klog : list Z }.

Definition set_log (s : logger_sys) (l : log_id) (log : logger_log) : logger_sys :=
  mk_logger_sys (sys_minor s) (λ l', if decide (l = l') then log else sys_log s l') (sys_klog s).

Definition get_log_from_minor (s : logger_sys) (minor : Z) : option log_id :=
  if sys_minor s LOG_MAIN =? minor then Some LOG_MAIN
  else if sys_minor s LOG_EVENTS =? minor then Some LOG_EVENTS
  else if sys_minor s LOG_RADIO =? minor then Some LOG_RADIO
  else if sys_minor s LOG_SYSTEM =? minor then Some LOG_SYSTEM
  else None.

(** [logger_init] calls [misc_register] on the four logs in order and stops at
    the first failure; the list is that of the registered logs. *)
Definition init_log (misc_register : log_id → Z) (l : log_id) : Z := misc_register l.

Fixpoint logger_init_loop (misc_register : log_id → Z) (ls done : list log_id) : Z * list log_id :=
  match ls with
  | [] => (0, done)
  | l :: ls =>
      let ret := init_log misc_register l in
      if ctrue ret then (ret, done) else logger_init_loop misc_register ls (done ++ [l])
  end.

Definition logger_init (misc_register : log_id → Z) : Z * list log_id :=
  logger_init_loop misc_register [LOG_MAIN; LOG_EVENTS; LOG_RADIO; LOG_SYSTEM] [].

(** [nonseekable_open]'s result and [kmalloc]'s (an address, or none) are
    inputs. *)
Definition logger_open (nonseekable_open : Z) (kmalloc : option Z) (s : logger_sys)
    (minor fmode : Z) : Z * logger_sys * option lfile :=
  if ctrue nonseekable_open then (nonseekable_open, s, None) else
  match get_log_from_minor s minor with
  | None => (- ENODEV, s, None)
  | Some l =>
      if ctrue (Z.land fmode FMODE_READ) then
        match kmalloc with
        | None => (- ENOMEM, s, None)
        | Some rid =>
            let log := sys_log s l in
            let reader := mk_logger_reader rid (head log) in
            (0, set_log s l (set_readers log (readers log ++ [reader])),
             Some (mk_lfile fmode (PReader l rid)))
        end
      else (0, s, Some (mk_lfile fmode (PLog l)))
  end.

(** [list_del(&reader->list)]: the node is unlinked from its log's list. *)
Definition logger_release (s : logger_sys) (f : lfile) : Z * logger_sys :=
  if ctrue (Z.land (f_mode f) FMODE_READ) then
    match f_private f with
    | PReader l rid =>
        let log := sys_log s l in
        (0, set_log s l (set_readers log (filter (λ rd, rd_id rd ≠ rid) (readers log))))
    | PLog _ => (0, s)
    end
  else (0, s).

Definition find_reader (log : logger_log) (rid : Z) : option logger_reader :=
  find_first (λ rd, rd_id rd = rid) (readers log).

Definition POLLIN : Z := 1.
Definition POLLOUT : Z := 4.
Definition POLLRDNORM : Z := 64.
Definition POLLWRNORM : Z := 256.

(** The reader's offset [r] is that of the open file. *)
Definition logger_poll (log : logger_log) (fmode r : Z) : Z :=
  let ret := Z.lor POLLOUT POLLWRNORM in
  if negb (ctrue (Z.land fmode FMODE_READ)) then ret
  else if negb (w_off log =? r) then Z.lor ret (Z.lor POLLIN POLLRDNORM) else ret.

(** [_IO(__LOGGERIO, n)]. *)
Definition LOGGERIO (n : Z) : Z := Z.lor (Z.shiftl 174 8) n.
Definition LOGGER_GET_LOG_BUF_SIZE : Z := LOGGERIO 1.
Definition LOGGER_GET_LOG_LEN : Z := LOGGERIO 2.
Definition LOGGER_GET_NEXT_ENTRY_LEN : Z := LOGGERIO 3.
Definition LOGGER_FLUSH_LOG : Z := LOGGERIO 4.

Definition logger_ioctl (oob : beyond) (log : logger_log) (fmode r cmd : Z) : Z * logger_log :=
  if cmd =? LOGGER_GET_LOG_BUF_SIZE then (size log, log)
  else if cmd =? LOGGER_GET_LOG_LEN then
    if negb (ctrue (Z.land fmode FMODE_READ)) then (- EBADF, log)
    else if w_off log >=? r then (w_off log - r, log)
    else ((size log - r) + w_off log, log)
  else if cmd =? LOGGER_GET_NEXT_ENTRY_LEN then
    if negb (ctrue (Z.land fmode FMODE_READ)) then (- EBADF, log)
    else if negb (w_off log =? r) then (get_entry_len oob log r, log) else (0, log)
  else if cmd =? LOGGER_FLUSH_LOG then
    if negb (ctrue (Z.land fmode FMODE_WRITE)) then (- EBADF, log)
    else (0, set_head (set_readers log
              ((λ rd, mk_logger_reader (rd_id rd) (w_off log)) <$> readers log)) (w_off log))
  else (- ENOTTY, log).

(** ** Abstract log: one queue of entries per reader, one for new readers *)

(** A complete entry as it lies in the ring: header and payload. *)
Definition entry := list Z.

Definition entry_ok (e : entry) : Prop :=
  zlen e = sizeof_logger_entry + (znth 0 e 0 + 256 * znth 0 e 1) ∧
  zlen e ≤ LOGGER_ENTRY_MAX_LEN ∧ sizeof_logger_entry ≤ zlen e.

Definition total (q : list entry) : Z := zlen (concat q).

(** Entries dropped from the front until at least [len] bytes are gone. *)
Fixpoint drop_until (len : Z) (q : list entry) : list entry :=
  match q with
  | [] => []
  | e :: q => if zlen e <? len then drop_until (len - zlen e) q else q
  end.

(** What is left of a queue when [len] more bytes are about to be written
    into a ring of [cap] bytes. *)
Definition lapped (cap len : Z) (q : list entry) : list entry :=
  if total q + len <? cap then q else drop_until len q.

Record alog := mk_alog { a_cap : Z; a_head : list entry; a_readers : list (Z * list entry) }.

(** Push forward every queue, then append the entry (a failed write only does
    the former). *)
Definition a_lap (len : Z) (a : alog) : alog :=
  mk_alog (a_cap a) (lapped (a_cap a) len (a_head a))
    (prod_map id (lapped (a_cap a) len) <$> a_readers a).
Definition a_append (e : entry) (a : alog) : alog :=
  mk_alog (a_cap a) (a_head a ++ [e]) (prod_map id (λ q, q ++ [e]) <$> a_readers a).
Definition a_write (e : entry) (a : alog) : alog := a_append e (a_lap (zlen e) a).
Definition a_flush (a : alog) : alog :=
  mk_alog (a_cap a) [] (prod_map id (λ _, []) <$> a_readers a).
Definition a_open (rid : Z) (a : alog) : alog :=
  mk_alog (a_cap a) (a_head a) (a_readers a ++ [(rid, a_head a)]).
Definition a_close (rid : Z) (a : alog) : alog :=
  mk_alog (a_cap a) (a_head a) (filter (λ p, p.1 ≠ rid) (a_readers a)).

(** The ring seen as an infinite periodic tape, and its segments. *)
Definition ring_at (log : logger_log) (i : Z) : Z := znth 0 (buffer log) (i mod size log).
Definition ring (log : logger_log) (off n : Z) : list Z :=
  (λ j, ring_at log (off + Z.of_nat j)) <$> seq 0 (Z.to_nat n).

(** The sizes [DEFINE_LOGGER_DEVICE] allows: a power of two greater than the
    longest entry, within the address space. *)
Record log_wf (log : logger_log) : Prop := {
  wf_pow2 : ∃ k, 0 ≤ k < 31 ∧ size log = 2 ^ k;
  wf_min : LOGGER_ENTRY_MAX_LEN < size log;
  wf_buf : zlen (buffer log) = size log;
  wf_w : 0 ≤ w_off log < size log }.

(** A reader at offset [r] has exactly the queue [q] in front of it. *)
Record view (log : logger_log) (r : Z) (q : list entry) : Prop := {
  view_off : 0 ≤ r < size log;
  view_ok : Forall entry_ok q;
  view_dist : (w_off log - r) mod size log = total q;
  view_data : ring log r (total q) = concat q }.

Definition reader_rel (log : logger_log) (rd : logger_reader) (p : Z * list entry) : Prop :=
  rd_id rd = p.1 ∧ view log (r_off rd) (p.2).

Record log_rel (log : logger_log) (a : alog) : Prop := {
  rel_wf : log_wf log;
  rel_cap : a_cap a = size log;
  rel_head : view log (head log) (a_head a);
  rel_readers : Forall2 (reader_rel log) (readers log) (a_readers a) }.

(** ** Steps of one log: each is one critical section under [log->mutex] *)

Inductive log_op :=
| OpWrite (c : write_ctx) (ki_left : Z) (iov : list ubuf)
| OpRead (rid writable count : Z)
| OpOpen (rid : Z)
| OpRelease (rid : Z)
| OpFlush.

Definition set_reader (log : logger_log) (rid r' : Z) : logger_log :=
  set_readers log ((λ rd, if rd_id rd =? rid then mk_logger_reader rid r' else rd) <$> readers log).

Inductive log_step (oob : beyond) : logger_log → log_op → Z → list Z → logger_log → Prop :=
| step_write log c klog ki_left iov ret log' klog' out :
    logger_aio_write oob c log klog ki_left iov = (ret, log', klog', out) →
    log_step oob log (OpWrite c ki_left iov) ret [] log'
| step_read log rid writable count rd ret out r' :
    find_reader log rid = Some rd →
    logger_read_locked oob log (r_off rd) writable count = ReadDone ret out r' →
    log_step oob log (OpRead rid writable count) ret out (set_reader log rid r')
| step_open log rid :
    find_reader log rid = None →
    log_step oob log (OpOpen rid) 0 []
      (set_readers log (readers log ++ [mk_logger_reader rid (head log)]))
| step_release log rid :
    log_step oob log (OpRelease rid) 0 []
      (set_readers log (filter (λ rd, rd_id rd ≠ rid) (readers log)))
| step_flush log r log' :
    logger_ioctl oob log FMODE_WRITE r LOGGER_FLUSH_LOG = (0, log') →
    log_step oob log OpFlush 0 [] log'.

(** ** Steps of the abstract log *)

Definition a_find (a : alog) (rid : Z) : option (list entry) :=
  snd <$> find_first (λ p : Z * list entry, p.1 = rid) (a_readers a).
Definition a_set (rid : Z) (q : list entry) (a : alog) : alog :=
  mk_alog (a_cap a) (a_head a)
    ((λ p : Z * list entry, if p.1 =? rid then (rid, q) else p) <$> a_readers a).

(** The payload of an entry: the first [n] bytes of the user's vector. *)
Fixpoint payload (n : Z) (iov : list ubuf) : list Z :=
  match iov with
  | [] => []
  | v :: iov =>
      let len := Z.min (ub_len v) n in zslice (ub_data v) 0 len ++ payload (n - len) iov
  end.

Definition iov_len (iov : list ubuf) : Z := foldr (λ v n, ub_len v + n) 0 iov.
Definition iov_wf (iov : list ubuf) : Prop := Forall (λ v, 0 ≤ ub_len v < 2 ^ 31) iov.

(** The bytes of the first [n] can all be fetched. *)
Fixpoint iov_readable (n : Z) (iov : list ubuf) : Prop :=
  match iov with
  | [] => True
  | v :: iov =>
      let len := Z.min (ub_len v) n in len ≤ zlen (ub_data v) ∧ iov_readable (n - len) iov
  end.

(** The entry a write of [ki_left] bytes leaves in the log. *)
Definition new_entry (c : write_ctx) (ki_left : Z) (iov : list ubuf) : entry :=
  entry_bytes (make_header c ki_left) ++ payload (le_len (make_header c ki_left)) iov.

Inductive alog_step : alog → log_op → Z → list Z → alog → Prop :=
| astep_null a c iov : alog_step a (OpWrite c 0 iov) 0 [] a
| astep_write a c ki_left iov :
    0 < ki_left → iov_readable (Z.min ki_left LOGGER_ENTRY_MAX_PAYLOAD) iov →
    alog_step a (OpWrite c ki_left iov) (Z.min ki_left LOGGER_ENTRY_MAX_PAYLOAD) []
      (a_write (new_entry c ki_left iov) a)
| astep_write_fault a c ki_left iov :
    0 < ki_left → ¬ iov_readable (Z.min ki_left LOGGER_ENTRY_MAX_PAYLOAD) iov →
    alog_step a (OpWrite c ki_left iov) (- EFAULT) []
      (a_lap (sizeof_logger_entry + Z.min ki_left LOGGER_ENTRY_MAX_PAYLOAD) a)
| astep_read a rid writable count e q :
    a_find a rid = Some (e :: q) → zlen e ≤ count → zlen e ≤ writable →
    alog_step a (OpRead rid writable count) (zlen e) e (a_set rid q a)
| astep_read_small a rid writable count e q :
    a_find a rid = Some (e :: q) → count < zlen e →
    alog_step a (OpRead rid writable count) (- EINVAL) [] (a_set rid (e :: q) a)
| astep_read_fault a rid writable count e q :
    a_find a rid = Some (e :: q) → zlen e ≤ count → writable < zlen e →
    alog_step a (OpRead rid writable count) (- EFAULT) (zslice e 0 writable)
      (a_set rid (e :: q) a)
| astep_open a rid : alog_step a (OpOpen rid) 0 [] (a_open rid a)
| astep_release a rid : alog_step a (OpRelease rid) 0 [] (a_close rid a)
| astep_flush a : alog_step a OpFlush 0 [] (a_flush a).

(** A sequence of writes by one or several tasks, and of reads by one reader
    with a buffer of the recommended size. *)
Definition write_call : Type := write_ctx * list ubuf.
Definition call_entry (w : write_call) : entry := new_entry w.1 (iov_len w.2) w.2.
Definition call_ok (w : write_call) : Prop :=
  iov_wf w.2 ∧ 0 < iov_len w.2 ∧
  iov_readable (Z.min (iov_len w.2) LOGGER_ENTRY_MAX_PAYLOAD) w.2.

Fixpoint write_all (oob : beyond) (log : logger_log) (klog : list Z) (ws : list write_call)
    : logger_log :=
  match ws with
  | [] => log
  | w :: ws =>
      let '(_, log, klog, _) := logger_aio_write oob w.1 log klog (iov_len w.2) w.2 in
      write_all oob log klog ws
  end.

Fixpoint read_all (oob : beyond) (log : logger_log) (n : nat) (r : Z) : list entry :=
  match n with
  | O => []
  | S n =>
      match logger_read_locked oob log r LOGGER_ENTRY_MAX_LEN LOGGER_ENTRY_MAX_LEN with
      | ReadRestart => []
      | ReadDone ret out r' => out :: read_all oob log n r'
      end
  end.

(** What the system call layer guarantees of the arguments: the segments of a
    vector add up to [ki_left], user lengths are not negative. *)
Definition op_ok (op : log_op) : Prop :=
  match op with
  | OpWrite _ ki_left iov => iov_wf iov ∧ iov_len iov = ki_left
  | OpRead _ writable count => 0 ≤ writable ∧ 0 ≤ count
  | _ => True
  end.

(** A write that is going to fault has not been overtaken by another one between reading
    [orig] and taking the mutex ([logger_stale_orig_loses_entry] is what happens otherwise).
    Writes that succeed may have been overtaken. *)
Definition not_overtaken (log : logger_log) (op : log_op) : Prop :=
  match op with
  | OpWrite c ki_left iov => ¬ iov_readable (Z.min ki_left LOGGER_ENTRY_MAX_PAYLOAD) iov → orig c = w_off log
  | _ => True
  end.

(** ** Lemmas: the ring *)

Section ring_lemmas.
Context (log : logger_log) (WF : log_wf log).
Let N := size log.

Lemma size_pos : 0 < size log < 2 ^ 31.
Proof.
  destruct (wf_pow2 _ WF) as (k & Hk & ->).
  split; [lia|]. apply Z.pow_lt_mono_r; lia.
Qed.

Lemma size_twice : 2 * LOGGER_ENTRY_MAX_LEN ≤ size log.
Proof.
  destruct (wf_pow2 _ WF) as (k & Hk & Hs). pose proof (wf_min _ WF) as Hm.
  rewrite Hs in *. unfold LOGGER_ENTRY_MAX_LEN in *.
  assert (12 < k) by (apply (Z.pow_lt_mono_r_iff 2); simpl; lia).
  change (2 * (4 * 1024)) with (2 ^ 13). apply Z.pow_le_mono_r; lia.
Qed.

Lemma logger_offset_mod x : logger_offset log (u32 x) = x mod N.
Proof.
  destruct (wf_pow2 _ WF) as (k & Hk & Hs). unfold logger_offset, N. rewrite Hs.
  rewrite land_pow2_mod by lia. apply u32_mod_pow2; lia.
Qed.

Lemma ring_at_mod i : ring_at log (i mod N) = ring_at log i.
Proof. pose proof size_pos. unfold ring_at, N. rewrite Z.mod_mod by lia. done. Qed.

Lemma ring_at_mod_add r j : ring_at log (r mod N + j) = ring_at log (r + j).
Proof.
  pose proof size_pos. rewrite <- (ring_at_mod (r mod N + j)), <- (ring_at_mod (r + j)).
  unfold N. by rewrite mod_add_mod_l by lia.
Qed.

Lemma byte_at_ring oob i : 0 ≤ i < N → byte_at oob log i = ring_at log i.
Proof.
  intros Hi. unfold byte_at, ring_at. rewrite (wf_buf _ WF). fold N.
  rewrite Z.mod_small by lia. by zbool; [|lia].
Qed.

Lemma get_entry_len_ring oob r :
  0 ≤ r < N → get_entry_len oob log r =
    sizeof_logger_entry + (ring_at log r + 256 * ring_at log (r + 1)).
Proof.
  intros Hr. pose proof size_pos. unfold get_entry_len. fold N.
  rewrite u32_small by (unfold N in *; lia).
  zbool; rewrite !byte_at_ring by lia; [|done].
  replace (r + 1) with N by lia. rewrite <- (ring_at_mod N).
  by rewrite Z.mod_same by lia.
Qed.
End ring_lemmas.

Lemma zlen_ring log off n : 0 ≤ n → zlen (ring log off n) = n.
Proof. intros. unfold zlen, ring. rewrite length_fmap, length_seq. lia. Qed.

Lemma znth_fmap_seq (f : nat → Z) n j :
  0 ≤ j < n → znth 0 (f <$> seq 0 (Z.to_nat n)) j = f (Z.to_nat j).
Proof.
  intros Hj. unfold znth. rewrite nth_lookup, list_lookup_fmap.
  rewrite lookup_seq_lt by lia. done.
Qed.

Lemma znth_ring log off n j :
  0 ≤ j < n → znth 0 (ring log off n) j = ring_at log (off + j).
Proof. intros Hj. unfold ring. rewrite znth_fmap_seq by lia. f_equal; lia. Qed.

Lemma ring_eq log off l :
  ring log off (zlen l) = l ↔ ∀ j, 0 ≤ j < zlen l → ring_at log (off + j) = znth 0 l j.
Proof.
  split.
  - intros H j Hj. by rewrite <- (znth_ring log off (zlen l) j Hj), H.
  - intros H. pose proof (zlen_nonneg l). apply (znth_ext 0); rewrite zlen_ring by lia; [done|].
    intros j Hj. rewrite znth_ring by lia. auto.
Qed.

Lemma bytes_at_ring oob log r n :
  log_wf log → 0 ≤ r → 0 ≤ n → r + n ≤ size log → bytes_at oob log r n = ring log r n.
Proof.
  intros WF Hr Hn Hle. unfold bytes_at, ring. apply list_fmap_ext. intros i j Hj.
  apply lookup_seq in Hj as [-> ?]. apply byte_at_ring; [done|]. simpl. lia.
Qed.

Lemma ring_app log off n m :
  0 ≤ n → 0 ≤ m → ring log off (n + m) = ring log off n ++ ring log (off + n) m.
Proof.
  intros. apply (znth_ext 0).
  - rewrite zlen_app, !zlen_ring by lia. done.
  - rewrite zlen_ring by lia. intros i Hi. rewrite znth_ring, znth_app, zlen_ring by lia.
    zbool; rewrite znth_ring by lia; f_equal; lia.
Qed.

Lemma ring_mod log r n : log_wf log → ring log (r mod size log) n = ring log r n.
Proof.
  intros WF. unfold ring. apply list_fmap_ext. intros i j _. by apply ring_at_mod_add.
Qed.

(** ** Lemmas: queues *)

Lemma total_cons e q : total (e :: q) = zlen e + total q.
Proof. unfold total. simpl. apply zlen_app. Qed.

Lemma total_snoc q e : total (q ++ [e]) = total q + zlen e.
Proof. unfold total. rewrite concat_app. simpl. rewrite app_nil_r. apply zlen_app. Qed.

Lemma total_app q q' : total (q ++ q') = total q + total q'.
Proof. unfold total. rewrite concat_app. apply zlen_app. Qed.

Lemma total_nonneg q : 0 ≤ total q.
Proof. apply zlen_nonneg. Qed.

Lemma entry_ok_len e : entry_ok e → 20 ≤ zlen e ≤ 4096.
Proof. intros (_ & H1 & H2). unfold LOGGER_ENTRY_MAX_LEN, sizeof_logger_entry in *. lia. Qed.

Lemma drop_until_total len q :
  0 < len ≤ total q → total (drop_until len q) + len ≤ total q.
Proof.
  revert len. induction q as [|e q IH]; intros len Hlen; [change (total []) with 0 in *; lia|].
  rewrite total_cons in *. simpl. zbool; [|lia].
  specialize (IH (len - zlen e)). lia.
Qed.

Lemma drop_until_ok len q : Forall entry_ok q → Forall entry_ok (drop_until len q).
Proof.
  intros H. revert len. induction H as [|e q He Hq IH]; intros len; simpl; [done|].
  by case_match.
Qed.

(** ** Lemmas: what a reader sees *)

Section view_lemmas.
Context (log : logger_log) (WF : log_wf log).

Lemma view_total_lt r q : view log r q → 0 ≤ total q < size log.
Proof.
  intros V. rewrite <- (view_dist _ _ _ V). apply mod_range. apply size_pos; done.
Qed.

Lemma view_empty r q : view log r q → w_off log = r ↔ q = [].
Proof.
  intros V. pose proof (size_pos _ WF). pose proof (view_dist _ _ _ V) as Hd.
  pose proof (view_off _ _ _ V). pose proof (wf_w _ WF).
  rewrite mod_dist in Hd by lia. split.
  - intros Heq. destruct q as [|e q]; [done|]. pose proof (view_ok _ _ _ V) as Hok.
    apply Forall_cons in Hok as [He%entry_ok_len _]. rewrite total_cons in Hd.
    pose proof (total_nonneg q). zbool; lia.
  - intros ->. change (total []) with 0 in Hd. zbool; lia.
Qed.

Lemma view_cons r e q :
  view log r (e :: q) →
  (∀ oob, get_entry_len oob log r = zlen e) ∧ ring log r (zlen e) = e ∧
  view log ((r + zlen e) mod size log) q.
Proof.
  intros V. pose proof (view_ok _ _ _ V) as Hok. apply Forall_cons in Hok as [He Hq].
  pose proof (entry_ok_len _ He). pose proof (total_nonneg q).
  pose proof (size_pos _ WF). pose proof (view_total_lt _ _ V) as Ht.
  pose proof (view_data _ _ _ V) as Hdata. pose proof (view_dist _ _ _ V) as Hdist.
  rewrite total_cons in *. rewrite ring_app in Hdata by lia. simpl in Hdata.
  apply app_inj_1 in Hdata as [Hd1 Hd2].
  2: { pose proof (zlen_ring log r (zlen e)). unfold zlen in *. lia. }
  split; [|split; [done|split]].
  - intros oob. rewrite get_entry_len_ring by (done || apply (view_off _ _ _ V)).
    destruct He as [-> _]. rewrite ring_eq in Hd1. rewrite <- !Hd1 by lia. by rewrite Z.add_0_r.
  - apply mod_range; lia.
  - done.
  - rewrite mod_sub_mod_r by lia. apply (mod_unique_range _ _ _ ((w_off log - r) / size log)); [lia|].
    pose proof (Z.div_mod (w_off log - r) (size log)). lia.
  - rewrite ring_mod by done. done.
Qed.

(** [get_next_entry] lands on the first entry at least [len] bytes further. *)
Lemma get_next_entry_loop_view oob fuel r q len count :
  view log r q → 0 ≤ count < len → len ≤ LOGGER_ENTRY_MAX_LEN → len - count ≤ total q →
  (Z.to_nat (len - count) < fuel)%nat →
  ∃ r', get_next_entry_loop oob fuel log r len count = Some r' ∧
        view log r' (drop_until (len - count) q).
Proof.
  revert r q count. induction fuel as [|fuel IH]; intros r q count V Hc Hl Ht Hf; [lia|].
  destruct q as [|e q]; [change (total []) with 0 in Ht; lia|].
  destruct (view_cons _ _ _ V) as (Hlen & _ & V').
  pose proof (view_ok _ _ _ V) as [He%entry_ok_len _]%Forall_cons.
  unfold LOGGER_ENTRY_MAX_LEN in *.
  simpl. rewrite Hlen, logger_offset_mod, (u32_small (count + zlen e)) by (done || lia).
  rewrite total_cons in Ht.
  destruct (Z.ltb_spec (count + zlen e) len), (Z.ltb_spec (zlen e) (len - count)); try lia.
  - replace (len - count - zlen e) with (len - (count + zlen e)) by lia. apply IH; done || lia.
  - eauto.
Qed.

Lemma get_next_entry_view oob r q len :
  view log r q → 0 < len ≤ LOGGER_ENTRY_MAX_LEN → len ≤ total q →
  view log (get_next_entry oob log r len) (drop_until len q).
Proof.
  intros V Hl Ht. unfold get_next_entry.
  destruct (get_next_entry_loop_view oob (S (Z.to_nat len)) r q len 0) as (r' & -> & Hv);
    [done|lia|lia|lia|lia|].
  simpl. by rewrite Z.sub_0_r in Hv.
Qed.

(** [clock_interval(old, new, c)]: writing [len] bytes at [old] reaches [c]. *)
Lemma clock_interval_dist c len :
  0 ≤ c < size log → 0 < len < size log →
  clock_interval (w_off log) (logger_offset log (u32 (w_off log + len))) c =
  (0 <? (c - w_off log) mod size log) && ((c - w_off log) mod size log <=? len).
Proof.
  intros Hc Hl. rewrite logger_offset_mod by done. pose proof (wf_w _ WF).
  pose proof (size_pos _ WF). rewrite (mod_dist (w_off log) c) by lia.
  assert ((w_off log + len) mod size log =
    if w_off log + len <? size log then w_off log + len else w_off log + len - size log) as ->.
  { zbool; [apply Z.mod_small; lia|apply (mod_unique_range _ _ _ 1); lia]. }
  unfold clock_interval. zbool; simpl; try done; try lia.
Qed.

(** A reader the write would reach is pulled forward; afterwards the queue in
    front of it and the new entry fit in the ring together. *)
Lemma fix_up_view oob r q len :
  view log r q → 0 < len ≤ LOGGER_ENTRY_MAX_LEN →
  let r' := if clock_interval (w_off log) (logger_offset log (u32 (w_off log + len))) r
            then get_next_entry oob log r len else r in
  view log r' (lapped (size log) len q) ∧ total (lapped (size log) len q) + len < size log.
Proof.
  intros V Hl r'. pose proof (size_twice _ WF) as H2. pose proof (size_pos _ WF).
  pose proof (view_off _ _ _ V) as Hr. pose proof (view_total_lt _ _ V) as Ht.
  unfold r'. rewrite clock_interval_dist by (done || lia).
  pose proof (view_dist _ _ _ V) as Hd. pose proof (wf_w _ WF) as Hw.
  rewrite mod_dist in Hd by lia. rewrite mod_dist by lia. unfold lapped.
  destruct (Z.leb_spec (w_off log) r), (Z.leb_spec r (w_off log)); try lia; zbool; simpl; try lia;
    try (split; [done|lia]);
    (split; [apply get_next_entry_view; done || lia|]);
    (pose proof (drop_until_total len q); lia).
Qed.
End view_lemmas.

(** Every queue leaves room for [len] more bytes. *)
Definition a_room (a : alog) (len : Z) : Prop :=
  total (a_head a) + len < a_cap a ∧
  Forall (λ p : Z * list entry, total p.2 + len < a_cap a) (a_readers a).

(** A view depends on the ring, the write offset and the size only. *)
Lemma view_irrel log log' r q :
  buffer log = buffer log' → w_off log = w_off log' → size log = size log' →
  view log r q → view log' r q.
Proof.
  intros Hb Hw Hs [V1 V2 V3 V4].
  assert (ring log' r (total q) = ring log r (total q)) as HR
    by (unfold ring, ring_at; by rewrite Hb, Hs).
  split; rewrite <- ?Hs, <- ?Hw, ?HR; done.
Qed.

Lemma log_wf_irrel log log' :
  buffer log = buffer log' → w_off log = w_off log' → size log = size log' →
  log_wf log → log_wf log'.
Proof. intros Hb Hw Hs [? ? ? ?]. split; rewrite <- ?Hs, <- ?Hw, <- ?Hb; done. Qed.

Lemma fix_up_readers_frame oob log len :
  let log' := fix_up_readers oob log len in
  buffer log' = buffer log ∧ w_off log' = w_off log ∧ size log' = size log.
Proof. unfold fix_up_readers. by destruct (clock_interval _ _ (head log)). Qed.

(** Moving the head does not change where the entries are. *)
Lemma get_next_entry_set_head oob log h r len :
  get_next_entry oob (set_head log h) r len = get_next_entry oob log r len.
Proof.
  unfold get_next_entry. f_equal. generalize (S (Z.to_nat len)), 0. intros n. revert r.
  induction n as [|n IH]; intros r c; [done|]. simpl.
  change (get_entry_len oob (set_head log h) r) with (get_entry_len oob log r).
  case_match; [apply IH|done].
Qed.

Lemma fix_up_readers_list oob log len :
  readers (fix_up_readers oob log len) =
  (λ rd, if clock_interval (w_off log) (logger_offset log (u32 (w_off log + len))) (r_off rd)
         then mk_logger_reader (rd_id rd) (get_next_entry oob log (r_off rd) len)
         else rd) <$> readers log.
Proof.
  unfold fix_up_readers. destruct (clock_interval _ _ (head log)); [|done]. simpl.
  apply list_fmap_ext. intros _ rd _. by rewrite get_next_entry_set_head.
Qed.

Lemma fix_up_readers_head oob log len :
  head (fix_up_readers oob log len) =
  if clock_interval (w_off log) (logger_offset log (u32 (w_off log + len))) (head log)
  then get_next_entry oob log (head log) len else head log.
Proof. unfold fix_up_readers. by destruct (clock_interval _ _ (head log)). Qed.

Lemma fix_up_readers_rel oob log a len :
  log_rel log a → 0 < len ≤ LOGGER_ENTRY_MAX_LEN →
  log_rel (fix_up_readers oob log len) (a_lap len a) ∧ a_room (a_lap len a) len.
Proof.
  intros [WF Hcap Hh Hr] Hl. destruct (fix_up_readers_frame oob log len) as (Eb & Ew & Es).
  destruct (fix_up_view log WF oob _ _ len Hh Hl) as [Vh Rh].
  assert (Forall2 (λ rd p, reader_rel (fix_up_readers oob log len) rd p ∧
             total p.2 + len < a_cap a)
           (readers (fix_up_readers oob log len)) (a_readers (a_lap len a))) as HF.
  { rewrite fix_up_readers_list. simpl. apply Forall2_fmap.
    eapply Forall2_impl; [apply Hr|]. intros rd [i q] [Hid V]; simpl in *. rewrite Hcap.
    destruct (fix_up_view log WF oob _ _ len V Hl) as [Vr Rr]. split; [|done].
    case_match; split; simpl; try done; by apply (view_irrel log). }
  split; split.
  - by apply (log_wf_irrel log).
  - by rewrite Es, <- Hcap.
  - rewrite fix_up_readers_head. simpl. rewrite Hcap. by apply (view_irrel log).
  - eapply Forall2_impl; [apply HF|]. by intros ?? [? _].
  - simpl. by rewrite Hcap.
  - eapply Forall2_Forall_r; [apply HF|]. apply Forall_forall. by intros rd _ p [_ ?].
Qed.

(** ** Lemmas: writing into the ring *)

(** The two [memcpy] of a write of [bs] at the write offset. *)
Definition blit (log : logger_log) (bs : list Z) : logger_log :=
  let len := Z.min (zlen bs) (size log - w_off log) in
  set_buffer log (memcpy (memcpy (buffer log) (w_off log) (zslice bs 0 len)) 0
                    (zslice bs len (zlen bs - len))).

(** [log] is [log0] after the bytes [bs] were written at its write offset. *)
Record wrote (log0 : logger_log) (bs : list Z) (log : logger_log) : Prop := {
  wrote_size : size log = size log0;
  wrote_buf : zlen (buffer log) = zlen (buffer log0);
  wrote_readers : readers log = readers log0;
  wrote_head : head log = head log0;
  wrote_off : w_off log = (w_off log0 + zlen bs) mod size log0;
  wrote_fits : zlen bs ≤ size log0;
  wrote_ring : ∀ i, ring_at log i =
    let d := (i - w_off log0) mod size log0 in
    if d <? zlen bs then znth 0 bs d else ring_at log0 i }.

(** [log] differs from [log0] at most in [n] bytes from its write offset. *)
Record clobbered (log0 : logger_log) (n : Z) (log : logger_log) : Prop := {
  clob_size : size log = size log0;
  clob_buf : zlen (buffer log) = zlen (buffer log0);
  clob_readers : readers log = readers log0;
  clob_head : head log = head log0;
  clob_ring : ∀ i, n ≤ (i - w_off log0) mod size log0 → ring_at log i = ring_at log0 i }.

Lemma blit_ring_at log bs i :
  log_wf log → zlen bs ≤ size log →
  ring_at (blit log bs) i =
  let d := (i - w_off log) mod size log in
  if d <? zlen bs then znth 0 bs d else ring_at log i.
Proof.
  intros WF Hbs. pose proof (wf_w _ WF) as Hw. pose proof (size_pos _ WF) as Hs.
  pose proof (wf_buf _ WF) as Hb. pose proof (zlen_nonneg bs) as Hn.
  unfold ring_at, blit; simpl. set (j := i mod size log).
  assert (0 ≤ j < size log) by (apply mod_range; lia).
  assert ((i - w_off log) mod size log = if w_off log <=? j then j - w_off log else j - w_off log + size log) as ->.
  { rewrite <- mod_sub_mod_l by lia. fold j. rewrite mod_dist by lia. done. }
  set (len := Z.min (zlen bs) (size log - w_off log)).
  assert (zlen (zslice bs 0 len) = len) as L1 by (apply zlen_zslice; lia).
  assert (zlen (zslice bs len (zlen bs - len)) = zlen bs - len) as L2 by (apply zlen_zslice; lia).
  rewrite !znth_memcpy by (rewrite ?zlen_memcpy, ?L1, ?L2; lia). rewrite L1, L2.
  zbool; simpl; try lia; rewrite ?znth_zslice by lia; try done; f_equal; lia.
Qed.

Lemma wrote_nil log : log_wf log → wrote log [] log.
Proof.
  intros WF. pose proof (size_pos _ WF). pose proof (wf_w _ WF).
  split; try done; rewrite ?zlen_nil; try lia.
  - rewrite Z.add_0_r, Z.mod_small by lia. done.
  - intros i. simpl. pose proof (mod_range (i - w_off log) (size log)). zbool; [lia|done].
Qed.

Lemma wrote_wf log0 bs log : log_wf log0 → wrote log0 bs log → log_wf log.
Proof.
  intros WF H. pose proof (size_pos _ WF). destruct WF as [? ? ? ?], H as [E ? ? ? Ew ? ?].
  split; rewrite ?E, ?Ew; try done; [lia|apply mod_range; lia].
Qed.

(** The state in which a copy of [bs'] at the current offset ends. *)
Definition advance (log : logger_log) (bs : list Z) : logger_log :=
  set_w_off (blit log bs) ((w_off log + zlen bs) mod size log).

Lemma wrote_advance log0 bs log bs' :
  log_wf log0 → wrote log0 bs log → zlen bs + zlen bs' ≤ size log0 →
  wrote log0 (bs ++ bs') (advance log bs').
Proof.
  intros WF0 H Hle. pose proof (wrote_wf _ _ _ WF0 H) as WF.
  pose proof (size_pos _ WF0). pose proof (zlen_nonneg bs). pose proof (zlen_nonneg bs').
  destruct H as [Es Eb Er Eh Ew Hf Hring].
  split; simpl; try done.
  - by rewrite !zlen_memcpy.
  - rewrite Es, Ew, mod_add_mod_l by lia. rewrite zlen_app. f_equal; lia.
  - rewrite zlen_app; lia.
  - intros i. change (ring_at (advance log bs') i) with (ring_at (blit log bs') i).
    rewrite blit_ring_at by (done || lia). simpl. rewrite zlen_app, Hring, Es, Ew. cbv zeta.
    rewrite mod_sub_mod_r by lia. set (d := (i - w_off log0) mod size log0).
    assert (0 ≤ d < size log0) by (apply mod_range; lia).
    assert ((i - (w_off log0 + zlen bs)) mod size log0 =
            if zlen bs <=? d then d - zlen bs else d - zlen bs + size log0) as ->.
    { replace (i - (w_off log0 + zlen bs)) with ((i - w_off log0) - zlen bs) by lia.
      rewrite <- mod_sub_mod_l by lia. fold d.
      destruct (Z.leb_spec (zlen bs) d).
      - apply Z.mod_small; lia.
      - apply (mod_unique_range _ _ _ (-1)); lia. }
    rewrite znth_app by lia. zbool; try lia; try done.
Qed.

Lemma wrote_clobbered log0 bs log n :
  log_wf log0 → wrote log0 bs log → zlen bs ≤ n → clobbered log0 n log.
Proof.
  intros WF [Es Eb Er Eh Ew Hf Hring] Hn. split; try done.
  intros i Hi. rewrite Hring. simpl. by zbool; [lia|].
Qed.

(** A queue that leaves room is not touched by the write, and gains the entry
    once the write is complete. *)
Lemma view_wrote log0 log r q e :
  log_wf log0 → wrote log0 e log → entry_ok e → total q + zlen e < size log0 →
  view log0 r q → view log r (q ++ [e]).
Proof.
  intros WF W He Hroom V. pose proof (size_pos _ WF). pose proof (zlen_nonneg e).
  pose proof (wf_w _ WF). pose proof (total_nonneg q).
  destruct W as [Es Eb Er Eh Ew Hf Hring], V as [Vo Vk Vd Vr]. cbv zeta in Hring.
  set (N := size log0) in *. set (w := w_off log0) in *.
  assert (∀ j, 0 ≤ j < N → (r + j - w) mod N = (j - total q) mod N) as Hpos.
  { intros j Hj. rewrite <- Vd, mod_sub_mod_r by lia. f_equal; lia. }
  split; rewrite ?Es; [done| |rewrite total_snoc|].
  - apply Forall_app; auto.
  - rewrite Ew, mod_sub_mod_l by lia.
    replace (w + zlen e - r) with ((w - r) + zlen e) by lia.
    rewrite <- mod_add_mod_l, Vd by lia. apply Z.mod_small; lia.
  - change (total (q ++ [e])) with (zlen (concat (q ++ [e]))).
    rewrite concat_app; simpl; rewrite app_nil_r.
    apply ring_eq. rewrite zlen_app. change (zlen (concat q)) with (total q) in *.
    pose proof (proj1 (ring_eq log0 r (concat q)) Vr) as Vr'. clear Vr.
    change (zlen (concat q)) with (total q) in Vr'.
    intros j Hj. rewrite Hring, Hpos, znth_app by lia.
    change (zlen (concat q)) with (total q).
    destruct (Z.ltb_spec j (total q)).
    + rewrite (mod_unique_range (j - total q) (j - total q + N) N (-1)) by lia.
      zbool; [lia|]. apply Vr'; lia.
    + rewrite Z.mod_small by lia. by zbool; [|lia].
Qed.

Lemma view_clobbered log0 log r q n :
  log_wf log0 → clobbered log0 n log → w_off log = w_off log0 → total q + n < size log0 → 0 ≤ n →
  view log0 r q → view log r q.
Proof.
  intros WF C Ew Hroom Hn V. pose proof (size_pos _ WF). pose proof (total_nonneg q).
  destruct C as [Es Eb Er Eh Hring], V as [Vo Vk Vd Vr].
  split; rewrite ?Es, ?Ew; try done.
  pose proof (proj1 (ring_eq log0 r (concat q)) Vr) as Vr'. apply (ring_eq log r (concat q)).
  change (zlen (concat q)) with (total q) in *.
  intros j Hj. rewrite Hring; [apply Vr'; lia|].
  replace (r + j - w_off log0) with (j - (w_off log0 - r)) by lia.
  rewrite <- mod_sub_mod_r, Vd by lia.
  rewrite (mod_unique_range (j - total q) (j - total q + size log0) _ (-1)) by lia. lia.
Qed.

Lemma log_rel_wrote log0 log a e :
  log_rel log0 a → wrote log0 e log → entry_ok e → a_room a (zlen e) →
  log_rel log (a_append e a).
Proof.
  intros [WF Hcap Hh Hr] W He [Rh Rr]. pose proof W as [Es Eb Er Eh _ _ _]. rewrite Hcap in *.
  split; simpl.
  - by apply (wrote_wf log0 e).
  - by rewrite Es.
  - rewrite Eh. by apply (view_wrote log0).
  - rewrite Er. apply Forall2_fmap_r.
    eapply Forall2_impl; [apply (Forall2_and_r _ _ _ _ Hr Rr)|].
    intros rd [i q] [[Hid V] Hq]. split; [done|]. by apply (view_wrote log0).
Qed.

Lemma log_rel_clobbered log0 log a n :
  log_rel log0 a → clobbered log0 n log → w_off log = w_off log0 → 0 ≤ n → a_room a n →
  log_rel log a.
Proof.
  intros [WF Hcap Hh Hr] C Ew Hn [Rh Rr]. pose proof C as [Es Eb Er Eh _]. rewrite Hcap in *.
  split; rewrite ?Es, ?Eh; try done.
  - destruct WF as [? ? ? ?]. split; rewrite ?Es, ?Eb, ?Ew; done.
  - by apply (view_clobbered log0 _ _ _ n).
  - rewrite Er. eapply Forall2_impl; [apply (Forall2_and_r _ _ _ _ Hr Rr)|].
    intros rd [i q] [[Hid V] Hq]. split; [done|]. by apply (view_clobbered log0 _ _ _ n).
Qed.

(** ** Lemmas: the write path of the code *)

Lemma zlen_entry_bytes h : zlen (entry_bytes h) = sizeof_logger_entry.
Proof. done. Qed.

Lemma do_write_log_advance log buf count :
  log_wf log → zlen buf = count → count ≤ size log →
  do_write_log log buf count = advance log buf.
Proof.
  intros WF <- Hc. pose proof (wf_w _ WF). pose proof (size_pos _ WF). pose proof (zlen_nonneg buf).
  unfold do_write_log, advance, blit. rewrite u32_small by lia.
  set (len := Z.min (zlen buf) (size log - w_off log)).
  destruct (Z.eqb_spec (zlen buf) len) as [Heq|]; simpl.
  - rewrite <- Heq, Z.sub_diag. unfold set_w_off; simpl.
    rewrite (logger_offset_mod (set_buffer log _)).
    + by rewrite zslice_0, memcpy_nil.
    + destruct WF. split; simpl; try done. by rewrite zlen_memcpy.
  - unfold set_w_off; simpl. rewrite (logger_offset_mod (set_buffer _ _)).
    + done.
    + destruct WF. split; simpl; try done. by rewrite !zlen_memcpy.
Qed.

Lemma copy_from_user_len v off n : 0 ≤ n → zlen (copy_from_user v off n).1 = n.
Proof.
  intros. unfold copy_from_user, zslice, zlen. simpl.
  rewrite length_app, length_replicate, length_take. lia.
Qed.

Lemma copy_from_user_ok v off n :
  0 ≤ n → ctrue (copy_from_user v off n).2 = false →
  (copy_from_user v off n).1 = zslice (ub_data v) off n ∧ zlen (zslice (ub_data v) off n) = n.
Proof.
  unfold copy_from_user, ctrue; simpl. intros Hn H. zprop.
  assert (zlen (zslice (ub_data v) off n) = n) as E by lia. split; [|done].
  unfold zlen in E. replace (Z.to_nat n - length _)%nat with 0%nat by lia. apply app_nil_r.
Qed.

Lemma copy_from_user_fault v off n :
  0 ≤ n → 0 ≤ off → ctrue (copy_from_user v off n).2 = true → zlen (ub_data v) < off + n.
Proof.
  unfold copy_from_user, ctrue, zslice, zlen; simpl. intros Hn Ho H. zprop.
  rewrite length_take, length_drop in H. lia.
Qed.

(** The two copies of a segment are one write into the ring. *)
Lemma blit_two log b1 b2 :
  log_wf log → zlen b1 = Z.min (zlen b1 + zlen b2) (size log - w_off log) →
  set_buffer log (memcpy (memcpy (buffer log) (w_off log) b1) 0 b2) = blit log (b1 ++ b2).
Proof.
  intros WF Hb. unfold blit. rewrite zlen_app, <- Hb.
  assert (zslice (b1 ++ b2) 0 (zlen b1) = b1) as ->.
  { unfold zslice, zlen. rewrite drop_0, Nat2Z.id. apply take_app_length. }
  replace (zlen b1 + zlen b2 - zlen b1) with (zlen b2) by lia.
  assert (zslice (b1 ++ b2) (zlen b1) (zlen b2) = b2) as ->; [|done].
  unfold zslice, zlen. rewrite !Nat2Z.id, drop_app_length. apply firstn_all.
Qed.

Lemma wf_blit log bs : log_wf log → log_wf (blit log bs).
Proof. intros [? ? ? ?]. split; simpl; rewrite ?zlen_memcpy; done. Qed.

Lemma do_write_log_from_user_cases oob log klog v count nr log' klog' :
  log_wf log → 0 ≤ count ≤ size log →
  do_write_log_from_user oob log klog v count = (nr, log', klog') →
  (nr = count ∧ zlen (zslice (ub_data v) 0 count) = count ∧
   log' = advance log (zslice (ub_data v) 0 count)) ∨
  (nr = - EFAULT ∧ zlen (ub_data v) < count ∧ ∃ bs, zlen bs ≤ count ∧ log' = blit log bs).
Proof.
  intros WF Hc. pose proof (wf_w _ WF). pose proof (size_pos _ WF).
  unfold do_write_log_from_user. rewrite u32_small by lia.
  set (len := Z.min count (size log - w_off log)).
  destruct (copy_from_user v 0 len) as [b1 l1] eqn:E1.
  destruct (copy_from_user v len (count - len)) as [b2 l2] eqn:E2.
  assert (zlen b1 = len) as L1 by (rewrite <- (copy_from_user_len v 0 len) by lia; by rewrite E1).
  assert (zlen b2 = count - len) as L2
    by (rewrite <- (copy_from_user_len v len (count - len)) by lia; by rewrite E2).
  assert ((if ctrue len then set_buffer log (memcpy (buffer log) (w_off log) b1) else log)
          = set_buffer log (memcpy (buffer log) (w_off log) b1)) as ->.
  { unfold ctrue. destruct (Z.eqb_spec len 0) as [Hz|]; [|done]. rewrite Hz in L1.
    destruct b1; [by destruct log|]. rewrite zlen_cons in L1. pose proof (zlen_nonneg b1). lia. }
  assert ((if negb (count =? len)
           then set_buffer (set_buffer log (memcpy (buffer log) (w_off log) b1))
                  (memcpy (buffer (set_buffer log (memcpy (buffer log) (w_off log) b1))) 0 b2)
           else set_buffer log (memcpy (buffer log) (w_off log) b1)) = blit log (b1 ++ b2)) as ->.
  { rewrite <- blit_two by (done || lia). destruct (Z.eqb_spec count len); [|done].
    destruct b2; [done|]. rewrite zlen_cons in L2. pose proof (zlen_nonneg b2). lia. }
  destruct (ctrue len && ctrue l1) eqn:F1; [|destruct (negb (count =? len) && ctrue l2) eqn:F2];
    intros [= <- <- <-].
  - right. zprop. pose proof (copy_from_user_fault v 0 len) as HF. rewrite E1 in HF.
    split; [done|]. split; [specialize (HF ltac:(lia) ltac:(lia) ltac:(done)); lia|].
    exists b1. split; [lia|]. rewrite <- (app_nil_r b1) at 2.
    rewrite <- blit_two, memcpy_nil; [done|done|rewrite zlen_nil; lia].
  - right. zprop. pose proof (copy_from_user_fault v len (count - len)) as HF. rewrite E2 in HF.
    split; [done|]. split; [specialize (HF ltac:(lia) ltac:(lia) ltac:(done)); lia|].
    exists (b1 ++ b2). rewrite zlen_app. split; [lia|done].
  - left. split; [done|].
    destruct (copy_from_user_ok v 0 len) as [K1 M1]; [lia|rewrite E1; simpl|].
    { destruct (ctrue len) eqn:Hl; [done|]. unfold ctrue in Hl. zprop.
      assert (l1 = 0) as ->; [|done]. rewrite Hl in E1. unfold copy_from_user in E1.
      rewrite zslice_0 in E1. by injection E1 as _ <-. }
    assert (b2 = zslice (ub_data v) len (count - len) ∧ zlen (zslice (ub_data v) len (count - len)) = count - len)
      as [K2 M2].
    { destruct (Z.eqb_spec count len) as [He|]; simpl in F2.
      - replace (count - len) with 0 in * by lia. rewrite zslice_0. split; [|done].
        destruct b2; [done|]. rewrite zlen_cons in L2. pose proof (zlen_nonneg b2). lia.
      - destruct (copy_from_user_ok v len (count - len)) as [K2 M2]; [lia|by rewrite E2|].
        rewrite E2 in K2. done. }
    rewrite E1 in K1. simpl in K1. subst b1 b2.
    assert (zslice (ub_data v) 0 len ++ zslice (ub_data v) len (count - len) = zslice (ub_data v) 0 count) as EC.
    { replace count with (len + (count - len)) at 2 by lia. by rewrite zslice_app by lia. }
    assert (zlen (zslice (ub_data v) 0 count) = count) as LC by (rewrite <- EC, zlen_app; lia).
    split; [done|]. unfold advance. rewrite EC, LC.
    by rewrite (logger_offset_mod (blit log _)) by (by apply wf_blit).
Qed.

Lemma iov_len_nonneg iov : iov_wf iov → 0 ≤ iov_len iov.
Proof. induction 1; simpl; lia. Qed.

Lemma zlen_payload n iov :
  iov_wf iov → iov_readable n iov → 0 ≤ n → zlen (payload n iov) = Z.min n (iov_len iov).
Proof.
  intros Hwf. revert n. induction Hwf as [|v iov Hv Hwf IH]; intros n Hr Hn; simpl.
  { rewrite zlen_nil; lia. }
  destruct Hr as [Hd Hr]. pose proof (iov_len_nonneg _ Hwf).
  rewrite zlen_app, zlen_zslice, IH by (done || lia). lia.
Qed.

Lemma clobbered_blit log0 bs log bs' n :
  log_wf log0 → wrote log0 bs log → zlen bs + zlen bs' ≤ n → n ≤ size log0 → ∀ w,
  clobbered log0 n (set_w_off (blit log bs') w).
Proof.
  intros WF W Hn HN w. pose proof (zlen_nonneg bs). pose proof (zlen_nonneg bs').
  destruct (wrote_clobbered log0 (bs ++ bs') (advance log bs') n WF) as [? ? ? ? Hr].
  - apply wrote_advance; done || lia.
  - rewrite zlen_app; lia.
  - split; try done.
Qed.

Lemma write_segments_cases oob log0 hlen orig iov log done klog ret ret' log' klog' :
  log_wf log0 → wrote log0 done log → iov_wf iov →
  0 ≤ ret ≤ hlen → hlen < 2 ^ 31 → zlen done + (hlen - ret) ≤ size log0 →
  write_segments oob orig hlen log klog iov ret = (ret', log', klog') →
  (ret' = ret + zlen (payload (hlen - ret) iov) ∧ iov_readable (hlen - ret) iov ∧
   wrote log0 (done ++ payload (hlen - ret) iov) log') ∨
  (ret' = - EFAULT ∧ w_off log' = orig ∧ clobbered log0 (zlen done + (hlen - ret)) log' ∧
   ¬ iov_readable (hlen - ret) iov).
Proof.
  intros WF. revert log done klog ret.
  induction iov as [|v iov IH]; intros log done klog ret W Hiov Hret Hh Hfit; simpl.
  { intros [= <- <- <-]. left. rewrite zlen_nil, app_nil_r. split; [lia|done]. }
  apply Forall_cons in Hiov as [Hv Hiov]. pose proof (wrote_wf _ _ _ WF W) as WFl.
  pose proof (zlen_nonneg done). pose proof (wrote_size _ _ _ W) as Es.
  rewrite u32_small by lia. set (len := Z.min (ub_len v) (hlen - ret)).
  destruct (do_write_log_from_user oob log klog v len) as [[nr log1] klog1] eqn:E.
  apply do_write_log_from_user_cases in E as [(-> & Hlen & ->)|(-> & Hd & bs & Hbs & ->)];
    [| |done|rewrite Es; lia].
  - destruct (Z.ltb_spec len 0); [lia|]. intros Hrec.
    apply (IH _ (done ++ zslice (ub_data v) 0 len)) in Hrec; try done.
    + replace (hlen - (ret + len)) with (hlen - ret - len) in Hrec by lia.
      rewrite !zlen_app, Hlen in *. rewrite <- app_assoc in Hrec.
      assert (len ≤ zlen (ub_data v)).
      { unfold zslice, zlen in *. rewrite length_take, length_drop in Hlen. lia. }
      destruct Hrec as [(-> & ? & ?)|(-> & -> & HC & HR)]; [left; split; [lia|done]|right].
      split; [done|]. split; [done|]. split; [|by intros [_ ?]].
      replace (zlen done + (hlen - ret)) with (zlen done + len + (hlen - ret - len)) by lia. done.
    + apply wrote_advance; [done|done|lia].
    + lia.
    + rewrite zlen_app. lia.
  - change (- EFAULT <? 0) with true. intros [= <- <- <-]. right.
    split; [done|]. split; [done|]. split.
    + apply (clobbered_blit log0 done); done || lia.
    + intros [Hr _]. lia.
Qed.

Lemma header_len c ki_left :
  0 < ki_left → le_len (make_header c ki_left) = Z.min ki_left 4076.
Proof. intros. apply u16_small. change LOGGER_ENTRY_MAX_PAYLOAD with 4076. lia. Qed.

Lemma entry_ok_intro h p :
  zlen p = le_len h → 0 ≤ le_len h ≤ LOGGER_ENTRY_MAX_PAYLOAD → entry_ok (entry_bytes h ++ p).
Proof.
  intros Hp Hl. change LOGGER_ENTRY_MAX_PAYLOAD with 4076 in Hl.
  unfold entry_ok. change LOGGER_ENTRY_MAX_LEN with 4096. change sizeof_logger_entry with 20.
  rewrite zlen_app, zlen_entry_bytes, Hp. change sizeof_logger_entry with 20.
  change (znth 0 (entry_bytes h ++ p) 0) with (le_len h mod 256).
  change (znth 0 (entry_bytes h ++ p) 1) with ((le_len h / 256) mod 256).
  rewrite (Z.mod_small (le_len h / 256)).
  - pose proof (Z.div_mod (le_len h) 256). lia.
  - split; [apply Z.div_pos; lia|apply Z.div_lt_upper_bound; lia].
Qed.

(** Everything a call of [logger_aio_write] can do to a well-formed log. *)
Lemma logger_aio_write_cases oob c log a klog ki_left iov ret log' klog' out :
  log_rel log a → iov_wf iov → iov_len iov = ki_left → 0 < ki_left →
  logger_aio_write oob c log klog ki_left iov = (ret, log', klog', out) →
  let h := make_header c ki_left in
  let e := entry_bytes h ++ payload (le_len h) iov in
  (ret = zlen (payload (le_len h) iov) ∧ iov_readable (le_len h) iov ∧
   log_rel log' (a_write e a)) ∨
  (ret = - EFAULT ∧ (orig c = w_off log → log_rel log' (a_lap (sizeof_logger_entry + le_len h) a)) ∧
   ¬ iov_readable (le_len h) iov).
Proof.
  intros R Hiov Hlen Hk. cbv zeta. pose proof (header_len c ki_left Hk) as Hhl.
  unfold logger_aio_write.
  set (h := make_header c ki_left) in *. set (p := payload (le_len h) iov).
  destruct (Z.eqb_spec (le_len h) 0); [lia|].
  change sizeof_logger_entry with 20.
  assert (20 + le_len h ≤ LOGGER_ENTRY_MAX_LEN) by (change LOGGER_ENTRY_MAX_LEN with 4096; lia).
  destruct (fix_up_readers_rel oob log a (20 + le_len h) R) as [R1 Room]; [lia|].
  destruct (fix_up_readers_frame oob log (20 + le_len h)) as (_ & Ew & _).
  set (log1 := fix_up_readers oob log (20 + le_len h)) in *.
  pose proof (rel_wf _ _ R1) as WF1. pose proof (size_twice _ WF1) as Hsz.
  change (2 * LOGGER_ENTRY_MAX_LEN) with 8192 in Hsz.
  rewrite do_write_log_advance by (done || lia).
  assert (wrote log1 (entry_bytes h) (advance log1 (entry_bytes h))) as W1.
  { apply (wrote_advance log1 [] log1); [done|by apply wrote_nil|].
    rewrite zlen_nil, zlen_entry_bytes. change sizeof_logger_entry with 20. lia. }
  destruct (write_segments oob (orig c) (le_len h) (advance log1 (entry_bytes h)) klog iov 0)
    as [[r l] k] eqn:E.
  apply (write_segments_cases oob log1 (le_len h) (orig c) iov _ (entry_bytes h)) in E;
    [|done|done|done|lia|lia|rewrite zlen_entry_bytes; change sizeof_logger_entry with 20; lia].
  rewrite Z.sub_0_r in E. fold p in E.
  destruct E as [(-> & Hr & W)|(-> & Ewl & C & HR)].
  - pose proof (zlen_nonneg p). destruct (Z.ltb_spec (0 + zlen p) 0); [lia|].
    intros [= <- <- <- <-]. left. split; [lia|]. split; [done|].
    assert (zlen p = le_len h) as Hp by (unfold p; rewrite zlen_payload by (done || lia); lia).
    assert (zlen (entry_bytes h ++ p) = 20 + le_len h) as He
      by (rewrite zlen_app, zlen_entry_bytes, Hp; done).
    unfold a_write. rewrite He. apply (log_rel_wrote log1); [done|done| |by rewrite He].
    apply entry_ok_intro; [done|]. change LOGGER_ENTRY_MAX_PAYLOAD with 4076. lia.
  - change (- EFAULT <? 0) with true. intros [= <- <- <- <-]. right. split; [done|]. split; [|done]. intros Ho.
    rewrite zlen_entry_bytes in C. change sizeof_logger_entry with 20 in C.
    apply (log_rel_clobbered log1 _ _ (20 + le_len h)); [done|done|by rewrite Ewl, Ho, Ew|lia|done].
Qed.

(** ** Lemmas: the read path of the code *)

Lemma copy_to_user_short writable off src :
  0 ≤ off ≤ writable → writable < off + zlen src →
  ∃ left, copy_to_user writable off src = (zslice src 0 (writable - off), left) ∧ ctrue left = true.
Proof.
  intros. unfold copy_to_user. replace (Z.max 0 _) with (writable - off) by lia.
  eexists. split; [unfold zslice; by rewrite drop_0|]. unfold ctrue. by zbool; [lia|].
Qed.

(** The two copies of a read are one segment of the ring. *)
Lemma ring_split log r count :
  log_wf log → 0 ≤ r < size log → 0 ≤ count ≤ size log →
  let len := Z.min count (size log - r) in
  ring log r count = ring log r len ++ ring log 0 (count - len).
Proof.
  intros WF Hr Hc len. pose proof (size_pos _ WF).
  replace count with (len + (count - len)) at 1 by lia. rewrite ring_app by lia. f_equal.
  destruct (Z.eq_dec count len); [by replace (count - len) with 0 by lia|].
  rewrite <- (ring_mod log (r + len)) by done.
  replace (r + len) with (size log) by lia. by rewrite Z.mod_same by lia.
Qed.

Lemma do_read_ring oob log r writable count :
  log_wf log → 0 ≤ r < size log → 0 ≤ count ≤ size log → count ≤ writable →
  do_read_log_to_user oob log r writable count =
  (count, ring log r count, (r + count) mod size log).
Proof.
  intros WF Hr Hc Hw. pose proof (size_pos _ WF). unfold do_read_log_to_user.
  rewrite u32_small, (ring_split log r count) by (done || lia).
  set (len := Z.min count (size log - r)).
  rewrite !bytes_at_ring, logger_offset_mod by (done || lia).
  rewrite copy_to_user_all by (rewrite ?zlen_ring; lia).
  change (ctrue 0) with false. cbv iota beta.
  destruct (Z.eqb_spec count len) as [He|]; cbv beta iota delta [negb].
  - by rewrite <- He, Z.sub_diag, app_nil_r.
  - by rewrite copy_to_user_all by (rewrite ?zlen_ring; lia).
Qed.

Lemma do_read_ring_fault oob log r writable count :
  log_wf log → 0 ≤ r < size log → 0 ≤ count ≤ size log → 0 ≤ writable < count →
  do_read_log_to_user oob log r writable count =
  (- EFAULT, zslice (ring log r count) 0 writable, r).
Proof.
  intros WF Hr Hc Hw. pose proof (size_pos _ WF). unfold do_read_log_to_user.
  rewrite u32_small, (ring_split log r count) by (done || lia).
  set (len := Z.min count (size log - r)). rewrite !bytes_at_ring by (done || lia).
  pose proof (zlen_ring log r len) as HL. unfold zslice. rewrite drop_0.
  destruct (Z.lt_ge_cases writable len) as [Hlt|Hge].
  - destruct (copy_to_user_short writable 0 (ring log r len)) as (l & -> & ->);
      [lia|rewrite zlen_ring; lia|]. do 2 f_equal. rewrite Z.sub_0_r. unfold zslice, zlen in *.
    rewrite !drop_0, take_app_le; [done|lia].
  - rewrite copy_to_user_all by (rewrite ?zlen_ring; lia).
    change (ctrue 0) with false. cbv iota beta.
    destruct (Z.eqb_spec count len); [lia|]. cbv beta iota delta [negb].
    destruct (copy_to_user_short writable len (ring log 0 (count - len))) as (l & -> & ->);
      [lia|rewrite zlen_ring; lia|]. do 2 f_equal. unfold zslice, zlen in *. rewrite !drop_0.
    rewrite take_app_ge by lia. do 2 f_equal. lia.
Qed.

(** One call of [read] on a reader whose queue is not empty. *)
Lemma logger_read_locked_cases oob log r e q writable count :
  log_wf log → view log r (e :: q) → 0 ≤ writable →
  logger_read_locked oob log r writable count =
    (if count <? zlen e then ReadDone (- EINVAL) [] r
     else if writable <? zlen e then ReadDone (- EFAULT) (zslice e 0 writable) r
     else ReadDone (zlen e) e ((r + zlen e) mod size log)).
Proof.
  intros WF V Hw. destruct (view_cons _ WF _ _ _ V) as (Hl & He & V').
  pose proof (view_ok _ _ _ V) as [Hok%entry_ok_len _]%Forall_cons.
  pose proof (size_twice _ WF) as H2. change (2 * LOGGER_ENTRY_MAX_LEN) with 8192 in H2.
  pose proof (view_off _ _ _ V).
  unfold logger_read_locked. destruct (Z.eqb_spec (w_off log) r) as [Heq|].
  { apply (view_empty _ WF _ _ V) in Heq. done. }
  rewrite Hl. destruct (Z.ltb_spec count (zlen e)); [done|].
  destruct (Z.ltb_spec writable (zlen e)).
  - by rewrite do_read_ring_fault, He by (done || lia).
  - by rewrite do_read_ring, He by (done || lia).
Qed.

Lemma find_reader_rel log a rid rd :
  log_rel log a → find_reader log rid = Some rd →
  ∃ q, a_find a rid = Some q ∧ view log (r_off rd) q.
Proof.
  intros R. pose proof (rel_readers _ _ R) as HF. unfold find_reader, a_find.
  induction HF as [|rd' [i q] l k [Hid V] HF IH]; [done|]. simpl in Hid, V. subst i.
  rewrite !find_first_cons. simpl.
  destruct (decide (rd_id rd' = rid)); [intros [= <-]; eauto|apply IH].
Qed.

Lemma log_rel_set_reader log a rid r' q :
  log_rel log a → view log r' q → log_rel (set_reader log rid r') (a_set rid q a).
Proof.
  intros [WF Hcap Hh Hr] V. split; simpl; try done.
  - by apply (log_wf_irrel log).
  - by apply (view_irrel log).
  - apply Forall2_fmap. eapply Forall2_impl; [apply Hr|]. intros rd [i q'] [Hid V']; simpl in *.
    subst i. destruct (Z.eqb_spec (rd_id rd) rid); split; simpl; try done; by apply (view_irrel log).
Qed.

Lemma view_self log : log_wf log → view log (w_off log) [].
Proof.
  intros WF. pose proof (size_pos _ WF). split; [by apply WF|done| |done].
  rewrite Z.sub_diag. by apply Z.mod_0_l; lia.
Qed.

Lemma log_rel_flush oob log a r log' :
  log_rel log a → logger_ioctl oob log FMODE_WRITE r LOGGER_FLUSH_LOG = (0, log') →
  log_rel log' (a_flush a).
Proof.
  intros [WF Hcap Hh Hr] [= <-]. pose proof (view_self _ WF). split; simpl; try done.
  - by apply (log_wf_irrel log).
  - by apply (view_irrel log).
  - apply Forall2_fmap. eapply Forall2_impl; [apply Hr|]. intros rd [i q'] [Hid V']; simpl in *.
    split; simpl; [done|]. by apply (view_irrel log).
Qed.

Lemma log_rel_open log a rid :
  log_rel log a →
  log_rel (set_readers log (readers log ++ [mk_logger_reader rid (head log)])) (a_open rid a).
Proof.
  intros [WF Hcap Hh Hr]. split; simpl; try done.
  - by apply (log_wf_irrel log).
  - by apply (view_irrel log).
  - apply Forall2_app; [|constructor; [|done]; split; simpl; [done|by apply (view_irrel log)]].
    eapply Forall2_impl; [apply Hr|]. intros rd p [? ?]. split; [done|by apply (view_irrel log)].
Qed.

Lemma log_rel_close log a rid :
  log_rel log a →
  log_rel (set_readers log (filter (λ rd, rd_id rd ≠ rid) (readers log))) (a_close rid a).
Proof.
  intros [WF Hcap Hh Hr]. split; simpl; try done.
  - by apply (log_wf_irrel log).
  - by apply (view_irrel log).
  - assert (Forall2 (reader_rel log) (filter (λ rd, rd_id rd ≠ rid) (readers log))
              (filter (λ p, p.1 ≠ rid) (a_readers a))) as HF.
    { induction Hr as [|rd [i q] l k [Hid V] Hr IH]; [done|]. rewrite !filter_cons.
      simpl in *. subst i. by destruct (decide (rd_id rd ≠ rid)); [constructor|]. }
    eapply Forall2_impl; [apply HF|]. intros rd p [? ?]. split; [done|by apply (view_irrel log)].
Qed.

Lemma zlen_replicate_z {A} n (x : A) : 0 ≤ n → zlen (replicate (Z.to_nat n) x) = n.
Proof. intros. unfold zlen. rewrite length_replicate. lia. Qed.

Lemma log_rel_init k :
  12 < k < 31 →
  log_rel (DEFINE_LOGGER_DEVICE (2 ^ k)) (mk_alog (2 ^ k) [] []).
Proof.
  intros Hk. assert (log_wf (DEFINE_LOGGER_DEVICE (2 ^ k))) as WF.
  { split; simpl.
    - exists k. split; [lia|done].
    - change LOGGER_ENTRY_MAX_LEN with (2 ^ 12). apply Z.pow_lt_mono_r; lia.
    - apply zlen_replicate_z. apply Z.pow_nonneg; lia.
    - split; [lia|apply Z.pow_pos_nonneg; lia]. }
  split; try done. apply (view_self _ WF).
Qed.

Lemma read_all_view oob log r q :
  log_wf log → view log r q → read_all oob log (length q) r = q.
Proof.
  intros WF. revert r. induction q as [|e q IH]; intros r V; [done|]. cbn [length read_all].
  pose proof (view_ok _ _ _ V) as [He%entry_ok_len _]%Forall_cons.
  destruct (view_cons _ WF _ _ _ V) as (_ & _ & V').
  rewrite (logger_read_locked_cases _ _ _ e q) by (done || (unfold LOGGER_ENTRY_MAX_LEN; lia)).
  change LOGGER_ENTRY_MAX_LEN with 4096.
  destruct (Z.ltb_spec 4096 (zlen e)); [lia|]. by rewrite IH.
Qed.

Lemma a_find_lift (f : list entry → list entry) (l : list (Z * list entry)) rid q :
  snd <$> find_first (λ p : Z * list entry, p.1 = rid) l = Some q →
  snd <$> find_first (λ p : Z * list entry, p.1 = rid) (prod_map id f <$> l) = Some (f q).
Proof.
  induction l as [|[i q'] l IH]; [done|]. rewrite fmap_cons, !find_first_cons. simpl.
  destruct (decide (i = rid)); [by intros [= ->]|done].
Qed.

Lemma a_find_write e a rid q :
  a_find a rid = Some q → total q + zlen e < a_cap a → a_find (a_write e a) rid = Some (q ++ [e]).
Proof.
  intros Hq Hroom. unfold a_find in *. simpl.
  apply (a_find_lift (lapped (a_cap a) (zlen e))) in Hq.
  apply (a_find_lift (λ q, q ++ [e])) in Hq. unfold lapped in Hq at 2.
  destruct (Z.ltb_spec (total q + zlen e) (a_cap a)); [done|lia].
Qed.

Lemma find_reader_rel_back log a rid q :
  log_rel log a → a_find a rid = Some q →
  ∃ rd, find_reader log rid = Some rd ∧ view log (r_off rd) q.
Proof.
  intros R. pose proof (rel_readers _ _ R) as HF. unfold find_reader, a_find.
  induction HF as [|rd' [i q'] l k [Hid V] HF IH]; [done|]. simpl in Hid, V. subst i.
  rewrite !find_first_cons. simpl.
  destruct (decide (rd_id rd' = rid)); [intros [= <-]; eauto|apply IH].
Qed.

Lemma write_all_rel oob log a klog ws rid q :
  log_rel log a → Forall call_ok ws → a_find a rid = Some q →
  total (q ++ map call_entry ws) < a_cap a →
  ∃ a', log_rel (write_all oob log klog ws) a' ∧ a_find a' rid = Some (q ++ map call_entry ws).
Proof.
  intros R Hok. revert log a klog q R. induction Hok as [|[c iov] ws (Hwf & Hpos & Hr) Hok IH];
    intros log a klog q R Hq Ht; cbn [write_all map fst snd] in *; [rewrite app_nil_r; eauto|].
  destruct (logger_aio_write oob c log klog (iov_len iov) iov) as [[[ret log'] klog'] out] eqn:E.
  apply (logger_aio_write_cases _ _ _ a) in E; [|done..].
  pose proof (header_len c (iov_len iov) Hpos) as Hh.
  destruct E as [(_ & _ & R')|(_ & _ & Hn)]; [|by rewrite Hh in Hn].
  change (map _ ((c, iov) :: ws)) with (call_entry (c, iov) :: map call_entry ws) in *.
  rewrite cons_middle, app_assoc in *. eapply IH; [apply R'| |].
  - apply (a_find_write (call_entry (c, iov))); [done|].
    rewrite total_app, total_snoc in Ht. pose proof (total_nonneg (map call_entry ws)). lia.
  - done.
Qed.

(** ** Theorems *)

(** C1: every critical section of the logger is a step of the abstract log, whatever other
    tasks have written since a writing task read the write offset, unless its write faults
    and has been overtaken: a write appends the new entry to the queue of every reader after dropping
    whole entries from the front where the ring is full, a faulting write only
    drops, a read delivers exactly the oldest entry or fails without consuming
    it, and open, release and flush act on the queues as expected. *)
Theorem logger_simulation oob log a op ret out log' :
  log_rel log a → op_ok op → not_overtaken log op → log_step oob log op ret out log' →
  ∃ a', alog_step a op ret out a' ∧ log_rel log' a'.
Proof.
  intros R Hop Hover Hstep. pose proof (rel_wf _ _ R) as WF.
  destruct Hstep as [log c klog kl iov ret log' klog' out Hw|log rid wr cnt rd ret out r' Hf Hrd
                    |log rid Hf|log rid|log r log' Hfl].
  - destruct Hop as [Hiov Hlen]. pose proof (iov_len_nonneg _ Hiov).
    destruct (Z.eq_dec kl 0) as [->|Hk]; [injection Hw as <- <- <- <-; eauto using alog_step|].
    assert (0 < kl) as Hk' by lia. pose proof (header_len c kl Hk') as Hh.
    apply (logger_aio_write_cases _ _ _ a) in Hw; [|done..].
    destruct Hw as [(-> & Hr & HR)|(-> & HR & Hr)]; (eexists; split; [|first [exact HR|apply HR, Hover; by rewrite Hh in Hr]]).
    + rewrite zlen_payload by (done || lia). rewrite Hh in Hr |- *.
      replace (Z.min (Z.min kl 4076) (iov_len iov)) with (Z.min kl LOGGER_ENTRY_MAX_PAYLOAD)
        by (change LOGGER_ENTRY_MAX_PAYLOAD with 4076; lia).
      rewrite <- Hh. by apply astep_write.
    + rewrite Hh in Hr |- *. by apply astep_write_fault.
  - destruct (find_reader_rel _ _ _ _ R Hf) as (q & Hq & V). destruct Hop as [Hwr Hcnt].
    destruct q as [|e q].
    { apply (view_empty _ WF) in V as [_ Hemp]. unfold logger_read_locked in Hrd.
      rewrite Hemp, Z.eqb_refl in Hrd by done. done. }
    rewrite (logger_read_locked_cases _ _ _ e q) in Hrd by done.
    destruct (view_cons _ WF _ _ _ V) as (_ & _ & V').
    destruct (Z.ltb_spec cnt (zlen e)); [|destruct (Z.ltb_spec wr (zlen e))];
      injection Hrd as <- <- <-; eexists;
      (split; [|by apply log_rel_set_reader]); eauto using alog_step.
  - eauto using alog_step, log_rel_open.
  - eauto using alog_step, log_rel_close.
  - eauto using alog_step, log_rel_flush.
Qed.

(** C2: end to end, as long as the ring does not overflow: the entries already
    in front of a reader and those of any sequence of writes come back from
    the reader byte for byte, one per read and in order. *)
Theorem logger_roundtrip oob log a klog ws rid q :
  log_rel log a → Forall call_ok ws → a_find a rid = Some q →
  total (q ++ map call_entry ws) < size log →
  ∃ rd, find_reader (write_all oob log klog ws) rid = Some rd ∧
    read_all oob (write_all oob log klog ws) (length q + length ws) (r_off rd)
    = q ++ map call_entry ws.
Proof.
  intros R Hok Hq Ht. rewrite <- (rel_cap _ _ R) in Ht.
  destruct (write_all_rel oob _ _ klog ws rid q R Hok Hq Ht) as (a' & R' & Hq').
  destruct (find_reader_rel_back _ _ _ _ R' Hq') as (rd & Hrd & V). exists rd. split; [done|].
  replace (length q + length ws)%nat with (length (q ++ map call_entry ws))
    by (rewrite length_app, length_map; done).
  apply read_all_view; [|done]. apply (rel_wf _ _ R').
Qed.

(** the loop of [get_next_entry] ends whatever bytes the ring holds: every
    turn advances by at least the size of a header, so [S len] turns are
    enough. *)
Theorem get_next_entry_terminates oob log off len :
  (∀ i, 0 ≤ byte_at oob log i < 256) → 0 ≤ len < 2 ^ 31 →
  is_Some (get_next_entry_loop oob (S (Z.to_nat len)) log off len 0).
Proof.
  intros Hb Hlen.
  assert (∀ fuel off count, 0 ≤ count < Z.max len 1 → (Z.to_nat (len - count) < fuel)%nat →
            is_Some (get_next_entry_loop oob fuel log off len count)) as H.
  { induction fuel as [|fuel IH]; intros o c Hc Hf; [lia|]. simpl.
    assert (20 ≤ get_entry_len oob log o < 2 ^ 31) as Hl.
    { unfold get_entry_len. change sizeof_logger_entry with 20.
      pose proof (Hb o). pose proof (Hb 0). pose proof (Hb (o + 1)). zbool; lia. }
    rewrite (u32_small (c + _)) by lia.
    destruct (Z.ltb_spec (c + get_entry_len oob log o) len); [apply IH; lia|done]. }
  apply H; lia.
Qed.

(** [poll] and the query ioctls report exactly the queue in front of the
    reader: readable iff it is not empty, its length in bytes, and the length
    of its first entry. *)
Theorem logger_queries oob log r q fmode :
  log_wf log → view log r q → ctrue (Z.land fmode FMODE_READ) = true →
  (Z.testbit (logger_poll log fmode r) 0 = bool_decide (q ≠ [])) ∧
  logger_ioctl oob log fmode r LOGGER_GET_LOG_BUF_SIZE = (size log, log) ∧
  logger_ioctl oob log fmode r LOGGER_GET_LOG_LEN = (total q, log) ∧
  logger_ioctl oob log fmode r LOGGER_GET_NEXT_ENTRY_LEN =
    (match q with [] => 0 | e :: _ => zlen e end, log).
Proof.
  intros WF V Hm. pose proof (view_empty _ WF _ _ V) as Hemp.
  pose proof (view_dist _ _ _ V) as Hd. pose proof (view_off _ _ _ V). pose proof (wf_w _ WF).
  rewrite mod_dist in Hd by lia.
  split; [|split; [done|split]].
  - unfold logger_poll. rewrite Hm. simpl (negb true). cbv iota.
    destruct (Z.eqb_spec (w_off log) r) as [He|Hne]; simpl.
    + rewrite bool_decide_eq_false_2; [done|]. tauto.
    + rewrite bool_decide_eq_true_2; [done|]. tauto.
  - unfold logger_ioctl. rewrite Hm. simpl. rewrite <- Hd. rewrite Z.geb_leb.
    zbool; f_equal; lia.
  - unfold logger_ioctl. rewrite Hm. simpl. destruct q as [|e q].
    + destruct Hemp as [_ ->]; [|done]. by rewrite Z.eqb_refl.
    + destruct (Z.eqb_spec (w_off log) r) as [He|Hne]; [by apply Hemp in He|]. simpl.
      destruct (view_cons _ WF _ _ _ V) as (-> & _). done.
Qed.

(** A small log whose write offset is [w], for the examples. *)
Definition sample_log (w : Z) : logger_log :=
  mk_logger_log (replicate (Z.to_nat 8192) 0) [mk_logger_reader 7 w] w w 8192.
Definition sample_alog : alog := mk_alog 8192 [] [(7, [])].
Definition sample_ctx : write_ctx := mk_write_ctx 100 101 1 2 0 0.

Lemma sample_rel w : 0 ≤ w < 8192 → log_rel (sample_log w) sample_alog.
Proof.
  intros Hw. assert (log_wf (sample_log w)) as WF.
  { split; simpl; [by exists 13| |apply (zlen_replicate_z 8192)|]; [|lia|lia].
    unfold LOGGER_ENTRY_MAX_LEN; lia. }
  pose proof (view_self _ WF). split; try done. constructor; [by split|done].
Qed.

(** the hook that forwards lines starting with "!@" to the
    kernel log copies from the ring without wrapping: when the line reaches
    the end of the ring, the text printed holds the memory behind the buffer
    instead of the rest of the line. *)
Theorem klog_hook_reads_past_buffer :
  ∃ log a iov, log_rel log a ∧ call_ok (sample_ctx, iov) ∧ payload 3 iov = [33; 64; 120] ∧
  ∀ oob, ∃ k, (logger_aio_write oob sample_ctx log (replicate 256 0) 3 iov).2 = Some k ∧
              zslice k 0 3 = [33; 64; oob (size log)].
Proof.
  exists (sample_log 8170), sample_alog, [mk_ubuf 3 [33; 64; 120]].
  split; [apply sample_rel; lia|]. split; [|split; [done|]].
  - split; [by repeat constructor|]. split; [done|]. split; done.
  - intros oob. eexists. split; [vm_compute; reflexivity|]. done.
Qed.

(** What [not_overtaken] excludes.  [orig] is read before the mutex is taken.  When another task writes in between and this write then faults, the write
    offset is put back to the stale value: the other task's entry, reported as
    written and read by nobody, is gone from the queue of every reader. *)
Theorem logger_stale_orig_loses_entry :
  ∃ log a other iov, log_rel log a ∧ call_ok (sample_ctx, other) ∧ orig sample_ctx = w_off log ∧
  ∀ oob, let '(ret1, log1, klog1, _) :=
           logger_aio_write oob sample_ctx log (replicate 256 0) 2 other in
         let '(ret2, log2, _, _) :=
           logger_aio_write oob sample_ctx log1 klog1 2 iov in
  ret1 = 2 ∧ ret2 = - EFAULT ∧ find_reader log2 7 = find_reader log1 7 ∧
  logger_poll log1 FMODE_READ 0 = 325 ∧ logger_poll log2 FMODE_READ 0 = 260.
Proof.
  exists (sample_log 0), sample_alog, [mk_ubuf 2 [104; 105]], [mk_ubuf 2 []].
  split; [apply sample_rel; lia|]. split; [|split; [done|]].
  - split; [by repeat constructor|]. split; [done|]. split; done.
  - intros oob. vm_compute. done.
Qed.

Lemma byte_at_sample w i : 0 ≤ byte_at (λ _, 0) (sample_log w) i < 256.
Proof.
  assert (∀ n j, nth j (replicate n 0) 0 = 0) as H.
  { induction n as [|n IH]; intros [|j]; simpl; auto. }
  unfold byte_at, sample_log, znth, buffer. rewrite H. by destruct (i <? _).
Qed.

(** Witnesses: the hypotheses hold on a concrete log and a concrete call. *)
Lemma logger_simulation_witness :
  ∃ ret log' a',
    log_step (λ _, 0) (sample_log 8170) (OpWrite sample_ctx 2 [mk_ubuf 2 [104; 105]]) ret [] log' ∧
    ret = 2 ∧
    alog_step sample_alog (OpWrite sample_ctx 2 [mk_ubuf 2 [104; 105]]) ret [] a' ∧ log_rel log' a'.
Proof.
  destruct (logger_aio_write (λ _, 0) sample_ctx (sample_log 8170) [] 2 [mk_ubuf 2 [104; 105]])
    as [[[ret log'] klog'] out] eqn:E.
  assert (log_step (λ _, 0) (sample_log 8170) (OpWrite sample_ctx 2 [mk_ubuf 2 [104; 105]]) ret [] log')
    as Hs by (eapply step_write; exact E).
  destruct (logger_simulation (λ _, 0) (sample_log 8170) sample_alog
              (OpWrite sample_ctx 2 [mk_ubuf 2 [104; 105]]) ret [] log') as (a' & Ha & HR).
  - apply sample_rel; lia.
  - split; [by repeat constructor|done].
  - intros Hn. exfalso. apply Hn. vm_compute. split; [discriminate|exact I].
  - exact Hs.
  - exists ret, log', a'. split; [exact Hs|]. split; [|split; [exact Ha|exact HR]].
    change ret with (ret, log', klog', out).1.1.1. rewrite <- E. vm_compute. reflexivity.
Defined.

Lemma logger_roundtrip_witness :
  ∃ rd, find_reader (write_all (λ _, 0) (sample_log 8170) [] [(sample_ctx, [mk_ubuf 2 [104; 105]])]) 7
        = Some rd ∧
    read_all (λ _, 0) (write_all (λ _, 0) (sample_log 8170) [] [(sample_ctx, [mk_ubuf 2 [104; 105]])])
      1 (r_off rd) = [call_entry (sample_ctx, [mk_ubuf 2 [104; 105]])].
Proof.
  apply (logger_roundtrip (λ _, 0) (sample_log 8170) sample_alog []
           [(sample_ctx, [mk_ubuf 2 [104; 105]])] 7 []).
  - apply sample_rel; lia.
  - constructor; [|constructor]. split; [by repeat constructor|]. split; [done|]. split; done.
  - reflexivity.
  - vm_compute. reflexivity.
Defined.

Lemma get_next_entry_terminates_witness :
  is_Some (get_next_entry_loop (λ _, 0) (S (Z.to_nat 100)) (sample_log 0) 0 100 0).
Proof.
  apply get_next_entry_terminates; [intros i; apply byte_at_sample|lia].
Defined.

Lemma logger_queries_witness :
  logger_ioctl (λ _, 0) (sample_log 5) FMODE_READ 5 LOGGER_GET_LOG_LEN = (total [], sample_log 5).
Proof.
  apply (logger_queries (λ _, 0) (sample_log 5) 5 [] FMODE_READ); [|apply view_self|reflexivity];
    apply (rel_wf _ sample_alog), sample_rel; lia.
Defined.
