(* ===== verification/Ashmem.v ===== *)
(** Anonymous shared memory (mm/ashmem.c): areas with a list of unpinned page
    ranges, the global LRU of the ranges that may be reclaimed, and the
    operations on them (pin, unpin, shrink, mmap, naming, protection mask).

    Objects live in a store: [areas] and [ranges] map addresses to structures,
    the two intrusive lists ([asma->unpinned_list], [ashmem_lru_list]) are
    lists of addresses of ranges, so a range is shared by both as in C.  Every
    operation is one critical section under [ashmem_mutex].  Addresses
    returned by the slab allocator are inputs ([None]: out of memory). *)

From S2P Require Import Prelude.

(** ** Data *)

Definition ASHMEM_NAME_LEN : Z := 256.
Definition ASHMEM_NAME_PREFIX : list Z := [100; 101; 118; 47; 97; 115; 104; 109; 101; 109; 47].
Definition ASHMEM_NAME_PREFIX_LEN : Z := 11.
Definition ASHMEM_FULL_NAME_LEN : Z := ASHMEM_NAME_LEN + ASHMEM_NAME_PREFIX_LEN.
(** "dev/ashmem" with its final NUL. *)
Definition ASHMEM_NAME_DEF : list Z := [100; 101; 118; 47; 97; 115; 104; 109; 101; 109; 0].

Definition ASHMEM_NOT_PURGED : Z := 0.
Definition ASHMEM_WAS_PURGED : Z := 1.
Definition ASHMEM_IS_UNPINNED : Z := 0.
Definition ASHMEM_IS_PINNED : Z := 1.

Definition PROT_READ : Z := 1.
Definition PROT_WRITE : Z := 2.
Definition PROT_EXEC : Z := 4.
Definition PROT_MASK : Z := Z.lor PROT_EXEC (Z.lor PROT_READ PROT_WRITE).
Definition VM_CAN_NONLINEAR : Z := 134217728.

Record ashmem_area := mk_area {
  name : list Z; unpinned_list : list Z; area_file : option Z; area_size : Z;
  vm_start : Z; prot_mask : Z }.

Record ashmem_range := mk_range { asma : Z; pgstart : Z; pgend : Z; purged : Z }.

Record ashmem := mk_ashmem {
  areas : gmap Z ashmem_area; ranges : gmap Z ashmem_range;
  lru_list : list Z; lru_count : Z }.

Definition set_areas (s : ashmem) a := mk_ashmem a (ranges s) (lru_list s) (lru_count s).
Definition set_ranges (s : ashmem) r := mk_ashmem (areas s) r (lru_list s) (lru_count s).
Definition set_lru (s : ashmem) l c := mk_ashmem (areas s) (ranges s) l c.

Definition set_unpinned (a : ashmem_area) l :=
  mk_area (name a) l (area_file a) (area_size a) (vm_start a) (prot_mask a).
Definition set_area_name (a : ashmem_area) n :=
  mk_area n (unpinned_list a) (area_file a) (area_size a) (vm_start a) (prot_mask a).
Definition set_area_file (a : ashmem_area) f :=
  mk_area (name a) (unpinned_list a) f (area_size a) (vm_start a) (prot_mask a).
Definition set_area_size (a : ashmem_area) n :=
  mk_area (name a) (unpinned_list a) (area_file a) n (vm_start a) (prot_mask a).
Definition set_vm_start (a : ashmem_area) v :=
  mk_area (name a) (unpinned_list a) (area_file a) (area_size a) v (prot_mask a).
Definition set_area_prot (a : ashmem_area) p :=
  mk_area (name a) (unpinned_list a) (area_file a) (area_size a) (vm_start a) p.

(** ** Predicates on ranges (the macros) *)

Definition range_size (r : ashmem_range) : Z := u32 (pgend r - pgstart r + 1).
Definition range_on_lru (r : ashmem_range) : bool := purged r =? ASHMEM_NOT_PURGED.
Definition page_range_subsumes_range (r : ashmem_range) (start pend : Z) : bool :=
  (pgstart r >=? start) && (pgend r <=? pend).
Definition page_range_subsumed_by_range (r : ashmem_range) (start pend : Z) : bool :=
  (pgstart r <=? start) && (pgend r >=? pend).
Definition page_in_range (r : ashmem_range) (page : Z) : bool :=
  (pgstart r <=? page) && (pgend r >=? page).
Definition page_range_in_range (r : ashmem_range) (start pend : Z) : bool :=
  page_in_range r start || page_in_range r pend || page_range_subsumes_range r start pend.
Definition range_before_page (r : ashmem_range) (page : Z) : bool := pgend r <? page.

(** ** Ranges and the LRU *)

Definition lru_add (s : ashmem) (id : Z) (r : ashmem_range) : ashmem :=
  set_lru s (lru_list s ++ [id]) (u32 (lru_count s + range_size r)).

Definition lru_del (s : ashmem) (id : Z) (r : ashmem_range) : ashmem :=
  set_lru s (filter (λ i, i ≠ id) (lru_list s)) (u32 (lru_count s - range_size r)).

(** [list_add_tail(new, pos)]: insert before the node [pos]; [None] is the list
    head itself. *)
Fixpoint insert_before (pos : option Z) (new : Z) (l : list Z) : list Z :=
  match l with
  | [] => [new]
  | x :: l => if decide (pos = Some x) then new :: x :: l else x :: insert_before pos new l
  end.

Definition upd_area (s : ashmem) (aid : Z) (f : ashmem_area → ashmem_area) : ashmem :=
  set_areas s (alter f aid (areas s)).

Definition range_alloc (alloc : option Z) (s : ashmem) (aid : Z) (prev : option Z)
    (purged start pend : Z) : Z * ashmem :=
  match alloc with
  | None => (- ENOMEM, s)
  | Some id =>
      let r := mk_range aid start pend purged in
      let s := set_ranges s (<[id := r]> (ranges s)) in
      let s := upd_area s aid (λ a, set_unpinned a (insert_before prev id (unpinned_list a))) in
      (0, if range_on_lru r then lru_add s id r else s)
  end.

Definition range_del (s : ashmem) (id : Z) (r : ashmem_range) : ashmem :=
  let s := upd_area s (asma r) (λ a, set_unpinned a (filter (λ i, i ≠ id) (unpinned_list a))) in
  let s := if range_on_lru r then lru_del s id r else s in
  set_ranges s (delete id (ranges s)).

Definition range_shrink (s : ashmem) (id : Z) (r : ashmem_range) (start pend : Z) : ashmem :=
  let pre := range_size r in
  let r := mk_range (asma r) start pend (purged r) in
  let s := set_ranges s (<[id := r]> (ranges s)) in
  if range_on_lru r then set_lru s (lru_list s) (u32 (lru_count s - (pre - range_size r))) else s.

(** ** Pinning *)

(** The list walk of [ashmem_pin]; [ids] is what is left of the list. *)
Fixpoint ashmem_pin_loop (alloc : option Z) (s : ashmem) (aid : Z) (ids : list Z)
    (start pend ret : Z) : Z * ashmem :=
  match ids with
  | [] => (ret, s)
  | id :: ids =>
      match ranges s !! id with
      | None => (ret, s)
      | Some r =>
          if range_before_page r start then (ret, s)
          else if page_range_in_range r start pend then
            let ret := Z.lor ret (purged r) in
            (* case 1: the whole range goes *)
            if page_range_subsumes_range r start pend then
              ashmem_pin_loop alloc (range_del s id r) aid ids start pend ret
            (* case 2: overlap from the start *)
            else if pgstart r >=? start then
              ashmem_pin_loop alloc (range_shrink s id r (u32 (pend + 1)) (pgend r))
                aid ids start pend ret
            (* case 3: overlap from the rear *)
            else if pgend r <=? pend then
              ashmem_pin_loop alloc (range_shrink s id r (pgstart r) (u32 (start - 1)))
                aid ids start pend ret
            (* case 4: a hole; the result of the allocation is ignored *)
            else
              let '(_, s) := range_alloc alloc s aid (Some id) (purged r) (u32 (pend + 1)) (pgend r) in
              (ret, range_shrink s id r (pgstart r) (u32 (start - 1)))
          else ashmem_pin_loop alloc s aid ids start pend ret
      end
  end.

Definition unpinned_of (s : ashmem) (aid : Z) : list Z :=
  match areas s !! aid with Some a => unpinned_list a | None => [] end.

Definition ashmem_pin (alloc : option Z) (s : ashmem) (aid start pend : Z) : Z * ashmem :=
  ashmem_pin_loop alloc s aid (unpinned_of s aid) start pend ASHMEM_NOT_PURGED.

(** One walk of [ashmem_unpin]'s loop: where it stops. *)
Inductive unpin_walk :=
| UnpinDone                                   (* already unpinned: return 0 *)
| UnpinMerge (id : Z) (r : ashmem_range)      (* overlapping range: absorb it, restart *)
| UnpinInsert (pos : option Z).               (* insertion point found *)

Fixpoint ashmem_unpin_walk (s : ashmem) (ids : list Z) (start pend : Z) : unpin_walk :=
  match ids with
  | [] => UnpinInsert None
  | id :: ids =>
      match ranges s !! id with
      | None => UnpinInsert None
      | Some r =>
          if range_before_page r start then UnpinInsert (Some id)
          else if page_range_subsumed_by_range r start pend then UnpinDone
          else if page_range_in_range r start pend then UnpinMerge id r
          else ashmem_unpin_walk s ids start pend
      end
  end.

(** The [goto restart] loop: every restart has removed a range, so as many
    turns as there are ranges, plus one, suffice; [None] is out of fuel. *)
Fixpoint ashmem_unpin_loop (fuel : nat) (alloc : option Z) (s : ashmem) (aid : Z)
    (start pend purged_ : Z) : option (Z * ashmem) :=
  match fuel with
  | O => None
  | S fuel =>
      match ashmem_unpin_walk s (unpinned_of s aid) start pend with
      | UnpinDone => Some (0, s)
      | UnpinMerge id r =>
          ashmem_unpin_loop fuel alloc (range_del s id r) aid
            (Z.min (pgstart r) start) (Z.max (pgend r) pend) (Z.lor purged_ (purged r))
      | UnpinInsert pos => Some (range_alloc alloc s aid pos purged_ start pend)
      end
  end.

Definition ashmem_unpin (alloc : option Z) (s : ashmem) (aid start pend : Z) : option (Z * ashmem) :=
  ashmem_unpin_loop (S (length (unpinned_of s aid))) alloc s aid start pend ASHMEM_NOT_PURGED.

Fixpoint pin_status_loop (s : ashmem) (ids : list Z) (start pend : Z) : Z :=
  match ids with
  | [] => ASHMEM_IS_PINNED
  | id :: ids =>
      match ranges s !! id with
      | None => ASHMEM_IS_PINNED
      | Some r =>
          if range_before_page r start then ASHMEM_IS_PINNED
          else if page_range_in_range r start pend then ASHMEM_IS_UNPINNED
          else pin_status_loop s ids start pend
      end
  end.

Definition ashmem_get_pin_status (s : ashmem) (aid start pend : Z) : Z :=
  pin_status_loop s (unpinned_of s aid) start pend.

Inductive pin_cmd := ASHMEM_PIN | ASHMEM_UNPIN | ASHMEM_GET_PIN_STATUS.

(** [pin] is the [struct ashmem_pin] fetched from user space, [None] a fault. *)
Definition ashmem_pin_unpin (alloc : option Z) (s : ashmem) (aid : Z) (cmd : pin_cmd)
    (pin : option (Z * Z)) : option (Z * ashmem) :=
  match areas s !! aid with
  | None => None
  | Some a =>
      match area_file a with
      | None => Some (- EINVAL, s)
      | Some _ =>
          match pin with
          | None => Some (- EFAULT, s)
          | Some (offset, len) =>
              let len := if len =? 0 then u32 (PAGE_ALIGN (area_size a) - offset) else len in
              if ctrue (Z.land (Z.lor offset len) (u32 (Z.lnot PAGE_MASK))) then Some (- EINVAL, s)
              else if u32 (- 1) - offset <? len then Some (- EINVAL, s)
              else if PAGE_ALIGN (area_size a) <? u32 (offset + len) then Some (- EINVAL, s)
              else
                let start := offset / PAGE_SIZE in
                let pend := u32 (start + len / PAGE_SIZE - 1) in
                match cmd with
                | ASHMEM_PIN => Some (ashmem_pin alloc s aid start pend)
                | ASHMEM_UNPIN => ashmem_unpin alloc s aid start pend
                | ASHMEM_GET_PIN_STATUS => Some (ashmem_get_pin_status s aid start pend, s)
                end
          end
      end
  end.

(** ** The shrinker *)

(** A truncation of the backing file: area, first and last byte. *)
Definition truncation : Type := Z * Z * Z.

Fixpoint ashmem_shrink_loop (s : ashmem) (ids : list Z) (nr : Z) (tr : list truncation)
    : ashmem * list truncation :=
  match ids with
  | [] => (s, tr)
  | id :: ids =>
      match ranges s !! id with
      | None => (s, tr)
      | Some r =>
          let start := u32 (pgstart r * PAGE_SIZE) in
          let pend := u32 ((pgend r + 1) * PAGE_SIZE - 1) in
          let r := mk_range (asma r) (pgstart r) (pgend r) ASHMEM_WAS_PURGED in
          let s := set_ranges s (<[id := r]> (ranges s)) in
          let s := lru_del s id r in
          let nr := s32 (nr - range_size r) in
          let tr := tr ++ [(asma r, start, pend)] in
          if nr <=? 0 then (s, tr) else ashmem_shrink_loop s ids nr tr
      end
  end.

(** [gfp_fs]: the caller allows filesystem calls; [trylock]: the mutex is free. *)
Definition ashmem_shrink (s : ashmem) (nr_to_scan : Z) (gfp_fs trylock : bool)
    : Z * ashmem * list truncation :=
  if ctrue nr_to_scan && negb gfp_fs then (- 1, s, [])
  else if negb (ctrue nr_to_scan) then (s32 (lru_count s), s, [])
  else if negb trylock then (- 1, s, [])
  else
    let '(s, tr) := ashmem_shrink_loop s (lru_list s) nr_to_scan [] in
    (s32 (lru_count s), s, tr).

(** ** Files *)

Definition ashmem_open (generic_file_open : Z) (alloc : option Z) (s : ashmem) : Z * ashmem :=
  if ctrue generic_file_open then (generic_file_open, s)
  else match alloc with
       | None => (- ENOMEM, s)
       | Some aid =>
           let a := mk_area (ASHMEM_NAME_PREFIX ++ replicate (Z.to_nat ASHMEM_NAME_LEN) 0)
                      [] None 0 0 PROT_MASK in
           (0, set_areas s (<[aid := a]> (areas s)))
       end.

Fixpoint release_loop (s : ashmem) (ids : list Z) : ashmem :=
  match ids with
  | [] => s
  | id :: ids =>
      match ranges s !! id with
      | None => s
      | Some r => release_loop (range_del s id r) ids
      end
  end.

(** Also returns the backing file whose reference is dropped. *)
Definition ashmem_release (s : ashmem) (aid : Z) : Z * ashmem * option Z :=
  let s := release_loop s (unpinned_of s aid) in
  (0, set_areas s (delete aid (areas s)), areas s !! aid ≫= area_file).

(** [_calc_vm_trans(x, bit1, bit2)]. *)
Definition calc_vm_trans (x bit1 bit2 : Z) : Z :=
  if bit1 <=? bit2 then Z.land x bit1 * (bit2 / bit1) else Z.land x bit1 / (bit1 / bit2).

Definition calc_vm_prot_bits (prot : Z) : Z :=
  Z.lor (calc_vm_trans prot PROT_READ VM_READ)
    (Z.lor (calc_vm_trans prot PROT_WRITE VM_WRITE) (calc_vm_trans prot PROT_EXEC VM_EXEC)).

Definition calc_vm_may_flags (prot : Z) : Z :=
  Z.lor (calc_vm_trans prot PROT_READ VM_MAYREAD)
    (Z.lor (calc_vm_trans prot PROT_WRITE VM_MAYWRITE) (calc_vm_trans prot PROT_EXEC VM_MAYEXEC)).

(** A mapping request: its flags, its start, its file and whether it uses the
    shared-memory fault handlers. *)
Record vma := mk_vma { vm_flags : Z; vma_start : Z; vm_file : option Z; vm_shmem_ops : bool }.

(** [shmem_file_setup name size flags] is a file or a negative error. The last
    component is the file whose reference the mapping gives up. *)
Definition ashmem_mmap (shmem_file_setup : list Z → Z → Z → Z + Z) (a : ashmem_area) (v : vma)
    : Z * ashmem_area * vma * option Z :=
  if area_size a =? 0 then (- EINVAL, a, v, None)
  else if ctrue (Z.land (Z.land (vm_flags v) (u32 (Z.lnot (calc_vm_prot_bits (prot_mask a)))))
                   (calc_vm_prot_bits PROT_MASK)) then (- EPERM, a, v, None)
  else
    let flags :=
      Z.land (vm_flags v) (u32 (Z.lnot (calc_vm_may_flags (u32 (Z.lnot (prot_mask a)))))) in
    let setup :=
      match area_file a with
      | Some f => inl f
      | None =>
          let nm := if ctrue (znth 0 (name a) ASHMEM_NAME_PREFIX_LEN) then name a
                    else ASHMEM_NAME_DEF in
          shmem_file_setup nm (area_size a) flags
      end in
    match setup with
    | inr e => (e, a, mk_vma flags (vma_start v) (vm_file v) (vm_shmem_ops v), None)
    | inl f =>
        let a := set_vm_start (set_area_file a (Some f)) (vma_start v) in
        let shared := ctrue (Z.land flags VM_SHARED) in
        (0, a, mk_vma (Z.lor flags VM_CAN_NONLINEAR) (vma_start v) (Some f)
                 (shared || vm_shmem_ops v), vm_file v)
    end.

Definition ashmem_read (f_op_read : Z → Z * Z) (a : ashmem_area) : Z * option Z :=
  if area_size a =? 0 then (0, None)
  else match area_file a with
       | None => (- EBADF, None)
       | Some f =>
           let '(ret, pos) := f_op_read f in
           if ret <? 0 then (ret, None) else (ret, Some pos)
       end.

Definition ashmem_llseek (f_op_llseek : Z → Z * Z) (a : ashmem_area) : Z * option Z :=
  if area_size a =? 0 then (- EINVAL, None)
  else match area_file a with
       | None => (- EBADF, None)
       | Some f =>
           let '(ret, f_pos) := f_op_llseek f in
           let ret := s32 ret in
           if ret <? 0 then (ret, None) else (ret, Some f_pos)
       end.

(** ** Names and protection *)

Definition set_prot_mask (read_implies_exec : bool) (a : ashmem_area) (prot : Z) : Z * ashmem_area :=
  if negb (Z.land (prot_mask a) prot =? prot) then (- EINVAL, a)
  else
    let prot := if ctrue (Z.land prot PROT_READ) && read_implies_exec
                then Z.lor prot PROT_EXEC else prot in
    (0, set_area_prot a prot).

Definition set_name (a : ashmem_area) (uname : ubuf) : Z * ashmem_area :=
  match area_file a with
  | Some _ => (- EINVAL, a)
  | None =>
      let '(bs, rem) := copy_from_user uname 0 ASHMEM_NAME_LEN in
      let n := memcpy (name a) ASHMEM_NAME_PREFIX_LEN bs in
      let n := zset n (ASHMEM_FULL_NAME_LEN - 1) 0 in
      (if ctrue rem then - EFAULT else 0, set_area_name a n)
  end.

Fixpoint strlen_ (l : list Z) : Z :=
  match l with [] => 0 | c :: l => if c =? 0 then 0 else 1 + strlen_ l end.

(** The bytes offered to [copy_to_user]; [writable] bytes of the user's buffer
    can be written. *)
Definition get_name (a : ashmem_area) (writable : Z) : Z * list Z :=
  let src :=
    if ctrue (znth 0 (name a) ASHMEM_NAME_PREFIX_LEN) then
      let tail := drop (Z.to_nat ASHMEM_NAME_PREFIX_LEN) (name a) in
      zslice tail 0 (strlen_ tail + 1)
    else ASHMEM_NAME_DEF in
  let '(out, rem) := copy_to_user writable 0 src in
  (if ctrue rem then - EFAULT else 0, out).

(** The outer-cache loop: physical pages flushed, and whether a page had no
    translation. *)
Fixpoint flush_pages (virt_to_phys : Z → Z) (fuel : nat) (vend limit : Z) (acc : list Z)
    : list Z * bool :=
  match fuel with
  | O => (acc, false)
  | S fuel =>
      if vend <? limit then
        let physaddr := virt_to_phys vend in
        if physaddr =? 0 then (acc, true)
        else flush_pages virt_to_phys fuel (u32 (vend + PAGE_SIZE)) limit (acc ++ [physaddr])
      else (acc, false)
  end.

(** Result, user range flushed, physical pages flushed.  The local [result] is
    computed but not returned. *)
Definition ashmem_flush_cache_range (virt_to_phys : Z → Z) (a : ashmem_area)
    : Z * option (Z * Z) * list Z :=
  let size := area_size a in
  let addr := vm_start a in
  if (addr =? 0) || ctrue (Z.land addr (PAGE_SIZE - 1)) || (size =? 0)
     || ctrue (Z.land size (PAGE_SIZE - 1))
  then (0, None, [])
  else
    let limit := u32 (addr + size) in
    (0, Some (addr, limit),
     (flush_pages virt_to_phys (S (Z.to_nat (size / PAGE_SIZE))) addr limit []).1).

(** ** The ioctl *)

Inductive ashmem_cmd :=
| ASHMEM_SET_NAME (uname : ubuf)
| ASHMEM_GET_NAME (writable : Z)
| ASHMEM_SET_SIZE (n : Z)
| ASHMEM_GET_SIZE
| ASHMEM_SET_PROT_MASK (prot : Z)
| ASHMEM_GET_PROT_MASK
| ASHMEM_PIN_CMD (cmd : pin_cmd) (pin : option (Z * Z))
| ASHMEM_PURGE_ALL_CACHES
| ASHMEM_CACHE_FLUSH_RANGE
| ASHMEM_OTHER.

(** Facts about the caller that the handlers read. *)
Record task := mk_task {
  read_implies_exec : bool; cap_sys_admin : bool; mutex_free : bool; virt_to_phys : Z → Z }.

Definition put_area (s : ashmem) (aid : Z) (ra : Z * ashmem_area) : option (Z * ashmem) :=
  Some (ra.1, set_areas s (<[aid := ra.2]> (areas s))).

Definition ashmem_ioctl (t : task) (alloc : option Z) (s : ashmem) (aid : Z) (cmd : ashmem_cmd)
    : option (Z * ashmem) :=
  match areas s !! aid with
  | None => None
  | Some a =>
      match cmd with
      | ASHMEM_SET_NAME uname => put_area s aid (set_name a uname)
      | ASHMEM_GET_NAME writable => Some ((get_name a writable).1, s)
      | ASHMEM_SET_SIZE n =>
          match area_file a with
          | Some _ => Some (- EINVAL, s)
          | None => put_area s aid (0, set_area_size a n)
          end
      | ASHMEM_GET_SIZE => Some (s32 (area_size a), s)
      | ASHMEM_SET_PROT_MASK prot => put_area s aid (set_prot_mask (read_implies_exec t) a prot)
      | ASHMEM_GET_PROT_MASK => Some (s32 (prot_mask a), s)
      | ASHMEM_PIN_CMD cmd pin => ashmem_pin_unpin alloc s aid cmd pin
      | ASHMEM_PURGE_ALL_CACHES =>
          if cap_sys_admin t then
            let '(ret, s, _) := ashmem_shrink s 0 true (mutex_free t) in
            let '(_, s, _) := ashmem_shrink s ret true (mutex_free t) in
            Some (ret, s)
          else Some (- EPERM, s)
      | ASHMEM_CACHE_FLUSH_RANGE => Some ((ashmem_flush_cache_range (virt_to_phys t) a).1.1, s)
      | ASHMEM_OTHER => Some (- ENOTTY, s)
      end
  end.

(** ** Specification: pages, and the invariant of the two lists *)

(** Page numbers of a file of at most 2^32 - 4096 bytes.  An empty range
    ([pgstart = pgend + 1]) is allowed: [ashmem_unpin] can create one. *)
Definition range_ok (r : ashmem_range) : Prop :=
  0 ≤ pgstart r ≤ pgend r + 1 ∧ 0 ≤ pgend r < 2 ^ 20 - 1.

Definition in_range (r : ashmem_range) (p : Z) : Prop := pgstart r ≤ p ≤ pgend r.

(** [p] is an unpinned page of the area. *)
Definition unpinned_page (s : ashmem) (aid p : Z) : Prop :=
  ∃ id r, id ∈ unpinned_of s aid ∧ ranges s !! id = Some r ∧ in_range r p.

(** [j] comes strictly below [i]. *)
Definition below (m : gmap Z ashmem_range) (i j : Z) : Prop :=
  ∀ ri rj, m !! i = Some ri → m !! j = Some rj → pgend rj < pgstart ri.

Definition size_of (m : gmap Z ashmem_range) (id : Z) : Z :=
  match m !! id with Some r => pgend r - pgstart r + 1 | None => 0 end.
Definition pages_of (m : gmap Z ashmem_range) (ids : list Z) : Z :=
  foldr (λ id n, size_of m id + n) 0 ids.

Record inv (s : ashmem) : Prop := {
  inv_range : ∀ id r, ranges s !! id = Some r →
    range_ok r ∧ (purged r = 0 ∨ purged r = 1) ∧
    ∃ a, areas s !! asma r = Some a ∧ is_Some (area_file a) ∧ id ∈ unpinned_list a;
  inv_list : ∀ aid a, areas s !! aid = Some a →
    NoDup (unpinned_list a) ∧
    (∀ id, id ∈ unpinned_list a → ∃ r, ranges s !! id = Some r ∧ asma r = aid) ∧
    StronglySorted (below (ranges s)) (unpinned_list a);
  inv_lru_nodup : NoDup (lru_list s);
  inv_lru : ∀ id, id ∈ lru_list s ↔ ∃ r, ranges s !! id = Some r ∧ purged r = 0;
  inv_count : lru_count s = u32 (pages_of (ranges s) (lru_list s)) }.

(** Sizes: an area with a backing file fits in a whole number of pages. *)
Definition sizes_ok (s : ashmem) : Prop :=
  ∀ aid a, areas s !! aid = Some a → is_Some (area_file a) → 0 < area_size a ≤ 2 ^ 32 - 4096.

Definition fresh_range (s : ashmem) (alloc : option Z) : Prop :=
  match alloc with Some id => ranges s !! id = None | None => True end.

Definition cmd_ok (cmd : ashmem_cmd) : Prop :=
  match cmd with
  | ASHMEM_PIN_CMD _ (Some (offset, len)) => 0 ≤ offset < 2 ^ 32 ∧ 0 ≤ len < 2 ^ 32
  | _ => True
  end.

(** One call into the driver, by any task: allocations return free addresses or
    fail, and a file is mapped only when its size leaves room to round up to a
    page, which ashmem_mmap does not check. *)
Inductive ashmem_step (s : ashmem) : ashmem → Prop :=
| astep_open g alloc ret s' :
    (∀ aid, alloc = Some aid → areas s !! aid = None) →
    ashmem_open g alloc s = (ret, s') → ashmem_step s s'
| astep_release aid ret s' f :
    ashmem_release s aid = (ret, s', f) → ashmem_step s s'
| astep_mmap setup aid a v ret a' v' f :
    areas s !! aid = Some a → area_size a ≤ 2 ^ 32 - 4096 → 0 ≤ area_size a →
    ashmem_mmap setup a v = (ret, a', v', f) →
    ashmem_step s (set_areas s (<[aid := a']> (areas s)))
| astep_ioctl t alloc aid cmd ret s' :
    fresh_range s alloc → cmd_ok cmd →
    ashmem_ioctl t alloc s aid cmd = Some (ret, s') → ashmem_step s s'
| astep_shrink nr gfp_fs trylock ret s' tr :
    ashmem_shrink s nr gfp_fs trylock = (ret, s', tr) → ashmem_step s s'.

Definition ashmem_init : ashmem := mk_ashmem ∅ ∅ [] 0.

(** ** Lemmas *)

Lemma range_size_ok r : range_ok r → range_size r = pgend r - pgstart r + 1.
Proof. intros [? ?]. unfold range_size. apply u32_small. lia. Qed.

Lemma range_on_lru_spec r : range_on_lru r = true ↔ purged r = 0.
Proof. apply Z.eqb_eq. Qed.

Lemma pages_of_ext m m' ids :
  (∀ id, id ∈ ids → size_of m id = size_of m' id) → pages_of m ids = pages_of m' ids.
Proof.
  induction ids as [|id ids IH]; intros H; [done|]. simpl.
  rewrite (H id), IH; [done| |by left]. intros i Hi. apply H. by right.
Qed.

Lemma pages_of_filter m id ids :
  NoDup ids → id ∈ ids → pages_of m (filter (λ i, i ≠ id) ids) = pages_of m ids - size_of m id.
Proof.
  induction 1 as [|x ids Hx Hnd IH]; intros Hin; [by apply elem_of_nil in Hin|].
  rewrite filter_cons. apply elem_of_cons in Hin. destruct (decide (x ≠ id)) as [Hne|He].
  - simpl. rewrite IH by naive_solver. lia.
  - assert (x = id) as -> by (destruct (decide (x = id)); [done|by contradict He]). simpl.
    rewrite filter_ne_id by done. lia.
Qed.

Lemma pages_of_app m l k : pages_of m (l ++ k) = pages_of m l + pages_of m k.
Proof. induction l as [|x l IH]; simpl; [done|]. rewrite IH. lia. Qed.

Lemma u32_sub x y : u32 (u32 x - y) = u32 (x - y).
Proof. apply Zminus_mod_idemp_l. Qed.

Lemma u32_add x y : u32 (u32 x + y) = u32 (x + y).
Proof. apply Zplus_mod_idemp_l. Qed.

Lemma unpinned_of_alter s s' aid f aid' :
  areas s' = alter (λ a, set_unpinned a (f (unpinned_list a))) aid (areas s) →
  f [] = [] ∨ is_Some (areas s !! aid) →
  unpinned_of s' aid' = if decide (aid = aid') then f (unpinned_of s aid') else unpinned_of s aid'.
Proof.
  intros HE Hf. unfold unpinned_of. rewrite HE, lookup_alter. destruct (decide (aid = aid')) as [->|]; [|done].
  destruct (areas s !! aid') as [a|] eqn:E; simpl; [done|]. destruct Hf as [->|[? ?]]; congruence.
Qed.

(** *** range_del *)

Lemma range_del_fields s id r :
  areas (range_del s id r) =
    alter (λ a, set_unpinned a (filter (λ i, i ≠ id) (unpinned_list a))) (asma r) (areas s) ∧
  ranges (range_del s id r) = delete id (ranges s) ∧
  lru_list (range_del s id r) =
    (if range_on_lru r then filter (λ i, i ≠ id) (lru_list s) else lru_list s) ∧
  lru_count (range_del s id r) =
    (if range_on_lru r then u32 (lru_count s - range_size r) else lru_count s).
Proof. unfold range_del. by destruct (range_on_lru r). Qed.

Lemma range_del_unpinned s id r aid :
  inv s → ranges s !! id = Some r →
  unpinned_of (range_del s id r) aid = filter (λ i, i ≠ id) (unpinned_of s aid).
Proof.
  intros I Hr. destruct (range_del_fields s id r) as (Ea & _).
  rewrite (unpinned_of_alter s _ (asma r) (filter (λ i, i ≠ id)) aid Ea) by (by left).
  destruct (decide (asma r = aid)) as [|Hne]; [done|].
  rewrite filter_ne_id; [done|]. intros Hi. apply Hne.
  unfold unpinned_of in Hi. destruct (areas s !! aid) as [a|] eqn:E; [|by apply elem_of_nil in Hi].
  destruct (inv_list _ I _ _ E) as (_ & Hl & _). destruct (Hl _ Hi) as (r' & Hr' & <-). congruence.
Qed.

Lemma size_of_ok m id r : m !! id = Some r → range_ok r → size_of m id = range_size r.
Proof. intros H Hok. unfold size_of. by rewrite H, range_size_ok. Qed.

Lemma range_del_inv s id r : inv s → ranges s !! id = Some r → inv (range_del s id r).
Proof.
  intros I Hr. destruct (range_del_fields s id r) as (Ea & Er & El & Ec).
  destruct (inv_range _ I _ _ Hr) as (Hok & Hp & _).
  split.
  - rewrite Er, Ea. intros i ri Hi. apply lookup_delete_Some in Hi as [Hne Hi].
    destruct (inv_range _ I _ _ Hi) as (? & ? & a & Ha & Hf & Hin). do 2 (split; [done|]).
    rewrite lookup_alter. destruct (decide (asma r = asma ri)) as [->|]; [|by eauto].
    rewrite Ha. eexists. split; [done|]. split; [done|]. simpl. apply list_elem_of_filter. auto.
  - rewrite Er, Ea. intros aid a Ha. rewrite lookup_alter in Ha.
    assert (∃ a0, areas s !! aid = Some a0 ∧
      unpinned_list a = filter (λ i, i ≠ id) (unpinned_list a0)) as (a0 & Ha0 & ->).
    { destruct (decide (asma r = aid)) as [<-|Hne].
      - apply fmap_Some in Ha as (a0 & Ha0 & ->). eauto.
      - exists a. split; [done|]. rewrite filter_ne_id; [done|]. intros Hi.
        destruct (inv_list _ I _ _ Ha) as (_ & Hl & _).
        destruct (Hl _ Hi) as (r' & ? & ?). congruence. }
    destruct (inv_list _ I _ _ Ha0) as (Hnd & Hl & Hs). split; [by apply NoDup_filter|]. split.
    + intros i [Hi Hin]%list_elem_of_filter. destruct (Hl _ Hin) as (ri & ? & ?).
      exists ri. by rewrite lookup_delete_ne.
    + apply StronglySorted_filter. eapply StronglySorted_impl; [|done].
      intros x y _ _ H rx ry [_ Hx]%lookup_delete_Some [_ Hy]%lookup_delete_Some. eauto.
  - rewrite El. destruct (range_on_lru r); [apply NoDup_filter|]; apply I.
  - intros i. rewrite El, Er. pose proof (inv_lru _ I i) as HL.
    setoid_rewrite lookup_delete_Some. destruct (range_on_lru r) eqn:Elru.
    + rewrite list_elem_of_filter, HL. naive_solver.
    + assert (purged r ≠ 0) by (rewrite <- range_on_lru_spec; congruence). rewrite HL. split.
      * intros (ri & ? & ?). exists ri. split; [|done]. split; [|done]. intros ->. congruence.
      * naive_solver.
  - rewrite El, Er, Ec. rewrite (inv_count _ I).
    assert (∀ l, (∀ i, i ∈ l → i ≠ id) → pages_of (delete id (ranges s)) l = pages_of (ranges s) l) as HP.
    { intros l Hl. apply pages_of_ext. intros i Hi. unfold size_of. rewrite lookup_delete_ne; [done|].
      intros ->. by apply (Hl i). }
    destruct (range_on_lru r) eqn:Elru.
    + rewrite HP by (intros i [? _]%list_elem_of_filter; done). rewrite u32_sub.
      rewrite pages_of_filter; [by rewrite (size_of_ok _ _ r)|apply I|].
      apply (inv_lru _ I). exists r. split; [done|]. by apply range_on_lru_spec.
    + rewrite HP; [done|]. intros i Hi ->. apply (inv_lru _ I) in Hi as (r' & ? & ?).
      assert (purged r ≠ 0) by (rewrite <- range_on_lru_spec; congruence). congruence.
Qed.

(** *** range_shrink *)

Lemma range_shrink_fields s id r start pend :
  let r' := mk_range (asma r) start pend (purged r) in
  areas (range_shrink s id r start pend) = areas s ∧
  ranges (range_shrink s id r start pend) = <[id := r']> (ranges s) ∧
  lru_list (range_shrink s id r start pend) = lru_list s ∧
  lru_count (range_shrink s id r start pend) =
    (if range_on_lru r then u32 (lru_count s - (range_size r - range_size r')) else lru_count s).
Proof. unfold range_shrink. cbv zeta. unfold range_on_lru. simpl. by destruct (purged r =? _). Qed.

(** Replacing one range by a smaller one (or the same) keeps the lists apart. *)
Lemma below_shrink m id r r' x y :
  m !! id = Some r → pgstart r ≤ pgstart r' → pgend r' ≤ pgend r →
  below m x y → below (<[id := r']> m) x y.
Proof.
  intros Hr Hs He H rx ry Hx Hy.
  assert (∃ rx0, m !! x = Some rx0 ∧ pgstart rx0 ≤ pgstart rx) as (rx0 & Hx0 & ?).
  { rewrite lookup_insert in Hx. case_decide; simplify_eq; eauto with lia. }
  assert (∃ ry0, m !! y = Some ry0 ∧ pgend ry ≤ pgend ry0) as (ry0 & Hy0 & ?).
  { rewrite lookup_insert in Hy. case_decide; simplify_eq; eauto with lia. }
  specialize (H _ _ Hx0 Hy0). lia.
Qed.

Lemma pages_of_insert m id r r' ids :
  NoDup ids → id ∈ ids → m !! id = Some r →
  pages_of (<[id := r']> m) ids =
  pages_of m ids - (pgend r - pgstart r + 1) + (pgend r' - pgstart r' + 1).
Proof.
  intros Hnd Hin Hr. induction Hnd as [|x ids Hx Hnd IH]; [by apply elem_of_nil in Hin|].
  assert (∀ i, i ≠ id → size_of (<[id := r']> m) i = size_of m i) as Hother.
  { intros i Hi. unfold size_of. by rewrite lookup_insert_ne. }
  simpl. apply elem_of_cons in Hin as [->|Hin].
  - rewrite (pages_of_ext (<[x := r']> m) m) by (intros i Hi; apply Hother; by intros ->).
    unfold size_of. rewrite lookup_insert_eq, Hr. lia.
  - rewrite IH, Hother by (done || by intros ->). lia.
Qed.

Lemma range_shrink_inv s id r start pend :
  inv s → ranges s !! id = Some r →
  pgstart r ≤ start → 0 ≤ pend ≤ pgend r → start ≤ pend + 1 →
  inv (range_shrink s id r start pend).
Proof.
  intros I Hr Hs He Hse. destruct (range_shrink_fields s id r start pend) as (Ea & Er & El & Ec).
  destruct (inv_range _ I _ _ Hr) as (Hok & Hp & a & Ha & Hf & Hin).
  set (r' := mk_range (asma r) start pend (purged r)) in *.
  assert (range_ok r') as Hok' by (destruct Hok; split; simpl; lia).
  split.
  - rewrite Er, Ea. intros i ri. rewrite lookup_insert. case_decide; [|apply (inv_range _ I)].
    intros [= <-]. subst i. split; [done|]. split; [done|]. eauto.
  - rewrite Er, Ea. intros aid b Hb. destruct (inv_list _ I _ _ Hb) as (Hnd & Hl & Hss).
    split; [done|]. split.
    + intros i Hi. destruct (Hl _ Hi) as (ri & Hri & <-). rewrite lookup_insert. case_decide; [|eauto].
      subst i. rewrite Hr in Hri. injection Hri as <-. eauto.
    + eapply StronglySorted_impl; [|done]. intros x y _ _. apply (below_shrink _ _ r); simpl; done || lia.
  - rewrite El. apply I.
  - intros i. rewrite El, Er, (inv_lru _ I). rewrite lookup_insert. case_decide; [|done]. subst i.
    naive_solver.
  - rewrite El, Er, Ec, (inv_count _ I). destruct (range_on_lru r) eqn:Elru.
    + rewrite u32_sub, !range_size_ok by done. f_equal.
      rewrite (pages_of_insert _ _ r); [lia|apply I| |done].
      apply (inv_lru _ I). exists r. split; [done|]. by apply range_on_lru_spec.
    + f_equal. apply pages_of_ext. intros i Hi. unfold size_of. rewrite lookup_insert_ne; [done|].
      intros <-. apply (inv_lru _ I) in Hi as (r2 & ? & Hz).
      assert (purged r ≠ 0) by (rewrite <- range_on_lru_spec; congruence). congruence.
Qed.

(** *** range_alloc *)

Lemma insert_before_split l1 l2 pos id :
  NoDup (l1 ++ l2) → pos = head l2 → insert_before pos id (l1 ++ l2) = l1 ++ id :: l2.
Proof.
  induction l1 as [|x l1 IH]; simpl; intros Hnd Hpos.
  - destruct l2 as [|y l2]; [done|]. subst pos. simpl. by rewrite decide_True.
  - apply NoDup_cons in Hnd as [Hx Hnd]. rewrite decide_False; [by rewrite IH|].
    intros ->. apply Hx. apply elem_of_app. right. destruct l2; [done|]. injection Hpos as ->. by left.
Qed.

Lemma range_alloc_fields s aid pos purged_ start pend id :
  let r := mk_range aid start pend purged_ in
  let s' := (range_alloc (Some id) s aid pos purged_ start pend).2 in
  areas s' = alter (λ a, set_unpinned a (insert_before pos id (unpinned_list a))) aid (areas s) ∧
  ranges s' = <[id := r]> (ranges s) ∧
  lru_list s' = (if purged_ =? 0 then lru_list s ++ [id] else lru_list s) ∧
  lru_count s' = (if purged_ =? 0 then u32 (lru_count s + range_size r) else lru_count s).
Proof.
  simpl. change (range_on_lru (mk_range aid start pend purged_)) with (purged_ =? 0).
  by destruct (purged_ =? 0).
Qed.

Lemma range_alloc_inv s aid a l1 l2 purged_ start pend id :
  inv s → ranges s !! id = None → areas s !! aid = Some a → is_Some (area_file a) →
  unpinned_list a = l1 ++ l2 → (purged_ = 0 ∨ purged_ = 1) →
  0 ≤ start ≤ pend + 1 → 0 ≤ pend < 2 ^ 20 - 1 →
  (∀ i r, i ∈ l1 → ranges s !! i = Some r → pend < pgstart r) →
  (∀ i r, i ∈ l2 → ranges s !! i = Some r → pgend r < start) →
  inv (range_alloc (Some id) s aid (head l2) purged_ start pend).2 ∧
  unpinned_of (range_alloc (Some id) s aid (head l2) purged_ start pend).2 aid = l1 ++ id :: l2.
Proof.
  intros I Hfresh Ha Hf Hl Hp Hse Hpe H1 H2.
  destruct (range_alloc_fields s aid (head l2) purged_ start pend id) as (Ea & Er & El & Ec).
  set (s' := (range_alloc _ _ _ _ _ _ _).2) in *.
  set (r := mk_range aid start pend purged_) in *.
  destruct (inv_list _ I _ _ Ha) as (Hnd & Hmem & Hss). rewrite Hl in *.
  assert (range_ok r) as Hok by (split; simpl; lia).
  assert (id ∉ l1 ++ l2) as Hnin by (intros Hin; destruct (Hmem _ Hin) as (? & ? & _); congruence).
  assert (insert_before (head l2) id (l1 ++ l2) = l1 ++ id :: l2) as Eins by (by apply insert_before_split).
  assert (∀ i ri, ranges s !! i = Some ri → i ≠ id) as Hne by (intros i ri ? ->; congruence).
  split; [split|].
  - rewrite Er, Ea. intros i ri. rewrite lookup_insert, lookup_alter. case_decide as Hi.
    + intros [= <-]. subst i. split; [done|]. split; [done|]. simpl. rewrite decide_True, Ha by done.
      eexists. split; [done|]. split; [done|]. simpl. rewrite Hl, Eins.
      apply elem_of_app. right. by left.
    + intros Hri. destruct (inv_range _ I _ _ Hri) as (? & ? & b & Hb & Hbf & Hbin).
      do 2 (split; [done|]). case_decide as Hd; [|eauto]. rewrite <- Hd in Hb.
      rewrite Ha. rewrite Ha in Hb. injection Hb as <-.
      eexists. split; [done|]. split; [done|]. simpl. rewrite Hl, Eins in *.
      rewrite elem_of_app in *. rewrite elem_of_cons. tauto.
  - rewrite Er, Ea. intros aid' b Hb. rewrite lookup_alter in Hb. case_decide as Hd.
    + subst aid'. rewrite Ha in Hb. injection Hb as <-. simpl. rewrite Hl, Eins. split; [|split].
      * apply NoDup_app in Hnd as (? & Hd12 & ?). apply NoDup_app. split; [done|]. split.
        -- intros x Hx [->|Hx2]%elem_of_cons; [|by apply (Hd12 x)].
           apply Hnin. apply elem_of_app. by left.
        -- apply NoDup_cons. split; [|done]. intros ?. apply Hnin. apply elem_of_app. by right.
      * intros i Hi. destruct (decide (i = id)) as [->|Hn].
        -- exists r. by rewrite lookup_insert_eq.
        -- rewrite lookup_insert_ne by done. apply Hmem. set_solver.
      * apply StronglySorted_app in Hss as (Hx12 & Hs1 & Hs2).
        assert (∀ l, StronglySorted (below (ranges s)) l → (∀ x, x ∈ l → x ∈ l1 ++ l2) →
                  StronglySorted (below (<[id := r]> (ranges s))) l) as Hlift.
        { intros l Hsl Hin. eapply StronglySorted_impl; [|done]. intros x y Hx Hy Hb rx ry.
          rewrite !lookup_insert_ne by (intros <-; apply Hnin; auto). apply Hb. }
        apply StronglySorted_app. split; [|split].
        -- intros x y Hx Hy rx ry. apply elem_of_cons in Hy. rewrite lookup_insert_ne by set_solver.
           destruct Hy as [->|Hy]; [rewrite lookup_insert_eq|rewrite lookup_insert_ne by set_solver].
           ++ intros Hrx [= <-]. by apply (H1 x).
           ++ by apply Hx12.
        -- apply Hlift; set_solver.
        -- apply StronglySorted_cons. split; [|apply Hlift; set_solver].
           apply Forall_forall. intros y Hy rx ry. rewrite lookup_insert_eq.
           rewrite lookup_insert_ne by set_solver. intros [= <-] Hry. by apply (H2 y).
    + destruct (inv_list _ I _ _ Hb) as (Hnd' & Hmem' & Hss'). split; [done|]. split.
      * intros i Hi. destruct (Hmem' _ Hi) as (ri & Hri & ?). exists ri.
        rewrite lookup_insert_ne; [done|]. intros <-. by apply (Hne _ _ Hri).
      * eapply StronglySorted_impl; [|done]. intros x y Hx Hy Hb' rx ry.
        destruct (Hmem' _ Hx) as (rx' & Hx' & _). destruct (Hmem' _ Hy) as (ry' & Hy' & _).
        rewrite !lookup_insert_ne by (intros <-; congruence). apply Hb'.
  - rewrite El. case_match; [|apply I]. apply NoDup_app. split; [apply I|]. split.
    + intros x Hx ->%list_elem_of_singleton. apply (inv_lru _ I) in Hx as (? & ? & _). congruence.
    + apply NoDup_singleton.
  - intros i. rewrite El, Er. destruct (Z.eqb_spec purged_ 0) as [->|Hz].
    + rewrite elem_of_app, list_elem_of_singleton, (inv_lru _ I), lookup_insert.
      case_decide as Hi; [subst i|]; naive_solver.
    + rewrite (inv_lru _ I), lookup_insert. case_decide as Hi; [subst i|done].
      split; [intros (? & ? & _); congruence|]. intros (? & [= <-] & ?). done.
  - rewrite El, Er, Ec, (inv_count _ I).
    assert (pages_of (<[id := r]> (ranges s)) (lru_list s) = pages_of (ranges s) (lru_list s)) as HP.
    { apply pages_of_ext. intros i Hi. unfold size_of. rewrite lookup_insert_ne; [done|].
      intros <-. apply (inv_lru _ I) in Hi as (? & ? & _). congruence. }
    case_match; rewrite ?HP; [|done].
    rewrite u32_add, pages_of_app, HP. simpl. rewrite (size_of_ok _ _ r); [f_equal; lia| |done].
    by rewrite lookup_insert_eq.
  - rewrite (unpinned_of_alter s s' aid (insert_before (head l2) id) aid Ea) by eauto.
    rewrite decide_True by done. unfold unpinned_of. by rewrite Ha, Hl.
Qed.

(** *** Pages before and after the primitive operations *)

Lemma unpinned_of_area s aid id :
  id ∈ unpinned_of s aid → ∃ a, areas s !! aid = Some a ∧ unpinned_of s aid = unpinned_list a.
Proof.
  unfold unpinned_of. destruct (areas s !! aid); [eauto|]. intros H. by apply elem_of_nil in H.
Qed.

Lemma unpinned_of_spec s aid id :
  inv s → id ∈ unpinned_of s aid ↔ ∃ r, ranges s !! id = Some r ∧ asma r = aid.
Proof.
  intros I. split.
  - intros Hin. destruct (unpinned_of_area _ _ _ Hin) as (a & Ha & E). rewrite E in Hin.
    destruct (inv_list _ I _ _ Ha) as (_ & Hl & _). auto.
  - intros (r & Hr & <-). destruct (inv_range _ I _ _ Hr) as (_ & _ & a & Ha & _ & Hin).
    unfold unpinned_of. by rewrite Ha.
Qed.

Lemma unpinned_of_sorted s aid :
  inv s → NoDup (unpinned_of s aid) ∧ StronglySorted (below (ranges s)) (unpinned_of s aid).
Proof.
  intros I. unfold unpinned_of. destruct (areas s !! aid) as [a|] eqn:Ha.
  - destruct (inv_list _ I _ _ Ha) as (? & _ & ?). done.
  - split; constructor.
Qed.

(** Two ranges of one area share no page. *)
Lemma ranges_disjoint s id id' r r' p :
  inv s → ranges s !! id = Some r → ranges s !! id' = Some r' → asma r = asma r' →
  in_range r p → in_range r' p → id = id'.
Proof.
  intros I Hr Hr' Ha Hp Hp'. destruct (decide (id = id')); [done|]. exfalso.
  destruct (unpinned_of_sorted s (asma r) I) as [_ Hs].
  assert (id ∈ unpinned_of s (asma r) ∧ id' ∈ unpinned_of s (asma r)) as [Hin Hin'].
  { split; apply unpinned_of_spec; eauto. }
  destruct (StronglySorted_pair _ _ id id' Hs) as [H|H]; [done..| |].
  - specialize (H _ _ Hr Hr'). unfold in_range in *. lia.
  - specialize (H _ _ Hr' Hr). unfold in_range in *. lia.
Qed.

Lemma unpinned_page_spec s aid p :
  inv s → unpinned_page s aid p ↔
  ∃ id r, ranges s !! id = Some r ∧ asma r = aid ∧ in_range r p.
Proof.
  intros I. unfold unpinned_page. split.
  - intros (id & r & Hin & Hr & Hp). apply unpinned_of_spec in Hin as (r' & ? & ?); [|done].
    exists id, r. split; [done|]. split; [congruence|done].
  - intros (id & r & Hr & Ha & Hp). exists id, r. split; [|done]. apply unpinned_of_spec; eauto.
Qed.

Lemma range_del_pages s id r aid p :
  inv s → ranges s !! id = Some r →
  unpinned_page (range_del s id r) aid p ↔
  unpinned_page s aid p ∧ ¬ (asma r = aid ∧ in_range r p).
Proof.
  intros I Hr. rewrite !unpinned_page_spec by (done || by apply range_del_inv).
  destruct (range_del_fields s id r) as (_ & -> & _). setoid_rewrite lookup_delete_Some. split.
  - intros (i & ri & [Hne Hi] & Ha & Hp). split; [eauto|]. intros [Ha' Hp'].
    apply Hne. apply (ranges_disjoint s _ _ r ri p); congruence.
  - intros [(i & ri & Hi & Ha & Hp) Hn]. exists i, ri. split; [|done]. split; [|done].
    intros ->. apply Hn. rewrite Hr in Hi. by injection Hi as ->.
Qed.

Lemma range_shrink_pages s id r start pend aid p :
  inv s → ranges s !! id = Some r →
  pgstart r ≤ start → 0 ≤ pend ≤ pgend r → start ≤ pend + 1 →
  unpinned_page (range_shrink s id r start pend) aid p ↔
  unpinned_page s aid p ∧ ¬ (asma r = aid ∧ in_range r p ∧ ¬ start ≤ p ≤ pend).
Proof.
  intros I Hr H1 H2 H3. rewrite !unpinned_page_spec by (done || by apply range_shrink_inv).
  destruct (range_shrink_fields s id r start pend) as (_ & -> & _). split.
  - intros (i & ri & Hi & Ha & Hp). rewrite lookup_insert in Hi. case_decide as Hd.
    + injection Hi as <-. simpl in *. unfold in_range in *; simpl in *.
      split; [exists id, r; split; [done|split; [done|lia]]|]. intros (_ & _ & Hn). lia.
    + split; [eauto|]. intros (Ha' & Hp' & _). apply Hd.
      apply (ranges_disjoint s _ _ r ri p); congruence.
  - intros [(i & ri & Hi & Ha & Hp) Hn]. destruct (decide (id = i)) as [<-|Hd].
    + rewrite Hr in Hi. injection Hi as ->. eexists id, _. rewrite lookup_insert_eq.
      split; [done|]. split; [done|]. unfold in_range in *; simpl. destruct (decide (start ≤ p ≤ pend)); [done|].
      exfalso. apply Hn. done.
    + exists i, ri. by rewrite lookup_insert_ne.
Qed.

Lemma range_alloc_pages s aid pos purged_ start pend id aid' p :
  inv s → inv (range_alloc (Some id) s aid pos purged_ start pend).2 → ranges s !! id = None →
  unpinned_page (range_alloc (Some id) s aid pos purged_ start pend).2 aid' p ↔
  unpinned_page s aid' p ∨ (aid = aid' ∧ start ≤ p ≤ pend).
Proof.
  intros I I' Hfresh. rewrite !unpinned_page_spec by done.
  destruct (range_alloc_fields s aid pos purged_ start pend id) as (_ & -> & _). split.
  - intros (i & ri & Hi & Ha & Hp). rewrite lookup_insert in Hi. case_decide; [|left; eauto].
    injection Hi as <-. by right.
  - intros [(i & ri & Hi & Ha & Hp)|[<- Hp]].
    + exists i, ri. rewrite lookup_insert_ne; [done|]. intros <-. congruence.
    + eexists id, _. rewrite lookup_insert_eq. done.
Qed.

(** *** The walk of [ashmem_pin] *)

(** What is known of the walk: the area's list is [pre ++ ids], everything in
    [pre] lies on one side of the request, and the allocator gives a free address or
    nothing. *)
Record pin_walk (s : ashmem) (aid : Z) (pre ids : list Z) (start pend : Z) (alloc : option Z) : Prop := {
  pw_inv : inv s;
  pw_list : unpinned_of s aid = pre ++ ids;
  pw_pre : ∀ i r, i ∈ pre → ranges s !! i = Some r → pgend r < start ∨ pend < pgstart r;
  pw_fresh : fresh_range s alloc }.

(** Pages behind a hole that the request makes in the middle of a range.  They need a
    range of their own, and are forgotten when there is no memory for it. *)
Definition behind_hole (s : ashmem) (aid start pend p : Z) : Prop :=
  ∃ id r, ranges s !! id = Some r ∧ asma r = aid ∧ pgstart r < start ∧ pend < p ≤ pgend r.

Definition pinned (alloc : option Z) (aid start pend : Z) (s s' : ashmem) : Prop :=
  inv s' ∧ ∀ aid' p, unpinned_page s' aid' p ↔
    unpinned_page s aid' p ∧ ¬ (aid = aid' ∧ (start ≤ p ≤ pend ∨ alloc = None ∧ behind_hole s aid start pend p)).

Section pin_walk.
Context (aid start pend : Z) (alloc : option Z).

(** Nothing left to do: the rest of the list lies below the request. *)
Lemma pin_walk_stop s pre ids :
  pin_walk s aid pre ids start pend alloc →
  (∀ i r, i ∈ ids → ranges s !! i = Some r → pgend r < start) →
  start ≤ pend + 1 → pinned alloc aid start pend s s.
Proof.
  intros [I Hl Hpre _] Hids Hse. split; [done|]. intros aid' p. split; [|tauto].
  assert (∀ i r, ranges s !! i = Some r → asma r = aid → pgend r < start ∨ pend < pgstart r) as Hall.
  { intros i r Hr Ha. assert (i ∈ pre ++ ids) as Hin by (rewrite <- Hl; apply unpinned_of_spec; eauto).
    apply elem_of_app in Hin as [Hin|Hin]; [by apply (Hpre i)|left; by apply (Hids i)]. }
  intros Hu. split; [done|]. intros [<- [Hp|(_ & i & r & Hr & Ha & H1 & H2)]].
  - apply unpinned_page_spec in Hu as (i & r & Hr & Ha & Hir); [|done]. specialize (Hall i r Hr Ha). unfold in_range in Hir. lia.
  - specialize (Hall i r Hr Ha). lia.
Qed.

Lemma pin_walk_range s pre id ids r :
  pin_walk s aid pre (id :: ids) start pend alloc → ranges s !! id = Some r →
  asma r = aid ∧ range_ok r ∧ (purged r = 0 ∨ purged r = 1) ∧ id ∉ pre ∧ id ∉ ids ∧
  (∀ i ri, i ∈ ids → ranges s !! i = Some ri → pgend ri < pgstart r) ∧
  (∀ i ri, i ∈ pre → ranges s !! i = Some ri → pgend r < pgstart ri).
Proof.
  intros [I Hl _ _] Hr. assert (id ∈ unpinned_of s aid) as Hin by (rewrite Hl; set_solver).
  apply unpinned_of_spec in Hin as (r' & ? & ?); [|done]. rewrite Hr in *. simplify_eq.
  destruct (inv_range _ I _ _ Hr) as (? & ? & _).
  destruct (unpinned_of_sorted s (asma r') I) as [Hnd Hs]. rewrite Hl in Hnd, Hs.
  apply NoDup_app in Hnd as (_ & Hd & [Hni _]%NoDup_cons).
  apply StronglySorted_app in Hs as (Hpi & _ & [Hfa _]%StronglySorted_cons).
  rewrite Forall_forall in Hfa. do 3 (split; [done|]). split; [intros ?; apply (Hd id); set_solver|].
  split; [done|]. split.
  - intros i ri Hi Hri. by apply (Hfa i Hi).
  - intros i ri Hi Hri. apply (Hpi i id); [done|by left|done|done].
Qed.

(** The range is not touched: it joins the part already walked. *)
Lemma pin_walk_skip s pre id ids r :
  pin_walk s aid pre (id :: ids) start pend alloc → ranges s !! id = Some r →
  (pgend r < start ∨ pend < pgstart r) → pin_walk s aid (pre ++ [id]) ids start pend alloc.
Proof.
  intros [I Hl Hpre Hf] Hr Hn. split; [done|by rewrite <- app_assoc| |done].
  intros i ri [Hi| ->%list_elem_of_singleton]%elem_of_app Hri; [by apply (Hpre i ri)|].
  rewrite Hr in Hri. injection Hri as <-. apply Hn.
Qed.

Lemma pin_walk_del s pre id ids r :
  pin_walk s aid pre (id :: ids) start pend alloc → ranges s !! id = Some r →
  pin_walk (range_del s id r) aid pre ids start pend alloc.
Proof.
  intros W Hr. destruct (pin_walk_range _ _ _ _ _ W Hr) as (_ & _ & _ & Hn1 & Hn2 & _).
  destruct W as [I Hl Hpre Hf]. destruct (range_del_fields s id r) as (_ & Er & _).
  split; [by apply range_del_inv| | |].
  - rewrite range_del_unpinned, Hl by done.
    rewrite filter_app, filter_cons_False, !filter_ne_id by auto. done.
  - rewrite Er. intros i ri Hi [_ Hri]%lookup_delete_Some. by apply (Hpre i ri).
  - destruct alloc; [|done]. unfold fresh_range. rewrite Er. apply lookup_delete_None. by right.
Qed.

Lemma pin_walk_shrink s pre id ids r a b :
  pin_walk s aid pre (id :: ids) start pend alloc → ranges s !! id = Some r →
  pgstart r ≤ a → 0 ≤ b ≤ pgend r → a ≤ b + 1 → (b < start ∨ pend < a) →
  pin_walk (range_shrink s id r a b) aid (pre ++ [id]) ids start pend alloc.
Proof.
  intros W Hr H1 H2 H3 H4. destruct (pin_walk_range _ _ _ _ _ W Hr) as (_ & _ & _ & Hn1 & _).
  destruct W as [I Hl Hpre Hf]. destruct (range_shrink_fields s id r a b) as (Ea & Er & _).
  split; [by apply range_shrink_inv| | |].
  - unfold unpinned_of in *. by rewrite Ea, Hl, <- app_assoc.
  - rewrite Er. intros i ri Hi Hri. rewrite lookup_insert in Hri. case_decide as Hd.
    + injection Hri as <-. simpl. lia.
    + apply (Hpre i ri); [|done..]. set_solver.
  - destruct alloc; [|done]. unfold fresh_range in *. rewrite Er, lookup_insert_ne; [done|]. intros ->. congruence.
Qed.

(** Punching a hole: shrinking first and allocating second is the same state. *)
Lemma shrink_alloc_commute s id r id' pos a b c d :
  ranges s !! id = Some r → ranges s !! id' = None →
  range_shrink (range_alloc (Some id') s aid pos (purged r) c d).2 id r a b =
  (range_alloc (Some id') (range_shrink s id r a b) aid pos (purged r) c d).2.
Proof.
  intros Hr Hf. assert (id ≠ id') by (intros ->; congruence).
  unfold range_shrink, range_alloc, range_on_lru, lru_add, upd_area, set_ranges, set_lru, set_areas.
  simpl. destruct (purged r =? ASHMEM_NOT_PURGED); simpl; rewrite insert_insert_ne by done; [|done].
  f_equal. rewrite u32_sub, u32_add. f_equal. lia.
Qed.
End pin_walk.

Lemma page_range_in_range_false r start pend :
  range_ok r → start ≤ pend + 1 → start ≤ pgend r → page_range_in_range r start pend = false → pend < pgstart r.
Proof.
  unfold page_range_in_range, page_in_range, page_range_subsumes_range.
  intros [? ?] Hse Hs HF. rewrite ?Z.geb_leb in HF. zprop. lia.
Qed.

Lemma page_range_in_range_true r start pend :
  range_ok r → start ≤ pend + 1 → page_range_in_range r start pend = true →
  pgstart r ≤ pend + 1 ∧ start ≤ pgend r + 1.
Proof.
  unfold page_range_in_range, page_in_range, page_range_subsumes_range.
  intros [? ?] Hse HT. rewrite ?Z.geb_leb in HT. zprop. lia.
Qed.

Lemma pinned_step alloc aid start pend s s1 s' r (P : Z → Prop) :
  (∀ aid' p, unpinned_page s1 aid' p ↔ unpinned_page s aid' p ∧ ¬ (asma r = aid' ∧ P p)) →
  asma r = aid → (∀ p, P p → start ≤ p ≤ pend) →
  (∀ p, behind_hole s1 aid start pend p ↔ behind_hole s aid start pend p) →
  pinned alloc aid start pend s1 s' → pinned alloc aid start pend s s'.
Proof.
  intros H1 Ha HP Hb [I H2]. split; [done|]. intros aid' p. rewrite H2, H1, Hb. subst aid. naive_solver.
Qed.

(** A range on one side of the hole, or in it, has nothing behind the hole. *)
Lemma behind_hole_del s id r aid start pend p :
  ranges s !! id = Some r → (start ≤ pgstart r ∨ pgend r ≤ pend) →
  behind_hole (range_del s id r) aid start pend p ↔ behind_hole s aid start pend p.
Proof.
  intros Hr Ho. unfold behind_hole. destruct (range_del_fields s id r) as (_ & -> & _). split.
  - intros (i & ri & [_ Hri]%lookup_delete_Some & ?). eauto.
  - intros (i & ri & Hri & ?). exists i, ri. rewrite lookup_delete_ne; [done|]. intros <-. simplify_eq. lia.
Qed.

Lemma behind_hole_shrink s id r a b aid start pend p :
  ranges s !! id = Some r → (start ≤ pgstart r ∨ pgend r ≤ pend) → (start ≤ a ∨ b ≤ pend) →
  behind_hole (range_shrink s id r a b) aid start pend p ↔ behind_hole s aid start pend p.
Proof.
  intros Hr Ho Hn. unfold behind_hole. destruct (range_shrink_fields s id r a b) as (_ & -> & _). split.
  - intros (i & ri & [[<- <-]|[_ Hri]]%lookup_insert_Some & H); [simpl in H; lia|eauto].
  - intros (i & ri & Hri & ?). exists i, ri. rewrite lookup_insert_ne; [done|]. intros <-. simplify_eq. lia.
Qed.

Lemma behind_hole_at s id r start pend p :
  inv s → ranges s !! id = Some r → start ≤ pend + 1 → pgstart r < start → pend < pgend r →
  behind_hole s (asma r) start pend p ↔ pend < p ≤ pgend r.
Proof.
  intros I Hr Hse H1 H2. split; [|intros Hp; exists id, r; done]. intros (i & ri & Hri & Ha & H3 & H4).
  assert (id = i) as <- by (apply (ranges_disjoint s id i r ri (start - 1)); unfold in_range; done || lia). simplify_eq. lia.
Qed.

Lemma pin_hole s aid start pend pre id ids r id' :
  0 ≤ start ≤ pend + 1 → 0 ≤ pend < 2 ^ 20 - 1 →
  pin_walk s aid pre (id :: ids) start pend (Some id') → ranges s !! id = Some r →
  pgstart r < start → pend < pgend r →
  pinned (Some id') aid start pend s
    (range_shrink (range_alloc (Some id') s aid (Some id) (purged r) (pend + 1) (pgend r)).2 id r
       (pgstart r) (start - 1)).
Proof.
  intros Hse Hpe W Hr H1 H2.
  destruct (pin_walk_range aid start pend (Some id') s pre id ids r W Hr)
    as (Ha & Hok & Hp & Hn1 & Hn2 & Hlo & Hhi).
  assert (id ∈ unpinned_of s aid) as Hin by (rewrite (pw_list _ _ _ _ _ _ _ W); set_solver).
  destruct W as [I Hl Hpre Hf]. pose proof Hok as [? ?].
  rewrite (shrink_alloc_commute aid s id r id') by done.
  pose proof (range_shrink_inv s id r (pgstart r) (start - 1) I Hr) as I1.
  destruct (range_shrink_fields s id r (pgstart r) (start - 1)) as (Ea1 & Er1 & _).
  set (s1 := range_shrink s id r (pgstart r) (start - 1)) in *.
  assert (inv s1) as I1' by (apply I1; lia). clear I1.
  destruct (unpinned_of_area _ _ _ Hin) as (a & Haa & Eu).
  destruct (inv_range _ I _ _ Hr) as (_ & _ & a' & Ha' & Hfile & _). rewrite Ha in Ha'.
  assert (a' = a) as -> by congruence. rewrite Eu in Hl.
  assert (id' ≠ id) by (intros ->; congruence).
  destruct (range_alloc_inv s1 aid a pre (id :: ids) (purged r) (pend + 1) (pgend r) id') as [I2 _];
    try done; try lia; [by rewrite Er1, lookup_insert_ne by done|by rewrite Ea1| | |].
  - intros i ri Hi. rewrite Er1, lookup_insert_ne by (intros <-; done). by apply Hhi.
  - intros i ri Hi. rewrite Er1, lookup_insert. case_decide as Hd.
    + intros [= <-]. simpl. lia.
    + intros Hri. apply elem_of_cons in Hi as [->|Hi]; [done|]. specialize (Hlo i ri Hi Hri). lia.
  - split; [done|]. intros aid' p. rewrite range_alloc_pages; [|done|done|by rewrite Er1, lookup_insert_ne].
    unfold s1. rewrite range_shrink_pages by (done || lia). rewrite Ha. split.
    + intros [[Hu Hn]|[<- Hp']].
      * split; [done|]. intros [<- [Hp'|[? _]]]; [|done]. apply Hn. split; [done|]. unfold in_range. lia.
      * split; [|intros [_ [?|[? _]]]; [lia|done]]. exists id, r. split; [done|]. split; [done|]. unfold in_range. lia.
    + intros [Hu Hn]. destruct (decide (aid = aid' ∧ pend + 1 ≤ p ≤ pgend r)); [by right|].
      left. split; [done|]. intros (<- & Hir & ?). unfold in_range in Hir. naive_solver lia.
Qed.

(** Without memory the part behind the hole is gone. *)
Lemma pin_hole_none s aid start pend pre id ids r :
  0 ≤ start ≤ pend + 1 → 0 ≤ pend < 2 ^ 20 - 1 →
  pin_walk s aid pre (id :: ids) start pend None → ranges s !! id = Some r →
  pgstart r < start → pend < pgend r → pinned None aid start pend s (range_shrink s id r (pgstart r) (start - 1)).
Proof.
  intros Hse Hpe W Hr H1 H2. destruct (pin_walk_range aid start pend None s pre id ids r W Hr) as (<- & [? ?] & _).
  pose proof (pw_inv _ _ _ _ _ _ _ W) as I. split; [apply range_shrink_inv; done || lia|]. intros aid' p.
  rewrite range_shrink_pages by (done || lia). rewrite (behind_hole_at s id r) by (done || lia). unfold in_range. split.
  - intros [Hu Hn]. split; [done|]. intros [<- [Hp|[_ Hp]]]; apply Hn; split; done || lia.
  - intros [Hu Hn]. split; [done|]. intros [<- Hp]. apply Hn. split; [done|]. destruct (decide (p ≤ pend)); [left; lia|right; split; [done|lia]].
Qed.

Lemma pin_loop_pages s aid start pend pre ids alloc ret :
  0 ≤ start ≤ pend + 1 → 0 ≤ pend < 2 ^ 20 - 1 →
  pin_walk s aid pre ids start pend alloc →
  pinned alloc aid start pend s (ashmem_pin_loop alloc s aid ids start pend ret).2.
Proof.
  intros Hse Hpe. revert s pre ret. induction ids as [|id ids IH]; intros s pre ret W.
  { simpl. apply (pin_walk_stop aid start pend alloc s pre []); [done|set_solver|lia]. }
  cbn [ashmem_pin_loop].
  assert (id ∈ unpinned_of s aid) as Hin by (rewrite (pw_list _ _ _ _ _ _ _ W); set_solver).
  pose proof (pw_inv _ _ _ _ _ _ _ W) as I.
  apply unpinned_of_spec in Hin as (r & Hr & _); [|done]. rewrite Hr.
  destruct (pin_walk_range aid start pend alloc s pre id ids r W Hr)
    as (Ha & Hok & Hp & Hn1 & Hn2 & Hlo & Hhi). pose proof Hok as [Hok1 Hok2].
  destruct (range_before_page r start) eqn:Eb; unfold range_before_page in Eb; zprop.
  { apply (pin_walk_stop aid start pend alloc s pre (id :: ids)); [done| |lia].
    intros i ri [->|Hi]%elem_of_cons Hri; [congruence|]. specialize (Hlo i ri Hi Hri). destruct Hok. lia. }
  destruct (page_range_in_range r start pend) eqn:Ein.
  2: { apply (IH _ (pre ++ [id])). apply (pin_walk_skip aid start pend alloc s pre id ids r); [done..|].
       right. apply (page_range_in_range_false r start); done || lia. }
  apply page_range_in_range_true in Ein; [|done|lia].
  destruct (page_range_subsumes_range r start pend) eqn:E1;
    unfold page_range_subsumes_range in E1; rewrite ?Z.geb_leb in E1; zprop.
  { eapply (pinned_step alloc aid start pend s _ _ r (in_range r)); [|done| | |apply (IH _ pre); by apply pin_walk_del].
    - intros. by apply range_del_pages.
    - unfold in_range. lia.
    - intros p. apply behind_hole_del; [done|lia]. }
  rewrite Z.geb_leb. destruct (Z.leb_spec start (pgstart r)).
  { rewrite u32_small by lia.
    eapply (pinned_step alloc aid start pend s _ _ r (λ p, in_range r p ∧ ¬ pend + 1 ≤ p ≤ pgend r));
      [|done| | |apply (IH _ (pre ++ [id])), pin_walk_shrink; (done || lia)].
    - intros. apply range_shrink_pages; done || lia.
    - unfold in_range. lia.
    - intros p. apply behind_hole_shrink; [done|lia|lia]. }
  destruct (Z.leb_spec (pgend r) pend).
  { rewrite u32_small by (destruct Hok; lia).
    eapply (pinned_step alloc aid start pend s _ _ r (λ p, in_range r p ∧ ¬ pgstart r ≤ p ≤ start - 1));
      [|done| | |apply (IH _ (pre ++ [id])), pin_walk_shrink; (done || lia)].
    - intros. apply range_shrink_pages; done || lia.
    - unfold in_range. lia.
    - intros p. apply behind_hole_shrink; [done|lia|lia]. }
  rewrite !u32_small by (destruct Hok; lia).
  destruct alloc as [id'|]; [|simpl; apply (pin_hole_none s aid start pend pre id ids r); done || lia].
  pose proof (pin_hole s aid start pend pre id ids r id') as Hh.
  destruct (range_alloc (Some id') s aid (Some id) (purged r) (pend + 1) (pgend r)) as [x s2].
  apply Hh; done || lia.
Qed.

(** The result of a pin: whether a purged range met the request. *)
Definition purged_in (m : gmap Z ashmem_range) (ids : list Z) (start pend : Z) : Prop :=
  ∃ id r, id ∈ ids ∧ m !! id = Some r ∧ start ≤ pgend r ∧
          page_range_in_range r start pend = true ∧ purged r = ASHMEM_WAS_PURGED.

Lemma purged_in_cons m id ids r start pend :
  m !! id = Some r →
  purged_in m (id :: ids) start pend ↔
  (start ≤ pgend r ∧ page_range_in_range r start pend = true ∧ purged r = 1) ∨
  purged_in m ids start pend.
Proof.
  intros Hr. unfold purged_in. setoid_rewrite elem_of_cons. split.
  - intros (i & ri & [->|Hi] & Hri & H); [left; naive_solver|right; naive_solver].
  - intros [H|(i & ri & Hi & H)]; [exists id, r; naive_solver|exists i, ri; naive_solver].
Qed.

Lemma purged_in_ext m m' ids start pend :
  (∀ i, i ∈ ids → m !! i = m' !! i) → purged_in m ids start pend ↔ purged_in m' ids start pend.
Proof.
  intros H. unfold purged_in. split; intros (i & r & Hi & Hr & ?); exists i, r.
  - by rewrite <- H.
  - by rewrite H.
Qed.

Lemma purged_in_below m ids start pend :
  (∀ i r, i ∈ ids → m !! i = Some r → pgend r < start) → ¬ purged_in m ids start pend.
Proof. intros H (i & r & Hi & Hr & Hs & _). specialize (H i r Hi Hr). lia. Qed.

Lemma lor_flag a b : (a = 0 ∨ a = 1) → (b = 0 ∨ b = 1) → Z.lor a b = 1 ↔ a = 1 ∨ b = 1.
Proof. intros [-> | ->] [-> | ->]; vm_compute; intuition congruence. Qed.

Lemma lor_flag_range a b : (a = 0 ∨ a = 1) → (b = 0 ∨ b = 1) → Z.lor a b = 0 ∨ Z.lor a b = 1.
Proof. intros [-> | ->] [-> | ->]; vm_compute; intuition congruence. Qed.

Lemma pin_loop_ret s aid start pend pre ids alloc ret :
  0 ≤ start ≤ pend + 1 → 0 ≤ pend < 2 ^ 20 - 1 →
  pin_walk s aid pre ids start pend alloc → (ret = 0 ∨ ret = 1) →
  (ashmem_pin_loop alloc s aid ids start pend ret).1 = 1 ↔
  ret = 1 ∨ purged_in (ranges s) ids start pend.
Proof.
  intros Hse Hpe. revert s pre ret. induction ids as [|id ids IH]; intros s pre ret W Hret.
  { simpl. unfold purged_in. set_solver. }
  cbn [ashmem_pin_loop]. pose proof (pw_inv _ _ _ _ _ _ _ W) as I.
  assert (id ∈ unpinned_of s aid) as Hin by (rewrite (pw_list _ _ _ _ _ _ _ W); set_solver).
  apply unpinned_of_spec in Hin as (r & Hr & _); [|done]. rewrite Hr, (purged_in_cons _ _ _ r) by done.
  destruct (pin_walk_range aid start pend alloc s pre id ids r W Hr)
    as (Ha & Hok & Hp & Hn1 & Hn2 & Hlo & Hhi). pose proof Hok as [Hok1 Hok2].
  destruct (range_before_page r start) eqn:Eb; unfold range_before_page in Eb; zprop.
  { pose proof (purged_in_below (ranges s) ids start pend) as Hb. simpl.
    assert (¬ purged_in (ranges s) ids start pend)
      by (apply Hb; intros i ri Hi Hri; specialize (Hlo i ri Hi Hri); destruct Hok; lia).
    naive_solver lia. }
  destruct (page_range_in_range r start pend) eqn:Ein.
  2: { rewrite (IH _ (pre ++ [id])); [naive_solver| |done].
       apply (pin_walk_skip aid start pend alloc s pre id ids r); [done..|].
       right. apply (page_range_in_range_false r start); done || lia. }
  pose proof (lor_flag ret (purged r) Hret Hp) as Hf.
  pose proof (lor_flag_range ret (purged r) Hret Hp) as Hf'.
  apply page_range_in_range_true in Ein; [|done|lia].
  assert (∀ s1 P, (∀ i, i ∈ ids → ranges s1 !! i = ranges s !! i) →
     (P ↔ Z.lor ret (purged r) = 1 ∨ purged_in (ranges s1) ids start pend) →
     P ↔ ret = 1 ∨ (start ≤ pgend r ∧ true = true ∧ purged r = 1) ∨ purged_in (ranges s) ids start pend)
    as Hstep.
  { intros s1 P He HP. rewrite HP, Hf, (purged_in_ext _ (ranges s)) by done. naive_solver. }
  destruct (page_range_subsumes_range r start pend) eqn:E1;
    unfold page_range_subsumes_range in E1; rewrite ?Z.geb_leb in E1; zprop.
  { apply (Hstep (range_del s id r)); [|by apply (IH _ pre); [apply pin_walk_del|]].
    intros i Hi. destruct (range_del_fields s id r) as (_ & -> & _).
    apply lookup_delete_ne. by intros ->. }
  assert (∀ a b i, i ∈ ids → ranges (range_shrink s id r a b) !! i = ranges s !! i) as Hsh.
  { intros a b i Hi. destruct (range_shrink_fields s id r a b) as (_ & -> & _).
    apply lookup_insert_ne. by intros ->. }
  rewrite Z.geb_leb. destruct (Z.leb_spec start (pgstart r)).
  { rewrite u32_small by lia. eapply Hstep; [apply Hsh|].
    apply (IH _ (pre ++ [id])); [apply pin_walk_shrink; done || lia|done]. }
  destruct (Z.leb_spec (pgend r) pend).
  { rewrite u32_small by (destruct Hok; lia). eapply Hstep; [apply Hsh|].
    apply (IH _ (pre ++ [id])); [apply pin_walk_shrink; done || lia|done]. }
  destruct (range_alloc _ _ _ _ _ _ _) as [x s2]. simpl. rewrite Hf.
  pose proof (purged_in_below (ranges s) ids start pend) as Hb.
  assert (¬ purged_in (ranges s) ids start pend)
    by (apply Hb; intros i ri Hi Hri; specialize (Hlo i ri Hi Hri); lia).
  naive_solver.
Qed.

(** *** The walk of [ashmem_unpin] *)

Lemma unpin_walk_spec s aid pre ids start pend :
  inv s → unpinned_of s aid = pre ++ ids → start ≤ pend + 1 →
  match ashmem_unpin_walk s ids start pend with
  | UnpinDone => ∃ id r, ranges s !! id = Some r ∧ asma r = aid ∧ pgstart r ≤ start ∧ pend ≤ pgend r
  | UnpinMerge id r =>
      id ∈ ids ∧ ranges s !! id = Some r ∧ asma r = aid ∧ start ≤ pgend r ∧
      page_range_in_range r start pend = true
  | UnpinInsert pos =>
      ∃ l1 l2, ids = l1 ++ l2 ∧ pos = head l2 ∧
        (∀ i r, i ∈ l1 → ranges s !! i = Some r → pend < pgstart r) ∧
        (∀ i r, i ∈ l2 → ranges s !! i = Some r → pgend r < start)
  end.
Proof.
  intros I. revert pre. induction ids as [|id ids IH]; intros pre Hl Hse; simpl.
  { exists [], []. set_solver. }
  assert (id ∈ unpinned_of s aid) as Hin by (rewrite Hl; set_solver).
  apply unpinned_of_spec in Hin as (r & Hr & Ha); [|done]. rewrite Hr.
  destruct (range_before_page r start) eqn:Eb; unfold range_before_page in Eb; zprop.
  { exists [], (id :: ids). split; [done|]. split; [done|]. split; [set_solver|].
    destruct (unpinned_of_sorted s aid I) as [_ Hs]. rewrite Hl in Hs.
    apply StronglySorted_app in Hs as (_ & _ & [Hfa _]%StronglySorted_cons).
    rewrite Forall_forall in Hfa. intros i ri [->|Hi]%elem_of_cons Hri; [congruence|].
    specialize (Hfa i Hi r ri Hr Hri). destruct (inv_range _ I _ _ Hr) as ([? ?] & _). lia. }
  destruct (page_range_subsumed_by_range r start pend) eqn:E1;
    unfold page_range_subsumed_by_range in E1; rewrite ?Z.geb_leb in E1; zprop.
  { eauto 10. }
  destruct (page_range_in_range r start pend) eqn:E2.
  { split; [by left|]. done. }
  specialize (IH (pre ++ [id])). rewrite <- app_assoc in IH. specialize (IH Hl Hse).
  destruct (ashmem_unpin_walk s ids start pend) as [|i ri|pos]; [done|set_solver|].
  destruct IH as (l1 & l2 & -> & Hpos & H1 & H2). exists (id :: l1), l2.
  do 2 (split; [done|]). split; [|done]. intros i ri [->|Hi]%elem_of_cons Hri; [|by apply (H1 i)].
  rewrite Hr in Hri. injection Hri as <-.
  unfold page_range_in_range, page_in_range, page_range_subsumes_range in E2.
  rewrite ?Z.geb_leb in E2. lia.
Qed.

(** The outcome of an unpin.  Without memory for the new range, the ranges that were to be
    joined with the interval, which lie side by side around it, have been deleted already. *)
Definition unpinned (alloc : option Z) (aid start pend : Z) (s : ashmem) (ret : Z) (s' : ashmem) : Prop :=
  inv s' ∧
  (ret = 0 ∧ (∀ aid' p, unpinned_page s' aid' p ↔ unpinned_page s aid' p ∨ (aid = aid' ∧ start ≤ p ≤ pend)) ∨
   ret = - ENOMEM ∧ alloc = None ∧ ∃ lo hi, lo ≤ start ∧ pend ≤ hi ∧
     (∀ p, lo ≤ p ≤ hi → start ≤ p ≤ pend ∨ unpinned_page s aid p) ∧
     (∀ aid' p, unpinned_page s' aid' p ↔ unpinned_page s aid' p ∧ ¬ (aid = aid' ∧ lo ≤ p ≤ hi))).

Lemma range_del_file s id r aid a :
  areas s !! aid = Some a → is_Some (area_file a) →
  ∃ a', areas (range_del s id r) !! aid = Some a' ∧ is_Some (area_file a').
Proof.
  intros Ha Hf. destruct (range_del_fields s id r) as (-> & _). rewrite lookup_alter.
  case_decide; [|eauto]. subst aid. rewrite Ha. simpl. eauto.
Qed.

Lemma unpin_loop_spec fuel s aid a start pend purged_ alloc :
  inv s → areas s !! aid = Some a → is_Some (area_file a) → fresh_range s alloc →
  0 ≤ start ≤ pend + 1 → 0 ≤ pend < 2 ^ 20 - 1 → (purged_ = 0 ∨ purged_ = 1) →
  (length (unpinned_of s aid) < fuel)%nat →
  ∃ ret s', ashmem_unpin_loop fuel alloc s aid start pend purged_ = Some (ret, s') ∧
        unpinned alloc aid start pend s ret s'.
Proof.
  revert s a start pend purged_. induction fuel as [|fuel IH];
    intros s a start pend pu I Ha Hf Hfr Hse Hpe Hpu Hfuel; [lia|]. cbn [ashmem_unpin_loop].
  pose proof (unpin_walk_spec s aid [] (unpinned_of s aid) start pend I eq_refl ltac:(lia)) as HW.
  destruct (ashmem_unpin_walk s (unpinned_of s aid) start pend) as [|id r|pos].
  - destruct HW as (id & r & Hr & Hra & H1 & H2). do 2 eexists. split; [done|]. split; [done|]. left. split; [done|].
    intros aid' p. split; [tauto|]. intros [Hu|[<- Hp]]; [done|].
    apply unpinned_page_spec; [done|]. exists id, r. unfold in_range. split; [done|]. split; [done|lia].
  - destruct HW as (Hin & Hr & Hra & Hlo & Hir).
    destruct (inv_range _ I _ _ Hr) as (Hok & Hp & _).
    destruct (range_del_file s id r aid a Ha Hf) as (a' & Ha' & Hf').
    assert (page_in_range r start = true ∨ page_in_range r pend = true ∨
            page_range_subsumes_range r start pend = true) as Hcases.
    { unfold page_range_in_range in Hir. zprop. destruct Hir as [Hir|?]; [zprop|]; tauto. }
    unfold page_in_range, page_range_subsumes_range in Hcases. rewrite ?Z.geb_leb in Hcases.
    destruct (IH (range_del s id r) a' (Z.min (pgstart r) start) (Z.max (pgend r) pend)
                (Z.lor pu (purged r))) as (ret & s' & Hs' & I' & Hpg); try done.
    + by apply range_del_inv.
    + destruct alloc; [|done]. unfold fresh_range. destruct (range_del_fields s id r) as (_ & -> & _). apply lookup_delete_None. by right.
    + destruct Hok. lia.
    + destruct Hok. lia.
    + by apply lor_flag_range.
    + rewrite range_del_unpinned by done.
      pose proof (length_filter_lt (λ i, i ≠ id) (unpinned_of s aid) id Hin) as HL. simpl in HL.
      assert (¬ id ≠ id) by naive_solver. specialize (HL H). lia.
    + exists ret, s'. split; [done|]. split; [done|].
      destruct Hpg as [[-> Hpg]|(-> & Hal & lo & hi & Hl & Hh & Hin2 & Hpg)]; [left|right]; (split; [done|]).
      2: { split; [done|]. exists lo, hi. split_and!; [lia|lia| |].
           - intros p Hp'. destruct (decide (start ≤ p ≤ pend)); [by left|right].
             destruct (decide (pgstart r ≤ p ≤ pgend r)) as [Hi|Hi]; [apply unpinned_page_spec; [done|]; by exists id, r|].
             destruct (Hin2 p Hp') as [?|Hu]; [destruct Hok; lia|]. apply range_del_pages in Hu; tauto.
           - intros aid' p. rewrite Hpg, range_del_pages, Hra by done. unfold in_range. split.
             + intros [[? _] ?]. done.
             + intros [Hu Hn]. split; [|done]. split; [done|]. intros [<- ?]. apply Hn. split; [done|lia]. }
      intros aid' p. rewrite Hpg, range_del_pages by done. rewrite Hra. destruct Hok as [? ?]. unfold in_range.
      split.
      * intros [[? _]|[<- Hp']]; [tauto|].
        destruct (decide (pgstart r ≤ p ≤ pgend r)) as [Hi|Hi]; [|right; split; [done|lia]].
        left. apply unpinned_page_spec; [done|]. exists id, r. done.
      * intros [Hu|[<- Hp']]; [|right; split; [done|lia]].
        destruct (decide (aid = aid' ∧ pgstart r ≤ p ≤ pgend r)) as [[<- Hi]|Hi]; [|by left].
        right. split; [done|lia].
  - destruct HW as (l1 & l2 & Hl & -> & H1 & H2).
    destruct alloc as [id'|].
    2: { do 2 eexists. split; [reflexivity|]. split; [done|]. right. do 2 (split; [done|]). exists start, pend. split_and!; [lia|lia|tauto|].
         intros aid' p. split; [|tauto]. intros Hu. split; [done|]. intros [<- Hp].
         apply unpinned_page_spec in Hu as (i & r & Hr & Hra & Hir); [|done]. unfold in_range in Hir.
         assert (i ∈ l1 ++ l2) as Hin by (rewrite <- Hl; apply unpinned_of_spec; eauto).
         apply elem_of_app in Hin as [Hin|Hin]; [specialize (H1 i r Hin Hr)|specialize (H2 i r Hin Hr)]; lia. }
    destruct (range_alloc_inv s aid a l1 l2 pu start pend id') as [I' _]; try done; try lia.
    { unfold unpinned_of in Hl. by rewrite Ha in Hl. }
    do 2 eexists. split; [reflexivity|]. split; [done|]. left. split; [done|]. intros aid' p. by apply range_alloc_pages.
Qed.

Lemma pin_status_spec s aid pre ids start pend :
  inv s → unpinned_of s aid = pre ++ ids → start ≤ pend →
  (∀ i r p, i ∈ pre → ranges s !! i = Some r → start ≤ p ≤ pend → ¬ in_range r p) →
  (∀ i r, i ∈ ids → ranges s !! i = Some r → pgstart r ≤ pgend r) →
  pin_status_loop s ids start pend = ASHMEM_IS_UNPINNED ↔
  ∃ p, start ≤ p ≤ pend ∧ unpinned_page s aid p.
Proof.
  intros I. revert pre. induction ids as [|id ids IH]; intros pre Hl Hse Hpre Hne; simpl.
  { split; [done|]. intros (p & Hp & i & r & Hi & Hr & Hir). rewrite Hl, app_nil_r in Hi.
    by destruct (Hpre i r p). }
  assert (id ∈ unpinned_of s aid) as Hin by (rewrite Hl; set_solver).
  pose proof Hin as (r & Hr & Ha)%unpinned_of_spec; [|done]. rewrite Hr.
  specialize (Hne id r) as Hrne. specialize (Hrne ltac:(by left) Hr).
  destruct (range_before_page r start) eqn:Eb; unfold range_before_page in Eb; zprop.
  { split; [done|]. intros (p & Hp & i & ri & Hi & Hri & Hir). rewrite Hl in Hi.
    destruct (unpinned_of_sorted s aid I) as [_ Hs]. rewrite Hl in Hs.
    apply StronglySorted_app in Hs as (_ & _ & [Hfa _]%StronglySorted_cons).
    rewrite Forall_forall in Hfa. unfold in_range in *.
    apply elem_of_app in Hi as [Hi|[->|Hi]%elem_of_cons].
    - exfalso. by apply (Hpre i ri p).
    - assert (ri = r) as -> by congruence. lia.
    - specialize (Hfa i Hi r ri Hr Hri). lia. }
  destruct (page_range_in_range r start pend) eqn:E2.
  - split; [|done]. intros _. exists (Z.max start (pgstart r)).
    unfold page_range_in_range, page_in_range, page_range_subsumes_range in E2.
    rewrite ?Z.geb_leb in E2. split; [lia|]. exists id, r. unfold in_range. split; [done|]. split; [done|lia].
  - apply (IH (pre ++ [id])); [by rewrite <- app_assoc|done| |set_solver].
    intros i ri p [Hi| ->%list_elem_of_singleton]%elem_of_app Hri Hp; [by apply (Hpre i)|].
    assert (ri = r) as -> by congruence.
    destruct (inv_range _ I _ _ Hr) as (Hok & _).
    pose proof (page_range_in_range_false r start pend Hok ltac:(lia) ltac:(lia) E2). unfold in_range. lia.
Qed.

(** *** The shrinker *)

(** One turn of the loop: the range is marked purged and leaves the LRU. *)
Definition purge (s : ashmem) (id : Z) (r : ashmem_range) : ashmem :=
  let r' := mk_range (asma r) (pgstart r) (pgend r) ASHMEM_WAS_PURGED in
  lru_del (set_ranges s (<[id := r']> (ranges s))) id r'.

Lemma purge_inv s id r : inv s → ranges s !! id = Some r → purged r = 0 → inv (purge s id r).
Proof.
  intros I Hr Hz. destruct (inv_range _ I _ _ Hr) as (Hok & _ & a & Ha & Hf & Hin).
  unfold purge. set (r' := mk_range _ _ _ _).
  assert (∀ i, size_of (<[id := r']> (ranges s)) i = size_of (ranges s) i) as Hsz.
  { intros i. unfold size_of. rewrite lookup_insert. case_decide; [|done]. subst i. by rewrite Hr. }
  split; simpl.
  - intros i ri. rewrite lookup_insert. case_decide; [|apply (inv_range _ I)].
    intros [= <-]. subst i. split; [done|]. split; [by right|]. eauto.
  - intros aid b Hb. destruct (inv_list _ I _ _ Hb) as (Hnd & Hl & Hss). split; [done|]. split.
    + intros i Hi. destruct (Hl _ Hi) as (ri & Hri & <-). rewrite lookup_insert. case_decide; [|eauto].
      subst i. rewrite Hr in Hri. injection Hri as <-. eauto.
    + eapply StronglySorted_impl; [|done]. intros x y _ _. apply (below_shrink _ _ r); done || simpl; lia.
  - apply NoDup_filter, I.
  - intros i. rewrite list_elem_of_filter, (inv_lru _ I), lookup_insert. case_decide as Hd.
    + subst i. split; [naive_solver|]. by intros (? & [= <-] & ?).
    + naive_solver.
  - rewrite (inv_count _ I), u32_sub.
    rewrite (pages_of_ext (<[id := r']> (ranges s)) (ranges s)) by (intros; apply Hsz).
    rewrite pages_of_filter; [|apply I|apply (inv_lru _ I); eauto].
    rewrite <- Hsz, (size_of_ok _ _ r'); [done|by rewrite lookup_insert_eq|done].
Qed.

Lemma purge_pages s id r aid p :
  inv s → ranges s !! id = Some r → purged r = 0 →
  unpinned_page (purge s id r) aid p ↔ unpinned_page s aid p.
Proof.
  intros I Hr Hz. rewrite !unpinned_page_spec by (done || by apply purge_inv).
  unfold purge. simpl. split.
  - intros (i & ri & Hi & H). rewrite lookup_insert in Hi. case_decide; [|eauto].
    subst i. injection Hi as <-. exists id, r. done.
  - intros (i & ri & Hi & H). destruct (decide (id = i)) as [<-|Hd].
    + rewrite Hr in Hi. injection Hi as <-. eexists id, _. by rewrite lookup_insert_eq.
    + exists i, ri. by rewrite lookup_insert_ne.
Qed.

Definition truncation_of (m : gmap Z ashmem_range) (id : Z) : truncation :=
  match m !! id with
  | Some r => (asma r, pgstart r * PAGE_SIZE, (pgend r + 1) * PAGE_SIZE - 1)
  | None => (0, 0, 0)
  end.

(** The state after the ranges [l1], the oldest of the LRU, were reclaimed. *)
Record reclaimed (s : ashmem) (l1 : list Z) (s' : ashmem) : Prop := {
  rc_inv : inv s';
  rc_areas : areas s' = areas s;
  rc_lru : lru_list s = l1 ++ lru_list s';
  rc_pages : ∀ aid p, unpinned_page s' aid p ↔ unpinned_page s aid p;
  rc_purged : ∀ id r, id ∈ l1 → ranges s' !! id = Some r → purged r = ASHMEM_WAS_PURGED;
  rc_other : ∀ id, id ∉ l1 → ranges s' !! id = ranges s !! id }.

Lemma reclaimed_cons s id r l1 s' :
  inv s → ranges s !! id = Some r → purged r = 0 → lru_list s = id :: filter (λ i, i ≠ id) (lru_list s) →
  reclaimed (purge s id r) l1 s' → reclaimed s (id :: l1) s'.
Proof.
  intros I Hr Hz Hl [I' Ea El Hp Hpu Ho]. simpl in El.
  assert (id ∉ l1) as Hn.
  { intros Hin. assert (id ∈ filter (λ i, i ≠ id) (lru_list s)) as H by (rewrite El; set_solver).
    apply list_elem_of_filter in H. naive_solver. }
  split; [done|done| | | |].
  - rewrite Hl. simpl. f_equal. done.
  - intros aid p. rewrite Hp. by apply purge_pages.
  - intros i ri [->|Hi]%elem_of_cons Hri; [|by apply (Hpu i)].
    rewrite Ho in Hri by done. simpl in Hri. rewrite lookup_insert_eq in Hri. by injection Hri as <-.
  - intros i Hi. rewrite Ho by set_solver. simpl. rewrite lookup_insert_ne; [done|set_solver].
Qed.

Lemma shrink_loop_spec s nr tr :
  inv s → 0 < nr < 2 ^ 31 →
  ∃ l1, let '(s', tr') := ashmem_shrink_loop s (lru_list s) nr tr in
  reclaimed s l1 s' ∧ tr' = tr ++ map (truncation_of (ranges s)) l1 ∧
  (lru_list s' = [] ∨ nr ≤ pages_of (ranges s) l1) ∧ (∀ k x, l1 = k ++ [x] → pages_of (ranges s) k < nr).
Proof.
  intros I Hnr. remember (lru_list s) as ids eqn:Hids.
  revert s nr tr I Hnr Hids. induction ids as [|id ids IH]; intros s nr tr I Hnr Hids.
  { exists []. simpl. rewrite app_nil_r. split; [split; try done; set_solver|]. split_and!; [done|by left|]. by intros [].  }
  assert (id ∈ lru_list s) as (r & Hr & Hz)%(inv_lru _ I) by (rewrite <- Hids; by left).
  destruct (inv_range _ I _ _ Hr) as (Hok & _). pose proof (inv_lru_nodup _ I) as Hnd.
  rewrite <- Hids in Hnd. apply NoDup_cons in Hnd as [Hni Hnd].
  assert (lru_list s = id :: filter (λ i, i ≠ id) (lru_list s)) as Hl.
  { rewrite <- Hids, filter_cons_False, filter_ne_id by naive_solver. done. }
  cbn [ashmem_shrink_loop]. rewrite Hr. fold (purge s id r). cbv zeta.
  set (r' := mk_range (asma r) (pgstart r) (pgend r) ASHMEM_WAS_PURGED).
  assert (range_size r' = size_of (ranges s) id) as Hsz
    by (rewrite (size_of_ok _ _ r) by done; done).
  assert (0 ≤ size_of (ranges s) id ≤ 2 ^ 20) as Hsb.
  { unfold size_of. rewrite Hr. destruct Hok. lia. }
  rewrite Hsz, s32_small by lia.
  assert ((asma r', u32 (pgstart r * PAGE_SIZE), u32 ((pgend r + 1) * PAGE_SIZE - 1))
          = truncation_of (ranges s) id) as ->.
  { unfold truncation_of. rewrite Hr. unfold PAGE_SIZE. destruct Hok. rewrite !u32_small by lia. done. }
  destruct (Z.leb_spec (nr - size_of (ranges s) id) 0) as [Hle|Hgt].
  - exists [id]. simpl. split; [|split_and!; [done|right; lia|]; intros [|? [|]] ?; simpl; intros [=]; lia].
    apply (reclaimed_cons s id r); try done. pose proof (purge_inv s id r I Hr Hz).
    split; try done. set_solver.
  - destruct (IH (purge s id r) (nr - size_of (ranges s) id) (tr ++ [truncation_of (ranges s) id]))
      as (l1 & HIH); [by apply purge_inv|lia| |].
    { simpl. rewrite Hl in Hids. by injection Hids. }
    destruct (ashmem_shrink_loop _ _ _ _) as [s' tr']. destruct HIH as (HR & -> & Hend & Hmin).
    exists (id :: l1).
    assert (∀ i, truncation_of (ranges (purge s id r)) i = truncation_of (ranges s) i ∧
                 size_of (ranges (purge s id r)) i = size_of (ranges s) i) as Hsame.
    { intros i. unfold truncation_of, size_of. simpl. rewrite lookup_insert.
      case_decide; [|done]. subst i. by rewrite Hr. }
    split; [by apply (reclaimed_cons s id r)|]. split_and!.
    + simpl. rewrite <- app_assoc. simpl. do 2 f_equal. apply map_ext. intros i. apply Hsame.
    + destruct Hend as [Hend|Hend]; [by left|right]. simpl.
      rewrite (pages_of_ext _ (ranges s)) in Hend by (intros; apply Hsame). lia.
    + intros [|i k] x [= <- ?]; simpl; [lia|]. specialize (Hmin k x ltac:(done)).
      rewrite (pages_of_ext _ (ranges s)) in Hmin by (intros; apply Hsame). lia.
Qed.

(** *** What the operations leave alone, and running out of memory *)

Definition files (s : ashmem) : gmap Z (option Z * Z) :=
  (λ a, (area_file a, area_size a)) <$> areas s.

Lemma files_alter s aid f m :
  areas m = alter (λ a, set_unpinned a (f (unpinned_list a))) aid (areas s) → files m = files s.
Proof.
  intros E. unfold files. rewrite E. apply map_eq. intros i. rewrite !lookup_fmap, lookup_alter.
  case_decide; [subst i|done]. by destruct (areas s !! aid).
Qed.

Lemma files_del s id r : files (range_del s id r) = files s.
Proof.
  destruct (range_del_fields s id r) as (E & _). by apply (files_alter _ _ (filter (λ i, i ≠ id))) in E.
Qed.

Lemma files_shrink s id r a b : files (range_shrink s id r a b) = files s.
Proof. unfold files. by destruct (range_shrink_fields s id r a b) as (-> & _). Qed.

Lemma files_alloc alloc s aid pos pu a b : files (range_alloc alloc s aid pos pu a b).2 = files s.
Proof.
  destruct alloc as [id|]; [|done]. destruct (range_alloc_fields s aid pos pu a b id) as (E & _).
  by apply (files_alter _ _ (insert_before pos id)) in E.
Qed.

Lemma files_pin_loop alloc s aid ids start pend ret :
  files (ashmem_pin_loop alloc s aid ids start pend ret).2 = files s.
Proof.
  revert s ret. induction ids as [|id ids IH]; intros s ret; [done|]. cbn [ashmem_pin_loop].
  destruct (ranges s !! id) as [r|]; [|done].
  pose proof (files_alloc alloc s aid (Some id) (purged r) (u32 (pend + 1)) (pgend r)) as Hal.
  destruct (range_alloc alloc s aid (Some id) (purged r) (u32 (pend + 1)) (pgend r)) as [x s2].
  repeat case_match; cbn [snd] in *; by rewrite ?IH, ?files_del, ?files_shrink.
Qed.

Lemma files_unpin_loop fuel alloc s aid start pend pu ret s' :
  ashmem_unpin_loop fuel alloc s aid start pend pu = Some (ret, s') → files s' = files s.
Proof.
  revert s start pend pu. induction fuel as [|fuel IH]; intros s start pend pu; [done|].
  cbn [ashmem_unpin_loop]. destruct (ashmem_unpin_walk _ _ _ _) as [|id r|pos].
  - by intros [= _ <-].
  - intros H. apply IH in H. by rewrite files_del in H.
  - intros [= H]. pose proof (files_alloc alloc s aid pos pu start pend) as Hal. by rewrite H in Hal.
Qed.

(** *** Whole operations *)

Lemma inv_put_area s aid a a' :
  inv s → areas s !! aid = Some a → unpinned_list a' = unpinned_list a →
  (is_Some (area_file a) → is_Some (area_file a')) →
  inv (set_areas s (<[aid := a']> (areas s))).
Proof.
  intros I Ha Hl Hf. destruct I as [I1 I2 I3 I4 I5]. split; simpl; try done.
  - intros id r Hr. destruct (I1 id r Hr) as (? & ? & b & Hb & Hbf & Hin). do 2 (split; [done|]).
    rewrite lookup_insert. case_decide as Hd; [|eauto]. exists a'. rewrite <- Hd, Ha in Hb.
    injection Hb as <-. rewrite Hl. auto.
  - intros aid' b. rewrite lookup_insert. case_decide as Hd; [|apply I2].
    intros [= <-]. subst aid'. rewrite Hl. by apply I2.
Qed.

Lemma release_loop_spec s aid ids :
  inv s → unpinned_of s aid = ids →
  inv (release_loop s ids) ∧ unpinned_of (release_loop s ids) aid = [] ∧
  files (release_loop s ids) = files s.
Proof.
  revert s. induction ids as [|id ids IH]; intros s I Hl; [done|]. cbn [release_loop].
  assert (id ∈ unpinned_of s aid) as Hin by (rewrite Hl; by left).
  apply unpinned_of_spec in Hin as (r & Hr & Ha); [|done].
  rewrite Hr. destruct (unpinned_of_sorted s aid I) as [Hnd _].
  rewrite Hl in Hnd. apply NoDup_cons in Hnd as [Hni _].
  destruct (IH (range_del s id r)) as (? & ? & E); [by apply range_del_inv| |].
  - rewrite range_del_unpinned, Hl, filter_cons_False, filter_ne_id by naive_solver. done.
  - by rewrite files_del in E.
Qed.

Lemma release_inv s aid ret s' f :
  inv s → ashmem_release s aid = (ret, s', f) → inv s'.
Proof.
  intros I [= _ <- _]. destruct (release_loop_spec s aid _ I eq_refl) as (I1 & Hl & _).
  set (s1 := release_loop _ _) in *. pose proof I1 as [J1 J2 J3 J4 J5]. split; simpl; try done.
  - intros id r Hr. destruct (J1 id r Hr) as (? & ? & b & Hb & ?). do 2 (split; [done|]).
    exists b. rewrite lookup_delete_ne; [done|]. intros Heq.
    assert (id ∈ unpinned_of s1 aid) as Hin by (apply unpinned_of_spec; eauto).
    rewrite Hl in Hin. by apply elem_of_nil in Hin.
  - intros aid' b [_ Hb]%lookup_delete_Some. by apply J2.
Qed.

Lemma shrink_loop_inv s nr tr :
  inv s → inv (ashmem_shrink_loop s (lru_list s) nr tr).1 ∧
          areas (ashmem_shrink_loop s (lru_list s) nr tr).1 = areas s.
Proof.
  intros I. remember (lru_list s) as ids eqn:Hids.
  revert s nr tr I Hids. induction ids as [|id ids IH]; intros s nr tr I Hids; [done|].
  assert (id ∈ lru_list s) as (r & Hr & Hz)%(inv_lru _ I) by (rewrite <- Hids; by left).
  pose proof (inv_lru_nodup _ I) as Hnd. rewrite <- Hids in Hnd. apply NoDup_cons in Hnd as [Hni _].
  cbn [ashmem_shrink_loop]. rewrite Hr. fold (purge s id r). cbv zeta.
  pose proof (purge_inv s id r I Hr Hz) as I'.
  case_match; [done|]. destruct (IH (purge s id r) (s32 (nr - range_size (mk_range (asma r) (pgstart r) (pgend r) ASHMEM_WAS_PURGED)))
    (tr ++ [(asma r, u32 (pgstart r * PAGE_SIZE), u32 ((pgend r + 1) * PAGE_SIZE - 1))]) I') as [? E]; [|done].
  simpl. rewrite <- Hids, filter_cons_False, filter_ne_id by naive_solver. done.
Qed.

Lemma shrink_inv s nr gfp_fs trylock ret s' tr :
  inv s → ashmem_shrink s nr gfp_fs trylock = (ret, s', tr) → inv s' ∧ areas s' = areas s.
Proof.
  intros I. unfold ashmem_shrink.
  destruct (ctrue nr && negb gfp_fs); [by intros [= _ <- _]|].
  destruct (negb (ctrue nr)); [by intros [= _ <- _]|].
  destruct (negb trylock); [by intros [= _ <- _]|].
  pose proof (shrink_loop_inv s nr [] I) as HS.
  destruct (ashmem_shrink_loop s (lru_list s) nr []) as [s2 tr2]. by intros [= _ <- _].
Qed.

Lemma sizes_ok_files s s' : files s' = files s → sizes_ok s → sizes_ok s'.
Proof.
  intros E H aid a Ha Hf.
  assert (files s !! aid = Some (area_file a, area_size a)) as Hl.
  { rewrite <- E. unfold files. by rewrite lookup_fmap, Ha. }
  unfold files in Hl. rewrite lookup_fmap in Hl. destruct (areas s !! aid) as [b|] eqn:Hb; [|done].
  injection Hl as Hlf <-. apply (H aid b Hb). by rewrite Hlf.
Qed.

(** *** The arguments of the pin ioctls *)

Lemma pin_aligned o l :
  Z.land (Z.lor o l) (u32 (Z.lnot PAGE_MASK)) = 0 → o mod 4096 = 0 ∧ l mod 4096 = 0.
Proof.
  change (u32 (Z.lnot PAGE_MASK)) with (2 ^ 12 - 1).
  rewrite Z.land_lor_distr_l, !land_pow2_mod by lia. apply Z.lor_eq_0_iff.
Qed.

Lemma pin_bounds sz offset len0 :
  let len := if len0 =? 0 then u32 (PAGE_ALIGN sz - offset) else len0 in
  0 < sz ≤ 2 ^ 32 - 4096 → 0 ≤ offset < 2 ^ 32 → 0 ≤ len0 < 2 ^ 32 →
  ctrue (Z.land (Z.lor offset len) (u32 (Z.lnot PAGE_MASK))) = false →
  (u32 (- 1) - offset <? len) = false → (PAGE_ALIGN sz <? u32 (offset + len)) = false →
  let start := offset / PAGE_SIZE in let pend := u32 (start + len / PAGE_SIZE - 1) in
  0 ≤ start ≤ pend + 1 ∧ 0 ≤ pend < 2 ^ 20 - 1.
Proof.
  intros len Hsz Ho Hl0 H1 H2 H3 start pend. destruct (page_align_spec sz Hsz) as [_ HP].
  assert (0 ≤ len < 2 ^ 32) by (unfold len; case_match; [apply u32_range|lia]).
  unfold ctrue in H1. zprop. apply pin_aligned in H1 as [Ao Al].
  change (u32 (-1)) with (2 ^ 32 - 1) in H2. rewrite u32_small in H3 by lia.
  assert (offset = 4096 * start) as Eo.
  { unfold start, PAGE_SIZE. pose proof (Z.div_mod offset 4096). lia. }
  assert (len = 4096 * (len / 4096)) as El by (pose proof (Z.div_mod len 4096); lia).
  unfold pend, PAGE_SIZE in *. set (k := len / 4096) in *.
  assert (1 ≤ start + k).
  { destruct (Z.eqb_spec len0 0) as [Hz|Hz]; unfold len in El.
    - destruct (Z.eq_dec offset 0) as [->|]; [|lia].
      rewrite Z.sub_0_r, u32_small in El by lia. lia.
    - lia. }
  rewrite u32_small by lia. lia.
Qed.

Lemma pin_unpin_inv alloc s aid cmd pin ret s' :
  inv s → sizes_ok s → fresh_range s alloc → cmd_ok (ASHMEM_PIN_CMD cmd pin) →
  ashmem_pin_unpin alloc s aid cmd pin = Some (ret, s') → inv s' ∧ files s' = files s.
Proof.
  intros I Hsz Hfr Hc. unfold ashmem_pin_unpin. destruct (areas s !! aid) as [a|] eqn:Ha; [|done].
  destruct (area_file a) as [fl|] eqn:Ef; [|by intros [= _ <-]].
  destruct pin as [[offset len0]|]; [|by intros [= _ <-]]. destruct Hc as [Ho Hl0].
  assert (0 < area_size a ≤ 2 ^ 32 - 4096) as Hs by (apply (Hsz aid); [done|by rewrite Ef]).
  pose proof (pin_bounds (area_size a) offset len0 Hs Ho Hl0) as HB. cbv zeta in HB |- *.
  set (len := if len0 =? 0 then _ else len0) in *.
  destruct (ctrue _) eqn:G1; [by intros [= _ <-]|].
  destruct (u32 (-1) - offset <? len) eqn:G2; [by intros [= _ <-]|].
  destruct (PAGE_ALIGN (area_size a) <? u32 (offset + len)) eqn:G3; [by intros [= _ <-]|].
  destruct (HB eq_refl eq_refl eq_refl) as [B1 B2].
  set (start := offset / PAGE_SIZE) in *. set (pend := u32 (start + len / PAGE_SIZE - 1)) in *.
  destruct cmd.
  - intros [= H]. pose proof (files_pin_loop alloc s aid (unpinned_of s aid) start pend ASHMEM_NOT_PURGED) as Hfl.
    unfold ashmem_pin in H. rewrite H in Hfl. split; [|done].
    pose proof (pin_loop_pages s aid start pend [] (unpinned_of s aid) alloc ASHMEM_NOT_PURGED B1 B2) as [HI _].
    { split; [done|done|set_solver|done]. }
    by rewrite H in HI.
  - intros H. unfold ashmem_unpin in H. split; [|by apply files_unpin_loop in H].
    destruct (unpin_loop_spec (S (length (unpinned_of s aid))) s aid a start pend ASHMEM_NOT_PURGED alloc)
      as (ret2 & s2 & H2 & HI & _); try done; try lia; [by left|].
    rewrite H2 in H. by injection H as _ <-.
  - by intros [= _ <-].
Qed.

(** *** One call of each kind *)

Lemma open_ok s g alloc ret s' :
  inv s → sizes_ok s → (∀ aid, alloc = Some aid → areas s !! aid = None) →
  ashmem_open g alloc s = (ret, s') → inv s' ∧ sizes_ok s'.
Proof.
  intros I Hsz Hfr. unfold ashmem_open. destruct (ctrue g); [by intros [= _ <-]|].
  destruct alloc as [aid|]; [|by intros [= _ <-]]. specialize (Hfr aid eq_refl).
  intros [= _ <-]. pose proof I as [I1 I2 I3 I4 I5]. split; [split; simpl; try done|].
  - intros id r Hr. destruct (I1 id r Hr) as (? & ? & b & Hb & ?). do 2 (split; [done|]).
    exists b. rewrite lookup_insert_ne; [done|]. intros Heq. congruence.
  - intros aid' b. rewrite lookup_insert. case_decide; [|apply I2].
    intros [= <-]. simpl. split; [constructor|]. split; [set_solver|constructor].
  - intros aid' b. simpl. rewrite lookup_insert. case_decide; [|apply Hsz].
    intros [= <-] [? ?]. done.
Qed.

Lemma release_ok s aid ret s' f :
  inv s → sizes_ok s → ashmem_release s aid = (ret, s', f) → inv s' ∧ sizes_ok s'.
Proof.
  intros I Hsz Hr. split; [by eapply release_inv|].
  destruct (release_loop_spec s aid _ I eq_refl) as (_ & _ & E).
  injection Hr as _ <- _. apply (sizes_ok_files _ _ E) in Hsz.
  intros aid' b Hb. simpl in Hb. apply lookup_delete_Some in Hb as [_ Hb]. by apply (Hsz aid').
Qed.

Lemma mmap_ok s setup aid a v ret a' v' f :
  inv s → sizes_ok s → areas s !! aid = Some a → 0 ≤ area_size a ≤ 2 ^ 32 - 4096 →
  ashmem_mmap setup a v = (ret, a', v', f) →
  let s' := set_areas s (<[aid := a']> (areas s)) in inv s' ∧ sizes_ok s'.
Proof.
  intros I Hsz Ha Hs Hm s'.
  assert (unpinned_list a' = unpinned_list a ∧ area_size a' = area_size a ∧
          (a' = a ∨ is_Some (area_file a') ∧ area_size a ≠ 0)) as (E1 & E2 & E3).
  { unfold ashmem_mmap in Hm. destruct (Z.eqb_spec (area_size a) 0); [by simplify_eq/=; auto|].
    destruct (ctrue _); [by simplify_eq/=; auto|].
    repeat case_match; simplify_eq/=; split_and!; eauto. }
  split.
  - apply (inv_put_area _ _ a); [done..|]. intros Hf. destruct E3 as [->|[? _]]; done.
  - intros aid' b. simpl. rewrite lookup_insert. case_decide; [|apply Hsz]. intros [= <-] Hf.
    rewrite E2. destruct E3 as [->|[_ ?]]; [by apply (Hsz aid)|lia].
Qed.

Lemma put_area_ok s aid a ra ret s' :
  inv s → sizes_ok s → areas s !! aid = Some a →
  unpinned_list ra.2 = unpinned_list a → area_file ra.2 = area_file a →
  (area_size ra.2 = area_size a ∨ area_file a = None) →
  put_area s aid ra = Some (ret, s') → inv s' ∧ sizes_ok s'.
Proof.
  intros I Hsz Ha E1 E2 E3 [= _ <-]. split.
  - apply (inv_put_area _ _ a); [done..|]. by rewrite E2.
  - intros aid' b. simpl. rewrite lookup_insert. case_decide; [|apply Hsz]. intros [= <-] Hf.
    rewrite E2 in Hf. destruct E3 as [->|E3]; [by apply (Hsz aid)|]. rewrite E3 in Hf. by destruct Hf.
Qed.

Lemma ioctl_ok s t alloc aid cmd ret s' :
  inv s → sizes_ok s → fresh_range s alloc → cmd_ok cmd →
  ashmem_ioctl t alloc s aid cmd = Some (ret, s') → inv s' ∧ sizes_ok s'.
Proof.
  intros I Hsz Hfr Hc. unfold ashmem_ioctl. destruct (areas s !! aid) as [a|] eqn:Ha; [|done].
  destruct cmd; try (by intros [= _ <-]).
  - apply put_area_ok with a; try done; unfold set_name; repeat case_match; simpl; auto.
  - destruct (area_file a) eqn:Ef; [by intros [= _ <-]|].
    apply put_area_ok with a; try done. by right.
  - apply put_area_ok with a; try done; unfold set_prot_mask; repeat case_match; simpl; auto.
  - intros H. destruct (pin_unpin_inv _ _ _ _ _ _ _ I Hsz Hfr Hc H) as [? E].
    split; [done|]. by apply (sizes_ok_files s).
  - destruct (cap_sys_admin t); [|by intros [= _ <-]]. unfold ashmem_shrink at 1. simpl.
    destruct (ashmem_shrink s (s32 (lru_count s)) true (mutex_free t)) as [[r2 s2] tr] eqn:E.
    intros [= _ <-]. destruct (shrink_inv _ _ _ _ _ _ _ I E) as [? E']. split; [done|].
    apply (sizes_ok_files s); [|done]. unfold files. by rewrite E'.
Qed.

(** ** Theorems *)

(** C3: the bookkeeping of ashmem survives every call into the driver, in any
    order and with allocation failures: each area's unpinned list holds
    disjoint ranges in descending order, the LRU holds exactly the ranges that
    were not purged, each once, and [lru_count] is the number of their pages. *)
Theorem ashmem_invariant s :
  rtc ashmem_step ashmem_init s → inv s ∧ sizes_ok s.
Proof.
  intros H. cut (∀ s0, rtc ashmem_step s0 s → inv s0 ∧ sizes_ok s0 → inv s ∧ sizes_ok s).
  { intros Hc. apply (Hc ashmem_init H). split; [|by intros ? ? ?].
    split; simpl; try (set_solver || done). constructor. }
  clear H. induction 1 as [s0|s0 s1 s2 Hstep _ IH]; [done|]. intros [I Hsz]. apply IH. clear IH.
  destruct Hstep as [g alloc ret s' Hfr Ho|aid ret s' f Hr|setup aid a v ret a' v' f Ha Hs Hs0 Hm
                    |t alloc aid cmd ret s' Hfr Hc Hi|nr fs tl ret s' tr Hsh].
  - by eapply open_ok.
  - by eapply release_ok.
  - by eapply mmap_ok.
  - by eapply ioctl_ok.
  - destruct (shrink_inv _ _ _ _ _ _ _ I Hsh) as [? E]. split; [done|].
    apply (sizes_ok_files s0); [|done]. unfold files. by rewrite E.
Qed.

(** C4: pinning a page interval removes its pages from the unpinned set of that area, and
    nothing else, except when the interval lies in the middle of a range and there is no
    memory for a second one: then the pages behind the interval are forgotten as well.
    No other area is touched, the invariant is kept, and the result is
    [ASHMEM_WAS_PURGED] iff a range met by the request had been purged. *)
Theorem ashmem_pin_spec s aid start pend alloc :
  inv s → fresh_range s alloc → 0 ≤ start ≤ pend + 1 → 0 ≤ pend < 2 ^ 20 - 1 →
  let '(ret, s') := ashmem_pin alloc s aid start pend in
  inv s' ∧
  (∀ aid' p, unpinned_page s' aid' p ↔
             unpinned_page s aid' p ∧
             ¬ (aid = aid' ∧ (start ≤ p ≤ pend ∨ alloc = None ∧ behind_hole s aid start pend p))) ∧
  (ret = ASHMEM_WAS_PURGED ↔ purged_in (ranges s) (unpinned_of s aid) start pend).
Proof.
  intros I Hfr Hse Hpe. unfold ashmem_pin.
  assert (pin_walk s aid [] (unpinned_of s aid) start pend alloc) as W by (split; set_solver).
  pose proof (pin_loop_pages s aid start pend [] _ alloc ASHMEM_NOT_PURGED Hse Hpe W) as [I' Hp].
  pose proof (pin_loop_ret s aid start pend [] _ alloc ASHMEM_NOT_PURGED Hse Hpe W) as Hr.
  destruct (ashmem_pin_loop _ _ _ _ _ _ _) as [ret s']. simpl in *.
  split; [done|]. split; [done|]. unfold ASHMEM_WAS_PURGED, ASHMEM_NOT_PURGED in *.
  rewrite Hr by (by left). naive_solver lia.
Qed.

(** C5: unpinning terminates.  It returns 0 and adds exactly the pages of the interval to
    the unpinned set of that area, absorbing the ranges it overlaps; or there is no memory
    for the new range, the result is -ENOMEM, and exactly the unpinned pages of an
    interval around the one asked for, which the overlapping ranges make up, are pinned. *)
Theorem ashmem_unpin_spec s aid a start pend alloc :
  inv s → areas s !! aid = Some a → is_Some (area_file a) → fresh_range s alloc →
  0 ≤ start ≤ pend + 1 → 0 ≤ pend < 2 ^ 20 - 1 →
  ∃ ret s', ashmem_unpin alloc s aid start pend = Some (ret, s') ∧ inv s' ∧
    (ret = 0 ∧
       (∀ aid' p, unpinned_page s' aid' p ↔ unpinned_page s aid' p ∨ (aid = aid' ∧ start ≤ p ≤ pend)) ∨
     ret = - ENOMEM ∧ alloc = None ∧
       ∃ lo hi, lo ≤ start ∧ pend ≤ hi ∧
         (∀ p, lo ≤ p ≤ hi → start ≤ p ≤ pend ∨ unpinned_page s aid p) ∧
         (∀ aid' p, unpinned_page s' aid' p ↔ unpinned_page s aid' p ∧ ¬ (aid = aid' ∧ lo ≤ p ≤ hi))).
Proof.
  intros I Ha Hf Hfr Hse Hpe.
  destruct (unpin_loop_spec (S (length (unpinned_of s aid))) s aid a start pend ASHMEM_NOT_PURGED alloc)
    as (ret & s' & Hs & HI & Hp); try done; try lia; [by left|]. by exists ret, s'.
Qed.

(** [ASHMEM_GET_PIN_STATUS] answers "unpinned" iff at least one page of the
    interval is unpinned. *)
Theorem ashmem_pin_status_spec s aid start pend :
  inv s → start ≤ pend → (∀ id r, ranges s !! id = Some r → pgstart r ≤ pgend r) →
  ashmem_get_pin_status s aid start pend = ASHMEM_IS_UNPINNED ↔
  ∃ p, start ≤ p ≤ pend ∧ unpinned_page s aid p.
Proof.
  intros I Hse Hne. apply (pin_status_spec s aid []); [done|done|done|set_solver|].
  intros i r _. apply Hne.
Qed.

(** C6: a shrink request for [nr] pages reclaims ranges one after the other from the oldest
    end of the LRU and stops at the first one with which [nr] pages are freed, or when nothing is
    left: exactly those ranges are marked purged and their bytes truncated from the backing
    files, nothing is pinned or unpinned, and the number of pages left is returned.  A query
    ([nr] is 0) returns that number and changes nothing; a caller that may not enter a file
    system, or that finds the mutex taken, gets -1 and nothing is changed. *)
Theorem ashmem_shrink_spec s nr gfp_fs trylock :
  inv s → 0 ≤ nr < 2 ^ 31 →
  let '(ret, s', tr) := ashmem_shrink s nr gfp_fs trylock in
  if nr =? 0 then ret = s32 (pages_of (ranges s) (lru_list s)) ∧ s' = s ∧ tr = []
  else if negb (gfp_fs && trylock) then ret = - 1 ∧ s' = s ∧ tr = []
  else ∃ l1, reclaimed s l1 s' ∧ tr = map (truncation_of (ranges s)) l1 ∧
    (lru_list s' = [] ∨ nr ≤ pages_of (ranges s) l1) ∧
    (∀ k x, l1 = k ++ [x] → pages_of (ranges s) k < nr) ∧
    ret = s32 (pages_of (ranges s') (lru_list s')).
Proof.
  intros I Hnr. assert (∀ s0, inv s0 → s32 (lru_count s0) = s32 (pages_of (ranges s0) (lru_list s0))) as Hc.
  { intros s0 I0. rewrite (inv_count _ I0). unfold s32, u32. by rewrite Zplus_mod_idemp_l. }
  unfold ashmem_shrink. unfold ctrue. destruct (Z.eqb_spec nr 0) as [->|Hn]; simpl; [by split; [apply Hc|]|].
  destruct gfp_fs; simpl; [|done]. destruct trylock; simpl; [|done].
  destruct (shrink_loop_spec s nr [] I ltac:(lia)) as (l1 & H).
  destruct (ashmem_shrink_loop s (lru_list s) nr []) as [s' tr]. destruct H as (HR & -> & Hend & Hmin).
  exists l1. split_and!; try done. by apply Hc, (rc_inv _ _ _ HR).
Qed.

Lemma testbit_u32 x n : 0 ≤ n < 32 → Z.testbit (u32 x) n = Z.testbit x n.
Proof. intros. apply Z.mod_pow2_bits_low. lia. Qed.

Lemma calc_vm_prot_bits_land x : calc_vm_prot_bits x = Z.land x 7.
Proof.
  unfold calc_vm_prot_bits, calc_vm_trans. simpl. rewrite !Z.mul_1_r.
  by rewrite <- !Z.land_lor_distr_r.
Qed.

Lemma calc_vm_may_flags_land x : calc_vm_may_flags x = Z.shiftl (Z.land x 7) 4.
Proof.
  change 7 with (Z.lor PROT_READ (Z.lor PROT_WRITE PROT_EXEC)).
  rewrite !Z.land_lor_distr_r, !Z.shiftl_lor, !Z.shiftl_mul_pow2 by lia. done.
Qed.

(** a mapping that is granted has no access bit, and can never gain one by
    mprotect, that the protection mask of the area excludes. *)
Theorem ashmem_mmap_respects_mask setup a v a' v' f b :
  ashmem_mmap setup a v = (0, a', v', f) → (b = 0 ∨ b = 1 ∨ b = 2) →
  Z.testbit (prot_mask a) b = false →
  (∀ nm sz fl, setup nm sz fl ≠ inr 0) →
  Z.testbit (vm_flags v') b = false ∧ Z.testbit (vm_flags v') (b + 4) = false.
Proof.
  intros Hm Hb Hmask Hset. unfold ashmem_mmap in Hm.
  destruct (Z.eqb_spec (area_size a) 0); [done|]. destruct (ctrue _) eqn:G; [done|].
  unfold ctrue in G. zprop. rewrite !calc_vm_prot_bits_land in G.
  rewrite calc_vm_may_flags_land in Hm.
  assert (vm_flags v' = Z.lor (Z.land (vm_flags v) (u32 (Z.lnot (Z.shiftl (Z.land (u32 (Z.lnot (prot_mask a))) 7) 4))))
    VM_CAN_NONLINEAR) as ->.
  { repeat case_match; simplify_eq/=; try done; exfalso; eapply Hset; eassumption. }
  apply (f_equal (λ x, Z.testbit x b)) in G. rewrite Z.bits_0 in G.
  rewrite !Z.land_spec, testbit_u32, Z.lnot_spec, Z.land_spec, Hmask in G by lia.
  assert (Z.testbit 7 b = true ∧ Z.testbit (Z.land PROT_MASK 7) b = true ∧
          Z.testbit VM_CAN_NONLINEAR b = false ∧ Z.testbit VM_CAN_NONLINEAR (b + 4) = false)
    as (B1 & B2 & B3 & B4) by (destruct Hb as [->|[->| ->]]; done).
  rewrite Z.land_spec in B2. rewrite B2 in G. simpl in G. rewrite !andb_true_r in G.
  rewrite !Z.lor_spec, B3, B4, !orb_false_r. split; rewrite Z.land_spec; [by rewrite G|].
  rewrite testbit_u32, Z.lnot_spec, Z.shiftl_spec by lia. replace (b + 4 - 4) with b by lia.
  rewrite Z.land_spec, testbit_u32, Z.lnot_spec, Hmask, B1 by lia. apply andb_false_r.
Qed.

Lemma strlen_app_nul l : strlen_ (l ++ [0]) = strlen_ l ∧ 0 ≤ strlen_ l ≤ zlen l.
Proof.
  induction l as [|c l [IH1 IH2]]; [done|]. rewrite zlen_cons. simpl. rewrite IH1.
  destruct (c =? 0); lia.
Qed.

Lemma strlen_slice l :
  zslice (l ++ [0]) 0 (strlen_ l + 1) = zslice l 0 (strlen_ l) ++ [0].
Proof.
  unfold zslice. rewrite !drop_0.
  induction l as [|c l IH]; [done|]. destruct (strlen_app_nul l) as [_ ?]. simpl.
  destruct (Z.eqb_spec c 0) as [->|Hc]; [done|].
  replace (Z.to_nat (1 + strlen_ l + 1)) with (S (Z.to_nat (strlen_ l + 1))) by lia.
  replace (Z.to_nat (1 + strlen_ l)) with (S (Z.to_nat (strlen_ l))) by lia.
  simpl. by rewrite IH.
Qed.

Lemma set_name_tail n bs :
  zlen n = ASHMEM_FULL_NAME_LEN → zlen bs = ASHMEM_NAME_LEN →
  drop (Z.to_nat ASHMEM_NAME_PREFIX_LEN)
    (zset (memcpy n ASHMEM_NAME_PREFIX_LEN bs) (ASHMEM_FULL_NAME_LEN - 1) 0)
  = take 255 bs ++ [0].
Proof.
  change ASHMEM_FULL_NAME_LEN with 267. change ASHMEM_NAME_LEN with 256.
  change ASHMEM_NAME_PREFIX_LEN with 11. intros Hn Hb. apply (znth_ext 0).
  - unfold zlen in *. rewrite length_drop, length_app, length_take.
    unfold zset, memcpy. rewrite length_insert, length_inserts. cbn [length]. lia.
  - intros i Hi.
    assert (zlen (take 255 bs) = 255) as H255 by (unfold zlen in *; rewrite length_take; lia).
    assert (0 ≤ i < 256).
    { unfold zlen, zset, memcpy in *. rewrite length_drop, length_insert, length_inserts in Hi. lia. }
    assert (znth 0 (drop (Z.to_nat 11) (zset (memcpy n 11 bs) (267 - 1) 0)) i
            = znth 0 (zset (memcpy n 11 bs) 266 0) (11 + i)) as ->.
    { unfold znth. rewrite !nth_lookup, lookup_drop. do 2 f_equal. lia. }
    rewrite znth_zset, znth_memcpy, znth_app, H255 by (rewrite ?zlen_memcpy; lia).
    destruct (Z.ltb_spec i 255).
    + zbool; simpl; try lia. replace (11 + i - 11) with i by lia.
      unfold znth. rewrite !nth_lookup, lookup_take_lt by lia. done.
    + assert (i = 255) as -> by lia. done.
Qed.

(** the name set by [ASHMEM_SET_NAME] is what [ASHMEM_GET_NAME] returns, up
    to its first NUL and cut to 255 characters; an empty name reads back as the
    default one.  At most 256 bytes, all written by the setter, reach the
    user. *)
Theorem ashmem_name_roundtrip a uname writable :
  zlen (name a) = ASHMEM_FULL_NAME_LEN → area_file a = None →
  ASHMEM_NAME_LEN ≤ zlen (ub_data uname) → ASHMEM_NAME_LEN ≤ writable →
  let str := take 255 (ub_data uname) in
  ∃ a', set_name a uname = (0, a') ∧ zlen (name a') = ASHMEM_FULL_NAME_LEN ∧
    get_name a' writable =
      (0, if strlen_ str =? 0 then ASHMEM_NAME_DEF else zslice str 0 (strlen_ str) ++ [0]).
Proof.
  intros Hn Hf Hd Hw str. unfold set_name. rewrite Hf.
  destruct (copy_from_user uname 0 ASHMEM_NAME_LEN) as [bs rem] eqn:E.
  assert (zslice (ub_data uname) 0 ASHMEM_NAME_LEN = take 256 (ub_data uname)) as Ez by done.
  assert (zlen (take 256 (ub_data uname)) = 256) as HL.
  { unfold zlen, ASHMEM_NAME_LEN in *. rewrite length_take. lia. }
  unfold copy_from_user in E. rewrite Ez, HL in E.
  replace (Z.to_nat ASHMEM_NAME_LEN - length (take 256 (ub_data uname)))%nat with 0%nat in E
    by (unfold zlen, ASHMEM_NAME_LEN in *; lia).
  simpl in E. rewrite app_nil_r in E. injection E as <- <-.
  eexists. split; [reflexivity|]. simpl. split; [by rewrite zlen_zset, zlen_memcpy|].
  pose proof (set_name_tail (name a) (take 256 (ub_data uname)) Hn HL) as HT.
  rewrite take_take in HT. change (255 `min` 256)%nat with 255%nat in HT. fold str in HT.
  unfold get_name. simpl name. rewrite HT.
  set (nm := zset _ _ _) in *.
  assert (znth 0 nm ASHMEM_NAME_PREFIX_LEN = znth 0 (str ++ [0]) 0) as ->.
  { rewrite <- HT. unfold znth. rewrite !nth_lookup, lookup_drop. done. }
  destruct (strlen_app_nul str) as [-> Hsl]. rewrite strlen_slice.
  assert (zlen str = 255) as Hs.
  { unfold str, zlen, ASHMEM_NAME_LEN in *. rewrite length_take. lia. }
  assert (ctrue (znth 0 (str ++ [0]) 0) = negb (strlen_ str =? 0)) as ->.
  { destruct str as [|c l]; [done|]. change (znth 0 ((c :: l) ++ [0]) 0) with c. unfold ctrue. simpl.
    destruct (c =? 0); [done|]. simpl. destruct (strlen_app_nul l). zbool; lia. }
  unfold ASHMEM_NAME_LEN in *.
  destruct (Z.eqb_spec (strlen_ str) 0); simpl negb; cbv iota.
  - rewrite copy_to_user_all; [done|lia|]. change (zlen ASHMEM_NAME_DEF) with 11. lia.
  - rewrite copy_to_user_all; [done|lia|]. rewrite zlen_app, zlen_zslice by lia.
    change (zlen [0]) with 1. lia.
Qed.

(** Finding: "the user can only remove, not add, protection bits" does not hold
    for a task with the READ_IMPLIES_EXEC personality: asking again for a mask
    already in force adds PROT_EXEC back. *)
Theorem ashmem_prot_mask_can_grow :
  ∃ a a', Z.land (prot_mask a) PROT_EXEC = 0 ∧
          set_prot_mask true a (prot_mask a) = (0, a') ∧ Z.land (prot_mask a') PROT_EXEC ≠ 0.
Proof. exists (mk_area [] [] None 0 0 PROT_READ). eexists. split; [done|]. split; [reflexivity|]. done. Qed.

(** An area of eight pages with pages 2 to 5 unpinned, for the examples. *)
Definition sample_area : ashmem_area := mk_area (replicate 267 0) [10] (Some 77) 32768 0 PROT_MASK.
Definition sample_state (pu : Z) : ashmem :=
  mk_ashmem {[1 := sample_area]} {[10 := mk_range 1 2 5 pu]}
    (if pu =? 0 then [10] else []) (if pu =? 0 then 4 else 0).

Lemma sample_state_inv pu : pu = 0 ∨ pu = 1 → inv (sample_state pu).
Proof.
  intros Hpu. split; simpl.
  - intros id r [<- <-]%lookup_singleton_Some. split; [done|]. split; [done|]. simpl.
    eexists. rewrite lookup_singleton_eq. split; [done|]. split; [done|]. by left.
  - intros aid a [<- <-]%lookup_singleton_Some. simpl. split; [apply NoDup_singleton|]. split.
    + intros id ->%list_elem_of_singleton. eexists. rewrite lookup_singleton_eq. done.
    + repeat constructor.
  - destruct (pu =? 0); [apply NoDup_singleton|constructor].
  - intros id. setoid_rewrite lookup_singleton_Some.
    destruct Hpu as [-> | ->]; simpl; [rewrite list_elem_of_singleton|]; set_solver.
  - by destruct Hpu as [-> | ->].
Qed.

(** Finding: unpinning "everything onward" from the end of an area (offset equal
    to its size, length 0) inserts a range without pages, and every repetition
    inserts another one: a user can grow kernel memory without bound. *)
Theorem ashmem_unpin_empty_range :
  ∃ s1 s2,
    ashmem_pin_unpin (Some 11) (sample_state 0) 1 ASHMEM_UNPIN (Some (32768, 0)) = Some (0, s1) ∧
    ashmem_pin_unpin (Some 12) s1 1 ASHMEM_UNPIN (Some (32768, 0)) = Some (0, s2) ∧
    unpinned_of s2 1 = [12; 11; 10] ∧
    ranges s2 !! 12 = Some (mk_range 1 8 7 0) ∧ ranges s2 !! 11 = Some (mk_range 1 8 7 0).
Proof. do 2 eexists. split; [vm_compute; reflexivity|]. split; [vm_compute; reflexivity|]. done. Qed.

(** Witnesses *)
Lemma ashmem_invariant_witness :
  ∃ s, rtc ashmem_step ashmem_init s ∧ areas s ≠ ∅ ∧ inv s ∧ sizes_ok s.
Proof.
  exists (ashmem_open 0 (Some 1) ashmem_init).2.
  assert (rtc ashmem_step ashmem_init (ashmem_open 0 (Some 1) ashmem_init).2) as H.
  { apply rtc_once. eapply (astep_open _ 0 (Some 1)); [|reflexivity]. intros aid _. apply lookup_empty. }
  split; [exact H|]. split; [|exact (ashmem_invariant _ H)].
  intros E. apply (f_equal (lookup 1)) in E. vm_compute in E. discriminate.
Defined.

Lemma ashmem_pin_spec_witness :
  unpinned_page (sample_state 1) 1 5 ∧ ¬ unpinned_page (ashmem_pin None (sample_state 1) 1 3 4).2 1 5.
Proof.
  pose proof (ashmem_pin_spec (sample_state 1) 1 3 4 None) as H.
  destruct (ashmem_pin None (sample_state 1) 1 3 4) as [ret s'].
  destruct H as (_ & Hp & _); [apply sample_state_inv; by right|exact I|lia|lia|]. split.
  - exists 10, (mk_range 1 2 5 1). split; [by left|]. split; [reflexivity|]. unfold in_range. simpl. lia.
  - intros [_ Hn]%Hp. apply Hn. split; [reflexivity|]. right. split; [reflexivity|].
    exists 10, (mk_range 1 2 5 1). split; [reflexivity|]. simpl. lia.
Defined.

Lemma ashmem_unpin_spec_witness :
  ∃ ret s', ashmem_unpin (Some 11) (sample_state 0) 1 0 3 = Some (ret, s') ∧ inv s' ∧ ret = 0 ∧
    ∀ aid' p, unpinned_page s' aid' p ↔
              unpinned_page (sample_state 0) aid' p ∨ (1 = aid' ∧ 0 ≤ p ≤ 3).
Proof.
  destruct (ashmem_unpin_spec (sample_state 0) 1 sample_area 0 3 (Some 11)) as (ret & s' & E & Hi & [[-> H]|(_ & ? & _)]);
    [apply sample_state_inv; by left|reflexivity|by eexists|reflexivity|lia|lia| |discriminate].
  exists 0, s'. done.
Defined.

Lemma ashmem_pin_status_spec_witness :
  ashmem_get_pin_status (sample_state 0) 1 5 9 = ASHMEM_IS_UNPINNED ↔
  ∃ p, 5 ≤ p ≤ 9 ∧ unpinned_page (sample_state 0) 1 p.
Proof.
  apply ashmem_pin_status_spec; [apply sample_state_inv; by left|lia|].
  intros id r Hr. simpl in Hr. apply lookup_singleton_Some in Hr as [_ <-]. simpl. lia.
Defined.

Lemma ashmem_shrink_spec_witness :
  let '(ret, s', tr) := ashmem_shrink (sample_state 0) 3 true true in
  ∃ l1, reclaimed (sample_state 0) l1 s' ∧ tr = map (truncation_of (ranges (sample_state 0))) l1 ∧
    ret = s32 (pages_of (ranges s') (lru_list s')).
Proof.
  pose proof (ashmem_shrink_spec (sample_state 0) 3 true true) as H.
  destruct (ashmem_shrink (sample_state 0) 3 true true) as [[ret s'] tr].
  destruct H as (l1 & ? & ? & _ & _ & ?); [apply sample_state_inv; by left|lia|]. by exists l1.
Defined.

Lemma ashmem_mmap_respects_mask_witness :
  ∃ a' v' f, ashmem_mmap (λ _ _ _, inl 5) (mk_area [] [] None 4096 0 PROT_READ)
               (mk_vma 113 0 None false) = (0, a', v', f) ∧
    Z.testbit (vm_flags v') 1 = false ∧ Z.testbit (vm_flags v') (1 + 4) = false.
Proof.
  eexists _, _, _. split; [reflexivity|].
  eapply (ashmem_mmap_respects_mask (λ _ _ _, inl 5) (mk_area [] [] None 4096 0 PROT_READ)
            (mk_vma 113 0 None false)); [reflexivity|lia|reflexivity|discriminate].
Defined.

Lemma ashmem_name_roundtrip_witness :
  ∃ a', set_name (mk_area (replicate 267 0) [] None 0 0 0) (mk_ubuf 256 ([104; 105] ++ replicate 254 0))
        = (0, a') ∧ zlen (name a') = ASHMEM_FULL_NAME_LEN ∧
    get_name a' 256 =
      (0, if strlen_ (take 255 ([104; 105] ++ replicate 254 0)) =? 0 then ASHMEM_NAME_DEF
          else zslice (take 255 ([104; 105] ++ replicate 254 0)) 0
                 (strlen_ (take 255 ([104; 105] ++ replicate 254 0))) ++ [0]).
Proof.
  apply (ashmem_name_roundtrip (mk_area (replicate 267 0) [] None 0 0 0)
           (mk_ubuf 256 ([104; 105] ++ replicate 254 0)) 256);
    [reflexivity|reflexivity|vm_compute; discriminate|vm_compute; discriminate].
Defined.
