(* ===== verification/PmemAlloc.v ===== *)
(** The buddy allocator of the physical memory driver (drivers/misc/pmem.c):
    the device record [pmem_info], the table of [pmem_bits] that describes how
    the pages of a device are divided into blocks, [pmem_order],
    [pmem_allocate], [pmem_free] and [pmem_setup].

    The table is an array in memory: a read past its end returns whatever lies
    behind it ([past], arbitrary), a write past its end damages foreign memory
    and is the outcome [None].  The same outcome stands for a loop that does
    not end within its fuel; the theorems show that neither happens. *)

From S2P Require Import Prelude.

(** ** Data *)

Definition PMEM_MIN_ALLOC : Z := 4096.
Definition PMEM_MAX_ORDER : Z := 128.

(** One entry: a flag of one bit and an order of seven bits. *)
Record pmem_bits := mk_bits { allocated : bool; order : Z }.

Record pmem_info := mk_info {
  dev_minor : Z;            (* dev.minor *)
  base : Z; vbase : Z; size : Z; num_entries : Z; garbage_pfn : Z;
  bitmap : list pmem_bits;
  no_allocator : bool; cached : bool; buffered : bool;
  dev_allocated : bool;     (* the flag used in no_allocator mode *)
  data_list : list Z        (* the open files of the device *)
}.

Definition set_bitmap (pm : pmem_info) bm :=
  mk_info (dev_minor pm) (base pm) (vbase pm) (size pm) (num_entries pm) (garbage_pfn pm)
    bm (no_allocator pm) (cached pm) (buffered pm) (dev_allocated pm) (data_list pm).
Definition set_dev_allocated (pm : pmem_info) a :=
  mk_info (dev_minor pm) (base pm) (vbase pm) (size pm) (num_entries pm) (garbage_pfn pm)
    (bitmap pm) (no_allocator pm) (cached pm) (buffered pm) a (data_list pm).
Definition set_data_list (pm : pmem_info) l :=
  mk_info (dev_minor pm) (base pm) (vbase pm) (size pm) (num_entries pm) (garbage_pfn pm)
    (bitmap pm) (no_allocator pm) (cached pm) (buffered pm) (dev_allocated pm) l.

(** A statically allocated entry of the device table. *)
Definition pmem_unset : pmem_info := mk_info 0 0 0 0 0 0 [] false false false false [].

(** ** The table of blocks *)

Section bits.
Variable past : Z → pmem_bits.

(** [pmem[id].bitmap[index]] read. *)
Definition bits_at (bm : list pmem_bits) (i : Z) : pmem_bits :=
  if (0 <=? i) && (i <? zlen bm) then znth (mk_bits false 0) bm i else past i.

Definition PMEM_IS_FREE (bm : list pmem_bits) (i : Z) : bool := negb (allocated (bits_at bm i)).
Definition PMEM_ORDER (bm : list pmem_bits) (i : Z) : Z := order (bits_at bm i).
(** [1 << PMEM_ORDER(id, index)], of type int. *)
Definition order_pages (bm : list pmem_bits) (i : Z) : Z := s32 (Z.shiftl 1 (PMEM_ORDER bm i)).
Definition PMEM_BUDDY_INDEX (bm : list pmem_bits) (i : Z) : Z := Z.lxor i (order_pages bm i).
Definition PMEM_NEXT_INDEX (bm : list pmem_bits) (i : Z) : Z := s32 (i + order_pages bm i).
Definition PMEM_OFFSET (i : Z) : Z := u32 (i * PMEM_MIN_ALLOC).
Definition PMEM_START_ADDR (pm : pmem_info) (i : Z) : Z := u32 (PMEM_OFFSET i + base pm).
Definition PMEM_LEN (pm : pmem_info) (i : Z) : Z := u32 (order_pages (bitmap pm) i * PMEM_MIN_ALLOC).

(** Writes; [None] when the entry is outside of the table. *)
Definition set_order (bm : list pmem_bits) (i o : Z) : option (list pmem_bits) :=
  if (0 <=? i) && (i <? zlen bm)
  then Some (zset bm i (mk_bits (allocated (bits_at bm i)) (o mod 2 ^ 7))) else None.
Definition set_allocated (bm : list pmem_bits) (i : Z) (a : bool) : option (list pmem_bits) :=
  if (0 <=? i) && (i <? zlen bm)
  then Some (zset bm i (mk_bits a (PMEM_ORDER bm i))) else None.

(** ** Freeing *)

(** The do-while loop that merges a block with its free buddies. *)
Fixpoint free_loop (fuel : nat) (num : Z) (bm : list pmem_bits) (curr : Z)
    : option (list pmem_bits) :=
  match fuel with
  | O => None
  | S fuel =>
      let buddy := PMEM_BUDDY_INDEX bm curr in
      if PMEM_IS_FREE bm buddy && (PMEM_ORDER bm buddy =? PMEM_ORDER bm curr) then
        bm ← set_order bm buddy (PMEM_ORDER bm buddy + 1);
        bm ← set_order bm curr (PMEM_ORDER bm curr + 1);
        let curr := Z.min buddy curr in
        if u32 curr <? num then free_loop fuel num bm curr else Some bm
      else Some bm
  end.

Definition pmem_free (pm : pmem_info) (index : Z) : option (pmem_info * Z) :=
  if no_allocator pm then Some (set_dev_allocated pm false, 0)
  else
    bm ← set_allocated (bitmap pm) index false;
    bm ← free_loop 128 (num_entries pm) bm index;
    Some (set_bitmap pm bm, 0).

(** ** Allocating *)

(** The loop of [pmem_order]: the first [i] below 32 with [len >> i == 0]. *)
Fixpoint order_loop (n : nat) (i len : Z) : Z :=
  match n with
  | O => i
  | S n => if Z.shiftr len i =? 0 then i else order_loop n (i + 1) len
  end.

Definition pmem_order (len : Z) : Z :=
  let len := u32 (len + PMEM_MIN_ALLOC - 1) / PMEM_MIN_ALLOC in
  let len := u32 (len - 1) in
  order_loop 32 0 len.

(** The search for a free block: the first one of the right order, else the
    first among the smallest of the larger ones. *)
Fixpoint allocate_scan (fuel : nat) (bm : list pmem_bits) (end_ o curr best_fit : Z) : option Z :=
  if curr <? end_ then
    match fuel with
    | O => None
    | S fuel =>
        if PMEM_IS_FREE bm curr then
          if PMEM_ORDER bm curr =? u8 o then Some curr
          else
            let best_fit :=
              if (PMEM_ORDER bm curr >? u8 o) &&
                 ((best_fit <? 0) || (PMEM_ORDER bm curr <? PMEM_ORDER bm best_fit))
              then curr else best_fit in
            allocate_scan fuel bm end_ o (PMEM_NEXT_INDEX bm curr) best_fit
        else allocate_scan fuel bm end_ o (PMEM_NEXT_INDEX bm curr) best_fit
    end
  else Some best_fit.

(** Splitting the block found until it has the right order. *)
Fixpoint allocate_split (fuel : nat) (bm : list pmem_bits) (o best_fit : Z)
    : option (list pmem_bits) :=
  match fuel with
  | O => None
  | S fuel =>
      if PMEM_ORDER bm best_fit >? u8 o then
        bm ← set_order bm best_fit (PMEM_ORDER bm best_fit - 1);
        let buddy := PMEM_BUDDY_INDEX bm best_fit in
        bm ← set_order bm buddy (PMEM_ORDER bm best_fit);
        allocate_split fuel bm o best_fit
      else Some bm
  end.

Definition pmem_allocate (pm : pmem_info) (len : Z) : option (pmem_info * Z) :=
  let end_ := s32 (num_entries pm) in
  let o := pmem_order len in
  if no_allocator pm then
    if (len >? size pm) || dev_allocated pm then Some (pm, -1)
    else Some (set_dev_allocated pm true, s32 len)
  else if o >? PMEM_MAX_ORDER then Some (pm, -1)
  else
    best_fit ← allocate_scan (Z.to_nat end_) (bitmap pm) end_ o 0 (-1);
    if best_fit <? 0 then Some (pm, -1)
    else
      bm ← allocate_split 128 (bitmap pm) o best_fit;
      bm ← set_allocated bm best_fit true;
      Some (set_bitmap pm bm, best_fit).

(** ** Setting a device up *)

(** The loop that divides the pages into blocks, one per bit set in their
    number, the largest first. *)
Fixpoint setup_loop (n : nat) (num : Z) (bm : list pmem_bits) (index : Z)
    : option (list pmem_bits) :=
  match n with
  | O => Some bm
  | S i =>
      if ctrue (Z.land num (u32 (Z.shiftl 1 (Z.of_nat i)))) then
        bm ← set_order bm index (Z.of_nat i);
        setup_loop i num bm (PMEM_NEXT_INDEX bm index)
      else setup_loop i num bm index
  end.

Record pmem_platform_data := mk_pdata {
  pd_start : Z; pd_size : Z; pd_no_allocator : bool; pd_cached : bool; pd_buffered : bool }.

(** What the calls of [pmem_setup] return: misc_register, kmalloc (success),
    ioremap (0: failure) and the frame of the garbage page. *)
Record setup_env := mk_senv {
  misc_register : Z; kmalloc_ok : bool; ioremap : Z; garbage_page : Z }.

Definition pmem_setup (pdata : pmem_platform_data) (env : setup_env) (id : Z)
    : option (pmem_info * Z) :=
  let pm := mk_info id (pd_start pdata) 0 (pd_size pdata) 0 0 [] (pd_no_allocator pdata)
              (pd_cached pdata) (pd_buffered pdata) false [] in
  if ctrue (misc_register env) then Some (pm, -1)
  else
    let num := size pm / PMEM_MIN_ALLOC in
    let pm := mk_info id (base pm) 0 (size pm) num 0 [] (no_allocator pm) (cached pm)
                (buffered pm) false [] in
    if negb (kmalloc_ok env) then Some (pm, -1)
    else
      bm ← setup_loop 32 num (replicate (Z.to_nat num) (mk_bits false 0)) 0;
      let pm := set_bitmap pm bm in
      if ioremap env =? 0 then Some (pm, -1)
      else
        Some (mk_info id (base pm) (ioremap env) (size pm) num (garbage_page env) (bitmap pm)
                (no_allocator pm) (cached pm) (buffered pm) false [], 0).
End bits.

#[global] Arguments bits_at : simpl never.
#[global] Arguments PMEM_ORDER : simpl never.
#[global] Arguments PMEM_IS_FREE : simpl never.
#[global] Arguments PMEM_BUDDY_INDEX : simpl never.
#[global] Arguments PMEM_NEXT_INDEX : simpl never.

(** ** Aligned blocks *)

Lemma pow2_pos o : 0 ≤ o → 0 < 2 ^ o.
Proof. intros. apply Z.pow_pos_nonneg; lia. Qed.

Lemma pow2_succ o : 0 ≤ o → 2 ^ (o + 1) = 2 * 2 ^ o.
Proof. intros. rewrite Z.pow_add_r by lia. lia. Qed.

Lemma pow2_divide p q : 0 ≤ p ≤ q → (2 ^ p | 2 ^ q).
Proof. intros. exists (2 ^ (q - p)). rewrite <- Z.pow_add_r by lia. f_equal; lia. Qed.

(** An aligned block that starts inside an aligned block that is not smaller
    lies inside it. *)
Lemma aligned_nest p q i j :
  0 ≤ p ≤ q → (2 ^ p | i) → (2 ^ q | j) → j ≤ i < j + 2 ^ q → i + 2 ^ p ≤ j + 2 ^ q.
Proof.
  intros Hpq [a ->] [b ->] Hi. pose proof (pow2_pos p ltac:(lia)).
  destruct (pow2_divide p q) as [k Hk]; [done|]. rewrite Hk in *.
  assert (a < b * k + k) by nia. nia.
Qed.

(** Two multiples of [2^p] less than [2^p] apart are equal. *)
Lemma aligned_eq p i j : 0 ≤ p → (2 ^ p | i) → (2 ^ p | j) → i ≤ j < i + 2 ^ p → i = j.
Proof.
  intros Hp [a ->] [b ->] Hi. pose proof (pow2_pos p Hp).
  assert (a = b) as -> by nia. done.
Qed.

Lemma lxor_1 q : Z.lxor q 1 = if Z.even q then q + 1 else q - 1.
Proof.
  assert (Hev : ∀ n, Z.even n = true → Z.lxor n 1 = n + 1).
  { intros n Hn. rewrite Z.add_nocarry_lxor; [done|]. change 1 with (2 ^ 1 - 1).
    rewrite land_pow2_mod by lia. change (2 ^ 1) with 2. by rewrite Zmod_even, Hn. }
  destruct (Z.even q) eqn:Hq; [auto|].
  replace q with ((q - 1) + 1) at 1 by lia.
  rewrite <- (Hev (q - 1)), Z.lxor_assoc, Z.lxor_nilpotent, Z.lxor_0_r; [done|].
  rewrite Z.even_sub, Hq. done.
Qed.

(** The upper buddy is not aligned on the size of the pair. *)
Lemma upper_unaligned o i : 0 ≤ o → (2 ^ (o + 1) | i) → ¬ (2 ^ (o + 1) | i + 2 ^ o).
Proof.
  intros Ho [a Ha] [b Hb]. rewrite pow2_succ in * by done. pose proof (pow2_pos o Ho).
  assert (2 * b = 2 * a + 1) by nia. lia.
Qed.

(** The buddy of an aligned block is its neighbour within the next larger
    aligned block. *)
Lemma buddy_lxor o i :
  0 ≤ o → (2 ^ o | i) →
  ((2 ^ (o + 1) | i) ∧ Z.lxor i (2 ^ o) = i + 2 ^ o) ∨
  ((2 ^ (o + 1) | i - 2 ^ o) ∧ Z.lxor i (2 ^ o) = i - 2 ^ o).
Proof.
  intros Ho [q ->]. rewrite pow2_succ by done.
  assert (Hx : Z.lxor (q * 2 ^ o) (2 ^ o) = Z.lxor q 1 * 2 ^ o).
  { rewrite <- (Z.mul_1_l (2 ^ o)) at 2. rewrite <- !Z.shiftl_mul_pow2 by done.
    by rewrite Z.shiftl_lxor. }
  rewrite Hx, lxor_1. destruct (Z.even q) eqn:Hq; [left|right].
  - apply Z.even_spec in Hq as [k ->]. split; [exists k|]; lia.
  - assert (Z.odd q = true) as [k ->]%Z.odd_spec by (by rewrite <- Z.negb_even, Hq).
    split; [exists k|]; lia.
Qed.

(** ** The division into blocks *)

Notation blocks := (gmap Z Z).

Section tiling.
Variable past : Z → pmem_bits.
Notation bits_at := (bits_at past).
Notation PMEM_ORDER := (PMEM_ORDER past).
Notation PMEM_IS_FREE := (PMEM_IS_FREE past).

(** [heads] are the indices where a block starts: the blocks cover the table
    without overlap, each is aligned on its size, and the entries inside of a
    block are not marked allocated. *)
Record tiled (bm : list pmem_bits) (heads : gset Z) : Prop := {
  tiled_zero : 0 < zlen bm → 0 ∈ heads;
  tiled_order : ∀ i, i ∈ heads → 0 ≤ PMEM_ORDER bm i;
  tiled_aligned : ∀ i, i ∈ heads → (2 ^ PMEM_ORDER bm i | i);
  tiled_range : ∀ i, i ∈ heads → 0 ≤ i ∧ i + 2 ^ PMEM_ORDER bm i ≤ zlen bm;
  tiled_next : ∀ i, i ∈ heads →
    i + 2 ^ PMEM_ORDER bm i = zlen bm ∨ i + 2 ^ PMEM_ORDER bm i ∈ heads;
  tiled_gap : ∀ i j, i ∈ heads → j ∈ heads → i < j → i + 2 ^ PMEM_ORDER bm i ≤ j;
  tiled_inner : ∀ i, 0 ≤ i < zlen bm → i ∉ heads → PMEM_IS_FREE bm i = true }.

(** No two free blocks are buddies, the ones [except] is a part of excepted. *)
Definition coalesced (except : Z → Prop) (bm : list pmem_bits) (heads : gset Z) : Prop :=
  ∀ i, i ∈ heads → i + 2 ^ PMEM_ORDER bm i ∈ heads →
    PMEM_IS_FREE bm i = true → PMEM_IS_FREE bm (i + 2 ^ PMEM_ORDER bm i) = true →
    PMEM_ORDER bm (i + 2 ^ PMEM_ORDER bm i) = PMEM_ORDER bm i →
    (2 ^ (PMEM_ORDER bm i + 1) | i) → except i ∨ except (i + 2 ^ PMEM_ORDER bm i).

Lemma bits_at_zset bm i j b :
  0 ≤ i < zlen bm → bits_at (zset bm i b) j = if decide (j = i) then b else bits_at bm j.
Proof.
  intros Hi. unfold PmemAlloc.bits_at. rewrite zlen_zset.
  destruct (decide (j = i)) as [->|Hne].
  - destruct (Z.leb_spec 0 i), (Z.ltb_spec i (zlen bm)); try lia; simpl.
    rewrite znth_zset by lia. by rewrite Z.eqb_refl.
  - destruct (Z.leb_spec 0 j), (Z.ltb_spec j (zlen bm)); simpl; try done.
    rewrite znth_zset by lia. destruct (Z.eqb_spec i j); [lia|done].
Qed.

Lemma in_table i (bm : list pmem_bits) : 0 ≤ i < zlen bm → (0 <=? i) && (i <? zlen bm) = true.
Proof. intros. zbool; done || lia. Qed.

Lemma set_order_in bm i o :
  0 ≤ i < zlen bm → 0 ≤ o < 128 →
  ∃ bm', set_order past bm i o = Some bm' ∧ zlen bm' = zlen bm ∧
    ∀ j, bits_at bm' j = if decide (j = i) then mk_bits (allocated (bits_at bm i)) o else bits_at bm j.
Proof.
  intros Hi Ho. unfold set_order. rewrite in_table by done. eexists; split; [done|].
  rewrite zlen_zset. split; [done|]. intros j. rewrite bits_at_zset by done.
  rewrite Z.mod_small by (simpl; lia). done.
Qed.

Lemma set_allocated_in bm i a :
  0 ≤ i < zlen bm →
  ∃ bm', set_allocated past bm i a = Some bm' ∧ zlen bm' = zlen bm ∧
    ∀ j, bits_at bm' j = if decide (j = i) then mk_bits a (PMEM_ORDER bm i) else bits_at bm j.
Proof.
  intros Hi. unfold set_allocated. rewrite in_table by done. eexists; split; [done|].
  rewrite zlen_zset. split; [done|]. intros j. by rewrite bits_at_zset.
Qed.

(** Every page is in a block. *)
Lemma tiled_cover bm heads x :
  tiled bm heads → 0 ≤ x < zlen bm →
  ∃ h, h ∈ heads ∧ h ≤ x < h + 2 ^ PMEM_ORDER bm h.
Proof.
  intros Ht [Hx0 Hx]. revert x Hx0 Hx. refine (natlike_ind _ _ _).
  - intros Hp. exists 0. pose proof (tiled_zero _ _ Ht Hp) as H0. split; [done|].
    pose proof (pow2_pos _ (tiled_order _ _ Ht 0 H0)). lia.
  - intros x Hx0 IH Hx. destruct IH as (h & Hh & Hhx); [lia|].
    destruct (decide (Z.succ x < h + 2 ^ PMEM_ORDER bm h)); [exists h; split; [done|lia]|].
    destruct (tiled_next _ _ Ht h Hh) as [?|Hn]; [lia|].
    exists (h + 2 ^ PMEM_ORDER bm h). split; [done|].
    pose proof (pow2_pos _ (tiled_order _ _ Ht _ Hn)). lia.
Qed.

(** Splitting the block at [i] into two of order [o]. *)
Lemma tiled_split bm bm' heads i o :
  tiled bm heads → i ∈ heads → 0 ≤ o → PMEM_ORDER bm i = o + 1 → zlen bm' = zlen bm →
  (∀ j, bits_at bm' j = if decide (j = i) then mk_bits (allocated (bits_at bm i)) o
                        else if decide (j = i + 2 ^ o) then mk_bits false o else bits_at bm j) →
  tiled bm' ({[i + 2 ^ o]} ∪ heads).
Proof.
  intros Ht Hi Ho HO Hlen Hb.
  pose proof (pow2_pos o Ho) as Hp. pose proof (pow2_succ o Ho) as Hs.
  pose proof (tiled_range _ _ Ht i Hi) as Hr. rewrite HO, Hs in Hr.
  pose proof (tiled_aligned _ _ Ht i Hi) as Ha. rewrite HO in Ha.
  assert (Ha' : (2 ^ o | i)) by (eapply Z.divide_trans; [apply (pow2_divide o (o + 1)); lia|done]).
  assert (Hord : ∀ j, PMEM_ORDER bm' j =
    if decide (j = i) then o else if decide (j = i + 2 ^ o) then o else PMEM_ORDER bm j).
  { intros j. unfold PmemAlloc.PMEM_ORDER. rewrite Hb. repeat case_decide; done. }
  assert (Hout : ∀ j, j ∈ heads → j < i ∧ j + 2 ^ PMEM_ORDER bm j ≤ i ∨ j = i ∨ i + 2 * 2 ^ o ≤ j).
  { intros j Hj. destruct (Z.lt_trichotomy j i) as [?|[?|?]]; [left|tauto|].
    - split; [done|]. by apply (tiled_gap _ _ Ht).
    - pose proof (tiled_gap _ _ Ht i j Hi Hj ltac:(lia)) as Hg. rewrite HO in Hg. lia. }
  split.
  - rewrite Hlen. intros ?. apply elem_of_union_r. by apply (tiled_zero _ _ Ht).
  - intros j Hj. rewrite Hord. repeat case_decide; try lia.
    apply (tiled_order _ _ Ht). set_solver.
  - intros j Hj. rewrite Hord. repeat case_decide; subst; [done| |].
    + apply Z.divide_add_r; [done|apply Z.divide_refl].
    + apply (tiled_aligned _ _ Ht). set_solver.
  - intros j Hj. rewrite Hord, Hlen. repeat case_decide; subst; [lia|lia|].
    apply (tiled_range _ _ Ht). set_solver.
  - intros j Hj. rewrite Hord, Hlen. repeat case_decide; subst; [right; set_solver| |].
    + pose proof (tiled_next _ _ Ht i Hi) as Hn. rewrite HO, Hs in Hn.
      replace (i + 2 ^ o + 2 ^ o) with (i + 2 * 2 ^ o) by lia. set_solver.
    + pose proof (tiled_next _ _ Ht j ltac:(set_solver)). set_solver.
  - intros j k Hj Hk Hlt. rewrite Hord.
    apply elem_of_union in Hj as [->%elem_of_singleton|Hj], Hk as [->%elem_of_singleton|Hk].
    + lia.
    + rewrite decide_False, decide_True by lia. pose proof (Hout k Hk). lia.
    + repeat case_decide; subst; [lia|lia|]. pose proof (Hout j Hj). lia.
    + pose proof (Hout j Hj). pose proof (Hout k Hk). repeat case_decide; subst; try lia.
      by apply (tiled_gap _ _ Ht).
  - intros j Hj Hnj. rewrite Hlen in Hj. unfold PmemAlloc.PMEM_IS_FREE. rewrite Hb.
    rewrite decide_False by set_solver. case_decide; [done|].
    apply (tiled_inner _ _ Ht); [done|set_solver].
Qed.

(** Merging two free buddies of order [o]. *)
Lemma tiled_merge bm bm' heads i o :
  tiled bm heads → i ∈ heads → i + 2 ^ o ∈ heads → 0 ≤ o →
  PMEM_ORDER bm i = o → PMEM_ORDER bm (i + 2 ^ o) = o → (2 ^ (o + 1) | i) →
  zlen bm' = zlen bm →
  (∀ j, bits_at bm' j = if decide (j = i ∨ j = i + 2 ^ o) then mk_bits false (o + 1)
                        else bits_at bm j) →
  tiled bm' (heads ∖ {[i + 2 ^ o]}).
Proof.
  intros Ht Hi Hi' Ho HO HO' Ha Hlen Hb.
  pose proof (pow2_pos o Ho) as Hp. pose proof (pow2_succ o Ho) as Hs.
  pose proof (tiled_range _ _ Ht i Hi) as Hr.
  pose proof (tiled_range _ _ Ht _ Hi') as Hr'. rewrite HO' in Hr'.
  assert (Hord : ∀ j, PMEM_ORDER bm' j =
    if decide (j = i ∨ j = i + 2 ^ o) then o + 1 else PMEM_ORDER bm j).
  { intros j. unfold PmemAlloc.PMEM_ORDER. rewrite Hb. repeat case_decide; done. }
  assert (Hin : ∀ j, j ∈ heads ∖ {[i + 2 ^ o]} → j = i ∨ (j ≠ i ∧ j ≠ i + 2 ^ o ∧ j ∈ heads)).
  { intros j. destruct (decide (j = i)); set_solver. }
  split.
  - rewrite Hlen. intros H0. pose proof (tiled_zero _ _ Ht H0). apply elem_of_difference.
    split; [done|]. rewrite elem_of_singleton. lia.
  - intros j [->|(? & ? & ?)]%Hin; rewrite Hord; [rewrite decide_True by tauto; lia|].
    rewrite decide_False by tauto. by apply (tiled_order _ _ Ht).
  - intros j [->|(? & ? & ?)]%Hin; rewrite Hord; [by rewrite decide_True by tauto|].
    rewrite decide_False by tauto. by apply (tiled_aligned _ _ Ht).
  - intros j [->|(? & ? & ?)]%Hin; rewrite Hord, Hlen; [rewrite decide_True by tauto; lia|].
    rewrite decide_False by tauto. by apply (tiled_range _ _ Ht).
  - intros j [->|(? & ? & Hj)]%Hin; rewrite Hord, Hlen.
    + rewrite decide_True by tauto. rewrite Hs.
      pose proof (tiled_next _ _ Ht _ Hi') as Hn. rewrite HO' in Hn.
      replace (i + 2 * 2 ^ o) with (i + 2 ^ o + 2 ^ o) by lia.
      destruct Hn; [tauto|]. right. apply elem_of_difference. split; [done|].
      rewrite elem_of_singleton. lia.
    + rewrite decide_False by tauto. destruct (tiled_next _ _ Ht j Hj) as [?|Hn]; [tauto|right].
      apply elem_of_difference. split; [done|]. rewrite elem_of_singleton. intros Heq.
      destruct (Z.lt_trichotomy j i) as [?|[?|?]]; [|done|].
      * pose proof (tiled_gap _ _ Ht j i Hj Hi). lia.
      * pose proof (tiled_gap _ _ Ht i j Hi Hj) as Hg. rewrite HO in Hg.
        pose proof (pow2_pos _ (tiled_order _ _ Ht j Hj)). lia.
  - intros j k [->|(? & ? & Hj)]%Hin [->|(? & ? & Hk)]%Hin Hlt; rewrite Hord; [lia| | |].
    + rewrite decide_True by tauto. rewrite Hs.
      pose proof (tiled_gap _ _ Ht i k Hi Hk Hlt). rewrite HO in *.
      pose proof (tiled_gap _ _ Ht _ k Hi' Hk). rewrite HO' in *. lia.
    + rewrite decide_False by tauto. by apply (tiled_gap _ _ Ht).
    + rewrite decide_False by tauto. by apply (tiled_gap _ _ Ht).
  - intros j Hj Hnj. rewrite Hlen in Hj. unfold PmemAlloc.PMEM_IS_FREE. rewrite Hb.
    case_decide; [done|]. apply (tiled_inner _ _ Ht); [done|set_solver].
Qed.

(** Changing the flag of a block. *)
Lemma tiled_flag bm bm' heads i a :
  tiled bm heads → i ∈ heads → zlen bm' = zlen bm →
  (∀ j, bits_at bm' j = if decide (j = i) then mk_bits a (PMEM_ORDER bm i) else bits_at bm j) →
  tiled bm' heads.
Proof.
  intros Ht Hi Hlen Hb.
  assert (Hord : ∀ j, PMEM_ORDER bm' j = PMEM_ORDER bm j).
  { intros j. unfold PmemAlloc.PMEM_ORDER. rewrite Hb. case_decide; by subst. }
  split; intros *; rewrite ?Hlen, ?Hord; try apply Ht.
  intros Hj Hnj. unfold PmemAlloc.PMEM_IS_FREE. rewrite Hb, decide_False by set_solver.
  by apply (tiled_inner _ _ Ht).
Qed.

(** A block handed out: [i] is the start of an allocated block of order [o]. *)
Definition owned (bm : list pmem_bits) (heads : gset Z) (i o : Z) : Prop :=
  i ∈ heads ∧ bits_at bm i = mk_bits true o.

Lemma owned_order bm heads i o : owned bm heads i o → PMEM_ORDER bm i = o.
Proof. intros [_ Hb]. unfold PmemAlloc.PMEM_ORDER. by rewrite Hb. Qed.

Lemma free_false bm i : PMEM_IS_FREE bm i = true ↔ allocated (bits_at bm i) = false.
Proof. unfold PmemAlloc.PMEM_IS_FREE. by destruct (allocated _). Qed.

Lemma tiled_small bm heads i :
  tiled bm heads → zlen bm ≤ 2 ^ 20 → i ∈ heads → 0 ≤ PMEM_ORDER bm i ≤ 20.
Proof.
  intros Ht Hlen Hi. pose proof (tiled_order _ _ Ht i Hi). pose proof (tiled_range _ _ Ht i Hi).
  split; [done|]. apply (Z.pow_le_mono_r_iff 2); lia.
Qed.

Lemma pow2_small o : 0 ≤ o ≤ 20 → s32 (Z.shiftl 1 o) = 2 ^ o.
Proof.
  intros. rewrite Z.shiftl_1_l. apply s32_small. pose proof (pow2_pos o ltac:(lia)).
  pose proof (Z.pow_le_mono_r 2 o 20). lia.
Qed.

Lemma next_index bm heads i :
  tiled bm heads → zlen bm ≤ 2 ^ 20 → i ∈ heads →
  PMEM_NEXT_INDEX past bm i = i + 2 ^ PMEM_ORDER bm i.
Proof.
  intros Ht Hlen Hi. unfold PMEM_NEXT_INDEX, order_pages.
  pose proof (tiled_small _ _ _ Ht Hlen Hi). rewrite pow2_small by lia.
  pose proof (tiled_range _ _ Ht i Hi). pose proof (pow2_pos (PMEM_ORDER bm i)).
  apply s32_small. lia.
Qed.

(** The buddy of a block: the upper half of the block they form starts right
    behind the lower one, or nothing does because the table ends there; the
    lower half is the start of a block that is not larger. *)
Lemma buddy_cases bm heads c :
  tiled bm heads → zlen bm ≤ 2 ^ 20 → c ∈ heads →
  let o := PMEM_ORDER bm c in let b := PMEM_BUDDY_INDEX past bm c in
  ((2 ^ (o + 1) | c) ∧ b = c + 2 ^ o ∧ (b = zlen bm ∨ b ∈ heads)) ∨
  ((2 ^ (o + 1) | b) ∧ c = b + 2 ^ o ∧ b ∈ heads).
Proof.
  intros Ht Hlen Hc o b. pose proof (tiled_small _ _ _ Ht Hlen Hc) as Ho.
  pose proof (tiled_aligned _ _ Ht c Hc) as Ha. pose proof (tiled_range _ _ Ht c Hc) as Hr.
  pose proof (pow2_pos o ltac:(lia)) as Hp.
  assert (b = Z.lxor c (2 ^ o)) as Hb.
  { unfold b, PMEM_BUDDY_INDEX, order_pages. by rewrite pow2_small. }
  destruct (buddy_lxor o c) as [[Hd Hx]|[Hd Hx]]; [lia|done| |]; rewrite Hx in Hb.
  - left. split; [done|]. split; [done|]. rewrite Hb. by apply (tiled_next _ _ Ht).
  - right. rewrite Hb. split; [done|]. split; [lia|].
    assert (Hc0 : 0 ≤ c - 2 ^ o).
    { rewrite pow2_succ in Hd by lia. destruct Hd as [k Hk]. assert (0 ≤ k) by nia. nia. }
    destruct (tiled_cover _ _ (c - 2 ^ o) Ht) as (h & Hh & Hhc); [lia|].
    pose proof (tiled_small _ _ _ Ht Hlen Hh). pose proof (tiled_aligned _ _ Ht h Hh) as Hah.
    pose proof (tiled_gap _ _ Ht h c Hh Hc ltac:(lia)) as Hg.
    assert (PMEM_ORDER bm h ≤ o).
    { destruct (Z.le_gt_cases (PMEM_ORDER bm h) o); [done|exfalso].
      pose proof (aligned_nest (o + 1) (PMEM_ORDER bm h) (c - 2 ^ o) h ltac:(lia) Hd Hah Hhc).
      rewrite pow2_succ in * by lia. lia. }
    rewrite <- (aligned_eq (PMEM_ORDER bm h) h (c - 2 ^ o)); [done|lia|done| |lia].
    eapply Z.divide_trans; [apply (pow2_divide _ (o + 1)); lia|done].
Qed.

(** The word behind the table does not look like a free block that could be a
    buddy of a block of the table. *)
Definition past_quiet (n : Z) : Prop := allocated (past n) = false → n < 2 ^ order (past n).

(** One merge of the loop, as the code writes it. *)
Lemma merge_step bm heads c b :
  tiled bm heads → zlen bm ≤ 2 ^ 20 → c ∈ heads → b ∈ heads → c ≠ b →
  PMEM_ORDER bm b = PMEM_ORDER bm c → PMEM_IS_FREE bm c = true → PMEM_IS_FREE bm b = true →
  ∃ bm1 bm2, set_order past bm b (PMEM_ORDER bm b + 1) = Some bm1 ∧
    set_order past bm1 c (PMEM_ORDER bm1 c + 1) = Some bm2 ∧ zlen bm2 = zlen bm ∧
    ∀ j, bits_at bm2 j = if decide (j = c ∨ j = b) then mk_bits false (PMEM_ORDER bm c + 1)
                         else bits_at bm j.
Proof.
  intros Ht Hlen Hc Hb Hne Hord Hfc Hfb.
  pose proof (tiled_small _ _ _ Ht Hlen Hc). pose proof (tiled_range _ _ Ht c Hc).
  pose proof (tiled_range _ _ Ht b Hb). pose proof (pow2_pos (PMEM_ORDER bm c) ltac:(lia)).
  rewrite Hord in *. apply free_false in Hfc, Hfb.
  destruct (set_order_in bm b (PMEM_ORDER bm c + 1)) as (bm1 & Hset1 & Hl1 & Hb1); [lia|lia|].
  assert (Ho1 : PMEM_ORDER bm1 c = PMEM_ORDER bm c).
  { unfold PmemAlloc.PMEM_ORDER. by rewrite Hb1, decide_False. }
  destruct (set_order_in bm1 c (PMEM_ORDER bm1 c + 1)) as (bm2 & Hset2 & Hl2 & Hb2); [lia|lia|].
  exists bm1, bm2. split; [done|]. split; [done|]. split; [lia|].
  intros j. rewrite Hb2, !Hb1, Ho1. rewrite (decide_False (P := c = b)) by done.
  rewrite Hfc, Hfb. repeat case_decide; try done; tauto.
Qed.

Lemma bits_at_end bm : bits_at bm (zlen bm) = past (zlen bm).
Proof. unfold PmemAlloc.bits_at. rewrite Z.ltb_irrefl, andb_false_r. done. Qed.

(** A buddy found to be free and of the same order is a block of the table. *)
Lemma free_buddy_head bm heads c :
  tiled bm heads → zlen bm ≤ 2 ^ 20 → past_quiet (zlen bm) → c ∈ heads →
  let b := PMEM_BUDDY_INDEX past bm c in
  PMEM_IS_FREE bm b = true → PMEM_ORDER bm b = PMEM_ORDER bm c → b ∈ heads.
Proof.
  intros Ht Hlen Hq Hc b Hf Ho.
  destruct (buddy_cases _ _ _ Ht Hlen Hc) as [(_ & _ & [Hb|Hb])|(_ & _ & Hb)]; try done.
  fold b in Hb. exfalso. pose proof (tiled_range _ _ Ht c Hc).
  apply free_false in Hf. unfold PmemAlloc.PMEM_ORDER in Ho.
  rewrite Hb, bits_at_end in Hf, Ho. apply Hq in Hf. rewrite Ho in Hf.
  unfold PmemAlloc.PMEM_ORDER in *. lia.
Qed.

(** Merging keeps everything but the merged block coalesced ... *)
Lemma coalesced_merge bm bm' heads c i o :
  tiled bm heads → coalesced (λ x, x = c) bm heads → c = i ∨ c = i + 2 ^ o →
  (∀ j, bits_at bm' j = if decide (j = i ∨ j = i + 2 ^ o) then mk_bits false (o + 1)
                        else bits_at bm j) →
  coalesced (λ x, x = i) bm' (heads ∖ {[i + 2 ^ o]}).
Proof.
  intros Ht Hco Hc Hb j Hj. unfold PmemAlloc.PMEM_ORDER, PmemAlloc.PMEM_IS_FREE in *.
  destruct (decide (j = i)) as [->|Hji]; [tauto|].
  assert (Hbj : bits_at bm' j = bits_at bm j) by (rewrite Hb, decide_False; set_solver).
  rewrite Hbj. set (k := j + _). intros Hk Hfj.
  destruct (decide (k = i)) as [->|Hki]; [tauto|].
  assert (bits_at bm' k = bits_at bm k) as -> by (rewrite Hb, decide_False; set_solver).
  intros Hfk Hord Ha. apply elem_of_difference in Hj as [Hj1 Hj2], Hk as [Hk1 Hk2].
  destruct (Hco j Hj1 Hk1 Hfj Hfk Hord Ha) as [->|Hkc]; fold k in Hkc || idtac; set_solver.
Qed.

(** ... and leaves the blocks handed out alone. *)
Lemma owned_merge bm bm' heads i k o :
  i ∈ heads → PMEM_IS_FREE bm i = true → PMEM_IS_FREE bm k = true →
  (∀ j, bits_at bm' j = if decide (j = i ∨ j = k) then mk_bits false (o + 1) else bits_at bm j) →
  ∀ j p, owned bm' (heads ∖ {[k]}) j p ↔ owned bm heads j p.
Proof.
  intros Hi Hfi Hfk Hb j p. apply free_false in Hfi, Hfk. unfold owned. rewrite Hb.
  case_decide as Hd; [|set_solver].
  split; [naive_solver|]. intros [_ Hj]. exfalso. destruct Hd; subst; rewrite Hj in *; done.
Qed.

(** When the loop stops nothing is left to merge. *)
Lemma coalesced_done bm heads c :
  tiled bm heads → zlen bm ≤ 2 ^ 20 → c ∈ heads → coalesced (λ x, x = c) bm heads →
  (PMEM_IS_FREE bm (PMEM_BUDDY_INDEX past bm c) = true →
   PMEM_ORDER bm (PMEM_BUDDY_INDEX past bm c) = PMEM_ORDER bm c → False) →
  coalesced (λ _, False) bm heads.
Proof.
  intros Ht Hlen Hc Hco Hstop i Hi Hk Hfi Hfk Hord Ha.
  pose proof (pow2_pos _ (tiled_order _ _ Ht i Hi)) as Hp.
  pose proof (tiled_order _ _ Ht i Hi) as Ho0.
  exfalso. destruct (Hco i Hi Hk Hfi Hfk Hord Ha) as [<-|<-];
    destruct (buddy_cases _ _ _ Ht Hlen Hc) as [(Hd & Hb & _)|(Hd & Hb & _)].
  - rewrite Hb in Hstop. auto.
  - apply (upper_unaligned _ _ Ho0 Hd). by rewrite <- Hb.
  - rewrite Hord in Hd. by apply (upper_unaligned _ _ Ho0 Ha).
  - rewrite Hord in Hb. assert (Hbi : PMEM_BUDDY_INDEX past bm (i + 2 ^ PMEM_ORDER bm i) = i) by lia.
    rewrite Hbi in Hstop. auto.
Qed.

Lemma free_loop_spec fuel bm heads c :
  (21 - PMEM_ORDER bm c ≤ Z.of_nat fuel) →
  tiled bm heads → zlen bm ≤ 2 ^ 20 →
  c ∈ heads → PMEM_IS_FREE bm c = true → coalesced (λ x, x = c) bm heads →
  (∃ bm' heads', free_loop past fuel (zlen bm) bm c = Some bm' ∧ zlen bm' = zlen bm ∧
     tiled bm' heads' ∧ coalesced (λ _, False) bm' heads' ∧
     ∀ i o, owned bm' heads' i o ↔ owned bm heads i o) ∨
  (free_loop past fuel (zlen bm) bm c = None ∧ ¬ past_quiet (zlen bm)).
Proof.
  revert bm heads c. induction fuel as [|fuel IH]; intros bm heads c Hfuel Ht Hlen Hc Hfree Hco.
  { pose proof (tiled_small _ _ _ Ht Hlen Hc). lia. }
  simpl. set (b := PMEM_BUDDY_INDEX past bm c).
  pose proof (tiled_small _ _ _ Ht Hlen Hc) as Hoc.
  pose proof (pow2_pos (PMEM_ORDER bm c) ltac:(lia)) as Hp.
  destruct (PMEM_IS_FREE bm b && (PMEM_ORDER bm b =? PMEM_ORDER bm c)) eqn:Hbr; zprop.
  2: { left. exists bm, heads. split_and!; try done.
       apply (coalesced_done bm heads c); try done. fold b. intros. destruct Hbr; zprop; congruence. }
  destruct (decide (b ∈ heads)) as [Hb|Hb].
  2: { right. assert (Hbe : b = zlen bm) by (destruct (buddy_cases _ _ _ Ht Hlen Hc) as [(_ & _ & [?|?])|(_ & _ & ?)]; done).
       split; [|intros Hq; apply Hb; by apply (free_buddy_head bm heads c)].
       unfold set_order. rewrite Hbe, Z.ltb_irrefl, andb_false_r. done. }
  destruct (merge_step bm heads c b) as (bm1 & bm2 & -> & Hset & Hl2 & Hb2); try done.
  { destruct (buddy_cases _ _ _ Ht Hlen Hc) as [(_ & Hx & _)|(_ & Hx & _)]; fold b in Hx; lia. }
  simpl. rewrite Hset. simpl.
  assert (∃ i, i = Z.min b c ∧ i ∈ heads ∧ i + 2 ^ PMEM_ORDER bm c ∈ heads ∧
    (2 ^ (PMEM_ORDER bm c + 1) | i) ∧
    (c = i ∧ b = i + 2 ^ PMEM_ORDER bm c ∨ b = i ∧ c = i + 2 ^ PMEM_ORDER bm c))
    as (i & Hmin & Hi & Hk & Ha & Hcb).
  { destruct (buddy_cases _ _ _ Ht Hlen Hc) as [(Ha & Hx & _)|(Ha & Hx & _)]; fold b in Ha, Hx.
    - exists c. rewrite <- Hx. split_and!; try done; [lia|tauto].
    - exists b. rewrite <- Hx. split_and!; try done; [lia|tauto]. }
  rewrite <- Hmin.
  assert (Hb2' : ∀ j, bits_at bm2 j = if decide (j = i ∨ j = i + 2 ^ PMEM_ORDER bm c)
    then mk_bits false (PMEM_ORDER bm c + 1) else bits_at bm j).
  { intros j. rewrite Hb2. repeat case_decide; try done; naive_solver. }
  assert (Hfi : PMEM_IS_FREE bm i = true ∧ PMEM_IS_FREE bm (i + 2 ^ PMEM_ORDER bm c) = true ∧
    PMEM_ORDER bm i = PMEM_ORDER bm c ∧ PMEM_ORDER bm (i + 2 ^ PMEM_ORDER bm c) = PMEM_ORDER bm c).
  { destruct Hcb as [[<- <-]|[<- <-]]; done. }
  destruct Hfi as (Hfi & Hfk & Hoi & Hok).
  assert (Ht2 : tiled bm2 (heads ∖ {[i + 2 ^ PMEM_ORDER bm c]})).
  { apply (tiled_merge bm bm2 heads i (PMEM_ORDER bm c)); try done; lia. }
  pose proof (tiled_range _ _ Ht i Hi) as Hri. rewrite Hoi in Hri.
  assert (u32 i <? zlen bm = true) as -> by (apply Z.ltb_lt; rewrite u32_small; lia).
  assert (Hb2i : bits_at bm2 i = mk_bits false (PMEM_ORDER bm c + 1)) by (rewrite Hb2', decide_True; tauto).
  destruct (IH bm2 (heads ∖ {[i + 2 ^ PMEM_ORDER bm c]}) i) as [(bm' & heads' & Hrun & Hl' & Ht' & Hco' & Hown)|[Hrun Hq]];
    rewrite ?Hl2; try done.
  - unfold PmemAlloc.PMEM_ORDER at 1. rewrite Hb2i. simpl. lia.
  - apply elem_of_difference. split; [done|]. rewrite elem_of_singleton. lia.
  - unfold PmemAlloc.PMEM_IS_FREE. by rewrite Hb2i.
  - apply (coalesced_merge bm bm2 heads c); try done. clear - Hcb. tauto.
  - left. exists bm', heads'. rewrite Hl2 in *. split_and!; try done.
    intros j p. rewrite Hown. by apply (owned_merge bm bm2 heads i _ (PMEM_ORDER bm c)).
  - right. by rewrite Hl2 in *.
Qed.

(** *** The search *)

(** What [best_fit] is after the blocks below [curr] have been seen. *)
Definition best_so_far (bm : list pmem_bits) (heads : gset Z) (o curr best : Z) : Prop :=
  (best = -1 ∧ ∀ h, h ∈ heads → h < curr → PMEM_IS_FREE bm h = true → PMEM_ORDER bm h < o) ∨
  (best ∈ heads ∧ best < curr ∧ PMEM_IS_FREE bm best = true ∧ o < PMEM_ORDER bm best ∧
   ∀ h, h ∈ heads → h < curr → PMEM_IS_FREE bm h = true →
     PMEM_ORDER bm h < o ∨ PMEM_ORDER bm best ≤ PMEM_ORDER bm h).

(** The block chosen: the smallest free one that is large enough. *)
Definition best_block (bm : list pmem_bits) (heads : gset Z) (o best : Z) : Prop :=
  (best = -1 ∧ ∀ h, h ∈ heads → PMEM_IS_FREE bm h = true → PMEM_ORDER bm h < o) ∨
  (best ∈ heads ∧ PMEM_IS_FREE bm best = true ∧ o ≤ PMEM_ORDER bm best ∧
   ∀ h, h ∈ heads → PMEM_IS_FREE bm h = true →
     PMEM_ORDER bm h < o ∨ PMEM_ORDER bm best ≤ PMEM_ORDER bm h).

(** The search moves on from the block [curr]. *)
Lemma best_so_far_next bm heads o curr best best' :
  tiled bm heads → curr ∈ heads → best_so_far bm heads o curr best →
  (PMEM_IS_FREE bm curr = true →
    PMEM_ORDER bm curr < o ∧ best' = best ∨
    o < PMEM_ORDER bm curr ∧ best' = curr ∧ (best = -1 ∨ PMEM_ORDER bm curr ≤ PMEM_ORDER bm best) ∨
    best' = best ∧ best ∈ heads ∧ PMEM_ORDER bm best ≤ PMEM_ORDER bm curr) →
  (PMEM_IS_FREE bm curr = false → best' = best) →
  best_so_far bm heads o (curr + 2 ^ PMEM_ORDER bm curr) best'.
Proof.
  intros Ht Hc Hbest Hfree Hbusy.
  pose proof (pow2_pos _ (tiled_order _ _ Ht curr Hc)) as Hp.
  assert (Hlt : ∀ h, h ∈ heads → h < curr + 2 ^ PMEM_ORDER bm curr → h < curr ∨ h = curr).
  { intros h Hh ?. destruct (Z.lt_trichotomy h curr) as [?|[?|?]]; [tauto|tauto|].
    pose proof (tiled_gap _ _ Ht curr h Hc Hh). lia. }
  pose proof (tiled_range _ _ Ht curr Hc) as Hr.
  destruct (PMEM_IS_FREE bm curr) eqn:Hf.
  - destruct (Hfree eq_refl) as [[Ho ->]|[(Ho & -> & Hle)|(-> & Hin & Hle)]].
    + destruct Hbest as [[-> Hall]|(Hb & Hbc & Hbf & Hbo & Hall)].
      * left. split; [done|]. intros h Hh Hhc ?. destruct (Hlt h Hh Hhc) as [?| ->]; auto.
      * right. split_and!; try done; [lia|].
        intros h Hh Hhc ?. destruct (Hlt h Hh Hhc) as [?| ->]; auto.
    + right. split_and!; try done; [lia|]. intros h Hh Hhc ?.
      destruct (Hlt h Hh Hhc) as [?| ->]; [|lia].
      destruct Hbest as [[-> Hall]|(Hb & Hbc & Hbf & Hbo & Hall)]; [auto|].
      destruct (Hall h) as [?|?]; try done; [tauto|]. destruct Hle as [->|?]; [|lia].
      pose proof (tiled_range _ _ Ht (-1) Hb). lia.
    + destruct Hbest as [[-> Hall]|(Hb & Hbc & Hbf & Hbo & Hall)].
      * pose proof (tiled_range _ _ Ht (-1) Hin). lia.
      * right. split_and!; try done; [lia|].
        intros h Hh Hhc ?. destruct (Hlt h Hh Hhc) as [?| ->]; auto.
  - rewrite (Hbusy eq_refl). destruct Hbest as [[-> Hall]|(Hb & Hbc & Hbf & Hbo & Hall)].
    + left. split; [done|]. intros h Hh Hhc Hfh. destruct (Hlt h Hh Hhc) as [?| ->]; [auto|congruence].
    + right. split_and!; try done; [lia|].
      intros h Hh Hhc Hfh. destruct (Hlt h Hh Hhc) as [?| ->]; [auto|congruence].
Qed.

Lemma best_so_far_end bm heads o best :
  tiled bm heads → best_so_far bm heads o (zlen bm) best → best_block bm heads o best.
Proof.
  intros Ht Hbest.
  assert (Hr : ∀ h, h ∈ heads → h < zlen bm).
  { intros h Hh. pose proof (tiled_range _ _ Ht h Hh).
    pose proof (pow2_pos _ (tiled_order _ _ Ht h Hh)). lia. }
  destruct Hbest as [[-> Hall]|(Hb & Hbc & Hbf & Hbo & Hall)]; [left|right].
  - split; auto.
  - split_and!; auto; lia.
Qed.

Lemma allocate_scan_spec fuel bm heads o curr best :
  tiled bm heads → zlen bm ≤ 2 ^ 20 → 0 ≤ o < 256 →
  zlen bm - curr ≤ Z.of_nat fuel → curr = zlen bm ∨ curr ∈ heads →
  best_so_far bm heads o curr best →
  ∃ r, allocate_scan past fuel bm (zlen bm) o curr best = Some r ∧ best_block bm heads o r.
Proof.
  intros Ht Hlen Ho. assert (Hu8 : u8 o = o) by (apply Z.mod_small; simpl; lia).
  revert curr best. induction fuel as [|fuel IH]; intros curr best Hfuel Hcurr Hbest;
    (destruct (decide (curr = zlen bm)) as [->|Hne];
     [unfold allocate_scan; rewrite Z.ltb_irrefl; eauto using best_so_far_end|]);
    destruct Hcurr as [?|Hc]; try done; pose proof (tiled_range _ _ Ht curr Hc) as Hr;
    pose proof (pow2_pos _ (tiled_order _ _ Ht curr Hc)) as Hp; [lia|].
  simpl. rewrite Hu8. assert (curr <? zlen bm = true) as -> by lia.
  rewrite (next_index bm heads curr) by done.
  assert (Hnext : ∀ best', best_so_far bm heads o (curr + 2 ^ PMEM_ORDER bm curr) best' →
    ∃ r, allocate_scan past fuel bm (zlen bm) o (curr + 2 ^ PMEM_ORDER bm curr) best' = Some r ∧
      best_block bm heads o r).
  { intros best' Hb'. apply IH; [lia| |done]. by apply (tiled_next _ _ Ht). }
  destruct (PMEM_IS_FREE bm curr) eqn:Hf; simpl.
  2: { apply Hnext. apply (best_so_far_next _ _ _ _ best); congruence. }
  destruct (Z.eqb_spec (PMEM_ORDER bm curr) o) as [He|Hno].
  { exists curr. split; [done|]. right. split_and!; try done; [lia|]. intros h Hh Hfh.
    destruct (Z.lt_ge_cases (PMEM_ORDER bm h) o); [by left|right; lia]. }
  apply Hnext. apply (best_so_far_next _ _ _ _ best); [done..| |congruence]. intros _.
  destruct Hbest as [[-> _]|(Hb & _ & _ & Hbo & _)].
  - rewrite Z.gtb_ltb. destruct (Z.ltb_spec o (PMEM_ORDER bm curr)); simpl;
      [right; left|left]; split_and!; lia || tauto.
  - pose proof (tiled_range _ _ Ht best Hb). rewrite Z.gtb_ltb.
    destruct (Z.ltb_spec o (PMEM_ORDER bm curr)), (Z.ltb_spec best 0),
      (Z.ltb_spec (PMEM_ORDER bm curr) (PMEM_ORDER bm best)); simpl; lia || tauto.
Qed.

(** *** Splitting *)

Lemma split_step bm heads r o :
  tiled bm heads → zlen bm ≤ 2 ^ 20 → r ∈ heads → 0 ≤ o → PMEM_ORDER bm r = o + 1 →
  ∃ bm1 bm2, set_order past bm r o = Some bm1 ∧ PMEM_BUDDY_INDEX past bm1 r = r + 2 ^ o ∧
    set_order past bm1 (r + 2 ^ o) (PMEM_ORDER bm1 r) = Some bm2 ∧ zlen bm2 = zlen bm ∧
    ∀ j, bits_at bm2 j = if decide (j = r) then mk_bits (allocated (bits_at bm r)) o
                         else if decide (j = r + 2 ^ o) then mk_bits false o else bits_at bm j.
Proof.
  intros Ht Hlen Hr Ho HO. pose proof (tiled_small _ _ _ Ht Hlen Hr) as Hsm.
  pose proof (tiled_range _ _ Ht r Hr) as Hrr. pose proof (tiled_aligned _ _ Ht r Hr) as Ha.
  rewrite HO in *. rewrite pow2_succ in Hrr by done. pose proof (pow2_pos o Ho) as Hp.
  destruct (set_order_in bm r o) as (bm1 & Hset1 & Hl1 & Hb1); [lia|lia|].
  assert (Ho1 : PMEM_ORDER bm1 r = o).
  { unfold PmemAlloc.PMEM_ORDER. by rewrite Hb1, decide_True. }
  assert (Hin : r + 2 ^ o ∉ heads).
  { intros Hx. pose proof (tiled_gap _ _ Ht r _ Hr Hx) as Hg. rewrite HO, pow2_succ in Hg by done. lia. }
  pose proof (tiled_inner _ _ Ht (r + 2 ^ o) ltac:(lia) Hin) as Hf. apply free_false in Hf.
  destruct (set_order_in bm1 (r + 2 ^ o) o) as (bm2 & Hset2 & Hl2 & Hb2); [lia|lia|].
  exists bm1, bm2. rewrite Ho1. split_and!; try done; [|lia|].
  - unfold PMEM_BUDDY_INDEX, order_pages. rewrite Ho1, pow2_small by lia.
    assert (Ha' : (2 ^ o | r)) by (eapply Z.divide_trans; [apply (pow2_divide o (o + 1)); lia|done]).
    destruct (buddy_lxor o r Ho Ha') as [[_ Hx]|[Hd _]]; [done|exfalso].
    apply (upper_unaligned _ _ Ho Hd). by replace (r - 2 ^ o + 2 ^ o) with r by lia.
  - intros j. rewrite Hb2, !Hb1. rewrite (decide_False (P := r + 2 ^ o = r)) by lia. rewrite Hf.
    repeat case_decide; try done; lia.
Qed.

Lemma coalesced_split bm bm' heads r o :
  tiled bm heads → r ∈ heads → 0 ≤ o → PMEM_ORDER bm r = o + 1 →
  coalesced (λ x, x = r) bm heads →
  (∀ j, bits_at bm' j = if decide (j = r) then mk_bits (allocated (bits_at bm r)) o
                        else if decide (j = r + 2 ^ o) then mk_bits false o else bits_at bm j) →
  coalesced (λ x, x = r) bm' ({[r + 2 ^ o]} ∪ heads).
Proof.
  intros Ht Hr Ho HO Hco Hb i Hi. unfold PmemAlloc.PMEM_ORDER, PmemAlloc.PMEM_IS_FREE in *.
  pose proof (pow2_pos o Ho) as Hp.
  destruct (decide (i = r)) as [->|Hir]; [tauto|].
  destruct (decide (i = r + 2 ^ o)) as [->|Hib].
  { rewrite (Hb (r + 2 ^ o)), decide_False, decide_True by lia. simpl. intros _ _ _ _ Ha. exfalso.
    apply (upper_unaligned o r Ho); [|done]. rewrite <- HO. by apply (tiled_aligned _ _ Ht). }
  assert (bits_at bm' i = bits_at bm i) as -> by (rewrite Hb, !decide_False; done).
  set (k := i + _). intros Hk Hfi.
  destruct (decide (k = r)) as [->|Hkr]; [tauto|].
  destruct (decide (k = r + 2 ^ o)) as [Hkb|Hkb].
  { rewrite (Hb k), decide_False, decide_True by lia. simpl. intros _ Heq _. unfold k in Hkb.
    rewrite <- Heq in Hkb. lia. }
  assert (bits_at bm' k = bits_at bm k) as -> by (rewrite Hb, !decide_False; done).
  intros Hfk Hord Ha. apply (Hco i); try done; set_solver.
Qed.

Lemma owned_split bm bm' heads r o :
  tiled bm heads → r ∈ heads → 0 ≤ o → PMEM_IS_FREE bm r = true →
  (∀ j, bits_at bm' j = if decide (j = r) then mk_bits (allocated (bits_at bm r)) o
                        else if decide (j = r + 2 ^ o) then mk_bits false o else bits_at bm j) →
  r + 2 ^ o ∉ heads → ∀ j p, owned bm' ({[r + 2 ^ o]} ∪ heads) j p ↔ owned bm heads j p.
Proof.
  intros Ht Hr Ho Hf Hb Hn j p. apply free_false in Hf. unfold owned. rewrite Hb.
  repeat case_decide; subst; [|set_solver|set_solver].
  rewrite Hf. split; [naive_solver|]. intros [_ Hx]. rewrite Hx in Hf. done.
Qed.

Lemma allocate_split_spec fuel bm heads o r :
  PMEM_ORDER bm r - o < Z.of_nat fuel → 0 ≤ o < 256 → o ≤ PMEM_ORDER bm r →
  tiled bm heads → zlen bm ≤ 2 ^ 20 → r ∈ heads → PMEM_IS_FREE bm r = true →
  coalesced (λ x, x = r) bm heads →
  ∃ bm' heads', allocate_split past fuel bm o r = Some bm' ∧ zlen bm' = zlen bm ∧
    tiled bm' heads' ∧ r ∈ heads' ∧ bits_at bm' r = mk_bits false o ∧
    coalesced (λ x, x = r) bm' heads' ∧ ∀ i p, owned bm' heads' i p ↔ owned bm heads i p.
Proof.
  revert bm heads. induction fuel as [|fuel IH]; intros bm heads Hfuel Ho Hle Ht Hlen Hr Hf Hco; [lia|].
  simpl. assert (Hu8 : u8 o = o) by (apply Z.mod_small; simpl; lia). rewrite Hu8, Z.gtb_ltb.
  destruct (Z.ltb_spec o (PMEM_ORDER bm r)) as [Hgt|Hge].
  2: { exists bm, heads. split_and!; try done. apply free_false in Hf. unfold PmemAlloc.PMEM_ORDER in *.
       destruct (bits_at bm r) as [a p]; simpl in *. subst. f_equal; lia. }
  set (q := PMEM_ORDER bm r - 1) in *.
  destruct (split_step bm heads r q) as (bm1 & bm2 & -> & Hbud & Hset2 & Hl2 & Hb2);
    [done..|lia|lia|]. simpl.
  rewrite Hbud, Hset2. simpl.
  assert (Hin : r + 2 ^ q ∉ heads).
  { intros Hx. pose proof (pow2_pos q ltac:(lia)). pose proof (tiled_gap _ _ Ht r _ Hr Hx ltac:(lia)) as Hg.
    replace (PMEM_ORDER bm r) with (q + 1) in Hg by lia. rewrite pow2_succ in Hg by lia. lia. }
  assert (Hb2r : bits_at bm2 r = mk_bits false q).
  { rewrite Hb2, decide_True by done. apply free_false in Hf. by rewrite Hf. }
  assert (Ho2 : PMEM_ORDER bm2 r = q) by (unfold PmemAlloc.PMEM_ORDER; by rewrite Hb2r).
  destruct (IH bm2 ({[r + 2 ^ q]} ∪ heads)) as (bm' & heads' & Hrun & Hl' & Ht' & Hr' & Hbr & Hco' & Hown);
    rewrite ?Hl2, ?Ho2; try done; try lia.
  - apply (tiled_split bm bm2 heads r q); try done; lia.
  - set_solver.
  - unfold PmemAlloc.PMEM_IS_FREE. by rewrite Hb2r.
  - apply (coalesced_split bm bm2 heads r q); try done; lia.
  - exists bm', heads'. rewrite Hl2 in *. split_and!; try done.
    intros i p. rewrite Hown. apply (owned_split bm); try done; lia.
Qed.

(** *** Setting up *)

(** The entries of one free block. *)
Definition fresh_block (o : Z) : list pmem_bits :=
  mk_bits false o :: replicate (Z.to_nat (2 ^ o) - 1) (mk_bits false 0).

Lemma zlen_fresh_block o : 0 ≤ o → zlen (fresh_block o) = 2 ^ o.
Proof.
  intros Ho. pose proof (pow2_pos o Ho). unfold fresh_block, zlen. simpl. rewrite length_replicate. lia.
Qed.

Lemma bits_at_app_l bm k i : 0 ≤ i < zlen bm → bits_at (bm ++ k) i = bits_at bm i.
Proof.
  intros Hi. unfold PmemAlloc.bits_at. rewrite !in_table; [|done|rewrite zlen_app; pose proof (zlen_nonneg k); lia].
  rewrite znth_app by lia. by assert (i <? zlen bm = true) as -> by lia.
Qed.

Lemma bits_at_app_r bm k i :
  zlen bm ≤ i < zlen bm + zlen k → bits_at (bm ++ k) i = znth (mk_bits false 0) k (i - zlen bm).
Proof.
  intros Hi. pose proof (zlen_nonneg bm). unfold PmemAlloc.bits_at.
  rewrite in_table by (rewrite zlen_app; lia). rewrite znth_app by lia.
  by assert (i <? zlen bm = false) as -> by lia.
Qed.

Lemma fresh_block_free o i : allocated (znth (mk_bits false 0) (fresh_block o) i) = false.
Proof.
  unfold fresh_block, znth. destruct (Z.to_nat i) as [|n]; [done|]. simpl.
  destruct (Nat.lt_ge_cases n (Z.to_nat (2 ^ o) - 1)).
  - by rewrite nth_lookup, lookup_replicate_2.
  - rewrite nth_overflow; [done|]. by rewrite length_replicate.
Qed.

(** A block of order [o] appended to a table whose size is a multiple of
    [2^(o+1)]. *)
Lemma tiled_append bm heads o :
  tiled bm heads → coalesced (λ _, False) bm heads → 0 ≤ o → (2 ^ (o + 1) | zlen bm) →
  tiled (bm ++ fresh_block o) ({[zlen bm]} ∪ heads) ∧
  coalesced (λ _, False) (bm ++ fresh_block o) ({[zlen bm]} ∪ heads).
Proof.
  intros Ht Hco Ho Ha. pose proof (pow2_pos o Ho) as Hp. pose proof (zlen_nonneg bm) as Hn0.
  set (n := zlen bm) in *.
  assert (Hl : zlen (bm ++ fresh_block o) = n + 2 ^ o) by (by rewrite zlen_app, zlen_fresh_block).
  assert (Hhead : ∀ j, j ∈ heads → 0 ≤ j < n).
  { intros j Hj. pose proof (tiled_range _ _ Ht j Hj).
    pose proof (pow2_pos _ (tiled_order _ _ Ht j Hj)). lia. }
  assert (Hold : ∀ j, j ∈ heads → bits_at (bm ++ fresh_block o) j = bits_at bm j).
  { intros j Hj. apply bits_at_app_l. by apply Hhead. }
  assert (Hordo : ∀ j, j ∈ heads → PMEM_ORDER (bm ++ fresh_block o) j = PMEM_ORDER bm j).
  { intros j Hj. unfold PmemAlloc.PMEM_ORDER. by rewrite Hold. }
  assert (Hnew : PMEM_ORDER (bm ++ fresh_block o) n = o).
  { unfold PmemAlloc.PMEM_ORDER, n. rewrite bits_at_app_r by (rewrite zlen_fresh_block; lia).
    by rewrite Z.sub_diag. }
  assert (Han : (2 ^ o | n)) by (eapply Z.divide_trans; [apply (pow2_divide o (o + 1)); lia|done]).
  split; [split|].
  - intros _. destruct (decide (0 < n)); [|replace n with 0 by lia; set_solver].
    apply elem_of_union_r. by apply (tiled_zero _ _ Ht).
  - intros j [->%elem_of_singleton|Hj]%elem_of_union; [by rewrite Hnew|]. rewrite Hordo by done. by apply (tiled_order _ _ Ht).
  - intros j [->%elem_of_singleton|Hj]%elem_of_union; [by rewrite Hnew|].
    rewrite Hordo by done. by apply (tiled_aligned _ _ Ht).
  - intros j [->%elem_of_singleton|Hj]%elem_of_union; [rewrite Hnew; lia|]. rewrite Hordo, Hl by done.
    pose proof (tiled_range _ _ Ht j Hj) as Hr. fold n in Hr. lia.
  - intros j [->%elem_of_singleton|Hj]%elem_of_union; [left; rewrite Hnew; lia|]. rewrite Hordo by done.
    right. destruct (tiled_next _ _ Ht j Hj) as [->|?]; set_solver.
  - intros i j [->%elem_of_singleton|Hi]%elem_of_union [->%elem_of_singleton|Hj]%elem_of_union Hlt;
      [lia|specialize (Hhead j Hj); lia| |]; rewrite Hordo by done.
    + by apply (tiled_range _ _ Ht).
    + by apply (tiled_gap _ _ Ht).
  - intros i Hi Hni. apply free_false. destruct (Z.lt_ge_cases i n).
    + rewrite bits_at_app_l by (fold n; lia). apply free_false. apply (tiled_inner _ _ Ht); [fold n; lia|set_solver].
    + rewrite bits_at_app_r by (fold n; rewrite zlen_fresh_block; lia). apply fresh_block_free.
  - intros i [->%elem_of_singleton|Hi]%elem_of_union.
    + rewrite Hnew. intros [Hx%elem_of_singleton|Hx%Hhead]%elem_of_union; lia.
    + rewrite Hordo by done. intros [Hx%elem_of_singleton|Hx]%elem_of_union.
      * rewrite Hx, Hnew. intros _ _ Heq Hd. exfalso. rewrite <- Heq in *.
        apply (upper_unaligned _ _ Ho Hd). by rewrite Hx.
      * unfold PmemAlloc.PMEM_IS_FREE. rewrite Hordo, !Hold by done. by apply Hco.
Qed.

Lemma land_bit a i : 0 ≤ i → Z.land a (2 ^ i) = if Z.testbit a i then 2 ^ i else 0.
Proof.
  intros Hi. apply Z.bits_inj'. intros n Hn. rewrite Z.land_spec, Z.pow2_bits_eqb by done.
  destruct (Z.eqb_spec i n) as [->|Hne].
  - destruct (Z.testbit a n) eqn:E; [by rewrite Z.pow2_bits_true|by rewrite Z.bits_0].
  - rewrite andb_false_r. destruct (Z.testbit a i); [|by rewrite Z.bits_0].
    by rewrite Z.pow2_bits_false.
Qed.

Lemma mod_pow2_succ a i :
  0 ≤ i → a mod 2 ^ (i + 1) = a mod 2 ^ i + (if Z.testbit a i then 2 ^ i else 0).
Proof.
  intros Hi. pose proof (pow2_pos i Hi). rewrite pow2_succ, Z.mul_comm, Z.rem_mul_r by lia.
  rewrite <- Z.testbit_spec' by done. destruct (Z.testbit a i); simpl Z.b2z; lia.
Qed.

Lemma setup_loop_spec (n : nat) num bm heads :
  (n ≤ 32)%nat → 0 ≤ num ≤ 2 ^ 20 → zlen bm = num - num mod 2 ^ Z.of_nat n →
  tiled bm heads → coalesced (λ _, False) bm heads →
  (∀ j, 0 ≤ j < zlen bm → allocated (bits_at bm j) = false) →
  ∃ bm' heads',
    setup_loop past n num (bm ++ replicate (Z.to_nat (num mod 2 ^ Z.of_nat n)) (mk_bits false 0)) (zlen bm)
      = Some bm' ∧
    zlen bm' = num ∧ tiled bm' heads' ∧ coalesced (λ _, False) bm' heads' ∧
    ∀ j, 0 ≤ j < zlen bm' → allocated (bits_at bm' j) = false.
Proof.
  revert bm heads. induction n as [|i IH]; intros bm heads Hn Hnum Hlen Ht Hco Hfree; simpl setup_loop.
  { exists bm, heads. simpl in *. rewrite Z.mod_1_r in *. simpl. rewrite app_nil_r. split_and!; try done; lia. }
  replace (Z.of_nat (S i)) with (Z.of_nat i + 1) in * by lia.
  set (o := Z.of_nat i) in *. pose proof (pow2_pos o ltac:(lia)) as Hp.
  assert (Hu : u32 (Z.shiftl 1 o) = 2 ^ o).
  { rewrite Z.shiftl_1_l. apply u32_small. pose proof (Z.pow_lt_mono_r 2 o 32). lia. }
  rewrite Hu, land_bit by lia. rewrite mod_pow2_succ in * by lia.
  pose proof (mod_range num (2 ^ o) Hp) as Hm. 
  destruct (Z.testbit num o) eqn:Hbit.
  2: { change (ctrue 0) with false. rewrite !Z.add_0_r in *. apply (IH bm heads); try done; lia. }
  assert (ctrue (2 ^ o) = true) as -> by (unfold ctrue; destruct (Z.eqb_spec (2 ^ o) 0); [lia|done]).
  assert (Ho20 : o ≤ 20) by (pose proof (zlen_nonneg bm); apply (Z.pow_le_mono_r_iff 2); lia).
  assert (Hsplit : replicate (Z.to_nat (num mod 2 ^ o + 2 ^ o)) (mk_bits false 0) =
    fresh_block 0 ++ replicate (Z.to_nat (2 ^ o) - 1) (mk_bits false 0) ++
    replicate (Z.to_nat (num mod 2 ^ o)) (mk_bits false 0)).
  { unfold fresh_block. change (Z.to_nat (2 ^ 0) - 1)%nat with 0%nat. simpl.
    rewrite <- replicate_add. rewrite <- replicate_S. f_equal. lia. }
  assert (Hset : set_order past (bm ++ replicate (Z.to_nat (num mod 2 ^ o + 2 ^ o)) (mk_bits false 0)) (zlen bm) o
    = Some ((bm ++ fresh_block o) ++ replicate (Z.to_nat (num mod 2 ^ o)) (mk_bits false 0))).
  { pose proof (zlen_nonneg bm). unfold set_order. rewrite in_table.
    2: { rewrite zlen_app, zlen_replicate. lia. }
    rewrite bits_at_app_r by (rewrite zlen_replicate; lia).
    rewrite Hsplit, Z.sub_diag, (Z.mod_small o) by (simpl; lia). f_equal. unfold zset, zlen.
    rewrite Nat2Z.id, insert_app_r_alt, Nat.sub_diag by lia. simpl.
    unfold fresh_block. by rewrite <- !app_assoc. }
  rewrite Hset. cbn [mbind option_bind].
  destruct (tiled_append bm heads o Ht Hco ltac:(lia)) as [Ht' Hco'].
  { exists (num / 2 ^ (o + 1)). rewrite Hlen. pose proof (pow2_pos (o + 1) ltac:(lia)).
    pose proof (Z.div_mod num (2 ^ (o + 1)) ltac:(lia)) as Hdm.
    rewrite (mod_pow2_succ num o), Hbit in Hdm by lia. lia. }
  assert (Hlen' : zlen (bm ++ fresh_block o) = num - num mod 2 ^ o).
  { rewrite zlen_app, zlen_fresh_block by lia. lia. }
  assert (Hnext : PMEM_NEXT_INDEX past ((bm ++ fresh_block o) ++
      replicate (Z.to_nat (num mod 2 ^ o)) (mk_bits false 0)) (zlen bm) = zlen (bm ++ fresh_block o)).
  { pose proof (zlen_nonneg bm). pose proof (zlen_fresh_block o ltac:(lia)).
    unfold PMEM_NEXT_INDEX, order_pages, PmemAlloc.PMEM_ORDER.
    rewrite bits_at_app_l by lia. rewrite bits_at_app_r by lia. rewrite Z.sub_diag.
    change (order (znth _ (fresh_block o) 0)) with o. rewrite pow2_small by lia.
    rewrite s32_small; lia. }
  rewrite Hnext. apply (IH _ ({[zlen bm]} ∪ heads)); try done; [lia|].
  intros j Hj. destruct (Z.lt_ge_cases j (zlen bm)).
  - rewrite bits_at_app_l by lia. apply Hfree. lia.
  - rewrite zlen_app in Hj. rewrite bits_at_app_r by lia. apply fresh_block_free.
Qed.

(** *** The order of a request *)

Lemma order_loop_spec n i len :
  0 ≤ i → 0 ≤ len < 2 ^ (i + Z.of_nat n) → 
  let r := order_loop n i len in
  i ≤ r ≤ i + Z.of_nat n ∧ len < 2 ^ r ∧ ∀ j, i ≤ j < r → 2 ^ j ≤ len.
Proof.
  revert i. induction n as [|n IH]; intros i Hi Hlen; simpl.
  { replace (i + Z.of_nat 0) with i in * by lia. split_and!; lia || (intros; lia). }
  pose proof (pow2_pos i Hi). rewrite Z.shiftr_div_pow2 by done.
  destruct (Z.eqb_spec (len / 2 ^ i) 0) as [Hz|Hz].
  - split_and!; [lia|lia| |intros; lia]. apply Z.div_small_iff in Hz; lia.
  - assert (2 ^ i ≤ len).
    { destruct (Z.lt_ge_cases len (2 ^ i)); [|lia]. rewrite Z.div_small in Hz; lia. }
    specialize (IH (i + 1)). replace (i + 1 + Z.of_nat n) with (i + Z.of_nat (S n)) in IH by lia.
    destruct IH as (Hr & Hlt & Hall); [lia|done|]. split_and!; [lia|lia|done|].
    intros j Hj. destruct (decide (j = i)) as [->|]; [done|]. apply Hall. lia.
Qed.

(** The smallest power of two of pages that holds [len] bytes; a length of
    zero, or one that overflows when it is rounded up, has the order 32 that
    no block has. *)
Lemma pmem_order_spec len :
  0 ≤ len < 2 ^ 32 →
  if decide (0 < len ≤ 2 ^ 32 - 4096) then
    0 ≤ pmem_order len ≤ 20 ∧ len ≤ 2 ^ pmem_order len * PMEM_MIN_ALLOC ∧
    ∀ j, 0 ≤ j → len ≤ 2 ^ j * PMEM_MIN_ALLOC → pmem_order len ≤ j
  else pmem_order len = 32.
Proof.
  intros Hlen. unfold pmem_order, PMEM_MIN_ALLOC. case_decide as Hd.
  - rewrite (u32_small (len + 4096 - 1)) by lia. set (n := (len + 4096 - 1) / 4096).
    assert (Hn : 1 ≤ n ≤ 2 ^ 20 ∧ 4096 * (n - 1) < len ≤ 4096 * n).
    { pose proof (Z.div_mod (len + 4096 - 1) 4096 ltac:(lia)). fold n in H.
      pose proof (mod_range (len + 4096 - 1) 4096 ltac:(lia)). lia. }
    rewrite u32_small by lia.
    destruct (order_loop_spec 32 0 (n - 1)) as (Hr & Hlt & Hall); [lia|simpl; lia|].
    set (r := order_loop 32 0 (n - 1)) in *. split_and!; [lia| |lia|].
    + destruct (Z.le_gt_cases r 20); [done|]. specialize (Hall 20 ltac:(lia)). lia.
    + intros j Hj Hlj. destruct (Z.le_gt_cases r j); [done|]. specialize (Hall j ltac:(lia)). lia.
  - assert (u32 (len + 4096 - 1) / 4096 = 0) as ->.
    { apply Z.div_small. unfold u32. destruct (decide (len = 0)) as [->|]; [done|].
      rewrite (mod_unique_range _ (len + 4096 - 1 - 2 ^ 32) _ 1); lia. }
    done.
Qed.

Lemma pmem_order_range len : 0 ≤ len < 2 ^ 32 → 0 ≤ pmem_order len ≤ 32.
Proof. intros Hlen. pose proof (pmem_order_spec len Hlen). case_decide; lia. Qed.

(** ** The abstract allocator

    Its state, [blocks], is the map from the first page of each block handed out to the
    order of the block. *)

(** [2^o] pages at [a] are inside of the [n] pages of the device, aligned on
    their size and free. *)
Definition fits (n : Z) (m : blocks) (a o : Z) : Prop :=
  0 ≤ a ∧ (2 ^ o | a) ∧ a + 2 ^ o ≤ n ∧ ∀ i p, m !! i = Some p → i + 2 ^ p ≤ a ∨ a + 2 ^ o ≤ i.

(** The table of a device represents the blocks handed out. *)
Definition rep (pm : pmem_info) (m : blocks) : Prop :=
  zlen (bitmap pm) = num_entries pm ∧ num_entries pm ≤ 2 ^ 20 ∧
  ∃ heads, tiled (bitmap pm) heads ∧ coalesced (λ _, False) (bitmap pm) heads ∧
    ∀ i o, m !! i = Some o ↔ owned (bitmap pm) heads i o.

(** Free pages are in free blocks, and since free buddies are always merged, a
    free aligned range of [2^o] pages lies in one block. *)
Lemma coalesced_complete bm heads m (o : nat) a :
  tiled bm heads → coalesced (λ _, False) bm heads →
  (∀ i p, m !! i = Some p ↔ owned bm heads i p) →
  fits (zlen bm) m a (Z.of_nat o) →
  ∃ h, h ∈ heads ∧ PMEM_IS_FREE bm h = true ∧ Z.of_nat o ≤ PMEM_ORDER bm h ∧
    h ≤ a < h + 2 ^ PMEM_ORDER bm h.
Proof.
  intros Ht Hco Hm. revert a. induction o as [|o IH]; intros a (Ha0 & Haa & Han & Hdis).
  - destruct (tiled_cover _ _ a Ht) as (h & Hh & Hha); [simpl in *; lia|].
    exists h. pose proof (tiled_order _ _ Ht h Hh). split_and!; try done; try lia.
    apply free_false. destruct (allocated (bits_at bm h)) eqn:E; [exfalso|done].
    destruct (Hdis h (PMEM_ORDER bm h)) as [?|?]; [|lia|simpl in *; lia].
    apply Hm. split; [done|]. unfold PmemAlloc.PMEM_ORDER. destruct (bits_at bm h); simpl in *. by subst.
  - replace (Z.of_nat (S o)) with (Z.of_nat o + 1) in * by lia.
    set (q := Z.of_nat o) in *. pose proof (pow2_pos q ltac:(lia)) as Hp. rewrite pow2_succ in Han, Hdis by lia.
    assert (Hqa : (2 ^ q | a)) by (eapply Z.divide_trans; [apply (pow2_divide q (q + 1)); lia|done]).
    destruct (IH a) as (h1 & Hh1 & Hf1 & Ho1 & Hr1).
    { split_and!; [done|done|lia|]. intros i p Hi. destruct (Hdis i p Hi); lia. }
    destruct (decide (PMEM_ORDER bm h1 = q)) as [He1|Hne1]; [|exists h1; split_and!; done || lia].
    destruct (IH (a + 2 ^ q)) as (h2 & Hh2 & Hf2 & Ho2 & Hr2).
    { split_and!; [lia|apply Z.divide_add_r; [done|apply Z.divide_refl]|lia|].
      intros i p Hi. destruct (Hdis i p Hi); lia. }
    pose proof (tiled_aligned _ _ Ht h1 Hh1) as Ha1. rewrite He1 in *.
    assert (h1 = a) as -> by (apply (aligned_eq q); done || lia).
    destruct (decide (PMEM_ORDER bm h2 = q)) as [He2|Hne2].
    + pose proof (tiled_aligned _ _ Ht h2 Hh2) as Ha2. rewrite He2 in *.
      assert (h2 = a + 2 ^ q) as ->.
      { apply (aligned_eq q); try done; try lia. apply Z.divide_add_r; [done|apply Z.divide_refl]. }
      exfalso. destruct (Hco a); try done; by rewrite He1.
    + exists h2. pose proof (tiled_aligned _ _ Ht h2 Hh2) as Ha2.
      pose proof (aligned_nest (q + 1) (PMEM_ORDER bm h2) a h2) as Hnest.
      assert (h2 ≤ a); [|split_and!; try done; lia].
      destruct (Z.le_gt_cases h2 a); [done|exfalso].
      assert (Hq2 : (2 ^ (q + 1) | h2)).
      { eapply Z.divide_trans; [apply (pow2_divide _ (PMEM_ORDER bm h2)); lia|done]. }
      pose proof (aligned_eq (q + 1) a h2 ltac:(lia) Haa Hq2) as He. rewrite pow2_succ in He by lia. lia.
Qed.

(** A best block is free for the abstract allocator. *)
Lemma best_block_fits bm heads m o r :
  tiled bm heads → (∀ i p, m !! i = Some p ↔ owned bm heads i p) → 0 ≤ o →
  r ∈ heads → PMEM_IS_FREE bm r = true → o ≤ PMEM_ORDER bm r → fits (zlen bm) m r o.
Proof.
  intros Ht Hm Ho Hr Hf Hle. pose proof (tiled_range _ _ Ht r Hr).
  pose proof (Z.pow_le_mono_r 2 o (PMEM_ORDER bm r) ltac:(lia) Hle).
  split_and!; [lia| |lia|].
  - eapply Z.divide_trans; [apply (pow2_divide o (PMEM_ORDER bm r)); lia|by apply (tiled_aligned _ _ Ht)].
  - intros i p Hi. apply Hm in Hi. pose proof (owned_order _ _ _ _ Hi) as Hp. destruct Hi as [Hi Hb].
    destruct (Z.lt_trichotomy i r) as [?|[->|?]].
    + left. rewrite <- Hp. by apply (tiled_gap _ _ Ht).
    + apply free_false in Hf. by rewrite Hb in Hf.
    + pose proof (tiled_gap _ _ Ht r i Hr Hi). lia.
Qed.

Lemma allocate_rep pm m len :
  rep pm m → no_allocator pm = false → 0 ≤ len < 2 ^ 32 →
  ∃ pm' r, pmem_allocate past pm len = Some (pm', r) ∧
    ((r = -1 ∧ pm' = pm ∧ ∀ a, ¬ fits (num_entries pm) m a (pmem_order len)) ∨
     (fits (num_entries pm) m r (pmem_order len) ∧ (∃ bm, pm' = set_bitmap pm bm) ∧
      rep pm' (<[r := pmem_order len]> m))).
Proof.
  intros (Hlen & Hmax & heads & Ht & Hco & Hm) Hna Hl. unfold pmem_allocate. rewrite Hna.
  pose proof (pmem_order_range len Hl) as Hor. set (o := pmem_order len) in *.
  assert (o >? PMEM_MAX_ORDER = false) as -> by (unfold PMEM_MAX_ORDER; lia).
  pose proof (zlen_nonneg (bitmap pm)) as Hnn. rewrite (s32_small (num_entries pm)) by lia.
  rewrite <- Hlen in *.
  destruct (allocate_scan_spec (Z.to_nat (zlen (bitmap pm))) (bitmap pm) heads o 0 (-1))
    as (r & -> & Hbest); try done; try lia.
  { destruct (decide (0 < zlen (bitmap pm))); [right; by apply (tiled_zero _ _ Ht)|left; lia]. }
  { left. split; [done|]. intros h Hh ?. pose proof (tiled_range _ _ Ht h Hh). lia. }
  cbn [mbind option_bind]. destruct Hbest as [[-> Hall]|(Hr & Hf & Hge & Hall)].
  - exists pm, (-1). split; [done|]. left. split_and!; [done..|]. intros a Hfit.
    destruct (coalesced_complete (bitmap pm) heads m (Z.to_nat o) a) as (h & Hh & Hf & Hoh & _);
      rewrite ?Z2Nat.id in * by lia; try done.
    specialize (Hall h Hh Hf). lia.
  - pose proof (tiled_range _ _ Ht r Hr) as Hrr. pose proof (tiled_small _ _ _ Ht Hmax Hr) as Hsm.
    assert (r <? 0 = false) as -> by lia.
    destruct (allocate_split_spec 128 (bitmap pm) heads o r)
      as (bm1 & heads1 & -> & Hl1 & Ht1 & Hr1 & Hb1 & Hco1 & Hown1); try done; try lia.
    { intros i Hi Hk Hfi Hfk Hord Ha. destruct (Hco i Hi Hk Hfi Hfk Hord Ha); done. }
    cbn [mbind option_bind]. pose proof (tiled_range _ _ Ht1 r Hr1).
    pose proof (pow2_pos _ (tiled_order _ _ Ht1 r Hr1)).
    destruct (set_allocated_in bm1 r true) as (bm2 & -> & Hl2 & Hb2); [lia|].
    cbn [mbind option_bind]. eexists _, r. split; [done|]. right.
    split; [apply (best_block_fits (bitmap pm) heads); done || lia|]. split; [by eexists|].
    assert (Ho1 : PMEM_ORDER bm1 r = o) by (unfold PmemAlloc.PMEM_ORDER; by rewrite Hb1).
    rewrite Ho1 in Hb2. unfold rep; cbn [bitmap set_bitmap num_entries].
    split; [lia|]. split; [lia|]. exists heads1. split_and!.
    + apply (tiled_flag bm1 bm2 heads1 r true); try done. by rewrite Ho1.
    + intros i Hi. unfold PmemAlloc.PMEM_ORDER, PmemAlloc.PMEM_IS_FREE. rewrite !Hb2.
      case_decide; [done|]. set (k := i + _). intros Hk Hfi. case_decide; [done|].
      intros Hfk Hord Ha. destruct (Hco1 i Hi Hk Hfi Hfk Hord Ha); done.
    + intros i p. unfold owned. rewrite Hb2. destruct (decide (i = r)) as [->|Hne].
      * rewrite lookup_insert_eq. naive_solver.
      * rewrite lookup_insert_ne by done. rewrite Hm, <- Hown1. done.
Qed.

Lemma free_rep pm m i o :
  rep pm m → no_allocator pm = false → m !! i = Some o →
  (∃ bm, pmem_free past pm i = Some (set_bitmap pm bm, 0) ∧ rep (set_bitmap pm bm) (delete i m)) ∨
  (pmem_free past pm i = None ∧ ¬ past_quiet (num_entries pm)).
Proof.
  intros (Hlen & Hmax & heads & Ht & Hco & Hm) Hna Hi. unfold pmem_free. rewrite Hna.
  assert (Hfuel : 21 ≤ Z.of_nat 128) by lia. revert Hfuel. generalize 128%nat. intros fuel Hfuel.
  pose proof Hi as Hiown. apply Hm in Hiown. pose proof (owned_order _ _ _ _ Hiown) as Hord.
  destruct Hiown as [Hin Hbi].
  pose proof (tiled_range _ _ Ht i Hin) as Hr. pose proof (tiled_small _ _ _ Ht ltac:(lia) Hin).
  pose proof (pow2_pos o ltac:(lia)). rewrite Hord in *.
  destruct (set_allocated_in (bitmap pm) i false) as (bm1 & -> & Hl1 & Hb1); [lia|].
  cbn [mbind option_bind]. rewrite Hord in Hb1. rewrite <- Hlen in *.
  assert (Hb1i : bits_at bm1 i = mk_bits false o) by (by rewrite Hb1, decide_True).
  assert (Ht1 : tiled bm1 heads).
  { apply (tiled_flag (bitmap pm) bm1 heads i false); try done. by rewrite Hord. }
  destruct (free_loop_spec fuel bm1 heads i) as [(bm2 & heads2 & Hrun & Hl2 & Ht2 & Hco2 & Hown)|[Hrun Hq]];
    rewrite ?Hl1; try done.
  - unfold PmemAlloc.PMEM_ORDER. rewrite Hb1i. simpl. lia.
  - unfold PmemAlloc.PMEM_IS_FREE. by rewrite Hb1i.
  - intros j Hj. unfold PmemAlloc.PMEM_ORDER, PmemAlloc.PMEM_IS_FREE. rewrite !Hb1.
    case_decide; [tauto|]. set (k := j + _). intros Hk Hfj. case_decide; [tauto|].
    intros Hfk Hordk Ha. destruct (Hco j Hj Hk Hfj Hfk Hordk Ha); done.
  - left. rewrite Hl1 in Hrun. rewrite Hrun. cbn [mbind option_bind]. exists bm2. split; [done|].
    unfold rep; cbn [bitmap set_bitmap num_entries]. split; [lia|]. split; [lia|].
    exists heads2. split_and!; try done. intros j p. rewrite Hown. unfold owned. rewrite Hb1.
    destruct (decide (j = i)) as [->|Hne].
    + rewrite lookup_delete_eq. split; [done|]. by intros [_ ?].
    + rewrite lookup_delete_ne by done. by rewrite Hm.
  - right. rewrite Hl1 in *. by rewrite Hrun.
Qed.

Lemma tiled_nil : tiled [] ∅.
Proof.
  split; intros *; try (intros Hx; by apply elem_of_empty in Hx); unfold zlen; simpl; lia.
Qed.

Lemma setup_rep pdata env id :
  0 ≤ pd_size pdata < 2 ^ 32 →
  ∃ pm ret, pmem_setup past pdata env id = Some (pm, ret) ∧ (ret = 0 ∨ ret = -1) ∧
    (ret = 0 → rep pm ∅ ∧ base pm = pd_start pdata ∧ size pm = pd_size pdata ∧
               num_entries pm = pd_size pdata / PMEM_MIN_ALLOC ∧
               no_allocator pm = pd_no_allocator pdata ∧ dev_allocated pm = false ∧ data_list pm = [] ∧
               dev_minor pm = id).
Proof.
  intros Hsz. unfold pmem_setup. destruct (ctrue (misc_register env)); [eexists _, (-1); split_and!; [done|by right|done]|].
  destruct (kmalloc_ok env); [|eexists _, (-1); split_and!; [done|by right|done]]. cbn [negb size].
  set (n := pd_size pdata / PMEM_MIN_ALLOC).
  assert (Hn : 0 ≤ n ≤ 2 ^ 20).
  { unfold n, PMEM_MIN_ALLOC. split; [apply Z.div_pos; lia|]. apply Z.div_le_upper_bound; lia. }
  assert (Hm : n mod 2 ^ Z.of_nat 32 = n) by (apply Z.mod_small; simpl; lia).
  destruct (setup_loop_spec 32 n [] ∅) as (bm & heads & Hrun & Hl & Ht & Hco & Hfree);
    rewrite ?Hm; try done; try lia.
  - rewrite zlen_nil. lia.
  - apply tiled_nil.
  - intros j. unfold zlen; simpl; lia.
  - rewrite Hm in Hrun. change (zlen []) with 0 in Hrun. cbn [app] in Hrun. rewrite Hrun. cbn [mbind option_bind].
    case_match; [eexists _, (-1); split_and!; [done|by right|done]|]. eexists _, 0. split; [done|]. split; [by left|]. intros _.
    split; [|by split_and!]. unfold rep. cbn [bitmap num_entries set_bitmap].
    split; [done|]. split; [lia|]. exists heads. split_and!; try done. intros i o.
    rewrite lookup_empty. split; [done|]. intros [Hi Hb]. exfalso.
    pose proof (tiled_range _ _ Ht i Hi). pose proof (pow2_pos _ (tiled_order _ _ Ht i Hi)).
    specialize (Hfree i ltac:(lia)). by rewrite Hb in Hfree.
Qed.

(** The blocks handed out are inside of the device, aligned and disjoint. *)
Lemma rep_block pm m i o :
  rep pm m → m !! i = Some o →
  0 ≤ o ≤ 20 ∧ (2 ^ o | i) ∧ 0 ≤ i ∧ i + 2 ^ o ≤ num_entries pm ∧ PMEM_ORDER (bitmap pm) i = o.
Proof.
  intros (Hlen & Hmax & heads & Ht & Hco & Hm) Hi. apply Hm in Hi.
  pose proof (owned_order _ _ _ _ Hi) as Ho. destruct Hi as [Hi _].
  pose proof (tiled_small _ _ _ Ht ltac:(lia) Hi). pose proof (tiled_range _ _ Ht i Hi).
  pose proof (tiled_aligned _ _ Ht i Hi). rewrite Ho in *. split_and!; done || lia.
Qed.

Lemma rep_disjoint pm m i o j p :
  rep pm m → m !! i = Some o → m !! j = Some p → i ≠ j → i + 2 ^ o ≤ j ∨ j + 2 ^ p ≤ i.
Proof.
  intros (Hlen & Hmax & heads & Ht & Hco & Hm) Hi Hj Hne. apply Hm in Hi, Hj.
  pose proof (owned_order _ _ _ _ Hi) as Hoi. pose proof (owned_order _ _ _ _ Hj) as Hoj.
  destruct Hi as [Hi _], Hj as [Hj _]. subst.
  destruct (Z.lt_gt_cases i j) as [Hlt _]. destruct (Hlt Hne); [left|right]; by apply (tiled_gap _ _ Ht).
Qed.

Lemma fits_lookup_none n m a o : 0 ≤ o → fits n m a o → ∀ p, m !! a = Some p → 0 ≤ p → False.
Proof.
  intros Ho (_ & _ & _ & Hd) p Ha Hp. pose proof (pow2_pos o Ho). pose proof (pow2_pos p Hp).
  destruct (Hd a p Ha); lia.
Qed.
End tiling.

(** What lies behind the table plays no part in what the table represents. *)
Lemma bits_at_past past past' bm i : 0 ≤ i < zlen bm → bits_at past bm i = bits_at past' bm i.
Proof. intros. unfold bits_at. by rewrite in_table. Qed.

Lemma rep_past past past' pm m : rep past pm m → rep past' pm m.
Proof.
  intros (Hlen & Hmax & heads & Ht & Hco & Hm). split; [done|]. split; [done|]. exists heads.
  assert (Hin : ∀ i, i ∈ heads → 0 ≤ i < zlen (bitmap pm)).
  { intros i Hi. pose proof (tiled_range _ _ _ Ht i Hi). pose proof (pow2_pos _ (tiled_order _ _ _ Ht i Hi)). lia. }
  assert (Ho : ∀ i, i ∈ heads → PMEM_ORDER past' (bitmap pm) i = PMEM_ORDER past (bitmap pm) i).
  { intros i Hi. unfold PMEM_ORDER. by rewrite (bits_at_past past' past) by auto. }
  assert (Hf : ∀ i, 0 ≤ i < zlen (bitmap pm) →
    PMEM_IS_FREE past' (bitmap pm) i = PMEM_IS_FREE past (bitmap pm) i).
  { intros i Hi. unfold PMEM_IS_FREE. by rewrite (bits_at_past past' past). }
  split_and!.
  - split; try apply Ht; intros *; intros Hi; rewrite ?Ho, ?Hf by done; by apply Ht.
  - intros i Hi. rewrite !Ho by done. intros Hk. rewrite (Ho _ Hk), !Hf by auto. by apply Hco.
  - intros i o. rewrite Hm. unfold owned. split; intros [Hi Hb]; (split; [done|]); rewrite <- Hb;
      apply bits_at_past; auto.
Qed.

(** ** Theorems *)

Section theorems.
Variable past : Z → pmem_bits.

Inductive alloc_op := Alloc (len : Z) | Free (index : Z).

Definition run_op (pm : pmem_info) (op : alloc_op) : option (pmem_info * Z) :=
  match op with
  | Alloc len => pmem_allocate past pm len
  | Free index => pmem_free past pm index
  end.

(** The abstract allocator of [n] pages: a request is met whenever some
    aligned range of its size is free, whatever the history. *)
Inductive spec_step (n : Z) : blocks → alloc_op → Z → blocks → Prop :=
| spec_alloc m len a :
    fits n m a (pmem_order len) → spec_step n m (Alloc len) a (<[a := pmem_order len]> m)
| spec_full m len :
    (∀ a, ¬ fits n m a (pmem_order len)) → spec_step n m (Alloc len) (-1) m
| spec_free m i o : m !! i = Some o → spec_step n m (Free i) 0 (delete i m).

(** The caller's side: a length is an [unsigned long], only blocks handed out
    are freed. *)
Definition legal_op (m : blocks) (op : alloc_op) : Prop :=
  match op with Alloc len => 0 ≤ len < 2 ^ 32 | Free i => is_Some (m !! i) end.

(** C7: The allocator implements its specification.  A device that has been
    set up represents the empty set of blocks; from then on every request
    returns and is a step of the abstract allocator: an allocation succeeds
    exactly when an aligned free range of its size exists, and hands out one
    that overlaps no other block; a free gives exactly that block back.  Writes
    stay inside of the table, with one exception: if the word behind the table,
    at which a free may look for a buddy, reads as a free entry of a small order,
    the free may go on to write there ([None], see [pmem_free_past_end]). *)
Theorem pmem_buddy_refinement :
  (∀ pdata env id pm, 0 ≤ pd_size pdata < 2 ^ 32 →
     pmem_setup past pdata env id = Some (pm, 0) → rep past pm ∅) ∧
  (∀ pm m op, rep past pm m → no_allocator pm = false → legal_op m op →
     (∃ pm' r m', run_op pm op = Some (pm', r) ∧ spec_step (num_entries pm) m op r m' ∧
        rep past pm' m' ∧ num_entries pm' = num_entries pm ∧ no_allocator pm' = false) ∨
     (∃ i, op = Free i ∧ run_op pm op = None ∧ allocated (past (num_entries pm)) = false ∧
        2 ^ order (past (num_entries pm)) ≤ num_entries pm)).
Proof.
  split.
  - intros pdata env id pm Hsz Hrun. destruct (setup_rep past pdata env id Hsz) as (pm' & ret & Heq & _ & Hok).
    rewrite Heq in Hrun. injection Hrun as -> ->. by apply Hok.
  - intros pm m [len|i] Hrep Hna Hlegal; simpl in *.
    + left. destruct (allocate_rep past pm m len Hrep Hna Hlegal) as (pm' & r & -> & Hcase).
      destruct Hcase as [(-> & -> & Hno)|(Hfit & [bm ->] & Hrep')].
      * exists pm, (-1), m. split_and!; try done. by constructor.
      * eexists _, r, _. split_and!; try done. by constructor.
    + destruct Hlegal as [o Hi]. destruct (free_rep past pm m i o Hrep Hna Hi) as [(bm & -> & Hrep')|[-> Hq]].
      * left. eexists _, 0, _. split_and!; try done. by econstructor.
      * right. exists i. split_and!; try done; unfold past_quiet in Hq.
        -- destruct (allocated (past (num_entries pm))); [|done]. by destruct Hq.
        -- destruct (Z.le_gt_cases (2 ^ order (past (num_entries pm))) (num_entries pm)); [done|]. destruct Hq. lia.
Qed.
End theorems.

Definition past_busy (_ : Z) : pmem_bits := mk_bits true 0.

Definition example_pdata : pmem_platform_data := mk_pdata 268435456 45056 false false false.
Definition example_senv : setup_env := mk_senv 0 true 3221225472 100.
Definition example_pm : pmem_info :=
  match pmem_setup past_busy example_pdata example_senv 0 with Some (pm, _) => pm | None => pmem_unset end.

Lemma example_rep : rep past_busy example_pm ∅.
Proof.
  destruct (setup_rep past_busy example_pdata example_senv 0) as (pm & ret & Heq & _ & Hok); [simpl; lia|].
  unfold example_pm. rewrite Heq. apply Hok.
  revert Heq. vm_compute. intros [=]; done.
Qed.

Lemma pmem_buddy_refinement_witness :
  ∃ pm r m, run_op past_busy example_pm (Alloc 8192) = Some (pm, r) ∧ spec_step 11 ∅ (Alloc 8192) r m ∧
    rep past_busy pm m.
Proof.
  destruct (proj2 (pmem_buddy_refinement past_busy) example_pm ∅ (Alloc 8192)) as [(pm & r & m & H1 & H2 & H3 & _)|(i & ? & _)].
  - exact example_rep.
  - reflexivity.
  - simpl; lia.
  - exists pm, r, m. split; [exact H1|]. split; [exact H2|exact H3].
  - discriminate.
Defined.

(** In bytes.  The block that answers a request of [len] bytes lies inside of
    the device, starts at [base] plus a multiple of its size, holds [len]
    bytes, and no smaller power of two of pages would. *)
Theorem pmem_allocate_bytes past pm m len :
  rep past pm m → no_allocator pm = false → 0 < len < 2 ^ 32 →
  0 ≤ base pm → base pm + size pm < 2 ^ 32 → num_entries pm = size pm / PMEM_MIN_ALLOC → 0 ≤ size pm →
  ∃ pm' r, pmem_allocate past pm len = Some (pm', r) ∧
    (0 ≤ r →
       let start := PMEM_START_ADDR pm' r in let n := PMEM_LEN past pm' r in
       len ≤ n ∧ base pm ≤ start ∧ start + n ≤ base pm + size pm ∧ (n | start - base pm) ∧
       n = 2 ^ pmem_order len * PMEM_MIN_ALLOC ∧
       ∀ j, 0 ≤ j → len ≤ 2 ^ j * PMEM_MIN_ALLOC → n ≤ 2 ^ j * PMEM_MIN_ALLOC).
Proof.
  intros Hrep Hna Hlen Hb Hbs Hn Hs.
  destruct (allocate_rep past pm m len Hrep Hna ltac:(lia)) as (pm' & r & -> & Hcase).
  exists pm', r. split; [done|]. intros Hr.
  destruct Hcase as [(-> & _)|(Hfit & [bm ->] & Hrep')]; [lia|].
  destruct (rep_block past _ _ r (pmem_order len) Hrep' (lookup_insert_eq _ _ _)) as (Ho & Ha & _ & Hin & Hord).
  simpl in Hin. pose proof (pmem_order_spec len ltac:(lia)) as Hos.
  pose proof (pow2_pos (pmem_order len) ltac:(lia)) as Hp.
  pose proof (Z.pow_le_mono_r 2 (pmem_order len) 20 ltac:(lia) ltac:(lia)) as Hp20.
  rewrite Hn in Hin. pose proof (Z.mul_div_le (size pm) PMEM_MIN_ALLOC ltac:(done)) as Hdiv.
  unfold PMEM_MIN_ALLOC in Hdiv, Hin, Hos.
  unfold PMEM_LEN, PMEM_START_ADDR, PMEM_OFFSET, order_pages, PMEM_MIN_ALLOC; cbn zeta.
  rewrite Hord, pow2_small by lia. cbn [base set_bitmap].
  rewrite (u32_small (r * 4096)), (u32_small (2 ^ _ * 4096)), u32_small by lia.
  case_decide; [|lia]. destruct Hos as (_ & Hle & Hleast).
  split_and!; try lia.
  - destruct Ha as [k ->]. exists k. lia.
  - intros j Hj Hlj. pose proof (Z.pow_le_mono_r 2 (pmem_order len) j ltac:(lia) (Hleast j Hj Hlj)). lia.
Qed.

Lemma pmem_allocate_bytes_witness :
  ∃ pm' r, pmem_allocate past_busy example_pm 5000 = Some (pm', r) ∧ (0 ≤ r → 5000 ≤ PMEM_LEN past_busy pm' r).
Proof.
  destruct (pmem_allocate_bytes past_busy example_pm ∅ 5000) as (pm' & r & H1 & H2).
  - exact example_rep.
  - reflexivity.
  - lia.
  - vm_compute; discriminate.
  - vm_compute; reflexivity.
  - reflexivity.
  - vm_compute; discriminate.
  - exists pm', r. split; [exact H1|]. intros Hr. apply H2. exact Hr.
Defined.

(** The loop at a block whose buddy would lie behind the table. *)
Lemma free_loop_past past fuel num bm c b :
  PMEM_BUDDY_INDEX past bm c = b → (b <? zlen bm) = false →
  free_loop past (S fuel) num bm c =
    if negb (allocated (bits_at past bm b)) && (order (bits_at past bm b) =? PMEM_ORDER past bm c)
    then None else Some bm.
Proof.
  intros Hb Hout. simpl. rewrite Hb. unfold PMEM_IS_FREE. unfold PMEM_ORDER at 1.
  destruct (_ && _); [|done]. unfold set_order. by rewrite Hout, andb_false_r.
Qed.

Lemma pmem_free_past past pm i b bm :
  no_allocator pm = false → set_allocated past (bitmap pm) i false = Some bm →
  PMEM_BUDDY_INDEX past bm i = b → (b <? zlen bm) = false →
  pmem_free past pm i =
    if negb (allocated (bits_at past bm b)) && (order (bits_at past bm b) =? PMEM_ORDER past bm i)
    then None else Some (set_bitmap pm bm, 0).
Proof.
  intros Hna Hset Hb Hout. unfold pmem_free.
  assert (∃ fuel, 128%nat = S fuel) as [fuel ->] by (by exists 127%nat).
  rewrite Hna, Hset. cbn [mbind option_bind].
  rewrite (free_loop_past past fuel _ bm i b Hb Hout). by destruct (_ && _).
Qed.

(** [pmem_free] looks for a buddy behind the end of the table:
    on a device of four pages, freeing the block that covers it reads entry 4
    of a table of four; if the memory there looks like a free entry of the same
    order the order stored there is incremented, outside of the table.  The
    only entry behind the table that is ever looked at is the first one. *)
Theorem pmem_free_past_end :
  let pdata := mk_pdata 268435456 16384 false false false in
  ∀ past, ∃ pm pm',
    pmem_setup past pdata example_senv 0 = Some (pm, 0) ∧
    pmem_allocate past pm 16384 = Some (pm', 0) ∧
    (pmem_free past pm' 0 = None ↔ past 4 = mk_bits false 2) ∧
    (past 4 ≠ mk_bits false 2 → pmem_free past pm' 0 = Some (pm, 0)).
Proof.
  intros pdata past.
  set (bm := [mk_bits false 2; mk_bits false 0; mk_bits false 0; mk_bits false 0]).
  set (pm := mk_info 0 268435456 3221225472 16384 4 100 bm false false false false []).
  exists pm, (set_bitmap pm (mk_bits true 2 :: tail bm)). split; [reflexivity|]. split; [reflexivity|].
  assert (Hrun : pmem_free past (set_bitmap pm (mk_bits true 2 :: tail bm)) 0 =
    if negb (allocated (past 4)) && (order (past 4) =? 2) then None else Some (pm, 0)).
  { rewrite (pmem_free_past past _ 0 4 bm) by reflexivity.
    change (bits_at past bm 4) with (past 4). change (PMEM_ORDER past bm 0) with 2. by destruct (_ && _). }
  rewrite Hrun. destruct (past 4) as [[] o]; simpl; [by split|].
  destruct (Z.eqb_spec o 2) as [->|Hne]; [by split|]. split; [split; intros [=]; done|done].
Qed.
