(* ===== verification/Pmem.v ===== *)
(** The physical memory driver (drivers/misc/pmem.c): devices, open files, the
    connection of client files to a master file, the mappings of both in user
    space, and the interface for other drivers.

    The state is the table of devices, the open files with their private data,
    and the user mappings.  A mapping holds the page table entries written
    through it (page address to frame).  Every operation runs under the
    semaphores the driver takes, so it is one step; the one place where the
    driver drops a lock and looks again ([pmem_lock_data_and_mm]) takes the
    data before and after as two arguments.  [None] stands for a kernel oops:
    BUG_ON, or memory written outside of a table. *)

From S2P Require Import Prelude PmemAlloc.

(** ** Data *)

Definition PMEM_MAX_DEVICES : Z := 10.
Definition MISC_MAJOR : Z := 10.

Definition PMEM_FLAGS_BUSY : Z := 1.
Definition PMEM_FLAGS_CONNECTED : Z := Z.shiftl 1 1.
Definition PMEM_FLAGS_MASTERMAP : Z := Z.shiftl 1 2.
Definition PMEM_FLAGS_SUBMAP : Z := Z.shiftl 1 3.
Definition PMEM_FLAGS_UNSUBMAP : Z := Z.shiftl 1 4.

Record pmem_region := mk_region { offset : Z; len : Z }.

#[global] Instance pmem_region_eq_dec : EqDecision pmem_region.
Proof. solve_decision. Defined.

Record pmem_data := mk_data {
  index : Z; flags : Z; vma : option Z; task : option Z; pid : Z; master_fd : Z;
  master_file : option Z; region_list : list pmem_region; ref : Z }.

Definition set_index (d : pmem_data) i :=
  mk_data i (flags d) (vma d) (task d) (pid d) (master_fd d) (master_file d) (region_list d) (ref d).
Definition set_flags (d : pmem_data) f :=
  mk_data (index d) f (vma d) (task d) (pid d) (master_fd d) (master_file d) (region_list d) (ref d).
Definition set_vma (d : pmem_data) v :=
  mk_data (index d) (flags d) v (task d) (pid d) (master_fd d) (master_file d) (region_list d) (ref d).
Definition set_task (d : pmem_data) t :=
  mk_data (index d) (flags d) (vma d) t (pid d) (master_fd d) (master_file d) (region_list d) (ref d).
Definition set_pid (d : pmem_data) p :=
  mk_data (index d) (flags d) (vma d) (task d) p (master_fd d) (master_file d) (region_list d) (ref d).
Definition set_master (d : pmem_data) fd f :=
  mk_data (index d) (flags d) (vma d) (task d) (pid d) fd f (region_list d) (ref d).
Definition set_regions (d : pmem_data) l :=
  mk_data (index d) (flags d) (vma d) (task d) (pid d) (master_fd d) (master_file d) l (ref d).
Definition set_ref (d : pmem_data) r :=
  mk_data (index d) (flags d) (vma d) (task d) (pid d) (master_fd d) (master_file d) (region_list d) r.

Definition has_flag (d : pmem_data) (f : Z) : bool := ctrue (Z.land (flags d) f).
Definition add_flag (d : pmem_data) (f : Z) : pmem_data := set_flags d (Z.lor (flags d) f).
Definition PMEM_IS_SUBMAP (d : pmem_data) : bool :=
  has_flag d PMEM_FLAGS_SUBMAP && negb (has_flag d PMEM_FLAGS_UNSUBMAP).

(** A file: its device number, O_SYNC, its private data. *)
Record file := mk_file { f_major : Z; f_minor : Z; f_sync : bool; private_data : option pmem_data }.

(** A mapping: its interval, offset, whether the driver's vm_ops are set, and
    the page table entries written through it. *)
Record vm_area := mk_vma {
  vm_start : Z; vm_end : Z; vm_pgoff : Z; vm_ops : bool; ptes : gmap Z Z }.

Record world := mk_world { pmem : list pmem_info; files : gmap Z file; vmas : gmap Z vm_area }.

Definition set_pmem (w : world) p := mk_world p (files w) (vmas w).
Definition set_files (w : world) f := mk_world (pmem w) f (vmas w).
Definition set_vmas (w : world) v := mk_world (pmem w) (files w) v.

(** What the calling process and the memory management code contribute to a
    call: the descriptor table, the thread group leader and the pid of the
    caller, which tasks still have an address space, whether kmalloc succeeds,
    whether a page table can be extended, and how many pages
    io_remap_pfn_range maps before it fails. *)
Record env := mk_env {
  past : Z → pmem_bits;
  fget : Z → option Z;
  cur_leader : Z; cur_pid : Z;
  task_has_mm : Z → bool;
  kmalloc : bool;
  pte_alloc : Z → bool;
  remap_pages : Z → Z }.

(** ** Files and devices *)

Definition get_id (f : file) : Z := f_minor f.
Definition dev (w : world) (id : Z) : pmem_info := znth pmem_unset (pmem w) id.
Definition set_dev (w : world) (id : Z) (pm : pmem_info) : world := set_pmem w (zset (pmem w) id pm).

(** [file->private_data = d] through the pointer the file shares with its
    device's list. *)
Definition set_data (w : world) (fid : Z) (d : pmem_data) : world :=
  set_files w (alter (λ f, mk_file (f_major f) (f_minor f) (f_sync f) (Some d)) fid (files w)).

Definition is_pmem_file (w : world) (file : option file) : bool :=
  match file with
  | None => false
  | Some f =>
      let id := get_id f in
      if id >=? PMEM_MAX_DEVICES then false
      else (f_major f =? MISC_MAJOR) && (f_minor f =? dev_minor (dev w id))
  end.

Definition has_allocation (f : file) : bool :=
  match private_data f with None => false | Some d => negb (index d <? 0) end.

Definition is_master_owner (e : env) (w : world) (f : file) : bool :=
  if negb (is_pmem_file w (Some f)) || negb (has_allocation f) then false
  else
    match private_data f with
    | None => false
    | Some d =>
        if has_flag d PMEM_FLAGS_MASTERMAP then true
        else match fget e (master_fd d) with
             | None => false
             | Some mf => bool_decide (master_file d = Some mf)
             end
    end.

(** ** Addresses *)

Definition pmem_start_addr (pm : pmem_info) (d : pmem_data) : Z :=
  if no_allocator pm then PMEM_START_ADDR pm 0 else PMEM_START_ADDR pm (index d).

Definition pmem_start_vaddr (pm : pmem_info) (d : pmem_data) : Z :=
  u32 (pmem_start_addr pm d - base pm + vbase pm).

Definition pmem_len (e : env) (pm : pmem_info) (d : pmem_data) : Z :=
  if no_allocator pm then u32 (index d) else PMEM_LEN (past e) pm (index d).

Definition PMEM_IS_PAGE_ALIGNED (addr : Z) : bool := Z.land addr (PAGE_SIZE - 1) =? 0.

(** ** Page tables

    The three services of the memory management code the driver uses, on the
    entries written through one mapping. *)

(** vm_insert_pfn: only inside of the mapping, only where nothing is mapped. *)
Definition vm_insert_pfn (e : env) (v : vm_area) (addr pfn : Z) : vm_area * Z :=
  if (addr <? vm_start v) || (addr >=? vm_end v) then (v, - EFAULT)
  else if negb (pte_alloc e addr) then (v, - ENOMEM)
  else match ptes v !! addr with
       | Some _ => (v, - EBUSY)
       | None => (mk_vma (vm_start v) (vm_end v) (vm_pgoff v) (vm_ops v) (<[addr := pfn]> (ptes v)), 0)
       end.

(** zap_page_range: clears the entries of [address, address + size) that are
    inside of the mapping; an end that wrapped below the start clears none. *)
Definition zap_page_range (v : vm_area) (address size : Z) : vm_area :=
  let stop := u32 (address + size) in
  mk_vma (vm_start v) (vm_end v) (vm_pgoff v) (vm_ops v)
    (filter (λ p, ¬ (address ≤ p.1 < stop ∧ vm_start v ≤ p.1 < vm_end v)) (ptes v)).

(** io_remap_pfn_range: writes the entries whether or not they are inside of
    the mapping; an entry that is already there is a BUG. *)
Fixpoint remap_pte_range (n : nat) (done addr pfn : Z) (m : gmap Z Z) : option (gmap Z Z * Z) :=
  match n with
  | O => Some (m, 0)
  | S n =>
      if done <=? 0 then Some (m, - ENOMEM)
      else match m !! addr with
           | Some _ => None
           | None => remap_pte_range n (done - 1) (u32 (addr + PAGE_SIZE)) (pfn + 1) (<[addr := pfn]> m)
           end
  end.

Definition io_remap_pfn_range (e : env) (v : vm_area) (addr pfn size : Z) : option (vm_area * Z) :=
  '(m, ret) ← remap_pte_range (Z.to_nat (Z.shiftr size PAGE_SHIFT)) (remap_pages e addr) addr pfn (ptes v);
  Some (mk_vma (vm_start v) (vm_end v) (vm_pgoff v) (vm_ops v) m, ret).

(** ** Mapping *)

Fixpoint map_garbage_loop (e : env) (pm : pmem_info) (n : nat) (v : vm_area) (addr : Z) : vm_area * Z :=
  match n with
  | O => (v, 0)
  | S n =>
      let '(v, ret) := vm_insert_pfn e v addr (garbage_pfn pm) in
      if ctrue ret then (v, - EAGAIN) else map_garbage_loop e pm n v (u32 (addr + PAGE_SIZE))
  end.

Definition pmem_map_garbage (e : env) (pm : pmem_info) (v : vm_area) (offset len : Z) : vm_area * Z :=
  map_garbage_loop e pm (Z.to_nat (Z.shiftr len PAGE_SHIFT)) v (u32 (vm_start v + offset)).

Definition pmem_unmap_pfn_range (e : env) (pm : pmem_info) (v : vm_area) (offset len : Z)
    : option (vm_area * Z) :=
  if negb (PMEM_IS_PAGE_ALIGNED len) then None
  else
    let v := zap_page_range v (u32 (vm_start v + offset)) len in
    let '(v, _) := pmem_map_garbage e pm v offset len in
    Some (v, 0).

Definition pmem_map_pfn_range (e : env) (pm : pmem_info) (v : vm_area) (d : pmem_data) (offset len : Z)
    : option (vm_area * Z) :=
  if negb (PMEM_IS_PAGE_ALIGNED (vm_start v)) || negb (PMEM_IS_PAGE_ALIGNED (vm_end v)) ||
     negb (PMEM_IS_PAGE_ALIGNED len) || negb (PMEM_IS_PAGE_ALIGNED offset) then None
  else
    '(v, ret) ← io_remap_pfn_range e v (u32 (vm_start v + offset))
                  (Z.shiftr (u32 (pmem_start_addr pm d + offset)) PAGE_SHIFT) len;
    Some (v, if ctrue ret then - EAGAIN else 0).

Definition pmem_remap_pfn_range (e : env) (pm : pmem_info) (v : vm_area) (d : pmem_data) (offset len : Z)
    : option (vm_area * Z) :=
  pmem_map_pfn_range e pm (zap_page_range v (u32 (vm_start v + offset)) len) d offset len.

Definition pmem_vma_open (e : env) (w : world) (fid vid : Z) : option world :=
  f ← files w !! fid; v ← vmas w !! vid;
  if negb (has_allocation f) then None
  else
    '(v, _) ← pmem_unmap_pfn_range e (dev w (get_id f)) v 0 (u32 (vm_start v - vm_end v));
    Some (set_vmas w (<[vid := v]> (vmas w))).

Definition pmem_vma_close (w : world) (fid vid : Z) : option world :=
  f ← files w !! fid;
  if negb (is_pmem_file w (Some f)) || negb (has_allocation f) then Some w
  else
    d ← private_data f;
    if bool_decide (vma d = Some vid) then
      let d := set_vma d None in
      Some (set_data w fid
        (if has_flag d PMEM_FLAGS_CONNECTED && has_flag d PMEM_FLAGS_SUBMAP
         then add_flag d PMEM_FLAGS_UNSUBMAP else d))
    else Some w.

(** ** Opening and mapping a file *)

Definition pmem_open (e : env) (w : world) (fid : Z) : option (world * Z) :=
  f ← files w !! fid;
  match private_data f with
  | Some _ => Some (w, -1)
  | None =>
      if negb (kmalloc e) then Some (w, -1)
      else
        let d := mk_data (-1) 0 None None 0 0 None [] 0 in
        let w := set_data w fid d in
        let pm := dev w (get_id f) in
        Some (set_dev w (get_id f) (set_data_list pm (fid :: data_list pm)), 0)
  end.

(** The regions of a client are mapped over the garbage pages. *)
Fixpoint remap_regions (e : env) (pm : pmem_info) (d : pmem_data) (l : list pmem_region) (v : vm_area)
    : option (vm_area * Z) :=
  match l with
  | [] => Some (v, 0)
  | r :: l =>
      '(v, ret) ← pmem_remap_pfn_range e pm v d (offset r) (len r);
      if ctrue ret then Some (v, - EAGAIN) else remap_regions e pm d l v
  end.

(** [if (data && data->index == -1)]: allocation on the first mmap. *)
Definition mmap_allocate (e : env) (w : world) (id fid : Z) (d : pmem_data) (size : Z)
    : option (world * pmem_data) :=
  if index d =? -1 then
    '(pm, i) ← pmem_allocate (past e) (dev w id) size;
    let d := set_index d i in
    Some (set_data (set_dev w id pm) fid d, d)
  else Some (w, d).

(** The two kinds of mapping: a client gets garbage pages and the regions
    granted so far, any other file the whole block. *)
Definition mmap_map (e : env) (pm : pmem_info) (d : pmem_data) (vid vma_size : Z) (v : vm_area)
    : option (vm_area * pmem_data * Z) :=
  if has_flag d PMEM_FLAGS_CONNECTED then
    let '(v, ret) := pmem_map_garbage e pm v 0 vma_size in
    if ctrue ret then Some (v, d, - EAGAIN)
    else
      '(v, ret) ← remap_regions e pm d (region_list d) v;
      if ctrue ret then Some (v, d, - EAGAIN)
      else
        let d := add_flag d PMEM_FLAGS_SUBMAP in
        let d := set_pid (set_vma (set_task d (Some (cur_leader e))) (Some vid)) (cur_pid e) in
        Some (v, d, 0)
  else
    '(v, ret) ← pmem_map_pfn_range e pm v d 0 vma_size;
    if ctrue ret then Some (v, d, - EAGAIN)
    else Some (v, set_pid (add_flag d PMEM_FLAGS_MASTERMAP) (cur_pid e), 0).

Definition pmem_mmap (e : env) (w : world) (fid vid : Z) : option (world * Z) :=
  f ← files w !! fid; v ← vmas w !! vid;
  let vma_size := u32 (vm_end v - vm_start v) in
  let id := get_id f in
  if ctrue (vm_pgoff v) || negb (PMEM_IS_PAGE_ALIGNED vma_size) then Some (w, - EINVAL)
  else
    d ← private_data f;
    if has_flag d PMEM_FLAGS_SUBMAP || has_flag d PMEM_FLAGS_UNSUBMAP then Some (w, - EINVAL)
    else
      '(w, d) ← mmap_allocate e w id fid d vma_size;
      let pm := dev w id in
      if index d <? 0 then Some (w, - EINVAL)
      else if pmem_len e pm d <? vma_size then Some (w, - EINVAL)
      else
        let v := mk_vma (vm_start v) (vm_end v) (Z.shiftr (pmem_start_addr pm d) PAGE_SHIFT)
                   (vm_ops v) (ptes v) in
        '(v, d, ret) ← mmap_map e pm d vid vma_size v;
        let v := if ctrue ret then v
                 else mk_vma (vm_start v) (vm_end v) (vm_pgoff v) true (ptes v) in
        Some (set_data (set_vmas w (<[vid := v]> (vmas w))) fid d, ret).

(** ** The interface for other drivers *)

Definition get_pmem_user_addr (w : world) (fid : Z) : option (Z * (Z * Z)) :=
  match files w !! fid with
  | None => Some (-1, (0, 0))
  | Some f =>
      if negb (is_pmem_file w (Some f)) || negb (has_allocation f) then Some (-1, (0, 0))
      else
        d ← private_data f;
        match vma d with
        | Some vid => v ← vmas w !! vid; Some (0, (vm_start v, u32 (vm_end v - vm_start v)))
        | None => Some (0, (0, 0))
        end
  end.

(** Returns start, virtual start and length, and takes a reference. *)
Definition get_pmem_addr (e : env) (w : world) (fid : Z) : option (world * Z * option (Z * Z * Z)) :=
  match files w !! fid with
  | None => Some (w, -1, None)
  | Some f =>
      if negb (is_pmem_file w (Some f)) || negb (has_allocation f) then Some (w, -1, None)
      else
        d ← private_data f;
        if index d =? -1 then Some (w, -1, None)
        else
          let pm := dev w (get_id f) in
          Some (set_data w fid (set_ref d (s32 (ref d + 1))), 0,
                Some (pmem_start_addr pm d, pmem_start_vaddr pm d, pmem_len e pm d))
  end.

Definition get_pmem_file (e : env) (w : world) (fd : Z) : option (world * Z * option (Z * (Z * Z * Z))) :=
  match fget e fd with
  | None => Some (w, -1, None)
  | Some fid =>
      '(w, ret, out) ← get_pmem_addr e w fid;
      if ctrue ret then Some (w, -1, None)
      else Some (w, 0, match out with Some a => Some (fid, a) | None => None end)
  end.

Definition put_pmem_file (w : world) (fid : Z) : option world :=
  f ← files w !! fid;
  if negb (is_pmem_file w (Some f)) then Some w
  else
    d ← private_data f;
    if ref d =? 0 then None else Some (set_data w fid (set_ref d (ref d - 1))).

(** The first granted region that contains the range. *)
Definition flush_region (d : pmem_data) (off n : Z) : option pmem_region :=
  find_first (λ r, (off >=? offset r) && (u32 (off + n) <=? u32 (offset r + len r)) = true) (region_list d).

(** The range given to dmac_flush_range, if any. *)
Definition flush_pmem_file (e : env) (w : world) (fid : Z) (off n : Z) : option (option (Z * Z)) :=
  f ← files w !! fid;
  if negb (is_pmem_file w (Some f)) || negb (has_allocation f) then Some None
  else
    d ← private_data f;
    let pm := dev w (get_id f) in
    if negb (cached pm) || f_sync f then Some None
    else
      let vaddr := pmem_start_vaddr pm d in
      if negb (has_flag d PMEM_FLAGS_CONNECTED) then Some (Some (vaddr, u32 (vaddr + pmem_len e pm d)))
      else
        match flush_region d off n with
        | None => Some None
        | Some r => Some (Some (u32 (vaddr + offset r), u32 (u32 (vaddr + offset r) + len r)))
        end.

(** ** Clients *)

Definition pmem_connect (e : env) (w : world) (connect fid : Z) : option (world * Z) :=
  f ← files w !! fid; d ← private_data f;
  match fget e connect with
  | None => Some (w, - EINVAL)
  | Some sid =>
      sf ← files w !! sid;
      if negb (is_pmem_file w (Some sf)) || negb (has_allocation sf) then Some (w, - EINVAL)
      else
        sd ← private_data sf;
        if has_allocation f && negb (index d =? index sd) then Some (w, - EINVAL)
        else
          let d := set_index d (index sd) in
          let d := add_flag d PMEM_FLAGS_CONNECTED in
          Some (set_data w fid (set_master d connect (Some sid)), 0)
  end.

(** Taking the semaphores of the address space and of the data.  [d1] is the
    data under the read lock, [d2] the data once both are held for writing. *)
Inductive lock_result :=
| Locked (mm : bool)              (* whether an address space is locked too *)
| LockRetry                       (* goto lock_mm *)
| LockFailed (d : pmem_data).

Definition pmem_lock_data_and_mm (e : env) (d1 d2 : pmem_data) : lock_result :=
  let mm := if PMEM_IS_SUBMAP d1
            then match task d1 with Some t => if task_has_mm e t then Some true else None | None => None end
            else Some false in
  match mm with
  | None => LockFailed d2
  | Some mm =>
      if PMEM_IS_SUBMAP d2 && negb mm then LockRetry
      else if has_flag d2 PMEM_FLAGS_UNSUBMAP && mm then
        LockFailed (if has_flag d2 PMEM_FLAGS_SUBMAP
                    then set_flags (set_task d2 None) (Z.land (flags d2) (Z.lnot PMEM_FLAGS_SUBMAP))
                    else d2)
      else Locked mm
  end.

Inductive region_op := PMEM_MAP | PMEM_UNMAP.

(** The change of the list of regions. *)
Definition remap_list (e : env) (d : pmem_data) (r : pmem_region) (op : region_op) : pmem_data * Z :=
  match op with
  | PMEM_MAP => if kmalloc e then (set_regions d (r :: region_list d), 0) else (d, - ENOMEM)
  | PMEM_UNMAP =>
      let keep := filter (λ x, ¬ (len r = 0 ∨ offset x = offset r ∧ len x = len r)) (region_list d) in
      if bool_decide (keep = region_list d) then (d, - EINVAL) else (set_regions d keep, 0)
  end.

(** The part of [pmem_remap] that runs with the semaphores held. *)
Definition pmem_remap_locked (e : env) (w : world) (r : pmem_region) (fid : Z) (f : file)
    (d : pmem_data) (op : region_op) : option (world * Z) :=
  let pm := dev w (get_id f) in
  if negb (is_master_owner e w f) then Some (w, - EINVAL)
  else
    let plen := pmem_len e pm d in
    if (offset r >? plen) || (len r >? plen) || (u32 (offset r + len r) >? plen)
    then Some (w, - EINVAL)
    else
      let '(d, ret) := remap_list e d r op in
      if ctrue ret then Some (w, ret)
      else
        let w := set_data w fid d in
        match vma d with
        | Some vid =>
            if PMEM_IS_SUBMAP d then
              v ← vmas w !! vid;
              '(v, ret) ← match op with
                          | PMEM_MAP => pmem_remap_pfn_range e pm v d (offset r) (len r)
                          | PMEM_UNMAP => pmem_unmap_pfn_range e pm v (offset r) (len r)
                          end;
              Some (set_vmas w (<[vid := v]> (vmas w)), ret)
            else Some (w, 0)
        | None => Some (w, 0)
        end.

Definition pmem_remap (e : env) (w : world) (r : pmem_region) (fid : Z) (op : region_op)
    : option (world * Z) :=
  f ← files w !! fid; d ← private_data f;
  if negb (PMEM_IS_PAGE_ALIGNED (offset r)) || negb (PMEM_IS_PAGE_ALIGNED (len r)) then Some (w, - EINVAL)
  else if len r =? 0 then Some (w, 0)
  else
    match pmem_lock_data_and_mm e d d with
    | LockRetry => None
    | LockFailed d => Some (set_data w fid d, 0)
    | Locked _ => pmem_remap_locked e w r fid f d op
    end.

(** The regions of a client are given back to the garbage page. *)
Fixpoint revoke_regions (e : env) (pm : pmem_info) (l : list pmem_region) (v : vm_area) : option vm_area :=
  match l with
  | [] => Some v
  | r :: l => '(v, _) ← pmem_unmap_pfn_range e pm v (offset r) (len r); revoke_regions e pm l v
  end.

(** [pmem_revoke(file, data)]: [id] is the device of the master, [cid] the
    client whose data it is. *)
Definition pmem_revoke (e : env) (w : world) (id cid : Z) (d : pmem_data) : option world :=
  let d := set_master d (master_fd d) None in
  let w := set_data w cid d in
  match pmem_lock_data_and_mm e d d with
  | LockRetry => None
  | LockFailed d => Some (set_data w cid d)
  | Locked _ =>
      match vma d with
      | None => Some w
      | Some vid =>
          v ← vmas w !! vid;
          v ← revoke_regions e (dev w id) (region_list d) v;
          Some (set_data (set_vmas w (<[vid := v]> (vmas w))) cid (set_regions d []))
      end
  end.

(** The loop over the files of the device. *)
Fixpoint revoke_clients (e : env) (w : world) (id fid : Z) (l : list Z) : option world :=
  match l with
  | [] => Some w
  | cid :: l =>
      cf ← files w !! cid; cd ← private_data cf;
      w ← (if PMEM_IS_SUBMAP cd && bool_decide (master_file cd = Some fid)
           then pmem_revoke e w id cid cd else Some w);
      revoke_clients e w id fid l
  end.

(** Taking the file off its device's list, giving its block back, and
    dropping its data. *)
Definition release_tail (e : env) (w : world) (fid : Z) : option (world * Z) :=
  f ← files w !! fid; d ← private_data f;
  let id := get_id f in
  let pm := dev w id in
  let pm := set_data_list pm (filter (λ i, i ≠ fid) (data_list pm)) in
  let w := set_dev w id pm in
  '(w, ret) ← (if negb (has_flag d PMEM_FLAGS_CONNECTED) && has_allocation f then
                 '(pm, ret) ← pmem_free (past e) pm (index d); Some (set_dev w id pm, ret)
               else Some (w, 0));
  Some (set_files w (<[fid := mk_file (f_major f) (f_minor f) (f_sync f) None]> (files w)), ret).

Definition pmem_release (e : env) (w : world) (fid : Z) : option (world * Z) :=
  f ← files w !! fid; d ← private_data f;
  let id := get_id f in
  w ← (if has_flag d PMEM_FLAGS_MASTERMAP then revoke_clients e w id fid (data_list (dev w id)) else Some w);
  release_tail e w fid.

(** ** The ioctl *)

Definition pmem_get_size (e : env) (w : world) (f : file) : pmem_region :=
  if negb (has_allocation f) then mk_region 0 0
  else match private_data f with
       | None => mk_region 0 0
       | Some d => let pm := dev w (get_id f) in mk_region (pmem_start_addr pm d) (pmem_len e pm d)
       end.

Inductive ioctl_cmd :=
| IOC_GET_PHYS | IOC_MAP | IOC_UNMAP | IOC_GET_SIZE | IOC_GET_TOTAL_SIZE
| IOC_ALLOCATE | IOC_CONNECT | IOC_CACHE_FLUSH | IOC_OTHER.

(** [arg] is the number passed by the caller; where it is a pointer,
    [user_in] is the region read there ([None]: the copy faults) and
    [user_ok] says whether it can be written.  The result carries the region
    copied out and the range flushed. *)
Definition pmem_ioctl (e : env) (w : world) (fid : Z) (cmd : ioctl_cmd) (arg : Z)
    (user_in : option pmem_region) (user_ok : bool)
    : option (world * Z * option pmem_region * option (Z * Z)) :=
  f ← files w !! fid;
  let id := get_id f in
  let out r := if user_ok then Some (w, 0, Some r, None) else Some (w, - EFAULT, None, None) in
  match cmd with
  | IOC_GET_PHYS | IOC_GET_SIZE => out (pmem_get_size e w f)
  | IOC_MAP | IOC_UNMAP =>
      match user_in with
      | None => Some (w, - EFAULT, None, None)
      | Some r =>
          '(w, ret) ← pmem_remap e w r fid (match cmd with IOC_MAP => PMEM_MAP | _ => PMEM_UNMAP end);
          Some (w, ret, None, None)
      end
  | IOC_GET_TOTAL_SIZE => out (mk_region 0 (size (dev w id)))
  | IOC_ALLOCATE =>
      if has_allocation f then Some (w, - EINVAL, None, None)
      else
        d ← private_data f;
        '(pm, i) ← pmem_allocate (past e) (dev w id) arg;
        Some (set_data (set_dev w id pm) fid (set_index d i), 0, None, None)
  | IOC_CONNECT => '(w, ret) ← pmem_connect e w arg fid; Some (w, ret, None, None)
  | IOC_CACHE_FLUSH =>
      match user_in with
      | None => Some (w, - EFAULT, None, None)
      | Some r => rg ← flush_pmem_file e w fid (offset r) (len r); Some (w, 0, None, rg)
      end
  | IOC_OTHER => Some (w, - EINVAL, None, None)
  end.

(** A new device takes the next slot of the table. *)
Definition pmem_probe (e : env) (w : world) (id : Z) (pdata : pmem_platform_data) (senv : setup_env)
    : option (world * Z) :=
  if id <? PMEM_MAX_DEVICES then
    '(pm, ret) ← pmem_setup (past e) pdata senv id; Some (set_dev w id pm, ret)
  else None.

(** ** Who owns a block

    A file that is not connected to another one and has an allocation owns it:
    it is the one that gives it back. *)

Definition owner (w : world) (id fid i : Z) : Prop :=
  ∃ f d, files w !! fid = Some f ∧ private_data f = Some d ∧ f_minor f = id ∧
    has_flag d PMEM_FLAGS_CONNECTED = false ∧ index d = i ∧ 0 ≤ i.

(** A device and its owners.  With the allocator, every owner's index is the
    start of a block that is handed out, and no two owners have the same one.
    Without it there is one owner at most, and the device is marked taken. *)
Definition dev_ok (pm : pmem_info) (m : blocks) (own : Z → Z → Prop) : Prop :=
  if no_allocator pm then
    ∀ fid i, own fid i → dev_allocated pm = true ∧ ∀ fid' i', own fid' i' → fid' = fid
  else
    rep past_busy pm m ∧ (∀ fid i, own fid i → is_Some (m !! i)) ∧
    (∀ fid fid' i, own fid i → own fid' i → fid = fid').

Definition world_ok (w : world) : Prop :=
  zlen (pmem w) = PMEM_MAX_DEVICES ∧
  (∀ fid f d, files w !! fid = Some f → private_data f = Some d → 0 ≤ f_minor f < PMEM_MAX_DEVICES) ∧
  ∃ ms : Z → blocks, ∀ id, 0 ≤ id < PMEM_MAX_DEVICES → dev_ok (dev w id) (ms id) (owner w id).

Lemma dev_ok_mono pm m (own own' : Z → Z → Prop) :
  (∀ fid i, own' fid i → own fid i) → dev_ok pm m own → dev_ok pm m own'.
Proof.
  unfold dev_ok. intros Hsub. destruct (no_allocator pm).
  - intros Hok fid i Ho. destruct (Hok fid i (Hsub _ _ Ho)) as [? Huniq]. eauto.
  - intros (Hrep & Hin & Hinj). split_and!; eauto.
Qed.

(** Only the table and the flag of a device matter. *)
Lemma dev_ok_data_list pm m own l : dev_ok (set_data_list pm l) m own ↔ dev_ok pm m own.
Proof. done. Qed.

Lemma dev_set_dev w id pm j :
  zlen (pmem w) = PMEM_MAX_DEVICES → 0 ≤ id < PMEM_MAX_DEVICES → 0 ≤ j →
  dev (set_dev w id pm) j = if id =? j then pm else dev w j.
Proof. intros Hl Hid Hj. unfold dev, set_dev. simpl. apply znth_zset; lia. Qed.

(** The data of one file changes; [mk] says how the file then looks. *)
Lemma lookup_set_data w fid d fid' f' :
  files (set_data w fid d) !! fid' = Some f' →
  (fid' ≠ fid ∧ files w !! fid' = Some f') ∨
  (fid' = fid ∧ ∃ f, files w !! fid = Some f ∧ f' = mk_file (f_major f) (f_minor f) (f_sync f) (Some d)).
Proof.
  unfold set_data; simpl. destruct (decide (fid' = fid)) as [->|Hne].
  - rewrite lookup_alter_eq. destruct (files w !! fid) as [f|]; [|done]. intros [= <-]. eauto.
  - rewrite lookup_alter_ne by done. eauto.
Qed.

(** New data that owns nothing, or what the old data owned. *)
Definition owns_no_more (d d' : pmem_data) : Prop :=
  has_flag d' PMEM_FLAGS_CONNECTED = true ∨ index d' < 0 ∨
  (has_flag d' PMEM_FLAGS_CONNECTED = has_flag d PMEM_FLAGS_CONNECTED ∧ index d' = index d).

Lemma owner_set_data w fid f d d' :
  files w !! fid = Some f → private_data f = Some d → owns_no_more d d' →
  ∀ id fid' i, owner (set_data w fid d') id fid' i → owner w id fid' i.
Proof.
  intros Hf Hd Hno id fid' i (f1 & d1 & Hf1 & Hd1 & Hid & Hc & Hi & Hpos).
  apply lookup_set_data in Hf1 as [[Hne Hf1]|(-> & f2 & Hf2 & ->)]; [by exists f1, d1|].
  rewrite Hf in Hf2. injection Hf2 as <-. simpl in *. injection Hd1 as <-. exists f, d.
  destruct Hno as [?|[?|[Hc' Hi']]]; [congruence|lia|]. split_and!; congruence || done.
Qed.

(** A step that leaves the devices alone and creates no owner. *)
Lemma world_ok_files w w' :
  world_ok w → pmem w' = pmem w →
  (∀ fid f d, files w' !! fid = Some f → private_data f = Some d → 0 ≤ f_minor f < PMEM_MAX_DEVICES) →
  (∀ id fid i, owner w' id fid i → owner w id fid i) → world_ok w'.
Proof.
  intros (Hlen & _ & ms & Hok) Hp Hids Hsub. split; [by rewrite Hp|]. split; [done|].
  exists ms. intros id Hid. unfold dev. rewrite Hp. eapply dev_ok_mono; [apply Hsub|]. by apply Hok.
Qed.

Lemma ids_set_data w fid f d d' :
  (∀ fid f d, files w !! fid = Some f → private_data f = Some d → 0 ≤ f_minor f < PMEM_MAX_DEVICES) →
  files w !! fid = Some f → private_data f = Some d →
  ∀ fid1 f1 d1, files (set_data w fid d') !! fid1 = Some f1 → private_data f1 = Some d1 →
    0 ≤ f_minor f1 < PMEM_MAX_DEVICES.
Proof.
  intros Hids Hf Hd fid' f' d'' Hl Hd''.
  apply lookup_set_data in Hl as [[_ Hl]|(-> & f2 & Hf2 & ->)]; [eauto|]. simplify_eq. simpl. eauto.
Qed.

Lemma world_ok_set_data w fid f d d' :
  world_ok w → files w !! fid = Some f → private_data f = Some d → owns_no_more d d' →
  world_ok (set_data w fid d').
Proof.
  intros Hok Hf Hd Hno. apply (world_ok_files w); [done|done| |].
  - destruct Hok as (_ & Hids & _). eapply ids_set_data; eauto.
  - eapply owner_set_data; eauto.
Qed.

Lemma world_ok_set_vmas w v : world_ok w → world_ok (set_vmas w v).
Proof. done. Qed.

(** A file without an allocation gets the one [pmem_allocate] returned. *)
Lemma world_ok_allocate e w fid f d n pm i :
  world_ok w → files w !! fid = Some f → private_data f = Some d → index d < 0 → 0 ≤ n < 2 ^ 32 →
  pmem_allocate (past e) (dev w (f_minor f)) n = Some (pm, i) →
  world_ok (set_data (set_dev w (f_minor f) pm) fid (set_index d i)).
Proof.
  intros (Hlen & Hids & ms & Hok) Hf Hd Hneg Hn Hrun. pose proof (Hids _ _ _ Hf Hd) as Hid.
  set (id := f_minor f) in *. specialize (Hok id Hid) as Hdev.
  assert (Hown : ∀ j fid' k, owner (set_data (set_dev w id pm) fid (set_index d i)) j fid' k →
    (fid' ≠ fid ∧ owner w j fid' k) ∨ (fid' = fid ∧ j = id ∧ k = i ∧ 0 ≤ i)).
  { intros j fid' k (f1 & d1 & Hf1 & Hd1 & Hj & Hc & Hk & Hpos).
    apply lookup_set_data in Hf1 as [[Hne Hf1]|(-> & f2 & Hf2 & ->)]; [left; split; [done|by exists f1, d1]|].
    simpl in *. simplify_eq. simpl in *. auto. }
  assert (Hnot : ∀ j k, ¬ owner w j fid k).
  { intros j k (f1 & d1 & ? & ? & ? & ? & ? & ?). simplify_eq. lia. }
  split; [simpl; by rewrite zlen_zset|]. split.
  { eapply (ids_set_data (set_dev w id pm)); [exact Hids|exact Hf|exact Hd]. }
  exists (λ j, if j =? id then (if no_allocator pm then ms id else
     if i <? 0 then ms id else <[i := pmem_order n]> (ms id)) else ms j).
  intros j Hj. change (dev (set_data ?a _ _) j) with (dev a j). rewrite dev_set_dev by (done || lia).
  rewrite Z.eqb_sym. destruct (Z.eqb_spec j id) as [->|Hne].
  2: { eapply dev_ok_mono; [|by apply Hok]. intros fid' k Ho. destruct (Hown _ _ _ Ho) as [[_ ?]|(_ & ? & _)]; done. }
  unfold dev_ok in Hdev |- *. destruct (no_allocator (dev w id)) eqn:Hna.
  - unfold pmem_allocate in Hrun. rewrite Hna in Hrun.
    destruct (_ || _) eqn:Hcond; injection Hrun as <- <-; simpl; rewrite Hna.
    + intros fid' k Ho. destruct (Hown _ _ _ Ho) as [[_ Ho']|(_ & _ & _ & ?)]; [|lia].
      destruct (Hdev _ _ Ho') as [? Huniq]. split; [done|]. intros fid2 k2 Ho2.
      destruct (Hown _ _ _ Ho2) as [[_ Ho2']|(_ & _ & _ & ?)]; [eauto|lia].
    + zprop. assert (Hnone : ∀ fid' k, ¬ owner w id fid' k).
      { intros fid' k Ho. destruct (Hdev _ _ Ho). congruence. }
      intros fid' k Ho. split; [done|]. intros fid2 k2 Ho2.
      destruct (Hown _ _ _ Ho) as [[_ ?]|(-> & _)]; [exfalso; by eapply Hnone|].
      destruct (Hown _ _ _ Ho2) as [[_ ?]|(-> & _)]; [exfalso; by eapply Hnone|done].
  - destruct Hdev as (Hrep & Hin & Hinj).
    destruct (allocate_rep (past e) (dev w id) (ms id) n (rep_past _ _ _ _ Hrep) Hna Hn)
      as (pm' & i' & Heq & Hcase).
    rewrite Heq in Hrun. injection Hrun as -> ->.
    destruct Hcase as [(-> & -> & _)|(Hfit & [bm ->] & Hrep')].
    + rewrite Hna. simpl. split; [done|]. split.
      * intros fid' k Ho. destruct (Hown _ _ _ Ho) as [[_ ?]|(_ & _ & _ & ?)]; [eauto|lia].
      * intros fid1 fid2 k Ho1 Ho2.
        destruct (Hown _ _ _ Ho1) as [[_ ?]|(_ & _ & _ & ?)]; [|lia].
        destruct (Hown _ _ _ Ho2) as [[_ ?]|(_ & _ & _ & ?)]; [eauto|lia].
    + simpl. rewrite Hna. pose proof (proj1 Hfit) as Hi0.
      assert (i <? 0 = false) as -> by lia.
      assert (Hfree : ∀ fid' , ¬ owner w id fid' i).
      { intros fid' Ho. destruct (Hin _ _ Ho) as [o Ho'].
        eapply (fits_lookup_none (num_entries (dev w id)) (ms id) i (pmem_order n)); try done.
        - pose proof (pmem_order_range n Hn). lia.
        - pose proof (rep_block _ _ _ _ _ Hrep Ho'). lia. }
      split; [by eapply rep_past|]. split.
      * intros fid' k Ho. destruct (Hown _ _ _ Ho) as [[_ Ho']|(_ & _ & -> & _)].
        -- destruct (decide (k = i)) as [->|]; [by rewrite lookup_insert_eq; eauto|].
           rewrite lookup_insert_ne by done. eauto.
        -- rewrite lookup_insert_eq. eauto.
      * intros fid1 fid2 k Ho1 Ho2.
        destruct (Hown _ _ _ Ho1) as [[_ Ho1']|(-> & _ & -> & _)], (Hown _ _ _ Ho2) as [[_ Ho2']|(-> & _ & ? & _)];
          subst; eauto; exfalso; by eapply Hfree.
Qed.

(** ** Steps that change no ownership *)

Definition same_owner (d d' : pmem_data) : Prop :=
  has_flag d' PMEM_FLAGS_CONNECTED = has_flag d PMEM_FLAGS_CONNECTED ∧ index d' = index d.

Definition tame (w w' : world) : Prop :=
  pmem w' = pmem w ∧
  ∀ fid f', files w' !! fid = Some f' →
    ∃ f, files w !! fid = Some f ∧ f_minor f' = f_minor f ∧
      match private_data f, private_data f' with
      | Some d, Some d' => same_owner d d'
      | None, None => True
      | _, _ => False
      end.

#[global] Instance tame_refl : Reflexive tame.
Proof.
  intros w. split; [done|]. intros fid f Hf. exists f. split_and!; try done. by destruct (private_data f).
Qed.

#[global] Instance tame_trans : Transitive tame.
Proof.
  intros w1 w2 w3 [Hp1 H1] [Hp2 H2]. split; [congruence|]. intros fid f3 Hf3.
  destruct (H2 _ _ Hf3) as (f2 & Hf2 & Hm2 & Hd2). destruct (H1 _ _ Hf2) as (f1 & Hf1 & Hm1 & Hd1).
  exists f1. split_and!; [done|congruence|].
  destruct (private_data f1), (private_data f2), (private_data f3); try done.
  destruct Hd1, Hd2. split; congruence.
Qed.

Lemma tame_world_ok w w' : tame w w' → world_ok w → world_ok w'.
Proof.
  intros [Hp Hf] Hok. apply (world_ok_files w); [done|done| |].
  - intros fid f' d' Hf' Hd'. destruct (Hf _ _ Hf') as (f & Hff & -> & Hm). rewrite Hd' in Hm.
    destruct (private_data f) as [d|] eqn:Hd; [|done]. destruct Hok as (_ & Hids & _). eauto.
  - intros id fid i (f' & d' & Hf' & Hd' & Hid & Hc & Hi & Hpos).
    destruct (Hf _ _ Hf') as (f & Hff & Hmin & Hm). rewrite Hd' in Hm.
    destruct (private_data f) as [d|] eqn:Hd; [|done]. destruct Hm as [Hc' Hi'].
    exists f, d. split_and!; congruence || done.
Qed.

Lemma tame_set_data w fid f d d' :
  files w !! fid = Some f → private_data f = Some d → same_owner d d' → tame w (set_data w fid d').
Proof.
  intros Hf Hd Hs. split; [done|]. intros fid' f' Hf'.
  apply lookup_set_data in Hf' as [[Hne Hl]|(-> & f2 & Hf2 & ->)].
  - exists f'. split_and!; try done. by destruct (private_data f').
  - exists f2. split_and!; try done. rewrite Hf in Hf2. injection Hf2 as <-. by rewrite Hd.
Qed.

Lemma tame_set_vmas w v : tame w (set_vmas w v).
Proof. exact (tame_refl w). Qed.

Lemma lookup_set_data_eq w fid f d :
  files w !! fid = Some f →
  files (set_data w fid d) !! fid = Some (mk_file (f_major f) (f_minor f) (f_sync f) (Some d)).
Proof. intros Hf. unfold set_data; simpl. by rewrite lookup_alter_eq, Hf. Qed.

(** Setting or clearing another flag leaves the connected flag alone. *)
Lemma connected_lor d g :
  Z.land g PMEM_FLAGS_CONNECTED = 0 → same_owner d (add_flag d g).
Proof.
  intros Hg. split; [|done]. unfold has_flag, add_flag; simpl. by rewrite Z.land_lor_distr_l, Hg, Z.lor_0_r.
Qed.

Lemma connected_land d g t :
  Z.land g PMEM_FLAGS_CONNECTED = PMEM_FLAGS_CONNECTED →
  same_owner d (set_flags (set_task d t) (Z.land (flags d) g)).
Proof. intros Hg. split; [|done]. unfold has_flag; simpl. by rewrite <- Z.land_assoc, Hg. Qed.

Lemma lock_failed_owner e d1 d d' : pmem_lock_data_and_mm e d1 d = LockFailed d' → same_owner d d'.
Proof.
  unfold pmem_lock_data_and_mm. intros. repeat case_match; simplify_eq; first [by split|by apply connected_land].
Qed.

Lemma remap_list_owner e d r op d' ret : remap_list e d r op = (d', ret) → same_owner d d'.
Proof. unfold remap_list. intros. repeat case_match; simplify_eq; by split. Qed.

Lemma vma_close_tame w fid vid w' : pmem_vma_close w fid vid = Some w' → tame w w'.
Proof.
  unfold pmem_vma_close. intros Hrun. destruct (files w !! fid) as [f|] eqn:Hf; [|done]. simpl in Hrun.
  case_match; [by simplify_eq|]. destruct (private_data f) as [d|] eqn:Hd; [|done]. simpl in Hrun.
  case_match; [|by simplify_eq]. injection Hrun as <-. apply (tame_set_data w fid f d); [done..|].
  destruct (has_flag _ _ && has_flag _ _); [by apply (connected_lor (set_vma d None))|by split].
Qed.

Lemma vma_open_tame e w fid vid w' : pmem_vma_open e w fid vid = Some w' → tame w w'.
Proof.
  unfold pmem_vma_open. intros Hrun. destruct (files w !! fid); [|done]. destruct (vmas w !! vid); [|done].
  simpl in Hrun. case_match; [done|]. destruct (pmem_unmap_pfn_range _ _ _ _ _) as [[v' ?]|]; [|done].
  injection Hrun as <-. apply tame_set_vmas.
Qed.

Lemma remap_locked_tame e w r fid f d op w' ret :
  files w !! fid = Some f → private_data f = Some d →
  pmem_remap_locked e w r fid f d op = Some (w', ret) → tame w w'.
Proof.
  intros Hf Hd Hrun. unfold pmem_remap_locked in Hrun. case_match; [by simplify_eq|].
  case_match; [by simplify_eq|]. destruct (remap_list e d r op) as [d' ret'] eqn:Hl.
  apply remap_list_owner in Hl. case_match; [by simplify_eq|].
  pose proof (tame_set_data w fid f d d' Hf Hd Hl) as Ht.
  destruct (vma d') as [vid|]; [|by simplify_eq]. case_match; [|by simplify_eq].
  destruct (vmas _ !! vid) as [v|]; [|done]. simpl in Hrun.
  destruct (match op with PMEM_MAP => _ | PMEM_UNMAP => _ end) as [[v' ?]|]; [|done].
  injection Hrun as <- _. by etrans; [|apply tame_set_vmas].
Qed.

Lemma remap_tame e w r fid op w' ret : pmem_remap e w r fid op = Some (w', ret) → tame w w'.
Proof.
  unfold pmem_remap. intros Hrun. destruct (files w !! fid) as [f|] eqn:Hf; [|done]. simpl in Hrun.
  destruct (private_data f) as [d|] eqn:Hd; [|done]. simpl in Hrun.
  case_match; [by simplify_eq|]. case_match; [by simplify_eq|].
  destruct (pmem_lock_data_and_mm e d d) as [| |d'] eqn:Hl; [|done|].
  - by eapply remap_locked_tame.
  - injection Hrun as <- _. apply lock_failed_owner in Hl. by apply (tame_set_data w fid f d).
Qed.

Lemma revoke_tame e w id cid f d w' :
  files w !! cid = Some f → private_data f = Some d → pmem_revoke e w id cid d = Some w' → tame w w'.
Proof.
  intros Hf Hd Hrun. unfold pmem_revoke in Hrun.
  set (d0 := set_master d (master_fd d) None) in *.
  assert (Ht : tame w (set_data w cid d0)) by (by apply (tame_set_data w cid f d)).
  pose proof (lookup_set_data_eq w cid f d0 Hf) as Hf0.
  destruct (pmem_lock_data_and_mm e d0 d0) as [| |d'] eqn:Hl; [|done|].
  - destruct (vma d0) as [vid|]; [|by simplify_eq].
    destruct (vmas _ !! vid) as [v|]; [|done]. simpl in Hrun.
    destruct (revoke_regions _ _ _ _) as [v'|]; [|done]. injection Hrun as <-.
    etrans; [done|]. etrans; [apply (tame_set_vmas _ (<[vid := v']> (vmas w)))|].
    by eapply (tame_set_data _ cid _ d0); [exact Hf0|..].
  - injection Hrun as <-. apply lock_failed_owner in Hl. etrans; [done|].
    by eapply (tame_set_data _ cid _ d0); [exact Hf0|..].
Qed.

Lemma revoke_clients_tame e w id fid l w' : revoke_clients e w id fid l = Some w' → tame w w'.
Proof.
  revert w. induction l as [|cid l IH]; intros w Hrun; simpl in Hrun; [by simplify_eq|].
  destruct (files w !! cid) as [cf|] eqn:Hf; [|done]. simpl in Hrun.
  destruct (private_data cf) as [cd|] eqn:Hd; [|done]. simpl in Hrun.
  destruct (if PMEM_IS_SUBMAP cd && _ then _ else _) as [w1|] eqn:Hw1; [|done]. simpl in Hrun.
  etrans; [|by apply IH]. case_match; [by eapply revoke_tame|by simplify_eq].
Qed.

Lemma mmap_map_owner e pm d vid n v v' d' ret :
  mmap_map e pm d vid n v = Some (v', d', ret) → same_owner d d'.
Proof.
  unfold mmap_map. intros Hrun. case_match.
  - destruct (pmem_map_garbage _ _ _ _ _) as [v1 ret1]. case_match; [by simplify_eq; split|].
    destruct (remap_regions _ _ _ _ _) as [[v2 ret2]|]; [|done]. simpl in Hrun.
    case_match; [by simplify_eq; split|]. injection Hrun as <- <- <-.
    by apply (connected_lor d PMEM_FLAGS_SUBMAP).
  - destruct (pmem_map_pfn_range _ _ _ _ _ _) as [[v1 ret1]|]; [|done]. simpl in Hrun.
    case_match; [by simplify_eq; split|]. injection Hrun as <- <- <-.
    by apply (connected_lor d PMEM_FLAGS_MASTERMAP).
Qed.

Lemma mmap_allocate_ok e w fid f d n w' d' :
  world_ok w → files w !! fid = Some f → private_data f = Some d → 0 ≤ n < 2 ^ 32 →
  mmap_allocate e w (get_id f) fid d n = Some (w', d') →
  world_ok w' ∧ ∃ f', files w' !! fid = Some f' ∧ private_data f' = Some d'.
Proof.
  intros Hok Hf Hd Hn Hrun. unfold mmap_allocate in Hrun.
  destruct (Z.eqb_spec (index d) (-1)) as [Hi|_]; [|injection Hrun as <- <-; eauto].
  destruct (pmem_allocate _ _ _) as [[pm i]|] eqn:Ha; [|done]. injection Hrun as <- <-. split.
  - eapply (world_ok_allocate e w fid f d n); eauto; lia.
  - eexists. split; [by apply lookup_set_data_eq|done].
Qed.

Lemma pmem_mmap_ok e w fid vid w' ret : world_ok w → pmem_mmap e w fid vid = Some (w', ret) → world_ok w'.
Proof.
  intros Hok Hrun. unfold pmem_mmap in Hrun. destruct (files w !! fid) as [f|] eqn:Hf; [|done].
  simpl in Hrun. destruct (vmas w !! vid) as [v|]; [|done]. simpl in Hrun. case_match; [by simplify_eq|].
  destruct (private_data f) as [d|] eqn:Hd; [|done]. simpl in Hrun. case_match; [by simplify_eq|].
  destruct (mmap_allocate _ _ _ _ _ _) as [[w1 d1]|] eqn:Ha; [|done]. simpl in Hrun.
  apply (mmap_allocate_ok _ _ _ _ _ _ _ _ Hok Hf Hd (u32_range _)) in Ha as [Hok1 (f1 & Hf1 & Hd1)].
  case_match; [by simplify_eq|]. case_match; [by simplify_eq|].
  destruct (mmap_map _ _ _ _ _ _) as [[[v1 d2] ret1]|] eqn:Hm; [|done]. simpl in Hrun.
  apply mmap_map_owner in Hm. injection Hrun as <- _.
  eapply tame_world_ok; [|exact Hok1]. etrans; [apply tame_set_vmas|].
  by eapply (tame_set_data _ fid f1 d1).
Qed.

Lemma connect_ok e w c fid w' ret : world_ok w → pmem_connect e w c fid = Some (w', ret) → world_ok w'.
Proof.
  intros Hok Hrun. unfold pmem_connect in Hrun. destruct (files w !! fid) as [f|] eqn:Hf; [|done].
  simpl in Hrun. destruct (private_data f) as [d|] eqn:Hd; [|done]. simpl in Hrun.
  destruct (fget e c) as [sid|]; [|by simplify_eq]. destruct (files w !! sid) as [sf|]; [|done].
  simpl in Hrun. case_match; [by simplify_eq|]. destruct (private_data sf) as [sd|]; [|done].
  simpl in Hrun. case_match; [by simplify_eq|]. injection Hrun as <- _.
  eapply world_ok_set_data; [done..|]. left. unfold has_flag, add_flag, ctrue; simpl.
  rewrite Z.land_lor_distr_l. destruct (Z.eqb_spec (Z.lor (Z.land (flags d) PMEM_FLAGS_CONNECTED)
    (Z.land PMEM_FLAGS_CONNECTED PMEM_FLAGS_CONNECTED)) 0) as [Hz|]; [|done].
  apply Z.lor_eq_0_iff in Hz as [_ Hz]. done.
Qed.

Lemma pmem_open_ok e w fid f w' ret :
  world_ok w → files w !! fid = Some f → 0 ≤ f_minor f < PMEM_MAX_DEVICES →
  pmem_open e w fid = Some (w', ret) → world_ok w'.
Proof.
  intros Hok Hf Hid Hrun. unfold pmem_open in Hrun. rewrite Hf in Hrun. simpl in Hrun.
  destruct (private_data f) as [d|] eqn:Hd; [by simplify_eq|]. case_match; [by simplify_eq|].
  injection Hrun as <- _. destruct Hok as (Hlen & Hids & ms & Hok).
  set (d0 := mk_data _ _ _ _ _ _ _ _ _). unfold get_id.
  assert (Hown : ∀ j fid' k, owner (set_data w fid d0) j fid' k → owner w j fid' k).
  { intros j fid' k (f1 & d1 & Hf1 & Hd1 & Hj & Hc & Hk & Hpos).
    apply lookup_set_data in Hf1 as [[Hne Hf1]|(-> & f2 & Hf2 & ->)]; [by exists f1, d1|].
    simpl in Hd1. injection Hd1 as <-. simpl in Hk. lia. }
  split; [simpl; by rewrite zlen_zset|]. split.
  - intros fid' f' d' Hf' Hd'. change (files (set_dev ?a _ _)) with (files a) in Hf'.
    apply lookup_set_data in Hf' as [[Hne Hf1]|(-> & f2 & Hf2 & ->)]; [eauto|]. simpl. congruence.
  - exists ms. intros j Hj. rewrite dev_set_dev by (done || lia).
    change (dev (set_data w fid d0)) with (dev w).
    eapply dev_ok_mono; [apply Hown|]. destruct (Z.eqb_spec (f_minor f) j) as [<-|]; by apply Hok.
Qed.

(** Closing a file. *)
Lemma owner_close w w' fid mj mn sy :
  files w' = <[fid := mk_file mj mn sy None]> (files w) →
  ∀ j fid' k, owner w' j fid' k → fid' ≠ fid ∧ owner w j fid' k.
Proof.
  intros Hfiles j fid' k (f & d & Hf & Hd & Hrest). rewrite Hfiles in Hf.
  destruct (decide (fid' = fid)) as [->|Hne].
  - rewrite lookup_insert_eq in Hf. injection Hf as <-. done.
  - rewrite lookup_insert_ne in Hf by done. split; [done|]. by exists f, d.
Qed.

(** Giving back what the file owned keeps the other owners. *)
Lemma dev_ok_free p pm m (own : Z → Z → Prop) fid i pm' ret :
  dev_ok pm m own → own fid i → pmem_free p pm i = Some (pm', ret) →
  ∃ m', dev_ok pm' m' (λ fid' k, fid' ≠ fid ∧ own fid' k).
Proof.
  intros Hok Hown Hrun. unfold dev_ok in Hok. destruct (no_allocator pm) eqn:Hna.
  - exists m. unfold pmem_free in Hrun. rewrite Hna in Hrun. injection Hrun as <- _.
    unfold dev_ok. simpl. rewrite Hna. intros fid' k [Hne Ho]. exfalso. apply Hne.
    by eapply (Hok fid i).
  - destruct Hok as (Hrep & Hin & Hinj). destruct (Hin _ _ Hown) as [o Ho].
    destruct (free_rep p pm m i o) as [(bm & Heq & Hrep')|[Heq _]]; [by eapply rep_past|done..| |congruence].
    rewrite Heq in Hrun. injection Hrun as <- _. exists (delete i m). unfold dev_ok. simpl. rewrite Hna.
    split; [by eapply rep_past|]. split.
    + intros fid' k [Hne Hk]. rewrite lookup_delete_ne; [eauto|]. intros <-. eauto.
    + intros fid1 fid2 k [_ H1] [_ H2]. eauto.
Qed.

Lemma release_tail_ok e w fid w' ret :
  world_ok w →
  release_tail e w fid = Some (w', ret) → world_ok w'.
Proof.
  intros (Hlen & Hids & ms & Hok) Hrun. unfold release_tail in Hrun.
  destruct (files w !! fid) as [f|] eqn:Hf; [|done]. simpl in Hrun.
  destruct (private_data f) as [d|] eqn:Hd; [|done]. simpl in Hrun.
  pose proof (Hids _ _ _ Hf Hd) as Hid. unfold get_id in Hrun. set (id := f_minor f) in *.
  set (pm := set_data_list (dev w id) _) in *.
  assert (∃ pm1 m1, w' = set_files (set_dev (set_dev w id pm) id pm1)
      (<[fid := mk_file (f_major f) id (f_sync f) None]> (files w)) ∧
      dev_ok pm1 m1 (λ fid' k, fid' ≠ fid ∧ owner w id fid' k)) as (pm1 & m1 & -> & Hpm1).
  { specialize (Hok id Hid) as Hdev. destruct (negb _ && has_allocation f) eqn:Hfree.
    - destruct (pmem_free (past e) pm (index d)) as [[pm1 r]|] eqn:Hpf; [|done]. simpl in Hrun.
      injection Hrun as <- _. apply andb_true_iff in Hfree as [Hc%negb_true_iff Ha].
      unfold has_allocation in Ha. rewrite Hd in Ha. apply negb_true_iff, Z.ltb_ge in Ha.
      destruct (dev_ok_free (past e) pm (ms id) (owner w id) fid (index d) pm1 r) as [m1 Hm1]; try done.
      { exists f, d. by split_and!. } by exists pm1, m1.
    - simpl in Hrun. injection Hrun as <- _. exists pm, (ms id). split.
      + unfold set_dev; simpl. unfold zset. by rewrite list_insert_insert_eq.
      + eapply dev_ok_mono; [|exact Hdev]. by intros fid' k [_ ?]. }
  assert (Hlen' : zlen (pmem (set_dev w id pm)) = PMEM_MAX_DEVICES) by (simpl; by rewrite zlen_zset).
  match goal with |- world_ok ?w' =>
    pose proof (owner_close w w' fid (f_major f) id (f_sync f) eq_refl) as Hown end.
  split; [simpl; by rewrite !zlen_zset|]. split.
  - intros fid' f' d' Hf' Hd'. simpl in Hf'. destruct (decide (fid' = fid)) as [->|Hne].
    + rewrite lookup_insert_eq in Hf'. injection Hf' as <-. done.
    + rewrite lookup_insert_ne in Hf' by done. eauto.
  - exists (λ j, if id =? j then m1 else ms j). intros j Hj.
    change (dev (set_files ?a _) j) with (dev a j). rewrite !dev_set_dev by (done || lia).
    destruct (Z.eqb_spec id j) as [<-|Hne]; (eapply dev_ok_mono; [|done || by apply Hok]);
      intros fid' k Ho; by apply Hown in Ho as [? ?].
Qed.


Lemma pmem_release_ok e w fid w' ret :
  world_ok w →
  pmem_release e w fid = Some (w', ret) → world_ok w'.
Proof.
  intros Hok Hrun. unfold pmem_release in Hrun. destruct (files w !! fid) as [f|]; [|done].
  simpl in Hrun. destruct (private_data f) as [d|]; [|done]. simpl in Hrun.
  destruct (if has_flag d _ then _ else _) as [w1|] eqn:Hw1; [|done]. simpl in Hrun.
  assert (Ht : tame w w1) by (case_match; [by eapply revoke_clients_tame|by simplify_eq]).
  eapply release_tail_ok; [by eapply tame_world_ok|done].
Qed.

Lemma pmem_ioctl_ok e w fid cmd arg uin uok w' ret out rg :
  world_ok w → 0 ≤ arg < 2 ^ 32 → pmem_ioctl e w fid cmd arg uin uok = Some (w', ret, out, rg) → world_ok w'.
Proof.
  intros Hok Harg Hrun. unfold pmem_ioctl in Hrun. destruct (files w !! fid) as [f|] eqn:Hf; [|done].
  simpl in Hrun. destruct cmd; try (by repeat case_match; simplify_eq).
  - destruct uin as [r|]; [|by simplify_eq]. destruct (pmem_remap _ _ _ _ _) as [[w1 ?]|] eqn:Hr; [|done].
    injection Hrun as <- _ _ _. by eapply tame_world_ok; [eapply remap_tame|].
  - destruct uin as [r|]; [|by simplify_eq]. destruct (pmem_remap _ _ _ _ _) as [[w1 ?]|] eqn:Hr; [|done].
    injection Hrun as <- _ _ _. by eapply tame_world_ok; [eapply remap_tame|].
  - destruct (has_allocation f) eqn:Ha; [by simplify_eq|]. destruct (private_data f) as [d|] eqn:Hd; [|done].
    simpl in Hrun. destruct (pmem_allocate _ _ _) as [[pm i]|] eqn:Hp; [|done]. injection Hrun as <- _ _ _.
    unfold has_allocation in Ha. rewrite Hd in Ha. apply negb_false_iff, Z.ltb_lt in Ha.
    by eapply (world_ok_allocate e w fid f d arg).
  - destruct (pmem_connect _ _ _ _) as [[w1 ?]|] eqn:Hc; [|done]. injection Hrun as <- _ _ _.
    by eapply connect_ok.
  - destruct uin as [r|]; [|by simplify_eq]. destruct (flush_pmem_file _ _ _ _ _); [|done].
    by injection Hrun as <- _ _ _.
Qed.

Lemma get_addr_tame e w fid w' ret out : get_pmem_addr e w fid = Some (w', ret, out) → tame w w'.
Proof.
  unfold get_pmem_addr. intros Hrun. destruct (files w !! fid) as [f|] eqn:Hf; [|by simplify_eq].
  destruct (_ || _); [by simplify_eq|]. destruct (private_data f) as [d|] eqn:Hd; [|done]. simpl in Hrun.
  destruct (_ =? _); [by simplify_eq|]. injection Hrun as <- _ _.
  apply (tame_set_data w fid f d); [done..|]. by split.
Qed.

Lemma put_tame w fid w' : put_pmem_file w fid = Some w' → tame w w'.
Proof.
  unfold put_pmem_file. intros Hrun. destruct (files w !! fid) as [f|] eqn:Hf; [|done]. simpl in Hrun.
  destruct (negb _); [by simplify_eq|]. destruct (private_data f) as [d|] eqn:Hd; [|done]. simpl in Hrun.
  destruct (_ =? _); [done|]. injection Hrun as <-. apply (tame_set_data w fid f d); [done..|]. by split.
Qed.

(** ** Runs *)

(** A table of devices of which each is unused or has been set up, and no file
    open. *)
Definition world_init (w : world) : Prop :=
  zlen (pmem w) = PMEM_MAX_DEVICES ∧
  (∀ fid f, files w !! fid = Some f → private_data f = None) ∧
  ∀ id, 0 ≤ id < PMEM_MAX_DEVICES → dev w id = pmem_unset ∨
    ∃ p pdata senv, 0 ≤ pd_size pdata < 2 ^ 32 ∧ pmem_setup p pdata senv id = Some (dev w id, 0).

(** One call into the driver, by any process; files and mappings come and go
    as the rest of the kernel creates and destroys them.  Calls are taken one after
    the other.  The code makes sure of that with semaphores, except for PMEM_ALLOCATE,
    which works on the table of blocks without bitmap_sem.  A call that follows a pointer
    to nowhere or writes outside of the table ([None]) is not a step. *)
Inductive step : world → world → Prop :=
| step_file w fid f : private_data f = None → files w !! fid = None →
    step w (set_files w (<[fid := f]> (files w)))
| step_vmas w v : step w (set_vmas w v)
| step_open e w fid f w' ret : files w !! fid = Some f → 0 ≤ f_minor f < PMEM_MAX_DEVICES →
    pmem_open e w fid = Some (w', ret) → step w w'
| step_release e w fid w' ret :
    pmem_release e w fid = Some (w', ret) → step w w'
| step_mmap e w fid vid w' ret : pmem_mmap e w fid vid = Some (w', ret) → step w w'
| step_ioctl e w fid cmd arg uin uok w' ret out rg : 0 ≤ arg < 2 ^ 32 →
    pmem_ioctl e w fid cmd arg uin uok = Some (w', ret, out, rg) → step w w'
| step_vma_open e w fid vid w' : pmem_vma_open e w fid vid = Some w' → step w w'
| step_vma_close w fid vid w' : pmem_vma_close w fid vid = Some w' → step w w'
| step_get e w fid w' ret out : get_pmem_addr e w fid = Some (w', ret, out) → step w w'
| step_put w fid w' : put_pmem_file w fid = Some w' → step w w'.

Lemma world_init_ok w : world_init w → world_ok w.
Proof.
  intros (Hlen & Hfiles & Hdevs). split; [done|].
  assert (Hno : ∀ id fid i, ¬ owner w id fid i).
  { intros id fid i (f & d & Hf & Hd & _). rewrite (Hfiles _ _ Hf) in Hd. done. }
  split; [intros fid f d Hf Hd; rewrite (Hfiles _ _ Hf) in Hd; done|].
  exists (λ _, ∅). intros id Hid. unfold dev_ok.
  destruct (no_allocator (dev w id)) eqn:Hna; [intros fid i Ho; by apply Hno in Ho|].
  split; [|split; intros *; intros Ho; by apply Hno in Ho].
  destruct (Hdevs id Hid) as [->|(p & pdata & senv & Hsz & Hset)].
  - split; [done|]. split; [done|]. exists ∅. split; [apply tiled_nil|]. split; [done|].
    intros i o. rewrite lookup_empty. split; [done|]. by intros [?%elem_of_empty _].
  - destruct (setup_rep p pdata senv id Hsz) as (pm & ret & Heq & _ & Hok). rewrite Heq in Hset.
    injection Hset as -> ->. eapply rep_past. by apply Hok.
Qed.

Lemma step_ok w w' : step w w' → world_ok w → world_ok w'.
Proof.
  destruct 1; intros Hok; eauto using tame_world_ok, vma_open_tame, vma_close_tame, get_addr_tame,
    put_tame, pmem_open_ok, pmem_release_ok, pmem_mmap_ok, pmem_ioctl_ok.
  apply (world_ok_files w); [done|done| |].
  - intros fid' f' d' Hf' Hd'. simpl in Hf'. destruct (decide (fid' = fid)) as [->|Hne].
    + rewrite lookup_insert_eq in Hf'. congruence.
    + rewrite lookup_insert_ne in Hf' by done. destruct Hok as (_ & Hids & _). eauto.
  - intros id fid' i (f' & d' & Hf' & Hd' & Hrest). simpl in Hf'. destruct (decide (fid' = fid)) as [->|Hne].
    + rewrite lookup_insert_eq in Hf'. congruence.
    + rewrite lookup_insert_ne in Hf' by done. by exists f', d'.
Qed.

(** C8: Exclusive ownership.  Whatever calls are made, by however many processes
    and with whatever failures, as long as they do not overlap in time (PMEM_ALLOCATE
    does not take bitmap_sem) and none of them leaves the table of blocks, two different files that own memory of the
    same device own disjoint blocks inside of it; a device without the
    allocator has one owner at most. *)
Theorem pmem_exclusive w0 w id fid1 fid2 i1 i2 :
  world_init w0 → rtc step w0 w → owner w id fid1 i1 → owner w id fid2 i2 → fid1 ≠ fid2 →
  let pm := dev w id in let n i := 2 ^ PMEM_ORDER past_busy (bitmap pm) i in
  no_allocator pm = false ∧ 0 ≤ i1 ∧ i1 + n i1 ≤ num_entries pm ∧ 0 ≤ i2 ∧ i2 + n i2 ≤ num_entries pm ∧
  (i1 + n i1 ≤ i2 ∨ i2 + n i2 ≤ i1).
Proof.
  intros Hinit Hrun Ho1 Ho2 Hne pm n.
  assert (Hok : world_ok w).
  { apply world_init_ok in Hinit. clear -Hinit Hrun. induction Hrun; eauto using step_ok. }
  assert (Hid : 0 ≤ id < PMEM_MAX_DEVICES).
  { destruct Ho1 as (f & d & Hf & Hd & <- & _). destruct Hok as (_ & Hids & _). eauto. }
  destruct Hok as (_ & _ & ms & Hok). specialize (Hok id Hid). unfold dev_ok in Hok. fold pm in Hok.
  destruct (no_allocator pm); [exfalso; apply Hne; by eapply (Hok fid2 i2)|].
  destruct Hok as (Hrep & Hin & Hinj). split; [done|].
  destruct (Hin _ _ Ho1) as [o1 H1], (Hin _ _ Ho2) as [o2 H2].
  destruct (rep_block _ _ _ _ _ Hrep H1) as (_ & _ & ? & ? & E1).
  destruct (rep_block _ _ _ _ _ Hrep H2) as (_ & _ & ? & ? & E2).
  unfold n. rewrite E1, E2. split_and!; try done. eapply rep_disjoint; [done..|].
  intros ->. by apply Hne, (Hinj _ _ i2).
Qed.

(** A world with one device of 11 pages and three files on it. *)
Definition example_env : env :=
  mk_env past_busy (λ fd, Some fd) 77 78 (λ _, true) true (λ _, true) (λ _, 1000).
Definition example_file : file := mk_file MISC_MAJOR 0 false None.
Definition example_world : world :=
  mk_world (example_pm :: replicate 9 pmem_unset)
    (<[1 := example_file]> (<[2 := example_file]> (<[3 := example_file]> ∅))) ∅.

Definition then_ {A} (w : world) (r : option (world * A)) : world :=
  match r with Some (w', _) => w' | None => w end.
Definition ioctl_ (w : world) fid cmd arg r : world :=
  match pmem_ioctl example_env w fid cmd arg r true with Some (w', _, _, _) => w' | None => w end.

Definition ex1 : world := then_ example_world (pmem_open example_env example_world 1).
Definition ex2 : world := then_ ex1 (pmem_open example_env ex1 2).
Definition ex3 : world := ioctl_ ex2 1 IOC_ALLOCATE 8192 None.
Definition ex4 : world := ioctl_ ex3 2 IOC_ALLOCATE 8192 None.

Lemma example_world_init : world_init example_world.
Proof.
  split; [reflexivity|]. split.
  - intros fid f Hf. unfold example_world in Hf; simpl in Hf.
    repeat (apply lookup_insert_Some in Hf as [[_ <-]|[_ Hf]]; [done|]). by rewrite lookup_empty in Hf.
  - intros id Hid. unfold dev, znth, example_world; simpl. destruct (Z.to_nat id) as [|n] eqn:E.
    + right. exists past_busy, example_pdata, example_senv. split; [simpl; lia|].
      replace id with 0 by lia. reflexivity.
    + left. do 9 (destruct n as [|n]; [done|]). destruct n; done.
Qed.

Lemma pmem_exclusive_witness :
  (8 + 2 ^ PMEM_ORDER past_busy (bitmap (dev ex4 0)) 8 ≤ 0 ∨ 0 + 2 ^ PMEM_ORDER past_busy (bitmap (dev ex4 0)) 0 ≤ 8).
Proof.
  apply (pmem_exclusive example_world ex4 0 1 2 8 0).
  - exact example_world_init.
  - apply (rtc_l _ _ ex1). { eapply (step_open example_env _ 1); vm_compute; reflexivity || (split; congruence). }
    apply (rtc_l _ _ ex2). { eapply (step_open example_env _ 2); vm_compute; reflexivity || (split; congruence). }
    apply (rtc_l _ _ ex3). { eapply (step_ioctl example_env _ 1 IOC_ALLOCATE 8192 None true); vm_compute; reflexivity || (split; congruence). }
    apply (rtc_l _ _ ex4). { eapply (step_ioctl example_env _ 2 IOC_ALLOCATE 8192 None true); vm_compute; reflexivity || (split; congruence). }
    apply rtc_refl.
  - eexists _, _. vm_compute. repeat split; try reflexivity; congruence.
  - eexists _, _. vm_compute. repeat split; try reflexivity; congruence.
  - lia.
Defined.

(** ** What a client sees *)

(** The pages [addr, addr + n pages) of a page-aligned address. *)
Definition in_pages (addr n k : Z) : Prop := addr ≤ k < addr + n * PAGE_SIZE ∧ (k - addr) mod PAGE_SIZE = 0.

#[global] Instance in_pages_dec addr n k : Decision (in_pages addr n k).
Proof. unfold in_pages. apply _. Defined.

Lemma in_pages_0 addr n k : n ≤ 0 → ¬ in_pages addr n k.
Proof. unfold in_pages, PAGE_SIZE. lia. Qed.

(** The first page, or one of the others. *)
Lemma in_pages_S addr n k :
  0 < n → in_pages addr n k ↔ k = addr ∨ in_pages (addr + PAGE_SIZE) (n - 1) k.
Proof.
  unfold in_pages, PAGE_SIZE. intros Hn. split.
  - intros [Hr Hm]. destruct (decide (k = addr)) as [->|Hne]; [by left|right].
    replace (k - (addr + 4096)) with ((k - addr) + (-1) * 4096) by lia. rewrite Z.mod_add by lia.
    split; [|done]. pose proof (Z.div_mod (k - addr) 4096 ltac:(lia)). lia.
  - intros [->|[Hr Hm]]; [rewrite Z.sub_diag; split; [lia|done]|].
    replace (k - (addr + 4096)) with ((k - addr) + (-1) * 4096) in Hm by lia. rewrite Z.mod_add in Hm by lia.
    split; [lia|done].
Qed.

Lemma lookup_zap v a n k :
  ptes (zap_page_range v a n) !! k =
    if decide (a ≤ k < u32 (a + n) ∧ vm_start v ≤ k < vm_end v) then None else ptes v !! k.
Proof.
  unfold zap_page_range; simpl. destruct (ptes v !! k) as [p|] eqn:Hk.
  - case_decide as Hd.
    + apply map_lookup_filter_None. right. intros p' Hp'. simpl. by intros [].
    + apply map_lookup_filter_Some. by split.
  - case_decide; apply map_lookup_filter_None; by left.
Qed.

(** Frames are counted up from the first page. *)
Lemma remap_pte_range_spec n done addr pfn m :
  0 ≤ addr → addr + Z.of_nat n * PAGE_SIZE ≤ 2 ^ 32 →
  (∀ k, in_pages addr (Z.of_nat n) k → m !! k = None) →
  ∃ m' ret, remap_pte_range n done addr pfn m = Some (m', ret) ∧
    (ret = 0 ↔ Z.of_nat n ≤ Z.max 0 done) ∧
    ∀ k, m' !! k = if decide (in_pages addr (Z.min (Z.of_nat n) done) k)
                   then Some (pfn + (k - addr) / PAGE_SIZE) else m !! k.
Proof.
  revert done addr pfn m. induction n as [|n IH]; intros done addr pfn m Ha Hend Hnone; simpl.
  - exists m, 0. split; [done|]. split; [lia|]. intros k. rewrite decide_False; [done|].
    apply in_pages_0. lia.
  - destruct (Z.leb_spec done 0) as [Hd|Hd].
    + exists m, (- ENOMEM). split; [done|]. split; [unfold ENOMEM; lia|]. intros k.
      rewrite decide_False; [done|]. apply in_pages_0. lia.
    + assert (H0 : m !! addr = None).
      { apply Hnone, in_pages_S; [lia|by left]. }
      rewrite H0. replace (Z.of_nat (S n)) with (Z.of_nat n + 1) in * by lia.
      assert (Hnone' : ∀ k, in_pages (addr + PAGE_SIZE) (Z.of_nat n) k → <[addr := pfn]> m !! k = None).
      { intros k Hk. rewrite lookup_insert_ne by (unfold in_pages, PAGE_SIZE in Hk; lia).
        apply Hnone, in_pages_S; [lia|right]. by replace (Z.of_nat n + 1 - 1) with (Z.of_nat n) by lia. }
      assert (Haddr : n = 0%nat ∨ u32 (addr + PAGE_SIZE) = addr + PAGE_SIZE).
      { destruct n; [by left|right]. apply u32_small. unfold PAGE_SIZE in *. lia. }
      assert (∃ m' ret, remap_pte_range n (done - 1) (u32 (addr + PAGE_SIZE)) (pfn + 1) (<[addr:=pfn]> m)
          = Some (m', ret) ∧ (ret = 0 ↔ Z.of_nat n ≤ Z.max 0 (done - 1)) ∧
          ∀ k, m' !! k = if decide (in_pages (addr + PAGE_SIZE) (Z.min (Z.of_nat n) (done - 1)) k)
             then Some (pfn + 1 + (k - (addr + PAGE_SIZE)) / PAGE_SIZE) else <[addr:=pfn]> m !! k)
        as (m' & ret & -> & Hret & Hm').
      { destruct Haddr as [->| ->].
        - simpl. eexists _, 0. split; [done|]. split; [lia|]. intros k. rewrite decide_False; [done|].
          apply in_pages_0. lia.
        - apply IH; [unfold PAGE_SIZE; lia|unfold PAGE_SIZE in *; lia|done]. }
      exists m', ret. split; [done|]. split; [rewrite Hret; lia|]. intros k. rewrite Hm'.
      pose proof (in_pages_S addr (Z.min (Z.of_nat n + 1) done) k ltac:(lia)) as Hiff.
      replace (Z.min (Z.of_nat n + 1) done - 1) with (Z.min (Z.of_nat n) (done - 1)) in Hiff by lia.
      destruct (decide (in_pages (addr + PAGE_SIZE) _ k)) as [Hin|Hout].
      * rewrite decide_True by tauto. f_equal. unfold PAGE_SIZE.
        replace (k - (addr + 4096)) with (k - addr + (-1) * 4096) by lia. rewrite Z.div_add by lia. lia.
      * destruct (decide (k = addr)) as [->|Hne].
        -- rewrite decide_True by tauto. rewrite lookup_insert_eq, Z.sub_diag. by rewrite Z.add_0_r.
        -- rewrite decide_False by tauto. by rewrite lookup_insert_ne.
Qed.

(** Garbage pages go only where nothing is mapped. *)
Lemma map_garbage_loop_spec e pm n v addr :
  0 ≤ addr → addr + Z.of_nat n * PAGE_SIZE ≤ 2 ^ 32 →
  let v' := (map_garbage_loop e pm n v addr).1 in
  vm_start v' = vm_start v ∧ vm_end v' = vm_end v ∧
  ∀ k, (in_pages addr (Z.of_nat n) k ∧ ptes v !! k = None ∧
          (ptes v' !! k = None ∨ ptes v' !! k = Some (garbage_pfn pm))) ∨
       ptes v' !! k = ptes v !! k.
Proof.
  revert v addr. induction n as [|n IH]; intros v addr Ha Hend; simpl; [by eauto|].
  destruct (vm_insert_pfn e v addr (garbage_pfn pm)) as [v1 ret1] eqn:Hins.
  assert (Hv1 : vm_start v1 = vm_start v ∧ vm_end v1 = vm_end v ∧
    (ret1 = 0 ∧ ptes v !! addr = None ∧ ptes v1 = <[addr := garbage_pfn pm]> (ptes v) ∨ ret1 ≠ 0 ∧ v1 = v)).
  { unfold vm_insert_pfn in Hins. repeat case_match; injection Hins as <- <-; split_and!; try done; by auto. }
  destruct Hv1 as (Hs & He & [(-> & Hn0 & Hp)|[Hne ->]]).
  2: { unfold ctrue. destruct (Z.eqb_spec ret1 0); [done|]. simpl. by eauto. }
  simpl. destruct n as [|n].
  { simpl. split_and!; try done. intros k. rewrite Hp. destruct (decide (k = addr)) as [->|].
    - left. rewrite lookup_insert_eq. split_and!; [|done|by right]. apply in_pages_S; [lia|by left].
    - right. by rewrite lookup_insert_ne. }
  destruct (IH v1 (u32 (addr + PAGE_SIZE))) as (Hs' & He' & Hk).
  { apply u32_range. } { rewrite u32_small by (unfold PAGE_SIZE in *; lia). unfold PAGE_SIZE in *. lia. }
  rewrite u32_small in * by (unfold PAGE_SIZE in *; lia).
  split; [congruence|]. split; [congruence|]. intros k. specialize (Hk k). rewrite Hp in Hk.
  pose proof (in_pages_S addr (Z.of_nat (S (S n))) k ltac:(lia)) as Hiff.
  replace (Z.of_nat (S (S n)) - 1) with (Z.of_nat (S n)) in Hiff by lia.
  destruct (decide (k = addr)) as [->|Hne].
  - left. rewrite lookup_insert_eq in Hk. split; [tauto|]. split; [done|]. destruct Hk as [(_ & ? & _)|Hk]; [done|auto].
  - rewrite lookup_insert_ne in Hk by done. tauto.
Qed.

Definition aligned (x : Z) : Prop := x mod PAGE_SIZE = 0.

Lemma page_aligned x : PMEM_IS_PAGE_ALIGNED x = true ↔ aligned x.
Proof.
  unfold PMEM_IS_PAGE_ALIGNED, aligned. change (PAGE_SIZE - 1) with (2 ^ 12 - 1).
  rewrite land_pow2_mod by lia. change (2 ^ 12) with PAGE_SIZE. apply Z.eqb_eq.
Qed.

Definition vma_wf (v : vm_area) : Prop :=
  0 ≤ vm_start v ≤ vm_end v ∧ vm_end v < 2 ^ 32 ∧ aligned (vm_start v) ∧ aligned (vm_end v).

(** The frame at an offset of the memory of a file. *)
Definition frame (pm : pmem_info) (d : pmem_data) (off : Z) : Z :=
  Z.shiftr (u32 (pmem_start_addr pm d + off)) PAGE_SHIFT.

(** Bytes [off, off + n) of a mapping. *)
Definition in_range (v : vm_area) (off n k : Z) : Prop := vm_start v + off ≤ k < vm_start v + off + n.

Lemma in_range_pages v off n k :
  aligned n → aligned (k - (vm_start v + off)) → 0 ≤ n → in_range v off n k →
  in_pages (vm_start v + off) (n / PAGE_SIZE) k.
Proof.
  unfold in_range, in_pages, aligned, PAGE_SIZE. intros Hn Hk Hpos Hr. split; [|done].
  pose proof (Z.div_mod n 4096 ltac:(lia)). lia.
Qed.

Lemma pages_in_range v off n k :
  0 ≤ n → in_pages (vm_start v + off) (n / PAGE_SIZE) k → in_range v off n k.
Proof.
  unfold in_range, in_pages, PAGE_SIZE. intros Hpos [Hr _]. pose proof (Z.mul_div_le n 4096). lia.
Qed.

Lemma shift_pages n : 0 ≤ n → Z.of_nat (Z.to_nat (Z.shiftr n PAGE_SHIFT)) = n / PAGE_SIZE.
Proof.
  intros. unfold PAGE_SHIFT. rewrite Z.shiftr_div_pow2 by lia. change (2 ^ 12) with PAGE_SIZE.
  apply Z2Nat.id, Z.div_pos; [done|]. by unfold PAGE_SIZE.
Qed.

(** The frame of a page further on. *)
Lemma frame_add pm d off i :
  0 ≤ off → 0 ≤ i → pmem_start_addr pm d + off + i * PAGE_SIZE < 2 ^ 32 → 0 ≤ pmem_start_addr pm d →
  frame pm d off + i = frame pm d (off + i * PAGE_SIZE).
Proof.
  intros. unfold frame, PAGE_SHIFT, PAGE_SIZE in *. rewrite !u32_small by lia.
  rewrite !Z.shiftr_div_pow2 by lia. change (2 ^ 12) with 4096.
  replace (pmem_start_addr pm d + (off + i * 4096)) with (pmem_start_addr pm d + off + i * 4096) by lia.
  by rewrite Z.div_add by lia.
Qed.

Section client.
Variables (e : env) (pm : pmem_info) (d : pmem_data) (v : vm_area) (off n : Z).
Hypothesis Hwf : vma_wf v.
Hypothesis Hoff : 0 ≤ off.
Hypothesis Hn : 0 ≤ n.
Hypothesis Haln : aligned n.
Hypothesis Hfit : off + n ≤ vm_end v - vm_start v.

Lemma range_inside k : in_range v off n k →
  vm_start v + off ≤ k < u32 (u32 (vm_start v + off) + n) ∧ vm_start v ≤ k < vm_end v.
Proof.
  destruct Hwf as (? & ? & _). unfold in_range. intros. rewrite (u32_small (vm_start v + off)) by lia.
  rewrite u32_small by lia. lia.
Qed.

Lemma lookup_zap_range k :
  ptes (zap_page_range v (u32 (vm_start v + off)) n) !! k =
    if decide (vm_start v + off ≤ k < vm_start v + off + n) then None else ptes v !! k.
Proof.
  destruct Hwf as (? & ? & _). rewrite lookup_zap, (u32_small (vm_start v + off)) by lia.
  rewrite u32_small by lia. repeat case_decide; try done; lia.
Qed.

(** Withdrawing a range: nothing but the garbage page is left in it. *)
Lemma unmap_range_spec :
  ∃ v', pmem_unmap_pfn_range e pm v off n = Some (v', 0) ∧
    vm_start v' = vm_start v ∧ vm_end v' = vm_end v ∧
    (∀ k, in_range v off n k → ptes v' !! k = None ∨ ptes v' !! k = Some (garbage_pfn pm)) ∧
    (∀ k, ¬ in_range v off n k → ptes v' !! k = ptes v !! k).
Proof.
  unfold pmem_unmap_pfn_range, pmem_map_garbage. apply page_aligned in Haln as Hp. rewrite Hp. cbn [negb].
  set (vz := zap_page_range v _ n). change (vm_start vz) with (vm_start v).
  pose proof Hwf as (? & ? & _). rewrite (u32_small (vm_start v + off)) by lia.
  pose proof (shift_pages n Hn) as Hsh. pose proof (Z.mul_div_le n PAGE_SIZE ltac:(by unfold PAGE_SIZE)).
  destruct (map_garbage_loop_spec e pm (Z.to_nat (Z.shiftr n PAGE_SHIFT)) vz (vm_start v + off))
    as (Hs & He & Hk); [lia|rewrite Hsh; lia|].
  destruct (map_garbage_loop _ _ _ _ _) as [v' ret]. simpl in Hs, He, Hk. rewrite Hsh in Hk.
  exists v'. split; [done|]. split; [done|]. split; [done|].
  assert (Hz : ∀ k, ptes vz !! k = if decide (in_range v off n k) then None else ptes v !! k).
  { intros k. unfold vz. rewrite lookup_zap_range. done. }
  split; intros k Hr; specialize (Hk k); rewrite Hz in Hk.
  - rewrite decide_True in Hk by done. tauto.
  - rewrite decide_False in Hk by done. destruct Hk as [(Hin & _)|Hk]; [|done].
    apply pages_in_range in Hin; done.
Qed.

Hypothesis Haloff : aligned off.
Hypothesis Hstart : 0 ≤ pmem_start_addr pm d.
Hypothesis Hmem : pmem_start_addr pm d + off + n < 2 ^ 32.

(** Granting a range: it shows the memory at the same offset of the block. *)
Lemma remap_range_spec :
  ∃ v' ret, pmem_remap_pfn_range e pm v d off n = Some (v', ret) ∧ (ret = 0 ∨ ret = - EAGAIN) ∧
    vm_start v' = vm_start v ∧ vm_end v' = vm_end v ∧
    (∀ k, in_range v off n k → ptes v' !! k = None ∨ ptes v' !! k = Some (frame pm d (k - vm_start v))) ∧
    (ret = 0 → ∀ k, in_range v off n k → aligned k → ptes v' !! k = Some (frame pm d (k - vm_start v))) ∧
    (∀ k, ¬ in_range v off n k → ptes v' !! k = ptes v !! k).
Proof.
  pose proof Hwf as (Hse & Hend & Has & Hae).
  unfold pmem_remap_pfn_range, pmem_map_pfn_range. cbn [vm_start vm_end zap_page_range].
  apply page_aligned in Haln as Hp1, Has as Hp2, Hae as Hp3, Haloff as Hp4.
  rewrite Hp1, Hp2, Hp3, Hp4. cbn [negb orb]. unfold io_remap_pfn_range.
  fold (zap_page_range v (u32 (vm_start v + off)) n). set (vz := zap_page_range _ _ _).
  change (vm_start vz) with (vm_start v). change (vm_end vz) with (vm_end v).
  assert (Hz : ∀ k, ptes vz !! k = if decide (in_range v off n k) then None else ptes v !! k).
  { intros k. unfold vz. rewrite lookup_zap_range. done. }
  rewrite (u32_small (vm_start v + off)) by lia.
  pose proof (shift_pages n Hn) as Hsh. pose proof (Z.mul_div_le n PAGE_SIZE ltac:(by unfold PAGE_SIZE)).
  destruct (remap_pte_range_spec (Z.to_nat (Z.shiftr n PAGE_SHIFT)) (remap_pages e (vm_start v + off))
    (vm_start v + off) (frame pm d off) (ptes vz)) as (m & ret & Hrun & Hret & Hm).
  { lia. } { rewrite Hsh. lia. }
  { intros k Hk. rewrite Hsh in Hk. rewrite Hz, decide_True; [done|]. by apply pages_in_range. }
  fold (frame pm d off). rewrite Hrun. cbn [mbind option_bind]. rewrite Hsh in Hret, Hm.
  eexists _, _. split; [done|].
  assert (Hfr : ∀ k, in_pages (vm_start v + off) (n / PAGE_SIZE) k →
    frame pm d off + (k - (vm_start v + off)) / PAGE_SIZE = frame pm d (k - vm_start v)).
  { intros k [Hk1 Hk2]. pose proof (Z.div_mod (k - (vm_start v + off)) PAGE_SIZE ltac:(by unfold PAGE_SIZE)) as Hdm.
    assert (0 ≤ (k - (vm_start v + off)) / PAGE_SIZE) by (apply Z.div_pos; [lia|by unfold PAGE_SIZE]).
    rewrite frame_add by lia. f_equal. lia. }
  assert (Hsub : ∀ k, in_pages (vm_start v + off) (Z.min (n / PAGE_SIZE) (remap_pages e (vm_start v + off))) k →
    in_pages (vm_start v + off) (n / PAGE_SIZE) k).
  { intros k [Hk1 Hk2]. split; [|done]. unfold PAGE_SIZE in *. nia. }
  split; [unfold ctrue; destruct (ret =? 0); auto|]. cbn [vm_start vm_end ptes].
  split; [done|]. split; [done|]. split; [|split].
  - intros k Hk. rewrite Hm. case_decide as Hin; [right; by rewrite Hfr by auto|].
    rewrite Hz, decide_True by done. by left.
  - intros Hr0 k Hk Hak. assert (ret = 0) as Hr1.
    { unfold ctrue in Hr0. destruct (Z.eqb_spec ret 0); [done|]. done. }
    apply Hret in Hr1. rewrite Hm.
    assert (Hin : in_pages (vm_start v + off) (n / PAGE_SIZE) k).
    { apply in_range_pages; try done. unfold aligned in *. clear Hmem Hfit Hm Hz Hfr Hsub Hrun.
      rewrite Zminus_mod, (Zplus_mod (vm_start v)), Hak, Has, Haloff. done. }
    rewrite decide_True; [by rewrite Hfr|]. replace (Z.min _ _) with (n / PAGE_SIZE); [done|].
    assert (0 ≤ n / PAGE_SIZE) by (apply Z.div_pos; [lia|by unfold PAGE_SIZE]).
    destruct Hin as [Hin _]. unfold PAGE_SIZE in *. lia.
  - intros k Hk. rewrite Hm. rewrite decide_False.
    + by rewrite Hz, decide_False.
    + intros Hin%Hsub. apply Hk. by apply pages_in_range.
Qed.
End client.

(** Everything a client can see is the garbage page or memory in a region it
    has been granted. *)
Definition confined (pm : pmem_info) (d : pmem_data) (v : vm_area) : Prop :=
  ∀ k pfn, ptes v !! k = Some pfn →
    pfn = garbage_pfn pm ∨
    ∃ r, r ∈ region_list d ∧ in_range v (offset r) (len r) k ∧ pfn = frame pm d (k - vm_start v).

(** The part of a mapping outside of a changed range stays confined. *)
Lemma confined_change pm d d' v v' off n :
  confined pm d v → vm_start v' = vm_start v → index d' = index d →
  (∀ k, ¬ in_range v off n k → ptes v' !! k = ptes v !! k) →
  (∀ r k, r ∈ region_list d → ¬ in_range v off n k → in_range v (offset r) (len r) k → r ∈ region_list d') →
  (∀ k pfn, in_range v off n k → ptes v' !! k = Some pfn → pfn = garbage_pfn pm ∨
     ∃ r, r ∈ region_list d' ∧ in_range v (offset r) (len r) k ∧ pfn = frame pm d (k - vm_start v)) →
  confined pm d' v'.
Proof.
  intros Hc Hs Hi Hout Hkeep Hin k pfn Hk.
  assert (Hfr : ∀ o, frame pm d' o = frame pm d o) by (intros o; unfold frame, pmem_start_addr; by rewrite Hi).
  unfold in_range. rewrite Hs, Hfr. fold (in_range v).
  destruct (decide (vm_start v + off ≤ k < vm_start v + off + n)) as [Hr|Hr].
  - destruct (Hin k pfn Hr Hk) as [?|(r & Hr1 & Hr2 & Hr3)]; [by left|right; by exists r].
  - rewrite Hout in Hk by done. destruct (Hc k pfn Hk) as [?|(r & Hr1 & Hr2 & Hr3)]; [by left|right].
    exists r. split; [by eapply Hkeep|done].
Qed.

(** What granting and withdrawing do to a client's mapping.  A request that
    passes the checks always returns; if it is refused nothing changes; a
    successful PMEM_MAP shows the region at its place, a PMEM_UNMAP leaves
    nothing but the garbage page in it, the rest of the mapping is untouched,
    and the client still sees nothing but garbage and what it was granted. *)
Theorem pmem_remap_view e w fid f d vid v t r op :
  let pm := dev w (get_id f) in
  files w !! fid = Some f → private_data f = Some d → vma d = Some vid → vmas w !! vid = Some v →
  PMEM_IS_SUBMAP d = true → task d = Some t → task_has_mm e t = true →
  vma_wf v → confined pm d v → 0 ≤ offset r → 0 < len r → aligned (offset r) → aligned (len r) →
  offset r + len r ≤ vm_end v - vm_start v →
  0 ≤ pmem_start_addr pm d → pmem_start_addr pm d + offset r + len r < 2 ^ 32 →
  ∃ w' ret, pmem_remap e w r fid op = Some (w', ret) ∧
    ((ret = - EINVAL ∨ ret = - ENOMEM) ∧ w' = w ∨
     ∃ d' v', (ret = 0 ∨ ret = - EAGAIN) ∧
       w' = set_vmas (set_data w fid d') (<[vid := v']> (vmas w)) ∧ confined pm d' v' ∧
       (∀ k, ¬ in_range v (offset r) (len r) k → ptes v' !! k = ptes v !! k) ∧
       match op with
       | PMEM_MAP => region_list d' = r :: region_list d ∧
           (ret = 0 → ∀ k, in_range v (offset r) (len r) k → aligned k →
              ptes v' !! k = Some (frame pm d (k - vm_start v)))
       | PMEM_UNMAP => r ∉ region_list d' ∧ ret = 0 ∧
           (∀ k, in_range v (offset r) (len r) k →
              ptes v' !! k = None ∨ ptes v' !! k = Some (garbage_pfn pm))
       end).
Proof.
  intros pm Hf Hd Hvid Hv Hsub Ht Hmm Hwf Hc Ho Hl Hao Hal Hfit Hst Hmem.
  unfold pmem_remap. rewrite Hf. cbn [mbind option_bind]. rewrite Hd. cbn [mbind option_bind].
  pose proof (proj2 (page_aligned _) Hao) as ->. pose proof (proj2 (page_aligned _) Hal) as ->. cbn [negb orb].
  assert (len r =? 0 = false) as -> by lia.
  assert (pmem_lock_data_and_mm e d d = Locked true) as ->.
  { unfold pmem_lock_data_and_mm. rewrite Hsub, Ht, Hmm. cbn [negb andb].
    apply andb_true_iff in Hsub as [_ Hn%negb_true_iff]. by rewrite Hn. }
  unfold pmem_remap_locked. fold pm.
  destruct (is_master_owner e w f); cbn [negb]; [|exists w, (- EINVAL); split; [done|left; auto]].
  destruct (_ || _); [exists w, (- EINVAL); split; [done|left; auto]|].
  destruct op; unfold remap_list.
  - destruct (kmalloc e); cbv iota beta; [|exists w, (- ENOMEM); split; [done|left; auto]].
    change (ctrue 0) with false. change (ctrue (- ENOMEM)) with true.
    set (d' := set_regions d (r :: region_list d)).
    change (vma d') with (vma d). rewrite Hvid. change (PMEM_IS_SUBMAP d') with (PMEM_IS_SUBMAP d). rewrite Hsub.
    change (vmas (set_data w fid d')) with (vmas w). rewrite Hv. cbn [mbind option_bind].
    destruct (remap_range_spec e pm d v (offset r) (len r)) as (v' & ret & Hrun & Hret & Hs & He & Hin & Hok & Hout);
      try done; try lia.
    change (pmem_remap_pfn_range e pm v d' (offset r) (len r)) with (pmem_remap_pfn_range e pm v d (offset r) (len r)).
    rewrite Hrun. cbn [mbind option_bind]. eexists _, ret. split; [done|]. right. exists d', v'.
    split_and!; try done.
    apply (confined_change pm d d' v v' (offset r) (len r)); try done.
    + intros r' k Hr' _ _. by right.
    + intros k pfn Hk Hp. right. exists r. split; [by left|]. split; [done|].
      destruct (Hin k Hk) as [Hx|Hx]; rewrite Hx in Hp; congruence.
  - set (keep := filter _ (region_list d)).
    destruct (bool_decide (keep = region_list d)); cbv iota beta; [exists w, (- EINVAL); split; [done|left; auto]|].
    change (ctrue 0) with false. set (d' := set_regions d keep).
    change (vma d') with (vma d). rewrite Hvid. change (PMEM_IS_SUBMAP d') with (PMEM_IS_SUBMAP d). rewrite Hsub.
    change (vmas (set_data w fid d')) with (vmas w). rewrite Hv. cbn [mbind option_bind].
    destruct (unmap_range_spec e pm v (offset r) (len r)) as (v' & Hrun & Hs & He & Hin & Hout); try done; try lia.
    rewrite Hrun. cbn [mbind option_bind]. eexists _, 0. split; [done|]. right. exists d', v'.
    split_and!; try done; [by left| |].
    + apply (confined_change pm d d' v v' (offset r) (len r)); try done.
      * intros r' k Hr' Hnk Hk. apply list_elem_of_filter. split; [|done]. intros [?|[Ho' Hl']]; [lia|].
        apply Hnk. by rewrite Ho', Hl' in Hk.
      * intros k pfn Hk Hp. left. destruct (Hin k Hk) as [Hx|Hx]; rewrite Hx in Hp; congruence.
    + intros [Hx _]%list_elem_of_filter. tauto.
Qed.

(** File 2 is connected to file 1 and mapped at 65536. *)
Definition with_vma (w : world) (vid : Z) (v : vm_area) : world := set_vmas w (<[vid := v]> (vmas w)).
Definition empty_vma : vm_area := mk_vma 65536 73728 0 false ∅.
Definition ex_conn : world := ioctl_ ex3 2 IOC_CONNECT 1 None.
Definition ex_client : world :=
  then_ ex_conn (pmem_mmap example_env (with_vma ex_conn 9 empty_vma) 2 9).
Definition ex_client_data : pmem_data :=
  mk_data 8 (Z.lor PMEM_FLAGS_CONNECTED PMEM_FLAGS_SUBMAP) (Some 9) (Some 77) 78 1 (Some 1) [] 0.
Definition ex_client_vma : vm_area :=
  mk_vma 65536 73728 65544 true (<[65536 := 100]> (<[69632 := 100]> ∅)).

Lemma pmem_remap_view_witness :
  ∃ w' ret, pmem_remap example_env ex_client (mk_region 0 4096) 2 PMEM_MAP = Some (w', ret) ∧ ret = 0.
Proof.
  destruct (pmem_remap_view example_env ex_client 2 (mk_file MISC_MAJOR 0 false (Some ex_client_data))
    ex_client_data 9 ex_client_vma 77 (mk_region 0 4096) PMEM_MAP) as (w' & ret & Hrun & _).
  - vm_compute. reflexivity.
  - vm_compute; reflexivity.
  - vm_compute; reflexivity.
  - vm_compute. reflexivity.
  - vm_compute; reflexivity.
  - vm_compute; reflexivity.
  - vm_compute; reflexivity.
  - unfold vma_wf, aligned; simpl; repeat split; reflexivity || discriminate.
  - intros k pfn Hk. left. unfold ex_client_vma in Hk; simpl in Hk.
    apply lookup_insert_Some in Hk as [[_ <-]|[_ Hk]]; [reflexivity|].
    apply lookup_insert_Some in Hk as [[_ <-]|[_ Hk]]; [reflexivity|]. by rewrite lookup_empty in Hk.
  - vm_compute; discriminate.
  - vm_compute; reflexivity.
  - vm_compute; reflexivity.
  - vm_compute; reflexivity.
  - vm_compute; discriminate.
  - vm_compute; discriminate.
  - vm_compute; reflexivity.
  - exists w', ret. split; [exact Hrun|]. revert Hrun. vm_compute. intros [= _ <-]. reflexivity.
Defined.

(** A region is granted to the client, the master is closed, and a third file
    gets the block. *)
Definition ex_granted : world := ioctl_ ex_conn 2 IOC_MAP 0 (Some (mk_region 0 4096)).
Definition ex_closed : world := then_ ex_granted (pmem_release example_env ex_granted 1).
Definition ex_reopened : world := then_ ex_closed (pmem_open example_env ex_closed 3).
Definition ex_realloc : world := ioctl_ ex_reopened 3 IOC_ALLOCATE 8192 None.

Definition ex_stale : world :=
  then_ ex_realloc (pmem_mmap example_env (with_vma ex_realloc 9 empty_vma) 2 9).
Definition ex_third : pmem_data := mk_data 8 0 None None 0 0 None [] 0.

(** A client that has not mapped its file when the master is closed keeps
    its index and its regions: the block is freed and handed to another file,
    and the client's mmap then shows it the other file's memory. *)
Theorem pmem_stale_client :
  pmem_mmap example_env (with_vma ex_realloc 9 empty_vma) 2 9 = Some (ex_stale, 0) ∧
  owner ex_stale 0 3 8 ∧ (f ← files ex_stale !! 3; private_data f) = Some ex_third ∧
  (v ← vmas ex_stale !! 9; ptes v !! vm_start v) = Some (frame (dev ex_stale 0) ex_third 0).
Proof.
  split; [vm_compute; reflexivity|]. split; [|split; vm_compute; reflexivity].
  exists (mk_file MISC_MAJOR 0 false (Some ex_third)), ex_third.
  split; [vm_compute; reflexivity|]. repeat split; try reflexivity. discriminate.
Qed.
