(* ===== verification/Wakelock.v ===== *)
(** Wake locks (kernel/power/wakelock.c): the locks that keep the system from
    suspending, their time-outs, the expire timer, the suspend work item and
    the statistics.

    A lock is an address in [locks]; the lists [inactive_locks] and
    [active_wake_locks[]] are lists of addresses.  Every operation is one
    critical section under [list_lock]; the clocks it reads are its [env].
    [suspend], which drops the lock around [pm_suspend], is two steps.  [None]
    is a BUG. *)

From S2P Require Import Prelude.

(** ** Data *)

Definition WAKE_LOCK_SUSPEND : Z := 0.
Definition WAKE_LOCK_IDLE : Z := 1.
Definition WAKE_LOCK_TYPE_COUNT : Z := 2.

Definition WAKE_LOCK_TYPE_MASK : Z := 15.
Definition WAKE_LOCK_INITIALIZED : Z := Z.shiftl 1 8.
Definition WAKE_LOCK_ACTIVE : Z := Z.shiftl 1 9.
Definition WAKE_LOCK_AUTO_EXPIRE : Z := Z.shiftl 1 10.
Definition WAKE_LOCK_PREVENTING_SUSPEND : Z := Z.shiftl 1 11.

Definition LONG_MAX : Z := 2147483647.

(** Times are nanoseconds ([ktime_t]). *)
Record wl_stat := mk_stat {
  count : Z; expire_count : Z; wakeup_count : Z; total_time : Z;
  prevent_suspend_time : Z; max_time : Z; last_time : Z }.

Record wake_lock := mk_lock { flags : Z; expires : Z; stat : wl_stat }.

Record wl_state := mk_wl {
  locks : gmap Z wake_lock;
  inactive_locks : list Z;
  active_suspend : list Z;          (* active_wake_locks[WAKE_LOCK_SUSPEND] *)
  active_idle : list Z;             (* active_wake_locks[WAKE_LOCK_IDLE] *)
  current_event_num : Z;
  expire_timer : option Z;          (* the jiffy the timer is armed for *)
  suspend_work : bool;              (* the work item is queued *)
  suspending : option Z;            (* inside pm_suspend, entered at this event number *)
  last_sleep_time_update : Z;
  wait_for_wakeup : bool }.

(** The three locks the file itself owns. *)
Definition main_wake_lock : Z := 0.
Definition unknown_wakeup : Z := 1.
Definition deleted_wake_locks : Z := 2.

(** The clocks: jiffies, the monotonic clock, the monotonic time of the last
    tick, and the length of a tick. *)
Record env := mk_env { jiffies : Z; ktime_get : Z; tick_time : Z; tick_nsec : Z }.

Definition set_lock_flags (l : wake_lock) f := mk_lock f (expires l) (stat l).
Definition set_stat (l : wake_lock) st := mk_lock (flags l) (expires l) st.
Definition set_last_time (l : wake_lock) t :=
  let st := stat l in
  set_stat l (mk_stat (count st) (expire_count st) (wakeup_count st) (total_time st)
                (prevent_suspend_time st) (max_time st) t).
Definition set_prevent_time (l : wake_lock) t :=
  let st := stat l in
  set_stat l (mk_stat (count st) (expire_count st) (wakeup_count st) (total_time st)
                t (max_time st) (last_time st)).

Definition has_flag (l : wake_lock) (f : Z) : bool := ctrue (Z.land (flags l) f).
Definition set_flag (l : wake_lock) (f : Z) := set_lock_flags l (Z.lor (flags l) f).
Definition clear_flag (l : wake_lock) (f : Z) := set_lock_flags l (Z.land (flags l) (Z.lnot f)).
Definition lock_type (l : wake_lock) : Z := Z.land (flags l) WAKE_LOCK_TYPE_MASK.

(** [(long)(lock->expires - jiffies)]. *)
Definition time_left (e : env) (l : wake_lock) : Z := s32 (u32 (expires l - jiffies e)).

Definition with_locks (s : wl_state) m :=
  mk_wl m (inactive_locks s) (active_suspend s) (active_idle s) (current_event_num s) (expire_timer s)
    (suspend_work s) (suspending s) (last_sleep_time_update s) (wait_for_wakeup s).
Definition with_lists (s : wl_state) i a b :=
  mk_wl (locks s) i a b (current_event_num s) (expire_timer s)
    (suspend_work s) (suspending s) (last_sleep_time_update s) (wait_for_wakeup s).
Definition with_event (s : wl_state) n :=
  mk_wl (locks s) (inactive_locks s) (active_suspend s) (active_idle s) n (expire_timer s)
    (suspend_work s) (suspending s) (last_sleep_time_update s) (wait_for_wakeup s).
Definition with_timer (s : wl_state) t :=
  mk_wl (locks s) (inactive_locks s) (active_suspend s) (active_idle s) (current_event_num s) t
    (suspend_work s) (suspending s) (last_sleep_time_update s) (wait_for_wakeup s).
Definition with_work (s : wl_state) b :=
  mk_wl (locks s) (inactive_locks s) (active_suspend s) (active_idle s) (current_event_num s)
    (expire_timer s) b (suspending s) (last_sleep_time_update s) (wait_for_wakeup s).
Definition with_suspending (s : wl_state) x :=
  mk_wl (locks s) (inactive_locks s) (active_suspend s) (active_idle s) (current_event_num s)
    (expire_timer s) (suspend_work s) x (last_sleep_time_update s) (wait_for_wakeup s).
Definition with_sleep_update (s : wl_state) t :=
  mk_wl (locks s) (inactive_locks s) (active_suspend s) (active_idle s) (current_event_num s)
    (expire_timer s) (suspend_work s) (suspending s) t (wait_for_wakeup s).
Definition with_wait (s : wl_state) b :=
  mk_wl (locks s) (inactive_locks s) (active_suspend s) (active_idle s) (current_event_num s)
    (expire_timer s) (suspend_work s) (suspending s) (last_sleep_time_update s) b.

Definition active (s : wl_state) (type : Z) : list Z :=
  if type =? WAKE_LOCK_SUSPEND then active_suspend s else active_idle s.
Definition upd_lock (s : wl_state) (id : Z) (f : wake_lock → wake_lock) : wl_state :=
  with_locks s (alter f id (locks s)).

(** [list_del(&lock->link)], whichever list the lock is on. *)
Definition list_del (s : wl_state) (id : Z) : wl_state :=
  let del := filter (λ i, i ≠ id) in
  with_lists s (del (inactive_locks s)) (del (active_suspend s)) (del (active_idle s)).
Definition add_inactive (s : wl_state) (id : Z) : wl_state :=
  with_lists s (id :: inactive_locks s) (active_suspend s) (active_idle s).
Definition list_add (s : wl_state) (type id : Z) : wl_state :=
  if type =? WAKE_LOCK_SUSPEND then with_lists s (inactive_locks s) (id :: active_suspend s) (active_idle s)
  else with_lists s (inactive_locks s) (active_suspend s) (id :: active_idle s).
Definition list_add_tail (s : wl_state) (type id : Z) : wl_state :=
  if type =? WAKE_LOCK_SUSPEND then with_lists s (inactive_locks s) (active_suspend s ++ [id]) (active_idle s)
  else with_lists s (inactive_locks s) (active_suspend s) (active_idle s ++ [id]).

(** ** Statistics *)

(** The time at which an expired lock ran out; [None] is a return value of 0. *)
Definition get_expired_time (e : env) (l : wake_lock) : option Z :=
  if negb (has_flag l WAKE_LOCK_AUTO_EXPIRE) then None
  else
    let timeout := time_left e l in
    if timeout >? 0 then None else Some (s64 (tick_time e - u32 (- timeout) * tick_nsec e)).

Definition wake_unlock_stat_locked (e : env) (s : wl_state) (expired : bool) (l : wake_lock) : wake_lock :=
  if negb (has_flag l WAKE_LOCK_ACTIVE) then l
  else
    let '(now, expired) := match get_expired_time e l with Some t => (t, true) | None => (ktime_get e, expired) end in
    let st := stat l in
    let duration := s64 (now - last_time st) in
    let st := mk_stat (s32 (count st + 1)) (if expired then s32 (expire_count st + 1) else expire_count st)
                (wakeup_count st) (s64 (total_time st + duration)) (prevent_suspend_time st)
                (if duration >? max_time st then duration else max_time st) (ktime_get e) in
    let l := set_stat l st in
    if has_flag l WAKE_LOCK_PREVENTING_SUSPEND then
      let duration := s64 (now - last_sleep_time_update s) in
      clear_flag (set_prevent_time l (s64 (prevent_suspend_time st + duration))) WAKE_LOCK_PREVENTING_SUSPEND
    else l.

(** The body of the loop of [update_sleep_wait_stats_locked]. *)
Definition sleep_wait_stat (e : env) (s : wl_state) (done : bool) (l : wake_lock) : wake_lock :=
  let elapsed := s64 (ktime_get e - last_sleep_time_update s) in
  let expired := get_expired_time e l in
  let l := if has_flag l WAKE_LOCK_PREVENTING_SUSPEND then
             let add := match expired with Some t => s64 (t - last_sleep_time_update s) | None => elapsed end in
             set_prevent_time l (s64 (prevent_suspend_time (stat l) + add))
           else l in
  if done || bool_decide (is_Some expired) then clear_flag l WAKE_LOCK_PREVENTING_SUSPEND
  else set_flag l WAKE_LOCK_PREVENTING_SUSPEND.

Definition update_sleep_wait_stats_locked (e : env) (s : wl_state) (done : bool) : wl_state :=
  let s' := fold_left (λ s' id, upd_lock s' id (sleep_wait_stat e s done)) (active_suspend s) s in
  with_sleep_update s' (ktime_get e).

(** One line of /proc/wakelocks: count, expire count, wake-up count, active
    time, total time, prevented-suspend time, maximum, last change. *)
Record stat_line := mk_line {
  ln_count : Z; ln_expire : Z; ln_wakeup : Z; ln_active : Z; ln_total : Z; ln_prevent : Z; ln_max : Z; ln_last : Z }.

Definition print_lock_stat (e : env) (s : wl_state) (l : wake_lock) : stat_line :=
  let st := stat l in
  if has_flag l WAKE_LOCK_ACTIVE then
    let expired := get_expired_time e l in
    let now := default (ktime_get e) expired in
    let add_time := s64 (now - last_time st) in
    mk_line (s32 (count st + 1))
      (if bool_decide (is_Some expired) then s32 (expire_count st + 1) else expire_count st)
      (wakeup_count st)
      (if bool_decide (is_Some expired) then 0 else add_time)
      (s64 (total_time st + add_time))
      (if has_flag l WAKE_LOCK_PREVENTING_SUSPEND
       then s64 (prevent_suspend_time st + s64 (now - last_sleep_time_update s)) else prevent_suspend_time st)
      (if add_time >? max_time st then add_time else max_time st) (last_time st)
  else
    mk_line (count st) (expire_count st) (wakeup_count st) 0 (total_time st) (prevent_suspend_time st)
      (max_time st) (last_time st).

Definition wakelock_stats_show (e : env) (s : wl_state) : list (option stat_line) :=
  (λ id, print_lock_stat e s <$> locks s !! id) <$>
    (inactive_locks s ++ active_suspend s ++ active_idle s).

(** ** Looking for active locks *)

Definition expire_wake_lock (e : env) (s : wl_state) (id : Z) : wl_state :=
  let s := upd_lock s id (λ l, clear_flag (wake_unlock_stat_locked e s true l)
                                 (Z.lor WAKE_LOCK_ACTIVE WAKE_LOCK_AUTO_EXPIRE)) in
  add_inactive (list_del s id) id.

(** The loop of [has_wake_lock_locked]; a pointer to no lock cannot be on a list. *)
Fixpoint has_wake_lock_loop (e : env) (s : wl_state) (l : list Z) (max_timeout : Z) : option (wl_state * Z) :=
  match l with
  | [] => Some (s, max_timeout)
  | id :: l =>
      lock ← locks s !! id;
      if has_flag lock WAKE_LOCK_AUTO_EXPIRE then
        let timeout := time_left e lock in
        if timeout <=? 0 then has_wake_lock_loop e (expire_wake_lock e s id) l max_timeout
        else has_wake_lock_loop e s l (if timeout >? max_timeout then timeout else max_timeout)
      else Some (s, -1)
  end.

Definition has_wake_lock_locked (e : env) (s : wl_state) (type : Z) : option (wl_state * Z) :=
  if type >=? WAKE_LOCK_TYPE_COUNT then None else has_wake_lock_loop e s (active s type) 0.

Definition has_wake_lock (e : env) (s : wl_state) (type : Z) : option (wl_state * Z) :=
  has_wake_lock_locked e s type.

(** ** Taking and releasing locks *)

(** After the lists changed: arm the timer for the last time-out, or stop it
    and, when nothing is held, queue the suspend work. *)
Definition arm (e : env) (s : wl_state) (expire_in : Z) : wl_state :=
  if expire_in >? 0 then with_timer s (Some (u32 (jiffies e + expire_in)))
  else
    let s := with_timer s None in
    if expire_in =? 0 then with_work s true else s.

Definition wake_lock_active (s : wl_state) (id : Z) : bool :=
  match locks s !! id with Some l => has_flag l WAKE_LOCK_ACTIVE | None => false end.

(** The statistics at the head of [wake_lock_internal]. *)
Definition lock_stats (e : env) (s : wl_state) (l : wake_lock) : wake_lock :=
  let l := if (lock_type l =? WAKE_LOCK_SUSPEND) && wait_for_wakeup s then
             let st := stat l in
             set_stat l (mk_stat (count st) (expire_count st) (s32 (wakeup_count st + 1)) (total_time st)
                           (prevent_suspend_time st) (max_time st) (last_time st))
           else l in
  let l := if has_flag l WAKE_LOCK_AUTO_EXPIRE && (time_left e l <=? 0)
           then set_last_time (wake_unlock_stat_locked e s false l) (ktime_get e) else l in
  if has_flag l WAKE_LOCK_ACTIVE then l else set_last_time (set_flag l WAKE_LOCK_ACTIVE) (ktime_get e).

(** Moving the lock to its active list, with or without a time-out. *)
Definition lock_move (e : env) (s : wl_state) (id type timeout : Z) (has_timeout : bool) : wl_state :=
  let s := list_del s id in
  if has_timeout then
    let s := upd_lock s id (λ l, set_flag (mk_lock (flags l) (u32 (jiffies e + timeout)) (stat l))
                                   WAKE_LOCK_AUTO_EXPIRE) in
    list_add_tail s type id
  else
    let s := upd_lock s id (λ l, clear_flag (mk_lock (flags l) LONG_MAX (stat l)) WAKE_LOCK_AUTO_EXPIRE) in
    list_add s type id.

Definition wake_lock_internal (e : env) (s : wl_state) (id timeout : Z) (has_timeout : bool) : option wl_state :=
  l ← locks s !! id;
  let type := lock_type l in
  if type >=? WAKE_LOCK_TYPE_COUNT then None
  else if negb (has_flag l WAKE_LOCK_INITIALIZED) then None
  else
    let w := wait_for_wakeup s in
    let s := upd_lock s id (lock_stats e s) in
    let s := if (type =? WAKE_LOCK_SUSPEND) && w then with_wait s false else s in
    let s := lock_move e s id type timeout has_timeout in
    if type =? WAKE_LOCK_SUSPEND then
      let s := with_event s (s32 (current_event_num s + 1)) in
      let s := if id =? main_wake_lock then update_sleep_wait_stats_locked e s true
               else if negb (wake_lock_active s main_wake_lock) then update_sleep_wait_stats_locked e s false
               else s in
      '(s, expire_in) ← (if has_timeout then has_wake_lock_locked e s type else Some (s, -1));
      Some (arm e s expire_in)
    else Some s.

Definition wake_lock_ (e : env) (s : wl_state) (id : Z) : option wl_state := wake_lock_internal e s id 0 false.
Definition wake_lock_timeout (e : env) (s : wl_state) (id timeout : Z) : option wl_state :=
  wake_lock_internal e s id timeout true.

Definition wake_unlock (e : env) (s : wl_state) (id : Z) : option wl_state :=
  l ← locks s !! id;
  let type := lock_type l in
  let s := upd_lock s id (λ l, clear_flag (wake_unlock_stat_locked e s false l)
                                 (Z.lor WAKE_LOCK_ACTIVE WAKE_LOCK_AUTO_EXPIRE)) in
  let s := add_inactive (list_del s id) id in
  if type =? WAKE_LOCK_SUSPEND then
    '(s, has_lock) ← has_wake_lock_locked e s type;
    let s := arm e s has_lock in
    Some (if id =? main_wake_lock then update_sleep_wait_stats_locked e s false else s)
  else Some s.

Definition wake_lock_init (s : wl_state) (id type : Z) : wl_state :=
  let l := mk_lock (Z.lor (Z.land type WAKE_LOCK_TYPE_MASK) WAKE_LOCK_INITIALIZED)
             (match locks s !! id with Some l => expires l | None => 0 end) (mk_stat 0 0 0 0 0 0 0) in
  add_inactive (with_locks s (<[id := l]> (locks s))) id.

Definition wake_lock_destroy (s : wl_state) (id : Z) : option wl_state :=
  l ← locks s !! id;
  let s := upd_lock s id (λ l, clear_flag l WAKE_LOCK_INITIALIZED) in
  let st := stat l in
  let s := if ctrue (count st) then
             upd_lock s deleted_wake_locks (λ d, let ds := stat d in
               set_stat d (mk_stat (s32 (count ds + count st)) (s32 (expire_count ds + expire_count st))
                 (wakeup_count ds) (s64 (total_time ds + total_time st))
                 (s64 (prevent_suspend_time ds + prevent_suspend_time st))
                 (s64 (max_time ds + max_time st)) (last_time ds)))
           else s in
  Some (list_del s id).

(** ** Suspending *)

(** [suspend] up to the call of [pm_suspend]; the work item is no longer
    queued once it runs. *)
Definition suspend_enter (e : env) (s : wl_state) : option wl_state :=
  '(s, ret) ← has_wake_lock e (with_work s false) WAKE_LOCK_SUSPEND;
  if ctrue ret then Some s else Some (with_suspending s (Some (current_event_num s))).

(** [suspend] after [pm_suspend] has returned. *)
Definition suspend_exit (e : env) (s : wl_state) : option wl_state :=
  entry_event_num ← suspending s;
  let s := with_suspending s None in
  if current_event_num s =? entry_event_num then wake_lock_timeout e s unknown_wakeup (HZ / 2)
  else Some s.

(** The timer function. *)
Definition expire_wake_locks (e : env) (s : wl_state) : option wl_state :=
  '(s, has_lock) ← has_wake_lock_locked e (with_timer s None) WAKE_LOCK_SUSPEND;
  Some (if has_lock =? 0 then with_work s true else s).

Definition power_suspend_late (e : env) (s : wl_state) : option (wl_state * Z) :=
  '(s, ret) ← has_wake_lock e s WAKE_LOCK_SUSPEND;
  Some (with_wait s true, if ctrue ret then - EAGAIN else 0).

Definition wakelocks_init (e : env) : option wl_state :=
  let s := mk_wl ∅ [] [] [] 0 None false None 0 false in
  let s := wake_lock_init s deleted_wake_locks WAKE_LOCK_SUSPEND in
  let s := wake_lock_init s main_wake_lock WAKE_LOCK_SUSPEND in
  s ← wake_lock_ e s main_wake_lock;
  Some (wake_lock_init s unknown_wakeup WAKE_LOCK_SUSPEND).

(** ** The part of a lock that is not statistics *)

Record core := mk_core { c_type : Z; c_init : bool; c_active : bool; c_auto : bool; c_expires : Z }.

Definition core_of (l : wake_lock) : core :=
  mk_core (lock_type l) (has_flag l WAKE_LOCK_INITIALIZED) (has_flag l WAKE_LOCK_ACTIVE)
    (has_flag l WAKE_LOCK_AUTO_EXPIRE) (expires l).

Definition cores (s : wl_state) : gmap Z core := core_of <$> locks s.
#[global] Arguments cores : simpl never.
Definition c_left (e : env) (c : core) : Z := s32 (u32 (c_expires c - jiffies e)).

Lemma land_lor_0 f b m : Z.land b m = 0 → Z.land (Z.lor f b) m = Z.land f m.
Proof. intros Hb. by rewrite Z.land_lor_distr_l, Hb, Z.lor_0_r. Qed.

Lemma land_lnot_id f b m : Z.land (Z.lnot b) m = m → Z.land (Z.land f (Z.lnot b)) m = Z.land f m.
Proof. intros Hb. by rewrite <- Z.land_assoc, Hb. Qed.

Lemma land_lnot_0 f b m : Z.land (Z.lnot b) m = 0 → Z.land (Z.land f (Z.lnot b)) m = 0.
Proof. intros Hb. by rewrite <- Z.land_assoc, Hb, Z.land_0_r. Qed.

Lemma land_lor_self f b : 0 < b → ctrue (Z.land (Z.lor f b) b) = true.
Proof.
  intros Hb. unfold ctrue. rewrite Z.land_lor_distr_l, Z.land_diag.
  destruct (Z.eqb_spec (Z.lor (Z.land f b) b) 0) as [Hz|]; [|done].
  apply Z.lor_eq_0_iff in Hz as [_ ?]. lia.
Qed.

(** Flags set and cleared, seen on the core. *)
Lemma core_set_preventing l : core_of (set_flag l WAKE_LOCK_PREVENTING_SUSPEND) = core_of l.
Proof. unfold core_of, set_flag, lock_type, has_flag; simpl. by rewrite !land_lor_0. Qed.

Lemma core_clear_preventing l : core_of (clear_flag l WAKE_LOCK_PREVENTING_SUSPEND) = core_of l.
Proof. unfold core_of, clear_flag, lock_type, has_flag; simpl. by rewrite !land_lnot_id. Qed.

Lemma core_clear_active l :
  core_of (clear_flag l (Z.lor WAKE_LOCK_ACTIVE WAKE_LOCK_AUTO_EXPIRE)) =
    let c := core_of l in mk_core (c_type c) (c_init c) false false (c_expires c).
Proof.
  unfold core_of, clear_flag, lock_type, has_flag; simpl. rewrite !land_lnot_id by done.
  by rewrite !land_lnot_0 by done.
Qed.

Lemma core_set_active l :
  core_of (set_flag l WAKE_LOCK_ACTIVE) =
    let c := core_of l in mk_core (c_type c) (c_init c) true (c_auto c) (c_expires c).
Proof.
  unfold core_of, set_flag, lock_type, has_flag; simpl. rewrite land_lor_self by done.
  by rewrite !land_lor_0 by done.
Qed.

Lemma core_set_auto l x :
  core_of (set_flag (mk_lock (flags l) x (stat l)) WAKE_LOCK_AUTO_EXPIRE) =
    let c := core_of l in mk_core (c_type c) (c_init c) (c_active c) true x.
Proof.
  unfold core_of, set_flag, lock_type, has_flag; simpl. rewrite land_lor_self by done.
  by rewrite !land_lor_0 by done.
Qed.

Lemma core_clear_auto l x :
  core_of (clear_flag (mk_lock (flags l) x (stat l)) WAKE_LOCK_AUTO_EXPIRE) =
    let c := core_of l in mk_core (c_type c) (c_init c) (c_active c) false x.
Proof.
  unfold core_of, clear_flag, lock_type, has_flag; simpl. rewrite !land_lnot_id by done.
  by rewrite !land_lnot_0 by done.
Qed.

Lemma core_clear_init l :
  core_of (clear_flag l WAKE_LOCK_INITIALIZED) =
    let c := core_of l in mk_core (c_type c) false (c_active c) (c_auto c) (c_expires c).
Proof.
  unfold core_of, clear_flag, lock_type, has_flag; simpl. rewrite (land_lnot_0 _ _ WAKE_LOCK_INITIALIZED) by done.
  by rewrite !land_lnot_id by done.
Qed.

(** The statistics never touch it. *)
Lemma core_unlock_stat e s b l : core_of (wake_unlock_stat_locked e s b l) = core_of l.
Proof.
  unfold wake_unlock_stat_locked. destruct (negb _); [done|].
  destruct (match get_expired_time e l with Some _ => _ | None => _ end) as [now ex].
  destruct (has_flag _ WAKE_LOCK_PREVENTING_SUSPEND); [|done]. by rewrite core_clear_preventing.
Qed.

Lemma core_sleep_wait e s b l : core_of (sleep_wait_stat e s b l) = core_of l.
Proof.
  unfold sleep_wait_stat. destruct (b || _); rewrite ?core_clear_preventing, ?core_set_preventing;
    by destruct (has_flag l WAKE_LOCK_PREVENTING_SUSPEND).
Qed.

Lemma core_lock_stats e s l :
  core_of (lock_stats e s l) =
    let c := core_of l in mk_core (c_type c) (c_init c) true (c_auto c) (c_expires c).
Proof.
  unfold lock_stats. set (l1 := if (_ =? _) && _ then _ else l).
  assert (H1 : core_of l1 = core_of l) by (unfold l1; by destruct (_ && _)).
  set (l2 := if _ && (_ <=? _) then _ else l1).
  assert (H2 : core_of l2 = core_of l).
  { clearbody l1. unfold l2. destruct (has_flag l1 _ && _); [|exact H1].
    change (core_of (set_last_time ?a _)) with (core_of a). by rewrite core_unlock_stat. }
  rewrite <- H2. destruct (has_flag l2 WAKE_LOCK_ACTIVE) eqn:E.
  - unfold core_of; simpl. by rewrite E.
  - change (core_of (set_last_time ?a _)) with (core_of a). apply core_set_active.
Qed.

Lemma cores_upd s id f : (∀ l, core_of (f l) = core_of l) → cores (upd_lock s id f) = cores s.
Proof.
  intros Hf. apply map_eq. intros i. unfold cores, upd_lock; simpl. rewrite !lookup_fmap.
  destruct (decide (i = id)) as [->|].
  - rewrite lookup_alter_eq. destruct (locks s !! id); simpl; by rewrite ?Hf.
  - by rewrite lookup_alter_ne.
Qed.

Lemma cores_upd_at s id f g :
  (∀ l, core_of (f l) = g (core_of l)) → cores (upd_lock s id f) = alter g id (cores s).
Proof.
  intros Hf. apply map_eq. intros i. unfold cores, upd_lock; simpl. rewrite lookup_fmap.
  destruct (decide (i = id)) as [->|].
  - rewrite !lookup_alter_eq, lookup_fmap. destruct (locks s !! id); simpl; by rewrite ?Hf.
  - rewrite !lookup_alter_ne by done. by rewrite lookup_fmap.
Qed.

(** Everything that is not the locks' statistics or the sleep bookkeeping. *)
Record shape := mk_shape {
  sh_cores : gmap Z core; sh_inactive : list Z; sh_suspend : list Z; sh_idle : list Z;
  sh_event : Z; sh_timer : option Z; sh_work : bool; sh_suspending : option Z }.

Definition shape_of (s : wl_state) : shape :=
  mk_shape (cores s) (inactive_locks s) (active_suspend s) (active_idle s) (current_event_num s)
    (expire_timer s) (suspend_work s) (suspending s).

Lemma shape_sleep_wait e s b : shape_of (update_sleep_wait_stats_locked e s b) = shape_of s.
Proof.
  unfold update_sleep_wait_stats_locked. change (shape_of (with_sleep_update ?a _)) with (shape_of a).
  set (st := sleep_wait_stat e s b). assert (Hst : ∀ l, core_of (st l) = core_of l) by apply core_sleep_wait.
  clearbody st. generalize (active_suspend s) at 1. intros l. revert s. 
  induction l as [|id l IH]; intros s; simpl; [done|]. rewrite IH.
  unfold shape_of. by rewrite cores_upd.
Qed.

(** ** The lists *)

Definition sh_active (x : shape) (t : Z) : list Z := if t =? WAKE_LOCK_SUSPEND then sh_suspend x else sh_idle x.

Definition c_auto_at (m : gmap Z core) (id : Z) : bool := match m !! id with Some c => c_auto c | None => false end.

(** Every initialised lock is on exactly one list: the inactive one, or the one
    of its type; and on an active list the locks without a time-out come
    first. *)
Record lists_ok (x : shape) : Prop := {
  ok_nodup : NoDup (sh_inactive x ++ sh_suspend x ++ sh_idle x);
  ok_inactive : ∀ id, id ∈ sh_inactive x → ∃ c, sh_cores x !! id = Some c ∧ c_init c = true ∧
    c_active c = false ∧ c_auto c = false ∧ (c_type c = 0 ∨ c_type c = 1);
  ok_active : ∀ t id, t = 0 ∨ t = 1 → id ∈ sh_active x t → ∃ c, sh_cores x !! id = Some c ∧
    c_init c = true ∧ c_active c = true ∧ c_type c = t;
  ok_listed : ∀ id c, sh_cores x !! id = Some c → c_init c = true →
    id ∈ sh_inactive x ++ sh_suspend x ++ sh_idle x;
  ok_order : ∀ t, t = 0 ∨ t = 1 → StronglySorted (λ a b, c_auto_at (sh_cores x) a = true → c_auto_at (sh_cores x) b = true)
    (sh_active x t) }.

Lemma lists_ok_irrel x x' :
  sh_cores x' = sh_cores x → sh_inactive x' = sh_inactive x → sh_suspend x' = sh_suspend x →
  sh_idle x' = sh_idle x → lists_ok x → lists_ok x'.
Proof. destruct x, x'; simpl; intros -> -> -> -> [H1 H2 H3 H4 H5]. constructor; assumption. Qed.

Definition del (id : Z) (l : list Z) : list Z := filter (λ i, i ≠ id) l.

Lemma elem_of_del id i l : i ∈ del id l ↔ i ≠ id ∧ i ∈ l.
Proof. unfold del. by rewrite list_elem_of_filter. Qed.

(** Where a lock goes: the front of the inactive list, the front of its active
    list when it has no time-out, the end of it when it has one. *)
Definition place (x : shape) (id : Z) (c : core) : shape :=
  let add l := if c_auto c then del id l ++ [id] else id :: del id l in
  mk_shape (<[id := c]> (sh_cores x))
    (if c_active c then del id (sh_inactive x) else id :: del id (sh_inactive x))
    (if c_active c && (c_type c =? WAKE_LOCK_SUSPEND) then add (sh_suspend x) else del id (sh_suspend x))
    (if c_active c && negb (c_type c =? WAKE_LOCK_SUSPEND) then add (sh_idle x) else del id (sh_idle x))
    (sh_event x) (sh_timer x) (sh_work x) (sh_suspending x).

Lemma sh_active_place x id c t :
  c_type c = 0 ∨ c_type c = 1 → t = 0 ∨ t = 1 →
  sh_active (place x id c) t =
    if c_active c && (c_type c =? t)
    then (if c_auto c then del id (sh_active x t) ++ [id] else id :: del id (sh_active x t))
    else del id (sh_active x t).
Proof. intros [Hc|Hc] [->| ->]; unfold sh_active, place; simpl; rewrite Hc; by destruct (c_active c). Qed.

Lemma order_place (m : gmap Z core) id c l :
  StronglySorted (λ a b, c_auto_at m a = true → c_auto_at m b = true) l →
  StronglySorted (λ a b, c_auto_at (<[id := c]> m) a = true → c_auto_at (<[id := c]> m) b = true) (del id l).
Proof.
  intros Hs. apply (StronglySorted_impl (λ a b, c_auto_at m a = true → c_auto_at m b = true));
    [|by apply StronglySorted_filter].
  intros a b [Ha _]%elem_of_del [Hb _]%elem_of_del. unfold c_auto_at. by rewrite !lookup_insert_ne by done.
Qed.

Lemma StronglySorted_snoc {A} (R : A → A → Prop) l y :
  StronglySorted R l → Forall (λ x, R x y) l → StronglySorted R (l ++ [y]).
Proof.
  induction 1 as [|x l Hl IH Hx]; intros Hy; simpl; [repeat constructor|].
  apply Forall_cons in Hy as [Hxy Hy]. constructor; [auto|]. apply Forall_app. split; [done|by constructor].
Qed.

Lemma place_perm x id c :
  NoDup (sh_inactive x ++ sh_suspend x ++ sh_idle x) → c_type c = 0 ∨ c_type c = 1 →
  sh_inactive (place x id c) ++ sh_suspend (place x id c) ++ sh_idle (place x id c) ≡ₚ
  id :: del id (sh_inactive x ++ sh_suspend x ++ sh_idle x).
Proof.
  intros _ Hc. unfold place, del; simpl. rewrite !filter_app.
  set (i := filter _ (sh_inactive x)). set (a := filter _ (sh_suspend x)). set (b := filter _ (sh_idle x)).
  destruct Hc as [-> | ->], (c_active c), (c_auto c); simpl; try done; solve_Permutation.
Qed.

Lemma lists_ok_place x id c :
  lists_ok x → c_init c = true → c_type c = 0 ∨ c_type c = 1 → (c_active c = false → c_auto c = false) →
  lists_ok (place x id c).
Proof.
  intros [Hnd Hin Hac Hli Hor] Hi Ht Hau.
  pose proof (place_perm x id c Hnd Ht) as Hperm. split.
  - rewrite Hperm. constructor; [by intros [? _]%elem_of_del|]. by apply NoDup_filter.
  - intros i Hx. simpl in Hx. destruct (decide (i = id)) as [->|Hne].
    + exists c. simpl. rewrite lookup_insert_eq. destruct (c_active c); [by apply elem_of_del in Hx as [? _]|by split_and!; auto].
    + simpl. rewrite lookup_insert_ne by done. apply Hin.
      destruct (c_active c); [|apply elem_of_cons in Hx as [?|Hx]; [done|]]; by apply elem_of_del in Hx as [_ ?].
  - intros t i Htt Hx. rewrite sh_active_place in Hx by done. simpl.
    destruct (decide (i = id)) as [->|Hne].
    + exists c. rewrite lookup_insert_eq. split; [done|]. split; [done|].
      destruct (c_active c), (Z.eqb_spec (c_type c) t); simpl in Hx; try by apply elem_of_del in Hx as [? _]. done.
    + rewrite lookup_insert_ne by done. apply Hac; [done|].
      destruct (_ && _), (c_auto c); rewrite ?elem_of_app, ?elem_of_cons, elem_of_del, ?elem_of_nil in Hx; tauto.
  - intros i c' Hc' Hi'. rewrite Hperm. simpl in Hc'. destruct (decide (i = id)) as [->|Hne]; [by left|right].
    rewrite lookup_insert_ne in Hc' by done. apply elem_of_del. split; [done|]. eauto.
  - intros t Htt. pose proof (order_place _ id c _ (Hor t Htt)) as Hs. rewrite sh_active_place by done.
    assert (Hid : c_auto_at (<[id := c]> (sh_cores x)) id = c_auto c) by (unfold c_auto_at; by rewrite lookup_insert_eq).
    simpl. destruct (_ && _), (c_auto c) eqn:Ea; try done.
    + apply StronglySorted_snoc; [done|]. apply Forall_forall. auto.
    + constructor; [done|]. apply Forall_forall. intros b _. by rewrite Hid.
Qed.

(** The shape of a lock that is made inactive. *)
Definition idle_core (c : core) : core := mk_core (c_type c) (c_init c) false false (c_expires c).

Lemma alter_lookup {A} (f : A → A) (m : gmap Z A) id c : m !! id = Some c → alter f id m = <[id := f c]> m.
Proof.
  intros Hc. apply map_eq. intros i. destruct (decide (i = id)) as [->|].
  - by rewrite lookup_alter_eq, lookup_insert_eq, Hc.
  - by rewrite lookup_alter_ne, lookup_insert_ne.
Qed.

Lemma shape_expire e s b id c :
  cores s !! id = Some c →
  shape_of (add_inactive (list_del (upd_lock s id (λ l, clear_flag (wake_unlock_stat_locked e s b l)
    (Z.lor WAKE_LOCK_ACTIVE WAKE_LOCK_AUTO_EXPIRE))) id) id) = place (shape_of s) id (idle_core c).
Proof.
  intros Hc. unfold shape_of, place. simpl. f_equal.
  rewrite <- (alter_lookup idle_core _ _ _ Hc). apply cores_upd_at. intros l.
  by rewrite core_clear_active, core_unlock_stat.
Qed.

(** ** Looking for active locks *)

Definition live (e : env) (m : gmap Z core) (id : Z) : bool :=
  match m !! id with Some c => 0 <? c_left e c | None => false end.
Definition left_at (e : env) (m : gmap Z core) (id : Z) : Z :=
  match m !! id with Some c => c_left e c | None => 0 end.

(** Types and initialisation never change under a search or an operation. *)
Definition same_kind (x x' : shape) : Prop :=
  ∀ id c, sh_cores x !! id = Some c →
    ∃ c', sh_cores x' !! id = Some c' ∧ c_type c' = c_type c ∧ c_init c' = c_init c.

Lemma same_kind_refl x : same_kind x x.
Proof. intros id c Hc. eauto. Qed.

Lemma same_kind_trans x y z : same_kind x y → same_kind y z → same_kind x z.
Proof.
  intros H1 H2 id c Hc. destruct (H1 id c Hc) as (c1 & Hc1 & ? & ?).
  destruct (H2 id c1 Hc1) as (c2 & Hc2 & ? & ?). exists c2. split_and!; congruence.
Qed.

Lemma same_kind_place x id c c' :
  sh_cores x !! id = Some c → c_type c' = c_type c → c_init c' = c_init c → same_kind x (place x id c').
Proof.
  intros Hc Ht Hi i c1 Hc1. simpl. destruct (decide (i = id)) as [->|].
  - exists c'. rewrite lookup_insert_eq. split_and!; congruence.
  - exists c1. by rewrite lookup_insert_ne.
Qed.

(** What a search that found only locks with time-outs leaves: the locks of
    [l] that have run out are inactive, nothing else has changed. *)
Record searched (e : env) (x x' : shape) (t : Z) (l : list Z) : Prop := {
  se_ok : lists_ok x';
  se_active : sh_active x' t = filter (λ id, id ∉ l ∨ live e (sh_cores x) id = true) (sh_active x t);
  se_other : ∀ t', t' = 0 ∨ t' = 1 → t' ≠ t → sh_active x' t' = sh_active x t';
  se_cores : ∀ id, id ∉ l ∨ live e (sh_cores x) id = true → sh_cores x' !! id = sh_cores x !! id;
  se_kind : same_kind x x';
  se_frame : sh_event x' = sh_event x ∧ sh_timer x' = sh_timer x ∧ sh_work x' = sh_work x ∧
             sh_suspending x' = sh_suspending x }.

Lemma filter_iff_list {A} (P Q : A → Prop) `{!∀ x, Decision (P x), !∀ x, Decision (Q x)} (l : list A) :
  (∀ x, x ∈ l → P x ↔ Q x) → filter P l = filter Q l.
Proof.
  induction l as [|x l IH]; intros Hiff; [done|].
  assert (Hl : filter P l = filter Q l) by (apply IH; intros y Hy; apply Hiff; by right).
  pose proof (Hiff x ltac:(by left)) as Hx. rewrite !filter_cons, Hl. repeat case_decide; tauto || done.
Qed.

Lemma live_place e x id c i : i ≠ id → live e (sh_cores (place x id c)) i = live e (sh_cores x) i.
Proof. intros Hne. unfold live; simpl. by rewrite lookup_insert_ne. Qed.

Lemma searched_expire e x x' t id l c :
  lists_ok x → t = 0 ∨ t = 1 → sh_cores x !! id = Some c → c_type c = t → live e (sh_cores x) id = false →
  searched e (place x id (idle_core c)) x' t l → searched e x x' t (id :: l).
Proof.
  intros Hok Ht Hc Hct Hlive [Hok' Hact Hoth Hcor Hki Hfr].
  assert (Hct' : c_type (idle_core c) = 0 ∨ c_type (idle_core c) = 1) by (simpl; by rewrite Hct).
  split; [done| | | |eapply same_kind_trans; [|exact Hki]; by eapply same_kind_place|done].
  - rewrite Hact, sh_active_place by done. cbn [c_active idle_core andb]. unfold del. rewrite list_filter_filter.
    apply filter_iff_list. intros i _. destruct (decide (i = id)) as [->|Hne].
    + rewrite Hlive. set_solver.
    + rewrite live_place by done. set_solver.
  - intros t' Ht' Hne. rewrite Hoth, sh_active_place by done. simpl. unfold del. apply filter_ne_id.
    intros Hin. destruct (ok_active _ Hok t' id Ht' Hin) as (c' & Hc' & _ & _ & ?). congruence.
  - intros i Hi. assert (i ≠ id) by (intros ->; destruct Hi; [set_solver|congruence]).
    rewrite Hcor by (rewrite live_place by done; set_solver). simpl. by rewrite lookup_insert_ne.
Qed.

Lemma searched_keep e x x' t id l :
  live e (sh_cores x) id = true → searched e x x' t l → searched e x x' t (id :: l).
Proof.
  intros Hlive [Hok' Hact Hoth Hcor Hki Hfr]. split; try done.
  - rewrite Hact. apply filter_iff_list. intros i _. destruct (decide (i = id)) as [->|]; set_solver.
  - intros i Hi. apply Hcor. destruct (decide (i = id)) as [->|]; set_solver.
Qed.

Lemma searched_nil e x t : lists_ok x → searched e x x t [].
Proof.
  intros Hok. split; try done; [|apply same_kind_refl]. induction (sh_active x t) as [|i l IH]; [done|].
  rewrite filter_cons_True by set_solver. by rewrite <- IH.
Qed.

Lemma has_wake_lock_loop_spec e s t l mx :
  lists_ok (shape_of s) → t = 0 ∨ t = 1 → NoDup l → 0 ≤ mx →
  (∀ id, id ∈ l → id ∈ active s t ∧ c_auto_at (cores s) id = true) →
  ∃ s' r, has_wake_lock_loop e s l mx = Some (s', r) ∧ searched e (shape_of s) (shape_of s') t l ∧
    mx ≤ r ∧ (∀ id, id ∈ l → left_at e (cores s) id ≤ r) ∧
    (r = mx ∨ ∃ id, id ∈ l ∧ left_at e (cores s) id = r ∧ live e (cores s) id = true).
Proof.
  intros Hok Ht. revert s mx Hok. induction l as [|id l IH]; intros s mx Hok Hnd Hmx Hl; simpl.
  { exists s, mx. split_and!; try done; [by apply searched_nil|set_solver|by left]. }
  apply NoDup_cons in Hnd as [Hid Hnd]. destruct (Hl id ltac:(by left)) as [Hin Hauto].
  destruct (ok_active _ Hok t id Ht Hin) as (c & Hc & Hci & Hca & Hct). simpl in Hc.
  pose proof Hc as Hc'. unfold cores in Hc'. rewrite lookup_fmap in Hc'.
  destruct (locks s !! id) as [lock|]; [|done]. simpl in Hc'. injection Hc' as Hlc. cbn [mbind option_bind].
  unfold c_auto_at in Hauto. rewrite Hc in Hauto.
  assert (has_flag lock WAKE_LOCK_AUTO_EXPIRE = true) as -> by (by rewrite <- Hlc in Hauto).
  assert (Htl : time_left e lock = c_left e c) by (by rewrite <- Hlc). rewrite Htl.
  assert (Hleft : left_at e (cores s) id = c_left e c) by (unfold left_at; by rewrite Hc).
  destruct (Z.leb_spec (c_left e c) 0) as [Hexp|Hlive].
  - set (s1 := expire_wake_lock e s id).
    assert (Hs1 : shape_of s1 = place (shape_of s) id (idle_core c)) by (by apply shape_expire).
    assert (Hdead : live e (cores s) id = false) by (unfold live; rewrite Hc; lia).
    assert (Hct' : c_type (idle_core c) = 0 ∨ c_type (idle_core c) = 1) by (simpl; by rewrite Hct).
    assert (Hcs1 : ∀ i, i ≠ id → cores s1 !! i = cores s !! i).
    { intros i Hne. change (cores s1) with (sh_cores (shape_of s1)). rewrite Hs1. simpl.
      by rewrite lookup_insert_ne. }
    destruct (IH s1 mx) as (s' & r & Hrun & Hse & Hr1 & Hr2 & Hr3); [|done|done| |].
    { rewrite Hs1. by apply lists_ok_place. }
    { intros i Hi. assert (i ≠ id) by set_solver. destruct (Hl i ltac:(by right)) as [Hi1 Hi2].
      unfold c_auto_at. rewrite Hcs1 by done. split; [|done].
      change (active s1 t) with (sh_active (shape_of s1) t). rewrite Hs1, sh_active_place by done.
      simpl. by apply elem_of_del. }
    exists s', r. split; [done|]. split; [|split; [done|split]].
    + rewrite Hs1 in Hse. by eapply searched_expire.
    + intros i [->|Hi]%elem_of_cons; [lia|]. assert (i ≠ id) by set_solver.
      specialize (Hr2 i Hi). unfold left_at in *. by rewrite Hcs1 in Hr2.
    + destruct Hr3 as [?|(i & Hi & Hil & Hiv)]; [by left|right]. assert (i ≠ id) by set_solver.
      exists i. unfold left_at, live in *. rewrite Hcs1 in Hil, Hiv by done. split_and!; try done. by right.
  - assert (Halive : live e (cores s) id = true) by (unfold live; rewrite Hc; lia).
    destruct (IH s (if c_left e c >? mx then c_left e c else mx)) as (s' & r & Hrun & Hse & Hr1 & Hr2 & Hr3);
      [done|done|zbool; lia|intros; apply Hl; by right|].
    exists s', r. split; [done|]. split; [by apply searched_keep|].
    rewrite Z.gtb_ltb in *. destruct (Z.ltb_spec mx (c_left e c)).
    + split; [lia|]. split; [intros i [->|Hi]%elem_of_cons; [lia|auto]|]. right.
      destruct Hr3 as [->|(i & Hi & ? & ?)]; [exists id; by split_and!; [left|..]|exists i; by split_and!; [right|..]].
    + split; [lia|]. split; [intros i [->|Hi]%elem_of_cons; [lia|auto]|].
      destruct Hr3 as [->|(i & Hi & ? & ?)]; [by left|right; exists i; by split_and!; [right|..]].
Qed.

(** The two outcomes of a search: a lock without a time-out is held, and
    nothing has changed; or all locks have one, the result is the longest time
    left, and those that have run out are inactive. *)
Lemma has_wake_lock_cases e s t :
  lists_ok (shape_of s) → t = 0 ∨ t = 1 →
  ∃ s' r, has_wake_lock_locked e s t = Some (s', r) ∧
    ((r = -1 ∧ s' = s ∧ ∃ id, id ∈ active s t ∧ c_auto_at (cores s) id = false) ∨
     (0 ≤ r ∧ (∀ id, id ∈ active s t → c_auto_at (cores s) id = true) ∧
      searched e (shape_of s) (shape_of s') t (active s t) ∧
      (∀ id, id ∈ active s t → left_at e (cores s) id ≤ r) ∧
      (r = 0 ∨ ∃ id, id ∈ active s t ∧ left_at e (cores s) id = r ∧ live e (cores s) id = true))).
Proof.
  intros Hok Ht. unfold has_wake_lock_locked.
  assert (t >=? WAKE_LOCK_TYPE_COUNT = false) as -> by (unfold WAKE_LOCK_TYPE_COUNT; zbool; lia).
  assert (Hnd : NoDup (active s t)).
  { pose proof (ok_nodup _ Hok) as Hnd. simpl in Hnd. apply NoDup_app in Hnd as (_ & _ & Hnd).
    apply NoDup_app in Hnd as (? & _ & ?). unfold active. by destruct (t =? _). }
  pose proof (ok_order _ Hok t Ht) as Hs. change (sh_active (shape_of s) t) with (active s t) in Hs.
  simpl in Hs.
  destruct (decide (Forall (λ id, c_auto_at (cores s) id = true) (active s t))) as [Hall|Hsome];
    rewrite Forall_forall in *.
  - destruct (has_wake_lock_loop_spec e s t (active s t) 0) as (s' & r & Hrun & Hse & Hr); try done; [auto|].
    exists s', r. split; [done|]. right. naive_solver.
  - destruct (active s t) as [|id l] eqn:Hact; [by exfalso; apply Hsome; set_solver|].
    assert (Hin : id ∈ active s t) by (rewrite Hact; by left).
    destruct (ok_active _ Hok t id Ht Hin) as (c & Hc & _). simpl in Hc.
    assert (Hna : c_auto_at (cores s) id = false).
    { destruct (c_auto_at (cores s) id) eqn:E; [|done]. exfalso. apply Hsome.
      apply StronglySorted_inv in Hs as [_ Hs]. rewrite Forall_forall in Hs.
      intros i [->|Hi]%elem_of_cons; [done|]. by apply Hs. }
    exists s, (-1). split; [|left; split_and!; try done; exists id; by split; [left|]].
    simpl. pose proof Hc as Hc'. unfold cores in Hc'. rewrite lookup_fmap in Hc'.
    destruct (locks s !! id) as [lock|]; [|done]. simpl in Hc'. injection Hc' as Hlc. cbn [mbind option_bind].
    unfold c_auto_at in Hna. rewrite Hc, <- Hlc in Hna. simpl in Hna. by rewrite Hna.
Qed.

(** ** The suspend attempt that is due *)

(** A lock without a time-out keeps the system awake. *)
Definition held (x : shape) : Prop := ∃ id, id ∈ sh_suspend x ∧ c_auto_at (sh_cores x) id = false.

(** All locks will have run out when the timer goes off. *)
Definition covered (x : shape) (time : Z) : Prop :=
  ∀ id, id ∈ sh_suspend x → ∃ c, sh_cores x !! id = Some c ∧ 0 ≤ u32 (time - c_expires c) < 2 ^ 31.

(** Somebody will try to suspend: not while a lock is held without a time-out,
    but then its release; the timer; or the work item, when nothing is held. *)
Definition awaited (x : shape) : Prop :=
  held x ∨ (∃ time, sh_timer x = Some time ∧ covered x time) ∨ (sh_suspend x = [] ∧ sh_work x = true).

(** The system is inside of [pm_suspend] and no lock has been taken since. *)
Definition asleep (x : shape) : Prop := sh_suspending x = Some (sh_event x).

Definition unknown_ok (x : shape) : Prop :=
  ∃ c, sh_cores x !! unknown_wakeup = Some c ∧ c_init c = true ∧ c_type c = WAKE_LOCK_SUSPEND.

Definition wl_ok (s : wl_state) : Prop :=
  let x := shape_of s in lists_ok x ∧ unknown_ok x ∧ (awaited x ∨ asleep x).

Lemma c_left_range e c : - 2 ^ 31 ≤ c_left e c < 2 ^ 31.
Proof. apply s32_range. Qed.

(** The distance from a lock's expiry to a time [r] jiffies from now. *)
Lemma timer_distance e c r :
  0 < c_left e c ≤ r → r < 2 ^ 31 → u32 (u32 (jiffies e + r) - c_expires c) = r - c_left e c.
Proof.
  intros Hl Hr. unfold c_left, s32 in *. set (x := u32 (c_expires c - jiffies e)) in *.
  assert (Hx : 0 ≤ x < 2 ^ 32) by apply u32_range.
  assert (Hsx : (x + 2 ^ 31) mod 2 ^ 32 - 2 ^ 31 = x).
  { destruct (Z.lt_ge_cases x (2 ^ 31)); [rewrite Z.mod_small; lia|].
    rewrite (mod_unique_range _ (x - 2 ^ 31) _ 1) in * by lia. lia. }
  rewrite Hsx in *. unfold u32 in *. rewrite mod_sub_mod_l by lia.
  rewrite <- (Z.mod_small (r - x) (2 ^ 32)) by lia. unfold x. rewrite mod_sub_mod_r by lia. f_equal. lia.
Qed.

Lemma same_kind_unknown x x' : same_kind x x' → unknown_ok x → unknown_ok x'.
Proof. intros Hk (c & Hc & Hi & Ht). destruct (Hk _ _ Hc) as (c' & Hc' & ? & ?). exists c'. split_and!; congruence. Qed.

(** After a search and the arming that follows it, an attempt is awaited. *)
Lemma arm_awaited e s s' r :
  lists_ok (shape_of s) → has_wake_lock_locked e s WAKE_LOCK_SUSPEND = Some (s', r) →
  let x := shape_of (arm e s' r) in
  lists_ok x ∧ awaited x ∧ sh_event x = sh_event (shape_of s) ∧ same_kind (shape_of s) x.
Proof.
  intros Hok Hrun. destruct (has_wake_lock_cases e s WAKE_LOCK_SUSPEND Hok ltac:(by left))
    as (s1 & r1 & Heq & Hcase). rewrite Heq in Hrun. injection Hrun as -> ->.
  destruct Hcase as [(-> & -> & Hheld)|(Hr & Hall & Hse & Hle & Hmax)].
  - split; [by apply (lists_ok_irrel (shape_of s))|]. split; [by left|]. split; [done|].
    exact (same_kind_refl (shape_of s)).
  - assert (Hpre : lists_ok (shape_of (arm e s' r)) ∧ sh_event (shape_of (arm e s' r)) = sh_event (shape_of s) ∧
      same_kind (shape_of s) (shape_of (arm e s' r))).
    { destruct Hse as [Ho _ _ _ Hk Hf]. unfold arm.
      destruct (r >? 0), (r =? 0); (split; [by apply (lists_ok_irrel (shape_of s'))|]); split; done || apply Hf. }
    destruct Hpre as (H1 & H2 & H3). split_and!; try done.
    pose proof (se_active _ _ _ _ _ Hse) as Hact.
    change (sh_active (shape_of s') WAKE_LOCK_SUSPEND) with (active_suspend s') in Hact.
    change (sh_active (shape_of s) WAKE_LOCK_SUSPEND) with (active_suspend s) in Hact.
    change (active s WAKE_LOCK_SUSPEND) with (active_suspend s) in *.
    unfold arm. rewrite Z.gtb_ltb. destruct (Z.ltb_spec 0 r) as [Hpos|].
    + right. left. exists (u32 (jiffies e + r)). split; [done|]. intros id Hid. simpl in Hid.
      rewrite Hact in Hid. apply list_elem_of_filter in Hid as [Hid Hin].
      destruct Hid as [?|Hlive]; [done|]. specialize (Hle id Hin).
      assert (Hcs : cores s' !! id = cores s !! id) by exact (se_cores _ _ _ _ _ Hse id (or_intror Hlive)).
      change (∃ c, cores s' !! id = Some c ∧ 0 ≤ u32 (u32 (jiffies e + r) - c_expires c) < 2 ^ 31). rewrite Hcs.
      unfold live, left_at in *. simpl in *. destruct (cores s !! id) as [c|]; [|done]. exists c. split; [done|].
      assert (Hr31 : r < 2 ^ 31).
      { destruct Hmax as [?|(i & _ & Hi & _)]; [lia|]. unfold left_at in Hi.
        destruct (cores s !! i) as [ci|]; [pose proof (c_left_range e ci)|]; lia. }
      rewrite timer_distance by lia. pose proof (c_left_range e c). lia.
    + assert (r = 0) as -> by lia. simpl. right. right. simpl. split; [|done]. rewrite Hact.
      apply elem_of_nil_inv. intros id [Hid Hin]%list_elem_of_filter. destruct Hid as [?|Hlive]; [done|].
      specialize (Hle id Hin). change (sh_cores (shape_of s)) with (cores s) in Hlive. unfold live, left_at in *. destruct (cores s !! id); [lia|done].
Qed.

(** ** The operations *)

Definition locked_core (e : env) (c : core) (timeout : Z) (ht : bool) : core :=
  mk_core (c_type c) (c_init c) true ht (if ht then u32 (jiffies e + timeout) else LONG_MAX).

Lemma lookup_cores s id l : locks s !! id = Some l → cores s !! id = Some (core_of l).
Proof. intros Hl. unfold cores. by rewrite lookup_fmap, Hl. Qed.

Lemma shape_lock_move e s s1 id l timeout ht :
  locks s !! id = Some l → lock_type l = 0 ∨ lock_type l = 1 →
  shape_of s1 = shape_of (upd_lock s id (lock_stats e s)) →
  shape_of (lock_move e s1 id (lock_type l) timeout ht) =
    place (shape_of s) id (locked_core e (core_of l) timeout ht).
Proof.
  intros Hl Ht Hs1. pose proof (lookup_cores _ _ _ Hl) as Hc.
  set (act := λ c, mk_core (c_type c) (c_init c) true (c_auto c) (c_expires c)).
  assert (Hc1 : cores s1 = <[id := act (core_of l)]> (cores s)).
  { change (cores s1) with (sh_cores (shape_of s1)). rewrite Hs1. simpl.
    rewrite (cores_upd_at _ _ _ act) by (intros; apply core_lock_stats). by apply alter_lookup. }
  unfold shape_of in Hs1. injection Hs1 as _ Hi Ha Hb Hev Htm Hw Hsu.
  unfold lock_move. destruct ht.
  - set (s2 := upd_lock (list_del s1 id) id _).
    assert (Hc2 : cores s2 = <[id := locked_core e (core_of l) timeout true]> (cores s)).
    { unfold s2. rewrite (cores_upd_at _ _ _ (λ c, mk_core (c_type c) (c_init c) (c_active c) true (u32 (jiffies e + timeout))))
        by (intros; apply core_set_auto). change (cores (list_del s1 id)) with (cores s1). rewrite Hc1.
      rewrite (alter_lookup _ _ _ (act (core_of l))) by (by rewrite lookup_insert_eq).
      by rewrite insert_insert_eq. }
    unfold list_add_tail, shape_of, place. simpl c_type.
    destruct Ht as [-> | ->]; simpl; change (cores (with_lists ?a _ _ _)) with (cores a);
      rewrite Hc2, Hi, Ha, Hb, Hev, Htm, Hw, Hsu; done.
  - set (s2 := upd_lock (list_del s1 id) id _).
    assert (Hc2 : cores s2 = <[id := locked_core e (core_of l) timeout false]> (cores s)).
    { unfold s2. rewrite (cores_upd_at _ _ _ (λ c, mk_core (c_type c) (c_init c) (c_active c) false LONG_MAX))
        by (intros; apply core_clear_auto). change (cores (list_del s1 id)) with (cores s1). rewrite Hc1.
      rewrite (alter_lookup _ _ _ (act (core_of l))) by (by rewrite lookup_insert_eq).
      by rewrite insert_insert_eq. }
    unfold list_add, shape_of, place. simpl c_type.
    destruct Ht as [-> | ->]; simpl; change (cores (with_lists ?a _ _ _)) with (cores a);
      rewrite Hc2, Hi, Ha, Hb, Hev, Htm, Hw, Hsu; done.
Qed.

(** What is awaited depends on the active locks of the suspend type only. *)
Lemma awaited_place x id c' :
  id ∉ sh_suspend x → c_active c' && (c_type c' =? WAKE_LOCK_SUSPEND) = false →
  awaited x ∨ asleep x → awaited (place x id c') ∨ asleep (place x id c').
Proof.
  intros Hid Hc' Haw.
  assert (Hs : sh_suspend (place x id c') = sh_suspend x).
  { simpl. rewrite Hc'. unfold del. by apply filter_ne_id. }
  assert (Hcs : ∀ i, i ∈ sh_suspend x → sh_cores (place x id c') !! i = sh_cores x !! i).
  { intros i Hi. simpl. rewrite lookup_insert_ne; [done|]. by intros ->. }
  destruct Haw as [[(i & Hi & Ha)|[(T & HT & Hcov)|[He Hw]]]|Has]; [left; left| | |by right].
  - exists i. rewrite Hs. split; [done|]. unfold c_auto_at in *. by rewrite Hcs.
  - left. right. left. exists T. split; [done|]. intros i. rewrite Hs. intros Hi. rewrite Hcs by done. auto.
  - left. right. right. by rewrite Hs.
Qed.

(** A lock of the idle type has nothing to do with suspending. *)
Lemma awaited_idle_place x id c c' :
  lists_ok x → sh_cores x !! id = Some c → c_type c = 1 → c_type c' = 1 →
  awaited x ∨ asleep x → awaited (place x id c') ∨ asleep (place x id c').
Proof.
  intros Hok Hc Ht Ht' Haw. apply awaited_place; [|by rewrite Ht', andb_false_r|done].
  intros Hin. destruct (ok_active _ Hok 0 id ltac:(by left) Hin) as (c1 & Hc1 & _ & _ & ?). congruence.
Qed.

(** A time-out that fits into a long lies ahead. *)
Lemma timeout_left j timeout : 0 < timeout < 2 ^ 31 → (0 <? s32 (u32 (u32 (j + timeout) - j))) = true.
Proof.
  intros Ht. unfold u32. rewrite mod_sub_mod_l by lia. replace (j + timeout - j) with timeout by lia.
  rewrite Z.mod_small, s32_small by lia. apply Z.ltb_lt. lia.
Qed.

Lemma wake_lock_internal_gen e s id l timeout ht :
  lists_ok (shape_of s) → locks s !! id = Some l → has_flag l WAKE_LOCK_INITIALIZED = true →
  lock_type l = 0 ∨ lock_type l = 1 →
  ∃ s', wake_lock_internal e s id timeout ht = Some s' ∧ lists_ok (shape_of s') ∧
    (lock_type l = 1 → awaited (shape_of s) ∨ asleep (shape_of s) → awaited (shape_of s') ∨ asleep (shape_of s')) ∧
    (lock_type l = 0 → awaited (shape_of s')) ∧ same_kind (shape_of s) (shape_of s') ∧
    ((ht = true → 0 < timeout < 2 ^ 31) → cores s' !! id = Some (locked_core e (core_of l) timeout ht)).
Proof.
  intros Hok Hl Hini Ht. unfold wake_lock_internal. rewrite Hl. cbn [mbind option_bind].
  assert (lock_type l >=? WAKE_LOCK_TYPE_COUNT = false) as -> by (unfold WAKE_LOCK_TYPE_COUNT; zbool; lia).
  rewrite Hini. cbn [negb]. set (s1 := if _ && wait_for_wakeup s then _ else _).
  assert (Hs1 : shape_of s1 = shape_of (upd_lock s id (lock_stats e s))) by (unfold s1; by destruct (_ && _)).
  clearbody s1. pose proof (shape_lock_move e s s1 id l timeout ht Hl Ht Hs1) as Hsm.
  set (s2 := lock_move e s1 id (lock_type l) timeout ht) in *. clearbody s2. clear Hs1 s1.
  pose proof (lookup_cores _ _ _ Hl) as Hc. set (c' := locked_core e (core_of l) timeout ht) in *.
  assert (Hok2 : lists_ok (shape_of s2)) by (rewrite Hsm; by apply lists_ok_place).
  assert (Hk2 : same_kind (shape_of s) (shape_of s2)) by (rewrite Hsm; by eapply same_kind_place).
  destruct Ht as [Ht|Ht]; rewrite Ht.
  2: { change (1 =? WAKE_LOCK_SUSPEND) with false. exists s2. split; [done|]. split; [done|]. split.
       - intros _ Haw. rewrite Hsm. by eapply awaited_idle_place.
       - split; [lia|]. split; [done|]. intros _. change (cores s2) with (sh_cores (shape_of s2)).
         rewrite Hsm. simpl. by rewrite lookup_insert_eq. }
  change (0 =? WAKE_LOCK_SUSPEND) with true. cbv iota.
  set (s3 := with_event s2 _).
  set (s4 := if id =? main_wake_lock then _ else _).
  assert (Hs4 : shape_of s4 = shape_of s3).
  { unfold s4. destruct (id =? main_wake_lock); [apply shape_sleep_wait|].
    destruct (negb _); [apply shape_sleep_wait|done]. }
  assert (Hok4 : lists_ok (shape_of s4)) by (rewrite Hs4; by apply (lists_ok_irrel (shape_of s2))).
  assert (Hk4 : same_kind (shape_of s) (shape_of s4)) by (by rewrite Hs4).
  assert (Hc4 : cores s4 !! id = Some c').
  { change (cores s4) with (sh_cores (shape_of s4)). rewrite Hs4.
    change (sh_cores (shape_of s3)) with (sh_cores (shape_of s2)). rewrite Hsm. simpl. by rewrite lookup_insert_eq. }
  destruct ht.
  - destruct (has_wake_lock_cases e s4 0 Hok4 ltac:(by left)) as (s5 & r & Hrun & Hcase).
    rewrite Hrun. cbn [mbind option_bind].
    destruct (arm_awaited e s4 s5 r Hok4 Hrun) as (Hx1 & Hx2 & _ & Hx4).
    assert (Hk5 : same_kind (shape_of s) (shape_of (arm e s5 r))) by (by eapply same_kind_trans).
    eexists. split; [done|]. split; [done|]. split; [lia|].
    split_and!; [done|done|]. intros Htm. specialize (Htm eq_refl).
    assert (Hcores : cores (arm e s5 r) = cores s5) by (unfold arm; destruct (r >? 0), (r =? 0); done).
    rewrite Hcores. destruct Hcase as [(_ & -> & _)|(_ & _ & Hse & _)]; [done|].
    change (cores s5) with (sh_cores (shape_of s5)). rewrite (se_cores _ _ _ _ _ Hse); [done|].
    right. unfold live. change (sh_cores (shape_of s4)) with (cores s4). rewrite Hc4.
    unfold c', locked_core, c_left. simpl. by rewrite timeout_left by done.
  - cbn [mbind option_bind]. eexists. split; [done|].
    assert (Haw4 : awaited (shape_of (arm e s4 (-1)))).
    { left. exists id. change (sh_suspend (shape_of (arm e s4 (-1)))) with (sh_suspend (shape_of s4)).
      change (sh_cores (shape_of (arm e s4 (-1)))) with (sh_cores (shape_of s4)).
      rewrite Hs4. change (sh_suspend (shape_of s3)) with (sh_suspend (shape_of s2)).
      change (sh_cores (shape_of s3)) with (sh_cores (shape_of s2)). rewrite Hsm. simpl.
      rewrite Ht. split; [by left|]. unfold c_auto_at. by rewrite lookup_insert_eq. }
    split; [by apply (lists_ok_irrel (shape_of s4))|]. split; [lia|].
    split; [done|]. split; [exact Hk4|]. intros _. exact Hc4.
Qed.

Lemma wake_lock_internal_ok e s id l timeout ht :
  lists_ok (shape_of s) → unknown_ok (shape_of s) →
  (lock_type l = 1 → awaited (shape_of s) ∨ asleep (shape_of s)) → locks s !! id = Some l → has_flag l WAKE_LOCK_INITIALIZED = true →
  lock_type l = 0 ∨ lock_type l = 1 →
  ∃ s', wake_lock_internal e s id timeout ht = Some s' ∧ wl_ok s' ∧
    (lock_type l = 0 → awaited (shape_of s')) ∧ same_kind (shape_of s) (shape_of s') ∧
    ((ht = true → 0 < timeout < 2 ^ 31) → cores s' !! id = Some (locked_core e (core_of l) timeout ht)).
Proof.
  intros Hok Hun Haw Hl Hini Ht.
  destruct (wake_lock_internal_gen e s id l timeout ht Hok Hl Hini Ht) as (s' & Hrun & Hok' & Hidle & Hsus & Hk & Hc).
  exists s'. split; [done|]. split; [|done]. split; [done|]. split; [by eapply same_kind_unknown|].
  destruct Ht as [Ht|Ht]; [left; auto|auto].
Qed.

Lemma wake_unlock_gen e s id l :
  lists_ok (shape_of s) → locks s !! id = Some l → has_flag l WAKE_LOCK_INITIALIZED = true →
  lock_type l = 0 ∨ lock_type l = 1 →
  ∃ s', wake_unlock e s id = Some s' ∧ lists_ok (shape_of s') ∧
    (lock_type l = 1 → awaited (shape_of s) ∨ asleep (shape_of s) → awaited (shape_of s') ∨ asleep (shape_of s')) ∧ (lock_type l = 0 → awaited (shape_of s')) ∧
    same_kind (shape_of s) (shape_of s') ∧ wake_lock_active s' id = false.
Proof.
  intros Hok Hl Hini Ht. unfold wake_unlock. rewrite Hl. cbn [mbind option_bind].
  pose proof (lookup_cores _ _ _ Hl) as Hc. pose proof (shape_expire e s false id _ Hc) as Hsm.
  set (s2 := add_inactive _ id) in *. clearbody s2.
  assert (Hok2 : lists_ok (shape_of s2)) by (rewrite Hsm; by apply lists_ok_place).
  assert (Hk2 : same_kind (shape_of s) (shape_of s2)) by (rewrite Hsm; by eapply same_kind_place).
  assert (Hc2 : cores s2 !! id = Some (idle_core (core_of l))).
  { change (cores s2) with (sh_cores (shape_of s2)). rewrite Hsm. simpl. by rewrite lookup_insert_eq. }
  assert (Hact : ∀ s', cores s' !! id = Some (idle_core (core_of l)) → wake_lock_active s' id = false).
  { intros s' Hs'. unfold cores in Hs'. rewrite lookup_fmap in Hs'. unfold wake_lock_active.
    destruct (locks s' !! id) as [l'|]; [|done]. simpl in Hs'. by injection Hs'. }
  destruct Ht as [Ht|Ht]; rewrite Ht.
  2: { change (1 =? WAKE_LOCK_SUSPEND) with false. exists s2. split; [done|]. split; [done|]. split; [|split_and!; [lia|done|auto]].
       intros _ Haw. rewrite Hsm. by eapply awaited_idle_place. }
  change (0 =? WAKE_LOCK_SUSPEND) with true. cbv iota.
  destruct (has_wake_lock_cases e s2 0 Hok2 ltac:(by left)) as (s3 & r & Hrun & Hcase).
  assert (Hc3 : cores s3 !! id = Some (idle_core (core_of l))).
  { destruct Hcase as [(_ & -> & _)|(_ & _ & Hse & _)]; [done|]. rewrite <- Hc2.
    apply (se_cores _ _ _ _ _ Hse). left. intros Hin.
    destruct (ok_active _ Hok2 0 id ltac:(by left) Hin) as (c1 & Hc1 & _ & Hx & _).
    simpl in Hc1. rewrite Hc2 in Hc1. injection Hc1 as <-. done. }
  rewrite Hrun. cbn [mbind option_bind].
  destruct (arm_awaited e s2 s3 r Hok2 Hrun) as (Hx1 & Hx2 & _ & Hx4).
  set (s4 := if id =? main_wake_lock then _ else _).
  assert (Hs4 : shape_of s4 = shape_of (arm e s3 r)).
  { unfold s4. destruct (id =? main_wake_lock); [apply shape_sleep_wait|done]. }
  assert (Hk4 : same_kind (shape_of s) (shape_of s4)) by (rewrite Hs4; by eapply same_kind_trans).
  exists s4. split; [done|]. split; [by rewrite Hs4|]. split; [lia|].
  split; [by rewrite Hs4|]. split; [done|]. apply Hact.
  change (cores s4) with (sh_cores (shape_of s4)). rewrite Hs4. unfold arm. by destruct (r >? 0), (r =? 0).
Qed.

Lemma wake_unlock_ok e s id l :
  wl_ok s → locks s !! id = Some l → has_flag l WAKE_LOCK_INITIALIZED = true →
  lock_type l = 0 ∨ lock_type l = 1 →
  ∃ s', wake_unlock e s id = Some s' ∧ wl_ok s' ∧ (lock_type l = 0 → awaited (shape_of s')) ∧
    same_kind (shape_of s) (shape_of s') ∧ wake_lock_active s' id = false.
Proof.
  intros (Hok & Hun & Haw) Hl Hini Ht.
  destruct (wake_unlock_gen e s id l Hok Hl Hini Ht) as (s' & Hrun & Hok' & Hidle & Hsus & Hk & Hc).
  exists s'. split; [done|]. split; [|done]. split; [done|]. split; [by eapply same_kind_unknown|].
  destruct Ht as [Ht|Ht]; [left; auto|auto].
Qed.

(** A lock that is not initialised is on no list. *)
Lemma not_listed x id :
  lists_ok x → (∀ c, sh_cores x !! id = Some c → c_init c = false) →
  id ∉ sh_inactive x ∧ id ∉ sh_suspend x ∧ id ∉ sh_idle x.
Proof.
  intros Hok Hni. split_and!; intros Hin.
  - destruct (ok_inactive _ Hok id Hin) as (c & Hc & Hi & _). rewrite (Hni c Hc) in Hi. done.
  - destruct (ok_active _ Hok 0 id ltac:(by left) Hin) as (c & Hc & Hi & _). rewrite (Hni c Hc) in Hi. done.
  - destruct (ok_active _ Hok 1 id ltac:(by right) Hin) as (c & Hc & Hi & _). rewrite (Hni c Hc) in Hi. done.
Qed.

Lemma core_init t x : t = 0 ∨ t = 1 →
  core_of (mk_lock (Z.lor (Z.land t WAKE_LOCK_TYPE_MASK) WAKE_LOCK_INITIALIZED) x (mk_stat 0 0 0 0 0 0 0)) =
  mk_core t true false false x.
Proof. by intros [-> | ->]. Qed.

Lemma wake_lock_init_shape s id t :
  lists_ok (shape_of s) → t = 0 ∨ t = 1 → (∀ c, cores s !! id = Some c → c_init c = false) →
  ∃ x, shape_of (wake_lock_init s id t) = place (shape_of s) id (mk_core t true false false x).
Proof.
  intros Hok Ht Hni. destruct (not_listed _ _ Hok Hni) as (H1 & H2 & H3). simpl in H1, H2, H3.
  unfold wake_lock_init. set (ex := match locks s !! id with Some l => _ | None => _ end).
  exists ex. unfold shape_of, place; simpl. unfold del. rewrite !filter_ne_id by done. f_equal.
  unfold cores; simpl. by rewrite fmap_insert, core_init.
Qed.

Lemma wake_lock_init_ok s id t :
  wl_ok s → t = 0 ∨ t = 1 → (∀ c, cores s !! id = Some c → c_init c = false) → wl_ok (wake_lock_init s id t).
Proof.
  intros (Hok & Hun & Haw) Ht Hni. destruct (wake_lock_init_shape s id t Hok Ht Hni) as [x Hx].
  unfold wl_ok. rewrite Hx. split; [by apply lists_ok_place|]. split.
  - destruct Hun as (c & Hc & Hi & Htc). assert (id ≠ unknown_wakeup).
    { intros ->. rewrite (Hni c Hc) in Hi. done. }
    exists c. simpl. by rewrite lookup_insert_ne.
  - apply awaited_place; [by apply (not_listed _ _ Hok Hni)|done|done].
Qed.

(** Taking an inactive lock off the lists for good. *)
Lemma lists_ok_remove x id f :
  lists_ok x → (∀ c, sh_cores x !! id = Some c → c_init (f c) = false) →
  lists_ok (mk_shape (alter f id (sh_cores x)) (del id (sh_inactive x)) (del id (sh_suspend x)) (del id (sh_idle x))
    (sh_event x) (sh_timer x) (sh_work x) (sh_suspending x)).
Proof.
  intros [Hnd Hin Hac Hli Hor] Hf.
  assert (Ha : ∀ y t, sh_active (mk_shape y (del id (sh_inactive x)) (del id (sh_suspend x)) (del id (sh_idle x))
    (sh_event x) (sh_timer x) (sh_work x) (sh_suspending x)) t = del id (sh_active x t)).
  { intros y t. unfold sh_active; simpl. by destruct (t =? _). }
  split; simpl.
  - unfold del. rewrite <- !filter_app. by apply NoDup_filter.
  - intros i [Hne Hi]%elem_of_del. rewrite lookup_alter_ne by done. auto.
  - intros t i Ht. rewrite Ha. intros [Hne Hi]%elem_of_del. rewrite lookup_alter_ne by done. auto.
  - intros i c Hc Hi. destruct (decide (i = id)) as [->|Hne].
    + rewrite lookup_alter_eq in Hc. destruct (sh_cores x !! id) as [c0|] eqn:E; [|done].
      simpl in Hc. injection Hc as <-. rewrite (Hf c0) in Hi by done. done.
    + rewrite lookup_alter_ne in Hc by done. unfold del. rewrite <- !filter_app.
      apply list_elem_of_filter. split; [done|]. eauto.
  - intros t Ht. rewrite Ha. eapply StronglySorted_impl; [|apply StronglySorted_filter, Hor, Ht].
    intros a b [Hae _]%elem_of_del [Hbe _]%elem_of_del. unfold c_auto_at. by rewrite !lookup_alter_ne.
Qed.

Lemma wake_lock_destroy_shape s id c :
  lists_ok (shape_of s) → cores s !! id = Some c →
  let f c := mk_core (c_type c) false (c_active c) (c_auto c) (c_expires c) in
  ∃ s', wake_lock_destroy s id = Some s' ∧ lists_ok (shape_of s') ∧
    shape_of s' = mk_shape (alter f id (cores s)) (del id (inactive_locks s)) (del id (active_suspend s)) (del id (active_idle s))
      (current_event_num s) (expire_timer s) (suspend_work s) (suspending s).
Proof.
  intros Hok Hc f. unfold wake_lock_destroy.
  assert (∃ l, locks s !! id = Some l) as [l Hl].
  { unfold cores in Hc. rewrite lookup_fmap in Hc. destruct (locks s !! id); [eauto|done]. }
  rewrite Hl. cbn [mbind option_bind]. eexists. split; [done|]. set (s1 := if ctrue _ then _ else _).
  assert (Hs1 : shape_of s1 = mk_shape (alter f id (cores s)) (inactive_locks s) (active_suspend s) (active_idle s)
    (current_event_num s) (expire_timer s) (suspend_work s) (suspending s)).
  { assert (Hu : cores (upd_lock s id (λ l, clear_flag l WAKE_LOCK_INITIALIZED)) = alter f id (cores s))
      by (apply cores_upd_at; intros; apply core_clear_init).
    unfold s1. destruct (ctrue _); unfold shape_of; simpl; [|by rewrite Hu].
    rewrite cores_upd by done. by rewrite Hu. }
  assert (Hs2 : shape_of (list_del s1 id) = mk_shape (alter f id (cores s)) (del id (inactive_locks s))
    (del id (active_suspend s)) (del id (active_idle s))
    (current_event_num s) (expire_timer s) (suspend_work s) (suspending s)).
  { clearbody s1. unfold shape_of in *. injection Hs1 as H1 H2 H3 H4 H5 H6 H7 H8. simpl.
    change (cores (list_del s1 id)) with (cores s1). by rewrite H1, H2, H3, H4, H5, H6, H7, H8. }
  split; [|done]. rewrite Hs2. by apply (lists_ok_remove (shape_of s)).
Qed.

Lemma wake_lock_destroy_ok s id c :
  wl_ok s → cores s !! id = Some c → c_active c = false → id ≠ unknown_wakeup →
  ∃ s', wake_lock_destroy s id = Some s' ∧ wl_ok s'.
Proof.
  intros (Hok & Hun & Haw) Hc Hna Hne. destruct (wake_lock_destroy_shape s id c Hok Hc) as (s' & Hrun & Hok' & Hs').
  exists s'. split; [done|]. set (f := λ c, mk_core _ _ _ _ _) in Hs'.
  assert (Hid : id ∉ sh_suspend (shape_of s)).
  { intros Hin. destruct (ok_active _ Hok 0 id ltac:(by left) Hin) as (c1 & Hc1 & _ & Hx & _). simpl in Hc1. congruence. }
  split; [done|]. rewrite Hs'. split.
  - destruct Hun as (cu & Hcu & ?). exists cu. simpl. by rewrite lookup_alter_ne.
  - simpl in Hid. assert (Hdel : del id (active_suspend s) = active_suspend s) by (by apply filter_ne_id).
    assert (Hcs : ∀ i, i ∈ active_suspend s → alter f id (cores s) !! i = cores s !! i).
    { intros i Hi. rewrite lookup_alter_ne; [done|]. by intros ->. }
    destruct Haw as [[(i & Hi & Ha)|[(T & HT & Hcov)|[He Hw]]]|Has]; [left; left| | |by right].
    + exists i. simpl. rewrite Hdel. split; [done|]. unfold c_auto_at in *. by rewrite Hcs.
    + left. right. left. exists T. split; [done|]. intros i. simpl. rewrite Hdel. intros Hi. rewrite Hcs by done.
      by apply Hcov.
    + left. right. right. simpl. by rewrite Hdel.
Qed.

(** A search leaves what is awaited alone: it can only make locks with a
    time-out inactive. *)
Lemma awaited_searched e x x' t :
  lists_ok x → t = 0 ∨ t = 1 → searched e x x' t (sh_active x t) →
  (∀ id, id ∈ sh_active x t → c_auto_at (sh_cores x) id = true) →
  awaited x ∨ asleep x → awaited x' ∨ asleep x'.
Proof.
  intros Hok Ht Hse Hall Haw. pose proof (se_frame _ _ _ _ _ Hse) as (Hev & Htm & Hw & Hsu).
  assert (Hsub : ∀ id, id ∈ sh_suspend x' → id ∈ sh_suspend x ∧ sh_cores x' !! id = sh_cores x !! id).
  { intros id Hid. destruct Ht as [-> | ->].
    - pose proof (se_active _ _ _ _ _ Hse) as Ha. change (sh_active ?y 0) with (sh_suspend y) in *.
      rewrite Ha in Hid. apply list_elem_of_filter in Hid as [Hid Hin]. split; [done|]. by apply (se_cores _ _ _ _ _ Hse).
    - pose proof (se_other _ _ _ _ _ Hse 0 ltac:(by left) ltac:(lia)) as Ha.
      change (sh_active ?y 0) with (sh_suspend y) in Ha. rewrite Ha in Hid. split; [done|].
      apply (se_cores _ _ _ _ _ Hse). left. intros Hin.
      destruct (ok_active _ Hok 0 id ltac:(by left) Hid) as (c & Hc & _ & _ & ?).
      destruct (ok_active _ Hok 1 id ltac:(by right) Hin) as (c2 & Hc2 & _ & _ & ?). congruence. }
  destruct Haw as [[(i & Hi & Ha)|[(T & HT & Hcov)|[He Hw']]]|Has].
  - left. left. destruct Ht as [-> | ->].
    + change (sh_active ?y 0) with (sh_suspend y) in Hall. rewrite (Hall i Hi) in Ha. done.
    + pose proof (se_other _ _ _ _ _ Hse 0 ltac:(by left) ltac:(lia)) as Heq.
      change (sh_active ?y 0) with (sh_suspend y) in Heq. exists i. rewrite Heq. split; [done|].
      unfold c_auto_at in *. rewrite <- Heq in Hi. destruct (Hsub i Hi) as [_ ->]. done.
  - left. right. left. exists T. rewrite Htm. split; [done|]. intros id Hid.
    destruct (Hsub id Hid) as [Hin ->]. auto.
  - left. right. right. rewrite Hw. split; [|done]. apply elem_of_nil_inv. intros id Hid.
    destruct (Hsub id Hid) as [Hin _]. rewrite He in Hin. set_solver.
  - right. unfold asleep in *. congruence.
Qed.

Lemma has_wake_lock_ok e s t :
  wl_ok s → t = 0 ∨ t = 1 → ∃ s' r, has_wake_lock e s t = Some (s', r) ∧ wl_ok s'.
Proof.
  intros (Hok & Hun & Haw) Ht. destruct (has_wake_lock_cases e s t Hok Ht) as (s' & r & Hrun & Hcase).
  exists s', r. split; [done|]. destruct Hcase as [(_ & -> & _)|(_ & Hall & Hse & _)]; [done|].
  split; [apply Hse|]. split; [by eapply same_kind_unknown; [apply Hse|]|].
  by eapply awaited_searched.
Qed.

Lemma has_wake_lock_lists e s t s' r :
  lists_ok (shape_of s) → t = 0 ∨ t = 1 → has_wake_lock_locked e s t = Some (s', r) → lists_ok (shape_of s').
Proof.
  intros Hok Ht Hrun. destruct (has_wake_lock_cases e s t Hok Ht) as (s1 & r1 & Heq & Hcase). simplify_eq.
  destruct Hcase as [(_ & -> & _)|(_ & _ & Hse & _)]; [done|apply Hse].
Qed.

(** All locks have run out. *)
Definition due (e : env) (x : shape) : Prop :=
  ∀ id c, id ∈ sh_suspend x → sh_cores x !! id = Some c → c_auto c = true → c_left e c ≤ 0.

(** The timer function runs at or after the time the timer was armed for, and
    not so late that the jiffy counter has wrapped past a lock's expiry. *)
Definition punctual (e : env) (x : shape) (time : Z) : Prop :=
  ∀ id c, id ∈ sh_suspend x → sh_cores x !! id = Some c → u32 (time - c_expires c) < 2 ^ 31 →
    u32 (jiffies e - time) + u32 (time - c_expires c) ≤ 2 ^ 31.

Lemma punctual_due e x time : punctual e x time → covered x time → due e x.
Proof.
  intros Hp Hcov id c Hid Hc _. destruct (Hcov id Hid) as (c' & Hc' & Hr). rewrite Hc in Hc'.
  injection Hc' as <-. pose proof (Hp id c Hid Hc ltac:(lia)) as Hb.
  pose proof (u32_range (jiffies e - time)) as Hj.
  set (a := u32 (jiffies e - time)) in *. set (b := u32 (time - c_expires c)) in *.
  assert (Hx : u32 (c_expires c - jiffies e) = u32 (- (a + b))).
  { pose proof (Z.div_mod (jiffies e - time) (2 ^ 32) ltac:(lia)) as Hda.
    pose proof (Z.div_mod (time - c_expires c) (2 ^ 32) ltac:(lia)) as Hdb.
    replace (- (a + b)) with (c_expires c - jiffies e +
      ((jiffies e - time) / 2 ^ 32 + (time - c_expires c) / 2 ^ 32) * 2 ^ 32) by (unfold a, b, u32; lia).
    unfold u32. by rewrite Z.mod_add by lia. }
  unfold c_left. rewrite Hx. unfold u32, s32.
  destruct (Z.eq_dec (a + b) 0) as [->|]; [done|].
  rewrite (mod_unique_range (- (a + b)) (2 ^ 32 - (a + b)) _ (-1)) by lia.
  rewrite (mod_unique_range _ (2 ^ 31 - (a + b)) _ 1) by lia. lia.
Qed.

Lemma all_expired e s s' r :
  lists_ok (shape_of s) → due e (shape_of s) → ¬ held (shape_of s) →
  has_wake_lock_locked e s WAKE_LOCK_SUSPEND = Some (s', r) → r = 0 ∧ active_suspend s' = [].
Proof.
  intros Hok Hdue Hnh Hrun.
  destruct (has_wake_lock_cases e s 0 Hok ltac:(by left)) as (s1 & r1 & Heq & Hcase).
  change WAKE_LOCK_SUSPEND with 0 in Hrun. rewrite Heq in Hrun. injection Hrun as -> ->.
  destruct Hcase as [(_ & _ & id & Hin & Hau)|(Hr & Hall & Hse & Hle & Hmax)]; [exfalso; apply Hnh; by exists id|].
  assert (Hdead : ∀ id, id ∈ active s 0 → live e (cores s) id = false).
  { intros id Hid. unfold live. destruct (cores s !! id) as [c|] eqn:E; [|done].
    specialize (Hall id Hid). unfold c_auto_at in Hall. rewrite E in Hall.
    pose proof (Hdue id c Hid E Hall). lia. }
  split.
  - destruct Hmax as [?|(id & Hid & _ & Hlive)]; [done|]. rewrite Hdead in Hlive; done.
  - pose proof (se_active _ _ _ _ _ Hse) as Ha. change (sh_active (shape_of ?y) 0) with (active_suspend y) in Ha.
    rewrite Ha. apply elem_of_nil_inv. intros id [[Hn|Hl] Hin]%list_elem_of_filter; [done|].
    change (sh_cores (shape_of s)) with (cores s) in Hl. by rewrite Hdead in Hl.
Qed.

Lemma expire_wake_locks_ok e s time :
  wl_ok s → expire_timer s = Some time → punctual e (shape_of s) time →
  ∃ s', expire_wake_locks e s = Some s' ∧ wl_ok s' ∧
    (held (shape_of s) ∨ asleep (shape_of s) ∨ suspend_work s' = true ∧ active_suspend s' = []).
Proof.
  intros (Hok & Hun & Haw) Htm Hpun. unfold expire_wake_locks.
  assert (Hok1 : lists_ok (shape_of (with_timer s None))) by (by apply (lists_ok_irrel (shape_of s))).
  destruct (has_wake_lock_cases e (with_timer s None) 0 Hok1 ltac:(by left)) as (s1 & r & Hrun & Hcase).
  change WAKE_LOCK_SUSPEND with 0. rewrite Hrun. cbn [mbind option_bind]. eexists. split; [done|].
  destruct Hcase as [(-> & -> & id & Hin & Hau)|(Hr & Hall & Hse & _)].
  - simpl. assert (held (shape_of s)) as Hh by (by exists id). split; [|by left].
    split; [done|]. split; [done|]. left. by left.
  - assert (Hun1 : unknown_ok (shape_of s1)) by (eapply same_kind_unknown; [exact (se_kind _ _ _ _ _ Hse)|exact Hun]).
    assert (Hok' : ∀ b, lists_ok (shape_of (with_work s1 b))).
    { intros b. apply (lists_ok_irrel (shape_of s1)); try done. apply Hse. }
    assert (Hnh : ¬ held (shape_of (with_timer s None))).
    { intros (id & Hid & Hau). specialize (Hall id Hid). simpl in Hau. congruence. }
    assert (Hdone : due e (shape_of s) → r = 0 ∧ active_suspend s1 = []).
    { intros Hdue. by apply (all_expired e (with_timer s None)). }
    destruct Haw as [[Hh|[(T & HT & Hcov)|[He Hw]]]|Has]; [done| | |].
    + simpl in HT. rewrite Htm in HT. injection HT as <-.
      destruct Hdone as [-> Hemp]; [by eapply punctual_due|]. simpl.
      split; [|by right; right]. split; [apply Hok'|]. split; [done|]. left. right. by right.
    + destruct Hdone as [-> Hemp]; [intros id c Hid; rewrite He in Hid; set_solver|]. simpl.
      split; [|by right; right]. split; [apply Hok'|]. split; [done|]. left. right. by right.
    + split; [|by right; left]. pose proof (se_frame _ _ _ _ _ Hse) as (Hev & _ & _ & Hsu).
      assert (Hres : asleep (shape_of s1)) by (unfold asleep in *; rewrite Hev, Hsu; exact Has).
      destruct (r =? 0); (split; [apply Hok' || apply Hse|]); (split; [done|]); by right.
Qed.

Lemma suspend_enter_ok e s :
  wl_ok s → suspending s = None → suspend_work s = true →
  ∃ s', suspend_enter e s = Some s' ∧ wl_ok s'.
Proof.
  intros (Hok & Hun & Haw) Hns Hw. unfold suspend_enter, has_wake_lock.
  assert (Haw' : awaited (shape_of s)).
  { destruct Haw as [?|Has]; [done|]. unfold asleep in Has. simpl in Has. congruence. }
  set (s0 := with_work s false).
  assert (Hok0 : lists_ok (shape_of s0)) by (by apply (lists_ok_irrel (shape_of s))).
  destruct (has_wake_lock_cases e s0 0 Hok0 ltac:(by left)) as (s1 & r & Hrun & Hcase).
  change WAKE_LOCK_SUSPEND with 0. rewrite Hrun. cbn [mbind option_bind].
  exists (if ctrue r then s1 else with_suspending s1 (Some (current_event_num s1))).
  split; [by destruct (ctrue r)|].
  destruct Hcase as [(-> & -> & id & Hin & Hau)|(Hr & Hall & Hse & Hle & Hmax)].
  - simpl. split; [done|]. split; [done|]. left. left. by exists id.
  - assert (Hun1 : unknown_ok (shape_of s1)) by (eapply same_kind_unknown; [exact (se_kind _ _ _ _ _ Hse)|exact Hun]).
    destruct (ctrue r) eqn:Hcr.
    + split; [apply Hse|]. split; [done|]. left.
      assert (Hpos : r ≠ 0) by (intros ->; done). destruct Hmax as [?|(id & Hid & _ & Hlive)]; [done|].
      destruct Haw' as [(i & Hi & Hai)|[(T & HT & Hcov)|[He _]]].
      * exfalso. specialize (Hall i Hi). simpl in Hai. change (cores s0) with (cores s) in Hall. congruence.
      * right. left. exists T. pose proof (se_frame _ _ _ _ _ Hse) as (_ & Htm & _). rewrite Htm. split; [done|].
        intros j Hj. pose proof (se_active _ _ _ _ _ Hse) as Ha. change (sh_active ?y 0) with (sh_suspend y) in Ha.
        rewrite Ha in Hj. apply list_elem_of_filter in Hj as [Hj1 Hj2].
        rewrite (se_cores _ _ _ _ _ Hse j Hj1). by apply Hcov.
      * exfalso. change (active s0 0) with (active_suspend s) in Hid. simpl in He. rewrite He in Hid. set_solver.
    + split; [apply (lists_ok_irrel (shape_of s1)); try done; apply Hse|]. split; [done|]. by right.
Qed.

Lemma suspend_exit_ok e s n :
  wl_ok s → suspending s = Some n → ∃ s', suspend_exit e s = Some s' ∧ wl_ok s'.
Proof.
  intros (Hok & Hun & Haw) Hs. unfold suspend_exit. rewrite Hs. cbn [mbind option_bind].
  set (s0 := with_suspending s None). change (current_event_num s0) with (current_event_num s).
  assert (Hok0 : lists_ok (shape_of s0)) by (by apply (lists_ok_irrel (shape_of s))).
  destruct (Z.eqb_spec (current_event_num s) n) as [He|Hne].
  2: { exists s0. split; [done|]. split; [done|]. split; [done|]. left.
       destruct Haw as [?|Has]; [done|]. unfold asleep in Has. simpl in Has. congruence. }
  unfold wake_lock_timeout.
  pose proof Hun as (c & Hc & Hci & Hct). simpl in Hc. pose proof Hc as Hc'. unfold cores in Hc'.
  rewrite lookup_fmap in Hc'. destruct (locks s !! unknown_wakeup) as [l|] eqn:Hl; [|done].
  simpl in Hc'. injection Hc' as <-. simpl in Hci, Hct.
  destruct (wake_lock_internal_ok e s0 unknown_wakeup l (HZ / 2) true) as (s' & Hrun & Hok' & _); try done;
    [rewrite Hct; done|by left|]. by exists s'.
Qed.

(** ** Runs *)

(** An initialised lock is of one of the two types. *)
Lemma ok_type x id c :
  lists_ok x → sh_cores x !! id = Some c → c_init c = true → c_type c = 0 ∨ c_type c = 1.
Proof.
  intros Hok Hc Hi. pose proof (ok_listed _ Hok id c Hc Hi) as Hin. rewrite !elem_of_app in Hin.
  destruct Hin as [Hin|[Hin|Hin]].
  - destruct (ok_inactive _ Hok id Hin) as (c' & Hc' & _ & _ & _ & Ht). congruence.
  - destruct (ok_active _ Hok 0 id ltac:(by left) Hin) as (c' & Hc' & _ & _ & Ht). left; congruence.
  - destruct (ok_active _ Hok 1 id ltac:(by right) Hin) as (c' & Hc' & _ & _ & Ht). right; congruence.
Qed.

Definition initialised (s : wl_state) (id : Z) : Prop :=
  ∃ l, locks s !! id = Some l ∧ has_flag l WAKE_LOCK_INITIALIZED = true.

(** One step of the system: a call of a driver, the timer, the suspend work.  In an
    orderly system a lock is released before it is destroyed, the lock of this file that
    wake_lock_timeout is called with after a suspend is not destroyed, and the timer function
    runs neither before its time nor half a turn of the jiffy counter late. *)
Inductive wl_step (orderly : bool) : wl_state → wl_state → Prop :=
| step_lock e s id timeout ht s' : initialised s id →
    wake_lock_internal e s id timeout ht = Some s' → wl_step orderly s s'
| step_unlock e s id s' : initialised s id → wake_unlock e s id = Some s' → wl_step orderly s s'
| step_init s id t : t = WAKE_LOCK_SUSPEND ∨ t = WAKE_LOCK_IDLE → ¬ initialised s id →
    wl_step orderly s (wake_lock_init s id t)
| step_destroy s id s' : initialised s id →
    (orderly = true → wake_lock_active s id = false ∧ id ≠ unknown_wakeup) →
    wake_lock_destroy s id = Some s' → wl_step orderly s s'
| step_has e s t s' r : t = WAKE_LOCK_SUSPEND ∨ t = WAKE_LOCK_IDLE →
    has_wake_lock e s t = Some (s', r) → wl_step orderly s s'
| step_timer e s time s' : expire_timer s = Some time → (orderly = true → punctual e (shape_of s) time) →
    expire_wake_locks e s = Some s' → wl_step orderly s s'
| step_enter e s s' : suspending s = None → suspend_work s = true →
    suspend_enter e s = Some s' → wl_step orderly s s'
| step_exit e s s' : suspend_exit e s = Some s' → wl_step orderly s s'
| step_late e s s' r : power_suspend_late e s = Some (s', r) → wl_step orderly s s'.

Lemma not_initialised_core s id c : ¬ initialised s id → cores s !! id = Some c → c_init c = false.
Proof.
  intros Hni Hc. unfold cores in Hc. rewrite lookup_fmap in Hc.
  destruct (locks s !! id) as [l|] eqn:Hl; [|done]. simpl in Hc. injection Hc as <-.
  simpl. destruct (has_flag l WAKE_LOCK_INITIALIZED) eqn:E; [|done]. exfalso. apply Hni. by exists l.
Qed.

Lemma wake_lock_internal_lists e s id timeout ht s' :
  lists_ok (shape_of s) → wake_lock_internal e s id timeout ht = Some s' → lists_ok (shape_of s').
Proof.
  intros Hok Hrun. destruct (locks s !! id) as [l|] eqn:Hl; [|unfold wake_lock_internal in Hrun; by rewrite Hl in Hrun].
  destruct (has_flag l WAKE_LOCK_INITIALIZED) eqn:Hi.
  - pose proof (ok_type _ id _ Hok (lookup_cores _ _ _ Hl) Hi) as Ht.
    destruct (wake_lock_internal_gen e s id l timeout ht) as (s1 & Heq & ? & _); try done. by simplify_eq.
  - unfold wake_lock_internal in Hrun. rewrite Hl in Hrun. simpl in Hrun. rewrite Hi in Hrun. by destruct (_ >=? _).
Qed.

(** The lists stay in order in any system. *)
Lemma wl_step_lists o s s' : lists_ok (shape_of s) → wl_step o s s' → lists_ok (shape_of s').
Proof.
  intros Hok Hstep.
  destruct Hstep as [e s id timeout ht s' _ Hrun|e s id s' (l & Hl & Hi) Hrun|s id t Ht Hni
    |s id s' (l & Hl & Hi) _ Hrun|e s t s' r Ht Hrun|e s time s' _ _ Hrun|e s s' _ _ Hrun
    |e s s' Hrun|e s s' r Hrun].
  - by eapply wake_lock_internal_lists.
  - pose proof (ok_type _ id _ Hok (lookup_cores _ _ _ Hl) Hi) as Ht.
    destruct (wake_unlock_gen e s id l) as (s1 & Heq & ? & _); try done. by simplify_eq.
  - destruct (wake_lock_init_shape s id t Hok Ht) as [x ->]; [intros c; by apply not_initialised_core|].
    by apply lists_ok_place.
  - destruct (wake_lock_destroy_shape s id _ Hok (lookup_cores _ _ _ Hl)) as (s1 & Heq & ? & _). by simplify_eq.
  - by eapply has_wake_lock_lists.
  - unfold expire_wake_locks in Hrun. destruct (has_wake_lock_locked _ _ _) as [[s1 r]|] eqn:E; [|done]. simpl in Hrun.
    apply has_wake_lock_lists in E; [|by apply (lists_ok_irrel (shape_of s))|by left]. injection Hrun as <-.
    destruct (r =? 0); [by apply (lists_ok_irrel (shape_of s1))|done].
  - unfold suspend_enter, has_wake_lock in Hrun. destruct (has_wake_lock_locked _ _ _) as [[s1 r]|] eqn:E; [|done]. simpl in Hrun.
    apply has_wake_lock_lists in E; [|by apply (lists_ok_irrel (shape_of s))|by left].
    destruct (ctrue r); injection Hrun as <-; [done|by apply (lists_ok_irrel (shape_of s1))].
  - unfold suspend_exit in Hrun. destruct (suspending s) as [n|]; [|done]. simpl in Hrun.
    assert (Hok0 : lists_ok (shape_of (with_suspending s None))) by (by apply (lists_ok_irrel (shape_of s))).
    destruct (_ =? _); [by eapply wake_lock_internal_lists|by injection Hrun as <-].
  - unfold power_suspend_late, has_wake_lock in Hrun. destruct (has_wake_lock_locked _ _ _) as [[s1 r1]|] eqn:E; [|done]. simpl in Hrun.
    apply has_wake_lock_lists in E; [|done|by left]. injection Hrun as <- _. by apply (lists_ok_irrel (shape_of s1)).
Qed.

Lemma wl_step_ok s s' : wl_ok s → wl_step true s s' → wl_ok s'.
Proof.
  intros Hok Hstep. pose proof Hok as (Hlok & Hun & Haw).
  destruct Hstep as [e s id timeout ht s' (l & Hl & Hi) Hrun|e s id s' (l & Hl & Hi) Hrun|s id t Ht Hni
    |s id s' (l & Hl & Hi) Hna Hrun|e s t s' r Ht Hrun|e s time s' Htm Hpu Hrun|e s s' Hns Hw Hrun
    |e s s' Hrun|e s s' r Hrun].
  - pose proof (ok_type _ id _ Hlok (lookup_cores _ _ _ Hl) Hi) as Ht.
    destruct (wake_lock_internal_ok e s id l timeout ht) as (s1 & Heq & ? & _); try done. by simplify_eq.
  - pose proof (ok_type _ id _ Hlok (lookup_cores _ _ _ Hl) Hi) as Ht.
    destruct (wake_unlock_ok e s id l) as (s1 & Heq & ? & _); try done. by simplify_eq.
  - apply wake_lock_init_ok; try done. intros c. by apply not_initialised_core.
  - destruct (Hna eq_refl) as [Hna' Hne]. unfold wake_lock_active in Hna'. rewrite Hl in Hna'.
    destruct (wake_lock_destroy_ok s id _ Hok (lookup_cores _ _ _ Hl) Hna' Hne) as (s1 & Heq & ?). by simplify_eq.
  - destruct (has_wake_lock_ok e s t Hok Ht) as (s1 & r1 & Heq & ?). by simplify_eq.
  - destruct (expire_wake_locks_ok e s time Hok Htm (Hpu eq_refl)) as (s1 & Heq & ? & _). by simplify_eq.
  - destruct (suspend_enter_ok e s Hok Hns Hw) as (s1 & Heq & ?). by simplify_eq.
  - destruct (suspending s) as [n|] eqn:Hs; [|unfold suspend_exit in Hrun; by rewrite Hs in Hrun].
    destruct (suspend_exit_ok e s n Hok Hs) as (s1 & Heq & ?). by simplify_eq.
  - destruct (has_wake_lock_ok e s 0 Hok ltac:(by left)) as (s1 & r1 & Heq & ?).
    unfold power_suspend_late in Hrun. change WAKE_LOCK_SUSPEND with 0 in Hrun. rewrite Heq in Hrun.
    by injection Hrun as <- _.
Qed.

(** The state after start-up: the main lock is held. *)
Definition boot_shape : shape :=
  let idle := mk_core WAKE_LOCK_SUSPEND true false false 0 in
  mk_shape (<[0 := mk_core WAKE_LOCK_SUSPEND true true false LONG_MAX]> (<[1 := idle]> (<[2 := idle]> ∅)))
    [1; 2] [0] [] 1 None false None.

Lemma boot_shape_ok : lists_ok boot_shape ∧ unknown_ok boot_shape ∧ awaited boot_shape.
Proof.
  split; [split|split].
  - simpl. apply (bool_decide_unpack _). by vm_compute.
  - intros id Hid. simpl in Hid. apply elem_of_cons in Hid as [->|Hid].
    + eexists. split; [reflexivity|]. by auto.
    + apply list_elem_of_singleton in Hid as ->. eexists. split; [reflexivity|]. by auto.
  - intros t id [-> | ->] Hid; simpl in Hid.
    + apply list_elem_of_singleton in Hid as ->. eexists. split; [reflexivity|]. done.
    + by apply elem_of_nil in Hid.
  - intros id c Hc _. simpl in *. apply lookup_insert_Some in Hc as [[<- _]|[_ Hc]]; [set_solver|].
    apply lookup_insert_Some in Hc as [[<- _]|[_ Hc]]; [set_solver|].
    apply lookup_insert_Some in Hc as [[<- _]|[_ Hc]]; [set_solver|]. by rewrite lookup_empty in Hc.
  - intros t [-> | ->]; simpl; repeat constructor.
  - eexists. split; [reflexivity|]. done.
  - left. exists 0. split; [by left|done].
Qed.

Lemma wakelocks_init_ok e : ∃ s, wakelocks_init e = Some s ∧ wl_ok s.
Proof.
  destruct (wakelocks_init e) as [s|] eqn:E; [|vm_compute in E; discriminate].
  exists s. split; [done|]. assert (Hs : shape_of s = boot_shape).
  { revert E. vm_compute. intros [= <-]. reflexivity. }
  unfold wl_ok. rewrite Hs. destruct boot_shape_ok as (H1 & H2 & H3). auto.
Qed.

Lemma wl_run_lists o e s0 s : wakelocks_init e = Some s0 → rtc (wl_step o) s0 s → lists_ok (shape_of s).
Proof.
  intros Hinit Hrun. destruct (wakelocks_init_ok e) as (s1 & Heq & Hok & _). simplify_eq.
  clear Hinit. revert Hok. induction Hrun; eauto using wl_step_lists.
Qed.

Lemma wl_run_ok e s0 s : wakelocks_init e = Some s0 → rtc (wl_step true) s0 s → wl_ok s.
Proof.
  intros Hinit Hrun. destruct (wakelocks_init_ok e) as (s1 & Heq & Hok). simplify_eq.
  clear Hinit. revert Hok. induction Hrun; eauto using wl_step_ok.
Qed.


Definition example_env : env := mk_env 1000 5000000000 5000000000 10000000.
Definition boot : wl_state :=
  match wakelocks_init example_env with Some s => s | None => mk_wl ∅ [] [] [] 0 None false None 0 false end.
(** A driver takes a lock for 50 jiffies, then the main lock is released. *)
Definition boot1 : wl_state := wake_lock_init boot 7 WAKE_LOCK_SUSPEND.
Definition boot2 : wl_state := default boot1 (wake_lock_timeout example_env boot1 7 50).
Definition boot3 : wl_state := default boot2 (wake_unlock example_env boot2 main_wake_lock).

Lemma boot3_steps o : rtc (wl_step o) boot boot3.
Proof.
  apply (rtc_l _ _ boot1). { apply step_init; [by left|]. intros (l & Hl & _). vm_compute in Hl. discriminate. }
  apply (rtc_l _ _ boot2).
  { apply (step_lock o example_env _ 7 50 true); [eexists; split; vm_compute; reflexivity|vm_compute; reflexivity]. }
  apply (rtc_l _ _ boot3); [|apply rtc_refl].
  apply (step_unlock o example_env _ 0); [eexists; split; vm_compute; reflexivity|vm_compute; reflexivity].
Qed.

Lemma boot3_ok : wl_ok boot3.
Proof.
  apply (wl_run_ok example_env boot); [|apply boot3_steps]. vm_compute. reflexivity.
Qed.


(** A lock is in force: it has no time-out, or its time has not run out. *)
Definition in_force (e : env) (s : wl_state) (t id : Z) : Prop :=
  id ∈ active s t ∧ ∃ l, locks s !! id = Some l ∧
    (has_flag l WAKE_LOCK_AUTO_EXPIRE = false ∨ 0 < time_left e l).

(** What has_wake_lock returns, as its header documents it: -1 when a lock
    without a time-out is active, 0 when none is in force, and otherwise the
    number of jiffies until the last one runs out; and when it does not return
    -1, the locks that have run out are no longer active and the others are
    exactly as they were. *)
Theorem has_wake_lock_result e s t :
  lists_ok (shape_of s) → t = WAKE_LOCK_SUSPEND ∨ t = WAKE_LOCK_IDLE →
  ∃ s' r, has_wake_lock e s t = Some (s', r) ∧ -1 ≤ r ∧
    (r = -1 ↔ ∃ id l, id ∈ active s t ∧ locks s !! id = Some l ∧ has_flag l WAKE_LOCK_AUTO_EXPIRE = false) ∧
    (r = 0 ↔ ∀ id, ¬ in_force e s t id) ∧
    (0 < r → (∃ id l, id ∈ active s t ∧ locks s !! id = Some l ∧ time_left e l = r) ∧
             (∀ id l, id ∈ active s t → locks s !! id = Some l → time_left e l ≤ r)) ∧
    (r ≠ -1 → ∀ id, id ∈ active s' t ↔ in_force e s t id).
Proof.
  intros Hok Ht. destruct (has_wake_lock_cases e s t Hok Ht) as (s' & r & Hrun & Hcase).
  exists s', r. split; [done|].
  assert (Hcore : ∀ id, id ∈ active s t → ∃ l, locks s !! id = Some l ∧ cores s !! id = Some (core_of l)).
  { intros id Hid. destruct (ok_active _ Hok t id Ht Hid) as (c & Hc & _). simpl in Hc. unfold cores in *.
    rewrite lookup_fmap in *. destruct (locks s !! id) as [l|]; [|done]. by exists l. }
  destruct Hcase as [(-> & -> & id & Hid & Hau)|(Hr & Hall & Hse & Hle & Hmax)].
  - destruct (Hcore id Hid) as (l & Hl & Hc). unfold c_auto_at in Hau. rewrite Hc in Hau. simpl in Hau.
    split; [lia|]. split; [split; [eauto|done]|]. split; [split; [done|]|split; [lia|done]].
    intros Hnone. exfalso. apply (Hnone id). split; [done|]. exists l. auto.
  - assert (Hauto : ∀ id l, id ∈ active s t → locks s !! id = Some l → has_flag l WAKE_LOCK_AUTO_EXPIRE = true).
    { intros id l Hid Hl. specialize (Hall id Hid). unfold c_auto_at in Hall.
      by rewrite (lookup_cores _ _ _ Hl) in Hall. }
    assert (Hleft : ∀ id l, locks s !! id = Some l → left_at e (cores s) id = time_left e l).
    { intros id l Hl. unfold left_at. by rewrite (lookup_cores _ _ _ Hl). }
    assert (Hforce : ∀ id, in_force e s t id ↔ id ∈ active s t ∧ live e (cores s) id = true).
    { intros id. unfold in_force, live. split.
      - intros (Hid & l & Hl & Hf). split; [done|]. rewrite (lookup_cores _ _ _ Hl).
        destruct Hf as [Hf|Hf]; [by rewrite (Hauto id l) in Hf|]. apply Z.ltb_lt. exact Hf.
      - intros [Hid Hlive]. destruct (Hcore id Hid) as (l & Hl & Hc). rewrite Hc in Hlive.
        split; [done|]. exists l. split; [done|]. right. apply Z.ltb_lt in Hlive. exact Hlive. }
    assert (Hlive_left : ∀ id, live e (cores s) id = true → 0 < left_at e (cores s) id).
    { intros id. unfold live, left_at. destruct (cores s !! id); [lia|done]. }
    split; [lia|]. split.
    { split; [lia|]. intros (id & l & Hid & Hl & Hf). by rewrite (Hauto id l) in Hf. }
    split.
    { split.
      - intros -> id [Hid Hlive]%Hforce. specialize (Hle id Hid). specialize (Hlive_left id Hlive). lia.
      - intros Hnone. destruct Hmax as [?|(id & Hid & _ & Hlive)]; [done|].
        exfalso. apply (Hnone id). by apply Hforce. }
    split.
    { intros Hpos. split.
      - destruct Hmax as [?|(id & Hid & Hil & _)]; [lia|]. destruct (Hcore id Hid) as (l & Hl & _).
        exists id, l. rewrite (Hleft id l Hl) in Hil. done.
      - intros id l Hid Hl. rewrite <- (Hleft id l Hl). auto. }
    intros _ id. rewrite Hforce. change (active s' t) with (sh_active (shape_of s') t).
    rewrite (se_active _ _ _ _ _ Hse), list_elem_of_filter.
    change (sh_active (shape_of s) t) with (active s t). simpl. tauto.
Qed.

Lemma has_wake_lock_result_witness :
  ∃ s' r, has_wake_lock example_env boot3 WAKE_LOCK_SUSPEND = Some (s', r) ∧ r = 50.
Proof.
  destruct (has_wake_lock_result example_env boot3 WAKE_LOCK_SUSPEND) as (s' & r & Hrun & _).
  - exact (proj1 boot3_ok).
  - left; reflexivity.
  - exists s', r. split; [exact Hrun|]. revert Hrun. vm_compute. intros [= _ <-]. reflexivity.
Defined.

(** A lock that has just been taken without a time-out is in force. *)
Lemma lock_in_force e s id l s1 e' :
  lists_ok (shape_of s) → locks s !! id = Some l → lock_type l = WAKE_LOCK_SUSPEND → wake_lock_ e s id = Some s1 →
  lists_ok (shape_of s1) ∧ in_force e' s1 WAKE_LOCK_SUSPEND id.
Proof.
  intros Hok Hl Hty Hrun. unfold wake_lock_ in Hrun. pose proof (wake_lock_internal_lists _ _ _ _ _ _ Hok Hrun) as Hok1.
  split; [done|]. destruct (has_flag l WAKE_LOCK_INITIALIZED) eqn:Hi.
  2: { unfold wake_lock_internal in Hrun. rewrite Hl in Hrun. simpl in Hrun. rewrite Hi in Hrun. by destruct (_ >=? _). }
  destruct (wake_lock_internal_gen e s id l 0 false Hok Hl Hi) as (s2 & Heq & _ & _ & _ & _ & Hc); [by left|].
  rewrite Heq in Hrun. injection Hrun as ->. specialize (Hc ltac:(done)).
  assert (Hin : id ∈ active_suspend s1).
  { pose proof (ok_listed _ Hok1 id _ Hc Hi) as Hin. rewrite !elem_of_app in Hin. destruct Hin as [Hin|[Hin|Hin]]; [|done|].
    - destruct (ok_inactive _ Hok1 id Hin) as (c & Hc' & _ & Hna & _). change (sh_cores (shape_of s1)) with (cores s1) in Hc'.
      rewrite Hc in Hc'. injection Hc' as <-. done.
    - destruct (ok_active _ Hok1 1 id ltac:(by right) Hin) as (c & Hc' & _ & _ & Ht). change (sh_cores (shape_of s1)) with (cores s1) in Hc'.
      rewrite Hc in Hc'. injection Hc' as <-. simpl in Ht. rewrite Hty in Ht. done. }
  split; [done|]. unfold cores in Hc. rewrite lookup_fmap in Hc. destruct (locks s1 !! id) as [l1|]; [|done].
  exists l1. split; [done|]. left. simpl in Hc. injection Hc as _ _ _ Hau _. done.
Qed.

(** The search of the suspend path, by whether a lock is in force. *)
Lemma has_wake_lock_force e s :
  lists_ok (shape_of s) →
  ∃ s' r, has_wake_lock e s WAKE_LOCK_SUSPEND = Some (s', r) ∧
    suspending s' = suspending s ∧
    (ctrue r = false ↔ ∀ id, ¬ in_force e s WAKE_LOCK_SUSPEND id) ∧
    (ctrue r = false → active_suspend s' = []).
Proof.
  intros Hok. destruct (has_wake_lock_cases e s 0 Hok ltac:(by left)) as (s' & r & Hrun & Hcase).
  exists s', r. split; [exact Hrun|].
  assert (Hcore : ∀ id, id ∈ active s 0 → ∃ l, locks s !! id = Some l ∧ cores s !! id = Some (core_of l)).
  { intros id Hid. destruct (ok_active _ Hok 0 id ltac:(by left) Hid) as (c & Hc & _). simpl in Hc. unfold cores in *.
    rewrite lookup_fmap in *. destruct (locks s !! id) as [l|]; [|done]. by exists l. }
  destruct Hcase as [(-> & -> & id & Hid & Hau)|(Hr & Hall & Hse & Hle & Hmax)].
  - split; [done|]. split; [|done]. split; [done|]. intros Hno. exfalso. apply (Hno id).
    destruct (Hcore id Hid) as (l & Hl & Hc). unfold c_auto_at in Hau. rewrite Hc in Hau.
    split; [done|]. exists l. auto.
  - pose proof (se_frame _ _ _ _ _ Hse) as (_ & _ & _ & Hsu). split; [exact Hsu|].
    assert (Hr0 : ctrue r = false ↔ r = 0) by (unfold ctrue; destruct (Z.eqb_spec r 0); naive_solver).
    assert (Hlive : ∀ id, id ∈ active s 0 → live e (cores s) id = true ↔ in_force e s 0 id).
    { intros id Hid. destruct (Hcore id Hid) as (l & Hl & Hc). specialize (Hall id Hid).
      unfold live, in_force, c_auto_at in *. rewrite Hc in *. simpl in Hall. change (c_left e (core_of l)) with (time_left e l).
      rewrite Z.ltb_lt. split; [intros; split; [done|]; exists l; auto|].
      intros (_ & l' & Hl' & [Hf|Hf]); rewrite Hl in Hl'; injection Hl' as <-; [congruence|done]. }
    rewrite Hr0. split.
    + split.
      * intros -> id Hf. assert (Hid : id ∈ active s 0) by apply Hf. apply Hlive in Hf; [|done].
        specialize (Hle id Hid). unfold live, left_at in *. destruct (cores s !! id); [lia|done].
      * intros Hno. destruct Hmax as [?|(id & Hid & _ & Hl)]; [done|]. exfalso. apply (Hno id). by apply Hlive.
    + intros ->. pose proof (se_active _ _ _ _ _ Hse) as Ha.
      change (sh_active (shape_of ?y) 0) with (active_suspend y) in Ha. rewrite Ha.
      apply elem_of_nil_inv. intros id [[Hn|Hl] Hin]%list_elem_of_filter; [done|].
      specialize (Hle id Hin). change (sh_cores (shape_of s)) with (cores s) in Hl.
      unfold live, left_at in *. destruct (cores s !! id); [lia|done].
Qed.

(** C10: The system is suspended exactly when no suspend lock is in force.  In every state
    that can be reached from start-up, whatever drivers do: when the suspend work runs, it
    enters [pm_suspend] if and only if no lock is in force, with no active lock left;
    [power_suspend_late], run with interrupts off just before the system sleeps, aborts with
    -EAGAIN if and only if one is; and a lock that is taken between the two, without a
    time-out, makes it abort. *)
Theorem wakelock_suspend_safe e0 s0 s e :
  wakelocks_init e0 = Some s0 → rtc (wl_step false) s0 s →
  (suspending s = None → suspend_work s = true →
   ∃ s', suspend_enter e s = Some s' ∧
     (suspending s' ≠ None ↔ ∀ id, ¬ in_force e s WAKE_LOCK_SUSPEND id) ∧
     (suspending s' ≠ None → active_suspend s' = [])) ∧
  (∃ s' r, power_suspend_late e s = Some (s', r) ∧ (r = 0 ∨ r = - EAGAIN) ∧
     (r = 0 ↔ ∀ id, ¬ in_force e s WAKE_LOCK_SUSPEND id)) ∧
  (∀ e1 id l s1, locks s !! id = Some l → lock_type l = WAKE_LOCK_SUSPEND → wake_lock_ e1 s id = Some s1 →
     ∃ s', power_suspend_late e s1 = Some (s', - EAGAIN)).
Proof.
  intros Hinit Hreach. pose proof (wl_run_lists false e0 s0 s Hinit Hreach) as Hok.
  assert (Hlate : ∀ s, lists_ok (shape_of s) → ∃ s' r, power_suspend_late e s = Some (s', r) ∧ (r = 0 ∨ r = - EAGAIN) ∧
     (r = 0 ↔ ∀ id, ¬ in_force e s WAKE_LOCK_SUSPEND id)).
  { clear. intros s Hok. unfold power_suspend_late. destruct (has_wake_lock_force e s Hok) as (s1 & r & -> & _ & Hiff & _).
    cbn [mbind option_bind]. eexists _, _. split; [done|].
    destruct (ctrue r); (split; [auto|]); split; [done|intros Hno%Hiff; done|intros _; by apply Hiff|done]. }
  split; [|split; [by apply Hlate|]].
  - intros Hns _. unfold suspend_enter.
    assert (Hok0 : lists_ok (shape_of (with_work s false))) by (by apply (lists_ok_irrel (shape_of s))).
    destruct (has_wake_lock_force e (with_work s false) Hok0) as (s1 & r & -> & Hsu & Hiff & Hemp).
    cbn [mbind option_bind]. simpl in Hsu. change (in_force e (with_work s false)) with (in_force e s) in Hiff.
    destruct (ctrue r); eexists; (split; [done|]); simpl.
    + rewrite Hsu, Hns. split; [|done]. split; [done|]. intros Hno%Hiff. done.
    + split; [|auto]. split; [|done]. intros _. by apply Hiff.
  - intros e1 id l s1 Hl Hty Hrun. destruct (lock_in_force e1 s id l s1 e Hok Hl Hty Hrun) as [Hok1 Hf].
    destruct (Hlate s1 Hok1) as (s' & r & Hr & [-> | ->] & Hiff); [|by exists s'].
    destruct (proj1 Hiff eq_refl id Hf).
Qed.

(** All locks have been released and the work has been queued. *)
Definition boot4 : wl_state := default boot3 (wake_unlock example_env boot3 7).

Lemma boot4_steps o : rtc (wl_step o) boot boot4.
Proof.
  eapply rtc_r; [apply boot3_steps|].
  apply (step_unlock o example_env _ 7); [eexists; split; vm_compute; reflexivity|vm_compute; reflexivity].
Qed.

Lemma wakelock_suspend_safe_witness :
  ∃ s', suspend_enter example_env boot4 = Some s' ∧ suspending s' ≠ None.
Proof.
  destruct (wakelock_suspend_safe example_env boot boot4 example_env) as (Henter & _ & _).
  - vm_compute; reflexivity.
  - apply boot4_steps.
  - destruct Henter as (s' & Hrun & _); [vm_compute; reflexivity|vm_compute; reflexivity|].
    exists s'. split; [exact Hrun|]. revert Hrun. vm_compute. intros [= <-]. discriminate.
Defined.

(** C11: A suspend attempt follows.  In every state that an orderly system (see [wl_step]) can
    reach from start-up: while the system is awake and no lock without a time-out is held,
    either the work item is queued, nothing is held, and the work function enters the
    suspend; or the expire timer is armed, and when the timer function runs, punctually,
    every lock has run out: it queues the work item and leaves no lock active. *)
Theorem wakelock_suspend_follows e0 s0 s e :
  wakelocks_init e0 = Some s0 → rtc (wl_step true) s0 s → suspending s = None → ¬ held (shape_of s) →
  (active_suspend s = [] ∧ suspend_work s = true ∧ ∃ s', suspend_enter e s = Some s' ∧ suspending s' ≠ None) ∨
  ∃ time, expire_timer s = Some time ∧
    (punctual e (shape_of s) time →
     ∃ s', expire_wake_locks e s = Some s' ∧ suspend_work s' = true ∧ active_suspend s' = []).
Proof.
  intros Hinit Hreach Hns Hnh. pose proof (wl_run_ok e0 s0 s Hinit Hreach) as Hok. pose proof Hok as (_ & _ & Haw).
  assert (Hna : ¬ asleep (shape_of s)) by (unfold asleep; simpl; congruence).
  destruct Haw as [[?|[(time & Htm & Hcov)|[He Hw]]]|?]; [done| | |done].
  - right. exists time. split; [done|]. intros Hpu.
    destruct (expire_wake_locks_ok e s time Hok Htm Hpu) as (s' & Hrun & _ & [?|[?|[Hw He]]]); [done|done|].
    by exists s'.
  - left. simpl in He, Hw. split_and!; try done. unfold suspend_enter.
    assert (Hok0 : lists_ok (shape_of (with_work s false))) by (apply (lists_ok_irrel (shape_of s)); try done; apply Hok).
    destruct (has_wake_lock_force e (with_work s false) Hok0) as (s1 & r & -> & _ & Hiff & _). cbn [mbind option_bind].
    assert (ctrue r = false) as ->; [|by eexists]. apply Hiff. intros id [Hid _].
    change (active (with_work s false) WAKE_LOCK_SUSPEND) with (active_suspend s) in Hid. rewrite He in Hid. by apply elem_of_nil in Hid.
Qed.

Lemma wakelock_suspend_follows_witness :
  ∃ time, expire_timer boot3 = Some time ∧ time = 1050.
Proof.
  destruct (wakelock_suspend_follows example_env boot boot3 (mk_env 1050 5500000000 5500000000 10000000)) as [[H _]|(time & Htm & _)].
  - vm_compute; reflexivity.
  - apply boot3_steps.
  - vm_compute; reflexivity.
  - intros (id & Hid & Hau). vm_compute in Hid. apply list_elem_of_singleton in Hid as ->. vm_compute in Hau. discriminate.
  - vm_compute in H. discriminate.
  - exists time. split; [exact Htm|]. revert Htm. vm_compute. intros [= <-]. reflexivity.
Defined.
