(* ===== verification/EarlySuspend.v ===== *)
(** Early suspend (kernel/power/earlysuspend.c): the state machine between the
    user's request to sleep or wake, the drivers' handlers and the main wake
    lock.

    The wake lock is used through an interface, [MainLock], which the model of
    kernel/power/wakelock.c implements.  The two work functions run one after
    the other on one work queue; [early_suspend] drops its locks between its
    first part (which calls the handlers) and its last, so it is two steps, and
    requests may come in between. *)

From S2P Require Import Prelude Wakelock.

(** ** What the wake lock component promises *)

Class MainLock (W E : Type) := {
  ml_inv : W → Prop;
  ml_held : W → bool;
  ml_lock : E → W → option W;
  ml_unlock : E → W → option W;
  ml_lock_ok : ∀ e w, ml_inv w → ∃ w', ml_lock e w = Some w' ∧ ml_inv w' ∧ ml_held w' = true;
  ml_unlock_ok : ∀ e w, ml_inv w → ∃ w', ml_unlock e w = Some w' ∧ ml_inv w' ∧ ml_held w' = false }.

(** ** Data *)

Definition SUSPEND_REQUESTED : Z := 1.
Definition SUSPENDED : Z := 2.
Definition SUSPEND_REQUESTED_AND_SUSPENDED : Z := Z.lor SUSPEND_REQUESTED SUSPENDED.
Definition PM_SUSPEND_ON : Z := 0.

(** A registered handler: its level and which callbacks it has. *)
Record early_suspend_handler := mk_handler { h_id : Z; level : Z; h_suspend : bool; h_resume : bool }.

#[global] Instance handler_eq_dec : EqDecision early_suspend_handler.
Proof. solve_decision. Defined.

(** The callbacks made, for the record. *)
Inductive callback := CallSuspend (h : early_suspend_handler) | CallResume (h : early_suspend_handler).

Inductive work := early_suspend_work | late_resume_work.

#[global] Instance work_eq_dec : EqDecision work.
Proof. solve_decision. Defined.

Section early_suspend.
Context {W E : Type} `{!MainLock W E}.

Record es_state := mk_es {
  state : Z;
  early_suspend_handlers : list early_suspend_handler;
  requested_suspend_state : Z;
  queue : list work;              (* the single-threaded work queue *)
  in_early_suspend : bool;        (* between the two parts of early_suspend *)
  wake : W;
  callbacks : list callback }.

Definition set_state (s : es_state) st :=
  mk_es st (early_suspend_handlers s) (requested_suspend_state s) (queue s) (in_early_suspend s) (wake s) (callbacks s).
Definition set_handlers (s : es_state) h :=
  mk_es (state s) h (requested_suspend_state s) (queue s) (in_early_suspend s) (wake s) (callbacks s).
Definition set_queue (s : es_state) q :=
  mk_es (state s) (early_suspend_handlers s) (requested_suspend_state s) q (in_early_suspend s) (wake s) (callbacks s).
Definition set_in_early (s : es_state) b :=
  mk_es (state s) (early_suspend_handlers s) (requested_suspend_state s) (queue s) b (wake s) (callbacks s).
Definition set_wake (s : es_state) w :=
  mk_es (state s) (early_suspend_handlers s) (requested_suspend_state s) (queue s) (in_early_suspend s) w (callbacks s).
Definition set_requested (s : es_state) r :=
  mk_es (state s) (early_suspend_handlers s) r (queue s) (in_early_suspend s) (wake s) (callbacks s).
Definition call (s : es_state) cs :=
  mk_es (state s) (early_suspend_handlers s) (requested_suspend_state s) (queue s) (in_early_suspend s) (wake s)
    (callbacks s ++ cs).

(** queue_work: an item that is already queued stays where it is. *)
Definition queue_work (s : es_state) (w : work) : es_state :=
  if decide (w ∈ queue s) then s else set_queue s (queue s ++ [w]).

(** ** Handlers *)

Fixpoint insert_handler (h : early_suspend_handler) (l : list early_suspend_handler) :=
  match l with
  | [] => [h]
  | e :: l => if level e >? level h then h :: e :: l else e :: insert_handler h l
  end.

Definition register_early_suspend_actual (s : es_state) (h : early_suspend_handler) : es_state :=
  let s := set_handlers s (insert_handler h (early_suspend_handlers s)) in
  if ctrue (Z.land (state s) SUSPENDED) && h_suspend h then call s [CallSuspend h] else s.

Definition unregister_early_suspend (s : es_state) (h : early_suspend_handler) : es_state :=
  set_handlers s (filter (λ x, x ≠ h) (early_suspend_handlers s)).

(** ** The work functions *)

(** [early_suspend] up to [sys_sync]. *)
Definition early_suspend_begin (s : es_state) : es_state :=
  let s := set_in_early s true in
  if state s =? SUSPEND_REQUESTED then
    let s := set_state s (Z.lor (state s) SUSPENDED) in
    call s (CallSuspend <$> filter (λ h, h_suspend h = true) (early_suspend_handlers s))
  else s.

(** From the label [abort] on. *)
Definition early_suspend_end (e : E) (s : es_state) : option es_state :=
  let s := set_in_early s false in
  if state s =? SUSPEND_REQUESTED_AND_SUSPENDED then w ← ml_unlock e (wake s); Some (set_wake s w)
  else Some s.

Definition late_resume (s : es_state) : es_state :=
  if state s =? SUSPENDED then
    let s := set_state s (Z.land (state s) (Z.lnot SUSPENDED)) in
    call s (CallResume <$> filter (λ h, h_resume h = true) (reverse (early_suspend_handlers s)))
  else s.

Definition request_suspend_state (e : E) (s : es_state) (new_state : Z) : option es_state :=
  let old_sleep := Z.land (state s) SUSPEND_REQUESTED in
  s ← (if negb (ctrue old_sleep) && negb (new_state =? PM_SUSPEND_ON) then
         let s := set_state s (Z.lor (state s) SUSPEND_REQUESTED) in
         Some (queue_work s early_suspend_work)
       else if ctrue old_sleep && (new_state =? PM_SUSPEND_ON) then
         let s := set_state s (Z.land (state s) (Z.lnot SUSPEND_REQUESTED)) in
         w ← ml_lock e (wake s);
         Some (queue_work (set_wake s w) late_resume_work)
       else Some s);
  Some (set_requested s new_state).

Definition get_suspend_state (s : es_state) : Z := requested_suspend_state s.

(** ** Runs *)

Inductive es_step : es_state → es_state → Prop :=
| es_register s h : es_step s (register_early_suspend_actual s h)
| es_unregister s h : es_step s (unregister_early_suspend s h)
| es_request e s n s' : request_suspend_state e s n = Some s' → es_step s s'
| es_begin s q : queue s = early_suspend_work :: q → in_early_suspend s = false →
    es_step s (early_suspend_begin (set_queue s q))
| es_end e s s' : in_early_suspend s = true → early_suspend_end e s = Some s' → es_step s s'
| es_resume s q : queue s = late_resume_work :: q → in_early_suspend s = false →
    es_step s (late_resume (set_queue s q))
| es_wake s w : ml_inv w → ml_held w = ml_held (wake s) → es_step s (set_wake s w).

(** At start the system is awake and the main lock held. *)
Definition es_init (s : es_state) : Prop :=
  state s = 0 ∧ early_suspend_handlers s = [] ∧ queue s = [] ∧ in_early_suspend s = false ∧
  ml_inv (wake s) ∧ ml_held (wake s) = true.

Definition level_le (a b : early_suspend_handler) : Prop := level a ≤ level b.

Record es_ok (s : es_state) : Prop := {
  es_wake_inv : ml_inv (wake s);
  es_sorted : StronglySorted level_le (early_suspend_handlers s);
  es_flags : 0 ≤ state s < 4;
  es_nodup : NoDup (queue s);
  (* no sleep requested: the main lock is held *)
  es_awake : state s = 0 ∨ state s = 2 → ml_held (wake s) = true;
  (* what is still to be done is queued *)
  es_to_suspend : state s = 1 → early_suspend_work ∈ queue s;
  es_to_resume : state s = 2 → late_resume_work ∈ queue s;
  es_to_unlock : state s = 3 → ml_held (wake s) = false ∨ early_suspend_work ∈ queue s ∨
                                in_early_suspend s = true }.

Lemma insert_handler_elem h l x : x ∈ insert_handler h l ↔ x = h ∨ x ∈ l.
Proof.
  induction l as [|e l IH]; simpl; [set_solver|]. destruct (level e >? level h); set_solver.
Qed.

Lemma insert_handler_sorted h l : StronglySorted level_le l → StronglySorted level_le (insert_handler h l).
Proof.
  induction 1 as [|e l Hl IH He]; simpl; [repeat constructor|]. rewrite Forall_forall in He.
  rewrite Z.gtb_ltb. destruct (Z.ltb_spec (level h) (level e)).
  - constructor; [constructor; [done|by apply Forall_forall]|]. apply Forall_forall.
    intros x [->|Hx]%elem_of_cons; unfold level_le in *; [lia|]. specialize (He x Hx). lia.
  - constructor; [done|]. apply Forall_forall. intros x [->|Hx]%insert_handler_elem; unfold level_le in *; [lia|auto].
Qed.

Lemma queue_work_elem s w x : x ∈ queue (queue_work s w) ↔ x = w ∨ x ∈ queue s.
Proof. unfold queue_work. case_decide; simpl; set_solver. Qed.

Lemma queue_work_frame s w :
  state (queue_work s w) = state s ∧ wake (queue_work s w) = wake s ∧
  in_early_suspend (queue_work s w) = in_early_suspend s ∧
  early_suspend_handlers (queue_work s w) = early_suspend_handlers s.
Proof. unfold queue_work. by case_decide. Qed.

Lemma queue_work_nodup s w : NoDup (queue s) → NoDup (queue (queue_work s w)).
Proof.
  intros Hnd. unfold queue_work. case_decide; [done|]. simpl. apply NoDup_app. split_and!; [done|set_solver|].
  apply NoDup_singleton.
Qed.

(** The four states. *)
Lemma state_cases x : 0 ≤ x < 4 → x = 0 ∨ x = 1 ∨ x = 2 ∨ x = 3.
Proof. lia. Qed.

Lemma es_ok_requested s n : es_ok s → es_ok (set_requested s n).
Proof. intros []. by constructor. Qed.

Lemma es_ok_sleep s st :
  es_ok s → state s = 0 ∧ st = 1 ∨ state s = 2 ∧ st = 3 → es_ok (queue_work (set_state s st) early_suspend_work).
Proof.
  intros [Hw Hs Hf Hq Haw H1 H2 H3] Hst.
  destruct (queue_work_frame (set_state s st) early_suspend_work) as (A1 & A2 & A3 & A4).
  pose proof (queue_work_elem (set_state s st) early_suspend_work) as Hel.
  split; rewrite ?A1, ?A2, ?A3, ?A4; simpl; try done; try lia; try (by apply queue_work_nodup);
    intros; try lia; rewrite Hel; auto.
Qed.

Lemma es_ok_wake s st w :
  es_ok s → state s = 1 ∧ st = 0 ∨ state s = 3 ∧ st = 2 → ml_inv w → ml_held w = true →
  es_ok (queue_work (set_wake (set_state s st) w) late_resume_work).
Proof.
  intros [Hw Hs Hf Hq Haw H1 H2 H3] Hst Hw' Hh.
  destruct (queue_work_frame (set_wake (set_state s st) w) late_resume_work) as (A1 & A2 & A3 & A4).
  pose proof (queue_work_elem (set_wake (set_state s st) w) late_resume_work) as Hel.
  split; rewrite ?A1, ?A2, ?A3, ?A4; simpl; try done; try lia; try (by apply queue_work_nodup);
    intros; try lia; rewrite Hel; auto.
Qed.

Lemma request_ok e s n :
  es_ok s → ∃ s', request_suspend_state e s n = Some s' ∧ es_ok s' ∧
    ctrue (Z.land (state s') SUSPEND_REQUESTED) = negb (n =? PM_SUSPEND_ON).
Proof.
  intros Hok. destruct (ml_lock_ok e (wake s) (es_wake_inv _ Hok)) as (w & Hlock & Hw & Hh).
  unfold request_suspend_state. destruct (n =? PM_SUSPEND_ON);
    destruct (state_cases _ (es_flags _ Hok)) as [Es|[Es|[Es|Es]]]; rewrite Es;
    cbn -[queue_work]; rewrite ?Hlock; cbn -[queue_work];
    (eexists; split; [done|]; split; [apply es_ok_requested|cbn -[queue_work]]);
    try done; try (by apply es_ok_sleep; [|auto]); try (by apply es_ok_wake; [|auto|..]);
    rewrite ?(proj1 (queue_work_frame _ _)); simpl; by rewrite ?Es.
Qed.

Lemma begin_ok s q :
  es_ok s → queue s = early_suspend_work :: q → in_early_suspend s = false →
  es_ok (early_suspend_begin (set_queue s q)).
Proof.
  intros [Hw Hs Hf Hq Haw H1 H2 H3] Hqu Hin. rewrite Hqu in *. apply NoDup_cons in Hq as [Hnq Hq].
  unfold early_suspend_begin. simpl. destruct (Z.eqb_spec (state s) SUSPEND_REQUESTED) as [Es|Es].
  - unfold SUSPEND_REQUESTED in Es. rewrite Es. change (Z.lor 1 SUSPENDED) with 3.
    split; simpl; try done; try lia; try (intros; exfalso; lia); auto.
  - split; simpl; try done; try (intros; exfalso; unfold SUSPEND_REQUESTED in Es; lia).
    + intros Hst. specialize (H2 Hst). set_solver.
    + auto.
Qed.

Lemma end_ok e s :
  es_ok s → in_early_suspend s = true → ∃ s', early_suspend_end e s = Some s' ∧ es_ok s' ∧ state s' = state s ∧
    queue s' = queue s ∧ in_early_suspend s' = false.
Proof.
  intros [Hw Hs Hf Hq Haw H1 H2 H3] Hin. unfold early_suspend_end. simpl.
  destruct (ml_unlock_ok e (wake s) Hw) as (w & -> & Hw' & Hh).
  destruct (Z.eqb_spec (state s) SUSPEND_REQUESTED_AND_SUSPENDED) as [Es|Es]; simpl; eexists; (split; [done|]).
  - change SUSPEND_REQUESTED_AND_SUSPENDED with 3 in Es. split; [|done]. split; simpl; try done; try (intros; exfalso; lia); auto.
  - change SUSPEND_REQUESTED_AND_SUSPENDED with 3 in Es. split; [|done]. split; simpl; try done; intros; exfalso; lia.
Qed.

Lemma resume_ok s q :
  es_ok s → queue s = late_resume_work :: q → in_early_suspend s = false →
  es_ok (late_resume (set_queue s q)).
Proof.
  intros [Hw Hs Hf Hq Haw H1 H2 H3] Hqu Hin. rewrite Hqu in *. apply NoDup_cons in Hq as [Hnq Hq].
  unfold late_resume. simpl. destruct (Z.eqb_spec (state s) SUSPENDED) as [Es|Es].
  - unfold SUSPENDED in Es. rewrite Es. change (Z.land 2 (Z.lnot SUSPENDED)) with 0.
    split; simpl; try done; try lia; try (intros; exfalso; lia). intros _. apply Haw. by right.
  - unfold SUSPENDED in Es. split; simpl; try done.
    + intros Hst. specialize (H1 Hst). set_solver.
    + intros Hst. specialize (H3 Hst). rewrite Hin in *. set_solver.
Qed.

Lemma es_step_ok s s' : es_ok s → es_step s s' → es_ok s'.
Proof.
  intros Hok Hstep. destruct Hstep as [s h|s h|e s n s' Hrun|s q Hq Hin|e s s' Hin Hrun|s q Hq Hin|s w Hw Hh].
  - assert (Hok' : es_ok (set_handlers s (insert_handler h (early_suspend_handlers s)))).
    { destruct Hok. split; simpl; try done. by apply insert_handler_sorted. }
    unfold register_early_suspend_actual. destruct (_ && _); [|done]. destruct Hok'. by split.
  - destruct Hok. split; simpl; try done. by apply StronglySorted_filter.
  - destruct (request_ok e s n Hok) as (s1 & Heq & ? & _). by simplify_eq.
  - by apply begin_ok.
  - destruct (end_ok e s Hok Hin) as (s1 & Heq & ? & _). by simplify_eq.
  - by apply resume_ok.
  - destruct Hok. split; simpl; rewrite ?Hh; done.
Qed.

Lemma es_init_ok s : es_init s → es_ok s.
Proof.
  intros (Hs & Hh & Hq & Hin & Hw & Hl).
  split; rewrite ?Hs, ?Hh, ?Hq; try done; try lia; constructor.
Qed.

(** A quiet system has done what was asked of it. *)
Lemma settled s :
  es_ok s → queue s = [] → in_early_suspend s = false →
  (state s = 0 ∧ ml_held (wake s) = true) ∨ (state s = 3 ∧ ml_held (wake s) = false).
Proof.
  intros [Hw Hs Hf Hq Haw H1 H2 H3] Hqu Hin. rewrite Hqu, Hin in *.
  destruct (state_cases _ Hf) as [Es|[Es|[Es|Es]]].
  - left. auto.
  - specialize (H1 Es). set_solver.
  - specialize (H2 Es). set_solver.
  - right. destruct (H3 Es) as [?|[?|?]]; [done|set_solver|done].
Qed.

(** C12: The main wake lock follows the user's wish.  Whatever is requested,
    registered or run, in any interleaving: while no sleep is requested the
    main lock is held, so the system cannot suspend; when the work queue is
    empty the system is either fully awake with the lock held or fully
    suspended with the lock released; and the handlers are kept in ascending
    order of level, the order in which they are called to suspend. *)
Theorem early_suspend_safe s0 s :
  es_init s0 → rtc es_step s0 s →
  (Z.land (state s) SUSPEND_REQUESTED = 0 → ml_held (wake s) = true) ∧
  (queue s = [] → in_early_suspend s = false →
     (state s = 0 ∧ ml_held (wake s) = true) ∨ (state s = 3 ∧ ml_held (wake s) = false)) ∧
  StronglySorted level_le (early_suspend_handlers s).
Proof.
  intros Hinit Hrun. assert (Hok : es_ok s).
  { apply es_init_ok in Hinit. revert Hinit. clear -Hrun. induction Hrun; eauto using es_step_ok. }
  split; [|split; [intros; by apply settled|apply Hok]].
  intros Hl. apply (es_awake _ Hok).
  destruct (state_cases _ (es_flags _ Hok)) as [Es|[Es|[Es|Es]]]; rewrite Es in Hl; auto; by vm_compute in Hl.
Qed.

(** The work queue run until it is empty. *)
Fixpoint drain (fuel : nat) (e : nat → E) (s : es_state) : option es_state :=
  match fuel with
  | O => None
  | S fuel =>
      if in_early_suspend s then s ← early_suspend_end (e fuel) s; drain fuel e s
      else match queue s with
           | [] => Some s
           | early_suspend_work :: q => drain fuel e (early_suspend_begin (set_queue s q))
           | late_resume_work :: q => drain fuel e (late_resume (set_queue s q))
           end
  end.

Definition requested (s : es_state) : bool := ctrue (Z.land (state s) SUSPEND_REQUESTED).

Lemma begin_frame s :
  requested (early_suspend_begin s) = requested s ∧ queue (early_suspend_begin s) = queue s ∧
  in_early_suspend (early_suspend_begin s) = true.
Proof.
  unfold early_suspend_begin, requested. simpl.
  destruct (Z.eqb_spec (state s) SUSPEND_REQUESTED) as [Es|]; simpl; [|done]. by rewrite Es.
Qed.

Lemma resume_frame s :
  requested (late_resume s) = requested s ∧ queue (late_resume s) = queue s ∧
  in_early_suspend (late_resume s) = in_early_suspend s.
Proof.
  unfold late_resume, requested. destruct (Z.eqb_spec (state s) SUSPENDED) as [Es|]; simpl; [|done]. by rewrite Es.
Qed.

Lemma drain_spec fuel e s :
  es_ok s → (2 * length (queue s) + (if in_early_suspend s then 1 else 0) < fuel)%nat →
  ∃ s', drain fuel e s = Some s' ∧ es_ok s' ∧ queue s' = [] ∧ in_early_suspend s' = false ∧
    requested s' = requested s.
Proof.
  revert s. induction fuel as [|fuel IH]; intros s Hok Hlt; [lia|]. simpl.
  destruct (in_early_suspend s) eqn:Hin.
  - destruct (end_ok (e fuel) s Hok Hin) as (s1 & -> & Hok1 & Hst & Hq & Hin1). simpl.
    destruct (IH s1 Hok1) as (s2 & Hrun & ? & ? & ? & Hr); [rewrite Hq, Hin1; lia|].
    exists s2. split_and!; try done. rewrite Hr. unfold requested. by rewrite Hst.
  - destruct (queue s) as [|[] q] eqn:Hq; [by exists s| |]; simpl in Hlt.
    + destruct (begin_frame (set_queue s q)) as (Hr & Hq' & Hin').
      destruct (IH _ (begin_ok s q Hok Hq Hin)) as (s2 & Hrun & ? & ? & ? & Hr2); [rewrite Hq', Hin'; simpl; lia|].
      exists s2. split_and!; try done. by rewrite Hr2, Hr.
    + destruct (resume_frame (set_queue s q)) as (Hr & Hq' & Hin').
      destruct (IH _ (resume_ok s q Hok Hq Hin)) as (s2 & Hrun & ? & ? & ? & Hr2).
      { rewrite Hq', Hin'. simpl. rewrite Hin. lia. }
      exists s2. split_and!; try done. by rewrite Hr2, Hr.
Qed.

(** C13: Every request is carried out.  From any reachable state, including the
    middle of an earlier suspend or resume, a request followed by a run of the
    work queue ends, and ends with the system awake and the main lock held if
    the request was to wake, or suspended with the main lock released if it was
    to sleep. *)
Theorem early_suspend_carried_out s0 s e es n :
  es_init s0 → rtc es_step s0 s →
  ∃ s1 s2, request_suspend_state e s n = Some s1 ∧ drain (2 * length (queue s1) + 2) es s1 = Some s2 ∧
    queue s2 = [] ∧ in_early_suspend s2 = false ∧ get_suspend_state s1 = n ∧
    (n = PM_SUSPEND_ON → state s2 = 0 ∧ ml_held (wake s2) = true) ∧
    (n ≠ PM_SUSPEND_ON → state s2 = SUSPEND_REQUESTED_AND_SUSPENDED ∧ ml_held (wake s2) = false).
Proof.
  intros Hinit Hrun. assert (Hok : es_ok s).
  { apply es_init_ok in Hinit. revert Hinit. clear -Hrun. induction Hrun; eauto using es_step_ok. }
  destruct (request_ok e s n Hok) as (s1 & Hreq & Hok1 & Hr1).
  destruct (drain_spec (2 * length (queue s1) + 2) es s1 Hok1) as (s2 & Hdr & Hok2 & Hq2 & Hin2 & Hr2).
  { destruct (in_early_suspend s1); lia. }
  exists s1, s2. split; [done|]. split; [done|]. split; [done|]. split; [done|]. split.
  { unfold request_suspend_state in Hreq. destruct (if _ && _ then _ else _); [|done]. simpl in Hreq.
    by injection Hreq as <-. }
  unfold requested in Hr2. rewrite Hr1 in Hr2.
  destruct (settled s2 Hok2 Hq2 Hin2) as [[Es Eh]|[Es Eh]]; rewrite Es in Hr2; simpl in Hr2.
  - split; [done|]. intros Hne. destruct (Z.eqb_spec n PM_SUSPEND_ON); done.
  - split; [|done]. intros ->. done.
Qed.
End early_suspend.

Arguments es_state W : clear implicits.

(** ** The wake lock component keeps its promise *)

Definition main_ok (s : wl_state) : Prop :=
  wl_ok s ∧ ∃ c, cores s !! main_wake_lock = Some c ∧ c_init c = true ∧ c_type c = WAKE_LOCK_SUSPEND.

Lemma main_lock s :
  main_ok s → ∃ l, locks s !! main_wake_lock = Some l ∧ has_flag l WAKE_LOCK_INITIALIZED = true ∧ lock_type l = 0.
Proof.
  intros (_ & c & Hc & Hi & Ht). unfold cores in Hc. rewrite lookup_fmap in Hc.
  destruct (locks s !! main_wake_lock) as [l|]; [|done]. simpl in Hc. injection Hc as <-. by exists l.
Qed.

Lemma main_kind s s' : main_ok s → same_kind (shape_of s) (shape_of s') → wl_ok s' → main_ok s'.
Proof.
  intros (_ & c & Hc & Hi & Ht) Hk Hok. split; [done|]. destruct (Hk _ _ Hc) as (c' & Hc' & ? & ?).
  exists c'. simpl in Hc'. split_and!; congruence.
Qed.

Lemma main_lock_ok e s :
  main_ok s → ∃ s', wake_lock_ e s main_wake_lock = Some s' ∧ main_ok s' ∧ wake_lock_active s' main_wake_lock = true.
Proof.
  intros Hm. destruct (main_lock s Hm) as (l & Hl & Hi & Ht). pose proof Hm as ((H1 & H2 & H3) & _).
  destruct (wake_lock_internal_ok e s main_wake_lock l 0 false) as (s' & Hrun & Hok & _ & Hk & Hc); try done; [by left|].
  exists s'. split; [done|]. split; [by eapply main_kind|]. specialize (Hc ltac:(done)). unfold cores in Hc.
  rewrite lookup_fmap in Hc. unfold wake_lock_active. destruct (locks s' !! main_wake_lock) as [l'|]; [|done].
  simpl in Hc. by injection Hc.
Qed.

Lemma main_unlock_ok e s :
  main_ok s → ∃ s', wake_unlock e s main_wake_lock = Some s' ∧ main_ok s' ∧ wake_lock_active s' main_wake_lock = false.
Proof.
  intros Hm. destruct (main_lock s Hm) as (l & Hl & Hi & Ht). pose proof Hm as (Hok & _).
  destruct (wake_unlock_ok e s main_wake_lock l Hok Hl Hi ltac:(by left)) as (s' & Hrun & Hok' & _ & Hk & Ha).
  exists s'. split; [done|]. split; [by eapply main_kind|done].
Qed.

#[global] Instance wakelock_main : MainLock wl_state Wakelock.env := {|
  ml_inv := main_ok;
  ml_held s := wake_lock_active s main_wake_lock;
  ml_lock e s := wake_lock_ e s main_wake_lock;
  ml_unlock e s := wake_unlock e s main_wake_lock;
  ml_lock_ok := main_lock_ok;
  ml_unlock_ok := main_unlock_ok |}.

Lemma boot_main_ok : main_ok boot.
Proof.
  destruct (wakelocks_init_ok Wakelock.example_env) as (s & Heq & Hok).
  assert (s = boot) as -> by (unfold boot; by rewrite Heq).
  split; [done|]. eexists. split; [vm_compute; reflexivity|]. done.
Qed.

(** The system as it comes up, over the real wake locks. *)
Definition es_boot : es_state wl_state := mk_es 0 [] 3 [] false boot [].
Definition es_asleep : es_state wl_state :=
  default es_boot (request_suspend_state Wakelock.example_env es_boot 3).

Lemma es_boot_init : es_init es_boot.
Proof. split_and!; try done. exact boot_main_ok. Qed.

(** Asleep and woken again before any work function has run. *)
Definition es_woken : es_state wl_state :=
  default es_asleep (request_suspend_state Wakelock.example_env es_asleep PM_SUSPEND_ON).

Lemma early_suspend_safe_witness :
  ml_held (wake es_woken) = true ∧ StronglySorted level_le (early_suspend_handlers es_woken).
Proof.
  destruct (early_suspend_safe es_boot es_woken) as (Hheld & _ & Hsorted).
  - exact es_boot_init.
  - apply (rtc_l _ _ es_asleep).
    + apply (es_request Wakelock.example_env _ 3). vm_compute. reflexivity.
    + apply rtc_once. apply (es_request Wakelock.example_env _ PM_SUSPEND_ON). vm_compute. reflexivity.
  - split; [apply Hheld; vm_compute; reflexivity|exact Hsorted].
Defined.

Lemma early_suspend_carried_out_witness :
  ∃ s1 s2, request_suspend_state Wakelock.example_env es_asleep PM_SUSPEND_ON = Some s1 ∧
    drain (2 * length (queue s1) + 2) (λ _, Wakelock.example_env) s1 = Some s2 ∧ state s2 = 0.
Proof.
  destruct (early_suspend_carried_out es_boot es_asleep Wakelock.example_env (λ _, Wakelock.example_env) PM_SUSPEND_ON)
    as (s1 & s2 & H1 & H2 & _ & _ & _ & H3 & _).
  - exact es_boot_init.
  - apply rtc_once. apply (es_request Wakelock.example_env _ 3). vm_compute. reflexivity.
  - exists s1, s2. split; [exact H1|]. split; [exact H2|]. apply H3. reflexivity.
Defined.
