(* ===== verification/LowMem.v ===== *)
(** The low memory killer (drivers/staging/android/lowmemorykiller.c): the
    shrinker that kills a process when the free memory is below the threshold
    of its importance, and the notifier that sees a killed process go.

    The counters of the memory manager, the clock and the process list are
    inputs of a call; a signal sent is recorded in the state. *)

From S2P Require Import Prelude.

(** ** Data *)

Definition OOM_ADJUST_MAX : Z := 15.

(** A process as the shrinker sees it: its [mm] (with its resident pages) and
    its [signal] (with its badness adjustment), either of which may be gone. *)
Record task_struct := mk_task { t_id : Z; t_mm : option Z; t_signal : option Z }.

#[global] Instance task_eq_dec : EqDecision task_struct.
Proof. solve_decision. Defined.

(** What a call reads of the rest of the kernel. *)
Record lowmem_env := mk_lenv {
  le_jiffies : Z;
  NR_FREE_PAGES : Z; NR_FILE_PAGES : Z; NR_SHMEM : Z;
  NR_ACTIVE_ANON : Z; NR_ACTIVE_FILE : Z; NR_INACTIVE_ANON : Z; NR_INACTIVE_FILE : Z;
  processes : list task_struct }.

Record lowmem := mk_lowmem {
  lowmem_adj : list Z;
  lowmem_adj_size : Z;
  lowmem_minfree : list Z;
  lowmem_minfree_size : Z;
  lowmem_deathpending : option Z;
  lowmem_deathpending_timeout : Z;
  sigkills : list Z }.

Definition set_pending (s : lowmem) (p : option Z) :=
  mk_lowmem (lowmem_adj s) (lowmem_adj_size s) (lowmem_minfree s) (lowmem_minfree_size s) p
    (lowmem_deathpending_timeout s) (sigkills s).

(** The state of a freshly loaded module. *)
Definition lowmem_init : lowmem :=
  mk_lowmem [0; 1; 6; 12; 0; 0] 4 [3 * 512; 2 * 1024; 4 * 1024; 16 * 1024; 0; 0] 4 None 0 [].

(** ** Operations *)

Definition task_notify_func (s : lowmem) (task : Z) : lowmem :=
  if decide (lowmem_deathpending s = Some task) then set_pending s None else s.

Definition array_size (s : lowmem) : Z :=
  let n := zlen (lowmem_adj s) in
  let n := if lowmem_adj_size s <? n then lowmem_adj_size s else n in
  if lowmem_minfree_size s <? n then lowmem_minfree_size s else n.

(** The thresholds are of type [size_t]: the comparison is unsigned. *)
Definition below (other_free other_file minfree : Z) : bool :=
  (u32 other_free <? minfree) && (u32 other_file <? minfree).

(** The search for the first threshold that is not met; [None] is a read
    outside of the arrays. *)
Fixpoint min_adj_loop (s : lowmem) (other_free other_file : Z) (fuel : nat) (i : Z) : option Z :=
  match fuel with
  | O => Some (OOM_ADJUST_MAX + 1)
  | S fuel =>
      m ← lowmem_minfree s !! Z.to_nat i;
      if below other_free other_file m then lowmem_adj s !! Z.to_nat i
      else min_adj_loop s other_free other_file fuel (i + 1)
  end.

Record selection := mk_sel { selected : option task_struct; selected_tasksize : Z; selected_oom_adj : Z }.

(** The body of [for_each_process]. *)
Definition consider (min_adj : Z) (sel : selection) (p : task_struct) : selection :=
  match t_mm p, t_signal p with
  | Some rss, Some oom_adj =>
      if oom_adj <? min_adj then sel
      else
        let tasksize := s32 rss in
        if tasksize <=? 0 then sel
        else
          if (match selected sel with
              | Some _ => (oom_adj <? selected_oom_adj sel) ||
                          ((oom_adj =? selected_oom_adj sel) && (tasksize <=? selected_tasksize sel))
              | None => false
              end) then sel
          else mk_sel (Some p) tasksize oom_adj
  | _, _ => sel
  end.

Definition lowmem_rem (e : lowmem_env) : Z :=
  s32 (NR_ACTIVE_ANON e + NR_ACTIVE_FILE e + NR_INACTIVE_ANON e + NR_INACTIVE_FILE e).

Definition death_outstanding (e : lowmem_env) (s : lowmem) : bool :=
  bool_decide (lowmem_deathpending s ≠ None) && time_before_eq (le_jiffies e) (lowmem_deathpending_timeout s).

Definition lowmem_shrink (e : lowmem_env) (s : lowmem) (nr_to_scan : Z) : option (lowmem * Z) :=
  let other_free := s32 (NR_FREE_PAGES e) in
  let other_file := s32 (NR_FILE_PAGES e - NR_SHMEM e) in
  if death_outstanding e s then Some (s, 0)
  else
    min_adj ← min_adj_loop s other_free other_file (Z.to_nat (array_size s)) 0;
    let rem := lowmem_rem e in
    if (nr_to_scan <=? 0) || (min_adj =? OOM_ADJUST_MAX + 1) then Some (s, rem)
    else
      let sel := fold_left (consider min_adj) (processes e) (mk_sel None 0 min_adj) in
      match selected sel with
      | Some p =>
          Some (mk_lowmem (lowmem_adj s) (lowmem_adj_size s) (lowmem_minfree s) (lowmem_minfree_size s)
                  (Some (t_id p)) (u32 (le_jiffies e + HZ)) (sigkills s ++ [t_id p]),
                s32 (rem - selected_tasksize sel))
      | None => Some (s, rem)
      end.

(** ** What the shrinker should do *)

(** The arrays have the size of their declaration. *)
Definition lowmem_wf (s : lowmem) : Prop := zlen (lowmem_adj s) = 6 ∧ zlen (lowmem_minfree s) = 6.

(** Row [i] of the table is the first whose threshold is above both counts. *)
Definition level_reached (e : lowmem_env) (s : lowmem) (i : Z) : Prop :=
  let low j := below (s32 (NR_FREE_PAGES e)) (s32 (NR_FILE_PAGES e - NR_SHMEM e))
                 (znth 0 (lowmem_minfree s) j) in
  0 ≤ i < array_size s ∧ low i = true ∧ ∀ j, 0 ≤ j < i → low j = false.

(** The badness and size of a process that may be killed at this level. *)
Definition candidate (min_adj : Z) (p : task_struct) (adj size : Z) : Prop :=
  t_signal p = Some adj ∧ min_adj ≤ adj ∧ (∃ rss, t_mm p = Some rss ∧ size = s32 rss) ∧ 0 < size.

(** [(a, n)] is a worse victim than [(b, m)]. *)
Definition victim_lt (a n b m : Z) : Prop := a < b ∨ a = b ∧ n < m.

(** [p] is the first of the best victims. *)
Definition victim (min_adj : Z) (l : list task_struct) (p : task_struct) (adj size : Z) : Prop :=
  ∃ l1 l2, l = l1 ++ p :: l2 ∧ candidate min_adj p adj size ∧
    (∀ q a n, q ∈ l1 → candidate min_adj q a n → victim_lt a n adj size) ∧
    (∀ q a n, q ∈ l2 → candidate min_adj q a n → ¬ victim_lt adj size a n).

(** ** Lemmas *)

Lemma candidate_fun min_adj p a n a' n' :
  candidate min_adj p a n → candidate min_adj p a' n' → a = a' ∧ n = n'.
Proof. intros (H1 & _ & (r & H2 & ->) & _) (H3 & _ & (r' & H4 & ->) & _). split; congruence. Qed.

(** A process that may not be killed does not change the selection. *)
Lemma consider_skip min_adj sel p :
  (∀ a n, ¬ candidate min_adj p a n) → consider min_adj sel p = sel.
Proof.
  intros Hno. unfold consider. destruct (t_mm p) as [rss|] eqn:Hm; [|done].
  destruct (t_signal p) as [adj|] eqn:Hs; [|done].
  destruct (Z.ltb_spec adj min_adj); [done|]. destruct (Z.leb_spec (s32 rss) 0); [done|].
  destruct (Hno adj (s32 rss)). split_and!; eauto; lia.
Qed.

Lemma consider_candidate min_adj sel p a n :
  candidate min_adj p a n →
  consider min_adj sel p =
    if decide (selected sel = None ∨ victim_lt (selected_oom_adj sel) (selected_tasksize sel) a n)
    then mk_sel (Some p) n a else sel.
Proof.
  intros (Hs & Hmin & (rss & Hm & ->) & Hpos). unfold consider. rewrite Hm, Hs.
  destruct (Z.ltb_spec a min_adj); [lia|]. destruct (Z.leb_spec (s32 rss) 0); [lia|].
  unfold victim_lt. destruct (selected sel) as [q|].
  - case_decide as Hd; zbool; simpl; try done; exfalso; (destruct Hd as [?|Hd]; [done|lia]) || (apply Hd; right; lia).
  - by rewrite decide_True by (by left).
Qed.

#[global] Instance candidate_dec min_adj p : Decision (∃ a n, candidate min_adj p a n).
Proof.
  destruct (t_signal p) as [a|] eqn:Hs; [|right; intros (a & n & H & _); congruence].
  destruct (t_mm p) as [rss|] eqn:Hm; [|right; intros (? & n & _ & _ & (r & H & _) & _); congruence].
  destruct (decide (min_adj ≤ a ∧ 0 < s32 rss)) as [[]|Hn]; [left|right].
  - exists a, (s32 rss). split_and!; eauto.
  - intros (a' & n & H1 & H2 & (r & H3 & ->) & H4). simplify_eq. naive_solver.
Defined.

Definition sel_ok (min_adj : Z) (l : list task_struct) (sel : selection) : Prop :=
  match selected sel with
  | Some p => victim min_adj l p (selected_oom_adj sel) (selected_tasksize sel)
  | None => ∀ q a n, q ∈ l → ¬ candidate min_adj q a n
  end.

Lemma victim_lt_trans a n b m c k : ¬ victim_lt b m a n → victim_lt b m c k → victim_lt a n c k.
Proof. unfold victim_lt. lia. Qed.

Lemma consider_ok min_adj l sel p :
  sel_ok min_adj l sel → sel_ok min_adj (l ++ [p]) (consider min_adj sel p).
Proof.
  intros Hok. destruct (decide (∃ a n, candidate min_adj p a n)) as [(a & n & Hc)|Hno].
  - rewrite (consider_candidate _ _ _ a n Hc). unfold sel_ok in *. destruct (selected sel) as [q|] eqn:Hsel.
    + destruct Hok as (l1 & l2 & -> & Hq & H1 & H2). case_decide as Hd.
      * destruct Hd as [?|Hlt]; [done|]. simpl. exists (l1 ++ q :: l2), []. split_and!; try done; [|set_solver].
        intros r b m [Hr|[->|Hr]%elem_of_cons]%elem_of_app Hb.
        -- specialize (H1 _ _ _ Hr Hb). unfold victim_lt in *. lia.
        -- destruct (candidate_fun _ _ _ _ _ _ Hq Hb) as [<- <-]. done.
        -- specialize (H2 _ _ _ Hr Hb). by eapply victim_lt_trans.
      * rewrite Hsel. exists l1, (l2 ++ [p]). split_and!; try done; [by rewrite <- app_assoc|].
        intros r b m [Hr| ->%list_elem_of_singleton]%elem_of_app Hb; [eauto|].
        destruct (candidate_fun _ _ _ _ _ _ Hc Hb) as [<- <-]. tauto.
    + case_decide as Hd; [|tauto]. simpl. exists l, []. split_and!; try done; [|set_solver].
      intros r b m Hr Hb. by destruct (Hok _ _ _ Hr Hb).
  - rewrite consider_skip by (intros a n Hc; apply Hno; eauto). unfold sel_ok in *.
    destruct (selected sel) as [q|].
    + destruct Hok as (l1 & l2 & -> & Hq & H1 & H2). exists l1, (l2 ++ [p]).
      split_and!; try done; [by rewrite <- app_assoc|].
      intros r b m [Hr| ->%list_elem_of_singleton]%elem_of_app Hb; [eauto|]. destruct Hno. eauto.
    + intros q a n [Hq| ->%list_elem_of_singleton]%elem_of_app Hc; [by eapply Hok|]. apply Hno. eauto.
Qed.

Lemma select_ok min_adj l : sel_ok min_adj l (fold_left (consider min_adj) l (mk_sel None 0 min_adj)).
Proof.
  induction l as [|p l IH] using rev_ind; [intros q a n Hq; by apply elem_of_nil in Hq|].
  rewrite fold_left_app. by apply consider_ok.
Qed.

Lemma array_size_le s : lowmem_wf s → array_size s ≤ 6.
Proof. intros [Ha _]. unfold array_size. zbool; lia. Qed.

Lemma lookup_znth (l : list Z) i : 0 ≤ i < zlen l → l !! Z.to_nat i = Some (znth 0 l i).
Proof.
  intros Hi. unfold znth, zlen in *. rewrite nth_lookup.
  destruct (lookup_lt_is_Some_2 l (Z.to_nat i)) as [x ->]; [lia|done].
Qed.

(** The loop stops at the first threshold above both counts. *)
Lemma min_adj_loop_spec s other_free other_file fuel i :
  lowmem_wf s → 0 ≤ i → i + Z.of_nat fuel ≤ 6 →
  (∃ j, i ≤ j < i + Z.of_nat fuel ∧ below other_free other_file (znth 0 (lowmem_minfree s) j) = true ∧
     (∀ k, i ≤ k < j → below other_free other_file (znth 0 (lowmem_minfree s) k) = false) ∧
     min_adj_loop s other_free other_file fuel i = Some (znth 0 (lowmem_adj s) j)) ∨
  ((∀ k, i ≤ k < i + Z.of_nat fuel → below other_free other_file (znth 0 (lowmem_minfree s) k) = false) ∧
   min_adj_loop s other_free other_file fuel i = Some (OOM_ADJUST_MAX + 1)).
Proof.
  intros Hwf. pose proof Hwf as [Ha Hm]. revert i. induction fuel as [|fuel IH]; intros i Hi Hle.
  - right. split; [lia|done].
  - simpl. rewrite (lookup_znth (lowmem_minfree s)) by lia. cbn [mbind option_bind].
    destruct (below other_free other_file (znth 0 (lowmem_minfree s) i)) eqn:Hb.
    + left. exists i. split_and!; [lia..|done|lia|]. apply lookup_znth. lia.
    + destruct (IH (i + 1)) as [(j & Hj & Hbj & Hlt & Heq)|[Hno Heq]]; [lia..| |].
      * left. exists j. split_and!; [lia..|done| |done]. intros k Hk. destruct (decide (k = i)) as [->|]; [done|].
        apply Hlt. lia.
      * right. split; [|done]. intros k Hk. destruct (decide (k = i)) as [->|]; [done|]. apply Hno. lia.
Qed.

(** The level reached, as the shrinker computes it. *)
Lemma min_adj_spec e s :
  lowmem_wf s →
  (∃ i, level_reached e s i ∧
     min_adj_loop s (s32 (NR_FREE_PAGES e)) (s32 (NR_FILE_PAGES e - NR_SHMEM e)) (Z.to_nat (array_size s)) 0
     = Some (znth 0 (lowmem_adj s) i)) ∨
  ((∀ i, ¬ level_reached e s i) ∧
   min_adj_loop s (s32 (NR_FREE_PAGES e)) (s32 (NR_FILE_PAGES e - NR_SHMEM e)) (Z.to_nat (array_size s)) 0
   = Some (OOM_ADJUST_MAX + 1)).
Proof.
  intros Hwf. pose proof (array_size_le s Hwf).
  destruct (min_adj_loop_spec s (s32 (NR_FREE_PAGES e)) (s32 (NR_FILE_PAGES e - NR_SHMEM e))
              (Z.to_nat (array_size s)) 0 Hwf) as [(j & Hj & Hb & Hlt & Heq)|[Hno Heq]]; [lia..| |].
  - left. exists j. split; [|done]. split; [lia|]. split; [done|]. intros. apply Hlt. lia.
  - right. split; [|done]. intros i (Hi & Hb & _). rewrite Hno in Hb; [done|lia].
Qed.

(** What a call of the shrinker may do, as a relation. *)
Inductive shrink_spec (e : lowmem_env) (s : lowmem) (nr_to_scan : Z) : lowmem → Z → Prop :=
| spec_wait :
    death_outstanding e s = true → shrink_spec e s nr_to_scan s 0
| spec_query :
    death_outstanding e s = false → nr_to_scan ≤ 0 → shrink_spec e s nr_to_scan s (lowmem_rem e)
| spec_enough :
    death_outstanding e s = false → (∀ i, ¬ level_reached e s i) → shrink_spec e s nr_to_scan s (lowmem_rem e)
| spec_spared i :
    death_outstanding e s = false → level_reached e s i →
    (∀ p a n, p ∈ processes e → ¬ candidate (znth 0 (lowmem_adj s) i) p a n) ∨
      znth 0 (lowmem_adj s) i = OOM_ADJUST_MAX + 1 →
    shrink_spec e s nr_to_scan s (lowmem_rem e)
| spec_kill i p adj size s' :
    death_outstanding e s = false → 0 < nr_to_scan → level_reached e s i →
    victim (znth 0 (lowmem_adj s) i) (processes e) p adj size →
    lowmem_deathpending s' = Some (t_id p) → lowmem_deathpending_timeout s' = u32 (le_jiffies e + HZ) →
    sigkills s' = sigkills s ++ [t_id p] →
    lowmem_adj s' = lowmem_adj s → lowmem_minfree s' = lowmem_minfree s →
    shrink_spec e s nr_to_scan s' (s32 (lowmem_rem e - size)).

(** C14: Whom the low memory killer kills.  A call always returns.  While a
    death is outstanding, or on a query, or with enough memory, it kills
    nobody.  Otherwise it takes the first row of the table whose threshold is
    above the free and the file pages, and among the processes whose adjustment
    is at least that row's it kills exactly one: the one with the highest
    adjustment, the largest of these, the first of equals; its pages are taken
    off the count returned and its death becomes the outstanding one. *)
Theorem lowmem_shrink_correct e s nr_to_scan :
  lowmem_wf s → ∃ s' rem, lowmem_shrink e s nr_to_scan = Some (s', rem) ∧ shrink_spec e s nr_to_scan s' rem.
Proof.
  intros Hwf. unfold lowmem_shrink. destruct (death_outstanding e s) eqn:Hd.
  { eexists _, _. split; [done|]. by apply spec_wait. }
  destruct (min_adj_spec e s Hwf) as [(i & Hlev & ->)|[Hno ->]]; cbn [mbind option_bind].
  2:{ rewrite Z.eqb_refl, orb_true_r. eexists _, _. split; [done|]. by apply spec_enough. }
  destruct (Z.leb_spec nr_to_scan 0); cbn [orb].
  { eexists _, _. split; [done|]. by apply spec_query. }
  destruct (Z.eqb_spec (znth 0 (lowmem_adj s) i) (OOM_ADJUST_MAX + 1)).
  { eexists _, _. split; [done|]. apply (spec_spared _ _ _ i); auto. }
  pose proof (select_ok (znth 0 (lowmem_adj s) i) (processes e)) as Hsel. unfold sel_ok in Hsel.
  destruct (selected _) as [p|] eqn:Hp; eexists _, _; (split; [done|]).
  - by eapply spec_kill.
  - apply (spec_spared _ _ _ i); auto.
Qed.

Definition example_procs : list task_struct :=
  [mk_task 1 (Some 300) (Some 0); mk_task 2 (Some 500) (Some 8); mk_task 3 (Some 900) (Some 12);
   mk_task 4 None (Some 15); mk_task 5 (Some 900) (Some 12)].
Definition example_lenv : lowmem_env := mk_lenv 1000 1000 5000 100 10 20 30 40 example_procs.
Definition tight_lenv : lowmem_env := mk_lenv 1000 3000 3000 100 100 200 300 4000 example_procs.

Lemma lowmem_shrink_correct_witness :
  ∃ s' rem, lowmem_shrink tight_lenv lowmem_init 128 = Some (s', rem) ∧
    shrink_spec tight_lenv lowmem_init 128 s' rem ∧ sigkills s' = [3] ∧ rem = 3700.
Proof.
  destruct (lowmem_shrink_correct tight_lenv lowmem_init 128) as (s' & rem & Hrun & Hspec).
  - split; reflexivity.
  - exists s', rem. split; [exact Hrun|]. split; [exact Hspec|]. vm_compute in Hrun.
    injection Hrun as <- <-. split; reflexivity.
Defined.

(** ** Runs *)

Inductive lowmem_event := Shrink (e : lowmem_env) (nr_to_scan : Z) | TaskFree (task : Z).

Definition lowmem_do (s : lowmem) (ev : lowmem_event) : option lowmem :=
  match ev with
  | Shrink e nr => fst <$> lowmem_shrink e s nr
  | TaskFree t => Some (task_notify_func s t)
  end.

Fixpoint lowmem_run (s : lowmem) (evs : list lowmem_event) : option lowmem :=
  match evs with
  | [] => Some s
  | ev :: evs => s ← lowmem_do s ev; lowmem_run s evs
  end.

(** The event happens within a second of [t] and is not the end of [v]. *)
Definition while_dying (v t : Z) (ev : lowmem_event) : Prop :=
  match ev with
  | Shrink e _ => ∃ d, 0 ≤ d ≤ HZ ∧ le_jiffies e = u32 (t + d)
  | TaskFree x => x ≠ v
  end.

(** A call either changes nothing or records its victim. *)
Lemma lowmem_shrink_cases e s nr s' r :
  lowmem_shrink e s nr = Some (s', r) →
  s' = s ∨ ∃ p, lowmem_deathpending s' = Some p ∧ lowmem_deathpending_timeout s' = u32 (le_jiffies e + HZ) ∧
    sigkills s' = sigkills s ++ [p].
Proof.
  intros Hrun. unfold lowmem_shrink in Hrun. destruct (death_outstanding e s); [left; by simplify_eq|].
  destruct (min_adj_loop _ _ _ _ _); [|done]. cbn [mbind option_bind] in Hrun.
  destruct (_ || _); [left; by simplify_eq|].
  destruct (selected _) as [p|]; [right|left]; simplify_eq; [|done]. by exists (t_id p).
Qed.

(** Within a second of the kill the death is outstanding, also when the tick
    counter wraps. *)
Lemma outstanding_window e s v t d :
  lowmem_deathpending s = Some v → lowmem_deathpending_timeout s = u32 (t + HZ) →
  0 ≤ d ≤ HZ → le_jiffies e = u32 (t + d) → death_outstanding e s = true.
Proof.
  intros Hp Ht Hd He. unfold death_outstanding. rewrite Hp, bool_decide_eq_true_2 by done. simpl.
  unfold time_before_eq, time_after_eq. rewrite Ht, He. unfold s32, u32, HZ in *.
  replace ((t + 100) mod 2 ^ 32 - (t + d) mod 2 ^ 32 + 2 ^ 31)
    with ((t + 100) mod 2 ^ 32 + (2 ^ 31 - (t + d) mod 2 ^ 32)) by lia.
  rewrite Zplus_mod_idemp_l.
  replace (t + 100 + (2 ^ 31 - (t + d) mod 2 ^ 32)) with ((t + 100 + 2 ^ 31) - (t + d) mod 2 ^ 32) by lia.
  rewrite Zminus_mod_idemp_r. replace (t + 100 + 2 ^ 31 - (t + d)) with (100 - d + 2 ^ 31) by lia.
  rewrite Z.mod_small by lia. rewrite Z.geb_leb. apply Z.leb_le. lia.
Qed.

(** One victim at a time.  After a kill, for a second of the tick counter
    (which may wrap) or until the victim is gone, no sequence of shrinker calls
    and exits of other processes sends another signal: every call answers 0 and
    leaves the state alone. *)
Theorem lowmem_one_at_a_time e s nr s1 r p evs :
  lowmem_shrink e s nr = Some (s1, r) → sigkills s1 = sigkills s ++ [p] →
  Forall (while_dying p (le_jiffies e)) evs →
  lowmem_run s1 evs = Some s1 ∧ lowmem_deathpending s1 = Some p ∧
  ∀ e' n, Shrink e' n ∈ evs → lowmem_shrink e' s1 n = Some (s1, 0).
Proof.
  intros Hrun Hkill Hevs.
  assert (Hs1 : lowmem_deathpending s1 = Some p ∧ lowmem_deathpending_timeout s1 = u32 (le_jiffies e + HZ)).
  { destruct (lowmem_shrink_cases e s nr s1 r Hrun) as [->|(p' & Hp & Ht & Hk)].
    - apply (f_equal length) in Hkill. rewrite length_app in Hkill. simpl in Hkill. lia.
    - rewrite Hk in Hkill. by simplify_list_eq. }
  destruct Hs1 as [Hp Ht].
  assert (Hquiet : ∀ e' n, Shrink e' n ∈ evs → lowmem_shrink e' s1 n = Some (s1, 0)).
  { intros e' n Hin. rewrite Forall_forall in Hevs. destruct (Hevs _ Hin) as (d & Hd & He').
    unfold lowmem_shrink. by rewrite (outstanding_window e' s1 p (le_jiffies e) d). }
  split_and!; [|done|done]. clear Hrun Hkill Ht. induction Hevs as [|ev evs Hev Hevs IH]; [done|].
  simpl. replace (lowmem_do s1 ev) with (Some s1); [apply IH; set_solver|].
  destruct ev as [e' n|x]; simpl in *; [by rewrite Hquiet by set_solver|].
  unfold task_notify_func. rewrite decide_False; [done|]. congruence.
Qed.

Definition after_kill : lowmem := default lowmem_init (fst <$> lowmem_shrink tight_lenv lowmem_init 128).
Definition later_lenv : lowmem_env := mk_lenv 1080 1000 1000 100 100 200 300 4000 example_procs.

Lemma lowmem_one_at_a_time_witness :
  lowmem_run after_kill [Shrink later_lenv 128; TaskFree 5; Shrink later_lenv 64] = Some after_kill.
Proof.
  apply (lowmem_one_at_a_time tight_lenv lowmem_init 128 after_kill 3700 3).
  - vm_compute. reflexivity.
  - vm_compute. reflexivity.
  - repeat constructor; try done; exists 80; (split; [unfold HZ; lia|vm_compute; reflexivity]).
Defined.
