(* ===== verification/RbTree.v ===== *)
(** Red-black trees (lib/rbtree.c, include/linux/rbtree.h): the pointer code
    that links, rebalances and walks the trees, over a store of nodes.

    A node is modelled as it is laid out: the parent pointer and the colour
    share one word, and the word is taken apart with masks.  Pointers are
    addresses, 0 is NULL, and following a pointer to no node gives [None].
    Loops run on fuel, one more than the number of nodes in the store; the
    theorems show that it is enough.

    The abstract tree ([tree]), the zipper into it ([ctx]) and the relation
    between a store and a tree ([tree_rep]) come after the code.  Removal is in
    RbErase.v. *)

From S2P Require Import Prelude.

(** ** Nodes *)

Definition RB_RED : Z := 0.
Definition RB_BLACK : Z := 1.

Record rb_node := mk_node { rb_parent_color : Z; rb_right : Z; rb_left : Z }.

(** The nodes in memory and [root->rb_node]. *)
Record rb_mem := mk_mem { nodes : gmap Z rb_node; rb_root : Z }.

Definition rb_parent (n : rb_node) : Z := Z.land (rb_parent_color n) (Z.lnot 3).
Definition rb_color (n : rb_node) : Z := Z.land (rb_parent_color n) 1.
Definition rb_is_black (n : rb_node) : bool := ctrue (rb_color n).
Definition rb_is_red (n : rb_node) : bool := negb (ctrue (rb_color n)).

(** Access to a field through a pointer. *)
Definition load (s : rb_mem) (p : Z) : option rb_node := nodes s !! p.
Definition modify (s : rb_mem) (p : Z) (f : rb_node → rb_node) : option rb_mem :=
  n ← load s p; Some (mk_mem (<[p := f n]> (nodes s)) (rb_root s)).
Definition set_root (s : rb_mem) (p : Z) : rb_mem := mk_mem (nodes s) p.

Definition set_left (s : rb_mem) (p v : Z) : option rb_mem :=
  modify s p (λ n, mk_node (rb_parent_color n) (rb_right n) v).
Definition set_right (s : rb_mem) (p v : Z) : option rb_mem :=
  modify s p (λ n, mk_node (rb_parent_color n) v (rb_left n)).
Definition set_parent_color (s : rb_mem) (p : Z) (f : Z → Z) : option rb_mem :=
  modify s p (λ n, mk_node (f (rb_parent_color n)) (rb_right n) (rb_left n)).

Definition rb_set_red (s : rb_mem) (p : Z) : option rb_mem :=
  set_parent_color s p (λ x, Z.land x (Z.lnot 1)).
Definition rb_set_black (s : rb_mem) (p : Z) : option rb_mem :=
  set_parent_color s p (λ x, Z.lor x 1).
Definition rb_set_parent (s : rb_mem) (rb p : Z) : option rb_mem :=
  set_parent_color s rb (λ x, Z.lor (Z.land x 3) p).
Definition rb_set_color (s : rb_mem) (rb color : Z) : option rb_mem :=
  set_parent_color s rb (λ x, Z.lor (Z.land x (Z.lnot 1)) color).

Definition RB_EMPTY_NODE (s : rb_mem) (p : Z) : option bool :=
  n ← load s p; Some (rb_parent n =? p).
Definition RB_CLEAR_NODE (s : rb_mem) (p : Z) : option rb_mem := rb_set_parent s p p.

(** The place a pointer is stored in, for [struct rb_node **]. *)
Inductive rb_link := LinkRoot | LinkLeft (p : Z) | LinkRight (p : Z).

Definition read_link (s : rb_mem) (l : rb_link) : option Z :=
  match l with
  | LinkRoot => Some (rb_root s)
  | LinkLeft p => n ← load s p; Some (rb_left n)
  | LinkRight p => n ← load s p; Some (rb_right n)
  end.
Definition write_link (s : rb_mem) (l : rb_link) (v : Z) : option rb_mem :=
  match l with
  | LinkRoot => Some (set_root s v)
  | LinkLeft p => set_left s p v
  | LinkRight p => set_right s p v
  end.

Definition rb_link_node (s : rb_mem) (node parent : Z) (link : rb_link) : option rb_mem :=
  write_link (mk_mem (<[node := mk_node parent 0 0]> (nodes s)) (rb_root s)) link node.

(** [if (parent) { if (old == parent->rb_left) parent->rb_left = new; else
    parent->rb_right = new; } else root->rb_node = new;] and the same with the
    other side tested. *)
Definition change_child (s : rb_mem) (parent old new : Z) : option rb_mem :=
  if ctrue parent then
    pn ← load s parent;
    if old =? rb_left pn then set_left s parent new else set_right s parent new
  else Some (set_root s new).

Definition change_child_right (s : rb_mem) (parent old new : Z) : option rb_mem :=
  if ctrue parent then
    pn ← load s parent;
    if old =? rb_right pn then set_right s parent new else set_left s parent new
  else Some (set_root s new).

(** [if (p) rb_set_parent(p, q);] *)
Definition set_parent_opt (s : rb_mem) (p q : Z) : option rb_mem :=
  if ctrue p then rb_set_parent s p q else Some s.

(** ** Rotations *)

Definition rb_rotate_left (s : rb_mem) (node : Z) : option rb_mem :=
  n ← load s node;
  let right := rb_right n in
  let parent := rb_parent n in
  rn ← load s right;
  s ← set_right s node (rb_left rn);
  s ← set_parent_opt s (rb_left rn) node;
  s ← set_left s right node;
  s ← rb_set_parent s right parent;
  s ← change_child s parent node right;
  rb_set_parent s node right.

Definition rb_rotate_right (s : rb_mem) (node : Z) : option rb_mem :=
  n ← load s node;
  let left := rb_left n in
  let parent := rb_parent n in
  ln ← load s left;
  s ← set_left s node (rb_right ln);
  s ← set_parent_opt s (rb_right ln) node;
  s ← set_right s left node;
  s ← rb_set_parent s left parent;
  s ← change_child_right s parent node left;
  rb_set_parent s node left.

(** ** Rebalancing after an insertion *)

(** [p && rb_is_red(p)]. *)
Definition is_red_ptr (s : rb_mem) (p : Z) : option bool :=
  if ctrue p then n ← load s p; Some (rb_is_red n) else Some false.

(** The two rotations at the end of the loop's body, [parent] being the left
    child of [gparent]; and its mirror image. *)
Definition insert_rotate_left_case (s : rb_mem) (node parent gparent : Z) : option (rb_mem * Z) :=
  pn ← load s parent;
  '(s, parent, node) ← (if rb_right pn =? node then
                          s ← rb_rotate_left s parent; Some (s, node, parent)
                        else Some (s, parent, node));
  s ← rb_set_black s parent;
  s ← rb_set_red s gparent;
  s ← rb_rotate_right s gparent;
  Some (s, node).

Definition insert_rotate_right_case (s : rb_mem) (node parent gparent : Z) : option (rb_mem * Z) :=
  pn ← load s parent;
  '(s, parent, node) ← (if rb_left pn =? node then
                          s ← rb_rotate_right s parent; Some (s, node, parent)
                        else Some (s, parent, node));
  s ← rb_set_black s parent;
  s ← rb_set_red s gparent;
  s ← rb_rotate_left s gparent;
  Some (s, node).

Definition insert_recolor (s : rb_mem) (uncle parent gparent : Z) : option rb_mem :=
  s ← rb_set_black s uncle;
  s ← rb_set_black s parent;
  rb_set_red s gparent.

Fixpoint insert_loop (fuel : nat) (s : rb_mem) (node : Z) : option rb_mem :=
  match fuel with
  | O => None
  | S fuel =>
      n ← load s node;
      let parent := rb_parent n in
      red ← is_red_ptr s parent;
      if negb red then Some s
      else
        pn ← load s parent;
        let gparent := rb_parent pn in
        gn ← load s gparent;
        if parent =? rb_left gn then
          let uncle := rb_right gn in
          ured ← is_red_ptr s uncle;
          if (ured : bool) then s ← insert_recolor s uncle parent gparent; insert_loop fuel s gparent
          else '(s, node) ← insert_rotate_left_case s node parent gparent; insert_loop fuel s node
        else
          let uncle := rb_left gn in
          ured ← is_red_ptr s uncle;
          if (ured : bool) then s ← insert_recolor s uncle parent gparent; insert_loop fuel s gparent
          else '(s, node) ← insert_rotate_right_case s node parent gparent; insert_loop fuel s node
  end.

Definition rb_fuel (s : rb_mem) : nat := S (size (nodes s)).

Definition rb_insert_color (s : rb_mem) (node : Z) : option rb_mem :=
  s ← insert_loop (rb_fuel s) s node;
  rb_set_black s (rb_root s).

(** ** Walking *)

Fixpoint leftmost (fuel : nat) (s : rb_mem) (n : Z) : option Z :=
  match fuel with
  | O => None
  | S fuel => nd ← load s n; if ctrue (rb_left nd) then leftmost fuel s (rb_left nd) else Some n
  end.

Fixpoint rightmost (fuel : nat) (s : rb_mem) (n : Z) : option Z :=
  match fuel with
  | O => None
  | S fuel => nd ← load s n; if ctrue (rb_right nd) then rightmost fuel s (rb_right nd) else Some n
  end.

Definition rb_first (s : rb_mem) : option Z :=
  if ctrue (rb_root s) then leftmost (rb_fuel s) s (rb_root s) else Some 0.

Definition rb_last (s : rb_mem) : option Z :=
  if ctrue (rb_root s) then rightmost (rb_fuel s) s (rb_root s) else Some 0.

(** The climb to the first ancestor reached from its left (right) child. *)
Fixpoint climb_right (fuel : nat) (s : rb_mem) (node : Z) : option Z :=
  match fuel with
  | O => None
  | S fuel =>
      n ← load s node;
      let parent := rb_parent n in
      if ctrue parent then
        pn ← load s parent;
        if node =? rb_right pn then climb_right fuel s parent else Some parent
      else Some 0
  end.

Fixpoint climb_left (fuel : nat) (s : rb_mem) (node : Z) : option Z :=
  match fuel with
  | O => None
  | S fuel =>
      n ← load s node;
      let parent := rb_parent n in
      if ctrue parent then
        pn ← load s parent;
        if node =? rb_left pn then climb_left fuel s parent else Some parent
      else Some 0
  end.

Definition rb_next (s : rb_mem) (node : Z) : option Z :=
  n ← load s node;
  if rb_parent n =? node then Some 0
  else if ctrue (rb_right n) then leftmost (rb_fuel s) s (rb_right n)
  else climb_right (rb_fuel s) s node.

Definition rb_prev (s : rb_mem) (node : Z) : option Z :=
  n ← load s node;
  if rb_parent n =? node then Some 0
  else if ctrue (rb_left n) then rightmost (rb_fuel s) s (rb_left n)
  else climb_left (rb_fuel s) s node.

Definition rb_replace_node (s : rb_mem) (victim new : Z) : option rb_mem :=
  v ← load s victim;
  let parent := rb_parent v in
  s ← change_child s parent victim new;
  v ← load s victim;
  s ← set_parent_opt s (rb_left v) new;
  s ← set_parent_opt s (rb_right v) new;
  v ← load s victim;
  Some (mk_mem (<[new := v]> (nodes s)) (rb_root s)).

(** ** The tree in the store *)

Inductive color := Red | Black.
Inductive tree := Leaf | Node (c : color) (l : tree) (p : Z) (r : tree).

#[global] Instance color_eq_dec : EqDecision color.
Proof. solve_decision. Defined.

Definition color_bit (c : color) : Z := match c with Red => RB_RED | Black => RB_BLACK end.

Fixpoint inorder (t : tree) : list Z :=
  match t with Leaf => [] | Node _ l p r => inorder l ++ p :: inorder r end.

Definition ptr (t : tree) : Z := match t with Leaf => 0 | Node _ _ p _ => p end.

(** Nodes are aligned, so that the low bits of a pointer are free. *)
Definition addr (p : Z) : Prop := 0 < p ∧ (4 | p).

(** The word that holds the parent and the colour. *)
Definition pack (par : Z) (c : color) : Z := par + color_bit c.

Fixpoint rep (h : gmap Z rb_node) (par : Z) (t : tree) : Prop :=
  match t with
  | Leaf => True
  | Node c l p r =>
      h !! p = Some (mk_node (pack par c) (ptr r) (ptr l)) ∧ addr p ∧ rep h p l ∧ rep h p r
  end.

Record tree_rep (s : rb_mem) (t : tree) : Prop := {
  tr_root : rb_root s = ptr t;
  tr_rep : rep (nodes s) 0 t;
  tr_nodup : NoDup (inorder t) }.

(** A path into a tree, innermost step first. *)
Inductive frame := FL (c : color) (p : Z) (r : tree) | FR (c : color) (l : tree) (p : Z).
Definition ctx := list frame.

Definition fill (f : frame) (t : tree) : tree :=
  match f with FL c p r => Node c t p r | FR c l p => Node c l p t end.
Fixpoint plug (k : ctx) (t : tree) : tree := match k with [] => t | f :: k => plug k (fill f t) end.

Definition fptr (f : frame) : Z := match f with FL _ p _ | FR _ _ p => p end.
Definition par_of (k : ctx) : Z := match k with [] => 0 | f :: _ => fptr f end.

(** What is before and behind the hole in order. *)
Fixpoint ctx_l (k : ctx) : list Z :=
  match k with [] => [] | FL _ _ _ :: k => ctx_l k | FR _ l p :: k => ctx_l k ++ inorder l ++ [p] end.
Fixpoint ctx_r (k : ctx) : list Z :=
  match k with [] => [] | FL _ p r :: k => p :: inorder r ++ ctx_r k | FR _ _ _ :: k => ctx_r k end.

Fixpoint repc (h : gmap Z rb_node) (root : Z) (k : ctx) (hole : Z) : Prop :=
  match k with
  | [] => root = hole
  | FL c p r :: k =>
      h !! p = Some (mk_node (pack (par_of k) c) (ptr r) hole) ∧ addr p ∧ rep h p r ∧ repc h root k p
  | FR c l p :: k =>
      h !! p = Some (mk_node (pack (par_of k) c) hole (ptr l)) ∧ addr p ∧ rep h p l ∧ repc h root k p
  end.

(** ** The packed word *)

Lemma land_lnot_ones x n : 0 ≤ n → Z.land x (Z.lnot (Z.ones n)) = x - x mod 2 ^ n.
Proof.
  intros. rewrite <- Z.ldiff_land, Z.ldiff_ones_r, Z.shiftl_mul_pow2, Z.shiftr_div_pow2 by lia.
  pose proof (Z.div_mod x (2 ^ n)). lia.
Qed.

Lemma color_bit_cases c : color_bit c = 0 ∨ color_bit c = 1.
Proof. destruct c; auto. Qed.

Lemma pack_mod4 par c : (4 | par) → pack par c mod 4 = color_bit c.
Proof.
  intros [m ->]. unfold pack. rewrite Z.add_comm, Z.mod_add by lia. destruct c; done.
Qed.

Lemma pack_parent par c r l : (4 | par) → rb_parent (mk_node (pack par c) r l) = par.
Proof.
  intros Hd. unfold rb_parent. simpl. change 3 with (Z.ones 2). rewrite land_lnot_ones by lia.
  change (2 ^ 2) with 4. rewrite pack_mod4 by done. unfold pack. lia.
Qed.

Lemma pack_mod2 par c : (4 | par) → pack par c mod 2 = color_bit c.
Proof.
  intros [m ->]. unfold pack. replace (m * 4 + color_bit c) with (color_bit c + (m * 2) * 2) by lia.
  rewrite Z.mod_add by lia. destruct c; done.
Qed.

Lemma pack_color par c r l : (4 | par) → rb_color (mk_node (pack par c) r l) = color_bit c.
Proof.
  intros. unfold rb_color. simpl. change 1 with (Z.ones 1). rewrite Z.land_ones by lia.
  by apply pack_mod2.
Qed.

Lemma pack_is_red par c r l : (4 | par) → rb_is_red (mk_node (pack par c) r l) = bool_decide (c = Red).
Proof. intros. unfold rb_is_red. rewrite pack_color by done. by destruct c. Qed.

Lemma pack_is_black par c r l : (4 | par) → rb_is_black (mk_node (pack par c) r l) = bool_decide (c = Black).
Proof. intros. unfold rb_is_black. rewrite pack_color by done. by destruct c. Qed.

Lemma lor_disjoint_add x y : Z.land x y = 0 → Z.lor x y = x + y.
Proof. intros. pose proof (Z.add_lor_land x y). lia. Qed.

Lemma land_mul4_bit m b : b = 0 ∨ b = 1 → Z.land (4 * m) b = 0.
Proof.
  intros [-> | ->]; [apply Z.land_0_r|]. change 1 with (Z.ones 1). rewrite Z.land_ones by lia.
  replace (4 * m) with (2 * m * 2) by lia. apply Z.mod_mul. lia.
Qed.

Lemma pack_set_red par c : (4 | par) → Z.land (pack par c) (Z.lnot 1) = pack par Red.
Proof.
  intros. change 1 with (Z.ones 1). rewrite land_lnot_ones by lia. change (2 ^ 1) with 2.
  rewrite pack_mod2 by done. unfold pack. simpl. unfold RB_RED. lia.
Qed.

Lemma pack_set_color par c c' :
  (4 | par) → Z.lor (Z.land (pack par c) (Z.lnot 1)) (color_bit c') = pack par c'.
Proof.
  intros Hd. rewrite pack_set_red by done. unfold pack at 1. simpl. unfold RB_RED. rewrite Z.add_0_r.
  destruct Hd as [m ->]. apply lor_disjoint_add. rewrite Z.mul_comm. apply land_mul4_bit. apply color_bit_cases.
Qed.

Lemma pack_set_black par c : (4 | par) → Z.lor (pack par c) 1 = pack par Black.
Proof.
  intros Hd. destruct c.
  - rewrite <- (pack_set_color par Red Black) by done. by rewrite pack_set_red.
  - rewrite <- (pack_set_color par Red Black) at 1 by done. rewrite <- Z.lor_assoc.
    change (Z.lor (color_bit Black) 1) with (color_bit Black). by apply pack_set_color.
Qed.

Lemma pack_set_parent par c q : (4 | par) → (4 | q) → Z.lor (Z.land (pack par c) 3) q = pack q c.
Proof.
  intros Hp [m ->]. change 3 with (Z.ones 2). rewrite Z.land_ones by lia. change (2 ^ 2) with 4.
  rewrite pack_mod4 by done. rewrite Z.lor_comm. unfold pack. apply lor_disjoint_add.
  rewrite Z.mul_comm. apply land_mul4_bit. apply color_bit_cases.
Qed.

(** ** Focusing on a place in the tree *)

Lemma inorder_plug k t : inorder (plug k t) = ctx_l k ++ inorder t ++ ctx_r k.
Proof.
  revert t. induction k as [|[c p r|c l p] k IH]; intros t; simpl.
  - by rewrite app_nil_r.
  - rewrite IH. simpl. by rewrite <- !app_assoc.
  - rewrite IH. simpl. by rewrite <- !app_assoc.
Qed.

Lemma plug_app k1 k2 t : plug (k1 ++ k2) t = plug k2 (plug k1 t).
Proof. revert t. induction k1 as [|f k1 IH]; intros t; [done|]. apply IH. Qed.

Lemma rep_plug h root k t :
  rep h 0 (plug k t) ∧ root = ptr (plug k t) ↔ rep h (par_of k) t ∧ repc h root k (ptr t).
Proof.
  revert t. induction k as [|[c p r|c l p] k IH]; intros t; simpl; [done|..]; rewrite IH; simpl; tauto.
Qed.

Lemma rep_same h h' par t : (∀ q, q ∈ inorder t → h' !! q = h !! q) → rep h par t → rep h' par t.
Proof.
  revert par. induction t as [|c l IHl p r IHr]; intros par Hs; simpl; [done|].
  intros (Hp & Ha & Hl & Hr). split_and!; [rewrite Hs; [done|set_solver]|done|..];
    [apply IHl|apply IHr]; try done; intros; apply Hs; set_solver.
Qed.

Lemma repc_same h h' root k hole :
  (∀ q, q ∈ ctx_l k ++ ctx_r k → h' !! q = h !! q) → repc h root k hole → repc h' root k hole.
Proof.
  revert hole. induction k as [|[c p r|c l p] k IH]; intros hole Hs; simpl in *; [done|..];
    intros (Hp & Ha & Hr & Hk); (split_and!;
      [rewrite Hs; [done|set_solver]|done|eapply rep_same; [|done]; set_solver|apply IH; [set_solver|done]]).
Qed.

Lemma par_of_aligned h root k hole : repc h root k hole → (4 | par_of k).
Proof.
  destruct k as [|[c p r|c l p] k]; simpl; [intros _; apply Z.divide_0_r|..]; intros (_ & [_ ?] & _); done.
Qed.

(** The pieces of a focused store: the subtree, the path and their nodes. *)
Lemma tree_rep_focus s k t :
  tree_rep s (plug k t) ↔
  rep (nodes s) (par_of k) t ∧ repc (nodes s) (rb_root s) k (ptr t) ∧ NoDup (ctx_l k ++ inorder t ++ ctx_r k).
Proof.
  split.
  - intros [Hroot Hrep Hnd]. rewrite inorder_plug in Hnd.
    destruct (proj1 (rep_plug (nodes s) (rb_root s) k t)) as [? ?]; [by split|]. done.
  - intros (Hr & Hk & Hnd). destruct (proj2 (rep_plug (nodes s) (rb_root s) k t)) as [? ?]; [by split|].
    split; [done..|by rewrite inorder_plug].
Qed.

Lemma ptr_elem t : ptr t ≠ 0 → ptr t ∈ inorder t.
Proof. destruct t; simpl; [done|set_solver]. Qed.

Lemma rep_ptr h par t : rep h par t → t = Leaf ∧ ptr t = 0 ∨ addr (ptr t).
Proof. destruct t; simpl; [by left|]. intros (_ & ? & _). by right. Qed.

(** Reading a node of the tree. *)
Lemma load_focus s k c l p r :
  tree_rep s (plug k (Node c l p r)) →
  load s p = Some (mk_node (pack (par_of k) c) (ptr r) (ptr l)) ∧ addr p ∧ (4 | par_of k).
Proof.
  intros ((Hp & Ha & _ & _) & Hk & _)%tree_rep_focus. split_and!; [done..|]. by eapply par_of_aligned.
Qed.

(** ** Steps of the code on a focused store *)

(** A step from [t] to [t'] that leaves the nodes of other trees alone. *)
Definition frame_same (t : tree) (s s' : rb_mem) : Prop := ∀ q, q ∉ inorder t → nodes s' !! q = nodes s !! q.

Lemma modify_load s p n f :
  load s p = Some n → modify s p f = Some (mk_mem (<[p := f n]> (nodes s)) (rb_root s)).
Proof. intros Hl. unfold modify. by rewrite Hl. Qed.

Lemma set_left_load s p n v :
  load s p = Some n →
  set_left s p v = Some (mk_mem (<[p := mk_node (rb_parent_color n) (rb_right n) v]> (nodes s)) (rb_root s)).
Proof. apply modify_load. Qed.

Lemma set_right_load s p n v :
  load s p = Some n →
  set_right s p v = Some (mk_mem (<[p := mk_node (rb_parent_color n) v (rb_left n)]> (nodes s)) (rb_root s)).
Proof. apply modify_load. Qed.

Lemma rb_set_parent_load s p par c r l q :
  load s p = Some (mk_node (pack par c) r l) → (4 | par) → (4 | q) →
  rb_set_parent s p q = Some (mk_mem (<[p := mk_node (pack q c) r l]> (nodes s)) (rb_root s)).
Proof.
  intros Hl Hp Hq. unfold rb_set_parent, set_parent_color. rewrite (modify_load _ _ _ _ Hl). simpl.
  by rewrite pack_set_parent.
Qed.

Lemma NoDup_hole (k : ctx) (l : list Z) :
  NoDup (ctx_l k ++ l ++ ctx_r k) →
  NoDup l ∧ (∀ x, x ∈ l → x ∉ ctx_l k ++ ctx_r k) ∧ NoDup (ctx_l k ++ ctx_r k).
Proof.
  rewrite !NoDup_app. intros (Hl & Hd & Hm & Hd2 & Hr). split_and!; try done; set_solver.
Qed.

(** Changing the colour of a node. *)
Lemma set_color_focus s k c c' l p r f :
  tree_rep s (plug k (Node c l p r)) → f (pack (par_of k) c) = pack (par_of k) c' →
  ∃ s', set_parent_color s p f = Some s' ∧ tree_rep s' (plug k (Node c' l p r)) ∧
    frame_same (plug k (Node c l p r)) s s'.
Proof.
  intros Hrep Hf. destruct (load_focus _ _ _ _ _ _ Hrep) as (Hload & Hp & Hk).
  unfold set_parent_color. rewrite (modify_load _ _ _ _ Hload). simpl. rewrite Hf.
  eexists. split; [done|]. apply tree_rep_focus in Hrep as ((_ & _ & Hl & Hr) & Hc & Hnd).
  pose proof (NoDup_hole _ _ Hnd) as (Hn & Hout & _). simpl in Hn. apply NoDup_app in Hn as (_ & Hn1 & Hn).
  apply NoDup_cons in Hn as [Hn2 _]. split.
  - apply tree_rep_focus. simpl. split_and!; try done.
    + apply lookup_insert_eq.
    + eapply rep_same; [|done]. intros q Hq. apply lookup_insert_ne. intros ->. by eapply Hn1; [|left].
    + eapply rep_same; [|done]. intros q Hq. apply lookup_insert_ne. by intros ->.
    + eapply repc_same; [|done]. intros q Hq. apply lookup_insert_ne. intros ->. eapply Hout; [|done]. set_solver.
  - intros q Hq. simpl. apply lookup_insert_ne. intros ->. apply Hq. rewrite inorder_plug. set_solver.
Qed.

Lemma set_black_focus s k c l p r :
  tree_rep s (plug k (Node c l p r)) →
  ∃ s', rb_set_black s p = Some s' ∧ tree_rep s' (plug k (Node Black l p r)) ∧
    frame_same (plug k (Node c l p r)) s s'.
Proof.
  intros Hrep. apply set_color_focus; [done|]. apply pack_set_black. by eapply load_focus.
Qed.

Lemma set_red_focus s k c l p r :
  tree_rep s (plug k (Node c l p r)) →
  ∃ s', rb_set_red s p = Some s' ∧ tree_rep s' (plug k (Node Red l p r)) ∧
    frame_same (plug k (Node c l p r)) s s'.
Proof.
  intros Hrep. apply set_color_focus; [done|]. apply pack_set_red. by eapply load_focus.
Qed.

(** Hanging a subtree below another parent. *)
Lemma set_parent_opt_spec s par t q :
  rep (nodes s) par t → NoDup (inorder t) → (4 | par) → (4 | q) →
  ∃ s', set_parent_opt s (ptr t) q = Some s' ∧ rep (nodes s') q t ∧ rb_root s' = rb_root s ∧
    ∀ x, x ∉ inorder t → nodes s' !! x = nodes s !! x.
Proof.
  intros Hrep Hnd Hpar Hq. unfold set_parent_opt. destruct t as [|c l p r]; [by exists s|].
  destruct Hrep as (Hp & Ha & Hl & Hr). simpl. unfold ctrue.
  destruct (Z.eqb_spec p 0) as [->|_]; [destruct Ha; lia|]. simpl.
  unfold rb_set_parent, set_parent_color. rewrite (modify_load _ _ _ _ Hp). simpl.
  rewrite pack_set_parent by done. simpl in Hnd. apply NoDup_app in Hnd as (_ & Hn1 & Hn).
  apply NoDup_cons in Hn as [Hn2 _]. eexists. split; [done|]. simpl. split_and!; try done.
  - apply lookup_insert_eq.
  - eapply rep_same; [|done]. intros x Hx. apply lookup_insert_ne. intros ->. by eapply Hn1; [|left].
  - eapply rep_same; [|done]. intros x Hx. apply lookup_insert_ne. by intros ->.
  - intros x Hx. apply lookup_insert_ne. intros ->. set_solver.
Qed.

(** Replacing the child at the hole of a path. *)
Lemma change_child_gen (side : bool) s k old new :
  repc (nodes s) (rb_root s) k old → addr old → NoDup (ctx_l k ++ ctx_r k) → old ∉ ctx_l k ++ ctx_r k →
  ∃ s', (if side then change_child s (par_of k) old new else change_child_right s (par_of k) old new) = Some s' ∧
    repc (nodes s') (rb_root s') k new ∧
    ∀ x, x ∉ ctx_l k ++ ctx_r k → nodes s' !! x = nodes s !! x.
Proof.
  intros Hk Ho Hnd Hout. destruct k as [|[c p r|c l p] k].
  - exists (set_root s new). by destruct side.
  - destruct Hk as (Hp & Ha & Hr & Hk). simpl in *.
    assert (Hne : old ≠ ptr r).
    { intros ->. destruct Ho as [Ho _]. apply Hout. pose proof (ptr_elem r). set_solver by lia. }
    assert (Hdp : p ∉ ctx_l k ++ inorder r ++ ctx_r k).
    { apply NoDup_app in Hnd as (_ & Hd & [Hn1 _]%NoDup_cons). set_solver. }
    unfold change_child, change_child_right, ctrue, set_left, set_right.
    destruct (Z.eqb_spec p 0) as [->|_]; [destruct Ha; lia|]. unfold load. rewrite Hp. simpl.
    rewrite Z.eqb_refl. destruct (Z.eqb_spec old (ptr r)); [done|].
    rewrite (modify_load _ _ _ _ Hp). simpl. eexists. split; [by destruct side|]. simpl. split_and!; try done.
    + apply lookup_insert_eq.
    + eapply rep_same; [|done]. intros x Hx. apply lookup_insert_ne. set_solver.
    + eapply repc_same; [|done]. intros x Hx. apply lookup_insert_ne. set_solver.
    + intros x Hx. apply lookup_insert_ne. set_solver.
  - destruct Hk as (Hp & Ha & Hl & Hk). simpl in *.
    assert (Hne : old ≠ ptr l).
    { intros ->. destruct Ho as [Ho _]. apply Hout. pose proof (ptr_elem l). set_solver by lia. }
    assert (Hdp : p ∉ ctx_l k ++ inorder l ++ ctx_r k).
    { rewrite <- !app_assoc in Hnd. apply NoDup_app in Hnd as (_ & Hd & Hn).
      apply NoDup_app in Hn as (_ & Hd2 & [Hn1 _]%NoDup_cons). set_solver. }
    unfold change_child, change_child_right, ctrue, set_left, set_right.
    destruct (Z.eqb_spec p 0) as [->|_]; [destruct Ha; lia|]. unfold load. rewrite Hp. simpl.
    rewrite Z.eqb_refl. destruct (Z.eqb_spec old (ptr l)); [done|].
    rewrite (modify_load _ _ _ _ Hp). simpl. eexists. split; [by destruct side|]. simpl. split_and!; try done.
    + apply lookup_insert_eq.
    + eapply rep_same; [|done]. intros x Hx. apply lookup_insert_ne. set_solver.
    + eapply repc_same; [|done]. intros x Hx. apply lookup_insert_ne. set_solver.
    + intros x Hx. apply lookup_insert_ne. set_solver.
Qed.

Definition change_child_focus := change_child_gen true.
Definition change_child_right_focus := change_child_gen false.

(** The nodes of two adjacent levels of a tree without repetition. *)
Lemma NoDup_two_levels (a b d : list Z) x y :
  NoDup (a ++ x :: b ++ y :: d) →
  NoDup b ∧ x ≠ y ∧ x ∉ a ∧ x ∉ b ∧ x ∉ d ∧ y ∉ a ∧ y ∉ b ∧ y ∉ d ∧
  (∀ q, q ∈ b → q ∉ a ∧ q ∉ d).
Proof.
  rewrite NoDup_app, NoDup_cons, NoDup_app, NoDup_cons.
  intros (_ & H1 & H2 & H3 & H4 & H5 & _). split_and!; try done; set_solver.
Qed.

Ltac look := simpl; repeat first
  [ rewrite lookup_insert_eq | rewrite lookup_insert_ne by (first [done|congruence|set_solver]) ]; try done.

(** Six writes that move [y] above [x], whichever side it is on: the store
    after the writes to the two nodes, with [b] rehung below [x]. *)
Lemma rotate_left_focus s k c a x c' b y d :
  tree_rep s (plug k (Node c a x (Node c' b y d))) →
  ∃ s', rb_rotate_left s x = Some s' ∧ tree_rep s' (plug k (Node c' (Node c a x b) y d)) ∧
    frame_same (plug k (Node c a x (Node c' b y d))) s s'.
Proof.
  intros Hrep. pose proof (load_focus _ _ _ _ _ _ Hrep) as (Hlx & Hax & Hpk).
  apply tree_rep_focus in Hrep as ((Hx & _ & Ha & Hy & Hay & Hb & Hd) & Hk & Hnd).
  pose proof (NoDup_hole _ _ Hnd) as (Hn & Hout & Hndk). simpl in Hn, Hout.
  destruct (NoDup_two_levels _ _ _ _ _ Hn) as (Hnb & Hxy & Hxa & Hxb & Hxd & Hya & Hyb & Hyd & Hbad).
  cbn [ptr] in Hlx. pose proof (proj2 Hax) as H4x. pose proof (proj2 Hay) as H4y.
  unfold rb_rotate_left. rewrite Hlx. cbn [mbind option_bind rb_right]. rewrite pack_parent by done.
  change (load s y = Some (mk_node (pack x c') (ptr d) (ptr b))) in Hy.
  rewrite Hy. cbn [mbind option_bind rb_left]. unfold load in Hy.
  rewrite (set_right_load _ _ _ _ Hlx). cbn [mbind option_bind rb_left rb_parent_color].
  destruct (set_parent_opt_spec (mk_mem (<[x:=mk_node (pack (par_of k) c) (ptr b) (ptr a)]> (nodes s)) (rb_root s)) y b x)
    as (s2 & -> & Hb2 & Hr2 & Hs2); [eapply rep_same; [|done]; intros; look|done..|]. simpl in Hr2, Hs2.
  assert (H2y : load s2 y = Some (mk_node (pack x c') (ptr d) (ptr b))) by (unfold load; rewrite Hs2 by done; look).
  cbn [mbind option_bind]. rewrite (set_left_load _ _ _ _ H2y).
  cbn [mbind option_bind rb_right rb_parent_color].
  rewrite (rb_set_parent_load _ y x c' (ptr d) x (par_of k)); [|unfold load; look|done..].
  cbn [mbind option_bind nodes rb_root]. rewrite insert_insert_eq.
  destruct (change_child_focus (mk_mem (<[y:=mk_node (pack (par_of k) c') (ptr d) x]> (nodes s2)) (rb_root s2)) k x y)
    as (s5 & -> & Hk5 & Hs5); try done.
  { simpl. rewrite Hr2. eapply repc_same; [|exact Hk]. intros q Hq.
    assert (q ∉ inorder a ++ x :: inorder b ++ y :: inorder d) by (intros ?; by eapply Hout).
    look. rewrite Hs2 by set_solver. look. }
  { apply Hout. set_solver. }
  cbn [mbind option_bind]. simpl in Hs5.
  assert (H5x : load s5 x = Some (mk_node (pack (par_of k) c) (ptr b) (ptr a))).
  { unfold load. rewrite Hs5 by (apply Hout; set_solver). look. rewrite Hs2 by done. look. }
  rewrite (rb_set_parent_load _ _ _ _ _ _ y H5x) by done.
  eexists. split; [done|]. split.
  - apply tree_rep_focus. simpl.
    assert (Hin : ∀ q, q ∈ inorder a ++ x :: inorder b ++ y :: inorder d → q ≠ x → nodes s5 !! q =
      if decide (q = y) then Some (mk_node (pack (par_of k) c') (ptr d) x) else nodes s2 !! q).
    { intros q Hq Hqx. rewrite Hs5 by (by apply Hout). case_decide; [subst; look|look]. }
    split_and!; try done.
    + look. rewrite Hin, decide_True by set_solver. done.
    + look.
    + eapply rep_same; [|exact Ha]. intros q Hq. assert (q ≠ x) by congruence. assert (q ≠ y) by congruence.
      look. rewrite Hin, decide_False by set_solver. rewrite Hs2 by (intros Hqb; by destruct (Hbad q Hqb)). look.
    + eapply rep_same; [|exact Hb2]. intros q Hq. assert (q ≠ x) by congruence. assert (q ≠ y) by congruence.
      look. rewrite Hin, decide_False by set_solver. done.
    + eapply rep_same; [|exact Hd]. intros q Hq. assert (q ≠ x) by congruence. assert (q ≠ y) by congruence.
      look. rewrite Hin, decide_False by set_solver. rewrite Hs2 by (intros Hqb; by destruct (Hbad q Hqb)). look.
    + eapply repc_same; [|exact Hk5]. intros q Hq. look.
    + revert Hnd. simpl. by repeat (rewrite <- app_assoc; simpl).
  - intros q Hq. rewrite inorder_plug in Hq. simpl in Hq. assert (q ≠ x) by set_solver. assert (q ≠ y) by set_solver.
    look. rewrite Hs5 by set_solver. look. rewrite Hs2 by set_solver. look.
Qed.

Lemma rotate_right_focus s k c c' a y b x d :
  tree_rep s (plug k (Node c (Node c' a y b) x d)) →
  ∃ s', rb_rotate_right s x = Some s' ∧ tree_rep s' (plug k (Node c' a y (Node c b x d))) ∧
    frame_same (plug k (Node c (Node c' a y b) x d)) s s'.
Proof.
  intros Hrep. pose proof (load_focus _ _ _ _ _ _ Hrep) as (Hlx & Hax & Hpk).
  apply tree_rep_focus in Hrep as ((Hx & _ & (Hy & Hay & Ha & Hb) & Hd) & Hk & Hnd).
  pose proof (NoDup_hole _ _ Hnd) as (Hn & Hout & Hndk). cbn [inorder] in Hn, Hout.
  rewrite <- app_assoc in Hn, Hout. simpl in Hn, Hout.
  destruct (NoDup_two_levels _ _ _ _ _ Hn) as (Hnb & Hyx & Hya & Hyb & Hyd & Hxa & Hxb & Hxd & Hbad).
  cbn [ptr] in Hlx. pose proof (proj2 Hax) as H4x. pose proof (proj2 Hay) as H4y.
  unfold rb_rotate_right. rewrite Hlx. cbn [mbind option_bind rb_left]. rewrite pack_parent by done.
  change (load s y = Some (mk_node (pack x c') (ptr b) (ptr a))) in Hy.
  rewrite Hy. cbn [mbind option_bind rb_right]. unfold load in Hy.
  rewrite (set_left_load _ _ _ _ Hlx). cbn [mbind option_bind rb_right rb_parent_color].
  destruct (set_parent_opt_spec (mk_mem (<[x:=mk_node (pack (par_of k) c) (ptr d) (ptr b)]> (nodes s)) (rb_root s)) y b x)
    as (s2 & -> & Hb2 & Hr2 & Hs2); [eapply rep_same; [|done]; intros; look|done..|]. simpl in Hr2, Hs2.
  assert (H2y : load s2 y = Some (mk_node (pack x c') (ptr b) (ptr a))) by (unfold load; rewrite Hs2 by done; look).
  cbn [mbind option_bind]. rewrite (set_right_load _ _ _ _ H2y).
  cbn [mbind option_bind rb_left rb_parent_color].
  rewrite (rb_set_parent_load _ y x c' x (ptr a) (par_of k)); [|unfold load; look|done..].
  cbn [mbind option_bind nodes rb_root]. rewrite insert_insert_eq.
  destruct (change_child_right_focus (mk_mem (<[y:=mk_node (pack (par_of k) c') x (ptr a)]> (nodes s2)) (rb_root s2)) k x y)
    as (s5 & -> & Hk5 & Hs5); try done.
  { simpl. rewrite Hr2. eapply repc_same; [|exact Hk]. intros q Hq.
    assert (q ∉ inorder a ++ y :: inorder b ++ x :: inorder d) by (intros ?; by eapply Hout).
    look. rewrite Hs2 by set_solver. look. }
  { apply Hout. set_solver. }
  cbn [mbind option_bind]. simpl in Hs5.
  assert (H5x : load s5 x = Some (mk_node (pack (par_of k) c) (ptr d) (ptr b))).
  { unfold load. rewrite Hs5 by (apply Hout; set_solver). look. rewrite Hs2 by done. look. }
  rewrite (rb_set_parent_load _ _ _ _ _ _ y H5x) by done.
  eexists. split; [done|]. split.
  - apply tree_rep_focus. simpl.
    assert (Hin : ∀ q, q ∈ inorder a ++ y :: inorder b ++ x :: inorder d → q ≠ x → nodes s5 !! q =
      if decide (q = y) then Some (mk_node (pack (par_of k) c') x (ptr a)) else nodes s2 !! q).
    { intros q Hq Hqx. rewrite Hs5 by (by apply Hout). case_decide; [subst; look|look]. }
    split_and!; try done.
    + look. rewrite Hin, decide_True by set_solver. done.
    + eapply rep_same; [|exact Ha]. intros q Hq. assert (q ≠ x) by congruence. assert (q ≠ y) by congruence.
      look. rewrite Hin, decide_False by set_solver. rewrite Hs2 by (intros Hqb; by destruct (Hbad q Hqb)). look.
    + look.
    + eapply rep_same; [|exact Hb2]. intros q Hq. assert (q ≠ x) by congruence. assert (q ≠ y) by congruence.
      look. rewrite Hin, decide_False by set_solver. done.
    + eapply rep_same; [|exact Hd]. intros q Hq. assert (q ≠ x) by congruence. assert (q ≠ y) by congruence.
      look. rewrite Hin, decide_False by set_solver. rewrite Hs2 by (intros Hqb; by destruct (Hbad q Hqb)). look.
    + eapply repc_same; [|exact Hk5]. intros q Hq. look.
    + revert Hnd. simpl. by repeat (rewrite <- app_assoc; simpl).
  - intros q Hq. rewrite inorder_plug in Hq. simpl in Hq. assert (q ≠ x) by set_solver. assert (q ≠ y) by set_solver.
    look. rewrite Hs5 by set_solver. look. rewrite Hs2 by set_solver. look.
Qed.

(** A piece of code that turned the tree [t] into [t'], with the same nodes in
    the same order, and touched nothing else. *)
Definition evolve (s : rb_mem) (t : tree) (s' : rb_mem) (t' : tree) : Prop :=
  tree_rep s' t' ∧ inorder t' = inorder t ∧ frame_same t s s'.

Lemma evolve_trans s t s' t' s'' t'' : evolve s t s' t' → evolve s' t' s'' t'' → evolve s t s'' t''.
Proof.
  intros (_ & Hi & Hf) (Hr & Hi' & Hf'). split_and!; [done|congruence|].
  intros q Hq. rewrite Hf' by (by rewrite Hi). by apply Hf.
Qed.

Lemma evolve_refl s t : tree_rep s t → evolve s t s t.
Proof. intros. split_and!; [done..|by intros]. Qed.

Ltac inorder := rewrite ?inorder_plug; simpl; rewrite ?inorder_plug; repeat (rewrite <- app_assoc; simpl); try done.

Lemma set_black_step s k c l p r :
  tree_rep s (plug k (Node c l p r)) →
  ∃ s', rb_set_black s p = Some s' ∧ evolve s (plug k (Node c l p r)) s' (plug k (Node Black l p r)).
Proof. intros (s' & ? & ? & ?)%set_black_focus. exists s'. split; [done|]. split_and!; [done|inorder|done]. Qed.

Lemma set_red_step s k c l p r :
  tree_rep s (plug k (Node c l p r)) →
  ∃ s', rb_set_red s p = Some s' ∧ evolve s (plug k (Node c l p r)) s' (plug k (Node Red l p r)).
Proof. intros (s' & ? & ? & ?)%set_red_focus. exists s'. split; [done|]. split_and!; [done|inorder|done]. Qed.

Lemma rotate_left_step s k c a x c' b y d :
  tree_rep s (plug k (Node c a x (Node c' b y d))) →
  ∃ s', rb_rotate_left s x = Some s' ∧
    evolve s (plug k (Node c a x (Node c' b y d))) s' (plug k (Node c' (Node c a x b) y d)).
Proof. intros (s' & ? & ? & ?)%rotate_left_focus. exists s'. split; [done|]. split_and!; [done|inorder|done]. Qed.

Lemma rotate_right_step s k c c' a y b x d :
  tree_rep s (plug k (Node c (Node c' a y b) x d)) →
  ∃ s', rb_rotate_right s x = Some s' ∧
    evolve s (plug k (Node c (Node c' a y b) x d)) s' (plug k (Node c' a y (Node c b x d))).
Proof. intros (s' & ? & ? & ?)%rotate_right_focus. exists s'. split; [done|]. split_and!; [done|inorder|done]. Qed.

(** ** The red-black invariant *)

(** No red node has a red child, and every path to a leaf has the same number
    of black nodes; the colour is that of the root. *)
Inductive is_rb : tree → color → nat → Prop :=
| rb_leaf : is_rb Leaf Black 0
| rb_red l p r n : is_rb l Black n → is_rb r Black n → is_rb (Node Red l p r) Red n
| rb_black l cl p r cr n : is_rb l cl n → is_rb r cr n → is_rb (Node Black l p r) Black (S n).

#[export] Hint Constructors is_rb : kernel.

(** A tree as the library leaves it between calls. *)
Definition rb_valid (t : tree) : Prop := ∃ n, is_rb t Black n.

Definition head_black (k : ctx) : Prop :=
  match k with FL Black _ _ :: _ | FR Black _ _ :: _ => True | _ => False end.

(** The path to a hole of black height [n] is sound; only the hole's parent may
    be red with a red hole. *)
Fixpoint ctx_rb (k : ctx) (n : nat) : Prop :=
  match k with
  | [] => True
  | (FL Red _ t | FR Red t _) :: k => is_rb t Black n ∧ head_black k ∧ ctx_rb k n
  | (FL Black _ t | FR Black t _) :: k => (∃ c, is_rb t c n) ∧ ctx_rb k (S n)
  end.

Lemma is_rb_color t c n c' n' : is_rb t c n → is_rb t c' n' → c = c'.
Proof. by destruct 1; inversion 1. Qed.

Lemma plug_rb k n t c :
  ctx_rb k n → is_rb t c n → (c = Red → k = [] ∨ head_black k) → ∃ c' m, is_rb (plug k t) c' m ∧ (k ≠ [] → c' = Black).
Proof.
  revert n t c. induction k as [|f k IH]; intros n t c Hk Ht Hc; [by exists c, n|].
  assert (∃ c' m, is_rb (fill f t) c' m ∧ ctx_rb k m ∧ (c' = Red → head_black k) ∧ (k = [] → c' = Black)) as
    (c' & m & Hf & Hk' & Hc' & Hb).
  { destruct f as [[] p u|[] u p]; simpl in *.
    - destruct Hk as (Hu & Hh & Hk). destruct c; [destruct Hc as [?|[]]; done|]. exists Red, n.
      split_and!; eauto with kernel; by intros ->.
    - destruct Hk as ((cu & Hu) & Hk). exists Black, (S n). split_and!; eauto with kernel; done.
    - destruct Hk as (Hu & Hh & Hk). destruct c; [destruct Hc as [?|[]]; done|]. exists Red, n.
      split_and!; eauto with kernel; by intros ->.
    - destruct Hk as ((cu & Hu) & Hk). exists Black, (S n). split_and!; eauto with kernel; done. }
  destruct (IH _ _ _ Hk' Hf) as (c'' & m' & Hp & Hb'); [auto|]. exists c'', m'. split; [done|]. intros _.
  destruct k; [|by apply Hb']. rewrite (is_rb_color _ _ _ _ _ Hp Hf). by apply Hb.
Qed.

(** Whether the root of a subtree is red, as the code asks it. *)
Definition tree_red (t : tree) : bool := match t with Node Red _ _ _ => true | _ => false end.

Lemma is_red_ptr_spec s par t : rep (nodes s) par t → (4 | par) → is_red_ptr s (ptr t) = Some (tree_red t).
Proof.
  unfold is_red_ptr. destruct t as [|c l p r]; [done|]. intros (Hp & [Ha _] & _) Hpar. simpl. unfold ctrue, load.
  destruct (Z.eqb_spec p 0); [lia|]. rewrite Hp. simpl. rewrite pack_is_red by done. by destruct c.
Qed.

Lemma is_red_ptr_focus s k t : tree_rep s (plug k t) → is_red_ptr s (ptr t) = Some (tree_red t).
Proof. intros (Hr & Hk & _)%tree_rep_focus. eapply is_red_ptr_spec; [done|]. by eapply par_of_aligned. Qed.

Lemma is_red_ptr_parent s k t :
  tree_rep s (plug k t) →
  is_red_ptr s (par_of k) = Some (match k with (FL Red _ _ | FR Red _ _) :: _ => true | _ => false end).
Proof.
  destruct k as [|f k]; [done|]. intros Hrep. apply (is_red_ptr_focus s k (fill f t)) in Hrep.
  by destruct f as [[]|[]].
Qed.

(** ** Insertion *)

(** The loop stops at the root or below a black parent. *)
Lemma insert_loop_exit fuel s k c l p r :
  tree_rep s (plug k (Node c l p r)) → k = [] ∨ head_black k → insert_loop (S fuel) s p = Some s.
Proof.
  intros Hrep Hk. simpl. destruct (load_focus _ _ _ _ _ _ Hrep) as (-> & _ & H4). cbn [mbind option_bind].
  rewrite pack_parent, (is_red_ptr_parent _ _ _ Hrep) by done. cbn [mbind option_bind].
  by destruct k as [|[[]|[]] k], Hk.
Qed.

(** Run the next call of a sequence on the store focused at [k]. *)
Tactic Notation "rb_step" uconstr(lem) "at" uconstr(k) :=
  lazymatch goal with
  | H : tree_rep ?s _ |- _ =>
      let s' := fresh "s" in let He := fresh "He" in
      edestruct (lem s k) as (s' & Hrun & He); [exact H|]; rewrite Hrun; clear Hrun;
      cbn [mbind option_bind]; clear H; pose proof (proj1 He) as H; simpl in H
  end.

(** The steps made so far, composed. *)
Ltac rb_done := eexists; split; [reflexivity|]; simpl in *; eauto 8 using evolve_trans, evolve_refl.

Lemma recolor_right_uncle s k cg cp pl pp pr g cu ul up ur :
  tree_rep s (plug k (Node cg (Node cp pl pp pr) g (Node cu ul up ur))) →
  ∃ s', insert_recolor s up pp g = Some s' ∧
    evolve s (plug k (Node cg (Node cp pl pp pr) g (Node cu ul up ur)))
           s' (plug k (Node Red (Node Black pl pp pr) g (Node Black ul up ur))).
Proof.
  intros Hrep. unfold insert_recolor.
  rb_step set_black_step at (FR cg (Node cp pl pp pr) g :: k).
  rb_step set_black_step at (FL cg g (Node Black ul up ur) :: k).
  rb_step set_red_step at k. rb_done.
Qed.

Lemma recolor_left_uncle s k cg cp pl pp pr g cu ul up ur :
  tree_rep s (plug k (Node cg (Node cu ul up ur) g (Node cp pl pp pr))) →
  ∃ s', insert_recolor s up pp g = Some s' ∧
    evolve s (plug k (Node cg (Node cu ul up ur) g (Node cp pl pp pr)))
           s' (plug k (Node Red (Node Black ul up ur) g (Node Black pl pp pr))).
Proof.
  intros Hrep. unfold insert_recolor.
  rb_step set_black_step at (FL cg g (Node cp pl pp pr) :: k).
  rb_step set_black_step at (FR cg (Node Black ul up ur) g :: k).
  rb_step set_red_step at k. rb_done.
Qed.

Lemma rep_addr h par t q : rep h par t → q ∈ inorder t → addr q.
Proof.
  revert par. induction t as [|c l IHl p r IHr]; intros par; simpl; [set_solver|].
  intros (_ & Ha & Hl & Hr) [Hq|[->|Hq]%elem_of_cons]%elem_of_app; eauto.
Qed.

(** The two subtrees of a node have different roots. *)
Lemma subtrees_disjoint s k c l p r :
  tree_rep s (plug k (Node c l p r)) → (∀ q, q ∈ inorder l → q ≠ ptr r) ∧ (∀ q, q ∈ inorder r → q ≠ ptr l).
Proof.
  intros ((_ & _ & Hl & Hr) & _ & Hnd)%tree_rep_focus. pose proof (NoDup_hole _ _ Hnd) as (Hn & _). simpl in Hn.
  apply NoDup_app in Hn as (_ & Hd & _). split; intros q Hq ->.
  - destruct (rep_addr _ _ _ _ Hl Hq) as [? _]. apply (Hd _ Hq). right. apply ptr_elem. lia.
  - destruct (rep_addr _ _ _ _ Hr Hq) as [? _]. apply (Hd (ptr l)); [apply ptr_elem; lia|by right].
Qed.

Lemma rotate_left_case_outer s k cg cp cn l p r pp pr g u :
  tree_rep s (plug k (Node cg (Node cp (Node cn l p r) pp pr) g u)) →
  ∃ s', insert_rotate_left_case s p pp g = Some (s', p) ∧
    evolve s (plug k (Node cg (Node cp (Node cn l p r) pp pr) g u))
           s' (plug k (Node Black (Node cn l p r) pp (Node Red pr g u))).
Proof.
  intros Hrep. unfold insert_rotate_left_case.
  destruct (load_focus s (FL cg g u :: k) _ _ _ _ Hrep) as (-> & _ & _). cbn [mbind option_bind rb_right].
  destruct (subtrees_disjoint s (FL cg g u :: k) _ _ _ _ Hrep) as [Hne _].
  specialize (Hne p ltac:(simpl; set_solver)). destruct (Z.eqb_spec (ptr pr) p); [done|]. cbn [mbind option_bind].
  rb_step set_black_step at (FL cg g u :: k). rb_step set_red_step at k. rb_step rotate_right_step at k. rb_done.
Qed.

Lemma rotate_left_case_inner s k cg cp pl pp cn l p r g u :
  tree_rep s (plug k (Node cg (Node cp pl pp (Node cn l p r)) g u)) →
  ∃ s', insert_rotate_left_case s p pp g = Some (s', pp) ∧
    evolve s (plug k (Node cg (Node cp pl pp (Node cn l p r)) g u))
           s' (plug k (Node Black (Node cp pl pp l) p (Node Red r g u))).
Proof.
  intros Hrep. unfold insert_rotate_left_case.
  destruct (load_focus s (FL cg g u :: k) _ _ _ _ Hrep) as (-> & _ & _). cbn [mbind option_bind rb_right ptr].
  rewrite Z.eqb_refl. rb_step rotate_left_step at (FL cg g u :: k).
  rb_step set_black_step at (FL cg g u :: k). rb_step set_red_step at k. rb_step rotate_right_step at k. rb_done.
Qed.

Lemma rotate_right_case_outer s k cg u g cp pl pp cn l p r :
  tree_rep s (plug k (Node cg u g (Node cp pl pp (Node cn l p r)))) →
  ∃ s', insert_rotate_right_case s p pp g = Some (s', p) ∧
    evolve s (plug k (Node cg u g (Node cp pl pp (Node cn l p r))))
           s' (plug k (Node Black (Node Red u g pl) pp (Node cn l p r))).
Proof.
  intros Hrep. unfold insert_rotate_right_case.
  destruct (load_focus s (FR cg u g :: k) _ _ _ _ Hrep) as (-> & _ & _). cbn [mbind option_bind rb_left].
  destruct (subtrees_disjoint s (FR cg u g :: k) _ _ _ _ Hrep) as [_ Hne].
  specialize (Hne p ltac:(simpl; set_solver)). destruct (Z.eqb_spec (ptr pl) p); [done|]. cbn [mbind option_bind].
  rb_step set_black_step at (FR cg u g :: k). rb_step set_red_step at k. rb_step rotate_left_step at k. rb_done.
Qed.

Lemma rotate_right_case_inner s k cg u g cp cn l p r pp pr :
  tree_rep s (plug k (Node cg u g (Node cp (Node cn l p r) pp pr))) →
  ∃ s', insert_rotate_right_case s p pp g = Some (s', pp) ∧
    evolve s (plug k (Node cg u g (Node cp (Node cn l p r) pp pr)))
           s' (plug k (Node Black (Node Red u g l) p (Node cp r pp pr))).
Proof.
  intros Hrep. unfold insert_rotate_right_case.
  destruct (load_focus s (FR cg u g :: k) _ _ _ _ Hrep) as (-> & _ & _). cbn [mbind option_bind rb_left ptr].
  rewrite Z.eqb_refl. rb_step rotate_right_step at (FR cg u g :: k).
  rb_step set_black_step at (FR cg u g :: k). rb_step set_red_step at k. rb_step rotate_left_step at k. rb_done.
Qed.

(** One turn of the loop below a red parent: what the code has read. *)
Lemma insert_loop_turn fuel s f1 f2 k l p r :
  tree_rep s (plug (f1 :: f2 :: k) (Node Red l p r)) →
  match f1 with FL Red _ _ | FR Red _ _ => True | _ => False end →
  insert_loop (S fuel) s p =
  match f2 with
  | FL _ g u =>
      if tree_red u then s ← insert_recolor s (ptr u) (fptr f1) g; insert_loop fuel s g
      else '(s, node) ← insert_rotate_left_case s p (fptr f1) g; insert_loop fuel s node
  | FR _ u g =>
      if tree_red u then s ← insert_recolor s (ptr u) (fptr f1) g; insert_loop fuel s g
      else '(s, node) ← insert_rotate_right_case s p (fptr f1) g; insert_loop fuel s node
  end.
Proof.
  intros Hrep Hred. simpl insert_loop. destruct (load_focus _ _ _ _ _ _ Hrep) as (-> & _ & H4).
  cbn [mbind option_bind]. rewrite pack_parent, (is_red_ptr_parent _ _ _ Hrep) by done. cbn [mbind option_bind].
  replace (match f1 :: f2 :: k with (FL Red _ _ | FR Red _ _) :: _ => true | _ => false end) with true
    by (by destruct f1 as [[]|[]]). cbn [negb par_of].
  set (t := fill f1 (Node Red l p r)).
  assert (Ht : ∃ pl pr c, t = Node c pl (fptr f1) pr) by (destruct f1; by eexists _, _, _).
  destruct Ht as (pl & pr & c & Ht).
  change (tree_rep s (plug (f2 :: k) t)) in Hrep. rewrite Ht in Hrep.
  destruct (load_focus _ _ _ _ _ _ Hrep) as (-> & _ & H4'). cbn [mbind option_bind]. rewrite pack_parent by done.
  destruct f2 as [c2 g u|c2 u g]; cbn [par_of fptr].
  - change (tree_rep s (plug k (Node c2 (Node c pl (fptr f1) pr) g u))) in Hrep.
    destruct (load_focus _ _ _ _ _ _ Hrep) as (-> & _ & _). cbn [mbind option_bind rb_left ptr rb_right].
    rewrite Z.eqb_refl. by rewrite (is_red_ptr_focus s (FR c2 (Node c pl (fptr f1) pr) g :: k)).
  - change (tree_rep s (plug k (Node c2 u g (Node c pl (fptr f1) pr)))) in Hrep.
    destruct (load_focus _ _ _ _ _ _ Hrep) as (-> & _ & _). cbn [mbind option_bind rb_left ptr rb_right].
    destruct (subtrees_disjoint _ _ _ _ _ _ Hrep) as [_ Hne].
    specialize (Hne (fptr f1) ltac:(simpl; set_solver)). destruct (Z.eqb_spec (fptr f1) (ptr u)); [done|].
    by rewrite (is_red_ptr_focus s (FL c2 g (Node c pl (fptr f1) pr) :: k)).
Qed.

(** The end of the loop: a black node with two red children at the place of the
    grandparent. *)
Lemma insert_rotated fuel s t s1 k cl l p r x cr a y b node n :
  evolve s t s1 (plug k (Node Black (Node cl l p r) x (Node cr a y b))) →
  node = p ∨ node = y → is_rb (Node cl l p r) Red n → is_rb (Node cr a y b) Red n → ctx_rb k (S n) →
  ∃ s' T c m, insert_loop (S fuel) s1 node = Some s' ∧ evolve s t s' T ∧ is_rb T c m.
Proof.
  intros He Hnode Hl Hr Hk. assert (Hrun : insert_loop (S fuel) s1 node = Some s1).
  { destruct Hnode as [-> | ->].
    - eapply (insert_loop_exit _ _ (FL Black x (Node cr a y b) :: k)); [apply He|by right].
    - eapply (insert_loop_exit _ _ (FR Black (Node cl l p r) x :: k)); [apply He|by right]. }
  destruct (plug_rb k (S n) (Node Black (Node cl l p r) x (Node cr a y b)) Black) as (c & m & Hrb & _);
    [done|by econstructor|done|]. by exists s1, (plug k (Node Black (Node cl l p r) x (Node cr a y b))), c, m.
Qed.

Lemma not_red_black t c n : is_rb t c n → tree_red t = false → c = Black.
Proof. by destruct 1. Qed.

Lemma insert_loop_spec fuel k s l p r n :
  (length k < fuel)%nat → tree_rep s (plug k (Node Red l p r)) → is_rb (Node Red l p r) Red n → ctx_rb k n →
  ∃ s' T c m, insert_loop fuel s p = Some s' ∧ evolve s (plug k (Node Red l p r)) s' T ∧ is_rb T c m.
Proof.
  revert k s l p r n. induction fuel as [|fuel IH]; intros k s l p r n Hfuel Hrep Hrb Hk; [lia|].
  assert (Hstop : k = [] ∨ head_black k ∨ ∃ f1 f2 k', k = f1 :: f2 :: k' ∧
    match f1 with FL Red _ _ | FR Red _ _ => True | _ => False end).
  { destruct k as [|[[] q u|[] u q] k]; [by left| |by right; left| |by right; left]; right; right;
      (destruct k as [|f2 k]; [by destruct Hk as (_ & [] & _)|by eexists _, _, _]). }
  destruct Hstop as [Hstop|[Hstop|(f1 & f2 & k' & -> & Hf1)]].
  1,2: rewrite (insert_loop_exit _ _ _ _ _ _ _ Hrep) by auto;
    destruct (plug_rb k n _ Red Hk Hrb) as (c & m & ? & _); [auto|]; eauto 8 using evolve_refl.
  rewrite (insert_loop_turn _ _ _ _ _ _ _ _ Hrep Hf1). simpl in Hfuel. inversion Hrb; subst.
  destruct fuel as [|fuel]; [lia|].
  destruct f2 as [[] g u|[] u g]; [by destruct f1 as [[]|[]], Hk as (_ & [] & _)| |
                                   by destruct f1 as [[]|[]], Hk as (_ & [] & _)|].
  - (* the parent is a left child *)
    assert (∃ cu, is_rb u cu n ∧ ctx_rb k' (S n)) as (cu & Hu & Hk') by (destruct f1 as [[]|[]]; naive_solver).
    destruct (tree_red u) eqn:Hred.
    + destruct u as [|[] ul up ur]; try done. inversion Hu; subst.
      assert (∃ pl pr cp, fill f1 (Node Red l p r) = Node cp pl (fptr f1) pr ∧ is_rb (Node Black pl (fptr f1) pr) Black (S n))
        as (pl & pr & cp & Ht & Hp).
      { destruct f1 as [[] q t|[] t q]; try done; destruct Hk as (? & _); eexists _, _, _; eauto with kernel. }
      change (tree_rep s (plug k' (Node Black (fill f1 (Node Red l p r)) g (Node Red ul up ur)))) in Hrep.
      cbn [plug fill ptr]. rewrite Ht in *.
      destruct (recolor_right_uncle _ _ _ _ _ _ _ _ _ _ _ _ Hrep) as (s1 & -> & He). cbn [mbind option_bind].
      destruct (IH k' s1 (Node Black pl (fptr f1) pr) g (Node Black ul up ur) (S n)) as (s' & T & c & m & ? & ? & ?);
        [lia|apply He|by eauto with kernel|done|]. exists s', T, c, m. eauto using evolve_trans.
    + pose proof (not_red_black _ _ _ Hu Hred) as ->.
      destruct f1 as [[] q t|[] t q]; try done; destruct Hk as (Ht & _); cbn [fptr].
      * destruct (rotate_left_case_outer _ _ _ _ _ _ _ _ _ _ _ _ Hrep) as (s1 & -> & He). cbn [mbind option_bind].
        eapply insert_rotated; eauto with kernel.
      * destruct (rotate_left_case_inner _ _ _ _ _ _ _ _ _ _ _ _ Hrep) as (s1 & -> & He). cbn [mbind option_bind].
        eapply insert_rotated; eauto with kernel.
  - (* the parent is a right child *)
    assert (∃ cu, is_rb u cu n ∧ ctx_rb k' (S n)) as (cu & Hu & Hk') by (destruct f1 as [[]|[]]; naive_solver).
    destruct (tree_red u) eqn:Hred.
    + destruct u as [|[] ul up ur]; try done. inversion Hu; subst.
      assert (∃ pl pr cp, fill f1 (Node Red l p r) = Node cp pl (fptr f1) pr ∧ is_rb (Node Black pl (fptr f1) pr) Black (S n))
        as (pl & pr & cp & Ht & Hp).
      { destruct f1 as [[] q t|[] t q]; try done; destruct Hk as (? & _); eexists _, _, _; eauto with kernel. }
      change (tree_rep s (plug k' (Node Black (Node Red ul up ur) g (fill f1 (Node Red l p r))))) in Hrep.
      cbn [plug fill ptr]. rewrite Ht in *.
      destruct (recolor_left_uncle _ _ _ _ _ _ _ _ _ _ _ _ Hrep) as (s1 & -> & He). cbn [mbind option_bind].
      destruct (IH k' s1 (Node Black ul up ur) g (Node Black pl (fptr f1) pr) (S n)) as (s' & T & c & m & ? & ? & ?);
        [lia|apply He|by eauto with kernel|done|]. exists s', T, c, m. eauto using evolve_trans.
    + pose proof (not_red_black _ _ _ Hu Hred) as ->.
      destruct f1 as [[] q t|[] t q]; try done; destruct Hk as (Ht & _); cbn [fptr].
      * destruct (rotate_right_case_inner _ _ _ _ _ _ _ _ _ _ _ _ Hrep) as (s1 & -> & He). cbn [mbind option_bind].
        eapply insert_rotated; eauto with kernel.
      * destruct (rotate_right_case_outer _ _ _ _ _ _ _ _ _ _ _ _ Hrep) as (s1 & -> & He). cbn [mbind option_bind].
        eapply insert_rotated; eauto with kernel.
Qed.

(** ** Fuel: a tree has no more nodes than the store *)

Lemma rep_dom h par t q : rep h par t → q ∈ inorder t → is_Some (h !! q).
Proof.
  revert par. induction t as [|c l IHl p r IHr]; intros par; simpl; [set_solver|].
  intros (Hp & Ha & Hl & Hr) [Hq|[->|Hq]%elem_of_cons]%elem_of_app; eauto.
Qed.

Lemma tree_rep_size s t : tree_rep s t → (length (inorder t) ≤ size (nodes s))%nat.
Proof.
  intros [_ Hrep Hnd]. rewrite <- size_dom, <- (size_list_to_set (C := gset Z)) by done.
  apply subseteq_size. intros q Hq%elem_of_list_to_set. apply elem_of_dom. by eapply rep_dom.
Qed.

Lemma ctx_length k t : (length k + length (inorder t) ≤ length (inorder (plug k t)))%nat.
Proof.
  revert t. induction k as [|f k IH]; intros t; simpl; [lia|]. specialize (IH (fill f t)).
  destruct f; simpl in *; rewrite length_app in IH; simpl in IH; lia.
Qed.

Lemma ctx_fuel s k t : tree_rep s (plug k t) → (length k < rb_fuel s)%nat.
Proof. intros Hrep. pose proof (tree_rep_size _ _ Hrep). pose proof (ctx_length k t). unfold rb_fuel. lia. Qed.

(** [rb_insert_color] makes a red-black tree again out of one to which a red
    node has been added anywhere. *)
Lemma rb_insert_color_spec s k l p r n :
  tree_rep s (plug k (Node Red l p r)) → is_rb (Node Red l p r) Red n → ctx_rb k n →
  ∃ s' t, rb_insert_color s p = Some s' ∧ evolve s (plug k (Node Red l p r)) s' t ∧ rb_valid t.
Proof.
  intros Hrep Hrb Hk. unfold rb_insert_color.
  destruct (insert_loop_spec _ _ _ _ _ _ _ (ctx_fuel _ _ _ Hrep) Hrep Hrb Hk) as (s1 & t & c & m & -> & He & Ht).
  cbn [mbind option_bind]. pose proof He as (Hrep1 & Hin & _). rewrite (tr_root _ _ Hrep1).
  destruct t as [|c' a q b]. { apply (f_equal length) in Hin. rewrite inorder_plug in Hin. simpl in Hin.
    rewrite !length_app in Hin. simpl in Hin. lia. }
  destruct (set_black_step s1 [] _ _ _ _ Hrep1) as (s2 & Hrun & He2). cbn [ptr]. rewrite Hrun.
  exists s2, (Node Black a q b). split_and!; [done|by eapply evolve_trans|].
  inversion Ht; subst; eexists; eauto with kernel.
Qed.

(** ** Linking a new node *)

Definition link_of (k : ctx) : rb_link :=
  match k with [] => LinkRoot | FL _ p _ :: _ => LinkLeft p | FR _ _ p :: _ => LinkRight p end.

Lemma ctx_link_update s k hole v :
  repc (nodes s) (rb_root s) k hole → NoDup (ctx_l k ++ ctx_r k) →
  ∃ s', write_link s (link_of k) v = Some s' ∧ repc (nodes s') (rb_root s') k v ∧
    (∀ x, x ∉ ctx_l k ++ ctx_r k → nodes s' !! x = nodes s !! x).
Proof.
  intros Hk Hnd. destruct k as [|[c p r|c l p] k]; simpl in *.
  - by eexists.
  - destruct Hk as (Hp & Ha & Hr & Hk). rewrite (set_left_load _ _ _ _ Hp). eexists. split; [done|]. simpl.
    apply NoDup_app in Hnd as (_ & Hd & [Hn _]%NoDup_cons).
    split_and!; try done; [look|eapply rep_same; [|done]|eapply repc_same; [|done]|]; intros x Hx; look.
  - destruct Hk as (Hp & Ha & Hl & Hk). rewrite (set_right_load _ _ _ _ Hp). eexists. split; [done|]. simpl.
    rewrite <- !app_assoc in Hnd. apply NoDup_app in Hnd as (_ & Hd & Hn).
    apply NoDup_app in Hn as (_ & Hd2 & [Hn _]%NoDup_cons).
    split_and!; try done; [look|eapply rep_same; [|done]|eapply repc_same; [|done]|]; intros x Hx; look.
Qed.

Lemma rb_link_node_spec s k node :
  tree_rep s (plug k Leaf) → addr node → node ∉ inorder (plug k Leaf) →
  ∃ s', rb_link_node s node (par_of k) (link_of k) = Some s' ∧
    tree_rep s' (plug k (Node Red Leaf node Leaf)) ∧ frame_same (plug k (Node Red Leaf node Leaf)) s s'.
Proof.
  intros (_ & Hk & Hnd)%tree_rep_focus Ha Hnew. rewrite inorder_plug in Hnew. simpl in *. unfold rb_link_node.
  destruct (ctx_link_update (mk_mem (<[node:=mk_node (par_of k) 0 0]> (nodes s)) (rb_root s)) k 0 node)
    as (s' & -> & Hk' & Hs'); [eapply repc_same; [|done]; intros x Hx; look|done|].
  exists s'. split; [done|]. split.
  - apply tree_rep_focus. simpl. split_and!; try done.
    + rewrite Hs' by done. look. unfold pack. simpl. unfold RB_RED. by rewrite Z.add_0_r.
    + apply NoDup_app in Hnd as (? & Hd & ?). rewrite NoDup_app, NoDup_cons. split_and!; try done; set_solver.
  - intros q Hq. rewrite inorder_plug in Hq. simpl in Hq. rewrite Hs' by set_solver. look.
Qed.

(** A sound tree has sound paths to all of its leaves. *)
Lemma unplug_rb k t c m :
  is_rb (plug k t) c m → (k ≠ [] → c = Black) →
  ∃ ct n, is_rb t ct n ∧ ctx_rb k n ∧ (ct = Red → k = [] ∨ head_black k).
Proof.
  revert t. induction k as [|f k IH]; intros t Hrb Hc.
  - exists c, m. simpl. auto.
  - destruct (IH (fill f t)) as (cf & n & Hf & Hk & Hr); [done|by intros _; apply Hc|].
    assert (Hnil : k = [] → cf = Black).
    { intros ->. rewrite (is_rb_color _ _ _ _ _ Hf Hrb). by apply Hc. }
    destruct f as [c0 p u|c0 u p]; simpl in Hf; inversion Hf; subst; simpl.
    + eexists _, _. split_and!; [done|done| |done|done]. destruct Hr; [done|naive_solver|done].
    + eexists _, _. split_and!; [done|by eexists|done|auto].
    + eexists _, _. split_and!; [done|done| |done|done]. destruct Hr; [done|naive_solver|done].
    + eexists _, _. split_and!; [done|by eexists|done|auto].
Qed.

(** Linking and rebalancing: the new node is at its place in the order, the
    other nodes are as they were. *)
Lemma rb_insert_spec s k node :
  tree_rep s (plug k Leaf) → rb_valid (plug k Leaf) → addr node → node ∉ inorder (plug k Leaf) →
  ∃ s1 s2 t, rb_link_node s node (par_of k) (link_of k) = Some s1 ∧ rb_insert_color s1 node = Some s2 ∧
    tree_rep s2 t ∧ rb_valid t ∧ inorder t = ctx_l k ++ node :: ctx_r k ∧
    (∀ q, q ≠ node → q ∉ inorder (plug k Leaf) → nodes s2 !! q = nodes s !! q).
Proof.
  intros Hrep (m & Hv) Ha Hnew.
  destruct (rb_link_node_spec s k node Hrep Ha Hnew) as (s1 & Hrun1 & Hrep1 & Hf1).
  destruct (unplug_rb k Leaf _ _ Hv) as (ct & n & Hl & Hk & _); [done|]. inversion Hl; subst.
  destruct (rb_insert_color_spec s1 k Leaf node Leaf 0) as (s2 & t & Hrun2 & (Hrep2 & Hin & Hf2) & Hv2);
    [done|by eauto with kernel|done|].
  exists s1, s2, t. split_and!; try done; [rewrite Hin; by inorder|].
  intros q Hq1 Hq2. rewrite inorder_plug in Hq2. simpl in Hq2.
  assert (q ∉ inorder (plug k (Node Red Leaf node Leaf))) by (rewrite inorder_plug; simpl; set_solver).
  rewrite Hf2 by done. by apply Hf1.
Qed.

(** ** Searching

    The loop the users of the library write: from the root down, to the left
    when the comparison with a node is negative, to the right when it is
    positive; it ends at an equal node or at the empty link where a new node
    belongs. *)
Fixpoint rb_descend (fuel : nat) (s : rb_mem) (diff : Z → option Z) (link : rb_link) (parent : Z)
  : option (Z + rb_link * Z) :=
  match fuel with
  | O => None
  | S fuel =>
      x ← read_link s link;
      if ctrue x then
        d ← diff x;
        if d <? 0 then rb_descend fuel s diff (LinkLeft x) x
        else if 0 <? d then rb_descend fuel s diff (LinkRight x) x
        else Some (inl x)
      else Some (inr (link, parent))
  end.

Definition rb_search (s : rb_mem) (diff : Z → option Z) : option (Z + rb_link * Z) :=
  rb_descend (S (rb_fuel s)) s diff LinkRoot 0.

Section search.
Context (diff : Z → option Z) (d : Z → Z).

(** In order, the comparison goes from positive to negative. *)
Definition descending (l : list Z) : Prop :=
  Forall (λ x, diff x = Some (d x)) l ∧ StronglySorted (λ x y, d x ≤ 0 → d y < 0) l.

Lemma descending_split l1 x l2 :
  descending (l1 ++ x :: l2) →
  diff x = Some (d x) ∧ (d x ≤ 0 → Forall (λ y, d y < 0) l2) ∧ (0 ≤ d x → Forall (λ y, 0 < d y) l1).
Proof.
  intros [[_ [Hx _]%Forall_cons]%Forall_app (Hlt & _ & Hs)%StronglySorted_app]. split_and!; [done|..].
  - intros Hle. inversion Hs as [|?? _ Hall]; subst. eapply Forall_impl; [exact Hall|]. simpl. auto.
  - intros Hge. apply Forall_forall. intros y Hy. specialize (Hlt y x Hy ltac:(by left)). lia.
Qed.

Lemma read_link_focus s k t : tree_rep s (plug k t) → read_link s (link_of k) = Some (ptr t).
Proof.
  intros (_ & Hk & _)%tree_rep_focus. destruct k as [|[c p r|c l p] k]; simpl in *; [by rewrite Hk|..];
    destruct Hk as (Hp & _); unfold load; by rewrite Hp.
Qed.

Lemma rb_descend_spec fuel s k t :
  tree_rep s (plug k t) → descending (inorder (plug k t)) → (length (inorder t) < fuel)%nat →
  Forall (λ y, 0 < d y) (ctx_l k) → Forall (λ y, d y < 0) (ctx_r k) →
  (∃ x, rb_descend fuel s diff (link_of k) (par_of k) = Some (inl x) ∧ x ∈ inorder (plug k t) ∧ d x = 0) ∨
  (∃ k', rb_descend fuel s diff (link_of k) (par_of k) = Some (inr (link_of k', par_of k')) ∧
     plug k' Leaf = plug k t ∧ Forall (λ y, 0 < d y) (ctx_l k') ∧ Forall (λ y, d y < 0) (ctx_r k')).
Proof.
  revert k t. induction fuel as [|fuel IH]; intros k t Hrep Hd Hfuel Hl Hr; [lia|].
  simpl. rewrite (read_link_focus _ _ _ Hrep). cbn [mbind option_bind].
  destruct t as [|c l p r]; [right; by exists k|].
  pose proof (load_focus _ _ _ _ _ _ Hrep) as (_ & [Hp _] & _). cbn [ptr]. unfold ctrue.
  destruct (Z.eqb_spec p 0); [lia|]. cbn [negb]. simpl in Hfuel. rewrite length_app in Hfuel. simpl in Hfuel.
  pose proof Hd as Hd'. rewrite inorder_plug in Hd'. simpl in Hd'. rewrite <- app_assoc in Hd'. simpl in Hd'.
  rewrite app_assoc in Hd'. apply descending_split in Hd' as (-> & Hneg & Hpos). cbn [mbind option_bind].
  destruct (Z.ltb_spec (d p) 0).
  - apply (IH (FL c p r :: k) l); simpl; try done; [lia|]. constructor; [done|]. apply Hneg. lia.
  - destruct (Z.ltb_spec 0 (d p)).
    + specialize (Hpos ltac:(lia)). apply Forall_app in Hpos as [_ ?].
      apply (IH (FR c l p :: k) r); simpl; try done; [lia|]. rewrite !Forall_app. split_and!; auto.
    + left. exists p. split_and!; [done| |lia]. rewrite inorder_plug. set_solver.
Qed.

Lemma rb_search_spec s t :
  tree_rep s t → descending (inorder t) →
  (∃ x, rb_search s diff = Some (inl x) ∧ x ∈ inorder t ∧ d x = 0) ∨
  (∃ k, rb_search s diff = Some (inr (link_of k, par_of k)) ∧ plug k Leaf = t ∧
     Forall (λ y, 0 < d y) (ctx_l k) ∧ Forall (λ y, d y < 0) (ctx_r k)).
Proof.
  intros Hrep Hd. unfold rb_search. pose proof (tree_rep_size _ _ Hrep).
  apply (rb_descend_spec _ s [] t); simpl; try done. unfold rb_fuel. lia.
Qed.
End search.

(** ** Walking *)

Lemma focus_elem t p : p ∈ inorder t → ∃ k c l r, t = plug k (Node c l p r).
Proof.
  induction t as [|c l IHl q r IHr]; simpl; [set_solver|].
  intros [Hp|[->|Hp]%elem_of_cons]%elem_of_app.
  - destruct (IHl Hp) as (k & c' & l' & r' & ->). exists (k ++ [FL c q r]), c', l', r'. by rewrite plug_app.
  - by exists [], c, l, r.
  - destruct (IHr Hp) as (k & c' & l' & r' & ->). exists (k ++ [FR c l q]), c', l', r'. by rewrite plug_app.
Qed.

(** The same, with what is before and behind the node in order. *)
Lemma focus_split t l1 p l2 :
  NoDup (inorder t) → inorder t = l1 ++ p :: l2 →
  ∃ k c l r, t = plug k (Node c l p r) ∧ l1 = ctx_l k ++ inorder l ∧ l2 = inorder r ++ ctx_r k.
Proof.
  intros Hnd Hin. destruct (focus_elem t p) as (k & c & l & r & ->); [rewrite Hin; set_solver|].
  exists k, c, l, r. split; [done|]. rewrite inorder_plug in Hin. simpl in Hin.
  rewrite <- app_assoc in Hin. simpl in Hin. rewrite app_assoc in Hin.
  rewrite inorder_plug in Hnd. simpl in Hnd. rewrite <- app_assoc in Hnd. simpl in Hnd. rewrite app_assoc in Hnd.
  assert (p ∉ ctx_l k ++ inorder l) as Hn1.
  { apply NoDup_app in Hnd as (_ & Hd & _). intros Hp. eapply Hd; [done|by left]. }
  assert (p ∉ l1) as Hn2.
  { rewrite Hin in Hnd. apply NoDup_app in Hnd as (_ & Hd & _). intros Hp. eapply Hd; [done|by left]. }
  apply app_inj_pivot in Hin. rewrite <- !list_elem_of_In in Hin. naive_solver.
Qed.

Lemma leftmost_spec fuel s par c l p r :
  rep (nodes s) par (Node c l p r) → (length (inorder (Node c l p r)) ≤ fuel)%nat →
  leftmost fuel s p = Some (default 0 (head (inorder (Node c l p r)))).
Proof.
  revert par c l p r. induction fuel as [|fuel IH]; intros par c l p r (Hp & Ha & Hl & Hr) Hf;
    simpl in Hf; rewrite length_app in Hf; simpl in Hf; [lia|].
  simpl. unfold load. rewrite Hp. cbn [mbind option_bind rb_left].
  destruct l as [|cl ll lp lr]; [done|]. pose proof Hl as (_ & [? _] & _). cbn [ptr]. unfold ctrue.
  destruct (Z.eqb_spec lp 0); [lia|]. cbn [negb]. rewrite (IH _ _ _ _ _ Hl) by (simpl in *; lia).
  simpl. by destruct (inorder ll).
Qed.

Lemma rightmost_spec fuel s par c l p r :
  rep (nodes s) par (Node c l p r) → (length (inorder (Node c l p r)) ≤ fuel)%nat →
  rightmost fuel s p = Some (default 0 (last (inorder (Node c l p r)))).
Proof.
  revert par c l p r. induction fuel as [|fuel IH]; intros par c l p r (Hp & Ha & Hl & Hr) Hf;
    simpl in Hf; rewrite length_app in Hf; simpl in Hf; [lia|].
  simpl. unfold load. rewrite Hp. cbn [mbind option_bind rb_right].
  destruct r as [|cr rl rp rr]; [simpl; by rewrite last_snoc|]. pose proof Hr as (_ & [? _] & _). cbn [ptr]. unfold ctrue.
  destruct (Z.eqb_spec rp 0); [lia|]. cbn [negb]. rewrite (IH _ _ _ _ _ Hr) by (simpl in *; lia).
  simpl. by rewrite !last_app_cons, app_comm_cons, last_app_cons.
Qed.

Lemma climb_right_spec fuel s k c l p r :
  tree_rep s (plug k (Node c l p r)) → (length k < fuel)%nat →
  climb_right fuel s p = Some (default 0 (head (ctx_r k))).
Proof.
  revert k c l p r. induction fuel as [|fuel IH]; intros k c l p r Hrep Hf; [lia|]. simpl.
  destruct (load_focus _ _ _ _ _ _ Hrep) as (-> & Ha & H4). cbn [mbind option_bind]. rewrite pack_parent by done.
  destruct k as [|[c' q u|c' u q] k]; [done|..]; cbn [par_of fptr].
  - change (tree_rep s (plug k (Node c' (Node c l p r) q u))) in Hrep.
    destruct (load_focus _ _ _ _ _ _ Hrep) as (-> & [? _] & _). unfold ctrue.
    destruct (Z.eqb_spec q 0); [lia|]. cbn [mbind option_bind negb rb_right].
    destruct (subtrees_disjoint _ _ _ _ _ _ Hrep) as [Hne _]. specialize (Hne p ltac:(simpl; set_solver)).
    by destruct (Z.eqb_spec p (ptr u)).
  - change (tree_rep s (plug k (Node c' u q (Node c l p r)))) in Hrep.
    destruct (load_focus _ _ _ _ _ _ Hrep) as (-> & [? _] & _). unfold ctrue.
    destruct (Z.eqb_spec q 0); [lia|]. cbn [mbind option_bind negb rb_right ptr].
    rewrite Z.eqb_refl. apply (IH _ _ _ _ _ Hrep). simpl in Hf. lia.
Qed.

Lemma climb_left_spec fuel s k c l p r :
  tree_rep s (plug k (Node c l p r)) → (length k < fuel)%nat →
  climb_left fuel s p = Some (default 0 (last (ctx_l k))).
Proof.
  revert k c l p r. induction fuel as [|fuel IH]; intros k c l p r Hrep Hf; [lia|]. simpl.
  destruct (load_focus _ _ _ _ _ _ Hrep) as (-> & Ha & H4). cbn [mbind option_bind]. rewrite pack_parent by done.
  destruct k as [|[c' q u|c' u q] k]; [done|..]; cbn [par_of fptr].
  - change (tree_rep s (plug k (Node c' (Node c l p r) q u))) in Hrep.
    destruct (load_focus _ _ _ _ _ _ Hrep) as (-> & [? _] & _). unfold ctrue.
    destruct (Z.eqb_spec q 0); [lia|]. cbn [mbind option_bind negb rb_left ptr].
    rewrite Z.eqb_refl. apply (IH _ _ _ _ _ Hrep). simpl in Hf. lia.
  - change (tree_rep s (plug k (Node c' u q (Node c l p r)))) in Hrep.
    destruct (load_focus _ _ _ _ _ _ Hrep) as (-> & [? _] & _). unfold ctrue.
    destruct (Z.eqb_spec q 0); [lia|]. cbn [mbind option_bind negb rb_left].
    destruct (subtrees_disjoint _ _ _ _ _ _ Hrep) as [_ Hne]. specialize (Hne p ltac:(simpl; set_solver)).
    destruct (Z.eqb_spec p (ptr u)); [done|]. simpl. by rewrite app_assoc, last_snoc.
Qed.

Lemma rb_first_spec s t : tree_rep s t → rb_first s = Some (default 0 (head (inorder t))).
Proof.
  intros Hrep. pose proof (tree_rep_size _ _ Hrep). destruct Hrep as [Hroot Hr _].
  unfold rb_first. rewrite Hroot. destruct t as [|c l p r]; [done|]. pose proof Hr as (_ & [? _] & _).
  cbn [ptr]. unfold ctrue. destruct (Z.eqb_spec p 0); [lia|]. eapply leftmost_spec; [done|]. unfold rb_fuel. lia.
Qed.

Lemma rb_last_spec s t : tree_rep s t → rb_last s = Some (default 0 (last (inorder t))).
Proof.
  intros Hrep. pose proof (tree_rep_size _ _ Hrep). destruct Hrep as [Hroot Hr _].
  unfold rb_last. rewrite Hroot. destruct t as [|c l p r]; [done|]. pose proof Hr as (_ & [? _] & _).
  cbn [ptr]. unfold ctrue. destruct (Z.eqb_spec p 0); [lia|]. eapply rightmost_spec; [done|]. unfold rb_fuel. lia.
Qed.

(** A node is not its own parent: the test for a cleared node fails. *)
Lemma parent_ne s k c l p r : tree_rep s (plug k (Node c l p r)) → par_of k ≠ p.
Proof.
  intros Hrep Heq. pose proof (load_focus _ _ _ _ _ _ Hrep) as (_ & [? _] & _).
  apply tree_rep_focus in Hrep as (_ & _ & (_ & Hout & _)%NoDup_hole). destruct k as [|f k]; simpl in Heq; [lia|].
  apply (Hout p); [simpl; set_solver|]. destruct f; simpl in *; set_solver.
Qed.

Lemma rb_next_spec s t l1 p l2 :
  tree_rep s t → inorder t = l1 ++ p :: l2 → rb_next s p = Some (default 0 (head l2)).
Proof.
  intros Hrep Hin. destruct (focus_split _ _ _ _ (tr_nodup _ _ Hrep) Hin) as (k & c & l & r & -> & _ & ->).
  unfold rb_next. pose proof (load_focus _ _ _ _ _ _ Hrep) as (-> & _ & H4). cbn [mbind option_bind rb_right].
  rewrite pack_parent by done. pose proof (parent_ne _ _ _ _ _ _ Hrep).
  destruct (Z.eqb_spec (par_of k) p); [done|]. destruct r as [|cr rl rp rr].
  - eapply climb_right_spec; [done|]. by eapply ctx_fuel.
  - pose proof (tree_rep_size _ _ Hrep) as Hsz. rewrite inorder_plug, !length_app in Hsz.
    apply tree_rep_focus in Hrep as ((_ & _ & _ & Hr) & _). pose proof Hr as (_ & [? _] & _).
    cbn [ptr]. unfold ctrue. destruct (Z.eqb_spec rp 0); [lia|]. cbn [negb].
    rewrite (leftmost_spec _ _ _ _ _ _ _ Hr).
    + simpl. by destruct (inorder rl).
    + unfold rb_fuel. simpl in *. rewrite ?length_app in *. simpl in *. rewrite ?length_app in *. simpl in *. lia.
Qed.

Lemma rb_prev_spec s t l1 p l2 :
  tree_rep s t → inorder t = l1 ++ p :: l2 → rb_prev s p = Some (default 0 (last l1)).
Proof.
  intros Hrep Hin. destruct (focus_split _ _ _ _ (tr_nodup _ _ Hrep) Hin) as (k & c & l & r & -> & -> & _).
  unfold rb_prev. pose proof (load_focus _ _ _ _ _ _ Hrep) as (-> & _ & H4). cbn [mbind option_bind rb_left].
  rewrite pack_parent by done. pose proof (parent_ne _ _ _ _ _ _ Hrep).
  destruct (Z.eqb_spec (par_of k) p); [done|]. destruct l as [|cl ll lp lr].
  - cbn [inorder]. rewrite app_nil_r. eapply climb_left_spec; [done|]. by eapply ctx_fuel.
  - pose proof (tree_rep_size _ _ Hrep) as Hsz. rewrite inorder_plug, !length_app in Hsz.
    apply tree_rep_focus in Hrep as ((_ & _ & Hl & _) & _). pose proof Hl as (_ & [? _] & _).
    cbn [ptr]. unfold ctrue. destruct (Z.eqb_spec lp 0); [lia|]. cbn [negb].
    rewrite (rightmost_spec _ _ _ _ _ _ _ Hl).
    + simpl. by rewrite app_assoc, !last_app_cons.
    + unfold rb_fuel. simpl in *. rewrite ?length_app in *. simpl in *. rewrite ?length_app in *. simpl in *. lia.
Qed.

(** ** Replacing a node *)

Fixpoint same_shape (t t' : tree) : Prop :=
  match t, t' with
  | Leaf, Leaf => True
  | Node c l _ r, Node c' l' _ r' => c = c' ∧ same_shape l l' ∧ same_shape r r'
  | _, _ => False
  end.

Lemma same_shape_refl t : same_shape t t.
Proof. induction t; simpl; auto. Qed.

Lemma same_shape_plug k t t' : same_shape t t' → same_shape (plug k t) (plug k t').
Proof.
  revert t t'. induction k as [|f k IH]; intros t t' Hs; [done|]. apply IH. destruct f; simpl; auto using same_shape_refl.
Qed.

Lemma same_shape_rb t t' c n : same_shape t t' → is_rb t c n → is_rb t' c n.
Proof.
  intros Hs Hrb. revert t' Hs. induction Hrb as [|l p r n Hl IHl Hr IHr|l cl p r cr n Hl IHl Hr IHr];
    intros [|c' l' p' r'] Hs; simpl in Hs; try done; [constructor|..]; destruct Hs as (<- & ? & ?); eauto with kernel.
Qed.

Lemma rb_replace_node_spec s k c l v r new :
  tree_rep s (plug k (Node c l v r)) → addr new → new ∉ inorder (plug k (Node c l v r)) →
  ∃ s', rb_replace_node s v new = Some s' ∧ tree_rep s' (plug k (Node c l new r)) ∧
    (∀ q, q ≠ new → q ∉ inorder (plug k (Node c l v r)) → nodes s' !! q = nodes s !! q).
Proof.
  intros Hrep Hnew Hfresh. unfold rb_replace_node.
  destruct (load_focus _ _ _ _ _ _ Hrep) as (Hlv & Hav & H4). rewrite Hlv. cbn [mbind option_bind].
  rewrite pack_parent by done. apply tree_rep_focus in Hrep as ((_ & _ & Hl & Hr) & Hk & Hnd).
  rewrite inorder_plug in Hfresh. simpl in Hfresh. pose proof (NoDup_hole _ _ Hnd) as (Hn & Hout & Hndk).
  simpl in Hn, Hout. apply NoDup_app in Hn as (Hnl & Hd & [Hvr Hnr]%NoDup_cons).
  assert (Hvl : v ∉ inorder l) by (intros ?; eapply Hd; [done|by left]).
  assert (Hlr : ∀ q, q ∈ inorder l → q ∉ inorder r) by (intros q Hq Hq'; eapply Hd; [done|by right]).
  destruct (change_child_focus s k v new Hk Hav Hndk ltac:(apply Hout; set_solver)) as (s1 & -> & Hk1 & Hs1).
  cbn [mbind option_bind].
  assert (Hin1 : ∀ q, q ∈ inorder l ++ v :: inorder r → nodes s1 !! q = nodes s !! q) by (intros q Hq; apply Hs1; by apply Hout).
  assert (Hlv1 : load s1 v = load s v) by (apply Hin1; set_solver). rewrite Hlv1, Hlv. cbn [mbind option_bind rb_left rb_right].
  destruct (set_parent_opt_spec s1 v l new) as (s2 & -> & Hl2 & Hr2 & Hs2);
    [eapply rep_same; [|done]; set_solver|done|apply Hav|apply Hnew|]. cbn [mbind option_bind].
  destruct (set_parent_opt_spec s2 v r new) as (s3 & -> & Hr3 & Hroot3 & Hs3);
    [eapply rep_same; [|done]; intros q Hq; rewrite Hs2 by (intros ?; by apply (Hlr q)); apply Hin1; set_solver
    |done|apply Hav|apply Hnew|]. cbn [mbind option_bind].
  assert (Hlv3 : load s3 v = load s v).
  { unfold load. rewrite Hs3, Hs2 by done. apply Hin1. set_solver. }
  rewrite Hlv3, Hlv. cbn [mbind option_bind]. eexists. split; [done|]. split.
  - apply tree_rep_focus. simpl. split_and!; try done.
    + look.
    + eapply rep_same; [|exact Hl2]. intros q Hq. look. apply Hs3. by apply Hlr.
    + eapply rep_same; [|exact Hr3]. intros q Hq. look.
    + rewrite Hroot3, Hr2. eapply repc_same; [|exact Hk1]. intros q Hq.
      assert (Hqi : q ∉ inorder l ++ v :: inorder r) by (intros ?; by eapply Hout). look. rewrite Hs3, Hs2 by set_solver. done.
    + rewrite !NoDup_app, NoDup_cons in *. simpl in *. set_solver.
  - intros q Hq1 Hq2. rewrite inorder_plug in Hq2. simpl in Hq2. look. rewrite Hs3, Hs2, Hs1 by set_solver. done.
Qed.

Lemma rb_replace_valid k c l v r new : rb_valid (plug k (Node c l v r)) → rb_valid (plug k (Node c l new r)).
Proof.
  intros [n Hv]. exists n. eapply same_shape_rb; [|done]. apply same_shape_plug. simpl. auto using same_shape_refl.
Qed.

(** ** The height of a red-black tree *)

Fixpoint height (t : tree) : nat := match t with Leaf => 0 | Node _ l _ r => S (Nat.max (height l) (height r)) end.

Lemma rb_black_height t c n :
  is_rb t c n → (2 ^ n ≤ S (length (inorder t)) ∧ height t ≤ 2 * n + if c is Red then 1 else 0)%nat.
Proof.
  induction 1 as [|l p r n Hl [IHl1 IHl2] Hr [IHr1 IHr2]|l cl p r cr n Hl [IHl1 IHl2] Hr [IHr1 IHr2]];
    simpl; rewrite ?length_app; simpl; [lia|lia|]. split; [lia|]. destruct cl, cr; lia.
Qed.

Lemma rb_height t : rb_valid t → (height t ≤ 2 * Nat.log2 (S (length (inorder t))))%nat.
Proof.
  intros [n Hrb]. destruct (rb_black_height _ _ _ Hrb) as [Hsz Hh].
  assert (n ≤ Nat.log2 (S (length (inorder t))))%nat; [|lia].
  rewrite <- (Nat.log2_pow2 n) by lia. by apply Nat.log2_le_mono.
Qed.

(** Only the height matters to the number of turns of a search. *)
Lemma rb_descend_fuel fuel fuel' s diff k t :
  tree_rep s (plug k t) → (height t < fuel)%nat → (height t < fuel')%nat →
  rb_descend fuel s diff (link_of k) (par_of k) = rb_descend fuel' s diff (link_of k) (par_of k).
Proof.
  revert fuel fuel' k. induction t as [|c l IHl p r IHr]; intros [|fuel] [|fuel'] k Hrep Hf Hf'; simpl in *; try lia;
    rewrite (read_link_focus _ _ _ Hrep); cbn [mbind option_bind ptr]; [done|].
  destruct (ctrue p); [|done]. destruct (diff p) as [x|]; [|done]. cbn [mbind option_bind].
  destruct (x <? 0); [apply (IHl _ _ (FL c p r :: k)); try done; lia|].
  destruct (0 <? x); [apply (IHr _ _ (FR c l p :: k)); try done; lia|done].
Qed.

(** ** The properties of the library *)

(** C15: Insertion.  In a red-black tree whose nodes are in the order of a
    comparison, the search always ends, either at a node that compares equal,
    or at the one empty link that keeps the order; linking a new node there and
    calling rb_insert_color always succeeds, never follows a NULL pointer, and
    gives a red-black tree with the old nodes in their order and the new one
    between those before and those behind it; nodes of other trees are not
    touched. *)
Theorem rb_insert_correct s t diff d node :
  tree_rep s t → rb_valid t → descending diff d (inorder t) → addr node → node ∉ inorder t →
  (∃ x, rb_search s diff = Some (inl x) ∧ x ∈ inorder t ∧ d x = 0) ∨
  (∃ link parent s1 s2 t' l1 l2,
     rb_search s diff = Some (inr (link, parent)) ∧ rb_link_node s node parent link = Some s1 ∧
     rb_insert_color s1 node = Some s2 ∧ tree_rep s2 t' ∧ rb_valid t' ∧
     inorder t = l1 ++ l2 ∧ inorder t' = l1 ++ node :: l2 ∧
     Forall (λ y, 0 < d y) l1 ∧ Forall (λ y, d y < 0) l2 ∧
     ∀ q, q ≠ node → q ∉ inorder t → nodes s2 !! q = nodes s !! q).
Proof.
  intros Hrep Hv Hd Ha Hnew. destruct (rb_search_spec diff d s t Hrep Hd) as [?|(k & Hrun & <- & Hl & Hr)]; [by left|].
  right. destruct (rb_insert_spec s k node Hrep Hv Ha Hnew) as (s1 & s2 & t' & H1 & H2 & H3 & H4 & H5 & H6).
  exists (link_of k), (par_of k), s1, s2, t', (ctx_l k), (ctx_r k).
  split_and!; try done. by inorder.
Qed.

(** Searching is logarithmic.  On a red-black tree of n nodes the search
    loop ends within 2 log2(n + 1) + 1 turns. *)
Theorem rb_search_logarithmic s t diff :
  tree_rep s t → rb_valid t →
  rb_descend (S (2 * Nat.log2 (S (length (inorder t))))) s diff LinkRoot 0 = rb_search s diff.
Proof.
  intros Hrep Hv. pose proof (rb_height t Hv). pose proof (tree_rep_size _ _ Hrep) as Hsz.
  assert (∀ t, height t ≤ length (inorder t))%nat as Hle.
  { clear. induction t; simpl; rewrite ?length_app; simpl; lia. }
  specialize (Hle t). apply (rb_descend_fuel _ _ s diff [] t); [done|lia|]. unfold rb_fuel. lia.
Qed.

(** Walking.  rb_first and rb_last are the ends of the tree's order, and
    rb_next and rb_prev are the neighbours of a node in it, NULL at the ends;
    the walks always end. *)
Theorem rb_walk_correct s t :
  tree_rep s t →
  rb_first s = Some (default 0 (head (inorder t))) ∧ rb_last s = Some (default 0 (last (inorder t))) ∧
  ∀ l1 p l2, inorder t = l1 ++ p :: l2 →
    rb_next s p = Some (default 0 (head l2)) ∧ rb_prev s p = Some (default 0 (last l1)).
Proof.
  intros Hrep. split; [by apply rb_first_spec|]. split; [by apply rb_last_spec|]. intros l1 p l2 Hin.
  split; [by eapply rb_next_spec|by eapply rb_prev_spec].
Qed.

(** ** A tree built by the library *)

(** Keys are the addresses themselves. *)
Definition key_diff (x : Z) : Z → option Z := λ y, Some (x - y).

Definition rb_add (s : rb_mem) (node : Z) : option rb_mem :=
  r ← rb_search s (key_diff node);
  match r with
  | inl _ => Some s
  | inr (link, parent) => s ← rb_link_node s node parent link; rb_insert_color s node
  end.

Definition sample_mem : rb_mem :=
  default (mk_mem ∅ 0) (foldl (λ o x, s ← o; rb_add s x) (Some (mk_mem ∅ 0)) [40; 16; 24; 8; 4; 12; 32]).
Definition sample_tree : tree :=
  Node Black (Node Red (Node Black Leaf 4 Leaf) 8 (Node Black (Node Red Leaf 12 Leaf) 16 Leaf)) 24
    (Node Black (Node Red Leaf 32 Leaf) 40 Leaf).

Lemma sample_rep : tree_rep sample_mem sample_tree.
Proof.
  split; [vm_compute; reflexivity| |].
  - unfold sample_tree. cbn [rep ptr]. unfold addr. split_and!;
      lazymatch goal with
      | |- _ !! _ = _ => vm_compute; reflexivity
      | |- True => exact I
      | |- _ < _ => lia
      | |- _ => apply Z.mod_divide; [lia|reflexivity]
      end.
  - apply (bool_decide_unpack (NoDup (inorder sample_tree))). vm_compute. exact I.
Qed.

Lemma sample_valid : rb_valid sample_tree.
Proof. exists 2%nat. repeat econstructor. Qed.

Lemma sample_descending x : descending (key_diff x) (λ y, x - y) (inorder sample_tree).
Proof. split; [by repeat constructor|]. repeat constructor; simpl; lia. Qed.

(** The nodes before and behind a new one are determined by the comparison. *)
Lemma split_by_sign (d : Z → Z) l l1 l2 :
  l = l1 ++ l2 → Forall (λ y, 0 < d y) l1 → Forall (λ y, d y < 0) l2 →
  l1 = filter (λ y, 0 < d y) l ∧ l2 = filter (λ y, d y < 0) l.
Proof.
  intros -> H1 H2. rewrite !filter_app. split.
  - rewrite (filter_all_id _ l1), (filter_none_nil _ l2), app_nil_r; [done|..|done].
    eapply Forall_impl; [done|]. simpl. lia.
  - rewrite (filter_none_nil _ l1), (filter_all_id _ l2); [done|done|].
    eapply Forall_impl; [done|]. simpl. lia.
Qed.

Lemma rb_insert_correct_witness :
  ∃ link parent s1 s2 t', rb_search sample_mem (key_diff 20) = Some (inr (link, parent)) ∧
    rb_link_node sample_mem 20 parent link = Some s1 ∧ rb_insert_color s1 20 = Some s2 ∧ tree_rep s2 t' ∧
    inorder t' = [4; 8; 12; 16; 20; 24; 32; 40].
Proof.
  destruct (rb_insert_correct sample_mem sample_tree (key_diff 20) (λ y, 20 - y) 20)
    as [(x & Hrun & _)|(link & parent & s1 & s2 & t' & l1 & l2 & H1 & H2 & H3 & H4 & _ & H5 & H6 & H7 & H8 & _)].
  - exact sample_rep.
  - exact sample_valid.
  - apply sample_descending.
  - split; [lia|]. apply Z.mod_divide; done.
  - apply (bool_decide_unpack (20 ∉ inorder sample_tree)). vm_compute. exact I.
  - vm_compute in Hrun. discriminate.
  - exists link, parent, s1, s2, t'. split; [exact H1|]. split; [exact H2|]. split; [exact H3|].
    split; [exact H4|]. rewrite H6. clear -H5 H7 H8.
    destruct (split_by_sign (λ y, 20 - y) _ _ _ H5 H7 H8) as [-> ->]. vm_compute. reflexivity.
Defined.

Lemma rb_search_logarithmic_witness :
  rb_descend 7 sample_mem (key_diff 20) LinkRoot 0 = rb_search sample_mem (key_diff 20).
Proof. exact (rb_search_logarithmic sample_mem sample_tree (key_diff 20) sample_rep sample_valid). Defined.

Lemma rb_walk_correct_witness :
  rb_first sample_mem = Some 4 ∧ rb_last sample_mem = Some 40 ∧ rb_next sample_mem 16 = Some 24 ∧
  rb_prev sample_mem 24 = Some 16.
Proof.
  destruct (rb_walk_correct sample_mem sample_tree sample_rep) as (H1 & H2 & H3).
  split; [exact H1|]. split; [exact H2|].
  split; [apply (H3 [4; 8; 12] 16 [24; 32; 40]); reflexivity|apply (H3 [4; 8; 12; 16] 24 [32; 40]); reflexivity].
Defined.
