(* ===== verification/RbErase.v ===== *)
(** Red-black trees (lib/rbtree.c): removal of a node and the rebalancing
    after it, over the store and the representation of RbTree.v. *)

From S2P Require Import Prelude RbTree.

(** ** The code *)

(** [!p || rb_is_black(p)]. *)
Definition black_or_null (s : rb_mem) (p : Z) : option bool :=
  if ctrue p then n ← load s p; Some (rb_is_black n) else Some true.

(** The cases of a node on the left of its parent: a red sibling is rotated
    away; then either the sibling turns red and the loop goes on above, or
    rotations end it.  The answer is the state and [Some other] to go on, or
    [None] after the [break]. *)
Definition erase_sibling_right (s : rb_mem) (parent : Z) : option (rb_mem * Z) :=
  pn ← load s parent;
  let other := rb_right pn in
  on ← load s other;
  if rb_is_red on then
    s ← rb_set_black s other;
    s ← rb_set_red s parent;
    s ← rb_rotate_left s parent;
    pn ← load s parent;
    Some (s, rb_right pn)
  else Some (s, other).

Definition erase_rotate_right_sibling (s : rb_mem) (parent other : Z) : option rb_mem :=
  on ← load s other;
  rblack ← black_or_null s (rb_right on);
  '(s, other) ← (if (rblack : bool) then
                   s ← rb_set_black s (rb_left on);
                   s ← rb_set_red s other;
                   s ← rb_rotate_right s other;
                   pn ← load s parent;
                   Some (s, rb_right pn)
                 else Some (s, other));
  pn ← load s parent;
  s ← rb_set_color s other (rb_color pn);
  s ← rb_set_black s parent;
  on ← load s other;
  s ← rb_set_black s (rb_right on);
  rb_rotate_left s parent.

Definition erase_sibling_left (s : rb_mem) (parent : Z) : option (rb_mem * Z) :=
  pn ← load s parent;
  let other := rb_left pn in
  on ← load s other;
  if rb_is_red on then
    s ← rb_set_black s other;
    s ← rb_set_red s parent;
    s ← rb_rotate_right s parent;
    pn ← load s parent;
    Some (s, rb_left pn)
  else Some (s, other).

Definition erase_rotate_left_sibling (s : rb_mem) (parent other : Z) : option rb_mem :=
  on ← load s other;
  lblack ← black_or_null s (rb_left on);
  '(s, other) ← (if (lblack : bool) then
                   s ← rb_set_black s (rb_right on);
                   s ← rb_set_red s other;
                   s ← rb_rotate_left s other;
                   pn ← load s parent;
                   Some (s, rb_left pn)
                 else Some (s, other));
  pn ← load s parent;
  s ← rb_set_color s other (rb_color pn);
  s ← rb_set_black s parent;
  on ← load s other;
  s ← rb_set_black s (rb_left on);
  rb_rotate_right s parent.

(** Both children of [other] are black. *)
Definition erase_both_black (s : rb_mem) (other : Z) : option bool :=
  on ← load s other;
  lblack ← black_or_null s (rb_left on);
  rblack ← black_or_null s (rb_right on);
  Some ((lblack : bool) && rblack).

Fixpoint erase_loop (fuel : nat) (s : rb_mem) (node parent : Z) : option (rb_mem * Z) :=
  match fuel with
  | O => None
  | S fuel =>
      black ← black_or_null s node;
      if (black : bool) && negb (node =? rb_root s) then
        pn ← load s parent;
        if rb_left pn =? node then
          '(s, other) ← erase_sibling_right s parent;
          both ← erase_both_black s other;
          if (both : bool) then
            s ← rb_set_red s other;
            pn ← load s parent;
            erase_loop fuel s parent (rb_parent pn)
          else s ← erase_rotate_right_sibling s parent other; Some (s, rb_root s)
        else
          '(s, other) ← erase_sibling_left s parent;
          both ← erase_both_black s other;
          if (both : bool) then
            s ← rb_set_red s other;
            pn ← load s parent;
            erase_loop fuel s parent (rb_parent pn)
          else s ← erase_rotate_left_sibling s parent other; Some (s, rb_root s)
      else Some (s, node)
  end.

Definition rb_erase_color (s : rb_mem) (node parent : Z) : option rb_mem :=
  '(s, node) ← erase_loop (rb_fuel s) s node parent;
  if ctrue node then rb_set_black s node else Some s.

(** A node with one child at most: the child takes its place.  The answers are
    the state, the child, its parent and the colour that was removed. *)
Definition erase_unlink (s : rb_mem) (node child : Z) : option (rb_mem * Z * Z * Z) :=
  n ← load s node;
  let parent := rb_parent n in
  s ← set_parent_opt s child parent;
  s ← change_child s parent node child;
  Some (s, child, parent, rb_color n).

(** A node with two children: the next node in order takes its place. *)
Definition erase_successor (s : rb_mem) (old : Z) : option (rb_mem * Z * Z * Z) :=
  on ← load s old;
  node ← leftmost (rb_fuel s) s (rb_right on);
  s ← change_child s (rb_parent on) old node;
  n ← load s node;
  let child := rb_right n in
  let parent := rb_parent n in
  let color := rb_color n in
  '(s, parent) ← (if parent =? old then Some (s, node)
                  else
                    s ← set_parent_opt s child parent;
                    s ← set_left s parent child;
                    on ← load s old;
                    s ← set_right s node (rb_right on);
                    s ← rb_set_parent s (rb_right on) node;
                    Some (s, parent));
  on ← load s old;
  s ← set_parent_color s node (λ _, rb_parent_color on);
  s ← set_left s node (rb_left on);
  s ← rb_set_parent s (rb_left on) node;
  Some (s, child, parent, color).

Definition rb_erase (s : rb_mem) (node : Z) : option rb_mem :=
  n ← load s node;
  '(s, child, parent, color) ← (if negb (ctrue (rb_left n)) then erase_unlink s node (rb_right n)
                                else if negb (ctrue (rb_right n)) then erase_unlink s node (rb_left n)
                                else erase_successor s node);
  if color =? RB_BLACK then rb_erase_color s child parent else Some s.

(** ** Rebalancing *)

Lemma black_or_null_focus s k t : tree_rep s (plug k t) → black_or_null s (ptr t) = Some (negb (tree_red t)).
Proof.
  intros Hrep. unfold black_or_null. destruct t as [|c l p r]; [done|].
  destruct (load_focus _ _ _ _ _ _ Hrep) as (Hl & [? _] & H4). cbn [ptr]. unfold ctrue.
  destruct (Z.eqb_spec p 0); [lia|]. rewrite Hl. cbn [mbind option_bind negb]. rewrite pack_is_black by done. by destruct c.
Qed.

(** A subtree that is one black node short: it becomes sound when a red root is
    blackened, and otherwise is sound at height [n]. *)
Definition short (t : tree) (n : nat) : Prop :=
  match t with
  | Node Red l _ r => (∃ c, is_rb l c n) ∧ (∃ c, is_rb r c n)
  | _ => is_rb t Black n
  end.

Lemma is_rb_short t c n : is_rb t c n → short t n.
Proof. destruct 1; simpl; eauto with kernel. Qed.

Lemma short_black t n : short t n → tree_red t = false → is_rb t Black n.
Proof. by destruct t as [|[] l p r]. Qed.

(** What the loop leaves: either nothing to do, or a node to be blackened. *)
Definition erase_exit (t : tree) (node : Z) : Prop :=
  (node = 0 ∧ rb_valid t) ∨
  ∃ k c l r, t = plug k (Node c l node r) ∧ rb_valid (plug k (Node Black l node r)).

Lemma ptr_plug_ctx k t : k ≠ [] → ptr (plug k t) ∈ ctx_l k ++ ctx_r k.
Proof.
  revert t. induction k as [|f k IH]; intros t Hk; [done|]. destruct k as [|f' k].
  - destruct f; simpl; set_solver.
  - specialize (IH (fill f t) ltac:(done)). change (plug (f :: f' :: k) t) with (plug (f' :: k) (fill f t)).
    destruct f; simpl in *; set_solver.
Qed.

Lemma root_ne s k t : tree_rep s (plug k t) → k ≠ [] → ptr t ≠ rb_root s.
Proof.
  intros Hrep Hk Heq. pose proof (ptr_plug_ctx k t Hk) as Hin. rewrite <- (tr_root _ _ Hrep), <- Heq in Hin.
  assert (Ha : addr (ptr t)).
  { eapply (rep_addr _ _ (plug k t)); [apply Hrep|]. rewrite inorder_plug. set_solver. }
  apply tree_rep_focus in Hrep as (_ & _ & (_ & Hout & _)%NoDup_hole). apply (Hout (ptr t)); [|done].
  apply ptr_elem. destruct Ha. lia.
Qed.

(** The loop ends at a red node and at the root. *)
Lemma erase_loop_exit fuel s k t n :
  tree_rep s (plug k t) → short t n → ctx_rb k (S n) → k = [] ∨ tree_red t = true →
  erase_loop (S fuel) s (ptr t) (par_of k) = Some (s, ptr t) ∧ erase_exit (plug k t) (ptr t).
Proof.
  intros Hrep Ht Hk Hstop. split.
  - simpl. rewrite (black_or_null_focus _ _ _ Hrep). cbn [mbind option_bind].
    destruct Hstop as [->|Hred]; [|by rewrite Hred]. rewrite (tr_root _ _ Hrep). simpl plug. rewrite Z.eqb_refl.
    by rewrite andb_false_r.
  - destruct t as [|c l p r].
    + left. split; [done|]. destruct Hstop as [->|]; [|done]. by exists n.
    + right. exists k, c, l, r. split; [done|].
      assert (Hb : ∃ m, is_rb (Node Black l p r) Black m ∧ ctx_rb k m).
      { destruct c; simpl in Ht.
        - destruct Ht as [[cl Hl] [cr Hr]]. exists (S n). eauto with kernel.
        - destruct Hstop as [->|]; [|done]. by exists n. }
      destruct Hb as (m & Hb & Hkm). destruct (plug_rb _ _ _ _ Hkm Hb) as (c' & m' & Hrb & Hc); [done|].
      exists m'. destruct k; [|by rewrite Hc in Hrb]. by rewrite (is_rb_color _ _ _ _ _ Hrb Hb) in Hrb.
Qed.

Lemma rb_set_color_step s k c l p r c' :
  tree_rep s (plug k (Node c l p r)) →
  ∃ s', rb_set_color s p (color_bit c') = Some s' ∧ evolve s (plug k (Node c l p r)) s' (plug k (Node c' l p r)).
Proof.
  intros Hrep. destruct (set_color_focus s k c c' l p r (λ x, Z.lor (Z.land x (Z.lnot 1)) (color_bit c')))
    as (s' & ? & ? & ?); [done|apply pack_set_color; by eapply load_focus|].
  exists s'. split; [done|]. split_and!; [done|inorder|done].
Qed.

(** The rotations that end the loop, first with the far nephew red. *)
Lemma erase_finish_right s k cp t p wl o b c d cw :
  tree_rep s (plug k (Node cp t p (Node cw wl o (Node Red b c d)))) →
  ∃ s', (pn ← load s p;
         s ← rb_set_color s o (rb_color pn);
         s ← rb_set_black s p;
         on ← load s o;
         s ← rb_set_black s (rb_right on);
         rb_rotate_left s p) = Some s' ∧
    evolve s (plug k (Node cp t p (Node cw wl o (Node Red b c d))))
           s' (plug k (Node cp (Node Black t p wl) o (Node Black b c d))).
Proof.
  intros Hrep. destruct (load_focus s k _ _ _ _ Hrep) as (-> & _ & H4). cbn [mbind option_bind].
  rewrite pack_color by done. rb_step rb_set_color_step at (FR cp t p :: k). rb_step set_black_step at k.
  destruct (load_focus s1 (FR Black t p :: k) _ _ _ _ Hrep) as (-> & _ & _). cbn [mbind option_bind rb_right ptr].
  rb_step set_black_step at (FR cp wl o :: FR Black t p :: k). rb_step rotate_left_step at k. rb_done.
Qed.

Lemma erase_finish_left s k cp t p wr o b c d cw :
  tree_rep s (plug k (Node cp (Node cw (Node Red b c d) o wr) p t)) →
  ∃ s', (pn ← load s p;
         s ← rb_set_color s o (rb_color pn);
         s ← rb_set_black s p;
         on ← load s o;
         s ← rb_set_black s (rb_left on);
         rb_rotate_right s p) = Some s' ∧
    evolve s (plug k (Node cp (Node cw (Node Red b c d) o wr) p t))
           s' (plug k (Node cp (Node Black b c d) o (Node Black wr p t))).
Proof.
  intros Hrep. destruct (load_focus s k _ _ _ _ Hrep) as (-> & _ & H4). cbn [mbind option_bind].
  rewrite pack_color by done. rb_step rb_set_color_step at (FL cp p t :: k). rb_step set_black_step at k.
  destruct (load_focus s1 (FL Black p t :: k) _ _ _ _ Hrep) as (-> & _ & _). cbn [mbind option_bind rb_left ptr].
  rb_step set_black_step at (FL cp o wr :: FL Black p t :: k). rb_step rotate_right_step at k. rb_done.
Qed.

(** The shape after the last rotations: [a], [b] and [d] are the subtrees of
    the sibling and its red child. *)
Lemma erase_rotate_right_sibling_step s k cp t p wl o wr n cl cr :
  tree_rep s (plug k (Node cp t p (Node Black wl o wr))) → tree_red wl || tree_red wr = true →
  is_rb wl cl n → is_rb wr cr n →
  ∃ s' a x b c d ca cb cd, erase_rotate_right_sibling s p o = Some s' ∧
    evolve s (plug k (Node cp t p (Node Black wl o wr))) s' (plug k (Node cp (Node Black t p a) x (Node Black b c d))) ∧
    is_rb a ca n ∧ is_rb b cb n ∧ is_rb d cd n.
Proof.
  intros Hrep Hred Hl Hr. unfold erase_rotate_right_sibling.
  destruct (load_focus s (FR cp t p :: k) _ _ _ _ Hrep) as (-> & _ & _). cbn [mbind option_bind rb_right rb_left].
  rewrite (black_or_null_focus s (FR Black wl o :: FR cp t p :: k) wr Hrep). cbn [mbind option_bind].
  destruct (tree_red wr) eqn:Hwr; cbn [negb mbind option_bind].
  - destruct wr as [|[] b c d]; try done. inversion Hr; subst.
    destruct (erase_finish_right _ _ _ _ _ _ _ _ _ _ _ Hrep) as (s' & Hrun & He). rewrite Hrun.
    by eexists s', wl, o, b, c, d, cl, Black, Black.
  - destruct wl as [|[] a x b]; simpl in Hred; try done. inversion Hl; subst. cbn [ptr].
    rb_step set_black_step at (FL Black o wr :: FR cp t p :: k). rb_step set_red_step at (FR cp t p :: k).
    rb_step rotate_right_step at (FR cp t p :: k).
    destruct (load_focus s2 k _ _ _ _ Hrep) as (Hpn & _ & _). rewrite Hpn. cbn [mbind option_bind rb_right ptr].
    destruct (erase_finish_right _ _ _ _ _ _ _ _ _ _ _ Hrep) as (s' & Hrun & Hfin).
    eexists s', a, x, b, o, wr, Black, Black, cr. split; [exact Hrun|]. split_and!; try done. simpl in *. eauto 8 using evolve_trans.
Qed.

Lemma erase_rotate_left_sibling_step s k cp t p wl o wr n cl cr :
  tree_rep s (plug k (Node cp (Node Black wl o wr) p t)) → tree_red wl || tree_red wr = true →
  is_rb wl cl n → is_rb wr cr n →
  ∃ s' a x b c d ca cb cd, erase_rotate_left_sibling s p o = Some s' ∧
    evolve s (plug k (Node cp (Node Black wl o wr) p t)) s' (plug k (Node cp (Node Black b c d) x (Node Black a p t))) ∧
    is_rb a ca n ∧ is_rb b cb n ∧ is_rb d cd n.
Proof.
  intros Hrep Hred Hl Hr. unfold erase_rotate_left_sibling.
  destruct (load_focus s (FL cp p t :: k) _ _ _ _ Hrep) as (-> & _ & _). cbn [mbind option_bind rb_right rb_left].
  rewrite (black_or_null_focus s (FL Black o wr :: FL cp p t :: k) wl Hrep). cbn [mbind option_bind].
  destruct (tree_red wl) eqn:Hwl; cbn [negb mbind option_bind].
  - destruct wl as [|[] b c d]; try done. inversion Hl; subst.
    destruct (erase_finish_left _ _ _ _ _ _ _ _ _ _ _ Hrep) as (s' & Hrun & He). rewrite Hrun.
    by eexists s', wr, o, b, c, d, cr, Black, Black.
  - destruct wr as [|[] a x b]; simpl in Hred; try done. inversion Hr; subst. cbn [ptr].
    rb_step set_black_step at (FR Black wl o :: FL cp p t :: k). rb_step set_red_step at (FL cp p t :: k).
    rb_step rotate_left_step at (FL cp p t :: k).
    destruct (load_focus s2 k _ _ _ _ Hrep) as (Hpn & _ & _). rewrite Hpn. cbn [mbind option_bind rb_left ptr].
    destruct (erase_finish_left _ _ _ _ _ _ _ _ _ _ _ Hrep) as (s' & Hrun & Hfin).
    eexists s', b, x, wl, o, a, Black, cl, Black. split; [exact Hrun|]. split_and!; try done. simpl in *. eauto 8 using evolve_trans.
Qed.

Lemma erase_both_black_focus s k wl o wr c :
  tree_rep s (plug k (Node c wl o wr)) → erase_both_black s o = Some (negb (tree_red wl || tree_red wr)).
Proof.
  intros Hrep. unfold erase_both_black. destruct (load_focus _ _ _ _ _ _ Hrep) as (-> & _ & _).
  cbn [mbind option_bind rb_left rb_right].
  rewrite (black_or_null_focus s (FL c o wr :: k) wl Hrep), (black_or_null_focus s (FR c wl o :: k) wr Hrep).
  cbn [mbind option_bind]. by rewrite negb_orb.
Qed.

(** The tree is sound again at the place where the loop breaks off. *)
Lemma erase_broke s t s1 k cp l p r n :
  evolve s t s1 (plug k (Node cp l p r)) → is_rb l Black (S n) → is_rb r Black (S n) →
  ctx_rb k (if cp is Red then S n else S (S n)) → (cp = Red → head_black k) →
  erase_exit (plug k (Node cp l p r)) (rb_root s1).
Proof.
  intros (Hrep & _) Hl Hr Hk Hh.
  assert (Hv : rb_valid (plug k (Node cp l p r))).
  { destruct cp.
    - destruct (plug_rb k (S n) (Node Red l p r) Red) as (c & m & Hrb & Hc); [done|by constructor|auto|].
      exists m. rewrite Hc in Hrb; [done|]. specialize (Hh eq_refl). by destruct k.
    - assert (Hb : is_rb (Node Black l p r) Black (S (S n))) by eauto with kernel.
      destruct (plug_rb k _ _ _ Hk Hb) as (c & m & Hrb & Hc); [done|]. exists m.
      destruct k; [|by rewrite Hc in Hrb]. by rewrite (is_rb_color _ _ _ _ _ Hrb Hb) in Hrb. }
  rewrite (tr_root _ _ Hrep). right. destruct (plug k (Node cp l p r)) as [|c a q b] eqn:E.
  - apply (f_equal (λ t, length (inorder t))) in E. rewrite inorder_plug, !length_app in E. simpl in E.
    rewrite length_app in E. simpl in E. lia.
  - exists [], c, a, b. split; [done|]. destruct Hv as [m Hv]. inversion Hv; subst. by exists (S n0).
Qed.

(** The rest of a turn once the sibling is black, the node being on the left. *)
Lemma erase_turn_right fuel s k cp t p wl o wr n :
  tree_rep s (plug k (Node cp t p (Node Black wl o wr))) → is_rb t Black n →
  ctx_rb (FL cp p (Node Black wl o wr) :: k) (S n) →
  (∀ s1 t1 n1, tree_rep s1 (plug k t1) → short t1 n1 → ctx_rb k (S n1) → (cp = Red → tree_red t1 = true) →
     ∃ s' node T, erase_loop fuel s1 (ptr t1) (par_of k) = Some (s', node) ∧ evolve s1 (plug k t1) s' T ∧
       erase_exit T node) →
  ∃ s' node T,
    (both ← erase_both_black s o;
     if (both : bool) then
       s ← rb_set_red s o;
       pn ← load s p;
       erase_loop fuel s p (rb_parent pn)
     else s ← erase_rotate_right_sibling s p o; Some (s, rb_root s)) = Some (s', node) ∧
    evolve s (plug k (Node cp t p (Node Black wl o wr))) s' T ∧ erase_exit T node.
Proof.
  intros Hrep Ht Hk IH. rewrite (erase_both_black_focus s (FR cp t p :: k) _ _ _ _ Hrep). cbn [mbind option_bind].
  assert (∃ cl cr, is_rb wl cl n ∧ is_rb wr cr n) as (cl & cr & Hl & Hr).
  { destruct cp; simpl in Hk; [destruct Hk as (Hw & _)|destruct Hk as ([cw Hw] & _)]; inversion Hw; subst; eauto. }
  assert (Hk' : ctx_rb k (if cp is Red then S n else S (S n)) ∧ (cp = Red → head_black k)).
  { destruct cp; simpl in Hk; [by destruct Hk as (_ & ? & ?)|by destruct Hk]. }
  destruct Hk' as [Hk' Hh]. destruct (tree_red wl || tree_red wr) eqn:Hred; cbn [negb].
  - destruct (erase_rotate_right_sibling_step _ _ _ _ _ _ _ _ n cl cr Hrep Hred Hl Hr)
      as (s' & a & x & b & c & d & ca & cb & cd & -> & He & Ha & Hb & Hd). cbn [mbind option_bind].
    eexists s', _, _. split; [done|]. split; [done|]. eapply erase_broke; eauto with kernel.
  - apply orb_false_iff in Hred as [Hwl Hwr].
    pose proof (not_red_black _ _ _ Hl Hwl) as ->. pose proof (not_red_black _ _ _ Hr Hwr) as ->.
    rb_step set_red_step at (FR cp t p :: k). destruct (load_focus s0 k _ _ _ _ Hrep) as (-> & _ & H4).
    cbn [mbind option_bind]. rewrite pack_parent by done.
    destruct (IH s0 (Node cp t p (Node Red wl o wr)) (if cp is Red then n else S n)) as (s' & node & T & Hrun & He' & Hex).
    + done.
    + destruct cp; simpl; eauto with kernel.
    + by destruct cp.
    + by intros ->.
    + exists s', node, T. split; [done|]. split; [|done]. simpl in *. by eapply evolve_trans.
Qed.

Lemma erase_turn_left fuel s k cp t p wl o wr n :
  tree_rep s (plug k (Node cp (Node Black wl o wr) p t)) → is_rb t Black n →
  ctx_rb (FR cp (Node Black wl o wr) p :: k) (S n) →
  (∀ s1 t1 n1, tree_rep s1 (plug k t1) → short t1 n1 → ctx_rb k (S n1) → (cp = Red → tree_red t1 = true) →
     ∃ s' node T, erase_loop fuel s1 (ptr t1) (par_of k) = Some (s', node) ∧ evolve s1 (plug k t1) s' T ∧
       erase_exit T node) →
  ∃ s' node T,
    (both ← erase_both_black s o;
     if (both : bool) then
       s ← rb_set_red s o;
       pn ← load s p;
       erase_loop fuel s p (rb_parent pn)
     else s ← erase_rotate_left_sibling s p o; Some (s, rb_root s)) = Some (s', node) ∧
    evolve s (plug k (Node cp (Node Black wl o wr) p t)) s' T ∧ erase_exit T node.
Proof.
  intros Hrep Ht Hk IH. rewrite (erase_both_black_focus s (FL cp p t :: k) _ _ _ _ Hrep). cbn [mbind option_bind].
  assert (∃ cl cr, is_rb wl cl n ∧ is_rb wr cr n) as (cl & cr & Hl & Hr).
  { destruct cp; simpl in Hk; [destruct Hk as (Hw & _)|destruct Hk as ([cw Hw] & _)]; inversion Hw; subst; eauto. }
  assert (Hk' : ctx_rb k (if cp is Red then S n else S (S n)) ∧ (cp = Red → head_black k)).
  { destruct cp; simpl in Hk; [by destruct Hk as (_ & ? & ?)|by destruct Hk]. }
  destruct Hk' as [Hk' Hh]. destruct (tree_red wl || tree_red wr) eqn:Hred; cbn [negb].
  - destruct (erase_rotate_left_sibling_step _ _ _ _ _ _ _ _ n cl cr Hrep Hred Hl Hr)
      as (s' & a & x & b & c & d & ca & cb & cd & -> & He & Ha & Hb & Hd). cbn [mbind option_bind].
    eexists s', _, _. split; [done|]. split; [done|]. eapply erase_broke; eauto with kernel.
  - apply orb_false_iff in Hred as [Hwl Hwr].
    pose proof (not_red_black _ _ _ Hl Hwl) as ->. pose proof (not_red_black _ _ _ Hr Hwr) as ->.
    rb_step set_red_step at (FL cp p t :: k). destruct (load_focus s0 k _ _ _ _ Hrep) as (-> & _ & H4).
    cbn [mbind option_bind]. rewrite pack_parent by done.
    destruct (IH s0 (Node cp (Node Red wl o wr) p t) (if cp is Red then n else S n)) as (s' & node & T & Hrun & He' & Hex).
    + done.
    + destruct cp; simpl; eauto with kernel.
    + by destruct cp.
    + by intros ->.
    + exists s', node, T. split; [done|]. split; [|done]. simpl in *. by eapply evolve_trans.
Qed.

(** A red node at the end of a turn ends the loop at once. *)
Lemma erase_loop_red fuel s k t n :
  tree_rep s (plug k t) → short t n → ctx_rb k (S n) → k = [] ∨ tree_red t = true →
  ∃ s' node T, erase_loop (S fuel) s (ptr t) (par_of k) = Some (s', node) ∧ evolve s (plug k t) s' T ∧
    erase_exit T node.
Proof.
  intros Hrep Ht Hk Hstop. destruct (erase_loop_exit fuel s k t n Hrep Ht Hk Hstop) as [Hrun Hex].
  eexists s, _, _. eauto using evolve_refl.
Qed.

Lemma erase_loop_spec fuel s k t n :
  (length k < fuel)%nat → tree_rep s (plug k t) → short t n → ctx_rb k (S n) →
  ∃ s' node T, erase_loop fuel s (ptr t) (par_of k) = Some (s', node) ∧ evolve s (plug k t) s' T ∧
    erase_exit T node.
Proof.
  revert s k t n. induction fuel as [|fuel IH]; intros s k t n Hfuel Hrep Ht Hk; [lia|].
  destruct k as [|f k]; [eapply erase_loop_red; eauto|].
  destruct (tree_red t) eqn:Hred; [eapply erase_loop_red; eauto|].
  pose proof (short_black _ _ Ht Hred) as Htb. simpl in Hfuel. destruct fuel as [|fuel]; [lia|].
  remember (S fuel) as fuel' eqn:Hf. simpl erase_loop. rewrite (black_or_null_focus _ _ _ Hrep). cbn [mbind option_bind].
  rewrite Hred. pose proof (root_ne _ _ _ Hrep ltac:(done)). destruct (Z.eqb_spec (ptr t) (rb_root s)); [done|].
  cbn [negb andb]. destruct f as [cp p w|cp w p]; cbn [par_of fptr]; cbn [plug fill] in Hrep.
  - destruct (load_focus _ _ _ _ _ _ Hrep) as (Hpn & _ & _). rewrite Hpn. cbn [mbind option_bind rb_left].
    rewrite Z.eqb_refl. unfold erase_sibling_right. rewrite Hpn. cbn [mbind option_bind rb_right].
    assert (∃ cw wl o wr, w = Node cw wl o wr) as (cw & wl & o & wr & ->).
    { destruct cp; simpl in Hk; [destruct Hk as (Hw & _)|destruct Hk as ([? Hw] & _)]; inversion Hw; eauto. }
    destruct (load_focus s (FR cp t p :: k) _ _ _ _ Hrep) as (Hon & _ & H4). cbn [ptr]. rewrite Hon.
    cbn [mbind option_bind]. rewrite pack_is_red by done. destruct cw; cbn [bool_decide decide_rel].
    + (* a red sibling *)
      destruct cp; [by destruct Hk as (Hw & _); inversion Hw|]. destruct Hk as ([c Hw] & Hk).
      assert (is_rb wl Black (S n) ∧ is_rb wr Black (S n)) as [Hwl Hwr] by (by inversion Hw).
      rewrite bool_decide_eq_true_2 by done.
      rb_step set_black_step at (FR Black t p :: k). rb_step set_red_step at k. rb_step rotate_left_step at k.
      destruct (load_focus s2 (FL Black o wr :: k) _ _ _ _ Hrep) as (-> & _ & _). cbn [mbind option_bind rb_right].
      destruct wl as [|[] a x b]; [by inversion Hwl..|]. cbn [ptr].
      destruct (erase_turn_right (S fuel) s2 (FL Black o wr :: k) Red t p a x b n) as (s' & node & T & Hrun & Het & Hex);
        [done|done|by simpl; eauto|intros; eapply erase_loop_red; eauto|].
      subst fuel'. exists s', node, T. split; [exact Hrun|]. split; [|exact Hex]. simpl in *. eauto 8 using evolve_trans.
    + rewrite bool_decide_eq_false_2 by done. cbn [mbind option_bind].
      eapply erase_turn_right; [done|done|done|]. intros. eapply IH; eauto. lia.
  - destruct (load_focus _ _ _ _ _ _ Hrep) as (Hpn & _ & _). rewrite Hpn. cbn [mbind option_bind rb_left].
    assert (∃ cw wl o wr, w = Node cw wl o wr) as (cw & wl & o & wr & ->).
    { destruct cp; simpl in Hk; [destruct Hk as (Hw & _)|destruct Hk as ([? Hw] & _)]; inversion Hw; eauto. }
    destruct (subtrees_disjoint _ _ _ _ _ _ Hrep) as [Hne _]. specialize (Hne o ltac:(simpl; set_solver)).
    cbn [ptr]. destruct (Z.eqb_spec o (ptr t)); [done|].
    unfold erase_sibling_left. rewrite Hpn. cbn [mbind option_bind rb_left].
    destruct (load_focus s (FL cp p t :: k) _ _ _ _ Hrep) as (Hon & _ & H4). cbn [ptr]. rewrite Hon.
    cbn [mbind option_bind]. rewrite pack_is_red by done. destruct cw; cbn [bool_decide decide_rel].
    + (* a red sibling *)
      destruct cp; [by destruct Hk as (Hw & _); inversion Hw|]. destruct Hk as ([c Hw] & Hk).
      assert (is_rb wl Black (S n) ∧ is_rb wr Black (S n)) as [Hwl Hwr] by (by inversion Hw).
      rewrite bool_decide_eq_true_2 by done.
      rb_step set_black_step at (FL Black p t :: k). rb_step set_red_step at k. rb_step rotate_right_step at k.
      destruct (load_focus s2 (FR Black wl o :: k) _ _ _ _ Hrep) as (-> & _ & _). cbn [mbind option_bind rb_left].
      destruct wr as [|[] a x b]; [by inversion Hwr..|]. cbn [ptr].
      destruct (erase_turn_left (S fuel) s2 (FR Black wl o :: k) Red t p a x b n) as (s' & node & T & Hrun & Het & Hex);
        [done|done|by simpl; eauto|intros; eapply erase_loop_red; eauto|].
      subst fuel'. exists s', node, T. split; [exact Hrun|]. split; [|exact Hex]. simpl in *. eauto 8 using evolve_trans.
    + rewrite bool_decide_eq_false_2 by done. cbn [mbind option_bind].
      eapply erase_turn_left; [done|done|done|]. intros. eapply IH; eauto. lia.
Qed.

Lemma rb_erase_color_spec s k t n :
  tree_rep s (plug k t) → short t n → ctx_rb k (S n) →
  ∃ s' T, rb_erase_color s (ptr t) (par_of k) = Some s' ∧ evolve s (plug k t) s' T ∧ rb_valid T.
Proof.
  intros Hrep Ht Hk. unfold rb_erase_color.
  destruct (erase_loop_spec (rb_fuel s) s k t n (ctx_fuel _ _ _ Hrep) Hrep Ht Hk) as (s1 & node & T & -> & He & Hex).
  cbn [mbind option_bind]. destruct Hex as [[-> Hv]|(k1 & c & l & r & -> & Hv)]; [by exists s1, T|].
  pose proof He as (Hrep1 & _). destruct (load_focus _ _ _ _ _ _ Hrep1) as (_ & [? _] & _). unfold ctrue.
  destruct (Z.eqb_spec node 0); [lia|]. cbn [negb]. destruct (set_black_step _ _ _ _ _ _ Hrep1) as (s2 & -> & He2).
  exists s2, (plug k1 (Node Black l node r)). eauto using evolve_trans.
Qed.

(** ** Unlinking *)

Lemma erase_unlink_spec s k c l p r t :
  tree_rep s (plug k (Node c l p r)) → (l = Leaf ∧ t = r) ∨ (r = Leaf ∧ t = l) →
  ∃ s', erase_unlink s p (ptr t) = Some (s', ptr t, par_of k, color_bit c) ∧ tree_rep s' (plug k t) ∧
    frame_same (plug k (Node c l p r)) s s'.
Proof.
  intros Hrep Ht. unfold erase_unlink. destruct (load_focus _ _ _ _ _ _ Hrep) as (-> & Hap & H4).
  cbn [mbind option_bind]. rewrite pack_parent, pack_color by done.
  apply tree_rep_focus in Hrep as ((_ & _ & Hl & Hr) & Hk & Hnd).
  pose proof (NoDup_hole _ _ Hnd) as (Hn & Hout & Hndk). simpl in Hn, Hout.
  assert (Htr : rep (nodes s) p t ∧ NoDup (inorder t) ∧ ∀ q, q ∈ inorder t → q ∈ inorder l ++ p :: inorder r).
  { apply NoDup_app in Hn as (? & _ & [_ ?]%NoDup_cons). destruct Ht as [[-> ->]|[-> ->]]; (split_and!; [done..|set_solver]). }
  destruct Htr as (Htr & Hnt & Hin).
  destruct (set_parent_opt_spec s p t (par_of k) Htr Hnt (proj2 Hap) H4) as (s1 & -> & Ht1 & Hr1 & Hs1).
  cbn [mbind option_bind].
  destruct (change_child_focus s1 k p (ptr t)) as (s2 & -> & Hk2 & Hs2); [|done|done|apply Hout; set_solver|].
  { rewrite Hr1. eapply repc_same; [|exact Hk]. intros q Hq. apply Hs1. intros ?%Hin. by eapply Hout. }
  cbn [mbind option_bind]. exists s2. split; [done|]. split.
  - apply tree_rep_focus. split_and!; [|done|].
    + eapply rep_same; [|exact Ht1]. intros q Hq. apply Hs2. by apply Hout, Hin.
    + rewrite !NoDup_app in *. simpl in Hnd. rewrite ?NoDup_app, ?NoDup_cons in Hnd. set_solver.
  - intros q Hq. rewrite inorder_plug in Hq. simpl in Hq. rewrite Hs2, Hs1; [done| |set_solver].
    intros ?%Hin. set_solver.
Qed.

Lemma set_parent_opt_nonnull s t q : t ≠ Leaf → addr (ptr t) → set_parent_opt s (ptr t) q = rb_set_parent s (ptr t) q.
Proof. intros _ [? _]. unfold set_parent_opt, ctrue. by destruct (Z.eqb_spec (ptr t) 0); [lia|]. Qed.

(** A write to another node and a change of a child do not interfere. *)
Lemma change_child_modify s a f parent old new :
  a ≠ parent →
  (s ← change_child s parent old new; modify s a f) = (s ← modify s a f; change_child s parent old new).
Proof.
  intros Hne. unfold change_child, set_left, set_right, modify, load. destruct (ctrue parent).
  - destruct (nodes s !! a) as [na|] eqn:Ha, (nodes s !! parent) as [np|] eqn:Hp; cbn [mbind option_bind nodes];
      rewrite ?lookup_insert_ne, ?Hp by done; cbn [mbind option_bind]; try done;
      destruct (old =? rb_left np); cbn [mbind option_bind nodes]; rewrite ?lookup_insert_ne, ?Ha by done;
      cbn [mbind option_bind nodes rb_root]; try done; by rewrite insert_insert_ne.
  - cbn [mbind option_bind]. unfold set_root. cbn [nodes]. by destruct (nodes s !! a).
Qed.

Lemma change_child_set_parent_opt s a q parent old new :
  (ctrue a = true → a ≠ parent) →
  (s ← change_child s parent old new; set_parent_opt s a q) = (s ← set_parent_opt s a q; change_child s parent old new).
Proof.
  intros Hne. unfold set_parent_opt. destruct (ctrue a); [apply change_child_modify; auto|].
  cbn [mbind option_bind]. by destruct (change_child s parent old new).
Qed.

Lemma change_child_load s parent old new s' a : a ≠ parent → change_child s parent old new = Some s' → load s' a = load s a.
Proof.
  intros Hne. unfold change_child, set_left, set_right, modify, load. destruct (ctrue parent); [|by intros [= <-]].
  destruct (nodes s !! parent) as [np|]; [|done]. cbn [mbind option_bind].
  destruct (old =? rb_left np); cbn [mbind option_bind]; intros [= <-]; simpl; by rewrite lookup_insert_ne.
Qed.

(** The writes by which [nd] takes the place of [old] after its own links have
    been cut; [r] is not empty. *)
Lemma take_place s k c l old r nd n0 :
  tree_rep s (plug k (Node c l old r)) → l ≠ Leaf → r ≠ Leaf → addr nd → nd ∉ inorder (plug k (Node c l old r)) →
  load s nd = Some n0 →
  ∃ s1 s', change_child s (par_of k) old nd = Some s1 ∧
    (on ← load s1 old;
     s ← set_right s1 nd (rb_right on);
     s ← rb_set_parent s (rb_right on) nd;
     on ← load s old;
     s ← set_parent_color s nd (λ _, rb_parent_color on);
     s ← set_left s nd (rb_left on);
     rb_set_parent s (rb_left on) nd) = Some s' ∧
    tree_rep s' (plug k (Node c l nd r)) ∧
    (∀ q, q ≠ nd → q ∉ inorder (plug k (Node c l old r)) → nodes s' !! q = nodes s !! q).
Proof.
  intros Hrep Hll Hrl Hnd Hfresh Hn0.
  destruct (load_focus _ _ _ _ _ _ Hrep) as (Hlo & Hao & H4).
  apply tree_rep_focus in Hrep as ((_ & _ & Hl & Hr) & Hk & Hndp).
  rewrite inorder_plug in Hfresh. simpl in Hfresh. pose proof (NoDup_hole _ _ Hndp) as (Hn & Hout & Hndk).
  simpl in Hn, Hout. apply NoDup_app in Hn as (Hnl & Hd & [Hvr Hnr]%NoDup_cons).
  assert (Hvl : old ∉ inorder l) by (intros ?; eapply Hd; [done|by left]).
  assert (Hlr : ∀ q, q ∈ inorder l → q ∉ inorder r) by (intros q Hq Hq'; eapply Hd; [done|by right]).
  assert (Hal : addr (ptr l)) by (destruct l; [done|apply Hl]).
  assert (Har : addr (ptr r)) by (destruct r; [done|apply Hr]).
  destruct (change_child_focus s k old nd Hk Hao Hndk ltac:(apply Hout; set_solver)) as (s1 & Hrun1 & Hk1 & Hs1).
  exists s1. rewrite Hrun1.
  assert (H1o : load s1 old = load s old) by (apply Hs1; apply Hout; set_solver).
  assert (H1n : load s1 nd = Some n0) by (rewrite <- Hn0; apply Hs1; set_solver).
  rewrite H1o, Hlo. cbn [mbind option_bind rb_right]. rewrite (set_right_load _ _ _ _ H1n). cbn [mbind option_bind].
  set (s2 := mk_mem _ _).
  assert (Hr2 : rep (nodes s2) old r).
  { eapply rep_same; [|exact Hr]. intros q Hq. simpl. rewrite lookup_insert_ne by set_solver. apply Hs1, Hout. set_solver. }
  destruct (set_parent_opt_spec s2 old r nd Hr2 Hnr (proj2 Hao) (proj2 Hnd)) as (s3 & Hrun3 & Hr3 & Hroot3 & Hs3).
  rewrite set_parent_opt_nonnull in Hrun3 by done. rewrite Hrun3. cbn [mbind option_bind].
  assert (H3o : load s3 old = load s old).
  { unfold load. rewrite Hs3 by done. simpl. rewrite lookup_insert_ne by set_solver. exact H1o. }
  rewrite H3o, Hlo. cbn [mbind option_bind rb_left rb_parent_color].
  assert (H3n : load s3 nd = Some (mk_node (rb_parent_color n0) (ptr r) (rb_left n0))).
  { unfold load. rewrite Hs3 by set_solver. simpl. apply lookup_insert_eq. }
  unfold set_parent_color at 1. rewrite (modify_load _ _ _ _ H3n). cbn [mbind option_bind rb_right].
  erewrite set_left_load; [|unfold load; simpl; apply lookup_insert_eq].
  cbn [mbind option_bind nodes rb_root rb_parent_color rb_right]. rewrite insert_insert_eq.
  set (s5 := mk_mem _ _).
  assert (Hl5 : rep (nodes s5) old l).
  { eapply rep_same; [|exact Hl]. intros q Hq. simpl. rewrite lookup_insert_ne by set_solver.
    rewrite Hs3 by (by apply Hlr). simpl. rewrite lookup_insert_ne by set_solver. apply Hs1, Hout. set_solver. }
  destruct (set_parent_opt_spec s5 old l nd Hl5 Hnl (proj2 Hao) (proj2 Hnd)) as (s6 & Hrun6 & Hl6 & Hroot6 & Hs6).
  rewrite set_parent_opt_nonnull in Hrun6 by done. exists s6. split; [done|]. split; [exact Hrun6|].
  simpl in Hs3, Hroot3, Hs6, Hroot6. split.
  - apply tree_rep_focus. simpl. split_and!; try done.
    + rewrite Hs6 by set_solver. apply lookup_insert_eq.
    + eapply rep_same; [|exact Hr3]. intros q Hq. rewrite Hs6 by (intros ?; by eapply Hlr).
      apply lookup_insert_ne. set_solver.
    + rewrite Hroot6, Hroot3. eapply repc_same; [|exact Hk1]. intros q Hq.
      assert (Hqi : q ∉ inorder l ++ old :: inorder r) by (intros ?; by eapply Hout).
      rewrite Hs6 by set_solver. rewrite lookup_insert_ne by set_solver. rewrite Hs3 by set_solver.
      apply lookup_insert_ne. set_solver.
    + simpl in Hndp. rewrite !NoDup_app, NoDup_cons in *. set_solver.
  - intros q Hq1 Hq2. rewrite inorder_plug in Hq2. simpl in Hq2. rewrite Hs6 by set_solver.
    rewrite lookup_insert_ne, Hs3, lookup_insert_ne by set_solver. apply Hs1. set_solver.
Qed.

(** The same when [nd] is the right child of [old]: its own right link stays. *)
Lemma take_place_child s k c l old cs nd rs :
  tree_rep s (plug k (Node c l old (Node cs Leaf nd rs))) → l ≠ Leaf →
  ∃ s1 s', change_child s (par_of k) old nd = Some s1 ∧
    (on ← load s1 old;
     s ← set_parent_color s1 nd (λ _, rb_parent_color on);
     s ← set_left s nd (rb_left on);
     rb_set_parent s (rb_left on) nd) = Some s' ∧
    tree_rep s' (plug k (Node c l nd rs)) ∧ frame_same (plug k (Node c l old (Node cs Leaf nd rs))) s s'.
Proof.
  intros Hrep Hll. destruct (load_focus _ _ _ _ _ _ Hrep) as (Hlo & Hao & H4).
  apply tree_rep_focus in Hrep as ((_ & _ & Hl & (Hn0 & Hnd & _ & Hrs)) & Hk & Hndp).
  pose proof (NoDup_hole _ _ Hndp) as (Hn & Hout & Hndk). simpl in Hn, Hout.
  apply NoDup_app in Hn as (Hnl & Hd & [Hvr [Hnr _]%NoDup_cons]%NoDup_cons).
  assert (Hvl : old ∉ inorder l ∧ nd ∉ inorder l) by (split; intros ?; (eapply Hd; [done|]); set_solver).
  assert (Hlr : ∀ q, q ∈ inorder l → q ∉ inorder rs) by (intros q Hq Hq'; (eapply Hd; [done|]); set_solver).
  assert (Hal : addr (ptr l)) by (destruct l; [done|apply Hl]). destruct Hvl as [Hvl Hnl2].
  destruct (change_child_focus s k old nd Hk Hao Hndk ltac:(apply Hout; set_solver)) as (s1 & Hrun1 & Hk1 & Hs1).
  exists s1. rewrite Hrun1.
  assert (H1o : load s1 old = load s old) by (apply Hs1; apply Hout; set_solver).
  assert (H1n : load s1 nd = Some (mk_node (pack old cs) (ptr rs) 0)).
  { unfold load. rewrite Hs1; [exact Hn0|]. apply Hout. set_solver. }
  rewrite H1o, Hlo. cbn [mbind option_bind rb_left rb_parent_color].
  unfold set_parent_color at 1. rewrite (modify_load _ _ _ _ H1n). cbn [mbind option_bind rb_right].
  erewrite set_left_load; [|unfold load; simpl; apply lookup_insert_eq].
  cbn [mbind option_bind nodes rb_root rb_parent_color rb_right]. rewrite insert_insert_eq.
  set (s5 := mk_mem _ _).
  assert (Hl5 : rep (nodes s5) old l).
  { eapply rep_same; [|exact Hl]. intros q Hq. simpl. rewrite lookup_insert_ne by congruence.
    apply Hs1, Hout. set_solver. }
  destruct (set_parent_opt_spec s5 old l nd Hl5 Hnl (proj2 Hao) (proj2 Hnd)) as (s6 & Hrun6 & Hl6 & Hroot6 & Hs6).
  rewrite set_parent_opt_nonnull in Hrun6 by done. exists s6. split; [done|]. split; [exact Hrun6|].
  simpl in Hs6, Hroot6. split.
  - apply tree_rep_focus. simpl. split_and!; try done.
    + rewrite Hs6 by done. apply lookup_insert_eq.
    + eapply rep_same; [|exact Hrs]. intros q Hq. rewrite Hs6 by (intros ?; by eapply Hlr).
      rewrite lookup_insert_ne by congruence. apply Hs1, Hout. set_solver.
    + rewrite Hroot6. eapply repc_same; [|exact Hk1]. intros q Hq.
      assert (Hqi : q ∉ inorder l ++ old :: nd :: inorder rs) by (intros ?; by eapply Hout).
      rewrite Hs6 by set_solver. apply lookup_insert_ne. set_solver.
    + simpl in Hndp. rewrite !NoDup_app in *. simpl in *. rewrite !NoDup_cons in *. set_solver.
  - intros q Hq. rewrite inorder_plug in Hq. simpl in Hq. rewrite Hs6 by set_solver.
    rewrite lookup_insert_ne by set_solver. apply Hs1. set_solver.
Qed.

(** The leftmost node of a subtree, with the path to it. *)
Lemma leftmost_path t :
  t ≠ Leaf → ∃ km cs nd rs, t = plug km (Node cs Leaf nd rs) ∧ ctx_l km = [] ∧
    (km = [] ∨ ∃ c q u km', km = FL c q u :: km').
Proof.
  induction t as [|c l IHl p r _]; [done|]. intros _. destruct l as [|cl ll lp lr].
  - exists [], c, p, r. auto.
  - destruct IHl as (km & cs & nd & rs & -> & Hc & Hkm); [done|].
    exists (km ++ [FL c p r]), cs, nd, rs. rewrite plug_app. split; [done|]. split.
    + clear Hkm. revert Hc. induction km as [|[] km IH]; simpl; [done|done|].
      by intros [_ [_ ?]%app_eq_nil]%app_eq_nil.
    + right. destruct Hkm as [->|(c' & q & u & km' & ->)]; by eexists _, _, _, _.
Qed.

(** Cutting the successor out of its place, as [erase_successor] does it. *)
Lemma cut_left s cq q u k cs nd rs :
  tree_rep s (plug (FL cq q u :: k) (Node cs Leaf nd rs)) →
  ∃ sa sb, set_parent_opt s (ptr rs) q = Some sa ∧ set_left sa q (ptr rs) = Some sb ∧
    tree_rep sb (plug (FL cq q u :: k) rs) ∧ load sb nd = load s nd ∧
    frame_same (plug (FL cq q u :: k) (Node cs Leaf nd rs)) s sb.
Proof.
  intros Hrep. pose proof (load_focus _ _ _ _ _ _ Hrep) as (Hln & Han & H4).
  destruct (erase_unlink_spec s _ cs Leaf nd rs rs Hrep) as (sb & Hrun & Hrepb & Hf); [by left|].
  unfold erase_unlink in Hrun. rewrite Hln in Hrun. cbn [mbind option_bind] in Hrun.
  rewrite pack_parent in Hrun by done. cbn [par_of fptr] in Hrun.
  destruct (set_parent_opt s (ptr rs) q) as [sa|] eqn:Hsa; [|done]. cbn [mbind option_bind] in Hrun.
  pose proof Hrep as Hrep'. change (tree_rep s (plug k (Node cq (Node cs Leaf nd rs) q u))) in Hrep'.
  destruct (load_focus _ _ _ _ _ _ Hrep') as (Hlq & Haq & _).
  assert (Hndp : NoDup (inorder (Node cq (Node cs Leaf nd rs) q u))).
  { apply tree_rep_focus in Hrep' as (_ & _ & (? & _)%NoDup_hole). done. }
  simpl in Hndp. rewrite NoDup_cons, NoDup_app, NoDup_cons in Hndp.
  assert (Hrs : ∀ x, x ∉ inorder rs → load sa x = load s x).
  { intros x Hx. unfold set_parent_opt, rb_set_parent, set_parent_color, modify in Hsa.
    destruct (ctrue (ptr rs)) eqn:Ec; [|by simplify_eq]. destruct (load s (ptr rs)); [|done].
    cbn [mbind option_bind] in Hsa. simplify_eq. unfold load. simpl. apply lookup_insert_ne.
    intros <-. apply Hx, ptr_elem. unfold ctrue in Ec. by destruct (Z.eqb_spec (ptr rs) 0). }
  assert (Hq : load sa q = load s q) by (apply Hrs; set_solver).
  unfold change_child in Hrun. unfold ctrue in Hrun. destruct Haq as [? ?].
  destruct (Z.eqb_spec q 0); [lia|]. cbn [negb] in Hrun. rewrite Hq, Hlq in Hrun.
  cbn [mbind option_bind rb_left ptr] in Hrun. rewrite Z.eqb_refl in Hrun.
  destruct (set_left sa q (ptr rs)) as [sb'|] eqn:Hsb; [|done]. cbn [mbind option_bind] in Hrun.
  injection Hrun as <-. exists sa, sb'. split_and!; try done.
  assert (load sa nd = load s nd) as <- by (apply Hrs; set_solver).
  unfold set_left in Hsb. unfold modify in Hsb. destruct (load sa q); [|done]. cbn [mbind option_bind] in Hsb.
  injection Hsb as <-. unfold load. simpl. apply lookup_insert_ne. set_solver.
Qed.

Lemma leftmost_focus s k c l old km cs nd rs :
  tree_rep s (plug k (Node c l old (plug km (Node cs Leaf nd rs)))) → ctx_l km = [] →
  leftmost (rb_fuel s) s (ptr (plug km (Node cs Leaf nd rs))) = Some nd.
Proof.
  intros Hrep Hkm. pose proof (tree_rep_size _ _ Hrep) as Hsz. rewrite inorder_plug, !length_app in Hsz. simpl in Hsz.
  rewrite length_app in Hsz. simpl in Hsz. apply tree_rep_focus in Hrep as ((_ & _ & _ & Hr) & _).
  pose proof (inorder_plug km (Node cs Leaf nd rs)) as Hin. rewrite Hkm in Hin. simpl in Hin.
  destruct (plug km (Node cs Leaf nd rs)) as [|c' l' p' r']; [done|]. cbn [ptr].
  rewrite (leftmost_spec _ _ _ _ _ _ _ Hr); [by rewrite Hin|]. unfold rb_fuel. lia.
Qed.

Lemma par_of_app km f k : par_of (km ++ f :: k) = match km with [] => fptr f | g :: _ => fptr g end.
Proof. by destruct km. Qed.

Lemma node_ne_parent s k t x : tree_rep s (plug k t) → x ∈ inorder t → x ≠ par_of k.
Proof.
  intros (Hr & _ & (_ & Hout & _)%NoDup_hole)%tree_rep_focus Hx ->. destruct k as [|f k].
  - destruct (rep_addr _ _ _ _ Hr Hx). simpl in *. lia.
  - apply (Hout _ Hx). destruct f; simpl; set_solver.
Qed.

Lemma erase_successor_spec s k c l old r :
  tree_rep s (plug k (Node c l old r)) → l ≠ Leaf → r ≠ Leaf →
  ∃ s' km cs nd rs, r = plug km (Node cs Leaf nd rs) ∧ ctx_l km = [] ∧
    erase_successor s old = Some (s', ptr rs, par_of (km ++ FR c l nd :: k), color_bit cs) ∧
    tree_rep s' (plug (km ++ FR c l nd :: k) rs) ∧ frame_same (plug k (Node c l old r)) s s'.
Proof.
  intros Hrep Hl Hr. destruct (leftmost_path r Hr) as (km & cs & nd & rs & -> & Hkm & Hshape).
  pose proof (load_focus _ _ _ _ _ _ Hrep) as (Hlo & Hao & H4).
  unfold erase_successor. rewrite Hlo. cbn [mbind option_bind rb_right].
  rewrite (leftmost_focus _ _ _ _ _ _ _ _ _ Hrep Hkm). cbn [mbind option_bind]. rewrite pack_parent by done.
  set (K := km ++ FR c l old :: k).
  assert (HrepK : tree_rep s (plug K (Node cs Leaf nd rs))) by (unfold K; by rewrite plug_app).
  pose proof (load_focus _ _ _ _ _ _ HrepK) as (Hln & Han & H4K).
  assert (Hin : ∀ x, x ∈ inorder (plug km (Node cs Leaf nd rs)) → x ≠ par_of k).
  { intros x Hx. eapply node_ne_parent; [exact Hrep|]. simpl. set_solver. }
  rewrite inorder_plug, Hkm in Hin. simpl in Hin.
  destruct Hshape as [->|(cq & q & u & km' & ->)].
  - (* the successor is the right child *)
    destruct (take_place_child _ _ _ _ _ _ _ _ Hrep Hl) as (s1 & s' & Hrun1 & Hrun & Hrep' & Hf).
    exists s', [], cs, nd, rs. rewrite Hrun1. cbn [mbind option_bind].
    rewrite (change_child_load _ _ _ _ _ nd (Hin nd ltac:(set_solver)) Hrun1), Hln. cbn [mbind option_bind rb_right].
    rewrite pack_parent, pack_color by done. cbn [K app par_of fptr]. rewrite Z.eqb_refl. cbn [mbind option_bind].
    split_and!; try done. destruct (load s1 old) as [on|]; [|done]. cbn [mbind option_bind] in *.
    destruct (set_parent_color s1 nd _) as [s2|]; [|done]. cbn [mbind option_bind] in *.
    destruct (set_left s2 nd _) as [s3|]; [|done]. cbn [mbind option_bind] in *. by rewrite Hrun.
  - (* the successor is further down *)
    destruct (cut_left _ _ _ _ _ _ _ _ HrepK) as (sa & sb & Hrun_a & Hrun_b & Hrep_b & Hln_b & Hf_b).
    assert (Hplug : ∀ o t, plug (FL cq q u :: km' ++ FR c l o :: k) t = plug k (Node c l o (plug (FL cq q u :: km') t)))
      by (intros; apply (plug_app (FL cq q u :: km') (FR c l o :: k))).
    assert (Hrep_c : tree_rep sb (plug k (Node c l old (plug (FL cq q u :: km') rs)))) by (rewrite <- (Hplug old rs); exact Hrep_b).
    clear Hrep_b. rename Hrep_c into Hrep_b.
    assert (Hids : NoDup (inorder (plug K (Node cs Leaf nd rs)))) by apply HrepK.
    assert (Hnd : nd ∉ inorder (plug k (Node c l old (plug (FL cq q u :: km') rs)))).
    { rewrite inorder_plug in Hids. cbn [inorder app] in Hids.
      rewrite <- (Hplug old rs), inorder_plug. apply NoDup_app in Hids as (_ & Hd & [Hn _]%NoDup_cons). set_solver. }
    rewrite Hln in Hln_b.
    assert (Hnl : plug (FL cq q u :: km') rs ≠ Leaf).
    { intros Hleaf. apply (f_equal (λ t, length (inorder t))) in Hleaf. rewrite inorder_plug, !length_app in Hleaf.
      simpl in Hleaf. lia. }
    destruct (take_place sb k c l old _ nd _ Hrep_b Hl Hnl Han Hnd Hln_b) as (s1' & s' & Hrun1 & Hrun & Hrep' & Hf).
    assert (Hcomm : (s ← change_child s (par_of k) old nd; s ← set_parent_opt s (ptr rs) q; set_left s q (ptr rs)) = Some s1').
    { rewrite <- Hrun1. clear Hrun Hrun1 Hf Hrep'.
      pose proof (change_child_set_parent_opt s (ptr rs) q (par_of k) old nd) as Hc1.
      pose proof (change_child_modify sa q (λ n, mk_node (rb_parent_color n) (rb_right n) (ptr rs)) (par_of k) old nd) as Hc2.
      fold (set_left sa q (ptr rs)) in Hc2. rewrite Hrun_b in Hc2. cbn [mbind option_bind] in Hc2.
      rewrite <- Hc2 by (apply Hin; simpl; set_solver). rewrite Hrun_a in Hc1. cbn [mbind option_bind] in Hc1.
      rewrite <- Hc1; [|intros Hct; apply Hin; right; apply elem_of_app; left; apply ptr_elem;
                         unfold ctrue in Hct; by destruct (Z.eqb_spec (ptr rs) 0)].
      by destruct (change_child s (par_of k) old nd). }
    exists s', (FL cq q u :: km'), cs, nd, rs.
    destruct (change_child s (par_of k) old nd) as [s1|] eqn:Hrun0; [|done]. cbn [mbind option_bind] in *.
    rewrite (change_child_load _ _ _ _ _ nd (Hin nd ltac:(set_solver)) Hrun0), Hln. cbn [mbind option_bind rb_right].
    rewrite pack_parent, pack_color by done. cbn [K app par_of fptr].
    assert (Hqo : q ≠ old).
    { intros ->. rewrite inorder_plug in Hids. apply NoDup_hole in Hids as (_ & _ & Hids).
      unfold K in Hids. simpl in Hids. clear -Hids. revert Hids.
      assert (old ∈ ctx_l (km' ++ FR c l old :: k)).
      { clear. induction km' as [|[] km' IH]; simpl; set_solver. }
      intros Hnd. apply NoDup_app in Hnd as (_ & Hd & _). eapply Hd; [done|]. by left. }
    destruct (Z.eqb_spec q old); [done|]. cbn [mbind option_bind].
    destruct (set_parent_opt s1 (ptr rs) q) as [s2|]; [|done]. cbn [mbind option_bind] in *.
    rewrite Hcomm. cbn [mbind option_bind].
    destruct (load s1' old) as [on|]; [|done]. cbn [mbind option_bind] in *.
    destruct (set_right s1' nd (rb_right on)) as [s3|]; [|done]. cbn [mbind option_bind] in *.
    destruct (rb_set_parent s3 (rb_right on) nd) as [s4|]; [|done]. cbn [mbind option_bind] in *.
    destruct (load s4 old) as [on'|]; [|done]. cbn [mbind option_bind] in *.
    destruct (set_parent_color s4 nd _) as [s5|]; [|done]. cbn [mbind option_bind] in *.
    destruct (set_left s5 nd _) as [s6|]; [|done]. cbn [mbind option_bind] in *. rewrite Hrun.
    cbn [mbind option_bind]. split_and!; try done.
    + by rewrite (Hplug nd rs).
    + intros x Hx. assert (Hx' : x ∉ inorder (plug K (Node cs Leaf nd rs))) by (unfold K; by rewrite plug_app).
      rewrite Hf.
      * by apply Hf_b.
      * intros ->. apply Hx'. rewrite inorder_plug. set_solver.
      * intros Hx2. apply Hx'.
        rewrite <- (Hplug old rs), inorder_plug in Hx2. rewrite inorder_plug. set_solver.
Qed.

Lemma plug_valid k t n : ctx_rb k n → is_rb t Black n → rb_valid (plug k t).
Proof.
  intros Hk Ht. destruct (plug_rb _ _ _ _ Hk Ht) as (c & m & Hrb & Hc); [done|]. exists m.
  destruct k; [|by rewrite Hc in Hrb]. by rewrite (is_rb_color _ _ _ _ _ Hrb Ht) in Hrb.
Qed.

(** The end of [rb_erase]: a node of colour [c] above [t] has gone. *)
Lemma erase_rebalance s k t c n :
  tree_rep s (plug k t) → ctx_rb k n →
  (match c with Red => is_rb t Black n | Black => ∃ m ct, n = S m ∧ is_rb t ct m end) →
  ∃ s' T, (if color_bit c =? RB_BLACK then rb_erase_color s (ptr t) (par_of k) else Some s) = Some s' ∧
    evolve s (plug k t) s' T ∧ rb_valid T.
Proof.
  intros Hrep Hk Ht. destruct c; simpl.
  - exists s, (plug k t). split; [done|]. eauto using evolve_refl, plug_valid.
  - destruct Ht as (m & ct & -> & Ht). eapply rb_erase_color_spec; eauto using is_rb_short.
Qed.

Lemma ctx_rb_rename km c l p q k n : ctx_rb (km ++ FR c l p :: k) n → ctx_rb (km ++ FR c l q :: k) n.
Proof.
  revert n. induction km as [|f km IH]; intros n; simpl; [by destruct c|].
  assert (Hh : head_black (km ++ FR c l p :: k) → head_black (km ++ FR c l q :: k)) by (by destruct km).
  destruct f as [[] ? ?|[] ? ?]; naive_solver.
Qed.

(** The subtree that takes the place of a node with one child at most. *)
Lemma one_child_rb c l p r t ct n :
  is_rb (Node c l p r) ct n → (l = Leaf ∧ t = r) ∨ (r = Leaf ∧ t = l) →
  match c with Red => is_rb t Black n | Black => ∃ m ct, n = S m ∧ is_rb t ct m end.
Proof. intros Hrb [[-> ->]|[-> ->]]; inversion Hrb; subst; eauto. Qed.

Lemma rb_erase_spec s t l1 p l2 :
  tree_rep s t → rb_valid t → inorder t = l1 ++ p :: l2 →
  ∃ s' t', rb_erase s p = Some s' ∧ tree_rep s' t' ∧ rb_valid t' ∧ inorder t' = l1 ++ l2 ∧ frame_same t s s'.
Proof.
  intros Hrep [m Hv] Hin. destruct (focus_split _ _ _ _ (tr_nodup _ _ Hrep) Hin) as (k & c & l & r & -> & -> & ->).
  pose proof (load_focus _ _ _ _ _ _ Hrep) as (Hlp & _ & _). unfold rb_erase. rewrite Hlp.
  cbn [mbind option_bind rb_left rb_right].
  assert (Hnull : ∀ x, ctrue (ptr x) = false ∨ x ≠ Leaf) by (intros [|]; [by left|by right]).
  assert (Hone : ∀ x, (l = Leaf ∧ x = r) ∨ (r = Leaf ∧ x = l) →
    ∃ s' t', ('(s, child, parent, color) ← erase_unlink s p (ptr x);
              if color =? RB_BLACK then rb_erase_color s child parent else Some s) = Some s' ∧
      tree_rep s' t' ∧ rb_valid t' ∧ inorder t' = (ctx_l k ++ inorder l) ++ inorder r ++ ctx_r k ∧
      frame_same (plug k (Node c l p r)) s s').
  { intros x Hx. destruct (erase_unlink_spec _ _ _ _ _ _ _ Hrep Hx) as (s1 & -> & Hrep1 & Hf1). cbn [mbind option_bind].
    destruct (unplug_rb _ _ _ _ Hv) as (ct & n & Hrb & Hk & _); [done|].
    destruct (erase_rebalance s1 k x c n Hrep1 Hk (one_child_rb _ _ _ _ _ _ _ Hrb Hx)) as (s' & t' & Hrun & (Hrep' & Hin' & Hf') & Hv').
    exists s', t'. split_and!; try done.
    - rewrite Hin', inorder_plug. destruct Hx as [[-> ->]|[-> ->]]; simpl; by rewrite ?app_nil_r, <- ?app_assoc.
    - intros q Hq. rewrite Hf', Hf1; [done|done|]. rewrite inorder_plug in *. simpl in Hq.
      destruct Hx as [[-> ->]|[-> ->]]; set_solver. }
  destruct l as [|cl ll lp lr]; [apply (Hone r); auto|].
  destruct r as [|cr rl rp rr].
  { pose proof (subtrees_disjoint _ _ _ _ _ _ Hrep) as _. apply tree_rep_focus in Hrep as ((_ & _ & Hl & _) & _).
    destruct (rep_ptr _ _ _ Hl) as [[? _]|[? _]]; [done|]. cbn [ptr] in *. unfold ctrue at 1.
    destruct (Z.eqb_spec lp 0); [lia|]. cbn [negb]. apply (Hone (Node cl ll lp lr)). auto. }
  clear Hone Hnull.
  assert (Hnz : ctrue lp = true ∧ ctrue rp = true).
  { apply tree_rep_focus in Hrep as ((_ & _ & (_ & [? _] & _) & (_ & [? _] & _)) & _). unfold ctrue.
    destruct (Z.eqb_spec lp 0), (Z.eqb_spec rp 0); try lia; done. }
  destruct Hnz as [Hlz Hrz]. cbn [ptr]. rewrite Hlz, Hrz. cbn [negb].
  destruct (erase_successor_spec _ _ _ _ _ _ Hrep) as (s1 & km & cs & nd & rs & Hr & Hkm & -> & Hrep1 & Hf1); [done..|].
  cbn [mbind option_bind]. rewrite Hr in *.
  assert (HvK : is_rb (plug (km ++ FR c (Node cl ll lp lr) p :: k) (Node cs Leaf nd rs)) Black m) by (by rewrite plug_app).
  destruct (unplug_rb _ _ _ _ HvK) as (ct & n & Hrb & Hk & _); [done|].
  destruct (erase_rebalance s1 _ rs cs n Hrep1 (ctx_rb_rename _ _ _ _ nd _ _ Hk) (one_child_rb _ _ _ _ _ _ _ Hrb ltac:(by left)))
    as (s' & t' & Hrun & (Hrep' & Hin' & Hf') & Hv').
  exists s', t'. split_and!; try done.
  - rewrite Hin', plug_app, inorder_plug. simpl. rewrite !inorder_plug, Hkm. simpl. by repeat (rewrite <- app_assoc; simpl).
  - intros q Hq. rewrite Hf', Hf1; [done|done|]. rewrite plug_app, inorder_plug. rewrite inorder_plug in Hq. simpl in *.
    rewrite inorder_plug in *. simpl in *. set_solver.
Qed.

(** ** A tree as the list of its nodes

    What a user of the library needs: the nodes in order, and what searching,
    inserting and erasing do to that list. *)

Definition is_tree (s : rb_mem) (l : list Z) : Prop := ∃ t, tree_rep s t ∧ rb_valid t ∧ inorder t = l.

Lemma is_tree_NoDup s l : is_tree s l → NoDup l.
Proof. intros (t & Hr & _ & <-). apply (tr_nodup _ _ Hr). Qed.

Lemma is_tree_search s l diff d :
  is_tree s l → descending diff d l →
  (∃ x, rb_search s diff = Some (inl x) ∧ x ∈ l ∧ d x = 0) ∨
  (∃ link parent, rb_search s diff = Some (inr (link, parent)) ∧ (∀ x, x ∈ l → d x ≠ 0) ∧
     ∀ node, addr node → node ∉ l →
       ∃ s1 s2 l1 l2, rb_link_node s node parent link = Some s1 ∧ rb_insert_color s1 node = Some s2 ∧
         l = l1 ++ l2 ∧ is_tree s2 (l1 ++ node :: l2) ∧ Forall (λ y, 0 < d y) l1 ∧ Forall (λ y, d y < 0) l2).
Proof.
  intros (t & Hrep & Hv & <-) Hd. destruct (rb_search_spec diff d s t Hrep Hd) as [?|(k & Hrun & <- & Hl & Hr)]; [by left|].
  right. exists (link_of k), (par_of k). split; [done|]. split.
  - intros x. rewrite inorder_plug. simpl. rewrite Forall_forall in Hl, Hr.
    intros [Hx|Hx]%elem_of_app; [specialize (Hl x Hx)|specialize (Hr x Hx)]; lia.
  - intros node Ha Hnew. destruct (rb_insert_spec s k node Hrep Hv Ha Hnew) as (s1 & s2 & t' & H1 & H2 & H3 & H4 & H5 & _).
    exists s1, s2, (ctx_l k), (ctx_r k). split_and!; try done; [by rewrite inorder_plug|by exists t'].
Qed.

Lemma is_tree_erase s l1 x l2 :
  is_tree s (l1 ++ x :: l2) → ∃ s', rb_erase s x = Some s' ∧ is_tree s' (l1 ++ l2).
Proof.
  intros (t & Hrep & Hv & Hin). destruct (rb_erase_spec s t l1 x l2 Hrep Hv Hin) as (s' & t' & ? & ? & ? & ? & _).
  exists s'. split; [done|]. by exists t'.
Qed.

Lemma is_tree_walk s l :
  is_tree s l → rb_first s = Some (default 0 (head l)) ∧
  (∀ l1 p l2, l = l1 ++ p :: l2 → rb_next s p = Some (default 0 (head l2))) ∧ Forall addr l ∧ (length l < rb_fuel s)%nat.
Proof.
  intros (t & Hrep & _ & <-). split; [by apply rb_first_spec|]. split; [intros; by eapply rb_next_spec|].
  split; [|pose proof (tree_rep_size _ _ Hrep); unfold rb_fuel; lia].
  apply Forall_forall. intros q Hq. destruct Hrep as [_ Hr _]. by eapply rep_addr.
Qed.

Lemma is_tree_empty m : is_tree (mk_mem m 0) [].
Proof. exists Leaf. split_and!; [by split; [..|constructor]|by exists 0%nat; constructor|done]. Qed.

(** ** A tree as a set of nodes in the order of a key *)

Definition sorted_by (key : Z → Z) (l : list Z) : Prop := StronglySorted (λ x y, key x < key y) l.

(** The nodes are those of the set [S], with strictly increasing keys. *)
Definition keyed (t : rb_mem) (key : Z → Z) (S : Z → Prop) : Prop :=
  ∃ l, is_tree t l ∧ sorted_by key l ∧ ∀ x, x ∈ l ↔ S x.

Lemma sorted_by_ext key key' l : (∀ x, x ∈ l → key' x = key x) → sorted_by key l → sorted_by key' l.
Proof.
  unfold sorted_by. induction l as [|a l IH]; intros He Hs; [constructor|]. inversion Hs as [|? ? Hs' Hall]; subst.
  constructor; [apply IH; [intros; apply He; by right|done]|]. rewrite Forall_forall in Hall |- *. intros y Hy.
  rewrite !He by (by left || by right). by apply Hall.
Qed.

Lemma keyed_ext t key key' S S' :
  (∀ x, S x ↔ S' x) → (∀ x, S x → key' x = key x) → keyed t key S → keyed t key' S'.
Proof.
  intros HS Hk (l & Ht & Hs & Hm). exists l. split_and!; [done| |intros x; by rewrite Hm].
  eapply sorted_by_ext; [|exact Hs]. intros x Hx. apply Hk. by apply Hm.
Qed.

Lemma keyed_inj t key S x y : keyed t key S → S x → S y → key x = key y → x = y.
Proof.
  intros (l & _ & Hs & Hm) Hx%Hm Hy%Hm E. clear Hm. induction Hs as [|a l Hs IH Hall]; [set_solver|].
  rewrite Forall_forall in Hall. apply elem_of_cons in Hx as [->|Hx], Hy as [->|Hy]; [done|..|by apply IH].
  - specialize (Hall _ Hy). lia.
  - specialize (Hall _ Hx). lia.
Qed.

Lemma keyed_search t key S k diff :
  keyed t key S → (∀ x, S x → diff x = Some (k - key x)) →
  (∃ x, rb_search t diff = Some (inl x) ∧ S x ∧ key x = k) ∨
  (∃ link parent, rb_search t diff = Some (inr (link, parent)) ∧ (∀ x, S x → key x ≠ k) ∧
     ∀ node, addr node → ¬ S node →
       ∃ t1 t2, rb_link_node t node parent link = Some t1 ∧ rb_insert_color t1 node = Some t2 ∧
         ∀ key' S', (∀ x, S' x ↔ x = node ∨ S x) → (∀ x, S x → key' x = key x) → key' node = k → keyed t2 key' S').
Proof.
  intros (l & Ht & Hs & Hm) Hd.
  destruct (is_tree_search t l diff (λ x, k - key x) Ht) as [(x & Hrun & Hx & E)|(link & parent & Hrun & Hne & Hins)].
  { split; [apply Forall_forall; intros x Hx; apply Hd; by apply Hm|].
    eapply StronglySorted_impl; [|exact Hs]. simpl. lia. }
  - left. exists x. split; [done|]. split; [by apply Hm|lia].
  - right. exists link, parent. split; [done|]. split; [intros x Hx E; apply (Hne x); [by apply Hm|lia]|].
    intros node Ha Hnew. destruct (Hins node Ha) as (t1 & t2 & l1 & l2 & H1 & H2 & -> & Ht2 & Hl & Hr); [by rewrite Hm|].
    exists t1, t2. split; [done|]. split; [done|]. intros key' S' HS' Hk' Hkn. exists (l1 ++ node :: l2).
    assert (Hm' : ∀ x, x ∈ l1 ++ node :: l2 ↔ S' x).
    { intros x. rewrite HS', <- Hm, !elem_of_app, elem_of_cons. tauto. }
    split_and!; [done| |done]. rewrite Forall_forall in Hl, Hr. unfold sorted_by in Hs |- *.
    apply (sorted_by_ext key key') in Hs as Hs'; [|intros x Hx; apply Hk'; by apply Hm].
    apply StronglySorted_app in Hs' as (H12 & Hs1 & Hs2). apply StronglySorted_app. split_and!; [|done|constructor; [done|]].
    + intros x y Hx [->|Hy]%elem_of_cons; [|by apply H12]. rewrite Hkn, (Hk' x) by (apply Hm; set_solver).
      specialize (Hl x Hx). simpl in Hl. lia.
    + apply Forall_forall. intros y Hy. rewrite Hkn, (Hk' y) by (apply Hm; set_solver). specialize (Hr y Hy). simpl in Hr. lia.
Qed.

Lemma keyed_erase t key S x :
  keyed t key S → S x →
  ∃ t', rb_erase t x = Some t' ∧
    ∀ key' S', (∀ y, S' y ↔ S y ∧ y ≠ x) → (∀ y, S' y → key' y = key y) → keyed t' key' S'.
Proof.
  intros (l & Ht & Hs & Hm) Hx%Hm. pose proof (is_tree_NoDup _ _ Ht) as Hnd. apply list_elem_of_split in Hx as (l1 & l2 & ->).
  destruct (is_tree_erase t l1 x l2 Ht) as (t' & Hrun & Ht'). exists t'. split; [done|]. intros key' S' HS' Hk'.
  apply NoDup_app in Hnd as (_ & Hd & [Hx2 _]%NoDup_cons).
  assert (Hm' : ∀ y, y ∈ l1 ++ l2 ↔ S' y).
  { intros y. rewrite HS', <- Hm, !elem_of_app, elem_of_cons. split; [|tauto]. intros Hy. split; [tauto|]. intros ->.
    destruct Hy as [Hy|Hy]; [|done]. eapply Hd; [exact Hy|by left]. }
  exists (l1 ++ l2). split_and!; [done| |done]. apply (sorted_by_ext key); [intros y Hy; apply Hk'; by apply Hm'|].
  unfold sorted_by in *. apply StronglySorted_app in Hs as (H12 & Hs1 & Hs2). inversion Hs2; subst.
  apply StronglySorted_app. split_and!; [|done|done]. intros y z Hy Hz. apply H12; [done|by right].
Qed.

Lemma keyed_empty key m : keyed (mk_mem m 0) key (λ _, False).
Proof. exists []. split_and!; [apply is_tree_empty|constructor|]. intros x. by rewrite elem_of_nil. Qed.

(** C16: Removal.  Erasing a node of a red-black tree always succeeds, never
    follows a NULL pointer, and gives a red-black tree with the other nodes in
    their order; nodes of other trees are not touched. *)
Theorem rb_erase_correct s t l1 p l2 :
  tree_rep s t → rb_valid t → inorder t = l1 ++ p :: l2 →
  ∃ s' t', rb_erase s p = Some s' ∧ tree_rep s' t' ∧ rb_valid t' ∧ inorder t' = l1 ++ l2 ∧
    ∀ q, q ∉ inorder t → nodes s' !! q = nodes s !! q.
Proof. apply rb_erase_spec. Qed.

Lemma rb_erase_correct_witness :
  ∃ s' t', rb_erase sample_mem 24 = Some s' ∧ tree_rep s' t' ∧ rb_valid t' ∧ inorder t' = [4; 8; 12; 16; 32; 40].
Proof.
  destruct (rb_erase_correct sample_mem sample_tree [4; 8; 12; 16] 24 [32; 40]) as (s' & t' & H1 & H2 & H3 & H4 & _).
  - exact sample_rep.
  - exact sample_valid.
  - reflexivity.
  - exists s', t'. split; [exact H1|]. split; [exact H2|]. split; [exact H3|exact H4].
Defined.
