(* ===== verification/KString.v ===== *)
(** C strings: the character classes of lib/ctype.c, the comparison of
    lib/string.c and the number parser of lib/vsprintf.c.

    A string is the list of its bytes; a pointer into it is the rest of the
    list, and what lies at its end is the terminating NUL. *)

From S2P Require Import Prelude.

(** [*p] and [p + 1]. *)
Definition chr (p : list Z) : Z := match p with c :: _ => c | [] => 0 end.
Definition at_ (p : list Z) (i : nat) : Z := nth i p 0.

(** ** Character classes *)

Definition U_ : Z := 1.
Definition L_ : Z := 2.
Definition D_ : Z := 4.
Definition C_ : Z := 8.
Definition P_ : Z := 16.
Definition S_ : Z := 32.
Definition X_ : Z := 64.
Definition SP_ : Z := 128.

(** The table, row by row. *)
Definition ctype_table : list Z :=
  replicate 9 C_ ++ replicate 5 (Z.lor C_ S_) ++ replicate 18 C_ ++          (* 0-31 *)
  [Z.lor S_ SP_] ++ replicate 15 P_ ++                                      (* 32-47 *)
  replicate 10 D_ ++ replicate 7 P_ ++                                      (* 48-64 *)
  replicate 6 (Z.lor U_ X_) ++ replicate 20 U_ ++ replicate 6 P_ ++         (* 65-96 *)
  replicate 6 (Z.lor L_ X_) ++ replicate 20 L_ ++ replicate 4 P_ ++ [C_] ++ (* 97-127 *)
  replicate 32 0 ++ [Z.lor S_ SP_] ++ replicate 31 P_ ++                    (* 128-191 *)
  replicate 23 U_ ++ [P_] ++ replicate 7 U_ ++ [L_] ++                      (* 192-223 *)
  replicate 23 L_ ++ [P_] ++ replicate 8 L_.                                (* 224-255 *)

Definition ismask (c : Z) : Z := znth 0 ctype_table (u8 c).
Definition isdigit (c : Z) : bool := ctrue (Z.land (ismask c) D_).
Definition isspace (c : Z) : bool := ctrue (Z.land (ismask c) S_).
Definition isxdigit (c : Z) : bool := ctrue (Z.land (ismask c) (Z.lor D_ X_)).

(** ** Comparison *)

Fixpoint strncmp (cs ct : list Z) (count : nat) : Z :=
  match count with
  | O => 0
  | S count =>
      let c1 := chr cs in
      let c2 := chr ct in
      if negb (c1 =? c2) then (if c1 <? c2 then -1 else 1)
      else if c1 =? 0 then 0
      else strncmp (tl cs) (tl ct) count
  end.

(** ** Numbers *)

Definition TOLOWER (x : Z) : Z := Z.lor x 32.

Definition simple_guess_base (cp : list Z) : Z :=
  if at_ cp 0 =? 48 then
    if (TOLOWER (at_ cp 1) =? 120) && isxdigit (at_ cp 2) then 16 else 8
  else 10.

(** The digits: the value so far and the rest of the string. *)
Fixpoint strtoull_loop (base result : Z) (cp : list Z) : Z * list Z :=
  match cp with
  | [] => (result, [])
  | c :: rest =>
      if isxdigit c then
        let value := if isdigit c then c - 48 else TOLOWER c - 97 + 10 in
        if value >=? base then (result, cp)
        else strtoull_loop base (u64 (result * base + value)) rest
      else (result, cp)
  end.

Definition simple_strtoull (cp : list Z) (base : Z) : Z * list Z :=
  let base := if base =? 0 then simple_guess_base cp else base in
  let cp := if (base =? 16) && (at_ cp 0 =? 48) && (TOLOWER (at_ cp 1) =? 120) then drop 2 cp else cp in
  strtoull_loop base 0 cp.

(** ** Strings as keys: the order of the bytes *)

(** A C string: bytes other than NUL. *)
Definition cstring (s : list Z) : Prop := Forall (λ c, 0 < c < 256) s.

Fixpoint lex (a b : list Z) : Z :=
  match a, b with
  | [], [] => 0
  | [], _ :: _ => -1
  | _ :: _, [] => 1
  | x :: a, y :: b => if x =? y then lex a b else if x <? y then -1 else 1
  end.

Lemma lex_refl a : lex a a = 0.
Proof. induction a as [|x a IH]; simpl; [done|]. by rewrite Z.eqb_refl. Qed.

Lemma lex_eq a b : lex a b = 0 → a = b.
Proof.
  revert b. induction a as [|x a IH]; intros [|y b]; simpl; try done.
  destruct (Z.eqb_spec x y) as [->|]; [intros ?%IH; by subst|]. by destruct (x <? y).
Qed.

Lemma lex_flip a b : lex b a = - lex a b.
Proof.
  revert b. induction a as [|x a IH]; intros [|y b]; simpl; try done.
  rewrite (Z.eqb_sym y x). destruct (Z.eqb_spec x y); [done|].
  destruct (Z.ltb_spec x y), (Z.ltb_spec y x); simpl; lia.
Qed.

Lemma lex_range a b : lex a b = -1 ∨ lex a b = 0 ∨ lex a b = 1.
Proof.
  revert b. induction a as [|x a IH]; intros [|y b]; simpl; auto.
  destruct (x =? y); [auto|]. destruct (x <? y); auto.
Qed.

Lemma lex_trans a b c : lex a b ≤ 0 → lex b c < 0 → lex a c < 0.
Proof.
  revert b c. induction a as [|x a IH]; intros [|y b] [|z c]; simpl; try lia.
  destruct (Z.eqb_spec x y) as [->|].
  - destruct (Z.eqb_spec y z); [apply IH|done].
  - destruct (Z.ltb_spec x y); [|lia]. intros _. destruct (Z.eqb_spec y z) as [<-|].
    + destruct (Z.eqb_spec x y); [lia|]. destruct (Z.ltb_spec x y); lia.
    + destruct (Z.ltb_spec y z); [|lia]. destruct (Z.eqb_spec x z); [lia|]. destruct (Z.ltb_spec x z); lia.
Qed.

(** The whole key compared with a name: [strncmp] over the length of the key,
    and the check that the name ends there. *)
Lemma strncmp_lex key rest name :
  cstring key → cstring name →
  (let d := strncmp (key ++ rest) name (length key) in
   if (d =? 0) && ctrue (at_ name (length key)) then -1 else d) = lex key name.
Proof.
  unfold at_. intros Hk. revert name. induction Hk as [|x key Hx Hk IH]; intros name Hn; simpl.
  - destruct Hn as [|y name Hy _]; simpl; [done|]. unfold ctrue. by destruct (Z.eqb_spec y 0); [lia|].
  - destruct Hn as [|y name Hy Hn]; simpl.
    + destruct (Z.eqb_spec x 0); [lia|]. simpl. destruct (Z.ltb_spec x 0); [lia|done].
    + destruct (Z.eqb_spec x y) as [->|Hne]; simpl.
      * destruct (Z.eqb_spec y 0); [lia|]. by apply IH.
      * destruct (Z.ltb_spec x y); done.
Qed.

(** White space is what the table says: tab to carriage return, blank and the
    hard blank of Latin-1. *)
Lemma isspace_spec c : 0 ≤ c < 256 → isspace c = true ↔ 9 ≤ c ≤ 13 ∨ c = 32 ∨ c = 160.
Proof.
  intros Hc. unfold isspace, ismask, u8. rewrite Z.mod_small by (change (2 ^ 8) with 256; lia).
  assert (Hall : forallb (λ i, Bool.eqb (ctrue (Z.land (znth 0 ctype_table i) S_))
                     (((9 <=? i) && (i <=? 13)) || (i =? 32) || (i =? 160))) (seqZ 0 256) = true) by (vm_compute; reflexivity).
  rewrite forallb_forall in Hall. specialize (Hall c). rewrite <- list_elem_of_In, elem_of_seqZ in Hall.
  specialize (Hall ltac:(lia)). apply eqb_prop in Hall. rewrite Hall. zbool; simpl; lia.
Qed.

Lemma isspace_nul : isspace 0 = false.
Proof. reflexivity. Qed.

(** ** Reading a number *)

(** The digits of a number, most significant first, as text. *)
Definition digit_char (d : Z) : Z := if d <? 10 then 48 + d else 87 + d.
Definition digits_value (base : Z) (ds : list Z) : Z := foldl (λ acc d, acc * base + d) 0 ds.

Lemma digit_char_spec d :
  0 ≤ d < 16 → isxdigit (digit_char d) = true ∧
  (if isdigit (digit_char d) then digit_char d - 48 else TOLOWER (digit_char d) - 97 + 10) = d.
Proof.
  intros Hd. assert (Hall : forallb (λ d, isxdigit (digit_char d) &&
      ((if isdigit (digit_char d) then digit_char d - 48 else TOLOWER (digit_char d) - 97 + 10) =? d)) (seqZ 0 16) = true)
    by (vm_compute; reflexivity).
  rewrite forallb_forall in Hall. specialize (Hall d). rewrite <- list_elem_of_In, elem_of_seqZ in Hall.
  specialize (Hall ltac:(lia)). apply andb_true_iff in Hall as [? ?%Z.eqb_eq]. done.
Qed.

Lemma strtoull_loop_digits base acc ds rest :
  0 < base ≤ 16 → Forall (λ d, 0 ≤ d < base) ds → isxdigit (chr rest) = false → 0 ≤ acc < 2 ^ 64 →
  strtoull_loop base acc ((digit_char <$> ds) ++ rest) = (u64 (foldl (λ acc d, acc * base + d) acc ds), rest).
Proof.
  intros Hb Hds Hrest Hacc. unfold u64. revert acc Hacc. induction Hds as [|d ds Hd Hds IH]; intros acc Hacc; simpl.
  - rewrite Z.mod_small by lia. destruct rest as [|c rest]; simpl in *; [done|]. by rewrite Hrest.
  - destruct (digit_char_spec d ltac:(lia)) as [-> ->]. rewrite Z.geb_leb. destruct (Z.leb_spec base d); [lia|].
    rewrite IH by (unfold u64; apply Z.mod_pos_bound; lia). f_equal. unfold u64.
    assert (Hmod : ∀ ds x, foldl (λ acc d, acc * base + d) (x mod 2 ^ 64) ds mod 2 ^ 64 =
                           foldl (λ acc d, acc * base + d) x ds mod 2 ^ 64); [|apply Hmod].
    clear. induction ds as [|d ds IH]; intros x; simpl; [by rewrite Z.mod_mod|].
    rewrite <- IH, <- (IH (x * base + d)). do 2 f_equal.
    rewrite <- Zplus_mod_idemp_l, Zmult_mod_idemp_l, Zplus_mod_idemp_l. done.
Qed.

(** A decimal number without leading zeros is read with base 10. *)
Lemma strtoull_decimal d ds rest :
  0 < d < 10 → Forall (λ d, 0 ≤ d < 10) ds → isxdigit (chr rest) = false →
  simple_strtoull ((digit_char <$> d :: ds) ++ rest) 0 = (u64 (digits_value 10 (d :: ds)), rest).
Proof.
  intros Hd Hds Hrest. unfold simple_strtoull, simple_guess_base, at_. cbn [fmap list_fmap nth app Z.eqb].
  assert (Hne : digit_char d =? 48 = false) by (unfold digit_char; zbool; lia). rewrite Hne.
  cbn [Z.eqb Pos.eqb andb]. apply (strtoull_loop_digits 10 0 (d :: ds) rest); [lia| |done|lia].
  constructor; [lia|done].
Qed.
