(* ===== verification/UserWakelock.v ===== *)
(** Wake locks of user space (kernel/power/userwakelock.c): locks that are
    created, taken and released by writing their names to two files of sysfs.

    The locks are kept in a red-black tree in the order of their names
    (RbTree.v); what is done with a lock is the business of the wake lock
    component, which is used through an interface, [LockService], implemented
    by the model of kernel/power/wakelock.c (Wakelock.v).  A [user_wake_lock] is
    identified by its address: the address of its tree node and of the wake
    lock inside it.  Whether kzalloc succeeds, and where, is an input. *)

From S2P Require Import Prelude KString RbTree Wakelock.

(** ** What the wake lock component promises *)

Class LockService (W E : Type) := {
  ls_inv : W → Prop;
  ls_usable : W → Z → Prop;      (* an initialised lock that prevents suspend *)
  ls_free : W → Z → Prop;        (* memory that holds no lock *)
  ls_active : W → Z → bool;
  ls_held : W → Z → option (option Z);   (* not held; held for good, or until a time *)
  ls_now : E → Z;                (* the time, in jiffies *)
  ls_init : W → Z → W;
  ls_lock : E → W → Z → option W;
  ls_lock_timeout : E → W → Z → Z → option W;
  ls_unlock : E → W → Z → option W;
  ls_active_held : ∀ w a, ls_active w a = true ↔ is_Some (ls_held w a);
  ls_init_ok : ∀ w a, ls_inv w → ls_free w a →
    ls_inv (ls_init w a) ∧ ls_usable (ls_init w a) a ∧ ∀ b, ls_usable w b → ls_usable (ls_init w a) b;
  ls_lock_ok : ∀ e w a, ls_inv w → ls_usable w a →
    ∃ w', ls_lock e w a = Some w' ∧ ls_inv w' ∧ (∀ b, ls_usable w b → ls_usable w' b) ∧ ls_held w' a = Some None;
  ls_lock_timeout_ok : ∀ e w a t, ls_inv w → ls_usable w a →
    ∃ w', ls_lock_timeout e w a t = Some w' ∧ ls_inv w' ∧ (∀ b, ls_usable w b → ls_usable w' b) ∧
      (0 < t < 2 ^ 31 → ls_held w' a = Some (Some (u32 (ls_now e + t))));
  ls_unlock_ok : ∀ e w a, ls_inv w → ls_usable w a →
    ∃ w', ls_unlock e w a = Some w' ∧ ls_inv w' ∧ (∀ b, ls_usable w b → ls_usable w' b) ∧ ls_held w' a = None }.

Definition NSEC_PER_SEC : Z := 1000000000.

(** ** Parsing *)

(** [while ( *arg && !isspace( *arg)) arg++] and [while (isspace( *arg)) arg++]. *)
Fixpoint skip_name (arg : list Z) : list Z :=
  match arg with
  | c :: rest => if ctrue c && negb (isspace c) then skip_name rest else arg
  | [] => []
  end.
Fixpoint skip_space (arg : list Z) : list Z :=
  match arg with c :: rest => if isspace c then skip_space rest else arg | [] => [] end.

(** The time-out, from nanoseconds to jiffies; [None] is [bad_arg]. *)
Definition parse_timeout (arg : list Z) : option Z :=
  let '(timeout, arg) := simple_strtoull arg 0 in
  let arg := skip_space arg in
  if ctrue (chr arg) then None
  else
    let timeout := u64 (timeout + (NSEC_PER_SEC / HZ - 1)) in
    let timeout := timeout / (NSEC_PER_SEC / HZ) in
    let timeout := if timeout <=? 0 then 1 else timeout in
    Some (s32 timeout).

(** The length of the name and the time-out. *)
Definition parse_args (buf : list Z) (timeoutptr : bool) : option (nat * Z) :=
  let arg := skip_name buf in
  let name_len := (length buf - length arg)%nat in
  if Nat.eqb name_len 0 then None
  else
    let arg := skip_space arg in
    if timeoutptr && ctrue (chr arg) then t ← parse_timeout arg; Some (name_len, t)
    else if ctrue (chr arg) then None
    else Some (name_len, 0).

Definition name_diff (buf : list Z) (name_len : nat) (name : list Z) : Z :=
  let diff := strncmp buf name name_len in
  if (diff =? 0) && ctrue (at_ name name_len) then -1 else diff.

Section user_wakelock.
Context {W E : Type} `{!LockService W E}.

Record user_locks := mk_uw { user_wake_locks : rb_mem; lock_name : gmap Z (list Z); service : W }.

(** ** Operations *)

(** The answer is a negative error, or the lock and the time-out. *)
Definition lookup_wake_lock_name (s : user_locks) (mem : option Z) (buf : list Z) (allocate timeoutptr : bool)
  : option (user_locks * (Z + Z * Z)) :=
  match parse_args buf timeoutptr with
  | None => Some (s, inl (- EINVAL))
  | Some (name_len, timeout) =>
      found ← rb_search (user_wake_locks s) (λ l, name ← lock_name s !! l; Some (name_diff buf name_len name));
      match found with
      | inl l => Some (s, inr (l, timeout))
      | inr (link, parent) =>
          if negb allocate then Some (s, inl (- EINVAL))
          else match mem with
               | None => Some (s, inl (- ENOMEM))
               | Some l =>
                   let names := <[l := take name_len buf]> (lock_name s) in
                   let w := ls_init (service s) l in
                   tr ← rb_link_node (user_wake_locks s) l parent link;
                   tr ← rb_insert_color tr l;
                   Some (mk_uw tr names w, inr (l, timeout))
               end
      end
  end.

Definition wake_lock_store (e : E) (s : user_locks) (mem : option Z) (buf : list Z) (n : Z) : option (user_locks * Z) :=
  '(s, r) ← lookup_wake_lock_name s mem buf true true;
  match r with
  | inl err => Some (s, err)
  | inr (l, timeout) =>
      w ← (if ctrue timeout then ls_lock_timeout e (service s) l timeout else ls_lock e (service s) l);
      Some (mk_uw (user_wake_locks s) (lock_name s) w, n)
  end.

Definition wake_unlock_store (e : E) (s : user_locks) (buf : list Z) (n : Z) : option (user_locks * Z) :=
  '(s, r) ← lookup_wake_lock_name s None buf false false;
  match r with
  | inl err => Some (s, err)
  | inr (l, _) =>
      w ← ls_unlock e (service s) l;
      Some (mk_uw (user_wake_locks s) (lock_name s) w, n)
  end.

(** [s += scnprintf(s, end - s, ...)]: what fits, with room for the NUL. *)
Definition scnprintf_append (out str : list Z) : list Z :=
  out ++ take (Z.to_nat (PAGE_SIZE - zlen out - 1)) str.

(** The loop over the tree; [want] says which locks are listed. *)
Fixpoint show_loop (fuel : nat) (s : user_locks) (want : bool) (n : Z) (out : list Z) : option (list Z) :=
  match fuel with
  | O => None
  | S fuel =>
      if ctrue n then
        name ← lock_name s !! n;
        let out := if Bool.eqb (ls_active (service s) n) want then scnprintf_append out (name ++ [32]) else out in
        n ← rb_next (user_wake_locks s) n;
        show_loop fuel s want n out
      else Some (scnprintf_append out [10])
  end.

Definition show (s : user_locks) (want : bool) : option (list Z) :=
  n ← rb_first (user_wake_locks s);
  show_loop (S (rb_fuel (user_wake_locks s))) s want n [].

Definition wake_lock_show (s : user_locks) : option (list Z) := show s true.
Definition wake_unlock_show (s : user_locks) : option (list Z) := show s false.

(** ** The specification: a map from names to locks *)

Definition name_of (s : user_locks) (a : Z) : list Z := default [] (lock_name s !! a).

(** The store [s] holds the tree [t] and stands for the map [M]. *)
Record uw_rel (s : user_locks) (t : tree) (M : gmap (list Z) Z) : Prop := {
  ur_rep : tree_rep (user_wake_locks s) t;
  ur_rb : rb_valid t;
  ur_names : ∀ a, a ∈ inorder t → ∃ n, lock_name s !! a = Some n ∧ cstring n;
  ur_sorted : StronglySorted (λ a b, lex (name_of s a) (name_of s b) < 0) (inorder t);
  ur_map : ∀ n a, M !! n = Some a ↔ a ∈ inorder t ∧ lock_name s !! a = Some n;
  ur_inv : ls_inv (service s);
  ur_usable : ∀ a, a ∈ inorder t → ls_usable (service s) a }.

(** Memory that kzalloc may return. *)
Definition mem_ok (s : user_locks) (mem : option Z) : Prop :=
  ∀ a, mem = Some a → addr a ∧ lock_name s !! a = None ∧ ls_free (service s) a.

(** A write to one of the two files. *)
Inductive uw_write := WakeLock (mem : option Z) (buf : list Z) | WakeUnlock (buf : list Z).

Definition uw_buf (op : uw_write) : list Z := match op with WakeLock _ buf | WakeUnlock buf => buf end.
Definition uw_mem (op : uw_write) : option Z := match op with WakeLock mem _ => mem | WakeUnlock _ => None end.

Definition uw_do (e : E) (s : user_locks) (op : uw_write) (n : Z) : option (user_locks * Z) :=
  match op with
  | WakeLock mem buf => wake_lock_store e s mem buf n
  | WakeUnlock buf => wake_unlock_store e s buf n
  end.

(** What a write does to the map, what it returns, and the lock it takes (with
    its time-out) or releases. *)
Definition uw_spec (M : gmap (list Z) Z) (op : uw_write) (n : Z) : gmap (list Z) Z * Z * option (Z * Z) :=
  match op with
  | WakeLock mem buf =>
      match parse_args buf true with
      | None => (M, - EINVAL, None)
      | Some (len, t) =>
          match M !! take len buf with
          | Some a => (M, n, Some (a, t))
          | None => match mem with
                    | None => (M, - ENOMEM, None)
                    | Some a => (<[take len buf := a]> M, n, Some (a, t))
                    end
          end
      end
  | WakeUnlock buf =>
      match parse_args buf false with
      | None => (M, - EINVAL, None)
      | Some (len, t) =>
          match M !! take len buf with Some a => (M, n, Some (a, t)) | None => (M, - EINVAL, None) end
      end
  end.

(** ** Lemmas *)

Lemma skip_name_prefix buf : ∃ key, buf = key ++ skip_name buf.
Proof.
  induction buf as [|c buf [key IH]]; simpl; [by exists []|].
  destruct (_ && _); [exists (c :: key); simpl; by rewrite <- IH|by exists []].
Qed.

(** The name is the beginning of the buffer. *)
Lemma parse_args_name buf tp len t :
  parse_args buf tp = Some (len, t) → cstring buf →
  ∃ rest, buf = take len buf ++ rest ∧ length (take len buf) = len ∧ cstring (take len buf).
Proof.
  intros Hp Hc. assert (Hlen : len = (length buf - length (skip_name buf))%nat).
  { unfold parse_args in Hp. destruct (Nat.eqb _ 0); [done|]. destruct (tp && _).
    - destruct (parse_timeout _); [|done]. by simplify_eq/=.
    - destruct (ctrue _); [done|]. by simplify_eq/=. }
  destruct (skip_name_prefix buf) as [key Hkey]. exists (skip_name buf).
  assert (Hl : len = length key) by (apply (f_equal length) in Hkey; rewrite length_app in Hkey; lia).
  assert (Ht : take len buf = key) by (rewrite Hkey, Hl; apply take_app_length).
  rewrite Ht. split; [done|]. split; [done|]. unfold cstring in *. rewrite Hkey in Hc. by apply Forall_app in Hc as [? _].
Qed.

(** The tree is in the order of any name that is looked up. *)
Lemma uw_descending s t M buf tp len tm :
  uw_rel s t M → cstring buf → parse_args buf tp = Some (len, tm) →
  descending (λ l, name ← lock_name s !! l; Some (name_diff buf len name))
    (λ a, lex (take len buf) (name_of s a)) (inorder t).
Proof.
  intros Hrel Hc Hp. destruct (parse_args_name _ _ _ _ Hp Hc) as (rest & Hbuf & Hlen & Hk). split.
  - apply Forall_forall. intros a Ha. destruct (ur_names _ _ _ Hrel a Ha) as (n & Hn & Hcn).
    unfold name_of. rewrite Hn. cbn [mbind option_bind]. f_equal. change (default [] (Some n)) with n.
    rewrite <- (strncmp_lex _ rest _ Hk Hcn), <- Hbuf, Hlen. done.
  - eapply StronglySorted_impl; [|exact (ur_sorted _ _ _ Hrel)]. simpl. intros x y _ _ Hxy Hle. by eapply lex_trans.
Qed.

Lemma lookup_absent s t M l1 l2 key :
  uw_rel s t M → inorder t = l1 ++ l2 → Forall (λ y, 0 < lex key (name_of s y)) l1 →
  Forall (λ y, lex key (name_of s y) < 0) l2 → M !! key = None.
Proof.
  intros Hrel Hin H1 H2. destruct (M !! key) as [a|] eqn:Hm; [|done]. apply (ur_map _ _ _ Hrel) in Hm as [Ha Hn].
  rewrite Hin in Ha. rewrite Forall_forall in H1, H2. unfold name_of in *.
  apply elem_of_app in Ha as [Ha|Ha]; [specialize (H1 a Ha)|specialize (H2 a Ha)]; rewrite Hn in *; simpl in *;
    rewrite lex_refl in *; lia.
Qed.

Lemma name_of_insert s tr w a n x :
  x ≠ a → name_of (mk_uw tr (<[a := n]> (lock_name s)) w) x = name_of s x.
Proof. intros Hne. unfold name_of. simpl. by rewrite lookup_insert_ne. Qed.

(** A new lock between the smaller and the greater names. *)
Lemma uw_rel_insert s t M tr' t' l1 l2 a key w :
  uw_rel s t M → inorder t = l1 ++ l2 → inorder t' = l1 ++ a :: l2 → tree_rep tr' t' → rb_valid t' →
  Forall (λ y, 0 < lex key (name_of s y)) l1 → Forall (λ y, lex key (name_of s y) < 0) l2 →
  lock_name s !! a = None → cstring key → ls_inv w → ls_usable w a → (∀ b, ls_usable (service s) b → ls_usable w b) →
  uw_rel (mk_uw tr' (<[a := key]> (lock_name s)) w) t' (<[key := a]> M).
Proof.
  intros Hrel Hin Hin' Hrep Hv H1 H2 Hfree Hck Hw Hu Hpres.
  assert (Hmem : ∀ x, x ∈ inorder t' ↔ x = a ∨ x ∈ inorder t) by (intros x; rewrite Hin, Hin'; set_solver).
  assert (Ha : a ∉ inorder t) by (intros Ha; destruct (ur_names _ _ _ Hrel a Ha) as (? & ? & _); congruence).
  assert (Hna : name_of (mk_uw tr' (<[a := key]> (lock_name s)) w) a = key) by (unfold name_of; simpl; by rewrite lookup_insert_eq).
  assert (Hno : ∀ x, x ∈ l1 ++ l2 → name_of (mk_uw tr' (<[a := key]> (lock_name s)) w) x = name_of s x).
  { intros x Hx. apply name_of_insert. intros ->. rewrite Hin in Ha. done. }
  pose proof (lookup_absent _ _ _ _ _ _ Hrel Hin H1 H2) as Hnone.
  split; try done.
  - intros x [->|Hx]%Hmem; simpl; [exists key; by rewrite lookup_insert_eq|].
    destruct (ur_names _ _ _ Hrel x Hx) as (n & ? & ?). exists n. rewrite lookup_insert_ne by (by intros ->). done.
  - rewrite Hin'. pose proof (ur_sorted _ _ _ Hrel) as Hs. rewrite Hin in Hs.
    apply StronglySorted_app in Hs as (Hc & Hs1 & Hs2). rewrite Forall_forall in H1, H2.
    apply StronglySorted_app. split_and!.
    + intros x y Hx [->|Hy]%elem_of_cons; rewrite (Hno x) by set_solver.
      * rewrite Hna, lex_flip. specialize (H1 x Hx). lia.
      * rewrite Hno by set_solver. auto.
    + eapply StronglySorted_impl; [|exact Hs1]. intros x y Hx Hy. simpl. by rewrite !Hno by set_solver.
    + constructor.
      * eapply StronglySorted_impl; [|exact Hs2]. intros x y Hx Hy. simpl. by rewrite !Hno by set_solver.
      * apply Forall_forall. intros y Hy. rewrite Hna, Hno by set_solver. auto.
  - intros n x. rewrite Hmem. simpl. destruct (decide (n = key)) as [->|Hn].
    + rewrite lookup_insert_eq. split.
      * intros [= ->]. rewrite lookup_insert_eq. auto.
      * intros [[->|Hx] Hl]; [done|]. rewrite lookup_insert_ne in Hl by (by intros ->).
        assert (M !! key = Some x) by (by apply (ur_map _ _ _ Hrel)). congruence.
    + rewrite lookup_insert_ne by done. rewrite (ur_map _ _ _ Hrel). split.
      * intros [Hx Hl]. rewrite lookup_insert_ne by (by intros ->). auto.
      * intros [[->|Hx] Hl]; [rewrite lookup_insert_eq in Hl; congruence|].
        rewrite lookup_insert_ne in Hl by (by intros ->). auto.
  - intros x [->|Hx]%Hmem; simpl; [done|]. apply Hpres. by apply (ur_usable _ _ _ Hrel).
Qed.

(** What a lookup finds. *)
Lemma lookup_spec s t M mem buf allocate tp :
  uw_rel s t M → mem_ok s mem → cstring buf →
  match parse_args buf tp with
  | None => lookup_wake_lock_name s mem buf allocate tp = Some (s, inl (- EINVAL))
  | Some (len, tm) =>
      match M !! take len buf with
      | Some a => lookup_wake_lock_name s mem buf allocate tp = Some (s, inr (a, tm)) ∧ a ∈ inorder t
      | None =>
          if allocate then
            match mem with
            | None => lookup_wake_lock_name s mem buf allocate tp = Some (s, inl (- ENOMEM))
            | Some a => ∃ s' t', lookup_wake_lock_name s mem buf allocate tp = Some (s', inr (a, tm)) ∧
                uw_rel s' t' (<[take len buf := a]> M) ∧ a ∈ inorder t'
            end
          else lookup_wake_lock_name s mem buf allocate tp = Some (s, inl (- EINVAL))
      end
  end.
Proof.
  intros Hrel Hmem Hc. unfold lookup_wake_lock_name. destruct (parse_args buf tp) as [[len tm]|] eqn:Hp; [|done].
  pose proof (uw_descending _ _ _ _ _ _ _ Hrel Hc Hp) as Hd.
  destruct (rb_search_spec _ _ _ _ (ur_rep _ _ _ Hrel) Hd) as [(a & -> & Ha & H0)|(k & -> & Hk & H1 & H2)];
    cbn [mbind option_bind].
  - destruct (ur_names _ _ _ Hrel a Ha) as (n & Hn & Hcn). unfold name_of in H0. rewrite Hn in H0. simpl in H0.
    apply lex_eq in H0. assert (M !! take len buf = Some a) as -> by (apply (ur_map _ _ _ Hrel); by rewrite H0). done.
  - assert (Hin : inorder t = ctx_l k ++ ctx_r k) by (rewrite <- Hk; by inorder).
    rewrite (lookup_absent _ _ _ _ _ _ Hrel Hin H1 H2). destruct allocate; [|done]. cbn [negb].
    destruct mem as [a|]; [|done]. destruct (Hmem a eq_refl) as (Haddr & Hfree & Hls).
    assert (Hnew : a ∉ inorder t) by (intros Ha; destruct (ur_names _ _ _ Hrel a Ha) as (? & ? & _); congruence).
    pose proof (ur_rep _ _ _ Hrel) as Hrep. pose proof (ur_rb _ _ _ Hrel) as Hv. rewrite <- Hk in Hrep, Hv, Hnew.
    destruct (rb_insert_spec _ k a Hrep Hv Haddr Hnew) as (s1 & s2 & t' & -> & Hrun2 & Hrep2 & Hv2 & Hin2 & _).
    cbn [mbind option_bind]. rewrite Hrun2. cbn [mbind option_bind].
    destruct (ls_init_ok (service s) a (ur_inv _ _ _ Hrel) Hls) as (Hi1 & Hi2 & Hi3).
    eexists _, t'. split; [done|]. destruct (parse_args_name _ _ _ _ Hp Hc) as (rest & _ & _ & Hck).
    split; [by eapply uw_rel_insert|rewrite Hin2; set_solver].
Qed.

Lemma uw_rel_service s t M w :
  uw_rel s t M → ls_inv w → (∀ b, ls_usable (service s) b → ls_usable w b) →
  uw_rel (mk_uw (user_wake_locks s) (lock_name s) w) t M.
Proof. intros [] Hw Hp. split; simpl; auto. Qed.

(** C17: The files refine a map from names to locks.  A write to either file
    always returns; its answer and its effect on the set of locks are those of
    the map: an argument that cannot be parsed is -EINVAL, wake_lock finds the
    lock with exactly the name written or creates it (or fails with -ENOMEM,
    without effect), wake_unlock finds it or is -EINVAL.  The lock found is
    released, or taken: for good if no time-out is given, and otherwise until
    exactly that many jiffies from now, if the number of jiffies is positive as a
    32-bit integer (of other time-outs nothing is claimed about the lock).  The
    tree stays a red-black tree in the order of the names with one lock for each. *)
Theorem user_wakelock_refines e s t M op n :
  uw_rel s t M → mem_ok s (uw_mem op) → cstring (uw_buf op) →
  ∃ s' t', uw_do e s op n = Some (s', (uw_spec M op n).1.2) ∧ uw_rel s' t' (uw_spec M op n).1.1 ∧
    match (uw_spec M op n).2, op with
    | None, _ => s' = s
    | Some (a, timeout), WakeLock _ _ =>
        (timeout = 0 → ls_held (service s') a = Some None) ∧
        (0 < timeout < 2 ^ 31 → ls_held (service s') a = Some (Some (u32 (ls_now e + timeout))))
    | Some (a, _), WakeUnlock _ => ls_held (service s') a = None
    end.
Proof.
  intros Hrel Hmem Hc. destruct op as [mem buf|buf]; simpl in Hmem, Hc.
  - pose proof (lookup_spec s t M mem buf true true Hrel Hmem Hc) as Hlook.
    simpl. unfold wake_lock_store. destruct (parse_args buf true) as [[len tm]|]; simpl in *.
    2:{ rewrite Hlook. by exists s, t. }
    assert (Hend : ∀ s1 t1 M1 a, uw_rel s1 t1 M1 → a ∈ inorder t1 → ∃ s' t',
      (w ← (if ctrue tm then ls_lock_timeout e (service s1) a tm else ls_lock e (service s1) a);
       Some (mk_uw (user_wake_locks s1) (lock_name s1) w, n)) = Some (s', n) ∧ uw_rel s' t' M1 ∧
      ((tm = 0 → ls_held (service s') a = Some None) ∧
       (0 < tm < 2 ^ 31 → ls_held (service s') a = Some (Some (u32 (ls_now e + tm)))))).
    { intros s1 t1 M1 a Hr1 Ha. pose proof (ur_inv _ _ _ Hr1) as Hi. pose proof (ur_usable _ _ _ Hr1 a Ha) as Hu.
      unfold ctrue. destruct (Z.eqb_spec tm 0) as [->|Hne]; cbn [negb].
      - destruct (ls_lock_ok e _ a Hi Hu) as (w & -> & ? & ? & ?). eexists _, t1. split; [done|].
        split; [by apply uw_rel_service|]. split; [done|lia].
      - destruct (ls_lock_timeout_ok e _ a tm Hi Hu) as (w & -> & ? & ? & Hact). eexists _, t1. split; [done|].
        split; [by apply uw_rel_service|done]. }
    destruct (M !! take len buf) as [a|].
    + destruct Hlook as [-> Ha]. simpl. by eapply Hend.
    + destruct mem as [a|]; [|rewrite Hlook; by exists s, t]. destruct Hlook as (s1 & t1 & -> & Hr1 & Ha). simpl.
      by eapply Hend.
  - pose proof (lookup_spec s t M None buf false false Hrel Hmem Hc) as Hlook.
    simpl. unfold wake_unlock_store. destruct (parse_args buf false) as [[len tm]|]; simpl in *.
    2:{ rewrite Hlook. by exists s, t. }
    destruct (M !! take len buf) as [a|]; [|rewrite Hlook; by exists s, t].
    destruct Hlook as [-> Ha]. simpl.
    destruct (ls_unlock_ok e (service s) a (ur_inv _ _ _ Hrel) (ur_usable _ _ _ Hrel a Ha)) as (w & -> & ? & ? & ?).
    eexists _, t. split; [done|]. split; [by apply uw_rel_service|done].
Qed.

(** ** Listing the locks *)

Definition listing (s : user_locks) (want : bool) (l : list Z) : list Z :=
  concat ((λ a, name_of s a ++ [32]) <$> filter (λ a, ls_active (service s) a = want) l).

Lemma scnprintf_append_take X str :
  scnprintf_append (take (Z.to_nat (PAGE_SIZE - 1)) X) str = take (Z.to_nat (PAGE_SIZE - 1)) (X ++ str).
Proof.
  unfold scnprintf_append, PAGE_SIZE, zlen. rewrite take_app, length_take. f_equal. f_equal. lia.
Qed.

Lemma show_loop_spec s t M want l1 l2 X fuel :
  uw_rel s t M → inorder t = l1 ++ l2 → (length l2 < fuel)%nat →
  show_loop fuel s want (default 0 (head l2)) (take (Z.to_nat (PAGE_SIZE - 1)) X) =
  Some (take (Z.to_nat (PAGE_SIZE - 1)) (X ++ listing s want l2 ++ [10])).
Proof.
  intros Hrel. revert l1 X fuel. induction l2 as [|a l2 IH]; intros l1 X [|fuel] Hin Hf; simpl in Hf; try lia.
  - simpl. f_equal. apply scnprintf_append_take.
  - assert (Ha : a ∈ inorder t) by (rewrite Hin; set_solver).
    destruct (rep_addr _ _ _ _ (tr_rep _ _ (ur_rep _ _ _ Hrel)) Ha) as [Hpos _].
    destruct (ur_names _ _ _ Hrel a Ha) as (nm & Hnm & _).
    change (default 0 (head (a :: l2))) with a. cbn [show_loop]. unfold ctrue.
    destruct (Z.eqb_spec a 0); [lia|]. cbn [negb]. rewrite Hnm. cbn [mbind option_bind].
    rewrite (rb_next_spec _ _ _ _ _ (ur_rep _ _ _ Hrel) Hin). cbn [mbind option_bind].
    assert (Hno : name_of s a = nm) by (unfold name_of; by rewrite Hnm).
    assert (Hin' : inorder t = (l1 ++ [a]) ++ l2) by (rewrite Hin, <- app_assoc; done).
    unfold listing. rewrite filter_cons. destruct (ls_active (service s) a) eqn:Hact, want; simpl Bool.eqb; cbv iota.
    1,4: rewrite decide_True by done; rewrite scnprintf_append_take, (IH _ _ _ Hin') by lia;
      unfold listing; simpl; rewrite Hno; by rewrite <- !app_assoc.
    1,2: rewrite decide_False by done; by rewrite (IH _ _ _ Hin') by lia.
Qed.

(** Reading the files.  The file wake_lock lists the names of the locks
    that are active, wake_unlock of those that are not, in the order of the
    names, each followed by a blank, with a newline at the end; cut off after
    4095 bytes. *)
Theorem user_wakelock_show s t M :
  uw_rel s t M →
  wake_lock_show s = Some (take 4095 (listing s true (inorder t) ++ [10])) ∧
  wake_unlock_show s = Some (take 4095 (listing s false (inorder t) ++ [10])).
Proof.
  intros Hrel. assert (Hall : ∀ want, show s want = Some (take 4095 (listing s want (inorder t) ++ [10])));
    [|split; apply Hall].
  intros want. unfold show. rewrite (rb_first_spec _ _ (ur_rep _ _ _ Hrel)). cbn [mbind option_bind].
  pose proof (tree_rep_size _ _ (ur_rep _ _ _ Hrel)).
  apply (show_loop_spec s t M want [] (inorder t) []); [done|done|]. unfold rb_fuel. lia.
Qed.
End user_wakelock.

Arguments user_locks W : clear implicits.

(** ** Time-outs *)

Lemma skip_name_app name rest :
  Forall (λ c, ctrue c = true ∧ isspace c = false) name → (ctrue (chr rest) && negb (isspace (chr rest)) = false) →
  skip_name (name ++ rest) = rest.
Proof.
  intros Hn Hr. induction Hn as [|c name [Hc Hs] _ IH]; simpl.
  - destruct rest as [|c rest]; simpl in *; [done|]. by rewrite Hr.
  - by rewrite Hc, Hs.
Qed.

(** The time-out.  A name, a blank and a decimal number of nanoseconds are
    parsed into that name and the number of jiffies that covers them, rounded
    up and at least one, as long as the number of jiffies fits into a long. *)
Theorem user_wakelock_timeout name d ds :
  name ≠ [] → Forall (λ c, 0 < c < 256 ∧ isspace c = false) name → 0 < d < 10 → Forall (λ d, 0 ≤ d < 10) ds →
  digits_value 10 (d :: ds) ≤ (2 ^ 31 - 1) * 10000000 →
  parse_args (name ++ 32 :: (digit_char <$> d :: ds)) true =
    Some (length name, (digits_value 10 (d :: ds) + 9999999) / 10000000).
Proof.
  intros Hne Hname Hd Hds Hv. set (v := digits_value 10 (d :: ds)) in *.
  assert (Hpos : 1 ≤ v).
  { unfold v, digits_value. simpl. assert (Hge : ∀ ds acc, Forall (λ d, 0 ≤ d < 10) ds → 1 ≤ acc →
      1 ≤ foldl (λ acc d, acc * 10 + d) acc ds); [|apply Hge; [done|lia]].
    clear. induction ds as [|x ds IH]; intros acc Hf Hacc; simpl; [done|]. inversion Hf; subst. apply IH; [done|lia]. }
  assert (Hskip : skip_name (name ++ 32 :: (digit_char <$> d :: ds)) = 32 :: (digit_char <$> d :: ds)).
  { apply skip_name_app; [|done]. eapply Forall_impl; [exact Hname|]. intros c [Hc Hs]. split; [|done].
    unfold ctrue. by destruct (Z.eqb_spec c 0); [lia|]. }
  assert (Hdig : isspace (digit_char d) = false ∧ ctrue (digit_char d) = true).
  { assert (Hall : forallb (λ d, negb (isspace (digit_char d)) && ctrue (digit_char d)) (seqZ 0 10) = true) by (vm_compute; reflexivity).
    rewrite forallb_forall in Hall. specialize (Hall d). rewrite <- list_elem_of_In, elem_of_seqZ in Hall.
    specialize (Hall ltac:(lia)). apply andb_true_iff in Hall as [?%negb_true_iff ?]. done. }
  destruct Hdig as [Hds1 Hds2]. unfold parse_args. rewrite Hskip, length_app.
  replace (length name + _ - _)%nat with (length name) by lia.
  destruct name as [|c name]; [done|]. cbn [length Nat.eqb]. cbn [skip_space]. change (isspace 32) with true. cbv iota.
  cbn [fmap list_fmap skip_space]. rewrite Hds1. cbn [chr]. rewrite Hds2. cbn [andb].
  unfold parse_timeout. pose proof (strtoull_decimal d ds [] Hd Hds ltac:(done)) as Hs. rewrite app_nil_r in Hs.
  cbn [fmap list_fmap] in Hs. rewrite Hs. cbn [skip_space chr]. change (ctrue 0) with false. cbv iota.
  fold v. unfold u64. rewrite (Z.mod_small v) by lia. change (NSEC_PER_SEC / HZ) with 10000000.
  rewrite Z.mod_small by lia. replace (v + (10000000 - 1)) with (v + 9999999) by lia.
  assert (Hq : 1 ≤ (v + 9999999) / 10000000 ≤ 2 ^ 31 - 1).
  { split; [apply Z.div_le_lower_bound; lia|]. apply Z.lt_succ_r. apply Z.div_lt_upper_bound; lia. }
  destruct (Z.leb_spec ((v + 9999999) / 10000000) 0); [lia|]. cbn [mbind option_bind]. by rewrite s32_small by lia.
Qed.

(** ** The wake lock component keeps its promise *)

Definition usable (s : wl_state) (a : Z) : Prop :=
  ∃ c, cores s !! a = Some c ∧ c_init c = true ∧ c_type c = WAKE_LOCK_SUSPEND.

Lemma usable_kind s s' a : usable s a → same_kind (shape_of s) (shape_of s') → usable s' a.
Proof. intros (c & Hc & Hi & Ht) Hk. destruct (Hk a c Hc) as (c' & ? & ? & ?). exists c'. split_and!; [done|congruence..]. Qed.

Lemma usable_lock s a :
  usable s a → ∃ l, locks s !! a = Some l ∧ has_flag l WAKE_LOCK_INITIALIZED = true ∧ lock_type l = 0.
Proof.
  intros (c & Hc & Hi & Ht). unfold cores in Hc. rewrite lookup_fmap in Hc. destruct (locks s !! a) as [l|]; [|done].
  simpl in Hc. injection Hc as <-. by exists l.
Qed.

Definition held_until (s : wl_state) (a : Z) : option (option Z) :=
  l ← locks s !! a;
  if has_flag l WAKE_LOCK_ACTIVE then Some (if has_flag l WAKE_LOCK_AUTO_EXPIRE then Some (expires l) else None) else None.

Lemma wake_lock_active_held s a : wake_lock_active s a = true ↔ is_Some (held_until s a).
Proof.
  unfold wake_lock_active, held_until. destruct (locks s !! a) as [l|]; simpl; [destruct (has_flag l WAKE_LOCK_ACTIVE)|];
    (split; [intros [=]|intros [? [=]]]; eauto).
Qed.

Lemma service_lock_ok e s a timeout ht :
  wl_ok s → usable s a →
  ∃ s', wake_lock_internal e s a timeout ht = Some s' ∧ wl_ok s' ∧ (∀ b, usable s b → usable s' b) ∧
    ((ht = true → 0 < timeout < 2 ^ 31) → held_until s' a = Some (if ht then Some (u32 (jiffies e + timeout)) else None)).
Proof.
  intros (H1 & H2 & H3) (l & Hl & Hi & Ht)%usable_lock.
  destruct (wake_lock_internal_ok e s a l timeout ht) as (s' & Hrun & Hok & _ & Hk & Hc); try done; [by left|].
  exists s'. split; [done|]. split; [done|]. split; [intros; by eapply usable_kind|].
  intros Htm. specialize (Hc Htm). unfold cores in Hc. rewrite lookup_fmap in Hc. unfold held_until.
  destruct (locks s' !! a) as [l'|]; [|done]. simpl in *. injection Hc as _ _ Hact Hauto Hexp.
  rewrite Hact, Hauto. destruct ht; [by rewrite Hexp|done].
Qed.

Lemma service_unlock_ok e s a :
  wl_ok s → usable s a →
  ∃ s', wake_unlock e s a = Some s' ∧ wl_ok s' ∧ (∀ b, usable s b → usable s' b) ∧ held_until s' a = None.
Proof.
  intros Hok (l & Hl & Hi & Ht)%usable_lock.
  destruct (wake_unlock_ok e s a l Hok Hl Hi ltac:(by left)) as (s' & Hrun & Hok' & _ & Hk & Ha).
  exists s'. split_and!; try done; [intros; by eapply usable_kind|].
  destruct (held_until s' a) eqn:E; [|done]. assert (wake_lock_active s' a = true) by (apply wake_lock_active_held; by rewrite E). congruence.
Qed.

Lemma service_init_ok s a :
  wl_ok s → ¬ initialised s a →
  wl_ok (wake_lock_init s a WAKE_LOCK_SUSPEND) ∧ usable (wake_lock_init s a WAKE_LOCK_SUSPEND) a ∧
  ∀ b, usable s b → usable (wake_lock_init s a WAKE_LOCK_SUSPEND) b.
Proof.
  intros Hok Hni. split; [|split].
  - apply wake_lock_init_ok; [done|by left|]. intros c Hc. unfold cores in Hc. rewrite lookup_fmap in Hc.
    destruct (locks s !! a) as [l|] eqn:Hl; [|done]. simpl in Hc. injection Hc as <-. simpl.
    destruct (has_flag l WAKE_LOCK_INITIALIZED) eqn:E; [|done]. destruct Hni. by exists l.
  - unfold usable, cores, wake_lock_init. simpl. rewrite lookup_fmap, lookup_insert_eq. by eexists.
  - intros b Hb. destruct (decide (b = a)) as [->|Hne].
    + apply usable_lock in Hb as (l & Hl & Hi & _). destruct Hni. by exists l.
    + destruct Hb as (c & Hc & ?). exists c. unfold cores, wake_lock_init in *. simpl.
      rewrite lookup_fmap, lookup_insert_ne in * by done. done.
Qed.

#[global] Program Instance wakelock_service : LockService wl_state Wakelock.env := {|
  ls_inv := wl_ok;
  ls_usable := usable;
  ls_free s a := ¬ initialised s a;
  ls_active := wake_lock_active;
  ls_held := held_until;
  ls_now := jiffies;
  ls_init s a := wake_lock_init s a WAKE_LOCK_SUSPEND;
  ls_lock := wake_lock_;
  ls_lock_timeout := wake_lock_timeout;
  ls_unlock := wake_unlock |}.
Next Obligation. apply wake_lock_active_held. Qed.
Next Obligation. apply service_init_ok. Qed.
Next Obligation.
  intros e w a Hi Hu. destruct (service_lock_ok e w a 0 false Hi Hu) as (w' & ? & ? & ? & Hact).
  exists w'. split_and!; try done. by apply Hact.
Qed.
Next Obligation.
  intros e w a t Hi Hu. destruct (service_lock_ok e w a t true Hi Hu) as (w' & ? & ? & ? & Hact).
  exists w'. split_and!; try done. intros. by apply Hact.
Qed.
Next Obligation. apply service_unlock_ok. Qed.

(** ** Examples *)

Definition uw_boot : user_locks wl_state := mk_uw (mk_mem ∅ 0) ∅ boot.

Lemma boot_wl_ok : wl_ok boot.
Proof.
  destruct (wakelocks_init_ok Wakelock.example_env) as (s & Heq & Hok).
  assert (s = boot) as <-; [|done]. unfold boot. by rewrite Heq.
Qed.

Lemma uw_boot_rel : uw_rel uw_boot Leaf ∅.
Proof.
  assert (Hno : ∀ a : Z, a ∉ inorder Leaf) by (intros a; apply not_elem_of_nil).
  split.
  - by split; [|constructor..].
  - exists 0%nat. constructor.
  - intros a []%Hno.
  - constructor.
  - intros n a. rewrite lookup_empty. split; [done|]. intros [[]%Hno _].
  - exact boot_wl_ok.
  - intros a []%Hno.
Qed.

(** "kbd 70000001" and "kbd". *)
Definition kbd_timeout : list Z := [107; 98; 100; 32; 55; 48; 48; 48; 48; 48; 48; 49].
Definition kbd : list Z := [107; 98; 100].
Lemma user_wakelock_refines_witness :
  ∃ s' t', uw_do Wakelock.example_env uw_boot (WakeLock (Some 64) kbd_timeout) 12 = Some (s', 12) ∧
    uw_rel s' t' {[ kbd := 64 ]} ∧ held_until (service s') 64 = Some (Some (u32 (jiffies Wakelock.example_env + 8))).
Proof.
  destruct (user_wakelock_refines Wakelock.example_env uw_boot Leaf ∅ (WakeLock (Some 64) kbd_timeout) 12)
    as (s' & t' & H1 & H2 & H3).
  - exact uw_boot_rel.
  - intros a [= <-]. split; [split; [lia|apply Z.mod_divide; [lia|reflexivity]]|].
    split; [reflexivity|]. intros (l & Hl & _). vm_compute in Hl. discriminate.
  - repeat constructor; lia.
  - assert (Heq : uw_spec ∅ (WakeLock (Some 64) kbd_timeout) 12 = ({[ kbd := 64 ]}, 12, Some (64, 8)))
      by (vm_compute; reflexivity).
    rewrite Heq in H1, H2, H3. exists s', t'. split; [exact H1|]. split; [exact H2|]. apply H3. lia.
Defined.

Lemma user_wakelock_show_witness : wake_lock_show uw_boot = Some [10] ∧ wake_unlock_show uw_boot = Some [10].
Proof. exact (user_wakelock_show uw_boot Leaf ∅ uw_boot_rel). Defined.

Lemma user_wakelock_timeout_witness : parse_args kbd_timeout true = Some (3%nat, 8).
Proof.
  exact (user_wakelock_timeout kbd 7 [0; 0; 0; 0; 0; 0; 1] ltac:(discriminate)
    ltac:(repeat constructor) ltac:(lia) ltac:(repeat constructor; lia) ltac:(vm_compute; discriminate)).
Defined.

(** "a 42949672960000000": a time-out of 2^32 jiffies. *)
Definition long_timeout : list Z :=
  [97; 32; 52; 50; 57; 52; 57; 54; 55; 50; 57; 54; 48; 48; 48; 48; 48; 48; 48].

(** A time-out of 2^32 jiffies is stored into a long of 32 bits
    and becomes 0, which means no time-out: the lock is taken for good and
    keeps the system awake although the user asked for a time-out. *)
Theorem user_wakelock_timeout_lost :
  ∃ s' l, wake_lock_store Wakelock.example_env uw_boot (Some 64) long_timeout 19 = Some (s', 19) ∧
    locks (service s') !! 64 = Some l ∧ has_flag l WAKE_LOCK_ACTIVE = true ∧
    has_flag l WAKE_LOCK_AUTO_EXPIRE = false.
Proof. eexists _, _. split; [vm_compute; reflexivity|]. vm_compute. done. Qed.
