(* ===== verification/BinderAlloc.v ===== *)
(** The buffer allocator of binder (drivers/staging/android/binder.c): the area
    a process maps to receive transactions, its division into buffers, the two
    red-black trees over them (free buffers by size, allocated ones by address),
    the pages behind the area, and the budget of asynchronous transactions.

    The headers of the buffers lie in the area itself: a header can be read or
    written only while its pages are mapped into the kernel ([bufp]), and the
    fields of a header that nobody has written yet hold whatever the memory
    held ([junk]).  The list [proc->buffers] is a list of addresses; the trees
    are those of RbTree.v.  Every operation runs under [binder_lock].  [None]
    is a BUG_ON or a kernel fault; the theorems show that there is none.

    The page services (alloc_page, map_vm_area, insert_page, get_task_mm) may
    fail at any call; that they do is an input ([mm_env]). *)

From S2P Require Import Prelude RbTree RbErase.

(** ** Data *)

(** [sizeof(struct binder_buffer)], which is also the offset of [data]: a list
    head, a tree node, the word of bit fields, two pointers, two sizes. *)
Definition HDR : Z := 8 + 12 + 4 + 2 * 4 + 2 * 4.

Definition SZ_4M : Z := 0x400000.
Definition VM_DONTCOPY : Z := 0x20000.
Definition FORBIDDEN_MMAP_FLAGS : Z := VM_WRITE.

Record binder_buffer := mk_buf {
  free : bool;
  allow_user_free : bool;
  async_transaction : bool;
  debug_id : Z;
  transaction : Z;
  target_node : Z;
  data_size : Z;
  offsets_size : Z }.

Record vm_area_struct := mk_vma { vm_start : Z; vm_end : Z; vm_flags : Z }.

(** The part of [struct binder_proc] that describes the area, the contents of
    the area's headers, the kernel's and the user's page tables for it (page
    address to page) and whether the task still has an address space. *)
Record binder_proc := mk_proc {
  vma : option vm_area_struct;
  buffer : Z;
  user_buffer_offset : Z;
  buffers : list Z;
  free_buffers : rb_mem;
  allocated_buffers : rb_mem;
  free_async_space : Z;
  pages : gmap Z Z;
  buffer_size : Z;
  hdrs : gmap Z binder_buffer;
  kmap : gmap Z Z;
  umap : gmap Z Z;
  task_mm : bool }.

(** The answers of the page services, by address, and the contents of memory
    that has not been written as a header. *)
Record mm_env := mk_env {
  alloc_page : Z → option Z;
  map_vm_area : Z → bool;
  insert_page : Z → bool;
  junk : Z → binder_buffer }.

Definition set_buffers (p : binder_proc) (l : list Z) : binder_proc :=
  mk_proc (vma p) (buffer p) (user_buffer_offset p) l (free_buffers p) (allocated_buffers p)
    (free_async_space p) (pages p) (buffer_size p) (hdrs p) (kmap p) (umap p) (task_mm p).
Definition set_free_buffers (p : binder_proc) (t : rb_mem) : binder_proc :=
  mk_proc (vma p) (buffer p) (user_buffer_offset p) (buffers p) t (allocated_buffers p)
    (free_async_space p) (pages p) (buffer_size p) (hdrs p) (kmap p) (umap p) (task_mm p).
Definition set_allocated_buffers (p : binder_proc) (t : rb_mem) : binder_proc :=
  mk_proc (vma p) (buffer p) (user_buffer_offset p) (buffers p) (free_buffers p) t
    (free_async_space p) (pages p) (buffer_size p) (hdrs p) (kmap p) (umap p) (task_mm p).
Definition set_async (p : binder_proc) (x : Z) : binder_proc :=
  mk_proc (vma p) (buffer p) (user_buffer_offset p) (buffers p) (free_buffers p) (allocated_buffers p)
    x (pages p) (buffer_size p) (hdrs p) (kmap p) (umap p) (task_mm p).
Definition set_hdrs (p : binder_proc) (h : gmap Z binder_buffer) : binder_proc :=
  mk_proc (vma p) (buffer p) (user_buffer_offset p) (buffers p) (free_buffers p) (allocated_buffers p)
    (free_async_space p) (pages p) (buffer_size p) h (kmap p) (umap p) (task_mm p).
Definition set_maps (p : binder_proc) (pg k u : gmap Z Z) : binder_proc :=
  mk_proc (vma p) (buffer p) (user_buffer_offset p) (buffers p) (free_buffers p) (allocated_buffers p)
    (free_async_space p) pg (buffer_size p) (hdrs p) k u (task_mm p).
Definition set_vma (p : binder_proc) (v : option vm_area_struct) : binder_proc :=
  mk_proc v (buffer p) (user_buffer_offset p) (buffers p) (free_buffers p) (allocated_buffers p)
    (free_async_space p) (pages p) (buffer_size p) (hdrs p) (kmap p) (umap p) (task_mm p).

Definition set_free (h : binder_buffer) (f : bool) : binder_buffer :=
  mk_buf f (allow_user_free h) (async_transaction h) (debug_id h) (transaction h) (target_node h)
    (data_size h) (offsets_size h).

(** ** Headers in memory *)

Definition page_of (a : Z) : Z := Z.land a PAGE_MASK.

Definition mapped (p : binder_proc) (a : Z) : bool :=
  bool_decide (is_Some (kmap p !! page_of a)).

(** The first and the last byte of a header are at most one page apart. *)
Definition hdr_mapped (p : binder_proc) (b : Z) : bool := mapped p b && mapped p (b + HDR - 1).

Definition bufp (p : binder_proc) (b : Z) : option binder_buffer :=
  if hdr_mapped p b then hdrs p !! b else None.

Definition write_buf (p : binder_proc) (b : Z) (h : binder_buffer) : option binder_proc :=
  if hdr_mapped p b then Some (set_hdrs p (<[b := h]> (hdrs p))) else None.

(** The neighbours of an entry of a list: [None] if it is not on the list,
    [Some None] at its end. *)
Fixpoint list_next (l : list Z) (b : Z) : option (option Z) :=
  match l with
  | [] => None
  | x :: l => if x =? b then Some (head l) else list_next l b
  end.

Fixpoint list_prev (before : option Z) (l : list Z) (b : Z) : option (option Z) :=
  match l with
  | [] => None
  | x :: l => if x =? b then Some before else list_prev (Some x) l b
  end.

(** [list_add(new, b)] and [list_del(b)]. *)
Fixpoint list_add_after (l : list Z) (b new : Z) : list Z :=
  match l with
  | [] => []
  | x :: l => if x =? b then x :: new :: l else x :: list_add_after l b new
  end.
Definition list_del_entry (l : list Z) (b : Z) : list Z := filter (λ x, x ≠ b) l.

Definition ALIGN4 (x : Z) : Z := Z.land (u32 (x + 3)) (u32 (Z.lnot 3)).

(** [ALIGN(data_size, sizeof(void * )) + ALIGN(offsets_size, sizeof(void * ))]. *)
Definition request_size (data_size offsets_size : Z) : Z := u32 (ALIGN4 data_size + ALIGN4 offsets_size).

Definition binder_buffer_size (p : binder_proc) (b : Z) : option Z :=
  _ ← bufp p b;
  next ← list_next (buffers p) b;
  Some (match next with
        | None => u32 (buffer p + buffer_size p - (b + HDR))
        | Some n => u32 (n - (b + HDR))
        end).

(** ** Trees of buffers *)

(** [BUG_ON(!buffer->free)], and the size of a buffer of the tree. *)
Definition free_buffer_size (p : binder_proc) (b : Z) : option Z :=
  h ← bufp p b;
  if negb (free h) then None else binder_buffer_size p b.

Definition binder_insert_free_buffer (p : binder_proc) (new_buffer : Z) : option binder_proc :=
  h ← bufp p new_buffer;
  if negb (free h) then None else
  new_buffer_size ← binder_buffer_size p new_buffer;
  found ← rb_search (free_buffers p)
    (λ b, size ← free_buffer_size p b; Some (if new_buffer_size <? size then -1 else 1));
  match found with
  | inl _ => None
  | inr (link, parent) =>
      t ← rb_link_node (free_buffers p) new_buffer parent link;
      t ← rb_insert_color t new_buffer;
      Some (set_free_buffers p t)
  end.

(** The comparison of addresses in the tree of allocated buffers. *)
Definition allocated_diff (p : binder_proc) (x b : Z) : option Z :=
  h ← bufp p b; if free h then None else Some (x - b).

Definition binder_insert_allocated_buffer (p : binder_proc) (new_buffer : Z) : option binder_proc :=
  h ← bufp p new_buffer;
  if free h then None else
  found ← rb_search (allocated_buffers p) (allocated_diff p new_buffer);
  match found with
  | inl _ => None
  | inr (link, parent) =>
      t ← rb_link_node (allocated_buffers p) new_buffer parent link;
      t ← rb_insert_color t new_buffer;
      Some (set_allocated_buffers p t)
  end.

(** The buffer whose data begins at an address of user space; [Some None] is
    the NULL result. *)
Definition binder_buffer_lookup (p : binder_proc) (user_ptr : Z) : option (option Z) :=
  let kern_ptr := u32 (user_ptr - user_buffer_offset p - HDR) in
  found ← rb_search (allocated_buffers p) (allocated_diff p kern_ptr);
  Some (match found with inl b => Some b | inr _ => None end).

(** ** Pages *)

(** [&proc->pages[(page_addr - proc->buffer) / PAGE_SIZE]]; [None] outside of
    the array. *)
Definition page_index (p : binder_proc) (page_addr : Z) : option Z :=
  let i := u32 (page_addr - buffer p) / PAGE_SIZE in
  if i <? buffer_size p / PAGE_SIZE then Some i else None.

Definition user_addr (p : binder_proc) (page_addr : Z) : Z := u32 (page_addr + user_buffer_offset p).

(** Where the allocation of a page stopped; the labels the clean-up starts at. *)
Inductive page_label := err_alloc_page_failed | err_map_kernel_failed | err_vm_insert_page_failed.

(** mm/memory.c: the bounds of the mapping and [pte_none], then whatever
    [insert_page] answers. *)
Definition vm_insert_page (e : mm_env) (u : gmap Z Z) (v : vm_area_struct) (a page : Z) : option (gmap Z Z) :=
  if (a <? vm_start v) || (a >=? vm_end v) then None
  else if bool_decide (is_Some (u !! a)) then None
  else if insert_page e a then Some (<[a := page]> u) else None.

(** The body of the allocating loop. *)
Definition alloc_one (e : mm_env) (p : binder_proc) (v : vm_area_struct) (page_addr : Z)
    : option (binder_proc * option page_label) :=
  i ← page_index p page_addr;
  if bool_decide (is_Some (pages p !! i)) then None                          (* BUG_ON( *page) *)
  else
    match alloc_page e page_addr with
    | None => Some (p, Some err_alloc_page_failed)
    | Some page =>
        let pg := <[i := page]> (pages p) in
        if negb (map_vm_area e page_addr) then
          Some (set_maps p pg (kmap p) (umap p), Some err_map_kernel_failed)
        else
          let k := <[page_addr := page]> (kmap p) in
          match vm_insert_page e (umap p) v (user_addr p page_addr) page with
          | None => Some (set_maps p pg k (umap p), Some err_vm_insert_page_failed)
          | Some u => Some (set_maps p pg k u, None)
          end
    end.

Fixpoint alloc_loop (fuel : nat) (e : mm_env) (p : binder_proc) (v : vm_area_struct) (page_addr end_ : Z)
    : option (binder_proc * option (Z * page_label)) :=
  if page_addr <? end_ then
    match fuel with
    | O => None
    | S fuel =>
        '(p, failed) ← alloc_one e p v page_addr;
        match failed with
        | Some l => Some (p, Some (page_addr, l))
        | None => alloc_loop fuel e p v (u32 (page_addr + PAGE_SIZE)) end_
        end
    end
  else Some (p, None).

(** The statements behind the labels, in order. *)
Definition free_page_ (p : binder_proc) (page_addr : Z) : option binder_proc :=
  i ← page_index p page_addr;
  _ ← pages p !! i;                                              (* __free_page(NULL) *)
  Some (set_maps p (delete i (pages p)) (kmap p) (umap p)).
Definition unmap_kernel_range (p : binder_proc) (page_addr : Z) : binder_proc :=
  set_maps p (pages p) (delete page_addr (kmap p)) (umap p).
Definition zap_user_page (p : binder_proc) (a : Z) : binder_proc :=
  set_maps p (pages p) (kmap p) (delete a (umap p)).

(** The body of the freeing loop from a label on; [None] is its beginning. *)
Definition free_one (p : binder_proc) (v : option vm_area_struct) (page_addr : Z) (l : option page_label)
    : option binder_proc :=
  match l with
  | None =>
      let p := match v with Some _ => zap_user_page p (user_addr p page_addr) | None => p end in
      free_page_ (unmap_kernel_range p page_addr) page_addr
  | Some err_vm_insert_page_failed => free_page_ (unmap_kernel_range p page_addr) page_addr
  | Some err_map_kernel_failed => free_page_ p page_addr
  | Some err_alloc_page_failed => Some p
  end.

Fixpoint free_range (fuel : nat) (p : binder_proc) (v : option vm_area_struct) (page_addr start : Z)
    : option binder_proc :=
  if page_addr >=? start then
    match fuel with
    | O => None
    | S fuel =>
        p ← free_one p v page_addr None;
        free_range fuel p v (u32 (page_addr - PAGE_SIZE)) start
    end
  else Some p.

(** Enough turns for a range of pages. *)
Definition range_fuel (start end_ : Z) : nat := S (Z.to_nat ((end_ - start) / PAGE_SIZE)).

Definition binder_update_page_range (e : mm_env) (p : binder_proc) (allocate : bool) (start end_ : Z)
    (vma_arg : option vm_area_struct) : option (binder_proc * Z) :=
  if end_ <=? start then Some (p, 0)
  else
    let v := match vma_arg with
             | Some v => Some v
             | None => if task_mm p then vma p else None
             end in
    if allocate then
      match v with
      | None => Some (p, - ENOMEM)
      | Some v' =>
          '(p, failed) ← alloc_loop (range_fuel start end_) e p v' start end_;
          match failed with
          | None => Some (p, 0)
          | Some (page_addr, l) =>
              p ← free_one p v page_addr (Some l);
              p ← free_range (range_fuel start end_) p v (u32 (page_addr - PAGE_SIZE)) start;
              Some (p, - ENOMEM)
          end
      end
    else
      p ← free_range (range_fuel start end_) p v (u32 (end_ - PAGE_SIZE)) start;
      Some (p, - ENOMEM).

(** ** Allocating *)

(** The descent to the smallest free buffer that is large enough: the last node
    kept, the node it stopped at (0: none) and the size read last. *)
Fixpoint best_fit_loop (fuel : nat) (p : binder_proc) (size n best_fit : Z) : option (Z * Z) :=
  if ctrue n then
    match fuel with
    | O => None
    | S fuel =>
        buffer_size ← free_buffer_size p n;
        node ← load (free_buffers p) n;
        if size <? buffer_size then best_fit_loop fuel p size (rb_left node) n
        else if size >? buffer_size then best_fit_loop fuel p size (rb_right node) best_fit
        else Some (n, n)
    end
  else Some (best_fit, n).

(** Once the pages are there: the buffer moves to the other tree, what is left
    behind it becomes a free buffer of its own, and the header is filled in. *)
Definition alloc_commit (e : mm_env) (p : binder_proc) (buffer size buffer_size data_size_ offsets_size_ : Z)
    (is_async : bool) : option (binder_proc * option Z) :=
  t ← rb_erase (free_buffers p) buffer;
  let p := set_free_buffers p t in
  h ← bufp p buffer;
  p ← write_buf p buffer (set_free h false);
  p ← binder_insert_allocated_buffer p buffer;
  p ← (if negb (buffer_size =? size) then
         let new_buffer := buffer + HDR + size in
         let p := set_buffers p (list_add_after (buffers p) buffer new_buffer) in
         p ← write_buf p new_buffer (set_free (junk e new_buffer) true);
         binder_insert_free_buffer p new_buffer
       else Some p);
  h ← bufp p buffer;
  p ← write_buf p buffer (mk_buf (free h) (allow_user_free h) is_async (debug_id h) (transaction h)
                            (target_node h) data_size_ offsets_size_);
  Some (if is_async then set_async p (u32 (free_async_space p - (size + HDR))) else p, Some buffer).

(** [Some (p, None)] is the NULL result. *)
Definition binder_alloc_buf (e : mm_env) (p : binder_proc) (data_size_ offsets_size_ : Z) (is_async : bool)
    : option (binder_proc * option Z) :=
  match vma p with
  | None => Some (p, None)
  | Some _ =>
      let size := request_size data_size_ offsets_size_ in
      if (size <? data_size_) || (size <? offsets_size_) then Some (p, None)
      else if is_async && (free_async_space p <? u32 (size + HDR)) then Some (p, None)
      else
        '(best_fit, n) ← best_fit_loop (rb_fuel (free_buffers p)) p size (rb_root (free_buffers p)) 0;
        if best_fit =? 0 then Some (p, None)
        else
          let buffer := best_fit in
          buffer_size ← binder_buffer_size p buffer;
          let data := buffer + HDR in
          let has_page_addr := Z.land (u32 (data + buffer_size)) PAGE_MASK in
          let buffer_size :=
            if n =? 0 then
              if u32 (size + HDR + 4) >=? buffer_size then size else u32 (size + HDR)
            else buffer_size in
          let end_page_addr := PAGE_ALIGN (u32 (data + buffer_size)) in
          let end_page_addr := if end_page_addr >? has_page_addr then has_page_addr else end_page_addr in
          '(p, ret) ← binder_update_page_range e p true (PAGE_ALIGN data) end_page_addr None;
          if ctrue ret then Some (p, None)
          else alloc_commit e p buffer size buffer_size data_size_ offsets_size_ is_async
  end.

(** ** Freeing *)

Definition buffer_start_page (b : Z) : Z := Z.land b PAGE_MASK.
Definition buffer_end_page (b : Z) : Z := Z.land (u32 (b + HDR - 1)) PAGE_MASK.

(** Which of the (at most two) pages of a header may go: those it does not
    share with the header in front or the one behind. *)
Definition free_page_flags (prev b : Z) (next : option Z) : bool * bool :=
  let '(free_page_start, free_page_end) :=
    if buffer_end_page prev =? buffer_start_page b
    then (false, negb (buffer_end_page prev =? buffer_end_page b)) else (true, true) in
  match next with
  | Some next =>
      if buffer_start_page next =? buffer_end_page b
      then (if buffer_start_page next =? buffer_start_page b then false else free_page_start, false)
      else (free_page_start, free_page_end)
  | None => (free_page_start, free_page_end)
  end.

Definition binder_delete_free_buffer (e : mm_env) (p : binder_proc) (b : Z) : option binder_proc :=
  prev_ ← list_prev None (buffers p) b;
  prev ← prev_;                                      (* BUG_ON: the first of the list *)
  h ← bufp p prev;
  if negb (free h) then None else
  _ ← bufp p b;
  next ← list_next (buffers p) b;
  let '(free_page_start, free_page_end) := free_page_flags prev b next in
  let p := set_buffers p (list_del_entry (buffers p) b) in
  if free_page_start || free_page_end then
    '(p, _) ← binder_update_page_range e p false
                (if free_page_start then buffer_start_page b else buffer_end_page b)
                (u32 ((if free_page_end then buffer_end_page b else buffer_start_page b) + PAGE_SIZE)) None;
    Some p
  else Some p.

(** A free buffer behind [b] becomes part of [b]. *)
Definition free_merge_next (e : mm_env) (p : binder_proc) (b : Z) : option binder_proc :=
  next_ ← list_next (buffers p) b;
  match next_ with
  | None => Some p
  | Some next =>
      hn ← bufp p next;
      if free hn then
        t ← rb_erase (free_buffers p) next;
        binder_delete_free_buffer e (set_free_buffers p t) next
      else Some p
  end.

(** [b] becomes part of a free buffer in front of it, which is returned. *)
Definition free_merge_prev (e : mm_env) (p : binder_proc) (b : Z) : option (binder_proc * Z) :=
  prev_ ← list_prev None (buffers p) b;
  match prev_ with
  | None => Some (p, b)
  | Some prev =>
      hp ← bufp p prev;
      if free hp then
        p ← binder_delete_free_buffer e p b;
        t ← rb_erase (free_buffers p) prev;
        Some (set_free_buffers p t, prev)
      else Some (p, b)
  end.

Definition binder_free_buf (e : mm_env) (p : binder_proc) (b : Z) : option binder_proc :=
  buffer_size_ ← binder_buffer_size p b;
  h ← bufp p b;
  let size := request_size (data_size h) (offsets_size h) in
  if free h || (size >? buffer_size_) || ctrue (transaction h) || (b <? buffer p)
     || (b >? u32 (buffer p + buffer_size p)) then None
  else
    let p := if async_transaction h then set_async p (u32 (free_async_space p + (size + HDR))) else p in
    '(p, _) ← binder_update_page_range e p false (PAGE_ALIGN (b + HDR))
                (Z.land (u32 (b + HDR + buffer_size_)) PAGE_MASK) None;
    t ← rb_erase (allocated_buffers p) b;
    let p := set_allocated_buffers p t in
    h ← bufp p b;
    p ← write_buf p b (set_free h true);
    p ← free_merge_next e p b;
    '(p, b) ← free_merge_prev e p b;
    binder_insert_free_buffer p b.

(** ** Mapping the area *)

Definition CACHE_COLOUR (a : Z) : Z := Z.shiftr (Z.land a (4 * PAGE_SIZE - 1)) PAGE_SHIFT.

(** With an aliasing cache the start of the mapping moves up until its colour
    is that of the kernel's area; there are four colours. *)
Fixpoint colour_loop (fuel : nat) (start area : Z) : option Z :=
  if ctrue (CACHE_COLOUR (Z.lxor start area)) then
    match fuel with
    | O => None
    | S fuel => colour_loop fuel (u32 (start + PAGE_SIZE)) area
    end
  else Some start.

(** [get_vm_area], [kzalloc] and whether the cache aliases are inputs. *)
Definition binder_mmap (e : mm_env) (area : option Z) (kzalloc aliasing : bool) (p : binder_proc) (v : vm_area_struct)
    : option (binder_proc * Z) :=
  let v := if u32 (vm_end v - vm_start v) >? SZ_4M
           then mk_vma (vm_start v) (u32 (vm_start v + SZ_4M)) (vm_flags v) else v in
  if ctrue (Z.land (vm_flags v) FORBIDDEN_MMAP_FLAGS) then Some (p, - EPERM)
  else
    let v := mk_vma (vm_start v) (vm_end v)
               (Z.land (Z.lor (vm_flags v) VM_DONTCOPY) (Z.lnot VM_MAYWRITE)) in
    if ctrue (buffer p) then Some (p, - EBUSY)
    else
      match area with
      | None => Some (p, - ENOMEM)
      | Some a =>
          let offset := u32 (vm_start v - a) in
          start ← (if aliasing then colour_loop 4 (vm_start v) a else Some (vm_start v));
          let v := mk_vma start (vm_end v) (vm_flags v) in
          if negb kzalloc then
            Some (mk_proc (vma p) 0 offset (buffers p) (free_buffers p) (allocated_buffers p)
                    (free_async_space p) (pages p) (buffer_size p) (hdrs p) (kmap p) (umap p) (task_mm p),
                  - ENOMEM)
          else
            let q := mk_proc (vma p) a offset (buffers p) (free_buffers p) (allocated_buffers p)
                       (free_async_space p) ∅ (u32 (vm_end v - vm_start v)) (hdrs p) (kmap p) (umap p) (task_mm p) in
            '(q, ret) ← binder_update_page_range e q true a (u32 (a + PAGE_SIZE)) (Some v);
            if ctrue ret then
              Some (mk_proc (vma q) 0 (user_buffer_offset q) (buffers q) (free_buffers q) (allocated_buffers q)
                      (free_async_space q) ∅ (buffer_size q) (hdrs q) (kmap q) (umap q) (task_mm q), - ENOMEM)
            else
              let q := set_buffers q [a] in
              q ← write_buf q a (set_free (junk e a) true);
              q ← binder_insert_free_buffer q a;
              Some (set_vma (set_async q (buffer_size q / 2)) (Some v), 0)
      end.

(** The mapping is removed ([binder_vma_close]; the entries go with it), or the
    task gives up its address space. *)
Definition binder_vma_close (p : binder_proc) : binder_proc :=
  set_vma (set_maps p (pages p) (kmap p) ∅) None.
Definition task_exit_mm (p : binder_proc) : binder_proc :=
  mk_proc (vma p) (buffer p) (user_buffer_offset p) (buffers p) (free_buffers p) (allocated_buffers p)
    (free_async_space p) (pages p) (buffer_size p) (hdrs p) (kmap p) ∅ false.

(** ** The division of the area

    [fin] is the end of the area.  The buffers of a list tile it: each reaches
    from its header to the next header, or to the end. *)

Definition nxt (l : list Z) (fin : Z) : Z := default fin (head l).

Fixpoint tiled (l : list Z) (fin : Z) : Prop :=
  match l with
  | [] => True
  | b :: l => (4 | b) ∧ b + HDR ≤ nxt l fin ∧ tiled l fin
  end.

(** The end of a buffer and its size without the header. *)
Fixpoint end_of (l : list Z) (fin b : Z) : Z :=
  match l with
  | [] => fin
  | x :: l => if x =? b then nxt l fin else end_of l fin b
  end.
Definition bsize (l : list Z) (fin b : Z) : Z := end_of l fin b - (b + HDR).

(** Page numbers, and the pages a buffer needs: those of its header and, when
    it is allocated, those up to the one its end lies in. *)
Definition pg (a : Z) : Z := a / PAGE_SIZE.
Definition covers (free : bool) (b e n : Z) : Prop :=
  pg b ≤ n ∧ (n ≤ pg (b + HDR - 1) ∨ free = false ∧ n < pg e).

Fixpoint cover (fr : Z → bool) (l : list Z) (fin n : Z) : Prop :=
  match l with
  | [] => False
  | b :: l => covers (fr b) b (nxt l fin) n ∨ cover fr l fin n
  end.

(** No two neighbours are free. *)
Fixpoint coalesced (fr : Z → bool) (l : list Z) : Prop :=
  match l with
  | [] => True
  | b :: l => match l with c :: _ => fr b = false ∨ fr c = false | [] => True end ∧ coalesced fr l
  end.

Ltac hdr := change HDR with 40 in *; change PAGE_SIZE with 4096 in *.

Lemma nxt_app l1 l2 fin : nxt (l1 ++ l2) fin = nxt l1 (nxt l2 fin).
Proof. by destruct l1. Qed.

Lemma tiled_app l1 l2 fin : tiled (l1 ++ l2) fin ↔ tiled l1 (nxt l2 fin) ∧ tiled l2 fin.
Proof. induction l1 as [|b l1 IH]; simpl; [tauto|]. rewrite IH, nxt_app. tauto. Qed.

Lemma cover_app fr l1 l2 fin n : cover fr (l1 ++ l2) fin n ↔ cover fr l1 (nxt l2 fin) n ∨ cover fr l2 fin n.
Proof. induction l1 as [|b l1 IH]; simpl; [tauto|]. rewrite IH, nxt_app. tauto. Qed.

Lemma nxt_cons b l fin : nxt (b :: l) fin = b.
Proof. done. Qed.

Lemma nxt_le l fin : tiled l fin → nxt l fin ≤ fin.
Proof.
  induction l as [|b l IH]; [done|]. intros (_ & Hn & Ht). specialize (IH Ht). rewrite nxt_cons. hdr. lia.
Qed.

Lemma tiled_bounds l fin b : tiled l fin → b ∈ l → (4 | b) ∧ nxt l fin ≤ b ∧ b + HDR ≤ fin.
Proof.
  induction l as [|x l IH]; simpl; [set_solver|]. intros (Hx & Hn & Ht) Hb. pose proof (nxt_le _ _ Ht).
  rewrite nxt_cons. apply elem_of_cons in Hb as [->|Hb]; [by split_and!; try lia|].
  destruct (IH Ht Hb) as (? & ? & ?). hdr. split_and!; [done|lia..].
Qed.

Lemma tiled_sorted l fin : tiled l fin → StronglySorted Z.lt l.
Proof.
  induction l as [|b l IH]; intros Ht; [constructor|]. destruct Ht as (? & Hn & Ht). constructor; [by apply IH|].
  apply Forall_forall. intros c Hc. destruct (tiled_bounds _ _ _ Ht Hc) as (_ & ? & _). hdr. lia.
Qed.

Lemma StronglySorted_lt_NoDup l : StronglySorted Z.lt l → NoDup l.
Proof.
  induction 1 as [|x l Hs IH Hall]; constructor; [|done]. intros Hx. rewrite Forall_forall in Hall.
  specialize (Hall _ Hx). lia.
Qed.

Lemma tiled_NoDup l fin : tiled l fin → NoDup l.
Proof. intros ?%tiled_sorted. by apply StronglySorted_lt_NoDup. Qed.

Lemma end_of_app l1 b l2 fin : b ∉ l1 → end_of (l1 ++ b :: l2) fin b = nxt l2 fin.
Proof.
  induction l1 as [|x l1 IH]; simpl; intros Hb; [by rewrite Z.eqb_refl|].
  apply not_elem_of_cons in Hb as [? ?]. destruct (Z.eqb_spec x b); [congruence|auto].
Qed.

Lemma end_of_le l fin b : tiled l fin → b ∈ l → b + HDR ≤ end_of l fin b ≤ fin.
Proof.
  intros Ht Hb. apply list_elem_of_split in Hb as (l1 & l2 & ->). rewrite end_of_app.
  - apply tiled_app in Ht as (_ & _ & Hn & Ht). split; [done|by apply nxt_le].
  - apply tiled_NoDup, NoDup_app in Ht as (_ & Hd & _). intros ?. eapply Hd; [done|by left].
Qed.

(** Other buffers keep their ends when one is inserted behind or removed. *)
Lemma end_of_insert l1 b d l2 fin c :
  c ≠ b → c ≠ d → end_of (l1 ++ b :: d :: l2) fin c = end_of (l1 ++ b :: l2) fin c.
Proof.
  intros Hb Hd. induction l1 as [|x l1 IH]; simpl.
  - destruct (Z.eqb_spec b c); [congruence|]. destruct (Z.eqb_spec d c); [congruence|done].
  - destruct (x =? c); [|done]. by destruct l1.
Qed.

Lemma coalesced_app fr l1 l2 :
  coalesced fr (l1 ++ l2) ↔ coalesced fr l1 ∧ coalesced fr l2 ∧
    (∀ x y, last l1 = Some x → head l2 = Some y → fr x = false ∨ fr y = false).
Proof.
  induction l1 as [|b l1 IH]; simpl; [naive_solver|]. rewrite IH. destruct l1 as [|c l1].
  - destruct l2 as [|d l2]; simpl; naive_solver.
  - rewrite last_cons_cons. simpl. naive_solver.
Qed.

Lemma cover_ext fr fr' l fin n : (∀ b, b ∈ l → fr b = fr' b) → cover fr l fin n ↔ cover fr' l fin n.
Proof.
  induction l as [|b l IH]; simpl; [done|]. intros He. rewrite (He b) by (by left).
  rewrite IH; [done|]. intros c Hc. apply He. by right.
Qed.

Lemma coalesced_ext fr fr' l : (∀ b, b ∈ l → fr b = fr' b) → coalesced fr l ↔ coalesced fr' l.
Proof.
  induction l as [|b l IH]; simpl; [done|]. intros He. rewrite IH by (intros; apply He; by right).
  rewrite (He b) by (by left). destruct l as [|c l]; [done|]. by rewrite (He c) by (right; by left).
Qed.

(** ** The pages behind the area *)

Definition fin (p : binder_proc) : Z := buffer p + buffer_size p.

Record area_ok (p : binder_proc) : Prop := {
  ao_buffer : (PAGE_SIZE | buffer p);
  ao_low : PAGE_SIZE ≤ buffer p;
  ao_size : (PAGE_SIZE | buffer_size p);
  ao_pos : 0 < buffer_size p;
  ao_high : fin p ≤ 2 ^ 32 - PAGE_SIZE }.

(** Page number [n] is a page of the area. *)
Definition in_area (p : binder_proc) (n : Z) : Prop := pg (buffer p) ≤ n < pg (fin p).

(** The entry of [proc->pages] for a page number. *)
Definition page_at (p : binder_proc) (n : Z) : option Z := pages p !! (n - pg (buffer p)).
Definition present (p : binder_proc) (n : Z) : Prop := is_Some (page_at p n).

(** The kernel, and the user through the mapping [v] while there is one, see
    exactly the pages of the array. *)
Record maps_ok (v : option vm_area_struct) (p : binder_proc) : Prop := {
  mo_array : ∀ n, present p n → in_area p n;
  mo_kernel : ∀ n, in_area p n → kmap p !! (PAGE_SIZE * n) = page_at p n;
  mo_user : is_Some v → ∀ n, in_area p n → umap p !! user_addr p (PAGE_SIZE * n) = page_at p n;
  mo_vma : ∀ v', v = Some v' → 0 ≤ vm_start v' ∧ vm_end v' = vm_start v' + buffer_size p ∧ vm_end v' < 2 ^ 32 ∧
    user_buffer_offset p = u32 (vm_start v' - buffer p) }.

(** The page services grant page [n]. *)
Definition available (e : mm_env) (p : binder_proc) (n : Z) : Prop :=
  is_Some (alloc_page e (PAGE_SIZE * n)) ∧ map_vm_area e (PAGE_SIZE * n) = true ∧
  insert_page e (user_addr p (PAGE_SIZE * n)) = true.

Definition only_maps (p p' : binder_proc) : Prop := p' = set_maps p (pages p') (kmap p') (umap p').

Definition grown (p : binder_proc) (n page : Z) : binder_proc :=
  set_maps p (<[n - pg (buffer p) := page]> (pages p)) (<[PAGE_SIZE * n := page]> (kmap p))
    (<[user_addr p (PAGE_SIZE * n) := page]> (umap p)).
Definition shrunk (v : option vm_area_struct) (p : binder_proc) (n : Z) : binder_proc :=
  set_maps p (delete (n - pg (buffer p)) (pages p)) (delete (PAGE_SIZE * n) (kmap p))
    (if v then delete (user_addr p (PAGE_SIZE * n)) (umap p) else umap p).

Section area.
Context (p : binder_proc) (Harea : area_ok p).

Lemma area_pages : buffer p = PAGE_SIZE * pg (buffer p) ∧ fin p = PAGE_SIZE * pg (fin p) ∧
  1 ≤ pg (buffer p) < pg (fin p) ∧ pg (fin p) ≤ 2 ^ 20 - 1 ∧
  buffer_size p / PAGE_SIZE = pg (fin p) - pg (buffer p).
Proof using Harea.
  destruct Harea as [[x Hx] Hl [y Hy] Hp Hh]. unfold fin, pg in *. hdr. rewrite Hx, Hy in *.
  replace (x * 4096 + y * 4096) with ((x + y) * 4096) by lia. rewrite !Z.div_mul by lia. lia.
Qed.

Lemma in_area_range n : in_area p n → 4096 ≤ PAGE_SIZE * n < 2 ^ 32 - 4096.
Proof using Harea. destruct area_pages as (? & ? & ? & ? & ?). unfold in_area. hdr. lia. Qed.

Lemma page_index_area n : in_area p n → page_index p (PAGE_SIZE * n) = Some (n - pg (buffer p)).
Proof using Harea.
  intros Hn. destruct area_pages as (HB & HF & H1 & H2 & HS). pose proof (in_area_range n Hn). unfold in_area in Hn.
  unfold page_index. rewrite HS. hdr. rewrite u32_small by lia.
  replace (4096 * n - buffer p) with ((n - pg (buffer p)) * 4096) by lia. rewrite Z.div_mul by lia.
  destruct (Z.ltb_spec (n - pg (buffer p)) (pg (fin p) - pg (buffer p))); [done|lia].
Qed.

Lemma user_addr_area v n :
  (∀ v', v = Some v' → 0 ≤ vm_start v' ∧ vm_end v' = vm_start v' + buffer_size p ∧ vm_end v' < 2 ^ 32 ∧
    user_buffer_offset p = u32 (vm_start v' - buffer p)) →
  ∀ v', v = Some v' → in_area p n →
  user_addr p (PAGE_SIZE * n) = vm_start v' + PAGE_SIZE * (n - pg (buffer p)) ∧
  vm_start v' ≤ user_addr p (PAGE_SIZE * n) < vm_end v'.
Proof using Harea.
  intros Hv v' -> Hn. destruct (Hv v' eq_refl) as (H0 & He & Hlt & Hoff).
  destruct area_pages as (HB & HF & H1 & H2 & HS). unfold in_area in Hn. unfold user_addr. rewrite Hoff.
  unfold u32. rewrite mod_add_mod_r by lia. unfold fin in *. hdr.
  replace (4096 * n + (vm_start v' - buffer p)) with (vm_start v' + 4096 * (n - pg (buffer p))) by lia.
  rewrite Z.mod_small by lia. lia.
Qed.

Lemma user_addr_inj v n m :
  maps_ok (Some v) p → in_area p n → in_area p m → user_addr p (PAGE_SIZE * n) = user_addr p (PAGE_SIZE * m) → n = m.
Proof using Harea.
  intros Hm Hn Hm' E. destruct (user_addr_area _ n (mo_vma _ _ Hm) v eq_refl Hn) as [E1 _].
  destruct (user_addr_area _ m (mo_vma _ _ Hm) v eq_refl Hm') as [E2 _]. hdr. lia.
Qed.

Lemma grown_maps v n page :
  maps_ok (Some v) p → in_area p n → maps_ok (Some v) (grown p n page).
Proof using Harea.
  intros Hm Hn. split; [intros m [x Hx]|intros m Hm'|intros _ m Hm'|apply (mo_vma _ _ Hm)];
    change (in_area (grown p n page)) with (in_area p) in *; unfold page_at in *; simpl in *.
  - destruct (decide (m = n)) as [->|]; [done|]. rewrite lookup_insert_ne in Hx by lia. apply (mo_array _ _ Hm). by exists x.
  - destruct (decide (m = n)) as [->|]; [by rewrite !lookup_insert_eq|].
    rewrite !lookup_insert_ne by (hdr; lia). by apply (mo_kernel _ _ Hm).
  - change (user_addr (grown p n page)) with (user_addr p).
    destruct (decide (m = n)) as [->|]; [by rewrite !lookup_insert_eq|].
    rewrite lookup_insert_ne by (intros E; by eapply user_addr_inj in E).
    rewrite lookup_insert_ne by lia. by apply (mo_user _ _ Hm).
Qed.

Lemma present_grown n page m : present (grown p n page) m ↔ m = n ∨ present p m.
Proof.
  unfold present, page_at. simpl. destruct (decide (m = n)) as [->|].
  - rewrite lookup_insert_eq. naive_solver.
  - rewrite lookup_insert_ne by lia. naive_solver.
Qed.

Lemma shrunk_maps v n : maps_ok v p → in_area p n → maps_ok v (shrunk v p n).
Proof using Harea.
  intros Hm Hn. split; [intros m [x Hx]|intros m Hm'|intros Hv m Hm'|apply (mo_vma _ _ Hm)];
    change (in_area (shrunk v p n)) with (in_area p) in *; unfold page_at in *; simpl in *.
  - apply lookup_delete_Some in Hx as [_ Hx]. apply (mo_array _ _ Hm). by exists x.
  - destruct (decide (m = n)) as [->|]; [by rewrite !lookup_delete_eq|].
    rewrite !lookup_delete_ne by (hdr; lia). by apply (mo_kernel _ _ Hm).
  - change (user_addr (shrunk v p n)) with (user_addr p). destruct v as [v|]; [|by destruct Hv]. simpl.
    destruct (decide (m = n)) as [->|]; [by rewrite !lookup_delete_eq|].
    rewrite lookup_delete_ne by (intros E; by eapply user_addr_inj in E).
    rewrite lookup_delete_ne by lia. by apply (mo_user _ _ Hm).
Qed.

Lemma present_shrunk v n m : present (shrunk v p n) m ↔ m ≠ n ∧ present p m.
Proof.
  unfold present, page_at. simpl. destruct (decide (m = n)) as [->|].
  - rewrite lookup_delete_eq. split; [by intros [? ?]|naive_solver].
  - rewrite lookup_delete_ne by lia. naive_solver.
Qed.
End area.

Lemma area_set_maps p pg k u : area_ok p → area_ok (set_maps p pg k u).
Proof. by intros [????]. Qed.
#[export] Hint Resolve area_set_maps : kernel.

Lemma only_maps_area p p' : only_maps p p' → area_ok p → area_ok p'.
Proof. intros ->. apply area_set_maps. Qed.

Lemma only_maps_trans p q r : only_maps p q → only_maps q r → only_maps p r.
Proof. unfold only_maps. intros -> ->. by destruct p. Qed.

Lemma only_maps_refl p : only_maps p p.
Proof. by destruct p. Qed.

Lemma set_maps_same p : set_maps p (pages p) (kmap p) (umap p) = p.
Proof. by destruct p. Qed.

Lemma set_maps_twice p a b c a' b' c' : set_maps (set_maps p a b c) a' b' c' = set_maps p a' b' c'.
Proof. done. Qed.

Lemma free_one_spec v p n :
  area_ok p → in_area p n → present p n → free_one p v (PAGE_SIZE * n) None = Some (shrunk v p n).
Proof.
  intros Ha Hn [x Hx]. unfold free_one, free_page_.
  assert (Hi : ∀ k u, page_index (set_maps p (pages p) k u) (PAGE_SIZE * n) = Some (n - pg (buffer p))).
  { intros k u. by rewrite (page_index_area _ (area_set_maps _ _ _ _ Ha)). }
  unfold page_at in Hx. destruct v; simpl; unfold unmap_kernel_range, zap_user_page, shrunk;
    rewrite ?set_maps_twice; rewrite Hi; cbn [mbind option_bind pages set_maps]; by rewrite Hx.
Qed.

Lemma shrunk_grown v p n page :
  area_ok p → maps_ok (Some v) p → in_area p n → ¬ present p n → shrunk (Some v) (grown p n page) n = p.
Proof.
  intros Ha Hm Hn Hnot. apply eq_None_not_Some in Hnot. unfold shrunk, grown. rewrite set_maps_twice. simpl.
  change (user_addr (set_maps p _ _ _)) with (user_addr p).
  rewrite !delete_insert_id; [apply set_maps_same|..].
  - by rewrite (mo_user _ _ Hm) by done.
  - by rewrite (mo_kernel _ _ Hm) by done.
  - done.
Qed.

Lemma alloc_one_spec e p v n :
  area_ok p → maps_ok (Some v) p → in_area p n → ¬ present p n →
  (available e p n ∧ ∃ page, alloc_one e p v (PAGE_SIZE * n) = Some (grown p n page, None)) ∨
  (¬ available e p n ∧ ∃ p' l, alloc_one e p v (PAGE_SIZE * n) = Some (p', Some l) ∧
     free_one p' (Some v) (PAGE_SIZE * n) (Some l) = Some p).
Proof.
  intros Ha Hm Hn Hnot. pose proof Hnot as Hnone. apply eq_None_not_Some in Hnone. unfold alloc_one, available.
  rewrite (page_index_area p Ha n Hn). cbn [mbind option_bind]. unfold page_at in Hnone. rewrite Hnone.
  rewrite bool_decide_false by (by intros [? ?]).
  destruct (alloc_page e _) as [page|] eqn:Hal; [|right; split; [by intros ([? ?] & _)|by eexists _, _]].
  assert (Hfree : ∀ k, free_page_ (set_maps p (<[n - pg (buffer p) := page]> (pages p)) k (umap p)) (PAGE_SIZE * n)
    = Some (set_maps p (pages p) k (umap p))).
  { intros k. unfold free_page_. rewrite (page_index_area _ (area_set_maps _ _ _ _ Ha)) by done.
    cbn [mbind option_bind pages set_maps buffer]. rewrite lookup_insert_eq. cbn [mbind option_bind].
    rewrite set_maps_twice. simpl. by rewrite delete_insert_id. }
  destruct (map_vm_area e _); cbn [negb].
  2:{ right. split; [by intros (_ & ? & _)|]. eexists _, _. split; [done|]. simpl. rewrite Hfree. by rewrite set_maps_same. }
  destruct (user_addr_area p Ha _ n (mo_vma _ _ Hm) v eq_refl Hn) as [_ Hr].
  unfold vm_insert_page. destruct (Z.ltb_spec (user_addr p (PAGE_SIZE * n)) (vm_start v)); [lia|].
  rewrite Z.geb_leb. destruct (Z.leb_spec (vm_end v) (user_addr p (PAGE_SIZE * n))); [lia|]. cbn [orb].
  rewrite (mo_user _ _ Hm) by done. unfold page_at. rewrite Hnone. rewrite bool_decide_false by (by intros [? ?]).
  destruct (insert_page e _) eqn:Hins; [left; split; [done|by exists page]|].
  right. split; [by intros (_ & _ & ?)|]. eexists _, _. split; [done|]. simpl. unfold unmap_kernel_range. simpl.
  rewrite set_maps_twice, Hfree. rewrite delete_insert_id; [by rewrite set_maps_same|].
  by rewrite (mo_kernel _ _ Hm).
Qed.

Lemma range_step (x y : Z) (H : x < y) : (PAGE_SIZE * x <? PAGE_SIZE * y) = true.
Proof. hdr. apply Z.ltb_lt. lia. Qed.

Lemma free_range_done fuel p v k m :
  0 ≤ k < m → k ≤ 2 ^ 20 - 1 → free_range fuel p v (u32 (PAGE_SIZE * k)) (PAGE_SIZE * m) = Some p.
Proof.
  intros Hk Hm. rewrite u32_small by (hdr; lia).
  destruct fuel; simpl; rewrite Z.geb_leb; destruct (Z.leb_spec (PAGE_SIZE * m) (PAGE_SIZE * k)); done || (hdr; lia).
Qed.

Lemma free_range_step fuel p v k m :
  0 < m ≤ k → k ≤ 2 ^ 20 - 1 →
  free_range (S fuel) p v (u32 (PAGE_SIZE * k)) (PAGE_SIZE * m) =
    (p ← free_one p v (PAGE_SIZE * k) None; free_range fuel p v (u32 (PAGE_SIZE * (k - 1))) (PAGE_SIZE * m)).
Proof.
  intros Hm Hk. rewrite (u32_small (PAGE_SIZE * k)) by (hdr; lia). cbn [free_range]. rewrite Z.geb_leb.
  destruct (Z.leb_spec (PAGE_SIZE * m) (PAGE_SIZE * k)); [|hdr; lia].
  by replace (PAGE_SIZE * k - PAGE_SIZE) with (PAGE_SIZE * (k - 1)) by lia.
Qed.

(** One page more at the lower end. *)
Lemma free_range_extend fuel p q r v k m :
  0 < m ≤ k → k ≤ 2 ^ 20 - 1 →
  free_range fuel p v (u32 (PAGE_SIZE * k)) (PAGE_SIZE * (m + 1)) = Some q →
  free_one q v (PAGE_SIZE * m) None = Some r →
  free_range (S fuel) p v (u32 (PAGE_SIZE * k)) (PAGE_SIZE * m) = Some r.
Proof.
  revert p k. induction fuel as [|fuel IH]; intros p k Hm Hk Hq Hr; rewrite free_range_step by done;
    destruct (decide (k = m)) as [->|].
  - rewrite free_range_done in Hq by lia. injection Hq as ->. rewrite Hr. cbn [mbind option_bind].
    apply free_range_done; lia.
  - rewrite u32_small in Hq by (hdr; lia). simpl in Hq. rewrite Z.geb_leb in Hq.
    destruct (Z.leb_spec (PAGE_SIZE * (m + 1)) (PAGE_SIZE * k)); [done|hdr; lia].
  - rewrite free_range_done in Hq by lia. injection Hq as ->. rewrite Hr. cbn [mbind option_bind].
    apply free_range_done; lia.
  - rewrite free_range_step in Hq by lia. destruct (free_one p v (PAGE_SIZE * k) None) as [p'|]; [|done].
    cbn [mbind option_bind] in *. apply (IH p' (k - 1)); [lia|lia|done|done].
Qed.

Lemma free_range_spec v m1 : ∀ fuel p m2,
  area_ok p → maps_ok v p → pg (buffer p) ≤ m1 ≤ m2 → m2 ≤ pg (fin p) → (Z.to_nat (m2 - m1) ≤ fuel)%nat →
  (∀ n, m1 ≤ n < m2 → present p n) →
  ∃ p', free_range fuel p v (u32 (PAGE_SIZE * (m2 - 1))) (PAGE_SIZE * m1) = Some p' ∧ only_maps p p' ∧ maps_ok v p' ∧
    ∀ n, present p' n ↔ present p n ∧ ¬ m1 ≤ n < m2.
Proof.
  induction fuel as [|fuel IH]; intros p m2 Ha Hm H1 H2 Hf Hp; destruct (area_pages p Ha) as (_ & _ & Hb & Hx & _).
  - exists p. rewrite free_range_done by lia. split_and!; [done|apply only_maps_refl|done|].
    intros n. split; [intros ?; split; [done|lia]|tauto].
  - destruct (decide (m1 = m2)) as [<-|Hne].
    { exists p. rewrite free_range_done by lia. split_and!; [done|apply only_maps_refl|done|].
      intros n. split; [intros ?; split; [done|lia]|tauto]. }
    rewrite free_range_step by lia.
    assert (in_area p (m2 - 1)) as Hin by (unfold in_area; lia).
    rewrite free_one_spec by (done || apply Hp; lia). cbn [mbind option_bind].
    destruct (IH (shrunk v p (m2 - 1)) (m2 - 1)) as (p' & Hrun & Ho & Hm' & Hp').
    + by apply area_set_maps.
    + by apply shrunk_maps.
    + simpl. lia.
    + change (fin (shrunk v p (m2 - 1))) with (fin p). lia.
    + lia.
    + intros n Hn. apply present_shrunk. split; [lia|]. apply Hp. lia.
    + exists p'. split_and!; [done|by eapply only_maps_trans; [|exact Ho]|done|].
      intros n. rewrite Hp', present_shrunk. split; [intros ((? & ?) & ?); split; [done|lia]|].
      intros [? ?]. split_and!; [lia|done|lia].
Qed.

Lemma alloc_loop_spec e v m2 : ∀ fuel p m1,
  area_ok p → maps_ok (Some v) p → pg (buffer p) ≤ m1 → m2 ≤ pg (fin p) → (Z.to_nat (m2 - m1) ≤ fuel)%nat →
  (∀ n, m1 ≤ n < m2 → ¬ present p n) →
  (∃ p', alloc_loop fuel e p v (PAGE_SIZE * m1) (PAGE_SIZE * m2) = Some (p', None) ∧ only_maps p p' ∧
     maps_ok (Some v) p' ∧ (∀ n, m1 ≤ n < m2 → available e p n) ∧
     ∀ n, present p' n ↔ present p n ∨ m1 ≤ n < m2) ∨
  (∃ p' n l q, alloc_loop fuel e p v (PAGE_SIZE * m1) (PAGE_SIZE * m2) = Some (p', Some (PAGE_SIZE * n, l)) ∧
     m1 ≤ n < m2 ∧ ¬ available e p n ∧ free_one p' (Some v) (PAGE_SIZE * n) (Some l) = Some q ∧
     ∀ fuel', (Z.to_nat (n - m1) ≤ fuel')%nat →
       free_range fuel' q (Some v) (u32 (PAGE_SIZE * (n - 1))) (PAGE_SIZE * m1) = Some p).
Proof.
  induction fuel as [|fuel IH]; intros p m1 Ha Hm H1 H2 Hf Hp; destruct (area_pages p Ha) as (_ & _ & Hb & Hx & _);
    cbn [alloc_loop]; destruct (Z.ltb_spec (PAGE_SIZE * m1) (PAGE_SIZE * m2)) as [Hlt|Hge]; try (hdr; lia).
  1, 3: left; exists p; split_and!; [done|apply only_maps_refl|done|hdr; lia|];
    intros n; split; [tauto|intros [?|?]; [done|hdr; lia]].
  assert (Hlt' : m1 < m2) by (hdr; lia). assert (Hin : in_area p m1) by (unfold in_area; lia).
  destruct (alloc_one_spec e p v m1 Ha Hm Hin) as [(Hav & page & ->)|(Hav & p' & l & -> & Hfree)];
    [apply Hp; lia| |].
  - cbn [mbind option_bind]. pose proof (in_area_range p Ha m1 Hin).
    replace (u32 (PAGE_SIZE * m1 + PAGE_SIZE)) with (PAGE_SIZE * (m1 + 1)) by (rewrite u32_small; hdr; lia).
    assert (Hnot : ¬ present p m1) by (apply Hp; lia).
    destruct (IH (grown p m1 page) (m1 + 1)) as [(p' & Hrun & Ho & Hm' & Hav' & Hp')|(p' & n & l & q & Hrun & Hn & Hav' & Hq & Hback)].
    + by apply area_set_maps.
    + by apply grown_maps.
    + simpl. lia.
    + done.
    + lia.
    + intros n Hn [->|Hc]%present_grown; [lia|]. eapply Hp; [|exact Hc]. lia.
    + left. exists p'. split_and!; [done|by eapply only_maps_trans; [|exact Ho]|done| |].
      * intros n Hn. destruct (decide (n = m1)) as [->|]; [done|]. apply Hav'. lia.
      * intros n. rewrite Hp', present_grown. split; [intros [[->|?]|?]; [right; lia|by left|right; lia]|].
        intros [?|?]; [by left; right|]. destruct (decide (n = m1)); [by left; left|right; lia].
    + right. exists p', n, l, q. split_and!; [done|lia..|done|done|]. intros fuel' Hf'.
      destruct fuel' as [|fuel']; [lia|]. eapply free_range_extend; [lia|lia| |].
      * apply Hback. lia.
      * rewrite free_one_spec.
        -- by rewrite shrunk_grown.
        -- by apply area_set_maps.
        -- done.
        -- apply present_grown. by left.
  - right. cbn [mbind option_bind]. exists p', m1, l, p. split_and!; [done|lia|lia|done|done|]. intros fuel' _.
    apply free_range_done; lia.
Qed.

(** The mapping the driver works on in a call without one. *)
Definition live_vma (p : binder_proc) : option vm_area_struct := if task_mm p then vma p else None.

Lemma update_alloc_spec e p arg v m1 m2 :
  area_ok p → (v = match arg with Some w => Some w | None => live_vma p end) → maps_ok v p →
  pg (buffer p) ≤ m1 → m2 ≤ pg (fin p) → (∀ n, m1 ≤ n < m2 → ¬ present p n) →
  (∃ p', binder_update_page_range e p true (PAGE_SIZE * m1) (PAGE_SIZE * m2) arg = Some (p', 0) ∧ only_maps p p' ∧
     maps_ok v p' ∧ (m1 < m2 → is_Some v ∧ ∀ n, m1 ≤ n < m2 → available e p n) ∧
     ∀ n, present p' n ↔ present p n ∨ m1 ≤ n < m2) ∨
  (binder_update_page_range e p true (PAGE_SIZE * m1) (PAGE_SIZE * m2) arg = Some (p, - ENOMEM) ∧
   m1 < m2 ∧ (is_Some v → ∃ n, m1 ≤ n < m2 ∧ ¬ available e p n)).
Proof.
  intros Ha Hv Hm H1 H2 Hp. unfold binder_update_page_range.
  destruct (Z.leb_spec (PAGE_SIZE * m2) (PAGE_SIZE * m1)) as [Hle|Hlt].
  { left. exists p. split_and!; [done|apply only_maps_refl|done|hdr; lia|]. intros n.
    split; [tauto|intros [?|?]; [done|hdr; lia]]. }
  assert (Hlt' : m1 < m2) by (hdr; lia). unfold live_vma in Hv. rewrite <- Hv.
  destruct v as [v|]; [|right; split_and!; [done|done|by intros [? ?]]].
  assert (Hfuel : (Z.to_nat (m2 - m1) ≤ range_fuel (PAGE_SIZE * m1) (PAGE_SIZE * m2))%nat).
  { unfold range_fuel. hdr. replace (4096 * m2 - 4096 * m1) with ((m2 - m1) * 4096) by lia. rewrite Z.div_mul; lia. }
  destruct (alloc_loop_spec e v m2 _ p m1 Ha Hm H1 H2 Hfuel Hp)
    as [(p' & -> & Ho & Hm' & Hav & Hp')|(p' & n & l & q & -> & Hn & Hav & Hq & Hback)]; cbn [mbind option_bind].
  - left. exists p'. by split_and!.
  - right. rewrite Hq. cbn [mbind option_bind]. replace (PAGE_SIZE * n - PAGE_SIZE) with (PAGE_SIZE * (n - 1)) by lia.
    rewrite Hback by lia. split_and!; [done|done|]. intros _. by exists n.
Qed.

Lemma update_free_spec e p m1 m2 :
  area_ok p → maps_ok (live_vma p) p → pg (buffer p) ≤ m1 → m2 ≤ pg (fin p) →
  (∀ n, m1 ≤ n < m2 → present p n) →
  ∃ p' r, binder_update_page_range e p false (PAGE_SIZE * m1) (PAGE_SIZE * m2) None = Some (p', r) ∧ only_maps p p' ∧
    maps_ok (live_vma p) p' ∧ ∀ n, present p' n ↔ present p n ∧ ¬ m1 ≤ n < m2.
Proof.
  intros Ha Hm H1 H2 Hp. unfold binder_update_page_range.
  destruct (Z.leb_spec (PAGE_SIZE * m2) (PAGE_SIZE * m1)) as [Hle|Hlt].
  { exists p, 0. split_and!; [done|apply only_maps_refl|done|]. intros n.
    split; [intros ?; split; [done|hdr; lia]|tauto]. }
  assert (Hlt' : m1 < m2) by (hdr; lia). fold (live_vma p).
  destruct (free_range_spec (live_vma p) m1 (range_fuel (PAGE_SIZE * m1) (PAGE_SIZE * m2)) p m2)
    as (p' & Hrun & Ho & Hm' & Hp'); try done; [lia| |].
  { unfold range_fuel. hdr. replace (4096 * m2 - 4096 * m1) with ((m2 - m1) * 4096) by lia. rewrite Z.div_mul; lia. }
  replace (PAGE_SIZE * m2 - PAGE_SIZE) with (PAGE_SIZE * (m2 - 1)) by lia. rewrite Hrun. cbn [mbind option_bind].
  exists p', (- ENOMEM). by split_and!.
Qed.

(** ** Headers and trees *)

(** The list of buffers is [l], their headers are in mapped memory, and [fr]
    says which ones are free. *)
Record heads (p : binder_proc) (fr : Z → bool) (l : list Z) : Prop := {
  hd_area : area_ok p;
  hd_maps : maps_ok (live_vma p) p;
  hd_list : buffers p = l;
  hd_tiled : tiled l (fin p);
  hd_first : buffer p ≤ nxt l (fin p);
  hd_pages : ∀ b n, b ∈ l → pg b ≤ n ≤ pg (b + HDR - 1) → present p n;
  hd_hdr : ∀ b, b ∈ l → ∃ h, hdrs p !! b = Some h ∧ free h = fr b }.

Lemma pg_le x y : x ≤ y → pg x ≤ pg y.
Proof. intros. unfold pg. hdr. by apply Z.div_le_mono. Qed.

Lemma pg_bounds x : PAGE_SIZE * pg x ≤ x < PAGE_SIZE * pg x + PAGE_SIZE.
Proof. unfold pg. hdr. pose proof (Z.div_mod x 4096). pose proof (Z.mod_pos_bound x 4096). lia. Qed.

Lemma page_of_pg x : 0 ≤ x < 2 ^ 32 → page_of x = PAGE_SIZE * pg x.
Proof. intros. unfold page_of, pg. rewrite land_page_mask by done. hdr. lia. Qed.

Section heads.
Context (p : binder_proc) (fr : Z → bool) (l : list Z) (Hh : heads p fr l).

Lemma heads_range b : b ∈ l → buffer p ≤ b ∧ b + HDR ≤ fin p ∧ PAGE_SIZE ≤ b ∧ fin p ≤ 2 ^ 32 - PAGE_SIZE ∧ (4 | b).
Proof using Hh.
  intros Hb. destruct (tiled_bounds _ _ _ (hd_tiled _ _ _ Hh) Hb) as (? & ? & ?). pose proof (hd_first _ _ _ Hh).
  destruct (hd_area _ _ _ Hh). split_and!; try done; lia.
Qed.

Lemma heads_page n b : b ∈ l → pg b ≤ n ≤ pg (b + HDR - 1) → in_area p n.
Proof using Hh. intros Hb Hn. apply (mo_array _ _ (hd_maps _ _ _ Hh)). by apply (hd_pages _ _ _ Hh b). Qed.

Lemma heads_mapped b : b ∈ l → hdr_mapped p b = true.
Proof using Hh.
  intros Hb. destruct (heads_range b Hb) as (? & ? & ? & ? & ?). unfold hdr_mapped, mapped.
  rewrite !page_of_pg by (hdr; lia). assert (pg b ≤ pg (b + HDR - 1)) by (apply pg_le; hdr; lia).
  assert (Hp : ∀ n, pg b ≤ n ≤ pg (b + HDR - 1) → is_Some (kmap p !! (PAGE_SIZE * n))).
  { intros n Hn. rewrite (mo_kernel _ _ (hd_maps _ _ _ Hh)) by (by eapply heads_page). by apply (hd_pages _ _ _ Hh b). }
  by rewrite !bool_decide_true by (apply Hp; lia).
Qed.

Lemma heads_bufp b : b ∈ l → ∃ h, bufp p b = Some h ∧ hdrs p !! b = Some h ∧ free h = fr b.
Proof using Hh.
  intros Hb. destruct (hd_hdr _ _ _ Hh b Hb) as (h & ? & ?). exists h. split_and!; [|done|done].
  unfold bufp. by rewrite heads_mapped.
Qed.

Lemma list_next_app l1 b l2 : b ∉ l1 → list_next (l1 ++ b :: l2) b = Some (head l2).
Proof.
  induction l1 as [|x l1 IH]; simpl; intros Hb; [by rewrite Z.eqb_refl|].
  apply not_elem_of_cons in Hb as [? ?]. destruct (Z.eqb_spec x b); [congruence|auto].
Qed.

Lemma list_prev_app before l1 b l2 :
  b ∉ l1 → list_prev before (l1 ++ b :: l2) b = Some (match last l1 with Some x => Some x | None => before end).
Proof.
  revert before. induction l1 as [|x l1 IH]; intros before Hb; simpl; [by rewrite Z.eqb_refl|].
  apply not_elem_of_cons in Hb as [? ?]. destruct (Z.eqb_spec x b); [congruence|]. rewrite IH by done.
  rewrite last_cons. by destruct (last l1).
Qed.

Lemma not_before l1 b l2 : l = l1 ++ b :: l2 → b ∉ l1 ∧ b ∉ l2.
Proof using Hh.
  intros ->. pose proof (tiled_NoDup _ _ (hd_tiled _ _ _ Hh)) as Hn. apply NoDup_app in Hn as (_ & Hd & Hn).
  apply NoDup_cons in Hn as [? _]. split; [|done]. intros ?. eapply Hd; [done|by left].
Qed.

Lemma heads_size b : b ∈ l → binder_buffer_size p b = Some (bsize l (fin p) b) ∧ 0 ≤ bsize l (fin p) b < 2 ^ 32 - PAGE_SIZE.
Proof using Hh.
  intros Hb. destruct (heads_bufp b Hb) as (h & E & _). destruct (heads_range b Hb) as (? & ? & ? & ? & ?).
  pose proof (end_of_le _ _ _ (hd_tiled _ _ _ Hh) Hb) as He. unfold binder_buffer_size. rewrite E. cbn [mbind option_bind].
  rewrite (hd_list _ _ _ Hh). unfold bsize.
  apply list_elem_of_split in Hb as (l1 & l2 & El). destruct (not_before _ _ _ El) as [Hn _].
  rewrite El in He |- *. rewrite end_of_app in He |- * by done. rewrite list_next_app by done. cbn [mbind option_bind].
  unfold nxt in *. split; [|hdr; lia]. destruct (head l2); simpl in *; rewrite u32_small; unfold fin in *; done || hdr; lia.
Qed.

Lemma heads_free_size b : b ∈ l → fr b = true → free_buffer_size p b = Some (bsize l (fin p) b).
Proof using Hh.
  intros Hb Hf. unfold free_buffer_size. destruct (heads_bufp b Hb) as (h & E & _ & Ef). rewrite E.
  cbn [mbind option_bind]. rewrite Ef, Hf. simpl.
  by apply heads_size.
Qed.
End heads.

(** [x] is not larger than [y]. *)
Definition by_size (l : list Z) (fin : Z) (x y : Z) : Prop := bsize l fin x ≤ bsize l fin y.

Lemma StronglySorted_insert {A} (R : A → A → Prop) l1 x l2 :
  StronglySorted R (l1 ++ l2) → Forall (λ y, R y x) l1 → Forall (R x) l2 → StronglySorted R (l1 ++ x :: l2).
Proof.
  rewrite !StronglySorted_app. intros (H12 & H1 & H2) Hl Hr. split_and!; [|done|by constructor].
  rewrite Forall_forall in Hl. intros y z Hy [->|Hz]%elem_of_cons; [by apply Hl|by apply H12].
Qed.

Lemma StronglySorted_remove {A} (R : A → A → Prop) l1 x l2 :
  StronglySorted R (l1 ++ x :: l2) → StronglySorted R (l1 ++ l2).
Proof.
  rewrite !StronglySorted_app. intros (H12 & H1 & H2). inversion H2; subst. split_and!; [|done|done].
  intros y z Hy Hz. apply H12; [done|by right].
Qed.

Lemma insert_free_spec p fr l lf b :
  heads p fr l → is_tree (free_buffers p) lf → (∀ x, x ∈ lf → x ∈ l ∧ fr x = true) →
  StronglySorted (by_size l (fin p)) lf → b ∈ l → fr b = true → b ∉ lf →
  ∃ t l1 l2, binder_insert_free_buffer p b = Some (set_free_buffers p t) ∧ lf = l1 ++ l2 ∧
    is_tree t (l1 ++ b :: l2) ∧ StronglySorted (by_size l (fin p)) (l1 ++ b :: l2).
Proof.
  intros Hh Ht Hlf Hs Hb Hf Hnew. unfold binder_insert_free_buffer.
  destruct (heads_bufp _ _ _ Hh b Hb) as (h & E & _ & Ef). rewrite E. cbn [mbind option_bind].
  rewrite Ef, Hf. cbn [negb]. clear E.
  destruct (heads_size _ _ _ Hh b Hb) as [-> _]. cbn [mbind option_bind].
  set (d := λ x, if bsize l (fin p) b <? bsize l (fin p) x then -1 else 1).
  destruct (is_tree_search (free_buffers p) lf
    (λ x, size ← free_buffer_size p x; Some (if bsize l (fin p) b <? size then -1 else 1)) d Ht)
    as [(x & -> & Hx & E)|(link & parent & -> & _ & Hins)].
  - split.
    + apply Forall_forall. intros x Hx. destruct (Hlf x Hx). by rewrite (heads_free_size _ _ _ Hh).
    + eapply StronglySorted_impl; [|exact Hs]. unfold by_size, d. intros x y Hxy. simpl. zbool; lia.
  - exfalso. unfold d in E. by destruct (_ <? _).
  - cbn [mbind option_bind]. destruct (heads_range _ _ _ Hh b Hb) as (_ & _ & Hpos & _ & H4).
    destruct (Hins b) as (s1 & s2 & l1 & l2 & -> & Hc & -> & Ht' & Hl & Hr); [split; [hdr; lia|done]|done|].
    cbn [mbind option_bind]. rewrite Hc. cbn [mbind option_bind]. exists s2, l1, l2. split_and!; [done..|].
    apply StronglySorted_insert; [done|..].
    + eapply Forall_impl; [exact Hl|]. unfold d, by_size. intros x. simpl. zbool; lia.
    + eapply Forall_impl; [exact Hr|]. unfold d, by_size. intros x. simpl. zbool; lia.
Qed.

Lemma descending_addr (diff : Z → option Z) x l :
  (∀ b, b ∈ l → diff b = Some (x - b)) → StronglySorted Z.lt l → descending diff (λ b, x - b) l.
Proof.
  intros Hd Hs. split; [by apply Forall_forall|]. eapply StronglySorted_impl; [|exact Hs]. simpl. lia.
Qed.

Lemma allocated_diff_spec p fr l x b :
  heads p fr l → b ∈ l → fr b = false → allocated_diff p x b = Some (x - b).
Proof.
  intros Hh Hb Hf. unfold allocated_diff. destruct (heads_bufp _ _ _ Hh b Hb) as (h & E & _ & Ef).
  rewrite E. cbn [mbind option_bind]. by rewrite Ef, Hf.
Qed.

Lemma insert_allocated_spec p fr l la b :
  heads p fr l → is_tree (allocated_buffers p) la → (∀ x, x ∈ la → x ∈ l ∧ fr x = false) →
  StronglySorted Z.lt la → b ∈ l → fr b = false → b ∉ la →
  ∃ t l1 l2, binder_insert_allocated_buffer p b = Some (set_allocated_buffers p t) ∧ la = l1 ++ l2 ∧
    is_tree t (l1 ++ b :: l2) ∧ StronglySorted Z.lt (l1 ++ b :: l2).
Proof.
  intros Hh Ht Hla Hs Hb Hf Hnew. unfold binder_insert_allocated_buffer.
  destruct (heads_bufp _ _ _ Hh b Hb) as (h & E & _ & Ef). rewrite E. cbn [mbind option_bind].
  rewrite Ef, Hf. clear E.
  destruct (is_tree_search (allocated_buffers p) la (allocated_diff p b) (λ x, b - x) Ht)
    as [(x & -> & Hx & E)|(link & parent & -> & _ & Hins)].
  - apply descending_addr; [|done]. intros x Hx. destruct (Hla x Hx). by eapply allocated_diff_spec.
  - exfalso. assert (x = b) by lia. by subst.
  - cbn [mbind option_bind]. destruct (heads_range _ _ _ Hh b Hb) as (_ & _ & Hpos & _ & H4).
    destruct (Hins b) as (s1 & s2 & l1 & l2 & -> & Hc & -> & Ht' & Hl & Hr); [split; [hdr; lia|done]|done|].
    cbn [mbind option_bind]. rewrite Hc. cbn [mbind option_bind]. exists s2, l1, l2. split_and!; [done..|].
    apply StronglySorted_insert; [done|..]; (eapply Forall_impl; [eassumption|]); simpl; lia.
Qed.

(** ** The search for the best fit *)

Section best_fit.
Context (p : binder_proc) (size : Z) (sz : Z → Z).

(** The outcome of the search in the buffers [lf]. *)
Definition fit_result (lf : list Z) (best n : Z) : Prop :=
  (best = 0 ∧ n = 0 ∧ ∀ x, x ∈ lf → sz x < size) ∨
  (best ∈ lf ∧ best ≠ 0 ∧ size ≤ sz best ∧ (∀ x, x ∈ lf → size ≤ sz x → sz best ≤ sz x) ∧
   (n = 0 ∧ size < sz best ∨ n = best ∧ size = sz best)).

Lemma best_fit_descend : ∀ fuel k t,
  tree_rep (free_buffers p) (plug k t) → (∀ x, x ∈ inorder (plug k t) → free_buffer_size p x = Some (sz x)) →
  StronglySorted (λ x y, sz x ≤ sz y) (inorder (plug k t)) → (length (inorder t) ≤ fuel)%nat →
  (∀ x, x ∈ ctx_l k → sz x < size) → (∀ x, x ∈ ctx_r k → size < sz x) →
  ∃ best n, best_fit_loop fuel p size (ptr t) (default 0 (head (ctx_r k))) = Some (best, n) ∧
    fit_result (inorder (plug k t)) best n.
Proof.
  induction fuel as [|fuel IH]; intros k [|c l q r] Hrep Hsz Hs Hf Hl Hr; simpl in Hf;
    rewrite ?length_app in Hf; simpl in Hf; try lia.
  1, 2: exists (default 0 (head (ctx_r k))), 0; split; [done|]; rewrite inorder_plug in *; simpl in *;
    destruct (ctx_r k) as [|y yr] eqn:Hc; simpl in *;
    [left; split_and!; [done|done|]; intros x Hx; rewrite app_nil_r in Hx; by apply Hl|];
    right; apply tr_rep in Hrep as Hrep'; split_and!; [set_solver| |specialize (Hr y ltac:(by left)); lia|..];
    [pose proof (rep_addr _ _ _ y Hrep') as [? _]; [rewrite inorder_plug, Hc; set_solver|lia]|
     |left; split; [done|apply Hr; by left]];
    intros x [Hx|[->|Hx]%elem_of_cons]%elem_of_app Hle; [specialize (Hl x Hx); lia|done|];
    apply StronglySorted_app in Hs as (_ & _ & Hs); inversion Hs as [|?? _ Hall]; subst;
    rewrite Forall_forall in Hall; by apply Hall.
  pose proof (load_focus _ _ _ _ _ _ Hrep) as (Hload & [Hq _] & _).
  assert (Hin : q ∈ inorder (plug k (Node c l q r))) by (rewrite inorder_plug; simpl; set_solver).
  cbn [best_fit_loop ptr]. unfold ctrue. destruct (Z.eqb_spec q 0); [lia|]. cbn [negb].
  rewrite (Hsz q Hin), Hload. cbn [mbind option_bind rb_left rb_right].
  assert (Hsides : (∀ x, x ∈ inorder l → sz x ≤ sz q) ∧ (∀ x, x ∈ inorder r → sz q ≤ sz x)).
  { rewrite inorder_plug in Hs. apply StronglySorted_app in Hs as (_ & _ & Hs).
    apply StronglySorted_app in Hs as (_ & Hs & _). simpl in Hs. apply StronglySorted_app in Hs as (Hlq & _ & Hqr).
    inversion Hqr as [|?? _ Hall]; subst. rewrite Forall_forall in Hall.
    split; [intros x Hx; apply Hlq; [done|by left]|done]. }
  destruct Hsides as [Hsl Hsr]. rewrite Z.gtb_ltb.
  destruct (Z.ltb_spec size (sz q)); [|destruct (Z.ltb_spec (sz q) size)].
  - destruct (IH (FL c q r :: k) l) as (best & m & Hrun & Hres); simpl; try done; [lia| |by exists best, m].
    intros x [->|[Hx|Hx]%elem_of_app]%elem_of_cons; [done|specialize (Hsr x Hx); lia|by apply Hr].
  - destruct (IH (FR c l q :: k) r) as (best & m & Hrun & Hres); simpl; try done; [lia| |by exists best, m].
    intros x [Hx|[Hx|Hx]%elem_of_app]%elem_of_app; [by apply Hl|specialize (Hsl x Hx); lia|].
    apply list_elem_of_singleton in Hx as ->. done.
  - exists q, q. split; [done|]. right. split_and!; [done|lia|lia|intros; lia|right; lia].
Qed.

Lemma best_fit_spec lf :
  is_tree (free_buffers p) lf → (∀ x, x ∈ lf → free_buffer_size p x = Some (sz x)) →
  StronglySorted (λ x y, sz x ≤ sz y) lf →
  ∃ best n, best_fit_loop (rb_fuel (free_buffers p)) p size (rb_root (free_buffers p)) 0 = Some (best, n) ∧
    fit_result lf best n.
Proof.
  intros (t & Hrep & _ & <-) Hsz Hs. rewrite (tr_root _ _ Hrep). pose proof (tree_rep_size _ _ Hrep).
  apply (best_fit_descend _ [] t); simpl; try done; unfold rb_fuel; try lia; set_solver.
Qed.
End best_fit.

(** ** Which pages are needed *)

Definition upd (fr : Z → bool) (b : Z) (f : bool) : Z → bool := λ x, if x =? b then f else fr x.

Lemma upd_eq fr b f : upd fr b f b = f.
Proof. unfold upd. by rewrite Z.eqb_refl. Qed.

Lemma upd_ne fr b f x : x ≠ b → upd fr b f x = fr x.
Proof. unfold upd. intros. by destruct (Z.eqb_spec x b). Qed.

Lemma covers_true b e n : covers true b e n ↔ pg b ≤ n ≤ pg (b + HDR - 1).
Proof. unfold covers. naive_solver. Qed.

Lemma covers_false b e n : covers false b e n ↔ pg b ≤ n ∧ (n ≤ pg (b + HDR - 1) ∨ n < pg e).
Proof. unfold covers. naive_solver. Qed.

Lemma cover_mid fr l1 b l2 fin n :
  cover fr (l1 ++ b :: l2) fin n ↔ cover fr l1 b n ∨ covers (fr b) b (nxt l2 fin) n ∨ cover fr l2 fin n.
Proof. rewrite cover_app. done. Qed.

Lemma cover_below fr l e n : tiled l e → cover fr l e n → n ≤ pg e.
Proof.
  induction l as [|b l IH]; simpl; [done|]. intros (_ & Hn & Ht) [[_ H]|?]; [|by apply IH].
  pose proof (nxt_le _ _ Ht). pose proof (pg_le (b + HDR - 1) e). pose proof (pg_le (nxt l e) e). hdr. lia.
Qed.

Lemma cover_above fr l e n : tiled l e → cover fr l e n → pg (nxt l e) ≤ n.
Proof.
  induction l as [|b l IH]; simpl; [done|]. intros (_ & Hn & Ht). rewrite nxt_cons. intros [[? _]|Hc]; [done|].
  specialize (IH Ht Hc). pose proof (pg_le b (nxt l e)). hdr. lia.
Qed.

Lemma cover_first fr b l e n : pg b ≤ n ≤ pg (b + HDR - 1) → cover fr (b :: l) e n.
Proof. intros Hn. simpl. left. split; [lia|left; lia]. Qed.

(** The first page behind a header. *)
Definition data_page (b : Z) : Z := pg (b + HDR - 1) + 1.

Section cover.
Context (fr : Z → bool) (l1 : list Z) (b : Z) (l2 : list Z) (fin : Z).
Context (Ht : tiled (l1 ++ b :: l2) fin).

Lemma cover_parts : tiled l1 b ∧ b + HDR ≤ nxt l2 fin ∧ tiled l2 fin ∧ b ∉ l1 ∧ b ∉ l2 ∧
  pg b ≤ pg (b + HDR - 1) ≤ pg (nxt l2 fin).
Proof using Ht.
  pose proof (tiled_NoDup _ _ Ht) as Hn. apply tiled_app in Ht as (H1 & _ & H2 & H3).
  apply NoDup_app in Hn as (_ & Hd & Hn). apply NoDup_cons in Hn as [? _].
  split_and!; try done; [|apply pg_le; hdr; lia..]. intros ?. eapply Hd; [done|by left].
Qed.

(** The pages of the data of a free buffer are not needed. *)
Lemma free_gap n : fr b = true → data_page b ≤ n < pg (nxt l2 fin) → ¬ cover fr (l1 ++ b :: l2) fin n.
Proof using Ht.
  intros Hf Hn. destruct cover_parts as (H1 & He & H2 & _ & _ & Hp). unfold data_page in Hn. rewrite cover_mid.
  intros [Hc|[[_ [?|[? _]]]|Hc]]; [apply cover_below in Hc; [lia|done]|lia|congruence|].
  apply cover_above in Hc; [lia|done].
Qed.

Lemma cover_upd f n :
  cover (upd fr b f) (l1 ++ b :: l2) fin n ↔ cover fr l1 b n ∨ covers f b (nxt l2 fin) n ∨ cover fr l2 fin n.
Proof using Ht.
  destruct cover_parts as (_ & _ & _ & Hn1 & Hn2 & _). rewrite cover_mid, upd_eq.
  rewrite (cover_ext (upd fr b f) fr l1), (cover_ext (upd fr b f) fr l2); [done|..];
    intros c Hc; apply upd_ne; congruence.
Qed.

Lemma cover_allocated n :
  fr b = true →
  cover (upd fr b false) (l1 ++ b :: l2) fin n ↔
    cover fr (l1 ++ b :: l2) fin n ∨ data_page b ≤ n < pg (nxt l2 fin).
Proof using Ht.
  intros Hf. destruct cover_parts as (H1 & He & H2 & _ & _ & Hp). rewrite cover_upd, cover_mid, Hf.
  rewrite covers_true, covers_false. unfold data_page.
  split; [intros [?|[?|?]]|intros [[?|[?|?]]|?]]; auto with lia.
Qed.

(** Splitting: a free buffer at [nb] is cut off. *)
Lemma cover_split nb n :
  fr b = true → b + HDR ≤ nb → nb + HDR ≤ nxt l2 fin → (PAGE_SIZE | fin) →
  cover (upd (upd fr b false) nb true) (l1 ++ b :: nb :: l2) fin n ↔
    cover fr (l1 ++ b :: l2) fin n ∨ data_page b ≤ n < Z.min (data_page nb) (pg (nxt l2 fin)).
Proof using Ht.
  intros Hf Hb Hnb Hfin. destruct cover_parts as (H1 & He & H2 & Hn1 & Hn2 & Hp).
  assert (Hb2 : ∀ c, c ∈ l2 → nxt l2 fin ≤ c) by (intros c Hc; by apply (tiled_bounds l2 fin c)).
  assert (Hb1 : ∀ c, c ∈ l1 → c + HDR ≤ b) by (intros c Hc; by apply (tiled_bounds l1 b c)).
  rewrite !cover_mid, nxt_cons. cbn [cover]. rewrite upd_eq, upd_ne, upd_eq by (hdr; lia). rewrite Hf.
  rewrite (cover_ext _ fr l1), (cover_ext _ fr l2).
  2:{ intros c Hc. specialize (Hb2 c Hc). rewrite !upd_ne; [done|..]; hdr; lia. }
  2:{ intros c Hc. specialize (Hb1 c Hc). rewrite !upd_ne; [done|..]; hdr; lia. }
  rewrite !covers_true, covers_false. unfold data_page.
  assert (pg b ≤ pg (b + HDR - 1) ≤ pg nb ∧ pg nb ≤ pg (nb + HDR - 1) ≤ pg (nxt l2 fin - 1) ∧
    pg (nxt l2 fin - 1) ≤ pg (nxt l2 fin)) by (split_and!; apply pg_le; hdr; lia).
  assert (Hlast : pg (nb + HDR - 1) = pg (nxt l2 fin) → cover fr l2 fin (pg (nxt l2 fin))).
  { destruct l2 as [|c l2']; [intros Heq|intros _; rewrite nxt_cons; apply cover_first; split; [done|apply pg_le; hdr; lia]].
    exfalso. change (nxt [] fin) with fin in *. destruct Hfin as [k ->]. unfold pg in *. hdr.
    rewrite Z.div_mul in * by lia. pose proof (Z.div_mod (k * 4096 - 1) 4096).
    pose proof (Z.mod_pos_bound (k * 4096 - 1) 4096). lia. }
  assert (Hcase : n = pg (nxt l2 fin) → n ≤ pg (nb + HDR - 1) → cover fr l2 fin n).
  { intros -> Hle. apply Hlast. lia. }
  split.
  - destruct (decide (n = pg (nxt l2 fin) ∧ n ≤ pg (nb + HDR - 1))) as [[? ?]|]; [intros _; auto|].
    intros [?|[?|[?|?]]]; auto with lia.
  - intros [[?|[?|?]]|?]; auto with lia.
Qed.
End cover.

(** Joining: the free buffer [b] behind the free buffer [c] is given up. *)
Lemma cover_delete fr l1 c b l2 fin n :
  tiled (l1 ++ c :: b :: l2) fin → fr c = true → fr b = true →
  cover fr (l1 ++ c :: b :: l2) fin n ↔ cover fr (l1 ++ c :: l2) fin n ∨ pg b ≤ n ≤ pg (b + HDR - 1).
Proof.
  intros Ht Hc Hb. rewrite !cover_mid. cbn [cover]. rewrite Hc, Hb. unfold covers. naive_solver.
Qed.

(** The pages of that header which are still needed: one shared with the
    header in front, one shared with the header behind. *)
Lemma cover_kept fr l1 c b l2 fin n :
  tiled (l1 ++ c :: b :: l2) fin → fr c = true → pg b ≤ n ≤ pg (b + HDR - 1) →
  cover fr (l1 ++ c :: l2) fin n ↔ n = pg (c + HDR - 1) ∨ (∃ d, head l2 = Some d ∧ n = pg d).
Proof.
  intros Ht Hc Hn. apply tiled_app in Ht as (H1 & _ & H2 & H3). rewrite nxt_cons in *. simpl in H2, H3.
  destruct H3 as (_ & H3 & H4). rewrite cover_mid, Hc. unfold covers.
  pose proof (pg_le (c + HDR - 1) b ltac:(unfold nxt in H2; simpl in H2; lia)).
  pose proof (pg_le (b + HDR - 1) (nxt l2 fin) ltac:(lia)). pose proof (pg_le c (c + HDR - 1) ltac:(hdr; lia)).
  split.
  - intros [Hx|[[? [?|[? _]]]|Hx]]; [|left; lia|discriminate|].
    + apply cover_below in Hx; [|done]. left. lia.
    + right. destruct l2 as [|d l2]; [done|]. exists d. split; [done|]. apply cover_above in Hx; [|done].
      rewrite nxt_cons in *. lia.
  - intros [->|(d & Hd & ->)]; [right; left; lia|]. right; right. destruct l2 as [|d' l2]; [done|].
    injection Hd as ->. apply cover_first. split; [done|]. apply pg_le. hdr. lia.
Qed.

(** ** How the parts of the state change *)

Lemma live_only_maps p p' : only_maps p p' → live_vma p' = live_vma p.
Proof. by intros ->. Qed.

Lemma heads_maps p p' fr l :
  heads p fr l → only_maps p p' → maps_ok (live_vma p) p' →
  (∀ b n, b ∈ l → pg b ≤ n ≤ pg (b + HDR - 1) → present p' n) → heads p' fr l.
Proof.
  intros [????? _ ?] Ho Hm Hp. pose proof (only_maps_area _ _ Ho ltac:(done)). rewrite Ho in *. by split.
Qed.

Lemma maps_ok_memory v p f a s h l :
  maps_ok v p → maps_ok v (mk_proc (vma p) (buffer p) (user_buffer_offset p) l f a s (pages p) (buffer_size p) h (kmap p)
                             (umap p) (task_mm p)).
Proof. intros [A B C D]. split; [exact A|exact B|exact C|exact D]. Qed.

Lemma heads_trees p fr l f a s :
  heads p fr l → heads (mk_proc (vma p) (buffer p) (user_buffer_offset p) (buffers p) f a s (pages p) (buffer_size p) (hdrs p)
                          (kmap p) (umap p) (task_mm p)) fr l.
Proof.
  intros [[?????] Hm ?????]. split; [by split|by apply maps_ok_memory|done..].
Qed.

Lemma heads_write p fr l b h :
  heads p fr l → b ∈ l →
  write_buf p b h = Some (set_hdrs p (<[b := h]> (hdrs p))) ∧
  heads (set_hdrs p (<[b := h]> (hdrs p))) (upd fr b (free h)) l.
Proof.
  intros Hh Hb. unfold write_buf. rewrite (heads_mapped _ _ _ Hh) by done. split; [done|].
  destruct Hh as [[?????] Hm ???? Hhdr]. split; [by split|by apply maps_ok_memory|done..|].
  intros c Hc. simpl. destruct (decide (c = b)) as [->|].
  - exists h. by rewrite lookup_insert_eq, upd_eq.
  - rewrite lookup_insert_ne, upd_ne by done. by apply Hhdr.
Qed.

Lemma heads_ext p fr fr' l : (∀ b, b ∈ l → fr b = fr' b) → heads p fr l → heads p fr' l.
Proof. intros He [?????? Hhdr]. split; try done. intros b Hb. rewrite <- He by done. by apply Hhdr. Qed.

(** A new header behind [b]. *)
Lemma heads_add p fr l1 b nb l2 h :
  heads p fr (l1 ++ b :: l2) → b + HDR ≤ nb → nb + HDR ≤ nxt l2 (fin p) → (4 | nb) →
  (∀ n, pg nb ≤ n ≤ pg (nb + HDR - 1) → present p n) →
  write_buf (set_buffers p (l1 ++ b :: nb :: l2)) nb h =
    Some (set_hdrs (set_buffers p (l1 ++ b :: nb :: l2)) (<[nb := h]> (hdrs p))) ∧
  heads (set_hdrs (set_buffers p (l1 ++ b :: nb :: l2)) (<[nb := h]> (hdrs p))) (upd fr nb (free h)) (l1 ++ b :: nb :: l2).
Proof.
  intros Hh Hb Hnb H4 Hp. set (q := set_buffers p (l1 ++ b :: nb :: l2)).
  destruct Hh as [[?????] Hm Hl Ht Hf Hpg Hhdr].
  assert (Ht' : tiled (l1 ++ b :: nb :: l2) (fin p)).
  { apply tiled_app in Ht as (H1 & ? & H2 & H3). apply tiled_app. split; [done|]. simpl. by rewrite nxt_cons. }
  assert (Hq : heads (set_hdrs q (<[nb := h]> (hdrs p))) (upd fr nb (free h)) (l1 ++ b :: nb :: l2)).
  { split; [by split|exact (maps_ok_memory _ p _ _ _ _ _ Hm)|done|done| | |].
    - change (fin (set_hdrs q _)) with (fin p). simpl. rewrite nxt_app, nxt_cons in Hf |- *. done.
    - intros c n Hc Hn. change (present (set_hdrs q _)) with (present p).
      destruct (decide (c = nb)) as [->|]; [by apply Hp|]. apply (Hpg c); [set_solver|done].
    - intros c Hc. simpl. destruct (decide (c = nb)) as [->|].
      + exists h. by rewrite lookup_insert_eq, upd_eq.
      + rewrite lookup_insert_ne, upd_ne by done. apply Hhdr. set_solver. }
  split; [|exact Hq]. unfold write_buf. pose proof (heads_mapped _ _ _ Hq nb ltac:(set_solver)) as Hmap.
  change (hdr_mapped (set_hdrs q (<[nb:=h]> (hdrs p))) nb) with (hdr_mapped q nb) in Hmap. by rewrite Hmap.
Qed.

Lemma heads_del p fr l1 c b l2 :
  heads p fr (l1 ++ c :: b :: l2) → heads (set_buffers p (l1 ++ c :: l2)) fr (l1 ++ c :: l2).
Proof.
  intros [[?????] Hm Hl Ht Hf Hpg Hhdr]. split; [by split|by apply maps_ok_memory|done| | | |].
  - change (fin (set_buffers p _)) with (fin p). apply tiled_app in Ht as (H1 & ? & H2 & H3). apply tiled_app.
    destruct H3 as (_ & H3 & H4). rewrite nxt_cons in H2. split; [done|]. simpl. split_and!; [done|hdr; lia|done].
  - change (fin (set_buffers p _)) with (fin p). simpl. rewrite nxt_app, nxt_cons in Hf |- *. done.
  - intros x n Hx Hn. apply (Hpg x); [set_solver|done].
  - intros x Hx. apply Hhdr. set_solver.
Qed.

Lemma list_add_after_app l1 b l2 nb : b ∉ l1 → list_add_after (l1 ++ b :: l2) b nb = l1 ++ b :: nb :: l2.
Proof.
  induction l1 as [|x l1 IH]; simpl; intros Hb; [by rewrite Z.eqb_refl|].
  apply not_elem_of_cons in Hb as [? ?]. destruct (Z.eqb_spec x b); [congruence|]. by rewrite IH.
Qed.

Lemma list_del_app l1 b l2 : b ∉ l1 → b ∉ l2 → list_del_entry (l1 ++ b :: l2) b = l1 ++ l2.
Proof.
  intros H1 H2. unfold list_del_entry. rewrite filter_app, filter_cons_False by (intros H; by apply H).
  by rewrite !filter_ne_id by done.
Qed.

(** ** The state of a mapped area *)

(** What an asynchronous buffer takes from the budget. *)
Definition charge (h : gmap Z binder_buffer) (b : Z) : Z :=
  match h !! b with
  | Some x => if negb (free x) && async_transaction x then request_size (data_size x) (offsets_size x) + HDR else 0
  | None => 0
  end.
Definition charges (h : gmap Z binder_buffer) (l : list Z) : Z := foldr (λ b acc, charge h b + acc) 0 l.

(** [lf] and [la] are the nodes of the two trees in order. *)
Record alloc_core (p : binder_proc) (fr : Z → bool) (lf la : list Z) : Prop := {
  ai_heads : heads p fr (buffers p);
  ai_start : head (buffers p) = Some (buffer p);
  ai_coalesced : coalesced fr (buffers p);
  ai_free : is_tree (free_buffers p) lf;
  ai_sorted : StronglySorted (by_size (buffers p) (fin p)) lf;
  ai_free_mem : ∀ x, x ∈ lf ↔ x ∈ buffers p ∧ fr x = true;
  ai_alloc : is_tree (allocated_buffers p) la;
  ai_order : StronglySorted Z.lt la;
  ai_alloc_mem : ∀ x, x ∈ la ↔ x ∈ buffers p ∧ fr x = false;
  ai_fits : ∀ b h, b ∈ buffers p → hdrs p !! b = Some h → free h = false →
    request_size (data_size h) (offsets_size h) ≤ bsize (buffers p) (fin p) b;
  ai_async : free_async_space p + charges (hdrs p) (buffers p) = buffer_size p / 2;
  ai_async_pos : 0 ≤ free_async_space p }.

(** The pages present are those the buffers need. *)
Definition alloc_inv (p : binder_proc) (fr : Z → bool) (lf la : list Z) : Prop :=
  alloc_core p fr lf la ∧ ∀ n, present p n ↔ cover fr (buffers p) (fin p) n.

Definition alloc_ok (p : binder_proc) : Prop := ∃ fr lf la, alloc_inv p fr lf la.

Lemma charges_app h l1 l2 : charges h (l1 ++ l2) = charges h l1 + charges h l2.
Proof. induction l1 as [|b l1 IH]; simpl; [done|]. rewrite IH. lia. Qed.

Lemma charges_insert h b x l : b ∉ l → charges (<[b := x]> h) l = charges h l.
Proof.
  induction l as [|c l IH]; simpl; [done|]. intros [? ?]%not_elem_of_cons. rewrite IH by done.
  unfold charge. by rewrite lookup_insert_ne.
Qed.

Lemma request_size_range d o : 0 ≤ request_size d o < 2 ^ 32.
Proof. apply u32_range. Qed.

Lemma charge_nonneg h b : 0 ≤ charge h b.
Proof.
  unfold charge. destruct (h !! b) as [x|]; [|done]. pose proof (request_size_range (data_size x) (offsets_size x)).
  destruct (_ && _); [hdr; lia|done].
Qed.

Lemma charges_nonneg h l : 0 ≤ charges h l.
Proof. induction l as [|b l IH]; simpl; [done|]. pose proof (charge_nonneg h b). lia. Qed.

(** ** Giving up a header *)

Lemma page_eqb x y : (PAGE_SIZE * x =? PAGE_SIZE * y) = (x =? y).
Proof. hdr. destruct (Z.eqb_spec x y), (Z.eqb_spec (4096 * x) (4096 * y)); done || lia. Qed.

Lemma buffer_pages b :
  0 ≤ b < 2 ^ 32 - HDR → buffer_start_page b = PAGE_SIZE * pg b ∧ buffer_end_page b = PAGE_SIZE * pg (b + HDR - 1).
Proof.
  intros Hb. unfold buffer_start_page, buffer_end_page. rewrite u32_small by (hdr; lia).
  by rewrite <- !page_of_pg by (hdr; lia).
Qed.

Lemma update_free_one_or_two e p m1 m2 :
  area_ok p → maps_ok (live_vma p) p → (∀ n, m1 ≤ n ≤ m2 → present p n) → pg (buffer p) ≤ m1 → m1 ≤ m2 →
  ∃ p', ('(p, _) ← binder_update_page_range e p false (PAGE_SIZE * m1) (u32 (PAGE_SIZE * m2 + PAGE_SIZE)) None; Some p)
      = Some p' ∧ only_maps p p' ∧ maps_ok (live_vma p) p' ∧ ∀ n, present p' n ↔ present p n ∧ ¬ m1 ≤ n ≤ m2.
Proof.
  intros Ha Hm Hp H1 H2. pose proof (mo_array _ _ Hm m2 ltac:(apply Hp; lia)) as Hin.
  pose proof (in_area_range p Ha m2 Hin). unfold in_area in Hin.
  replace (u32 (PAGE_SIZE * m2 + PAGE_SIZE)) with (PAGE_SIZE * (m2 + 1)) by (rewrite u32_small; hdr; lia).
  destruct (update_free_spec e p m1 (m2 + 1) Ha Hm) as (p' & r & -> & Ho & Hm' & Hp');
    [lia|lia|intros; apply Hp; lia|].
  exists p'. split_and!; [done..|]. intros n. rewrite Hp'. split; intros [? ?]; (split; [done|lia]).
Qed.

(** The pages freed with the header of [b], between [c] and what follows. *)
Lemma delete_pages e p c b (d : option Z) :
  area_ok p → maps_ok (live_vma p) p → (∀ n, pg b ≤ n ≤ pg (b + HDR - 1) → present p n) → pg (buffer p) ≤ pg b →
  0 ≤ b < 2 ^ 32 - HDR → 0 ≤ c < 2 ^ 32 - HDR → pg (c + HDR - 1) ≤ pg b →
  (∀ x, d = Some x → 0 ≤ x < 2 ^ 32 - HDR ∧ pg (b + HDR - 1) ≤ pg x) →
  let '(free_page_start, free_page_end) := free_page_flags c b d in
  ∃ p', (if free_page_start || free_page_end then
           '(p, _) ← binder_update_page_range e p false
             (if free_page_start then buffer_start_page b else buffer_end_page b)
             (u32 ((if free_page_end then buffer_end_page b else buffer_start_page b) + PAGE_SIZE)) None;
           Some p
         else Some p) = Some p' ∧ only_maps p p' ∧ maps_ok (live_vma p) p' ∧
    ∀ n, present p' n ↔ present p n ∧
      ¬ (pg b ≤ n ≤ pg (b + HDR - 1) ∧ n ≠ pg (c + HDR - 1) ∧ ∀ x, d = Some x → n ≠ pg x).
Proof.
  intros Ha Hm Hp Hlow Rb Rc Hc Hd.
  assert (Hb : pg b ≤ pg (b + HDR - 1) ≤ pg b + 1).
  { split; [apply pg_le; hdr; lia|]. pose proof (pg_bounds b). pose proof (pg_bounds (b + HDR - 1)). hdr. lia. }
  assert (Hnone : ∀ P : Z → Prop, (∀ n, ¬ P n) → ∃ p', Some p = Some p' ∧ only_maps p p' ∧ maps_ok (live_vma p) p' ∧
    ∀ n, present p' n ↔ present p n ∧ ¬ P n).
  { intros P HP. exists p. split_and!; [done|apply only_maps_refl|done|]. intros n. specialize (HP n). tauto. }
  assert (Hsome : ∀ m1 m2 (P : Z → Prop), pg b ≤ m1 → m1 ≤ m2 → m2 ≤ pg (b + HDR - 1) → (∀ n, P n ↔ m1 ≤ n ≤ m2) →
    ∃ p', ('(p, _) ← binder_update_page_range e p false (PAGE_SIZE * m1) (u32 (PAGE_SIZE * m2 + PAGE_SIZE)) None; Some p)
      = Some p' ∧ only_maps p p' ∧ maps_ok (live_vma p) p' ∧ ∀ n, present p' n ↔ present p n ∧ ¬ P n).
  { intros m1 m2 P ??? HP. destruct (update_free_one_or_two e p m1 m2 Ha Hm) as (p' & ? & ? & ? & Hp');
      [intros; apply Hp; lia|lia|lia|]. exists p'. split_and!; [done..|]. intros n. by rewrite Hp', HP. }
  unfold free_page_flags. destruct (buffer_pages b Rb) as [-> ->]. destruct (buffer_pages c Rc) as [_ ->].
  destruct d as [d|]; [destruct (Hd d eq_refl) as [Rd Hd']; destruct (buffer_pages d Rd) as [-> _]|]; rewrite !page_eqb;
    destruct (Z.eqb_spec (pg (c + HDR - 1)) (pg b)) as [E1|E1];
    destruct (Z.eqb_spec (pg (c + HDR - 1)) (pg (b + HDR - 1))) as [E2|E2];
    try (destruct (Z.eqb_spec (pg d) (pg (b + HDR - 1))) as [E3|E3];
         destruct (Z.eqb_spec (pg d) (pg b)) as [E4|E4]);
    cbn [negb orb]; try lia;
    (apply Hnone || apply Hsome); try lia; intros n; try (intros (? & ? & Hx)); try (split; [intros (? & ? & Hx)|intros ?]);
    try (specialize (Hx _ eq_refl)); try (split_and!; [lia..|intros ? [= <-]; lia]); try lia; split_and!; lia || done.
Qed.

Lemma delete_free_spec e p fr l1 c b l2 :
  heads p fr (l1 ++ c :: b :: l2) → fr c = true → fr b = true →
  (∀ n, present p n ↔ cover fr (l1 ++ c :: b :: l2) (fin p) n) →
  ∃ p', binder_delete_free_buffer e p b = Some p' ∧ only_maps (set_buffers p (l1 ++ c :: l2)) p' ∧
    heads p' fr (l1 ++ c :: l2) ∧ ∀ n, present p' n ↔ cover fr (l1 ++ c :: l2) (fin p) n.
Proof.
  intros Hh Hc Hb Hp. pose proof (hd_tiled _ _ _ Hh) as Ht.
  assert (El : l1 ++ c :: b :: l2 = (l1 ++ [c]) ++ b :: l2) by (by rewrite <- app_assoc).
  destruct (not_before _ _ _ Hh _ _ _ El) as [Hn1 Hn2].
  destruct (heads_bufp _ _ _ Hh c ltac:(set_solver)) as (hc & Ec & _ & Efc).
  destruct (heads_bufp _ _ _ Hh b ltac:(set_solver)) as (hb & Eb & _ & _).
  destruct (heads_range _ _ _ Hh b ltac:(set_solver)) as (Rb1 & Rb2 & Rb3 & Rb4 & _).
  destruct (heads_range _ _ _ Hh c ltac:(set_solver)) as (_ & Rc2 & Rc3 & _ & _).
  assert (Htile : c + HDR ≤ b ∧ b + HDR ≤ nxt l2 (fin p)).
  { apply tiled_app in Ht as (_ & _ & ? & _ & ? & _). by rewrite nxt_cons in *. }
  destruct Htile as [T1 T2]. pose proof (heads_del _ _ _ _ _ _ Hh) as Hdel.
  unfold binder_delete_free_buffer. rewrite (hd_list _ _ _ Hh), El.
  rewrite list_prev_app, list_next_app, last_snoc, list_del_app by done. cbn [mbind option_bind].
  rewrite Ec. cbn [mbind option_bind]. rewrite Efc, Hc, Eb, <- app_assoc. cbn [negb mbind option_bind app].
  pose proof (delete_pages e (set_buffers p (l1 ++ c :: l2)) c b (head l2) (hd_area _ _ _ Hdel) (hd_maps _ _ _ Hdel)) as Hdp.
  destruct (free_page_flags c b (head l2)) as [fs fe].
  destruct Hdp as (p' & -> & Ho & Hm' & Hp').
  - intros n Hn. by apply (hd_pages _ _ _ Hh b); [set_solver|].
  - by apply pg_le.
  - hdr. lia.
  - hdr. lia.
  - apply pg_le. lia.
  - intros d Hd. destruct l2 as [|d' l2]; [done|]. injection Hd as ->. rewrite nxt_cons in T2.
    destruct (heads_range _ _ _ Hh d ltac:(set_solver)) as (_ & ? & ? & ? & _). split; [hdr; lia|apply pg_le; hdr; lia].
  - assert (Hcov : ∀ n, present p' n ↔ cover fr (l1 ++ c :: l2) (fin p) n).
    { intros n. rewrite Hp'. change (present (set_buffers p _)) with (present p).
      rewrite Hp, (cover_delete fr l1 c b l2) by done.
      pose proof (cover_kept fr l1 c b l2 (fin p) n Ht Hc) as Hk.
      destruct (decide (pg b ≤ n ≤ pg (b + HDR - 1))) as [Hn|Hn]; [|tauto]. rewrite Hk by done.
      split; [|intros H; split; [by left|]; intros (_ & H1 & H2); destruct H as [?|(d & Hd & ?)]; [done|by apply (H2 d)]].
      intros [_ Hg]. destruct (decide (n = pg (c + HDR - 1))); [by left|]. right.
      destruct (head l2) as [d|]; [destruct (decide (n = pg d)); [by exists d|]|]; exfalso; apply Hg;
        (split_and!; [lia..|]); intros ? [=]; by subst. }
    exists p'. split_and!; [done|done| |done].
    eapply heads_maps; [exact Hdel|done|done|]. intros x n Hx Hn. apply Hcov.
    apply list_elem_of_split in Hx as (k1 & k2 & ->). apply cover_mid. right; left. split; [lia|left; lia].
Qed.

(** ** Sizes *)

Lemma ALIGN4_spec x : 0 ≤ x < 2 ^ 32 → ALIGN4 x = u32 (x + 3) / 4 * 4.
Proof.
  intros Hx. unfold ALIGN4. change (u32 (Z.lnot 3)) with (Z.ldiff (Z.ones 32) (Z.ones 2)).
  pose proof (u32_range (x + 3)) as Hr. change 4 with (2 ^ 2). rewrite <- Z.shiftr_div_pow2, <- Z.shiftl_mul_pow2 by lia.
  rewrite <- Z.ldiff_ones_r by lia. apply Z.bits_inj'. intros n Hn.
  rewrite Z.land_spec, !Z.ldiff_spec, Z.testbit_ones_nonneg by lia.
  destruct (Z.ltb_spec n 32); [by rewrite andb_true_l|]. rewrite andb_false_l, andb_false_r.
  symmetry. apply andb_false_iff. left. rewrite <- (Z.mod_small (u32 (x + 3)) (2 ^ 32)) by done.
  apply Z.mod_pow2_bits_high. lia.
Qed.

(** Rounding up to a multiple of four. *)
Definition up4 (x : Z) : Z := (x + 3) / 4 * 4.

Lemma up4_bounds x : x ≤ up4 x < x + 4 ∧ (4 | up4 x).
Proof.
  unfold up4. split; [|by exists ((x + 3) / 4)]. pose proof (Z.div_mod (x + 3) 4). pose proof (Z.mod_pos_bound (x + 3) 4). lia.
Qed.

(** The two tests of [binder_alloc_buf] catch every overflow. *)
Lemma request_size_exact d o :
  0 ≤ d < 2 ^ 32 → 0 ≤ o < 2 ^ 32 → d ≤ request_size d o → o ≤ request_size d o →
  request_size d o = up4 d + up4 o.
Proof.
  intros Hd Ho H1 H2. unfold request_size in *. rewrite !ALIGN4_spec in * by done.
  destruct (up4_bounds d) as [Bd [kd Ed]], (up4_bounds o) as [Bo [ko Eo]].
  assert (Hcase : ∀ x, 0 ≤ x < 2 ^ 32 → u32 (x + 3) / 4 * 4 = up4 x ∧ up4 x < 2 ^ 32 ∨
    u32 (x + 3) / 4 * 4 = 0 ∧ 2 ^ 32 - 3 ≤ x).
  { intros x Hx. destruct (decide (x < 2 ^ 32 - 3)) as [Hl|Hl]; [left|].
    { rewrite u32_small by lia. split; [done|]. unfold up4. pose proof (Z.div_mod (x + 3) 4).
      pose proof (Z.mod_pos_bound (x + 3) 4). lia. }
    right. split; [|lia]. unfold u32. rewrite (mod_unique_range (x + 3) (x + 3 - 2 ^ 32) (2 ^ 32) 1) by lia.
    rewrite Z.div_small by lia. done. }
  destruct (Hcase d Hd) as [[Ed' ?]|[Ed' ?]], (Hcase o Ho) as [[Eo' ?]|[Eo' ?]]; rewrite Ed', Eo' in *.
  - destruct (decide (up4 d + up4 o < 2 ^ 32)) as [?|Hge]; [by apply u32_small; lia|].
    assert (u32 (up4 d + up4 o) = up4 d + up4 o - 2 ^ 32) by (apply (mod_unique_range _ _ _ 1); lia). lia.
  - rewrite Z.add_0_r in H2. rewrite u32_small in H2 by lia. lia.
  - rewrite Z.add_0_l in H1. rewrite u32_small in H1 by lia. lia.
  - change (u32 (0 + 0)) with 0 in *. lia.
Qed.

Lemma request_size_aligned d o : 0 ≤ d < 2 ^ 32 → 0 ≤ o < 2 ^ 32 → (4 | request_size d o).
Proof.
  intros Hd Ho. unfold request_size. rewrite !ALIGN4_spec by done. unfold u32.
  apply Z.mod_divide; [lia|]. rewrite <- Znumtheory.Zmod_div_mod by (lia || by exists (2 ^ 30)).
  rewrite <- Z.mul_add_distr_r. apply Z.mod_mul. lia.
Qed.

Lemma page_align_pg x : 0 < x ≤ 2 ^ 32 - PAGE_SIZE → PAGE_ALIGN x = PAGE_SIZE * (pg (x - 1) + 1).
Proof.
  intros Hx. destruct (page_align_spec x ltac:(hdr; lia)) as [-> _]. unfold pg. hdr.
  replace (x + 4095) with (x - 1 + 1 * 4096) by lia. rewrite Z.div_add by lia. lia.
Qed.

(** The end of the pages to allocate, as the code computes it. *)
Lemma end_page x e :
  0 < x ≤ 2 ^ 32 - PAGE_SIZE → 0 ≤ e < 2 ^ 32 →
  (if PAGE_ALIGN x >? Z.land e PAGE_MASK then Z.land e PAGE_MASK else PAGE_ALIGN x) =
    PAGE_SIZE * Z.min (pg (x - 1) + 1) (pg e).
Proof.
  intros Hx He. rewrite page_align_pg by done. fold (page_of e). rewrite page_of_pg by done. rewrite Z.gtb_ltb. hdr.
  destruct (Z.ltb_spec (4096 * pg e) (4096 * (pg (x - 1) + 1))); lia.
Qed.

(** ** Allocating *)

Lemma StronglySorted_impl_in {A} (R R' : A → A → Prop) l :
  (∀ x y, x ∈ l → y ∈ l → R x y → R' x y) → StronglySorted R l → StronglySorted R' l.
Proof.
  intros HR. induction 1 as [|x l Hs IH Hall]; constructor.
  - apply IH. intros y z Hy Hz. apply HR; by right.
  - rewrite Forall_forall in Hall |- *. intros y Hy. apply HR; [by left|by right|by apply Hall].
Qed.

(** The parts of the state that no operation on buffers touches. *)
Definition same_area (p p' : binder_proc) : Prop :=
  vma p' = vma p ∧ buffer p' = buffer p ∧ user_buffer_offset p' = user_buffer_offset p ∧
  buffer_size p' = buffer_size p ∧ task_mm p' = task_mm p.

Lemma same_area_fin p p' : same_area p p' → fin p' = fin p.
Proof. intros (_ & Hb & _ & Hs & _). unfold fin. by rewrite Hb, Hs. Qed.

(** The buffer [b] has been taken out of the free ones; nothing else that is
    allocated has changed. *)
Record allocated_as (p p' : binder_proc) (la la' : list Z) (b size ds os : Z) (async : bool) : Prop := {
  aa_area : same_area p p';
  aa_set : ∀ x, x ∈ la' ↔ x = b ∨ x ∈ la;
  aa_others : ∀ x, x ∈ la → hdrs p' !! x = hdrs p !! x ∧
    bsize (buffers p') (fin p) x = bsize (buffers p) (fin p) x;
  aa_hdr : ∃ h, hdrs p' !! b = Some h ∧ free h = false ∧ data_size h = ds ∧ offsets_size h = os ∧
    async_transaction h = async;
  aa_size : size ≤ bsize (buffers p') (fin p) b ≤ bsize (buffers p) (fin p) b;
  aa_async : free_async_space p' = free_async_space p - (if async then size + HDR else 0) }.

Lemma core_maps p p' fr lf la :
  alloc_core p fr lf la → only_maps p p' → maps_ok (live_vma p) p' → (∀ n, present p n → present p' n) →
  alloc_core p' fr lf la.
Proof.
  intros [Hh ??????????] Ho Hm Hp.
  assert (heads p' fr (buffers p')).
  { replace (buffers p') with (buffers p) by (by rewrite Ho). eapply heads_maps; [exact Hh|done|done|]. intros b n Hb Hn. apply Hp. by eapply hd_pages. }
  rewrite Ho in *. by split.
Qed.

(** The common beginning of [alloc_commit]. *)
Lemma commit_begin p fr lf la b :
  alloc_core p fr lf la → b ∈ lf →
  ∃ t h t2 k1 k2 a1 a2, rb_erase (free_buffers p) b = Some t ∧ hdrs p !! b = Some h ∧
    bufp (set_free_buffers p t) b = Some h ∧
    let q := set_hdrs (set_free_buffers p t) (<[b := set_free h false]> (hdrs p)) in
    write_buf (set_free_buffers p t) b (set_free h false) = Some q ∧
    binder_insert_allocated_buffer q b = Some (set_allocated_buffers q t2) ∧
    heads (set_allocated_buffers q t2) (upd fr b false) (buffers p) ∧ is_tree t (k1 ++ k2) ∧ lf = k1 ++ b :: k2 ∧
    is_tree t2 (a1 ++ b :: a2) ∧ la = a1 ++ a2 ∧ StronglySorted Z.lt (a1 ++ b :: a2).
Proof.
  intros Hc Hb. pose proof Hb as Hb'. apply (ai_free_mem _ _ _ _ Hc) in Hb' as [Hin Hfb].
  apply list_elem_of_split in Hb as (k1 & k2 & ->).
  destruct (is_tree_erase _ _ _ _ (ai_free _ _ _ _ Hc)) as (t & Ht & Htree).
  pose proof (heads_trees p fr _ t (allocated_buffers p) (free_async_space p) (ai_heads _ _ _ _ Hc)) as H1.
  change (mk_proc _ _ _ _ _ _ _ _ _ _ _ _ _) with (set_free_buffers p t) in H1.
  destruct (heads_bufp _ _ _ H1 b Hin) as (h & Eb & Eh & _).
  destruct (heads_write _ _ _ b (set_free h false) H1 Hin) as [Hw H2]. simpl in H2.
  set (q := set_hdrs (set_free_buffers p t) (<[b:=set_free h false]> (hdrs p))) in *.
  assert (Hbla : b ∉ la) by (rewrite (ai_alloc_mem _ _ _ _ Hc), Hfb; by intros [_ ?]).
  destruct (insert_allocated_spec q (upd fr b false) (buffers p) la b H2) as (t2 & a1 & a2 & Hins & Ha & Ht2 & Hs2).
  - apply (ai_alloc _ _ _ _ Hc).
  - intros x Hx. apply (ai_alloc_mem _ _ _ _ Hc) in Hx as Hx'. destruct Hx' as [? ?]. split; [done|].
    rewrite upd_ne; [done|congruence].
  - apply (ai_order _ _ _ _ Hc).
  - done.
  - apply upd_eq.
  - done.
  - exists t, h, t2, k1, k2, a1, a2. split_and!; try done. 
    pose proof (heads_trees q _ _ (free_buffers q) t2 (free_async_space q) H2). done.
Qed.

(** The common end of [alloc_commit]. *)
Lemma commit_end q fr l b ds os async :
  heads q fr l → b ∈ l → fr b = false →
  ∃ h, bufp q b = Some h ∧
    let hn := mk_buf (free h) (allow_user_free h) async (debug_id h) (transaction h) (target_node h) ds os in
    write_buf q b hn = Some (set_hdrs q (<[b := hn]> (hdrs q))) ∧ free h = false ∧
    ∀ s, heads (set_async (set_hdrs q (<[b := hn]> (hdrs q))) s) fr l.
Proof.
  intros Hh Hb Hf. destruct (heads_bufp _ _ _ Hh b Hb) as (h & Eb & _ & Ef). exists h. split; [done|]. intros hn.
  destruct (heads_write _ _ _ b hn Hh Hb) as [Hw H2]. split; [done|]. split; [congruence|]. intros s.
  pose proof (heads_trees _ _ _ (free_buffers q) (allocated_buffers q) s H2) as H3.
  eapply heads_ext; [|exact H3]. intros x _. simpl. destruct (decide (x = b)) as [->|]; [rewrite upd_eq; congruence|].
  by rewrite upd_ne.
Qed.

Lemma async_u32 p fr lf la size :
  alloc_core p fr lf la → 0 ≤ size → size + HDR ≤ free_async_space p →
  u32 (free_async_space p - (size + HDR)) = free_async_space p - (size + HDR).
Proof.
  intros Hc Hs Hle. pose proof (ai_async _ _ _ _ Hc). pose proof (charges_nonneg (hdrs p) (buffers p)).
  destruct (hd_area _ _ _ (ai_heads _ _ _ _ Hc)). unfold fin in *.
  assert (buffer_size p / 2 ≤ buffer_size p) by (apply Z.div_le_upper_bound; lia).
  apply u32_small. hdr. lia.
Qed.

(** Charges after the header of an unallocated buffer has been rewritten. *)
Lemma charges_allocate (h h' : gmap Z binder_buffer) l1 b l2 x :
  b ∉ l1 → b ∉ l2 → (∀ c, c ∈ l1 ∨ c ∈ l2 → h' !! c = h !! c) → h' !! b = Some x →
  charges h' (l1 ++ b :: l2) = charges h l1 + charge h' b + charges h l2.
Proof.
  intros H1 H2 He Hx. rewrite charges_app. simpl.
  assert (Hext : ∀ l, (∀ c, c ∈ l → h' !! c = h !! c) → charges h' l = charges h l).
  { induction l as [|c l IH]; simpl; [done|]. intros Hl. rewrite IH by (intros; apply Hl; by right).
    unfold charge. by rewrite (Hl c) by (by left). }
  rewrite !Hext by (intros; apply He; auto). lia.
Qed.

Lemma NoDup_middle (k1 : list Z) b k2 : NoDup (k1 ++ b :: k2) → b ∉ k1 ++ k2.
Proof.
  intros (_ & Hd & [? _]%NoDup_cons)%NoDup_app. intros [Hx|Hx]%elem_of_app; [|done]. eapply Hd; [exact Hx|by left].
Qed.

(** The members of the trees when the flag of [b] changes. *)
Lemma members_remove (k1 k2 : list Z) (P : Z → Prop) fr b f :
  NoDup (k1 ++ b :: k2) → (∀ x, x ∈ k1 ++ b :: k2 ↔ P x ∧ fr x = f) →
  ∀ x, x ∈ k1 ++ k2 ↔ P x ∧ upd fr b (negb f) x = f.
Proof.
  intros Hnd%NoDup_middle Hm x. specialize (Hm x). destruct (decide (x = b)) as [->|Hne].
  - rewrite upd_eq. split; [done|]. by destruct f; intros [_ ?].
  - rewrite upd_ne by done. rewrite <- Hm, !elem_of_app, elem_of_cons. tauto.
Qed.

Lemma members_add (k1 k2 : list Z) (P : Z → Prop) fr b f :
  P b → (∀ x, x ≠ b → x ∈ k1 ++ k2 ↔ P x ∧ fr x = f) → ∀ x, x ∈ k1 ++ b :: k2 ↔ P x ∧ upd fr b f x = f.
Proof.
  intros Hb Hm x. specialize (Hm x). destruct (decide (x = b)) as [->|Hne].
  - rewrite upd_eq. split; [done|]. intros _. apply elem_of_app. right. by left.
  - rewrite upd_ne by done. rewrite <- Hm by done. rewrite !elem_of_app, elem_of_cons. tauto.
Qed.

Lemma coalesced_allocate fr b l : coalesced fr l → coalesced (upd fr b false) l.
Proof.
  induction l as [|x l IH]; simpl; [done|]. intros [Hx Hl]. split; [|by apply IH]. destruct l as [|y l]; [done|].
  unfold upd. destruct (x =? b), (y =? b); auto.
Qed.

Lemma commit_async p fr lf la q size ds os (async : bool) :
  alloc_core p fr lf la → size = request_size ds os → (async = true → size + HDR ≤ free_async_space p) →
  free_async_space q = free_async_space p →
  let s := free_async_space p - (if async then size + HDR else 0) in
  0 ≤ s ∧ (if async then set_async q (u32 (free_async_space q - (size + HDR))) else q) = set_async q s.
Proof.
  intros Hc Hsize Hasync Hq s. pose proof (ai_async_pos _ _ _ _ Hc). pose proof (request_size_range ds os). unfold s.
  destruct async.
  - specialize (Hasync eq_refl). split; [lia|]. rewrite Hq. erewrite async_u32; [done|done|lia|done].
  - split; [lia|]. rewrite Z.sub_0_r, <- Hq. by destruct q.
Qed.

Lemma charge_free p fr l b : heads p fr l → b ∈ l → fr b = true → charge (hdrs p) b = 0.
Proof.
  intros Hh Hb Hf. destruct (heads_bufp _ _ _ Hh b Hb) as (h & _ & Eh & Ef). unfold charge. rewrite Eh, Ef, Hf. done.
Qed.

Lemma commit_nosplit e p fr lf la b size ds os (async : bool) :
  alloc_core p fr lf la → b ∈ lf → size = request_size ds os → size ≤ bsize (buffers p) (fin p) b →
  (async = true → size + HDR ≤ free_async_space p) →
  (∀ n, present p n ↔ cover (upd fr b false) (buffers p) (fin p) n) →
  ∃ p' lf' la', alloc_commit e p b size size ds os async = Some (p', Some b) ∧
    alloc_inv p' (upd fr b false) lf' la' ∧ allocated_as p p' la la' b size ds os async.
Proof.
  intros Hc Hb Hsize Hfit Hasync Hp. pose proof Hb as Hb'. apply (ai_free_mem _ _ _ _ Hc) in Hb' as [Hin Hfb].
  destruct (commit_begin p fr lf la b Hc Hb) as (t & h & t2 & k1 & k2 & a1 & a2 & He & Eh & Eb & Hrest).
  cbv zeta in Hrest. destruct Hrest as (Hw & Hins & Hh & Ht & -> & Ht2 & -> & Hs2).
  unfold alloc_commit. rewrite He. cbn [mbind option_bind]. rewrite Eb. cbn [mbind option_bind]. rewrite Hw.
  cbn [mbind option_bind]. rewrite Hins, Z.eqb_refl. cbn [mbind option_bind negb].
  destruct (commit_end _ _ _ b ds os async Hh Hin (upd_eq _ _ _)) as (h2 & E2 & Hrest). cbv zeta in Hrest.
  destruct Hrest as (Hw2 & Hf2 & Hh2). rewrite E2. cbn [mbind option_bind]. rewrite Hw2. cbn [mbind option_bind].
  set (hn := mk_buf _ _ async _ _ _ ds os) in *. set (q := set_hdrs _ (<[b:=hn]> _)) in *.
  set (s := free_async_space p - (if async then size + HDR else 0)).
  destruct (commit_async p fr _ _ q size ds os async Hc Hsize Hasync eq_refl) as [Hs0 ->]. fold s in Hs0 |- *.
  exists (set_async q s), (k1 ++ k2), (a1 ++ b :: a2). split; [done|].
  assert (Hhn : ∀ x, hdrs (set_async q s) !! x = if decide (x = b) then Some hn else hdrs p !! x).
  { intros x. simpl. case_decide as Hx; [subst; by rewrite lookup_insert_eq|]. by rewrite !lookup_insert_ne. }
  assert (Hbla : b ∉ a1 ++ a2) by (rewrite (ai_alloc_mem _ _ _ _ Hc), Hfb; by intros [_ ?]).
  split; [split; [split|]|split].
  - apply Hh2.
  - apply (ai_start _ _ _ _ Hc).
  - apply coalesced_allocate, (ai_coalesced _ _ _ _ Hc).
  - done.
  - apply (StronglySorted_remove _ _ b). apply (ai_sorted _ _ _ _ Hc).
  - apply (members_remove k1 k2 (λ x, x ∈ buffers p) fr b true); [|apply (ai_free_mem _ _ _ _ Hc)].
    eapply is_tree_NoDup, (ai_free _ _ _ _ Hc).
  - done.
  - done.
  - apply (members_add a1 a2 (λ x, x ∈ buffers p) fr b false); [done|]. intros x _. apply (ai_alloc_mem _ _ _ _ Hc).
  - intros x hx Hx. rewrite Hhn. case_decide as Hxb; [subst; by intros [= <-] _|]. by apply (ai_fits _ _ _ _ Hc).
  - pose proof (ai_async _ _ _ _ Hc) as Ha. pose proof (charge_free _ _ _ _ (ai_heads _ _ _ _ Hc) Hin Hfb) as E0.
    apply list_elem_of_split in Hin as (l1 & l2 & El).
    destruct (not_before _ _ _ (ai_heads _ _ _ _ Hc) _ _ _ El) as [Hn1 Hn2].
    change (buffers (set_async q s)) with (buffers p). rewrite El in Ha |- *. rewrite charges_app in Ha. simpl in Ha.
    rewrite (charges_allocate (hdrs p) _ l1 b l2 hn); [|done|done| |by rewrite Hhn, decide_True].
    2:{ intros c Hcl. rewrite Hhn, decide_False; [done|]. intros ->. by destruct Hcl. }
    assert (E1 : charge (hdrs (set_async q s)) b = if async then size + HDR else 0).
    { unfold charge. rewrite Hhn, decide_True by done. unfold hn. simpl. rewrite Hf2. simpl. destruct async; [by rewrite Hsize|done]. }
    rewrite E1. unfold s. simpl. lia.
  - done.
  - apply Hp.
  - done.
  - intros x. rewrite !elem_of_app, elem_of_cons. tauto.
  - intros x Hx. split; [|done]. rewrite Hhn, decide_False; [done|]. congruence.
  - exists hn. rewrite Hhn, decide_True by done. done.
  - simpl. lia.
  - done.
Qed.

(** When [b] is split, the free buffers other than [b] keep their sizes. *)
Lemma split_sorted l1 b nb l2 fin lf :
  StronglySorted (by_size (l1 ++ b :: l2) fin) lf → b ∉ lf → nb ∉ lf →
  StronglySorted (by_size (l1 ++ b :: nb :: l2) fin) lf.
Proof.
  intros Hs Hb Hn. eapply StronglySorted_impl_in; [|exact Hs]. unfold by_size, bsize. intros x y Hx Hy.
  by rewrite !end_of_insert by congruence.
Qed.

Lemma split_coalesced fr l1 b nb l2 :
  coalesced fr (l1 ++ b :: l2) → fr b = true → b ≠ nb → nb ∉ l1 → nb ∉ l2 → b ∉ l2 →
  coalesced (upd (upd fr b false) nb true) (l1 ++ b :: nb :: l2).
Proof.
  intros Hc Hb Hne H1 H2 H3. apply (coalesced_allocate fr b) in Hc as Hc'.
  apply coalesced_app in Hc' as (Hc1 & [_ Hc2] & Hc3). apply coalesced_app in Hc as (_ & [Hb' _] & _).
  assert (He : ∀ l : list Z, nb ∉ l → ∀ x, x ∈ l → upd fr b false x = upd (upd fr b false) nb true x).
  { intros l Hl x Hx. rewrite (upd_ne _ nb); [done|congruence]. }
  apply coalesced_app. split_and!.
  - by apply (coalesced_ext _ _ _ (He l1 H1)).
  - simpl. split; [left; by rewrite upd_ne, upd_eq|]. split; [|by apply (coalesced_ext _ _ _ (He l2 H2))].
    destruct l2 as [|c l2]; [done|]. right. destruct Hb' as [?|Hf]; [congruence|].
    rewrite !upd_ne; [done|..]; set_solver.
  - intros x y _ [= <-]. right. by rewrite upd_ne, upd_eq.
Qed.

Lemma split_members (l1 l2 k1 k2 f1 f2 : list Z) fr b nb :
  NoDup (k1 ++ b :: k2) → (∀ x, x ∈ k1 ++ b :: k2 ↔ x ∈ l1 ++ b :: l2 ∧ fr x = true) → k1 ++ k2 = f1 ++ f2 →
  nb ∉ k1 ++ k2 →
  ∀ x, x ∈ f1 ++ nb :: f2 ↔ x ∈ l1 ++ b :: nb :: l2 ∧ upd (upd fr b false) nb true x = true.
Proof.
  intros Hnd Hm Hk Hn. apply (members_add f1 f2 (λ x, x ∈ l1 ++ b :: nb :: l2)); [set_solver|]. intros x Hx.
  rewrite <- Hk, (members_remove k1 k2 (λ x, x ∈ l1 ++ b :: l2) fr b true Hnd Hm x). simpl. set_solver.
Qed.

Lemma split_fresh l1 b nb l2 fin :
  tiled (l1 ++ b :: l2) fin → b + HDR ≤ nb → nb + HDR ≤ nxt l2 fin → nb ∉ l1 ∧ nb ∉ l2 ∧ b ≠ nb ∧ nb ∉ l1 ++ b :: l2.
Proof.
  intros Ht Hb Hnb. destruct (cover_parts l1 b l2 fin Ht) as (Ht1 & _ & Ht2 & _).
  assert (nb ∉ l1 ∧ nb ∉ l2 ∧ b ≠ nb) as (? & ? & ?).
  { split_and!; [intros Hx; pose proof (tiled_bounds _ _ _ Ht1 Hx)|intros Hx; pose proof (tiled_bounds _ _ _ Ht2 Hx)|];
      hdr; lia. }
  split_and!; try done. rewrite elem_of_app, elem_of_cons. intros [?|[?|?]]; congruence.
Qed.

(** The buffer behind the one that is allocated. *)
Lemma split_insert e q fr l1 b nb l2 lf :
  heads q fr (l1 ++ b :: l2) → is_tree (free_buffers q) lf →
  (∀ x, x ∈ lf → x ∈ l1 ++ b :: l2 ∧ x ≠ b ∧ fr x = true) → StronglySorted (by_size (l1 ++ b :: l2) (fin q)) lf →
  b + HDR ≤ nb → nb + HDR ≤ nxt l2 (fin q) → (4 | nb) → (∀ n, pg nb ≤ n ≤ pg (nb + HDR - 1) → present q n) →
  ∃ t f1 f2, let q' := set_free_buffers (set_hdrs (set_buffers q (l1 ++ b :: nb :: l2))
                          (<[nb := set_free (junk e nb) true]> (hdrs q))) t in
    (q ← write_buf (set_buffers q (l1 ++ b :: nb :: l2)) nb (set_free (junk e nb) true); binder_insert_free_buffer q nb)
      = Some q' ∧ heads q' (upd fr nb true) (l1 ++ b :: nb :: l2) ∧ lf = f1 ++ f2 ∧ is_tree t (f1 ++ nb :: f2) ∧
    StronglySorted (by_size (l1 ++ b :: nb :: l2) (fin q)) (f1 ++ nb :: f2).
Proof.
  intros Hh Ht Hlf Hs Hb Hnb H4 Hp. destruct (split_fresh l1 b nb l2 (fin q) (hd_tiled _ _ _ Hh) Hb Hnb) as (_ & _ & Hbn & Hnew).
  assert (nb ∉ lf) by (intros Hx; by apply Hlf in Hx as (? & _ & _)).
  assert (b ∉ lf) by (intros Hx; by apply Hlf in Hx as (_ & ? & _)).
  destruct (heads_add q fr l1 b nb l2 (set_free (junk e nb) true) Hh Hb Hnb H4 Hp) as [Hw Hh'].
  set (q1 := set_hdrs _ _) in *. rewrite Hw. cbn [mbind option_bind].
  destruct (insert_free_spec q1 _ _ lf nb Hh') as (t & f1 & f2 & Hins & Hf & Ht' & Hs').
  - done.
  - intros x Hx. destruct (Hlf x Hx) as (? & ? & ?). split; [set_solver|]. rewrite upd_ne; [done|congruence].
  - by apply split_sorted.
  - set_solver.
  - apply upd_eq.
  - done.
  - exists t, f1, f2. cbv zeta. split_and!; try done.
    exact (heads_trees q1 _ _ t (allocated_buffers q1) (free_async_space q1) Hh').
Qed.

Lemma commit_split e p fr lf la b size ds os (async : bool) :
  alloc_core p fr lf la → b ∈ lf → size = request_size ds os → (4 | size) →
  size + HDR < bsize (buffers p) (fin p) b → (async = true → size + HDR ≤ free_async_space p) →
  let nb := b + HDR + size in
  (∀ n, present p n ↔ cover (upd (upd fr b false) nb true) (list_add_after (buffers p) b nb) (fin p) n) →
  ∃ p' lf' la', alloc_commit e p b size (size + HDR) ds os async = Some (p', Some b) ∧
    alloc_inv p' (upd (upd fr b false) nb true) lf' la' ∧ allocated_as p p' la la' b size ds os async ∧
    bsize (buffers p') (fin p) b = size.
Proof.
  intros Hc Hb Hsize H4 Hfit Hasync nb Hp. pose proof Hb as Hb'. apply (ai_free_mem _ _ _ _ Hc) in Hb' as [Hin Hfb].
  destruct (commit_begin p fr lf la b Hc Hb) as (t & h & t2 & k1 & k2 & a1 & a2 & He & Eh & Eb & Hrest).
  cbv zeta in Hrest. destruct Hrest as (Hw & Hins & Hh & Ht & -> & Ht2 & -> & Hs2).
  pose proof (ai_heads _ _ _ _ Hc) as Hh0. pose proof (request_size_range ds os) as Hsr.
  destruct (heads_range _ _ _ Hh0 b Hin) as (_ & _ & _ & _ & Hb4).
  pose proof Hin as Hin'. apply list_elem_of_split in Hin' as (l1 & l2 & El).
  destruct (not_before _ _ _ Hh0 _ _ _ El) as [Hn1 Hn2]. rewrite El, list_add_after_app in Hp by done.
  assert (Hend : nb + HDR ≤ nxt l2 (fin p)) by (unfold bsize in Hfit; rewrite El, end_of_app in Hfit by done; unfold nb; lia).
  destruct (split_fresh l1 b nb l2 (fin p)) as (Hnb1 & Hnb2 & Hbn & Hnbl);
    [rewrite <- El; apply (hd_tiled _ _ _ Hh0)|unfold nb; lia|done|].
  pose proof (is_tree_NoDup _ _ (ai_free _ _ _ _ Hc)) as Hnd. pose proof (NoDup_middle _ _ _ Hnd) as Hbk.
  assert (Hmem := ai_free_mem _ _ _ _ Hc). rewrite El in Hmem.
  unfold alloc_commit. rewrite He. cbn [mbind option_bind]. rewrite Eb. cbn [mbind option_bind]. rewrite Hw.
  cbn [mbind option_bind]. rewrite Hins. destruct (Z.eqb_spec (size + HDR) size) as [E|_]; [hdr; lia|].
  cbn [mbind option_bind negb]. fold nb.
  set (q := set_allocated_buffers _ t2) in *. change (buffers q) with (buffers p).
  rewrite El in Hh |- *. rewrite list_add_after_app by done.
  destruct (split_insert e q _ l1 b nb l2 (k1 ++ k2) Hh) as (t4 & f1 & f2 & Hrest); try done.
  { intros x Hx. rewrite (members_remove k1 k2 (λ x, x ∈ l1 ++ b :: l2) fr b true Hnd Hmem x) in Hx.
    destruct Hx as [? Hx]. split_and!; [done| |done]. intros ->. by rewrite upd_eq in Hx. }
  { apply (StronglySorted_remove _ _ b). rewrite <- El. apply (ai_sorted _ _ _ _ Hc). }
  { unfold nb. lia. }
  { unfold nb. apply Z.divide_add_r; [|done]. apply Z.divide_add_r; [done|by exists 10]. }
  { intros n Hn. apply (Hp n). change (b :: nb :: l2) with ([b] ++ nb :: l2). rewrite app_assoc. apply cover_mid.
    right; left. split; [lia|left; lia]. }
  cbv zeta in Hrest. destruct Hrest as (-> & Hh4 & Hk & Ht4 & Hs4). set (q4 := set_free_buffers _ t4) in *.
  cbn [mbind option_bind].
  destruct (commit_end q4 _ _ b ds os async Hh4) as (h2 & E2 & Hrest); [set_solver|by rewrite upd_ne, upd_eq|].
  cbv zeta in Hrest. destruct Hrest as (Hw2 & Hf2 & Hh2). rewrite E2. cbn [mbind option_bind]. rewrite Hw2.
  cbn [mbind option_bind]. set (hn := mk_buf _ _ async _ _ _ ds os) in *. set (q5 := set_hdrs _ (<[b:=hn]> _)) in *.
  set (s := free_async_space p - (if async then size + HDR else 0)).
  destruct (commit_async p fr _ _ q5 size ds os async Hc Hsize Hasync eq_refl) as [Hs0 ->]. fold s in Hs0 |- *.
  exists (set_async q5 s), (f1 ++ nb :: f2), (a1 ++ b :: a2). split; [done|].
  assert (Hhn : ∀ x, x ≠ nb → hdrs (set_async q5 s) !! x = if decide (x = b) then Some hn else hdrs p !! x).
  { intros x Hx. simpl. case_decide as Hxb; [subst; by rewrite lookup_insert_eq|]. by rewrite !lookup_insert_ne. }
  assert (Hla : ∀ x, x ∈ a1 ++ a2 → x ∈ l1 ++ b :: l2 ∧ x ≠ b ∧ x ≠ nb).
  { intros x Hx. apply (ai_alloc_mem _ _ _ _ Hc) in Hx as [Hx Hfx]. rewrite El in Hx. split_and!; congruence. }
  assert (Hbs : bsize (l1 ++ b :: nb :: l2) (fin p) b = size) by (unfold bsize; rewrite end_of_app by done; unfold nxt, nb; simpl; lia).
  split; [split; [split|]|split; [split|]].
  - apply Hh2.
  - pose proof (ai_start _ _ _ _ Hc) as Hst. rewrite El in Hst. by destruct l1.
  - apply split_coalesced; try done. rewrite <- El. apply (ai_coalesced _ _ _ _ Hc).
  - done.
  - done.
  - apply (split_members l1 l2 k1 k2); try done. intros Hx. apply Hnbl, Hmem. set_solver.
  - done.
  - done.
  - intros x. change (buffers (set_async q5 s)) with (l1 ++ b :: nb :: l2). destruct (decide (x = nb)) as [->|Hne].
    + rewrite upd_eq. split; [|by intros [_ ?]]. intros Hx. exfalso.
      assert (Hx' : nb ∈ a1 ++ a2) by set_solver. by apply Hla in Hx' as (_ & _ & ?).
    + rewrite upd_ne by done. rewrite (members_add a1 a2 (λ x, x ∈ buffers p) fr b false); [|done|].
      * rewrite El. set_solver.
      * intros y _. apply (ai_alloc_mem _ _ _ _ Hc).
  - intros x hx Hx. destruct (decide (x = nb)) as [->|Hne].
    + simpl. rewrite lookup_insert_ne, lookup_insert_eq by done. by intros [= <-].
    + rewrite Hhn by done. change (fin (set_async q5 s)) with (fin p). change (buffers (set_async q5 s)) with (l1 ++ b :: nb :: l2) in *.
      case_decide as Hxb; [subst x; intros [= <-] _; rewrite Hbs; simpl; lia|].
      intros Hhx Hf. unfold bsize. rewrite end_of_insert, <- El by done. apply (ai_fits _ _ _ _ Hc); [|done|done].
      rewrite El. set_solver.
  - pose proof (ai_async _ _ _ _ Hc) as Ha. pose proof (charge_free _ _ _ _ Hh0 Hin Hfb) as E0.
    rewrite El, charges_app in Ha. simpl in Ha. change (buffers (set_async q5 s)) with (l1 ++ b :: nb :: l2).
    set (hm := <[nb := set_free (junk e nb) true]> (hdrs p)).
    rewrite (charges_allocate hm _ l1 b (nb :: l2) hn); [|done|set_solver| |by rewrite Hhn, decide_True].
    2:{ intros c Hcl. unfold hm. destruct (decide (c = nb)) as [->|]; [simpl; by rewrite lookup_insert_ne, !lookup_insert_eq by done|].
        rewrite Hhn, lookup_insert_ne, decide_False; try done. intros ->. set_solver. }
    assert (E1 : charge (hdrs (set_async q5 s)) b = if async then size + HDR else 0).
    { unfold charge. rewrite Hhn, decide_True by done. unfold hn. simpl. rewrite Hf2. simpl. destruct async; [by rewrite Hsize|done]. }
    assert (E2' : charge hm nb = 0) by (unfold charge, hm; by rewrite lookup_insert_eq).
    rewrite E1. simpl. rewrite E2'. unfold hm. rewrite !charges_insert by done. unfold s. lia.
  - done.
  - apply Hp.
  - done.
  - intros x. rewrite !elem_of_app, elem_of_cons. tauto.
  - intros x Hx. apply Hla in Hx as (_ & ? & ?). rewrite Hhn, decide_False by done. split; [done|].
    change (buffers (set_async q5 s)) with (l1 ++ b :: nb :: l2). rewrite El. unfold bsize. by rewrite end_of_insert.
  - exists hn. rewrite Hhn, decide_True by done. done.
  - change (buffers (set_async q5 s)) with (l1 ++ b :: nb :: l2). rewrite Hbs. hdr. lia.
  - done.
  - done.
Qed.

(** The smallest of the free buffers [lf] that hold [size] bytes. *)
Definition best_fit (p : binder_proc) (lf : list Z) (size b : Z) : Prop :=
  b ∈ lf ∧ size ≤ bsize (buffers p) (fin p) b ∧
  ∀ x, x ∈ lf → size ≤ bsize (buffers p) (fin p) x → bsize (buffers p) (fin p) b ≤ bsize (buffers p) (fin p) x.

(** Why there is no buffer. *)
Definition alloc_refused (e : mm_env) (p : binder_proc) (lf : list Z) (ds os : Z) (async : bool) : Prop :=
  let size := request_size ds os in
  vma p = None ∨ size ≠ up4 ds + up4 os ∨ (async = true ∧ free_async_space p < size + HDR) ∨
  (∀ x, x ∈ lf → bsize (buffers p) (fin p) x < size) ∨
  ∃ b n, best_fit p lf size b ∧ data_page b ≤ n < pg (end_of (buffers p) (fin p) b) ∧
    (live_vma p = None ∨ ¬ available e p n).

(** The pages of the area the code asks for, and the two ways to go on. *)
Section alloc_pages.
Context (e : mm_env) (p : binder_proc) (fr : Z → bool) (lf la : list Z) (Hinv : alloc_inv p fr lf la).
Context (b size ds os : Z) (async : bool).
Context (Hb : b ∈ lf) (Hsize : size = request_size ds os) (H4 : (4 | size)).
Context (Hasync : async = true → size + HDR ≤ free_async_space p).

(** Allocating [x - (b + HDR)] bytes and continuing with [bs]. *)
Lemma alloc_with_pages x bs :
  b + HDR ≤ x ≤ end_of (buffers p) (fin p) b →
  (bs = size ∧ size ≤ bsize (buffers p) (fin p) b ∧ end_of (buffers p) (fin p) b ≤ x + HDR + 4 ∨
   bs = size + HDR ∧ x = b + HDR + size + HDR ∧ size + HDR < bsize (buffers p) (fin p) b) →
  let m2 := Z.min (pg (x - 1) + 1) (pg (end_of (buffers p) (fin p) b)) in
  ('(p, ret) ← binder_update_page_range e p true (PAGE_SIZE * data_page b) (PAGE_SIZE * m2) None;
   if ctrue ret then Some (p, None) else alloc_commit e p b size bs ds os async) = Some (p, None) ∧
    (∃ n, data_page b ≤ n < pg (end_of (buffers p) (fin p) b) ∧ (live_vma p = None ∨ ¬ available e p n)) ∨
  ∃ p' fr' lf' la',
    ('(p, ret) ← binder_update_page_range e p true (PAGE_SIZE * data_page b) (PAGE_SIZE * m2) None;
     if ctrue ret then Some (p, None) else alloc_commit e p b size bs ds os async) = Some (p', Some b) ∧
    alloc_inv p' fr' lf' la' ∧ allocated_as p p' la la' b size ds os async ∧
    (data_page b < m2 → is_Some (live_vma p) ∧ ∀ n, data_page b ≤ n < m2 → available e p n).
Proof using Hinv Hb Hsize H4 Hasync.
  intros Hx Hbs m2. destruct Hinv as [Hc Hp]. pose proof Hb as Hb'.
  apply (ai_free_mem _ _ _ _ Hc) in Hb' as [Hin Hfb]. pose proof (ai_heads _ _ _ _ Hc) as Hh.
  pose proof Hin as Hin'. apply list_elem_of_split in Hin' as (l1 & l2 & El).
  destruct (not_before _ _ _ Hh _ _ _ El) as [Hn1 Hn2]. pose proof (hd_tiled _ _ _ Hh) as Ht. rewrite El in Ht.
  assert (Eend : end_of (buffers p) (fin p) b = nxt l2 (fin p)) by (by rewrite El, end_of_app).
  destruct (heads_range _ _ _ Hh b Hin) as (Rb1 & Rb2 & Rb3 & Rb4 & _).
  destruct (area_pages p (hd_area _ _ _ Hh)) as (_ & HF & HB & _). pose proof (pg_le (buffer p) (b + HDR - 1) ltac:(hdr; lia)).
  pose proof (end_of_le _ _ _ (hd_tiled _ _ _ Hh) Hin) as [_ Hle]. pose proof (pg_le _ _ Hle) as Hlepg.
  assert (Em2 : m2 = Z.min (pg (x - 1) + 1) (pg (nxt l2 (fin p)))) by (unfold m2; by rewrite Eend). clearbody m2.
  rewrite Eend in *.
  destruct (update_alloc_spec e p None (live_vma p) (data_page b) m2 (hd_area _ _ _ Hh) eq_refl (hd_maps _ _ _ Hh))
    as [(p1 & -> & Ho & Hm1 & Hav & Hp1)|(-> & Hlt & Hav)].
  { unfold data_page. lia. }
  { lia. }
  { intros n Hn. rewrite Hp, El. apply free_gap; [done|done|]. lia. }
  2:{ left. cbn [mbind option_bind]. split; [done|]. destruct (live_vma p) as [v|] eqn:Hv.
      - destruct (Hav ltac:(done)) as (n & Hn & Hna). exists n. split; [lia|by right].
      - exists (data_page b). split; [lia|by left]. }
  right. cbn [mbind option_bind]. change (ctrue 0) with false. cbv iota.
  assert (Hc1 : alloc_core p1 fr lf la) by (eapply core_maps; [done|done|done|]; intros n Hn; apply Hp1; by left).
  assert (Hfin : fin p1 = fin p) by (by rewrite Ho). assert (Hbuf : buffers p1 = buffers p) by (by rewrite Ho).
  assert (Hasy : free_async_space p1 = free_async_space p) by (by rewrite Ho).
  assert (Hsame : ∀ p' la' size, allocated_as p1 p' la la' b size ds os async → allocated_as p p' la la' b size ds os async).
  { intros p' la' sz [A B C D E F]. rewrite Ho in A, C, E, F. by split. }
  destruct Hbs as [(-> & Hfit & Hend)|(-> & -> & Hfit)].
  - destruct (commit_nosplit e p1 fr lf la b size ds os async Hc1 Hb Hsize) as (p' & lf' & la' & -> & Hi & Haa).
    + by rewrite Hbuf, Hfin.
    + by rewrite Hasy.
    + intros n. rewrite Hp1, Hp, Hbuf, Hfin, El, cover_allocated by done.
      assert (Em : m2 = pg (nxt l2 (fin p))); [|by rewrite Em].
      rewrite Em2. pose proof (pg_bounds (x - 1)). pose proof (pg_bounds (nxt l2 (fin p))). hdr. lia.
    + exists p', (upd fr b false), lf', la'. split_and!; try done. by apply Hsame.
  - assert (Eb : bsize (buffers p) (fin p) b = nxt l2 (fin p) - (b + HDR)) by (unfold bsize; by rewrite Eend).
    destruct (commit_split e p1 fr lf la b size ds os async Hc1 Hb Hsize H4) as (p' & lf' & la' & -> & Hi & Haa & _).
    + by rewrite Hbuf, Hfin.
    + by rewrite Hasy.
    + intros n. rewrite Hp1, Hp, Hbuf, Hfin, El, list_add_after_app by done. 
      rewrite (cover_split fr l1 b l2 (fin p) Ht); [|done|pose proof (request_size_range ds os); lia|lia|exists (pg (fin p)); lia].
      by rewrite Em2.
    + exists p', (upd (upd fr b false) (b + HDR + size) true), lf', la'. split_and!; try done. by apply Hsame.
Qed.
End alloc_pages.

Lemma alloc_buf_cases e p fr lf la ds os async :
  alloc_inv p fr lf la → 0 ≤ ds < 2 ^ 32 → 0 ≤ os < 2 ^ 32 →
  let size := request_size ds os in
  (binder_alloc_buf e p ds os async = Some (p, None) ∧ alloc_refused e p lf ds os async) ∨
  (∃ p' b fr' lf' la', binder_alloc_buf e p ds os async = Some (p', Some b) ∧ alloc_inv p' fr' lf' la' ∧
     allocated_as p p' la la' b size ds os async ∧ best_fit p lf size b ∧ is_Some (vma p) ∧ size = up4 ds + up4 os ∧
     (async = true → size + HDR ≤ free_async_space p)).
Proof.
  intros Hinv Hds Hos size. pose proof Hinv as [Hc Hp]. pose proof (ai_heads _ _ _ _ Hc) as Hh.
  unfold alloc_refused, binder_alloc_buf. fold size. pose proof (request_size_range ds os) as Hsr. fold size in Hsr.
  destruct (vma p) as [v|] eqn:Hv; [|left; auto].
  destruct (Z.ltb_spec size ds) as [Hlt|Hd]; [left; split; [done|]; right; left; pose proof (up4_bounds ds); pose proof (up4_bounds os); lia|].
  destruct (Z.ltb_spec size os) as [Hlt|Ho]; [left; split; [done|]; right; left; pose proof (up4_bounds ds); pose proof (up4_bounds os); lia|].
  cbn [orb]. pose proof (request_size_exact ds os Hds Hos Hd Ho) as Hex. fold size in Hex.
  pose proof (request_size_aligned ds os Hds Hos) as H4. fold size in H4.
  destruct (async && (free_async_space p <? u32 (size + HDR))) eqn:Hasy.
  { left. split; [done|]. apply andb_true_iff in Hasy as [-> Hlt%Z.ltb_lt]. right; right; left. split; [done|].
    assert (u32 (size + HDR) ≤ size + HDR) by (apply Z.mod_le; hdr; lia). lia. }
  assert (Hmem : ∀ x, x ∈ lf → x ∈ buffers p ∧ fr x = true) by (intros x; by apply (ai_free_mem _ _ _ _ Hc)).
  destruct (best_fit_spec p size (bsize (buffers p) (fin p)) lf (ai_free _ _ _ _ Hc)) as (b & n & -> & Hres).
  { intros x Hx. destruct (Hmem x Hx). by apply (heads_free_size _ _ _ Hh). }
  { apply (ai_sorted _ _ _ _ Hc). }
  cbn [mbind option_bind].
  destruct Hres as [(-> & -> & Hsmall)|(Hb & Hb0 & Hfit & Hmin & Hn)]; [left; split; [done|]; auto|].
  destruct (Z.eqb_spec b 0); [done|]. destruct (Hmem b Hb) as [Hin Hfb].
  destruct (heads_size _ _ _ Hh b Hin) as [-> Hbs]. cbn [mbind option_bind].
  destruct (heads_range _ _ _ Hh b Hin) as (_ & Rb2 & Rb3 & Rb4 & _).
  pose proof (end_of_le _ _ _ (hd_tiled _ _ _ Hh) Hin) as [_ Hle].
  assert (Eend : b + HDR + bsize (buffers p) (fin p) b = end_of (buffers p) (fin p) b) by (unfold bsize; lia).
  assert (Hbest : best_fit p lf size b) by done.
  assert (Hasy' : async = true → size + HDR ≤ free_async_space p).
  { intros ->. apply andb_false_iff in Hasy as [?|Hge%Z.ltb_ge]; [done|]. rewrite u32_small in Hge by (hdr; lia). done. }
  rewrite !(u32_small (_ + bsize _ _ _)), (u32_small (size + HDR)), (u32_small (size + HDR + 4)) by (hdr; lia).
  rewrite (page_align_pg (b + HDR)) by (hdr; lia). fold (data_page b). rewrite Eend.
  set (bs := if n =? 0 then _ else _).
  assert (Hx : b + HDR ≤ b + HDR + bs ≤ end_of (buffers p) (fin p) b ∧
    ((if n =? 0 then bs else size) = size ∧ end_of (buffers p) (fin p) b ≤ b + HDR + bs + HDR + 4 ∧ bs = size ∨
     bs = size + HDR ∧ size + HDR < bsize (buffers p) (fin p) b)).
  { unfold bs. destruct Hn as [[-> Hlt]|[-> Heq]]; [rewrite Z.eqb_refl, Z.geb_leb|].
    - destruct (Z.leb_spec (bsize (buffers p) (fin p) b) (size + HDR + 4)); split; [|left|..|right]; hdr; lia.
    - destruct (Z.eqb_spec b 0); [done|]. split; [hdr; lia|left]. hdr. lia. }
  destruct Hx as [Hx Hcase]. rewrite (u32_small (b + HDR + bs)) by (hdr; lia).
  rewrite end_page by (hdr; lia).
  destruct (alloc_with_pages e p fr lf la Hinv b size ds os async Hb eq_refl H4 Hasy' (b + HDR + bs) bs Hx)
    as [(-> & k & Hk & Hun)|(p' & fr' & lf' & la' & -> & Hi & Haa & _)].
  { destruct Hcase as [(_ & ? & ->)|[-> ?]]; [left; split_and!; [done|done|lia]|right; split_and!; [done|lia|done]]. }
  - left. split; [done|]. do 4 right. by exists b, k.
  - right. exists p', b, fr', lf', la'. by split_and!.
Qed.

(** ** Freeing *)

(** The free buffers of [l1 ++ b :: l2] around the buffer [b] that is freed have
    been joined with it: [m1 ++ x :: m2] is left. *)
Definition joined (fr : Z → bool) (l1 : list Z) (b : Z) (l2 m1 : list Z) (x : Z) (m2 : list Z) : Prop :=
  (l1 = m1 ∧ x = b ∨ l1 = m1 ++ [x] ∧ fr x = true) ∧ (l2 = m2 ∨ ∃ d, l2 = d :: m2 ∧ fr d = true).

Lemma joined_end fr l1 b l2 m1 x m2 fin y :
  NoDup (l1 ++ b :: l2) → joined fr l1 b l2 m1 x m2 → y ∈ m1 ∨ y ∈ m2 →
  end_of (m1 ++ x :: m2) fin y = end_of (l1 ++ b :: l2) fin y.
Proof.
  intros Hnd [Hl Hr] Hy.
  assert (Hne : y ≠ b ∧ y ≠ x ∧ ∀ d, l2 = d :: m2 → y ≠ d).
  { apply NoDup_app in Hnd as (Hnd1 & Hd & Hnd2). apply NoDup_cons in Hnd2 as [Hb2 Hnd2]. split_and!.
    - intros ->. destruct Hy as [Hy|Hy]; [apply (Hd b); [destruct Hl as [[-> _]|[-> _]]; set_solver|by left]|].
      apply Hb2. destruct Hr as [->|(d & -> & _)]; set_solver.
    - intros ->. destruct Hl as [[-> ->]|[-> _]].
      + destruct Hy as [Hy|Hy]; [by apply (Hd b); [|left]|]. apply Hb2. destruct Hr as [->|(d & -> & _)]; set_solver.
      + destruct Hy as [Hy|Hy]; [apply NoDup_app in Hnd1 as (_ & Hd1 & _); by apply (Hd1 x Hy); left|].
        apply (Hd x); [set_solver|]. right. destruct Hr as [->|(d & -> & _)]; set_solver.
    - intros d -> ->. destruct Hy as [Hy|Hy].
      + apply (Hd d); [destruct Hl as [[-> _]|[-> _]]; set_solver|right; by left].
      + apply NoDup_cons in Hnd2 as [? _]. done. }
  destruct Hne as (Hyb & Hyx & Hyd).
  assert (E2 : end_of (l1 ++ b :: m2) fin y = end_of (l1 ++ b :: l2) fin y).
  { destruct Hr as [->|(d & -> & _)]; [done|]. by rewrite end_of_insert by auto. }
  rewrite <- E2. destruct Hl as [[-> ->]|[-> _]]; [done|]. rewrite <- app_assoc. simpl. by rewrite end_of_insert.
Qed.

(** The states between the two joins: the buffers are [l], the free tree [lf]. *)
Record freeing (p q : binder_proc) (fr : Z → bool) (l lf : list Z) (ta : rb_mem) (h : gmap Z binder_buffer) (s : Z)
    : Prop := {
  fg_heads : heads q fr l;
  fg_pages : ∀ n, present q n ↔ cover fr l (fin q) n;
  fg_free : is_tree (free_buffers q) lf;
  fg_area : same_area p q;
  fg_rest : allocated_buffers q = ta ∧ hdrs q = h ∧ free_async_space q = s }.

(** Taking [x] out of the free tree. *)
Lemma freeing_erase p q fr l lf ta h s x :
  freeing p q fr l lf ta h s → x ∈ lf →
  ∃ t lf', rb_erase (free_buffers q) x = Some t ∧ freeing p (set_free_buffers q t) fr l lf' ta h s ∧
    (∀ y, y ∈ lf' ↔ y ∈ lf ∧ y ≠ x) ∧ ∀ R, StronglySorted R lf → StronglySorted R lf'.
Proof.
  intros [Hh Hp Ht Ha Hr] Hx. pose proof (is_tree_NoDup _ _ Ht) as Hnd. apply list_elem_of_split in Hx as (k1 & k2 & ->).
  destruct (is_tree_erase _ _ _ _ Ht) as (t & -> & Ht'). exists t, (k1 ++ k2). split; [done|]. split; [|split].
  - split; [exact (heads_trees q _ _ t (allocated_buffers q) (free_async_space q) Hh)|done..].
  - intros y. apply NoDup_middle in Hnd. rewrite !elem_of_app, elem_of_cons. set_solver.
  - intros R. apply StronglySorted_remove.
Qed.

(** Giving up the header of [b] behind the free buffer [c]. *)
Lemma freeing_delete e p q fr l1 c b l2 lf ta h s :
  freeing p q fr (l1 ++ c :: b :: l2) lf ta h s → fr c = true → fr b = true →
  ∃ q', binder_delete_free_buffer e q b = Some q' ∧ freeing p q' fr (l1 ++ c :: l2) lf ta h s.
Proof.
  intros [Hh Hp Ht Ha Hr] Hc Hb. destruct (delete_free_spec e q fr l1 c b l2 Hh Hc Hb Hp) as (q' & -> & Ho & Hh' & Hp').
  exists q'. split; [done|]. unfold only_maps in Ho. split; [done|..].
  - intros n. rewrite Hp'. by rewrite Ho.
  - by rewrite Ho.
  - by rewrite Ho.
  - by rewrite Ho.
Qed.

Lemma merge_next e p q fr l1 b l2 lf ta h s :
  freeing p q fr (l1 ++ b :: l2) lf ta h s → fr b = true → coalesced fr l2 →
  (∀ x, x ∈ lf ↔ x ∈ l1 ++ b :: l2 ∧ fr x = true ∧ x ≠ b) →
  ∃ q' lf' m2, free_merge_next e q b = Some q' ∧ freeing p q' fr (l1 ++ b :: m2) lf' ta h s ∧
    (l2 = m2 ∨ ∃ d, l2 = d :: m2 ∧ fr d = true) ∧ (∀ y, head m2 = Some y → fr y = false) ∧
    (∀ x, x ∈ lf' ↔ x ∈ l1 ++ b :: m2 ∧ fr x = true ∧ x ≠ b) ∧ ∀ R, StronglySorted R lf → StronglySorted R lf'.
Proof.
  intros Hf Hb Hco Hm. pose proof (fg_heads _ _ _ _ _ _ _ _ Hf) as Hh. destruct (not_before _ _ _ Hh _ _ _ eq_refl) as [Hn1 Hn2].
  unfold free_merge_next. rewrite (hd_list _ _ _ Hh), list_next_app by done. cbn [mbind option_bind].
  destruct l2 as [|d l2]; simpl; [exists q, lf, []; split_and!; auto; done|].
  destruct (heads_bufp _ _ _ Hh d ltac:(set_solver)) as (hd & -> & _ & Ed). cbn [mbind option_bind]. rewrite Ed.
  destruct (fr d) eqn:Hd; [|exists q, lf, (d :: l2); split_and!; auto; by intros y [= <-]].
  assert (d ∈ lf) as Hdl by (apply Hm; set_solver).
  destruct (freeing_erase _ _ _ _ _ _ _ _ d Hf Hdl) as (t & lf' & -> & Hf' & Hm' & Hs'). cbn [mbind option_bind].
  destruct (freeing_delete e _ _ _ _ _ _ _ _ _ _ _ Hf' Hb Hd) as (q' & -> & Hf'').
  assert (Hnd : d ∉ l1 ++ b :: l2).
  { pose proof (tiled_NoDup _ _ (hd_tiled _ _ _ Hh)) as Hnd. change (b :: d :: l2) with ([b] ++ d :: l2) in Hnd.
    rewrite app_assoc in Hnd. apply NoDup_middle in Hnd. by rewrite <- app_assoc in Hnd. }
  exists q', lf', l2. split_and!; try done; [right; by exists d| |].
  - intros y Hy. destruct l2 as [|y' l2]; [done|]. injection Hy as ->. destruct Hco as [[?|?] _]; congruence.
  - intros x. rewrite Hm', Hm. set_solver.
Qed.

Lemma merge_prev e p q fr l1 b l2 lf ta h s :
  freeing p q fr (l1 ++ b :: l2) lf ta h s → fr b = true → coalesced fr l1 →
  (∀ x, x ∈ lf ↔ x ∈ l1 ++ b :: l2 ∧ fr x = true ∧ x ≠ b) →
  ∃ q' lf' m1 x0, free_merge_prev e q b = Some (q', x0) ∧ freeing p q' fr (m1 ++ x0 :: l2) lf' ta h s ∧
    (l1 = m1 ∧ x0 = b ∨ l1 = m1 ++ [x0] ∧ fr x0 = true ∧ x0 ≠ b) ∧ (∀ y, last m1 = Some y → fr y = false) ∧
    (∀ x, x ∈ lf' ↔ x ∈ m1 ++ x0 :: l2 ∧ fr x = true ∧ x ≠ x0) ∧ ∀ R, StronglySorted R lf → StronglySorted R lf'.
Proof.
  intros Hf Hb Hco Hm. pose proof (fg_heads _ _ _ _ _ _ _ _ Hf) as Hh. destruct (not_before _ _ _ Hh _ _ _ eq_refl) as [Hn1 Hn2].
  unfold free_merge_prev. rewrite (hd_list _ _ _ Hh), list_prev_app by done. cbn [mbind option_bind].
  destruct l1 as [|c l1 _] using rev_ind; [exists q, lf, [], b; split_and!; auto; done|]. rewrite last_snoc.
  destruct (heads_bufp _ _ _ Hh c ltac:(set_solver)) as (hc & -> & _ & Ec). cbn [mbind option_bind]. rewrite Ec.
  destruct (fr c) eqn:Hc.
  2:{ exists q, lf, (l1 ++ [c]), b. split_and!; auto. intros y. rewrite last_snoc. by intros [= <-]. }
  assert (c ∈ lf) as Hcl by (apply Hm; set_solver). rewrite <- app_assoc in Hf. simpl in Hf.
  destruct (freeing_delete e _ _ _ _ _ _ _ _ _ _ _ Hf Hc Hb) as (q' & -> & Hf'). cbn [mbind option_bind].
  destruct (freeing_erase _ _ _ _ _ _ _ _ c Hf' Hcl) as (t & lf' & -> & Hf'' & Hm' & Hs'). cbn [mbind option_bind].
  assert (Hne : c ≠ b) by set_solver. pose proof (tiled_NoDup _ _ (hd_tiled _ _ _ (fg_heads _ _ _ _ _ _ _ _ Hf))) as Hnd.
  exists (set_free_buffers q' t), lf', l1, c. split_and!; try done; [by right| |].
  - intros y Hy. apply coalesced_app in Hco as (_ & _ & Hco). destruct (Hco y c Hy eq_refl); congruence.
  - intros x. rewrite Hm', Hm. rewrite !elem_of_app, !elem_of_cons, elem_of_nil.
    assert (b ∉ l1) by set_solver. split; [intros ((? & ? & ?) & ?)|intros (? & ? & ?)]; split_and!; try tauto.
    intros ->. tauto.
Qed.

(** The beginning of [binder_free_buf], up to the first join. *)
Lemma free_begin e p fr lf la b h :
  alloc_inv p fr lf la → b ∈ la → hdrs p !! b = Some h → transaction h = 0 →
  ∃ q ta a1 a2, la = a1 ++ b :: a2 ∧ is_tree ta (a1 ++ a2) ∧
    freeing p q (upd fr b true) (buffers p) lf ta (<[b := set_free h true]> (hdrs p))
      (free_async_space p + charge (hdrs p) b) ∧
    binder_free_buf e p b =
      (p ← free_merge_next e q b; '(p, b) ← free_merge_prev e p b; binder_insert_free_buffer p b).
Proof.
  intros [Hc Hp] Hb Eh Htr. pose proof Hb as Hb'. apply (ai_alloc_mem _ _ _ _ Hc) in Hb' as [Hin Hfb].
  pose proof (ai_heads _ _ _ _ Hc) as Hh. destruct (heads_bufp _ _ _ Hh b Hin) as (h' & Eb & Eh' & Ef).
  assert (h' = h) as -> by congruence. rewrite Hfb in Ef.
  destruct (heads_size _ _ _ Hh b Hin) as [Esz Hsz]. destruct (heads_range _ _ _ Hh b Hin) as (Rb1 & Rb2 & Rb3 & Rb4 & _).
  pose proof (ai_fits _ _ _ _ Hc b h Hin Eh Ef) as Hfit. pose proof (ai_async _ _ _ _ Hc) as Hasy.
  pose proof (request_size_range (data_size h) (offsets_size h)) as Hrs.
  pose proof Hin as Hin'. apply list_elem_of_split in Hin' as (l1 & l2 & El).
  destruct (not_before _ _ _ Hh _ _ _ El) as [Hn1 Hn2]. pose proof (hd_tiled _ _ _ Hh) as Ht. rewrite El in Ht.
  assert (Eend : b + HDR + bsize (buffers p) (fin p) b = nxt l2 (fin p)) by (unfold bsize; rewrite El, end_of_app by done; lia).
  pose proof (proj2 (end_of_le _ _ _ (hd_tiled _ _ _ Hh) Hin)) as Hle. rewrite El, end_of_app in Hle by done.
  unfold binder_free_buf. rewrite Esz, Eb. cbn [mbind option_bind]. rewrite Ef, Htr, Eend.
  destruct (Z.gtb_spec (request_size (data_size h) (offsets_size h)) (bsize (buffers p) (fin p) b)); [lia|].
  change (ctrue 0) with false. destruct (Z.ltb_spec b (buffer p)); [lia|].
  fold (fin p). rewrite (u32_small (fin p)) by (hdr; lia). destruct (Z.gtb_spec b (fin p)); [hdr; lia|]. cbn [orb].
  set (s := free_async_space p + charge (hdrs p) b).
  assert (Ep : (if async_transaction h then set_async p (u32 (free_async_space p +
    (request_size (data_size h) (offsets_size h) + HDR))) else p) = set_async p s).
  { unfold s, charge. rewrite Eh, Ef. cbn [negb andb]. destruct (async_transaction h) eqn:Ea; [|rewrite Z.add_0_r; by destruct p].
    f_equal. apply u32_small. pose proof (ai_async_pos _ _ _ _ Hc). rewrite El, charges_app in Hasy. simpl in Hasy.
    unfold charge in Hasy at 1. rewrite Eh, Ef, Ea in Hasy. simpl in Hasy.
    pose proof (charges_nonneg (hdrs p) l1). pose proof (charges_nonneg (hdrs p) l2).
    destruct (hd_area _ _ _ Hh) as [_ ? _ ? _].
    assert (buffer_size p / 2 ≤ buffer_size p) by (apply Z.div_le_upper_bound; lia). unfold fin in *. hdr. lia. }
  rewrite Ep. rewrite page_align_pg by (hdr; lia). fold (data_page b). rewrite u32_small by (hdr; lia).
  fold (page_of (nxt l2 (fin p))). rewrite page_of_pg by (hdr; lia).
  set (fr1 := upd fr b true).
  assert (Hcov : ∀ n, cover fr (l1 ++ b :: l2) (fin p) n ↔
    cover fr1 (l1 ++ b :: l2) (fin p) n ∨ data_page b ≤ n < pg (nxt l2 (fin p))).
  { intros n. rewrite <- (cover_allocated fr1) by (done || apply upd_eq). apply cover_ext. intros x _. unfold fr1.
    destruct (decide (x = b)) as [->|]; [by rewrite upd_eq|by rewrite !upd_ne]. }
  pose proof (heads_trees p fr _ (free_buffers p) (allocated_buffers p) s Hh) as Hh1.
  change (mk_proc _ _ _ _ _ _ _ _ _ _ _ _ _) with (set_async p s) in Hh1.
  destruct (area_pages p (hd_area _ _ _ Hh)) as (_ & _ & HB & _). pose proof (pg_le (buffer p) (b + HDR - 1) ltac:(hdr; lia)).
  destruct (update_free_spec e (set_async p s) (data_page b) (pg (nxt l2 (fin p))) (hd_area _ _ _ Hh1) (hd_maps _ _ _ Hh1))
    as (p1 & r & -> & Ho & Hm1 & Hp1).
  { change (buffer (set_async p s)) with (buffer p). unfold data_page. lia. }
  { by apply pg_le. }
  { intros n Hn. change (present p n). rewrite Hp, El. apply Hcov. by right. }
  cbn [mbind option_bind]. pose proof Hb as Hb'. apply list_elem_of_split in Hb' as (a1 & a2 & ->).
  destruct (is_tree_erase _ _ _ _ (ai_alloc _ _ _ _ Hc)) as (ta & Hta & Htree).
  replace (allocated_buffers p1) with (allocated_buffers p) by (by rewrite Ho). rewrite Hta. cbn [mbind option_bind].
  assert (Hcov1 : ∀ n, present p1 n ↔ cover fr1 (buffers p) (fin p) n).
  { intros n. rewrite Hp1. change (present (set_async p s) n) with (present p n). rewrite Hp, El, Hcov.
    pose proof (free_gap fr1 l1 b l2 (fin p) Ht n (upd_eq _ _ _)). tauto. }
  assert (Hh2 : heads p1 fr (buffers p)).
  { eapply heads_maps; [exact Hh1|done|done|]. intros x n Hx Hn. apply Hcov1.
    apply list_elem_of_split in Hx as (k1 & k2 & ->). apply cover_mid. right; left. split; [lia|left; lia]. }
  pose proof (heads_trees p1 fr _ (free_buffers p1) ta (free_async_space p1) Hh2) as Hh3.
  change (mk_proc _ _ _ _ _ _ _ _ _ _ _ _ _) with (set_allocated_buffers p1 ta) in Hh3.
  destruct (heads_bufp _ _ _ Hh3 b Hin) as (h3 & -> & Eh3 & _). cbn [mbind option_bind].
  assert (h3 = h) as -> by (rewrite Ho in Eh3; simpl in Eh3; congruence).
  destruct (heads_write _ _ _ b (set_free h true) Hh3 Hin) as [-> Hh4]. cbn [mbind option_bind].
  eexists _, ta, a1, a2. split; [done|]. split; [done|]. split; [|done]. simpl in Hh4. split.
  - exact Hh4.
  - intros n. change (present p1 n ↔ cover fr1 (buffers p) (fin p1) n). rewrite Hcov1. by rewrite Ho.
  - simpl. rewrite Ho. apply (ai_free _ _ _ _ Hc).
  - by rewrite Ho.
  - simpl. by rewrite Ho.
Qed.

(** The buffer [b] has been given back; nothing else that is allocated has
    changed. *)
Record freed_as (p p' : binder_proc) (la la' : list Z) (b : Z) : Prop := {
  fa_area : same_area p p';
  fa_set : ∀ x, x ∈ la' ↔ x ∈ la ∧ x ≠ b;
  fa_others : ∀ x, x ∈ la' → hdrs p' !! x = hdrs p !! x ∧
    bsize (buffers p') (fin p) x = bsize (buffers p) (fin p) x;
  fa_async : free_async_space p' = free_async_space p + charge (hdrs p) b }.

Lemma joined_coalesced fr l1 b l2 m1 x m2 :
  joined fr l1 b l2 m1 x m2 → coalesced fr l1 → coalesced fr l2 →
  (∀ y, last m1 = Some y → fr y = false) → (∀ y, head m2 = Some y → fr y = false) → coalesced fr (m1 ++ x :: m2).
Proof.
  intros [Hl Hr] H1 H2 Hlast Hhead. apply coalesced_app. split_and!.
  - destruct Hl as [[-> _]|[-> _]]; [done|]. by apply coalesced_app in H1 as (? & _).
  - simpl. split; [destruct m2 as [|y m2]; [done|right; by apply Hhead]|].
    destruct Hr as [->|(d & -> & _)]; [done|by destruct H2].
  - intros y z Hy _. left. by apply Hlast.
Qed.

(** What the joins leave out has no charge. *)
Lemma joined_charges (h : gmap Z binder_buffer) fr l1 b l2 m1 x m2 :
  joined fr l1 b l2 m1 x m2 → (∀ y, y ∈ l1 ∨ y ∈ l2 → fr y = true → charge h y = 0) →
  charges h (l1 ++ b :: l2) = charges h m1 + charge h b + charges h m2.
Proof.
  intros [Hl Hr] Hz. rewrite charges_app. simpl.
  assert (charges h l1 = charges h m1) as ->.
  { destruct Hl as [[-> _]|[-> Hx]]; [done|]. rewrite charges_app. simpl. rewrite (Hz x) by (done || left; set_solver). lia. }
  assert (charges h l2 = charges h m2) as ->.
  { destruct Hr as [->|(d & -> & Hd)]; [done|]. simpl. rewrite (Hz d) by (done || right; set_solver). lia. }
  lia.
Qed.

Lemma joined_sub fr l1 b l2 m1 x m2 y :
  joined fr l1 b l2 m1 x m2 → y ∈ m1 ++ x :: m2 → y ∈ l1 ++ b :: l2.
Proof.
  intros [[[-> ->]|[-> _]] [->|(d & -> & _)]]; rewrite ?elem_of_app, ?elem_of_cons, ?elem_of_app, ?elem_of_cons; tauto.
Qed.

Lemma joined_keep fr l1 b l2 m1 x m2 y :
  joined fr l1 b l2 m1 x m2 → fr b = true → y ∈ l1 ++ b :: l2 → fr y = false → y ∈ m1 ++ x :: m2.
Proof.
  intros [Hl Hr] Hb Hy Hf. assert (y ≠ b) by congruence. apply elem_of_app in Hy as [Hy|[?|Hy]%elem_of_cons]; [|done|];
    apply elem_of_app.
  - destruct Hl as [[-> _]|[-> _]]; [by left|]. apply elem_of_app in Hy as [?|Hx%list_elem_of_singleton]; [by left|].
    rewrite Hx. right. by left.
  - right. right. destruct Hr as [->|(d & -> & ?)]; [done|]. apply elem_of_cons in Hy as [->|?]; [congruence|done].
Qed.

Lemma joined_gone fr l1 b l2 m1 x m2 : joined fr l1 b l2 m1 x m2 → b ∉ l1 → b ∉ l2 → b ∉ m1 ∧ b ∉ m2.
Proof.
  intros [[[-> ->]|[-> _]] [->|(d & -> & _)]]; rewrite ?elem_of_app, ?elem_of_cons; tauto.
Qed.

(** The end of [binder_free_buf]: from the joined state to the invariant. *)
Lemma free_finish p q fr l1 b l2 lf a1 a2 h m1 x0 m2 lf0 ta :
  alloc_inv p fr lf (a1 ++ b :: a2) → buffers p = l1 ++ b :: l2 → hdrs p !! b = Some h → is_tree ta (a1 ++ a2) →
  freeing p q (upd fr b true) (m1 ++ x0 :: m2) lf0 ta (<[b := set_free h true]> (hdrs p))
    (free_async_space p + charge (hdrs p) b) →
  joined (upd fr b true) l1 b l2 m1 x0 m2 → coalesced (upd fr b true) l1 → coalesced (upd fr b true) l2 →
  upd fr b true x0 = true → (∀ y, last m1 = Some y → upd fr b true y = false) →
  (∀ y, head m2 = Some y → upd fr b true y = false) →
  (∀ x, x ∈ lf0 ↔ x ∈ m1 ++ x0 :: m2 ∧ upd fr b true x = true ∧ x ≠ x0) →
  (∀ R, StronglySorted R lf → StronglySorted R lf0) →
  ∃ p' lf', binder_insert_free_buffer q x0 = Some p' ∧ alloc_inv p' (upd fr b true) lf' (a1 ++ a2) ∧
    freed_as p p' (a1 ++ b :: a2) (a1 ++ a2) b.
Proof.
  intros [Hc Hp] El Eh Hta Hf Hj Hc1 Hc2 Hfx Hlast Hhead Hm Hs. pose proof (ai_heads _ _ _ _ Hc) as Hh0.
  destruct (not_before _ _ _ Hh0 _ _ _ El) as [Hn1 Hn2]. pose proof (tiled_NoDup _ _ (hd_tiled _ _ _ Hh0)) as Hnd. rewrite El in Hnd.
  destruct Hf as [Hh Hcov Ht Ha (Eta & Ehd & Ea)]. pose proof (same_area_fin _ _ Ha) as Hfin.
  set (fr1 := upd fr b true) in *. pose proof (tiled_NoDup _ _ (hd_tiled _ _ _ Hh)) as Hnd'.
  assert (Hend : ∀ y, y ∈ m1 ++ x0 :: m2 → y ≠ x0 → bsize (m1 ++ x0 :: m2) (fin p) y = bsize (buffers p) (fin p) y).
  { intros y Hy Hne. unfold bsize. rewrite El. erewrite joined_end; [done|done|exact Hj|].
    apply elem_of_app in Hy as [?|[?|?]%elem_of_cons]; [by left|done|by right]. }
  assert (Hsub : ∀ y, y ∈ m1 ++ x0 :: m2 → y ∈ l1 ++ b :: l2) by (intros y; by apply (joined_sub fr1)).
  assert (Hkeep : ∀ y, y ∈ l1 ++ b :: l2 → fr1 y = false → y ∈ m1 ++ x0 :: m2).
  { intros y. apply (joined_keep fr1); [done|apply upd_eq]. }
  assert (Hx0 : x0 ∈ m1 ++ x0 :: m2) by (apply elem_of_app; right; by left).
  destruct (joined_gone _ _ _ _ _ _ _ Hj Hn1 Hn2) as [Hb1 Hb2].
  destruct (insert_free_spec q fr1 _ lf0 x0 Hh) as (t & f1 & f2 & -> & Hlf & Ht' & Hs').
  { done. }
  { intros y Hy. apply Hm in Hy as (? & ? & _). done. }
  { rewrite Hfin. eapply StronglySorted_impl_in; [|apply Hs, (ai_sorted _ _ _ _ Hc)]. unfold by_size. intros y z Hy Hz.
    apply Hm in Hy as (Hy & _ & Hyx), Hz as (Hz & _ & Hzx). by rewrite !Hend. }
  { done. } { done. } { intros Hx. by apply Hm in Hx as (_ & _ & ?). }
  assert (Hbuf : buffers q = m1 ++ x0 :: m2) by apply (hd_list _ _ _ Hh).
  assert (Hla : ∀ y, y ∈ a1 ++ a2 ↔ y ∈ m1 ++ x0 :: m2 ∧ fr1 y = false).
  { intros y. rewrite (members_remove a1 a2 (λ x, x ∈ l1 ++ b :: l2) fr b false).
    - fold fr1. split; [intros [? ?]; split; [by apply Hkeep|done]|intros [? ?]; split; [by apply Hsub|done]].
    - eapply is_tree_NoDup, (ai_alloc _ _ _ _ Hc).
    - intros z. rewrite <- El. apply (ai_alloc_mem _ _ _ _ Hc). }
  pose proof (NoDup_middle _ _ _ (is_tree_NoDup _ _ (ai_alloc _ _ _ _ Hc))) as Hbla.
  exists (set_free_buffers q t), (f1 ++ x0 :: f2). split; [done|]. split; [split; [split|]|split]; simpl;
    change (fin (set_free_buffers q t)) with (fin q); rewrite ?Hbuf, ?Hfin.
  - exact (heads_trees q _ _ t (allocated_buffers q) (free_async_space q) Hh).
  - pose proof (ai_start _ _ _ _ Hc) as Hst. rewrite El in Hst. destruct Ha as (_ & -> & _). 
    destruct Hj as [[[-> ->]|[-> _]] _]; [by destruct m1|]. by destruct m1.
  - by eapply joined_coalesced.
  - done.
  - by rewrite <- Hfin.
  - intros y. pose proof (Hm y) as Hy. rewrite Hlf in Hy. rewrite elem_of_app, elem_of_cons. rewrite elem_of_app in Hy.
    destruct (decide (y = x0)) as [->|]; [|tauto]. split; [done|tauto].
  - by rewrite Eta.
  - apply (StronglySorted_remove _ _ b), (ai_order _ _ _ _ Hc).
  - done.
  - intros y hy Hy. rewrite Ehd. destruct (decide (y = b)) as [->|Hyb].
    + rewrite lookup_insert_eq. by intros [= <-].
    + rewrite lookup_insert_ne by done. intros Hhy Hfy. destruct (decide (y = x0)) as [->|].
      * exfalso. destruct (heads_bufp _ _ _ Hh x0 Hy) as (hx & _ & Ehx & Efx). rewrite Ehd, lookup_insert_ne in Ehx by done. congruence.
      * rewrite Hend by done. apply (ai_fits _ _ _ _ Hc); [rewrite El; by apply Hsub|done|done].
  - rewrite Ea, Ehd. destruct Ha as (_ & _ & _ & -> & _). rewrite <- (ai_async _ _ _ _ Hc), El.
    rewrite (joined_charges (hdrs p) fr1 l1 b l2 m1 x0 m2 Hj).
    2:{ intros y Hy Hfy. assert (y ≠ b) by (intros ->; by destruct Hy).
        apply (charge_free p fr (buffers p)); [done|rewrite El, elem_of_app, elem_of_cons; tauto|].
        unfold fr1 in Hfy. by rewrite upd_ne in Hfy. }
    rewrite charges_app. simpl.
    assert (E0 : charge (<[b := set_free h true]> (hdrs p)) x0 = 0).
    { rewrite <- Ehd. by apply (charge_free q fr1 (m1 ++ x0 :: m2)). }
    rewrite E0, !charges_insert by done. lia.
  - rewrite Ea. pose proof (ai_async_pos _ _ _ _ Hc). pose proof (charge_nonneg (hdrs p) b). lia.
  - intros n. rewrite <- Hfin. apply Hcov.
  - done.
  - intros y. rewrite !elem_of_app, elem_of_cons. rewrite elem_of_app in Hbla. split; [|tauto].
    intros Hy. split; [tauto|]. intros ->. tauto.
  - intros y Hy. assert (y ≠ b) by congruence. rewrite Ehd, lookup_insert_ne by done. split; [done|].
    apply Hla in Hy as [Hy Hfy]. apply Hend; [done|]. congruence.
  - by rewrite Ea.
Qed.

Lemma free_buf_cases e p fr lf la b h :
  alloc_inv p fr lf la → b ∈ la → hdrs p !! b = Some h → transaction h = 0 →
  ∃ p' lf' la', binder_free_buf e p b = Some p' ∧ alloc_inv p' (upd fr b true) lf' la' ∧ freed_as p p' la la' b.
Proof.
  intros Hinv Hb Eh Htr. destruct (free_begin e p fr lf la b h Hinv Hb Eh Htr) as (q & ta & a1 & a2 & -> & Hta & Hf & ->).
  pose proof (proj1 Hinv) as Hc. pose proof (proj1 (ai_alloc_mem _ _ _ _ Hc b) Hb) as [Hin Hfb].
  apply list_elem_of_split in Hin as (l1 & l2 & El). pose proof (ai_heads _ _ _ _ Hc) as Hh.
  destruct (not_before _ _ _ Hh _ _ _ El) as [Hn1 Hn2]. rewrite El in Hf.
  assert (Hco : coalesced (upd fr b true) l1 ∧ coalesced (upd fr b true) l2).
  { pose proof (ai_coalesced _ _ _ _ Hc) as Hco. rewrite El in Hco. apply coalesced_app in Hco as (H1 & [_ H2] & _).
    split; [apply (coalesced_ext fr _ l1)|apply (coalesced_ext fr _ l2)]; try done;
      intros y Hy; rewrite upd_ne; congruence. }
  destruct Hco as [Hc1 Hc2].
  destruct (merge_next e p q _ l1 b l2 lf ta _ _ Hf (upd_eq _ _ _) Hc2) as (q1 & lf1 & m2 & -> & Hf1 & Hr & Hhead & Hm1 & Hs1).
  { intros x. rewrite (ai_free_mem _ _ _ _ Hc x), El. destruct (decide (x = b)) as [->|]; [rewrite Hfb; split; [by intros [_ ?]|by intros (_ & _ & ?)]|].
    rewrite upd_ne by done. tauto. }
  cbn [mbind option_bind].
  destruct (merge_prev e p q1 _ l1 b m2 lf1 ta _ _ Hf1 (upd_eq _ _ _) Hc1 Hm1) as (q2 & lf2 & m1 & x0 & -> & Hf2 & Hl & Hlast & Hm2 & Hs2).
  cbn [mbind option_bind].
  destruct (free_finish p q2 fr l1 b l2 lf a1 a2 h m1 x0 m2 lf2 ta Hinv El Eh Hta Hf2) as (p' & lf' & -> & Hi & Hfa); try done.
  - split; [destruct Hl as [?|(? & ? & _)]; auto|done].
  - destruct Hl as [[_ ->]|(_ & ? & _)]; [apply upd_eq|done].
  - auto.
  - by exists p', lf', (a1 ++ a2).
Qed.

(** ** Mapping *)

(** What [binder_mmap] meets: a process without an area, an unused range of
    kernel addresses, and a mapping of whole pages with no page in it. *)
Record mmap_ready (p : binder_proc) (a : Z) (v : vm_area_struct) : Prop := {
  mr_buffer : buffer p = 0;
  mr_vma : vma p = None;
  mr_free : is_tree (free_buffers p) [];
  mr_alloc : is_tree (allocated_buffers p) [];
  mr_area : (PAGE_SIZE | a) ∧ PAGE_SIZE ≤ a ∧ a + SZ_4M ≤ 2 ^ 32 - PAGE_SIZE;
  mr_vm : (PAGE_SIZE | vm_start v) ∧ (PAGE_SIZE | vm_end v) ∧ 0 ≤ vm_start v < vm_end v ∧ vm_end v < 2 ^ 32;
  mr_user : vm_end v ≤ 2 ^ 32 - 4 * PAGE_SIZE;
  mr_kmap : ∀ n, kmap p !! (PAGE_SIZE * n) = None;
  mr_umap : ∀ x, umap p !! x = None }.

(** The mapping is cut to 4 MiB and loses the right to become writable. *)
Definition mmap_len (v : vm_area_struct) : Z := Z.min (vm_end v - vm_start v) SZ_4M.
Definition mmap_vma (v : vm_area_struct) : vm_area_struct :=
  mk_vma (vm_start v) (vm_start v + mmap_len v) (Z.land (Z.lor (vm_flags v) VM_DONTCOPY) (Z.lnot VM_MAYWRITE)).

Lemma mmap_len_spec v :
  (PAGE_SIZE | vm_start v) ∧ (PAGE_SIZE | vm_end v) ∧ 0 ≤ vm_start v < vm_end v ∧ vm_end v < 2 ^ 32 →
  (if u32 (vm_end v - vm_start v) >? SZ_4M then mk_vma (vm_start v) (u32 (vm_start v + SZ_4M)) (vm_flags v) else v) =
    mk_vma (vm_start v) (vm_start v + mmap_len v) (vm_flags v) ∧
  (PAGE_SIZE | mmap_len v) ∧ 0 < mmap_len v ≤ SZ_4M ∧ vm_start v + mmap_len v ≤ vm_end v.
Proof.
  intros ([x Hx] & [y Hy] & Hlt & Hhi). unfold mmap_len. rewrite u32_small by lia. change SZ_4M with 4194304 in *. hdr.
  destruct (Z.gtb_spec (vm_end v - vm_start v) 4194304) as [Hgt|Hle].
  - rewrite u32_small by lia. rewrite Z.min_r by lia. split_and!; try done; try lia. by exists 1024.
  - rewrite Z.min_l by lia. split_and!; try lia; [destruct v; simpl; f_equal; lia|]. exists (y - x). lia.
Qed.

Lemma fresh_maps_ok p v :
  area_ok p → pages p = ∅ → (∀ n, kmap p !! (PAGE_SIZE * n) = None) → (∀ x, umap p !! x = None) →
  0 ≤ vm_start v → vm_end v = vm_start v + buffer_size p → vm_end v < 2 ^ 32 →
  user_buffer_offset p = u32 (vm_start v - buffer p) → maps_ok (Some v) p.
Proof.
  intros Ha Hp Hk Hu H0 He Hhi Ho. split.
  - intros n [x Hx]. unfold page_at in Hx. by rewrite Hp in Hx.
  - intros n _. unfold page_at. by rewrite Hp, Hk.
  - intros _ n _. unfold page_at. by rewrite Hp, Hu.
  - intros v' [= <-]. done.
Qed.

Lemma maps_ok_live v p q :
  maps_ok (Some v) p → only_maps p q → maps_ok (Some v) q → vma q = None →
  maps_ok (live_vma q) q ∧ maps_ok (live_vma (set_vma q (Some v))) (set_vma q (Some v)).
Proof.
  intros _ _ [A B C D] Hv. unfold live_vma. simpl. rewrite Hv.
  split; [destruct (task_mm q); (split; [exact A|exact B|by intros [? ?]|done])|].
  destruct (task_mm q); (split; [exact A|exact B|exact C || by intros [? ?]|exact D || done]).
Qed.

(** The area of a process right after [binder_mmap]: one free buffer. *)
Lemma mmap_success q v t :
  area_ok q → maps_ok (live_vma (set_vma q (Some v))) (set_vma q (Some v)) → buffers q = [buffer q] →
  (∀ n, present q n ↔ n = pg (buffer q)) → (∃ h, hdrs q !! buffer q = Some h ∧ free h = true) →
  is_tree t [buffer q] → is_tree (allocated_buffers q) [] →
  alloc_inv (set_vma (set_async (set_free_buffers q t) (buffer_size q / 2)) (Some v)) (λ _, true) [buffer q] [].
Proof.
  intros Ha Hm Hb Hp (h & Eh & Ef) Ht Hta. destruct (area_pages q Ha) as (HB & HF & H1 & _).
  destruct Ha as [[k Hk] Hlow [m Hms] Hpos Hhigh].
  assert (Hend : buffer q + HDR ≤ fin q) by (unfold fin; hdr; lia).
  assert (Hpg : pg (buffer q + HDR - 1) = pg (buffer q)).
  { pose proof (pg_bounds (buffer q + HDR - 1)). hdr. lia. }
  assert (Htile : tiled [buffer q] (fin q)).
  { simpl. split_and!; [exists (k * 1024); hdr; lia|done|done]. }
  split; [split; simpl; rewrite ?Hb; try done|].
  - split; simpl; try done.
    + by split; [exists k|..|exists m| |].
    + destruct Hm as [A B C D]. split; [exact A|exact B|exact C|exact D].
    + intros b n ->%list_elem_of_singleton Hn. apply Hp. lia.
    + intros b ->%list_elem_of_singleton. by exists h.
  - repeat constructor.
  - intros x. rewrite list_elem_of_singleton. naive_solver.
  - constructor.
  - intros x. split; [intros Hx; by apply elem_of_nil in Hx|naive_solver].
  - intros b h' ->%list_elem_of_singleton. rewrite Eh. intros [= <-]. congruence.
  - simpl. unfold charge. rewrite Eh, Ef. simpl. lia.
  - apply Z.div_pos; lia.
  - intros n. change (present q n ↔ cover (λ _, true) (buffers q) (fin q) n). rewrite Hp, Hb. simpl.
    rewrite covers_true, Hpg. split; [intros ->; left; lia|intros [?|[]]; lia].
Qed.

(** The state with its first page, before and after the first header. *)
Lemma mmap_header e q v :
  area_ok q → maps_ok (Some v) q → vma q = None → is_tree (free_buffers q) [] → is_tree (allocated_buffers q) [] →
  (∀ n, present q n ↔ n = pg (buffer q)) →
  ∃ q2 t, write_buf (set_buffers q [buffer q]) (buffer q) (set_free (junk e (buffer q)) true) = Some q2 ∧
    buffer_size q2 = buffer_size q ∧ binder_insert_free_buffer q2 (buffer q) = Some (set_free_buffers q2 t) ∧
    alloc_inv (set_vma (set_async (set_free_buffers q2 t) (buffer_size q2 / 2)) (Some v)) (λ _, true) [buffer q] [].
Proof.
  intros Ha Hm Hv Htf Hta Hp. destruct (area_pages q Ha) as (HB & HF & H1 & _).
  destruct (maps_ok_live v q q Hm (only_maps_refl q) Hm Hv) as [Hm1 Hm2].
  assert (Hpg : pg (buffer q + HDR - 1) = pg (buffer q)) by (pose proof (pg_bounds (buffer q + HDR - 1)); hdr; lia).
  set (q2 := set_hdrs (set_buffers q [buffer q]) (<[buffer q := set_free (junk e (buffer q)) true]> (hdrs q))).
  assert (Hh : heads q2 (λ _, true) [buffer q]).
  { split.
    - by destruct Ha.
    - exact (maps_ok_memory _ q _ _ _ _ _ Hm1).
    - done.
    - simpl. split_and!; [|unfold nxt, fin in *; simpl; hdr; lia|done]. destruct Ha as [[k ->] _ _ _ _]. exists (k * 1024). hdr. lia.
    - done.
    - intros b n ->%list_elem_of_singleton Hn. apply Hp. lia.
    - intros b ->%list_elem_of_singleton. simpl. rewrite lookup_insert_eq. by eexists. }
  pose proof (heads_mapped _ _ _ Hh (buffer q) ltac:(by left)) as Hmap.
  destruct (insert_free_spec q2 _ _ [] (buffer q) Hh) as (t & f1 & f2 & Hins & Hnil & Ht & _); try done.
  { intros x Hx. by apply elem_of_nil in Hx. } { constructor. } { by left. } { by intros ?%elem_of_nil. }
  symmetry in Hnil. apply app_nil in Hnil as [-> ->].
  exists q2, t. split_and!; [|done|done|].
  - unfold write_buf. change (hdr_mapped (set_buffers q [buffer q]) (buffer q)) with (hdr_mapped q2 (buffer q)). by rewrite Hmap.
  - apply (mmap_success q2 v t).
    + by destruct Ha.
    + destruct Hm2 as [A B C D]. split; [exact A|exact B|exact C|exact D].
    + done.
    + exact Hp.
    + simpl. rewrite lookup_insert_eq. by eexists.
    + done.
    + done.
Qed.

Lemma colour_loop_same fuel start a : CACHE_COLOUR (Z.lxor start a) = 0 → colour_loop fuel start a = Some start.
Proof. intros H. destruct fuel; simpl; by rewrite H. Qed.

Lemma mmap_cases e p a v (aliasing : bool) :
  mmap_ready p a v → Z.land (vm_flags v) FORBIDDEN_MMAP_FLAGS = 0 →
  (aliasing = true → CACHE_COLOUR (Z.lxor (vm_start v) a) = 0) →
  (∃ p', binder_mmap e (Some a) true aliasing p v = Some (p', 0) ∧ alloc_inv p' (λ _, true) [a] [] ∧
     buffer p' = a ∧ buffer_size p' = mmap_len v ∧ vma p' = Some (mmap_vma v) ∧ task_mm p' = task_mm p) ∨
  (∃ p', binder_mmap e (Some a) true aliasing p v = Some (p', - ENOMEM) ∧ buffer p' = 0 ∧ vma p' = None).
Proof.
  intros Hr Hflags Hcol. destruct (mmap_len_spec v (mr_vm _ _ _ Hr)) as (Ev & Hlen & Hl & Hle).
  destruct (mr_area _ _ _ Hr) as (Ha1 & Ha2 & Ha3). destruct (mr_vm _ _ _ Hr) as (_ & _ & Hv1 & Hv2).
  unfold binder_mmap. rewrite Ev. cbn [vm_flags vm_start vm_end]. rewrite Hflags, (mr_buffer _ _ _ Hr).
  change (ctrue 0) with false. cbv iota.
  assert (Hst : (if aliasing then colour_loop 4 (vm_start v) a else Some (vm_start v)) = Some (vm_start v)).
  { destruct aliasing; [|done]. by apply colour_loop_same, Hcol. }
  rewrite Hst. cbn [mbind option_bind negb vm_flags vm_start vm_end].
  replace (u32 (vm_start v + mmap_len v - vm_start v)) with (mmap_len v)
    by (rewrite u32_small; change SZ_4M with 4194304 in *; lia).
  rewrite (u32_small (a + PAGE_SIZE)) by (change SZ_4M with 4194304 in *; hdr; lia).
  set (q := mk_proc _ a _ _ _ _ _ ∅ (mmap_len v) _ _ _ _). fold (mmap_vma v).
  assert (Hq : area_ok q).
  { split; simpl; try done; [lia|]. unfold fin. simpl. lia. }
  destruct (area_pages q Hq) as (HB & HF & H1 & _).
  assert (Hmq : maps_ok (Some (mmap_vma v)) q).
  { apply fresh_maps_ok; try done; [apply (mr_kmap _ _ _ Hr)|apply (mr_umap _ _ _ Hr)|simpl; lia|simpl; lia]. }
  change (buffer q) with a in *.
  destruct (update_alloc_spec e q (Some (mmap_vma v)) _ (pg a) (pg a + 1) Hq eq_refl Hmq)
    as [(q1 & Hrun & Ho & Hm1 & _ & Hp1)|(Hrun & _ & _)]; [done|lia| |..].
  { intros n _ [x Hx]. done. }
  all: replace (PAGE_SIZE * (pg a + 1)) with (a + PAGE_SIZE) in Hrun by lia.
  all: rewrite <- HB in Hrun; rewrite Hrun; cbn [mbind option_bind].
  - left. change (ctrue 0) with false. cbv iota.
    assert (Eb : buffer q1 = a) by (by rewrite Ho).
    destruct (mmap_header e q1 (mmap_vma v)) as (q2 & t & Hw & Esz & Hins & Hinv).
    + by eapply only_maps_area.
    + done.
    + rewrite Ho. apply (mr_vma _ _ _ Hr).
    + rewrite Ho. apply (mr_free _ _ _ Hr).
    + rewrite Ho. apply (mr_alloc _ _ _ Hr).
    + intros n. rewrite Hp1, Eb. split; [intros [[? ?]|?]; [done|lia]|intros ->; right; lia].
    + rewrite Eb in *. rewrite Hw. cbn [mbind option_bind]. rewrite Hins. cbn [mbind option_bind].
      assert (Eq2 : buffer q2 = a ∧ task_mm q2 = task_mm p).
      { unfold write_buf in Hw. destruct (hdr_mapped _ _); [|done]. injection Hw as <-. simpl. by rewrite Ho. }
      eexists. split; [done|]. split; [exact Hinv|]. simpl. destruct Eq2 as [-> ->]. rewrite Esz. by rewrite Ho.
  - right. change (ctrue (- ENOMEM)) with true. cbv iota. eexists. split; [done|]. split; [done|]. apply (mr_vma _ _ _ Hr).
Qed.

(** ** What the invariant means

    [is_allocated] and [is_free] are read off the headers. *)

Definition is_allocated (p : binder_proc) (b : Z) : Prop :=
  b ∈ buffers p ∧ ∃ h, hdrs p !! b = Some h ∧ free h = false.
Definition is_free (p : binder_proc) (b : Z) : Prop :=
  b ∈ buffers p ∧ ∃ h, hdrs p !! b = Some h ∧ free h = true.

(** The bytes a buffer offers for data. *)
Definition capacity (p : binder_proc) (b : Z) : Z := bsize (buffers p) (fin p) b.

Lemma allocated_mem p fr lf la b : alloc_inv p fr lf la → b ∈ la ↔ is_allocated p b.
Proof.
  intros [Hc _]. rewrite (ai_alloc_mem _ _ _ _ Hc). unfold is_allocated.
  split; intros [Hb H]; (split; [done|]); destruct (hd_hdr _ _ _ (ai_heads _ _ _ _ Hc) b Hb) as (h & Eh & Ef).
  - exists h. by rewrite <- H.
  - destruct H as (h' & Eh' & Ef'). congruence.
Qed.

Lemma free_mem p fr lf la b : alloc_inv p fr lf la → b ∈ lf ↔ is_free p b.
Proof.
  intros [Hc _]. rewrite (ai_free_mem _ _ _ _ Hc). unfold is_free.
  split; intros [Hb H]; (split; [done|]); destruct (hd_hdr _ _ _ (ai_heads _ _ _ _ Hc) b Hb) as (h & Eh & Ef).
  - exists h. by rewrite <- H.
  - destruct H as (h' & Eh' & Ef'). congruence.
Qed.

(** Every byte of an allocated buffer is in memory, and the user sees there
    what the kernel sees. *)
Definition visible (p : binder_proc) (x : Z) : Prop :=
  ∃ page, kmap p !! page_of x = Some page ∧ (is_Some (live_vma p) → umap p !! user_addr p (page_of x) = Some page).

Lemma allocated_present p fr lf la b x :
  alloc_inv p fr lf la → b ∈ la → b ≤ x < b + HDR + capacity p b → present p (pg x).
Proof.
  intros [Hc Hp] Hb Hx. apply (ai_alloc_mem _ _ _ _ Hc) in Hb as [Hin Hfb]. pose proof (ai_heads _ _ _ _ Hc) as Hh.
  unfold capacity, bsize in Hx. apply list_elem_of_split in Hin as (l1 & l2 & El).
  destruct (not_before _ _ _ Hh _ _ _ El) as [Hn1 _]. pose proof (hd_tiled _ _ _ Hh) as Ht. rewrite El in Ht, Hx.
  rewrite end_of_app in Hx by done. apply Hp. rewrite El, cover_mid, Hfb, covers_false.
  pose proof (pg_le b x ltac:(lia)). pose proof (pg_le x (nxt l2 (fin p)) ltac:(lia)).
  destruct (decide (pg x < pg (nxt l2 (fin p)))); [right; left; lia|]. right; right.
  assert (Heq : pg x = pg (nxt l2 (fin p))) by lia. rewrite Heq. destruct l2 as [|c l2].
  - exfalso. unfold nxt in *. simpl in *. destruct (area_pages p (hd_area _ _ _ Hh)) as (_ & HF & _).
    pose proof (pg_bounds x). hdr. lia.
  - rewrite nxt_cons. apply cover_first. split; [done|]. apply pg_le. hdr. lia.
Qed.

Lemma allocated_visible p fr lf la b x :
  alloc_inv p fr lf la → b ∈ la → b ≤ x < b + HDR + capacity p b → visible p x.
Proof.
  intros Hi Hb Hx. destruct (allocated_present p fr lf la b x Hi Hb Hx) as [page Hpage].
  destruct Hi as [Hc _]. apply (ai_alloc_mem _ _ _ _ Hc) in Hb as [Hin _]. pose proof (ai_heads _ _ _ _ Hc) as Hh.
  destruct (heads_range _ _ _ Hh b Hin) as (? & ? & ? & ? & _).
  pose proof (end_of_le _ _ _ (hd_tiled _ _ _ Hh) Hin) as [_ ?]. unfold capacity, bsize in Hx.
  assert (Ha : in_area p (pg x)) by (apply (mo_array _ _ (hd_maps _ _ _ Hh)); by exists page).
  exists page. rewrite page_of_pg by (hdr; lia). split.
  - by rewrite (mo_kernel _ _ (hd_maps _ _ _ Hh)).
  - intros Hl. by rewrite (mo_user _ _ (hd_maps _ _ _ Hh) Hl).
Qed.

(** The promise of the allocator: buffers lie in the area and do not overlap,
    each allocated one holds what was asked for, in pages that kernel and user
    share, and the asynchronous ones take what is missing from the budget. *)
Record sound (p : binder_proc) : Prop := {
  so_bounds : ∀ b, b ∈ buffers p → buffer p ≤ b ∧ 0 ≤ capacity p b ∧ b + HDR + capacity p b ≤ fin p;
  so_disjoint : ∀ b c, b ∈ buffers p → c ∈ buffers p → b < c → b + HDR + capacity p b ≤ c;
  so_holds : ∀ b h, b ∈ buffers p → hdrs p !! b = Some h → free h = false →
    request_size (data_size h) (offsets_size h) ≤ capacity p b;
  so_visible : ∀ b x, is_allocated p b → b ≤ x < b + HDR + capacity p b → visible p x;
  so_budget : 0 ≤ free_async_space p ∧ free_async_space p + charges (hdrs p) (buffers p) = buffer_size p / 2 }.

Lemma alloc_inv_sound p fr lf la : alloc_inv p fr lf la → sound p.
Proof.
  intros Hi. pose proof Hi as [Hc _]. pose proof (ai_heads _ _ _ _ Hc) as Hh. split.
  - intros b Hb. destruct (heads_range _ _ _ Hh b Hb) as (? & _). pose proof (end_of_le _ _ _ (hd_tiled _ _ _ Hh) Hb).
    unfold capacity, bsize. lia.
  - intros b c Hb Hc' Hlt. unfold capacity, bsize. apply list_elem_of_split in Hb as (l1 & l2 & El).
    destruct (not_before _ _ _ Hh _ _ _ El) as [Hn1 _]. pose proof (hd_tiled _ _ _ Hh) as Ht. rewrite El in Ht, Hc' |- *.
    rewrite end_of_app by done. apply tiled_app in Ht as (Ht1 & _ & _ & Ht2). rewrite nxt_cons in Ht1.
    apply elem_of_app in Hc' as [Hx|[->|Hx]%elem_of_cons]; [|lia|].
    + destruct (tiled_bounds _ _ _ Ht1 Hx) as (_ & _ & ?). hdr. lia.
    + destruct (tiled_bounds _ _ _ Ht2 Hx) as (_ & ? & _). lia.
  - intros b h. apply (ai_fits _ _ _ _ Hc).
  - intros b x Hb. apply (allocated_visible p fr lf la); [done|]. by apply (allocated_mem _ _ _ _ _ Hi).
  - split; [apply (ai_async_pos _ _ _ _ Hc)|apply (ai_async _ _ _ _ Hc)].
Qed.

(** ** Sequences of operations *)

(** The driver fills in the header of a buffer it has allocated
    ([binder_transaction], [binder_thread_write]). *)
Definition use_buffer (p : binder_proc) (b : Z) (auf : bool) (id tr tn : Z) : option binder_proc :=
  h ← bufp p b;
  if free h then Some p
  else write_buf p b (mk_buf (free h) auf (async_transaction h) id tr tn (data_size h) (offsets_size h)).

Inductive binder_op :=
| OpAlloc (e : mm_env) (data_size offsets_size : Z) (is_async : bool)
| OpUse (b : Z) (auf : bool) (id tr tn : Z)
| OpFree (e : mm_env) (b : Z)
| OpVmaClose
| OpExit.

(** Buffers that are not allocated, or still belong to a transaction, are not
    given to [binder_free_buf]. *)
Definition binder_do (p : binder_proc) (o : binder_op) : option binder_proc :=
  match o with
  | OpAlloc e ds os async => '(p, _) ← binder_alloc_buf e p ds os async; Some p
  | OpUse b auf id tr tn => if bool_decide (b ∈ buffers p) then use_buffer p b auf id tr tn else Some p
  | OpFree e b =>
      if bool_decide (b ∈ buffers p) then
        h ← bufp p b;
        if free h || ctrue (transaction h) then Some p else binder_free_buf e p b
      else Some p
  | OpVmaClose => Some (binder_vma_close p)
  | OpExit => Some (task_exit_mm p)
  end.

Fixpoint binder_run (p : binder_proc) (ops : list binder_op) : option binder_proc :=
  match ops with
  | [] => Some p
  | o :: ops => p ← binder_do p o; binder_run p ops
  end.

Definition op_ok (o : binder_op) : Prop :=
  match o with OpAlloc _ ds os _ => 0 ≤ ds < 2 ^ 32 ∧ 0 ≤ os < 2 ^ 32 | _ => True end.

Lemma use_buffer_ok p fr lf la b auf id tr tn :
  alloc_inv p fr lf la → b ∈ buffers p → ∃ p', use_buffer p b auf id tr tn = Some p' ∧ alloc_inv p' fr lf la ∧ same_area p p'.
Proof.
  intros [Hc Hp] Hb. pose proof (ai_heads _ _ _ _ Hc) as Hh. destruct (heads_bufp _ _ _ Hh b Hb) as (h & Eb & Eh & Ef).
  unfold use_buffer. rewrite Eb. cbn [mbind option_bind]. destruct (free h) eqn:Hf; [by exists p|].
  set (h' := mk_buf _ _ _ _ _ _ _ _). destruct (heads_write _ _ _ b h' Hh Hb) as [-> Hh']. eexists. split; [done|].
  split; [|done]. split; [split|]; simpl; try apply Hc; try done.
  - eapply heads_ext; [|exact Hh']. intros x _. destruct (decide (x = b)) as [->|]; [rewrite upd_eq; simpl; congruence|by rewrite upd_ne].
  - intros x hx Hx. destruct (decide (x = b)) as [->|].
    + rewrite lookup_insert_eq. intros [= <-] _. simpl. by apply (ai_fits _ _ _ _ Hc).
    + rewrite lookup_insert_ne by done. by apply (ai_fits _ _ _ _ Hc).
  - rewrite <- (ai_async _ _ _ _ Hc). f_equal. generalize (buffers p). clear Hh Hh' Hp Hc Hb Eb.
    induction l as [|x l IH]; simpl; [done|]. f_equal; [|done]. unfold charge.
    destruct (decide (x = b)) as [->|]; [by rewrite lookup_insert_eq, Eh; unfold h'; simpl; rewrite Hf|by rewrite lookup_insert_ne].
Qed.

Lemma gone_ok p fr lf la (v : option vm_area_struct) (u : gmap Z Z) (m : bool) :
  alloc_inv p fr lf la → (if m then v else None) = None →
  alloc_inv (mk_proc v (buffer p) (user_buffer_offset p) (buffers p) (free_buffers p) (allocated_buffers p)
    (free_async_space p) (pages p) (buffer_size p) (hdrs p) (kmap p) u m) fr lf la.
Proof.
  intros [Hc Hp] Hv. split; [split|]; simpl; try apply Hc; try done.
  destruct (ai_heads _ _ _ _ Hc) as [[?????] [A B C D] ?????]. split; try done. unfold live_vma. simpl. rewrite Hv.
  split; [exact A|exact B|by intros [? ?]|done].
Qed.

Lemma binder_do_ok p o : alloc_ok p → op_ok o → ∃ p', binder_do p o = Some p' ∧ alloc_ok p'.
Proof.
  intros (fr & lf & la & Hi) Ho. destruct o as [e ds os async|b auf id tr tn|e b| |]; simpl in *.
  - destruct Ho as [Hds Hos].
    destruct (alloc_buf_cases e p fr lf la ds os async Hi Hds Hos) as [[-> _]|(p' & b & fr' & lf' & la' & -> & Hi' & _)];
      cbn [mbind option_bind]; eexists; (split; [done|]); by eexists _, _, _.
  - case_bool_decide as Hb; [|eexists; split; [done|by exists fr, lf, la]].
    destruct (use_buffer_ok p fr lf la b auf id tr tn Hi Hb) as (p' & -> & Hi' & _). exists p'. split; [done|]. by exists fr, lf, la.
  - case_bool_decide as Hb; [|eexists; split; [done|by exists fr, lf, la]].
    destruct (heads_bufp _ _ _ (ai_heads _ _ _ _ (proj1 Hi)) b Hb) as (h & -> & Eh & Ef). cbn [mbind option_bind].
    destruct (free h) eqn:Hf; [eexists; split; [done|by exists fr, lf, la]|]. simpl.
    destruct (ctrue (transaction h)) eqn:Ht; [eexists; split; [done|by exists fr, lf, la]|].
    apply negb_false_iff, Z.eqb_eq in Ht.
    destruct (free_buf_cases e p fr lf la b h Hi) as (p' & lf' & la' & -> & Hi' & _); try done.
    + apply (allocated_mem _ _ _ _ _ Hi). split; [done|by exists h].
    + exists p'. split; [done|]. by eexists _, _, _.
  - eexists. split; [done|]. exists fr, lf, la. apply (gone_ok p fr lf la None ∅ (task_mm p) Hi). by destruct (task_mm p).
  - eexists. split; [done|]. exists fr, lf, la. by apply (gone_ok p fr lf la (vma p) ∅ false Hi).
Qed.

(** ** Colours of the cache *)

Lemma land3_mod4 x : Z.land x 3 = x mod 4.
Proof. apply (land_pow2_mod x 2). lia. Qed.

Lemma cache_colour_pages x y : CACHE_COLOUR (Z.lxor (PAGE_SIZE * x) (PAGE_SIZE * y)) = Z.lxor (x mod 4) (y mod 4).
Proof.
  unfold CACHE_COLOUR. change (4 * PAGE_SIZE - 1) with (Z.shiftl 3 12 + 4095). change PAGE_SHIFT with 12. hdr.
  rewrite Z.shiftr_land, Z.shiftr_lxor. change (Z.shiftr (Z.shiftl 3 12 + 4095) 12) with 3.
  replace (Z.shiftr (4096 * x) 12) with x by (rewrite Z.shiftr_div_pow2, Z.mul_comm by lia; symmetry; by apply Z.div_mul).
  replace (Z.shiftr (4096 * y) 12) with y by (rewrite Z.shiftr_div_pow2, Z.mul_comm by lia; symmetry; by apply Z.div_mul).
  rewrite <- !land3_mod4. apply Z.bits_inj'. intros n Hn. rewrite !Z.land_spec, !Z.lxor_spec, !Z.land_spec.
  by destruct (Z.testbit x n), (Z.testbit y n), (Z.testbit 3 n).
Qed.

Lemma cache_colour_eq x y : CACHE_COLOUR (Z.lxor (PAGE_SIZE * x) (PAGE_SIZE * y)) = 0 ↔ x mod 4 = y mod 4.
Proof.
  rewrite cache_colour_pages. split; [apply Z.lxor_eq|]. intros ->. apply Z.lxor_nilpotent.
Qed.

(** The loop ends at the next page of the right colour. *)
Lemma colour_loop_spec y : ∀ fuel x,
  (y - x) mod 4 ≤ Z.of_nat fuel → 0 ≤ x → x + (y - x) mod 4 < 2 ^ 20 →
  colour_loop fuel (PAGE_SIZE * x) (PAGE_SIZE * y) = Some (PAGE_SIZE * (x + (y - x) mod 4)).
Proof.
  induction fuel as [|fuel IH]; intros x Hf Hx Hhi; pose proof (Z.mod_pos_bound (y - x) 4 ltac:(lia)) as Hr;
    cbn [colour_loop]; unfold ctrue; pose proof (cache_colour_eq x y) as Hc;
    destruct (Z.eqb_spec (CACHE_COLOUR (Z.lxor (PAGE_SIZE * x) (PAGE_SIZE * y))) 0) as [E|E]; cbn [negb].
  1, 3: apply Hc in E; replace ((y - x) mod 4) with 0; [by rewrite Z.add_0_r|]; symmetry; apply Z.mod_divide; [lia|];
    exists (y / 4 - x / 4); pose proof (Z.div_mod x 4); pose proof (Z.div_mod y 4); lia.
  - exfalso. apply E, Hc. assert ((y - x) mod 4 = 0) as H0 by lia. pose proof (Z.div_mod (y - x) 4).
    replace y with (x + (y - x) / 4 * 4) by lia. by rewrite Z.mod_add.
  - assert ((y - x) mod 4 ≠ 0) as Hn.
    { intros H0. apply E, Hc. pose proof (Z.div_mod (y - x) 4). replace y with (x + (y - x) / 4 * 4) by lia. by rewrite Z.mod_add. }
    assert (Em : (y - (x + 1)) mod 4 = (y - x) mod 4 - 1).
    { symmetry. apply (Z.mod_unique_pos _ _ ((y - x) / 4)); [lia|]. pose proof (Z.div_mod (y - x) 4). lia. }
    replace (u32 (PAGE_SIZE * x + PAGE_SIZE)) with (PAGE_SIZE * (x + 1)) by (rewrite u32_small; hdr; lia).
    rewrite IH by lia. f_equal. rewrite Em. lia.
Qed.

(** The offset is the one of the original start, so the first page does not
    fit into a mapping that has been moved. *)
Lemma moved_insert_fails e q v a :
  buffer q = a → pages q = ∅ → 0 ≤ a → a + PAGE_SIZE < 2 ^ 32 → PAGE_SIZE ≤ a → user_addr q a < vm_start v →
  binder_update_page_range e q true a (a + PAGE_SIZE) (Some v) = None ∨
  ∃ q', binder_update_page_range e q true a (a + PAGE_SIZE) (Some v) = Some (q', - ENOMEM) ∧ vma q' = vma q.
Proof.
  intros Hb Hp H0 Hhi Hlow Hu. unfold binder_update_page_range.
  destruct (Z.leb_spec (a + PAGE_SIZE) a); [hdr; lia|].
  assert (Hf : ∃ f, range_fuel a (a + PAGE_SIZE) = S (S f)).
  { exists 0%nat. unfold range_fuel. by replace (a + PAGE_SIZE - a) with PAGE_SIZE by lia. }
  destruct Hf as [f ->]. cbn [alloc_loop]. destruct (Z.ltb_spec a (a + PAGE_SIZE)); [|hdr; lia].
  assert (Hix : ∀ pg k u, page_index (set_maps q pg k u) a = page_index q a) by done.
  unfold alloc_one. destruct (page_index q a) as [i|] eqn:Hi; [|by left]. right. cbn [mbind option_bind].
  rewrite Hp, lookup_empty. rewrite bool_decide_false by (by intros [? ?]).
  assert (Hdone : ∀ q', free_range (S (S f)) q' (Some v) (u32 (a - PAGE_SIZE)) a = Some q').
  { intros q'. cbn [free_range]. rewrite u32_small by (hdr; lia). rewrite Z.geb_leb.
    destruct (Z.leb_spec a (a - PAGE_SIZE)); [hdr; lia|done]. }
  destruct (alloc_page e a) as [page|]; [|cbn [mbind option_bind free_one]; rewrite Hdone; by eexists].
  assert (Hfree : ∀ k, free_page_ (set_maps q (<[i := page]> ∅) k (umap q)) a = Some (set_maps q (delete i (<[i := page]> ∅)) k (umap q))).
  { intros k. unfold free_page_. rewrite Hix. cbn [mbind option_bind pages set_maps]. by rewrite lookup_insert_eq. }
  destruct (map_vm_area e a); cbn [negb].
  2:{ cbn [mbind option_bind free_one]. rewrite Hfree. cbn [mbind option_bind]. rewrite Hdone. by eexists. }
  unfold vm_insert_page. destruct (Z.ltb_spec (user_addr q a) (vm_start v)); [|lia]. cbn [orb mbind option_bind free_one].
  unfold unmap_kernel_range. rewrite set_maps_twice. simpl pages. simpl umap. rewrite Hfree. cbn [mbind option_bind].
  rewrite Hdone. by eexists.
Qed.

Lemma mmap_moved e p a v kzalloc :
  mmap_ready p a v → CACHE_COLOUR (Z.lxor (vm_start v) a) ≠ 0 → Z.land (vm_flags v) FORBIDDEN_MMAP_FLAGS = 0 →
  binder_mmap e (Some a) kzalloc true p v = None ∨
  ∃ p', binder_mmap e (Some a) kzalloc true p v = Some (p', - ENOMEM) ∧ buffer p' = 0 ∧ vma p' = None.
Proof.
  intros Hr Hcol Hflags. destruct (mmap_len_spec v (mr_vm _ _ _ Hr)) as (Ev & Hlen & Hl & Hle).
  destruct (mr_area _ _ _ Hr) as ([y Hy] & Ha2 & Ha3). destruct (mr_vm _ _ _ Hr) as ([x Hx] & _ & Hv1 & _).
  pose proof (mr_user _ _ _ Hr) as Hus. change SZ_4M with 4194304 in *.
  unfold binder_mmap. change SZ_4M with 4194304. rewrite Ev. cbn [vm_flags vm_start vm_end].
  rewrite Hflags, (mr_buffer _ _ _ Hr). change (ctrue 0) with false. cbv iota.
  assert (Ex : vm_start v = PAGE_SIZE * x) by lia. assert (Ey : a = PAGE_SIZE * y) by lia.
  rewrite Ex, Ey in Hcol. pose proof (Z.mod_pos_bound (y - x) 4 ltac:(lia)) as Hm.
  assert (Hm0 : (y - x) mod 4 ≠ 0).
  { intros H0. apply Hcol, cache_colour_eq. pose proof (Z.div_mod (y - x) 4).
    replace y with (x + (y - x) / 4 * 4) by lia. by rewrite Z.mod_add. }
  assert (Hloop : colour_loop 4 (vm_start v) a = Some (PAGE_SIZE * (x + (y - x) mod 4))).
  { rewrite Ex, Ey. apply colour_loop_spec; hdr; lia. }
  rewrite Hloop. cbn [mbind option_bind vm_flags vm_start vm_end].
  destruct kzalloc; cbn [negb]; [|right; eexists; split; [done|]; split; [done|apply (mr_vma _ _ _ Hr)]].
  rewrite (u32_small (a + PAGE_SIZE)) by (hdr; lia).
  set (q := mk_proc _ a _ _ _ _ _ ∅ _ _ _ _ _). set (w := mk_vma _ _ _).
  destruct (moved_insert_fails e q w a) as [->|(q' & -> & Ev')]; try done; try (hdr; lia).
  - unfold user_addr, q, w. cbn [user_buffer_offset vm_start]. unfold u32. rewrite mod_add_mod_r by lia.
    replace (a + (vm_start v - a)) with (vm_start v) by lia. rewrite Z.mod_small; hdr; lia.
  - by left.
  - right. cbn [mbind option_bind]. change (ctrue (- ENOMEM)) with true. cbv iota. eexists. split; [done|]. split; [done|].
    simpl. rewrite Ev'. apply (mr_vma _ _ _ Hr).
Qed.

(** A call that returns 0 has found everything in order. *)
Lemma mmap_returns e p a v aliasing p' :
  mmap_ready p a v → binder_mmap e (Some a) true aliasing p v = Some (p', 0) → alloc_inv p' (λ _, true) [a] [].
Proof.
  intros Hr Hrun. destruct (decide (Z.land (vm_flags v) FORBIDDEN_MMAP_FLAGS = 0)) as [Hf|Hf].
  - destruct (decide (aliasing = true ∧ CACHE_COLOUR (Z.lxor (vm_start v) a) ≠ 0)) as [[-> Hc]|Hc].
    + destruct (mmap_moved e p a v true Hr Hc Hf) as [E|(q & E & _)]; rewrite E in Hrun; discriminate.
    + destruct (mmap_cases e p a v aliasing Hr Hf) as [(q & E & Hi & _)|(q & E & _)].
      * intros ->. destruct (decide (CACHE_COLOUR (Z.lxor (vm_start v) a) = 0)); [done|]. exfalso. auto.
      * rewrite E in Hrun. injection Hrun as ->. done.
      * rewrite E in Hrun. discriminate.
  - exfalso. revert Hrun. unfold binder_mmap. destruct (mmap_len_spec v (mr_vm _ _ _ Hr)) as (-> & _).
    cbn [vm_flags]. assert (ctrue (Z.land (vm_flags v) FORBIDDEN_MMAP_FLAGS) = true) as ->; [|done].
    unfold ctrue. apply negb_true_iff. by apply Z.eqb_neq.
Qed.

(** ** The properties of the allocator *)

(** C18: Safety of the area.  After a mapping has been made, whatever sequence
    of allocations, uses, frees and removals of the mapping follows, and
    whichever page services fail on the way, the driver runs into no BUG_ON,
    touches no header in unmapped memory and never frees or allocates a page
    twice; at every point the buffers lie inside the area without overlapping,
    each allocated buffer holds the size asked for in pages that kernel and user
    share, and the budget of asynchronous transactions is exact. *)
Theorem binder_alloc_invariant e p0 a v aliasing p ops :
  mmap_ready p0 a v → binder_mmap e (Some a) true aliasing p0 v = Some (p, 0) → Forall op_ok ops →
  ∃ p', binder_run p ops = Some p' ∧ alloc_ok p' ∧ sound p'.
Proof.
  intros Hr Hrun Hops. pose proof (mmap_returns _ _ _ _ _ _ Hr Hrun) as Hi.
  assert (Hok : alloc_ok p) by (by eexists _, _, _). clear Hr Hrun Hi. revert p Hok.
  induction Hops as [|o ops Ho Hops IH]; intros p Hok; simpl.
  - exists p. split_and!; [done|done|]. destruct Hok as (fr & lf & la & Hi). by eapply alloc_inv_sound.
  - destruct (binder_do_ok p o Hok Ho) as (p1 & -> & Hok1). by apply IH.
Qed.

(** The free buffer [b] fits best: it holds [size] bytes and no smaller one does. *)
Definition fits_best (p : binder_proc) (size b : Z) : Prop :=
  is_free p b ∧ size ≤ capacity p b ∧ ∀ x, is_free p x → size ≤ capacity p x → capacity p b ≤ capacity p x.

Lemma request_size_fits d o :
  0 ≤ d < 2 ^ 32 → 0 ≤ o < 2 ^ 32 → up4 d + up4 o < 2 ^ 32 → request_size d o = up4 d + up4 o.
Proof.
  intros Hd Ho Hlt. destruct (up4_bounds d) as [? [? ?]], (up4_bounds o) as [? [? ?]]. unfold request_size.
  rewrite !ALIGN4_spec by done. rewrite !(u32_small (_ + 3)) by lia. fold (up4 d) (up4 o). apply u32_small. lia.
Qed.

(** C19: Allocation.  A request for data and offsets is rounded up to words; it
    is refused, with nothing changed, only if there is no mapping, the sum does
    not fit into 32 bits, the asynchronous budget is too small, no free buffer
    is large enough, or a page of the best fit cannot be had.  Otherwise the
    best fitting free buffer is handed out with the sizes recorded, the other
    allocated buffers keep their place, size and contents, and an asynchronous
    buffer is taken from the budget. *)
Theorem binder_alloc_buf_correct e p ds os async :
  alloc_ok p → 0 ≤ ds < 2 ^ 32 → 0 ≤ os < 2 ^ 32 →
  let size := up4 ds + up4 os in
  (binder_alloc_buf e p ds os async = Some (p, None) ∧
   (vma p = None ∨ 2 ^ 32 ≤ size ∨ (async = true ∧ free_async_space p < size + HDR) ∨
    (∀ x, is_free p x → capacity p x < size) ∨
    ∃ b n, fits_best p size b ∧ pg (b + HDR - 1) < n < pg (b + HDR + capacity p b) ∧
      (live_vma p = None ∨ ¬ available e p n))) ∨
  (∃ p' b, binder_alloc_buf e p ds os async = Some (p', Some b) ∧ alloc_ok p' ∧ same_area p p' ∧ fits_best p size b ∧
     (∀ x, is_allocated p' x ↔ x = b ∨ is_allocated p x) ∧
     (∀ x, is_allocated p x → hdrs p' !! x = hdrs p !! x ∧ capacity p' x = capacity p x) ∧
     (∃ h, hdrs p' !! b = Some h ∧ data_size h = ds ∧ offsets_size h = os ∧ async_transaction h = async) ∧
     size ≤ capacity p' b ≤ capacity p b ∧
     free_async_space p' = free_async_space p - (if async then size + HDR else 0)).
Proof.
  intros (fr & lf & la & Hi) Hds Hos size. destruct (alloc_buf_cases e p fr lf la ds os async Hi Hds Hos)
    as [[Hrun Hwhy]|(p' & b & fr' & lf' & la' & Hrun & Hi' & Haa & Hbest & _ & Hex & Hasy)].
  - left. split; [done|]. destruct (decide (2 ^ 32 ≤ size)) as [|Hlt]; [auto|].
    pose proof (request_size_fits ds os Hds Hos ltac:(lia)) as Hex. unfold alloc_refused in Hwhy. rewrite Hex in Hwhy. fold size in Hwhy.
    destruct Hwhy as [?|[?|[?|[Hsmall|(b & n & (Hb & Hfit & Hmin) & Hn & Hun)]]]]; [auto|done|auto|..].
    + right; right; right; left. intros x Hx. apply Hsmall. by apply (free_mem _ _ _ _ _ Hi).
    + do 4 right. exists b, n. split; [|split; [|done]].
      2:{ unfold capacity, bsize, data_page in *. replace (b + HDR + _) with (end_of (buffers p) (fin p) b) by lia. lia. }
      split; [by apply (free_mem _ _ _ _ _ Hi)|]. split; [done|]. intros x Hx. apply Hmin. by apply (free_mem _ _ _ _ _ Hi).
  - right. destruct Haa as [Ha Hset Hoth (h & Hh & _ & Hhd) Hsz Hfas]. pose proof (same_area_fin _ _ Ha) as Hfin.
    fold size in Hex. rewrite Hex in *. destruct Hbest as (Hb & Hfit & Hmin). exists p', b. unfold capacity. rewrite Hfin.
    split; [done|]. split; [by eexists _, _, _|]. split; [done|]. split; [split; [by apply (free_mem _ _ _ _ _ Hi)|split; [done|]]|].
    { intros x Hx. apply Hmin. by apply (free_mem _ _ _ _ _ Hi). }
    split; [intros x; by rewrite <- (allocated_mem _ _ _ _ _ Hi'), <- (allocated_mem _ _ _ _ _ Hi)|].
    split; [intros x Hx; apply Hoth; by apply (allocated_mem _ _ _ _ _ Hi)|]. split; [by exists h|done].
Qed.

Lemma all_free_single fr l b : coalesced fr l → (∀ x, x ∈ l → fr x = true) → head l = Some b → l = [b].
Proof.
  intros Hc Hf Hb. destruct l as [|x [|y l]]; [done|by injection Hb as ->|]. destruct Hc as [[H|H] _];
    rewrite Hf in H; done || set_solver.
Qed.

(** C20: Freeing.  An allocated buffer that belongs to no transaction can always
    be freed; exactly it goes, the other allocated buffers keep their place, size
    and contents, and its share of the asynchronous budget comes back.  Free
    neighbours are joined: when the last buffer is freed the area is one free
    buffer again, with one page behind it and the whole budget. *)
Theorem binder_free_buf_correct e p b h :
  alloc_ok p → is_allocated p b → hdrs p !! b = Some h → transaction h = 0 →
  ∃ p', binder_free_buf e p b = Some p' ∧ alloc_ok p' ∧ same_area p p' ∧
    (∀ x, is_allocated p' x ↔ is_allocated p x ∧ x ≠ b) ∧
    (∀ x, is_allocated p' x → hdrs p' !! x = hdrs p !! x ∧ capacity p' x = capacity p x) ∧
    free_async_space p' = free_async_space p +
      (if async_transaction h then request_size (data_size h) (offsets_size h) + HDR else 0) ∧
    ((∀ x, is_allocated p x → x = b) →
       buffers p' = [buffer p] ∧ capacity p' (buffer p) = buffer_size p - HDR ∧
       free_async_space p' = buffer_size p / 2 ∧ ∀ n, present p' n ↔ n = pg (buffer p)).
Proof.
  intros (fr & lf & la & Hi) Hb Eh Htr. pose proof Hb as Hb'. apply (allocated_mem _ _ _ _ _ Hi) in Hb'.
  destruct (free_buf_cases e p fr lf la b h Hi Hb' Eh Htr) as (p' & lf' & la' & Hrun & Hi' & [Ha Hset Hoth Hasy]).
  pose proof (same_area_fin _ _ Ha) as Hfin.
  assert (Hal : ∀ x, is_allocated p' x ↔ is_allocated p x ∧ x ≠ b).
  { intros x. by rewrite <- (allocated_mem _ _ _ _ _ Hi'), <- (allocated_mem _ _ _ _ _ Hi). }
  exists p'. split; [done|]. split; [by eexists _, _, _|]. split; [done|]. split; [done|].
  split; [intros x Hx; unfold capacity; rewrite Hfin; apply Hoth; by apply (allocated_mem _ _ _ _ _ Hi')|]. split.
  { rewrite Hasy. unfold charge. rewrite Eh. destruct Hb as (_ & h' & Eh' & Ef). assert (h' = h) as -> by congruence. by rewrite Ef. }
  intros Hall. destruct Hi' as [Hc' Hp']. pose proof (ai_heads _ _ _ _ Hc') as Hh'. destruct Ha as (_ & Eb & _ & Es & _).
  assert (Hfr : ∀ x, x ∈ buffers p' → upd fr b true x = true).
  { intros x Hx. destruct (upd fr b true x) eqn:E; [done|]. exfalso. destruct (hd_hdr _ _ _ Hh' x Hx) as (hx & Ehx & Efx).
    assert (is_allocated p' x) as Hax by (split; [done|exists hx; split; [done|congruence]]).
    apply Hal in Hax as [Hax Hne]. by apply Hne, Hall. }
  assert (El : buffers p' = [buffer p]).
  { rewrite <- Eb. apply (all_free_single (upd fr b true)); [apply (ai_coalesced _ _ _ _ Hc')|done|apply (ai_start _ _ _ _ Hc')]. }
  assert (Hfb : upd fr b true (buffer p) = true) by (apply Hfr; rewrite El; by left).
  split; [done|]. split; [unfold capacity; rewrite Hfin, El; unfold bsize, fin; simpl; rewrite Z.eqb_refl; unfold nxt; simpl; lia|]. split.
  - pose proof (ai_async _ _ _ _ Hc') as Hs. rewrite El in Hs. simpl in Hs.
    rewrite (charge_free _ _ _ (buffer p) Hh') in Hs; [|rewrite El; by left|done]. rewrite Es in Hs. lia.
  - intros n. rewrite Hp', El. simpl. rewrite Hfb, covers_true. destruct (area_pages p (hd_area _ _ _ (ai_heads _ _ _ _ (proj1 Hi)))) as (HB & _).
    pose proof (pg_bounds (buffer p + HDR - 1)). split; [intros [?|[]]; hdr; lia|intros ->; left; hdr; lia].
Qed.

(** Lookup.  A pointer of user space is resolved to the allocated buffer
    whose data it points to, and to none if it points anywhere else: a process
    can name exactly its allocated buffers. *)
Theorem binder_buffer_lookup_correct p u :
  alloc_ok p → 0 ≤ u < 2 ^ 32 →
  (∃ b, binder_buffer_lookup p u = Some (Some b) ∧ is_allocated p b ∧ u = user_addr p (b + HDR)) ∨
  (binder_buffer_lookup p u = Some None ∧ ∀ b, is_allocated p b → user_addr p (b + HDR) ≠ u).
Proof.
  intros (fr & lf & la & Hi) Hu. pose proof Hi as [Hc _]. pose proof (ai_heads _ _ _ _ Hc) as Hh.
  unfold binder_buffer_lookup. set (k := u32 (u - user_buffer_offset p - HDR)).
  assert (Hk : ∀ b, b ∈ la → k = b ↔ u = user_addr p (b + HDR)).
  { intros b Hb. apply (ai_alloc_mem _ _ _ _ Hc) in Hb as [Hb _]. destruct (heads_range _ _ _ Hh b Hb) as (_ & ? & ? & ? & _).
    unfold k, user_addr. split; intros E.
    - rewrite <- E. unfold u32. rewrite <- Z.add_assoc, mod_add_mod_l by lia.
      replace (u - user_buffer_offset p - HDR + (HDR + user_buffer_offset p)) with u by lia. by rewrite Z.mod_small.
    - rewrite E. unfold u32. rewrite <- Z.sub_add_distr, mod_sub_mod_l by lia.
      replace (b + HDR + user_buffer_offset p - (user_buffer_offset p + HDR)) with b by lia. apply Z.mod_small. hdr. lia. }
  destruct (is_tree_search (allocated_buffers p) la (allocated_diff p k) (λ x, k - x) (ai_alloc _ _ _ _ Hc))
    as [(b & -> & Hb & E)|(link & parent & -> & Hne & _)].
  - apply descending_addr; [|apply (ai_order _ _ _ _ Hc)]. intros x Hx. apply (ai_alloc_mem _ _ _ _ Hc) in Hx as [? ?].
    by eapply allocated_diff_spec.
  - left. exists b. split; [done|]. split; [by apply (allocated_mem _ _ _ _ _ Hi)|]. apply Hk; [done|lia].
  - right. split; [done|]. intros b Hb E. apply (allocated_mem _ _ _ _ _ Hi) in Hb. symmetry in E. apply Hk in E; [|done].
    apply (Hne b Hb). lia.
Qed.

(** On a cache with aliases, a mapping whose colour differs from
    that of the kernel's area is moved up page by page, but the offset between
    the two stays that of the original start: the first page falls in front of
    the mapping, and the call never succeeds (it fails for want of memory, or
    reads an array without elements when the mapping was moved to its end). *)
Theorem binder_mmap_moved_fails e p a v kzalloc :
  mmap_ready p a v → CACHE_COLOUR (Z.lxor (vm_start v) a) ≠ 0 → Z.land (vm_flags v) FORBIDDEN_MMAP_FLAGS = 0 →
  binder_mmap e (Some a) kzalloc true p v = None ∨
  ∃ p', binder_mmap e (Some a) kzalloc true p v = Some (p', - ENOMEM) ∧ buffer p' = 0 ∧ vma p' = None.
Proof. apply mmap_moved. Qed.

(** ** A process with a small area *)

Definition sample_env : mm_env :=
  mk_env (λ x, Some x) (λ _, true) (λ _, true) (λ _, mk_buf true true true 7 9 9 77 77).
Definition sample_closed : binder_proc :=
  mk_proc None 0 0 [] (mk_mem ∅ 0) (mk_mem ∅ 0) 0 ∅ 0 ∅ ∅ ∅ true.
Definition sample_area : Z := 0xD0000000.
Definition sample_vma : vm_area_struct := mk_vma 0x40000000 0x40010000 0.

Lemma sample_ready : mmap_ready sample_closed sample_area sample_vma.
Proof.
  split; try done; try apply is_tree_empty.
  - split_and!; [exists 0xD0000; done|done|done].
  - split_and!; [exists 0x40000; done|exists 0x40010; done|done..].
Qed.

Definition sample_proc : binder_proc :=
  match binder_mmap sample_env (Some sample_area) true false sample_closed sample_vma with
  | Some (p, _) => p
  | None => sample_closed
  end.

Lemma sample_mmap : binder_mmap sample_env (Some sample_area) true false sample_closed sample_vma = Some (sample_proc, 0).
Proof. vm_compute. reflexivity. Qed.

Lemma sample_ok : alloc_ok sample_proc.
Proof. eexists _, _, _. exact (mmap_returns _ _ _ _ _ _ sample_ready sample_mmap). Qed.

(** After a buffer of 5000 bytes, and with its transaction gone. *)
Definition sample_proc2 : binder_proc :=
  match binder_run sample_proc [OpAlloc sample_env 5000 10 true; OpUse sample_area true 1 0 0] with
  | Some p => p
  | None => sample_closed
  end.

Lemma sample_run2 : binder_run sample_proc [OpAlloc sample_env 5000 10 true; OpUse sample_area true 1 0 0] = Some sample_proc2.
Proof. vm_compute. reflexivity. Qed.

Lemma sample_run_ok ops p q : alloc_ok p → Forall op_ok ops → binder_run p ops = Some q → alloc_ok q.
Proof.
  intros Hp Hops. revert p Hp. induction Hops as [|o ops Ho _ IH]; simpl; intros p Hp Hrun; [by injection Hrun as <-|].
  destruct (binder_do_ok p o Hp Ho) as (p1 & E & Hp1). rewrite E in Hrun. by apply (IH p1).
Qed.

Lemma sample_ok2 : alloc_ok sample_proc2.
Proof.
  refine (sample_run_ok _ _ _ sample_ok _ sample_run2). repeat constructor; done.
Qed.

Lemma binder_alloc_invariant_witness :
  ∃ p', binder_run sample_proc [OpAlloc sample_env 5000 10 true; OpAlloc sample_env 100 0 false; OpFree sample_env sample_area]
      = Some p' ∧ alloc_ok p' ∧ sound p'.
Proof.
  apply (binder_alloc_invariant sample_env sample_closed sample_area sample_vma false sample_proc).
  - exact sample_ready.
  - exact sample_mmap.
  - repeat constructor; vm_compute; done.
Defined.

Definition alloc_result (r : option (binder_proc * option Z)) : option (option Z) := snd <$> r.

Lemma sample_alloc_result : alloc_result (binder_alloc_buf sample_env sample_proc 5000 10 true) = Some (Some sample_area).
Proof. vm_compute. reflexivity. Qed.

Lemma binder_alloc_buf_correct_witness :
  ∃ p' b, binder_alloc_buf sample_env sample_proc 5000 10 true = Some (p', Some b) ∧ alloc_ok p' ∧ 5012 ≤ capacity p' b ∧
    free_async_space p' = free_async_space sample_proc - 5052.
Proof.
  destruct (binder_alloc_buf_correct sample_env sample_proc 5000 10 true sample_ok) as [[E _]|(p' & b & E & Hok & H)].
  - done.
  - done.
  - exfalso. pose proof sample_alloc_result as Hres. rewrite E in Hres. discriminate.
  - exists p', b. destruct H as (_ & _ & _ & _ & _ & [Hsz _] & Has). split; [exact E|]. split; [exact Hok|]. split; [exact Hsz|exact Has].
Defined.

Definition sample_hdr : option binder_buffer := hdrs sample_proc2 !! sample_area.

Lemma sample_hdr_spec : sample_hdr = Some (mk_buf false true true 1 0 0 5000 10).
Proof. vm_compute. reflexivity. Qed.

Lemma sample_buffers2 : buffers sample_proc2 = [sample_area; sample_area + HDR + 5012].
Proof. vm_compute. reflexivity. Qed.

Lemma binder_free_buf_correct_witness :
  ∃ p', binder_free_buf sample_env sample_proc2 sample_area = Some p' ∧ alloc_ok p' ∧ ¬ is_allocated p' sample_area.
Proof.
  destruct (binder_free_buf_correct sample_env sample_proc2 sample_area (mk_buf false true true 1 0 0 5000 10) sample_ok2)
    as (p' & E & Hok & _ & Hal & _).
  - split; [rewrite sample_buffers2; by left|]. exists (mk_buf false true true 1 0 0 5000 10). split; [exact sample_hdr_spec|done].
  - exact sample_hdr_spec.
  - reflexivity.
  - exists p'. split; [exact E|]. split; [exact Hok|]. intros H. apply Hal in H as [_ H]. by apply H.
Defined.

Lemma sample_lookup_result : binder_buffer_lookup sample_proc2 (0x40000000 + HDR) = Some (Some sample_area).
Proof. vm_compute. reflexivity. Qed.

Lemma binder_buffer_lookup_correct_witness :
  ∃ b, binder_buffer_lookup sample_proc2 (0x40000000 + HDR) = Some (Some b) ∧ is_allocated sample_proc2 b.
Proof.
  destruct (binder_buffer_lookup_correct sample_proc2 (0x40000000 + HDR) sample_ok2) as [(b & E & Hb & _)|[E _]].
  - by vm_compute.
  - exists b. by split.
  - exfalso. rewrite sample_lookup_result in E. discriminate.
Defined.

(** One page more, and the colours differ. *)
Definition sample_shifted : vm_area_struct := mk_vma 0x40003000 0x40013000 0.

Lemma sample_ready_shifted : mmap_ready sample_closed sample_area sample_shifted.
Proof.
  split; try done; try apply is_tree_empty.
  - split_and!; [exists 0xD0000; done|done|done].
  - split_and!; [exists 0x40003; done|exists 0x40013; done|done..].
Qed.

Lemma binder_mmap_moved_fails_witness :
  snd <$> binder_mmap sample_env (Some sample_area) true true sample_closed sample_shifted = Some (- ENOMEM) ∧
  binder_mmap sample_env (Some sample_area) true true sample_closed (mk_vma 0x40003000 0x40004000 0) = None ∧
  (binder_mmap sample_env (Some sample_area) true true sample_closed sample_shifted = None ∨
   ∃ p', binder_mmap sample_env (Some sample_area) true true sample_closed sample_shifted = Some (p', - ENOMEM) ∧
     buffer p' = 0 ∧ vma p' = None).
Proof.
  split; [vm_compute; reflexivity|]. split; [vm_compute; reflexivity|].
  apply (binder_mmap_moved_fails sample_env sample_closed sample_area sample_shifted true).
  - exact sample_ready_shifted.
  - by vm_compute.
  - reflexivity.
Defined.
