(* ===== verification/BinderRef.v ===== *)
(** Objects and references of binder (drivers/staging/android/binder.c): the
    nodes a process offers, the references other processes hold to them, the
    counts on both, and the protocol that tells the owner of a node when it is
    first and last referred to.

    Nodes and references live in stores by address; a pointer to a freed object
    leads nowhere, and following it is the outcome [None], as is a BUG.  The
    trees are those of RbTree.v.  The work items of nodes and death notices are
    on todo lists, which are lists of [work]; a list is named by its address.
    Every operation runs under [binder_lock].  Addresses from kzalloc are inputs
    ([None]: out of memory). *)

From S2P Require Import Prelude RbTree RbErase.

(** ** Data *)

(** What is on a todo list: a node, the death notice of a reference, or an item
    of another kind. *)
Inductive work := WNode (n : Z) | WDeath (d : Z) | WOther (x : Z).

#[global] Instance work_eq_dec : EqDecision work.
Proof. solve_decision. Defined.

(** [n_proc] is [None] once the owner is gone; [n_refs] is the hash list of the
    references to the node. *)
Record binder_node := mk_bnode {
  n_debug_id : Z;
  n_proc : option Z;
  n_ptr : Z;
  n_cookie : Z;
  n_refs : list Z;
  internal_strong_refs : Z;
  local_weak_refs : Z;
  local_strong_refs : Z;
  has_strong_ref : bool;
  pending_strong_ref : bool;
  has_weak_ref : bool;
  pending_weak_ref : bool;
  accept_fds : bool;
  min_priority : Z }.

Record binder_ref := mk_bref {
  r_debug_id : Z;
  r_proc : Z;
  r_node : Z;
  desc : Z;
  strong : Z;
  weak : Z;
  death : option Z }.

(** The part of [struct binder_proc] with the trees; [todo] is the address of
    its todo list. *)
Record ref_proc := mk_rproc {
  p_nodes : rb_mem;
  refs_by_desc : rb_mem;
  refs_by_node : rb_mem;
  todo : Z }.

(** [lists] are the todo lists by address, those of processes and those of
    threads; [list_proc] is the process a list belongs to. *)
Record binder := mk_binder {
  node_at : gmap Z binder_node;
  ref_at : gmap Z binder_ref;
  proc_at : gmap Z ref_proc;
  lists : gmap Z (list work);
  list_proc : gmap Z Z;
  dead_nodes : list Z;
  context_mgr_node : Z;
  last_id : Z }.

Definition with_node (s : binder) (n : Z) (x : binder_node) : binder :=
  mk_binder (<[n := x]> (node_at s)) (ref_at s) (proc_at s) (lists s) (list_proc s) (dead_nodes s) (context_mgr_node s) (last_id s).
Definition free_node (s : binder) (n : Z) : binder :=
  mk_binder (delete n (node_at s)) (ref_at s) (proc_at s) (lists s) (list_proc s) (dead_nodes s) (context_mgr_node s) (last_id s).
Definition with_ref (s : binder) (r : Z) (x : binder_ref) : binder :=
  mk_binder (node_at s) (<[r := x]> (ref_at s)) (proc_at s) (lists s) (list_proc s) (dead_nodes s) (context_mgr_node s) (last_id s).
Definition free_ref (s : binder) (r : Z) : binder :=
  mk_binder (node_at s) (delete r (ref_at s)) (proc_at s) (lists s) (list_proc s) (dead_nodes s) (context_mgr_node s) (last_id s).
Definition with_proc (s : binder) (p : Z) (x : ref_proc) : binder :=
  mk_binder (node_at s) (ref_at s) (<[p := x]> (proc_at s)) (lists s) (list_proc s) (dead_nodes s) (context_mgr_node s) (last_id s).
Definition with_lists (s : binder) (l : gmap Z (list work)) : binder :=
  mk_binder (node_at s) (ref_at s) (proc_at s) l (list_proc s) (dead_nodes s) (context_mgr_node s) (last_id s).
Definition with_dead (s : binder) (l : list Z) : binder :=
  mk_binder (node_at s) (ref_at s) (proc_at s) (lists s) (list_proc s) l (context_mgr_node s) (last_id s).
(** [++binder_last_id]. *)
Definition next_id (s : binder) : binder :=
  mk_binder (node_at s) (ref_at s) (proc_at s) (lists s) (list_proc s) (dead_nodes s) (context_mgr_node s) (s32 (last_id s + 1)).

Definition set_p_nodes (p : ref_proc) (t : rb_mem) : ref_proc := mk_rproc t (refs_by_desc p) (refs_by_node p) (todo p).
Definition set_by_desc (p : ref_proc) (t : rb_mem) : ref_proc := mk_rproc (p_nodes p) t (refs_by_node p) (todo p).
Definition set_by_node (p : ref_proc) (t : rb_mem) : ref_proc := mk_rproc (p_nodes p) (refs_by_desc p) t (todo p).

Definition set_refs (x : binder_node) (l : list Z) : binder_node :=
  mk_bnode (n_debug_id x) (n_proc x) (n_ptr x) (n_cookie x) l (internal_strong_refs x) (local_weak_refs x)
    (local_strong_refs x) (has_strong_ref x) (pending_strong_ref x) (has_weak_ref x) (pending_weak_ref x) (accept_fds x) (min_priority x).
(** The three counts: internal strong, local weak, local strong. *)
Definition set_counts (x : binder_node) (si lw ls : Z) : binder_node :=
  mk_bnode (n_debug_id x) (n_proc x) (n_ptr x) (n_cookie x) (n_refs x) si lw ls
    (has_strong_ref x) (pending_strong_ref x) (has_weak_ref x) (pending_weak_ref x) (accept_fds x) (min_priority x).
(** The four flags: has strong, pending strong, has weak, pending weak. *)
Definition set_flags (x : binder_node) (hs ps hw pw : bool) : binder_node :=
  mk_bnode (n_debug_id x) (n_proc x) (n_ptr x) (n_cookie x) (n_refs x) (internal_strong_refs x) (local_weak_refs x)
    (local_strong_refs x) hs ps hw pw (accept_fds x) (min_priority x).
Definition set_rcounts (r : binder_ref) (st wk : Z) : binder_ref :=
  mk_bref (r_debug_id r) (r_proc r) (r_node r) (desc r) st wk (death r).

(** ** Todo lists *)

(** [list_empty(&w->entry)]: the item is on no list. *)
Definition work_idle (s : binder) (w : work) : bool :=
  bool_decide (map_Forall (λ _ l, w ∉ l) (lists s)).
(** [list_del_init(&w->entry)]. *)
Definition work_del (s : binder) (w : work) : binder := with_lists s (filter (λ x, x ≠ w) <$> lists s).
(** [list_add_tail(&w->entry, list)]. *)
Definition work_add_tail (s : binder) (w : work) (list : Z) : option binder :=
  l ← lists s !! list; Some (with_lists s (<[list := l ++ [w]]> (lists s))).

(** ** Nodes *)

(** [Some None] is NULL. *)
Definition binder_get_node (s : binder) (proc ptr : Z) : option (option Z) :=
  p ← proc_at s !! proc;
  found ← rb_search (p_nodes p) (λ n, x ← node_at s !! n; Some (ptr - n_ptr x));
  Some (match found with inl n => Some n | inr _ => None end).

Definition binder_new_node (s : binder) (proc : Z) (mem : option Z) (ptr cookie : Z) : option (binder * option Z) :=
  p ← proc_at s !! proc;
  found ← rb_search (p_nodes p) (λ n, x ← node_at s !! n; Some (ptr - n_ptr x));
  match found with
  | inl _ => Some (s, None)
  | inr (link, parent) =>
      match mem with
      | None => Some (s, None)
      | Some n =>
          t ← rb_link_node (p_nodes p) n parent link;
          t ← rb_insert_color t n;
          let s := next_id (with_proc s proc (set_p_nodes p t)) in
          Some (with_node s n (mk_bnode (last_id s) (Some proc) ptr cookie [] 0 0 0 false false false false false 0), Some n)
      end
  end.

(** [target_list] is [None] for NULL. *)
Definition binder_inc_node (s : binder) (n : Z) (is_strong internal : bool) (target_list : option Z)
    : option (binder * Z) :=
  x ← node_at s !! n;
  if is_strong then
    if internal && (match target_list with None => true | _ => false end) && (internal_strong_refs x =? 0)
       && negb ((n =? context_mgr_node s) && has_strong_ref x)
    then Some (s, - EINVAL)
    else
      let x := if internal
               then set_counts x (s32 (internal_strong_refs x + 1)) (local_weak_refs x) (local_strong_refs x)
               else set_counts x (internal_strong_refs x) (local_weak_refs x) (s32 (local_strong_refs x + 1)) in
      let s := with_node s n x in
      match target_list with
      | Some l =>
          if negb (has_strong_ref x)
          then s ← work_add_tail (work_del s (WNode n)) (WNode n) l; Some (s, 0)
          else Some (s, 0)
      | None => Some (s, 0)
      end
  else
    let x := if internal then x
             else set_counts x (internal_strong_refs x) (s32 (local_weak_refs x + 1)) (local_strong_refs x) in
    let s := with_node s n x in
    if negb (has_weak_ref x) && work_idle s (WNode n) then
      match target_list with
      | None => Some (s, - EINVAL)
      | Some l => s ← work_add_tail s (WNode n) l; Some (s, 0)
      end
    else Some (s, 0).

(** The end of [binder_dec_node]: nothing refers to the node any more; the
    owner is told, or the node goes. *)
Definition dec_node_end (s : binder) (n : Z) (x : binder_node) : option binder :=
  match n_proc x with
  | Some p =>
      if has_strong_ref x || has_weak_ref x then
        if work_idle s (WNode n) then pr ← proc_at s !! p; work_add_tail s (WNode n) (todo pr) else Some s
      else if bool_decide (n_refs x = []) && (local_strong_refs x =? 0) && (local_weak_refs x =? 0) then
        let s := work_del s (WNode n) in
        pr ← proc_at s !! p;
        t ← rb_erase (p_nodes pr) n;
        Some (free_node (with_proc s p (set_p_nodes pr t)) n)
      else Some s
  | None =>
      if bool_decide (n_refs x = []) && (local_strong_refs x =? 0) && (local_weak_refs x =? 0) then
        let s := work_del s (WNode n) in
        Some (free_node (with_dead s (filter (λ y, y ≠ n) (dead_nodes s))) n)
      else Some s
  end.

Definition binder_dec_node (s : binder) (n : Z) (is_strong internal : bool) : option binder :=
  x ← node_at s !! n;
  if is_strong then
    let x := if internal
             then set_counts x (s32 (internal_strong_refs x - 1)) (local_weak_refs x) (local_strong_refs x)
             else set_counts x (internal_strong_refs x) (local_weak_refs x) (s32 (local_strong_refs x - 1)) in
    let s := with_node s n x in
    if ctrue (local_strong_refs x) || ctrue (internal_strong_refs x) then Some s else dec_node_end s n x
  else
    let x := if internal then x
             else set_counts x (internal_strong_refs x) (s32 (local_weak_refs x - 1)) (local_strong_refs x) in
    let s := with_node s n x in
    if ctrue (local_weak_refs x) || negb (bool_decide (n_refs x = [])) then Some s else dec_node_end s n x.

(** ** References *)

Definition binder_get_ref (s : binder) (proc d : Z) : option (option Z) :=
  p ← proc_at s !! proc;
  found ← rb_search (refs_by_desc p) (λ r, x ← ref_at s !! r; Some (d - desc x));
  Some (match found with inl r => Some r | inr _ => None end).

(** The first free descriptor: the walk over the references in the order of
    their descriptors, from [r] on (0: the end). *)
Fixpoint desc_loop (fuel : nat) (s : binder) (t : rb_mem) (r new_desc : Z) : option Z :=
  if ctrue r then
    match fuel with
    | O => None
    | S fuel =>
        x ← ref_at s !! r;
        if desc x >? new_desc then Some new_desc
        else
          next ← rb_next t r;
          desc_loop fuel s t next (u32 (desc x + 1))
    end
  else Some new_desc.

Definition binder_get_ref_for_node (s : binder) (proc node : Z) (mem : option Z) : option (binder * option Z) :=
  p ← proc_at s !! proc;
  found ← rb_search (refs_by_node p) (λ r, x ← ref_at s !! r; Some (node - r_node x));
  match found with
  | inl r => Some (s, Some r)
  | inr (link, parent) =>
      match mem with
      | None => Some (s, None)
      | Some r =>
          let s := next_id s in
          t ← rb_link_node (refs_by_node p) r parent link;
          t ← rb_insert_color t r;
          let p := set_by_node p t in
          first ← rb_first (refs_by_desc p);
          d ← desc_loop (rb_fuel (refs_by_desc p)) s (refs_by_desc p) first
                (if node =? context_mgr_node s then 0 else 1);
          found ← rb_search (refs_by_desc p) (λ r, x ← ref_at s !! r; Some (d - desc x));
          match found with
          | inl _ => None                                                    (* BUG *)
          | inr (link, parent) =>
              t ← rb_link_node (refs_by_desc p) r parent link;
              t ← rb_insert_color t r;
              let s := with_proc s proc (set_by_desc p t) in
              let s := with_ref s r (mk_bref (last_id s) proc node d 0 0 None) in
              if ctrue node then
                x ← node_at s !! node;
                Some (with_node s node (set_refs x (r :: n_refs x)), Some r)
              else Some (s, Some r)
          end
      end
  end.

Definition binder_delete_ref (s : binder) (r : Z) : option binder :=
  x ← ref_at s !! r;
  p ← proc_at s !! (r_proc x);
  t ← rb_erase (refs_by_desc p) r;
  let p := set_by_desc p t in
  t ← rb_erase (refs_by_node p) r;
  let s := with_proc s (r_proc x) (set_by_node p t) in
  s ← (if ctrue (strong x) then binder_dec_node s (r_node x) true true else Some s);
  nd ← node_at s !! (r_node x);
  let s := with_node s (r_node x) (set_refs nd (filter (λ y, y ≠ r) (n_refs nd))) in
  s ← binder_dec_node s (r_node x) false true;
  let s := match death x with Some d => work_del s (WDeath d) | None => s end in
  Some (free_ref s r).

Definition binder_inc_ref (s : binder) (r : Z) (is_strong : bool) (target_list : option Z) : option (binder * Z) :=
  x ← ref_at s !! r;
  if is_strong then
    '(s, ret) ← (if strong x =? 0 then binder_inc_node s (r_node x) true true target_list else Some (s, 0));
    if ctrue ret then Some (s, ret)
    else Some (with_ref s r (set_rcounts x (s32 (strong x + 1)) (weak x)), 0)
  else
    '(s, ret) ← (if weak x =? 0 then binder_inc_node s (r_node x) false true target_list else Some (s, 0));
    if ctrue ret then Some (s, ret)
    else Some (with_ref s r (set_rcounts x (strong x) (s32 (weak x + 1))), 0).

Definition binder_dec_ref (s : binder) (r : Z) (is_strong : bool) : option (binder * Z) :=
  x ← ref_at s !! r;
  if is_strong then
    if strong x =? 0 then Some (s, - EINVAL)
    else
      let x := set_rcounts x (s32 (strong x - 1)) (weak x) in
      let s := with_ref s r x in
      s ← (if strong x =? 0 then binder_dec_node s (r_node x) true true else Some s);
      if (strong x =? 0) && (weak x =? 0) then s ← binder_delete_ref s r; Some (s, 0) else Some (s, 0)
  else
    if weak x =? 0 then Some (s, - EINVAL)
    else
      let x := set_rcounts x (strong x) (s32 (weak x - 1)) in
      let s := with_ref s r x in
      if (strong x =? 0) && (weak x =? 0) then s ← binder_delete_ref s r; Some (s, 0) else Some (s, 0).

(** ** The commands of the holders and owners *)

Inductive ref_cmd := BC_INCREFS | BC_ACQUIRE | BC_RELEASE | BC_DECREFS.

(** The commands on a reference by its descriptor; what is wrong with them is
    only reported.  [ref->desc] is read before the test for NULL. *)
Definition bc_refs (s : binder) (proc : Z) (cmd : ref_cmd) (target : Z) (mem : option Z) : option binder :=
  '(s, ref) ← (if (target =? 0) && ctrue (context_mgr_node s) &&
                  (match cmd with BC_INCREFS | BC_ACQUIRE => true | _ => false end)
               then
                 '(s, ref) ← binder_get_ref_for_node s proc (context_mgr_node s) mem;
                 r ← ref;
                 _ ← ref_at s !! r;
                 Some (s, Some r)
               else ref ← binder_get_ref s proc target; Some (s, ref));
  match ref with
  | None => Some s
  | Some r =>
      match cmd with
      | BC_INCREFS => '(s, _) ← binder_inc_ref s r false None; Some s
      | BC_ACQUIRE => '(s, _) ← binder_inc_ref s r true None; Some s
      | BC_RELEASE => '(s, _) ← binder_dec_ref s r true; Some s
      | BC_DECREFS => '(s, _) ← binder_dec_ref s r false; Some s
      end
  end.

(** BC_ACQUIRE_DONE ([acquire]) and BC_INCREFS_DONE: the owner confirms. *)
Definition bc_done (s : binder) (proc : Z) (acquire : bool) (ptr cookie : Z) : option binder :=
  found ← binder_get_node s proc ptr;
  match found with
  | None => Some s
  | Some n =>
      x ← node_at s !! n;
      if negb (cookie =? n_cookie x) then Some s
      else if acquire then
        if negb (pending_strong_ref x) then Some s
        else binder_dec_node (with_node s n (set_flags x (has_strong_ref x) false (has_weak_ref x) (pending_weak_ref x)))
               n true false
      else
        if negb (pending_weak_ref x) then Some s
        else binder_dec_node (with_node s n (set_flags x (has_strong_ref x) (pending_strong_ref x) (has_weak_ref x) false))
               n false false
  end.

(** What the owner of a node is told. *)
Inductive node_cmd := BR_NOOP | BR_INCREFS | BR_ACQUIRE | BR_RELEASE | BR_DECREFS.

(** The case BINDER_WORK_NODE of [binder_thread_read]: the next step towards
    what the counts say, or the end of the work item and perhaps of the node. *)
Definition br_node (s : binder) (proc n : Z) : option (binder * node_cmd) :=
  x ← node_at s !! n;
  let is_strong := ctrue (internal_strong_refs x) || ctrue (local_strong_refs x) in
  let is_weak := negb (bool_decide (n_refs x = [])) || ctrue (local_weak_refs x) || is_strong in
  if is_weak && negb (has_weak_ref x) then
    Some (with_node s n (set_flags (set_counts x (internal_strong_refs x) (s32 (local_weak_refs x + 1)) (local_strong_refs x))
                           (has_strong_ref x) (pending_strong_ref x) true true), BR_INCREFS)
  else if is_strong && negb (has_strong_ref x) then
    Some (with_node s n (set_flags (set_counts x (internal_strong_refs x) (local_weak_refs x) (s32 (local_strong_refs x + 1)))
                           true true (has_weak_ref x) (pending_weak_ref x)), BR_ACQUIRE)
  else if negb is_strong && has_strong_ref x then
    Some (with_node s n (set_flags x false (pending_strong_ref x) (has_weak_ref x) (pending_weak_ref x)), BR_RELEASE)
  else if negb is_weak && has_weak_ref x then
    Some (with_node s n (set_flags x (has_strong_ref x) (pending_strong_ref x) false (pending_weak_ref x)), BR_DECREFS)
  else
    let s := work_del s (WNode n) in
    if negb is_weak && negb is_strong then
      p ← proc_at s !! proc;
      t ← rb_erase (p_nodes p) n;
      Some (free_node (with_proc s proc (set_p_nodes p t)) n, BR_NOOP)
    else Some (s, BR_NOOP).

(** The first item of a todo list, when it is a node; the others are not of this
    component. *)
Definition br_work (s : binder) (list : Z) : option (binder * node_cmd) :=
  l ← lists s !! list;
  proc ← list_proc s !! list;
  match l with
  | WNode n :: _ => br_node s proc n
  | _ => Some (s, BR_NOOP)
  end.

(** ** The context manager *)

Definition with_mgr (s : binder) (n : Z) : binder :=
  mk_binder (node_at s) (ref_at s) (proc_at s) (lists s) (list_proc s) (dead_nodes s) n (last_id s).

(** [(uid_t)-1]: the manager's user is not yet known. *)
Definition no_uid : Z := 4294967295.

(** BINDER_SET_CONTEXT_MGR; [mgr_uid] is [binder_context_mgr_uid]. *)
Definition set_context_mgr (s : binder) (mgr_uid proc euid : Z) (mem : option Z) : option (binder * Z * Z) :=
  if ctrue (context_mgr_node s) then Some (s, mgr_uid, - EBUSY)
  else if negb (mgr_uid =? no_uid) && negb (mgr_uid =? euid) then Some (s, mgr_uid, - EPERM)
  else
    let mgr_uid := if mgr_uid =? no_uid then euid else mgr_uid in
    '(s, node) ← binder_new_node s proc mem 0 0;
    match node with
    | None => Some (with_mgr s 0, mgr_uid, - ENOMEM)
    | Some n =>
        x ← node_at s !! n;
        let x := set_counts x (internal_strong_refs x) (s32 (local_weak_refs x + 1)) (s32 (local_strong_refs x + 1)) in
        Some (with_mgr (with_node s n (set_flags x true (pending_strong_ref x) true (pending_weak_ref x))) n, mgr_uid, 0)
    end.

(** ** The structure: trees, lists and who is on them *)

Definition ptr_of (s : binder) (n : Z) : Z := from_option n_ptr 0 (node_at s !! n).
Definition desc_of (s : binder) (r : Z) : Z := from_option desc 0 (ref_at s !! r).
Definition rnode_of (s : binder) (r : Z) : Z := from_option r_node 0 (ref_at s !! r).

(** The nodes process [p] owns, and the references it holds. *)
Definition owned (s : binder) (p n : Z) : Prop := ∃ x, node_at s !! n = Some x ∧ n_proc x = Some p.
Definition held (s : binder) (p r : Z) : Prop := ∃ y, ref_at s !! r = Some y ∧ r_proc y = p.

(** [H] is what the trees of references hold; it differs from [held] only
    while a reference is being deleted. *)
Record struct_ok (s : binder) (H : Z → Z → Prop) : Prop := {
  st_nodes : ∀ p P, proc_at s !! p = Some P → keyed (p_nodes P) (ptr_of s) (owned s p);
  st_desc : ∀ p P, proc_at s !! p = Some P → keyed (refs_by_desc P) (desc_of s) (H p);
  st_bynode : ∀ p P, proc_at s !! p = Some P → keyed (refs_by_node P) (rnode_of s) (H p);
  st_todo : ∀ p P, proc_at s !! p = Some P → is_Some (lists s !! todo P) ∧ list_proc s !! todo P = Some p;
  st_lists : ∀ h l n, lists s !! h = Some l → WNode n ∈ l → ∃ p, list_proc s !! h = Some p ∧ owned s p n;
  st_owner : ∀ n x p, node_at s !! n = Some x → n_proc x = Some p → is_Some (proc_at s !! p);
  st_dead : ∀ n, n ∈ dead_nodes s ↔ ∃ x, node_at s !! n = Some x ∧ n_proc x = None }.

(** What the owner knows a node by. *)
Definition ident (x : binder_node) : Z * Z := (n_ptr x, n_cookie x).

(** No node appears, and those that stay keep their owner and identity. *)
Definition stable (s s' : binder) : Prop :=
  ∀ m z', node_at s' !! m = Some z' → ∃ z, node_at s !! m = Some z ∧ n_proc z' = n_proc z ∧ ident z' = ident z.

Lemma stable_refl s s' : node_at s' = node_at s → stable s s'.
Proof. intros E m z'. rewrite E. by eauto. Qed.

Lemma stable_trans s s' s'' : stable s s' → stable s' s'' → stable s s''.
Proof.
  intros A B m z'' (z' & (z & Hz & E1 & E2)%A & E3 & E4)%B. exists z. split; [done|]. split; congruence.
Qed.

Lemma stable_insert s s' n x x' :
  node_at s !! n = Some x → n_proc x' = n_proc x → ident x' = ident x → node_at s' = <[n := x']> (node_at s) → stable s s'.
Proof.
  intros Hn Hp Hptr E m z'. rewrite E. destruct (decide (m = n)) as [->|]; [|rewrite lookup_insert_ne by done; by eauto].
  rewrite lookup_insert_eq. intros [= <-]. by eauto.
Qed.

Lemma stable_delete s s' n : node_at s' = delete n (node_at s) → stable s s'.
Proof. intros E m z'. rewrite E. intros [_ ?]%lookup_delete_Some. by eauto. Qed.

(** What the operations on nodes leave alone. *)
Record same_refs (s s' : binder) : Prop := {
  sr_refs : ref_at s' = ref_at s;
  sr_mgr : context_mgr_node s' = context_mgr_node s;
  sr_procs : ∀ p, is_Some (proc_at s' !! p) ↔ is_Some (proc_at s !! p);
  sr_lists : ∀ h, is_Some (lists s' !! h) ↔ is_Some (lists s !! h);
  sr_lproc : list_proc s' = list_proc s;
  sr_nodes : stable s s' }.

Lemma same_refs_refl s : same_refs s s.
Proof. split; try done. by apply stable_refl. Qed.

Lemma same_refs_trans s s' s'' : same_refs s s' → same_refs s' s'' → same_refs s s''.
Proof.
  intros [A B C D E F] [A' B' C' D' E' F'].
  split; [congruence|congruence|intros p; by rewrite C'|intros h; by rewrite D'|congruence|by eapply stable_trans].
Qed.

Lemma owned_with_node s n x x' p :
  node_at s !! n = Some x → n_proc x' = n_proc x → ∀ m, owned (with_node s n x') p m ↔ owned s p m.
Proof.
  intros Hn Hp m. unfold owned. simpl. destruct (decide (m = n)) as [->|]; [|by rewrite lookup_insert_ne].
  rewrite lookup_insert_eq, Hn. split; intros (y & [= <-] & E); eexists; (split; [done|]); congruence.
Qed.

(** Changing a node but for its owner and its address in user space. *)
Lemma struct_with_node s H n x x' :
  struct_ok s H → node_at s !! n = Some x → n_proc x' = n_proc x → ident x' = ident x →
  struct_ok (with_node s n x') H ∧ same_refs s (with_node s n x').
Proof.
  intros [A B C D E F G] Hn Hp Hid. assert (n_ptr x' = n_ptr x) as Hptr by (by injection Hid).
  split; [|split; try done; by eapply stable_insert]. split; simpl; try done.
  - intros p P HP. eapply keyed_ext; [| |by apply A].
    + intros m. symmetry. by apply (owned_with_node s n x).
    + intros m _. unfold ptr_of. simpl. destruct (decide (m = n)) as [->|]; [by rewrite lookup_insert_eq, Hn|by rewrite lookup_insert_ne].
  - intros h l m Hl Hm. destruct (E h l m Hl Hm) as (p & Hh & Ho). exists p. split; [done|]. by apply (owned_with_node s n x).
  - intros m y p. destruct (decide (m = n)) as [->|]; [|rewrite lookup_insert_ne by done; apply F].
    rewrite lookup_insert_eq. intros [= <-] Hy. apply (F n x); [done|congruence].
  - intros m. rewrite G. destruct (decide (m = n)) as [->|]; [|by rewrite lookup_insert_ne].
    rewrite lookup_insert_eq, Hn. split; intros (y & [= <-] & Ey); eexists; (split; [done|]); congruence.
Qed.

Lemma struct_with_lists s H L :
  struct_ok s H → (∀ h, is_Some (L !! h) ↔ is_Some (lists s !! h)) →
  (∀ h l n, L !! h = Some l → WNode n ∈ l → ∃ p, list_proc s !! h = Some p ∧ owned s p n) →
  struct_ok (with_lists s L) H ∧ same_refs s (with_lists s L).
Proof.
  intros [A B C D E F G] Hd Hl. split; [|split; try done; by apply stable_refl]. split; simpl; try done. intros p P HP.
  destruct (D p P HP) as [Ht Hp]. split; [by apply Hd|done].
Qed.

Lemma struct_work_del s H w : struct_ok s H → struct_ok (work_del s w) H ∧ same_refs s (work_del s w).
Proof.
  intros Hs. apply struct_with_lists; [done|..].
  - intros h. rewrite lookup_fmap. destruct (lists s !! h); simpl; [done|]. split; intros [? ?]; done.
  - intros h l n. rewrite lookup_fmap. destruct (lists s !! h) as [l0|] eqn:Hl; [|done]. intros [= <-] Hn%list_elem_of_filter.
    destruct Hn as [_ Hn]. by eapply st_lists.
Qed.

Lemma struct_work_add s H n h :
  struct_ok s H → (∃ p, list_proc s !! h = Some p ∧ owned s p n) → is_Some (lists s !! h) →
  ∃ s', work_add_tail s (WNode n) h = Some s' ∧ node_at s' = node_at s ∧ struct_ok s' H ∧ same_refs s s'.
Proof.
  intros Hs Hn [l Hl]. unfold work_add_tail. rewrite Hl. cbn [mbind option_bind]. eexists. split; [done|]. split; [done|].
  apply struct_with_lists; [done|..].
  - intros h'. destruct (decide (h' = h)) as [->|]; [rewrite lookup_insert_eq, Hl; done|by rewrite lookup_insert_ne].
  - intros h' l' m. destruct (decide (h' = h)) as [->|]; [|rewrite lookup_insert_ne by done; by apply (st_lists _ _ Hs)].
    rewrite lookup_insert_eq. intros [= <-] [Hm|[= ->]%list_elem_of_singleton]%elem_of_app; [|done]. by eapply st_lists.
Qed.

Lemma work_del_gone s w h l : lists (work_del s w) !! h = Some l → w ∉ l.
Proof.
  simpl. rewrite lookup_fmap. destruct (lists s !! h); [|done]. intros [= <-] [? _]%list_elem_of_filter. done.
Qed.

(** Removing a node that is on no list, from the tree of its owner or from the
    list of the dead. *)
Lemma struct_free_owned s H n x p P :
  struct_ok s H → node_at s !! n = Some x → n_proc x = Some p → proc_at s !! p = Some P →
  (∀ h l, lists s !! h = Some l → WNode n ∉ l) →
  ∃ t, rb_erase (p_nodes P) n = Some t ∧
    let s' := free_node (with_proc s p (set_p_nodes P t)) n in
    struct_ok s' H ∧ same_refs s s' ∧ node_at s' = delete n (node_at s).
Proof.
  intros Hs Hn Hp HP Hl. destruct (keyed_erase _ _ _ n (st_nodes _ _ Hs p P HP)) as (t & Ht & Hk); [by exists x|].
  exists t. split; [done|]. cbv zeta. set (s' := free_node _ n).
  assert (Hpr : ∀ q Q, proc_at s' !! q = Some Q → ∃ Q0, proc_at s !! q = Some Q0 ∧ refs_by_desc Q = refs_by_desc Q0 ∧
    refs_by_node Q = refs_by_node Q0 ∧ todo Q = todo Q0 ∧ (q ≠ p → Q = Q0) ∧ (q = p → p_nodes Q = t)).
  { intros q Q. simpl. destruct (decide (q = p)) as [->|]; [rewrite lookup_insert_eq; intros [= <-]; by exists P|].
    rewrite lookup_insert_ne by done. intros HQ. by exists Q. }
  assert (Hown : ∀ q m, owned s' q m ↔ owned s q m ∧ m ≠ n).
  { intros q m. unfold owned. simpl. destruct (decide (m = n)) as [->|]; [|rewrite lookup_delete_ne by done; tauto].
    rewrite lookup_delete_eq. split; [by intros (? & ? & _)|by intros [_ ?]]. }
  assert (Hptr : ∀ m, m ≠ n → ptr_of s' m = ptr_of s m) by (intros m Hm; unfold ptr_of; simpl; by rewrite lookup_delete_ne).
  split; [|split; [|done]]; [split|split; try done].
  - intros q Q HQ. destruct (Hpr q Q HQ) as (Q0 & HQ0 & _ & _ & _ & Hne & Heq). destruct (decide (q = p)) as [->|Hqp].
    + rewrite Heq by done. apply Hk; [apply Hown|]. intros m [_ Hm]%Hown. by apply Hptr.
    + rewrite Hne by done. eapply keyed_ext; [| |apply (st_nodes _ _ Hs q Q0 HQ0)].
      * intros m. rewrite Hown. split; [|tauto]. intros Hm. split; [done|]. intros ->. destruct Hm as (y & Hy & Hyp). congruence.
      * intros m Hm. apply Hptr. intros ->. destruct Hm as (y & Hy & Hyp). congruence.
  - intros q Q HQ. destruct (Hpr q Q HQ) as (Q0 & HQ0 & -> & _). by apply (st_desc _ _ Hs).
  - intros q Q HQ. destruct (Hpr q Q HQ) as (Q0 & HQ0 & _ & -> & _). by apply (st_bynode _ _ Hs).
  - intros q Q HQ. destruct (Hpr q Q HQ) as (Q0 & HQ0 & _ & _ & -> & _). by eapply (st_todo _ _ Hs).
  - intros h l m Hlh Hm. destruct (st_lists _ _ Hs h l m Hlh Hm) as (q & Hh & Ho). exists q. split; [done|]. apply Hown.
    split; [done|]. intros ->. by eapply Hl.
  - intros m y q Hy Hq. simpl in *. apply lookup_delete_Some in Hy as [_ Hy].
    destruct (decide (q = p)) as [->|]; [by rewrite lookup_insert_eq|]. rewrite lookup_insert_ne by done. by eapply (st_owner _ _ Hs).
  - intros m. simpl. rewrite (st_dead _ _ Hs). destruct (decide (m = n)) as [->|]; [|by rewrite lookup_delete_ne].
    rewrite lookup_delete_eq, Hn. split; [intros (y & [= <-] & Hy); congruence|by intros (? & ? & _)].
  - intros q. simpl. destruct (decide (q = p)) as [->|]; [rewrite lookup_insert_eq, HP; done|by rewrite lookup_insert_ne].
  - by eapply stable_delete.
Qed.

Lemma struct_free_dead s H n x :
  struct_ok s H → node_at s !! n = Some x → n_proc x = None → (∀ h l, lists s !! h = Some l → WNode n ∉ l) →
  let s' := free_node (with_dead s (filter (λ y, y ≠ n) (dead_nodes s))) n in
  struct_ok s' H ∧ same_refs s s' ∧ node_at s' = delete n (node_at s).
Proof.
  intros Hs Hn Hp Hl. cbv zeta. set (s' := free_node _ n).
  assert (Hown : ∀ q m, owned s' q m ↔ owned s q m).
  { intros q m. unfold owned. simpl. destruct (decide (m = n)) as [->|]; [|by rewrite lookup_delete_ne].
    rewrite lookup_delete_eq, Hn. split; [by intros (? & ? & _)|intros (y & [= <-] & Hy); congruence]. }
  split; [|split; [|done]]; [split|split; try done; by eapply stable_delete].
  - intros q Q HQ. eapply keyed_ext; [intros m; symmetry; apply Hown| |apply (st_nodes _ _ Hs q Q HQ)].
    intros m (y & Hy & Hyp). unfold ptr_of. simpl. rewrite lookup_delete_ne; [done|]. congruence.
  - apply (st_desc _ _ Hs).
  - apply (st_bynode _ _ Hs).
  - apply (st_todo _ _ Hs).
  - intros h l m Hlh Hm. destruct (st_lists _ _ Hs h l m Hlh Hm) as (q & Hh & Ho). exists q. split; [done|]. by apply Hown.
  - intros m y q Hy Hq. simpl in *. apply lookup_delete_Some in Hy as [_ Hy]. by eapply (st_owner _ _ Hs).
  - intros m. simpl. rewrite list_elem_of_filter, (st_dead _ _ Hs). destruct (decide (m = n)) as [->|].
    + rewrite lookup_delete_eq. split; [by intros [? _]|by intros (? & ? & _)].
    + rewrite lookup_delete_ne by done. tauto.
Qed.

(** ** Counting on nodes *)

(** The node after a count has changed by [d]. *)
Definition counted (x : binder_node) (is_strong internal : bool) (d : Z) : binder_node :=
  if is_strong then
    if internal then set_counts x (s32 (internal_strong_refs x + d)) (local_weak_refs x) (local_strong_refs x)
    else set_counts x (internal_strong_refs x) (local_weak_refs x) (s32 (local_strong_refs x + d))
  else if internal then x
       else set_counts x (internal_strong_refs x) (s32 (local_weak_refs x + d)) (local_strong_refs x).

Lemma counted_id x st int d : n_proc (counted x st int d) = n_proc x ∧ ident (counted x st int d) = ident x ∧
  n_refs (counted x st int d) = n_refs x.
Proof. by destruct st, int. Qed.

Lemma refless_zero x :
  bool_decide (n_refs x = []) && (local_strong_refs x =? 0) && (local_weak_refs x =? 0) = true →
  n_refs x = [] ∧ local_strong_refs x = 0 ∧ local_weak_refs x = 0.
Proof. intros [[?%bool_decide_eq_true ?%Z.eqb_eq]%andb_true_iff ?%Z.eqb_eq]%andb_true_iff. done. Qed.

Lemma dec_node_end_spec s H n x :
  struct_ok s H → node_at s !! n = Some x →
  ∃ s', dec_node_end s n x = Some s' ∧ struct_ok s' H ∧ same_refs s s' ∧
    (node_at s' = node_at s ∨
     node_at s' = delete n (node_at s) ∧ n_refs x = [] ∧ local_strong_refs x = 0 ∧ local_weak_refs x = 0).
Proof.
  intros Hs Hn. unfold dec_node_end.
  assert (Hkept : ∃ s', Some s = Some s' ∧ struct_ok s' H ∧ same_refs s s' ∧
    (node_at s' = node_at s ∨ node_at s' = delete n (node_at s) ∧ n_refs x = [] ∧ local_strong_refs x = 0 ∧ local_weak_refs x = 0)).
  { exists s. split_and!; [done|done|apply same_refs_refl|by left]. }
  destruct (struct_work_del s H (WNode n) Hs) as [Hs1 Hr1].
  destruct (n_proc x) as [p|] eqn:Hp.
  - destruct (st_owner _ _ Hs n x p Hn Hp) as [P HP].
    destruct (has_strong_ref x || has_weak_ref x).
    + destruct (work_idle s (WNode n)); [|done]. rewrite HP. cbn [mbind option_bind].
      destruct (struct_work_add s H n (todo P) Hs) as (s' & -> & Hn' & Hs' & Hr'); [exists p; split; [by apply (st_todo _ _ Hs)|by exists x]|by destruct (st_todo _ _ Hs p P HP)|].
      exists s'. split_and!; try done. by left.
    + destruct (_ && _ && _) eqn:Hz; [|done]. apply refless_zero in Hz as Hzero.
      change (proc_at (work_del s (WNode n))) with (proc_at s). rewrite HP. cbn [mbind option_bind].
      destruct (struct_free_owned (work_del s (WNode n)) H n x p P Hs1 Hn Hp HP) as (t & -> & Hs' & Hr' & Hn').
      { intros h l. apply work_del_gone. }
      cbn [mbind option_bind]. eexists. split; [done|]. split; [done|]. split; [by eapply same_refs_trans|]. right. done.
  - destruct (_ && _ && _) eqn:Hz; [|done]. apply refless_zero in Hz as Hzero.
    destruct (struct_free_dead (work_del s (WNode n)) H n x Hs1 Hn Hp) as (Hs' & Hr' & Hn').
    { intros h l. apply work_del_gone. }
    eexists. split; [done|]. split; [done|]. split; [by eapply same_refs_trans|]. right. done.
Qed.

Lemma dec_node_spec s H n x st int :
  struct_ok s H → node_at s !! n = Some x →
  let x' := counted x st int (-1) in
  ∃ s', binder_dec_node s n st int = Some s' ∧ struct_ok s' H ∧ same_refs s s' ∧
    (node_at s' = <[n := x']> (node_at s) ∨
     node_at s' = delete n (node_at s) ∧ n_refs x' = [] ∧ local_strong_refs x' = 0 ∧ local_weak_refs x' = 0).
Proof.
  intros Hs Hn x'. destruct (counted_id x st int (-1)) as (Hp & Hptr & _).
  destruct (struct_with_node s H n x x' Hs Hn Hp Hptr) as [Hs1 Hr1].
  assert (Hn1 : node_at (with_node s n x') !! n = Some x') by (simpl; by rewrite lookup_insert_eq).
  assert (Hkept : ∃ s', Some (with_node s n x') = Some s' ∧ struct_ok s' H ∧ same_refs s s' ∧
    (node_at s' = <[n := x']> (node_at s) ∨
     node_at s' = delete n (node_at s) ∧ n_refs x' = [] ∧ local_strong_refs x' = 0 ∧ local_weak_refs x' = 0)).
  { eexists. split; [done|]. split; [done|]. split; [done|]. by left. }
  assert (Hend : ∃ s', dec_node_end (with_node s n x') n x' = Some s' ∧ struct_ok s' H ∧ same_refs s s' ∧
    (node_at s' = <[n := x']> (node_at s) ∨
     node_at s' = delete n (node_at s) ∧ n_refs x' = [] ∧ local_strong_refs x' = 0 ∧ local_weak_refs x' = 0)).
  { destruct (dec_node_end_spec _ H n x' Hs1 Hn1) as (s' & -> & Hs' & Hr' & Hcase). exists s'. split; [done|]. split; [done|].
    split; [by eapply same_refs_trans|]. destruct Hcase as [->|(E & Hz)]; [by left|]. right. split; [|done].
    rewrite E. simpl. by rewrite delete_insert_eq. }
  unfold binder_dec_node. rewrite Hn. cbn [mbind option_bind].
  destruct st, int; unfold x', counted in *; rewrite ?Z.add_opp_r in *; destruct (_ || _); done.
Qed.

Lemma inc_node_spec s H n x st int target :
  struct_ok s H → node_at s !! n = Some x → (∀ l, target = Some l → is_Some (lists s !! l) ∧ list_proc s !! l = n_proc x ∧ is_Some (n_proc x)) →
  let x' := counted x st int 1 in
  ∃ s' ret, binder_inc_node s n st int target = Some (s', ret) ∧ struct_ok s' H ∧ same_refs s s' ∧
    (ret = 0 ∧ node_at s' = <[n := x']> (node_at s) ∨
     ret = - EINVAL ∧ (st = true → int = true) ∧ node_at s' = if st then node_at s else <[n := x']> (node_at s)).
Proof.
  intros Hs Hn Ht x'. destruct (counted_id x st int 1) as (Hp & Hptr & _).
  destruct (struct_with_node s H n x x' Hs Hn Hp Hptr) as [Hs1 Hr1].
  assert (Hn1 : ∀ l, target = Some l → is_Some (lists s !! l) ∧ ∃ p, list_proc s !! l = Some p ∧ owned (with_node s n x') p n).
  { intros l Hl. destruct (Ht l Hl) as (Hl1 & Hl2 & q & Hq). split; [done|]. exists q. split; [congruence|].
    exists x'. simpl. rewrite lookup_insert_eq. split; [done|unfold x'; by rewrite Hp]. }
  unfold binder_inc_node. rewrite Hn. cbn [mbind option_bind]. destruct st.
  - destruct (int && _ && _ && _) eqn:Hg.
    { assert (int = true) as Hint by (by destruct int). exists s, (- EINVAL). split; [done|]. split; [done|]. split; [apply same_refs_refl|]. by right. }
    replace (if int then _ else _) with x' by (by destruct int).
    assert (Hkept : ∃ s' ret, Some (with_node s n x', 0) = Some (s', ret) ∧ struct_ok s' H ∧ same_refs s s' ∧
      (ret = 0 ∧ node_at s' = <[n := x']> (node_at s) ∨ ret = - EINVAL ∧ (true = true → int = true) ∧ node_at s' = node_at s)).
    { eexists _, 0. split; [done|]. split; [done|]. split; [done|]. by left. }
    destruct target as [l|]; [|done]. destruct (negb (has_strong_ref x')); [|done].
    destruct (struct_work_del _ H (WNode n) Hs1) as [Hs2 Hr2].
    destruct (struct_work_add _ H n l Hs2) as (s' & -> & Hn' & Hs' & Hr'); [by apply Hn1|apply (sr_lists _ _ Hr2); by apply Hn1|].
    cbn [mbind option_bind]. exists s', 0. split; [done|]. split; [done|].
    split; [by eapply same_refs_trans; [|eapply same_refs_trans]|]. left. by rewrite Hn'.
  - replace (if int then _ else _) with x' by (by destruct int).
    destruct (negb (has_weak_ref x') && _).
    + destruct target as [l|].
      * destruct (struct_work_add _ H n l Hs1) as (s' & -> & Hn' & Hs' & Hr'); [by apply Hn1|by apply Hn1|].
        cbn [mbind option_bind]. exists s', 0. split; [done|]. split; [done|]. split; [by eapply same_refs_trans|]. left. by rewrite Hn'.
      * eexists _, (- EINVAL). split; [done|]. split; [done|]. split; [done|]. by right.
    + eexists _, 0. split; [done|]. split; [done|]. split; [done|]. by left.
Qed.

(** ** The invariant *)

(** [R] are the references: whether one is strong, and how many of [l] are. *)
Definition is_strong_ref (R : gmap Z binder_ref) (r : Z) : bool := from_option (λ y, ctrue (strong y)) false (R !! r).
Definition strong_refs (R : gmap Z binder_ref) (l : list Z) : Z := Z.of_nat (length (filter (λ r, is_strong_ref R r = true) l)).

(** A local hold on a node, strong or weak, by a buffer of its owner; [T] are
    those that are out. *)
Notation hold := (Z * bool)%type.
Definition holds (T : list hold) (n : Z) (b : bool) : Z := Z.of_nat (length (filter (λ t, t = (n, b)) T)).

(** With the one that keeps the context manager [M]. *)
Definition kept (T : list hold) (M n : Z) (b : bool) : Z := holds T n b + Z.b2z (n =? M).

(** A node agrees with the references to it, with the holds on it and with what
    its owner has yet to confirm. *)
Record node_ok (R : gmap Z binder_ref) (T : list hold) (M k n : Z) (x : binder_node) : Prop := {
  no_addr : n ≠ 0;
  no_nodup : NoDup (n_refs x);
  no_refs : ∀ r, r ∈ n_refs x ↔ ∃ y, R !! r = Some y ∧ r_node y = n;
  no_internal : internal_strong_refs x = strong_refs R (n_refs x);
  no_bound : internal_strong_refs x ≤ k;
  no_strong : local_strong_refs x = kept T M n true + Z.b2z (bool_decide (is_Some (n_proc x)) && pending_strong_ref x);
  no_weak : local_weak_refs x = kept T M n false + Z.b2z (bool_decide (is_Some (n_proc x)) && pending_weak_ref x);
  no_has_strong : pending_strong_ref x = true → has_strong_ref x = true;
  no_has_weak : pending_weak_ref x = true → has_weak_ref x = true }.

Record ref_ok (s : binder) (k : Z) (y : binder_ref) : Prop := {
  ro_node : is_Some (node_at s !! r_node y);
  ro_proc : is_Some (proc_at s !! r_proc y);
  ro_desc : 0 ≤ desc y ≤ k;
  ro_strong : 0 ≤ strong y ≤ k;
  ro_weak : 0 ≤ weak y ≤ k }.

(** [k] bounds the counts: each operation adds at most one to each. *)
Record binder_inv (s : binder) (T : list hold) (k : Z) : Prop := {
  bi_struct : struct_ok s (held s);
  bi_nodes : ∀ n x, node_at s !! n = Some x → node_ok (ref_at s) T (context_mgr_node s) k n x;
  bi_refs : ∀ r y, ref_at s !! r = Some y → ref_ok s k y;
  bi_holds : ∀ t, t ∈ T → ∃ p, owned s p t.1;
  bi_bound : Z.of_nat (length T) ≤ k;
  bi_mgr : context_mgr_node s = 0 ∨ ∃ p, owned s p (context_mgr_node s) }.

Lemma strong_refs_ext R R' l : (∀ r, r ∈ l → is_strong_ref R' r = is_strong_ref R r) → strong_refs R' l = strong_refs R l.
Proof.
  intros He. unfold strong_refs. do 2 f_equal. induction l as [|a l IH]; [done|]. rewrite !filter_cons, He by (by left).
  rewrite IH by (intros; apply He; by right). done.
Qed.

Lemma strong_refs_cons R a l : strong_refs R (a :: l) = Z.b2z (is_strong_ref R a) + strong_refs R l.
Proof. unfold strong_refs. rewrite filter_cons. destruct (is_strong_ref R a); simpl; lia. Qed.

Lemma strong_refs_pos R l : 0 ≤ strong_refs R l.
Proof. unfold strong_refs. lia. Qed.

Lemma strong_refs_remove R l r :
  NoDup l → r ∈ l → strong_refs R l = Z.b2z (is_strong_ref R r) + strong_refs R (filter (λ y, y ≠ r) l).
Proof.
  intros Hnd Hr. rewrite <- strong_refs_cons. unfold strong_refs. f_equal.
  apply Permutation_length, filter_Permutation. apply NoDup_Permutation; [done|..].
  - constructor; [|by apply NoDup_filter]. rewrite list_elem_of_filter. tauto.
  - intros y. rewrite elem_of_cons, list_elem_of_filter. destruct (decide (y = r)) as [->|]; tauto.
Qed.

Lemma holds_pos T n b : 0 ≤ holds T n b.
Proof. unfold holds. lia. Qed.

Lemma holds_bound T n b : holds T n b ≤ Z.of_nat (length T).
Proof. unfold holds. apply inj_le, (length_filter (λ t, t = (n, b))). Qed.

Lemma holds_cons T n b t : holds (t :: T) n b = (if decide (t = (n, b)) then 1 else 0) + holds T n b.
Proof. unfold holds. rewrite filter_cons. destruct (decide (t = (n, b))); cbn [length]; lia. Qed.

Lemma holds_in T n b : (n, b) ∈ T → 1 ≤ holds T n b.
Proof.
  induction T as [|t T IH]; [by intros ?%elem_of_nil|]. rewrite holds_cons. pose proof (holds_pos T n b).
  intros [<-|Ht]%elem_of_cons; [rewrite decide_True by done; lia|]. specialize (IH Ht). destruct (decide _); lia.
Qed.

Lemma node_ok_mono R T M k k' n x : k ≤ k' → node_ok R T M k n x → node_ok R T M k' n x.
Proof. intros Hk []. split; try done; lia. Qed.

(** Only the references and the holds of a node matter to it. *)
Lemma node_ok_ext R R' T T' M M' k n x :
  (∀ r, (∃ y, R' !! r = Some y ∧ r_node y = n) ↔ ∃ y, R !! r = Some y ∧ r_node y = n) →
  (∀ r, r ∈ n_refs x → is_strong_ref R' r = is_strong_ref R r) → (∀ b, kept T' M' n b = kept T M n b) →
  node_ok R T M k n x → node_ok R' T' M' k n x.
Proof.
  intros Hr Hs Hh []. split; try done; rewrite ?Hh; try done.
  - intros r. by rewrite Hr.
  - by rewrite (strong_refs_ext R R').
Qed.

Lemma held_same s s' : ref_at s' = ref_at s → ∀ p r, held s' p r ↔ held s p r.
Proof. intros E p r. unfold held. by rewrite E. Qed.

Lemma struct_ok_ext s H H' : (∀ p r, H p r ↔ H' p r) → struct_ok s H → struct_ok s H'.
Proof.
  intros He []. split; try done; intros p P HP; (eapply keyed_ext; [apply He|done|]); eauto.
Qed.

(** One node changes, and perhaps the holds on it. *)
Lemma inv_node_update s s' T T' k k' n x x' :
  binder_inv s T k → k ≤ k' → node_at s !! n = Some x →
  struct_ok s' (held s) → same_refs s s' → node_at s' = <[n := x']> (node_at s) → n_proc x' = n_proc x →
  node_ok (ref_at s) T' (context_mgr_node s) k' n x' → (∀ m b, m ≠ n → holds T' m b = holds T m b) →
  (∀ t, t ∈ T' → t ∈ T ∨ t.1 = n ∧ is_Some (n_proc x)) → Z.of_nat (length T') ≤ k' →
  binder_inv s' T' k'.
Proof.
  intros [A B C D E F] Hk Hn Hs' [Sr Sm Sp Sl Slp Snd] Hn' Hp Hok Hh HT Hlen.
  assert (Hown : ∀ p m, owned s' p m ↔ owned s p m).
  { intros p m. unfold owned. rewrite Hn'. destruct (decide (m = n)) as [->|]; [|by rewrite lookup_insert_ne].
    rewrite lookup_insert_eq, Hn. split; intros (y & [= <-] & Ey); eexists; (split; [done|]); congruence. }
  split.
  - eapply struct_ok_ext; [|done]. intros p r. symmetry. by apply held_same.
  - intros m y. rewrite Hn', Sr, Sm. destruct (decide (m = n)) as [->|].
    + rewrite lookup_insert_eq. by intros [= <-].
    + rewrite lookup_insert_ne by done. intros Hy. apply node_ok_mono with k; [done|].
      eapply node_ok_ext; [done|done|intros b; unfold kept; by rewrite Hh|by apply B].
  - intros r y. rewrite Sr. intros Hy. destruct (C r y Hy). split; try done; try lia.
    + rewrite Hn'. destruct (decide (r_node y = n)) as [->|]; [by rewrite lookup_insert_eq|by rewrite lookup_insert_ne].
    + by apply Sp.
  - intros t Ht. destruct (HT t Ht) as [Ht'|[Et [p Hpn]]].
    + destruct (D t Ht') as (p & Hp'). exists p. by apply Hown.
    + exists p. apply Hown. rewrite Et. by exists x.
  - done.
  - rewrite Sm. destruct F as [F|[p F]]; [by left|right; exists p; by apply Hown].
Qed.

(** A node that nothing refers to goes. *)
Lemma inv_node_freed s s' T T' k k' n x :
  binder_inv s T k → k ≤ k' → node_at s !! n = Some x → struct_ok s' (held s) → same_refs s s' →
  node_at s' = delete n (node_at s) → (∀ r y, ref_at s !! r = Some y → r_node y ≠ n) →
  (∀ m b, m ≠ n → holds T' m b = holds T m b) → (∀ t, t ∈ T' → t ∈ T) → Z.of_nat (length T') ≤ k' →
  kept T' (context_mgr_node s) n true = 0 → kept T' (context_mgr_node s) n false = 0 → binder_inv s' T' k'.
Proof.
  intros [A B C D E F] Hk Hn Hs' [Sr Sm Sp Sl Slp Snd] Hn' Hrefs Hh HT' Hlen Ht Hf.
  pose proof (holds_pos T' n true). pose proof (holds_pos T' n false). unfold kept in *.
  assert (n ≠ context_mgr_node s) as Hne by (destruct (Z.eqb_spec n (context_mgr_node s)); simpl in *; [lia|done]).
  assert (HT : ∀ t, t ∈ T' → t.1 ≠ n).
  { intros [m b] Ht'. simpl. intros ->. apply holds_in in Ht'. destruct (n =? _), b; simpl in *; lia. }
  split.
  - eapply struct_ok_ext; [|done]. intros p r. symmetry. by apply held_same.
  - intros m y. rewrite Hn', Sr, Sm. intros [Hm Hy]%lookup_delete_Some. apply node_ok_mono with k; [done|].
    eapply node_ok_ext; [done|done|intros b; unfold kept; by rewrite Hh|by apply B].
  - intros r y. rewrite Sr. intros Hy. destruct (C r y Hy). split; try done; try lia; [|by apply Sp].
    rewrite Hn', lookup_delete_ne; [done|]. intros Hne'. by eapply Hrefs.
  - intros t Ht'. destruct (D t (HT' t Ht')) as (p & z & Hz & Hp). exists p, z. rewrite Hn', lookup_delete_ne; [done|].
    intros Hne'. by apply (HT t).
  - lia.
  - rewrite Sm. destruct F as [F|(p & z & Hz & Hp)]; [by left|right]. exists p, z. rewrite Hn', lookup_delete_ne; done.
Qed.

(** [T'] is [T], or [T] with a hold on [n] more or less. *)
Definition drop_hold (T T' : list hold) (n : Z) : Prop := T' = T ∨ ∃ b, T ≡ₚ (n, b) :: T'.

Lemma holds_perm T T' n b : T ≡ₚ T' → holds T n b = holds T' n b.
Proof. intros E. unfold holds. f_equal. by apply Permutation_length, filter_Permutation. Qed.

Lemma drop_hold_spec T T' n :
  drop_hold T T' n →
  (∀ m b, m ≠ n → holds T' m b = holds T m b) ∧ (∀ t, t ∈ T' → t ∈ T) ∧ Z.of_nat (length T') ≤ Z.of_nat (length T).
Proof.
  intros [->|[b E]]; [done|]. split; [|split].
  - intros m b' Hm. rewrite (holds_perm _ _ _ _ E), holds_cons, decide_False by congruence. done.
  - intros t Ht. rewrite E. by right.
  - apply Permutation_length in E. simpl in E. lia.
Qed.

(** Taking a count down on a node; [s0] is the state before the flags were
    changed. *)
Lemma dec_node_inv s0 s T T' k n x0 x1 st int :
  binder_inv s0 T k → node_at s0 !! n = Some x0 →
  struct_ok s (held s0) → same_refs s0 s → node_at s = <[n := x1]> (node_at s0) → n_proc x1 = n_proc x0 →
  let x' := counted x1 st int (-1) in
  node_ok (ref_at s0) T' (context_mgr_node s0) k n x' → drop_hold T T' n →
  ∃ s', binder_dec_node s n st int = Some s' ∧ binder_inv s' T' k ∧ same_refs s0 s' ∧
    (node_at s' = <[n := x']> (node_at s0) ∨ node_at s' = delete n (node_at s0) ∧ n_refs x' = []).
Proof.
  intros Hi Hn0 Hs Hr Hn Hp x' Hok (Hh & HT & Hlen)%drop_hold_spec.
  destruct (dec_node_spec s (held s0) n x1 st int Hs) as (s' & Hrun & Hs' & Hr' & Hcase).
  { by rewrite Hn, lookup_insert_eq. }
  fold x' in Hcase. exists s'. split; [done|].
  assert (same_refs s0 s') as Hr0 by (by eapply same_refs_trans).
  assert (n_proc x' = n_proc x0) as Hp' by (rewrite <- Hp; by apply counted_id).
  assert (Hupd : ∀ s1, struct_ok s1 (held s0) → same_refs s0 s1 → node_at s1 = <[n := x']> (node_at s0) → binder_inv s1 T' k).
  { intros s1 H1 H2 H3. eapply (inv_node_update s0 s1 T T' k k n x0 x'); auto with lia. destruct Hi. lia. }
  destruct Hcase as [E|(E & Hz1 & Hz2 & Hz3)].
  - rewrite Hn, insert_insert_eq in E. split; [by apply Hupd|]. split; [done|by left].
  - rewrite Hn, delete_insert_eq in E. split; [|split; [done|by right]].
    destruct Hok as [Ha _ Hrefs _ _ Hls Hlw _ _].
    pose proof (holds_pos T' n true). pose proof (holds_pos T' n false). unfold kept in *.
    eapply (inv_node_freed s0 s' T T' k k n x0); auto with lia.
    + intros r y Hy Hyn. assert (r ∈ n_refs x') as Hin by (apply Hrefs; eauto). rewrite Hz1 in Hin. by apply elem_of_nil in Hin.
    + destruct Hi. lia.
    + unfold kept. destruct (n =? _), (bool_decide _ && pending_strong_ref x'); simpl in *; lia.
    + unfold kept. destruct (n =? _), (bool_decide _ && pending_weak_ref x'); simpl in *; lia.
Qed.

(** The number of operations below which no count overflows. *)
Definition max_ops : Z := 2147483640.

Lemma node_ok_range R T M k n x :
  node_ok R T M k n x → Z.of_nat (length T) ≤ k →
  0 ≤ local_strong_refs x ≤ k + 2 ∧ 0 ≤ local_weak_refs x ≤ k + 2 ∧ 0 ≤ internal_strong_refs x ≤ k.
Proof.
  intros [_ _ _ Hi Hb Hls Hlw _ _] Hk. pose proof (strong_refs_pos R (n_refs x)). unfold kept in *.
  pose proof (holds_pos T n true). pose proof (holds_pos T n false).
  pose proof (holds_bound T n true). pose proof (holds_bound T n false).
  destruct (n =? M), (bool_decide _ && pending_strong_ref x), (bool_decide _ && pending_weak_ref x); simpl in *; lia.
Qed.

(** A hold on a node and the count of it change together. *)
Lemma node_ok_local R T T' M k n x st d :
  node_ok R T M k n x →
  holds T' n st = holds T n st + d → holds T' n (negb st) = holds T n (negb st) →
  (∀ v, (v = local_strong_refs x ∨ v = local_weak_refs x) → - 2 ^ 31 ≤ v + d < 2 ^ 31) →
  node_ok R T' M k n (counted x st false d).
Proof.
  intros [] Hst Hnst Hr. unfold kept in *.
  assert (s32 (local_strong_refs x + d) = local_strong_refs x + d) as E1 by (apply s32_small, Hr; by left).
  assert (s32 (local_weak_refs x + d) = local_weak_refs x + d) as E2 by (apply s32_small, Hr; by right).
  destruct st; simpl in *; split; simpl; try done; unfold kept; rewrite ?E1, ?E2; lia.
Qed.

Lemma inc_local s T k n x p st :
  binder_inv s T k → k < max_ops → node_at s !! n = Some x → n_proc x = Some p →
  ∃ s' ret, binder_inc_node s n st false None = Some (s', ret) ∧ binder_inv s' ((n, st) :: T) (k + 1) ∧ same_refs s s' ∧
    node_at s' = <[n := counted x st false 1]> (node_at s).
Proof.
  intros Hi Hk Hn Hp. pose proof (bi_nodes _ _ _ Hi n x Hn) as Hok. unfold max_ops in *.
  destruct (inc_node_spec s (held s) n x st false None (bi_struct _ _ _ Hi) Hn) as (s' & ret & Hrun & Hs' & Hr & Hcase); [done|].
  assert (E : node_at s' = <[n := counted x st false 1]> (node_at s)).
  { destruct Hcase as [[_ ?]|(_ & Hint & ?)]; [done|]. destruct st; [by specialize (Hint eq_refl)|done]. }
  exists s', ret. split; [done|]. split; [|done]. destruct (node_ok_range _ _ _ _ _ _ Hok (bi_bound _ _ _ Hi)) as (R1 & R2 & _).
  assert (Hl : Z.of_nat (length ((n, st) :: T)) ≤ k + 1) by (pose proof (bi_bound _ _ _ Hi); simpl; lia).
  eapply (inv_node_update s s' T _ k (k + 1) n x); try done; [lia|by apply counted_id|..].
  - apply node_ok_mono with k; [lia|]. apply (node_ok_local _ T); [done|..].
    + rewrite holds_cons, decide_True by done. lia.
    + rewrite holds_cons, decide_False; [done|]. by destruct st.
    + intros v [->| ->]; lia.
  - intros m b Hm. rewrite holds_cons, decide_False by congruence. done.
  - intros t [->|Ht]%elem_of_cons; [right|by left]. rewrite Hp. eauto.
Qed.

Lemma dec_local s T T' k n st :
  binder_inv s T k → k < max_ops → T ≡ₚ (n, st) :: T' →
  ∃ s', binder_dec_node s n st false = Some s' ∧ binder_inv s' T' k ∧ same_refs s s'.
Proof.
  intros Hi Hk HT. unfold max_ops in *. destruct (bi_holds _ _ _ Hi (n, st)) as (p & x & Hn & Hp); [rewrite HT; by left|].
  simpl in Hn. pose proof (bi_nodes _ _ _ Hi n x Hn) as Hok.
  destruct (node_ok_range _ _ _ _ _ _ Hok (bi_bound _ _ _ Hi)) as (R1 & R2 & _).
  destruct (dec_node_inv s s T T' k n x x st false Hi Hn (bi_struct _ _ _ Hi) (same_refs_refl s)) as (s' & Hrun & Hi' & Hr & _).
  - by rewrite insert_id.
  - done.
  - apply (node_ok_local _ T); [done|..].
    + rewrite (holds_perm _ _ _ _ HT), holds_cons, decide_True by done. lia.
    + rewrite (holds_perm _ _ _ _ HT), holds_cons, decide_False; [done|]. by destruct st.
    + intros v [->| ->]; lia.
  - right. by exists st.
  - by exists s'.
Qed.

(** ** The operations preserve the invariant: nodes *)

Lemma get_node_spec s H p P ptr :
  struct_ok s H → proc_at s !! p = Some P →
  (∃ n x, binder_get_node s p ptr = Some (Some n) ∧ node_at s !! n = Some x ∧ n_proc x = Some p ∧ n_ptr x = ptr) ∨
  (binder_get_node s p ptr = Some None ∧ ∀ n x, node_at s !! n = Some x → n_proc x = Some p → n_ptr x ≠ ptr).
Proof.
  intros Hs HP. unfold binder_get_node. rewrite HP. cbn [mbind option_bind].
  destruct (keyed_search _ _ _ ptr (λ n, x ← node_at s !! n; Some (ptr - n_ptr x)) (st_nodes _ _ Hs p P HP))
    as [(n & -> & (x & Hn & Hp) & E)|(link & parent & -> & Hne & _)].
  - intros n (x & Hn & _). unfold ptr_of. by rewrite Hn.
  - left. exists n, x. unfold ptr_of in E. rewrite Hn in E. done.
  - right. split; [done|]. intros n x Hn Hp E. apply (Hne n); [by exists x|]. unfold ptr_of. by rewrite Hn.
Qed.

Lemma bc_done_spec s T k p acquire ptr cookie :
  binder_inv s T k → k < max_ops → is_Some (proc_at s !! p) →
  ∃ s', bc_done s p acquire ptr cookie = Some s' ∧ binder_inv s' T k ∧ same_refs s s'.
Proof.
  intros Hi Hk [P HP]. assert (Hsame : ∃ s', Some s = Some s' ∧ binder_inv s' T k ∧ same_refs s s') by (exists s; eauto using same_refs_refl).
  unfold bc_done. destruct (get_node_spec _ _ p P ptr (bi_struct _ _ _ Hi) HP) as [(n & x & -> & Hn & Hp & _)|[-> _]]; [|done].
  cbn [mbind option_bind]. rewrite Hn. cbn [mbind option_bind]. destruct (negb (cookie =? n_cookie x)); [done|].
  pose proof (bi_nodes _ _ _ Hi n x Hn) as Hok. unfold max_ops in *.
  destruct (node_ok_range _ _ _ _ _ _ Hok (bi_bound _ _ _ Hi)) as (R1 & R2 & _).
  assert (Hgo : ∀ x1, n_proc x1 = n_proc x → ident x1 = ident x →
    node_ok (ref_at s) T (context_mgr_node s) k n (counted x1 acquire false (-1)) →
    ∃ s', binder_dec_node (with_node s n x1) n acquire false = Some s' ∧ binder_inv s' T k ∧ same_refs s s').
  { intros x1 H1 H2 H3. destruct (struct_with_node s (held s) n x x1 (bi_struct _ _ _ Hi) Hn H1 H2) as [G1 G2].
    destruct (dec_node_inv s (with_node s n x1) T T k n x x1 acquire false Hi Hn G1 G2) as (s' & Hrun & Hi' & Hr & _); try done.
    { by left. } by exists s'. }
  destruct Hok. destruct acquire.
  - destruct (negb (pending_strong_ref x)) eqn:Hpend; [done|apply negb_false_iff in Hpend]. apply Hgo; [done|done|].
    split; simpl; try done. rewrite Hp, Hpend, bool_decide_true in * by eauto. simpl in *. rewrite s32_small; lia.
  - destruct (negb (pending_weak_ref x)) eqn:Hpend; [done|apply negb_false_iff in Hpend]. apply Hgo; [done|done|].
    split; simpl; try done. rewrite Hp, Hpend, bool_decide_true in * by eauto. simpl in *. rewrite s32_small; lia.
Qed.

Definition n_strong (x : binder_node) : bool := ctrue (internal_strong_refs x) || ctrue (local_strong_refs x).
Definition n_weak (x : binder_node) : bool := negb (bool_decide (n_refs x = [])) || ctrue (local_weak_refs x) || n_strong x.

Lemma inv_same_node s s' T k k' n x x' :
  binder_inv s T k → k ≤ k' → node_at s !! n = Some x →
  struct_ok s' (held s) → same_refs s s' → node_at s' = <[n := x']> (node_at s) → n_proc x' = n_proc x →
  node_ok (ref_at s) T (context_mgr_node s) k' n x' → binder_inv s' T k'.
Proof.
  intros Hi Hk Hn Hs' Hr Hn' Hp Hok. eapply (inv_node_update s s' T T k k' n x x'); auto. destruct Hi. lia.
Qed.

Lemma ctrue_false v : ctrue v = false → v = 0.
Proof. unfold ctrue. destruct (Z.eqb_spec v 0); [done|discriminate]. Qed.

(** One turn of the reader on a node: a command that moves the owner's view by
    one step, or the end. *)
Lemma br_node_spec s T k p n x :
  binder_inv s T k → k < max_ops → node_at s !! n = Some x → n_proc x = Some p →
  ∃ s' cmd, br_node s p n = Some (s', cmd) ∧ binder_inv s' T k ∧ same_refs s s' ∧
  match cmd with
  | BR_NOOP => (∀ h l, lists s' !! h = Some l → WNode n ∉ l) ∧ has_strong_ref x = n_strong x ∧ has_weak_ref x = n_weak x ∧
      node_at s' = if n_weak x then node_at s else delete n (node_at s)
  | _ => lists s' = lists s ∧ ∃ x', node_at s' = <[n := x']> (node_at s) ∧ n_proc x' = Some p ∧
      n_strong x' = n_strong x ∧ n_weak x' = n_weak x ∧
      match cmd with
      | BR_INCREFS => n_weak x = true ∧ has_weak_ref x = false ∧ has_weak_ref x' = true ∧ has_strong_ref x' = has_strong_ref x
      | BR_ACQUIRE => n_strong x = true ∧ has_strong_ref x = false ∧ has_strong_ref x' = true ∧ has_weak_ref x' = has_weak_ref x
      | BR_RELEASE => n_strong x = false ∧ has_strong_ref x = true ∧ has_strong_ref x' = false ∧ has_weak_ref x' = has_weak_ref x
      | _ => n_weak x = false ∧ has_weak_ref x = true ∧ has_weak_ref x' = false ∧ has_strong_ref x' = has_strong_ref x
      end
  end.
Proof.
  intros Hi Hk Hn Hp. pose proof (bi_nodes _ _ _ Hi n x Hn) as Hok. unfold max_ops in *.
  destruct (node_ok_range _ _ _ _ _ _ Hok (bi_bound _ _ _ Hi)) as (R1 & R2 & R3).
  assert (Hgo : ∀ x', n_proc x' = n_proc x → ident x' = ident x → node_ok (ref_at s) T (context_mgr_node s) k n x' →
    binder_inv (with_node s n x') T k ∧ same_refs s (with_node s n x')).
  { intros x' H1 H2 H3. destruct (struct_with_node s (held s) n x x' (bi_struct _ _ _ Hi) Hn H1 H2) as [G1 G2].
    split; [|done]. by eapply (inv_same_node s _ T k k n x x'). }
  assert (bool_decide (is_Some (n_proc x)) = true) as Hlive by (rewrite Hp; by apply bool_decide_true).
  destruct (struct_work_del s (held s) (WNode n) (bi_struct _ _ _ Hi)) as [Hs1 Hr1].
  unfold br_node. rewrite Hn. cbn [mbind option_bind]. fold (n_strong x). fold (n_weak x).
  destruct Hok as [Ha Hnd Hrefs Hint Hb Hls Hlw Hhs Hhw] eqn:Hok0. clear Hok0.
  destruct (n_weak x && negb (has_weak_ref x)) eqn:H1.
  { apply andb_true_iff in H1 as [Hw Hhw0%negb_true_iff].
    assert (pending_weak_ref x = false) as Hpw by (destruct (pending_weak_ref x); [rewrite Hhw in Hhw0 by done; done|done]).
    set (x' := set_flags _ _ _ _ _). destruct (Hgo x') as [G1 G2]; [done|done| |].
    - split; simpl; try done. rewrite Hlive, Hpw in *. simpl in *. rewrite s32_small by lia. lia.
    - eexists _, _. split; [done|]. split; [done|]. split; [done|]. split; [done|]. exists x'. split_and!; try done.
      rewrite Hw. unfold n_weak. simpl. rewrite s32_small by lia. unfold ctrue at 1.
      destruct (Z.eqb_spec (local_weak_refs x + 1) 0); [lia|]. simpl. by rewrite orb_true_r. }
  destruct (n_strong x && negb (has_strong_ref x)) eqn:H2.
  { apply andb_true_iff in H2 as [Hw Hhw0%negb_true_iff].
    assert (pending_strong_ref x = false) as Hpw by (destruct (pending_strong_ref x); [rewrite Hhs in Hhw0 by done; done|done]).
    set (x' := set_flags _ _ _ _ _).
    assert (n_strong x' = true) as Hns.
    { unfold n_strong. simpl. rewrite s32_small by lia. unfold ctrue at 2.
      destruct (Z.eqb_spec (local_strong_refs x + 1) 0); [lia|]. simpl. by rewrite orb_true_r. }
    destruct (Hgo x') as [G1 G2]; [done|done| |].
    - split; simpl; try done. rewrite Hlive, Hpw in *. simpl in *. rewrite s32_small by lia. lia.
    - eexists _, _. split; [done|]. split; [done|]. split; [done|]. split; [done|]. exists x'. split_and!; try done.
      + by rewrite Hns, Hw.
      + unfold n_weak. rewrite Hns, Hw. simpl. by rewrite !orb_true_r. }
  destruct (negb (n_strong x) && has_strong_ref x) eqn:H3.
  { apply andb_true_iff in H3 as [Hw%negb_true_iff Hhs0]. set (x' := set_flags _ _ _ _ _).
    destruct (Hgo x') as [G1 G2]; [done|done| |].
    - split; simpl; try done. apply orb_false_iff in Hw as [_ Hw%ctrue_false]. rewrite Hlive, Hw in *.
      pose proof (holds_pos T n true). unfold kept in *. destruct (pending_strong_ref x); [|done]. destruct (n =? _); simpl in *; lia.
    - eexists _, _. split; [done|]. split; [done|]. split; [done|]. split; [done|]. exists x'. split_and!; done. }
  destruct (negb (n_weak x) && has_weak_ref x) eqn:H4.
  { apply andb_true_iff in H4 as [Hw%negb_true_iff Hhw0]. set (x' := set_flags _ _ _ _ _).
    destruct (Hgo x') as [G1 G2]; [done|done| |].
    - split; simpl; try done. apply orb_false_iff in Hw as [[_ Hw%ctrue_false]%orb_false_iff _]. rewrite Hlive, Hw in *.
      pose proof (holds_pos T n false). unfold kept in *. destruct (pending_weak_ref x); [|done]. destruct (n =? _); simpl in *; lia.
    - eexists _, _. split; [done|]. split; [done|]. split; [done|]. split; [done|]. exists x'. split_and!; done. }
  assert (has_strong_ref x = n_strong x) as Es by (destruct (has_strong_ref x), (n_strong x); done).
  assert (has_weak_ref x = n_weak x) as Ew by (destruct (has_weak_ref x), (n_weak x); done).
  assert (Hstay : negb (n_weak x) && negb (n_strong x) = negb (n_weak x)).
  { unfold n_weak. destruct (n_strong x); [by rewrite orb_true_r|]. simpl. by rewrite andb_true_r. }
  rewrite Hstay. destruct (n_weak x) eqn:Hw; simpl.
  - eexists _, _. split; [done|]. split; [|split; [done|]].
    + eapply (inv_same_node s _ T k k n x x); try done. simpl. by rewrite insert_id.
    + split; [intros h l; apply work_del_gone|done].
  - destruct (st_owner _ _ (bi_struct _ _ _ Hi) n x p Hn Hp) as [P HP]. rewrite HP. cbn [mbind option_bind].
    destruct (struct_free_owned (work_del s (WNode n)) (held s) n x p P Hs1 Hn Hp HP) as (t & -> & Hs' & Hr' & Hn').
    { intros h l. apply work_del_gone. }
    cbn [mbind option_bind]. eexists _, _. split; [done|].
    apply orb_false_iff in Hw as [[Hrl%negb_false_iff%bool_decide_eq_true Hlw0%ctrue_false]%orb_false_iff [_ Hls0%ctrue_false]%orb_false_iff].
    split; [|split; [by eapply same_refs_trans|]].
    + pose proof (holds_pos T n true). pose proof (holds_pos T n false).
      eapply (inv_node_freed s _ T T k k n x); try done; [by eapply same_refs_trans|..|].
      * intros r y Hy Hyn. assert (r ∈ n_refs x) as Hin by (apply Hrefs; eauto). rewrite Hrl in Hin. by apply elem_of_nil in Hin.
      * by destruct Hi.
      * unfold kept in *. destruct (n =? _), (bool_decide _ && pending_strong_ref x); simpl in *; lia.
      * unfold kept in *. destruct (n =? _), (bool_decide _ && pending_weak_ref x); simpl in *; lia.
    + split; [intros h l; apply (work_del_gone s)|done].
Qed.

(** ** The operations preserve the invariant: references *)

(** Changing the counts of a reference. *)
Lemma struct_with_ref s H r y st wk :
  struct_ok s H → ref_at s !! r = Some y → struct_ok (with_ref s r (set_rcounts y st wk)) H.
Proof.
  intros [A B C D E F G] Hr.
  assert (Hd : ∀ q, desc_of (with_ref s r (set_rcounts y st wk)) q = desc_of s q).
  { intros q. unfold desc_of. simpl. destruct (decide (q = r)) as [->|]; [by rewrite lookup_insert_eq, Hr|by rewrite lookup_insert_ne]. }
  assert (Hn : ∀ q, rnode_of (with_ref s r (set_rcounts y st wk)) q = rnode_of s q).
  { intros q. unfold rnode_of. simpl. destruct (decide (q = r)) as [->|]; [by rewrite lookup_insert_eq, Hr|by rewrite lookup_insert_ne]. }
  split; try done; intros p P HP.
  - apply (keyed_ext _ (desc_of s) _ (H p)); [done|intros q _; apply Hd|by apply B].
  - apply (keyed_ext _ (rnode_of s) _ (H p)); [done|intros q _; apply Hn|by apply C].
Qed.

(** What a change to references leaves alone. *)
Record same_world (s s' : binder) : Prop := {
  sw_mgr : context_mgr_node s' = context_mgr_node s;
  sw_procs : ∀ p, is_Some (proc_at s' !! p) ↔ is_Some (proc_at s !! p);
  sw_lists : ∀ h, is_Some (lists s' !! h) ↔ is_Some (lists s !! h);
  sw_lproc : list_proc s' = list_proc s;
  sw_nodes : stable s s' }.

Lemma same_world_of s s' : same_refs s s' → same_world s s'.
Proof. by intros []. Qed.

Lemma same_world_refl s : same_world s s.
Proof. split; try done. by apply stable_refl. Qed.

Lemma same_world_trans s s' s'' : same_world s s' → same_world s' s'' → same_world s s''.
Proof.
  intros [A B C D E] [A' B' C' D' E'].
  split; [congruence|intros p; by rewrite B'|intros p; by rewrite C'|congruence|by eapply stable_trans].
Qed.

(** The counts of a reference and the node it refers to change together. *)
Lemma inv_ref_counts s s1 T k k' r y st wk x x' :
  binder_inv s T k → k ≤ k' → ref_at s !! r = Some y → node_at s !! r_node y = Some x →
  struct_ok s1 (held s) → same_world s s1 → node_at s1 = <[r_node y := x']> (node_at s) → n_proc x' = n_proc x →
  ref_at s1 = <[r := set_rcounts y st wk]> (ref_at s) →
  node_ok (ref_at s1) T (context_mgr_node s) k' (r_node y) x' →
  0 ≤ st ≤ k' → 0 ≤ wk ≤ k' → binder_inv s1 T k'.
Proof.
  intros Hi Hk Hr Hx Hs1 [Sm Sp Sl Slp Snd] Hn1 Hp Hr1 Hok Hst Hwk. pose proof Hi as [A B C D E F].
  assert (Hown : ∀ p m, owned s1 p m ↔ owned s p m).
  { intros p m. unfold owned. rewrite Hn1. destruct (decide (m = r_node y)) as [->|]; [|by rewrite lookup_insert_ne].
    rewrite lookup_insert_eq, Hx. split; intros (z & [= <-] & Ez); eexists; (split; [done|]); congruence. }
  split; simpl; rewrite ?Sm; try lia.
  - eapply struct_ok_ext; [|exact Hs1]. intros p q. unfold held. rewrite Hr1.
    destruct (decide (q = r)) as [->|]; [|by rewrite lookup_insert_ne].
    rewrite lookup_insert_eq, Hr. split; intros (z & [= <-] & Ez); by eexists.
  - intros m z. rewrite Hn1. destruct (decide (m = r_node y)) as [->|Hm].
    { rewrite lookup_insert_eq. by intros [= <-]. }
    rewrite lookup_insert_ne by done. intros Hz. pose proof (B m z Hz) as Hzk. apply node_ok_mono with k; [done|].
    rewrite Hr1. eapply node_ok_ext; [| |done|exact Hzk].
    + intros q. destruct (decide (q = r)) as [->|]; [|by rewrite lookup_insert_ne].
      rewrite lookup_insert_eq, Hr. split; intros (w & [= <-] & Ew); by eexists.
    + intros q (w & Hw & Ew)%(no_refs _ _ _ _ _ _ Hzk). unfold is_strong_ref. rewrite lookup_insert_ne; [done|]. congruence.
  - intros q z. rewrite Hr1. destruct (decide (q = r)) as [->|].
    + rewrite lookup_insert_eq. intros [= <-]. destruct (C r y Hr). split; simpl; try done; try lia; [|by apply Sp].
      rewrite Hn1. by rewrite lookup_insert_eq.
    + rewrite lookup_insert_ne by done. intros Hz. destruct (C q z Hz). split; simpl; try done; try lia; [|by apply Sp].
      rewrite Hn1. destruct (decide (r_node z = r_node y)) as [->|]; [by rewrite lookup_insert_eq|by rewrite lookup_insert_ne].
  - intros t Ht. destruct (D t Ht) as (p & Hpt). exists p. by apply Hown.
  - destruct F as [F|[p F]]; [by left|right]. exists p. by apply Hown.
Qed.

(** How the number of strong references to a node changes with one of them. *)
Lemma strong_refs_update R l r y y' :
  NoDup l → r ∈ l → R !! r = Some y →
  strong_refs (<[r := y']> R) l = strong_refs R l + Z.b2z (ctrue (strong y')) - Z.b2z (ctrue (strong y)).
Proof.
  intros Hnd Hr Hy. rewrite !(strong_refs_remove _ l r Hnd Hr).
  rewrite (strong_refs_ext R (<[r := y']> R)).
  - unfold is_strong_ref. rewrite lookup_insert_eq, Hy. simpl. lia.
  - intros q [Hq _]%list_elem_of_filter. unfold is_strong_ref. by rewrite lookup_insert_ne.
Qed.

Lemma node_ok_update_ref R T M k n x r y st wk d :
  node_ok R T M k n x → R !! r = Some y → r_node y = n →
  d = Z.b2z (ctrue st) - Z.b2z (ctrue (strong y)) → internal_strong_refs x + d ≤ k →
  node_ok (<[r := set_rcounts y st wk]> R) T M k n
    (set_counts x (internal_strong_refs x + d) (local_weak_refs x) (local_strong_refs x)).
Proof.
  intros [] Hr Hn Hd Hk. assert (r ∈ n_refs x) as Hin by (apply no_refs0; eauto). split; simpl; try done.
  - intros q. rewrite no_refs0. destruct (decide (q = r)) as [->|]; [|by rewrite lookup_insert_ne].
    rewrite lookup_insert_eq, Hr. split; intros (w & [= <-] & Ew); by eexists.
  - rewrite (strong_refs_update R _ r y) by done. simpl. lia.
Qed.

Lemma set_counts_id x : set_counts x (internal_strong_refs x + 0) (local_weak_refs x) (local_strong_refs x) = x.
Proof. rewrite Z.add_0_r. by destruct x. Qed.

(** One more count on a reference, on a node that has been counted for it. *)
Lemma inv_inc_ref s s1 T k r y x (b : bool) :
  binder_inv s T k → k < max_ops → ref_at s !! r = Some y → node_at s !! r_node y = Some x →
  struct_ok s1 (held s) → same_refs s s1 →
  node_at s1 = <[r_node y := if b && (strong y =? 0) then counted x true true 1 else x]> (node_at s) →
  let y' := if b then set_rcounts y (s32 (strong y + 1)) (weak y) else set_rcounts y (strong y) (s32 (weak y + 1)) in
  binder_inv (with_ref s1 r y') T (k + 1).
Proof.
  intros Hi Hk Hr Hx Hs1 Hsr Hn1 y'. unfold max_ops in *. pose proof (bi_nodes _ _ _ Hi _ _ Hx) as Hok.
  destruct (bi_refs _ _ _ Hi r y Hr) as [_ _ _ Rs Rw].
  destruct (node_ok_range _ _ _ _ _ _ Hok (bi_bound _ _ _ Hi)) as (_ & _ & R3).
  apply (node_ok_mono _ _ _ k (k + 1)) in Hok; [|lia].
  assert (Hd : ∀ st wk d, d = Z.b2z (ctrue st) - Z.b2z (ctrue (strong y)) → internal_strong_refs x + d ≤ k + 1 →
    node_at s1 = <[r_node y := set_counts x (internal_strong_refs x + d) (local_weak_refs x) (local_strong_refs x)]> (node_at s) →
    0 ≤ st ≤ k + 1 → 0 ≤ wk ≤ k + 1 → binder_inv (with_ref s1 r (set_rcounts y st wk)) T (k + 1)).
  { intros st wk d Ed Hd Hn2 Hst Hwk.
    eapply (inv_ref_counts s _ T k (k + 1) r y st wk); try done; simpl; rewrite ?(sr_refs _ _ Hsr); try done.
    - lia.
    - apply struct_with_ref; [done|by rewrite (sr_refs _ _ Hsr)].
    - by destruct Hsr.
    - by eapply node_ok_update_ref. }
  unfold y'. destruct b; rewrite s32_small by lia.
  - simpl in Hn1. destruct (Z.eqb_spec (strong y) 0) as [E0|E0].
    + apply (Hd _ _ 1); try lia; [by rewrite E0|]. rewrite Hn1. unfold counted. by rewrite s32_small by lia.
    + apply (Hd _ _ 0); try lia; [|by rewrite set_counts_id].
      unfold ctrue. destruct (Z.eqb_spec (strong y) 0), (Z.eqb_spec (strong y + 1) 0); simpl; lia.
  - apply (Hd _ _ 0); try lia. by rewrite set_counts_id.
Qed.

Lemma inc_ref_spec s T k r y b target :
  binder_inv s T k → k < max_ops → ref_at s !! r = Some y →
  (∀ l x, target = Some l → node_at s !! r_node y = Some x →
     is_Some (lists s !! l) ∧ list_proc s !! l = n_proc x ∧ is_Some (n_proc x)) →
  ∃ s' ret, binder_inc_ref s r b target = Some (s', ret) ∧ binder_inv s' T (k + 1) ∧ same_world s s' ∧
    (∀ m, is_Some (node_at s' !! m) ↔ is_Some (node_at s !! m)) ∧
    (ret = 0 ∧ ref_at s' = <[r := if b then set_rcounts y (strong y + 1) (weak y) else set_rcounts y (strong y) (weak y + 1)]> (ref_at s) ∨
     ret = - EINVAL ∧ ref_at s' = ref_at s).
Proof.
  intros Hi Hk Hr Ht. destruct (bi_refs _ _ _ Hi r y Hr) as [[x Hx] _ _ Rs Rw].
  pose proof (bi_nodes _ _ _ Hi _ _ Hx) as Hok.
  assert (Hdom : ∀ s1 z, node_at s1 = <[r_node y := z]> (node_at s) → ∀ m, is_Some (node_at s1 !! m) ↔ is_Some (node_at s !! m)).
  { intros s1 z -> m. destruct (decide (m = r_node y)) as [->|]; [|by rewrite lookup_insert_ne].
    rewrite lookup_insert_eq, Hx. split; eauto. }
  set (y' := if b then set_rcounts y (s32 (strong y + 1)) (weak y) else set_rcounts y (strong y) (s32 (weak y + 1))).
  assert (Ey : y' = if b then set_rcounts y (strong y + 1) (weak y) else set_rcounts y (strong y) (weak y + 1)).
  { unfold y', max_ops in *. destruct b; rewrite s32_small by lia; done. }
  assert (Hgood : ∀ s1, struct_ok s1 (held s) → same_refs s s1 →
    node_at s1 = <[r_node y := if b && (strong y =? 0) then counted x true true 1 else x]> (node_at s) →
    binder_inv (with_ref s1 r y') T (k + 1) ∧ same_world s (with_ref s1 r y') ∧
    (∀ m, is_Some (node_at (with_ref s1 r y') !! m) ↔ is_Some (node_at s !! m)) ∧
    ref_at (with_ref s1 r y') = <[r := y']> (ref_at s)).
  { intros s1 H1 H2 H3. split; [by apply (inv_inc_ref s s1 T k r y x b)|]. split; [by destruct H2|]. split; [by eapply Hdom|].
    simpl. by rewrite (sr_refs _ _ H2). }
  assert (Hbad : ∀ s1, struct_ok s1 (held s) → same_refs s s1 → node_at s1 = node_at s → binder_inv s1 T (k + 1)).
  { intros s1 H1 H2 H3. eapply (inv_same_node s s1 T k (k + 1) (r_node y) x x); try done; [lia|by rewrite insert_id|].
    apply node_ok_mono with k; [lia|done]. }
  rewrite <- Ey. clear Ey. unfold binder_inc_ref. rewrite Hr. cbn [mbind option_bind].
  destruct (inc_node_spec s (held s) (r_node y) x b true target (bi_struct _ _ _ Hi) Hx (λ l Hl, Ht l x Hl Hx))
    as (s1 & ret & Hinc & Hs1 & Hr1 & Hcase).
  assert (Hsame : struct_ok s (held s) ∧ same_refs s s) by (split; [apply (bi_struct _ _ _ Hi)|apply same_refs_refl]).
  destruct b.
  - destruct (strong y =? 0) eqn:E0.
    + rewrite Hinc. cbn [mbind option_bind]. destruct Hcase as [[-> Hn1]|(-> & _ & Hn1)].
      * eexists _, 0. destruct (Hgood s1) as (G1 & G2 & G3 & G4); try done. by eauto 10.
      * exists s1, (- EINVAL). split_and!; try done; [by apply Hbad|by apply same_world_of|by rewrite Hn1|by right; rewrite (sr_refs _ _ Hr1)].
    + cbn [mbind option_bind]. eexists _, 0. destruct Hsame as [H1 H2].
      destruct (Hgood s H1 H2) as (G1 & G2 & G3 & G4); [by rewrite insert_id|]. by eauto 10.
  - destruct (weak y =? 0) eqn:E0.
    + rewrite Hinc. cbn [mbind option_bind].
      assert (Hn1 : node_at s1 = <[r_node y := x]> (node_at s)) by (by destruct Hcase as [[_ ?]|(_ & _ & ?)]).
      destruct Hcase as [[-> _]|(-> & _ & _)].
      * eexists _, 0. destruct (Hgood s1) as (G1 & G2 & G3 & G4); try done. by eauto 10.
      * exists s1, (- EINVAL). rewrite insert_id in Hn1 by done.
        split_and!; try done; [by apply Hbad|by apply same_world_of|by rewrite Hn1|by right; rewrite (sr_refs _ _ Hr1)].
    + cbn [mbind option_bind]. eexists _, 0. destruct Hsame as [H1 H2].
      destruct (Hgood s H1 H2) as (G1 & G2 & G3 & G4); [by rewrite insert_id|]. by eauto 10.
Qed.

(** Taking a reference out of the trees of its holder, then freeing it. *)
Lemma struct_erase_ref s r y P :
  struct_ok s (held s) → ref_at s !! r = Some y → proc_at s !! r_proc y = Some P →
  ∃ t1 t2, rb_erase (refs_by_desc P) r = Some t1 ∧ rb_erase (refs_by_node (set_by_desc P t1)) r = Some t2 ∧
    let s' := with_proc s (r_proc y) (set_by_node (set_by_desc P t1) t2) in
    struct_ok s' (λ p q, held s p q ∧ q ≠ r) ∧ same_refs s s' ∧ node_at s' = node_at s.
Proof.
  intros Hs Hr HP.
  destruct (keyed_erase _ _ _ r (st_desc _ _ Hs _ P HP)) as (t1 & H1 & K1); [by exists y|].
  destruct (keyed_erase _ _ _ r (st_bynode _ _ Hs _ P HP)) as (t2 & H2 & K2); [by exists y|].
  exists t1, t2. split; [done|]. split; [done|]. cbv zeta. set (s' := with_proc _ _ _).
  assert (Hpr : ∀ q Q, proc_at s' !! q = Some Q → ∃ Q0, proc_at s !! q = Some Q0 ∧ p_nodes Q = p_nodes Q0 ∧ todo Q = todo Q0 ∧
    (q ≠ r_proc y ∧ Q = Q0 ∨ q = r_proc y ∧ refs_by_desc Q = t1 ∧ refs_by_node Q = t2)).
  { intros q Q. simpl. destruct (decide (q = r_proc y)) as [->|]; [rewrite lookup_insert_eq; intros [= <-]; exists P; do 3 (split; [done|]); by right|].
    rewrite lookup_insert_ne by done. intros HQ. exists Q. do 3 (split; [done|]). by left. }
  assert (Hoth : ∀ q, q ≠ r_proc y → ∀ m, held s q m ↔ held s q m ∧ m ≠ r).
  { intros q Hq m. split; [|tauto]. intros Hm. split; [done|]. intros ->. destruct Hm as (z & Hz & Hzp). congruence. }
  split; [|split; [|done]].
  - split; try done.
    + intros q Q HQ. destruct (Hpr q Q HQ) as (Q0 & HQ0 & -> & _). by apply (st_nodes _ _ Hs).
    + intros q Q HQ. destruct (Hpr q Q HQ) as (Q0 & HQ0 & _ & _ & [[Hq ->]|(-> & -> & _)]); [|by apply K1].
      eapply keyed_ext; [by apply Hoth|done|by apply (st_desc _ _ Hs)].
    + intros q Q HQ. destruct (Hpr q Q HQ) as (Q0 & HQ0 & _ & _ & [[Hq ->]|(-> & _ & ->)]); [|by apply K2].
      eapply keyed_ext; [by apply Hoth|done|by apply (st_bynode _ _ Hs)].
    + intros q Q HQ. destruct (Hpr q Q HQ) as (Q0 & HQ0 & _ & -> & _). by apply (st_todo _ _ Hs).
    + apply (st_lists _ _ Hs).
    + intros m z q Hz Hq. simpl. destruct (decide (q = r_proc y)) as [->|]; [by rewrite lookup_insert_eq|].
      rewrite lookup_insert_ne by done. by eapply (st_owner _ _ Hs).
    + apply (st_dead _ _ Hs).
  - split; try done; [|by apply stable_refl]. intros q. simpl.
    destruct (decide (q = r_proc y)) as [->|]; [|by rewrite lookup_insert_ne]. rewrite lookup_insert_eq, HP. done.
Qed.

Lemma struct_free_ref s r :
  struct_ok s (λ p q, held s p q ∧ q ≠ r) → struct_ok (free_ref s r) (held (free_ref s r)).
Proof.
  intros [A B C D E F G].
  assert (Hh : ∀ p q, held s p q ∧ q ≠ r ↔ held (free_ref s r) p q).
  { intros p q. unfold held. simpl. destruct (decide (q = r)) as [->|].
    - rewrite lookup_delete_eq. split; [by intros [_ ?]|by intros (? & ? & _)].
    - rewrite lookup_delete_ne by done. tauto. }
  split; try done; intros p P HP.
  - eapply keyed_ext; [apply Hh| |by apply B]. intros q [_ Hq]. unfold desc_of. simpl. by rewrite lookup_delete_ne.
  - eapply keyed_ext; [apply Hh| |by apply C]. intros q [_ Hq]. unfold rnode_of. simpl. by rewrite lookup_delete_ne.
Qed.

(** The node of a reference that goes. *)
Lemma node_ok_delete_ref R T M k n x r y :
  node_ok R T M k n x → R !! r = Some y → r_node y = n →
  node_ok (delete r R) T M k n
    (set_refs (set_counts x (internal_strong_refs x - Z.b2z (ctrue (strong y))) (local_weak_refs x) (local_strong_refs x))
       (filter (λ q, q ≠ r) (n_refs x))).
Proof.
  intros [] Hr Hn. assert (r ∈ n_refs x) as Hin by (apply no_refs0; eauto). split; simpl; try done.
  - by apply NoDup_filter.
  - intros q. rewrite list_elem_of_filter, no_refs0. destruct (decide (q = r)) as [->|].
    + rewrite lookup_delete_eq. split; [by intros [? _]|by intros (? & ? & _)].
    + rewrite lookup_delete_ne by done. tauto.
  - rewrite no_internal0, (strong_refs_remove R (n_refs x) r) by done. rewrite (strong_refs_ext R (delete r R)).
    + unfold is_strong_ref. rewrite Hr. simpl. lia.
    + intros q [Hq _]%list_elem_of_filter. unfold is_strong_ref. by rewrite lookup_delete_ne.
  - destruct (ctrue (strong y)); simpl; lia.
Qed.

(** The node without a reference to it. *)
Definition less_ref (x : binder_node) (r : Z) (y : binder_ref) : binder_node :=
  set_refs (set_counts x (internal_strong_refs x - Z.b2z (ctrue (strong y))) (local_weak_refs x) (local_strong_refs x))
    (filter (λ q, q ≠ r) (n_refs x)).

Lemma inv_ref_deleted s s1 T k r y x :
  binder_inv s T k → ref_at s !! r = Some y → node_at s !! r_node y = Some x →
  struct_ok s1 (λ p q, held s p q ∧ q ≠ r) → same_refs s s1 →
  (node_at s1 = <[r_node y := less_ref x r y]> (node_at s) ∨
   node_at s1 = delete (r_node y) (node_at s) ∧ filter (λ q, q ≠ r) (n_refs x) = [] ∧ local_strong_refs x = 0 ∧ local_weak_refs x = 0) →
  binder_inv (free_ref s1 r) T k.
Proof.
  intros Hi Hr Hx Hs1 Hsr Hcase. pose proof Hsr as [Sr Sm Sp Sl Slp Snd]. pose proof Hi as [A B C D E F].
  set (n := r_node y) in *. pose proof (B n x Hx) as Hok. pose proof (holds_pos T n true). pose proof (holds_pos T n false).
  assert (Hfree : node_at s1 = delete n (node_at s) → n ≠ context_mgr_node s ∧ (∀ t, t ∈ T → t.1 ≠ n) ∧ ∀ q z, ref_at s !! q = Some z → q ≠ r → r_node z ≠ n).
  { intros E1. destruct Hcase as [E2|(_ & Hf & Hls & Hlw)].
    { exfalso. assert (node_at s1 !! n = None) as X by (by rewrite E1, lookup_delete_eq). by rewrite E2, lookup_insert_eq in X. }
    destruct Hok as [Ha Hnd Hrefs _ _ Els Elw _ _]. unfold kept in *.
    assert (n ≠ context_mgr_node s) as Hne.
    { destruct (Z.eqb_spec n (context_mgr_node s)); [|done]. destruct (bool_decide _ && pending_strong_ref x); simpl in *; lia. }
    split; [done|]. split.
    - intros [m b] Ht. simpl. intros ->. apply holds_in in Ht.
      destruct (n =? _), b, (bool_decide _ && pending_strong_ref x), (bool_decide _ && pending_weak_ref x); simpl in *; lia.
    - intros q z Hz Hq Hzn. assert (q ∈ filter (λ q, q ≠ r) (n_refs x)) as Hin by (apply list_elem_of_filter; split; [done|apply Hrefs; eauto]).
      rewrite Hf in Hin. by apply elem_of_nil in Hin. }
  assert (Hnodes : ∀ m z, node_at s1 !! m = Some z → (m = n ∧ z = less_ref x r y) ∨ (m ≠ n ∧ node_at s !! m = Some z)).
  { intros m z. destruct (decide (m = n)) as [->|Hm]; destruct Hcase as [->|[-> _]];
      rewrite ?lookup_insert_eq, ?lookup_delete_eq, ?lookup_insert_ne, ?lookup_delete_ne by done; intros Hz; simplify_eq; auto. }
  assert (Hkeep : ∀ p m, owned s p m → (node_at s1 = delete n (node_at s) → m ≠ n) → owned s1 p m).
  { intros p m (z & Hz & Hp) Hm. unfold owned. destruct (decide (m = n)) as [->|Hne].
    - destruct Hcase as [->|[Ed _]]; [|by specialize (Hm Ed)]. rewrite lookup_insert_eq. eexists. split; [done|].
      rewrite Hx in Hz. by injection Hz as <-.
    - destruct Hcase as [->|[-> _]]; rewrite ?lookup_insert_ne, ?lookup_delete_ne by done; eauto. }
  split; simpl; rewrite ?Sr, ?Sm; try done.
  - apply struct_free_ref. eapply struct_ok_ext; [|exact Hs1]. intros p q. by rewrite (held_same s s1).
  - intros m z Hz. destruct (Hnodes m z Hz) as [[-> ->]|[Hm Hz']]; [by apply node_ok_delete_ref|].
    pose proof (B m z Hz') as Hzk. eapply node_ok_ext; [| |done|exact Hzk].
    + intros q. destruct (decide (q = r)) as [->|]; [|by rewrite lookup_delete_ne].
      rewrite lookup_delete_eq, Hr. split; [by intros (? & ? & _)|]. intros (w & [= <-] & Ew). by destruct Hm.
    + intros q (w & Hw & Ew)%(no_refs _ _ _ _ _ _ Hzk). unfold is_strong_ref. rewrite lookup_delete_ne; [done|]. intros ->. apply Hm. unfold n. congruence.
  - intros q z [Hq Hz]%lookup_delete_Some. destruct (C q z Hz). split; try done; simpl; [|by apply Sp].
    destruct (decide (r_node z = n)) as [En|En].
    + rewrite En. destruct Hcase as [->|[Ed _]]; [by rewrite lookup_insert_eq|]. destruct (Hfree Ed) as (_ & _ & Hno).
      exfalso. by apply (Hno q z).
    + destruct Hcase as [->|[-> _]]; rewrite ?lookup_insert_ne, ?lookup_delete_ne by done; done.
  - intros t Ht. destruct (D t Ht) as (p & Hpt). exists p. apply Hkeep; [done|]. intros Ed. by apply (Hfree Ed).
  - destruct F as [F|[p F]]; [by left|right]. exists p. apply Hkeep; [done|]. intros Ed E0. by destruct (Hfree Ed) as (? & _).
Qed.

(** The node side of deleting a reference: the strong count, the list, and the
    end of the node if that was all. *)
Lemma delete_ref_node s s1 T k r y x :
  binder_inv s T k → k < max_ops → ref_at s !! r = Some y → node_at s !! r_node y = Some x →
  struct_ok s1 (λ p q, held s p q ∧ q ≠ r) → same_refs s s1 → node_at s1 = node_at s →
  ∃ s2 nd s3, (if ctrue (strong y) then binder_dec_node s1 (r_node y) true true else Some s1) = Some s2 ∧
    node_at s2 !! r_node y = Some nd ∧
    binder_dec_node (with_node s2 (r_node y) (set_refs nd (filter (λ q, q ≠ r) (n_refs nd)))) (r_node y) false true = Some s3 ∧
    struct_ok s3 (λ p q, held s p q ∧ q ≠ r) ∧ same_refs s s3 ∧
    (node_at s3 = <[r_node y := less_ref x r y]> (node_at s) ∨
     node_at s3 = delete (r_node y) (node_at s) ∧ filter (λ q, q ≠ r) (n_refs x) = [] ∧ local_strong_refs x = 0 ∧ local_weak_refs x = 0).
Proof.
  intros Hi Hk Hr Hx Hs1 Hsr Hn1. set (n := r_node y) in *. pose proof (bi_nodes _ _ _ Hi n x Hx) as Hok. unfold max_ops in *.
  destruct (node_ok_range _ _ _ _ _ _ Hok (bi_bound _ _ _ Hi)) as (_ & _ & R3).
  assert (Hin : r ∈ n_refs x) by (apply (no_refs _ _ _ _ _ _ Hok); eauto).
  set (x1 := set_counts x (internal_strong_refs x - Z.b2z (ctrue (strong y))) (local_weak_refs x) (local_strong_refs x)).
  assert (H2 : ∃ s2, (if ctrue (strong y) then binder_dec_node s1 n true true else Some s1) = Some s2 ∧
    struct_ok s2 (λ p q, held s p q ∧ q ≠ r) ∧ same_refs s s2 ∧ node_at s2 = <[n := x1]> (node_at s)).
  { destruct (ctrue (strong y)) eqn:Ec; simpl in x1.
    - destruct (dec_node_spec s1 _ n x true true Hs1) as (s2 & Hrun & Hs2 & Hr2 & Hcase); [by rewrite Hn1|].
      exists s2. split; [done|]. split; [done|]. split; [by eapply same_refs_trans|].
      destruct Hcase as [->|(_ & Hz & _)].
      + rewrite Hn1. unfold counted. rewrite s32_small by lia. done.
      + simpl in Hz. rewrite Hz in Hin. by apply elem_of_nil in Hin.
    - exists s1. split_and!; try done. rewrite Hn1. unfold x1. rewrite Z.sub_0_r, insert_id; [done|]. rewrite Hx. by destruct x. }
  destruct H2 as (s2 & Hrun2 & Hs2 & Hr2 & Hn2).
  assert (Hnd : node_at s2 !! n = Some x1) by (by rewrite Hn2, lookup_insert_eq).
  destruct (struct_with_node s2 _ n x1 (less_ref x r y) Hs2 Hnd) as [Hs3 Hr3]; [done|done|].
  destruct (dec_node_spec _ _ n (less_ref x r y) false true Hs3) as (s3 & Hrun3 & Hs4 & Hr4 & Hcase).
  { simpl. by rewrite lookup_insert_eq. }
  exists s2, x1, s3. split; [done|]. split; [done|]. split; [done|]. split; [done|].
  split; [eapply same_refs_trans; [exact Hr2|by eapply same_refs_trans]|]. simpl in Hcase. rewrite Hn2 in Hcase.
  destruct Hcase as [->|[-> Hz]]; [left; by rewrite !insert_insert_eq|right].
  rewrite !delete_insert_eq. done.
Qed.

Lemma delete_ref_spec s T k r y :
  binder_inv s T k → k < max_ops → ref_at s !! r = Some y →
  ∃ s', binder_delete_ref s r = Some s' ∧ binder_inv s' T k ∧ same_world s s' ∧ ref_at s' = delete r (ref_at s).
Proof.
  intros Hi Hk Hr. destruct (bi_refs _ _ _ Hi r y Hr) as [[x Hx] [P HP] _ _ _].
  unfold binder_delete_ref. rewrite Hr. cbn [mbind option_bind]. rewrite HP. cbn [mbind option_bind].
  destruct (struct_erase_ref s r y P (bi_struct _ _ _ Hi) Hr HP) as (t1 & t2 & -> & H2 & Hs1 & Hr1 & Hn1).
  cbn [mbind option_bind]. rewrite H2. cbn [mbind option_bind].
  destruct (delete_ref_node s _ T k r y x Hi Hk Hr Hx Hs1 Hr1 Hn1) as (s2 & nd & s3 & -> & Hnd & Hdec & Hs3 & Hr3 & Hcase).
  cbn [mbind option_bind]. rewrite Hnd. cbn [mbind option_bind]. rewrite Hdec. cbn [mbind option_bind].
  set (s4 := match death y with Some d => work_del s3 (WDeath d) | None => s3 end).
  assert (Hs4 : struct_ok s4 (λ p q, held s p q ∧ q ≠ r) ∧ same_refs s s4 ∧ node_at s4 = node_at s3).
  { unfold s4. destruct (death y) as [d|]; [|done]. destruct (struct_work_del s3 _ (WDeath d) Hs3) as [G1 G2].
    split; [done|]. split; [by eapply same_refs_trans|done]. }
  destruct Hs4 as (Hs4 & Hr4 & Hn4). rewrite <- Hn4 in Hcase.
  exists (free_ref s4 r). split; [done|]. split; [by eapply (inv_ref_deleted s s4 T k r y x)|].
  split; [by destruct Hr4|]. simpl. by rewrite (sr_refs _ _ Hr4).
Qed.

(** One count less on a reference that had it; the node is told when the last
    strong one goes. *)
Lemma dec_ref_count s T k r y (b : bool) :
  binder_inv s T k → k < max_ops → ref_at s !! r = Some y → (if b then strong y else weak y) ≠ 0 →
  let y1 := if b then set_rcounts y (s32 (strong y - 1)) (weak y) else set_rcounts y (strong y) (s32 (weak y - 1)) in
  ∃ s1, (if b && (strong y1 =? 0) then binder_dec_node (with_ref s r y1) (r_node y) true true else Some (with_ref s r y1)) = Some s1 ∧
    binder_inv s1 T k ∧ same_world s s1 ∧ ref_at s1 = <[r := y1]> (ref_at s) ∧
    y1 = if b then set_rcounts y (strong y - 1) (weak y) else set_rcounts y (strong y) (weak y - 1).
Proof.
  intros Hi Hk Hr Hnz y1. unfold max_ops in *. destruct (bi_refs _ _ _ Hi r y Hr) as [[x Hx] _ _ Rs Rw].
  pose proof (bi_nodes _ _ _ Hi _ _ Hx) as Hok.
  destruct (node_ok_range _ _ _ _ _ _ Hok (bi_bound _ _ _ Hi)) as (_ & _ & R3).
  assert (Hin : r ∈ n_refs x) by (apply (no_refs _ _ _ _ _ _ Hok); eauto).
  assert (Hgo : ∀ st wk d s1, y1 = set_rcounts y st wk → 0 ≤ st ≤ k → 0 ≤ wk ≤ k →
    d = Z.b2z (ctrue st) - Z.b2z (ctrue (strong y)) → d ≤ 0 → struct_ok s1 (held s) → same_world s s1 →
    node_at s1 = <[r_node y := set_counts x (internal_strong_refs x + d) (local_weak_refs x) (local_strong_refs x)]> (node_at s) →
    ref_at s1 = <[r := y1]> (ref_at s) → binder_inv s1 T k).
  { intros st wk d s1 E1 Hst Hwk Ed Hd G1 G2 G3 G4. eapply (inv_ref_counts s s1 T k k r y st wk x); try done.
    - by rewrite G4, E1.
    - rewrite G4, E1. eapply node_ok_update_ref; try done. lia. }
  assert (Hs1 : ∀ st wk, struct_ok (with_ref s r (set_rcounts y st wk)) (held s)).
  { intros st wk. apply struct_with_ref; [apply (bi_struct _ _ _ Hi)|done]. }
  assert (Hw : ∀ st wk, same_world s (with_ref s r (set_rcounts y st wk))) by (intros st wk; split; try done; by apply stable_refl).
  destruct b; simpl in *; unfold y1 in *; rewrite s32_small in * by lia; simpl.
  - destruct (Z.eqb_spec (strong y - 1) 0) as [E0|E0].
    + destruct (dec_node_spec _ _ (r_node y) x true true (Hs1 (strong y - 1) (weak y)) Hx) as (s1 & Hrun & G1 & G2 & Hcase).
      exists s1. split; [done|].
      assert (Hn1 : node_at s1 = <[r_node y := set_counts x (internal_strong_refs x + -1) (local_weak_refs x) (local_strong_refs x)]> (node_at s)).
      { destruct Hcase as [->|(_ & Hz & _)].
        - unfold counted. simpl. assert (1 ≤ internal_strong_refs x); [|by rewrite s32_small by lia].
          rewrite (no_internal _ _ _ _ _ _ Hok), (strong_refs_remove _ _ r) by (done || apply (no_nodup _ _ _ _ _ _ Hok)).
          unfold is_strong_ref. rewrite Hr. simpl. pose proof (strong_refs_pos (ref_at s) (filter (λ q, q ≠ r) (n_refs x))).
          unfold ctrue. destruct (Z.eqb_spec (strong y) 0); [done|simpl; lia].
        - simpl in Hz. rewrite Hz in Hin. by apply elem_of_nil in Hin. }
      assert (same_world s s1) as G3 by (by destruct G2).
      split; [|split; [done|split; [by rewrite (sr_refs _ _ G2)|done]]].
      eapply (Hgo _ _ (-1)); try done; try lia; [|by rewrite (sr_refs _ _ G2)].
      rewrite E0. unfold ctrue. destruct (Z.eqb_spec (strong y) 0); [lia|done].
    + eexists. split; [done|]. split; [|split; [apply Hw|done]]. eapply (Hgo _ _ 0); try done; try lia; [|simpl; by rewrite set_counts_id, insert_id].
      unfold ctrue. destruct (Z.eqb_spec (strong y) 0), (Z.eqb_spec (strong y - 1) 0); done || lia.
  - eexists. split; [done|]. split; [|split; [apply Hw|done]]. eapply (Hgo _ _ 0); try done; try lia. simpl. by rewrite set_counts_id, insert_id.
Qed.

Lemma dec_ref_spec s T k r y (b : bool) :
  binder_inv s T k → k < max_ops → ref_at s !! r = Some y →
  let c := if b then strong y else weak y in
  let y1 := if b then set_rcounts y (strong y - 1) (weak y) else set_rcounts y (strong y) (weak y - 1) in
  ∃ s' ret, binder_dec_ref s r b = Some (s', ret) ∧ binder_inv s' T k ∧ same_world s s' ∧
    if decide (c = 0) then ret = - EINVAL ∧ s' = s
    else ret = 0 ∧ ref_at s' = if decide (strong y1 = 0 ∧ weak y1 = 0) then delete r (ref_at s) else <[r := y1]> (ref_at s).
Proof.
  intros Hi Hk Hr c y1. unfold binder_dec_ref. rewrite Hr. cbn [mbind option_bind].
  destruct (decide (c = 0)) as [E|E].
  { exists s, (- EINVAL). destruct b; unfold c in E; rewrite E, Z.eqb_refl; split_and!; done || apply same_world_refl. }
  destruct (dec_ref_count s T k r y b Hi Hk Hr E) as (s1 & Hrun & Hi1 & Hw1 & Hr1 & Ey). fold y1 in Ey. rewrite Ey in Hr1.
  assert (Hend : ∃ s' ret, (if (strong y1 =? 0) && (weak y1 =? 0) then s' ← binder_delete_ref s1 r; Some (s', 0) else Some (s1, 0)) = Some (s', ret) ∧
    binder_inv s' T k ∧ same_world s s' ∧ ret = 0 ∧
    ref_at s' = if decide (strong y1 = 0 ∧ weak y1 = 0) then delete r (ref_at s) else <[r := y1]> (ref_at s)).
  { destruct (Z.eqb_spec (strong y1) 0), (Z.eqb_spec (weak y1) 0); simpl;
      [|rewrite decide_False by tauto; exists s1, 0; by eauto 10..].
    rewrite decide_True by done. destruct (delete_ref_spec s1 T k r y1 Hi1 Hk) as (s' & -> & Hi' & Hw' & Hr').
    { by rewrite Hr1, lookup_insert_eq. }
    cbn [mbind option_bind]. exists s', 0. split; [done|]. split; [done|]. split; [by eapply same_world_trans|]. split; [done|].
    by rewrite Hr', Hr1, delete_insert_eq. }
  assert (Hn : r_node y1 = r_node y) by (by unfold y1; destruct b).
  destruct b; unfold c in E; rewrite (proj2 (Z.eqb_neq _ _) E); rewrite Ey in Hrun |- *; cbn [andb] in Hrun.
  - rewrite Hn, Hrun. cbn [mbind option_bind]. exact Hend.
  - injection Hrun as ->. exact Hend.
Qed.

Lemma get_ref_spec s H p P d :
  struct_ok s H → (∀ q, H p q → held s p q) → proc_at s !! p = Some P →
  (∃ r y, binder_get_ref s p d = Some (Some r) ∧ ref_at s !! r = Some y ∧ H p r ∧ desc y = d) ∨
  (binder_get_ref s p d = Some None ∧ ∀ r y, ref_at s !! r = Some y → H p r → desc y ≠ d).
Proof.
  intros Hs HH HP. unfold binder_get_ref. rewrite HP. cbn [mbind option_bind].
  destruct (keyed_search _ _ _ d (λ r, x ← ref_at s !! r; Some (d - desc x)) (st_desc _ _ Hs p P HP))
    as [(r & -> & Hr & E)|(link & parent & -> & Hne & _)].
  - intros r (y & Hy & _)%HH. unfold desc_of. by rewrite Hy.
  - left. destruct (HH r Hr) as (y & Hy & _). exists r, y. unfold desc_of in E. rewrite Hy in E. done.
  - right. split; [done|]. intros r y Hy Hr E. apply (Hne r Hr). unfold desc_of. by rewrite Hy.
Qed.

(** ** New references *)

(** The first descriptor from [d] on that the ascending list [l] leaves free. *)
Fixpoint free_from (d : Z) (l : list Z) : Z :=
  match l with
  | [] => d
  | a :: l => if a >? d then d else free_from (a + 1) l
  end.

Lemma free_from_spec l d :
  StronglySorted Z.lt l → (∀ a, a ∈ l → d - 1 ≤ a) →
  d ≤ free_from d l ∧ free_from d l ∉ l ∧ ∀ c, d ≤ c < free_from d l → c ∈ l.
Proof.
  revert d. induction l as [|a l IH]; intros d Hs Hl; simpl; [split_and!; [lia|by intros ?%elem_of_nil|lia]|].
  inversion Hs as [|? ? Hs' Hall]; subst. rewrite Forall_forall in Hall.
  assert (d - 1 ≤ a) as Ha by (apply Hl; by left).
  destruct (Z.gtb_spec a d) as [Hgt|Hle].
  - split_and!; [lia| |lia]. intros [->|Hd]%elem_of_cons; [lia|]. specialize (Hall _ Hd). lia.
  - destruct (IH (a + 1) Hs') as (H1 & H2 & H3); [intros b Hb; specialize (Hall b Hb); lia|].
    split_and!; [lia| |].
    + intros [E|Hd]%elem_of_cons; [lia|done].
    + intros c Hc. destruct (decide (c = a)) as [->|]; [by left|right]. apply H3. lia.
Qed.

Lemma desc_loop_spec s t l1 l2 d fuel :
  is_tree t (l1 ++ l2) → Forall (λ r, ∃ y, ref_at s !! r = Some y ∧ 0 ≤ desc y < 2 ^ 32 - 1) l2 → (length l2 ≤ fuel)%nat →
  desc_loop fuel s t (default 0 (head l2)) d = Some (free_from d (desc_of s <$> l2)).
Proof.
  intros Ht. destruct (is_tree_walk _ _ Ht) as (_ & Hnext & Hall & _). clear Ht.
  revert l1 d fuel Hnext Hall. induction l2 as [|r l2 IH]; intros l1 d fuel Hnext Hall Hl2 Hf.
  { by destruct fuel. }
  inversion Hl2 as [|? ? (y & Hy & Hd) Hl2']; subst. destruct fuel as [|fuel]; [simpl in Hf; lia|]. simpl in Hf.
  assert (ctrue r = true) as Hr.
  { apply Forall_app in Hall as [_ Hall]. inversion Hall as [|? ? [Hr _] _]; subst. unfold ctrue. destruct (Z.eqb_spec r 0); [lia|done]. }
  assert (Hdr : desc_of s r = desc y) by (unfold desc_of; by rewrite Hy).
  simpl. rewrite Hr, Hy, Hdr. cbn [mbind option_bind]. destruct (desc y >? d); [done|].
  rewrite (Hnext l1 r l2 eq_refl). cbn [mbind option_bind]. rewrite u32_small by lia.
  apply (IH (l1 ++ [r])); [|by rewrite <- app_assoc|done|lia].
  intros m1 p m2 E. apply (Hnext m1 p m2). rewrite <- E, <- app_assoc. done.
Qed.

(** A new reference is in the trees of its holder and on the list of its node. *)
Lemma inv_new_ref s T k p P n x r id d t1 t2 :
  binder_inv s T k → 0 ≤ k → proc_at s !! p = Some P → node_at s !! n = Some x → ref_at s !! r = None → 0 ≤ d ≤ k + 1 →
  let y0 := mk_bref id p n d 0 0 None in
  let s' := with_node (with_ref (with_proc (next_id s) p (set_by_desc (set_by_node P t1) t2)) r y0) n (set_refs x (r :: n_refs x)) in
  (∀ key' S', (∀ q, S' q ↔ q = r ∨ held s p q) → (∀ q, held s p q → key' q = rnode_of s q) → key' r = n → keyed t1 key' S') →
  (∀ key' S', (∀ q, S' q ↔ q = r ∨ held s p q) → (∀ q, held s p q → key' q = desc_of s q) → key' r = d → keyed t2 key' S') →
  binder_inv s' T (k + 1) ∧ same_world s s'.
Proof.
  intros Hi Hk HP Hx Hr Hd y0 s' K1 K2. pose proof Hi as [A B C D E F].
  assert (Hne : ∀ q m, held s q m → m ≠ r) by (intros q m (z & Hz & _) ->; congruence).
  assert (Hheld : ∀ q m, held s' q m ↔ q = p ∧ m = r ∨ held s q m).
  { intros q m. unfold held. simpl. destruct (decide (m = r)) as [->|].
    - rewrite lookup_insert_eq, Hr. split; [intros (z & [= <-] & <-); by left|]. intros [[-> _]|(z & ? & _)]; [by exists y0|done].
    - rewrite lookup_insert_ne by done. split; [by right|]. intros [[_ ?]|?]; done. }
  assert (Hheldp : ∀ m, held s' p m ↔ m = r ∨ held s p m) by (intros m; rewrite Hheld; tauto).
  assert (Hoth : ∀ q, q ≠ p → ∀ m, held s q m ↔ held s' q m) by (intros q Hq m; rewrite Hheld; tauto).
  assert (Hpr : ∀ q Q, proc_at s' !! q = Some Q → ∃ Q0, proc_at s !! q = Some Q0 ∧ p_nodes Q = p_nodes Q0 ∧ todo Q = todo Q0 ∧
    (q ≠ p ∧ Q = Q0 ∨ q = p ∧ refs_by_desc Q = t2 ∧ refs_by_node Q = t1)).
  { intros q Q. simpl. destruct (decide (q = p)) as [->|]; [rewrite lookup_insert_eq; intros [= <-]; exists P|
      rewrite lookup_insert_ne by done; intros HQ; exists Q]; do 3 (split; [done|]); [by right|by left]. }
  assert (Hdesc : ∀ q, q ≠ r → desc_of s' q = desc_of s q) by (intros q Hq; unfold desc_of; simpl; by rewrite lookup_insert_ne).
  assert (Hrn : ∀ q, q ≠ r → rnode_of s' q = rnode_of s q) by (intros q Hq; unfold rnode_of; simpl; by rewrite lookup_insert_ne).
  assert (Hown : ∀ q m, owned s' q m ↔ owned s q m) by (intros q m; by apply (owned_with_node s n x)).
  destruct (struct_with_node s (held s) n x (set_refs x (r :: n_refs x)) A Hx) as [[A1 A2 A3 A4 A5 A6 A7] _]; [done|done|].
  assert (Hdom : ∀ q, is_Some (proc_at s' !! q) ↔ is_Some (proc_at s !! q)).
  { intros q. simpl. destruct (decide (q = p)) as [->|]; [rewrite lookup_insert_eq, HP; done|by rewrite lookup_insert_ne]. }
  split; [|split; try done; by apply (stable_insert s s' n x (set_refs x (r :: n_refs x)))]. split.
  - split.
    + intros q Q HQ. destruct (Hpr q Q HQ) as (Q0 & HQ0 & -> & _). by apply (A1 q Q0).
    + intros q Q HQ. destruct (Hpr q Q HQ) as (Q0 & HQ0 & _ & _ & [[Hq ->]|(-> & -> & _)]).
      * eapply keyed_ext; [by apply Hoth|intros m Hm; apply Hdesc; by eapply Hne|by apply (A2 q Q0)].
      * apply K2; [done|intros m Hm; apply Hdesc; by eapply Hne|]. unfold desc_of. simpl. by rewrite lookup_insert_eq.
    + intros q Q HQ. destruct (Hpr q Q HQ) as (Q0 & HQ0 & _ & _ & [[Hq ->]|(-> & _ & ->)]).
      * eapply keyed_ext; [by apply Hoth|intros m Hm; apply Hrn; by eapply Hne|by apply (A3 q Q0)].
      * apply K1; [done|intros m Hm; apply Hrn; by eapply Hne|]. unfold rnode_of. simpl. by rewrite lookup_insert_eq.
    + intros q Q HQ. destruct (Hpr q Q HQ) as (Q0 & HQ0 & _ & -> & _). by apply (A4 q Q0).
    + apply A5.
    + intros m z q Hz Hq. apply Hdom. by eapply A6.
    + apply A7.
  - intros m z. simpl. destruct (decide (m = n)) as [->|Hm].
    + rewrite lookup_insert_eq. intros [= <-]. pose proof (B n x Hx) as []. 
      assert (Hnin : r ∉ n_refs x) by (rewrite no_refs0; intros (w & Hw & _); congruence).
      split; simpl; try done; [by constructor| |rewrite strong_refs_cons, (strong_refs_ext (ref_at s))|lia].
      * intros q. rewrite elem_of_cons, no_refs0. destruct (decide (q = r)) as [->|]; [|rewrite lookup_insert_ne by done; tauto].
        rewrite lookup_insert_eq. split; [intros _; by exists y0|by left].
      * unfold is_strong_ref. rewrite lookup_insert_eq. simpl. lia.
      * intros q Hq. unfold is_strong_ref. rewrite lookup_insert_ne; [done|]. intros ->. done.
    + rewrite lookup_insert_ne by done. intros Hz. pose proof (B m z Hz) as Hzk. apply node_ok_mono with k; [lia|].
      eapply node_ok_ext; [| |done|exact Hzk].
      * intros q. destruct (decide (q = r)) as [->|]; [|by rewrite lookup_insert_ne].
        rewrite lookup_insert_eq, Hr. split; [intros (w & [= <-] & Ew); by destruct Hm|by intros (? & ? & _)].
      * intros q (w & Hw & Ew)%(no_refs _ _ _ _ _ _ Hzk). unfold is_strong_ref. rewrite lookup_insert_ne; [done|]. congruence.
  - intros q z. simpl. destruct (decide (q = r)) as [->|].
    + rewrite lookup_insert_eq. intros [= <-]. split; simpl; try lia; [by rewrite lookup_insert_eq|apply Hdom; by exists P].
    + rewrite lookup_insert_ne by done. intros Hz. destruct (C q z Hz). split; try lia; [|by apply Hdom]. simpl.
      destruct (decide (r_node z = n)) as [->|]; [by rewrite lookup_insert_eq|by rewrite lookup_insert_ne].
  - intros t Ht. destruct (D t Ht) as (q & Hq). exists q. by apply Hown.
  - lia.
  - destruct F as [F|[q F]]; [by left|right]. exists q. by apply Hown.
Qed.

(** The descriptor chosen for a new reference. *)
Lemma desc_choice s T k p P start :
  binder_inv s T k → k < max_ops → proc_at s !! p = Some P → start = 0 ∨ start = 1 →
  ∃ first d, rb_first (refs_by_desc P) = Some first ∧
    desc_loop (rb_fuel (refs_by_desc P)) (next_id s) (refs_by_desc P) first start = Some d ∧
    start ≤ d ≤ k + 1 ∧ (∀ r y, ref_at s !! r = Some y → r_proc y = p → desc y ≠ d) ∧
    ∀ c, start ≤ c < d → ∃ r y, ref_at s !! r = Some y ∧ r_proc y = p ∧ desc y = c.
Proof.
  intros Hi Hk HP Hst. unfold max_ops in *. pose proof (bi_bound _ _ _ Hi).
  destruct (st_desc _ _ (bi_struct _ _ _ Hi) p P HP) as (l & Ht & Hs & Hm).
  destruct (is_tree_walk _ _ Ht) as (Hf & _ & _ & Hfuel). exists (default 0 (head l)), (free_from start (desc_of s <$> l)).
  assert (Hl : ∀ r, r ∈ l → ∃ y, ref_at s !! r = Some y ∧ r_proc y = p ∧ 0 ≤ desc y ≤ k ∧ desc_of s r = desc y).
  { intros r (y & Hy & Hp)%Hm. exists y. split_and!; try done; [apply (bi_refs _ _ _ Hi r y Hy)..|]. unfold desc_of. by rewrite Hy. }
  split; [done|]. split.
  { apply (desc_loop_spec (next_id s) (refs_by_desc P) []); [done| |lia]. apply Forall_forall. intros r Hr.
    destruct (Hl r Hr) as (y & Hy & _ & Hd & _). exists y. split; [done|lia]. }
  destruct (free_from_spec (desc_of s <$> l) start) as (H1 & H2 & H3).
  - clear -Hs. unfold sorted_by in Hs. induction Hs as [|a l Hs IH Hall]; constructor; [done|].
    by apply Forall_fmap.
  - intros a (r & -> & Hr)%list_elem_of_fmap. destruct (Hl r Hr) as (y & _ & _ & Hd & ->). lia.
  - assert (H4 : ∀ c, start ≤ c < free_from start (desc_of s <$> l) → ∃ r y, ref_at s !! r = Some y ∧ r_proc y = p ∧ desc y = c).
    { intros c (r & -> & Hr)%H3%list_elem_of_fmap. destruct (Hl r Hr) as (y & Hy & Hp & _ & E). by exists r, y. }
    split; [|split; [|done]].
    + split; [done|]. destruct (decide (free_from start (desc_of s <$> l) = start)) as [->|]; [lia|].
      destruct (H4 (free_from start (desc_of s <$> l) - 1)) as (r & y & Hy & _ & E); [lia|].
      pose proof (ro_desc _ _ _ (bi_refs _ _ _ Hi r y Hy)). lia.
    + intros r y Hy Hp E. apply H2. apply list_elem_of_fmap. exists r. unfold desc_of. rewrite Hy. split; [done|].
      apply Hm. by exists y.
Qed.

Lemma get_ref_for_node_spec s T k p n mem :
  binder_inv s T k → k < max_ops → is_Some (proc_at s !! p) → is_Some (node_at s !! n) →
  (∀ r, mem = Some r → addr r ∧ ref_at s !! r = None) →
  ∃ s' res, binder_get_ref_for_node s p n mem = Some (s', res) ∧ binder_inv s' T (k + 1) ∧ same_world s s' ∧
    (∀ m z, node_at s !! m = Some z → ∃ z', node_at s' !! m = Some z' ∧ n_proc z' = n_proc z ∧ ident z' = ident z) ∧
    ((∃ r y, res = Some r ∧ ref_at s !! r = Some y ∧ r_proc y = p ∧ r_node y = n ∧ s' = s) ∨
     (∀ r y, ref_at s !! r = Some y → r_proc y = p → r_node y ≠ n) ∧
     (mem = None ∧ res = None ∧ s' = s ∨
      ∃ r d, mem = Some r ∧ res = Some r ∧ ref_at s' = <[r := mk_bref (last_id s') p n d 0 0 None]> (ref_at s) ∧
        let start := if n =? context_mgr_node s then 0 else 1 in
        start ≤ d ∧ (∀ r y, ref_at s !! r = Some y → r_proc y = p → desc y ≠ d) ∧
        ∀ c, start ≤ c < d → ∃ r y, ref_at s !! r = Some y ∧ r_proc y = p ∧ desc y = c)).
Proof.
  intros Hi Hk [P HP] [x Hx] Hmem. unfold binder_get_ref_for_node. rewrite HP. cbn [mbind option_bind].
  pose proof (bi_struct _ _ _ Hi) as Hs. pose proof (bi_bound _ _ _ Hi).
  assert (Hmono : binder_inv s T (k + 1)).
  { eapply (inv_same_node s s T k (k + 1) n x x); try done; [lia|apply same_refs_refl|by rewrite insert_id|].
    apply node_ok_mono with k; [lia|by apply (bi_nodes _ _ _ Hi)]. }
  destruct (keyed_search _ _ _ n (λ r, y ← ref_at s !! r; Some (n - r_node y)) (st_bynode _ _ Hs p P HP))
    as [(r & -> & (y & Hy & Hp) & E)|(link & parent & -> & Hne & Hins)].
  { intros r (y & Hy & _). unfold rnode_of. by rewrite Hy. }
  { cbn [mbind option_bind]. exists s, (Some r). split; [done|]. split; [done|]. split; [apply same_world_refl|]. split; [by eauto|].
    left. exists r, y. unfold rnode_of in E. rewrite Hy in E. done. }
  cbn [mbind option_bind].
  assert (Hnew : ∀ r y, ref_at s !! r = Some y → r_proc y = p → r_node y ≠ n).
  { intros r y Hy Hp E. apply (Hne r); [by exists y|]. unfold rnode_of. by rewrite Hy. }
  destruct mem as [r|].
  2:{ exists s, None. split; [done|]. split; [done|]. split; [apply same_world_refl|]. split; [by eauto|]. right. split; [done|by left]. }
  destruct (Hmem r eq_refl) as [Har Hfresh].
  assert (Hnh : ¬ held s p r) by (intros (y & Hy & _); congruence).
  destruct (Hins r Har Hnh) as (t0 & t1 & -> & Hc1 & K1). cbn [mbind option_bind]. rewrite Hc1. cbn [mbind option_bind].
  cbn [refs_by_desc set_by_node].
  destruct (desc_choice s T k p P (if n =? context_mgr_node s then 0 else 1) Hi Hk HP) as (first & d & -> & Hloop & Hd & Hfree & Hleast).
  { destruct (n =? _); auto. }
  cbn [mbind option_bind context_mgr_node next_id]. cbn [next_id] in Hloop. rewrite Hloop. cbn [mbind option_bind ref_at]. change (ref_at (next_id s)) with (ref_at s).
  destruct (keyed_search _ _ _ d (λ r, y ← ref_at s !! r; Some (d - desc y)) (st_desc _ _ Hs p P HP))
    as [(q & _ & (y & Hy & Hp) & E)|(link2 & parent2 & -> & _ & Hins2)].
  { intros q (y & Hy & _). unfold desc_of. by rewrite Hy. }
  { exfalso. apply (Hfree q y Hy Hp). unfold desc_of in E. by rewrite Hy in E. }
  cbn [mbind option_bind]. destruct (Hins2 r Har Hnh) as (t3 & t2 & -> & Hc2 & K2). cbn [mbind option_bind]. rewrite Hc2. cbn [mbind option_bind].
  assert (ctrue n = true) as Hn by (unfold ctrue; destruct (Z.eqb_spec n 0) as [->|]; [by destruct (no_addr _ _ _ _ _ _ (bi_nodes _ _ _ Hi 0 x Hx))|done]).
  rewrite Hn. match goal with |- context [node_at ?w !! n] => change (node_at w) with (node_at s) end. rewrite Hx. cbn [mbind option_bind].
  destruct (inv_new_ref s T k p P n x r (s32 (last_id s + 1)) d t1 t2 Hi) as [G1 G2]; try done; try lia.
  { destruct (n =? _); lia. }
  eexists _, (Some r). split; [done|]. split; [exact G1|]. split; [exact G2|]. split.
  - intros m z Hz. simpl. destruct (decide (m = n)) as [->|]; [rewrite lookup_insert_eq|rewrite lookup_insert_ne by done; by eauto].
    rewrite Hx in Hz. injection Hz as <-. by eauto.
  - right. split; [done|]. right. exists r, d. split; [done|]. split; [done|]. split; [done|]. cbv zeta. split; [lia|done].
Qed.

(** ** New nodes *)

Lemma no_holds s T k n b : binder_inv s T k → node_at s !! n = None → kept T (context_mgr_node s) n b = Z.b2z (n =? 0) * Z.b2z (n =? context_mgr_node s).
Proof.
  intros Hi Hn. assert (holds T n b = 0) as E.
  { destruct (decide (holds T n b = 0)) as [|Hne]; [done|]. exfalso. unfold holds in Hne.
    destruct (filter (λ t, t = (n, b)) T) as [|t l] eqn:El; [done|].
    assert (t ∈ filter (λ t, t = (n, b)) T) as [-> Ht]%list_elem_of_filter by (rewrite El; by left).
    destruct (bi_holds _ _ _ Hi _ Ht) as (p & x & Hx & _). simpl in Hx. congruence. }
  unfold kept. rewrite E. destruct (Z.eqb_spec n (context_mgr_node s)) as [En|]; simpl; [|lia].
  destruct (bi_mgr _ _ _ Hi) as [Em|(p & x & Hx & _)]; [|congruence]. rewrite Em in En. by subst n.
Qed.

(** What a new node leaves alone. *)
Record new_world (s s' : binder) : Prop := {
  nw_refs : ref_at s' = ref_at s;
  nw_mgr : context_mgr_node s' = context_mgr_node s;
  nw_procs : ∀ p, is_Some (proc_at s' !! p) ↔ is_Some (proc_at s !! p);
  nw_lists : lists s' = lists s;
  nw_lproc : list_proc s' = list_proc s }.

Lemma inv_new_node s T k p P n ptr cookie id t :
  binder_inv s T k → proc_at s !! p = Some P → node_at s !! n = None → n ≠ 0 →
  let s' := with_node (next_id (with_proc s p (set_p_nodes P t))) n (mk_bnode id (Some p) ptr cookie [] 0 0 0 false false false false false 0) in
  (∀ key' S', (∀ q, S' q ↔ q = n ∨ owned s p q) → (∀ q, owned s p q → key' q = ptr_of s q) → key' n = ptr → keyed t key' S') →
  binder_inv s' T k ∧ (∀ q, is_Some (proc_at s' !! q) ↔ is_Some (proc_at s !! q)).
Proof.
  intros Hi HP Hn Hn0 s' K. pose proof Hi as [A B C D E F].
  assert (Hkept : ∀ b, kept T (context_mgr_node s) n b = 0).
  { intros b. rewrite (no_holds s T k n b) by done. destruct (Z.eqb_spec n 0); [done|simpl; lia]. }
  assert (Hne : ∀ q m, owned s q m → m ≠ n) by (intros q m (z & Hz & _) ->; congruence).
  assert (Hown : ∀ q m, owned s' q m ↔ q = p ∧ m = n ∨ owned s q m).
  { intros q m. unfold owned. simpl. destruct (decide (m = n)) as [->|].
    - rewrite lookup_insert_eq, Hn. split; [intros (z & [= <-] & [= <-]); by left|]. intros [[-> _]|(z & ? & _)]; [by eexists|done].
    - rewrite lookup_insert_ne by done. split; [by right|]. intros [[_ ?]|?]; done. }
  assert (Hptr : ∀ q, q ≠ n → ptr_of s' q = ptr_of s q) by (intros q Hq; unfold ptr_of; simpl; by rewrite lookup_insert_ne).
  assert (Hpr : ∀ q Q, proc_at s' !! q = Some Q → ∃ Q0, proc_at s !! q = Some Q0 ∧ refs_by_desc Q = refs_by_desc Q0 ∧
    refs_by_node Q = refs_by_node Q0 ∧ todo Q = todo Q0 ∧ (q ≠ p ∧ Q = Q0 ∨ q = p ∧ p_nodes Q = t)).
  { intros q Q. simpl. destruct (decide (q = p)) as [->|]; [rewrite lookup_insert_eq; intros [= <-]; exists P|
      rewrite lookup_insert_ne by done; intros HQ; exists Q]; do 4 (split; [done|]); [by right|by left]. }
  assert (Hdom : ∀ q, is_Some (proc_at s' !! q) ↔ is_Some (proc_at s !! q)).
  { intros q. simpl. destruct (decide (q = p)) as [->|]; [rewrite lookup_insert_eq, HP; done|by rewrite lookup_insert_ne]. }
  split; [|done]. split.
  - split.
    + intros q Q HQ. destruct (Hpr q Q HQ) as (Q0 & HQ0 & _ & _ & _ & [[Hq ->]|(-> & ->)]).
      * eapply keyed_ext; [|intros m Hm; apply Hptr; by eapply Hne|by apply (st_nodes _ _ A q Q0)]. intros m. rewrite Hown. tauto.
      * apply K; [intros m; rewrite Hown; tauto|intros m Hm; apply Hptr; by eapply Hne|]. unfold ptr_of. simpl. by rewrite lookup_insert_eq.
    + intros q Q HQ. destruct (Hpr q Q HQ) as (Q0 & HQ0 & -> & _). by apply (st_desc _ _ A q Q0).
    + intros q Q HQ. destruct (Hpr q Q HQ) as (Q0 & HQ0 & _ & -> & _). by apply (st_bynode _ _ A q Q0).
    + intros q Q HQ. destruct (Hpr q Q HQ) as (Q0 & HQ0 & _ & _ & -> & _). by apply (st_todo _ _ A q Q0).
    + intros h l m Hl Hm. destruct (st_lists _ _ A h l m Hl Hm) as (q & Hq & Ho). exists q. split; [done|]. apply Hown. by right.
    + intros m z q Hz Hq. apply Hdom. assert (owned s' q m) as [[-> _]|(w & Hw & Hwp)]%Hown by (by exists z); [by exists P|].
      by eapply (st_owner _ _ A m w).
    + intros m. simpl. rewrite (st_dead _ _ A). destruct (decide (m = n)) as [->|]; [|by rewrite lookup_insert_ne].
      rewrite lookup_insert_eq, Hn. split; [by intros (? & ? & _)|by intros (z & [= <-] & ?)].
  - intros m z. simpl. destruct (decide (m = n)) as [->|Hm]; [|rewrite lookup_insert_ne by done; apply B].
    rewrite lookup_insert_eq. intros [= <-]. split; simpl; rewrite ?Hkept, ?andb_false_r; try done; [constructor| |pose proof E; lia].
    intros r. split; [by intros ?%elem_of_nil|]. intros (y & Hy & Ey). destruct (ro_node _ _ _ (C r y Hy)) as [w Hw]. congruence.
  - intros q z Hz. destruct (C q z Hz). split; try done; [|by apply Hdom]. simpl.
    destruct (decide (r_node z = n)) as [->|]; [by rewrite lookup_insert_eq|by rewrite lookup_insert_ne].
  - intros t' Ht. destruct (D t' Ht) as (q & Hq). exists q. apply Hown. by right.
  - done.
  - destruct F as [F|[q F]]; [by left|right]. exists q. apply Hown. by right.
Qed.

Lemma new_node_spec s T k p mem ptr cookie :
  binder_inv s T k → is_Some (proc_at s !! p) → (∀ n, mem = Some n → addr n ∧ node_at s !! n = None) →
  ∃ s' res, binder_new_node s p mem ptr cookie = Some (s', res) ∧ binder_inv s' T k ∧ new_world s s' ∧
    ((∃ n x, node_at s !! n = Some x ∧ n_proc x = Some p ∧ n_ptr x = ptr ∧ res = None ∧ s' = s) ∨
     (∀ n x, node_at s !! n = Some x → n_proc x = Some p → n_ptr x ≠ ptr) ∧
     (mem = None ∧ res = None ∧ s' = s ∨
      ∃ n, mem = Some n ∧ res = Some n ∧
        node_at s' = <[n := mk_bnode (last_id s') (Some p) ptr cookie [] 0 0 0 false false false false false 0]> (node_at s))).
Proof.
  intros Hi [P HP] Hmem. unfold binder_new_node. rewrite HP. cbn [mbind option_bind].
  destruct (keyed_search _ _ _ ptr (λ n, x ← node_at s !! n; Some (ptr - n_ptr x)) (st_nodes _ _ (bi_struct _ _ _ Hi) p P HP))
    as [(n & -> & (x & Hn & Hp) & E)|(link & parent & -> & Hne & Hins)].
  { intros n (x & Hn & _). unfold ptr_of. by rewrite Hn. }
  { cbn [mbind option_bind]. exists s, None. split; [done|]. split; [done|]. split; [by split|].
    left. exists n, x. unfold ptr_of in E. rewrite Hn in E. done. }
  assert (Hnew : ∀ n x, node_at s !! n = Some x → n_proc x = Some p → n_ptr x ≠ ptr).
  { intros n x Hn Hp E. apply (Hne n); [by exists x|]. unfold ptr_of. by rewrite Hn. }
  cbn [mbind option_bind]. destruct mem as [n|].
  - destruct (Hmem n eq_refl) as [Ha Hn]. destruct (Hins n Ha) as (t1 & t & -> & Hc & K); [intros (x & Hx & _); congruence|].
    cbn [mbind option_bind]. rewrite Hc. cbn [mbind option_bind].
    destruct (inv_new_node s T k p P n ptr cookie (s32 (last_id s + 1)) t Hi HP Hn) as [G1 G2]; [destruct Ha; lia|done|].
    eexists _, (Some n). split; [done|]. split; [exact G1|]. split; [by split|]. right. split; [done|]. right. by exists n.
  - exists s, None. split; [done|]. split; [done|]. split; [by split|]. right. split; [done|by left].
Qed.

(** ** The commands preserve the invariant *)

Lemma inv_mono s T k k' : binder_inv s T k → k ≤ k' → binder_inv s T k'.
Proof.
  intros [A B C D E F] Hk. split; try done; [intros n x Hn; by apply node_ok_mono with k; auto|intros r y Hr|lia].
  destruct (C r y Hr). split; try done; lia.
Qed.

Lemma bc_refs_spec s T k p cmd target mem :
  binder_inv s T k → k + 1 < max_ops → is_Some (proc_at s !! p) →
  (target = 0 → is_Some mem) → (∀ r, mem = Some r → addr r ∧ ref_at s !! r = None) →
  ∃ s', bc_refs s p cmd target mem = Some s' ∧ binder_inv s' T (k + 2) ∧ same_world s s'.
Proof.
  intros Hi Hk [P HP] Hm Hmem. unfold bc_refs.
  assert (Hfind : ∃ s1 ref, (if (target =? 0) && ctrue (context_mgr_node s) && (match cmd with BC_INCREFS | BC_ACQUIRE => true | _ => false end)
    then '(s, ref) ← binder_get_ref_for_node s p (context_mgr_node s) mem; r ← ref; _ ← ref_at s !! r; Some (s, Some r)
    else ref ← binder_get_ref s p target; Some (s, ref)) = Some (s1, ref) ∧ binder_inv s1 T (k + 1) ∧ same_world s s1 ∧
    ∀ r, ref = Some r → is_Some (ref_at s1 !! r)).
  { destruct ((target =? 0) && _ && _) eqn:Hc.
    - apply andb_true_iff in Hc as [[Ht%Z.eqb_eq Hctx]%andb_true_iff _].
      destruct (bi_mgr _ _ _ Hi) as [E|(q & x & Hx & _)]; [by rewrite E in Hctx|].
      destruct (get_ref_for_node_spec s T k p (context_mgr_node s) mem) as (s1 & res & -> & Hi1 & Hw1 & _ & Hcase); try done; [lia|].
      cbn [mbind option_bind].
      destruct Hcase as [(r & y & -> & Hy & _ & _ & ->)|[_ [(-> & _)|(r & d & _ & -> & Hr1 & _)]]].
      + cbn [mbind option_bind]. rewrite Hy. cbn [mbind option_bind]. exists s, (Some r). split_and!; try done. by intros r' [= <-].
      + by destruct (Hm Ht).
      + cbn [mbind option_bind].
        assert (is_Some (ref_at s1 !! r)) as [y Hy] by (rewrite Hr1, lookup_insert_eq; by eexists).
        rewrite Hy. cbn [mbind option_bind]. exists s1, (Some r). split_and!; try done. by intros r' [= <-].
    - destruct (get_ref_spec s (held s) p P target (bi_struct _ _ _ Hi)) as [(r & y & -> & Hy & _)|[-> _]]; try done; cbn [mbind option_bind].
      + exists s, (Some r). split_and!; try done; [eapply inv_mono; [done|lia]|apply same_world_refl|by intros r' [= <-]].
      + exists s, None. split_and!; try done; [eapply inv_mono; [done|lia]|apply same_world_refl]. }
  destruct Hfind as (s1 & ref & -> & Hi1 & Hw1 & Href). cbn [mbind option_bind].
  destruct ref as [r|]; [|exists s1; split_and!; [done|eapply inv_mono; [done|lia]|done]].
  destruct (Href r eq_refl) as [y Hy].
  assert (Hinc : ∀ b, ∃ s', ('(s, _) ← binder_inc_ref s1 r b None; Some s) = Some s' ∧ binder_inv s' T (k + 2) ∧ same_world s s').
  { intros b. destruct (inc_ref_spec s1 T (k + 1) r y b None Hi1) as (s' & ret & -> & Hi' & Hw' & _); try done. cbn [mbind option_bind].
    exists s'. split; [done|]. split; [eapply inv_mono; [done|lia]|by eapply same_world_trans]. }
  assert (Hdec : ∀ b, ∃ s', ('(s, _) ← binder_dec_ref s1 r b; Some s) = Some s' ∧ binder_inv s' T (k + 2) ∧ same_world s s').
  { intros b. destruct (dec_ref_spec s1 T (k + 1) r y b Hi1) as (s' & ret & -> & Hi' & Hw' & _); try done. cbn [mbind option_bind].
    exists s'. split; [done|]. split; [eapply inv_mono; [done|lia]|by eapply same_world_trans]. }
  destruct cmd; auto.
Qed.

Lemma br_work_spec s T k h :
  binder_inv s T k → k < max_ops → is_Some (lists s !! h) → is_Some (list_proc s !! h) →
  ∃ s' cmd, br_work s h = Some (s', cmd) ∧ binder_inv s' T k ∧ same_refs s s'.
Proof.
  intros Hi Hk [l Hl] [p Hp]. unfold br_work. rewrite Hl, Hp. cbn [mbind option_bind].
  assert (Hsame : ∃ s' cmd, Some (s, BR_NOOP) = Some (s', cmd) ∧ binder_inv s' T k ∧ same_refs s s') by (eexists _, _; eauto using same_refs_refl).
  destruct l as [|[n|d|o] l]; try done.
  destruct (st_lists _ _ (bi_struct _ _ _ Hi) h _ n Hl) as (q & Hq & x & Hx & Hxp); [by left|].
  assert (q = p) as -> by congruence.
  destruct (br_node_spec s T k p n x Hi Hk Hx Hxp) as (s' & cmd & Hrun & Hi' & Hr' & _). by eauto 6.
Qed.

Lemma set_mgr_spec s T k mgr_uid p euid mem :
  binder_inv s T k → is_Some (proc_at s !! p) → (∀ n, mem = Some n → addr n ∧ node_at s !! n = None) →
  ∃ s' uid ret, set_context_mgr s mgr_uid p euid mem = Some (s', uid, ret) ∧ binder_inv s' T k ∧
    ref_at s' = ref_at s ∧ lists s' = lists s ∧ list_proc s' = list_proc s ∧
    (∀ q, is_Some (proc_at s' !! q) ↔ is_Some (proc_at s !! q)) ∧
    ∀ m z, node_at s !! m = Some z → node_at s' !! m = Some z.
Proof.
  intros Hi HP Hmem. unfold set_context_mgr.
  assert (Hsame : ∀ uid ret : Z, ∃ s' uid' ret', Some (s, uid, ret) = Some (s', uid', ret') ∧ binder_inv s' T k ∧
    ref_at s' = ref_at s ∧ lists s' = lists s ∧ list_proc s' = list_proc s ∧
    (∀ q, is_Some (proc_at s' !! q) ↔ is_Some (proc_at s !! q)) ∧
    ∀ m z, node_at s !! m = Some z → node_at s' !! m = Some z) by (intros uid ret; eexists _, _, _; split; [done|]; by auto).
  destruct (ctrue (context_mgr_node s)) eqn:Hc; [done|]. apply ctrue_false in Hc.
  destruct (negb _ && negb _); [done|]. set (uid := if mgr_uid =? no_uid then euid else mgr_uid).
  destruct (new_node_spec s T k p mem 0 0 Hi HP Hmem) as (s1 & res & -> & Hi1 & Hw & Hcase). cbn [mbind option_bind].
  assert (Hid : with_mgr s 0 = s) by (destruct s; simpl in *; by rewrite Hc).
  destruct Hcase as [(n & x & _ & _ & _ & -> & ->)|[_ [(_ & -> & ->)|(n & -> & -> & Hn1)]]]; [rewrite Hid; apply Hsame..|].
  destruct (Hmem n eq_refl) as [Ha Hn]. set (x1 := mk_bnode _ _ _ _ _ _ _ _ _ _ _ _ _ _) in Hn1.
  assert (Hx1 : node_at s1 !! n = Some x1) by (by rewrite Hn1, lookup_insert_eq). rewrite Hx1. cbn [mbind option_bind].
  eexists _, uid, 0. split; [done|]. destruct Hw as [Wr Wm Wp Wl Wlp]. pose proof (no_holds s T k n) as Hno.
  split; [|split_and!; try done].
  2:{ intros m z Hz. simpl. rewrite Hn1, !lookup_insert_ne; [done|congruence..]. }
  set (x2 := set_flags _ _ _ _ _).
  destruct (struct_with_node s1 (held s1) n x1 x2 (bi_struct _ _ _ Hi1) Hx1) as [[A1 A2 A3 A4 A5 A6 A7] _]; [done|done|].
  destruct Hi1 as [A B C D E F]. assert (n ≠ 0) by (destruct Ha; lia).
  assert (Hkept : ∀ m b, m ≠ 0 → m ≠ n → kept T n m b = kept T (context_mgr_node s1) m b).
  { intros m b Hm Hmn. unfold kept. rewrite Wm, Hc. destruct (Z.eqb_spec m n), (Z.eqb_spec m 0); done. }
  split; simpl; try done.
  - intros m z. destruct (decide (m = n)) as [->|Hm].
    + rewrite lookup_insert_eq. intros [= <-]. pose proof (B n x1 Hx1) as [? ? ? ? ? Hls Hlw ? ?]. unfold kept in Hls, Hlw.
      rewrite Wm, Hc in *. destruct (Z.eqb_spec n 0); [done|]. simpl in Hls, Hlw.
      split; simpl; try done; unfold kept; rewrite Z.eqb_refl; rewrite s32_small by lia; simpl in *; lia.
    + rewrite lookup_insert_ne by done. intros Hz. pose proof (B m z Hz) as Hzk.
      eapply node_ok_ext; [done|done| |exact Hzk]. intros b. apply Hkept; [by destruct Hzk|done].
  - intros r y Hr. destruct (C r y Hr). split; try done. simpl.
    destruct (decide (r_node y = n)) as [->|]; [by rewrite lookup_insert_eq|by rewrite lookup_insert_ne].
  - intros t Ht. destruct (D t Ht) as (q & Hq). exists q. by apply (owned_with_node s1 n x1 x2 q Hx1 eq_refl).
  - right. exists p, x2. simpl. by rewrite lookup_insert_eq.
Qed.

(** ** What the owner of a node is told *)

(** The reader takes turns on a node until nothing is left to tell. *)
Fixpoint br_drain (fuel : nat) (s : binder) (p n : Z) : option (binder * list node_cmd) :=
  match fuel with
  | O => None
  | S fuel =>
      '(s, cmd) ← br_node s p n;
      match cmd with
      | BR_NOOP => Some (s, [])
      | _ => '(s, cmds) ← br_drain fuel s p n; Some (s, cmd :: cmds)
      end
  end.

(** The owner's view of its node, (strong, weak), and what a command makes of it;
    [None] if the command makes no sense to it. *)
Definition hear (view : bool * bool) (cmd : node_cmd) : option (bool * bool) :=
  match cmd, view with
  | BR_INCREFS, (st, false) => Some (st, true)
  | BR_ACQUIRE, (false, wk) => Some (true, wk)
  | BR_RELEASE, (true, wk) => Some (false, wk)
  | BR_DECREFS, (st, true) => Some (st, false)
  | _, _ => None
  end.

Fixpoint hear_all (view : bool * bool) (cmds : list node_cmd) : option (bool * bool) :=
  match cmds with
  | [] => Some view
  | c :: cmds => view ← hear view c; hear_all view cmds
  end.

Definition view_gap (x : binder_node) : nat :=
  (if eqb (has_strong_ref x) (n_strong x) then 0 else 1) + (if eqb (has_weak_ref x) (n_weak x) then 0 else 1).

Lemma br_drain_spec s T k p n x fuel :
  binder_inv s T k → k < max_ops → node_at s !! n = Some x → n_proc x = Some p → (view_gap x < fuel)%nat →
  ∃ s' cmds, br_drain fuel s p n = Some (s', cmds) ∧ binder_inv s' T k ∧
    hear_all (has_strong_ref x, has_weak_ref x) cmds = Some (n_strong x, n_weak x) ∧
    (∀ h l, lists s' !! h = Some l → WNode n ∉ l) ∧
    if n_weak x then ∃ x', node_at s' !! n = Some x' ∧ (has_strong_ref x', has_weak_ref x') = (n_strong x, n_weak x)
    else node_at s' !! n = None.
Proof.
  intros Hi Hk. revert s x Hi. induction fuel as [|fuel IH]; intros s x Hi Hn Hp Hg; [lia|]. simpl.
  destruct (br_node_spec s T k p n x Hi Hk Hn Hp) as (s1 & cmd & -> & Hi1 & Hr1 & Hcmd). cbn [mbind option_bind].
  assert (Hmore : ∀ x1, lists s1 = lists s → node_at s1 = <[n := x1]> (node_at s) → n_proc x1 = Some p → n_strong x1 = n_strong x → n_weak x1 = n_weak x →
    (view_gap x1 < fuel)%nat → hear (has_strong_ref x, has_weak_ref x) cmd = Some (has_strong_ref x1, has_weak_ref x1) →
    ∃ s' cmds, ('(s, cmds) ← br_drain fuel s1 p n; Some (s, cmd :: cmds)) = Some (s', cmds) ∧ binder_inv s' T k ∧
    hear_all (has_strong_ref x, has_weak_ref x) cmds = Some (n_strong x, n_weak x) ∧
    (∀ h l, lists s' !! h = Some l → WNode n ∉ l) ∧
    if n_weak x then ∃ x', node_at s' !! n = Some x' ∧ (has_strong_ref x', has_weak_ref x') = (n_strong x, n_weak x)
    else node_at s' !! n = None).
  { intros x1 _ Hn1 Hp1 Es Ew Hf Hh. destruct (IH s1 x1 Hi1) as (s' & cmds & -> & Hi' & Hall & Hend); try done.
    { by rewrite Hn1, lookup_insert_eq. }
    cbn [mbind option_bind]. exists s', (cmd :: cmds). split; [done|]. split; [done|]. rewrite <- Es, <- Ew. split; [|done].
    cbn [hear_all]. rewrite Hh. done. }
  destruct cmd.
  { destruct Hcmd as (Hl & Es & Ew & En). exists s1, []. split; [done|]. split; [done|]. split; [simpl; by rewrite Es, Ew|]. split; [done|].
    rewrite En. destruct (n_weak x) eqn:E; [|by rewrite lookup_delete_eq]. exists x. split; [done|]. by rewrite Es, Ew. }
  all: destruct Hcmd as (Hl & x1 & Hn1 & Hp1 & Es & Ew & H1 & H2 & H3 & H4); apply (Hmore x1); try done;
    unfold view_gap in *; rewrite ?Es, ?Ew, ?H1, ?H2, ?H3, ?H4 in *; simpl in *;
    repeat match goal with |- context [eqb ?a ?b] => destruct (eqb a b) end; simpl in *; try lia; done.
Qed.

(** ** Two processes that have just opened the device *)

Definition new_proc (list : Z) : ref_proc := mk_rproc (mk_mem ∅ 0) (mk_mem ∅ 0) (mk_mem ∅ 0) list.

(** Process 100 with the list 104 and a thread with the list 108; process 200
    with the list 204 and a thread with the list 208. *)
Definition boot : binder :=
  mk_binder ∅ ∅ (<[100 := new_proc 104]> {[200 := new_proc 204]})
    (<[104 := []]> (<[108 := []]> (<[204 := []]> {[208 := []]})))
    (<[104 := 100]> (<[108 := 100]> (<[204 := 200]> {[208 := 200]}))) [] 0 0.

Lemma boot_proc p P : proc_at boot !! p = Some P → p = 100 ∧ P = new_proc 104 ∨ p = 200 ∧ P = new_proc 204.
Proof. simpl. intros [[<- <-]|[_ [<- <-]%lookup_singleton_Some]]%lookup_insert_Some; auto. Qed.

Lemma boot_inv : binder_inv boot [] 0.
Proof.
  split; simpl; try done; [|by intros ? ?%elem_of_nil|by left].
  split.
  - intros p P HP. apply (keyed_ext _ (ptr_of boot) _ (λ _, False)); [|done|].
    + intros m. split; [done|]. by intros (? & ? & _).
    + destruct (boot_proc p P HP) as [[_ ->]|[_ ->]]; apply keyed_empty.
  - intros p P HP. apply (keyed_ext _ (desc_of boot) _ (λ _, False)); [|done|].
    + intros m. split; [done|]. by intros (? & ? & _).
    + destruct (boot_proc p P HP) as [[_ ->]|[_ ->]]; apply keyed_empty.
  - intros p P HP. apply (keyed_ext _ (rnode_of boot) _ (λ _, False)); [|done|].
    + intros m. split; [done|]. by intros (? & ? & _).
    + destruct (boot_proc p P HP) as [[_ ->]|[_ ->]]; apply keyed_empty.
  - intros p P HP. destruct (boot_proc p P HP) as [[-> ->]|[-> ->]]; split; by eauto.
  - intros h l n Hl Hn. assert (l = []) as ->; [|by apply elem_of_nil in Hn]. simpl in Hl.
      rewrite !lookup_insert_Some, lookup_singleton_Some in Hl. naive_solver.
  - done.
  - intros n. simpl. split; [by intros ?%elem_of_nil|by intros (? & ? & _)].
Qed.

(** ** Theorems *)

(** C21: A process has at most one reference to a node, and asking for it gives it:
    the one that exists, unchanged, or, if there is memory, a new one without
    counts under the smallest descriptor that is free (from 0 on for the context
    manager, from 1 on for any other node).  The descriptor leads back to the
    reference.  The BUG on a taken descriptor is never reached. *)
Theorem binder_ref_for_node_correct s T k p n mem :
  binder_inv s T k → k < max_ops → is_Some (proc_at s !! p) → is_Some (node_at s !! n) →
  (∀ r, mem = Some r → addr r ∧ ref_at s !! r = None) →
  ∃ s' res, binder_get_ref_for_node s p n mem = Some (s', res) ∧ binder_inv s' T (k + 1) ∧
    match res with
    | None => mem = None ∧ s' = s ∧ ∀ r y, ref_at s !! r = Some y → r_proc y = p → r_node y ≠ n
    | Some r => ∃ y, ref_at s' !! r = Some y ∧ r_proc y = p ∧ r_node y = n ∧
        binder_get_ref s' p (desc y) = Some (Some r) ∧
        (∀ q z, ref_at s' !! q = Some z → r_proc z = p → r_node z = n → q = r) ∧
        (s' = s ∨
         mem = Some r ∧ ref_at s' = <[r := y]> (ref_at s) ∧ strong y = 0 ∧ weak y = 0 ∧
         let start := if n =? context_mgr_node s then 0 else 1 in
         start ≤ desc y ∧ (∀ q z, ref_at s !! q = Some z → r_proc z = p → desc z ≠ desc y) ∧
         ∀ c, start ≤ c < desc y → ∃ q z, ref_at s !! q = Some z ∧ r_proc z = p ∧ desc z = c)
    end.
Proof.
  intros Hi Hk Hp Hn Hm. destruct (get_ref_for_node_spec s T k p n mem Hi Hk Hp Hn Hm) as (s' & res & Hrun & Hi' & Hw & _ & Hcase).
  exists s', res. split; [done|]. split; [done|].
  assert (Hfind : ∀ r y, ref_at s' !! r = Some y → r_proc y = p → r_node y = n →
    binder_get_ref s' p (desc y) = Some (Some r) ∧ ∀ q z, ref_at s' !! q = Some z → r_proc z = p → r_node z = n → q = r).
  { intros r y Hr Hrp Hrn. destruct (sw_procs _ _ Hw p) as [_ HP]. destruct (HP Hp) as [P HP'].
    pose proof (bi_struct _ _ _ Hi') as Hs'. split.
    - destruct (get_ref_spec s' (held s') p P (desc y) Hs') as [(q & z & -> & Hz & Hq & E)|[_ Hno]]; try done.
      + do 2 f_equal. eapply (keyed_inj _ (desc_of s') (held s' p)); [by apply (st_desc _ _ Hs')|done|by exists y|].
        unfold desc_of. by rewrite Hz, Hr.
      + exfalso. apply (Hno r y Hr); [by exists y|done].
    - intros q z Hz Hzp Hzn. eapply (keyed_inj _ (rnode_of s') (held s' p)); [by apply (st_bynode _ _ Hs')|by exists z|by exists y|].
      unfold rnode_of. rewrite Hz, Hr. simpl. congruence. }
  destruct Hcase as [(r & y & -> & Hr & Hrp & Hrn & ->)|[Hno [(-> & -> & ->)|(r & d & -> & -> & Hr' & Hd)]]].
  - exists y. split; [done|]. split; [done|]. split; [done|]. destruct (Hfind r y Hr Hrp Hrn). auto.
  - done.
  - exists (mk_bref (last_id s') p n d 0 0 None).
    assert (Hr : ref_at s' !! r = Some (mk_bref (last_id s') p n d 0 0 None)) by (by rewrite Hr', lookup_insert_eq).
    split; [done|]. split; [done|]. split; [done|]. destruct (Hfind r _ Hr eq_refl eq_refl) as [F1 F2]. split; [done|]. split; [done|].
    right. split_and!; done.
Qed.

(** C22: When the work item of a node comes up, the reader tells the owner what has
    changed in at most two commands: each makes sense to an owner that knows what
    it was told before, and together they bring its view (strongly and weakly
    referred to) to what the counts say.  Then the item is on no list, and a node
    that nothing refers to is gone. *)
Theorem binder_node_drained s T k p n x :
  binder_inv s T k → k < max_ops → node_at s !! n = Some x → n_proc x = Some p →
  ∃ s' cmds, br_drain 3 s p n = Some (s', cmds) ∧ binder_inv s' T k ∧
    hear_all (has_strong_ref x, has_weak_ref x) cmds = Some (n_strong x, n_weak x) ∧
    (∀ h l, lists s' !! h = Some l → WNode n ∉ l) ∧
    if n_weak x then ∃ x', node_at s' !! n = Some x' ∧ (has_strong_ref x', has_weak_ref x') = (n_strong x, n_weak x)
    else node_at s' !! n = None.
Proof.
  intros Hi Hk Hn Hp. apply br_drain_spec; try done. unfold view_gap. destruct (eqb _ _), (eqb _ _); lia.
Qed.

(** ** Witnesses *)

(** Process 100 offers node 64, process 200 gets reference 128 to it. *)
Lemma binder_ref_for_node_correct_witness :
  ∃ s1 s2 y, binder_new_node boot 100 (Some 64) 4096 8192 = Some (s1, Some 64) ∧
    binder_get_ref_for_node s1 200 64 (Some 128) = Some (s2, Some 128) ∧ ref_at s2 !! 128 = Some y ∧ 1 ≤ desc y ∧
    binder_get_ref s2 200 (desc y) = Some (Some 128).
Proof.
  destruct (new_node_spec boot [] 0 100 (Some 64) 4096 8192 boot_inv) as (s1 & res & Hrun & Hi & [Wr Wm Wp _ _] & Hcase).
  - vm_compute. eauto.
  - intros n [= <-]. split; [|reflexivity]. split; [lia|]. exists 16. lia.
  - destruct Hcase as [(n & x & Hn & _)|[_ [(H0 & _)|(n & [= <-] & -> & Hn)]]]; [discriminate|discriminate|].
    destruct (binder_ref_for_node_correct s1 [] 0 200 64 (Some 128)) as (s2 & res & Hget & Hi2 & Hres).
    + exact Hi.
    + reflexivity.
    + apply Wp. vm_compute. eauto.
    + rewrite Hn, lookup_insert_eq. eauto.
    + intros r [= <-]. split; [split; [lia|]; exists 32; lia|]. rewrite Wr. reflexivity.
    + destruct res as [r|]; [|by destruct Hres as [? _]].
      destruct Hres as (y & Hy & Hyp & Hyn & Hfind & _ & [E|([= <-] & _ & _ & _ & Hst & _)]).
      { exfalso. subst s2. rewrite Wr in Hy. discriminate. }
      exists s1, s2, y. split; [exact Hrun|]. split; [exact Hget|]. split; [exact Hy|]. split; [|exact Hfind].
      rewrite Wm in Hst. exact Hst.
Defined.

(** The node of an owner whom nothing was told yet, with nothing to tell. *)
Lemma binder_node_drained_witness :
  ∃ s1 s2 ret s3 cmds, binder_new_node boot 100 (Some 64) 4096 8192 = Some (s1, Some 64) ∧
    binder_inc_node s1 64 true false None = Some (s2, ret) ∧
    br_drain 3 s2 100 64 = Some (s3, cmds) ∧ hear_all (false, false) cmds = Some (true, true) ∧
    ∃ x', node_at s3 !! 64 = Some x' ∧ (has_strong_ref x', has_weak_ref x') = (true, true).
Proof.
  destruct (new_node_spec boot [] 0 100 (Some 64) 4096 8192 boot_inv) as (s1 & res & Hrun & Hi & _ & Hcase).
  - vm_compute. eauto.
  - intros n [= <-]. split; [|reflexivity]. split; [lia|]. exists 16. lia.
  - destruct Hcase as [(n & x & Hn & _)|[_ [(H0 & _)|(n & [= <-] & -> & Hn)]]]; [discriminate|discriminate|].
    set (x := mk_bnode (last_id s1) (Some 100) 4096 8192 [] 0 0 0 false false false false false 0) in *.
    destruct (inc_local s1 [] 0 64 x 100 true Hi) as (s2 & ret & Hinc & Hi2 & _ & Hn2); [done|rewrite Hn; apply lookup_insert_eq|done|].
    destruct (binder_node_drained s2 [(64, true)] 1 100 64 (counted x true false 1))
      as (s3 & cmds & Hdrain & _ & Hhear & _ & Hend).
    + exact Hi2.
    + reflexivity.
    + rewrite Hn2. apply lookup_insert_eq.
    + reflexivity.
    + exists s1, s2, ret, s3, cmds. split; [exact Hrun|]. split; [exact Hinc|]. split; [exact Hdrain|]. split; [exact Hhear|exact Hend].
Defined.
