(* ===== verification/BinderObj.v ===== *)
(** The objects in a binder transaction (drivers/staging/android/binder.c): what
    [binder_transaction] does to each flat_binder_object of the data it copies,
    how the target is found and held, what is undone when it fails, and what
    [binder_transaction_buffer_release] gives back.

    The data of a buffer is a list of 32-bit words; an object is four words at an
    offset that the sender chose.  Memory from kzalloc, the receiver's new file
    descriptors and the success of copy_from_user are inputs. *)

From S2P Require Import Prelude RbTree RbErase BinderRef.

(** ** Data *)

Definition B_TYPE_LARGE : Z := 133.
Definition B_PACK_CHARS (c1 c2 c3 c4 : Z) : Z :=
  Z.lor (Z.lor (Z.lor (Z.shiftl c1 24) (Z.shiftl c2 16)) (Z.shiftl c3 8)) c4.
Definition BINDER_TYPE_BINDER : Z := Eval cbv in B_PACK_CHARS 115 98 42 B_TYPE_LARGE.
Definition BINDER_TYPE_WEAK_BINDER : Z := Eval cbv in B_PACK_CHARS 119 98 42 B_TYPE_LARGE.
Definition BINDER_TYPE_HANDLE : Z := Eval cbv in B_PACK_CHARS 115 104 42 B_TYPE_LARGE.
Definition BINDER_TYPE_WEAK_HANDLE : Z := Eval cbv in B_PACK_CHARS 119 104 42 B_TYPE_LARGE.
Definition BINDER_TYPE_FD : Z := Eval cbv in B_PACK_CHARS 102 100 42 B_TYPE_LARGE.
Definition FLAT_BINDER_FLAG_PRIORITY_MASK : Z := 255.
Definition FLAT_BINDER_FLAG_ACCEPTS_FDS : Z := 256.

(** [f_val] is the union of [binder] and [handle]. *)
Record flat_binder_object := mk_flat {
  f_type : Z;
  f_flags : Z;
  f_val : Z;
  f_cookie : Z }.

(** [sizeof(struct flat_binder_object)]. *)
Definition FLAT : Z := 16.

(** Whether an object may lie at this offset of [size] bytes of data. *)
Definition offset_ok (size off : Z) : bool :=
  negb ((off >? u32 (size - FLAT)) || (size <? FLAT) || negb (off mod 4 =? 0)).

Definition load_obj (data : list Z) (off : Z) : option flat_binder_object :=
  let i := Z.to_nat (off / 4) in
  t ← data !! i; f ← data !! (i + 1)%nat; v ← data !! (i + 2)%nat; c ← data !! (i + 3)%nat;
  Some (mk_flat t f v c).

(** The fields that are rewritten: type, binder or handle, cookie. *)
Definition store_obj (data : list Z) (off : Z) (fp : flat_binder_object) : list Z :=
  let i := Z.to_nat (off / 4) in
  <[i := f_type fp]> (<[(i + 2)%nat := f_val fp]> (<[(i + 3)%nat := f_cookie fp]> data)).

(** ** Translating an object *)

Definition set_prio (x : binder_node) (prio : Z) (fds : bool) : binder_node :=
  mk_bnode (n_debug_id x) (n_proc x) (n_ptr x) (n_cookie x) (n_refs x) (internal_strong_refs x) (local_weak_refs x)
    (local_strong_refs x) (has_strong_ref x) (pending_strong_ref x) (has_weak_ref x) (pending_weak_ref x) fds prio.

(** The sender's node for an object, which is created when it is new. *)
Definition sender_node (s : binder) (proc : Z) (mem : option Z) (fp : flat_binder_object) : option (binder * option Z) :=
  found ← binder_get_node s proc (f_val fp);
  match found with
  | Some n => Some (s, Some n)
  | None =>
      '(s, node) ← binder_new_node s proc mem (f_val fp) (f_cookie fp);
      match node with
      | None => Some (s, None)
      | Some n =>
          x ← node_at s !! n;
          let x := set_prio x (Z.land (f_flags fp) FLAT_BINDER_FLAG_PRIORITY_MASK)
                     (ctrue (Z.land (f_flags fp) FLAT_BINDER_FLAG_ACCEPTS_FDS)) in
          Some (with_node s n x, Some n)
      end
  end.

(** A node of the sender becomes a reference of the receiver.  [todo] is the todo
    list of the sending thread.  The result is [None] when the transaction fails
    with BR_FAILED_REPLY. *)
Definition xlate_binder (s : binder) (proc todo target : Z) (mem_node mem_ref : option Z) (fp : flat_binder_object)
    : option (binder * option flat_binder_object) :=
  '(s, node) ← sender_node s proc mem_node fp;
  match node with
  | None => Some (s, None)
  | Some n =>
      x ← node_at s !! n;
      if negb (f_cookie fp =? n_cookie x) then Some (s, None)
      else
        '(s, ref) ← binder_get_ref_for_node s target n mem_ref;
        match ref with
        | None => Some (s, None)
        | Some r =>
            y ← ref_at s !! r;
            let type := if f_type fp =? BINDER_TYPE_BINDER then BINDER_TYPE_HANDLE else BINDER_TYPE_WEAK_HANDLE in
            '(s, _) ← binder_inc_ref s r (type =? BINDER_TYPE_HANDLE) (Some todo);
            Some (s, Some (mk_flat type (f_flags fp) (desc y) (f_cookie fp)))
        end
  end.

(** A reference of the sender becomes the receiver's own node, or a reference of
    the receiver to the same node. *)
Definition xlate_handle (s : binder) (proc target : Z) (mem_ref : option Z) (fp : flat_binder_object)
    : option (binder * option flat_binder_object) :=
  ref ← binder_get_ref s proc (u32 (f_val fp));
  match ref with
  | None => Some (s, None)
  | Some r =>
      y ← ref_at s !! r;
      x ← node_at s !! r_node y;
      if bool_decide (n_proc x = Some target) then
        let type := if f_type fp =? BINDER_TYPE_HANDLE then BINDER_TYPE_BINDER else BINDER_TYPE_WEAK_BINDER in
        '(s, _) ← binder_inc_node s (r_node y) (type =? BINDER_TYPE_BINDER) false None;
        Some (s, Some (mk_flat type (f_flags fp) (n_ptr x) (n_cookie x)))
      else
        '(s, new_ref) ← binder_get_ref_for_node s target (r_node y) mem_ref;
        match new_ref with
        | None => Some (s, None)
        | Some r' =>
            y' ← ref_at s !! r';
            '(s, _) ← binder_inc_ref s r' (f_type fp =? BINDER_TYPE_HANDLE) None;
            Some (s, Some (mk_flat (f_type fp) (f_flags fp) (desc y') (f_cookie fp)))
        end
  end.

(** Whether files may be sent: the target node says so, or, in a reply, the
    transaction that is replied to. *)
Definition fds_allowed (s : binder) (target_node : option Z) (reply_fds : bool) : option bool :=
  match target_node with
  | None => Some reply_fds
  | Some n => x ← node_at s !! n; Some (accept_fds x)
  end.

(** What a transaction is given from outside while it runs: memory for a node and
    a reference for each object, and the receiver's descriptor for a file ([None]:
    no such file, or no descriptor left). *)
Record supplies := mk_supplies {
  sup_mem : list (option Z * option Z);
  sup_fd : Z → option Z }.

Definition xlate_obj (s : binder) (proc todo target : Z) (target_node : option Z) (reply_fds : bool)
    (fd : Z → option Z) (mem : option Z * option Z) (fp : flat_binder_object)
    : option (binder * option flat_binder_object) :=
  if (f_type fp =? BINDER_TYPE_BINDER) || (f_type fp =? BINDER_TYPE_WEAK_BINDER)
  then xlate_binder s proc todo target mem.1 mem.2 fp
  else if (f_type fp =? BINDER_TYPE_HANDLE) || (f_type fp =? BINDER_TYPE_WEAK_HANDLE)
  then xlate_handle s proc target mem.2 fp
  else if f_type fp =? BINDER_TYPE_FD then
    allowed ← fds_allowed s target_node reply_fds;
    if negb allowed then Some (s, None)
    else match fd (f_val fp) with
         | None => Some (s, None)
         | Some target_fd => Some (s, Some (mk_flat (f_type fp) (f_flags fp) target_fd (f_cookie fp)))
         end
  else Some (s, None).

(** The objects of a transaction in the order of the offsets; the result says at
    which one it failed. *)
Fixpoint xlate_loop (s : binder) (proc todo target : Z) (target_node : option Z) (reply_fds : bool) (fd : Z → option Z)
    (size : Z) (mems : list (option Z * option Z)) (data : list Z) (offs : list Z) (i : nat) : option (binder * list Z * option nat) :=
  match offs with
  | [] => Some (s, data, None)
  | off :: offs =>
      if negb (offset_ok size off) then Some (s, data, Some i)
      else
        fp ← load_obj data off;
        '(s, res) ← xlate_obj s proc todo target target_node reply_fds fd (default (None, None) (head mems)) fp;
        match res with
        | None => Some (s, data, Some i)
        | Some fp => xlate_loop s proc todo target target_node reply_fds fd size (tail mems) (store_obj data off fp) offs (S i)
        end
  end.

(** ** Releasing a buffer *)

(** The second result is the descriptors of the receiver that are closed. *)
Definition release_obj (s : binder) (proc : Z) (failed : bool) (fp : flat_binder_object) : option (binder * list Z) :=
  if (f_type fp =? BINDER_TYPE_BINDER) || (f_type fp =? BINDER_TYPE_WEAK_BINDER) then
    node ← binder_get_node s proc (f_val fp);
    match node with
    | None => Some (s, [])
    | Some n => s ← binder_dec_node s n (f_type fp =? BINDER_TYPE_BINDER) false; Some (s, [])
    end
  else if (f_type fp =? BINDER_TYPE_HANDLE) || (f_type fp =? BINDER_TYPE_WEAK_HANDLE) then
    ref ← binder_get_ref s proc (u32 (f_val fp));
    match ref with
    | None => Some (s, [])
    | Some r => '(s, _) ← binder_dec_ref s r (f_type fp =? BINDER_TYPE_HANDLE); Some (s, [])
    end
  else if f_type fp =? BINDER_TYPE_FD then Some (s, if failed then [f_val fp] else [])
  else Some (s, []).

Fixpoint release_objs (s : binder) (proc : Z) (failed : bool) (size : Z) (data : list Z) (offs : list Z) : option (binder * list Z) :=
  match offs with
  | [] => Some (s, [])
  | off :: offs =>
      if negb (offset_ok size off) then release_objs s proc failed size data offs
      else
        fp ← load_obj data off;
        '(s, fds) ← release_obj s proc failed fp;
        '(s, fds') ← release_objs s proc failed size data offs;
        Some (s, fds ++ fds')
  end.

(** What is kept of a transaction's buffer: whose it is, the node it was sent to,
    and the objects in it. *)
Record tbuf := mk_tbuf {
  t_proc : Z;
  t_node : option Z;
  t_size : Z;
  t_data : list Z;
  t_offs : list Z }.

(** [offs] are the offsets up to [failed_at], or all of them. *)
Definition binder_transaction_buffer_release (s : binder) (b : tbuf) (offs : list Z) (failed : bool) : option (binder * list Z) :=
  s ← match t_node b with Some n => binder_dec_node s n true false | None => Some s end;
  release_objs s (t_proc b) failed (t_size b) (t_data b) offs.

(** ** The target, and the objects as a whole *)

Inductive target_error := BR_FAILED_REPLY | BR_DEAD_REPLY.

(** The node and the process a call with this handle goes to. *)
Definition find_target (s : binder) (proc handle : Z) : option (target_error + Z * Z) :=
  node ← (if ctrue handle then
            ref ← binder_get_ref s proc handle;
            match ref with
            | None => Some (inl BR_FAILED_REPLY)
            | Some r => y ← ref_at s !! r; Some (inr (r_node y))
            end
          else if ctrue (context_mgr_node s) then Some (inr (context_mgr_node s)) else Some (inl BR_DEAD_REPLY));
  match node with
  | inl e => Some (inl e)
  | inr n =>
      x ← node_at s !! n;
      Some (match n_proc x with None => inl BR_DEAD_REPLY | Some target => inr (n, target) end)
  end.

(** From the allocation of the buffer to the end of the loop, and the way back
    when something fails.  [target_node] is [None] in a reply; [copied] says
    whether copy_from_user succeeded for data and offsets.  The result is the
    buffer that was handed over, or the descriptors that were closed. *)
Definition transfer (s : binder) (proc todo target : Z) (target_node : option Z) (reply_fds copied : bool) (sup : supplies)
    (size : Z) (data : list Z) (offsets_size : Z) (offs : list Z) : option (binder * (tbuf + list Z)) :=
  s ← match target_node with
      | Some n => '(s, _) ← binder_inc_node s n true false None; Some s
      | None => Some s
      end;
  if negb copied || negb (offsets_size mod 4 =? 0) then
    '(s, fds) ← binder_transaction_buffer_release s (mk_tbuf target target_node size data offs) [] true;
    Some (s, inr fds)
  else
    '(s, data, failed_at) ← xlate_loop s proc todo target target_node reply_fds (sup_fd sup) size (sup_mem sup) data offs 0;
    let b := mk_tbuf target target_node size data offs in
    match failed_at with
    | None => Some (s, inl b)
    | Some i => '(s, fds) ← binder_transaction_buffer_release s b (take i offs) true; Some (s, inr fds)
    end.

(** ** What translating leaves alone *)

(** Nodes and references stay, with new ones only among [N] and [R]; processes and
    lists stay. *)
Record extends (s s' : binder) (N R : Z → Prop) : Prop := {
  ex_mgr : context_mgr_node s' = context_mgr_node s;
  ex_procs : ∀ p, is_Some (proc_at s' !! p) ↔ is_Some (proc_at s !! p);
  ex_lists : ∀ h, is_Some (lists s' !! h) ↔ is_Some (lists s !! h);
  ex_lproc : list_proc s' = list_proc s;
  ex_nodes : ∀ m z, node_at s !! m = Some z →
    ∃ z', node_at s' !! m = Some z' ∧ n_proc z' = n_proc z ∧ ident z' = ident z;
  ex_newn : ∀ m, is_Some (node_at s' !! m) → is_Some (node_at s !! m) ∨ N m;
  ex_refs : ∀ r y, ref_at s !! r = Some y →
    ∃ y', ref_at s' !! r = Some y' ∧ r_proc y' = r_proc y ∧ r_node y' = r_node y ∧ desc y' = desc y;
  ex_newr : ∀ r, is_Some (ref_at s' !! r) → is_Some (ref_at s !! r) ∨ R r }.

Lemma extends_refl s N R : extends s s N R.
Proof. split; try done; eauto 10. Qed.

Lemma extends_trans s s' s'' N R :
  extends s s' N R → extends s' s'' N R → extends s s'' N R.
Proof.
  intros [A1 A2 A3 A4 A5 A6 A7 A8] [B1 B2 B3 B4 B5 B6 B7 B8]. split.
  - congruence.
  - intros p. by rewrite B2.
  - intros h. by rewrite B3.
  - congruence.
  - intros m z (z' & (z'' & Hz & E)%B5 & E')%A5. exists z''. split; [done|]. intuition congruence.
  - intros m [?%A6|?]%B6; auto.
  - intros r y (y' & (y'' & Hy & E)%B7 & E')%A7. exists y''. split; [done|]. intuition congruence.
  - intros r [?%A8|?]%B8; auto.
Qed.

Lemma extends_mono s s' (N N' R R' : Z → Prop) :
  (∀ m, N m → N' m) → (∀ m, R m → R' m) → extends s s' N R → extends s s' N' R'.
Proof.
  intros HN HR [A1 A2 A3 A4 A5 A6 A7 A8]. split; try done.
  - intros m Hm. destruct (A6 m Hm); auto.
  - intros m Hm. destruct (A8 m Hm); auto.
Qed.

Lemma extends_join s s' s'' (N N' R R' : Z → Prop) :
  extends s s' N R → extends s' s'' N' R' → extends s s'' (λ m, N m ∨ N' m) (λ m, R m ∨ R' m).
Proof. intros H1 H2. eapply extends_trans; (eapply extends_mono; [| |done]); simpl; auto. Qed.

(** A node changes, keeping what identifies it. *)
Lemma extends_node s s' n x x' N R :
  same_world s s' → ref_at s' = ref_at s → node_at s !! n = Some x → node_at s' = <[n := x']> (node_at s) →
  n_proc x' = n_proc x → ident x' = ident x → extends s s' N R.
Proof.
  intros [A B C D _] Hr Hn Hn' E1 E2. split; try done; rewrite ?Hr, ?Hn'; eauto 10.
  - intros m z Hz. destruct (decide (m = n)) as [->|]; [|rewrite lookup_insert_ne by done; by eauto].
    rewrite lookup_insert_eq. rewrite Hn in Hz. injection Hz as <-. by eauto.
  - intros m. destruct (decide (m = n)) as [->|]; [rewrite Hn; by eauto|]. rewrite lookup_insert_ne by done. by left.
Qed.

(** A reference is counted. *)
Lemma extends_inc_ref s s' r y st wk N R :
  same_world s s' → ref_at s !! r = Some y → (∀ m, is_Some (node_at s' !! m) ↔ is_Some (node_at s !! m)) →
  ref_at s' = <[r := set_rcounts y st wk]> (ref_at s) ∨ ref_at s' = ref_at s → extends s s' N R.
Proof.
  intros [A B C D E] Hr Hdom Hr'. split; try done.
  - intros m z Hz. assert (is_Some (node_at s' !! m)) as [z' Hz'] by (apply Hdom; eauto). exists z'. split; [done|].
    destruct (E m z' Hz') as (w & Hw & E1 & E2). rewrite Hz in Hw. injection Hw as <-. by eauto.
  - intros m Hm. left. by apply Hdom.
  - intros q z Hz. destruct Hr' as [->| ->]; [|by eauto]. destruct (decide (q = r)) as [->|]; [|rewrite lookup_insert_ne by done; by eauto].
    rewrite lookup_insert_eq. rewrite Hr in Hz. injection Hz as <-. by eauto.
  - intros q. destruct Hr' as [->| ->]; [|by left]. destruct (decide (q = r)) as [->|]; [rewrite Hr; by eauto|].
    rewrite lookup_insert_ne by done. by left.
Qed.

Lemma inv_perm s T T' k : T ≡ₚ T' → binder_inv s T k → binder_inv s T' k.
Proof.
  intros HT [A B C D E F]. split; try done.
  - intros n x Hn. eapply node_ok_ext; [done|done| |by apply B]. intros b. unfold kept. by rewrite (holds_perm T T').
  - intros t Ht. apply D. by rewrite HT.
  - by rewrite <- HT.
Qed.

(** ** What an object stands for *)

Definition binder_type (fp : flat_binder_object) : bool := (f_type fp =? BINDER_TYPE_BINDER) || (f_type fp =? BINDER_TYPE_WEAK_BINDER).
Definition handle_type (fp : flat_binder_object) : bool := (f_type fp =? BINDER_TYPE_HANDLE) || (f_type fp =? BINDER_TYPE_WEAK_HANDLE).
Definition strong_type (fp : flat_binder_object) : bool := (f_type fp =? BINDER_TYPE_BINDER) || (f_type fp =? BINDER_TYPE_HANDLE).

(** In process [p] the object names node [n]. *)
Definition names (s : binder) (p : Z) (fp : flat_binder_object) (n : Z) : Prop :=
  binder_type fp = true ∧ (∃ x, node_at s !! n = Some x ∧ n_proc x = Some p ∧ n_ptr x = f_val fp) ∨
  handle_type fp = true ∧ (∃ r y, ref_at s !! r = Some y ∧ r_proc y = p ∧ desc y = u32 (f_val fp) ∧ r_node y = n).

(** What an object in a buffer of process [p] holds: a node of [p] that is sent
    to [p] is kept by the buffer. *)
Definition obj_holds (s : binder) (p : Z) (fp : flat_binder_object) (T : list hold) : Prop :=
  if binder_type fp then ∃ n, names s p fp n ∧ T = [(n, strong_type fp)] else T = [].

Lemma names_extends s s' N R p fp n : extends s s' N R → names s p fp n → names s' p fp n.
Proof.
  intros He [(Ht & x & Hx & Hp & Hv)|(Ht & r & y & Hy & Hp & Hd & Hn)].
  - left. split; [done|]. destruct (ex_nodes _ _ _ _ He n x Hx) as (x' & Hx' & E1 & E2). exists x'. split; [done|].
    injection E2 as E2 _. split; congruence.
  - right. split; [done|]. destruct (ex_refs _ _ _ _ He r y Hy) as (y' & Hy' & E1 & E2 & E3). exists r, y'. split; [done|].
    split_and!; congruence.
Qed.

(** The names of nodes are unique in a process. *)
Lemma owned_inj s H p n n' x x' :
  struct_ok s H → node_at s !! n = Some x → n_proc x = Some p → node_at s !! n' = Some x' → n_proc x' = Some p →
  n_ptr x = n_ptr x' → n = n'.
Proof.
  intros Hs Hn Hp Hn' Hp' E. destruct (st_owner _ _ Hs n x p Hn Hp) as [P HP].
  eapply (keyed_inj _ (ptr_of s) (owned s p)); [by apply (st_nodes _ _ Hs)|by exists x|by exists x'|].
  unfold ptr_of. by rewrite Hn, Hn'.
Qed.

Lemma held_inj s p r r' y y' :
  struct_ok s (held s) → is_Some (proc_at s !! p) → ref_at s !! r = Some y → r_proc y = p → ref_at s !! r' = Some y' → r_proc y' = p →
  desc y = desc y' → r = r'.
Proof.
  intros Hs [P HP] Hr Hp Hr' Hp' E.
  eapply (keyed_inj _ (desc_of s) (held s p)); [by apply (st_desc _ _ Hs)|by exists y|by exists y'|].
  unfold desc_of. by rewrite Hr, Hr'.
Qed.

(** ** Translation preserves the invariant *)

Lemma sender_node_spec s T k p mem fp :
  binder_inv s T k → is_Some (proc_at s !! p) → (∀ n, mem = Some n → addr n ∧ node_at s !! n = None) →
  ∃ s' res, sender_node s p mem fp = Some (s', res) ∧ binder_inv s' T k ∧ extends s s' (λ m, mem = Some m) (λ _, False) ∧
    ∀ n, res = Some n → ∃ x, node_at s' !! n = Some x ∧ n_proc x = Some p ∧ n_ptr x = f_val fp.
Proof.
  intros Hi HP Hm. pose proof HP as [P HP']. unfold sender_node.
  destruct (get_node_spec s (held s) p P (f_val fp) (bi_struct _ _ _ Hi) HP') as [(n & x & -> & Hn & Hp & Hptr)|[-> Hno]];
    cbn [mbind option_bind].
  { exists s, (Some n). split; [done|]. split; [done|]. split; [apply extends_refl|]. intros ? [= <-]. by exists x. }
  destruct (new_node_spec s T k p mem (f_val fp) (f_cookie fp) Hi HP Hm) as (s1 & res & -> & Hi1 & Hw & Hcase). cbn [mbind option_bind].
  destruct Hcase as [(n & x & Hn & Hp & Hptr & _)|[_ [(_ & -> & ->)|(n & -> & -> & Hn1)]]].
  - exfalso. by apply (Hno n x).
  - exists s, None. split; [done|]. split; [done|]. split; [apply extends_refl|done].
  - set (x1 := mk_bnode _ _ _ _ _ _ _ _ _ _ _ _ _ _) in Hn1.
    assert (Hx1 : node_at s1 !! n = Some x1) by (by rewrite Hn1, lookup_insert_eq). rewrite Hx1. cbn [mbind option_bind].
    set (x2 := set_prio _ _ _). eexists _, (Some n). split; [done|].
    destruct (struct_with_node s1 (held s1) n x1 x2 (bi_struct _ _ _ Hi1) Hx1) as [G1 G2]; [done|done|].
    split; [|split].
    + eapply (inv_same_node s1 _ T k k n x1 x2); try done. destruct (bi_nodes _ _ _ Hi1 n x1 Hx1). by split.
    + destruct Hw as [Wr Wm Wp Wl Wlp]. destruct (Hm n eq_refl) as [_ Hfresh]. split; simpl; rewrite ?Wr, ?Wl, ?Hn1; try done; eauto 10.
      * intros m z Hz. rewrite !lookup_insert_ne by congruence. by eauto.
      * intros m. destruct (decide (m = n)) as [->|]; [by right|]. rewrite !lookup_insert_ne by done. by left.
    + intros ? [= <-]. exists x2. simpl. by rewrite lookup_insert_eq.
Qed.

(** No address. *)
#[local] Notation none := (λ _ : Z, False).

Lemma get_ref_step s T k p n mem :
  binder_inv s T k → k < max_ops → is_Some (proc_at s !! p) → is_Some (node_at s !! n) →
  (∀ r, mem = Some r → addr r ∧ ref_at s !! r = None) →
  ∃ s' res, binder_get_ref_for_node s p n mem = Some (s', res) ∧ binder_inv s' T (k + 1) ∧
    extends s s' none (λ q, mem = Some q) ∧
    ∀ r, res = Some r → ∃ y, ref_at s' !! r = Some y ∧ r_proc y = p ∧ r_node y = n.
Proof.
  intros Hi Hk Hp Hn Hm. destruct (get_ref_for_node_spec s T k p n mem Hi Hk Hp Hn Hm) as (s' & res & Hrun & Hi' & [A B C D E] & Hnd & Hcase).
  exists s', res. split; [done|]. split; [done|].
  assert (Hnn : ∀ m, is_Some (node_at s' !! m) → is_Some (node_at s !! m) ∨ none m).
  { intros m [z' (z & Hz & _)%E]. left. by exists z. }
  destruct Hcase as [(r & y & -> & Hr & Hrp & Hrn & ->)|[Hno [(-> & -> & ->)|(r & d & -> & -> & Hr' & _)]]].
  - split; [apply extends_refl|]. intros ? [= <-]. by exists y.
  - split; [apply extends_refl|done].
  - destruct (Hm r eq_refl) as [_ Hfresh]. split.
    + split; try done; rewrite Hr'.
      * intros q y Hq. rewrite lookup_insert_ne by congruence. by eauto.
      * intros q. destruct (decide (q = r)) as [->|]; [by right|]. rewrite lookup_insert_ne by done. by left.
    + intros ? [= <-]. rewrite Hr', lookup_insert_eq. by eexists.
Qed.

Lemma inc_ref_step s T k r y b target :
  binder_inv s T k → k < max_ops → ref_at s !! r = Some y →
  (∀ l x, target = Some l → node_at s !! r_node y = Some x →
     is_Some (lists s !! l) ∧ list_proc s !! l = n_proc x ∧ is_Some (n_proc x)) →
  ∃ s' ret, binder_inc_ref s r b target = Some (s', ret) ∧ binder_inv s' T (k + 1) ∧ extends s s' none none.
Proof.
  intros Hi Hk Hr Ht. destruct (inc_ref_spec s T k r y b target Hi Hk Hr Ht) as (s' & ret & Hrun & Hi' & Hw & Hdom & Hcase).
  exists s', ret. split; [done|]. split; [done|].
  apply (extends_inc_ref s s' r y (if b then strong y + 1 else strong y) (if b then weak y else weak y + 1)); try done.
  destruct Hcase as [[_ ->]|[_ ->]]; [left; by destruct b|by right].
Qed.

(** What a translation gives: an object of the receiver that names the same node
    with the same strength. *)
Definition same_object (s : binder) (p : Z) (fp : flat_binder_object) (target : Z) (fp' : flat_binder_object) : Prop :=
  (∃ n, names s p fp n ∧ names s target fp' n) ∧ strong_type fp' = strong_type fp ∧ f_flags fp' = f_flags fp.

Lemma u32_desc s T k r y : binder_inv s T k → k < max_ops → ref_at s !! r = Some y → u32 (desc y) = desc y.
Proof. intros Hi Hk Hr. destruct (bi_refs _ _ _ Hi r y Hr) as [_ _ Hd _ _]. unfold max_ops in *. apply u32_small. lia. Qed.

(** The receiver's reference [r] to node [n] is counted and put into the object. *)
Lemma counted_ref_obj s T k target r y n b l t fl ck :
  binder_inv s T k → k < max_ops → ref_at s !! r = Some y → r_proc y = target → r_node y = n →
  (∀ h x, l = Some h → node_at s !! n = Some x → is_Some (lists s !! h) ∧ list_proc s !! h = n_proc x ∧ is_Some (n_proc x)) →
  t = BINDER_TYPE_HANDLE ∨ t = BINDER_TYPE_WEAK_HANDLE →
  ∃ s' ret, binder_inc_ref s r b l = Some (s', ret) ∧ binder_inv s' T (k + 1) ∧ extends s s' none none ∧
    names s' target (mk_flat t fl (desc y) ck) n.
Proof.
  intros Hi Hk Hr Hrp Hrn Hl Ht. destruct (inc_ref_step s T k r y b l Hi) as (s' & ret & Hrun & Hi' & He); [done|done|by rewrite Hrn|].
  exists s', ret. split; [done|]. split; [done|]. split; [done|]. eapply names_extends; [done|].
  right. split; [by destruct Ht as [->| ->]|]. exists r, y. simpl. rewrite (u32_desc s T k r y) by done. done.
Qed.

Lemma xlate_binder_spec s T k p h target mn mr fp :
  binder_inv s T k → k + 1 < max_ops → is_Some (proc_at s !! p) → is_Some (proc_at s !! target) →
  is_Some (lists s !! h) → list_proc s !! h = Some p →
  (∀ n, mn = Some n → addr n ∧ node_at s !! n = None) → (∀ r, mr = Some r → addr r ∧ ref_at s !! r = None) →
  binder_type fp = true →
  ∃ s' res, xlate_binder s p h target mn mr fp = Some (s', res) ∧ binder_inv s' T (k + 2) ∧
    extends s s' (λ m, mn = Some m) (λ r, mr = Some r) ∧
    ∀ fp', res = Some fp' → binder_type fp' = false ∧ same_object s' p fp target fp'.
Proof.
  intros Hi Hk Hp Ht Hh Hhp Hmn Hmr Hty. unfold xlate_binder.
  destruct (sender_node_spec s T k p mn fp Hi Hp Hmn) as (s1 & res & -> & Hi1 & He1 & Hres). cbn [mbind option_bind].
  assert (He1' : extends s s1 (λ m, mn = Some m) (λ r, mr = Some r)) by (eapply extends_mono; [| |exact He1]; done).
  assert (Hfail : ∀ s', binder_inv s' T (k + 1) → extends s s' (λ m, mn = Some m) (λ r, mr = Some r) →
    ∃ s'' res, Some (s', None) = Some (s'', res) ∧ binder_inv s'' T (k + 2) ∧ extends s s'' (λ m, mn = Some m) (λ r, mr = Some r) ∧
    ∀ fp', res = Some fp' → binder_type fp' = false ∧ same_object s'' p fp target fp').
  { intros s' G1 G2. exists s', None. split; [done|]. split; [eapply inv_mono; [done|lia]|done]. }
  assert (Hi1' : binder_inv s1 T (k + 1)) by (eapply inv_mono; [done|lia]).
  destruct res as [n|]; [|by apply Hfail]. destruct (Hres n eq_refl) as (x & Hn & Hxp & Hptr). rewrite Hn. cbn [mbind option_bind].
  destruct (negb (f_cookie fp =? n_cookie x)); [by apply Hfail|].
  destruct (get_ref_step s1 T k target n mr Hi1) as (s2 & ref & -> & Hi2 & He2 & Href); [lia|by apply (ex_procs _ _ _ _ He1)|by eauto|..].
  { intros r Hr. destruct (Hmr r Hr) as [Ha Hf]. split; [done|]. apply eq_None_not_Some. intros [?|[]]%(ex_newr _ _ _ _ He1).
    by apply eq_None_not_Some in Hf. }
  cbn [mbind option_bind].
  assert (He2' : extends s s2 (λ m, mn = Some m) (λ r, mr = Some r)) by (eapply extends_trans; [done|eapply extends_mono; [| |exact He2]; done]).
  destruct ref as [r|]; [|by apply Hfail]. destruct (Href r eq_refl) as (y & Hy & Hyp & Hyn). rewrite Hy. cbn [mbind option_bind].
  set (t := if f_type fp =? BINDER_TYPE_BINDER then BINDER_TYPE_HANDLE else BINDER_TYPE_WEAK_HANDLE).
  assert (Htt : t = BINDER_TYPE_HANDLE ∨ t = BINDER_TYPE_WEAK_HANDLE) by (unfold t; destruct (_ =? _); auto).
  assert (Hname : names s1 p fp n) by (left; split; [done|]; by exists x).
  destruct (counted_ref_obj s2 T (k + 1) target r y n (t =? BINDER_TYPE_HANDLE) (Some h) t (f_flags fp) (f_cookie fp) Hi2)
    as (s3 & ret & -> & Hi3 & He3 & Hnm); try done.
  { intros h' x2 [= <-] Hx2. destruct (ex_nodes _ _ _ _ He2 n x Hn) as (x2' & Hx2' & E1 & _). rewrite Hx2 in Hx2'. injection Hx2' as <-.
    rewrite (ex_lproc _ _ _ _ He2'), Hhp, E1, Hxp. split; [by apply (ex_lists _ _ _ _ He2')|done]. }
  cbn [mbind option_bind]. eexists s3, _. split; [done|]. split; [eapply inv_mono; [done|lia]|].
  split; [eapply extends_trans; [done|eapply extends_mono; [| |exact He3]; done]|]. intros fp' [= <-]. split; [by destruct Htt as [->| ->]|].
  split.
  - exists n. split; [|done]. apply (names_extends s2 s3 none none); [done|]. by apply (names_extends s1 s2 none (λ r, mr = Some r)).
  - split; [|done]. unfold strong_type, binder_type in *. unfold t. simpl. destruct (f_type fp =? BINDER_TYPE_BINDER) eqn:E1; [done|].
    destruct (f_type fp =? BINDER_TYPE_WEAK_BINDER) eqn:E2; [|done]. by apply Z.eqb_eq in E2 as ->.
Qed.

Lemma inc_local_step s T k n x p st :
  binder_inv s T k → k < max_ops → node_at s !! n = Some x → n_proc x = Some p →
  ∃ s' ret, binder_inc_node s n st false None = Some (s', ret) ∧ binder_inv s' ((n, st) :: T) (k + 1) ∧ extends s s' none none.
Proof.
  intros Hi Hk Hn Hp. destruct (inc_local s T k n x p st Hi Hk Hn Hp) as (s' & ret & Hrun & Hi' & Hw & Hn').
  exists s', ret. split; [done|]. split; [done|]. destruct (counted_id x st false 1) as (E1 & E2 & _).
  eapply (extends_node s s' n x); try done; [by apply same_world_of|by destruct Hw].
Qed.

Lemma xlate_handle_spec s T k p target mr fp :
  binder_inv s T k → k + 1 < max_ops → is_Some (proc_at s !! p) → is_Some (proc_at s !! target) →
  (∀ r, mr = Some r → addr r ∧ ref_at s !! r = None) → handle_type fp = true →
  ∃ s' res Ti, xlate_handle s p target mr fp = Some (s', res) ∧ binder_inv s' (Ti ++ T) (k + 2) ∧
    extends s s' none (λ r, mr = Some r) ∧
    match res with None => Ti = [] | Some fp' => same_object s' p fp target fp' ∧ obj_holds s' target fp' Ti end.
Proof.
  intros Hi Hk Hp Ht Hmr Hty. pose proof Hp as [P HP]. unfold xlate_handle.
  assert (Hfail : ∀ s', binder_inv s' T (k + 1) → extends s s' none (λ r, mr = Some r) →
    ∃ s'' res Ti, Some (s', None) = Some (s'', res) ∧ binder_inv s'' (Ti ++ T) (k + 2) ∧ extends s s'' none (λ r, mr = Some r) ∧
    match res with None => Ti = [] | Some fp' => same_object s'' p fp target fp' ∧ obj_holds s'' target fp' Ti end).
  { intros s' G1 G2. exists s', None, []. split; [done|]. split; [eapply inv_mono; [done|lia]|done]. }
  destruct (get_ref_spec s (held s) p P (u32 (f_val fp)) (bi_struct _ _ _ Hi)) as [(r & y & -> & Hr & (y' & Hy' & Hrp) & Hd)|[-> _]];
    try done; cbn [mbind option_bind].
  2:{ apply Hfail; [eapply inv_mono; [done|lia]|apply extends_refl]. }
  rewrite Hr in Hy'. injection Hy' as <-. rewrite Hr. cbn [mbind option_bind].
  destruct (bi_refs _ _ _ Hi r y Hr) as [[x Hx] _ _ _ _]. rewrite Hx. cbn [mbind option_bind].
  set (n := r_node y) in *.
  assert (Hname : names s p fp n) by (right; split; [done|]; by exists r, y).
  destruct (bool_decide (n_proc x = Some target)) eqn:Hown.
  - apply bool_decide_eq_true in Hown.
    set (t := if f_type fp =? BINDER_TYPE_HANDLE then BINDER_TYPE_BINDER else BINDER_TYPE_WEAK_BINDER).
    destruct (inc_local_step s T k n x target (t =? BINDER_TYPE_BINDER) Hi) as (s' & ret & -> & Hi' & He); try done; [lia|].
    cbn [mbind option_bind]. eexists s', _, [(n, t =? BINDER_TYPE_BINDER)]. split; [done|]. split; [eapply inv_mono; [done|lia]|].
    split; [eapply extends_mono; [| |exact He]; done|].
    set (fp' := mk_flat t _ _ _).
    assert (Htt : binder_type fp' = true ∧ strong_type fp' = (t =? BINDER_TYPE_BINDER) ∧ strong_type fp' = strong_type fp).
    { unfold strong_type, binder_type, handle_type, t in *. simpl. destruct (f_type fp =? BINDER_TYPE_HANDLE) eqn:E1.
      - by apply Z.eqb_eq in E1 as ->.
      - apply Z.eqb_eq in Hty as ->. done. }
    destruct Htt as (H1 & H2 & H3).
    assert (Hn' : names s target fp' n) by (left; split; [done|]; by exists x).
    apply (names_extends _ _ _ _ _ _ _ He) in Hn', Hname. split; [split; [by exists n|done]|].
    unfold obj_holds. rewrite H1. exists n. by rewrite H2.
  - destruct (get_ref_step s T k target n mr Hi) as (s1 & ref & -> & Hi1 & He1 & Href); [lia|done|by eauto|done|].
    cbn [mbind option_bind]. destruct ref as [r'|]; [|by apply Hfail]. destruct (Href r' eq_refl) as (y' & Hy' & Hyp & Hyn).
    rewrite Hy'. cbn [mbind option_bind].
    assert (Htt : f_type fp = BINDER_TYPE_HANDLE ∨ f_type fp = BINDER_TYPE_WEAK_HANDLE).
    { unfold handle_type in Hty. destruct (Z.eqb_spec (f_type fp) BINDER_TYPE_HANDLE), (Z.eqb_spec (f_type fp) BINDER_TYPE_WEAK_HANDLE); by auto. }
    destruct (counted_ref_obj s1 T (k + 1) target r' y' n (f_type fp =? BINDER_TYPE_HANDLE) None (f_type fp) (f_flags fp) (f_cookie fp) Hi1)
      as (s2 & ret & -> & Hi2 & He2 & Hnm); try done.
    cbn [mbind option_bind]. eexists s2, _, []. split; [done|]. split; [eapply inv_mono; [done|lia]|].
    split; [eapply extends_trans; [done|eapply extends_mono; [| |exact He2]; done]|].
    split; [split; [|done]|].
    + exists n. split; [|done]. apply (names_extends s1 s2 none none); [done|]. by apply (names_extends s s1 none (λ r, mr = Some r)).
    + unfold obj_holds. unfold binder_type. simpl. by destruct Htt as [->| ->].
Qed.

(** A file is replaced by the receiver's descriptor; nodes and references become
    what names the same node for the receiver. *)
Definition xlated (s : binder) (p : Z) (fp : flat_binder_object) (target : Z) (fd : Z → option Z) (fp' : flat_binder_object) : Prop :=
  if f_type fp =? BINDER_TYPE_FD then f_type fp' = BINDER_TYPE_FD ∧ fd (f_val fp) = Some (f_val fp') ∧ f_cookie fp' = f_cookie fp
  else same_object s p fp target fp'.

(** Memory from kzalloc is not in use. *)
Definition fresh_mem (s : binder) (mem : option Z * option Z) : Prop :=
  (∀ n, mem.1 = Some n → addr n ∧ node_at s !! n = None) ∧ (∀ r, mem.2 = Some r → addr r ∧ ref_at s !! r = None).

Lemma obj_holds_handle s p fp : binder_type fp = false → obj_holds s p fp [].
Proof. intros E. unfold obj_holds. by rewrite E. Qed.

Lemma xlate_obj_spec s T k p h target tn reply_fds fd mem fp :
  binder_inv s T k → k + 1 < max_ops → is_Some (proc_at s !! p) → is_Some (proc_at s !! target) →
  is_Some (lists s !! h) → list_proc s !! h = Some p → (∀ n, tn = Some n → is_Some (node_at s !! n)) → fresh_mem s mem →
  ∃ s' res Ti, xlate_obj s p h target tn reply_fds fd mem fp = Some (s', res) ∧ binder_inv s' (Ti ++ T) (k + 2) ∧
    extends s s' (λ m, mem.1 = Some m) (λ r, mem.2 = Some r) ∧
    match res with
    | None => Ti = []
    | Some fp' => obj_holds s' target fp' Ti ∧ f_flags fp' = f_flags fp ∧ xlated s' p fp target fd fp'
    end.
Proof.
  intros Hi Hk Hp Ht Hh Hhp Htn [Hmn Hmr]. unfold xlate_obj, xlated.
  fold (binder_type fp). fold (handle_type fp).
  assert (Hfail : ∃ s' res Ti, Some (s, None) = Some (s', res) ∧ binder_inv s' (Ti ++ T) (k + 2) ∧
    extends s s' (λ m, mem.1 = Some m) (λ r, mem.2 = Some r) ∧
    match res with
    | None => Ti = []
    | Some fp' => obj_holds s' target fp' Ti ∧ f_flags fp' = f_flags fp ∧
        (if f_type fp =? BINDER_TYPE_FD then f_type fp' = BINDER_TYPE_FD ∧ fd (f_val fp) = Some (f_val fp') ∧ f_cookie fp' = f_cookie fp
         else same_object s' p fp target fp')
    end).
  { exists s, None, []. split; [done|]. split; [eapply inv_mono; [done|lia]|]. split; [apply extends_refl|done]. }
  destruct (binder_type fp) eqn:Hb.
  { destruct (xlate_binder_spec s T k p h target mem.1 mem.2 fp Hi Hk Hp Ht Hh Hhp Hmn Hmr Hb) as (s' & res & Hrun & Hi' & He & Hres).
    exists s', res, []. split; [done|]. split; [done|]. split; [done|]. destruct res as [fp'|]; [|done].
    destruct (Hres fp' eq_refl) as [Hb' Hsame]. split; [by apply obj_holds_handle|]. split.
    - by destruct Hsame as (_ & _ & ?).
    - unfold binder_type in Hb. destruct (Z.eqb_spec (f_type fp) BINDER_TYPE_FD) as [E|]; [by rewrite E in Hb|done]. }
  destruct (handle_type fp) eqn:Hhd.
  { destruct (xlate_handle_spec s T k p target mem.2 fp Hi Hk Hp Ht Hmr Hhd) as (s' & res & Ti & Hrun & Hi' & He & Hres).
    exists s', res, Ti. split; [done|]. split; [done|]. split; [eapply extends_mono; [| |exact He]; done|].
    destruct res as [fp'|]; [|done]. destruct Hres as [Hsame Hoh]. split; [done|]. split; [by destruct Hsame as (_ & _ & ?)|].
    unfold handle_type in Hhd. destruct (Z.eqb_spec (f_type fp) BINDER_TYPE_FD) as [E|]; [by rewrite E in Hhd|done]. }
  destruct (Z.eqb_spec (f_type fp) BINDER_TYPE_FD) as [Ef|Ef]; [|done].
  assert (Hall : ∃ b, fds_allowed s tn reply_fds = Some b).
  { unfold fds_allowed. destruct tn as [n|]; [|by eauto]. destruct (Htn n eq_refl) as [x ->]. simpl. by eauto. }
  destruct Hall as (b & ->). cbn [mbind option_bind]. destruct b; simpl; [|done].
  destruct (fd (f_val fp)) as [tfd|] eqn:Efd; [|done].
  eexists s, _, []. split; [done|]. split; [eapply inv_mono; [done|lia]|]. split; [apply extends_refl|].
  split; [|done]. apply obj_holds_handle. unfold binder_type. simpl. by rewrite Ef.
Qed.

(** ** Objects in the data of a buffer *)

Definition apart (a b : Z) : Prop := a + FLAT ≤ b ∨ b + FLAT ≤ a.

(** No two objects overlap. *)
Definition all_apart (offs : list Z) : Prop := ∀ l1 a l2 b l3, offs = l1 ++ a :: l2 ++ b :: l3 → apart a b.

Lemma all_apart_mid pre off offs a : all_apart (pre ++ off :: offs) → a ∈ pre → apart a off.
Proof.
  intros H (l1 & l2 & ->)%list_elem_of_split. apply (H l1 a l2 off offs). by rewrite <- app_assoc.
Qed.

Lemma load_store_eq data off fp fp' :
  load_obj data off = Some fp → f_flags fp' = f_flags fp → load_obj (store_obj data off fp') off = Some fp'.
Proof.
  unfold load_obj, store_obj. set (i := Z.to_nat (off / 4)). intros Hl Hf.
  destruct (data !! i) as [t|] eqn:E0; [|done]. destruct (data !! (i + 1)%nat) as [f|] eqn:E1; [|done].
  destruct (data !! (i + 2)%nat) as [v|] eqn:E2; [|done]. destruct (data !! (i + 3)%nat) as [c|] eqn:E3; [|done].
  simpl in Hl. injection Hl as <-. simpl in Hf. apply lookup_lt_Some in E3 as Hlen.
  rewrite list_lookup_insert_eq by (rewrite !length_insert; lia). cbn [mbind option_bind].
  rewrite !(list_lookup_insert_ne _ _ (i + 1)) by lia. rewrite E1. cbn [mbind option_bind].
  rewrite (list_lookup_insert_ne _ _ (i + 2)) by lia. rewrite list_lookup_insert_eq by (rewrite !length_insert; lia). cbn [mbind option_bind].
  rewrite !(list_lookup_insert_ne _ _ (i + 3)) by lia. rewrite list_lookup_insert_eq by lia. cbn [mbind option_bind].
  rewrite <- Hf. by destruct fp'.
Qed.

Lemma load_store_ne data a b fp : apart a b → a mod 4 = 0 → b mod 4 = 0 → 0 ≤ a → 0 ≤ b → load_obj (store_obj data b fp) a = load_obj data a.
Proof.
  intros Hap Ha Hb Ha0 Hb0. unfold load_obj, store_obj, apart, FLAT in *.
  assert (a = 4 * (a / 4)) by (pose proof (Z_div_mod_eq_full a 4); lia). assert (b = 4 * (b / 4)) by (pose proof (Z_div_mod_eq_full b 4); lia).
  assert (0 ≤ a / 4) by lia. assert (0 ≤ b / 4) by lia.
  rewrite !list_lookup_insert_ne by lia. done.
Qed.

Lemma store_length data off fp : length (store_obj data off fp) = length data.
Proof. unfold store_obj. by rewrite !length_insert. Qed.

Lemma load_in data off size :
  offset_ok size off = true → 0 ≤ off → 0 ≤ size < 2 ^ 32 → size ≤ 4 * Z.of_nat (length data) → is_Some (load_obj data off).
Proof.
  unfold offset_ok. intros [[H1 H2%Z.ltb_ge]%orb_false_iff H3%negb_false_iff%Z.eqb_eq]%negb_true_iff%orb_false_iff H0 Hs Hl.
  unfold FLAT in *. rewrite u32_small in H1 by lia. assert (off ≤ size - 16) by (destruct (Z.gtb_spec off (size - 16)); [done|lia]).
  assert (off = 4 * (off / 4)) by (pose proof (Z_div_mod_eq_full off 4); lia). unfold load_obj. set (i := Z.to_nat (off / 4)).
  assert (i + 3 < length data)%nat by lia.
  destruct (lookup_lt_is_Some_2 data i) as [t ->]; [lia|]. destruct (lookup_lt_is_Some_2 data (i + 1)%nat) as [f ->]; [lia|].
  destruct (lookup_lt_is_Some_2 data (i + 2)%nat) as [v ->]; [lia|]. destruct (lookup_lt_is_Some_2 data (i + 3)%nat) as [c ->]; [lia|].
  simpl. by eauto.
Qed.

(** The object at [off] of the data holds [Ti] for process [p]. *)
Definition off_holds (s : binder) (p size : Z) (data : list Z) (off : Z) (Ti : list hold) : Prop :=
  offset_ok size off = true ∧ 0 ≤ off ∧ ∃ fp, load_obj data off = Some fp ∧ obj_holds s p fp Ti.

Lemma offset_aligned size off : offset_ok size off = true → off mod 4 = 0.
Proof. unfold offset_ok. intros [_ H%negb_false_iff%Z.eqb_eq]%negb_true_iff%orb_false_iff. done. Qed.

Lemma obj_holds_extends s s' N R p fp T : extends s s' N R → obj_holds s p fp T → obj_holds s' p fp T.
Proof.
  intros He. unfold obj_holds. destruct (binder_type fp); [|done]. intros (n & Hn & ->). exists n. split; [by eapply names_extends|done].
Qed.

Lemma off_holds_step s s' N R p size data off Ti b fp :
  extends s s' N R → apart off b → offset_ok size b = true → 0 ≤ b →
  off_holds s p size data off Ti → off_holds s' p size (store_obj data b fp) off Ti.
Proof.
  intros He Hap Hb Hb0 (Ho & H0 & fp0 & Hl & Hh). split; [done|]. split; [done|]. exists fp0.
  split; [|by eapply obj_holds_extends]. rewrite load_store_ne; try done; by eapply offset_aligned.
Qed.

Definition fresh_mems (s : binder) (mems : list (option Z * option Z)) : Prop :=
  Forall (fresh_mem s) mems ∧ NoDup (omap fst mems) ∧ NoDup (omap snd mems).

Lemma fresh_mems_tail s s' m mems :
  fresh_mems s (m :: mems) → extends s s' (λ n, m.1 = Some n) (λ r, m.2 = Some r) → fresh_mem s m ∧ fresh_mems s' mems.
Proof.
  intros (Hf & Hn & Hr) He. inversion Hf as [|? ? Hm Hms]; subst. split; [done|]. cbn [omap list_omap] in Hn, Hr.
  assert (Hn' : (∀ n, m.1 = Some n → n ∉ omap fst mems) ∧ NoDup (omap fst mems)).
  { destruct m as [[n|] mr]; simpl in *; [|done]. apply NoDup_cons in Hn as [Hn ?]. split; [|done]. by intros ? [= <-]. }
  assert (Hr' : (∀ n, m.2 = Some n → n ∉ omap snd mems) ∧ NoDup (omap snd mems)).
  { destruct m as [mn [r|]]; simpl in *; [|done]. apply NoDup_cons in Hr as [Hr ?]. split; [|done]. by intros ? [= <-]. }
  destruct Hn' as [Hn1 Hn2], Hr' as [Hr1 Hr2]. split; [|done]. rewrite Forall_forall in Hms |- *. intros q Hq.
  destruct (Hms q Hq) as [Q1 Q2]. split.
  - intros n E. destruct (Q1 n E) as [Ha Hfr]. split; [done|]. apply eq_None_not_Some. intros [?|Em]%(ex_newn _ _ _ _ He).
    + by apply eq_None_not_Some in Hfr.
    + apply (Hn1 n Em). apply list_elem_of_omap. by exists q.
  - intros r E. destruct (Q2 r E) as [Ha Hfr]. split; [done|]. apply eq_None_not_Some. intros [?|Em]%(ex_newr _ _ _ _ He).
    + by apply eq_None_not_Some in Hfr.
    + apply (Hr1 r Em). apply list_elem_of_omap. by exists q.
Qed.

Lemma fresh_mems_nil s : fresh_mems s [].
Proof. split; [constructor|]. split; constructor. Qed.

Lemma fresh_head s mems : fresh_mems s mems → fresh_mem s (default (None, None) (head mems)).
Proof. intros [Hf _]. destruct mems as [|m mems]; simpl; [by split|]. by inversion Hf. Qed.

Lemma fresh_tail s s' mems :
  fresh_mems s mems → let m := default (None, None) (head mems) in
  extends s s' (λ n, m.1 = Some n) (λ r, m.2 = Some r) → fresh_mems s' (tail mems).
Proof.
  destruct mems as [|m mems]; simpl; intros Hf He; [apply fresh_mems_nil|]. by eapply fresh_mems_tail.
Qed.

Section Loop.
Context (p h target : Z) (tn : option Z) (reply_fds : bool) (fd : Z → option Z) (size : Z).
Hypothesis size_range : 0 ≤ size < 2 ^ 32.

(** The objects of [pre] are translated, those of [offs] are to come. *)
Lemma xlate_loop_spec offs : ∀ s T Ts k mems data pre,
  binder_inv s (concat Ts ++ T) k → k + 2 * Z.of_nat (length offs) < max_ops →
  is_Some (proc_at s !! p) → is_Some (proc_at s !! target) → is_Some (lists s !! h) → list_proc s !! h = Some p →
  (∀ n, tn = Some n → is_Some (node_at s !! n)) → fresh_mems s mems →
  all_apart (pre ++ offs) → Forall (λ o, 0 ≤ o) offs → size ≤ 4 * Z.of_nat (length data) →
  Forall2 (off_holds s target size data) pre Ts →
  ∃ s' data' res Ts', xlate_loop s p h target tn reply_fds fd size mems data offs (length pre) = Some (s', data', res) ∧
    binder_inv s' (concat Ts' ++ T) (k + 2 * Z.of_nat (length offs)) ∧ length data' = length data ∧
    (∃ N R, extends s s' N R) ∧
    Forall2 (off_holds s' target size data') (match res with None => pre ++ offs | Some i => take i (pre ++ offs) end) Ts'.
Proof using size_range.
  induction offs as [|off offs IH]; intros s T Ts k mems data pre Hi Hk Hp Ht Hh Hhp Htn Hf Hap Hpos Hlen Hpre; simpl.
  { exists s, data, None, Ts. rewrite app_nil_r. split; [done|]. split; [eapply inv_mono; [done|lia]|]. split; [done|].
    split; [|done]. exists none, none. apply extends_refl. }
  assert (Hstop : ∀ s1, binder_inv s1 (concat Ts ++ T) (k + 2) → (∃ N R, extends s s1 N R) →
    ∃ s' data' res Ts', Some (s1, data, Some (length pre)) = Some (s', data', res) ∧
    binder_inv s' (concat Ts' ++ T) (k + 2 * Z.of_nat (S (length offs))) ∧ length data' = length data ∧ (∃ N R, extends s s' N R) ∧
    Forall2 (off_holds s' target size data') (match res with None => pre ++ off :: offs | Some i => take i (pre ++ off :: offs) end) Ts').
  { intros s1 G1 (N & R & G2). eexists s1, data, _, Ts. split; [done|]. split; [eapply inv_mono; [done|lia]|]. split; [done|]. split; [by eauto|].
    rewrite take_app_length. eapply Forall2_impl; [exact Hpre|]. intros o Ti (H1 & H2 & fp & H3 & H4). split; [done|]. split; [done|].
    exists fp. split; [done|]. by eapply obj_holds_extends. }
  inversion Hpos as [|? ? Hoff Hpos']; subst.
  destruct (offset_ok size off) eqn:Hok; simpl.
  2:{ apply Hstop; [eapply inv_mono; [done|lia]|]. exists none, none. apply extends_refl. }
  destruct (load_in data off size Hok Hoff size_range Hlen) as [fp Hfp]. rewrite Hfp. cbn [mbind option_bind].
  destruct (xlate_obj_spec s (concat Ts ++ T) k p h target tn reply_fds fd (default (None, None) (head mems)) fp Hi)
    as (s1 & res & Ti & -> & Hi1 & He1 & Hres); try done; [simpl in *; lia|by apply fresh_head|].
  cbn [mbind option_bind]. destruct res as [fp'|]; [|subst Ti; apply Hstop; [done|by eauto]].
  destruct Hres as (Hoh & Hfl & _).
  destruct (IH s1 T (Ts ++ [Ti]) (k + 2) (tail mems) (store_obj data off fp') (pre ++ [off]))
    as (s' & data' & res & Ts' & Hrun & Hi' & Hlen' & (N & R & He') & Hall).
  - eapply inv_perm; [|exact Hi1]. rewrite concat_app. simpl. rewrite app_nil_r. solve_Permutation.
  - simpl in *; lia.
  - by apply (ex_procs _ _ _ _ He1).
  - by apply (ex_procs _ _ _ _ He1).
  - by apply (ex_lists _ _ _ _ He1).
  - by rewrite (ex_lproc _ _ _ _ He1).
  - intros n E. destruct (Htn n E) as [x Hx]. destruct (ex_nodes _ _ _ _ He1 n x Hx) as (x' & Hx' & _). by eauto.
  - by eapply fresh_tail.
  - by rewrite <- app_assoc.
  - done.
  - by rewrite store_length.
  - apply Forall2_app.
    + assert (Hin : ∀ a, a ∈ pre → apart a off) by (intros a; by eapply all_apart_mid).
      clear -Hpre Hin He1 Hok Hoff. induction Hpre as [|a Tj pre Ts H1 H2 IH]; constructor.
      * eapply off_holds_step; try done. apply Hin. by left.
      * apply IH. intros b Hb. apply Hin. by right.
    + constructor; [|constructor]. split; [done|]. split; [done|]. exists fp'. split; [by eapply load_store_eq|done].
  - rewrite length_app in Hrun. simpl in Hrun. rewrite Nat.add_1_r in Hrun.
    exists s', data', res, Ts'. split; [done|]. split; [eapply inv_mono; [done|simpl; lia]|]. split; [by rewrite Hlen', store_length|].
    split; [|by rewrite <- app_assoc in Hall]. eexists _, _. by eapply extends_join.
Qed.
End Loop.

(** ** Releasing preserves the invariant *)

(** Nodes that stay keep their owner and identity. *)
Definition keeps (s s' : binder) : Prop :=
  ∀ m z z', node_at s !! m = Some z → node_at s' !! m = Some z' → n_proc z' = n_proc z ∧ ident z' = ident z.

Lemma stable_keeps s s' : stable s s' → keeps s s'.
Proof. intros H m z z' Hz (w & Hw & E)%H. rewrite Hz in Hw. by injection Hw as <-. Qed.

Lemma extends_keeps s s' s'' N R : extends s s' N R → stable s' s'' → keeps s s''.
Proof.
  intros He Hst m z z'' Hz (z' & Hz' & E1 & E2)%Hst. destruct (ex_nodes _ _ _ _ He m z Hz) as (w & Hw & E3 & E4).
  rewrite Hz' in Hw. injection Hw as <-. split; congruence.
Qed.

(** What is held by a buffer is still there as long as it is held. *)
Lemma obj_holds_stable s s' T' k p fp Ti :
  keeps s s' → binder_inv s' T' k → (∀ t, t ∈ Ti → t ∈ T') → obj_holds s p fp Ti → obj_holds s' p fp Ti.
Proof.
  intros Hst Hi HT. unfold obj_holds. destruct (binder_type fp) eqn:Hb; [|done]. intros (n & Hn & ->). exists n. split; [|done].
  destruct Hn as [(_ & x & Hx & Hp & Hv)|(Hh & _)].
  - left. split; [done|]. destruct (bi_holds _ _ _ Hi (n, strong_type fp)) as (q & x' & Hx' & _); [apply HT; by left|]. simpl in Hx'.
    destruct (Hst n x x' Hx Hx') as [E1 E2]. exists x'. split; [done|].
    injection E2 as E2 _. split; congruence.
  - exfalso. unfold binder_type, handle_type in *. destruct (Z.eqb_spec (f_type fp) BINDER_TYPE_BINDER) as [E|]; [by rewrite E in Hh|].
    destruct (Z.eqb_spec (f_type fp) BINDER_TYPE_WEAK_BINDER) as [E|]; [by rewrite E in Hh|done].
Qed.

Lemma off_holds_stable s s' T' k p size data off Ti :
  keeps s s' → binder_inv s' T' k → (∀ t, t ∈ Ti → t ∈ T') → off_holds s p size data off Ti → off_holds s' p size data off Ti.
Proof.
  intros Hst Hi HT (H1 & H2 & fp & H3 & H4). split; [done|]. split; [done|]. exists fp. split; [done|]. by eapply obj_holds_stable.
Qed.

Lemma offs_hold_stable s s' T' k p size data offs Ts :
  keeps s s' → binder_inv s' T' k → (∀ t, t ∈ concat Ts → t ∈ T') →
  Forall2 (off_holds s p size data) offs Ts → Forall2 (off_holds s' p size data) offs Ts.
Proof.
  intros Hst Hi HT H. induction H as [|off Ti offs Ts H1 H2 IH]; constructor.
  - eapply off_holds_stable; try done. intros t Ht. apply HT. simpl. apply elem_of_app. by left.
  - apply IH. intros t Ht. apply HT. simpl. apply elem_of_app. by right.
Qed.

Lemma release_obj_spec s T k p failed fp Ti :
  binder_inv s (Ti ++ T) k → k < max_ops → is_Some (proc_at s !! p) → obj_holds s p fp Ti →
  ∃ s' fds, release_obj s p failed fp = Some (s', fds) ∧ binder_inv s' T k ∧ same_world s s'.
Proof.
  intros Hi Hk [P HP] Hh. unfold release_obj, obj_holds in *. fold (binder_type fp). fold (handle_type fp).
  destruct (binder_type fp) eqn:Hb.
  - destruct Hh as (n & [(_ & x & Hx & Hp & Hv)|(Hh & _)] & ->).
    2:{ exfalso. unfold binder_type, handle_type in *. destruct (Z.eqb_spec (f_type fp) BINDER_TYPE_BINDER) as [E|]; [by rewrite E in Hh|].
        destruct (Z.eqb_spec (f_type fp) BINDER_TYPE_WEAK_BINDER) as [E|]; [by rewrite E in Hh|done]. }
    destruct (get_node_spec s (held s) p P (f_val fp) (bi_struct _ _ _ Hi) HP) as [(n' & x' & -> & Hx' & Hp' & Hv')|[_ Hno]].
    2:{ exfalso. by apply (Hno n x). }
    assert (n' = n) as -> by (eapply (owned_inj s (held s) p n' n x' x); try done; [apply (bi_struct _ _ _ Hi)|congruence]).
    cbn [mbind option_bind].
    assert (Hst : strong_type fp = (f_type fp =? BINDER_TYPE_BINDER)).
    { unfold strong_type, binder_type in *. destruct (Z.eqb_spec (f_type fp) BINDER_TYPE_BINDER); [done|].
      destruct (Z.eqb_spec (f_type fp) BINDER_TYPE_WEAK_BINDER) as [->|]; done. }
    destruct (dec_local s _ T k n (f_type fp =? BINDER_TYPE_BINDER) Hi Hk) as (s' & -> & Hi' & Hr); [by rewrite <- Hst|].
    cbn [mbind option_bind]. exists s', []. split; [done|]. split; [done|by apply same_world_of].
  - subst Ti. simpl in Hi.
    assert (Hsame : ∀ fds, ∃ s' fds', Some (s, fds) = Some (s', fds' : list Z) ∧ binder_inv s' T k ∧ same_world s s')
      by (intros fds; exists s, fds; eauto using same_world_refl).
    destruct (handle_type fp); [|destruct (f_type fp =? BINDER_TYPE_FD); apply Hsame].
    destruct (get_ref_spec s (held s) p P (u32 (f_val fp)) (bi_struct _ _ _ Hi)) as [(r & y & -> & Hr & _)|[-> _]]; try done;
      cbn [mbind option_bind]; [|apply Hsame].
    destruct (dec_ref_spec s T k r y (f_type fp =? BINDER_TYPE_HANDLE) Hi Hk Hr) as (s' & ret & -> & Hi' & Hw & _).
    cbn [mbind option_bind]. exists s', []. done.
Qed.

Lemma release_objs_spec offs : ∀ s T Ts k p failed size data,
  binder_inv s (concat Ts ++ T) k → k < max_ops → is_Some (proc_at s !! p) → Forall2 (off_holds s p size data) offs Ts →
  ∃ s' fds, release_objs s p failed size data offs = Some (s', fds) ∧ binder_inv s' T k ∧ same_world s s'.
Proof.
  induction offs as [|off offs IH]; intros s T Ts k p failed size data Hi Hk Hp Hall; inversion Hall as [|? Ti ? Ts' H1 H2]; subst; simpl.
  { exists s, []. split; [done|]. split; [done|apply same_world_refl]. }
  pose proof H1 as (Hok & _ & fp & Hl & Hoh). rewrite Hok, Hl. cbn [negb mbind option_bind].
  destruct (release_obj_spec s (concat Ts' ++ T) k p failed fp Ti) as (s1 & fds & -> & Hi1 & Hw1); try done.
  { by rewrite app_assoc. }
  cbn [mbind option_bind].
  destruct (IH s1 T Ts' k p failed size data Hi1 Hk) as (s2 & fds' & -> & Hi2 & Hw2).
  - by apply (sw_procs _ _ Hw1).
  - eapply offs_hold_stable; [apply stable_keeps, (sw_nodes _ _ Hw1)|exact Hi1| |done]. intros t Ht. apply elem_of_app. by left.
  - cbn [mbind option_bind]. eexists s2, _. split; [done|]. split; [done|]. by eapply same_world_trans.
Qed.

(** What the buffer of a transaction holds. *)
Definition node_hold (tn : option Z) : list hold := match tn with Some n => [(n, true)] | None => [] end.

Lemma buffer_release_spec s T Ts k b offs failed :
  binder_inv s (node_hold (t_node b) ++ concat Ts ++ T) k → k < max_ops → is_Some (proc_at s !! t_proc b) →
  Forall2 (off_holds s (t_proc b) (t_size b) (t_data b)) offs Ts →
  ∃ s' fds, binder_transaction_buffer_release s b offs failed = Some (s', fds) ∧ binder_inv s' T k ∧ same_world s s'.
Proof.
  intros Hi Hk Hp Hall. unfold binder_transaction_buffer_release.
  assert (Hdec : ∃ s1, (match t_node b with Some n => binder_dec_node s n true false | None => Some s end) = Some s1 ∧
    binder_inv s1 (concat Ts ++ T) k ∧ same_world s s1).
  { destruct (t_node b) as [n|]; [|exists s; eauto using same_world_refl].
    destruct (dec_local s _ (concat Ts ++ T) k n true Hi Hk) as (s1 & -> & Hi1 & Hr1); [done|]. exists s1. eauto using same_world_of. }
  destruct Hdec as (s1 & -> & Hi1 & Hw1). cbn [mbind option_bind].
  destruct (release_objs_spec offs s1 T Ts k (t_proc b) failed (t_size b) (t_data b) Hi1 Hk) as (s2 & fds & -> & Hi2 & Hw2).
  - by apply (sw_procs _ _ Hw1).
  - eapply offs_hold_stable; [apply stable_keeps, (sw_nodes _ _ Hw1)|exact Hi1| |done]. intros t Ht. apply elem_of_app. by left.
  - exists s2, fds. split; [done|]. split; [done|]. by eapply same_world_trans.
Qed.

(** ** Transactions *)

Definition buf_holds (s : binder) (b : tbuf) (T : list hold) : Prop :=
  ∃ Ts, T = node_hold (t_node b) ++ concat Ts ∧ Forall2 (off_holds s (t_proc b) (t_size b) (t_data b)) (t_offs b) Ts.

Lemma buf_holds_keeps s s' T' k b T :
  keeps s s' → binder_inv s' T' k → (∀ t, t ∈ T → t ∈ T') → buf_holds s b T → buf_holds s' b T.
Proof.
  intros Hk Hi HT (Ts & -> & Hall). exists Ts. split; [done|]. eapply offs_hold_stable; [done|done| |done].
  intros t Ht. apply HT, elem_of_app. by right.
Qed.

(** Processes and lists stay. *)
Record same_env (s s' : binder) : Prop := {
  se_procs : ∀ p, is_Some (proc_at s' !! p) ↔ is_Some (proc_at s !! p);
  se_lists : ∀ h, is_Some (lists s' !! h) ↔ is_Some (lists s !! h);
  se_lproc : list_proc s' = list_proc s;
  se_nodes : keeps s s' }.

Lemma same_env_world s s' : same_world s s' → same_env s s'.
Proof. intros [A B C D E]. split; try done. by apply stable_keeps. Qed.

Lemma same_env_extends s s' s'' N R : extends s s' N R → same_world s' s'' → same_env s s''.
Proof.
  intros He Hw. pose proof He as [A1 A2 A3 A4 _ _ _ _]. pose proof Hw as [B1 B2 B3 B4 B5]. split.
  - intros p. by rewrite B2.
  - intros h. by rewrite B3.
  - congruence.
  - by eapply extends_keeps.
Qed.

Lemma hold_target s T k tn target :
  binder_inv s T k → k < max_ops → (∀ n, tn = Some n → ∃ x, node_at s !! n = Some x ∧ n_proc x = Some target) →
  ∃ s', (match tn with Some n => '(s, _) ← binder_inc_node s n true false None; Some s | None => Some s end) = Some s' ∧
    binder_inv s' (node_hold tn ++ T) (k + 1) ∧ extends s s' none none.
Proof.
  intros Hi Hk Htn. destruct tn as [n|]; simpl.
  - destruct (Htn n eq_refl) as (x & Hx & Hp). destruct (inc_local_step s T k n x target true Hi Hk Hx Hp) as (s' & ret & -> & Hi' & He).
    cbn [mbind option_bind]. by exists s'.
  - exists s. split; [done|]. split; [eapply inv_mono; [done|lia]|apply extends_refl].
Qed.

(** What a transaction may be given: objects that do not overlap, memory that is
    not in use, and data as long as it says. *)
Record sendable (s : binder) (p h : Z) (sup : supplies) (size : Z) (data offs : list Z) : Prop := {
  sd_proc : is_Some (proc_at s !! p);
  sd_list : is_Some (lists s !! h);
  sd_lproc : list_proc s !! h = Some p;
  sd_mem : fresh_mems s (sup_mem sup);
  sd_apart : all_apart offs;
  sd_offs : Forall (λ o, 0 ≤ o) offs;
  sd_size : 0 ≤ size < 2 ^ 32;
  sd_data : size ≤ 4 * Z.of_nat (length data) }.

Lemma transfer_spec s T k p h target tn reply_fds copied sup size data osize offs :
  binder_inv s T k → k + 1 + 2 * Z.of_nat (length offs) < max_ops → sendable s p h sup size data offs →
  is_Some (proc_at s !! target) → (∀ n, tn = Some n → ∃ x, node_at s !! n = Some x ∧ n_proc x = Some target) →
  ∃ s' res, transfer s p h target tn reply_fds copied sup size data osize offs = Some (s', res) ∧ same_env s s' ∧
    match res with
    | inl b => t_proc b = target ∧ t_node b = tn ∧ t_size b = size ∧ t_offs b = offs ∧
        ∃ Tb, buf_holds s' b Tb ∧ binder_inv s' (Tb ++ T) (k + 1 + 2 * Z.of_nat (length offs))
    | inr _ => binder_inv s' T (k + 1 + 2 * Z.of_nat (length offs))
    end.
Proof.
  intros Hi Hk [D1 D2 D3 D4 D5 D6 D7 D8] Ht Htn. unfold transfer.
  destruct (hold_target s T k tn target Hi) as (s1 & -> & Hi1 & He1); [lia|done|]. cbn [mbind option_bind].
  assert (Ht1 : is_Some (proc_at s1 !! target)) by (by apply (ex_procs _ _ _ _ He1)).
  destruct (negb copied || negb (osize mod 4 =? 0)).
  { destruct (buffer_release_spec s1 T [] (k + 1) (mk_tbuf target tn size data offs) [] true) as (s2 & fds & -> & Hi2 & Hw2); try done; [lia|].
    cbn [mbind option_bind]. exists s2, (inr fds). split; [done|]. split; [by eapply same_env_extends|]. eapply inv_mono; [done|lia]. }
  destruct (xlate_loop_spec p h target tn reply_fds (sup_fd sup) size D7 offs s1 (node_hold tn ++ T) [] (k + 1) (sup_mem sup) data [])
    as (s2 & data' & res & Ts & Hrun & Hi2 & Hlen & (N & R & He2) & Hall); try done.
  - by apply (ex_procs _ _ _ _ He1).
  - by apply (ex_lists _ _ _ _ He1).
  - by rewrite (ex_lproc _ _ _ _ He1).
  - intros n E. destruct (Htn n E) as (x & Hx & _). destruct (ex_nodes _ _ _ _ He1 n x Hx) as (x' & Hx' & _). by eauto.
  - destruct D4 as (F1 & F2 & F3). split; [|done]. eapply Forall_impl; [exact F1|]. intros m [Q1 Q2]. split.
    + intros n E. destruct (Q1 n E) as [Ha Hf]. split; [done|]. apply eq_None_not_Some. intros [?|[]]%(ex_newn _ _ _ _ He1). by apply eq_None_not_Some in Hf.
    + intros r E. destruct (Q2 r E) as [Ha Hf]. split; [done|]. apply eq_None_not_Some. intros [?|[]]%(ex_newr _ _ _ _ He1). by apply eq_None_not_Some in Hf.
  - simpl in Hrun. rewrite Hrun. cbn [mbind option_bind]. pose proof (extends_join _ _ _ _ _ _ _ He1 He2) as He.
    assert (Hi3 : binder_inv s2 (node_hold tn ++ concat Ts ++ T) (k + 1 + 2 * Z.of_nat (length offs))).
    { eapply inv_perm; [|exact Hi2]. solve_Permutation. }
    destruct res as [i|]; simpl in Hall.
    + destruct (buffer_release_spec s2 T Ts _ (mk_tbuf target tn size data' offs) (take i offs) true Hi3) as (s3 & fds & -> & Hi4 & Hw); try done.
      { by apply (ex_procs _ _ _ _ He). }
      cbn [mbind option_bind]. exists s3, (inr fds). split; [done|]. split; [by eapply same_env_extends|done].
    + eexists s2, (inl _). split; [done|]. split; [by eapply same_env_extends; [|apply same_world_refl]|].
      split; [done|]. split; [done|]. split; [done|]. split; [done|]. exists (node_hold tn ++ concat Ts). split; [by exists Ts|].
      by rewrite <- app_assoc.
Qed.

Lemma find_target_spec s T k p handle :
  binder_inv s T k → is_Some (proc_at s !! p) →
  ∃ res, find_target s p handle = Some res ∧
    ∀ n target, res = inr (n, target) → is_Some (proc_at s !! target) ∧ ∃ x, node_at s !! n = Some x ∧ n_proc x = Some target.
Proof.
  intros Hi [P HP]. unfold find_target.
  assert (Hend : ∀ n, is_Some (node_at s !! n) → ∃ res : target_error + Z * Z, (node_at s !! n ≫= λ x,
    Some (match n_proc x with None => inl BR_DEAD_REPLY | Some target => inr (n, target) end)) = Some res ∧
    ∀ n target, res = inr (n, target) → is_Some (proc_at s !! target) ∧ ∃ x, node_at s !! n = Some x ∧ n_proc x = Some target).
  { intros n [x Hx]. rewrite Hx. cbn [mbind option_bind]. eexists. split; [done|]. intros m t.
    destruct (n_proc x) as [q|] eqn:Hq; [|done]. intros [= <- <-]. split; [|by exists x]. by eapply (st_owner _ _ (bi_struct _ _ _ Hi)). }
  destruct (ctrue handle).
  - destruct (get_ref_spec s (held s) p P handle (bi_struct _ _ _ Hi)) as [(r & y & -> & Hr & _)|[-> _]]; try done; cbn [mbind option_bind].
    + rewrite Hr. cbn [mbind option_bind]. apply Hend. by destruct (bi_refs _ _ _ Hi r y Hr).
    + by eexists.
  - destruct (ctrue (context_mgr_node s)) eqn:Hc; cbn [mbind option_bind]; [|by eexists]. apply Hend.
    destruct (bi_mgr _ _ _ Hi) as [E|(q & x & Hx & _)]; [by rewrite E in Hc|by eauto].
Qed.

(** ** Any sequence of operations *)

(** The buffers that processes have not yet given back are those in flight. *)
Record world := mk_world {
  w_binder : binder;
  w_uid : Z;
  w_bufs : list tbuf }.

Inductive op :=
  | ORefs (p : Z) (cmd : ref_cmd) (target : Z) (mem : option Z)
  | ODone (p : Z) (acquire : bool) (ptr cookie : Z)
  | ORead (todo : Z)
  | OMgr (p euid : Z) (mem : option Z)
  | OCall (p todo handle : Z) (copied : bool) (sup : supplies) (size : Z) (data : list Z) (offsets_size : Z) (offs : list Z)
  | OReply (p todo target : Z) (reply_fds copied : bool) (sup : supplies) (size : Z) (data : list Z) (offsets_size : Z) (offs : list Z)
  | OFree (i : nat).

Definition set_binder (w : world) (s : binder) : world := mk_world s (w_uid w) (w_bufs w).

(** A new buffer comes last. *)
Definition sent (w : world) (s : binder) (res : tbuf + list Z) : world :=
  mk_world s (w_uid w) (match res with inl b => w_bufs w ++ [b] | inr _ => w_bufs w end).

Definition exec (w : world) (o : op) : option world :=
  match o with
  | ORefs p cmd target mem => s ← bc_refs (w_binder w) p cmd target mem; Some (set_binder w s)
  | ODone p acquire ptr cookie => s ← bc_done (w_binder w) p acquire ptr cookie; Some (set_binder w s)
  | ORead todo => '(s, _) ← br_work (w_binder w) todo; Some (set_binder w s)
  | OMgr p euid mem =>
      '(s, uid, _) ← set_context_mgr (w_binder w) (w_uid w) p euid mem;
      Some (mk_world s uid (w_bufs w))
  | OCall p todo handle copied sup size data osize offs =>
      t ← find_target (w_binder w) p handle;
      match t with
      | inl _ => Some w
      | inr (n, target) =>
          '(s, res) ← transfer (w_binder w) p todo target (Some n) false copied sup size data osize offs;
          Some (sent w s res)
      end
  | OReply p todo target reply_fds copied sup size data osize offs =>
      '(s, res) ← transfer (w_binder w) p todo target None reply_fds copied sup size data osize offs;
      Some (sent w s res)
  | OFree i =>
      match w_bufs w !! i with
      | None => Some w
      | Some b =>
          '(s, _) ← binder_transaction_buffer_release (w_binder w) b (t_offs b) false;
          Some (mk_world s (w_uid w) (delete i (w_bufs w)))
      end
  end.

Fixpoint exec_all (w : world) (ops : list op) : option world :=
  match ops with
  | [] => Some w
  | o :: ops => w ← exec w o; exec_all w ops
  end.

(** By how much an operation may raise a count. *)
Definition cost (o : op) : Z :=
  match o with
  | OCall _ _ _ _ _ _ _ _ offs | OReply _ _ _ _ _ _ _ _ _ offs => 1 + 2 * Z.of_nat (length offs)
  | _ => 2
  end.

Fixpoint costs (ops : list op) : Z :=
  match ops with
  | [] => 0
  | o :: ops => cost o + costs ops
  end.

(** Operations come from processes and threads that exist, memory is fresh, and the objects of
    a transaction do not overlap ([sendable]).  Memory may be missing everywhere but in one
    place: a command on handle 0 finds it when it has to make the reference to the context
    manager, since the code uses the result without a check (binder.c:1819,
    [binder_handle0_no_memory]). *)
Definition op_ok (w : world) (o : op) : Prop :=
  let s := w_binder w in
  match o with
  | ORefs p _ target mem => is_Some (proc_at s !! p) ∧ (target = 0 → is_Some mem) ∧ fresh_mem s (None, mem)
  | ODone p _ _ _ => is_Some (proc_at s !! p)
  | ORead todo => is_Some (lists s !! todo) ∧ is_Some (list_proc s !! todo)
  | OMgr p _ mem => is_Some (proc_at s !! p) ∧ fresh_mem s (mem, None)
  | OCall p todo _ _ sup size data _ offs => sendable s p todo sup size data offs
  | OReply p todo target _ _ sup size data _ offs => sendable s p todo sup size data offs ∧ is_Some (proc_at s !! target)
  | OFree _ => True
  end.

Fixpoint run_ok (w : world) (ops : list op) : Prop :=
  match ops with
  | [] => True
  | o :: ops => op_ok w o ∧ ∀ w', exec w o = Some w' → run_ok w' ops
  end.

(** The counts are exactly those of the references and of the buffers in flight. *)
Definition world_inv (w : world) (k : Z) : Prop :=
  ∃ Ts, Forall2 (buf_holds (w_binder w)) (w_bufs w) Ts ∧ binder_inv (w_binder w) (concat Ts) k ∧
    Forall (λ b, is_Some (proc_at (w_binder w) !! t_proc b)) (w_bufs w).

Lemma bufs_keep s s' T' k bufs Ts :
  keeps s s' → binder_inv s' T' k → (∀ t, t ∈ concat Ts → t ∈ T') → Forall2 (buf_holds s) bufs Ts → Forall2 (buf_holds s') bufs Ts.
Proof.
  intros He Hi HT H. induction H as [|b T bufs Ts H1 H2 IH]; constructor.
  - eapply buf_holds_keeps; try done. intros t Ht. apply HT. simpl. apply elem_of_app. by left.
  - apply IH. intros t Ht. apply HT. simpl. apply elem_of_app. by right.
Qed.

Lemma world_step w s' uid k Ts :
  same_env (w_binder w) s' → Forall2 (buf_holds (w_binder w)) (w_bufs w) Ts → binder_inv s' (concat Ts) k →
  Forall (λ b, is_Some (proc_at (w_binder w) !! t_proc b)) (w_bufs w) → world_inv (mk_world s' uid (w_bufs w)) k.
Proof.
  intros He Hb Hi Hp. exists Ts. simpl. split; [|split; [done|]].
  - by apply (bufs_keep (w_binder w) s' (concat Ts) k); [apply (se_nodes _ _ He)|..].
  - eapply Forall_impl; [exact Hp|]. intros b Hbp. by apply (se_procs _ _ He).
Qed.

Lemma sent_inv w s' res k Ts :
  same_env (w_binder w) s' → Forall2 (buf_holds (w_binder w)) (w_bufs w) Ts →
  Forall (λ b, is_Some (proc_at (w_binder w) !! t_proc b)) (w_bufs w) →
  match res with
  | inl b => is_Some (proc_at (w_binder w) !! t_proc b) ∧ ∃ Tb, buf_holds s' b Tb ∧ binder_inv s' (Tb ++ concat Ts) k
  | inr _ => binder_inv s' (concat Ts) k
  end → world_inv (sent w s' res) k.
Proof.
  intros He Hb Hp Hres. destruct res as [b|fds]; [|by apply (world_step w s' (w_uid w) k Ts)]. destruct Hres as (Hbp & Tb & Hbb & Hi).
  exists (Ts ++ [Tb]). simpl. split; [|split].
  - apply Forall2_app; [|by constructor]. eapply bufs_keep; [apply (se_nodes _ _ He)|exact Hi| |done].
    intros t Ht. apply elem_of_app. by right.
  - eapply inv_perm; [|exact Hi]. rewrite concat_app. simpl. rewrite app_nil_r. solve_Permutation.
  - apply Forall_app. split; [|constructor; [by apply (se_procs _ _ He)|constructor]].
    eapply Forall_impl; [exact Hp|]. intros b' Hb'. by apply (se_procs _ _ He).
Qed.

Lemma free_inv w i b k :
  world_inv w k → k < max_ops → w_bufs w !! i = Some b →
  ∃ s' fds, binder_transaction_buffer_release (w_binder w) b (t_offs b) false = Some (s', fds) ∧
    world_inv (mk_world s' (w_uid w) (delete i (w_bufs w))) k.
Proof.
  intros (Ts & Hb & Hi & Hp) Hk Hlk.
  destruct (Forall2_lookup_l _ _ _ _ _ Hb Hlk) as (Tb & HTb & (To & ETb & Hobj)).
  assert (HT : concat Ts ≡ₚ Tb ++ concat (delete i Ts)).
  { rewrite <- (take_drop_middle Ts i Tb HTb) at 1. rewrite delete_take_drop, !concat_app. simpl. solve_Permutation. }
  rewrite Forall_lookup in Hp.
  destruct (buffer_release_spec (w_binder w) (concat (delete i Ts)) To k b (t_offs b) false) as (s' & fds & Hrun & Hi' & Hw); try done.
  - eapply inv_perm; [|exact Hi]. rewrite HT, ETb. solve_Permutation.
  - by apply (Hp i).
  - exists s', fds. split; [done|]. exists (delete i Ts). simpl. split; [|split; [done|]].
    + eapply bufs_keep; [apply stable_keeps, (sw_nodes _ _ Hw)|exact Hi'|done|]. by apply Forall2_delete.
    + rewrite delete_take_drop. apply Forall_app. split; apply Forall_lookup; intros j b' Hj; apply (sw_procs _ _ Hw).
      * apply lookup_take_Some in Hj as [Hj _]. by apply (Hp j).
      * rewrite lookup_drop in Hj. by apply (Hp (S i + j)%nat).
Qed.

Lemma exec_spec w o k :
  world_inv w k → k + cost o < max_ops → op_ok w o → ∃ w', exec w o = Some w' ∧ world_inv w' (k + cost o).
Proof.
  intros Hw Hk Hok. pose proof Hw as (Ts & Hb & Hi & Hp).
  destruct o as [p cmd target mem|p acq ptr cookie|h|p euid mem|p h handle copied sup size data osize offs|p h target rf copied sup size data osize offs|i];
    simpl in *.
  - destruct Hok as (Hpr & Hm & Hf1 & Hf2).
    destruct (bc_refs_spec _ _ k p cmd target mem Hi) as (s' & -> & Hi' & Hsw); try done; [lia|].
    cbn [mbind option_bind]. eexists. split; [done|]. by apply (world_step w s' _ _ Ts); [apply same_env_world|..].
  - destruct (bc_done_spec _ _ k p acq ptr cookie Hi) as (s' & -> & Hi' & Hsr); try done; [lia|]. cbn [mbind option_bind].
    eexists. split; [done|]. apply (world_step w s' _ _ Ts); try done; [by apply same_env_world, same_world_of|eapply inv_mono; [done|lia]].
  - destruct Hok as [Hl Hlp]. destruct (br_work_spec _ _ k h Hi) as (s' & c & -> & Hi' & Hsr); try done; [lia|]. cbn [mbind option_bind].
    eexists. split; [done|]. apply (world_step w s' _ _ Ts); try done; [by apply same_env_world, same_world_of|eapply inv_mono; [done|lia]].
  - destruct Hok as (Hpr & Hf1 & _).
    destruct (set_mgr_spec _ _ k (w_uid w) p euid mem Hi Hpr Hf1) as (s' & uid & ret & -> & Hi' & E1 & E2 & E3 & E4 & E5).
    cbn [mbind option_bind]. eexists. split; [done|]. apply (world_step w s' _ _ Ts); try done; [|eapply inv_mono; [done|lia]].
    split; [done|by rewrite E2|done|]. intros m z z' Hz Hz'. apply E5 in Hz. rewrite Hz in Hz'. by injection Hz' as <-.
  - destruct (find_target_spec _ _ k p handle Hi) as (res & -> & Hres); [apply (sd_proc _ _ _ _ _ _ _ Hok)|]. cbn [mbind option_bind].
    destruct res as [e|[n target]].
    { exists w. split; [done|]. exists Ts. split; [done|]. split; [eapply inv_mono; [done|lia]|done]. }
    destruct (Hres n target eq_refl) as [Ht Hx].
    destruct (transfer_spec _ _ k p h target (Some n) false copied sup size data osize offs Hi) as (s' & res & -> & He & Hr); try done; [lia|by intros ? [= <-]|].
    cbn [mbind option_bind]. eexists. split; [done|]. apply (sent_inv w s' res _ Ts); try done. rewrite Z.add_assoc.
    destruct res as [b|]; [|done]. destruct Hr as (-> & _ & _ & _ & Hr). done.
  - destruct Hok as [Hok Ht].
    destruct (transfer_spec _ _ k p h target None rf copied sup size data osize offs Hi) as (s' & res & -> & He & Hr); try done; [lia|].
    cbn [mbind option_bind]. eexists. split; [done|]. apply (sent_inv w s' res _ Ts); try done. rewrite Z.add_assoc.
    destruct res as [b|]; [|done]. destruct Hr as (-> & _ & _ & _ & Hr). done.
  - assert (Hmono : ∀ w', world_inv w' k → world_inv w' (k + 2)).
    { intros w' (Ts' & G1 & G2 & G3). exists Ts'. split; [done|]. split; [eapply inv_mono; [done|lia]|done]. }
    destruct (w_bufs w !! i) as [b|] eqn:Hlk; [|by eauto].
    destruct (free_inv w i b k Hw) as (s' & fds & -> & Hinv); [lia|done|]. cbn [mbind option_bind]. eexists. split; [done|]. by apply Hmono.
Qed.

(** Processes that have just opened the device: nothing offered, nothing referred
    to, no work for nodes, and each process has its list. *)
Record started (s : binder) : Prop := {
  sta_nodes : node_at s = ∅;
  sta_refs : ref_at s = ∅;
  sta_dead : dead_nodes s = [];
  sta_mgr : context_mgr_node s = 0;
  sta_procs : ∀ p P, proc_at s !! p = Some P →
    rb_root (p_nodes P) = 0 ∧ rb_root (refs_by_desc P) = 0 ∧ rb_root (refs_by_node P) = 0 ∧
    is_Some (lists s !! todo P) ∧ list_proc s !! todo P = Some p;
  sta_lists : ∀ h l n, lists s !! h = Some l → WNode n ∉ l }.

Lemma keyed_none t key (S : Z → Prop) : rb_root t = 0 → (∀ x, ¬ S x) → keyed t key S.
Proof.
  intros Hr HS. destruct t as [m r]. simpl in Hr. subst r. eapply keyed_ext; [| |apply (keyed_empty key m)]; [|done].
  intros x. split; [done|]. intros Hx. by apply (HS x).
Qed.

Lemma started_inv s : started s → binder_inv s [] 0.
Proof.
  intros [A B C D E F].
  assert (Hno : ∀ p n, ¬ owned s p n) by (intros p n (x & Hx & _); by rewrite A in Hx).
  assert (Hnr : ∀ p r, ¬ held s p r) by (intros p r (x & Hx & _); by rewrite B in Hx).
  split.
  - split.
    + intros p P HP. destruct (E p P HP) as (H1 & _). by apply keyed_none.
    + intros p P HP. destruct (E p P HP) as (_ & H2 & _). by apply keyed_none.
    + intros p P HP. destruct (E p P HP) as (_ & _ & H3 & _). by apply keyed_none.
    + intros p P HP. by destruct (E p P HP) as (_ & _ & _ & H4).
    + intros h l n Hl Hn. exfalso. by eapply F.
    + intros n x p Hn. by rewrite A in Hn.
    + intros n. rewrite A, C. split; [by intros ?%elem_of_nil|by intros (? & ? & _)].
  - intros n x Hn. by rewrite A in Hn.
  - intros r y Hr. by rewrite B in Hr.
  - by intros t ?%elem_of_nil.
  - simpl. lia.
  - by left.
Qed.

Lemma costs_pos ops : 0 ≤ costs ops.
Proof. induction ops as [|o ops IH]; simpl; [lia|]. destruct o; simpl; lia. Qed.

Lemma exec_all_spec ops : ∀ w k,
  world_inv w k → run_ok w ops → k + costs ops < max_ops → ∃ w', exec_all w ops = Some w' ∧ world_inv w' (k + costs ops).
Proof.
  induction ops as [|o ops IH]; intros w k Hw Hok Hk; simpl in *.
  { exists w. split; [done|]. by rewrite Z.add_0_r. }
  destruct Hok as [Ho Hrest]. pose proof (costs_pos ops).
  destruct (exec_spec w o k Hw) as (w1 & Hrun & Hw1); [lia|done|]. rewrite Hrun. cbn [mbind option_bind].
  destruct (IH w1 (k + cost o) Hw1 (Hrest w1 Hrun)) as (w' & -> & Hw'); [lia|]. exists w'. split; [done|].
  by rewrite Z.add_assoc.
Qed.

(** ** What an object means to a process, as the driver finds it *)

Definition denotes (s : binder) (p : Z) (fp : flat_binder_object) : option (option Z) :=
  if binder_type fp then binder_get_node s p (f_val fp)
  else
    ref ← binder_get_ref s p (u32 (f_val fp));
    match ref with
    | None => Some None
    | Some r => y ← ref_at s !! r; Some (Some (r_node y))
    end.

Lemma names_denotes s T k p fp n :
  binder_inv s T k → is_Some (proc_at s !! p) → names s p fp n → denotes s p fp = Some (Some n).
Proof.
  intros Hi Hp Hn. pose proof Hp as [P HP]. pose proof (bi_struct _ _ _ Hi) as Hs. unfold denotes.
  destruct Hn as [(Hb & x & Hx & Hxp & Hv)|(Hh & r & y & Hy & Hyp & Hd & Hyn)].
  - rewrite Hb. destruct (get_node_spec s (held s) p P (f_val fp) Hs HP) as [(n' & x' & -> & Hx' & Hp' & Hv')|[_ Hno]].
    + do 2 f_equal. eapply (owned_inj s (held s) p n' n x' x); try done. congruence.
    + exfalso. by apply (Hno n x).
  - assert (binder_type fp = false) as ->.
    { unfold handle_type, binder_type in *. destruct (Z.eqb_spec (f_type fp) BINDER_TYPE_BINDER) as [E|]; [by rewrite E in Hh|].
      destruct (Z.eqb_spec (f_type fp) BINDER_TYPE_WEAK_BINDER) as [E|]; [by rewrite E in Hh|done]. }
    destruct (get_ref_spec s (held s) p P (u32 (f_val fp)) Hs) as [(r' & y' & -> & Hy' & (y'' & Hy'' & Hyp'') & Hd')|[_ Hno]]; try done.
    + cbn [mbind option_bind]. rewrite Hy'. cbn [mbind option_bind]. rewrite Hy' in Hy''. injection Hy'' as <-.
      assert (r' = r) as -> by (eapply (held_inj s p r' r y' y); try done; congruence). rewrite Hy in Hy'. injection Hy' as <-. by rewrite Hyn.
    + exfalso. apply (Hno r y Hy); [by exists y|done].
Qed.

(** ** Theorems *)

(** C23: From the opening of the device on, over any sequence of commands on
    references, confirmations, reads of node work, calls, replies and returned
    buffers, with any failures of copies and descriptors, and of memory except
    where a command on handle 0 makes the reference to the context manager, and as
    long as the objects of one transaction do not overlap and the operations cost
    less than 2147483640 in all (2 for each command, and 1 and 2 more for each object
    for a call or reply, by which they may raise a count): the driver follows no dangling
    pointer and hits no BUG; every reference leads to a node that exists and is on
    its list; the strong count of a node is the number of strong references to it;
    its local counts are exactly those of the buffers in flight, of what the owner
    has yet to confirm and of the context manager; no count overflows. *)
Theorem binder_refs_invariant s ops :
  started s → run_ok (mk_world s no_uid []) ops → costs ops < max_ops →
  ∃ w, exec_all (mk_world s no_uid []) ops = Some w ∧ world_inv w (costs ops).
Proof.
  intros Hs Hok Hk. apply (exec_all_spec ops (mk_world s no_uid []) 0); [|done|done].
  exists []. split; [constructor|]. split; [by apply started_inv|constructor].
Qed.

(** C24: An object that arrives means what was sent: the node the receiver finds for
    the translated object is the node the sender finds for the original, and a
    strong (weak) object stays strong (weak).  A file becomes the descriptor
    that was opened for the receiver. *)
Theorem binder_object_translated s T k p h target tn reply_fds fd mem fp :
  binder_inv s T k → k + 1 < max_ops → is_Some (proc_at s !! p) → is_Some (proc_at s !! target) →
  is_Some (lists s !! h) → list_proc s !! h = Some p → (∀ n, tn = Some n → is_Some (node_at s !! n)) → fresh_mem s mem →
  ∃ s' res, xlate_obj s p h target tn reply_fds fd mem fp = Some (s', res) ∧
    ∀ fp', res = Some fp' → f_flags fp' = f_flags fp ∧
      if f_type fp =? BINDER_TYPE_FD then f_type fp' = BINDER_TYPE_FD ∧ fd (f_val fp) = Some (f_val fp')
      else strong_type fp' = strong_type fp ∧
        ∃ n, is_Some (node_at s' !! n) ∧ denotes s' p fp = Some (Some n) ∧ denotes s' target fp' = Some (Some n).
Proof.
  intros Hi Hk Hp Ht Hh Hhp Htn Hm.
  destruct (xlate_obj_spec s T k p h target tn reply_fds fd mem fp Hi Hk Hp Ht Hh Hhp Htn Hm) as (s' & res & Ti & Hrun & Hi' & He & Hres).
  exists s', res. split; [done|]. intros fp' ->. destruct Hres as (_ & Hfl & Hx). split; [done|]. unfold xlated in Hx.
  destruct (f_type fp =? BINDER_TYPE_FD); [by destruct Hx as (? & ? & _)|]. destruct Hx as ((n & N1 & N2) & Hst & _). split; [done|].
  exists n. split.
  - destruct N1 as [(_ & x & Hx & _)|(_ & r & y & Hy & _ & _ & <-)]; [by eauto|]. by destruct (bi_refs _ _ _ Hi' r y Hy).
  - split; (eapply names_denotes; [exact Hi'| |done]); by apply (ex_procs _ _ _ _ He).
Qed.

(** ** Two processes pass objects to each other *)

Definition memory (l : list (option Z * option Z)) : supplies := mk_supplies l (λ _, None).

(** Process 200 sends its object to process 100, which calls it twice, the second
    time with an object of its own at the offsets [offs]; then the buffers are
    given back, that of the second call first. *)
Definition exchange (offs : list Z) : list op :=
  [OReply 200 208 100 false true (memory [(Some 64, Some 128)]) 16 [BINDER_TYPE_BINDER; 0; 20480; 0] 4 [0];
   OCall 100 108 1 true (memory []) 0 [] 0 [];
   OCall 100 108 1 true (memory [(Some 256, Some 320)]) 16 [BINDER_TYPE_BINDER; 0; 24576; 0] 8 offs;
   OFree 2; OFree 0; OFree 0].

(** Nothing checks that the objects of a transaction are apart.  With the same
    offset twice, the object is first translated to a handle of the receiver and
    then, taken for a handle of the sender, to a node of the receiver; the one
    hold that was taken on it is given back twice.  The node is freed while the
    buffer of the first call still refers to it, and releasing that buffer works
    on freed memory.  Without the repetition the same run ends with nothing left. *)
Theorem binder_overlap_use_after_free :
  (∃ w, exec_all (mk_world boot no_uid []) (take 5 (exchange [0; 0])) = Some w ∧
     (t_node <$> w_bufs w) = [Some 64] ∧ node_at (w_binder w) !! 64 = None) ∧
  exec_all (mk_world boot no_uid []) (exchange [0; 0]) = None ∧
  (∃ w, exec_all (mk_world boot no_uid []) (exchange [0]) = Some w ∧
     w_bufs w = [] ∧ node_at (w_binder w) = ∅ ∧ ref_at (w_binder w) = ∅).
Proof.
  split; [|split]; [eexists; split; [vm_compute; reflexivity|done]|vm_compute; reflexivity|].
  eexists. split; [vm_compute; reflexivity|]. done.
Qed.

(** Process 200 is the context manager; process 100 takes a reference to handle 0 when there is
    no memory for it: NULL is followed. *)
Theorem binder_handle0_no_memory :
  is_Some (exec_all (mk_world boot no_uid []) [OMgr 200 0 (Some 64)]) ∧
  exec_all (mk_world boot no_uid []) [OMgr 200 0 (Some 64); ORefs 100 BC_ACQUIRE 0 None] = None.
Proof. split; [vm_compute; eauto|vm_compute; reflexivity]. Qed.

(** ** Witnesses *)

Lemma all_apart_sorted offs : StronglySorted (λ a b, a + FLAT ≤ b) offs → all_apart offs.
Proof.
  intros Hs l1 a l2 b l3 ->. apply StronglySorted_app in Hs as (_ & _ & Hs). inversion Hs as [|? ? _ Hall]; subst.
  rewrite Forall_forall in Hall. left. apply Hall. apply elem_of_app. right. by left.
Qed.

Lemma boot_started : started boot.
Proof.
  split; try done.
  - intros p P HP. destruct (boot_proc p P HP) as [[-> ->]|[-> ->]]; split_and!; try done; by eauto.
  - intros h l n Hl Hn. assert (l = []) as ->; [|by apply elem_of_nil in Hn]. simpl in Hl.
    rewrite !lookup_insert_Some, lookup_singleton_Some in Hl. naive_solver.
Qed.

Ltac is_some := vm_compute; eexists; reflexivity.

Lemma sendable_intro s p h l size data offs :
  is_Some (proc_at s !! p) → is_Some (lists s !! h) → list_proc s !! h = Some p → fresh_mems s l →
  StronglySorted (λ a b, a + FLAT ≤ b) offs → Forall (λ o, 0 ≤ o) offs → 0 ≤ size < 2 ^ 32 → size ≤ 4 * Z.of_nat (length data) →
  sendable s p h (memory l) size data offs.
Proof. intros. split; try done. by apply all_apart_sorted. Qed.

Lemma fresh_mems_one s n r : addr n → addr r → node_at s !! n = None → ref_at s !! r = None → fresh_mems s [(Some n, Some r)].
Proof.
  intros Hn Hr H1 H2. split; [constructor; [|constructor]|split; apply NoDup_singleton].
  split; intros ? [= <-]; done.
Qed.

Definition world0 : world := mk_world boot no_uid [].
Definition world1 : world := Eval vm_compute in default world0 (exec_all world0 (take 1 (exchange [0]))).

Lemma binder_refs_invariant_witness :
  ∃ w, exec_all world0 (take 2 (exchange [0])) = Some w ∧ world_inv w 4.
Proof.
  apply (binder_refs_invariant boot (take 2 (exchange [0]))); [exact boot_started| |reflexivity].
  split.
  - split; [apply sendable_intro|]; try (is_some); try reflexivity; try (vm_compute; split; congruence); try (vm_compute; congruence).
    + apply fresh_mems_one; [split; [lia|exists 16; lia]|split; [lia|exists 32; lia]|reflexivity|reflexivity].
    + constructor; constructor.
    + constructor; [lia|constructor].
  - intros w1 Hw1. assert (w1 = world1) as -> by (vm_compute in Hw1; injection Hw1 as <-; reflexivity).
    split; [|intros w2 _; exact I].
    apply sendable_intro; try is_some; try reflexivity; try (vm_compute; split; congruence); try (vm_compute; congruence).
    + apply fresh_mems_nil.
    + constructor.
    + constructor.
Defined.

(** Process 200 sends a new object to process 100. *)
Lemma binder_object_translated_witness :
  ∃ s' fp' n, xlate_obj boot 200 208 100 None false (λ _, None) (Some 64, Some 128)
      (mk_flat BINDER_TYPE_BINDER 0 20480 0) = Some (s', Some fp') ∧
    denotes s' 200 (mk_flat BINDER_TYPE_BINDER 0 20480 0) = Some (Some n) ∧ denotes s' 100 fp' = Some (Some n).
Proof.
  destruct (binder_object_translated boot [] 0 200 208 100 None false (λ _, None) (Some 64, Some 128)
    (mk_flat BINDER_TYPE_BINDER 0 20480 0)) as (s' & res & Hrun & Hres).
  - exact boot_inv.
  - reflexivity.
  - is_some.
  - is_some.
  - is_some.
  - reflexivity.
  - discriminate.
  - split; intros ? [= <-]; (split; [split; [lia|]|reflexivity]); [exists 16|exists 32]; lia.
  - destruct res as [fp'|].
    + destruct (Hres fp' eq_refl) as (_ & _ & n & _ & H1 & H2). exists s', fp', n. split; [exact Hrun|]. split; [exact H1|exact H2].
    + exfalso. vm_compute in Hrun. discriminate.
Defined.
