(* ===== verification/BinderTxn.v ===== *)
(** Threads and transactions of binder (drivers/staging/android/binder.c): calls,
    replies, one-way calls, the stacks that tie a reply to its call across
    processes, failed replies, and the exit of threads.

    Threads, transactions and buffers live in stores by address; following a
    pointer to a freed one is the outcome [None], as is a BUG.  What becomes of
    the data of a transaction (allocation, copying, objects) is an input here:
    the address of the buffer, or [None] when something failed; BinderAlloc.v and
    BinderObj.v are about it.  Of the lists of work the model has transactions and
    completion notes; the work of nodes is in BinderRef.v.  Processes and nodes are
    not freed here (a buffer holds its node).  Waking up threads, priorities, the
    looper states and the log of transactions are left out. *)

From S2P Require Import Prelude.

(** ** Data *)

(** Return codes that can be pending for a thread. *)
Inductive br_code := BR_OK | BR_FAILED_REPLY | BR_DEAD_REPLY | BR_TRANSACTION_COMPLETE.

#[global] Instance br_code_eq_dec : EqDecision br_code.
Proof. solve_decision. Defined.

(** A transaction, or the note that one was sent. *)
Inductive titem := TTxn (t : Z) | TComplete.

#[global] Instance titem_eq_dec : EqDecision titem.
Proof. solve_decision. Defined.

Record binder_thread := mk_thread {
  th_proc : Z;
  transaction_stack : option Z;
  th_todo : list titem;
  return_error : br_code;
  return_error2 : br_code }.

Record binder_transaction := mk_txn {
  x_from : option Z;
  x_from_parent : option Z;
  x_to_proc : option Z;
  x_to_thread : option Z;
  x_to_parent : option Z;
  x_need_reply : bool;
  x_buffer : option Z;
  x_one_way : bool }.

(** Of a buffer: its transaction, the node it was sent to, and two flags. *)
Record txn_buffer := mk_tb {
  b_txn : option Z;
  b_node : option Z;
  b_async : bool;
  b_allow : bool;
  b_proc : Z }.

(** Of a node: [has_async_transaction] and [async_todo]. *)
Record async_node := mk_async {
  a_busy : bool;
  a_todo : list Z }.

Record txns := mk_txns {
  threads : gmap Z binder_thread;
  txn_at : gmap Z binder_transaction;
  tbuf_at : gmap Z txn_buffer;
  proc_todo : gmap Z (list titem);
  async_at : gmap Z async_node }.

Definition put_thread (s : txns) (th : Z) (x : binder_thread) : txns :=
  mk_txns (<[th := x]> (threads s)) (txn_at s) (tbuf_at s) (proc_todo s) (async_at s).
Definition put_txn (s : txns) (t : Z) (x : binder_transaction) : txns :=
  mk_txns (threads s) (<[t := x]> (txn_at s)) (tbuf_at s) (proc_todo s) (async_at s).
Definition drop_txn (s : txns) (t : Z) : txns :=
  mk_txns (threads s) (delete t (txn_at s)) (tbuf_at s) (proc_todo s) (async_at s).
Definition put_buf (s : txns) (b : Z) (x : txn_buffer) : txns :=
  mk_txns (threads s) (txn_at s) (<[b := x]> (tbuf_at s)) (proc_todo s) (async_at s).
Definition drop_buf (s : txns) (b : Z) : txns :=
  mk_txns (threads s) (txn_at s) (delete b (tbuf_at s)) (proc_todo s) (async_at s).
Definition put_todo (s : txns) (p : Z) (l : list titem) : txns :=
  mk_txns (threads s) (txn_at s) (tbuf_at s) (<[p := l]> (proc_todo s)) (async_at s).
Definition put_async (s : txns) (n : Z) (x : async_node) : txns :=
  mk_txns (threads s) (txn_at s) (tbuf_at s) (proc_todo s) (<[n := x]> (async_at s)).

Definition set_stack (x : binder_thread) (t : option Z) : binder_thread :=
  mk_thread (th_proc x) t (th_todo x) (return_error x) (return_error2 x).
Definition set_todo (x : binder_thread) (l : list titem) : binder_thread :=
  mk_thread (th_proc x) (transaction_stack x) l (return_error x) (return_error2 x).
Definition set_errors (x : binder_thread) (e e2 : br_code) : binder_thread :=
  mk_thread (th_proc x) (transaction_stack x) (th_todo x) e e2.

Definition set_data (x : binder_transaction) (b : option Z) : binder_transaction :=
  mk_txn (x_from x) (x_from_parent x) (x_to_proc x) (x_to_thread x) (x_to_parent x) (x_need_reply x) b (x_one_way x).
Definition set_from (x : binder_transaction) (f : option Z) : binder_transaction :=
  mk_txn f (x_from_parent x) (x_to_proc x) (x_to_thread x) (x_to_parent x) (x_need_reply x) (x_buffer x) (x_one_way x).
Definition set_to (x : binder_transaction) (p th parent : option Z) : binder_transaction :=
  mk_txn (x_from x) (x_from_parent x) p th parent (x_need_reply x) (x_buffer x) (x_one_way x).

Definition set_b_txn (b : txn_buffer) (t : option Z) : txn_buffer := mk_tb t (b_node b) (b_async b) (b_allow b) (b_proc b).
Definition set_b_allow (b : txn_buffer) : txn_buffer := mk_tb (b_txn b) (b_node b) (b_async b) true (b_proc b).

Definition option_eqb (a b : option Z) : bool := bool_decide (a = b).
Definition is_ok (e : br_code) : bool := bool_decide (e = BR_OK).

(** ** Ending a transaction *)

(** [if (t->buffer) t->buffer->transaction = NULL]. *)
Definition unlink_buffer (s : txns) (b : option Z) : option txns :=
  match b with
  | None => Some s
  | Some b => x ← tbuf_at s !! b; Some (put_buf s b (set_b_txn x None))
  end.

Definition binder_pop_transaction (s : txns) (target_thread : option Z) (t : Z) : option txns :=
  x ← txn_at s !! t;
  s ← match target_thread with
      | None => Some s
      | Some w =>
          th ← threads s !! w;
          if negb (option_eqb (transaction_stack th) (Some t)) then None              (* BUG_ON *)
          else if negb (option_eqb (x_from x) (Some w)) then None                      (* BUG_ON *)
          else Some (put_thread s w (set_stack th (x_from_parent x)))
      end;
  s ← unlink_buffer s (x_buffer x);
  Some (drop_txn s t).

(** The loop of [binder_send_failed_reply]. *)
Fixpoint failed_reply_loop (fuel : nat) (s : txns) (t : Z) (error_code : br_code) : option txns :=
  match fuel with
  | O => None
  | S fuel =>
      x ← txn_at s !! t;
      match x_from x with
      | Some w =>
          th ← threads s !! w;
          let th := if negb (is_ok (return_error th)) && is_ok (return_error2 th)
                    then set_errors th BR_OK (return_error th) else th in
          let s := put_thread s w th in
          if is_ok (return_error th) then
            s ← binder_pop_transaction s (Some w) t;
            th ← threads s !! w;
            Some (put_thread s w (set_errors th error_code (return_error2 th)))
          else Some s
      | None =>
          let next := x_from_parent x in
          s ← binder_pop_transaction s None t;
          match next with
          | None => Some s
          | Some t => failed_reply_loop fuel s t error_code
          end
      end
  end.

Definition txn_fuel (s : txns) : nat := S (size (txn_at s)).

Definition binder_send_failed_reply (s : txns) (t : Z) (error_code : br_code) : option txns :=
  x ← txn_at s !! t;
  if x_one_way x then None                                                            (* BUG_ON *)
  else failed_reply_loop (txn_fuel s) s t error_code.

(** ** Sending *)

(** The end of [binder_transaction] when it failed. *)
Definition transaction_failed (s : txns) (thread : Z) (in_reply_to : option Z) (error : br_code) : option txns :=
  th ← threads s !! thread;
  if negb (is_ok (return_error th)) then None                                          (* BUG_ON *)
  else
    match in_reply_to with
    | Some t => binder_send_failed_reply (put_thread s thread (set_errors th BR_TRANSACTION_COMPLETE (return_error2 th))) t error
    | None => Some (put_thread s thread (set_errors th error (return_error2 th)))
    end.

(** The thread of the target process that waits, directly or not, for the call
    being handled: the last one on the way up. *)
Fixpoint find_target_thread (fuel : nat) (s : txns) (tmp : option Z) (target_proc : Z) (found : option Z) : option (option Z) :=
  match tmp with
  | None => Some found
  | Some t =>
      match fuel with
      | O => None
      | S fuel =>
          x ← txn_at s !! t;
          found ← match x_from x with
                  | None => Some found
                  | Some w => th ← threads s !! w; Some (if th_proc th =? target_proc then Some w else found)
                  end;
          find_target_thread fuel s (x_from_parent x) target_proc found
      end
  end.

(** The lists of a process and of a node; they are empty before their first use. *)
Definition todo_of (s : txns) (p : Z) : list titem := default [] (proc_todo s !! p).
Definition node_of (s : txns) (n : Z) : async_node := default (mk_async false []) (async_at s !! n).

(** [list_add_tail(&t->work.entry, target_list)]: the list of the target thread,
    or of the process. *)
Definition queue_txn (s : txns) (target_proc : Z) (target_thread : option Z) (t : Z) : option txns :=
  match target_thread with
  | Some w => th ← threads s !! w; Some (put_thread s w (set_todo th (th_todo th ++ [TTxn t])))
  | None => Some (put_todo s target_proc (todo_of s target_proc ++ [TTxn t]))
  end.

Definition queue_complete (s : txns) (thread : Z) : option txns :=
  th ← threads s !! thread; Some (put_thread s thread (set_todo th (th_todo th ++ [TComplete]))).

(** The thread a call goes to ([None]: any thread of the process).  The outer
    [option] is a fault, the next one the error "bad transaction stack". *)
Definition call_target (s : txns) (thread : Z) (one_way : bool) (target_proc : Z) : option (option (option Z)) :=
  th ← threads s !! thread;
  if one_way then Some (Some None)
  else match transaction_stack th with
       | None => Some (Some None)
       | Some tmp =>
           x ← txn_at s !! tmp;
           if negb (option_eqb (x_to_thread x) (Some thread)) then Some None
           else w ← find_target_thread (txn_fuel s) s (Some tmp) target_proc None; Some (Some w)
       end.

(** The end of [binder_transaction] for a call: it becomes the top of the caller's
    stack; of the one-way calls to a node all but the first wait at the node. *)
Definition call_queue (s : txns) (thread : Z) (th : binder_thread) (one_way : bool) (node target_proc : Z) (target_thread : option Z) (t : Z) : option txns :=
  if negb one_way then queue_txn (put_thread s thread (set_stack th (Some t))) target_proc target_thread t
  else if a_busy (node_of s node) then Some (put_async s node (mk_async true (a_todo (node_of s node) ++ [t])))
  else queue_txn (put_async s node (mk_async true (a_todo (node_of s node)))) target_proc target_thread t.

(** BC_TRANSACTION; [target] is what the handle leads to, a node and its process,
    or an error; [mem] is the transaction and its buffer, [None] if there is no
    memory or the data cannot be transferred. *)
Definition transaction_call (s : txns) (thread : Z) (target : br_code + Z * Z) (one_way : bool) (mem : option (Z * Z)) : option txns :=
  match target with
  | inl e => transaction_failed s thread None e
  | inr (node, target_proc) =>
      target_thread ← call_target s thread one_way target_proc;
      match target_thread, mem with
      | None, _ | _, None => transaction_failed s thread None BR_FAILED_REPLY
      | Some w, Some (t, b) =>
          th ← threads s !! thread;
          let x := mk_txn (if one_way then None else Some thread) (if one_way then None else transaction_stack th)
                     (Some target_proc) w None (negb one_way) (Some b) one_way in
          let s := put_buf (put_txn s t x) b (mk_tb (Some t) (Some node) one_way false target_proc) in
          s ← call_queue s thread th one_way node target_proc w t;
          queue_complete s thread
      end
  end.

(** BC_REPLY. *)
Definition transaction_reply (s : txns) (thread : Z) (one_way : bool) (mem : option (Z * Z)) : option txns :=
  th ← threads s !! thread;
  match transaction_stack th with
  | None => transaction_failed s thread None BR_FAILED_REPLY
  | Some in_reply_to =>
      x ← txn_at s !! in_reply_to;
      if negb (option_eqb (x_to_thread x) (Some thread)) then transaction_failed s thread None BR_FAILED_REPLY
      else
        let s := put_thread s thread (set_stack th (x_to_parent x)) in
        match x_from x with
        | None => transaction_failed s thread (Some in_reply_to) BR_DEAD_REPLY
        | Some w =>
            tw ← threads s !! w;
            if negb (option_eqb (transaction_stack tw) (Some in_reply_to)) then transaction_failed s thread None BR_FAILED_REPLY
            else
              match mem with
              | None => transaction_failed s thread (Some in_reply_to) BR_FAILED_REPLY
              | Some (t, b) =>
                  let x := mk_txn None None (Some (th_proc tw)) (Some w) None false (Some b) one_way in
                  let s := put_buf (put_txn s t x) b (mk_tb (Some t) None false false (th_proc tw)) in
                  s ← binder_pop_transaction s (Some w) in_reply_to;
                  s ← queue_txn s (th_proc tw) (Some w) t;
                  queue_complete s thread
              end
        end
  end.

(** ** Receiving *)

(** Pending errors are given to the reader before anything else; [fits] says
    whether there is room for the second one, [puts] how many of the codes can be
    stored before a fault. *)
Definition read_error (s : txns) (thread : Z) (fits : bool) (puts : nat) : option txns :=
  th ← threads s !! thread;
  if is_ok (return_error th) then Some s
  else if is_ok (return_error2 th) then
    if (1 <=? puts)%nat then Some (put_thread s thread (set_errors th BR_OK BR_OK)) else Some s
  else if (puts <? 1)%nat || negb fits then Some s
  else Some (put_thread s thread (set_errors th (if (2 <=? puts)%nat then BR_OK else return_error th) BR_OK)).

(** Delivering transaction [t], which has been taken off its list. *)
Definition read_txn (s : txns) (thread t : Z) : option txns :=
  x ← txn_at s !! t;
  b ← x_buffer x;                                                                      (* BUG_ON *)
  y ← tbuf_at s !! b;
  _ ← match x_from x with None => Some tt | Some w => _ ← threads s !! w; Some tt end;
  let s := put_buf s b (set_b_allow y) in
  match b_node y with
  | Some _ =>
      if negb (x_one_way x) then
        th ← threads s !! thread;
        Some (put_thread (put_txn s t (set_to x (x_to_proc x) (Some thread) (transaction_stack th))) thread (set_stack th (Some t)))
      else Some (drop_txn (put_buf s b (set_b_txn (set_b_allow y) None)) t)
  | None => Some (drop_txn (put_buf s b (set_b_txn (set_b_allow y) None)) t)
  end.

(** One turn of the loop of [binder_thread_read]: the thread's own list first, that
    of the process only for a thread without transactions.  An error may have come
    up while the thread was asleep, so this can happen with one pending. *)
Definition read_work (s : txns) (thread : Z) : option txns :=
  th ← threads s !! thread;
  match th_todo th with
  | TTxn t :: l => read_txn (put_thread s thread (set_todo th l)) thread t
  | TComplete :: l => Some (put_thread s thread (set_todo th l))
  | [] =>
      match transaction_stack th with
      | Some _ => Some s
      | None =>
          match todo_of s (th_proc th) with
          | TTxn t :: l => read_txn (put_todo s (th_proc th) l) thread t
          | TComplete :: l => Some (put_todo s (th_proc th) l)
          | [] => Some s
          end
      end
  end.

(** BC_FREE_BUFFER, once the buffer has been looked up. *)
Definition free_buffer (s : txns) (thread b : Z) : option txns :=
  th ← threads s !! thread;
  match tbuf_at s !! b with
  | None => Some s
  | Some y =>
      if negb (b_proc y =? th_proc th) || negb (b_allow y) then Some s
      else
        s ← match b_txn y with
            | None => Some s
            | Some t => x ← txn_at s !! t; Some (put_txn s t (set_data x None))
            end;
        s ← match b_node y with
            | Some n =>
                if b_async y then
                  if negb (a_busy (node_of s n)) then None                              (* BUG_ON *)
                  else match a_todo (node_of s n) with
                       | [] => Some (put_async s n (mk_async false []))
                       | t :: l =>
                           Some (put_thread (put_async s n (mk_async true l)) thread (set_todo th (th_todo th ++ [TTxn t])))
                       end
                else Some s
            | None => Some s
            end;
        Some (drop_buf s b)
  end.

(** ** The exit of a thread *)

Fixpoint exit_loop (fuel : nat) (s : txns) (thread : Z) (t : option Z) : option txns :=
  match t with
  | None => Some s
  | Some t =>
      match fuel with
      | O => None
      | S fuel =>
          x ← txn_at s !! t;
          if option_eqb (x_to_thread x) (Some thread) then
            s ← unlink_buffer s (x_buffer x);
            exit_loop fuel (put_txn s t (set_data (set_to x None None (x_to_parent x)) None)) thread (x_to_parent x)
          else if option_eqb (x_from x) (Some thread) then
            exit_loop fuel (put_txn s t (set_from x None)) thread (x_from_parent x)
          else None                                                                     (* BUG *)
      end
  end.

(** [binder_release_work] on the items of a list. *)
Fixpoint release_work (s : txns) (items : list titem) : option txns :=
  match items with
  | [] => Some s
  | TComplete :: items => release_work s items
  | TTxn t :: items =>
      x ← txn_at s !! t;
      b ← x_buffer x;
      y ← tbuf_at s !! b;
      s ← match b_node y with
          | Some _ => if negb (x_one_way x) then binder_send_failed_reply s t BR_DEAD_REPLY else Some s
          | None => Some s
          end;
      release_work s items
  end.

Definition drop_thread (s : txns) (thread : Z) : txns :=
  mk_txns (delete thread (threads s)) (txn_at s) (tbuf_at s) (proc_todo s) (async_at s).

(** The thread leaves the store at once, when it leaves the tree of its process:
    nothing may reach it after that, although its memory is freed only at the end. *)
Definition binder_free_thread (s : txns) (thread : Z) : option txns :=
  th ← threads s !! thread;
  let s := drop_thread s thread in
  send_reply ← match transaction_stack th with
               | None => Some None
               | Some t => x ← txn_at s !! t; Some (if option_eqb (x_to_thread x) (Some thread) then Some t else None)
               end;
  s ← exit_loop (txn_fuel s) s thread (transaction_stack th);
  s ← match send_reply with
      | None => Some s
      | Some t => binder_send_failed_reply s t BR_DEAD_REPLY
      end;
  release_work s (th_todo th).

(** ** Commands and reads *)

(** [binder_thread_write] runs no command while an error is pending. *)
Definition when_ok (s : txns) (thread : Z) (f : option txns) : option txns :=
  th ← threads s !! thread;
  if is_ok (return_error th) then f else Some s.

(** [binder_get_thread]; [thread] is the address of the thread found or made. *)
Definition get_thread (s : txns) (thread proc : Z) : txns :=
  match threads s !! thread with
  | Some _ => s
  | None => put_thread s thread (mk_thread proc None [] BR_OK BR_OK)
  end.

Inductive txn_op :=
  | TGet (thread proc : Z)
  | TCall (thread : Z) (target : br_code + Z * Z) (one_way : bool) (mem : option (Z * Z))
  | TReply (thread : Z) (one_way : bool) (mem : option (Z * Z))
  | TFree (thread b : Z)
  | TReadError (thread : Z) (fits : bool) (puts : nat)
  | TRead (thread : Z)
  | TExit (thread : Z).

Definition txn_step (s : txns) (op : txn_op) : option txns :=
  match op with
  | TGet th p => Some (get_thread s th p)
  | TCall th target one_way mem => when_ok s th (transaction_call s th target one_way mem)
  | TReply th one_way mem => when_ok s th (transaction_reply s th one_way mem)
  | TFree th b => when_ok s th (free_buffer s th b)
  | TReadError th fits puts => read_error s th fits puts
  | TRead th => read_work s th
  | TExit th => binder_free_thread s th
  end.

(** The steps the theorems are about.  That the thread exists (binder_ioctl makes it
    first: [TGet]) and that memory handed out is new hold of any execution.  The last
    condition is one on the callers, which binder_transaction does not check: a call
    does not lead back to the calling thread itself.  Handle 0 allows the context
    manager to make such a call; [binder_self_call_fault] (BinderCalls.v) shows the
    BUG it runs into. *)
Definition new_memory (s : txns) (mem : option (Z * Z)) : bool :=
  match mem with
  | None => true
  | Some (t, b) => bool_decide (txn_at s !! t = None) && bool_decide (tbuf_at s !! b = None)
  end.

Definition is_thread (s : txns) (th : Z) : bool := bool_decide (is_Some (threads s !! th)).

Definition txn_possible (s : txns) (op : txn_op) : bool :=
  match op with
  | TGet _ _ => true
  | TCall th target one_way mem =>
      is_thread s th && new_memory s mem &&
      match target with
      | inl _ => true
      | inr (_, p) => negb (bool_decide (call_target s th one_way p = Some (Some (Some th))))
      end
  | TReply th _ mem => is_thread s th && new_memory s mem
  | TFree th _ | TReadError th _ _ | TRead th | TExit th => is_thread s th
  end.

(** The driver performs every step; [None] is a BUG or a pointer to freed memory. *)
Fixpoint txn_run (s : txns) (ops : list txn_op) : option txns :=
  match ops with [] => Some s | op :: ops => s ← txn_step s op; txn_run s ops end.

(** Each step is possible in the state the steps before it lead to; in particular,
    no thread makes a call that leads back to itself. *)
Fixpoint txns_possible (s : txns) (ops : list txn_op) : bool :=
  match ops with
  | [] => true
  | op :: ops => txn_possible s op && match txn_step s op with Some s => txns_possible s ops | None => true end
  end.

Definition txns_init : txns := mk_txns ∅ ∅ ∅ ∅ ∅.
