(* ===== verification/BinderChain.v ===== *)
(** The transactions of binder keep their promises (the model is BinderTxn.v):
    calls in progress form chains, the stacks of the threads are these chains seen
    from the threads, and no sequence of calls, replies, reads, failures and exits
    of threads makes the code follow a dangling pointer or run into a BUG. *)

From S2P Require Import Prelude BinderTxn.

(** ** Chains of calls

    The calls in progress form chains: a thread calls, the thread that handles the
    call makes the next one while it does, and so on.  A chain has the thread that
    made the first call (its [root]) and the calls, each with who handles it. *)

Inductive slot := LThread (th : Z) | LProc (p : Z) | LNode (n : Z).

Inductive actor := Queued (at_ : slot) | By (th : Z) | Gone.

#[global] Instance slot_eq_dec : EqDecision slot.
Proof. solve_decision. Defined.

#[global] Instance actor_eq_dec : EqDecision actor.
Proof. solve_decision. Defined.

Record chain := mk_chain { root : option Z; calls : list (Z * actor) }.

Definition handler (a : actor) : option Z := match a with By b => Some b | _ => None end.

Fixpoint last_handler (r : option Z) (l : list (Z * actor)) : option Z :=
  match l with [] => r | (_, a) :: l => last_handler (handler a) l end.

Fixpoint last_id (prev : option Z) (l : list (Z * actor)) : option Z :=
  match l with [] => prev | (t, _) :: l => last_id (Some t) l end.

Definition at_thread (x : option Z) (t : Z) : list (Z * Z) := match x with Some x => [(x, t)] | None => [] end.

(** Who made or handles which call, in the order in which it happened. *)
Fixpoint evs (r : option Z) (l : list (Z * actor)) : list (Z * Z) :=
  match l with
  | [] => []
  | (t, a) :: l => at_thread r t ++ at_thread (handler a) t ++ evs (handler a) l
  end.

(** The latest call of a thread: the top of its stack. *)
Fixpoint top (x : Z) (E : list (Z * Z)) : option Z :=
  match E with
  | [] => None
  | (y, t) :: E => match top x E with Some t' => Some t' | None => if y =? x then Some t else None end
  end.

Lemma last_handler_snoc r l t a : last_handler r (l ++ [(t, a)]) = handler a.
Proof. revert r. induction l as [|[t' a'] l IH]; intros r; simpl; [done|apply IH]. Qed.

Lemma last_id_snoc p l t a : last_id p (l ++ [(t, a)]) = Some t.
Proof. revert p. induction l as [|[t' a'] l IH]; intros p; simpl; [done|apply IH]. Qed.

Lemma evs_app r l1 l2 : evs r (l1 ++ l2) = evs r l1 ++ evs (last_handler r l1) l2.
Proof. revert r. induction l1 as [|[t a] l1 IH]; intros r; simpl; [done|]. by rewrite IH, !app_assoc. Qed.

Lemma evs_snoc r l t a : evs r (l ++ [(t, a)]) = evs r l ++ at_thread (last_handler r l) t ++ at_thread (handler a) t.
Proof. rewrite evs_app. simpl. by rewrite app_nil_r. Qed.

Lemma top_app x E1 E2 : top x (E1 ++ E2) = match top x E2 with Some t => Some t | None => top x E1 end.
Proof.
  induction E1 as [|[y t] E1 IH]; simpl; [by destruct (top x E2)|]. rewrite IH. by destruct (top x E2).
Qed.

Lemma top_at x y t : top x (at_thread y t) = if bool_decide (y = Some x) then Some t else None.
Proof.
  destruct y as [y|]; simpl; [|done]. destruct (Z.eqb_spec y x) as [->|]; [by rewrite bool_decide_true|].
  rewrite bool_decide_false; [done|congruence].
Qed.

Lemma top_evs_id x r l t : top x (evs r l) = Some t → t ∈ l.*1.
Proof.
  revert r. induction l as [|[t' a] l IH]; intros r; simpl; [done|]. rewrite !top_app, !top_at.
  destruct (top x (evs (handler a) l)) eqn:E; [intros [= <-]; right; by eapply IH|].
  destruct (bool_decide _); [intros [= <-]; by left|]. destruct (bool_decide _); [intros [= <-]; by left|done].
Qed.

(** A thread that waits for the last call, or has just been left with nothing. *)
Lemma top_last_handler r l x : last_handler r l = Some x → top x (evs r l) = last_id None l.
Proof.
  intros Hl. destruct l as [|[t a] l] using rev_ind; [done|]. clear IHl. rewrite last_handler_snoc in Hl.
  destruct a as [?|b|]; try done. injection Hl as ->. rewrite evs_snoc, !top_app, last_id_snoc. simpl. by rewrite Z.eqb_refl.
Qed.

(** ** The invariant of stacks *)

(** The transaction behind a call that [r] made while handling [prev], with the
    events [E] before it.  A thread never handles a call of its own. *)
Definition cell_ok (M : gmap Z binder_transaction) (r prev : option Z) (E : list (Z * Z)) (c : Z * actor) : Prop :=
  ∃ x, M !! c.1 = Some x ∧ x_from x = r ∧ x_from_parent x = prev ∧ x_need_reply x = true ∧ x_one_way x = false ∧
    (∀ b, x_to_thread x = Some b → r ≠ Some b) ∧
    match c.2 with
    | By b => x_to_thread x = Some b ∧ x_to_parent x = top b E
    | Queued (LThread b) => x_to_thread x = Some b ∧ top b E ≠ None
    | Queued _ => x_to_thread x = None
    | Gone => True
    end.

Fixpoint links (M : gmap Z binder_transaction) (r prev : option Z) (E : list (Z * Z)) (l : list (Z * actor)) : Prop :=
  match l with
  | [] => True
  | (t, a) :: l => cell_ok M r prev E (t, a) ∧ links M (handler a) (Some t) (E ++ at_thread r t ++ at_thread (handler a) t) l
  end.

Lemma links_app M r prev E l1 l2 :
  links M r prev E (l1 ++ l2) ↔
  links M r prev E l1 ∧ links M (last_handler r l1) (last_id prev l1) (E ++ evs r l1) l2.
Proof.
  revert r prev E. induction l1 as [|[t a] l1 IH]; intros r prev E; simpl; [rewrite app_nil_r; tauto|].
  rewrite IH, <- !app_assoc. tauto.
Qed.

Lemma links_snoc M r prev E l c :
  links M r prev E (l ++ [c]) ↔ links M r prev E l ∧ cell_ok M (last_handler r l) (last_id prev l) (E ++ evs r l) c.
Proof. rewrite links_app. destruct c as [t a]. simpl. tauto. Qed.

(** The data of a transaction does not matter for the chains. *)
Definition nobuf (x : binder_transaction) : binder_transaction := set_data x None.

Lemma cell_same M M' r prev E c : nobuf <$> M' !! c.1 = nobuf <$> M !! c.1 → cell_ok M r prev E c → cell_ok M' r prev E c.
Proof.
  intros He (x & Hx & Hr). rewrite Hx in He. destruct (M' !! c.1) as [x'|] eqn:Hx'; [|done]. exists x'. split; [done|].
  destruct x, x'. simpl in *. unfold nobuf, set_data in He. simpl in He.  by injection He as -> -> -> -> -> -> ->.
Qed.

Lemma links_same M M' r prev E l : (∀ t, t ∈ l.*1 → nobuf <$> M' !! t = nobuf <$> M !! t) → links M r prev E l → links M' r prev E l.
Proof.
  revert r prev E. induction l as [|[t a] l IH]; intros r prev E He; simpl; [done|]. intros [H1 H2]. split.
  - eapply cell_same; [|done]. simpl. apply He. by left.
  - apply IH; [|done]. intros t' Ht'. apply He. by right.
Qed.

Lemma links_ext M M' r prev E l : (∀ t, t ∈ l.*1 → M' !! t = M !! t) → links M r prev E l → links M' r prev E l.
Proof. intros He. apply links_same. intros t Ht. by rewrite He. Qed.

Definition ids (Cs : list chain) : list Z := concat ((λ C, (calls C).*1) <$> Cs).
Definition events (C : chain) : list (Z * Z) := evs (root C) (calls C).

(** Only the last call of a chain can be waiting in a list. *)
Definition queued_last (C : chain) : Prop := ∀ l1 t q c l2, calls C = l1 ++ (t, Queued q) :: c :: l2 → False.

(** The top of the stack of a thread. *)
Definition stk (s : txns) (x : Z) : option Z := threads s !! x ≫= transaction_stack.

(** The stacks of the threads are the chains. *)
Record stacks_ok (s : txns) (Cs : list chain) : Prop := {
  so_ids : NoDup (ids Cs);
  so_links : ∀ C, C ∈ Cs → links (txn_at s) (root C) None [] (calls C);
  so_shape : ∀ C, C ∈ Cs → queued_last C;
  so_top : ∀ x t, stk s x = Some t ↔ ∃ C, C ∈ Cs ∧ top x (events C) = Some t;
  so_all : ∀ t x, txn_at s !! t = Some x → x_need_reply x = true → t ∈ ids Cs }.

Lemma ids_perm Cs Cs' : Cs ≡ₚ Cs' → ids Cs ≡ₚ ids Cs'.
Proof. intros H. unfold ids. induction H; simpl; [done|by f_equiv|rewrite !app_assoc; f_equiv; apply Permutation_app_comm|by etrans]. Qed.

Lemma stacks_perm s Cs Cs' : Cs ≡ₚ Cs' → stacks_ok s Cs → stacks_ok s Cs'.
Proof.
  intros HP [A B C D F]. split.
  - by rewrite <- (ids_perm _ _ HP).
  - intros X HX. apply B. by rewrite HP.
  - intros X HX. apply C. by rewrite HP.
  - intros x t. rewrite D. split; intros (X & HX & Ht); exists X; (split; [|done]); [by rewrite <- HP|by rewrite HP].
  - intros t x Hx Hn. rewrite <- (ids_perm _ _ HP). by eapply F.
Qed.

Lemma elem_of_ids t Cs : t ∈ ids Cs ↔ ∃ C, C ∈ Cs ∧ t ∈ (calls C).*1.
Proof.
  unfold ids. induction Cs as [|C Cs IH]; simpl; [set_solver|]. rewrite elem_of_app, IH. split.
  - intros [H|(D & HD & H)]; [exists C|exists D]; set_solver.
  - intros (D & HD & H). apply elem_of_cons in HD as [->|HD]; [by left|right; by exists D].
Qed.

Lemma links_cell M r prev E l1 t a l2 :
  links M r prev E (l1 ++ (t, a) :: l2) → cell_ok M (last_handler r l1) (last_id prev l1) (E ++ evs r l1) (t, a).
Proof. rewrite links_app. simpl. tauto. Qed.

Lemma links_elem M r prev E l t a : links M r prev E l → (t, a) ∈ l → ∃ x, M !! t = Some x ∧ x_need_reply x = true ∧ x_one_way x = false.
Proof.
  intros HL (l1 & l2 & ->)%list_elem_of_split. apply links_cell in HL as (x & ? & ? & ? & ? & ? & ?). by exists x.
Qed.

Lemma chain_front Cs C : (C : chain) ∈ Cs → ∃ Ds, Cs ≡ₚ C :: Ds.
Proof. intros (l1 & l2 & ->)%list_elem_of_split. exists (l1 ++ l2). symmetry. apply Permutation_middle. Qed.

Lemma fst_in {A B} (x : A) (y : B) l : (x, y) ∈ l → x ∈ l.*1.
Proof. intros H. apply list_elem_of_fmap. by exists (x, y). Qed.

(** A chain can be looked at from any of its calls. *)
Lemma same_chain Cs C D t : NoDup (ids Cs) → C ∈ Cs → D ∈ Cs → t ∈ (calls C).*1 → t ∈ (calls D).*1 → C = D.
Proof.
  intros HN HC HD H1 H2. destruct (chain_front _ _ HC) as (Ds & HP).
  rewrite HP in HD. rewrite (ids_perm _ _ HP) in HN. apply elem_of_cons in HD as [->|HD]; [done|].
  unfold ids in HN. simpl in HN. apply NoDup_app in HN as (_ & HN & _). exfalso. apply (HN t H1), elem_of_ids. by exists D.
Qed.

(** The stack of a thread is enough to find its chain. *)
Lemma stk_chain s Cs x t : stacks_ok s Cs → stk s x = Some t → ∃ C Ds, Cs ≡ₚ C :: Ds ∧ stacks_ok s (C :: Ds) ∧ top x (events C) = Some t.
Proof.
  intros HS (C & HC & Ht)%(so_top _ _ HS). destruct (chain_front _ _ HC) as (Ds & HP). exists C, Ds.
  split; [done|]. split; [by eapply stacks_perm|done].
Qed.

Lemma chain_nodup Cs C : NoDup (ids Cs) → C ∈ Cs → NoDup (calls C).*1.
Proof.
  intros HN HC. destruct (chain_front _ _ HC) as (Ds & HP). rewrite (ids_perm _ _ HP) in HN. unfold ids in HN. simpl in HN.
  by apply NoDup_app in HN as (? & _).
Qed.

(** Fuel: a chain is not longer than the store. *)
Lemma chain_fuel s Cs C : stacks_ok s Cs → C ∈ Cs → (length (calls C) < txn_fuel s)%nat.
Proof.
  intros HS HC. unfold txn_fuel. rewrite <- (length_fmap fst). rewrite <- (size_list_to_set (C := gset Z)) by (eapply chain_nodup; [apply HS|done]).
  rewrite <- (size_dom (D := gset Z)). apply le_n_S, subseteq_size. intros t Ht. apply elem_of_list_to_set in Ht.
  apply list_elem_of_fmap in Ht as ([t' a] & -> & Hin). destruct (links_elem _ _ _ _ _ _ _ (so_links _ _ HS C HC) Hin) as (x & Hx & _).
  by apply elem_of_dom_2 in Hx.
Qed.

(** Replacing one chain by another. *)
Lemma stacks_update s s' C C' Ds :
  stacks_ok s (C :: Ds) →
  NoDup (calls C').*1 → (∀ t, t ∈ (calls C').*1 → t ∉ ids Ds) →
  links (txn_at s') (root C') None [] (calls C') → queued_last C' →
  (∀ t, t ∈ ids Ds → txn_at s' !! t = txn_at s !! t) →
  (∀ t x, txn_at s' !! t = Some x → x_need_reply x = true → t ∈ (calls C').*1 ∨ t ∈ ids Ds) →
  (∀ x, stk s' x = match top x (events C') with Some t => Some t | None => if top x (events C) then None else stk s x end) →
  (∀ x, top x (events C') ≠ None → top x (events C) ≠ None ∨ stk s x = None) →
  stacks_ok s' (C' :: Ds).
Proof.
  intros HS HN Hd HL Hsh HM Hall Hst Hnew. pose proof (so_ids _ _ HS) as HI.
  assert (Hother : ∀ x t D, D ∈ Ds → top x (events D) = Some t → stk s x = Some t ∧ top x (events C) = None).
  { intros x t D HD Ht. assert (Hs : stk s x = Some t) by (apply (so_top _ _ HS); exists D; split; [by right|done]). split; [done|].
    destruct (top x (events C)) as [u|] eqn:Hu; [|done]. exfalso.
    assert (Some u = Some t) as [= ->] by (rewrite <- Hs; symmetry; apply (so_top _ _ HS); exists C; split; [by left|done]).
    unfold ids in HI. simpl in HI. apply NoDup_app in HI as (_ & HI & _). apply (HI t); [by eapply top_evs_id|].
    apply elem_of_ids. exists D. split; [done|by eapply top_evs_id]. }
  split.
  - unfold ids. simpl. apply NoDup_app. split; [done|]. split; [done|]. unfold ids in HI. simpl in HI. by apply NoDup_app in HI as (_ & _ & ?).
  - intros D [->|HD]%elem_of_cons; [done|]. apply (links_ext (txn_at s)); [|apply (so_links _ _ HS); by right].
    intros t Ht. apply HM, elem_of_ids. by exists D.
  - intros D [->|HD]%elem_of_cons; [done|]. apply (so_shape _ _ HS). by right.
  - intros x t. rewrite Hst. split.
    + destruct (top x (events C')) as [u|] eqn:Hu; [intros [= ->]; exists C'; by split; [left|]|].
      destruct (top x (events C)) eqn:Hc; [done|]. intros (D & [->|HD]%elem_of_cons & Ht)%(so_top _ _ HS); [congruence|].
      exists D. by split; [right|].
    + intros (D & [->|HD]%elem_of_cons & Ht); [by rewrite Ht|]. destruct (Hother _ _ _ HD Ht) as [Hs Hc].
      destruct (top x (events C')) eqn:Hu; [|by rewrite Hc]. destruct (Hnew x) as [?|?]; congruence.
  - intros t x Hx Hn. unfold ids. simpl. apply elem_of_app. by eapply Hall.
Qed.

Lemma stacks_new_chain s Cs r : stacks_ok s Cs → stacks_ok s (mk_chain r [] :: Cs).
Proof.
  intros [A B C D F]. split; try done.
  - intros X [->|HX]%elem_of_cons; [done|by apply B].
  - intros X [->|HX]%elem_of_cons; [|by apply C]. intros l1 t q c l2. by destruct l1.
  - intros x t. rewrite D. split; intros (X & HX & Ht); [exists X; by split; [right|]|].
    apply elem_of_cons in HX as [->|HX]; [done|by exists X].
Qed.

(** A thread that handles the call on top of its stack is the end of its chain. *)
Lemma top_in_last s C Ds x t y :
  stacks_ok s (C :: Ds) → top x (events C) = Some t → txn_at s !! t = Some y → x_to_thread y = Some x →
  ∃ l, calls C = l ++ [(t, By x)].
Proof.
  intros HS Ht Hy Hto. pose proof (chain_nodup _ C (so_ids _ _ HS) (list_elem_of_here _ _)) as HN.
  pose proof (so_links _ _ HS C (list_elem_of_here _ _)) as HL.
  pose proof (top_evs_id _ _ _ _ Ht) as ([t' a] & Heq & (l1 & l2 & Hl)%list_elem_of_split)%list_elem_of_fmap. simpl in Heq. subst t'.
  unfold events in Ht. rewrite Hl in *. rewrite fmap_app in HN. simpl in HN. apply NoDup_app in HN as (_ & HN1 & HN2).
  apply NoDup_cons in HN2 as [HN2 _].
  apply links_cell in HL as (y' & Hy' & _ & _ & _ & _ & Hne & Hact). simpl in *. assert (y' = y) as -> by congruence.
  rewrite evs_app in Ht. simpl in Ht. rewrite !top_app, !top_at in Ht.
  destruct (top x (evs (handler a) l2)) as [u|] eqn:Hu.
  { injection Ht as ->. apply top_evs_id in Hu. done. }
  rewrite (bool_decide_false (last_handler _ _ = _)) in Ht by (apply Hne; done).
  case_bool_decide as Ha; [|exfalso; apply top_evs_id in Ht; apply (HN1 t Ht); by left].
  destruct a as [q|b|]; try done. simpl in Ha. injection Ha as ->. destruct l2 as [|[t2 a2] l2]; [by exists l1|].
  simpl in Hu. rewrite !top_app in Hu. simpl in Hu. rewrite Z.eqb_refl in Hu.
  destruct (top x (evs (handler a2) l2)); [done|]. by destruct (top x (at_thread (handler a2) t2)).
Qed.

(** ** Lists, buffers and errors *)

Definition tx_of (l : list titem) : list Z := omap (λ i, match i with TTxn t => Some t | TComplete => None end) l.

(** The transactions that wait in a list. *)
Definition queue (s : txns) (q : slot) : list Z :=
  match q with
  | LThread th => match threads s !! th with Some x => tx_of (th_todo x) | None => [] end
  | LProc p => tx_of (todo_of s p)
  | LNode n => a_todo (node_of s n)
  end.

(** [W] says in which list a transaction waits; those in [D] have been taken off. *)
Record queues (s : txns) (W : gmap Z slot) (D : list Z) : Prop := {
  qu_nodup : ∀ q, NoDup (queue s q);
  qu_in : ∀ q t, t ∈ queue s q ↔ W !! t = Some q ∧ t ∉ D }.

(** What waits is a call at the end of a chain, a reply, or a one-way call; it has
    its data, which the receiver cannot have freed yet. *)
Definition waiting (s : txns) (Cs : list chain) (t : Z) (q : slot) : Prop :=
  ∃ x b y, txn_at s !! t = Some x ∧ x_buffer x = Some b ∧ tbuf_at s !! b = Some y ∧ b_allow y = false ∧
    (if x_need_reply x then b_node y ≠ None ∧ ∃ C, C ∈ Cs ∧ (t, Queued q) ∈ calls C
     else x_from x = None ∧ (b_node y = None ∨ x_one_way x = true)) ∧
    (∀ n, q = LNode n → x_need_reply x = false ∧ b_async y = true ∧ b_node y = Some n).

Definition async_on (n : Z) (y : txn_buffer) : Prop := b_async y = true ∧ b_node y = Some n.

(** One one-way call of a node is on its way or with its receiver; the others wait
    at the node. *)
Definition current (W : gmap Z slot) (n : Z) (y : txn_buffer) : Prop := ∀ t, b_txn y = Some t → W !! t ≠ Some (LNode n).

Record bufs_ok (s : txns) (W : gmap Z slot) : Prop := {
  bo_txn : ∀ t x b, txn_at s !! t = Some x → x_buffer x = Some b → ∃ y, tbuf_at s !! b = Some y ∧ b_txn y = Some t;
  bo_buf : ∀ b y t, tbuf_at s !! b = Some y → b_txn y = Some t → ∃ x, txn_at s !! t = Some x ∧ x_buffer x = Some b;
  bo_node : ∀ b y, tbuf_at s !! b = Some y → b_async y = true → ∃ n, b_node y = Some n ∧ a_busy (node_of s n) = true;
  bo_one : ∀ n b1 y1 b2 y2, tbuf_at s !! b1 = Some y1 → tbuf_at s !! b2 = Some y2 →
    async_on n y1 → async_on n y2 → current W n y1 → current W n y2 → b1 = b2 }.

Record chains_inv (s : txns) (Cs : list chain) (W : gmap Z slot) : Prop := {
  ci_stacks : stacks_ok s Cs;
  ci_bufs : bufs_ok s W;
  ci_wait : ∀ t q, W !! t = Some q → waiting s Cs t q;
  ci_cell : ∀ C t q, C ∈ Cs → (t, Queued q) ∈ calls C → W !! t = Some q }.

(** A thread whose latest call is its own has room for a second error. *)
Definition errs_ok (s : txns) : Prop := ∀ x th, threads s !! x = Some th →
  (return_error th = BR_OK → return_error2 th = BR_OK) ∧
  (∀ t y, transaction_stack th = Some t → txn_at s !! t = Some y → x_from y = Some x → return_error2 th = BR_OK).

(** Somebody is there to go on with the last call of a chain. *)
Definition ends (C : chain) : Prop := ∀ l t, calls C ≠ l ++ [(t, Gone)].

Definition txn_inv (s : txns) (Cs : list chain) (W : gmap Z slot) : Prop :=
  chains_inv s Cs W ∧ errs_ok s ∧ queues s W [] ∧ Forall ends Cs.

Lemma ends_nil r : ends (mk_chain r []).
Proof. intros l t H. by destruct l. Qed.

Lemma ends_snoc r l t a : a ≠ Gone → ends (mk_chain r (l ++ [(t, a)])).
Proof. intros Ha l' t' H. simpl in H. apply app_inj_tail in H as [_ H]. congruence. Qed.

Lemma ends_live r l w : last_handler r l = Some w → ends (mk_chain r l).
Proof. intros Hl l' t H. simpl in H. subst l. by rewrite last_handler_snoc in Hl. Qed.

Lemma chains_perm s Cs Cs' W : Cs ≡ₚ Cs' → chains_inv s Cs W → chains_inv s Cs' W.
Proof.
  intros HP [A B C D]. split; [by eapply stacks_perm|done| |].
  - intros t q Hq. destruct (C t q Hq) as (x & b & y & ? & ? & ? & ? & Hk & ?). exists x, b, y. repeat (split; [done|]). split; [|done].
    destruct (x_need_reply x); [|done]. destruct Hk as (? & X & HX & ?). split; [done|]. exists X. by rewrite <- HP.
  - intros X t q HX. apply D. by rewrite HP.
Qed.

(** Steps that change threads only. *)
Lemma chains_threads s s' Cs W :
  chains_inv s Cs W → txn_at s' = txn_at s → tbuf_at s' = tbuf_at s → (∀ n, a_busy (node_of s' n) = a_busy (node_of s n)) →
  (∀ x, stk s' x = stk s x) → chains_inv s' Cs W.
Proof.
  intros [[S1 S2 S3 S4 S5] [B1 B2 B3 B4] C D] HM HT HA Hst. split.
  - split; rewrite ?HM; try done. intros x t. by rewrite Hst.
  - split; rewrite ?HM, ?HT; try done. intros b y Hy Ha. destruct (B3 b y Hy Ha) as (n & Hn & Hb). exists n. by rewrite HA.
  - intros t q Hq. destruct (C t q Hq) as (x & b & y & H). exists x, b, y. by rewrite HM, HT.
  - done.
Qed.

Lemma call_not_waiting s Cs W C l1 t a l2 :
  chains_inv s Cs W → C ∈ Cs → calls C = l1 ++ (t, a) :: l2 → (∀ q, a ≠ Queued q) → W !! t = None.
Proof.
  intros HI HC Hl Ha. destruct (W !! t) as [q|] eqn:Hq; [|done]. exfalso. pose proof (ci_stacks _ _ _ HI) as HS.
  destruct (ci_wait _ _ _ HI t q Hq) as (x & b & y & Hx & _ & _ & _ & Hk & _).
  assert (Hin : (t, a) ∈ calls C) by (rewrite Hl; set_solver).
  destruct (links_elem _ _ _ _ _ _ _ (so_links _ _ HS C HC) Hin) as (x' & Hx' & Hn & _). assert (x' = x) as -> by congruence.
  rewrite Hn in Hk. destruct Hk as (_ & D & HD & HDq).
  assert (C = D) as <- by (eapply (same_chain Cs C D t); [apply HS|done|done|by eapply fst_in|by eapply fst_in]).
  pose proof (chain_nodup _ _ (so_ids _ _ HS) HC) as HN. apply (Ha q).
  apply list_elem_of_lookup in Hin as [i Hi]. apply list_elem_of_lookup in HDq as [j Hj].
  assert (i = j) as ->. { eapply NoDup_lookup; [exact HN|rewrite list_lookup_fmap, Hi; done|rewrite list_lookup_fmap, Hj; done]. }
  congruence.
Qed.

(** ** Ending a transaction *)

(** A buffer parts from its transaction. *)
Definition parts (s s' : txns) (b : option Z) : Prop :=
  match b with
  | None => tbuf_at s' = tbuf_at s
  | Some b => ∃ y y', tbuf_at s !! b = Some y ∧ tbuf_at s' = <[b := y']> (tbuf_at s) ∧
      b_txn y' = None ∧ b_async y' = b_async y ∧ b_node y' = b_node y
  end.

Lemma parts_buf s s' W t x :
  bufs_ok s W → txn_at s !! t = Some x → parts s s' (x_buffer x) →
  ∀ b y', tbuf_at s' !! b = Some y' → ∃ y, tbuf_at s !! b = Some y ∧ b_async y' = b_async y ∧ b_node y' = b_node y ∧
    ∀ u, b_txn y' = Some u ↔ b_txn y = Some u ∧ u ≠ t.
Proof.
  intros [B1 B2 _ _] Hx HP b y' Hy'.
  assert (Hne : ∀ y u, tbuf_at s !! b = Some y → b_txn y = Some u → x_buffer x ≠ Some b → u ≠ t).
  { intros y u Hy Hu Hb ->. destruct (B2 b y t Hy Hu) as (x0 & ? & ?). congruence. }
  unfold parts in HP. destruct (x_buffer x) as [b0|] eqn:Hb0.
  - destruct HP as (y0 & y0' & Hy0 & HT & Hn & Ha & Hnd). rewrite HT in Hy'. destruct (decide (b = b0)) as [->|Hd].
    + rewrite lookup_insert_eq in Hy'. injection Hy' as <-. exists y0. split_and!; try done. intros u. rewrite Hn. split; [done|].
      intros [Hu Hne0]. destruct (B1 t x b0 Hx Hb0) as (y1 & ? & ?). congruence.
    + rewrite lookup_insert_ne in Hy' by done. exists y'. split_and!; try done. intros u. split; [|tauto].
      intros Hu. split; [done|]. eapply Hne; [done|done|congruence].
  - rewrite HP in Hy'. exists y'. split_and!; try done. intros u. split; [|tauto]. intros Hu. split; [done|]. eapply Hne; [done|done|congruence].
Qed.

Lemma parts_other s s' W t x :
  bufs_ok s W → txn_at s !! t = Some x → parts s s' (x_buffer x) →
  ∀ b y u, tbuf_at s !! b = Some y → b_txn y = Some u → u ≠ t → tbuf_at s' !! b = Some y.
Proof.
  intros [B1 B2 _ _] Hx HP b y u Hy Hu Hne. unfold parts in HP. destruct (x_buffer x) as [b0|] eqn:Hb0; [|by rewrite HP].
  destruct HP as (y0 & y0' & Hy0 & -> & _). rewrite lookup_insert_ne; [done|]. intros ->.
  destruct (B1 t x b Hx Hb0) as (y1 & ? & ?). congruence.
Qed.

(** The transactions other than [t] stay as they are, and [t] has no buffer, if it
    is still there. *)
Lemma bufs_part s s' W t x :
  bufs_ok s W → txn_at s !! t = Some x → (∀ n, W !! t ≠ Some (LNode n)) →
  (∀ u, u ≠ t → txn_at s' !! u = txn_at s !! u) → (∀ x', txn_at s' !! t = Some x' → x_buffer x' = None) →
  parts s s' (x_buffer x) → (∀ n, a_busy (node_of s' n) = a_busy (node_of s n)) → bufs_ok s' (delete t W).
Proof.
  intros HB Hx HW HM Ht HP HA. pose proof (parts_buf _ _ _ _ _ HB Hx HP) as Hbuf. pose proof (parts_other _ _ _ _ _ HB Hx HP) as Hoth.
  destruct HB as [B1 B2 B3 B4]. split.
  - intros u x' b Hu Hb. destruct (decide (u = t)) as [->|Hd]; [rewrite (Ht _ Hu) in Hb; done|].
    rewrite HM in Hu by done. destruct (B1 u x' b Hu Hb) as (y & Hy & Hyu). exists y. split; [by eapply Hoth|done].
  - intros b y' u Hy' Hu. destruct (Hbuf _ _ Hy') as (y & Hy & _ & _ & Hiff). destruct (proj1 (Hiff u) Hu) as [Hu' Hd].
    rewrite HM by done. by eapply B2.
  - intros b y' Hy' Ha. destruct (Hbuf _ _ Hy') as (y & Hy & Ea & En & _). destruct (B3 b y Hy) as (n & Hn & Hbz); [congruence|].
    exists n. rewrite HA. split; [congruence|done].
  - intros n b1 y1 b2 y2 H1 H2 [A1 N1] [A2 N2] C1 C2.
    destruct (Hbuf _ _ H1) as (z1 & Z1 & ? & ? & I1). destruct (Hbuf _ _ H2) as (z2 & Z2 & ? & ? & I2).
    assert (Hcur : ∀ y z, current (delete t W) n y → (∀ u, b_txn y = Some u ↔ b_txn z = Some u ∧ u ≠ t) → current W n z).
    { intros y z Hc Hi u Hu. destruct (decide (u = t)) as [->|Hd]; [apply HW|]. specialize (Hc u). rewrite Hi, lookup_delete_ne in Hc by done. by apply Hc. }
    apply (B4 n b1 z1 b2 z2 Z1 Z2); [split; congruence|split; congruence|exact (Hcur y1 z1 C1 I1)|exact (Hcur y2 z2 C2 I2)].
Qed.

Lemma waiting_ext s s' Cs Cs' W u q :
  bufs_ok s W → waiting s Cs u q → txn_at s' !! u = txn_at s !! u →
  (∀ b y, tbuf_at s !! b = Some y → b_txn y = Some u → tbuf_at s' !! b = Some y) →
  (∀ C, C ∈ Cs → (u, Queued q) ∈ calls C → ∃ C', C' ∈ Cs' ∧ (u, Queued q) ∈ calls C') → waiting s' Cs' u q.
Proof.
  intros HB (x & b & y & Hx & Hb & Hy & Hal & Hk & Hn) HM HT HC. exists x, b, y. rewrite HM.
  destruct (bo_txn _ _ HB u x b Hx Hb) as (y' & Hy' & Hu). assert (y' = y) as -> by congruence.
  split_and!; try done; [by apply HT|]. destruct (x_need_reply x); [|done]. destruct Hk as (? & C & ? & ?). split; [done|]. by eapply HC.
Qed.

Lemma shape_prefix r r' l l2 : queued_last (mk_chain r (l ++ l2)) → queued_last (mk_chain r' l).
Proof. intros HS l1 t q c l3 Hl. simpl in Hl. subst l. eapply (HS l1 t q c (l3 ++ l2)). simpl. by rewrite <- app_assoc. Qed.

Lemma in_head {A} (x : A) l : x ∈ x :: l.
Proof. apply list_elem_of_here. Qed.

Lemma ids_cons C Cs : ids (C :: Cs) = (calls C).*1 ++ ids Cs.
Proof. done. Qed.

Lemma head_disjoint C Ds t : NoDup (ids (C :: Ds)) → t ∈ (calls C).*1 → t ∉ ids Ds.
Proof. rewrite ids_cons. intros (_ & H & _)%NoDup_app Ht. by apply H. Qed.

Lemma chains_pop s s' r l t a Ds W x :
  chains_inv s (mk_chain r (l ++ [(t, a)]) :: Ds) W → handler a = None → txn_at s !! t = Some x →
  txn_at s' = delete t (txn_at s) → parts s s' (x_buffer x) → (∀ n, a_busy (node_of s' n) = a_busy (node_of s n)) →
  (∀ w, stk s' w = if decide (last_handler r l = Some w) then last_id None l else stk s w) →
  chains_inv s' (mk_chain r l :: Ds) (delete t W).
Proof.
  intros [HS HB HW HC] Ha Hx HM HP HA Hst.
  pose proof (so_ids _ _ HS) as HI. pose proof (chain_nodup _ _ HI (in_head _ _)) as HN. simpl in HN. rewrite fmap_app in HN. simpl in HN.
  apply NoDup_app in HN as (HN1 & HN2 & _).
  assert (Ht : t ∈ (calls (mk_chain r (l ++ [(t, a)]))).*1) by (simpl; rewrite fmap_app; set_solver).
  assert (Htl : t ∉ l.*1) by (intros Hin; apply (HN2 t Hin); by left).
  assert (HtD : t ∉ ids Ds) by (eapply head_disjoint; done).
  pose proof (so_links _ _ HS _ (in_head _ _)) as HL. simpl in HL. rewrite links_snoc in HL. destruct HL as [HL Hcell].
  assert (Htop : ∀ w, top w (events (mk_chain r (l ++ [(t, a)]))) = if decide (last_handler r l = Some w) then Some t else top w (evs r l)).
  { intros w. unfold events. simpl. rewrite evs_snoc, Ha, !top_app, !top_at. simpl. case_decide; [by rewrite bool_decide_true|by rewrite bool_decide_false]. }
  split.
  - eapply (stacks_update s s' (mk_chain r (l ++ [(t, a)]))); simpl; try done.
    + intros u Hu. eapply head_disjoint; [done|]. simpl. rewrite fmap_app. set_solver.
    + rewrite HM. eapply links_ext; [|done]. intros u Hu. rewrite lookup_delete_ne; [done|congruence].
    + eapply shape_prefix. by apply (so_shape _ _ HS), in_head.
    + intros u Hu. rewrite HM, lookup_delete_ne; [done|congruence].
    + intros u y Hu Hn. rewrite HM in Hu. apply lookup_delete_Some in Hu as [Hd Hu]. pose proof (so_all _ _ HS u y Hu Hn) as Hin.
      rewrite ids_cons in Hin. simpl in Hin. rewrite fmap_app in Hin. set_solver.
    + intros w. rewrite Hst, Htop. unfold events. simpl. case_decide as Hd; [rewrite (top_last_handler _ _ _ Hd); by destruct (last_id None l)|].
      destruct (top w (evs r l)) as [u|] eqn:Hu; [|done]. apply (so_top _ _ HS). eexists. split; [apply in_head|]. by rewrite Htop, decide_False.
    + intros w Hw. left. rewrite Htop. by case_decide.
  - eapply bufs_part; try done.
    + intros n Hn. destruct (HW _ _ Hn) as (x' & b & y & Hx' & _ & _ & _ & _ & Hnd). destruct (Hnd n eq_refl) as [Hnr _].
      destruct Hcell as (x2 & Hx2 & _ & _ & Hnr2 & _). simpl in Hx2. congruence.
    + intros u Hu. by rewrite HM, lookup_delete_ne.
    + intros x'. by rewrite HM, lookup_delete_eq.
  - intros u q Hu. apply lookup_delete_Some in Hu as [Hd Hu]. eapply (waiting_ext s s'); [done|by apply HW| | |].
    + by rewrite HM, lookup_delete_ne.
    + intros b y Hy Hbu. by eapply (parts_other s s').
    + intros C [->|HC']%elem_of_cons Hin; [|exists C; by split; [right|]]. simpl in Hin. eexists. split; [by left|]. set_solver.
  - intros C u q [->|HC']%elem_of_cons Hin; simpl in Hin; rewrite lookup_delete_ne.
    + eapply HC; [by left|]. simpl. set_solver.
    + intros ->. by apply Htl; eapply fst_in.
    + eapply HC; [by right|done].
    + intros ->. apply HtD, elem_of_ids. exists C. split; [done|by eapply fst_in].
Qed.

(** What a step leaves alone: lists, the processes of threads, the nodes of buffers. *)
Record same_lists (s s' : txns) : Prop := {
  sl_thread : ∀ x, (λ th, (th_proc th, th_todo th)) <$> threads s' !! x = (λ th, (th_proc th, th_todo th)) <$> threads s !! x;
  sl_proc : proc_todo s' = proc_todo s;
  sl_async : async_at s' = async_at s;
  sl_bufs : ∀ b, b_node <$> tbuf_at s' !! b = b_node <$> tbuf_at s !! b }.

#[global] Instance same_lists_preorder : PreOrder same_lists.
Proof.
  split; [by intros s|]. intros s1 s2 s3 [A1 A2 A3 A4] [B1 B2 B3 B4]. split; [|congruence|congruence|]; intros x; by rewrite ?B1, ?B4.
Qed.

Lemma same_lists_queue s s' q : same_lists s s' → queue s' q = queue s q.
Proof.
  intros [A B C _]. destruct q as [th|p|n]; unfold queue, todo_of, node_of; [|by rewrite B|by rewrite C].
  specialize (A th). destruct (threads s' !! th), (threads s !! th); simplify_eq/=; congruence.
Qed.

Lemma same_lists_queues s s' W D : same_lists s s' → queues s W D → queues s' W D.
Proof.
  intros HL [A B]. split; intros q; [by rewrite (same_lists_queue _ _ _ HL)|]. intros t. rewrite (same_lists_queue _ _ _ HL). apply B.
Qed.

Lemma same_lists_thread s w th th' :
  threads s !! w = Some th → th_proc th' = th_proc th → th_todo th' = th_todo th → same_lists s (put_thread s w th').
Proof.
  intros Hw Hp Ht. split; [|done|done|done]. intros x. simpl. destruct (decide (x = w)) as [->|Hd]; [|by rewrite lookup_insert_ne].
  rewrite lookup_insert_eq, Hw. simpl. by rewrite Hp, Ht.
Qed.

Lemma last_cell s r l t a Ds W :
  chains_inv s (mk_chain r (l ++ [(t, a)]) :: Ds) W → ∃ x, txn_at s !! t = Some x ∧
  x_from x = last_handler r l ∧ x_from_parent x = last_id None l ∧ x_need_reply x = true ∧ x_one_way x = false ∧
  (∀ w, last_handler r l = Some w → stk s w = Some t).
Proof.
  intros [HS _ _ _]. pose proof (so_links _ _ HS _ (in_head _ _)) as HL. simpl in HL. rewrite links_snoc in HL.
  destruct HL as [_ (x & Hx & Hf & Hp & Hn & Ho & Hne & Ha)]. simpl in *. exists x. split_and!; try done.
  intros w Hw. apply (so_top _ _ HS). eexists. split; [apply in_head|]. unfold events. simpl. rewrite evs_snoc, !top_app, !top_at, Hw.
  rewrite bool_decide_false, bool_decide_true; [done..|]. destruct a as [?|b|]; try done. simpl. intros [= ->]. destruct Ha as [Ha _]. exact (Hne w Ha Hw).
Qed.

Lemma stk_some s x t : stk s x = Some t ↔ ∃ th, threads s !! x = Some th ∧ transaction_stack th = Some t.
Proof.
  unfold stk. destruct (threads s !! x) as [th|]; simpl; [|split; [done|by intros (th & ? & _)]].
  split; [by exists th|]. by intros (th' & [= ->] & ?).
Qed.

Lemma unlink_eval s W t x s0 :
  bufs_ok s W → txn_at s !! t = Some x → tbuf_at s0 = tbuf_at s →
  ∃ s', unlink_buffer s0 (x_buffer x) = Some s' ∧ parts s s' (x_buffer x) ∧
    threads s' = threads s0 ∧ txn_at s' = txn_at s0 ∧ proc_todo s' = proc_todo s0 ∧ async_at s' = async_at s0.
Proof.
  intros HB Hx HT. destruct (x_buffer x) as [b|] eqn:Hb; [|by exists s0].
  destruct (bo_txn _ _ HB t x b Hx Hb) as (y & Hy & _). simpl. rewrite HT, Hy. simpl. eexists. split; [done|]. split_and!; try done.
  exists y, (set_b_txn y None). simpl. by rewrite HT.
Qed.

Lemma parts_node s s' b0 b : parts s s' b0 → b_node <$> tbuf_at s' !! b = b_node <$> tbuf_at s !! b.
Proof.
  destruct b0 as [b0|]; [|by intros ->]. intros (y & y' & Hy & -> & _ & _ & Hn). destruct (decide (b = b0)) as [->|Hd].
  - rewrite lookup_insert_eq, Hy. simpl. by rewrite Hn.
  - by rewrite lookup_insert_ne.
Qed.

Lemma option_eqb_true a b : option_eqb a b = true ↔ a = b.
Proof. unfold option_eqb. apply bool_decide_eq_true. Qed.

Lemma option_eqb_refl a : option_eqb a a = true.
Proof. by apply option_eqb_true. Qed.

(** [binder_pop_transaction] on the last call of a chain. *)
Lemma pop_eval s r l t a Ds W :
  chains_inv s (mk_chain r (l ++ [(t, a)]) :: Ds) W → handler a = None →
  ∃ s', binder_pop_transaction s (last_handler r l) t = Some s' ∧ chains_inv s' (mk_chain r l :: Ds) (delete t W) ∧
    txn_at s' = delete t (txn_at s) ∧ same_lists s s' ∧
    (∀ w, threads s' !! w = if decide (last_handler r l = Some w) then (λ th, set_stack th (last_id None l)) <$> threads s !! w else threads s !! w).
Proof.
  intros HI Ha. destruct (last_cell _ _ _ _ _ _ _ HI) as (x & Hx & Hf & Hp & Hn & Ho & Hs).
  unfold binder_pop_transaction. rewrite Hx. simpl.
  set (M := match last_handler r l with
            | Some w => match threads s !! w with Some th => put_thread s w (set_stack th (last_id None l)) | None => s end
            | None => s end).
  assert (Hpop : (match last_handler r l with
      | None => Some s
      | Some w =>
          th ← threads s !! w;
          if negb (option_eqb (transaction_stack th) (Some t)) then None
          else if negb (option_eqb (x_from x) (Some w)) then None
          else Some (put_thread s w (set_stack th (x_from_parent x)))
      end) = Some M).
  { unfold M. destruct (last_handler r l) as [w|]; [|done]. destruct (proj1 (stk_some _ _ _) (Hs w eq_refl)) as (th & Hth & Hst).
    rewrite Hth. simpl. by rewrite Hst, Hf, Hp, !option_eqb_refl. }
  rewrite Hpop. simpl.
  assert (HMM : tbuf_at M = tbuf_at s ∧ txn_at M = txn_at s ∧ same_lists s M ∧
    (∀ w, threads M !! w = if decide (last_handler r l = Some w) then (λ th, set_stack th (last_id None l)) <$> threads s !! w else threads s !! w)).
  { unfold M. destruct (last_handler r l) as [w|]; [|by split_and!]. destruct (threads s !! w) as [th|] eqn:Hth; simpl.
    - split_and!; try done; [by eapply same_lists_thread|]. intros w'. case_decide as Hd.
      + injection Hd as <-. by rewrite lookup_insert_eq, Hth.
      + rewrite lookup_insert_ne; congruence.
    - split_and!; try done. }
  destruct HMM as (HMt & HMx & HMl & HMth). clearbody M. clear Hpop.
  destruct (unlink_eval s W t x M (ci_bufs _ _ _ HI) Hx HMt) as (s1 & -> & Hparts & E1 & E2 & E3 & E4). simpl. eexists. split; [done|].
  split_and!; simpl.
  - eapply (chains_pop s _ r l t a); try done; simpl; [congruence|intros n; unfold node_of; simpl; by rewrite E4, (sl_async _ _ HMl)|].
    intros w. unfold stk. simpl. rewrite E1, HMth. case_decide as Hd; [|done].
    destruct (proj1 (stk_some _ _ _) (Hs w Hd)) as (th & -> & _). done.
  - congruence.
  - destruct HMl as [A B C D]. split; simpl; [intros w; rewrite E1; apply A|congruence|congruence|]. intros b.
    by apply parts_node with (b := b) in Hparts.
  - intros w. by rewrite E1, HMth.
Qed.

(** The thread at the end of a chain handles a call of another thread. *)
Lemma end_not_own M r l w t y :
  links M r None [] l → last_handler r l = Some w → last_id None l = Some t → M !! t = Some y → x_from y ≠ Some w.
Proof.
  intros HL Hw Ht Hy. destruct l as [|[t' a] l _] using rev_ind; [done|]. rewrite last_id_snoc in Ht. injection Ht as ->.
  rewrite last_handler_snoc in Hw. destruct a as [?|b|]; try done. injection Hw as ->.
  rewrite links_snoc in HL. destruct HL as [_ (x & Hx & Hf & _ & _ & _ & Hne & Hto & _)]. simpl in *. rewrite Hx in Hy. injection Hy as <-.
  rewrite Hf. by apply Hne.
Qed.

(** Setting errors. *)
Lemma chains_errors s Cs W w th e e2 :
  chains_inv s Cs W → threads s !! w = Some th → chains_inv (put_thread s w (set_errors th e e2)) Cs W.
Proof.
  intros HI Hw. eapply chains_threads; try done. intros x. unfold stk. simpl. destruct (decide (x = w)) as [->|Hd]; [|by rewrite lookup_insert_ne].
  by rewrite lookup_insert_eq, Hw.
Qed.

(** What a failed reply does to the chain [l ++ [(t, a)]]: the calls after [l'] are
    gone, and the thread at the end of [l'], if there is one, gets the error. *)
Record failed_to (s s' : txns) (r : option Z) (l l' : list (Z * actor)) (t : Z) (e : br_code) : Prop := {
  ft_gone : ∃ l'', l = l' ++ l'' ∧ Forall (λ c, handler c.2 = None) l'' ∧ (∀ u, u ≠ t → u ∉ l''.*1 → txn_at s' !! u = txn_at s !! u);
  ft_told : match last_handler r l' with
            | Some w => ∃ th, threads s' !! w = Some th ∧ return_error th = e ∧ transaction_stack th = last_id None l'
            | None => l' = []
            end;
  ft_lists : same_lists s s' }.

Lemma failed_ends s s' r l l' t e : failed_to s s' r l l' t e → ends (mk_chain r l').
Proof.
  intros [_ Ht _]. destruct (last_handler r l') as [w|] eqn:Hl; [by eapply ends_live|]. subst l'. apply ends_nil.
Qed.

Lemma failed_loop_ok fuel s r l t a Ds W e :
  chains_inv s (mk_chain r (l ++ [(t, a)]) :: Ds) W → errs_ok s → handler a = None → (length l < fuel)%nat → e ≠ BR_OK →
  ∃ s' l', failed_reply_loop fuel s t e = Some s' ∧ chains_inv s' (mk_chain r l' :: Ds) (delete t W) ∧ errs_ok s' ∧ failed_to s s' r l l' t e.
Proof.
  revert s l t a W. induction fuel as [|fuel IH]; intros s l t a W HI HE Ha Hf He; [lia|]. simpl.
  destruct (last_cell _ _ _ _ _ _ _ HI) as (x & Hx & Hfr & Hp & Hn & Ho & Hs). rewrite Hx. simpl. rewrite Hfr.
  destruct (last_handler r l) as [w|] eqn:Hl.
  - destruct (proj1 (stk_some _ _ _) (Hs w eq_refl)) as (th & Hth & Hst). rewrite Hth. simpl.
    destruct (HE w th Hth) as [HE1 HE2]. pose proof (HE2 t x Hst Hx Hfr) as He2.
    set (th1 := if negb (is_ok (return_error th)) && is_ok (return_error2 th) then set_errors th BR_OK (return_error th) else th).
    assert (Hth1 : ∃ e2, th1 = set_errors th BR_OK e2).
    { unfold th1. unfold is_ok. rewrite He2. destruct (bool_decide_reflect (return_error th = BR_OK)) as [Hok|]; simpl; [|by eexists].
      exists BR_OK. destruct th; simpl in *. by subst. }
    clearbody th1. destruct Hth1 as (e2 & ->). simpl.
    pose proof (chains_errors _ _ _ _ _ BR_OK e2 HI Hth) as HI1. set (s1 := put_thread s w (set_errors th BR_OK e2)) in *.
    assert (Hl1 : same_lists s s1) by (by eapply same_lists_thread).
    destruct (pop_eval _ _ _ _ _ _ _ HI1 Ha) as (s2 & Hpop & HI2 & HM2 & Hl2 & Hth2). rewrite Hl in Hpop. rewrite Hpop. simpl.
    pose proof (Hth2 w) as Hw2. rewrite decide_True in Hw2 by done. unfold s1 in Hw2. simpl in Hw2. rewrite lookup_insert_eq in Hw2. simpl in Hw2.
    rewrite Hw2. simpl. eexists _, l. split; [done|]. split_and!.
    + by apply (chains_errors _ _ _ w (set_stack (set_errors th BR_OK e2) (last_id None l))).
    + intros z zth. simpl. destruct (decide (z = w)) as [->|Hd].
      * rewrite lookup_insert_eq. intros [= <-]. simpl. split; [done|]. intros t' y Ht' Hy Hfy. exfalso.
        eapply (end_not_own (txn_at s2) r l w t' y); try done. apply (so_links _ _ (ci_stacks _ _ _ HI2) (mk_chain r l)), in_head.
      * rewrite lookup_insert_ne by done. rewrite Hth2, decide_False by congruence. unfold s1. simpl. rewrite lookup_insert_ne by done.
        intros Hz. destruct (HE z zth Hz) as [A B]. split; [done|]. intros t' y Ht' Hy. rewrite HM2 in Hy. apply lookup_delete_Some in Hy as [_ Hy]. by eapply B.
    + split.
      * exists []. rewrite app_nil_r. split_and!; [done|constructor|]. intros u Hu _. simpl. rewrite HM2. by rewrite lookup_delete_ne.
      * rewrite Hl. eexists. split; [apply lookup_insert_eq|]. done.
      * etrans; [exact Hl1|]. etrans; [exact Hl2|]. by eapply same_lists_thread.
  - destruct (pop_eval _ _ _ _ _ _ _ HI Ha) as (s2 & Hpop & HI2 & HM2 & Hl2 & Hth2). rewrite Hl in Hpop. rewrite Hpop, Hp. simpl.
    assert (HE2 : errs_ok s2).
    { intros z zth. rewrite Hth2, decide_False by congruence. intros Hz. destruct (HE z zth Hz) as [A B]. split; [done|].
      intros t' y Ht' Hy. rewrite HM2 in Hy. apply lookup_delete_Some in Hy as [_ Hy]. by eapply B. }
    destruct l as [|[t' a'] l _] using rev_ind; simpl.
    + exists s2, []. split_and!; try done. split; [|by rewrite Hl|done]. exists []. split_and!; [done|constructor|]. intros u Hu _. by rewrite HM2, lookup_delete_ne.
    + rewrite last_id_snoc. rewrite last_handler_snoc in Hl. rewrite length_app in Hf. simpl in Hf.
      assert (HW : delete t W !! t' = None).
      { eapply (call_not_waiting _ _ _ _ l t' a' [] HI2 (in_head _ _)); [done|]. intros q ->.
        eapply (so_shape _ _ (ci_stacks _ _ _ HI) _ (in_head _ _) l t' q (t, a) []). simpl. by rewrite <- app_assoc. }
      destruct (IH s2 l t' a' _ HI2 HE2 Hl) as (s' & l' & -> & HI' & HE' & [(l'' & -> & Hg & Hk) Ht Hsl]); [lia|done|].
      rewrite delete_id in HI' by done. exists s', l'. split; [done|]. split_and!; try done. split; [|done|by etrans].
      exists (l'' ++ [(t', a')]). rewrite app_assoc. split_and!; [done|apply Forall_app; split; [done|by constructor]|].
      intros u Hu Hin. rewrite fmap_app in Hin. rewrite Hk; [|set_solver..]. by rewrite HM2, lookup_delete_ne.
Qed.

(** ** Bookkeeping of buffers *)

Lemma stacks_same s s' Cs :
  stacks_ok s Cs → (∀ t, t ∈ ids Cs → nobuf <$> txn_at s' !! t = nobuf <$> txn_at s !! t) →
  (∀ t x, txn_at s' !! t = Some x → x_need_reply x = true → t ∈ ids Cs) → (∀ x, stk s' x = stk s x) → stacks_ok s' Cs.
Proof.
  intros [A B C D E] HM Hall Hst. split; try done.
  - intros X HX. eapply links_same; [|by apply B]. intros t Ht. apply HM, elem_of_ids. by exists X.
  - intros x t. by rewrite Hst.
Qed.

Definition nallow (y : txn_buffer) : txn_buffer := set_b_allow y.

Lemma bufs_same s s' W W' :
  bufs_ok s W → (∀ t, x_buffer <$> txn_at s' !! t = x_buffer <$> txn_at s !! t) → (∀ b, nallow <$> tbuf_at s' !! b = nallow <$> tbuf_at s !! b) →
  (∀ n, a_busy (node_of s' n) = a_busy (node_of s n)) → (∀ t n, W' !! t = Some (LNode n) ↔ W !! t = Some (LNode n)) → bufs_ok s' W'.
Proof.
  intros [B1 B2 B3 B4] HM HT HA HW.
  assert (Hb : ∀ b y', tbuf_at s' !! b = Some y' → ∃ y, tbuf_at s !! b = Some y ∧ b_txn y' = b_txn y ∧ b_node y' = b_node y ∧ b_async y' = b_async y).
  { intros b y' Hy'. specialize (HT b). rewrite Hy' in HT. destruct (tbuf_at s !! b) as [y|]; [|done]. exists y. split; [done|].
    destruct y, y'. unfold nallow, set_b_allow in HT. simpl in *. by simplify_eq. }
  split.
  - intros t x b Hx Hxb. specialize (HM t). rewrite Hx in HM. destruct (txn_at s !! t) as [x0|] eqn:Hx0; [|done]. simpl in HM.
    destruct (B1 t x0 b Hx0) as (y & Hy & Hyt); [congruence|]. specialize (HT b). rewrite Hy in HT.
    destruct (tbuf_at s' !! b) as [y'|]; [|done]. exists y'. split; [done|]. destruct y, y'. unfold nallow, set_b_allow in HT. simpl in *. by simplify_eq.
  - intros b y' t Hy' Ht. destruct (Hb b y' Hy') as (y & Hy & Et & _). destruct (B2 b y t Hy) as (x & Hx & Hxb); [congruence|].
    specialize (HM t). rewrite Hx in HM. destruct (txn_at s' !! t) as [x'|]; [|done]. exists x'. split; [done|]. simpl in HM. congruence.
  - intros b y' Hy' Ha. destruct (Hb b y' Hy') as (y & Hy & _ & En & Ea). destruct (B3 b y Hy) as (n & Hn & Hz); [congruence|].
    exists n. rewrite HA. split; [congruence|done].
  - intros n b1 y1 b2 y2 H1 H2 [A1 N1] [A2 N2] C1 C2. destruct (Hb _ _ H1) as (z1 & Z1 & ? & ? & ?). destruct (Hb _ _ H2) as (z2 & Z2 & ? & ? & ?).
    apply (B4 n b1 z1 b2 z2 Z1 Z2); [split; congruence|split; congruence| |]; intros t Ht Hq; apply HW in Hq; [apply (C1 t)|apply (C2 t)]; congruence.
Qed.

(** A new transaction with its buffer. *)
Lemma bufs_add s s' W t b x y q :
  bufs_ok s W → txn_at s !! t = None → tbuf_at s !! b = None → x_buffer x = Some b → b_txn y = Some t →
  txn_at s' = <[t := x]> (txn_at s) → tbuf_at s' = <[b := y]> (tbuf_at s) →
  (∀ n, a_busy (node_of s n) = true → a_busy (node_of s' n) = true) →
  (b_async y = true → ∃ n, b_node y = Some n ∧ a_busy (node_of s' n) = true ∧ (q = LNode n ∨ a_busy (node_of s n) = false)) →
  bufs_ok s' (<[t := q]> W).
Proof.
  intros [B1 B2 B3 B4] Ht Hb Hxb Hyt HM HT HA HQ.
  assert (Hold : ∀ b' y', tbuf_at s !! b' = Some y' → b' ≠ b ∧ b_txn y' ≠ Some t).
  { intros b' y' Hy'. split; [congruence|]. intros Hu. destruct (B2 b' y' t Hy' Hu) as (? & ? & _). congruence. }
  split.
  - intros u x' b' Hu Hx'. rewrite HM in Hu. rewrite HT. apply lookup_insert_Some in Hu as [[<- <-]|[Hd Hu]].
    + assert (b' = b) as -> by congruence. rewrite lookup_insert_eq. by exists y.
    + destruct (B1 u x' b' Hu Hx') as (y' & Hy' & Hy'u). destruct (Hold _ _ Hy'). rewrite lookup_insert_ne by done. by exists y'.
  - intros b' y' u Hy' Hu. rewrite HT in Hy'. rewrite HM. apply lookup_insert_Some in Hy' as [[<- <-]|[Hd Hy']].
    + assert (u = t) as -> by congruence. rewrite lookup_insert_eq. by exists x.
    + destruct (Hold _ _ Hy'). rewrite lookup_insert_ne by congruence. by eapply B2.
  - intros b' y' Hy' Ha. rewrite HT in Hy'. apply lookup_insert_Some in Hy' as [[<- <-]|[Hd Hy']].
    + destruct (HQ Ha) as (n & Hn & Hz & _). by exists n.
    + destruct (B3 _ _ Hy' Ha) as (n & Hn & Hz). exists n. split; [done|by apply HA].
  - assert (Hcur : ∀ n y', (∃ b', tbuf_at s !! b' = Some y') → current (<[t := q]> W) n y' → current W n y').
    { intros n y' (b' & Hy') Hc u Hu Hq. apply (Hc u Hu). rewrite lookup_insert_ne; [done|]. destruct (Hold _ _ Hy'). congruence. }
    assert (Hnew : ∀ n b' y', tbuf_at s !! b' = Some y' → async_on n y' → async_on n y → current (<[t := q]> W) n y → False).
    { intros n b' y' Hy' [A1 N1] [A2 N2] Hc. destruct (HQ A2) as (n' & Hn' & _ & [->|Hf]).
      - apply (Hc t Hyt). rewrite lookup_insert_eq. congruence.
      - destruct (B3 _ _ Hy' A1) as (n2 & Hn2 & Hz). congruence. }
    intros n b1 y1 b2 y2 H1 H2 A1 A2 C1 C2. rewrite HT in H1, H2.
    apply lookup_insert_Some in H1 as [[<- <-]|[D1 H1]], H2 as [[<- <-]|[D2 H2]]; try done.
    + exfalso. by eapply (Hnew n b2 y2).
    + exfalso. by eapply (Hnew n b1 y1).
    + apply (B4 n b1 y1 b2 y2); try done; apply Hcur; eauto.
Qed.

(** ** Chains that grow, move on and end *)

Lemma not_call s Cs W t x : chains_inv s Cs W → txn_at s !! t = Some x → x_need_reply x = false → t ∉ ids Cs.
Proof.
  intros HI Hx Hn (C & HC & Ht)%elem_of_ids. apply list_elem_of_fmap in Ht as ([t' a] & -> & Hin).
  destruct (links_elem _ _ _ _ _ _ _ (so_links _ _ (ci_stacks _ _ _ HI) C HC) Hin) as (x' & Hx' & Hn' & _). simpl in *. congruence.
Qed.

Lemma unknown_not_call s Cs W t : chains_inv s Cs W → txn_at s !! t = None → t ∉ ids Cs.
Proof.
  intros HI Hx (C & HC & Ht)%elem_of_ids. apply list_elem_of_fmap in Ht as ([t' a] & -> & Hin).
  destruct (links_elem _ _ _ _ _ _ _ (so_links _ _ (ci_stacks _ _ _ HI) C HC) Hin) as (x' & Hx' & _). simpl in *. congruence.
Qed.

Lemma unknown_not_waiting s Cs W t : chains_inv s Cs W → txn_at s !! t = None → W !! t = None.
Proof.
  intros HI Hx. destruct (W !! t) as [q|] eqn:Hq; [|done]. destruct (ci_wait _ _ _ HI t q Hq) as (x & ? & ? & ? & _). congruence.
Qed.

(** A reply or a one-way call enters list [q]. *)
Lemma chains_add s s' Cs W t b x y q :
  chains_inv s Cs W → txn_at s !! t = None → tbuf_at s !! b = None →
  x_need_reply x = false → x_from x = None → x_buffer x = Some b → b_txn y = Some t → b_allow y = false →
  (b_node y = None ∨ x_one_way x = true) → (∀ n, q = LNode n → b_async y = true ∧ b_node y = Some n) →
  txn_at s' = <[t := x]> (txn_at s) → tbuf_at s' = <[b := y]> (tbuf_at s) →
  (∀ n, a_busy (node_of s n) = true → a_busy (node_of s' n) = true) →
  (b_async y = true → ∃ n, b_node y = Some n ∧ a_busy (node_of s' n) = true ∧ (q = LNode n ∨ a_busy (node_of s n) = false)) →
  (∀ z, stk s' z = stk s z) → chains_inv s' Cs (<[t := q]> W).
Proof.
  intros HI Ht Hb Hn Hf Hxb Hyt Hal Hk Hq HM HT HA HQ Hst. pose proof (unknown_not_call _ _ _ _ HI Ht) as Hid.
  pose proof (unknown_not_waiting _ _ _ _ HI Ht) as HWt. destruct HI as [HS HB HW HC]. split.
  - eapply stacks_same; [done| | |done].
    + intros u Hu. rewrite HM, lookup_insert_ne; [done|congruence].
    + intros u x' Hu Hn'. rewrite HM in Hu. apply lookup_insert_Some in Hu as [[<- <-]|[_ Hu]]; [congruence|]. by eapply so_all.
  - by eapply (bufs_add s s').
  - intros u p Hu. apply lookup_insert_Some in Hu as [[<- <-]|[Hd Hu]].
    + exists x, b, y. rewrite HM, HT, !lookup_insert_eq, Hn. split_and!; try done. intros n Hqn. split; [done|by apply Hq].
    + eapply (waiting_ext s s'); [done|by apply HW| | |eauto].
      * by rewrite HM, lookup_insert_ne.
      * intros b' y' Hy' _. rewrite HT, lookup_insert_ne; [done|congruence].
  - intros C u p HC' Hin. rewrite lookup_insert_ne; [by eapply HC|]. intros ->. apply Hid, elem_of_ids. exists C. split; [done|by eapply fst_in].
Qed.

(** Where a call may be queued. *)
Definition slot_ok (r : option Z) (l : list (Z * actor)) (x : binder_transaction) (q : slot) : Prop :=
  match q with
  | LThread w => x_to_thread x = Some w ∧ top w (evs r l) ≠ None
  | LProc _ => x_to_thread x = None
  | LNode _ => False
  end.

Lemma shape_snoc r l t a w : queued_last (mk_chain r l) → last_handler r l = Some w → queued_last (mk_chain r (l ++ [(t, a)])).
Proof.
  intros HS Hw l1 u q c l2 Hl. simpl in Hl. destruct l2 as [|c' l2 _] using rev_ind.
  - change (l ++ [(t, a)] = l1 ++ [(u, Queued q)] ++ [c]) in Hl. rewrite app_assoc in Hl. apply app_inj_tail in Hl as [-> _].
    by rewrite last_handler_snoc in Hw.
  - rewrite app_comm_cons, app_comm_cons, app_assoc in Hl. apply app_inj_tail in Hl as [-> _]. by eapply (HS l1 u q c l2).
Qed.

Lemma shape_last r l t a b : queued_last (mk_chain r (l ++ [(t, a)])) → queued_last (mk_chain r (l ++ [(t, b)])).
Proof.
  intros HS l1 u q c l2 Hl. simpl in Hl. destruct l2 as [|c' l2 _] using rev_ind.
  - change (l ++ [(t, b)] = l1 ++ [(u, Queued q)] ++ [c]) in Hl. rewrite app_assoc in Hl. apply app_inj_tail in Hl as [-> _].
    apply (HS l1 u q (t, a) []). simpl. by rewrite <- app_assoc.
  - rewrite app_comm_cons, app_comm_cons, app_assoc in Hl. apply app_inj_tail in Hl as [-> _].
    apply (HS l1 u q c (l2 ++ [(t, a)])). simpl. by rewrite <- app_assoc.
Qed.

(** The thread at the end of a chain makes a call. *)
Lemma chains_call s s' r l X t b x y Ds W q :
  chains_inv s (mk_chain r l :: Ds) W → last_handler r l = Some X → stk s X = last_id None l →
  txn_at s !! t = None → tbuf_at s !! b = None →
  x_from x = Some X → x_from_parent x = last_id None l → x_need_reply x = true → x_one_way x = false → x_buffer x = Some b →
  x_to_thread x ≠ Some X → slot_ok r l x q →
  b_txn y = Some t → b_allow y = false → b_node y ≠ None → b_async y = false →
  txn_at s' = <[t := x]> (txn_at s) → tbuf_at s' = <[b := y]> (tbuf_at s) → (∀ n, a_busy (node_of s' n) = a_busy (node_of s n)) →
  (∀ z, stk s' z = if decide (z = X) then Some t else stk s z) →
  chains_inv s' (mk_chain r (l ++ [(t, Queued q)]) :: Ds) (<[t := q]> W).
Proof.
  intros HI Hl HX Ht Hb Hf Hfp Hn Ho Hxb Hto Hq Hyt Hal Hnd Has HM HT HA Hst.
  pose proof (unknown_not_call _ _ _ _ HI Ht) as Hid. pose proof (unknown_not_waiting _ _ _ _ HI Ht) as HWt.
  rewrite ids_cons, not_elem_of_app in Hid. simpl in Hid. destruct Hid as [Hid1 Hid2]. destruct HI as [HS HB HW HC].
  pose proof (so_links _ _ HS _ (in_head _ _)) as HL. simpl in HL. pose proof (so_ids _ _ HS) as HI.
  pose proof (chain_nodup _ _ HI (in_head _ _)) as HN. simpl in HN.
  assert (Htop : ∀ z, top z (events (mk_chain r (l ++ [(t, Queued q)]))) = if decide (z = X) then Some t else top z (evs r l)).
  { intros z. unfold events. simpl. rewrite evs_snoc, !top_app, Hl. simpl. destruct (Z.eqb_spec X z), (decide (z = X)); congruence. }
  split.
  - eapply (stacks_update s s' (mk_chain r l)); simpl; try done.
    + rewrite fmap_app. simpl. apply NoDup_app. split; [done|]. split; [set_solver|apply NoDup_singleton].
    + intros u. rewrite fmap_app. simpl. intros [Hu| ->%list_elem_of_singleton]%elem_of_app; [by eapply head_disjoint|done].
    + rewrite links_snoc. split; [eapply links_ext; [|done]; intros u Hu; rewrite HM, lookup_insert_ne; [done|congruence]|].
      exists x. simpl. rewrite HM, lookup_insert_eq, Hl. split_and!; try done; [intros w Hw; congruence|]. by destruct q.
    + eapply shape_snoc; [|done]. by apply (so_shape _ _ HS), in_head.
    + intros u Hu. rewrite HM, lookup_insert_ne; [done|congruence].
    + intros u x' Hu Hn'. rewrite HM in Hu. rewrite fmap_app. simpl. apply lookup_insert_Some in Hu as [[<- _]|[_ Hu]]; [set_solver|].
      pose proof (so_all _ _ HS u x' Hu Hn') as Hin. rewrite ids_cons in Hin. simpl in Hin. set_solver.
    + intros z. rewrite Hst, Htop. unfold events. simpl. case_decide as Hd; [done|]. destruct (top z (evs r l)) as [u|] eqn:Hu; [|done].
      apply (so_top _ _ HS). eexists. split; [apply in_head|done].
    + intros z. rewrite Htop. unfold events. simpl. case_decide as Hd; [|by left]. subst z. intros _. rewrite HX, (top_last_handler _ _ _ Hl).
      destruct (last_id None l); [by left|by right].
  - eapply (bufs_add s s'); try done; [by intros n; rewrite HA|congruence].
  - intros u p Hu. apply lookup_insert_Some in Hu as [[<- <-]|[Hd Hu]].
    + exists x, b, y. rewrite HM, HT, !lookup_insert_eq, Hn. split_and!; try done; [eexists; split; [apply in_head|simpl; set_solver]|].
      intros n ->. done.
    + eapply (waiting_ext s s'); [done|by apply HW| | |].
      * by rewrite HM, lookup_insert_ne.
      * intros b' y' Hy' _. rewrite HT, lookup_insert_ne; [done|congruence].
      * intros C [->|HC']%elem_of_cons Hin; [|exists C; by split; [right|]]. eexists. split; [by left|]. simpl in *. set_solver.
  - intros C u p [->|HC']%elem_of_cons Hin.
    + simpl in Hin. apply elem_of_app in Hin as [Hin|Hin%list_elem_of_singleton].
      * rewrite lookup_insert_ne; [eapply HC; [by left|done]|]. intros ->. by eapply Hid1, fst_in.
      * injection Hin as -> ->. by rewrite lookup_insert_eq.
    + rewrite lookup_insert_ne; [eapply HC; [by right|done]|]. intros ->. apply Hid2, elem_of_ids. exists C. split; [done|by eapply fst_in].
Qed.

(** The last call of a chain changes hands. *)
Lemma stacks_last s s' r l t a a' Ds :
  stacks_ok s (mk_chain r (l ++ [(t, a)]) :: Ds) → (∀ u, u ≠ t → txn_at s' !! u = txn_at s !! u) →
  cell_ok (txn_at s') (last_handler r l) (last_id None l) (evs r l) (t, a') →
  (∀ z, stk s' z = match top z (events (mk_chain r (l ++ [(t, a')]))) with
                   | Some u => Some u
                   | None => if top z (events (mk_chain r (l ++ [(t, a)]))) then None else stk s z
                   end) →
  (∀ z, top z (events (mk_chain r (l ++ [(t, a')]))) ≠ None → top z (events (mk_chain r (l ++ [(t, a)]))) ≠ None ∨ stk s z = None) →
  stacks_ok s' (mk_chain r (l ++ [(t, a')]) :: Ds).
Proof.
  intros HS HM Hcell Hst Hnew. pose proof (so_ids _ _ HS) as HI. pose proof (chain_nodup _ _ HI (in_head _ _)) as HN.
  assert (Hid : (calls (mk_chain r (l ++ [(t, a')]))).*1 = (calls (mk_chain r (l ++ [(t, a)]))).*1) by (simpl; by rewrite !fmap_app).
  pose proof (so_links _ _ HS _ (in_head _ _)) as HL. simpl in HL. rewrite links_snoc in HL. destruct HL as [HL (x & Hx & _ & _ & Hn & _)].
  eapply stacks_update; try done.
  - by rewrite Hid.
  - intros u. rewrite Hid. by apply head_disjoint.
  - simpl. rewrite links_snoc. split; [|done]. eapply links_ext; [|done]. intros u Hu. apply HM. intros ->.
    simpl in HN. rewrite fmap_app in HN. apply NoDup_app in HN as (_ & HN & _). eapply HN; [done|]. by left.
  - eapply shape_last. by apply (so_shape _ _ HS), in_head.
  - intros u Hu. apply HM. intros ->. eapply head_disjoint; [done| |done]. simpl. rewrite fmap_app. set_solver.
  - intros u y Hu Hy. rewrite Hid. destruct (decide (u = t)) as [->|Hd]; [left; simpl; rewrite fmap_app; set_solver|].
    rewrite HM in Hu by done. pose proof (so_all _ _ HS u y Hu Hy) as Hin. rewrite ids_cons in Hin. by apply elem_of_app in Hin.
Qed.

(** A call leaves its list. *)
Lemma chains_deliver s s' r l X t x b y Ds W q :
  chains_inv s (mk_chain r (l ++ [(t, Queued q)]) :: Ds) W → (q = LThread X ∨ stk s X = None) →
  txn_at s !! t = Some x → x_buffer x = Some b → tbuf_at s !! b = Some y →
  txn_at s' = <[t := set_to x (x_to_proc x) (Some X) (stk s X)]> (txn_at s) → tbuf_at s' = <[b := set_b_allow y]> (tbuf_at s) →
  (∀ n, a_busy (node_of s' n) = a_busy (node_of s n)) → (∀ z, stk s' z = if decide (z = X) then Some t else stk s z) →
  chains_inv s' (mk_chain r (l ++ [(t, By X)]) :: Ds) (delete t W).
Proof.
  intros HI Hq Hx Hb Hy HM HT HA Hst. pose proof HI as [HS HB HW HC].
  assert (HWt : W !! t = Some q) by (eapply HC; [apply in_head|simpl; set_solver]).
  destruct (HW t q HWt) as (x0 & b0 & y0 & Hx0 & _ & _ & _ & _ & HqN).
  destruct (last_cell _ _ _ _ _ _ _ HI) as (x1 & Hx1 & Hf & Hfp & Hn & Ho & Hsnd).
  assert (x0 = x ∧ x1 = x) as [-> ->] by (split; congruence). rewrite Hn in HqN.
  pose proof (so_links _ _ HS _ (in_head _ _)) as HL. simpl in HL. rewrite links_snoc in HL.
  destruct HL as [_ (x2 & Hx2 & _ & _ & _ & _ & Hne & Hact)]. simpl in Hx2, Hne, Hact. assert (x2 = x) as -> by congruence.
  assert (HEv : ∀ z, top z (events (mk_chain r (l ++ [(t, Queued q)]))) = if decide (last_handler r l = Some z) then Some t else top z (evs r l)).
  { intros z. unfold events. simpl. rewrite evs_snoc, !top_app. simpl. rewrite !top_at. case_decide; [by rewrite bool_decide_true|by rewrite bool_decide_false]. }
  assert (Hown : last_handler r l ≠ Some X).
  { destruct Hq as [->|Hq]; [apply Hne, Hact|]. intros Hl. rewrite (Hsnd X Hl) in Hq. done. }
  assert (Htop : stk s X = top X (evs r l)).
  { specialize (HEv X). rewrite decide_False in HEv by done. destruct (top X (evs r l)) as [u|] eqn:Hu.
    - apply (so_top _ _ HS). eexists. split; [apply in_head|done].
    - destruct Hq as [->|Hq]; [by destruct Hact|done]. }
  assert (HEv' : ∀ z, top z (events (mk_chain r (l ++ [(t, By X)]))) = if decide (z = X) then Some t else top z (events (mk_chain r (l ++ [(t, Queued q)])))).
  { intros z. rewrite HEv. unfold events. simpl. rewrite evs_snoc, !top_app. simpl. rewrite !top_at.
    destruct (Z.eqb_spec X z), (decide (z = X)); try congruence. case_decide; [by rewrite bool_decide_true|by rewrite bool_decide_false]. }
  split.
  - eapply stacks_last; [done| | | |].
    + intros u Hu. by rewrite HM, lookup_insert_ne.
    + eexists. simpl. rewrite HM, lookup_insert_eq. split; [done|]. simpl. split_and!; try done. by intros w [= <-].
    + intros z. rewrite Hst, HEv'. case_decide as Hd; [done|].
      destruct (top z (events (mk_chain r (l ++ [(t, Queued q)])))) as [u|] eqn:Hu; [|done].
      apply (so_top _ _ HS). eexists. split; [apply in_head|done].
    + intros z. rewrite HEv'. case_decide as Hd; [|by left]. subst z. intros _. rewrite HEv, Htop, decide_False by done.
      destruct (top X (evs r l)); [by left|by right].
  - eapply (bufs_same s s'); try done.
    + intros u. rewrite HM. destruct (decide (u = t)) as [->|Hd]; [by rewrite lookup_insert_eq, Hx|by rewrite lookup_insert_ne].
    + intros u. rewrite HT. destruct (decide (u = b)) as [->|Hd]; [by rewrite lookup_insert_eq, Hy|by rewrite lookup_insert_ne].
    + intros u n. destruct (decide (u = t)) as [->|Hd]; [|by rewrite lookup_delete_ne]. rewrite lookup_delete_eq, HWt. split; [done|].
      intros [= ->]. by destruct (HqN n eq_refl).
  - intros u p [Hd Hu]%lookup_delete_Some. eapply (waiting_ext s s'); [done|by apply HW| | |].
    + by rewrite HM, lookup_insert_ne.
    + intros b' y' Hy' Hu'. rewrite HT, lookup_insert_ne; [done|]. intros ->. destruct (bo_txn _ _ HB t x b' Hx Hb) as (y2 & ? & ?). congruence.
    + intros C [->|HC']%elem_of_cons Hin; [|exists C; by split; [right|]]. eexists. split; [by left|]. simpl in *. set_solver.
  - pose proof (chain_nodup _ _ (so_ids _ _ HS) (in_head _ _)) as HN. simpl in HN. rewrite fmap_app in HN. apply NoDup_app in HN as (_ & HN & _).
    intros C u p [->|HC']%elem_of_cons Hin.
    + simpl in Hin. apply elem_of_app in Hin as [Hin|Hin%list_elem_of_singleton]; [|done]. rewrite lookup_delete_ne.
      * eapply HC; [by left|]. simpl. set_solver.
      * intros ->. eapply HN; [by eapply fst_in|]. by left.
    + rewrite lookup_delete_ne; [eapply HC; [by right|done]|]. intros ->.
      eapply (head_disjoint _ Ds u (so_ids _ _ HS)); [simpl; rewrite fmap_app; set_solver|]. apply elem_of_ids. exists C. split; [done|by eapply fst_in].
Qed.

(** A reply or a one-way call is received. *)
Lemma chains_drop s s' Cs W t x :
  chains_inv s Cs W → (∀ n, W !! t ≠ Some (LNode n)) → txn_at s !! t = Some x → x_need_reply x = false →
  txn_at s' = delete t (txn_at s) → parts s s' (x_buffer x) → (∀ n, a_busy (node_of s' n) = a_busy (node_of s n)) →
  (∀ z, stk s' z = stk s z) → chains_inv s' Cs (delete t W).
Proof.
  intros HI Hq Hx Hn HM HP HA Hst. pose proof (not_call _ _ _ _ _ HI Hx Hn) as Hid. destruct HI as [HS HB HW HC]. split.
  - eapply stacks_same; [done| | |done].
    + intros u Hu. rewrite HM, lookup_delete_ne; [done|congruence].
    + intros u x' Hu Hn'. rewrite HM in Hu. apply lookup_delete_Some in Hu as [_ Hu]. by eapply so_all.
  - eapply bufs_part; try done; [|by intros x'; rewrite HM, lookup_delete_eq]. intros u Hu. by rewrite HM, lookup_delete_ne.
  - intros u p [Hd Hu]%lookup_delete_Some. eapply (waiting_ext s s'); [done|by apply HW| | |eauto].
    + by rewrite HM, lookup_delete_ne.
    + intros b y Hy Hbu. by eapply (parts_other s s').
  - intros C u p HC' Hin. rewrite lookup_delete_ne; [by eapply HC|]. intros ->. apply Hid, elem_of_ids. exists C. split; [done|by eapply fst_in].
Qed.

(** A thread lets go of the call it handles: its stack is as it was before. *)
Lemma chains_let_go s r l X t x th Ds W :
  chains_inv s (mk_chain r (l ++ [(t, By X)]) :: Ds) W → txn_at s !! t = Some x → threads s !! X = Some th →
  chains_inv (put_thread s X (set_stack th (x_to_parent x))) (mk_chain r (l ++ [(t, Gone)]) :: Ds) W.
Proof.
  intros HI Hx HX. pose proof HI as [HS HB HW HC].
  pose proof (so_links _ _ HS _ (in_head _ _)) as HL. simpl in HL. rewrite links_snoc in HL.
  destruct HL as [_ (x2 & Hx2 & Hf & Hfp & Hn & Ho & Hne & Hact)]. simpl in Hx2, Hf, Hfp, Hne, Hact. assert (x2 = x) as -> by congruence.
  destruct Hact as [Hto Hpar].
  assert (HEv : ∀ z, top z (events (mk_chain r (l ++ [(t, Gone)]))) = if decide (last_handler r l = Some z) then Some t else top z (evs r l)).
  { intros z. unfold events. simpl. rewrite evs_snoc, !top_app. simpl. rewrite !top_at. case_decide; [by rewrite bool_decide_true|by rewrite bool_decide_false]. }
  assert (HEv' : ∀ z, top z (events (mk_chain r (l ++ [(t, By X)]))) = if decide (z = X) then Some t else top z (events (mk_chain r (l ++ [(t, Gone)])))).
  { intros z. rewrite HEv. unfold events. simpl. rewrite evs_snoc, !top_app. simpl. rewrite !top_at.
    destruct (Z.eqb_spec X z), (decide (z = X)); try congruence. case_decide; [by rewrite bool_decide_true|by rewrite bool_decide_false]. }
  assert (Hst : ∀ z, stk (put_thread s X (set_stack th (x_to_parent x))) z = if decide (z = X) then x_to_parent x else stk s z).
  { intros z. unfold stk. simpl. case_decide as Hd; [subst z; by rewrite lookup_insert_eq|by rewrite lookup_insert_ne]. }
  split.
  - eapply stacks_last; [done|done| | |].
    + exists x. simpl. by split_and!.
    + intros z. rewrite Hst, HEv'. case_decide as Hd.
      * subst z. rewrite HEv, decide_False, Hpar by (by apply Hne). by destruct (top X (evs r l)).
      * destruct (top z (events (mk_chain r (l ++ [(t, Gone)])))) as [u|] eqn:Hu; [|done].
        apply (so_top _ _ HS). eexists. split; [apply in_head|]. by rewrite HEv', decide_False.
    + intros z Hz. left. rewrite HEv'. by case_decide.
  - by eapply (bufs_same s).
  - intros u p Hu. eapply (waiting_ext s); [done|by apply HW|done|done|].
    intros C [->|HC']%elem_of_cons Hin; [|exists C; by split; [right|]]. eexists. split; [by left|]. simpl in *. set_solver.
  - intros C u p [->|HC']%elem_of_cons Hin; [|eapply HC; [by right|done]]. eapply HC; [by left|]. simpl in *. set_solver.
Qed.

(** ** Freeing a buffer *)

(** The next one-way call of the node goes to the list of the thread. *)
Definition move (W : gmap Z slot) (X : Z) (moved : option Z) : gmap Z slot :=
  match moved with None => W | Some t => <[t := LThread X]> W end.

Lemma bufs_free s s' W b y X moved :
  bufs_ok s W → tbuf_at s !! b = Some y → (∀ t n, b_txn y = Some t → W !! t ≠ Some (LNode n)) →
  (∀ u, txn_at s' !! u = if decide (b_txn y = Some u) then nobuf <$> txn_at s !! u else txn_at s !! u) → tbuf_at s' = delete b (tbuf_at s) →
  (∀ n b' y', b' ≠ b → tbuf_at s !! b' = Some y' → async_on n y' → a_busy (node_of s n) = true → a_busy (node_of s' n) = true) →
  (∀ t, moved = Some t → ∃ n, async_on n y ∧ ∀ c z, tbuf_at s !! c = Some z → b_txn z = Some t → b_node z = Some n) →
  bufs_ok s' (move W X moved).
Proof.
  intros [B1 B2 B3 B4] Hy Hyt HM HT HA Hmv. split.
  - intros u x c Hx Hc. rewrite HM in Hx. case_decide as Hd.
    + destruct (txn_at s !! u); simplify_eq/=.
    + destruct (B1 u x c Hx Hc) as (z & Hz & Hzu). exists z. split; [|done]. rewrite HT, lookup_delete_ne; [done|congruence].
  - intros c z u Hz Hu. rewrite HT in Hz. apply lookup_delete_Some in Hz as [Hd Hz]. destruct (B2 c z u Hz Hu) as (x & Hx & Hxc).
    exists x. rewrite HM, decide_False; [done|]. intros Hyu. destruct (B2 b y u Hy Hyu) as (x' & ? & ?). congruence.
  - intros c z Hz Ha. rewrite HT in Hz. apply lookup_delete_Some in Hz as [Hd Hz]. destruct (B3 c z Hz Ha) as (n & Hn & Hbz).
    exists n. split; [done|]. by eapply HA.
  - intros n b1 y1 b2 y2 H1 H2 A1 A2 C1 C2. rewrite HT in H1, H2. apply lookup_delete_Some in H1 as [D1 H1], H2 as [D2 H2].
    assert (Hcur : ∀ c z, tbuf_at s !! c = Some z → b ≠ c → async_on n z → current (move W X moved) n z →
      current W n z ∨ ∃ t, moved = Some t ∧ b_txn z = Some t).
    { intros c z Hz Hc Hzn Hcur. destruct (b_txn z) as [u|] eqn:Hu; [|left; by intros u Hu'; rewrite Hu in Hu'].
      destruct (decide (moved = Some u)) as [->|Hm]; [right; by exists u|]. left. intros u' Hu' Hq. assert (u' = u) as -> by congruence.
      apply (Hcur u Hu). unfold move. destruct moved as [t|]; [|done]. rewrite lookup_insert_ne; [done|congruence]. }
    assert (Hno : ∀ t c z c' z', moved = Some t → tbuf_at s !! c = Some z → b ≠ c → async_on n z → current W n z →
      tbuf_at s !! c' = Some z' → async_on n z' → b_txn z' = Some t → False).
    { intros t c z c' z' Hm Hz Hc Hzn Hcz Hz' [_ Hzn'] Ht'. destruct (Hmv t Hm) as (n' & Hyn & Hq).
      rewrite (Hq c' z' Hz' Ht') in Hzn'. injection Hzn' as ->. apply Hc. eapply (B4 n b y c z); try done. intros u Hu. by apply Hyt. }
    destruct (Hcur b1 y1) as [K1|(t1 & M1 & T1)], (Hcur b2 y2) as [K2|(t2 & M2 & T2)]; try done.
    + by apply (B4 n b1 y1 b2 y2).
    + exfalso. by eapply (Hno t2 b1 y1 b2 y2).
    + exfalso. by eapply (Hno t1 b2 y2 b1 y1).
    + assert (t2 = t1) as -> by congruence. destruct (B2 b1 y1 t1 H1 T1) as (x1 & ? & ?), (B2 b2 y2 t1 H2 T2) as (x2 & ? & ?). congruence.
Qed.

Lemma chains_free s s' Cs W b y X moved :
  chains_inv s Cs W → tbuf_at s !! b = Some y → b_allow y = true →
  (∀ u, txn_at s' !! u = if decide (b_txn y = Some u) then nobuf <$> txn_at s !! u else txn_at s !! u) → tbuf_at s' = delete b (tbuf_at s) →
  (∀ n b' y', b' ≠ b → tbuf_at s !! b' = Some y' → async_on n y' → a_busy (node_of s n) = true → a_busy (node_of s' n) = true) →
  (∀ t, moved = Some t → ∃ n, async_on n y ∧ W !! t = Some (LNode n)) → (∀ z, stk s' z = stk s z) →
  chains_inv s' Cs (move W X moved).
Proof.
  intros HI Hy Hal HM HT HA Hmv Hst. pose proof HI as [HS HB HW HC].
  assert (Hfree : ∀ u p, W !! u = Some p → b_txn y ≠ Some u).
  { intros u p Hu Hyu. destruct (HW u p Hu) as (x & c & z & Hx & Hc & Hz & Hzal & _). destruct (bo_buf _ _ HB b y u Hy Hyu) as (x' & ? & ?). congruence. }
  assert (Hmoved : ∀ t, moved = Some t → ∃ n x c z, W !! t = Some (LNode n) ∧ txn_at s !! t = Some x ∧ x_need_reply x = false ∧
    x_buffer x = Some c ∧ tbuf_at s !! c = Some z ∧ b_node z = Some n ∧ async_on n y ∧ waiting s Cs t (LNode n)).
  { intros t Ht. destruct (Hmv t Ht) as (n & Hn & Hq). pose proof (HW t _ Hq) as Hwait. pose proof Hwait as (x & c & z & Hx & Hc & Hz & _ & _ & Hk).
    destruct (Hk n eq_refl) as (? & ? & ?). by exists n, x, c, z. }
  split.
  - eapply stacks_same; [done| | |done].
    + intros u _. rewrite HM. case_decide; [|done]. by destruct (txn_at s !! u).
    + intros u x Hx Hn. rewrite HM in Hx. case_decide; [|by eapply so_all]. destruct (txn_at s !! u) as [x0|] eqn:Hx0; [|done]. injection Hx as <-. by eapply so_all.
  - eapply (bufs_free s s'); try done.
    + intros t n Ht Hq. by eapply Hfree.
    + intros t Ht. destruct (Hmoved t Ht) as (n & x & c & z & Hq & Hx & Hn & Hc & Hz & Hzn & Hyn & _). exists n. split; [done|].
      intros c' z' Hz' Ht'. destruct (bo_buf _ _ HB c' z' t Hz' Ht') as (x' & ? & ?). congruence.
  - assert (Hext : ∀ u p, W !! u = Some p → waiting s' Cs u p).
    { intros u p Hu. pose proof (Hfree u p Hu) as Hne. eapply (waiting_ext s s'); [done|by apply HW| | |eauto].
      - by rewrite HM, decide_False.
      - intros c z Hz Hzu. rewrite HT, lookup_delete_ne; [done|congruence]. }
    intros u p Hu. unfold move in Hu. destruct moved as [t|]; [|by apply Hext].
    apply lookup_insert_Some in Hu as [[<- <-]|[_ Hu]]; [|by apply Hext].
    destruct (Hmoved t eq_refl) as (n & x & c & z & Hq & Hx & Hn & Hc & Hz & _).
    destruct (Hext t _ Hq) as (x' & c' & z' & Hx' & ? & ? & ? & Hk & Hk2). exists x', c', z'. destruct (Hk2 n eq_refl) as (Hn' & _).
    split_and!; try done. by rewrite Hn' in Hk |- *.
  - intros C u p HC' Hin. unfold move. destruct moved as [t|]; [|by eapply HC]. rewrite lookup_insert_ne; [by eapply HC|]. intros ->.
    destruct (Hmoved u eq_refl) as (n & x & c & z & Hq & Hx & Hn & _). apply (not_call _ _ _ _ _ HI Hx Hn), elem_of_ids. exists C. split; [done|by eapply fst_in].
Qed.

(** ** A thread leaves *)

Definition leave_actor (X : Z) (a : actor) : actor :=
  match a with
  | By b => if b =? X then Gone else a
  | Queued (LThread b) => if b =? X then Gone else a
  | _ => a
  end.
Definition leave (X : Z) (l : list (Z * actor)) : list (Z * actor) := (λ c, (c.1, leave_actor X c.2)) <$> l.
Definition leave_id (X : Z) (r : option Z) : option Z := if decide (r = Some X) then None else r.

Lemma leave_id_self X : leave_id X (Some X) = None.
Proof. unfold leave_id. by rewrite decide_True. Qed.

Lemma leave_ids X l : (leave X l).*1 = l.*1.
Proof. unfold leave. rewrite <- list_fmap_compose. done. Qed.

Lemma leave_handler X a : handler (leave_actor X a) = leave_id X (handler a).
Proof.
  unfold leave_id. destruct a as [[b|p|n]|b|]; simpl; [destruct (b =? X)|..]; try done.
  destruct (Z.eqb_spec b X) as [->|Hd]; [by rewrite decide_True|rewrite decide_False; [done|congruence]].
Qed.

Lemma leave_last_handler X r l : last_handler (leave_id X r) (leave X l) = leave_id X (last_handler r l).
Proof. revert r. induction l as [|[t a] l IH]; intros r; simpl; [done|]. rewrite leave_handler. apply IH. Qed.

Lemma leave_last_id X p l : last_id p (leave X l) = last_id p l.
Proof. revert p. induction l as [|[t a] l IH]; intros p; simpl; [done|]. apply IH. Qed.

Lemma top_leave_at X z r t : top z (at_thread (leave_id X r) t) = if decide (z = X) then None else top z (at_thread r t).
Proof.
  unfold leave_id. rewrite !top_at. case_decide as Hr.
  - subst r. rewrite bool_decide_false by done. case_decide as Hz; [done|]. rewrite bool_decide_false; [done|congruence].
  - case_decide as Hz; [|done]. subst z. by rewrite bool_decide_false.
Qed.

Lemma top_leave X z r l : top z (evs (leave_id X r) (leave X l)) = if decide (z = X) then None else top z (evs r l).
Proof.
  revert r. induction l as [|[t a] l IH]; intros r; simpl; [by case_decide|]. rewrite leave_handler, !top_app, IH, !top_leave_at.
  by case_decide.
Qed.

(** What the exit of thread [X] keeps of a transaction. *)
Definition wash (X : Z) (x : binder_transaction) : bool * bool * option Z := (x_need_reply x, x_one_way x, leave_id X (x_from x)).

Record left_by (X : Z) (s s' : txns) (l : list (Z * actor)) : Prop := {
  lb_threads : threads s' = threads s;
  lb_proc : proc_todo s' = proc_todo s;
  lb_async : async_at s' = async_at s;
  lb_other : ∀ u, u ∉ l.*1 → txn_at s' !! u = txn_at s !! u;
  lb_wash : ∀ u, wash X <$> txn_at s' !! u = wash X <$> txn_at s !! u;
  lb_data : ∀ u, (u, By X) ∉ l → x_buffer <$> txn_at s' !! u = x_buffer <$> txn_at s !! u;
  lb_bufs : ∀ b y u, tbuf_at s !! b = Some y → b_txn y = Some u → (u, By X) ∉ l → tbuf_at s' !! b = Some y;
  lb_node : ∀ b, b_node <$> tbuf_at s' !! b = b_node <$> tbuf_at s !! b }.

Lemma left_trans X s1 s2 s3 l c : left_by X s1 s2 [c] → left_by X s2 s3 l → left_by X s1 s3 (l ++ [c]).
Proof.
  intros [A1 A2 A3 A4 A5 A6 A7 A8] [B1 B2 B3 B4 B5 B6 B7 B8]. split; try congruence.
  - intros u. rewrite fmap_app, not_elem_of_app. intros [Hu Hc]. by rewrite B4, A4.
  - intros u. rewrite not_elem_of_app. intros [Hu Hc]. by rewrite B6, A6.
  - intros b y u Hy Hu. rewrite not_elem_of_app. intros [Hl Hc]. eapply B7; [|done|done]. by eapply A7.
Qed.

(** The cell of a call after thread [X] has left. *)
Lemma leave_cell X M M' r l t a x x' :
  M !! t = Some x → M' !! t = Some x' → cell_ok M (last_handler r l) (last_id None l) (evs r l) (t, a) →
  wash X x' = wash X x → x_from x' ≠ Some X → x_from_parent x' = x_from_parent x →
  (leave_actor X a = Gone → x_to_thread x' = x_to_thread x ∨ x_to_thread x' = None) →
  (leave_actor X a ≠ Gone → x_to_thread x' = x_to_thread x ∧ x_to_parent x' = x_to_parent x) →
  cell_ok M' (last_handler (leave_id X r) (leave X l)) (last_id None (leave X l)) (evs (leave_id X r) (leave X l)) (t, leave_actor X a).
Proof.
  intros Hx Hx' (x0 & Hx0 & Hf & Hp & Hn & Ho & Hne & Ha) Hw Hnx Hfp Hgone Hkeep. simpl in *. assert (x0 = x) as -> by congruence.
  unfold wash in Hw. injection Hw as Hw1 Hw2 Hw3. rewrite leave_last_handler, leave_last_id. exists x'. simpl.
  assert (Hf' : x_from x' = leave_id X (last_handler r l)).
  { rewrite <- Hf, <- Hw3. unfold leave_id. by rewrite decide_False. }
  assert (Hsub : ∀ b, leave_id X (last_handler r l) = Some b → last_handler r l = Some b) by (intros b; unfold leave_id; by case_decide).
  destruct (decide (leave_actor X a = Gone)) as [Hg|Hg].
  - rewrite Hg. split_and!; try congruence; try done. intros b Hb Hl. apply Hsub in Hl. destruct (Hgone Hg) as [E|E]; [|congruence].
    rewrite E in Hb. by apply (Hne b).
  - destruct (Hkeep Hg) as [E1 E2]. split_and!; try congruence; [intros b Hb Hl; apply Hsub in Hl; rewrite E1 in Hb; by apply (Hne b)|].
    destruct a as [[b|p|n]|b|]; simpl in *; try congruence; destruct (Z.eqb_spec b X) as [->|Hd]; try done;
      (rewrite top_leave, decide_False by done); rewrite E1, ?E2; done.
Qed.

Lemma exit_loop_ok X r l fuel s W :
  links (txn_at s) r None [] l → bufs_ok s W → NoDup l.*1 → (∀ t n, t ∈ l.*1 → W !! t ≠ Some (LNode n)) → (length l < fuel)%nat →
  ∃ s', exit_loop fuel s X (top X (evs r l)) = Some s' ∧ left_by X s s' l ∧ bufs_ok s' W ∧
    links (txn_at s') (leave_id X r) None [] (leave X l).
Proof.
  revert fuel s. induction l as [|[t a] l IH] using rev_ind; intros fuel s HL HB HN HW Hf.
  { exists s. split; [by destruct fuel|]. split_and!; [by split|done|done]. }
  rewrite links_snoc in HL. destruct HL as [HL Hcell]. pose proof Hcell as (x & Hx & Hfr & Hp & Hn & Ho & Hne & Ha). simpl in Hx, Hfr, Hp, Hn, Ho, Hne, Ha.
  rewrite fmap_app in HN. apply NoDup_app in HN as (HN & Htl & _). assert (Ht : t ∉ l.*1) by (intros Hin; apply (Htl t Hin); by left).
  rewrite length_app in Hf. simpl in Hf.
  assert (HWl : ∀ u n, u ∈ l.*1 → W !! u ≠ Some (LNode n)) by (intros u n Hu; apply HW; rewrite fmap_app; set_solver).
  assert (HWt : ∀ n, W !! t ≠ Some (LNode n)) by (intros n; apply HW; rewrite fmap_app; set_solver).
  assert (Hlv : leave X (l ++ [(t, a)]) = leave X l ++ [(t, leave_actor X a)]) by (unfold leave; by rewrite fmap_app). rewrite Hlv.
  assert (Hgo : ∀ s2 x2 fuel', links (txn_at s2) r None [] l → bufs_ok s2 W → (length l < fuel')%nat → left_by X s s2 [(t, a)] →
    txn_at s2 !! t = Some x2 → wash X x2 = wash X x → x_from x2 ≠ Some X → x_from_parent x2 = x_from_parent x →
    (leave_actor X a = Gone → x_to_thread x2 = x_to_thread x ∨ x_to_thread x2 = None) →
    (leave_actor X a ≠ Gone → x_to_thread x2 = x_to_thread x ∧ x_to_parent x2 = x_to_parent x) →
    ∃ s', exit_loop fuel' s2 X (top X (evs r l)) = Some s' ∧ left_by X s s' (l ++ [(t, a)]) ∧ bufs_ok s' W ∧
      links (txn_at s') (leave_id X r) None [] (leave X l ++ [(t, leave_actor X a)])).
  { intros s2 x2 fuel' HL2 HB2 Hf2 Hleft Hx2 Hw Hnx Hfp Hg Hk. destruct (IH fuel' s2 HL2 HB2 HN HWl Hf2) as (s' & He & Hleft' & HB' & HL').
    exists s'. split; [done|]. split; [by eapply left_trans|]. split; [done|]. rewrite links_snoc. split; [done|].
    eapply (leave_cell X (txn_at s) (txn_at s')); try done. by rewrite (lb_other _ _ _ _ Hleft'). }
  rewrite evs_snoc, !top_app, !top_at.
  case_bool_decide as Hby; [|case_bool_decide as Hsend].
  - destruct a as [?|b|]; try done. injection Hby as ->. destruct Ha as [Hto Hpar]. destruct fuel as [|fuel]; [lia|]. simpl. rewrite Hx. simpl.
    rewrite Hto, option_eqb_refl.
    destruct (unlink_eval s W t x s HB Hx eq_refl) as (s1 & -> & Hparts & E1 & E2 & E3 & E4). simpl. rewrite Hpar.
    simpl in Hgo. rewrite Z.eqb_refl in Hgo. rewrite Z.eqb_refl. eapply Hgo; simpl; rewrite ?lookup_insert_eq; try done; [| |lia| |simpl; rewrite Hfr; by apply Hne|by right].
    + eapply links_ext; [|exact HL]. intros u Hu. rewrite lookup_insert_ne by congruence. by rewrite E2.
    + match goal with |- bufs_ok ?z _ => apply (bufs_same z z (delete t W)) end; [eapply (bufs_part s _ W t x); try done; simpl| | | |]; try done.
      * intros u Hu. rewrite lookup_insert_ne by done. by rewrite E2.
      * intros x'. rewrite lookup_insert_eq. by intros [= <-].
      * intros n. unfold node_of. simpl. by rewrite E4.
      * intros u n. destruct (decide (u = t)) as [->|Hd]; [|by rewrite lookup_delete_ne]. rewrite lookup_delete_eq. split; [|done]. intros Hq. by apply HWt in Hq.
    + split; simpl; try done.
      * intros u Hu. rewrite lookup_insert_ne by set_solver. by rewrite E2.
      * intros u. destruct (decide (u = t)) as [->|Hd]; [by rewrite lookup_insert_eq, Hx|]. rewrite lookup_insert_ne by done. by rewrite E2.
      * intros u Hu. rewrite lookup_insert_ne by set_solver. by rewrite E2.
      * intros b y u Hy Hyu Hu. eapply (parts_other s s1); try done. set_solver.
      * intros b. by eapply parts_node.
  - destruct fuel as [|fuel]; [lia|]. simpl. rewrite Hx. simpl.
    assert (Hto : x_to_thread x ≠ Some X) by (intros Hto; by apply (Hne X)).
    unfold option_eqb at 1. rewrite bool_decide_false by done. rewrite Hfr, Hsend, option_eqb_refl, Hp, <- (top_last_handler r l X Hsend).
    eapply Hgo; simpl; rewrite ?lookup_insert_eq; try done; [|by eapply (bufs_same s); try done; intros u; simpl; destruct (decide (u = t)) as [->|Hd]; [rewrite lookup_insert_eq, Hx|rewrite lookup_insert_ne]|lia| | |by left].
    + eapply links_ext; [|exact HL]. intros u Hu. by rewrite lookup_insert_ne by congruence.
    + assert (Hwash : wash X (set_from x None) = wash X x) by (unfold wash; simpl; by rewrite Hfr, Hsend, leave_id_self).
      split; simpl; try done.
      * intros u Hu. by rewrite lookup_insert_ne by set_solver.
      * intros u. destruct (decide (u = t)) as [->|Hd]; [by rewrite lookup_insert_eq, Hx; simpl; rewrite Hwash|by rewrite lookup_insert_ne].
      * intros u Hu. destruct (decide (u = t)) as [->|Hd]; [by rewrite lookup_insert_eq, Hx|by rewrite lookup_insert_ne].
    + unfold wash. simpl. by rewrite Hfr, Hsend, leave_id_self.
  - eapply (Hgo s x); try done; [lia|congruence|by left].
Qed.

Lemma leave_elem X u q l : (u, Queued q) ∈ leave X l ↔ (u, Queued q) ∈ l ∧ q ≠ LThread X.
Proof.
  unfold leave. rewrite list_elem_of_fmap. split.
  - intros ([v a] & Heq & Hin). simpl in Heq. injection Heq as -> Ha. destruct a as [[b|p|n]|b|]; simpl in Ha.
    + destruct (Z.eqb_spec b X); [done|]. injection Ha as ->. split; [done|congruence].
    + by injection Ha as ->.
    + by injection Ha as ->.
    + by destruct (b =? X).
    + done.
  - intros [Hin Hq]. exists (u, Queued q). split; [|done]. simpl. destruct q as [b|p|n]; try done.
    destruct (Z.eqb_spec b X); [congruence|done].
Qed.

Lemma shape_leave X r r' l : queued_last (mk_chain r l) → queued_last (mk_chain r' (leave X l)).
Proof.
  intros HS l1 t q c l2 Hl. simpl in Hl. unfold leave in Hl. apply fmap_app_inv in Hl as (k1 & k2 & -> & Hk2 & ->).
  destruct k2 as [|[t' a'] [|c' k2]]; simplify_eq/=. destruct a' as [[b|p|n]|b|]; simplify_eq/=;
    try (by eapply (HS k1 _ _ c' k2)); destruct (b =? X); simplify_eq/=.
Qed.

(** Only the chain of a thread can have a call that waits for this thread. *)
Lemma queued_for_thread s Cs W C D u X :
  chains_inv s Cs W → C ∈ Cs → D ∈ Cs → top X (events C) = stk s X → (u, Queued (LThread X)) ∈ calls D → D = C.
Proof.
  intros HI HC HD Htop Hin. pose proof (ci_stacks _ _ _ HI) as HS. apply list_elem_of_split in Hin as (l1 & l2 & Hl).
  pose proof (so_links _ _ HS D HD) as HL. rewrite Hl in HL. apply links_cell in HL as (x & _ & _ & _ & _ & _ & _ & _ & Hne). simpl in Hne.
  destruct (top X (events D)) as [v|] eqn:Hv.
  - assert (Hs : stk s X = Some v) by (apply (so_top _ _ HS); by exists D). rewrite Hs in Htop.
    eapply (same_chain Cs D C v); [apply HS|done|done|by eapply top_evs_id|by eapply top_evs_id].
  - exfalso. apply Hne. unfold events in Hv. rewrite Hl, evs_app, top_app in Hv.
    by destruct (top X (evs (last_handler (root D) l1) ((u, Queued (LThread X)) :: l2))).
Qed.

(** An item of the list of a thread that leaves. *)
Definition ready (s : txns) (Cs : list chain) (t : Z) : Prop :=
  ∃ x b y, txn_at s !! t = Some x ∧ x_buffer x = Some b ∧ tbuf_at s !! b = Some y ∧
    (if x_need_reply x then x_one_way x = false ∧ b_node y ≠ None ∧ ∃ r l, mk_chain r (l ++ [(t, Gone)]) ∈ Cs
     else b_node y = None ∨ x_one_way x = true).

Definition without (X : Z) (W : gmap Z slot) : gmap Z slot := filter (λ kv, kv.2 ≠ LThread X) W.

Lemma without_lookup X W t q : without X W !! t = Some q ↔ W !! t = Some q ∧ q ≠ LThread X.
Proof. unfold without. by rewrite map_lookup_filter_Some. Qed.

Lemma call_not_at_node s Cs W C t n : chains_inv s Cs W → C ∈ Cs → t ∈ (calls C).*1 → W !! t ≠ Some (LNode n).
Proof.
  intros HI HC Ht Hq. destruct (ci_wait _ _ _ HI _ _ Hq) as (x & b & y & Hx & _ & _ & _ & _ & Hn). destruct (Hn n eq_refl) as [Hr _].
  eapply (not_call _ _ _ _ _ HI Hx Hr), elem_of_ids. by exists C.
Qed.

Section thread_leaves.
Context (s s1 : txns) (X : Z) (C : chain) (Ds : list chain) (W : gmap Z slot).
Context (HI : chains_inv s (C :: Ds) W) (Htop : top X (events C) = stk s X).
Context (Hleft : left_by X (drop_thread s X) s1 (calls C)) (HB : bufs_ok s1 W).
Context (HL : links (txn_at s1) (leave_id X (root C)) None [] (leave X (calls C))).

Definition left_chain : chain := mk_chain (leave_id X (root C)) (leave X (calls C)).

Lemma left_stacks : stacks_ok s1 (left_chain :: Ds).
Proof.
  pose proof (ci_stacks _ _ _ HI) as HS. pose proof (so_ids _ _ HS) as HN.
  assert (HE : ∀ z, top z (events left_chain) = if decide (z = X) then None else top z (events C)) by (intros z; apply top_leave).
  eapply (stacks_update s s1 C); try done; simpl; rewrite ?leave_ids.
  - by eapply chain_nodup, in_head.
  - intros t. by apply head_disjoint.
  - apply (shape_leave X (root C)). apply (so_shape _ _ HS C), in_head.
  - intros t Ht. rewrite (lb_other _ _ _ _ Hleft); [done|]. intros Hin. by eapply head_disjoint.
  - intros t x Hx Hn. pose proof (lb_wash _ _ _ _ Hleft t) as Hw. rewrite Hx in Hw. simpl in Hw.
    destruct (txn_at s !! t) as [x0|] eqn:Hx0; [|done]. simpl in Hw. unfold wash in Hw. injection Hw as Hw _ _.
    pose proof (so_all _ _ HS t x0 Hx0) as Hin. rewrite ids_cons, elem_of_app in Hin. apply Hin. congruence.
  - intros z. rewrite HE. unfold stk. rewrite (lb_threads _ _ _ _ Hleft). simpl. case_decide as Hz.
    + subst z. rewrite lookup_delete_eq. simpl. destruct (top X (events C)) eqn:Hc; [done|]. rewrite Htop in Hc. done.
    + rewrite lookup_delete_ne by done. fold (stk s z). destruct (top z (events C)) as [u|] eqn:Hu; [|done].
      apply (so_top _ _ HS). exists C. by split; [left|].
  - intros z Hz. left. rewrite HE in Hz. by case_decide.
Qed.

(** Transactions in lists keep their data. *)
Lemma left_waiting t q : W !! t = Some q → ∃ x x' b y, txn_at s !! t = Some x ∧ txn_at s1 !! t = Some x' ∧
  x_buffer x = Some b ∧ x_buffer x' = Some b ∧ tbuf_at s !! b = Some y ∧ tbuf_at s1 !! b = Some y ∧ wash X x' = wash X x ∧
  (x_need_reply x = false → x' = x).
Proof.
  intros Hq. destruct (ci_wait _ _ _ HI t q Hq) as (x & b & y & Hx & Hb & Hy & _).
  assert (Hnb : (t, By X) ∉ calls C).
  { intros (l1 & l2 & Hl)%list_elem_of_split. pose proof (call_not_waiting _ _ _ _ _ _ _ _ HI (in_head _ _) Hl) as Hnone. rewrite Hnone in Hq; done. }
  pose proof (lb_wash _ _ _ _ Hleft t) as Hw. pose proof (lb_data _ _ _ _ Hleft t Hnb) as Hd. simpl in Hw, Hd. rewrite Hx in Hw, Hd.
  destruct (txn_at s1 !! t) as [x'|] eqn:Hx'; [|done]. simpl in Hw, Hd. exists x, x', b, y. split_and!; try done; try congruence.
  - destruct (bo_txn _ _ (ci_bufs _ _ _ HI) t x b Hx Hb) as (y' & Hy' & Ht). assert (y' = y) as -> by congruence.
    by eapply (lb_bufs _ _ _ _ Hleft).
  - intros Hn. assert (Hid : t ∉ (calls C).*1). { intros Hin. apply (not_call _ _ _ _ _ HI Hx Hn), elem_of_ids. exists C. by split; [left|]. }
    pose proof (lb_other _ _ _ _ Hleft t Hid) as Ho. simpl in Ho. congruence.
Qed.

Lemma left_chains : chains_inv s1 (left_chain :: Ds) (without X W).
Proof.
  split; [apply left_stacks| | |].
  - eapply (bufs_same s1); try done. intros t n. rewrite without_lookup. split; [tauto|done].
  - intros t q [Hq Hne]%without_lookup. destruct (left_waiting t q Hq) as (x & x' & b & y & Hx & Hx' & Hb & Hb' & Hy & Hy' & Hw & Hsame).
    destruct (ci_wait _ _ _ HI t q Hq) as (x0 & b0 & y0 & Hx0 & Hb0 & Hy0 & Hal & Hk & Hn).
    assert (x0 = x) as -> by congruence. assert (b0 = b) as -> by congruence. assert (y0 = y) as -> by congruence.
    exists x', b, y. assert (Hnr : x_need_reply x' = x_need_reply x) by (by injection Hw). rewrite Hnr. split_and!; try done.
    destruct (x_need_reply x) eqn:Hnx; [|by rewrite (Hsame eq_refl)]. destruct Hk as (Hnd & D & [->|HD]%elem_of_cons & Hin); split; try done.
    + exists left_chain. split; [by left|]. by apply leave_elem.
    + exists D. by split; [right|].
  - intros D t q [->|HD]%elem_of_cons Hin; rewrite without_lookup.
    + simpl in Hin. apply leave_elem in Hin as [Hin Hne]. split; [|done]. eapply (ci_cell _ _ _ HI); [by left|done].
    + split; [eapply (ci_cell _ _ _ HI); [by right|done]|]. intros ->.
      assert (D = C) as -> by (eapply (queued_for_thread _ _ _ C D t X HI); [by left|by right|done|done]).
      eapply (head_disjoint C Ds t (so_ids _ _ (ci_stacks _ _ _ HI))); [by eapply fst_in|]. apply elem_of_ids. exists C. split; [done|by eapply fst_in].
Qed.

Lemma left_ready t : W !! t = Some (LThread X) → ready s1 (left_chain :: Ds) t.
Proof.
  intros Hq. destruct (left_waiting t _ Hq) as (x & x' & b & y & Hx & Hx' & Hb & Hb' & Hy & Hy' & Hw & Hsame).
  destruct (ci_wait _ _ _ HI t _ Hq) as (x0 & b0 & y0 & Hx0 & Hb0 & Hy0 & Hal & Hk & Hn).
  assert (x0 = x) as -> by congruence. assert (b0 = b) as -> by congruence. assert (y0 = y) as -> by congruence.
  exists x', b, y. injection Hw as Hnr How _. rewrite Hnr, How. split_and!; try done.
  destruct (x_need_reply x); [|by destruct Hk]. destruct Hk as (Hnd & D & HD & Hin). split_and!; try done.
  - by destruct (links_elem _ _ _ _ _ _ _ (so_links _ _ (ci_stacks _ _ _ HI) D HD) Hin) as (x2 & ? & _ & ?); simplify_eq.
  - assert (D = C) as -> by (eapply (queued_for_thread _ _ _ C D t X HI); [by left|done|done|done]).
    apply list_elem_of_split in Hin as (l1 & l2 & Hl). destruct l2 as [|c l2].
    + exists (leave_id X (root C)), (leave X l1). assert (left_chain = mk_chain (leave_id X (root C)) (leave X l1 ++ [(t, Gone)])) as ->; [|by left].
      unfold left_chain. rewrite Hl. unfold leave. rewrite fmap_app. simpl. by rewrite Z.eqb_refl.
    + exfalso. by eapply (so_shape _ _ (ci_stacks _ _ _ HI) C (in_head _ _) l1 t _ c l2).
Qed.

Lemma left_errs : errs_ok s → errs_ok s1.
Proof.
  intros HE z th. rewrite (lb_threads _ _ _ _ Hleft). simpl. intros [Hd Hz]%lookup_delete_Some. destruct (HE z th Hz) as [A B]. split; [done|].
  intros t y Ht Hy Hf. pose proof (lb_wash _ _ _ _ Hleft t) as Hw. simpl in Hw. rewrite Hy in Hw.
  destruct (txn_at s !! t) as [y0|] eqn:Hy0; [|done]. injection Hw as _ _ Hw. rewrite Hf in Hw. unfold leave_id in Hw.
  rewrite decide_False in Hw by congruence. case_decide; [done|]. by eapply (B t y0).
Qed.
End thread_leaves.

Lemma send_failed_ok s r l t a Ds W e :
  chains_inv s (mk_chain r (l ++ [(t, a)]) :: Ds) W → errs_ok s → handler a = None → e ≠ BR_OK →
  ∃ s' l', binder_send_failed_reply s t e = Some s' ∧ chains_inv s' (mk_chain r l' :: Ds) (delete t W) ∧ errs_ok s' ∧ failed_to s s' r l l' t e.
Proof.
  intros HI HE Ha He. destruct (last_cell _ _ _ _ _ _ _ HI) as (x & Hx & _ & _ & _ & Ho & _).
  unfold binder_send_failed_reply. rewrite Hx. cbn [mbind option_bind]. rewrite Ho. eapply failed_loop_ok; try done.
  pose proof (chain_fuel _ _ _ (ci_stacks _ _ _ HI) (in_head _ _)) as Hf. simpl in Hf. rewrite length_app in Hf. simpl in Hf. lia.
Qed.

(** The other items of a list are not touched by a failed reply. *)
Lemma ready_failed s s' r l l' t a Ds W e u :
  chains_inv s (mk_chain r (l ++ [(t, a)]) :: Ds) W → failed_to s s' r l l' t e → ready s (mk_chain r (l ++ [(t, a)]) :: Ds) u → u ≠ t →
  ready s' (mk_chain r l' :: Ds) u.
Proof.
  intros HI [(l'' & -> & _ & Hk) _ Hsl] (x & b & y & Hx & Hb & Hy & Hkind) Hne.
  assert (Hu : (if x_need_reply x then ∃ rr ll, mk_chain rr (ll ++ [(u, Gone)]) ∈ Ds else True) ∧ u ∉ l''.*1).
  { destruct (x_need_reply x) eqn:Hn.
    - destruct Hkind as (_ & _ & rr & ll & [Heq|HD]%elem_of_cons).
      + injection Heq as _ Heq. apply app_inj_tail in Heq as [_ Heq]. congruence.
      + split; [by exists rr, ll|]. intros Hin. eapply (head_disjoint _ Ds u (so_ids _ _ (ci_stacks _ _ _ HI))).
        * simpl. rewrite !fmap_app. set_solver.
        * apply elem_of_ids. eexists. split; [done|]. simpl. rewrite fmap_app. set_solver.
    - split; [done|]. intros Hin. apply (not_call _ _ _ _ _ HI Hx Hn). rewrite ids_cons. simpl. rewrite !fmap_app. set_solver. }
  destruct Hu as [Hch Hnot]. pose proof (sl_bufs _ _ Hsl b) as Hbn. rewrite Hy in Hbn. destruct (tbuf_at s' !! b) as [y'|] eqn:Hy'; [|done].
  simpl in Hbn. injection Hbn as Hbn. exists x, b, y'. rewrite Hk by done. split_and!; try done.
  destruct (x_need_reply x); [|by rewrite Hbn]. destruct Hkind as (Ho & Hnd & _). rewrite Hbn. split_and!; try done.
  destruct Hch as (rr & ll & HD). exists rr, ll. by right.
Qed.

Lemma tx_of_cons i l : tx_of (i :: l) = match i with TTxn t => t :: tx_of l | TComplete => tx_of l end.
Proof. by destruct i. Qed.

(** Chains that end, but for the calls in a list. *)
Definition ends_or (items : list Z) (C : chain) : Prop := ends C ∨ ∃ t, t ∈ items ∧ ∃ l, calls C = l ++ [(t, Gone)].

Lemma ends_or_cons t items C : ends_or (t :: items) C → t ∉ (calls C).*1 → ends_or items C.
Proof.
  intros [H|(u & [->|Hu]%elem_of_cons & l & Hl)] Ht; [by left| |right; by exists u; eauto].
  exfalso. apply Ht. rewrite Hl, fmap_app. set_solver.
Qed.

Lemma left_ends X C items :
  ends C → (∀ l t, calls C ≠ l ++ [(t, By X)]) → (∀ t, (t, Queued (LThread X)) ∈ calls C → t ∈ items) → ends_or items (left_chain X C).
Proof.
  intros HE Hby Hq. destruct (decide (calls C = [])) as [Hn|Hn].
  { left. intros l t. unfold left_chain. simpl. rewrite Hn. by destruct l. }
  destruct (exists_last Hn) as (l & [t a] & Hl). unfold ends_or, left_chain. simpl. rewrite Hl. unfold leave. rewrite fmap_app. simpl.
  destruct (decide (leave_actor X a = Gone)) as [Hg|Hg]; [|left; by apply ends_snoc]. rewrite Hg. right. exists t. split; [|by eexists].
  destruct a as [[b|p|n]|b|]; simpl in Hg; try done.
  - destruct (Z.eqb_spec b X) as [->|]; [|done]. apply Hq. rewrite Hl. set_solver.
  - destruct (Z.eqb_spec b X) as [->|]; [|done]. by destruct (Hby l t).
  - by destruct (HE l t).
Qed.

Lemma release_work_ok items s Cs W :
  chains_inv s Cs W → errs_ok s → NoDup (tx_of items) → (∀ t, t ∈ tx_of items → ready s Cs t) → Forall (ends_or (tx_of items)) Cs →
  ∃ s' Cs', release_work s items = Some s' ∧ chains_inv s' Cs' W ∧ errs_ok s' ∧ same_lists s s' ∧ Forall ends Cs'.
Proof.
  revert s Cs. induction items as [|[t|] items IH]; intros s Cs HI HE HN HR HF; [| |by apply (IH s Cs)].
  { exists s, Cs. split_and!; try done. eapply Forall_impl; [done|]. intros C [?|(t & Ht & _)]; [done|by apply not_elem_of_nil in Ht]. }
  rewrite tx_of_cons in HN, HR. apply NoDup_cons in HN as [Ht HN]. simpl.
  destruct (HR t (in_head _ _)) as (x & b & y & Hx & Hb & Hy & Hk). rewrite Hx. simpl. rewrite Hb. simpl. rewrite Hy. simpl.
  destruct (x_need_reply x) eqn:Hn.
  - destruct Hk as (Ho & Hnd & r & l & HC). destruct (b_node y) as [n|]; [|done]. rewrite Ho. simpl.
    destruct (chain_front _ _ HC) as (Ds & HP). pose proof (chains_perm _ _ _ _ HP HI) as HI'.
    destruct (send_failed_ok _ _ _ _ _ _ _ BR_DEAD_REPLY HI' HE eq_refl) as (s1 & l' & -> & HI1 & HE1 & Hft); [done|]. simpl.
    rewrite delete_id in HI1 by (eapply (call_not_waiting _ _ _ _ l t Gone [] HI' (in_head _ _)); done).
    destruct (IH s1 _ HI1 HE1 HN) as (s' & Cs' & -> & HI2 & HE2 & Hl2 & HF2).
    + intros u Hu. eapply (ready_failed s s1); try done; [|intros ->; done].
      destruct (HR u) as (x' & b' & y' & ? & ? & ? & Hk'); [by right|]. exists x', b', y'. split_and!; try done.
      destruct (x_need_reply x'); [|done]. destruct Hk' as (? & ? & r' & l2 & HC'). split_and!; try done. exists r', l2. by rewrite <- HP.
    + rewrite HP in HF. apply Forall_cons in HF as [_ HF]. constructor; [left; by eapply failed_ends|].
      apply Forall_forall. intros D HD. rewrite Forall_forall in HF. eapply ends_or_cons; [by apply HF|]. intros Hin.
      eapply (head_disjoint _ Ds t (so_ids _ _ (ci_stacks _ _ _ HI'))); [simpl; rewrite fmap_app; set_solver|]. apply elem_of_ids. by exists D.
    + exists s', Cs'. split_and!; try done. etrans; [apply (ft_lists _ _ _ _ _ _ _ Hft)|done].
  - assert (Hskip : match b_node y with Some _ => if negb (x_one_way x) then binder_send_failed_reply s t BR_DEAD_REPLY else Some s | None => Some s end = Some s).
    { destruct Hk as [->|Ho]; [done|]. rewrite Ho. by destruct (b_node y). }
    rewrite Hskip. simpl. apply (IH s Cs); try done; [intros u Hu; apply HR; by right|].
    apply Forall_forall. intros D HD. rewrite Forall_forall in HF. eapply ends_or_cons; [by apply HF|]. intros Hin.
    apply (not_call _ _ _ _ _ HI Hx Hn), elem_of_ids. by exists D.
Qed.

Lemma chains_new_chain s Cs W r : chains_inv s Cs W → chains_inv s (mk_chain r [] :: Cs) W.
Proof.
  intros [A B C D]. split; [by apply stacks_new_chain|done| |].
  - intros t q Hq. eapply (waiting_ext s s Cs _ W); [done|by apply C|done|done|]. intros E HE Hin. exists E. by split; [right|].
  - intros E t q [->|HE]%elem_of_cons Hin; [by apply not_elem_of_nil in Hin|by eapply D].
Qed.

(** The chain of a thread, an empty one if it has none. *)
Lemma chain_of_thread s Cs W X :
  chains_inv s Cs W → Forall ends Cs → ∃ C Ds, chains_inv s (C :: Ds) W ∧ top X (events C) = stk s X ∧ Forall ends (C :: Ds).
Proof.
  intros HI HF. destruct (stk s X) as [t|] eqn:Hs.
  - destruct (stk_chain _ _ _ _ (ci_stacks _ _ _ HI) Hs) as (C & Ds & HP & _ & Ht). exists C, Ds. split; [by eapply chains_perm|]. split; [done|by rewrite <- HP].
  - exists (mk_chain None []), Cs. split; [by apply chains_new_chain|]. split; [done|]. constructor; [apply ends_nil|done].
Qed.

(** The top of a stack is a transaction. *)
Lemma stk_txn s Cs X t : stacks_ok s Cs → stk s X = Some t → ∃ x, txn_at s !! t = Some x ∧ x_need_reply x = true.
Proof.
  intros HS (C & HC & Ht)%(so_top _ _ HS). apply top_evs_id in Ht. apply list_elem_of_fmap in Ht as ([t' a] & -> & Hin).
  destruct (links_elem _ _ _ _ _ _ _ (so_links _ _ HS C HC) Hin) as (x & Hx & Hn & _). by exists x.
Qed.

Lemma left_queues s s1 X l W : left_by X (drop_thread s X) s1 l → queues s W [] → queues s1 (without X W) [].
Proof.
  intros HL [A B].
  assert (Hq : ∀ q, queue s1 q = if decide (q = LThread X) then [] else queue s q).
  { intros q. unfold queue, todo_of, node_of. rewrite (lb_threads _ _ _ _ HL), (lb_proc _ _ _ _ HL), (lb_async _ _ _ _ HL). simpl.
    destruct q as [z|p|n]; try done. case_decide as Hd; [injection Hd as ->; by rewrite lookup_delete_eq|].
    by rewrite lookup_delete_ne by congruence. }
  split; intros q; rewrite Hq; case_decide as Hd; try done; [constructor|..].
  - intros t. rewrite without_lookup. set_solver.
  - intros t. rewrite B, without_lookup. set_solver.
Qed.

Lemma free_thread_ok s Cs W X th :
  txn_inv s Cs W → threads s !! X = Some th → ∃ s' Cs' W', binder_free_thread s X = Some s' ∧ txn_inv s' Cs' W'.
Proof.
  intros (HI0 & HE & HQ & HF0) Hth. destruct (chain_of_thread _ _ _ X HI0 HF0) as (C & Ds & HI & Htop & HF).
  apply Forall_cons in HF as [HFC HFD].
  assert (Hst : stk s X = transaction_stack th) by (unfold stk; by rewrite Hth).
  pose proof (ci_stacks _ _ _ HI) as HS.
  assert (HB0 : bufs_ok (drop_thread s X) W) by (by eapply (bufs_same s); [apply HI|..]).
  destruct (exit_loop_ok X (root C) (calls C) (txn_fuel s) (drop_thread s X) W) as (s1 & Hexit & Hleft & HB1 & HL1);
    [apply (so_links _ _ HS), in_head|done|eapply chain_nodup; [apply HS|apply in_head]|
     intros t n; eapply call_not_at_node; [done|apply in_head]|by eapply chain_fuel, in_head|].
  fold (events C) in Hexit. rewrite Htop, Hst in Hexit.
  pose proof (left_chains _ _ _ _ _ _ HI Htop Hleft HB1 HL1) as HI1. pose proof (left_errs _ _ _ _ Hleft HE) as HE1.
  pose proof (left_queues _ _ _ _ _ Hleft HQ) as HQ1.
  assert (Hitems : NoDup (tx_of (th_todo th)) ∧ ∀ t, t ∈ tx_of (th_todo th) → W !! t = Some (LThread X)).
  { assert (Heq : queue s (LThread X) = tx_of (th_todo th)) by (simpl; by rewrite Hth). rewrite <- Heq. split; [apply (qu_nodup _ _ _ HQ)|].
    intros t Ht. by apply (qu_in _ _ _ HQ). }
  destruct Hitems as [HN Hitems].
  assert (Hready : ∀ t, t ∈ tx_of (th_todo th) → ready s1 (left_chain X C :: Ds) t).
  { intros t Ht. by eapply left_ready, Hitems. }
  assert (Hend : ∀ s2 Cs2, chains_inv s2 Cs2 (without X W) → errs_ok s2 → same_lists s1 s2 → (∀ t, t ∈ tx_of (th_todo th) → ready s2 Cs2 t) →
    Forall (ends_or (tx_of (th_todo th))) Cs2 → ∃ s' Cs' W', release_work s2 (th_todo th) = Some s' ∧ txn_inv s' Cs' W').
  { intros s2 Cs2 HI2 HE2 Hl2 HR2 HF2. destruct (release_work_ok _ _ _ _ HI2 HE2 HN HR2 HF2) as (s' & Cs' & -> & HI' & HE' & Hl' & HF').
    exists s', Cs', (without X W). split; [done|]. split_and!; try done. eapply same_lists_queues; [|done]. by etrans. }
  assert (HFD' : Forall (ends_or (tx_of (th_todo th))) Ds) by (eapply Forall_impl; [done|]; intros D HD; by left).
  assert (Hlast : (∀ l t, calls C ≠ l ++ [(t, By X)]) → Forall (ends_or (tx_of (th_todo th))) (left_chain X C :: Ds)).
  { intros HnoBy. constructor; [|done]. apply left_ends; [done|done|]. intros t Hin.
    assert (HWt : W !! t = Some (LThread X)) by (eapply (ci_cell _ _ _ HI); [apply in_head|done]).
    assert (Hqt : t ∈ queue s (LThread X)) by (apply (qu_in _ _ _ HQ); split; [done|set_solver]). simpl in Hqt. by rewrite Hth in Hqt. }
  unfold binder_free_thread. rewrite Hth. cbn [mbind option_bind]. change (txn_fuel (drop_thread s X)) with (txn_fuel s). rewrite Hexit.
  assert (Hby : ∀ l t, calls C = l ++ [(t, By X)] → transaction_stack th = Some t ∧ ∃ x, txn_at s !! t = Some x ∧ x_to_thread x = Some X).
  { intros l t Hl. pose proof (so_links _ _ HS C (in_head _ _)) as HL. rewrite Hl in HL. apply links_cell in HL as (x & Hx & _ & _ & _ & _ & _ & Hto & _).
    split; [|by exists x]. rewrite <- Hst, <- Htop. unfold events. rewrite Hl, evs_snoc, !top_app. simpl. by rewrite Z.eqb_refl. }
  destruct (transaction_stack th) as [t|] eqn:Hts.
  2: { cbn [mbind option_bind]. eapply Hend; try done. apply Hlast. intros l t Hl. by destruct (Hby l t Hl). }
  destruct (stk_txn _ _ X t HS) as (x & Hx & _); [congruence|]. change (txn_at (drop_thread s X)) with (txn_at s).
  rewrite Hx. cbn [mbind option_bind]. destruct (option_eqb (x_to_thread x) (Some X)) eqn:Hto.
  2: { eapply Hend; try done. apply Hlast. intros l u Hl. destruct (Hby l u Hl) as ([= ->] & x' & Hx' & Hto'). assert (x' = x) as -> by congruence.
       by rewrite Hto', option_eqb_refl in Hto. }
  apply option_eqb_true in Hto. destruct (top_in_last _ _ _ X t x HS) as (l & Hl); [congruence|done|done|].
  assert (HC : left_chain X C = mk_chain (leave_id X (root C)) (leave X l ++ [(t, Gone)])).
  { unfold left_chain. rewrite Hl. unfold leave. rewrite fmap_app. simpl. by rewrite Z.eqb_refl. }
  rewrite HC in HI1, Hready.
  assert (HWt : W !! t = None) by (by eapply (call_not_waiting _ _ _ C l t (By X) [] HI (in_head _ _) Hl)).
  destruct (send_failed_ok _ _ _ _ _ _ _ BR_DEAD_REPLY HI1 HE1 eq_refl) as (s2 & l' & -> & HI2 & HE2 & Hft); [done|].
  cbn [mbind option_bind]. rewrite delete_id in HI2.
  - eapply Hend; [done|done|apply Hft| |constructor; [left; by eapply failed_ends|done]].
    intros u Hu. eapply ready_failed; [done|done|by apply Hready|]. intros ->. rewrite (Hitems t Hu) in HWt. done.
  - apply eq_None_not_Some. intros (q & [Hq _]%without_lookup). congruence.
Qed.

(** ** Finding the thread a call goes to *)

(** The threads that wait in a chain, the first caller first. *)
Fixpoint senders (r : option Z) (l : list (Z * actor)) : list Z :=
  match l with
  | [] => []
  | (_, a) :: l => match r with Some w => [w] | None => [] end ++ senders (handler a) l
  end.

Definition of_proc (s : txns) (p w : Z) : bool := bool_decide (th_proc <$> threads s !! w = Some p).

Lemma senders_snoc r l t a : senders r (l ++ [(t, a)]) = senders r l ++ match last_handler r l with Some w => [w] | None => [] end.
Proof. revert r. induction l as [|[t' a'] l IH]; intros r; simpl; [by rewrite app_nil_r|]. by rewrite IH, app_assoc. Qed.

Lemma senders_top r l w : w ∈ senders r l → top w (evs r l) ≠ None.
Proof.
  induction l as [|[t a] l IH] using rev_ind; [simpl; set_solver|]. rewrite senders_snoc, evs_snoc, !top_app, !top_at.
  intros [Hw|Hw]%elem_of_app.
  - repeat case_bool_decide; try done. by apply IH.
  - destruct (last_handler r l) as [z|]; [|set_solver]. apply list_elem_of_singleton in Hw as ->. case_bool_decide; [done|].
    by rewrite bool_decide_true.
Qed.

Lemma find_target_ok s r l p found fuel :
  links (txn_at s) r None [] l → (∀ w, w ∈ senders r l → is_Some (threads s !! w)) → (length l < fuel)%nat →
  find_target_thread fuel s (last_id None l) p found =
  Some (match head (filter (λ w, of_proc s p w = true) (senders r l)) with Some w => Some w | None => found end).
Proof.
  revert fuel found. induction l as [|[t a] l IH] using rev_ind; intros fuel found HL Hlive Hf; [by destruct fuel|].
  rewrite links_snoc in HL. destruct HL as [HL (x & Hx & Hfr & Hp & _)]. simpl in Hx, Hfr, Hp. rewrite last_id_snoc.
  rewrite length_app in Hf. simpl in Hf. destruct fuel as [|fuel]; [lia|]. simpl. rewrite Hx. simpl. rewrite Hfr, Hp, senders_snoc, filter_app.
  rewrite senders_snoc in Hlive.
  assert (Hlive' : ∀ w, w ∈ senders r l → is_Some (threads s !! w)) by (intros w Hw; apply Hlive; set_solver).
  destruct (last_handler r l) as [w|] eqn:Hl.
  - destruct (Hlive w) as [th Hth]; [set_solver|]. rewrite Hth. simpl. rewrite IH by (done || lia). f_equal.
    destruct (filter _ (senders r l)) as [|z zs]; [|done]. simpl. unfold of_proc. rewrite filter_cons, filter_nil, Hth. simpl.
    destruct (Z.eqb_spec (th_proc th) p) as [->|Hd]; [by rewrite decide_True by (by apply bool_decide_eq_true)|].
    rewrite decide_False; [done|]. rewrite bool_decide_eq_true. congruence.
  - simpl. rewrite IH by (done || lia). by rewrite filter_nil, app_nil_r.
Qed.

Lemma chain_live s Cs W C z : chains_inv s Cs W → C ∈ Cs → top z (events C) ≠ None → is_Some (threads s !! z).
Proof.
  intros HI HC Hz. destruct (top z (events C)) as [t|] eqn:Ht; [|done].
  assert (Hs : stk s z = Some t) by (apply (so_top _ _ (ci_stacks _ _ _ HI)); by exists C). apply stk_some in Hs as (th & -> & _). by eexists.
Qed.

(** ** Steps that move transactions between lists *)

Record same_core (s s' : txns) : Prop := {
  sc_txn : txn_at s' = txn_at s;
  sc_buf : tbuf_at s' = tbuf_at s;
  sc_async : async_at s' = async_at s;
  sc_thread : ∀ z, (λ th, set_todo th []) <$> threads s' !! z = (λ th, set_todo th []) <$> threads s !! z }.

Lemma core_thread s s' z th' : same_core s s' → threads s' !! z = Some th' →
  ∃ th, threads s !! z = Some th ∧ th_proc th' = th_proc th ∧ transaction_stack th' = transaction_stack th ∧
    return_error th' = return_error th ∧ return_error2 th' = return_error2 th.
Proof.
  intros HC Hz. pose proof (sc_thread _ _ HC z) as H. rewrite Hz in H. destruct (threads s !! z) as [th|]; [|done].
  exists th. split; [done|]. unfold set_todo in H. simpl in H. by injection H.
Qed.

Lemma core_stk s s' z : same_core s s' → stk s' z = stk s z.
Proof.
  intros HC. pose proof (sc_thread _ _ HC z) as H. unfold stk. destruct (threads s' !! z), (threads s !! z); try done.
  unfold set_todo in H. simpl in *. by injection H.
Qed.

Lemma core_chains s s' Cs W : same_core s s' → chains_inv s Cs W → chains_inv s' Cs W.
Proof.
  intros HC HI. eapply chains_threads; [done|apply HC|apply HC| |intros x; by apply core_stk].
  intros n. unfold node_of. by rewrite (sc_async _ _ HC).
Qed.

Lemma core_errs s s' : same_core s s' → errs_ok s → errs_ok s'.
Proof.
  intros HC HE z th' Hz. destruct (core_thread _ _ _ _ HC Hz) as (th & Hth & _ & Hs & -> & ->). rewrite Hs, (sc_txn _ _ HC). by apply HE.
Qed.

#[global] Instance same_core_preorder : PreOrder same_core.
Proof.
  split; [by intros s|]. intros s1 s2 s3 [A1 A2 A3 A4] [B1 B2 B3 B4]. split; congruence.
Qed.

Lemma core_todo s z th l : threads s !! z = Some th → same_core s (put_thread s z (set_todo th l)).
Proof.
  intros Hz. split; try done. intros z'. simpl. destruct (decide (z' = z)) as [->|Hd]; [by rewrite lookup_insert_eq, Hz|by rewrite lookup_insert_ne].
Qed.

Lemma tx_of_app l1 l2 : tx_of (l1 ++ l2) = tx_of l1 ++ tx_of l2.
Proof. unfold tx_of. apply omap_app. Qed.

Lemma queue_put_thread s z th th' q : threads s !! z = Some th →
  queue (put_thread s z th') q = if decide (q = LThread z) then tx_of (th_todo th') else queue s q.
Proof.
  intros Hz. destruct q as [z'|p|n]; simpl; try done. destruct (decide (z' = z)) as [->|Hd].
  - rewrite lookup_insert_eq. by rewrite decide_True.
  - rewrite lookup_insert_ne by done. rewrite decide_False; [done|congruence].
Qed.

Lemma queue_put_same s z th th' q : threads s !! z = Some th → tx_of (th_todo th') = tx_of (th_todo th) → queue (put_thread s z th') q = queue s q.
Proof. intros Hz Ht. rewrite (queue_put_thread _ _ _ _ _ Hz). case_decide as Hd; [|done]. subst q. simpl. by rewrite Hz. Qed.

Lemma queue_put_todo s p l q : queue (put_todo s p l) q = if decide (q = LProc p) then tx_of l else queue s q.
Proof.
  destruct q as [z|p'|n]; simpl; try done. unfold todo_of. simpl. destruct (decide (p' = p)) as [->|Hd].
  - rewrite lookup_insert_eq. simpl. by rewrite decide_True.
  - rewrite lookup_insert_ne by done. rewrite decide_False; [done|congruence].
Qed.

Lemma node_put_async s n a n' : node_of (put_async s n a) n' = if decide (n' = n) then a else node_of s n'.
Proof. unfold node_of. simpl. case_decide as Hd; [subst; by rewrite lookup_insert_eq|by rewrite lookup_insert_ne]. Qed.

Lemma queue_put_async s n a q : queue (put_async s n a) q = if decide (q = LNode n) then a_todo a else queue s q.
Proof.
  destruct q as [z|p|n']; try done. unfold queue. rewrite node_put_async. destruct (decide (n' = n)) as [->|Hd]; [by rewrite decide_True|].
  rewrite decide_False; [done|congruence].
Qed.

(** Where [queue_txn] puts a transaction. *)
Definition target_place (p : Z) (w : option Z) : slot := match w with Some z => LThread z | None => LProc p end.

Lemma queue_txn_ok s p w t : (∀ z, w = Some z → is_Some (threads s !! z)) →
  ∃ s', queue_txn s p w t = Some s' ∧ same_core s s' ∧
    ∀ q, queue s' q = if decide (q = target_place p w) then queue s q ++ [t] else queue s q.
Proof.
  intros Hw. destruct w as [z|]; simpl.
  - destruct (Hw z eq_refl) as [th Hth]. rewrite Hth. simpl. eexists. split; [done|]. split; [by apply core_todo|]. intros q.
    rewrite (queue_put_thread _ _ _ _ _ Hth). case_decide as Hd; [|done]. subst q. simpl. by rewrite Hth, tx_of_app.
  - eexists. split; [done|]. split; [done|]. intros q. rewrite queue_put_todo. case_decide as Hd; [|done]. subst q. simpl. by rewrite tx_of_app.
Qed.

Lemma queue_complete_ok s X : is_Some (threads s !! X) → ∃ s', queue_complete s X = Some s' ∧ same_core s s' ∧ ∀ q, queue s' q = queue s q.
Proof.
  intros [th Hth]. unfold queue_complete. rewrite Hth. simpl. eexists. split; [done|]. split; [by apply core_todo|]. intros q.
  apply (queue_put_same _ _ th); [done|]. simpl. by rewrite tx_of_app, app_nil_r.
Qed.

Lemma queues_ext s s' W : queues s W [] → (∀ q, queue s' q = queue s q) → queues s' W [].
Proof. intros [A B] Hq. split; intros q; rewrite Hq; [apply A|apply B]. Qed.

Lemma queues_add s s' W t q : queues s W [] → W !! t = None →
  (∀ p, queue s' p = if decide (p = q) then queue s p ++ [t] else queue s p) → queues s' (<[t := q]> W) [].
Proof.
  intros [A B] Ht Hq. assert (Hnot : ∀ p, t ∉ queue s p) by (intros p [Hp _]%B; congruence). split.
  - intros p. rewrite Hq. case_decide; [|done]. apply NoDup_app. split; [done|]. split; [|apply NoDup_singleton].
    intros u Hu ->%list_elem_of_singleton. by apply (Hnot p).
  - intros p u. rewrite Hq. destruct (decide (u = t)) as [->|Hd].
    + rewrite lookup_insert_eq. case_decide as Hp; [subst; set_solver|]. split; [intros Hu; by apply Hnot in Hu|intros [[= ->] _]; done].
    + rewrite lookup_insert_ne by done. rewrite <- B. case_decide; [set_solver|done].
Qed.

Lemma queues_remove s s' W t q l : queues s W [] → queue s q = t :: l →
  (∀ p, queue s' p = if decide (p = q) then l else queue s p) → queues s' (delete t W) [] ∧ W !! t = Some q.
Proof.
  intros [A B] Hl Hq. pose proof (A q) as HN. rewrite Hl in HN. apply NoDup_cons in HN as [Ht HN].
  assert (HW : W !! t = Some q) by (apply (B q t); rewrite Hl; by left). split; [|done]. split.
  - intros p. rewrite Hq. by case_decide.
  - intros p u. rewrite Hq. destruct (decide (u = t)) as [->|Hd].
    + rewrite lookup_delete_eq. split; [|by intros [? _]]. case_decide; [done|]. intros [Hu _]%B. congruence.
    + rewrite lookup_delete_ne by done. rewrite <- B. case_decide as Hp; [|done]. subst p. rewrite Hl. set_solver.
Qed.
