(* ===== verification/BinderCalls.v ===== *)
(** Calls and replies of binder from end to end (the model is BinderTxn.v, the
    invariant BinderChain.v): every operation keeps the invariant, so that no
    sequence of them runs into a BUG or a dangling pointer; replies reach the
    caller, calls reach a thread that can take them, and no caller is forgotten. *)

From S2P Require Import Prelude BinderTxn BinderChain.

(** ** The operations keep the invariant *)

Lemma is_ok_true e : is_ok e = true ↔ e = BR_OK.
Proof. unfold is_ok. apply bool_decide_eq_true. Qed.

Lemma errs_set s w th e : errs_ok s → threads s !! w = Some th → errs_ok (put_thread s w (set_errors th e BR_OK)).
Proof.
  intros HE Hw z zth. simpl. intros [[<- <-]|[Hd Hz]]%lookup_insert_Some; [done|]. by apply HE.
Qed.

Lemma errs_txns s s' :
  errs_ok s → threads s' = threads s → (∀ u v, txn_at s' !! u = Some v → x_from v = None ∨ txn_at s !! u = Some v) → errs_ok s'.
Proof.
  intros HE Hth HM z zth Hz. rewrite Hth in Hz. destruct (HE z zth Hz) as [A B]. split; [done|].
  intros u v Hu Hv Hf. destruct (HM u v Hv) as [Hn|Hs]; [congruence|by eapply B].
Qed.

Lemma failed_none_ok s Cs W X th e : txn_inv s Cs W → threads s !! X = Some th → return_error th = BR_OK →
  ∃ s', transaction_failed s X None e = Some s' ∧ txn_inv s' Cs W.
Proof.
  intros (HI & HE & HQ & HF) Hth He. destruct (HE X th Hth) as [HE1 _]. unfold transaction_failed. rewrite Hth. simpl.
  rewrite (proj2 (is_ok_true _) He). simpl. eexists. split; [done|]. rewrite (HE1 He). split_and!.
  - by apply chains_errors.
  - by apply errs_set.
  - eapply queues_ext; [done|]. intros q. by apply (queue_put_same _ _ th).
  - done.
Qed.

(** A call is made by the thread at the end of a chain. *)
Lemma caller_chain s Cs W X th :
  chains_inv s Cs W → threads s !! X = Some th →
  (∀ t, transaction_stack th = Some t → ∃ x, txn_at s !! t = Some x ∧ x_to_thread x = Some X) →
  ∃ r l Ds, chains_inv s (mk_chain r l :: Ds) W ∧ last_handler r l = Some X ∧ stk s X = last_id None l ∧ (∀ D, D ∈ Ds → D ∈ Cs).
Proof.
  intros HI Hth Hx. assert (Hst : stk s X = transaction_stack th) by (unfold stk; by rewrite Hth).
  destruct (transaction_stack th) as [t|] eqn:Ht.
  - destruct (Hx t eq_refl) as (x & Htx & Hto). destruct (stk_chain _ _ _ _ (ci_stacks _ _ _ HI) Hst) as (C & Ds & HP & HS & Htop).
    destruct (top_in_last _ _ _ _ _ _ HS Htop Htx Hto) as (l & Hl). exists (root C), (l ++ [(t, By X)]), Ds.
    split; [|split_and!; [by rewrite last_handler_snoc|by rewrite last_id_snoc|intros D HD; rewrite HP; by right]].
    rewrite <- Hl. destruct C. by eapply chains_perm.
  - exists (Some X), [], Cs. split; [by apply chains_new_chain|done].
Qed.

(** The thread that is called: the first one of the process that waits in the chain. *)
Lemma call_target_ok s W X r l Ds p :
  chains_inv s (mk_chain r l :: Ds) W → last_handler r l = Some X → stk s X = last_id None l → is_Some (threads s !! X) →
  call_target s X false p = Some (Some (head (filter (λ w, of_proc s p w = true) (senders r l)))).
Proof.
  intros HI Hl Hs [th Hth]. unfold call_target. rewrite Hth. cbn [mbind option_bind]. unfold stk in Hs. rewrite Hth in Hs. simpl in Hs.
  pose proof (ci_stacks _ _ _ HI) as HS. pose proof (so_links _ _ HS _ (in_head _ _)) as HL. simpl in HL.
  rewrite Hs. destruct l as [|[t a] l _] using rev_ind; [done|]. rewrite last_id_snoc. rewrite last_handler_snoc in Hl.
  destruct a as [?|b|]; try done. injection Hl as ->.
  pose proof HL as HLc. rewrite links_snoc in HLc. destruct HLc as [_ (x & Hx & _ & _ & _ & _ & _ & Hto & _)]. simpl in Hx, Hto.
  rewrite Hx. cbn [mbind option_bind]. rewrite Hto, option_eqb_refl. cbn [negb]. rewrite <- (last_id_snoc None l t (By X)).
  rewrite (find_target_ok s r); [cbn [mbind option_bind]; by destruct (head _)|done| |].
  - intros w Hw. eapply chain_live; [done|apply in_head|]. by apply senders_top.
  - apply (chain_fuel _ _ _ HS (in_head _ _)).
Qed.

Lemma core_live s s' z : same_core s s' → is_Some (threads s !! z) → is_Some (threads s' !! z).
Proof. intros HC [th Hz]. pose proof (sc_thread _ _ HC z) as H. rewrite Hz in H. by destruct (threads s' !! z). Qed.

(** The end of a call or reply: the transaction and the note about it are queued. *)
Lemma sent_ok s s1 Cs W p w t X :
  chains_inv s1 Cs (<[t := target_place p w]> W) → errs_ok s1 → queues s W [] → W !! t = None → (∀ q, queue s1 q = queue s q) →
  (∀ z, w = Some z → is_Some (threads s1 !! z)) → is_Some (threads s1 !! X) → Forall ends Cs →
  ∃ s', (s2 ← queue_txn s1 p w t; queue_complete s2 X) = Some s' ∧ txn_inv s' Cs (<[t := target_place p w]> W).
Proof.
  intros HI HE HQ Ht Hq Hw HX HF. destruct (queue_txn_ok s1 p w t Hw) as (s2 & -> & Hc2 & Hq2). simpl.
  destruct (queue_complete_ok s2 X) as (s3 & -> & Hc3 & Hq3); [by eapply core_live|]. exists s3. split; [done|].
  assert (Hc : same_core s1 s3) by (by etrans). split_and!; [by eapply core_chains|by eapply core_errs| |done].
  eapply queues_add; [exact HQ|done|]. intros q. by rewrite Hq3, Hq2, Hq.
Qed.

Lemma two_way_ok s Cs W X th n p t b w :
  txn_inv s Cs W → threads s !! X = Some th → return_error th = BR_OK → txn_at s !! t = None → tbuf_at s !! b = None →
  call_target s X false p = Some (Some w) → w ≠ Some X →
  ∃ s' Cs' W', transaction_call s X (inr (n, p)) false (Some (t, b)) = Some s' ∧ txn_inv s' Cs' W'.
Proof.
  intros (HI0 & HE & HQ & HF) Hth He Ht Hb Htg Hw. unfold transaction_call, call_queue. rewrite Htg. cbn [mbind option_bind].
  destruct (caller_chain _ _ _ _ _ HI0 Hth) as (r & l & Ds & HI & Hl & Hs & Hsub).
  { intros u Hu. destruct (stk_txn _ _ X u (ci_stacks _ _ _ HI0)) as (x & Hx & _); [unfold stk; by rewrite Hth|]. exists x. split; [done|].
    unfold call_target in Htg. rewrite Hth in Htg. cbn [mbind option_bind] in Htg. rewrite Hu, Hx in Htg. cbn [mbind option_bind] in Htg.
    destruct (option_eqb (x_to_thread x) (Some X)) eqn:Hto; [by apply option_eqb_true|done]. }
  rewrite (call_target_ok _ _ _ _ _ _ _ HI Hl Hs) in Htg by (by eexists). injection Htg as Htg.
  assert (Hlive : ∀ z, w = Some z → top z (evs r l) ≠ None).
  { intros z ->. apply senders_top. apply head_Some_elem_of in Htg. by apply list_elem_of_filter in Htg as [_ ?]. }
  assert (Hst : transaction_stack th = last_id None l) by (rewrite <- Hs; unfold stk; by rewrite Hth). rewrite Hth. cbn [mbind option_bind negb].
  destruct (HE X th Hth) as [HE1 _].
  match goal with |- context [put_txn s t ?z] => set (x := z) end.
  match goal with |- context [put_buf _ b ?z] => set (y := z) end.
  match goal with |- context [queue_txn ?z p w t] => set (s1 := z) end.
  assert (HI1 : chains_inv s1 (mk_chain r (l ++ [(t, Queued (target_place p w))]) :: Ds) (<[t := target_place p w]> W)).
  { eapply (chains_call s s1 r l X t b x y); try done.
    - destruct w as [z|]; [split; [done|by apply Hlive]|done].
    - intros z. unfold stk, s1. simpl. case_decide as Hz; [subst; by rewrite lookup_insert_eq|by rewrite lookup_insert_ne]. }
  edestruct (sent_ok s s1) as (s' & -> & HI'); [exact HI1| |exact HQ|by eapply unknown_not_waiting| | | | |by eexists _, _, _].
  - intros z zth. unfold s1. simpl. intros [[<- <-]|[Hd Hz]]%lookup_insert_Some; simpl; [split; intros; by apply HE1|].
    destruct (HE z zth Hz) as [A B]. split; [done|]. intros u v Hu [[<- <-]|[Hdu Huv]]%lookup_insert_Some Hf; [|by eapply B].
    unfold x in Hf. simpl in Hf. congruence.
  - intros q. unfold s1. rewrite (queue_put_same _ _ th); done.
  - intros z ->. assert (Hz : is_Some (threads s !! z)) by (eapply (chain_live _ _ _ (mk_chain r l)); [done|apply in_head|by apply Hlive]).
    unfold s1. simpl. destruct (decide (z = X)) as [->|Hd]; [rewrite lookup_insert_eq; by eexists|by rewrite lookup_insert_ne].
  - unfold s1. simpl. rewrite lookup_insert_eq. by eexists.
  - constructor; [by apply ends_snoc|]. apply Forall_forall. intros D HD. rewrite Forall_forall in HF. by apply HF, Hsub.
Qed.

Lemma one_way_ok s Cs W X th n p t b :
  txn_inv s Cs W → threads s !! X = Some th → txn_at s !! t = None → tbuf_at s !! b = None →
  ∃ s' Cs' W', transaction_call s X (inr (n, p)) true (Some (t, b)) = Some s' ∧ txn_inv s' Cs' W'.
Proof.
  intros (HI & HE & HQ & HF) Hth Ht Hb. unfold transaction_call, call_target, call_queue. rewrite Hth. cbn [mbind option_bind negb].
  match goal with |- context [put_txn s t ?z] => set (x := z) end.
  match goal with |- context [put_buf _ b ?z] => set (y := z) end. set (s0 := put_buf (put_txn s t x) b y).
  pose proof (unknown_not_waiting _ _ _ _ HI Ht) as HWt.
  assert (HA : ∀ q a, a_busy a = true → (∀ m, q = LNode m → m = n) → (q = LNode n ∨ a_busy (node_of s n) = false) →
    chains_inv (put_async s0 n a) Cs (<[t := q]> W) ∧ errs_ok (put_async s0 n a)).
  { intros q a Ha Hqn Hq. split.
    - eapply (chains_add s _ Cs W t b x y); try done; [by right|intros m Hm; rewrite (Hqn m Hm); done| |].
      + intros m Hm. rewrite node_put_async. by case_decide.
      + intros _. exists n. rewrite node_put_async, decide_True by done. done.
    - eapply errs_txns; [done|done|]. intros u v Hv. unfold s0 in Hv. simpl in Hv. apply lookup_insert_Some in Hv as [[<- <-]|[_ Hv]]; [by left|by right]. }
  change (node_of s0 n) with (node_of s n). destruct (a_busy (node_of s n)) eqn:Hbusy.
  - cbn [mbind option_bind]. match goal with |- context [put_async s0 n ?z] => set (a := z) end.
    destruct (HA (LNode n) a) as [HI1 HE1]; [done|by intros m [= ->]|by left|].
    destruct (queue_complete_ok (put_async s0 n a) X) as (s' & -> & Hc & Hq'); [by eexists|]. exists s', Cs, (<[t := LNode n]> W). split; [done|].
    split_and!; [by eapply core_chains|by eapply core_errs| |done]. eapply queues_add; [exact HQ|done|]. intros q. rewrite Hq', queue_put_async.
    case_decide as Hd; [by subst q|done].
  - match goal with |- context [put_async s0 n ?z] => set (a := z) end.
    destruct (HA (LProc p) a) as [HI1 HE1]; [done|done|by right|].
    destruct (sent_ok s (put_async s0 n a) Cs W p None t X HI1 HE1 HQ HWt) as (s' & -> & HI'); [|done|by eexists|done|by eexists _, _, _].
    intros q. rewrite queue_put_async. case_decide as Hd; [by subst q|done].
Qed.

Lemma txn_call_ok s Cs W X th target one_way mem :
  txn_inv s Cs W → threads s !! X = Some th → return_error th = BR_OK → txn_possible s (TCall X target one_way mem) = true →
  ∃ s' Cs' W', transaction_call s X target one_way mem = Some s' ∧ txn_inv s' Cs' W'.
Proof.
  intros HI Hth He HP. assert (Hfail : ∀ e, ∃ s' Cs' W', transaction_failed s X None e = Some s' ∧ txn_inv s' Cs' W').
  { intros e. destruct (failed_none_ok s Cs W X th e HI Hth He) as (s' & ? & ?). by exists s', Cs, W. }
  simpl in HP. apply andb_true_iff in HP as [[_ Hmem]%andb_true_iff Hself]. destruct target as [e|[n p]]; [apply Hfail|].
  destruct one_way.
  - destruct mem as [[t b]|]; [|simpl; unfold call_target; rewrite Hth; apply Hfail].
    simpl in Hmem. apply andb_true_iff in Hmem as [H1%bool_decide_eq_true H2%bool_decide_eq_true]. by eapply one_way_ok.
  - destruct (call_target s X false p) as [tg|] eqn:Htg.
    + destruct tg as [w|]; [|simpl; rewrite Htg; apply Hfail]. destruct mem as [[t b]|]; [|simpl; rewrite Htg; apply Hfail].
      simpl in Hmem. apply andb_true_iff in Hmem as [H1%bool_decide_eq_true H2%bool_decide_eq_true].
      eapply (two_way_ok _ _ _ _ _ _ _ _ _ w); try done. intros ->. by rewrite bool_decide_true in Hself.
    + exfalso. destruct HI as (HI & _). unfold call_target in Htg. rewrite Hth in Htg. cbn [mbind option_bind] in Htg.
      destruct (transaction_stack th) as [u|] eqn:Hu; [|done].
      destruct (stk_txn _ _ X u (ci_stacks _ _ _ HI)) as (x & Hx & _); [unfold stk; by rewrite Hth|].
      rewrite Hx in Htg. cbn [mbind option_bind] in Htg. destruct (option_eqb (x_to_thread x) (Some X)) eqn:Hto; [|done]. apply option_eqb_true in Hto.
      destruct (caller_chain _ _ _ _ _ HI Hth) as (r & l & Ds & HI' & Hl & Hs & _); [intros u' Hu'; assert (u' = u) as -> by congruence; by exists x|].
      pose proof (call_target_ok _ _ _ _ _ _ p HI' Hl Hs (ex_intro _ _ Hth)) as Hok. unfold call_target in Hok. rewrite Hth in Hok. cbn [mbind option_bind] in Hok.
      rewrite Hu, Hx in Hok. cbn [mbind option_bind] in Hok. rewrite Hto, option_eqb_refl in Hok. simpl in Htg, Hok. congruence.
Qed.

Lemma failed_reply_ok s r l t Ds W X th e :
  chains_inv s (mk_chain r (l ++ [(t, Gone)]) :: Ds) W → errs_ok s → queues s W [] → Forall ends Ds → threads s !! X = Some th →
  return_error th = BR_OK → e ≠ BR_OK → ∃ s' Cs' W', transaction_failed s X (Some t) e = Some s' ∧ txn_inv s' Cs' W'.
Proof.
  intros HI HE HQ HF Hth He Hne. destruct (HE X th Hth) as [HE1 _]. unfold transaction_failed. rewrite Hth. cbn [mbind option_bind].
  rewrite (proj2 (is_ok_true _) He), (HE1 He). cbn [negb].
  pose proof (chains_errors _ _ _ _ _ BR_TRANSACTION_COMPLETE BR_OK HI Hth) as HI1. pose proof (errs_set _ _ _ BR_TRANSACTION_COMPLETE HE Hth) as HE1'.
  destruct (send_failed_ok _ _ _ _ _ _ _ e HI1 HE1' eq_refl Hne) as (s' & l' & -> & HI2 & HE2 & Hft).
  rewrite delete_id in HI2 by (eapply (call_not_waiting _ _ _ _ l t Gone [] HI (in_head _ _)); done).
  eexists _, _, _. split; [done|]. split_and!; [done|done| |constructor; [by eapply failed_ends|done]]. eapply same_lists_queues; [apply Hft|]. eapply queues_ext; [done|].
  intros q. by apply (queue_put_same _ _ th).
Qed.

Lemma errs_popped s s2 r l t :
  errs_ok s → txn_at s2 = delete t (txn_at s) → links (txn_at s2) r None [] l →
  (∀ w, threads s2 !! w = if decide (last_handler r l = Some w) then (λ th, set_stack th (last_id None l)) <$> threads s !! w else threads s !! w) →
  errs_ok s2.
Proof.
  intros HE HM HL Hth z zth Hz. rewrite Hth in Hz. case_decide as Hd.
  - destruct (threads s !! z) as [th|] eqn:Hs; [|done]. injection Hz as <-. simpl. destruct (HE z th Hs) as [A _]. split; [done|].
    intros u y Hu Hy Hf. exfalso. by eapply end_not_own.
  - destruct (HE z zth Hz) as [A B]. split; [done|]. intros u y Hu Hy. rewrite HM in Hy. apply lookup_delete_Some in Hy as [_ Hy]. by eapply B.
Qed.

(** A thread that has let go of a call, with the state of the others unchanged. *)
Lemma let_go_ok s Cs W X th t x :
  txn_inv s Cs W → threads s !! X = Some th → return_error th = BR_OK → transaction_stack th = Some t →
  txn_at s !! t = Some x → x_to_thread x = Some X →
  ∃ r l Ds, Cs ≡ₚ mk_chain r (l ++ [(t, By X)]) :: Ds ∧
    let s1 := put_thread s X (set_stack th (x_to_parent x)) in
    chains_inv s1 (mk_chain r (l ++ [(t, Gone)]) :: Ds) W ∧ errs_ok s1 ∧ queues s1 W [] ∧ Forall ends Ds.
Proof.
  intros (HI & HE & HQ & HF) Hth He Hst Hx Hto. assert (Hs : stk s X = Some t) by (unfold stk; by rewrite Hth).
  destruct (stk_chain _ _ _ _ (ci_stacks _ _ _ HI) Hs) as (C & Ds & HP & HS & Htop).
  destruct (top_in_last _ _ _ _ _ _ HS Htop Hx Hto) as (l & Hl). exists (root C), l, Ds.
  assert (HC : C = mk_chain (root C) (l ++ [(t, By X)])) by (rewrite <- Hl; by destruct C). rewrite <- HC. split; [done|]. simpl.
  pose proof (chains_perm _ _ _ _ HP HI) as HI'. rewrite HC in HI'. split_and!; [by apply chains_let_go|..].
  - intros z zth. simpl. intros [[<- <-]|[Hd Hz]]%lookup_insert_Some; [|by apply HE]. simpl. destruct (HE X th Hth) as [A _].
    split; [done|]. intros. by apply A.
  - eapply queues_ext; [done|]. intros q. by apply (queue_put_same _ _ th).
  - rewrite HP in HF. by apply Forall_cons in HF as [_ ?].
Qed.

(** The reply itself, once the thread has let go. *)
Lemma reply_sent_ok s r l t0 Ds W X w tw t b ow :
  let x := mk_txn None None (Some (th_proc tw)) (Some w) None false (Some b) ow in
  let y := mk_tb (Some t) None false false (th_proc tw) in
  chains_inv s (mk_chain r (l ++ [(t0, Gone)]) :: Ds) W → errs_ok s → queues s W [] → Forall ends Ds → is_Some (threads s !! X) →
  last_handler r l = Some w → threads s !! w = Some tw → txn_at s !! t = None → tbuf_at s !! b = None →
  ∃ s', (s1 ← binder_pop_transaction (put_buf (put_txn s t x) b y) (Some w) t0; s2 ← queue_txn s1 (th_proc tw) (Some w) t; queue_complete s2 X) = Some s' ∧
    txn_inv s' (mk_chain r l :: Ds) (<[t := LThread w]> W).
Proof.
  intros x y HI HE HQ HF HX Hl Hw Ht Hb. set (s0 := put_buf (put_txn s t x) b y).
  pose proof (unknown_not_waiting _ _ _ _ HI Ht) as HWt. pose proof (unknown_not_call _ _ _ _ HI Ht) as Hid.
  assert (Hne : t0 ≠ t). { intros ->. apply Hid. rewrite ids_cons. simpl. rewrite fmap_app. set_solver. }
  assert (HI0 : chains_inv s0 (mk_chain r (l ++ [(t0, Gone)]) :: Ds) (<[t := LThread w]> W)).
  { eapply (chains_add s s0 _ W t b x y); try done. by left. }
  destruct (pop_eval _ _ _ _ _ _ _ HI0 eq_refl) as (s1 & Hpop & HI1 & HM1 & Hl1 & Hth1). rewrite Hl in Hpop. rewrite Hpop. cbn [mbind option_bind].
  rewrite delete_id in HI1 by (rewrite lookup_insert_ne by done; by eapply (call_not_waiting _ _ _ _ l t0 Gone [] HI (in_head _ _))).
  assert (HE0 : errs_ok s0).
  { eapply (errs_txns s); [done|done|]. intros u v Hv. unfold s0 in Hv. simpl in Hv. apply lookup_insert_Some in Hv as [[<- <-]|[_ Hv]]; [by left|by right]. }
  assert (HE1 : errs_ok s1). { eapply (errs_popped s0 s1 r l t0); try done. apply (so_links _ _ (ci_stacks _ _ _ HI1) (mk_chain r l)), in_head. }
  assert (Hlive : ∀ z, is_Some (threads s !! z) → is_Some (threads s1 !! z)).
  { intros z Hz. rewrite Hth1. destruct Hz as [zth Hz]. change (threads s0) with (threads s). rewrite Hz. case_decide; by eexists. }
  eapply (sent_ok s s1 _ W (th_proc tw) (Some w) t X); try done; [|by intros z [= <-]; apply Hlive; eexists|by apply Hlive|constructor; [by eapply ends_live|done]].
  intros q. rewrite (same_lists_queue _ _ _ Hl1). done.
Qed.

Lemma reply_ok s Cs W X th one_way mem :
  txn_inv s Cs W → threads s !! X = Some th → return_error th = BR_OK → new_memory s mem = true →
  ∃ s' Cs' W', transaction_reply s X one_way mem = Some s' ∧ txn_inv s' Cs' W'.
Proof.
  intros HI Hth He Hmem. assert (Hfail : ∀ e, ∃ s' Cs' W', transaction_failed s X None e = Some s' ∧ txn_inv s' Cs' W').
  { intros e. destruct (failed_none_ok s Cs W X th e HI Hth He) as (s' & ? & ?). by exists s', Cs, W. }
  unfold transaction_reply. rewrite Hth. cbn [mbind option_bind]. destruct (transaction_stack th) as [t0|] eqn:Hst; [|apply Hfail].
  destruct (stk_txn _ _ X t0 (ci_stacks _ _ _ (proj1 HI))) as (x & Hx & _); [unfold stk; by rewrite Hth|]. rewrite Hx. cbn [mbind option_bind].
  destruct (option_eqb (x_to_thread x) (Some X)) eqn:Hto; [|apply Hfail]. apply option_eqb_true in Hto. cbn [negb].
  destruct (let_go_ok _ _ _ _ _ _ _ HI Hth He Hst Hx Hto) as (r & l & Ds & _ & HI1 & HE1 & HQ1 & HF1). set (s1 := put_thread s X _) in *.
  assert (Hth1 : threads s1 !! X = Some (set_stack th (x_to_parent x))) by (unfold s1; simpl; by rewrite lookup_insert_eq).
  destruct (last_cell _ _ _ _ _ _ _ HI1) as (x' & Hx' & Hf & _ & _ & _ & Hsnd). assert (x' = x) as -> by (unfold s1 in Hx'; simpl in Hx'; congruence).
  destruct (x_from x) as [w|] eqn:Hfr; [|by eapply failed_reply_ok].
  destruct (proj1 (stk_some _ _ _) (Hsnd w (eq_sym Hf))) as (tw & Htw & Hstw). rewrite Htw. cbn [mbind option_bind]. rewrite Hstw, option_eqb_refl. cbn [negb].
  destruct mem as [[t b]|]; [|by eapply failed_reply_ok].
  simpl in Hmem. apply andb_true_iff in Hmem as [H1%bool_decide_eq_true H2%bool_decide_eq_true].
  edestruct (reply_sent_ok s1 r l t0 Ds W X w tw t b) as (s' & Hs' & HI'); try done; [..|eexists s', _, _; split; [exact Hs'|exact HI']].
Qed.

(** The chain of a call that waits. *)
Lemma waiting_chain s Cs W t q x :
  chains_inv s Cs W → W !! t = Some q → txn_at s !! t = Some x → x_need_reply x = true →
  ∃ r l Ds, Cs ≡ₚ mk_chain r (l ++ [(t, Queued q)]) :: Ds ∧ chains_inv s (mk_chain r (l ++ [(t, Queued q)]) :: Ds) W.
Proof.
  intros HI Hq Hx Hn. destruct (ci_wait _ _ _ HI t q Hq) as (x0 & b & y & Hx0 & _ & _ & _ & Hk & _). assert (x0 = x) as -> by congruence.
  rewrite Hn in Hk. destruct Hk as (_ & C & HC & Hin). apply list_elem_of_split in Hin as (l1 & l2 & Hl).
  destruct l2 as [|c l2]; [|by destruct (so_shape _ _ (ci_stacks _ _ _ HI) C HC l1 t q c l2)].
  destruct (chain_front _ _ HC) as (Ds & HP). exists (root C), l1, Ds. rewrite <- Hl.
  assert (HC' : mk_chain (root C) (calls C) = C) by (by destruct C). rewrite HC'. split; [done|]. by eapply chains_perm.
Qed.

Lemma read_txn_ok s Cs W X th t q :
  chains_inv s Cs W → errs_ok s → threads s !! X = Some th → W !! t = Some q → (∀ n, q ≠ LNode n) → (q = LThread X ∨ stk s X = None) → Forall ends Cs →
  ∃ s' Cs', read_txn s X t = Some s' ∧ chains_inv s' Cs' (delete t W) ∧ errs_ok s' ∧ (∀ p, queue s' p = queue s p) ∧ Forall ends Cs'.
Proof.
  intros HI HE Hth Hq Hqn Hreach HF. destruct (ci_wait _ _ _ HI t q Hq) as (x & b & y & Hx & Hb & Hy & Hal & Hk & _).
  unfold read_txn. rewrite Hx. cbn [mbind option_bind]. rewrite Hb. cbn [mbind option_bind]. rewrite Hy. cbn [mbind option_bind].
  destruct (x_need_reply x) eqn:Hn.
  - destruct Hk as (Hnd & _). destruct (waiting_chain _ _ _ _ _ _ HI Hq Hx Hn) as (r & l & Ds & HP & HI').
    destruct (last_cell _ _ _ _ _ _ _ HI') as (x' & Hx' & Hf & _ & _ & Ho & Hsnd). assert (x' = x) as -> by congruence.
    assert (Hfrom : match x_from x with None => Some tt | Some w => _ ← threads s !! w; Some tt end = Some tt).
    { rewrite Hf. destruct (last_handler r l) as [w|] eqn:Hl; [|done]. destruct (proj1 (stk_some _ _ _) (Hsnd w eq_refl)) as (tw & -> & _). done. }
    rewrite Hfrom. cbn [mbind option_bind]. destruct (b_node y) as [n|]; [|done]. rewrite Ho. simpl. rewrite Hth. simpl.
    match goal with |- context [Some ?z = Some _] => set (s1 := z) end.
    assert (HI1 : chains_inv s1 (mk_chain r (l ++ [(t, By X)]) :: Ds) (delete t W)).
    { eapply (chains_deliver s s1 r l X t x b y); try done; [unfold s1; simpl; unfold stk; by rewrite Hth|].
      intros z. unfold stk, s1. simpl. case_decide as Hz; [subst; by rewrite lookup_insert_eq|by rewrite lookup_insert_ne]. }
    eexists s1, _. split; [done|]. split; [exact HI1|]. rewrite HP in HF. apply Forall_cons in HF as [_ HF].
    split; [|split; [intros p; unfold s1; by rewrite (queue_put_same _ _ th)|constructor; [by apply ends_snoc|done]]].
    pose proof (so_links _ _ (ci_stacks _ _ _ HI1) _ (in_head _ _)) as HL1. simpl in HL1.
    intros z zth. unfold s1. simpl. intros [[<- <-]|[Hd Hz]]%lookup_insert_Some; simpl.
    + destruct (HE X th Hth) as [A _]. split; [done|]. intros u v [= <-] Hv Hfv. exfalso.
      eapply (end_not_own _ _ _ X t v HL1); [by rewrite last_handler_snoc|by rewrite last_id_snoc|done|done].
    + destruct (HE z zth Hz) as [A B]. split; [done|]. intros u v Hu [[<- <-]|[_ Hv]]%lookup_insert_Some Hfv; [by apply (B t x)|by eapply B].
  - destruct Hk as (Hf & Hk). rewrite Hf. cbn [mbind option_bind].
    set (s1 := drop_txn (put_buf (put_buf s b (set_b_allow y)) b (set_b_txn (set_b_allow y) None)) t).
    assert (Heq : match b_node y with
      | Some _ => if negb (x_one_way x) then th0 ← threads (put_buf s b (set_b_allow y)) !! X;
          Some (put_thread (put_txn (put_buf s b (set_b_allow y)) t (set_to x (x_to_proc x) (Some X) (transaction_stack th0))) X (set_stack th0 (Some t)))
        else Some s1
      | None => Some s1 end = Some s1).
    { destruct Hk as [-> | ->]; [done|]. by destruct (b_node y). }
    rewrite Heq. exists s1, Cs. split; [done|]. split_and!; [|eapply errs_txns; [done|done|]; intros u v Hv; right; unfold s1 in Hv; simpl in Hv; by apply lookup_delete_Some in Hv as [_ Hv]|done|done].
    eapply (chains_drop s s1 Cs W t x); try done; [intros n; rewrite Hq; intros [= ->]; by apply (Hqn n)|].
    rewrite Hb. exists y, (set_b_txn (set_b_allow y) None). split_and!; try done. unfold s1. simpl. by rewrite insert_insert_eq.
Qed.

Lemma read_work_ok s Cs W X th :
  txn_inv s Cs W → threads s !! X = Some th → ∃ s' Cs' W', read_work s X = Some s' ∧ txn_inv s' Cs' W'.
Proof.
  intros (HI & HE & HQ & HF) Hth. assert (Hsame : ∃ s' Cs' W', Some s = Some s' ∧ txn_inv s' Cs' W') by (by exists s, Cs, W).
  unfold read_work. rewrite Hth. cbn [mbind option_bind].
  assert (Hgo : ∀ s1 t q l, same_core s s1 → queue s q = t :: l → (∀ p, queue s1 p = if decide (p = q) then l else queue s p) →
    (∀ n, q ≠ LNode n) → (q = LThread X ∨ stk s X = None) → ∃ s' Cs' W', read_txn s1 X t = Some s' ∧ txn_inv s' Cs' W').
  { intros s1 t q l Hc Hl Hp Hn Hr. destruct (queues_remove _ _ _ _ _ _ HQ Hl Hp) as [HQ1 Hq].
    destruct (core_live _ _ X Hc) as [th1 Hth1]; [by eexists|].
    destruct (read_txn_ok s1 Cs W X th1 t q) as (s' & Cs' & -> & HI' & HE' & Hq' & HF'); try done;
      [by eapply core_chains|by eapply core_errs|by rewrite (core_stk _ _ _ Hc)|].
    eexists s', Cs', _. split; [done|]. split_and!; [done|done|by eapply queues_ext|done]. }
  destruct (th_todo th) as [|[t|] l] eqn:Htd.
  - destruct (transaction_stack th) as [u|] eqn:Hst; [done|]. destruct (todo_of s (th_proc th)) as [|[t|] l] eqn:Hp; [done|..].
    + eapply (Hgo _ t (LProc (th_proc th)) (tx_of l)); try done.
      * simpl. by rewrite Hp.
      * intros p. apply queue_put_todo.
      * right. unfold stk. by rewrite Hth.
    + eexists _, Cs, W. split; [done|]. split_and!; [by eapply (core_chains s)|by eapply (core_errs s)| |done]. eapply queues_ext; [done|].
      intros p. rewrite queue_put_todo. case_decide as Hd; [|done]. subst p. simpl. by rewrite Hp.
  - eapply (Hgo _ t (LThread X) (tx_of l)); [by apply core_todo|simpl; by rewrite Hth, Htd| |done|by left].
    intros p. by rewrite (queue_put_thread _ _ _ _ _ Hth).
  - pose proof (core_todo s X th l Hth) as Hc. eexists _, Cs, W. split; [done|]. split_and!; [by eapply core_chains|by eapply core_errs| |done].
    eapply queues_ext; [done|]. intros p. apply (queue_put_same _ _ th); [done|]. by rewrite Htd.
Qed.

Lemma errs_sim s s' :
  errs_ok s → (∀ z, (λ th, set_todo th []) <$> threads s' !! z = (λ th, set_todo th []) <$> threads s !! z) →
  (∀ u, x_from <$> txn_at s' !! u = x_from <$> txn_at s !! u) → errs_ok s'.
Proof.
  intros HE Hth HM z zth Hz. specialize (Hth z). rewrite Hz in Hth. destruct (threads s !! z) as [th|] eqn:Hs; [|done].
  unfold set_todo in Hth. injection Hth as _ E1 E2 E3. rewrite E1, E2, E3. destruct (HE z th Hs) as [A B]. split; [done|].
  intros u v Hu Hv Hf. specialize (HM u). rewrite Hv in HM. destruct (txn_at s !! u) as [v0|] eqn:Hv0; [|done]. eapply (B u v0); [done|done|].
  simpl in HM. congruence.
Qed.

(** The transaction of a buffer that is freed loses its data. *)
Lemma unlink_txn_ok s W b y :
  bufs_ok s W → tbuf_at s !! b = Some y →
  ∃ s1, match b_txn y with None => Some s | Some t => x ← txn_at s !! t; Some (put_txn s t (set_data x None)) end = Some s1 ∧
    threads s1 = threads s ∧ tbuf_at s1 = tbuf_at s ∧ proc_todo s1 = proc_todo s ∧ async_at s1 = async_at s ∧
    (∀ u, txn_at s1 !! u = if decide (b_txn y = Some u) then nobuf <$> txn_at s !! u else txn_at s !! u).
Proof.
  intros HB Hy. destruct (b_txn y) as [t|] eqn:Ht; [|exists s; by split_and!]. destruct (bo_buf _ _ HB b y t Hy Ht) as (x & Hx & _).
  rewrite Hx. simpl. eexists. split; [done|]. split_and!; try done. intros u. simpl. case_decide as Hd.
  - injection Hd as <-. by rewrite lookup_insert_eq, Hx.
  - by rewrite lookup_insert_ne by congruence.
Qed.

Lemma free_buffer_ok s Cs W X th b :
  txn_inv s Cs W → threads s !! X = Some th → ∃ s' Cs' W', free_buffer s X b = Some s' ∧ txn_inv s' Cs' W'.
Proof.
  intros (HI & HE & HQ & HF) Hth. assert (Hsame : ∃ s' Cs' W', Some s = Some s' ∧ txn_inv s' Cs' W') by (by exists s, Cs, W).
  unfold free_buffer. rewrite Hth. cbn [mbind option_bind]. destruct (tbuf_at s !! b) as [y|] eqn:Hy; [|done].
  destruct (b_proc y =? th_proc th); [|done]. destruct (b_allow y) eqn:Hal; [|done]. cbn [negb orb].
  pose proof (ci_bufs _ _ _ HI) as HB. destruct (unlink_txn_ok s W b y HB Hy) as (s1 & -> & E1 & E2 & E3 & E4 & HM). cbn [mbind option_bind].
  assert (Hfrom : ∀ u, x_from <$> txn_at s1 !! u = x_from <$> txn_at s !! u).
  { intros u. rewrite HM. case_decide; [|done]. by destruct (txn_at s !! u). }
  assert (Hn1 : ∀ n, node_of s1 n = node_of s n) by (intros n; unfold node_of; by rewrite E4).
  assert (Hq1 : ∀ q, queue s1 q = queue s q) by (intros q; unfold queue, todo_of; destruct q; rewrite ?E1, ?E3, ?Hn1; done).
  assert (Hplain : ∃ s' Cs' W', Some (drop_buf s1 b) = Some s' ∧ txn_inv s' Cs' W').
  { eexists _, Cs, W. split; [done|]. split_and!.
    - apply (chains_free s _ Cs W b y X None); try done; simpl; [by rewrite E2| |intros z; unfold stk; simpl; by rewrite E1].
      intros n b' y' _ _ _. change (node_of (drop_buf s1 b) n) with (node_of s1 n). by rewrite Hn1.
    - eapply (errs_sim s); [done|intros z; simpl; by rewrite E1|done].
    - by eapply queues_ext.
    - done. }
  destruct (b_node y) as [n|] eqn:Hnd; [|done]. destruct (b_async y) eqn:Has; [|done].
  destruct (bo_node _ _ HB b y Hy Has) as (n' & Hn' & Hbusy). assert (n' = n) as -> by congruence. rewrite Hn1, Hbusy. cbn [negb].
  assert (Hon : async_on n y) by (by split).
  assert (Hcur : ∀ c z, tbuf_at s !! c = Some z → b_allow z = true ∨ a_todo (node_of s n) = [] → current W n z).
  { intros c z Hz Hor u Hu Hwu. destruct Hor as [Hor|Hor].
    - destruct (ci_wait _ _ _ HI u _ Hwu) as (x & c' & z' & Hx & Hc' & Hz' & Hal' & _). destruct (bo_buf _ _ HB c z u Hz Hu) as (x' & ? & ?). congruence.
    - assert (Hin : u ∈ queue s (LNode n)) by (apply (qu_in _ _ _ HQ); split; [done|set_solver]). simpl in Hin. rewrite Hor in Hin. set_solver. }
  destruct (a_todo (node_of s n)) as [|t l] eqn:Htodo; cbn [mbind option_bind].
  - eexists _, Cs, W. split; [done|]. split_and!.
    + apply (chains_free s _ Cs W b y X None); try done; simpl; [by rewrite E2| |intros z; unfold stk; simpl; by rewrite E1].
      intros m b' y' Hne Hy' Hm Hbz. change (a_busy (node_of (put_async s1 n (mk_async false [])) m) = true). rewrite node_put_async. case_decide as Hd; [|by rewrite Hn1].
      subst m. exfalso. apply Hne. eapply (bo_one _ _ HB n b' y' b y); try done; eapply Hcur; eauto.
    + eapply (errs_sim s); [done|intros z; simpl; by rewrite E1|done].
    + eapply queues_ext; [done|]. intros q. change (queue (put_async s1 n (mk_async false [])) q = queue s q). rewrite queue_put_async. case_decide as Hd; [|by rewrite Hq1].
      subst q. simpl. by rewrite Htodo.
    + done.
  - assert (Hth1 : threads (put_async s1 n (mk_async true l)) !! X = Some th) by (simpl; by rewrite E1).
    destruct (queues_remove s (put_async s1 n (mk_async true l)) W t (LNode n) l HQ Htodo) as [HQ1 HWt].
    { intros p. rewrite queue_put_async. by case_decide. }
    eexists _, Cs, (<[t := LThread X]> W). split; [done|]. split_and!.
    + apply (chains_free s _ Cs W b y X (Some t)); try done; simpl; [by rewrite E2| |by intros ? [= <-]; exists n|].
      * intros m b' y' _ _ _ Hbz. change (a_busy (node_of (put_async s1 n (mk_async true l)) m) = true). rewrite node_put_async.
        case_decide; [done|by rewrite Hn1].
      * intros z. unfold stk. simpl. rewrite E1. destruct (decide (z = X)) as [->|Hd]; [by rewrite lookup_insert_eq, Hth|by rewrite lookup_insert_ne].
    + eapply (errs_sim s); [done| |done]. intros z. simpl. rewrite E1.
      destruct (decide (z = X)) as [->|Hd]; [by rewrite lookup_insert_eq, Hth|by rewrite lookup_insert_ne].
    + rewrite <- insert_delete_eq. eapply queues_add; [exact HQ1|by rewrite lookup_delete_eq|]. intros p.
      match goal with |- queue ?z p = _ => change (queue z p) with (queue (put_thread (put_async s1 n (mk_async true l)) X (set_todo th (th_todo th ++ [TTxn t]))) p) end.
      rewrite (queue_put_thread _ _ _ _ _ Hth1). case_decide as Hd; [|done]. subst p. unfold queue at 1. rewrite Hth1. simpl. by rewrite tx_of_app.
    + done.
Qed.

Lemma read_error_ok s Cs W X th fits puts :
  txn_inv s Cs W → threads s !! X = Some th → ∃ s' Cs' W', read_error s X fits puts = Some s' ∧ txn_inv s' Cs' W'.
Proof.
  intros HI Hth. assert (Hsame : ∃ s' Cs' W', Some s = Some s' ∧ txn_inv s' Cs' W') by (by exists s, Cs, W).
  destruct HI as (HI & HE & HQ & HF).
  assert (Hset : ∀ e, ∃ s' Cs' W', Some (put_thread s X (set_errors th e BR_OK)) = Some s' ∧ txn_inv s' Cs' W').
  { intros e. eexists _, Cs, W. split; [done|]. split_and!; [by apply chains_errors|by apply errs_set| |done].
    eapply queues_ext; [done|]. intros q. by apply (queue_put_same _ _ th). }
  unfold read_error. rewrite Hth. simpl. destruct (is_ok (return_error th)); [done|]. destruct (is_ok (return_error2 th)).
  - destruct puts; simpl; [done|apply Hset].
  - destruct (_ || _); [done|apply Hset].
Qed.

Lemma get_thread_ok s Cs W X p : txn_inv s Cs W → txn_inv (get_thread s X p) Cs W.
Proof.
  intros (HI & HE & HQ & HF). unfold get_thread. destruct (threads s !! X) as [th|] eqn:Hth; [done|]. split_and!; [| | |done].
  - eapply chains_threads; try done. intros z. unfold stk. simpl. destruct (decide (z = X)) as [->|Hd]; [by rewrite lookup_insert_eq, Hth|by rewrite lookup_insert_ne].
  - intros z zth. simpl. intros [[<- <-]|[_ Hz]]%lookup_insert_Some; [done|by apply HE].
  - eapply queues_ext; [done|]. intros [z|q|n]; try done. simpl.
    destruct (decide (z = X)) as [->|Hd]; [by rewrite lookup_insert_eq, Hth|by rewrite lookup_insert_ne].
Qed.

Lemma txn_step_ok s Cs W op : txn_inv s Cs W → txn_possible s op = true → ∃ s' Cs' W', txn_step s op = Some s' ∧ txn_inv s' Cs' W'.
Proof.
  intros HI HP. assert (Hw : ∀ X f, is_thread s X = true → (∀ th, threads s !! X = Some th → return_error th = BR_OK → ∃ s' Cs' W', f = Some s' ∧ txn_inv s' Cs' W') →
    ∃ s' Cs' W', when_ok s X f = Some s' ∧ txn_inv s' Cs' W').
  { intros X f [th Hth]%bool_decide_eq_true Hf. unfold when_ok. rewrite Hth. simpl. destruct (is_ok (return_error th)) eqn:He; [|by exists s, Cs, W].
    by eapply Hf, is_ok_true. }
  assert (Hth : ∀ X, is_thread s X = true → ∃ th, threads s !! X = Some th) by (intros X [th ?]%bool_decide_eq_true; by exists th).
  destruct op as [X p|X target ow mem|X ow mem|X b|X fits puts|X|X]; simpl.
  - eexists _, Cs, W. split; [done|]. by apply get_thread_ok.
  - apply Hw; [simpl in HP; zprop; tauto|]. intros th HX He. by eapply txn_call_ok.
  - apply andb_true_iff in HP as [HX Hm]. apply Hw; [done|]. intros th HXt He. by eapply reply_ok.
  - apply Hw; [done|]. intros th HX He. by eapply free_buffer_ok.
  - destruct (Hth X HP) as [th HX]. by eapply read_error_ok.
  - destruct (Hth X HP) as [th HX]. by eapply read_work_ok.
  - destruct (Hth X HP) as [th HX]. by eapply free_thread_ok.
Qed.

Lemma txn_inv_init : txn_inv txns_init [] ∅.
Proof.
  split_and!; [| |split|done].
  - split; [|split|done|]; try done; [|by intros C t q H; apply not_elem_of_nil in H].
    split; try done; [constructor|intros C H; by apply not_elem_of_nil in H|intros C H; by apply not_elem_of_nil in H|].
    intros x t. split; [done|]. by intros (C & H%not_elem_of_nil & _).
  - done.
  - intros [?|?|?]; constructor.
  - intros [?|?|?] t; simpl; split; try (intros H; by apply not_elem_of_nil in H); by intros [? _].
Qed.

Lemma txn_run_ok ops s Cs W :
  txn_inv s Cs W → txns_possible s ops = true → ∃ s' Cs' W', txn_run s ops = Some s' ∧ txn_inv s' Cs' W'.
Proof.
  revert s Cs W. induction ops as [|op ops IH]; intros s Cs W HI; simpl; [by exists s, Cs, W|].
  intros [HP HPs]%andb_true_iff. destruct (txn_step_ok _ _ _ _ HI HP) as (s1 & Cs1 & W1 & Heq & HI1).
  rewrite Heq in *. simpl. by eapply IH.
Qed.

Lemma reachable_inv ops s : txns_possible txns_init ops = true → txn_run txns_init ops = Some s → ∃ Cs W, txn_inv s Cs W.
Proof. intros HP Hr. destruct (txn_run_ok ops _ _ _ txn_inv_init HP) as (s' & Cs & W & Hr' & HI). exists Cs, W. congruence. Qed.

(** ** What it means for the threads *)

(** Somebody can go on with call [u]: it is in a list, a thread is about to handle
    it and can reply, or there is a further call, made while it was handled, of
    which this is true. *)
Inductive answerable (s : txns) : Z → Prop :=
  | ans_queued u q : u ∈ queue s q → answerable s u
  | ans_handled u x Y : stk s Y = Some u → txn_at s !! u = Some x → x_to_thread x = Some Y → answerable s u
  | ans_further u v y : txn_at s !! v = Some y → x_from_parent y = Some u → answerable s v → answerable s u.

Lemma chain_answerable s Cs W C l1 u a l2 :
  txn_inv s Cs W → C ∈ Cs → calls C = l1 ++ (u, a) :: l2 → answerable s u.
Proof.
  intros (HI & _ & HQ & HF) HC. revert l1 u a. induction l2 as [|[v b] l2 IH]; intros l1 u a Hl.
  - pose proof (ci_stacks _ _ _ HI) as HS. pose proof (so_links _ _ HS C HC) as HL. rewrite Hl in HL. apply links_cell in HL as (x & Hx & _ & _ & _ & _ & _ & Ha).
    simpl in Hx, Ha. destruct a as [q|Y|].
    + apply (ans_queued s u q), (qu_in _ _ _ HQ). split; [|set_solver]. eapply (ci_cell _ _ _ HI); [done|]. rewrite Hl. set_solver.
    + apply (ans_handled s u x Y); [|done|by destruct Ha]. apply (so_top _ _ HS). exists C. split; [done|]. unfold events. rewrite Hl, evs_snoc, !top_app. simpl. by rewrite Z.eqb_refl.
    + rewrite Forall_forall in HF. by destruct (HF C HC l1 u).
  - assert (Hl' : calls C = (l1 ++ [(u, a)]) ++ (v, b) :: l2) by (by rewrite <- app_assoc).
    pose proof (so_links _ _ (ci_stacks _ _ _ HI) C HC) as HL. rewrite Hl' in HL. apply links_cell in HL as (y & Hy & _ & Hp & _).
    rewrite last_id_snoc in Hp. eapply (ans_further s u v y); [done|done|]. by eapply IH.
Qed.

(** After the reply: the caller has its stack back and the reply in its list, the
    replying thread the note. *)
Lemma reply_sent_state s r l t0 Ds W X th w tw t b x y :
  chains_inv (put_buf (put_txn s t x) b y) (mk_chain r (l ++ [(t0, Gone)]) :: Ds) (<[t := LThread w]> W) →
  t0 ≠ t → last_handler r l = Some w → threads s !! w = Some tw → threads s !! X = Some th → w ≠ X →
  ∃ s', (s1 ← binder_pop_transaction (put_buf (put_txn s t x) b y) (Some w) t0; s2 ← queue_txn s1 (th_proc tw) (Some w) t; queue_complete s2 X) = Some s' ∧
    txn_at s' = delete t0 (<[t := x]> (txn_at s)) ∧
    threads s' !! w = Some (set_todo (set_stack tw (last_id None l)) (th_todo tw ++ [TTxn t])) ∧
    threads s' !! X = Some (set_todo th (th_todo th ++ [TComplete])) ∧ (∀ z, z ≠ w → z ≠ X → threads s' !! z = threads s !! z).
Proof.
  intros HI0 Hne Hl Hw HX Hwx. destruct (pop_eval _ _ _ _ _ _ _ HI0 eq_refl) as (s1 & Hpop & _ & HM1 & _ & Hth1). rewrite Hl in Hpop.
  rewrite Hpop. cbn [mbind option_bind]. pose proof (Hth1 w) as Hw1. rewrite decide_True in Hw1 by done. simpl in Hw1. rewrite Hw in Hw1. simpl in Hw1.
  pose proof (Hth1 X) as HX1. rewrite decide_False in HX1 by congruence. simpl in HX1. rewrite HX in HX1.
  unfold queue_txn. rewrite Hw1. cbn [mbind option_bind]. unfold queue_complete. simpl. rewrite lookup_insert_ne by done. rewrite HX1. simpl.
  eexists. split; [done|]. simpl. split_and!; [done| | |].
  - rewrite lookup_insert_ne by done. by rewrite lookup_insert_eq.
  - by rewrite lookup_insert_eq.
  - intros z Hz1 Hz2. rewrite !lookup_insert_ne by done. by rewrite Hth1, decide_False by congruence.
Qed.

(** C28: whatever threads do (calls, one-way calls, replies, reads, freeing of
    buffers, faults, lack of memory, exits in the middle of calls), as long as no
    thread makes a call that leads back to that thread itself, the driver runs
    into no BUG and follows no pointer to a freed thread, transaction or buffer, and
    the stacks of the threads are at all times the chains of calls in progress. *)
Theorem binder_calls_safe ops :
  txns_possible txns_init ops = true → ∃ s Cs W, txn_run txns_init ops = Some s ∧ txn_inv s Cs W.
Proof. exact (txn_run_ok ops txns_init [] ∅ txn_inv_init). Qed.

(** C29: no caller is forgotten.  In every state that can be reached without a call
    that leads back to its own caller, for every call
    that waits for a reply there is something that goes on with it: the call is in a
    list, or a living thread is handling it and can reply, or this holds for a
    further call made while handling it. *)
Theorem binder_no_orphan_call ops s u x :
  txns_possible txns_init ops = true → txn_run txns_init ops = Some s → txn_at s !! u = Some x → x_need_reply x = true → answerable s u.
Proof.
  intros Hps Hr Hx Hn. destruct (reachable_inv _ _ Hps Hr) as (Cs & W & HI).
  pose proof (so_all _ _ (ci_stacks _ _ _ (proj1 HI)) u x Hx Hn) as (C & HC & Hin)%elem_of_ids.
  apply list_elem_of_fmap in Hin as ([u' a] & -> & (l1 & l2 & Hl)%list_elem_of_split). by eapply chain_answerable.
Qed.

(** C30: in every state that can be reached without a call that leads back to its own
    caller, a reply goes to the thread that made the call, which gets it at the end of
    its list and has its stack as before the call; the replying thread has its stack
    as before it took the call; the call is gone and no other thread is touched. *)
Theorem binder_reply_correct ops s X th t0 x w t b ow :
  txns_possible txns_init ops = true → txn_run txns_init ops = Some s → threads s !! X = Some th → return_error th = BR_OK →
  transaction_stack th = Some t0 → txn_at s !! t0 = Some x → x_to_thread x = Some X → x_from x = Some w →
  new_memory s (Some (t, b)) = true →
  ∃ s' tw y, transaction_reply s X ow (Some (t, b)) = Some s' ∧ w ≠ X ∧ threads s !! w = Some tw ∧ transaction_stack tw = Some t0 ∧
    threads s' !! w = Some (set_todo (set_stack tw (x_from_parent x)) (th_todo tw ++ [TTxn t])) ∧
    threads s' !! X = Some (set_todo (set_stack th (x_to_parent x)) (th_todo th ++ [TComplete])) ∧
    (∀ z, z ≠ w → z ≠ X → threads s' !! z = threads s !! z) ∧
    txn_at s' !! t0 = None ∧ txn_at s' !! t = Some y ∧ x_to_thread y = Some w ∧ x_buffer y = Some b.
Proof.
  intros Hps Hr HX He Hst Hx Hto Hfr Hmem. destruct (reachable_inv _ _ Hps Hr) as (Cs & W & HI).
  simpl in Hmem. apply andb_true_iff in Hmem as [Ht%bool_decide_eq_true Hb%bool_decide_eq_true].
  destruct (let_go_ok _ _ _ _ _ _ _ HI HX He Hst Hx Hto) as (r & l & Ds & HP & HI1 & HE1 & HQ1 & HF1).
  unfold transaction_reply. rewrite HX. cbn [mbind option_bind]. rewrite Hst, Hx. cbn [mbind option_bind]. rewrite Hto, option_eqb_refl, Hfr. cbn [negb].
  set (s1 := put_thread s X _) in *.
  destruct (last_cell _ _ _ _ _ _ _ HI1) as (x' & Hx' & Hf & Hp & _ & _ & Hsnd). assert (x' = x) as -> by (unfold s1 in Hx'; simpl in Hx'; congruence).
  assert (Hl : last_handler r l = Some w) by congruence.
  assert (Hwx : w ≠ X).
  { intros ->. pose proof (chains_perm _ _ _ _ HP (proj1 HI)) as HI2. pose proof (so_links _ _ (ci_stacks _ _ _ HI2) _ (in_head _ _)) as HL. simpl in HL.
    apply (end_not_own _ _ _ X t0 x HL); [by rewrite last_handler_snoc|by rewrite last_id_snoc|done|done]. }
  destruct (proj1 (stk_some _ _ _) (Hsnd w Hl)) as (tw & Htw & Hstw). rewrite Htw. cbn [mbind option_bind]. rewrite Hstw, option_eqb_refl. cbn [negb].
  set (xr := mk_txn None None (Some (th_proc tw)) (Some w) None false (Some b) ow). set (yr := mk_tb (Some t) None false false (th_proc tw)).
  assert (Hne : t0 ≠ t) by congruence.
  assert (HX1 : threads s1 !! X = Some (set_stack th (x_to_parent x))) by (unfold s1; simpl; by rewrite lookup_insert_eq).
  destruct (reply_sent_state s1 r l t0 Ds W X (set_stack th (x_to_parent x)) w tw t b xr yr) as (s' & -> & HM & H1 & H2 & H3); try done.
  { eapply (chains_add s1 _ _ W t b xr yr); try done. by left. }
  exists s', tw, xr. unfold s1 in Htw. simpl in Htw. rewrite lookup_insert_ne in Htw by done. rewrite HM.
  split_and!; try done; [by rewrite Hp| |by rewrite lookup_delete_eq|by rewrite lookup_delete_ne, lookup_insert_eq].
  intros z Hz1 Hz2. rewrite H3 by done. unfold s1. simpl. by rewrite lookup_insert_ne.
Qed.

(** A thread that waits in a chain waits for its own call. *)
Lemma sender_waits M r l z :
  links M r None [] l → z ∈ senders r l → last_handler r l ≠ Some z → ∃ u x, top z (evs r l) = Some u ∧ M !! u = Some x ∧ x_from x = Some z.
Proof.
  induction l as [|[t a] l IH] using rev_ind; intros HL Hz Hne; [by apply not_elem_of_nil in Hz|].
  rewrite links_snoc in HL. destruct HL as [HL (x & Hx & Hf & _)]. simpl in Hx, Hf. rewrite last_handler_snoc in Hne.
  rewrite evs_snoc, !top_app, !top_at, (bool_decide_false (handler a = Some z)) by done. rewrite senders_snoc in Hz.
  destruct (decide (last_handler r l = Some z)) as [Hl|Hl].
  - rewrite bool_decide_true by done. exists t, x. split_and!; [done|done|congruence].
  - rewrite bool_decide_false by done. apply IH; [done| |done]. apply elem_of_app in Hz as [?|Hz]; [done|].
    destruct (last_handler r l); [|by apply not_elem_of_nil in Hz]. apply list_elem_of_singleton in Hz. congruence.
Qed.

Lemma call_target_waits s W r l Ds X p z :
  chains_inv s (mk_chain r l :: Ds) W → last_handler r l = Some X → head (filter (λ w, of_proc s p w = true) (senders r l)) = Some z → z ≠ X →
  ∃ tz u x, threads s !! z = Some tz ∧ th_proc tz = p ∧ transaction_stack tz = Some u ∧ txn_at s !! u = Some x ∧ x_from x = Some z.
Proof.
  intros HI Hl Hh Hz. apply head_Some_elem_of, list_elem_of_filter in Hh as [Hp Hin]. pose proof (ci_stacks _ _ _ HI) as HS.
  destruct (sender_waits (txn_at s) r l z) as (u & x & Ht & Hx & Hf); [apply (so_links _ _ HS (mk_chain r l)), in_head|done|congruence|].
  assert (Hs : stk s z = Some u) by (apply (so_top _ _ HS); eexists; split; [apply in_head|done]).
  apply stk_some in Hs as (tz & Htz & Hst). exists tz, u, x. split_and!; try done. unfold of_proc in Hp. apply bool_decide_eq_true in Hp.
  rewrite Htz in Hp. by injection Hp.
Qed.

(** a call of a thread that is not itself waiting for a reply is put on top of
    its stack and queued, with the note for the caller.  It goes to the list of the
    target process, or to a thread of that process which, further up in the chain of
    calls, itself waits for a reply, so that it can take the call. *)
Theorem binder_call_correct ops s X th n p t b :
  txns_possible txns_init ops = true → txn_run txns_init ops = Some s → threads s !! X = Some th → return_error th = BR_OK → new_memory s (Some (t, b)) = true →
  (∀ u x, transaction_stack th = Some u → txn_at s !! u = Some x → x_to_thread x = Some X) → call_target s X false p ≠ Some (Some (Some X)) →
  ∃ s' w y, call_target s X false p = Some (Some w) ∧ transaction_call s X (inr (n, p)) false (Some (t, b)) = Some s' ∧
    threads s' !! X = Some (set_todo (set_stack th (Some t)) (th_todo th ++ [TComplete])) ∧
    txn_at s' !! t = Some y ∧ x_from y = Some X ∧ x_from_parent y = transaction_stack th ∧ x_to_thread y = w ∧
    match w with
    | None => todo_of s' p = todo_of s p ++ [TTxn t]
    | Some z => ∃ tz u x, threads s !! z = Some tz ∧ th_proc tz = p ∧ transaction_stack tz = Some u ∧ txn_at s !! u = Some x ∧ x_from x = Some z ∧
        threads s' !! z = Some (set_todo tz (th_todo tz ++ [TTxn t]))
    end.
Proof.
  intros Hps Hr HX He Hmem Htop Hself. destruct (reachable_inv _ _ Hps Hr) as (Cs & W & HI & _).
  destruct (caller_chain _ _ _ _ _ HI HX) as (r & l & Ds & HI1 & Hl & Hs & _).
  { intros u Hu. destruct (stk_txn _ _ X u (ci_stacks _ _ _ HI)) as (x & Hx & _); [unfold stk; by rewrite HX|]. exists x. split; [done|by eapply Htop]. }
  pose proof (call_target_ok _ _ _ _ _ _ p HI1 Hl Hs (ex_intro _ _ HX)) as Htg. rewrite Htg in Hself.
  destruct (head (filter (λ w, of_proc s p w = true) (senders r l))) as [z|] eqn:Hh; unfold transaction_call, call_queue; rewrite Htg; cbn [mbind option_bind negb];
    rewrite HX; cbn [mbind option_bind].
  - assert (Hz : z ≠ X) by congruence. destruct (call_target_waits _ _ _ _ _ _ _ _ HI1 Hl Hh Hz) as (tz & u & x & Htz & Hp & Hst & Hx & Hf).
    eexists _, _, _. split; [done|]. unfold queue_txn. simpl. rewrite lookup_insert_ne by done. rewrite Htz. simpl. unfold queue_complete. simpl.
    rewrite lookup_insert_ne, lookup_insert_eq by done. simpl. split; [done|]. simpl. rewrite !lookup_insert_eq. split_and!; try done.
    exists tz, u, x. split_and!; try done. by rewrite lookup_insert_ne, lookup_insert_eq by done.
  - eexists _, _, _. split; [done|]. unfold queue_txn. simpl. unfold queue_complete. simpl. rewrite lookup_insert_eq. simpl. split; [done|]. simpl. rewrite !lookup_insert_eq. split_and!; try done.
    unfold todo_of. simpl. by rewrite lookup_insert_eq.
Qed.

(** ** Examples *)

(** Thread 1 of process 100 calls process 200; thread 2 takes the call. *)
Definition demo_ops : list txn_op :=
  [TGet 1 100; TGet 2 200; TCall 1 (inr (7, 200)) false (Some (10, 20)); TRead 1; TRead 2].
Definition demo_state : txns := default txns_init (txn_run txns_init demo_ops).

(** Then thread 2 calls back, thread 1 takes the call and exits in the middle of it:
    thread 2 reads the failed reply, replies itself (to nobody) and exits. *)
Lemma binder_calls_safe_witness :
  let ops := demo_ops ++ [TCall 2 (inr (8, 100)) false (Some (11, 21)); TRead 2; TRead 1; TExit 1;
                          TReadError 2 true 1; TFree 2 20; TReply 2 false None; TExit 2] in
  txns_possible txns_init ops = true ∧ ∃ s Cs W, txn_run txns_init ops = Some s ∧ txn_inv s Cs W.
Proof.
  intros ops. assert (H : txns_possible txns_init ops = true) by (vm_compute; reflexivity).
  exact (conj H (binder_calls_safe ops H)).
Defined.

Lemma binder_no_orphan_call_witness : answerable demo_state 10.
Proof.
  apply (binder_no_orphan_call demo_ops demo_state 10 (mk_txn (Some 1) None (Some 200) (Some 2) None true (Some 20) false));
    vm_compute; reflexivity.
Defined.

Lemma binder_reply_correct_witness :
  ∃ s' tw y, transaction_reply demo_state 2 false (Some (11, 21)) = Some s' ∧ 1 ≠ 2 ∧ threads demo_state !! 1 = Some tw ∧ transaction_stack tw = Some 10 ∧
    threads s' !! 1 = Some (set_todo (set_stack tw None) (th_todo tw ++ [TTxn 11])) ∧
    threads s' !! 2 = Some (mk_thread 200 None [TComplete] BR_OK BR_OK) ∧
    (∀ z, z ≠ 1 → z ≠ 2 → threads s' !! z = threads demo_state !! z) ∧
    txn_at s' !! 10 = None ∧ txn_at s' !! 11 = Some y ∧ x_to_thread y = Some 1 ∧ x_buffer y = Some 21.
Proof.
  apply (binder_reply_correct demo_ops demo_state 2 (mk_thread 200 (Some 10) [] BR_OK BR_OK) 10
    (mk_txn (Some 1) None (Some 200) (Some 2) None true (Some 20) false) 1 11 21 false); vm_compute; reflexivity.
Defined.

(** Thread 2 calls back while it handles the call: thread 1, which waits, gets it. *)
Lemma binder_call_correct_witness :
  ∃ s' w y, call_target demo_state 2 false 100 = Some (Some w) ∧ transaction_call demo_state 2 (inr (8, 100)) false (Some (11, 21)) = Some s' ∧
    threads s' !! 2 = Some (mk_thread 200 (Some 11) [TComplete] BR_OK BR_OK) ∧
    txn_at s' !! 11 = Some y ∧ x_from y = Some 2 ∧ x_from_parent y = Some 10 ∧ x_to_thread y = w ∧
    match w with
    | None => todo_of s' 100 = todo_of demo_state 100 ++ [TTxn 11]
    | Some z => ∃ tz u x, threads demo_state !! z = Some tz ∧ th_proc tz = 100 ∧ transaction_stack tz = Some u ∧ txn_at demo_state !! u = Some x ∧
        x_from x = Some z ∧ threads s' !! z = Some (set_todo tz (th_todo tz ++ [TTxn 11]))
    end.
Proof.
  apply (binder_call_correct demo_ops demo_state 2 (mk_thread 200 (Some 10) [] BR_OK BR_OK) 8 100 11 21); try (vm_compute; reflexivity).
  - intros u x [= <-]. vm_compute. intros [= <-]. reflexivity.
  - vm_compute. discriminate.
Defined.

(** ** Two flaws *)

(** A thread whose call leads back to itself: thread 1 calls process 200, is called
    back by thread 2, and then calls its own process, as the context manager can
    (handle 0).  The driver picks thread 1 as the target.  When the thread now
    replies, the top of its stack is its own call, which the driver takes for the
    call it handles: the stack is emptied and the reply refused.  When the thread
    exits, the failed reply for its queued call does not find it on its stack, which
    is the BUG_ON of binder_pop_transaction.  [txns_possible] is false of this run. *)
Theorem binder_self_call_fault :
  let ops := [TGet 1 100; TGet 2 200; TCall 1 (inr (7, 200)) false (Some (10, 20)); TRead 1; TRead 2;
              TCall 2 (inr (8, 100)) false (Some (11, 21)); TRead 2; TRead 1; TCall 1 (inr (8, 100)) false (Some (12, 22)); TReply 1 false None] in
  (∃ s th, txn_run txns_init ops = Some s ∧ threads s !! 1 = Some th ∧ transaction_stack th = None ∧ TTxn 12 ∈ th_todo th) ∧
  txn_run txns_init (ops ++ [TExit 1]) = None ∧ txns_possible txns_init ops = false.
Proof.
  split; [|split; vm_compute; reflexivity]. eexists _, _. split; [vm_compute; reflexivity|]. split; [vm_compute; reflexivity|].
  split; [reflexivity|]. simpl. set_solver.
Qed.

(** Two one-way calls to a node: the second waits until the data of the first is
    freed, and then goes to the list of the thread that freed it.  When this thread
    exits before it reads on, the call is lost, and so are all later one-way calls to
    the node: they wait for the lost one. *)
Theorem binder_one_way_stalls :
  ∃ s, txn_run txns_init [TGet 1 100; TGet 2 200; TGet 3 200; TCall 1 (inr (7, 200)) true (Some (10, 20)); TCall 1 (inr (7, 200)) true (Some (11, 21));
                          TRead 2; TFree 2 20; TExit 2; TCall 1 (inr (7, 200)) true (Some (12, 22))] = Some s ∧
    node_of s 7 = mk_async true [12] ∧ todo_of s 200 = [] ∧ threads s !! 2 = None ∧ th_todo <$> threads s !! 3 = Some [] ∧
    b_txn <$> tbuf_at s !! 21 = Some (Some 11).
Proof. eexists. split; [vm_compute; reflexivity|]. vm_compute. tauto. Qed.
