(* ===== verification/Crc32.v ===== *)
(** Checksums (lib/crc32.c, lib/crc32defs.h, lib/gen_crc32table.c).

    The library has six implementations of each checksum, from one bit at a time to
    eight bytes at a time over tables of 256 words that a program generates when the
    kernel is built.  Which one is used is a choice of the configuration ([bits], the
    macros CRC_LE_BITS and CRC_BE_BITS).  The theorems show that the choice does not
    matter, whatever the alignment of the data, and what the checksum detects.

    Words are [Z] in the range of 32 bits, the machine is little endian. *)

From S2P Require Import Prelude.

(** ** Polynomials and tables *)

Definition CRCPOLY_LE : Z := 0xedb88320.
Definition CRCPOLY_BE : Z := 0x04c11db7.
Definition CRC32C_POLY_LE : Z := 0x82F63B78.

(** [___constant_swab32]: the bytes in the opposite order. *)
Definition swab32 (x : Z) : Z :=
  Z.lor (Z.lor (Z.shiftl (Z.land x 0x000000ff) 24) (Z.shiftl (Z.land x 0x0000ff00) 8))
        (Z.lor (Z.shiftr (Z.land x 0x00ff0000) 8) (Z.shiftr (Z.land x 0xff000000) 24)).

(** One bit: [(crc >> 1) ^ ((crc & 1) ? polynomial : 0)] and its mirror image. *)
Definition bit_le (polynomial crc : Z) : Z := Z.lxor (Z.shiftr crc 1) (if ctrue (Z.land crc 1) then polynomial else 0).
Definition bit_be (polynomial crc : Z) : Z := Z.lxor (u32 (Z.shiftl crc 1)) (if ctrue (Z.land crc 0x80000000) then polynomial else 0).

(** LE_TABLE_ROWS and LE_TABLE_SIZE. *)
Definition TABLE_ROWS (bits : Z) : Z := if bits >? 8 then bits / 8 else 1.
Definition TABLE_SIZE (bits : Z) : Z := if bits >? 8 then 256 else Z.shiftl 1 bits.

Notation table := (list (list Z)).
Definition tab_get (tab : table) (j i : Z) : Z := znth 0 (znth [] tab j) i.
Definition tab_set (tab : table) (j i v : Z) : table := zset tab j (zset (znth [] tab j) i v).
Definition new_table (bits : Z) : table := replicate (Z.to_nat (TABLE_ROWS bits)) (replicate 256 0).

(** [for (j = 0; j < size; j += step) tab[0][i + j] = crc ^ tab[0][j]]. *)
Fixpoint fill_loop (fuel : nat) (tab : table) (j size step i crc : Z) : table :=
  match fuel with
  | O => tab
  | S fuel =>
      if j <? size then fill_loop fuel (tab_set tab 0 (i + j) (Z.lxor crc (tab_get tab 0 j))) (j + step) size step i crc else tab
  end.

(** [for (i = LE_TABLE_SIZE >> 1; i; i >>= 1)]. *)
Fixpoint init_le_loop (fuel : nat) (polynomial size : Z) (tab : table) (i crc : Z) : table :=
  match fuel with
  | O => tab
  | S fuel =>
      if i =? 0 then tab
      else let crc := bit_le polynomial crc in
           init_le_loop fuel polynomial size (fill_loop 256 tab 0 size (2 * i) i crc) (Z.shiftr i 1) crc
  end.

(** The further rows: [n] is what is left of [LE_TABLE_ROWS], [next] one byte. *)
Fixpoint rows_loop (n : nat) (next : table → Z → Z) (tab : table) (j i crc : Z) : table :=
  match n with
  | O => tab
  | S n => let crc := next tab crc in rows_loop n next (tab_set tab j i crc) (j + 1) i crc
  end.

Fixpoint all_rows_loop (n : nat) (rows : nat) (next : table → Z → Z) (tab : table) (i : Z) : table :=
  match n with
  | O => tab
  | S n => all_rows_loop n rows next (rows_loop rows next tab 1 i (tab_get tab 0 i)) (i + 1)
  end.

Definition next_le (tab : table) (crc : Z) : Z := Z.lxor (tab_get tab 0 (Z.land crc 0xff)) (Z.shiftr crc 8).
Definition next_be (tab : table) (crc : Z) : Z := Z.lxor (tab_get tab 0 (Z.land (Z.shiftr crc 24) 0xff)) (u32 (Z.shiftl crc 8)).

Definition crc32init_le_generic (bits polynomial : Z) : table :=
  let tab := tab_set (new_table bits) 0 0 0 in
  let tab := init_le_loop 9 polynomial (TABLE_SIZE bits) tab (Z.shiftr (TABLE_SIZE bits) 1) 1 in
  all_rows_loop (Z.to_nat (TABLE_SIZE bits)) (Z.to_nat (TABLE_ROWS bits - 1)) next_le tab 0.

(** [for (i = 1; i < BE_TABLE_SIZE; i <<= 1)]. *)
Fixpoint init_be_loop (fuel : nat) (size : Z) (tab : table) (i crc : Z) : table :=
  match fuel with
  | O => tab
  | S fuel =>
      if i <? size
      then let crc := bit_be CRCPOLY_BE crc in
           init_be_loop fuel size (fill_loop 256 tab 0 i 1 i crc) (Z.shiftl i 1) crc
      else tab
  end.

Definition crc32init_be (bits : Z) : table :=
  let tab := tab_set (new_table bits) 0 0 0 in
  let tab := init_be_loop 9 (TABLE_SIZE bits) tab 1 0x80000000 in
  all_rows_loop (Z.to_nat (TABLE_SIZE bits)) (Z.to_nat (TABLE_ROWS bits - 1)) next_be tab 0.

(** The tables as they are compiled in: the macros [tole] and [tobe] bring the
    entries into the byte order of the data. *)
Definition crc32table_le (bits : Z) : table := crc32init_le_generic bits CRCPOLY_LE.
Definition crc32ctable_le (bits : Z) : table := crc32init_le_generic bits CRC32C_POLY_LE.
Definition crc32table_be (bits : Z) : table :=
  if bits >? 8 then map (map swab32) (crc32init_be bits) else crc32init_be bits.

(** ** Checksums *)

(** [DO_CRC], and [DO_CRC4] and [DO_CRC8] on the rows from [k] to [k + 3]. *)
Definition DO_CRC (tab : table) (crc x : Z) : Z := Z.lxor (tab_get tab 0 (Z.land (Z.lxor crc x) 255)) (Z.shiftr crc 8).
Definition DO_CRC4 (tab : table) (k q : Z) : Z :=
  Z.lxor (Z.lxor (Z.lxor (tab_get tab (k + 3) (Z.land q 255)) (tab_get tab (k + 2) (Z.land (Z.shiftr q 8) 255)))
                 (tab_get tab (k + 1) (Z.land (Z.shiftr q 16) 255)))
         (tab_get tab k (Z.land (Z.shiftr q 24) 255)).

(** The bytes in front of the first aligned word. *)
Fixpoint align_loop (tab : table) (addr crc : Z) (buf : list Z) : Z * list Z :=
  match buf with
  | [] => (crc, [])
  | x :: rest => if ctrue (Z.land addr 3) then align_loop tab (addr + 1) (DO_CRC tab crc x) rest else (crc, buf)
  end.

(** A word of memory. *)
Definition load32 (buf : list Z) : Z :=
  znth 0 buf 0 + 2 ^ 8 * znth 0 buf 1 + 2 ^ 16 * znth 0 buf 2 + 2 ^ 24 * znth 0 buf 3.

(** The loop over words or pairs of words. *)
Fixpoint words_loop (len : nat) (bits : Z) (tab : table) (crc : Z) (buf : list Z) : Z * list Z :=
  match len with
  | O => (crc, buf)
  | S len =>
      let q := Z.lxor crc (load32 buf) in
      if bits =? 32 then words_loop len bits tab (DO_CRC4 tab 0 q) (drop 4 buf)
      else let crc := DO_CRC4 tab 4 q in
           let q := load32 (drop 4 buf) in
           words_loop len bits tab (Z.lxor crc (DO_CRC4 tab 0 q)) (drop 8 buf)
  end.

Definition crc32_body (bits : Z) (tab : table) (addr crc : Z) (buf : list Z) : Z :=
  let '(crc, buf) := align_loop tab addr crc buf in
  let len := if bits =? 32 then zlen buf / 4 else zlen buf / 8 in
  let '(crc, buf) := words_loop (Z.to_nat len) bits tab crc buf in
  foldl (DO_CRC tab) crc buf.

Definition crc32_le_generic (bits : Z) (tab : table) (polynomial addr crc : Z) (p : list Z) : Z :=
  if bits =? 1 then foldl (λ crc x, Nat.iter 8 (bit_le polynomial) (Z.lxor crc x)) crc p
  else if bits =? 2 then foldl (λ crc x, Nat.iter 4 (λ crc, Z.lxor (Z.shiftr crc 2) (tab_get tab 0 (Z.land crc 3))) (Z.lxor crc x)) crc p
  else if bits =? 4 then foldl (λ crc x, Nat.iter 2 (λ crc, Z.lxor (Z.shiftr crc 4) (tab_get tab 0 (Z.land crc 15))) (Z.lxor crc x)) crc p
  else if bits =? 8 then foldl (λ crc x, let crc := Z.lxor crc x in Z.lxor (Z.shiftr crc 8) (tab_get tab 0 (Z.land crc 255))) crc p
  else crc32_body bits tab addr crc p.

Definition crc32_le (bits addr crc : Z) (p : list Z) : Z := crc32_le_generic bits (crc32table_le bits) CRCPOLY_LE addr crc p.
Definition crc32c_le (bits addr crc : Z) (p : list Z) : Z := crc32_le_generic bits (crc32ctable_le bits) CRC32C_POLY_LE addr crc p.

Definition crc32_be_generic (bits : Z) (tab : table) (polynomial addr crc : Z) (p : list Z) : Z :=
  if bits =? 1 then foldl (λ crc x, Nat.iter 8 (bit_be polynomial) (Z.lxor crc (Z.shiftl x 24))) crc p
  else if bits =? 2 then
    foldl (λ crc x, Nat.iter 4 (λ crc, Z.lxor (u32 (Z.shiftl crc 2)) (tab_get tab 0 (Z.shiftr crc 30))) (Z.lxor crc (Z.shiftl x 24))) crc p
  else if bits =? 4 then
    foldl (λ crc x, Nat.iter 2 (λ crc, Z.lxor (u32 (Z.shiftl crc 4)) (tab_get tab 0 (Z.shiftr crc 28))) (Z.lxor crc (Z.shiftl x 24))) crc p
  else if bits =? 8 then
    foldl (λ crc x, let crc := Z.lxor crc (Z.shiftl x 24) in Z.lxor (u32 (Z.shiftl crc 8)) (tab_get tab 0 (Z.shiftr crc 24))) crc p
  else swab32 (crc32_body bits tab addr (swab32 crc) p).

Definition crc32_be (bits addr crc : Z) (p : list Z) : Z := crc32_be_generic bits (crc32table_be bits) CRCPOLY_BE addr crc p.

(** The published check value of the checksum of "123456789". *)
Definition check_string : list Z := [49; 50; 51; 52; 53; 54; 55; 56; 57].

Lemma crc32_le_check bits : bits ∈ [1; 2; 4; 8; 32; 64] → Z.lxor (crc32_le bits 1 0xffffffff check_string) 0xffffffff = 0xcbf43926.
Proof. intros H. repeat (apply elem_of_cons in H as [->|H]; [vm_compute; reflexivity|]). set_solver. Qed.

Lemma crc32c_le_check bits : bits ∈ [1; 2; 4; 8; 32; 64] → Z.lxor (crc32c_le bits 1 0xffffffff check_string) 0xffffffff = 0xe3069283.
Proof. intros H. repeat (apply elem_of_cons in H as [->|H]; [vm_compute; reflexivity|]). set_solver. Qed.

Lemma crc32_be_check bits : bits ∈ [1; 2; 4; 8; 32; 64] → crc32_be bits 1 0xffffffff check_string = 0x0376e6e7.
Proof. intros H. repeat (apply elem_of_cons in H as [->|H]; [vm_compute; reflexivity|]). set_solver. Qed.

(** Case analysis on membership in a list of constants. *)
Ltac in_list := repeat first [apply list_elem_of_here | apply list_elem_of_further].
Ltac each_of H := repeat (apply elem_of_cons in H as [H|H]); [..|by apply not_elem_of_nil in H]; simplify_eq.

(** ** Words as polynomials

    A checksum is linear: it respects the exclusive or. *)

Notation is_u32 x := (0 ≤ x < 2 ^ 32).
Notation is_byte x := (0 ≤ x < 2 ^ 8).

Lemma lxor_range n a b : 0 ≤ n → 0 ≤ a < 2 ^ n → 0 ≤ b < 2 ^ n → 0 ≤ Z.lxor a b < 2 ^ n.
Proof.
  intros Hn Ha Hb. assert (H0 : 0 ≤ Z.lxor a b) by (apply Z.lxor_nonneg; lia). split; [done|].
  assert (Hs : Z.shiftr (Z.lxor a b) n = 0) by (rewrite Z.shiftr_lxor, !Z.shiftr_div_pow2, !Z.div_small by lia; done).
  rewrite Z.shiftr_div_pow2 in Hs by lia. apply Z.div_small_iff in Hs; lia.
Qed.

Lemma ctrue_odd x : ctrue (Z.land x 1) = Z.odd x.
Proof.
  unfold ctrue. change (Z.land x 1) with (Z.land x (Z.ones 1)). rewrite Z.land_ones by lia. change (2 ^ 1) with 2. rewrite Zmod_odd. by destruct (Z.odd x).
Qed.

(** The low [n] bits and the others. *)
Lemma low_high n x : 0 ≤ n → x = Z.lxor (Z.land x (Z.ones n)) (Z.shiftl (Z.shiftr x n) n).
Proof.
  intros Hn. apply Z.bits_inj'. intros k Hk. rewrite Z.lxor_spec, Z.land_spec, Z.shiftl_spec, Z.testbit_ones_nonneg by lia.
  destruct (Z.ltb_spec k n).
  - rewrite (Z.testbit_neg_r _ (k - n)) by lia. by rewrite andb_true_r, xorb_false_r.
  - rewrite Z.shiftr_spec by lia. replace (k - n + n) with k by lia. by rewrite andb_false_r, xorb_false_l.
Qed.

Lemma byte_plus b w : is_byte b → Z.lxor b (256 * w) = b + 256 * w.
Proof.
  intros Hb. symmetry. apply Z.add_nocarry_lxor. rewrite Z.mul_comm. change 256 with (2 ^ 8). rewrite <- Z.shiftl_mul_pow2 by lia.
  apply Z.bits_inj'. intros k Hk. rewrite Z.land_spec, Z.shiftl_spec, Z.bits_0 by lia. destruct (Z.ltb_spec k 8).
  - by rewrite (Z.testbit_neg_r w), andb_false_r by lia.
  - rewrite <- (Z.mod_small b (2 ^ 8)) by lia. by rewrite Z.mod_pow2_bits_high by lia.
Qed.

Lemma shiftr_byte x b : is_byte b → Z.shiftr (Z.lxor x b) 8 = Z.shiftr x 8.
Proof. intros Hb. rewrite Z.shiftr_lxor, (Z.shiftr_div_pow2 b), Z.div_small, Z.lxor_0_r by lia. done. Qed.

Lemma land_byte x : is_byte (Z.land x 255).
Proof. change 255 with (Z.ones 8). rewrite Z.land_ones by lia. apply Z.mod_pos_bound. lia. Qed.

Lemma shiftr_range x k n : is_u32 x → 0 ≤ k → k + n = 32 → 0 ≤ n → 0 ≤ Z.shiftr x k < 2 ^ n.
Proof.
  intros Hx Hk Hkn Hn. rewrite Z.shiftr_div_pow2 by lia. split; [apply Z.div_pos; lia|]. apply Z.div_lt_upper_bound; [lia|].
  rewrite <- Z.pow_add_r, Hkn by lia. lia.
Qed.

(** ** Any number of bytes at a time

    The argument for the table-driven loops needs only this of the function that
    processes a byte. *)

Class ByteStep (F : Z → Z) := {
  bs_range x : is_u32 x → is_u32 (F x);
  bs_lin x y : is_u32 x → is_u32 y → F (Z.lxor x y) = Z.lxor (F x) (F y);
  bs_shift y : 0 ≤ y < 2 ^ 24 → F (256 * y) = y }.

(** A table for it. *)
Definition table_for (F : Z → Z) (rows : Z) (tab : table) : Prop :=
  ∀ j i, 0 ≤ j < rows → is_byte i → tab_get tab j i = Nat.iter (S (Z.to_nat j)) F i.

Section slices.
Context (F : Z → Z) {BS : ByteStep F}.

Lemma iter_range n x : is_u32 x → is_u32 (Nat.iter n F x).
Proof. intros Hx. induction n as [|n IH]; [done|]. simpl. by apply bs_range. Qed.

Lemma iter_lin n x y : is_u32 x → is_u32 y → Nat.iter n F (Z.lxor x y) = Z.lxor (Nat.iter n F x) (Nat.iter n F y).
Proof. intros Hx Hy. induction n as [|n IH]; simpl; [done|]. rewrite IH. apply bs_lin; by apply iter_range. Qed.

Lemma iter_shift n y : 0 ≤ y < 2 ^ 24 → Nat.iter (S n) F (256 * y) = Nat.iter n F y.
Proof. intros Hy. rewrite Nat.iter_succ_r. by rewrite bs_shift. Qed.

(** One byte comes from the table, the rest moves on. *)
Lemma iter_split n q : is_u32 q → Nat.iter (S n) F q = Z.lxor (Nat.iter (S n) F (Z.land q 255)) (Nat.iter n F (Z.shiftr q 8)).
Proof.
  intros Hq. assert (Hs : 0 ≤ Z.shiftr q 8 < 2 ^ 24) by (apply shiftr_range; lia). pose proof (land_byte q) as Hb.
  rewrite (low_high 8 q) at 1 by lia. change (Z.ones 8) with 255. rewrite Z.shiftl_mul_pow2, Z.mul_comm by lia. change (2 ^ 8) with 256.
  rewrite iter_lin, iter_shift by lia. done.
Qed.

Lemma DO_CRC_step rows tab crc x : table_for F rows tab → 0 < rows → is_u32 crc → is_byte x → DO_CRC tab crc x = F (Z.lxor crc x).
Proof.
  intros HT Hr Hc Hx. unfold DO_CRC. rewrite HT by (lia || apply land_byte). simpl.
  assert (Hq : is_u32 (Z.lxor crc x)) by (apply lxor_range; lia). pose proof (iter_split 0 _ Hq) as Hs. simpl in Hs. by rewrite Hs, shiftr_byte.
Qed.

Lemma DO_CRC4_step rows tab k q : table_for F rows tab → 0 ≤ k → k + 4 ≤ rows → is_u32 q → DO_CRC4 tab k q = Nat.iter (4 + Z.to_nat k) F q.
Proof.
  intros HT Hk Hr Hq. unfold DO_CRC4. rewrite !HT by (lia || apply land_byte).
  set (m := Z.to_nat k). replace (Z.to_nat (k + 3)) with (S (S (S m))) by lia. replace (Z.to_nat (k + 2)) with (S (S m)) by lia.
  replace (Z.to_nat (k + 1)) with (S m) by lia. change (4 + m)%nat with (S (S (S (S m)))).
  assert (0 ≤ Z.shiftr q 8 < 2 ^ 24 ∧ 0 ≤ Z.shiftr q 16 < 2 ^ 16 ∧ 0 ≤ Z.shiftr q 24 < 2 ^ 8) as (? & ? & ?)
    by (split; [|split]; apply shiftr_range; lia).
  rewrite (iter_split (S (S (S m))) q) by done. rewrite (iter_split (S (S m)) (Z.shiftr q 8)) by lia.
  rewrite Z.shiftr_shiftr by lia. change (8 + 8) with 16. rewrite (iter_split (S m) (Z.shiftr q 16)) by lia.
  rewrite Z.shiftr_shiftr by lia. change (16 + 8) with 24. change (Z.land (Z.shiftr q 24) 255) with (Z.land (Z.shiftr q 24) (Z.ones 8)).
  rewrite (Z.land_ones (Z.shiftr q 24)), Z.mod_small by lia. by rewrite !Z.lxor_assoc.
Qed.
End slices.

(** The bytes of a word, the first one lowest. *)
Fixpoint word_of (w : list Z) : Z := match w with [] => 0 | b :: w => Z.lxor b (256 * word_of w) end.

Lemma word_of_plus b w : is_byte b → word_of (b :: w) = b + 256 * word_of w.
Proof. intros Hb. simpl. by apply byte_plus. Qed.

Lemma word_of_range w : Forall (λ b, is_byte b) w → 0 ≤ word_of w < 2 ^ (8 * Z.of_nat (length w)).
Proof.
  induction 1 as [|b w Hb _ IH]; [done|]. rewrite word_of_plus by done. simpl length. rewrite Nat2Z.inj_succ.
  replace (8 * Z.succ (Z.of_nat (length w))) with (8 + 8 * Z.of_nat (length w)) by lia. rewrite Z.pow_add_r by lia. change (2 ^ 8) with 256 in *. lia.
Qed.

Lemma word_of_u32 w : Forall (λ b, is_byte b) w → (length w ≤ 4)%nat → is_u32 (word_of w).
Proof.
  intros Hw Hl. pose proof (word_of_range w Hw) as Hr. split; [lia|]. eapply Z.lt_le_trans; [apply Hr|]. apply Z.pow_le_mono_r; lia.
Qed.

Lemma load32_word a b c d rest : Forall (λ b, is_byte b) [a; b; c; d] → load32 (a :: b :: c :: d :: rest) = word_of [a; b; c; d].
Proof.
  intros H. apply Forall_cons in H as [Ha H]. apply Forall_cons in H as [Hb H]. apply Forall_cons in H as [Hc H]. apply Forall_cons in H as [Hd _].
  rewrite !word_of_plus by done. unfold load32, znth. simpl. lia.
Qed.

(** Processing bytes with [F]. *)
Definition bytes_by (F : Z → Z) (crc : Z) (p : list Z) : Z := foldl (λ crc x, F (Z.lxor crc x)) crc p.

Section bodies.
Context (F : Z → Z) {BS : ByteStep F}.

Lemma bytes_range crc p : is_u32 crc → Forall (λ b, is_byte b) p → is_u32 (bytes_by F crc p).
Proof.
  intros Hc Hp. revert crc Hc. induction Hp as [|b p Hb _ IH]; intros crc Hc; [done|]. apply IH, bs_range, lxor_range; lia.
Qed.

(** A word at a time. *)
Lemma bytes_word crc w : is_u32 crc → Forall (λ b, is_byte b) w → (length w ≤ 4)%nat →
  bytes_by F crc w = Nat.iter (length w) F (Z.lxor crc (word_of w)).
Proof.
  intros Hc Hw. revert crc Hc. induction Hw as [|b w Hb Hw IH]; intros crc Hc Hl; simpl; [by rewrite Z.lxor_0_r|].
  simpl in Hl. assert (Hcb : is_u32 (Z.lxor crc b)) by (apply lxor_range; lia).
  assert (Hr : 0 ≤ word_of w < 2 ^ 24).
  { pose proof (word_of_range w Hw) as Hr. split; [lia|]. eapply Z.lt_le_trans; [apply Hr|]. apply Z.pow_le_mono_r; lia. }
  change (bytes_by F (F (Z.lxor crc b)) w = F (Nat.iter (length w) F (Z.lxor crc (Z.lxor b (256 * word_of w))))).
  rewrite IH by (by apply bs_range || lia). rewrite <- Nat.iter_succ, Nat.iter_succ_r. f_equal.
  rewrite <- Z.lxor_assoc, (bs_lin (Z.lxor crc b) (256 * word_of w)), (bs_shift (F := F)) by lia. done.
Qed.

Context (rows : Z) (tab : table) (HT : table_for F rows tab).

Lemma DO_CRC_bytes crc p : 0 < rows → is_u32 crc → Forall (λ b, is_byte b) p → foldl (DO_CRC tab) crc p = bytes_by F crc p.
Proof.
  intros Hr Hc Hp. revert crc Hc. induction Hp as [|b p Hb _ IH]; intros crc Hc; [done|]. simpl. rewrite (DO_CRC_step F rows) by done.
  apply IH, bs_range, lxor_range; lia.
Qed.

Lemma align_loop_ok addr crc p crc' p' : 0 < rows → is_u32 crc → Forall (λ b, is_byte b) p → align_loop tab addr crc p = (crc', p') →
  bytes_by F crc p = bytes_by F crc' p' ∧ is_u32 crc' ∧ Forall (λ b, is_byte b) p'.
Proof.
  intros Hr Hc Hp. revert addr crc Hc. induction Hp as [|b p Hb Hp IH]; intros addr crc Hc; simpl.
  - intros [= <- <-]. split; [done|split; [done|constructor]].
  - destruct (ctrue _); [|intros [= <- <-]; split; [done|split; [done|by constructor]]]. rewrite (DO_CRC_step F rows) by done. intros Ha.
    eapply IH in Ha; [done|]. apply bs_range, lxor_range; lia.
Qed.

Lemma bytes_app crc p1 p2 : bytes_by F crc (p1 ++ p2) = bytes_by F (bytes_by F crc p1) p2.
Proof. apply foldl_app. Qed.

Lemma split4 (p : list Z) : (4 ≤ length p)%nat → ∃ a b c d, p = [a; b; c; d] ++ drop 4 p.
Proof. intros Hl. destruct p as [|a [|b [|c [|d p]]]]; simpl in Hl; try lia. by exists a, b, c, d. Qed.

Lemma word_step crc p : 4 ≤ rows → is_u32 crc → Forall (λ b, is_byte b) p → (4 ≤ length p)%nat →
  ∃ w, p = w ++ drop 4 p ∧ length w = 4%nat ∧ Forall (λ b, is_byte b) w ∧ load32 p = word_of w ∧
    is_u32 (load32 p) ∧ DO_CRC4 tab 0 (Z.lxor crc (load32 p)) = bytes_by F crc w.
Proof.
  intros Hr Hc Hp Hl. destruct (split4 p Hl) as (a & b & c & d & Hs). exists [a; b; c; d]. rewrite Hs in Hp. apply Forall_app in Hp as [Hw _].
  assert (Hload : load32 p = word_of [a; b; c; d]) by (rewrite Hs; by apply load32_word).
  assert (Hu : is_u32 (load32 p)) by (rewrite Hload; by apply word_of_u32). split_and!; try done; try lia.
  rewrite (DO_CRC4_step F rows); [|done|lia|lia|apply lxor_range; lia]. rewrite bytes_word by (done || simpl; lia). by rewrite Hload.
Qed.

Definition stride (bits : Z) : nat := if bits =? 32 then 4%nat else 8%nat.

Lemma words_loop_ok bits len crc p : rows = Z.of_nat (stride bits) → is_u32 crc → Forall (λ b, is_byte b) p → (stride bits * len ≤ length p)%nat →
  ∃ crc' p', words_loop len bits tab crc p = (crc', p') ∧ bytes_by F crc p = bytes_by F crc' p' ∧ is_u32 crc' ∧ Forall (λ b, is_byte b) p'.
Proof.
  intros Hrows. revert crc p. induction len as [|len IH]; intros crc p Hc Hp Hl; simpl; [by exists crc, p|].
  unfold stride in *. destruct (Z.eqb_spec bits 32) as [->|Hb].
  - destruct (word_step crc p) as (w & Hpw & Hw4 & Hw & _ & _ & ->); [lia|done|done|lia|].
    assert (Hp' : Forall (λ b, is_byte b) (drop 4 p)) by (by apply Forall_drop).
    destruct (IH (bytes_by F crc w) (drop 4 p)) as (crc' & p' & -> & Heq & ?); [by apply bytes_range|done|rewrite length_drop; lia|].
    exists crc', p'. split; [done|]. by rewrite Hpw at 1; rewrite bytes_app.
  - destruct (word_step crc p) as (w & Hpw & Hw4 & Hw & Hload & Hu & _); [lia|done|done|lia|].
    assert (Hp' : Forall (λ b, is_byte b) (drop 4 p)) by (by apply Forall_drop).
    destruct (word_step 0 (drop 4 p)) as (v & Hpv & Hv4 & Hv & Hloadv & Huv & Hfour); [lia|lia|done|rewrite length_drop; lia|].
    rewrite drop_drop in Hpv. rewrite Z.lxor_0_l in Hfour. rewrite (DO_CRC4_step F rows) by (done || lia || apply lxor_range; lia). rewrite Hfour.
    assert (H8 : Z.lxor (Nat.iter (4 + Z.to_nat 4) F (Z.lxor crc (load32 p))) (bytes_by F 0 v) = bytes_by F (bytes_by F crc w) v).
    { rewrite !bytes_word by (done || lia || by apply bytes_range). rewrite Hw4, Hv4, Hload, Z.lxor_0_l.
      change (4 + Z.to_nat 4)%nat with (4 + 4)%nat. rewrite Nat.iter_add. rewrite <- iter_lin; [done|exact BS|..].
      - apply iter_range; [done|]. apply lxor_range; [lia|done|rewrite <- Hload; done].
      - rewrite <- Hloadv. done. }
    rewrite H8. destruct (IH (bytes_by F (bytes_by F crc w) v) (drop 8 p)) as (crc' & p' & -> & Heq & ?);
      [by apply bytes_range; [apply bytes_range|]|by apply Forall_drop|rewrite length_drop; lia|].
    exists crc', p'. split; [done|]. rewrite Hpw at 1. rewrite bytes_app. rewrite Hpv. by rewrite bytes_app.
Qed.

(** The whole of [crc32_body]. *)
Lemma crc32_body_ok bits addr crc p : rows = Z.of_nat (stride bits) → is_u32 crc → Forall (λ b, is_byte b) p →
  crc32_body bits tab addr crc p = bytes_by F crc p.
Proof.
  intros Hrows Hc Hp. unfold crc32_body. destruct (align_loop tab addr crc p) as [crc1 p1] eqn:Ha.
  assert (Hr0 : 0 < rows) by (rewrite Hrows; unfold stride; destruct (bits =? 32); lia).
  destruct (align_loop_ok _ _ _ _ _ Hr0 Hc Hp Ha) as (-> & Hc1 & Hp1).
  set (len := if bits =? 32 then zlen p1 / 4 else zlen p1 / 8).
  assert (Hlen : (stride bits * Z.to_nat len ≤ length p1)%nat).
  { unfold len, stride, zlen. destruct (bits =? 32); rewrite Z2Nat.inj_div, Nat2Z.id by lia; apply Nat.Div0.mul_div_le. }
  destruct (words_loop_ok bits (Z.to_nat len) crc1 p1 Hrows Hc1 Hp1 Hlen) as (crc2 & p2 & -> & -> & Hc2 & Hp2). by apply DO_CRC_bytes.
Qed.
End bodies.

(** ** Little endian *)

Lemma bit_le_lin P a b : bit_le P (Z.lxor a b) = Z.lxor (bit_le P a) (bit_le P b).
Proof.
  unfold bit_le. rewrite !ctrue_odd, Z.shiftr_lxor, <- !Z.bit0_odd, Z.lxor_spec. apply Z.bits_inj'. intros k Hk. rewrite !Z.lxor_spec.
  destruct (Z.testbit a 0), (Z.testbit b 0); simpl; rewrite ?Z.bits_0; destruct (Z.testbit (Z.shiftr a 1) k), (Z.testbit (Z.shiftr b 1) k), (Z.testbit P k); done.
Qed.

Lemma bit_le_shift P y : bit_le P (2 * y) = y.
Proof.
  unfold bit_le. rewrite ctrue_odd, Z.odd_mul. change (Z.odd 2) with false. simpl. rewrite Z.lxor_0_r, Z.shiftr_div_pow2 by lia.
  change (2 ^ 1) with 2. rewrite Z.mul_comm. apply Z.div_mul. lia.
Qed.

Lemma bit_le_range P x : is_u32 P → is_u32 x → is_u32 (bit_le P x).
Proof.
  intros HP Hx. unfold bit_le. apply lxor_range; [lia| |destruct (ctrue _); lia]. pose proof (shiftr_range x 1 31 Hx). lia.
Qed.

Lemma bits_le_lin n P a b : Nat.iter n (bit_le P) (Z.lxor a b) = Z.lxor (Nat.iter n (bit_le P) a) (Nat.iter n (bit_le P) b).
Proof. induction n as [|n IH]; simpl; [done|]. by rewrite IH, bit_le_lin. Qed.

Lemma bits_le_shift n P y : Nat.iter n (bit_le P) (Z.shiftl y (Z.of_nat n)) = y.
Proof.
  induction n as [|n IH]; [apply Z.shiftl_0_r|]. rewrite Nat.iter_succ_r. rewrite Nat2Z.inj_succ, <- Z.add_1_r, <- Z.shiftl_shiftl by lia.
  rewrite (Z.shiftl_mul_pow2 _ 1) by lia. change (2 ^ 1) with 2. by rewrite Z.mul_comm, bit_le_shift.
Qed.

(** The bits that are shifted out decide what is added. *)
Lemma bits_le_split n P x : Nat.iter n (bit_le P) x = Z.lxor (Z.shiftr x (Z.of_nat n)) (Nat.iter n (bit_le P) (Z.land x (Z.ones (Z.of_nat n)))).
Proof. rewrite (low_high (Z.of_nat n) x) at 1 by lia. by rewrite bits_le_lin, bits_le_shift, Z.lxor_comm. Qed.

Definition byte_le (P : Z) : Z → Z := Nat.iter 8 (bit_le P).

Lemma byte_le_step P : is_u32 P → ByteStep (byte_le P).
Proof.
  intros HP. split.
  - intros x Hx. unfold byte_le. generalize 8%nat as n. induction n as [|n IH]; simpl; [done|by apply bit_le_range].
  - intros x y _ _. apply bits_le_lin.
  - intros y _. pose proof (bits_le_shift 8 P y) as Hs. rewrite Z.shiftl_mul_pow2 in Hs by lia. by rewrite Z.mul_comm.
Qed.

(** *** The generated tables *)

(** Comparing a table with what it should be, entry by entry. *)
Definition row_ok (f : Z → Z) (tab : table) (j size : Z) : bool := forallb (λ i, tab_get tab j i =? f i) (seqZ 0 size).

Lemma row_ok_get f tab j size i : row_ok f tab j size = true → 0 ≤ i < size → tab_get tab j i = f i.
Proof.
  intros H Hi. unfold row_ok in H. rewrite forallb_forall in H. apply Z.eqb_eq, H, list_elem_of_In, elem_of_seqZ. lia.
Qed.

Definition rows_ok (F : Z → Z) (rows : nat) (tab : table) : bool := forallb (λ j, row_ok (Nat.iter (S j) F) tab (Z.of_nat j) 256) (seq 0 rows).

Lemma rows_ok_table F rows tab : rows_ok F rows tab = true → table_for F (Z.of_nat rows) tab.
Proof.
  intros H j i Hj Hi. unfold rows_ok in H. rewrite forallb_forall in H. specialize (H (Z.to_nat j)). rewrite Z2Nat.id in H by lia.
  eapply row_ok_get; [apply H, in_seq; lia|lia].
Qed.

Lemma table_le_rows bits P : bits ∈ [32; 64] → P ∈ [CRCPOLY_LE; CRC32C_POLY_LE] →
  table_for (byte_le P) (Z.of_nat (stride bits)) (crc32init_le_generic bits P).
Proof.
  intros Hb HP. apply rows_ok_table.
  each_of Hb; each_of HP; vm_compute; reflexivity.
Qed.

Lemma table_le_bits bits P i : bits ∈ [2; 4; 8] → P ∈ [CRCPOLY_LE; CRC32C_POLY_LE] → 0 ≤ i < 2 ^ bits →
  tab_get (crc32init_le_generic bits P) 0 i = Nat.iter (Z.to_nat bits) (bit_le P) i.
Proof.
  intros Hb HP. apply row_ok_get.
  each_of Hb; each_of HP; vm_compute; reflexivity.
Qed.

#[local] Opaque crc32init_le_generic.

(** Some bits at a time are all bits one after the other. *)
Lemma lookup_le bits P crc : bits ∈ [2; 4; 8] → P ∈ [CRCPOLY_LE; CRC32C_POLY_LE] →
  Z.lxor (Z.shiftr crc bits) (tab_get (crc32init_le_generic bits P) 0 (Z.land crc (Z.ones bits))) = Nat.iter (Z.to_nat bits) (bit_le P) crc.
Proof.
  intros Hb HP. assert (Hpos : 0 ≤ bits) by (repeat (apply elem_of_cons in Hb as [->|Hb]; [lia|]); set_solver).
  rewrite table_le_bits; [|done|done|rewrite Z.land_ones by lia; apply Z.mod_pos_bound; lia].
  rewrite (bits_le_split (Z.to_nat bits) P crc). by rewrite Z2Nat.id.
Qed.

Lemma foldl_same {A B} (f g : A → B → A) a l : (∀ x y, f x y = g x y) → foldl f a l = foldl g a l.
Proof. intros H. revert a. induction l as [|b l IH]; intros a; simpl; [done|]. by rewrite H, IH. Qed.

Lemma iter_same {A} (f g : A → A) n x : (∀ y, f y = g y) → Nat.iter n f x = Nat.iter n g x.
Proof. intros H. induction n as [|n IH]; simpl; [done|]. by rewrite IH, H. Qed.

Lemma iter_iter {A} (f : A → A) n k x : Nat.iter n (Nat.iter k f) x = Nat.iter (n * k) f x.
Proof. induction n as [|n IH]; simpl; [done|]. by rewrite Nat.iter_add, IH. Qed.

(** The choices of some bits at a time, and how often this makes a byte. *)
Notation some_bits := [(2, 4%nat); (4, 2%nat); (8, 1%nat)].

Lemma some_bits_spec k n : (k, n) ∈ some_bits → k ∈ [2; 4; 8] ∧ (n * Z.to_nat k)%nat = 8%nat.
Proof. intros H. each_of H; (split; [in_list|reflexivity]). Qed.

(** The code for each choice. *)
Lemma crc32_le_cases tab P addr crc p :
  crc32_le_generic 1 tab P addr crc p = foldl (λ crc x, Nat.iter 8 (bit_le P) (Z.lxor crc x)) crc p ∧
  (∀ k n, (k, n) ∈ some_bits → crc32_le_generic k tab P addr crc p =
    foldl (λ crc x, Nat.iter n (λ crc, Z.lxor (Z.shiftr crc k) (tab_get tab 0 (Z.land crc (Z.ones k)))) (Z.lxor crc x)) crc p) ∧
  (∀ k, k ∈ [32; 64] → crc32_le_generic k tab P addr crc p = crc32_body k tab addr crc p).
Proof. split; [reflexivity|]. split; [intros k n H|intros k H]; each_of H; reflexivity. Qed.

Lemma crc32_le_some k n P addr crc p : (k, n) ∈ some_bits → P ∈ [CRCPOLY_LE; CRC32C_POLY_LE] →
  crc32_le_generic k (crc32init_le_generic k P) P addr crc p = bytes_by (byte_le P) crc p.
Proof.
  intros Hk HP. destruct (some_bits_spec k n Hk) as [Hin Hn]. destruct (crc32_le_cases (crc32init_le_generic k P) P addr crc p) as (_ & Hsome & _).
  rewrite (Hsome k n Hk). unfold bytes_by, byte_le. apply foldl_same. intros c x.
  rewrite (iter_same _ (Nat.iter (Z.to_nat k) (bit_le P))) by (intros y; by apply lookup_le). by rewrite iter_iter, Hn.
Qed.

Lemma crc32_le_words k P addr crc p : k ∈ [32; 64] → P ∈ [CRCPOLY_LE; CRC32C_POLY_LE] → is_u32 crc → Forall (λ b, is_byte b) p →
  crc32_le_generic k (crc32init_le_generic k P) P addr crc p = bytes_by (byte_le P) crc p.
Proof.
  intros Hk HP Hc Hp. destruct (crc32_le_cases (crc32init_le_generic k P) P addr crc p) as (_ & _ & Hbody). rewrite (Hbody k Hk).
  eapply crc32_body_ok; [|by apply table_le_rows|done|done|done]. apply byte_le_step. each_of HP; by vm_compute.
Qed.

Lemma bits_cases bits : bits ∈ [1; 2; 4; 8; 32; 64] → bits = 1 ∨ (∃ n, (bits, n) ∈ some_bits) ∨ bits ∈ [32; 64].
Proof.
  intros Hb. each_of Hb; [by left|right; left; exists 4%nat|right; left; exists 2%nat|right; left; exists 1%nat|right; right|right; right]; in_list.
Qed.

Lemma crc32_le_generic_ok bits P addr crc p :
  bits ∈ [1; 2; 4; 8; 32; 64] → P ∈ [CRCPOLY_LE; CRC32C_POLY_LE] → is_u32 crc → Forall (λ b, is_byte b) p →
  crc32_le_generic bits (crc32init_le_generic bits P) P addr crc p = bytes_by (byte_le P) crc p.
Proof.
  intros Hb HP Hc Hp. destruct (bits_cases bits Hb) as [->|[[n Hn]|Hb']]; [|by eapply crc32_le_some|by apply crc32_le_words].
  destruct (crc32_le_cases (crc32init_le_generic 1 P) P addr crc p) as (-> & _ & _). unfold bytes_by, byte_le. reflexivity.
Qed.

(** ** Big endian *)

Lemma bits_eq32 a b : is_u32 a → is_u32 b → (∀ n, 0 ≤ n < 32 → Z.testbit a n = Z.testbit b n) → a = b.
Proof.
  intros Ha Hb H. apply Z.bits_inj'. intros n Hn. destruct (decide (n < 32)); [by apply H|].
  rewrite <- (Z.mod_small a (2 ^ 32)), <- (Z.mod_small b (2 ^ 32)) by done. by rewrite !Z.mod_pow2_bits_high by lia.
Qed.

Lemma mask_bit k m : 0 ≤ k → Z.testbit (Z.shiftl (Z.ones 8) k) m = (k <=? m) && (m <? k + 8).
Proof.
  intros Hk. destruct (Z.leb_spec k m).
  - rewrite Z.shiftl_spec, Z.testbit_ones_nonneg by lia. simpl. destruct (Z.ltb_spec (m - k) 8), (Z.ltb_spec m (k + 8)); lia.
  - destruct (decide (m < 0)); [by rewrite Z.testbit_neg_r|]. rewrite Z.shiftl_spec by lia. by rewrite Z.testbit_neg_r by lia.
Qed.

(** Comparisons that arithmetic decides. *)
Ltac decide_cmp :=
  repeat match goal with
  | |- context [?a <? ?b] => first [rewrite (proj2 (Z.ltb_lt a b)) by lia | rewrite (proj2 (Z.ltb_ge a b)) by lia]
  | |- context [?a <=? ?b] => first [rewrite (proj2 (Z.leb_le a b)) by lia | rewrite (proj2 (Z.leb_gt a b)) by lia]
  end.

Lemma swab_bits x n : 0 ≤ n → Z.testbit (swab32 x) n =
  if n <? 8 then Z.testbit x (n + 24) else if n <? 16 then Z.testbit x (n + 8) else if n <? 24 then Z.testbit x (n - 8)
  else if n <? 32 then Z.testbit x (n - 24) else false.
Proof.
  intros Hn. unfold swab32. change 0x000000ff with (Z.shiftl (Z.ones 8) 0). change 0x0000ff00 with (Z.shiftl (Z.ones 8) 8).
  change 0x00ff0000 with (Z.shiftl (Z.ones 8) 16). change 0xff000000 with (Z.shiftl (Z.ones 8) 24).
  rewrite !Z.lor_spec, (Z.shiftl_spec _ 24), (Z.shiftl_spec _ 8), !Z.shiftr_spec, !Z.land_spec, !mask_bit by lia.
  destruct (decide (n < 8)); [|destruct (decide (n < 16)); [|destruct (decide (n < 24)); [|destruct (decide (n < 32))]]];
    decide_cmp; simpl; by rewrite ?andb_false_r, ?andb_true_r, ?orb_false_r, ?orb_false_l.
Qed.

Lemma range_bits x k : 0 ≤ k → (∀ n, k ≤ n → Z.testbit x n = false) → 0 ≤ x < 2 ^ k.
Proof.
  intros Hk H. assert (Hx : x = x mod 2 ^ k).
  { apply Z.bits_inj'. intros n Hn. destruct (decide (n < k)); [by rewrite Z.mod_pow2_bits_low|]. rewrite Z.mod_pow2_bits_high by lia. apply H. lia. }
  rewrite Hx. apply Z.mod_pos_bound. lia.
Qed.

Lemma bits_range x k n : 0 ≤ x < 2 ^ k → 0 ≤ k ≤ n → Z.testbit x n = false.
Proof. intros Hx Hn. rewrite <- (Z.mod_small x (2 ^ k)) by done. by rewrite Z.mod_pow2_bits_high by lia. Qed.

Lemma swab_range x : is_u32 (swab32 x).
Proof. apply range_bits; [lia|]. intros n Hn. rewrite swab_bits by lia. by decide_cmp. Qed.

Lemma swab_invol x : is_u32 x → swab32 (swab32 x) = x.
Proof.
  intros Hx. apply bits_eq32; [apply swab_range|done|]. intros n Hn. rewrite swab_bits by lia.
  destruct (decide (n < 8)); [|destruct (decide (n < 16)); [|destruct (decide (n < 24))]]; decide_cmp; rewrite swab_bits by lia; decide_cmp; f_equal; lia.
Qed.

Lemma swab_lin x y : swab32 (Z.lxor x y) = Z.lxor (swab32 x) (swab32 y).
Proof.
  apply Z.bits_inj'. intros n Hn. rewrite Z.lxor_spec, !swab_bits by lia.
  destruct (n <? 8); [apply Z.lxor_spec|]. destruct (n <? 16); [apply Z.lxor_spec|]. destruct (n <? 24); [apply Z.lxor_spec|].
  destruct (n <? 32); [apply Z.lxor_spec|done].
Qed.

Lemma swab_byte x : is_byte x → swab32 x = Z.shiftl x 24.
Proof.
  intros Hx. apply Z.bits_inj'. intros n Hn. rewrite swab_bits, Z.shiftl_spec by lia.
  destruct (decide (n < 8)); [|destruct (decide (n < 16)); [|destruct (decide (n < 24)); [|destruct (decide (n < 32))]]]; decide_cmp;
    rewrite ?(bits_range x 8) by lia; try done; by rewrite Z.testbit_neg_r by lia.
Qed.

Lemma swab_shift y : 0 ≤ y < 2 ^ 24 → 256 * swab32 (256 * y) = swab32 y.
Proof.
  intros Hy. change 256 with (2 ^ 8). rewrite !(Z.mul_comm (2 ^ 8)), <- !Z.shiftl_mul_pow2 by lia.
  apply Z.bits_inj'. intros n Hn. rewrite Z.shiftl_spec by lia. destruct (decide (n < 8)).
  - rewrite Z.testbit_neg_r, swab_bits by lia. decide_cmp. by rewrite (bits_range y 24) by lia.
  - rewrite !swab_bits by lia. destruct (decide (n < 16)); [|destruct (decide (n < 24)); [|destruct (decide (n < 32)); [|destruct (decide (n < 40))]]]; decide_cmp;
      rewrite ?Z.shiftl_spec by lia; try done; try (f_equal; lia). by rewrite Z.testbit_neg_r by lia.
Qed.

Lemma ctrue_top x : ctrue (Z.land x 0x80000000) = Z.testbit x 31.
Proof.
  unfold ctrue. change 0x80000000 with (2 ^ 31). destruct (Z.testbit x 31) eqn:Hb.
  - destruct (Z.eqb_spec (Z.land x (2 ^ 31)) 0) as [H|]; [|done]. exfalso. assert (Hc : Z.testbit (Z.land x (2 ^ 31)) 31 = false) by (by rewrite H).
    rewrite Z.land_spec, Hb in Hc. done.
  - assert (H : Z.land x (2 ^ 31) = 0).
    { apply Z.bits_inj'. intros n Hn. rewrite Z.land_spec, Z.bits_0. destruct (decide (n = 31)) as [->|Hd]; [by rewrite Hb|].
      by rewrite Z.pow2_bits_false, andb_false_r. }
    by rewrite H.
Qed.

Lemma u32_lxor x y : u32 (Z.lxor x y) = Z.lxor (u32 x) (u32 y).
Proof.
  unfold u32. apply Z.bits_inj'. intros n Hn. rewrite Z.lxor_spec. destruct (decide (n < 32)).
  - by rewrite !Z.mod_pow2_bits_low, Z.lxor_spec.
  - by rewrite !Z.mod_pow2_bits_high by lia.
Qed.

Lemma u32_word x : is_u32 (u32 x).
Proof. apply Z.mod_pos_bound. lia. Qed.

Lemma bit_be_lin P a b : bit_be P (Z.lxor a b) = Z.lxor (bit_be P a) (bit_be P b).
Proof.
  unfold bit_be. rewrite !ctrue_top, Z.shiftl_lxor, u32_lxor, Z.lxor_spec. apply Z.bits_inj'. intros k Hk. rewrite !Z.lxor_spec.
  destruct (Z.testbit a 31), (Z.testbit b 31); simpl; rewrite ?Z.bits_0;
    destruct (Z.testbit (u32 (Z.shiftl a 1)) k), (Z.testbit (u32 (Z.shiftl b 1)) k), (Z.testbit P k); done.
Qed.

Lemma bit_be_range P x : is_u32 P → is_u32 (bit_be P x).
Proof. intros HP. unfold bit_be. apply lxor_range; [lia|apply u32_word|destruct (ctrue _); lia]. Qed.

Lemma bit_be_shift P y : 0 ≤ y < 2 ^ 31 → bit_be P y = 2 * y.
Proof.
  intros Hy. unfold bit_be. rewrite ctrue_top, (bits_range y 31) by lia. rewrite Z.lxor_0_r, Z.shiftl_mul_pow2 by lia. unfold u32.
  rewrite Z.mod_small by lia. lia.
Qed.

Lemma bits_be_lin n P a b : Nat.iter n (bit_be P) (Z.lxor a b) = Z.lxor (Nat.iter n (bit_be P) a) (Nat.iter n (bit_be P) b).
Proof. induction n as [|n IH]; simpl; [done|]. by rewrite IH, bit_be_lin. Qed.

Lemma bits_be_shift n P y : (n ≤ 32)%nat → 0 ≤ y < 2 ^ (32 - Z.of_nat n) → Nat.iter n (bit_be P) y = Z.shiftl y (Z.of_nat n).
Proof.
  intros Hn Hy. induction n as [|n IH]; [by rewrite Z.shiftl_0_r|]. simpl.
  assert (H2 : 2 ^ (32 - Z.of_nat n) = 2 * 2 ^ (32 - Z.of_nat (S n))) by (rewrite <- Z.pow_succ_r by lia; f_equal; lia).
  rewrite IH by lia. rewrite !Z.shiftl_mul_pow2 by lia.
  assert (H3 : 2 ^ Z.of_nat (S n) = 2 * 2 ^ Z.of_nat n) by (rewrite <- Z.pow_succ_r by lia; f_equal; lia).
  assert (H31 : 2 ^ 31 = 2 ^ (32 - Z.of_nat (S n)) * 2 ^ Z.of_nat n) by (rewrite <- Z.pow_add_r by lia; f_equal; lia).
  rewrite bit_be_shift; [lia|]. pose proof (Z.pow_pos_nonneg 2 (Z.of_nat n)). nia.
Qed.

Lemma bits_be_split n P x : (n ≤ 32)%nat → is_u32 x →
  Nat.iter n (bit_be P) x = Z.lxor (u32 (Z.shiftl x (Z.of_nat n))) (Nat.iter n (bit_be P) (Z.shiftl (Z.shiftr x (32 - Z.of_nat n)) (32 - Z.of_nat n))).
Proof.
  intros Hn Hx. rewrite (low_high (32 - Z.of_nat n) x) at 1 by lia. rewrite bits_be_lin. f_equal.
  rewrite Z.land_ones by lia. rewrite bits_be_shift by (done || apply Z.mod_pos_bound; lia).
  unfold u32. rewrite !Z.shiftl_mul_pow2 by lia. replace (2 ^ 32) with (2 ^ (32 - Z.of_nat n) * 2 ^ Z.of_nat n) by (rewrite <- Z.pow_add_r by lia; f_equal; lia).
  by rewrite Z.mul_mod_distr_r by lia.
Qed.

(** A byte at a time, on words with their bytes swapped. *)
Definition byte_be (P x : Z) : Z := swab32 (Nat.iter 8 (bit_be P) (swab32 x)).

Lemma byte_be_step P : is_u32 P → ByteStep (byte_be P).
Proof.
  intros HP. split; unfold byte_be.
  - intros x _. apply swab_range.
  - intros x y _ _. by rewrite swab_lin, bits_be_lin, swab_lin.
  - intros y Hy. pose proof (swab_shift y Hy) as Hs. pose proof (swab_range y) as Hr. pose proof (swab_range (256 * y)) as Hr2.
    rewrite bits_be_shift; [|lia|change (2 ^ (32 - Z.of_nat 8)) with (2 ^ 24); lia]. rewrite Z.shiftl_mul_pow2 by lia. change (2 ^ Z.of_nat 8) with 256.
    rewrite Z.mul_comm, Hs. apply swab_invol. lia.
Qed.

Lemma table_be_rows bits : bits ∈ [32; 64] → table_for (byte_be CRCPOLY_BE) (Z.of_nat (stride bits)) (crc32table_be bits).
Proof. intros Hb. apply rows_ok_table. each_of Hb; vm_compute; reflexivity. Qed.

Lemma table_be_bits bits i : bits ∈ [2; 4; 8] → 0 ≤ i < 2 ^ bits →
  tab_get (crc32table_be bits) 0 i = Nat.iter (Z.to_nat bits) (bit_be CRCPOLY_BE) (Z.shiftl i (32 - bits)).
Proof. intros Hb. apply (row_ok_get (λ i, Nat.iter (Z.to_nat bits) (bit_be CRCPOLY_BE) (Z.shiftl i (32 - bits)))). each_of Hb; vm_compute; reflexivity. Qed.

#[local] Opaque crc32table_be.

Lemma lookup_be bits crc : bits ∈ [2; 4; 8] → is_u32 crc →
  Z.lxor (u32 (Z.shiftl crc bits)) (tab_get (crc32table_be bits) 0 (Z.shiftr crc (32 - bits))) = Nat.iter (Z.to_nat bits) (bit_be CRCPOLY_BE) crc.
Proof.
  intros Hb Hc. assert (Hr : 0 ≤ bits ≤ 8) by (clear - Hb; each_of Hb; lia).
  rewrite table_be_bits by (done || apply shiftr_range; lia). rewrite (bits_be_split (Z.to_nat bits) _ crc) by (done || lia). by rewrite Z2Nat.id by lia.
Qed.

(** Loops over words in range. *)
Lemma iter_same_in {A} (I : A → Prop) (f g : A → A) n x : I x → (∀ y, I y → f y = g y) → (∀ y, I y → I (g y)) → Nat.iter n f x = Nat.iter n g x ∧ I (Nat.iter n g x).
Proof. intros Hx Hfg HI. induction n as [|n [IH1 IH2]]; simpl; [done|]. rewrite IH1, Hfg by done. split; [done|by apply HI]. Qed.

Lemma foldl_same_in {A B} (I : A → Prop) (J : B → Prop) (f g : A → B → A) a l :
  I a → Forall J l → (∀ x y, I x → J y → f x y = g x y ∧ I (g x y)) → foldl f a l = foldl g a l.
Proof.
  intros Ha Hl H. revert a Ha. induction Hl as [|b l Hb _ IH]; intros a Ha; simpl; [done|]. destruct (H a b Ha Hb) as [-> HI]. by apply IH.
Qed.

Lemma bits_be_range n P x : is_u32 P → is_u32 x → is_u32 (Nat.iter n (bit_be P) x).
Proof. intros HP Hx. destruct n as [|n]; simpl; [done|by apply bit_be_range]. Qed.

(** The reference: one bit at a time. *)
Definition bits_be (crc : Z) (p : list Z) : Z := foldl (λ crc x, Nat.iter 8 (bit_be CRCPOLY_BE) (Z.lxor crc (Z.shiftl x 24))) crc p.

Lemma crc32_be_cases tab addr crc p :
  crc32_be_generic 1 tab CRCPOLY_BE addr crc p = bits_be crc p ∧
  (∀ k n, (k, n) ∈ some_bits → crc32_be_generic k tab CRCPOLY_BE addr crc p =
    foldl (λ crc x, Nat.iter n (λ crc, Z.lxor (u32 (Z.shiftl crc k)) (tab_get tab 0 (Z.shiftr crc (32 - k)))) (Z.lxor crc (Z.shiftl x 24))) crc p) ∧
  (∀ k, k ∈ [32; 64] → crc32_be_generic k tab CRCPOLY_BE addr crc p = swab32 (crc32_body k tab addr (swab32 crc) p)).
Proof. split; [reflexivity|]. split; [intros k n H|intros k H]; each_of H; reflexivity. Qed.

Lemma CRCPOLY_BE_u32 : is_u32 CRCPOLY_BE.
Proof. by vm_compute. Qed.

Lemma be_word crc x : is_u32 crc → is_byte x → is_u32 (Z.lxor crc (Z.shiftl x 24)).
Proof. intros Hc Hx. apply lxor_range; [lia|done|]. rewrite Z.shiftl_mul_pow2 by lia. lia. Qed.

Lemma crc32_be_some k n addr crc p : (k, n) ∈ some_bits → is_u32 crc → Forall (λ b, is_byte b) p →
  crc32_be_generic k (crc32table_be k) CRCPOLY_BE addr crc p = bits_be crc p.
Proof.
  intros Hk Hc Hp. destruct (some_bits_spec k n Hk) as [Hin Hn]. destruct (crc32_be_cases (crc32table_be k) addr crc p) as (_ & Hsome & _).
  rewrite (Hsome k n Hk). unfold bits_be. apply (foldl_same_in (λ x, is_u32 x) (λ b, is_byte b)); [done|done|]. intros c x Hc' Hx.
  pose proof (be_word c x Hc' Hx) as Hw. split; [|by apply bits_be_range; [apply CRCPOLY_BE_u32|]].
  destruct (iter_same_in (λ y, is_u32 y) (λ crc, Z.lxor (u32 (Z.shiftl crc k)) (tab_get (crc32table_be k) 0 (Z.shiftr crc (32 - k))))
    (Nat.iter (Z.to_nat k) (bit_be CRCPOLY_BE)) n (Z.lxor c (Z.shiftl x 24)) Hw) as [-> _].
  - intros y Hy. by apply lookup_be.
  - intros y Hy. by apply bits_be_range; [apply CRCPOLY_BE_u32|].
  - by rewrite iter_iter, Hn.
Qed.

Lemma bytes_cons F crc x p : bytes_by F crc (x :: p) = bytes_by F (F (Z.lxor crc x)) p.
Proof. reflexivity. Qed.

Lemma bits_be_cons crc x p : bits_be crc (x :: p) = bits_be (Nat.iter 8 (bit_be CRCPOLY_BE) (Z.lxor crc (Z.shiftl x 24))) p.
Proof. reflexivity. Qed.

Lemma byte_be_swab P crc x : is_u32 crc → is_byte x → byte_be P (Z.lxor (swab32 crc) x) = swab32 (Nat.iter 8 (bit_be P) (Z.lxor crc (Z.shiftl x 24))).
Proof. intros Hc Hx. unfold byte_be. rewrite (swab_lin (swab32 crc) x), (swab_invol crc Hc), (swab_byte x Hx). reflexivity. Qed.

(** Swapping the bytes of all words changes nothing. *)
Lemma bytes_be crc p : is_u32 crc → Forall (λ b, is_byte b) p → swab32 (bytes_by (byte_be CRCPOLY_BE) (swab32 crc) p) = bits_be crc p.
Proof.
  intros Hc Hp. revert crc Hc. induction Hp as [|x p Hx _ IH]; intros crc Hc; [by apply swab_invol|].
  rewrite bytes_cons, bits_be_cons, byte_be_swab by done. apply IH, bits_be_range; [apply CRCPOLY_BE_u32|by apply be_word].
Qed.

Lemma crc32_be_generic_ok bits addr crc p :
  bits ∈ [1; 2; 4; 8; 32; 64] → is_u32 crc → Forall (λ b, is_byte b) p → crc32_be_generic bits (crc32table_be bits) CRCPOLY_BE addr crc p = bits_be crc p.
Proof.
  intros Hb Hc Hp. destruct (bits_cases bits Hb) as [->|[[n Hn]|Hb']]; [|by eapply crc32_be_some|].
  - by destruct (crc32_be_cases (crc32table_be 1) addr crc p) as (-> & _ & _).
  - destruct (crc32_be_cases (crc32table_be bits) addr crc p) as (_ & _ & Hbody). rewrite (Hbody bits Hb').
    rewrite <- (bytes_be crc p) by done. f_equal. eapply crc32_body_ok; [apply byte_be_step, CRCPOLY_BE_u32|by apply table_be_rows|done|apply swab_range|done].
Qed.

(** ** What the checksum tells *)

Lemma testbit_top P x : is_u32 x → Z.testbit P 31 = true → Z.testbit (bit_le P x) 31 = Z.odd x.
Proof.
  intros Hx HP. unfold bit_le. rewrite ctrue_odd, Z.lxor_spec, Z.shiftr_spec, (bits_range x 32) by lia. destruct (Z.odd x); [done|apply Z.bits_0].
Qed.

(** No bit is lost: the one shifted out can be told from the highest one. *)
Lemma bit_le_inj P x y : is_u32 P → Z.testbit P 31 = true → is_u32 x → is_u32 y → bit_le P x = bit_le P y → x = y.
Proof.
  intros HP Htop Hx Hy He. assert (Ho : Z.odd x = Z.odd y) by (rewrite <- !(testbit_top P) by done; by rewrite He).
  unfold bit_le in He. rewrite !ctrue_odd, Ho in He. set (k := if Z.odd y then P else 0) in He.
  assert (Hs : Z.shiftr x 1 = Z.shiftr y 1).
  { rewrite <- (Z.lxor_0_r (Z.shiftr x 1)), <- (Z.lxor_0_r (Z.shiftr y 1)), <- (Z.lxor_nilpotent k), <- !Z.lxor_assoc. by rewrite He. }
  rewrite (Z.div2_odd x), (Z.div2_odd y), Ho, !Z.div2_spec, Hs. done.
Qed.

Lemma bits_le_inj n P x y : is_u32 P → Z.testbit P 31 = true → is_u32 x → is_u32 y → Nat.iter n (bit_le P) x = Nat.iter n (bit_le P) y → x = y.
Proof.
  intros HP Htop. revert x y. induction n as [|n IH]; intros x y Hx Hy; [done|]. rewrite !Nat.iter_succ_r. intros He.
  apply IH in He; [by apply (bit_le_inj P)|by apply bit_le_range|by apply bit_le_range].
Qed.

Lemma iter_byte n P x : Nat.iter n (byte_le P) x = Nat.iter (n * 8) (bit_le P) x.
Proof. unfold byte_le. apply iter_iter. Qed.

Lemma byte_le_inj P x y : is_u32 P → Z.testbit P 31 = true → is_u32 x → is_u32 y → byte_le P x = byte_le P y → x = y.
Proof. intros HP Htop Hx Hy. unfold byte_le. by apply bits_le_inj. Qed.

Section detection.
Context (P : Z) (HP : is_u32 P) (Htop : Z.testbit P 31 = true) {HS : ByteStep (byte_le P)}.

Lemma bytes_inj_seed p a b : is_u32 a → is_u32 b → Forall (λ b, is_byte b) p → bytes_by (byte_le P) a p = bytes_by (byte_le P) b p → a = b.
Proof.
  intros Ha Hb Hp. revert a b Ha Hb. induction Hp as [|x p Hx _ IH]; intros a b Ha Hb; [done|]. rewrite !bytes_cons. intros He.
  assert (Hax : is_u32 (Z.lxor a x)) by (apply lxor_range; lia). assert (Hbx : is_u32 (Z.lxor b x)) by (apply lxor_range; lia).
  apply IH in He; [|by apply (bs_range (F := byte_le P))|by apply (bs_range (F := byte_le P))]. apply (byte_le_inj P) in He; [|done|done|done|done].
  rewrite <- (Z.lxor_0_r a), <- (Z.lxor_0_r b), <- (Z.lxor_nilpotent x), <- !Z.lxor_assoc. by rewrite He.
Qed.

Lemma word_of_inj w v : length w = length v → Forall (λ b, is_byte b) w → Forall (λ b, is_byte b) v → word_of w = word_of v → w = v.
Proof.
  intros Hl Hw. revert v Hl. induction Hw as [|b w Hb Hw IH]; intros [|c v] Hl Hv; try done. apply Forall_cons in Hv as [Hc Hv].
  rewrite !word_of_plus by done. intros He. change (2 ^ 8) with 256 in *. assert (b = c) as -> by lia. f_equal. apply IH; [by injection Hl|done|lia].
Qed.

Lemma bytes_inj_word crc w v : is_u32 crc → length w = length v → (length w ≤ 4)%nat → Forall (λ b, is_byte b) w → Forall (λ b, is_byte b) v →
  bytes_by (byte_le P) crc w = bytes_by (byte_le P) crc v → w = v.
Proof.
  intros Hc Hl H4 Hw Hv He. assert (Huw : is_u32 (word_of w)) by (by apply word_of_u32). assert (Huv : is_u32 (word_of v)) by (apply word_of_u32; [done|lia]).
  rewrite !(bytes_word (byte_le P)) in He by (done || lia). rewrite <- Hl, !iter_byte in He.
  apply bits_le_inj in He; [|done|done|apply lxor_range; lia|apply lxor_range; lia].
  apply word_of_inj; try done. rewrite <- (Z.lxor_0_l (word_of w)), <- (Z.lxor_0_l (word_of v)), <- (Z.lxor_nilpotent crc), !Z.lxor_assoc. by rewrite He.
Qed.

Lemma le32_word x : is_u32 x → Forall (λ b, is_byte b) (le32 x) ∧ word_of (le32 x) = x.
Proof.
  intros Hx. assert (HF : Forall (λ b, is_byte b) (le32 x)) by (unfold le32; repeat constructor; change (2 ^ 8) with 256; try apply Z.mod_pos_bound; lia).
  split; [done|]. unfold le32 in *. apply Forall_cons in HF as [H0 HF]. apply Forall_cons in HF as [H1 HF]. apply Forall_cons in HF as [H2 HF].
  apply Forall_cons in HF as [H3 _]. rewrite !word_of_plus by done. simpl word_of. Z.to_euclidean_division_equations. lia.
Qed.

Lemma iter_zero n : Nat.iter n (bit_le P) 0 = 0.
Proof. induction n as [|n IH]; simpl; [done|]. by rewrite IH. Qed.

Lemma bytes_residue crc w : is_u32 crc → length w = 4%nat → Forall (λ b, is_byte b) w → (bytes_by (byte_le P) crc w = 0 ↔ w = le32 crc).
Proof.
  intros Hc Hl Hw. destruct (le32_word crc Hc) as [HF Hword].
  assert (Hz : bytes_by (byte_le P) crc (le32 crc) = 0).
  { rewrite (bytes_word (byte_le P)) by (done || simpl; lia). rewrite Hword, Z.lxor_nilpotent, iter_byte. apply iter_zero. }
  split; [|by intros ->]. intros He. apply (bytes_inj_word crc); try done; [lia|congruence].
Qed.
End detection.

Lemma poly_le_ok P : P ∈ [CRCPOLY_LE; CRC32C_POLY_LE] → is_u32 P ∧ Z.testbit P 31 = true.
Proof. intros HP. each_of HP; by vm_compute. Qed.

Lemma crc32_le_ok bits addr crc p : bits ∈ [1; 2; 4; 8; 32; 64] → is_u32 crc → Forall (λ b, is_byte b) p →
  crc32_le bits addr crc p = bytes_by (byte_le CRCPOLY_LE) crc p ∧ crc32c_le bits addr crc p = bytes_by (byte_le CRC32C_POLY_LE) crc p.
Proof. intros Hb Hc Hp. split; apply crc32_le_generic_ok; try done; in_list. Qed.

(** C40: the choice of the implementation does not matter.  One, two, four or eight
    bits, four or eight bytes at a time, with the tables that the build generates and
    for data at any address, the checksums (little endian, Castagnoli, big endian) are
    those of the loop over single bits. *)
Theorem crc32_variants_agree bits addr crc p :
  bits ∈ [1; 2; 4; 8; 32; 64] → is_u32 crc → Forall (λ b, is_byte b) p →
  crc32_le bits addr crc p = crc32_le 1 0 crc p ∧ crc32c_le bits addr crc p = crc32c_le 1 0 crc p ∧ crc32_be bits addr crc p = crc32_be 1 0 crc p.
Proof.
  intros Hb Hc Hp. assert (H1 : (1 : Z) ∈ [1; 2; 4; 8; 32; 64]) by in_list.
  destruct (crc32_le_ok bits addr crc p Hb Hc Hp) as [-> ->], (crc32_le_ok 1 0 crc p H1 Hc Hp) as [-> ->].
  unfold crc32_be. by rewrite !crc32_be_generic_ok.
Qed.

Lemma crc32_variants_agree_witness :
  crc32_le 64 3 0xffffffff check_string = crc32_le 1 0 0xffffffff check_string ∧
  crc32c_le 64 3 0xffffffff check_string = crc32c_le 1 0 0xffffffff check_string ∧
  crc32_be 64 3 0xffffffff check_string = crc32_be 1 0 0xffffffff check_string.
Proof. apply (crc32_variants_agree 64 3 0xffffffff check_string); [in_list|lia|repeat constructor; lia]. Defined.

(** a message with four bytes behind it has checksum 0 exactly if the four bytes
    are the checksum of the message, the lowest byte first. *)
Theorem crc32_residue bits addr crc p w :
  bits ∈ [1; 2; 4; 8; 32; 64] → is_u32 crc → Forall (λ b, is_byte b) p → Forall (λ b, is_byte b) w → length w = 4%nat →
  (crc32_le bits addr crc (p ++ w) = 0 ↔ w = le32 (crc32_le bits addr crc p)) ∧
  (crc32c_le bits addr crc (p ++ w) = 0 ↔ w = le32 (crc32c_le bits addr crc p)).
Proof.
  intros Hb Hc Hp Hw Hl. assert (Hpw : Forall (λ b, is_byte b) (p ++ w)) by (by apply Forall_app).
  destruct (crc32_le_ok bits addr crc _ Hb Hc Hpw) as [-> ->], (crc32_le_ok bits addr crc p Hb Hc Hp) as [-> ->]. rewrite !bytes_app.
  assert (Hres : ∀ P, P ∈ [CRCPOLY_LE; CRC32C_POLY_LE] → bytes_by (byte_le P) (bytes_by (byte_le P) crc p) w = 0 ↔ w = le32 (bytes_by (byte_le P) crc p)).
  { intros P HP. destruct (poly_le_ok P HP) as [HP1 HP2]. pose proof (byte_le_step P HP1). apply bytes_residue; try done. by apply bytes_range. }
  split; apply Hres; in_list.
Qed.

Lemma crc32_residue_witness :
  (crc32_le 64 3 0 (check_string ++ [0x2d; 0xfd; 0x2d; 0x88]) = 0 ↔ [0x2d; 0xfd; 0x2d; 0x88] = le32 (crc32_le 64 3 0 check_string)) ∧
  (crc32c_le 64 3 0 (check_string ++ [0x2d; 0xfd; 0x2d; 0x88]) = 0 ↔ [0x2d; 0xfd; 0x2d; 0x88] = le32 (crc32c_le 64 3 0 check_string)).
Proof. apply (crc32_residue 64 3 0 check_string [0x2d; 0xfd; 0x2d; 0x88]); [in_list|lia|repeat constructor; lia|repeat constructor; lia|reflexivity]. Defined.

(** two messages of the same length that differ only within four neighbouring
    bytes have different checksums, whatever comes before and after. *)
Theorem crc32_detects_bursts bits addr crc pre w v post :
  bits ∈ [1; 2; 4; 8; 32; 64] → is_u32 crc → Forall (λ b, is_byte b) (pre ++ w ++ post) → Forall (λ b, is_byte b) v →
  length w = length v → (length w ≤ 4)%nat → w ≠ v →
  crc32_le bits addr crc (pre ++ w ++ post) ≠ crc32_le bits addr crc (pre ++ v ++ post) ∧
  crc32c_le bits addr crc (pre ++ w ++ post) ≠ crc32c_le bits addr crc (pre ++ v ++ post).
Proof.
  intros Hb Hc Hall Hv Hl H4 Hne. pose proof Hall as [Hpre Hrest]%Forall_app. apply Forall_app in Hrest as [Hw Hpost].
  assert (Hall' : Forall (λ b, is_byte b) (pre ++ v ++ post)) by (by rewrite !Forall_app).
  destruct (crc32_le_ok bits addr crc _ Hb Hc Hall) as [-> ->], (crc32_le_ok bits addr crc _ Hb Hc Hall') as [-> ->]. rewrite !bytes_app.
  assert (Hdiff : ∀ P, P ∈ [CRCPOLY_LE; CRC32C_POLY_LE] →
    let F := bytes_by (byte_le P) in F (F (F crc pre) w) post ≠ F (F (F crc pre) v) post).
  { intros P HP F He. destruct (poly_le_ok P HP) as [HP1 HP2]. pose proof (byte_le_step P HP1).
    assert (Hc1 : is_u32 (F crc pre)) by (by apply bytes_range).
    apply Hne, (bytes_inj_word P HP1 HP2 (F crc pre)); try done.
    apply (bytes_inj_seed P HP1 HP2 post); try done; by apply bytes_range. }
  split; apply Hdiff; in_list.
Qed.

Lemma crc32_detects_bursts_witness :
  crc32_le 64 3 0 (check_string ++ [1; 2; 3; 4] ++ check_string) ≠ crc32_le 64 3 0 (check_string ++ [1; 2; 3; 5] ++ check_string) ∧
  crc32c_le 64 3 0 (check_string ++ [1; 2; 3; 4] ++ check_string) ≠ crc32c_le 64 3 0 (check_string ++ [1; 2; 3; 5] ++ check_string).
Proof.
  apply (crc32_detects_bursts 64 3 0 check_string [1; 2; 3; 4] [1; 2; 3; 5] check_string);
    [in_list|lia|repeat constructor; lia|repeat constructor; lia|reflexivity|simpl; lia|discriminate].
Defined.
