(* ===== verification/Resource.v ===== *)
(** The resource tree (kernel/resource.c, include/linux/ioport.h): who owns which
    range of I/O ports or of physical memory.

    Descriptors live in a store [res_mem]; a descriptor points to its parent, to
    its first child and to its next sibling, and NULL is 0.  Descriptors belong
    to the drivers (they are static or embedded in other structures) except for
    those that __request_region and __reserve_region_with_split allocate.  The
    answers of kzalloc are an argument of the functions that call it.  [None] is
    a fault: a pointer that leads to no descriptor, or a loop out of fuel.

    This file holds the code; ResourceInv.v the shape of the tree and the lemmas
    about links, ResourceOps.v the theorems. *)

From stdpp Require Import strings.
From S2P Require Import Prelude.

(** ** Descriptors *)

Definition IORESOURCE_IO : Z := 0x100.
Definition IORESOURCE_MEM : Z := 0x200.
Definition IORESOURCE_SIZEALIGN : Z := 0x40000.
Definition IORESOURCE_STARTALIGN : Z := 0x80000.
Definition IORESOURCE_MUXED : Z := 0x400000.
Definition IORESOURCE_EXCLUSIVE : Z := 0x8000000.
Definition IORESOURCE_BUSY : Z := 0x80000000.

Record resource := mk_res {
  r_start : Z; r_end : Z; r_name : option string; r_flags : Z;
  r_parent : Z; r_sibling : Z; r_child : Z }.

Notation res_mem := (gmap Z resource).

Definition w_range (s e : Z) (r : resource) : resource :=
  mk_res s e (r_name r) (r_flags r) (r_parent r) (r_sibling r) (r_child r).
Definition w_parent (v : Z) (r : resource) : resource :=
  mk_res (r_start r) (r_end r) (r_name r) (r_flags r) v (r_sibling r) (r_child r).
Definition w_sibling (v : Z) (r : resource) : resource :=
  mk_res (r_start r) (r_end r) (r_name r) (r_flags r) (r_parent r) v (r_child r).
Definition w_child (v : Z) (r : resource) : resource :=
  mk_res (r_start r) (r_end r) (r_name r) (r_flags r) (r_parent r) (r_sibling r) v.

(** [p->field = v]. *)
Definition res_upd (m : res_mem) (p : Z) (f : resource → resource) : option res_mem :=
  r ← m !! p; Some (<[p := f r]> m).

(** The place a pointer is stored in, for [struct resource **]. *)
Inductive res_link := ChildOf (p : Z) | SiblingOf (p : Z).

Definition link_read (m : res_mem) (l : res_link) : option Z :=
  match l with
  | ChildOf p => r ← m !! p; Some (r_child r)
  | SiblingOf p => r ← m !! p; Some (r_sibling r)
  end.
Definition link_write (m : res_mem) (l : res_link) (v : Z) : option res_mem :=
  match l with
  | ChildOf p => res_upd m p (w_child v)
  | SiblingOf p => res_upd m p (w_sibling v)
  end.

(** The two roots of the system, at two addresses. *)
Definition ioport_resource : Z := 4.
Definition iomem_resource : Z := 8.
Definition IO_SPACE_LIMIT : Z := 0xffffffff.

Definition resource_boot : res_mem :=
  <[ioport_resource := mk_res 0 IO_SPACE_LIMIT (Some "PCI IO") IORESOURCE_IO 0 0 0]>
  {[iomem_resource := mk_res 0 (u32 (-1)) (Some "PCI mem") IORESOURCE_MEM 0 0 0]}.

Definition resource_size (r : resource) : Z := u32 (r_end r - r_start r + 1).

(** Fuel of a walk: one turn for every descriptor, and one to see the end. *)
Definition res_fuel (m : res_mem) : nat := S (size m).
#[global] Arguments res_fuel : simpl never.

(** kzalloc and kfree.  An answer that is no free address is a failure. *)
Definition kzalloc (m : res_mem) (answer : option Z) : option Z :=
  match answer with
  | Some a => if decide (a ≠ 0 ∧ m !! a = None) then Some a else None
  | None => None
  end.
Definition kfree_res (m : res_mem) (p : Z) : res_mem := delete p m.

(** ** Requesting and releasing *)

(** [new->sibling = tmp; *p = new; new->parent = root; return NULL;] *)
Definition request_place (m : res_mem) (root new : Z) (p : res_link) (tmp : Z) : option (res_mem * Z) :=
  m ← res_upd m new (w_sibling tmp);
  m ← link_write m p new;
  m ← res_upd m new (w_parent root);
  Some (m, 0).

Fixpoint request_loop (fuel : nat) (m : res_mem) (root new start fin : Z) (p : res_link) : option (res_mem * Z) :=
  match fuel with
  | O => None
  | S fuel =>
      tmp ← link_read m p;
      if tmp =? 0 then request_place m root new p tmp
      else
        t ← m !! tmp;
        if r_start t >? fin then request_place m root new p tmp
        else if r_end t <? start then request_loop fuel m root new start fin (SiblingOf tmp)
        else Some (m, tmp)
  end.

(** The answer is the conflicting descriptor, or NULL. *)
Definition __request_resource (m : res_mem) (root new : Z) : option (res_mem * Z) :=
  n ← m !! new;
  let start := r_start n in
  let fin := r_end n in
  if fin <? start then Some (m, root)
  else
    rt ← m !! root;
    if start <? r_start rt then Some (m, root)
    else if fin >? r_end rt then Some (m, root)
    else request_loop (res_fuel m) m root new start fin (ChildOf root).

Fixpoint release_res_loop (fuel : nat) (m : res_mem) (old : Z) (p : res_link) : option (res_mem * Z) :=
  match fuel with
  | O => None
  | S fuel =>
      tmp ← link_read m p;
      if tmp =? 0 then Some (m, - EINVAL)
      else
        t ← m !! tmp;
        if tmp =? old then
          m ← link_write m p (r_sibling t);
          m ← res_upd m old (w_parent 0);
          Some (m, 0)
        else release_res_loop fuel m old (SiblingOf tmp)
  end.

Definition __release_resource (m : res_mem) (old : Z) : option (res_mem * Z) :=
  o ← m !! old;
  release_res_loop (res_fuel m) m old (ChildOf (r_parent o)).

Definition release_resource (m : res_mem) (old : Z) : option (res_mem * Z) :=
  __release_resource m old.

(** The loop of __release_child_resources, with the recursive call written out:
    it clears [tmp->child] and runs the loop over the children of [tmp]. *)
Fixpoint release_child_loop (fuel : nat) (m : res_mem) (p : Z) : option res_mem :=
  match fuel with
  | O => None
  | S fuel =>
      if p =? 0 then Some m
      else
        let tmp := p in
        t ← m !! tmp;
        let p := r_sibling t in
        m ← res_upd m tmp (w_parent 0);
        m ← res_upd m tmp (w_sibling 0);
        c ← link_read m (ChildOf tmp);
        m ← res_upd m tmp (w_child 0);
        m ← release_child_loop fuel m c;
        t ← m !! tmp;
        let size := resource_size t in
        m ← res_upd m tmp (w_range 0 (u32 (size - 1)));
        release_child_loop fuel m p
  end.

Definition __release_child_resources (m : res_mem) (r : Z) : option res_mem :=
  p ← link_read m (ChildOf r);
  m ← res_upd m r (w_child 0);
  release_child_loop (res_fuel m) m p.

Definition release_child_resources (m : res_mem) (r : Z) : option res_mem :=
  __release_child_resources m r.

Definition request_resource_conflict (m : res_mem) (root new : Z) : option (res_mem * Z) :=
  __request_resource m root new.

Definition request_resource (m : res_mem) (root new : Z) : option (res_mem * Z) :=
  '(m, conflict) ← request_resource_conflict m root new;
  Some (m, if ctrue conflict then - EBUSY else 0).

(** ** System memory *)

Fixpoint find_ram_loop (fuel : nat) (m : res_mem) (start fin flags : Z) (name : option string) (p : Z)
    : option (option resource) :=
  match fuel with
  | O => None
  | S fuel =>
      if p =? 0 then Some None
      else
        t ← m !! p;
        if negb (r_flags t =? flags) then find_ram_loop fuel m start fin flags name (r_sibling t)
        else
          skip ← (match name with
                  | None => Some false
                  | Some n => tn ← r_name t; Some (bool_decide (tn ≠ n))
                  end);
          if (skip : bool) then find_ram_loop fuel m start fin flags name (r_sibling t)
          else if r_start t >? fin then Some None
          else if (r_end t >=? start) && (r_start t <? fin) then Some (Some t)
          else find_ram_loop fuel m start fin flags name (r_sibling t)
  end.

(** [Some None] is the answer -1; otherwise [res->start] and [res->end].  The
    BUG_ON is a fault. *)
Definition find_next_system_ram (m : res_mem) (start fin flags : Z) (name : option string)
    : option (option (Z * Z)) :=
  if start >=? fin then None
  else
    child ← link_read m (ChildOf iomem_resource);
    p ← find_ram_loop (res_fuel m) m start fin flags name child;
    Some (match p with
          | None => None
          | Some t => Some (if start <? r_start t then r_start t else start,
                            if fin >? r_end t then r_end t else fin)
          end).

Section walk_ram.
Context {A : Type} (func : Z → Z → A → A * Z).

(** [func(pfn, count, arg)] may change what [arg] points to. *)
Fixpoint walk_ram_loop (fuel : nat) (m : res_mem) (start fin orig_end : Z) (arg : A) (ret : Z) : option (A * Z) :=
  match fuel with
  | O => None
  | S fuel =>
      if start <? fin then
        found ← find_next_system_ram m start fin (Z.lor IORESOURCE_MEM IORESOURCE_BUSY) (Some "System RAM");
        match found with
        | None => Some (arg, ret)
        | Some (start, fin) =>
            let pfn := Z.shiftr (u32 (start + PAGE_SIZE - 1)) PAGE_SHIFT in
            let end_pfn := Z.shiftr (u32 (fin + 1)) PAGE_SHIFT in
            let '(arg, ret) := if end_pfn >? pfn then func pfn (end_pfn - pfn) arg else (arg, ret) in
            if ctrue ret then Some (arg, ret)
            else walk_ram_loop fuel m (u32 (fin + 1)) (u32 orig_end) orig_end arg ret
        end
      else Some (arg, ret)
  end.

Definition walk_system_ram_range (m : res_mem) (start_pfn nr_pages : Z) (arg : A) : option (A * Z) :=
  let start := u32 (Z.shiftl start_pfn PAGE_SHIFT) in
  let fin := u32 (Z.shiftl (u32 (start_pfn + nr_pages)) PAGE_SHIFT - 1) in
  walk_ram_loop (res_fuel m) m start fin fin arg (-1).
End walk_ram.

Definition __is_ram (pfn nr_pages : Z) (arg : unit) : unit * Z := (arg, 1).

Definition page_is_ram (m : res_mem) (pfn : Z) : option bool :=
  '(_, ret) ← walk_system_ram_range __is_ram m pfn 1 ();
  Some (ret =? 1).

(** ** Finding room *)

Definition ALIGN (x a : Z) : Z :=
  let mask := u32 (a - 1) in Z.land (u32 (x + mask)) (u32 (Z.lnot mask)).

(** [alignf(alignf_data, &tmp, size, align)]. *)
Definition alignf_t := resource → Z → Z → Z.

Section find_resource.
Context (size min max align : Z) (alignf : option alignf_t).

(** One turn of the loop: the start that is tried in the gap from [start] to [fin]. *)
Definition find_start (new : resource) (start fin : Z) : Z * Z :=
  let start := if start <? min then min else start in
  let fin := if fin >? max then max else fin in
  let start := ALIGN start align in
  (match alignf with
   | Some f => u32 (f (w_range start fin new) size align)
   | None => start
   end, fin).

Fixpoint find_loop (fuel : nat) (m : res_mem) (root new : resource) (start this : Z) : option (option (Z * Z)) :=
  match fuel with
  | O => None
  | S fuel =>
      t ← (if ctrue this then t ← m !! this; Some (Some t) else Some None);
      let fin := match t with Some t => u32 (r_start t - 1) | None => r_end root end in
      let '(start, fin) := find_start new start fin in
      if (start <? fin) && (u32 (fin - start) >=? u32 (size - 1)) then
        Some (Some (start, u32 (start + size - 1)))
      else
        match t with
        | None => Some None
        | Some t => find_loop fuel m root new (u32 (r_end t + 1)) (r_sibling t)
        end
  end.

Definition find_resource (m : res_mem) (root new : Z) : option (res_mem * Z) :=
  rt ← m !! root;
  n ← m !! new;
  let this := r_child rt in
  '(start, this) ← (if ctrue this then
                      t ← m !! this;
                      Some (if r_start t =? 0 then (u32 (r_end t + 1), r_sibling t) else (r_start rt, this))
                    else Some (r_start rt, this));
  found ← find_loop (res_fuel m) m rt n start this;
  match found with
  | Some (s, e) => m ← res_upd m new (w_range s e); Some (m, 0)
  | None => Some (m, - EBUSY)
  end.

Definition allocate_resource (m : res_mem) (root new : Z) : option (res_mem * Z) :=
  '(m, err) ← find_resource m root new;
  if err >=? 0 then
    '(m, conflict) ← __request_resource m root new;
    Some (m, if ctrue conflict then - EBUSY else err)
  else Some (m, err).
End find_resource.

(** ** Inserting between existing resources *)

(** The first loop of __insert_resource: down to the place where [new] belongs.
    [inl] is the answer of the function, [inr] the parent and the first conflict. *)
Fixpoint insert_descend (fuel : nat) (m : res_mem) (parent new : Z) : option (res_mem * (Z + Z * Z)) :=
  match fuel with
  | O => None
  | S fuel =>
      '(m, first) ← __request_resource m parent new;
      if first =? 0 then Some (m, inl first)
      else if first =? parent then Some (m, inl first)
      else
        f ← m !! first;
        n ← m !! new;
        if (r_start f >? r_start n) || (r_end f <? r_end n) then Some (m, inr (parent, first))
        else if (r_start f =? r_start n) && (r_end f =? r_end n) then Some (m, inr (parent, first))
        else insert_descend fuel m first new
  end.

(** The second loop: over the conflicts; [inl] a partial overlap, [inr] the last one. *)
Fixpoint insert_span (fuel : nat) (m : res_mem) (n : resource) (next : Z) : option (Z + Z) :=
  match fuel with
  | O => None
  | S fuel =>
      x ← m !! next;
      if (r_start x <? r_start n) || (r_end x >? r_end n) then Some (inl next)
      else if r_sibling x =? 0 then Some (inr next)
      else
        y ← m !! r_sibling x;
        if r_start y >? r_end n then Some (inr next)
        else insert_span fuel m n (r_sibling x)
  end.

(** [for (next = first; next; next = next->sibling) next->parent = new;] *)
Fixpoint set_parents (fuel : nat) (m : res_mem) (next new : Z) : option res_mem :=
  match fuel with
  | O => None
  | S fuel =>
      if next =? 0 then Some m
      else
        m ← res_upd m next (w_parent new);
        x ← m !! next;
        set_parents fuel m (r_sibling x) new
  end.

(** [while (next->sibling != first) next = next->sibling;] *)
Fixpoint find_previous (fuel : nat) (m : res_mem) (next first : Z) : option Z :=
  match fuel with
  | O => None
  | S fuel =>
      x ← m !! next;
      if r_sibling x =? first then Some next else find_previous fuel m (r_sibling x) first
  end.

(** The last part of __insert_resource: [new] takes the place of the children of
    [parent] from [first] to [next] and becomes their parent. *)
Definition insert_splice (m : res_mem) (parent new first next : Z) : option res_mem :=
  m ← res_upd m new (w_parent parent);
  x ← m !! next;
  m ← res_upd m new (w_sibling (r_sibling x));
  m ← res_upd m new (w_child first);
  m ← res_upd m next (w_sibling 0);
  m ← set_parents (res_fuel m) m first new;
  pa ← m !! parent;
  if r_child pa =? first then res_upd m parent (w_child new)
  else
    prev ← find_previous (res_fuel m) m (r_child pa) first;
    res_upd m prev (w_sibling new).

Definition __insert_resource (m : res_mem) (parent new : Z) : option (res_mem * Z) :=
  '(m, found) ← insert_descend (res_fuel m) m parent new;
  match found with
  | inl first => Some (m, first)
  | inr (parent, first) =>
      n ← m !! new;
      sp ← insert_span (res_fuel m) m n first;
      match sp with
      | inl conflict => Some (m, conflict)
      | inr next => m ← insert_splice m parent new first next; Some (m, 0)
      end
  end.

Definition insert_resource_conflict (m : res_mem) (parent new : Z) : option (res_mem * Z) :=
  __insert_resource m parent new.

Definition insert_resource (m : res_mem) (parent new : Z) : option (res_mem * Z) :=
  '(m, conflict) ← insert_resource_conflict m parent new;
  Some (m, if ctrue conflict then - EBUSY else 0).

Fixpoint expand_loop (fuel : nat) (m : res_mem) (root new : Z) : option res_mem :=
  match fuel with
  | O => None
  | S fuel =>
      '(m, conflict) ← __insert_resource m root new;
      if conflict =? 0 then Some m
      else if conflict =? root then Some m
      else
        c ← m !! conflict;
        n ← m !! new;
        let start := if r_start c <? r_start n then r_start c else r_start n in
        let fin := if r_end c >? r_end n then r_end c else r_end n in
        m ← res_upd m new (w_range start fin);
        expand_loop fuel m root new
  end.

(** Every turn but the last moves an end of [new] to that of another descriptor. *)
Definition insert_resource_expand_to_fit (m : res_mem) (root new : Z) : option res_mem :=
  n ← m !! new;
  if ctrue (r_parent n) then Some m
  else expand_loop (S (2 * size m)) m root new.

(** ** Changing a resource *)

(** [for (tmp = res->child; tmp; ...)]: every child inside of the new range. *)
Fixpoint children_inside (fuel : nat) (m : res_mem) (start fin tmp : Z) : option bool :=
  match fuel with
  | O => None
  | S fuel =>
      if tmp =? 0 then Some true
      else
        t ← m !! tmp;
        if (r_start t <? start) || (r_end t >? fin) then Some false
        else children_inside fuel m start fin (r_sibling t)
  end.

Definition adjust_resource (m : res_mem) (res start size : Z) : option (res_mem * Z) :=
  r ← m !! res;
  let parent := r_parent r in
  let fin := u32 (start + size - 1) in
  let out := Some (m, - EBUSY) in
  pa ← m !! parent;
  if (start <? r_start pa) || (fin >? r_end pa) then out
  else
    inside ← children_inside (res_fuel m) m start fin (r_child r);
    if negb inside then out
    else
      blocked ← (if ctrue (r_sibling r) then s ← m !! r_sibling r; Some (r_start s <=? fin) else Some false);
      if (blocked : bool) then out
      else
        let tmp := r_child pa in
        blocked ← (if tmp =? res then Some false
                   else
                     prev ← find_previous (res_fuel m) m tmp res;
                     t ← m !! prev;
                     Some (start <=? r_end t));
        if (blocked : bool) then out
        else
          m ← res_upd m res (w_range start fin);
          Some (m, 0).

(** The answers of kzalloc are taken from a list, one for each call; with the
    memory comes what is left of it. *)
Fixpoint reserve_split (fuel : nat) (m : res_mem) (root start fin : Z) (name : string) (answers : list (option Z))
    : option (res_mem * list (option Z)) :=
  match fuel with
  | O => None
  | S fuel =>
      match kzalloc m (default None (head answers)) with
      | None => Some (m, tail answers)
      | Some res =>
          let answers := tail answers in
          let m' := <[res := mk_res start fin (Some name) IORESOURCE_BUSY 0 0 0]> m in
          '(m', conflict) ← __request_resource m' root res;
          if conflict =? 0 then Some (m', answers)
          else
            let m := kfree_res m' res in
            c ← m !! conflict;
            if (r_start c <=? start) && (r_end c >=? fin) then Some (m, answers)
            else
              '(m, answers) ← (if r_start c >? start
                               then reserve_split fuel m root start (u32 (r_start c - 1)) name answers
                               else Some (m, answers));
              c ← m !! conflict;
              if r_end c <? fin then reserve_split fuel m root (u32 (r_end c + 1)) fin name answers
              else Some (m, answers)
      end
  end.

Definition reserve_region_with_split (m : res_mem) (root start fin : Z) (name : string) (answers : list (option Z))
    : option res_mem :=
  '(m, _) ← reserve_split (res_fuel m) m root start fin name answers;
  Some m.

Definition resource_alignment (r : resource) : Z :=
  let f := Z.land (r_flags r) (Z.lor IORESOURCE_SIZEALIGN IORESOURCE_STARTALIGN) in
  if f =? IORESOURCE_SIZEALIGN then resource_size r
  else if f =? IORESOURCE_STARTALIGN then r_start r
  else 0.

(** ** Busy regions *)

Definition is_busy (r : resource) : bool := ctrue (Z.land (r_flags r) IORESOURCE_BUSY).

(** How the section under the lock of __request_region ends: with the region,
    without it, or asleep on muxed_resource_wait with this value of [parent]. *)
Inductive region_end := Granted (res : Z) | Refused | Asleep (parent res : Z).

Fixpoint region_loop (fuel : nat) (m : res_mem) (parent res flags : Z) : option (res_mem * region_end) :=
  match fuel with
  | O => None
  | S fuel =>
      '(m, conflict) ← __request_resource m parent res;
      if conflict =? 0 then Some (m, Granted res)
      else
        c ← m !! conflict;
        if negb (conflict =? parent) && negb (is_busy c) then region_loop fuel m conflict res flags
        else if ctrue (Z.land (Z.land (r_flags c) flags) IORESOURCE_MUXED) then Some (m, Asleep conflict res)
        else Some (kfree_res m res, Refused)
  end.

Definition __request_region (m : res_mem) (answer : option Z) (parent start n : Z) (name : string) (flags : Z)
    : option (res_mem * region_end) :=
  match kzalloc m answer with
  | None => Some (m, Refused)
  | Some res =>
      let m := <[res := mk_res start (u32 (start + n - 1)) (Some name) (Z.lor IORESOURCE_BUSY flags) 0 0 0]> m in
      region_loop (res_fuel m) m parent res flags
  end.

(** The section after the sleep. *)
Definition request_region_wake (m : res_mem) (parent res flags : Z) : option (res_mem * region_end) :=
  region_loop (res_fuel m) m parent res flags.

Definition __check_region (m : res_mem) (answer : option Z) (parent start n : Z) : option (res_mem * Z) :=
  '(m, e) ← __request_region m answer parent start n "check-region" 0;
  match e with
  | Granted res =>
      '(m, _) ← release_resource m res;
      Some (kfree_res m res, 0)
  | _ => Some (m, - EBUSY)
  end.

(** With the memory: the region that was freed (0 for the warning) and whether the
    waiting tasks are woken up.  The loop goes along siblings and down. *)
Fixpoint release_region_loop (fuel : nat) (m : res_mem) (start fin : Z) (p : res_link) : option (res_mem * Z * bool) :=
  match fuel with
  | O => None
  | S fuel =>
      res ← link_read m p;
      if res =? 0 then Some (m, 0, false)
      else
        r ← m !! res;
        if (r_start r <=? start) && (r_end r >=? fin) then
          if negb (is_busy r) then release_region_loop fuel m start fin (ChildOf res)
          else if negb (r_start r =? start) || negb (r_end r =? fin) then Some (m, 0, false)
          else
            m ← link_write m p (r_sibling r);
            Some (kfree_res m res, res, ctrue (Z.land (r_flags r) IORESOURCE_MUXED))
        else release_region_loop fuel m start fin (SiblingOf res)
  end.

Definition __release_region (m : res_mem) (parent start n : Z) : option (res_mem * Z * bool) :=
  let fin := u32 (start + n - 1) in
  release_region_loop (res_fuel m * res_fuel m) m start fin (ChildOf parent).

(** ** Walking over the tree *)

(** [while (!p->sibling && p->parent) p = p->parent; return p->sibling;] *)
Fixpoint r_up (fuel : nat) (m : res_mem) (p : Z) : option Z :=
  match fuel with
  | O => None
  | S fuel =>
      r ← m !! p;
      if (r_sibling r =? 0) && ctrue (r_parent r) then r_up fuel m (r_parent r)
      else Some (r_sibling r)
  end.

Definition r_next (m : res_mem) (p : Z) : option Z :=
  r ← m !! p;
  if ctrue (r_child r) then Some (r_child r) else r_up (res_fuel m) m p.

(** [for (p = p->child; p && l < *pos; p = r_next(m, p, &l));] *)
Fixpoint r_start_loop (m : res_mem) (p : Z) (pos : nat) : option Z :=
  match pos with
  | O => Some p
  | S pos =>
      if p =? 0 then Some 0
      else
        q ← r_next m p;
        r_start_loop m q pos
  end.

Definition seq_r_start (m : res_mem) (root : Z) (pos : nat) : option Z :=
  p ← link_read m (ChildOf root);
  r_start_loop m p pos.

(** The indentation of a line: levels below [root], at most MAX_IORES_LEVEL. *)
Fixpoint show_depth (turns : nat) (m : res_mem) (root p : Z) : option Z :=
  match turns with
  | O => Some 0
  | S turns =>
      r ← m !! p;
      if r_parent r =? root then Some 0
      else
        d ← show_depth turns m root (r_parent r);
        Some (d + 1)
  end.
Definition MAX_IORES_LEVEL : nat := 5.

(** The answer of both checks below; [visit] says what the body of the loop does
    with a descriptor: go on, or leave the loop with an answer. *)
Fixpoint iomem_loop (fuel : nat) (m : res_mem) (visit : resource → option Z) (p : Z) : option Z :=
  match fuel with
  | O => None
  | S fuel =>
      if p =? 0 then Some 0
      else
        t ← m !! p;
        match visit t with
        | Some err => Some err
        | None => q ← r_next m p; iomem_loop fuel m visit q
        end
  end.

Definition PFN_DOWN (x : Z) : Z := Z.shiftr x PAGE_SHIFT.

Definition sanity_visit (addr size : Z) (p : resource) : option Z :=
  if r_start p >=? u32 (addr + size) then None
  else if r_end p <? addr then None
  else if (PFN_DOWN (r_start p) <=? PFN_DOWN addr) && (PFN_DOWN (r_end p) >=? PFN_DOWN (u32 (addr + size - 1))) then None
  else if is_busy p then None
  else Some (-1).

Definition iomem_map_sanity_check (m : res_mem) (addr size : Z) : option Z :=
  p ← link_read m (ChildOf iomem_resource);
  iomem_loop (res_fuel m) m (sanity_visit addr size) p.

Definition exclusive_visit (addr : Z) (p : resource) : option Z :=
  if r_start p >=? addr + PAGE_SIZE then Some 0
  else if r_end p <? addr then None
  else if is_busy p && ctrue (Z.land (r_flags p) IORESOURCE_EXCLUSIVE) then Some 1
  else None.

(** [addr] has 64 bits, the mask 32. *)
Definition iomem_is_exclusive (strict_iomem_checks : bool) (m : res_mem) (addr : Z) : option Z :=
  if negb strict_iomem_checks then Some 0
  else
    let addr := Z.land addr PAGE_MASK in
    p ← link_read m (ChildOf iomem_resource);
    iomem_loop (res_fuel m) m (exclusive_visit addr) p.
