(* ===== verification/ResourceInv.v ===== *)
(** The shape of the resource tree, and the lemmas about its links.

    What the tree means is in its [view]: for every descriptor its range, name,
    flags and parent.  The pointers to first child and next sibling only present
    it: the children of a descriptor are linked in the order of their ranges.
    [res_wf] says that the view is a forest of ranges (children lie inside of
    their parent, siblings are disjoint, no descriptor is its own ancestor) and
    that the links present exactly this forest.

    The lemmas at the end say what linking, unlinking and splicing do, in terms
    of the view; ResourceOps.v uses nothing else about links. *)

From stdpp Require Import strings.
From S2P Require Import Prelude Resource.

(** ** What the tree means *)

Record region := mk_region { g_start : Z; g_end : Z; g_name : option string; g_flags : Z; g_parent : Z }.

Definition view1 (r : resource) : region := mk_region (r_start r) (r_end r) (r_name r) (r_flags r) (r_parent r).
Definition view (m : res_mem) : gmap Z region := view1 <$> m.

Definition g_set_parent (p : Z) (g : region) : region :=
  mk_region (g_start g) (g_end g) (g_name g) (g_flags g) p.
Definition g_set_range (s e : Z) (g : region) : region :=
  mk_region s e (g_name g) (g_flags g) (g_parent g).

Definition child_of (m : res_mem) (p c : Z) : Prop := ∃ rc, m !! c = Some rc ∧ r_parent rc = p.

Definition before (m : res_mem) (a b : Z) : Prop :=
  ∃ ra rb, m !! a = Some ra ∧ m !! b = Some rb ∧ r_end ra < r_start rb.

(** [o] leads over the descriptors [l] to [e]. *)
Fixpoint seg (m : res_mem) (o : Z) (l : list Z) (e : Z) : Prop :=
  match l with
  | [] => o = e
  | x :: l => o = x ∧ ∃ r, m !! x = Some r ∧ seg m (r_sibling r) l e
  end.

(** [l] are the children of [p], linked in this order. *)
Definition family (m : res_mem) (p : Z) (l : list Z) : Prop :=
  ∃ r, m !! p = Some r ∧ seg m (r_child r) l 0 ∧ (∀ c, c ∈ l ↔ child_of m p c) ∧ StronglySorted (before m) l.

(** The part of the invariant that is about the view alone. *)
Record view_ok (V : gmap Z region) : Prop := {
  vo_null : V !! 0 = None;
  vo_range : ∀ p g, V !! p = Some g → 0 ≤ g_start g < 2 ^ 32 ∧ 0 ≤ g_end g < 2 ^ 32;
  vo_parent : ∀ c g, V !! c = Some g → g_parent g ≠ 0 →
    ∃ h, V !! g_parent g = Some h ∧ g_start h ≤ g_start g ≤ g_end g ∧ g_end g ≤ g_end h;
  vo_rank : ∃ rank : Z → nat, ∀ c g, V !! c = Some g → g_parent g ≠ 0 → (rank c < rank (g_parent g))%nat }.

Record res_wf (m : res_mem) : Prop := {
  wf_view : view_ok (view m);
  wf_links : ∀ p, is_Some (m !! p) → ∃ l, family m p l }.

(** A descriptor its owner may hand in: known, not in the tree and without children. *)
Definition detached (m : res_mem) (x : Z) : Prop :=
  ∃ r, m !! x = Some r ∧ r_parent r = 0 ∧ r_child r = 0.

(** One step of the code: the result of the call in front is known. *)
Ltac run := cbn [mbind option_bind].

(** ** The view and the store *)

Section views.
Implicit Types (m : res_mem) (l : list Z).

Lemma view_lookup m p : view m !! p = view1 <$> m !! p.
Proof. apply lookup_fmap. Qed.

Lemma view_some m p r : m !! p = Some r → view m !! p = Some (view1 r).
Proof. intros E. by rewrite view_lookup, E. Qed.

Lemma view_insert m p r : view (<[p := r]> m) = <[p := view1 r]> (view m).
Proof. apply fmap_insert. Qed.

(** A write to a link leaves the view alone. *)
Lemma view_insert_same m p r r' : m !! p = Some r → view1 r' = view1 r → view (<[p := r']> m) = view m.
Proof. intros E Hv. rewrite view_insert, Hv. apply insert_id. by apply view_some. Qed.

Lemma view_delete m p : view (delete p m) = delete p (view m).
Proof. apply fmap_delete. Qed.

Lemma wf_null m : res_wf m → m !! 0 = None.
Proof. intros H. pose proof (vo_null _ (wf_view _ H)) as E. rewrite view_lookup in E. by destruct (m !! 0). Qed.

Lemma wf_neq0 m p r : res_wf m → m !! p = Some r → p ≠ 0.
Proof. intros H E ->. by rewrite wf_null in E. Qed.

Lemma wf_range m p r : res_wf m → m !! p = Some r → 0 ≤ r_start r < 2 ^ 32 ∧ 0 ≤ r_end r < 2 ^ 32.
Proof. intros H E. apply (vo_range _ (wf_view _ H) p (view1 r)). by apply view_some. Qed.

Lemma wf_inside m c rc :
  res_wf m → m !! c = Some rc → r_parent rc ≠ 0 →
  ∃ rp, m !! r_parent rc = Some rp ∧ r_start rp ≤ r_start rc ≤ r_end rc ∧ r_end rc ≤ r_end rp.
Proof.
  intros H E Hp. destruct (vo_parent _ (wf_view _ H) c (view1 rc)) as (h & Eh & ? & ?); [by apply view_some|done|].
  simpl in *. rewrite view_lookup in Eh. destruct (m !! r_parent rc) as [rp|]; [|done].
  injection Eh as <-. by exists rp.
Qed.

(** ** Segments *)

Lemma seg_app m o l1 l2 e : seg m o (l1 ++ l2) e ↔ ∃ x, seg m o l1 x ∧ seg m x l2 e.
Proof.
  revert o. induction l1 as [|y l1 IH]; intros o; simpl.
  - split; [by eauto|]. intros (x & -> & ?); done.
  - split.
    + intros (-> & r & E & (x & ? & ?)%IH). eauto 10.
    + intros (x & (-> & r & E & ?) & ?). split; [done|]. exists r. split; [done|]. apply IH. eauto.
Qed.

Lemma seg_det m o l l' : m !! 0 = None → seg m o l 0 → seg m o l' 0 → l = l'.
Proof.
  intros H0. revert o l'. induction l as [|x l IH]; intros o [|y l']; simpl.
  - done.
  - intros -> (<- & r & E & _). by rewrite H0 in E.
  - intros (-> & r & E & _) ->. by rewrite H0 in E.
  - intros (-> & r & E & Hs) (-> & r' & E' & Hs'). simplify_eq. f_equal. eauto.
Qed.

(** Only the sibling pointers of its own descriptors matter to a segment. *)
Lemma seg_frame m m' o l e :
  (∀ c r, c ∈ l → m !! c = Some r → ∃ r', m' !! c = Some r' ∧ r_sibling r' = r_sibling r) →
  seg m o l e → seg m' o l e.
Proof.
  revert o. induction l as [|x l IH]; intros o HF; simpl; [done|].
  intros (-> & r & E & Hs). split; [done|].
  destruct (HF x r) as (r' & E' & Hr); [by left|done|]. exists r'. split; [done|]. rewrite Hr.
  apply IH; [|done]. intros c rc Hc. apply HF. by right.
Qed.

Lemma seg_known m o l e c : seg m o l e → c ∈ l → is_Some (m !! c).
Proof.
  revert o. induction l as [|x l IH]; intros o; simpl; [by intros _ ?%elem_of_nil|].
  intros (-> & r & E & Hs) [->|?]%elem_of_cons; eauto.
Qed.

Lemma seg_head m o l : seg m o l 0 → o = hd 0 l.
Proof. by destruct l; simpl; [|intros [? _]]. Qed.

(** ** Families *)

Lemma family_det m p l l' : m !! 0 = None → family m p l → family m p l' → l = l'.
Proof. intros H0 (r & E & Hs & _) (r' & E' & Hs' & _). simplify_eq. eauto using seg_det. Qed.

Lemma family_in m p l c : family m p l → c ∈ l → ∃ rc, m !! c = Some rc ∧ r_parent rc = p.
Proof. intros (r & E & Hs & Hl & _) Hc. by apply Hl. Qed.

Lemma family_known m p l : family m p l → is_Some (m !! p).
Proof. intros (r & E & _). eauto. Qed.

(** A child lies inside of its parent. *)
Lemma family_inside m p l c r rc :
  res_wf m → family m p l → c ∈ l → m !! p = Some r → m !! c = Some rc →
  r_parent rc = p ∧ r_start r ≤ r_start rc ≤ r_end rc ∧ r_end rc ≤ r_end r.
Proof.
  intros H HF Hc E Ec. destruct (family_in _ _ _ _ HF Hc) as (rc' & Ec' & Hp). simplify_eq.
  destruct (wf_inside m c rc) as (rp & Ep & ?); [done..|eauto using wf_neq0|]. by simplify_eq.
Qed.

Lemma before_irrefl m p l c : res_wf m → family m p l → c ∈ l → ¬ before m c c.
Proof.
  intros H HF Hc (ra & rb & Ea & Eb & Hlt). simplify_eq. destruct HF as (r & E & HF').
  pose proof (family_inside m p l c r ra H (ex_intro _ r (conj E HF')) Hc E Ea). lia.
Qed.

Lemma StronglySorted_NoDup {A} (R : A → A → Prop) (l : list A) :
  (∀ x, x ∈ l → ¬ R x x) → StronglySorted R l → NoDup l.
Proof.
  intros HR. induction 1 as [|x l Hl IH Hx]; constructor.
  - intros Hin. rewrite Forall_forall in Hx. apply (HR x); [by left|auto].
  - apply IH. intros y Hy. apply HR. by right.
Qed.

Lemma family_NoDup m p l : res_wf m → family m p l → NoDup l.
Proof.
  intros H HF. apply (StronglySorted_NoDup (before m)).
  - intros c Hc. by apply (before_irrefl m p l).
  - by destruct HF as (? & _ & _ & _ & ?).
Qed.

Lemma NoDup_known_length m l : NoDup l → (∀ c, c ∈ l → is_Some (m !! c)) → (length l ≤ size m)%nat.
Proof.
  intros Hnd Hk. rewrite <- (size_list_to_set (C := gset Z) l) by done.
  rewrite <- (size_dom (D := gset Z) m). apply subseteq_size. intros c. rewrite elem_of_list_to_set, elem_of_dom. apply Hk.
Qed.

Lemma family_length m p l : res_wf m → family m p l → (length l < res_fuel m)%nat.
Proof.
  intros H HF. unfold res_fuel. apply Nat.lt_succ_r, NoDup_known_length.
  - by apply (family_NoDup m p).
  - intros c Hc. destruct (family_in _ _ _ _ HF Hc) as (? & ? & _). eauto.
Qed.

Lemma family_not_self m p l : res_wf m → family m p l → p ∉ l.
Proof.
  intros H HF Hp. destruct (family_in _ _ _ _ HF Hp) as (r & E & Hr).
  destruct (vo_rank _ (wf_view _ H)) as [rank Hk]. specialize (Hk p (view1 r) (view_some _ _ _ E)).
  simpl in Hk. rewrite Hr in Hk. assert (p ≠ 0) by eauto using wf_neq0. specialize (Hk ltac:(done)). lia.
Qed.

(** Families share no descriptor. *)
Lemma family_disjoint m p q l k c : family m p l → family m q k → c ∈ l → c ∈ k → p = q.
Proof.
  intros HF HG Hc Hd. destruct (family_in _ _ _ _ HF Hc) as (? & ? & ?).
  destruct (family_in _ _ _ _ HG Hd) as (? & ? & ?). by simplify_eq.
Qed.

(** Two siblings are disjoint. *)
Lemma siblings_disjoint m p a b ra rb :
  res_wf m → is_Some (m !! p) → m !! a = Some ra → m !! b = Some rb → r_parent ra = p → r_parent rb = p → a ≠ b →
  r_end ra < r_start rb ∨ r_end rb < r_start ra.
Proof.
  intros H Hp Ea Eb Ha Hb Hne. destruct (wf_links _ H p Hp) as [l HF].
  destruct HF as (r & E & Hs & Hl & Hso).
  destruct (StronglySorted_pair (before m) l a b) as [(? & ? & ? & ? & ?)|(? & ? & ? & ? & ?)];
    simplify_eq; try done.
  - apply Hl. by exists ra.
  - apply Hl. by exists rb.
  - by left.
  - by right.
Qed.

Lemma family_frame m m' p l r r' :
  family m p l → m !! p = Some r → m' !! p = Some r' → r_child r' = r_child r →
  (∀ c rc, c ∈ l → m !! c = Some rc → ∃ rc', m' !! c = Some rc' ∧ r_sibling rc' = r_sibling rc ∧ view1 rc' = view1 rc) →
  (∀ c, child_of m' p c → c ∈ l) →
  family m' p l.
Proof.
  intros (r0 & E0 & Hs & Hl & Hso) E E' Hch Hsame Hback. simplify_eq.
  exists r'. split; [done|]. split; [|split].
  - rewrite Hch. apply (seg_frame m); [|done]. intros c rc Hc Ec.
    destruct (Hsame c rc Hc Ec) as (rc' & ? & ? & _). eauto.
  - intros c. split; [|apply Hback]. intros Hc. destruct (proj1 (Hl c) Hc) as (rc & Ec & Hp).
    destruct (Hsame c rc Hc Ec) as (rc' & Ec' & _ & Hv). exists rc'. split; [done|].
    apply (f_equal g_parent) in Hv. simpl in Hv. congruence.
  - apply (StronglySorted_impl (before m)); [|done]. intros a b Ha Hb (ra & rb & Ea & Eb & Hlt).
    destruct (Hsame a ra Ha Ea) as (ra' & Ea' & _ & Hva). destruct (Hsame b rb Hb Eb) as (rb' & Eb' & _ & Hvb).
    exists ra', rb'. split; [done|split; [done|]].
    apply (f_equal g_end) in Hva. apply (f_equal g_start) in Hvb. simpl in *. lia.
Qed.
End views.

(** ** Places *)

(** The place behind the children [l1] of [p]. *)
Definition place (p : Z) (l1 : list Z) : res_link :=
  match last l1 with Some c => SiblingOf c | None => ChildOf p end.

(** What a write of [v] to this place does. *)
Record relinked (m m' : res_mem) (p : Z) (l1 : list Z) (v : Z) : Prop := {
  rl_view : view m' = view m;
  rl_seg : ∃ r', m' !! p = Some r' ∧ seg m' (r_child r') l1 v;
  rl_sibling : ∀ c r, c ∉ l1 → m !! c = Some r → ∃ r', m' !! c = Some r' ∧ r_sibling r' = r_sibling r;
  rl_child : ∀ c r, c ≠ p → m !! c = Some r → ∃ r', m' !! c = Some r' ∧ r_child r' = r_child r }.

Section places.
Implicit Types (m : res_mem) (l : list Z).

Lemma place_nil p : place p [] = ChildOf p.
Proof. done. Qed.
Lemma place_snoc p l c : place p (l ++ [c]) = SiblingOf c.
Proof. unfold place. by rewrite last_snoc. Qed.

Lemma place_read m p r l1 e : m !! p = Some r → seg m (r_child r) l1 e → link_read m (place p l1) = Some e.
Proof.
  intros E. destruct l1 as [|c l1 _] using rev_ind; simpl.
  - intros <-. by rewrite E.
  - intros (x & Hs & -> & rc & Ec & Hc)%seg_app. rewrite place_snoc. simpl. rewrite Ec. simpl. by rewrite Hc.
Qed.

Lemma view_upd_same m p (f : resource → resource) r : m !! p = Some r → view1 (f r) = view1 r → view (<[p := f r]> m) = view m.
Proof. apply view_insert_same. Qed.

Lemma place_write m p r l1 e v :
  m !! p = Some r → seg m (r_child r) l1 e → NoDup l1 → p ∉ l1 →
  ∃ m', link_write m (place p l1) v = Some m' ∧ relinked m m' p l1 v.
Proof.
  intros E. destruct l1 as [|c l1 _] using rev_ind; simpl.
  - intros _ _ _. unfold res_upd. rewrite E. simpl. eexists. split; [done|]. split.
    + by apply view_insert_same with r.
    + exists (w_child v r). split; [apply lookup_insert_eq|done].
    + intros c rc _ Ec. destruct (decide (c = p)) as [->|].
      * simplify_eq. eexists. split; [apply lookup_insert_eq|done].
      * exists rc. by rewrite lookup_insert_ne.
    + intros c rc Hc Ec. exists rc. by rewrite lookup_insert_ne.
  - intros (x & Hs & -> & rc & Ec & Hc)%seg_app [Hnd [Hni _]]%NoDup_app Hp.
    rewrite place_snoc. simpl. unfold res_upd. rewrite Ec. simpl. eexists. split; [done|].
    assert (p ≠ c) by (intros ->; apply Hp, elem_of_app; right; by left).
    split.
    + by apply view_insert_same with rc.
    + exists r. rewrite lookup_insert_ne by done. split; [done|]. apply seg_app. exists c. split.
      * apply (seg_frame m); [|done]. intros d rd Hd Ed. exists rd.
        rewrite lookup_insert_ne; [done|]. intros ->. apply (Hni d Hd). by left.
      * split; [done|]. exists (w_sibling v rc). split; [apply lookup_insert_eq|done].
    + intros d rd Hd Ed. exists rd. rewrite lookup_insert_ne; [done|].
      intros ->. apply Hd, elem_of_app. right. by left.
    + intros d rd Hd Ed. destruct (decide (d = c)) as [->|].
      * simplify_eq. eexists. split; [apply lookup_insert_eq|done].
      * exists rd. by rewrite lookup_insert_ne.
Qed.

Lemma child_of_view m p c : child_of m p c ↔ ∃ g, view m !! c = Some g ∧ g_parent g = p.
Proof.
  split.
  - intros (rc & E & Hp). exists (view1 rc). by rewrite view_lookup, E.
  - intros (g & E & Hp). rewrite view_lookup in E. destruct (m !! c) as [rc|] eqn:Ec; [|done].
    injection E as <-. by exists rc.
Qed.

Lemma before_view m a b :
  before m a b ↔ ∃ ga gb, view m !! a = Some ga ∧ view m !! b = Some gb ∧ g_end ga < g_start gb.
Proof.
  split.
  - intros (ra & rb & Ea & Eb & ?). exists (view1 ra), (view1 rb). by rewrite !view_lookup, Ea, Eb.
  - intros (ga & gb & Ea & Eb & ?). rewrite view_lookup in Ea, Eb.
    destruct (m !! a) as [ra|] eqn:E1; [|done]. destruct (m !! b) as [rb|] eqn:E2; [|done].
    injection Ea as <-. injection Eb as <-. by exists ra, rb.
Qed.

Lemma view_some_inv m p g : view m !! p = Some g → ∃ r, m !! p = Some r ∧ view1 r = g.
Proof. rewrite view_lookup. destruct (m !! p) as [r|]; intros [= <-]. eauto. Qed.

(** A family in terms of the view: its list is linked, complete and sorted. *)
Lemma family_intro m p l r :
  m !! p = Some r → seg m (r_child r) l 0 →
  (∀ c, c ∈ l ↔ ∃ g, view m !! c = Some g ∧ g_parent g = p) →
  StronglySorted (before m) l → family m p l.
Proof.
  intros E Hs Hl Hso. exists r. split; [done|]. split; [done|]. split; [|done].
  intros c. rewrite child_of_view. apply Hl.
Qed.

(** Families after a change: what is to be checked is in the view and in the
    pointers of the members and of the head. *)
Lemma family_keep m m' p l r r' :
  family m p l → m !! p = Some r → m' !! p = Some r' → r_child r' = r_child r →
  (∀ c rc, c ∈ l → m !! c = Some rc → ∃ rc', m' !! c = Some rc' ∧ r_sibling rc' = r_sibling rc) →
  (∀ c, c ∈ l → view m' !! c = view m !! c) →
  (∀ c, c ∉ l → child_of m' p c → child_of m p c) →
  family m' p l.
Proof.
  intros HF E E' Hch Hsib Hv Hback. apply (family_frame m m' p l r r'); try done.
  - intros c rc Hc Ec. destruct (Hsib c rc Hc Ec) as (rc' & Ec' & Hs). exists rc'. split; [done|split; [done|]].
    specialize (Hv c Hc). rewrite !view_lookup, Ec, Ec' in Hv. exact (inj Some _ _ Hv).
  - intros c Hc. destruct (decide (c ∈ l)) as [|Hn]; [done|].
    destruct HF as (? & _ & _ & Hl & _). apply Hl. auto.
Qed.

End places.

(** ** Linking *)

Section linking.
Implicit Types (m : res_mem) (l : list Z).

Lemma family_split m p l1 l2 r :
  family m p (l1 ++ l2) → m !! p = Some r → seg m (r_child r) l1 (hd 0 l2) ∧ seg m (hd 0 l2) l2 0.
Proof.
  intros (r' & E & Hs & _) E'. simplify_eq. apply seg_app in Hs as (x & H1 & H2).
  by rewrite <- (seg_head _ _ _ H2).
Qed.

Lemma family_parent m p l c : family m p l → c ∈ l ↔ ∃ g, view m !! c = Some g ∧ g_parent g = p.
Proof. intros (_ & _ & _ & Hl & _). rewrite Hl. apply child_of_view. Qed.

Lemma detached_family m x rx : res_wf m → m !! x = Some rx → r_child rx = 0 → family m x [].
Proof.
  intros H E Hc. destruct (wf_links _ H x) as [l HF]; [eauto|].
  destruct l as [|c l]; [done|]. destruct HF as (r & E' & [Hs _] & Hl & _). assert (r = rx) as -> by congruence.
  destruct (proj1 (Hl c)) as (rc & Ec & _); [by left|]. rewrite Hc in Hs. subst c. by rewrite (wf_null _ H) in Ec.
Qed.

(** A change of the view at the one descriptor [x]: its parent becomes [p], a range
    that holds it, and it has no children. *)
Lemma view_ok_attach V x g p h :
  view_ok V → V !! x = Some g → V !! p = Some h → p ≠ x →
  g_start h ≤ g_start g ≤ g_end g → g_end g ≤ g_end h →
  (∀ c gc, V !! c = Some gc → g_parent gc ≠ x) →
  view_ok (<[x := g_set_parent p g]> V).
Proof.
  intros [H0 Hr Hp [rank Hk]] Ex Ep Hne Hin1 Hin2 Hnc. split.
  - rewrite lookup_insert_ne; [done|]. intros ->. by rewrite H0 in Ex.
  - intros c gc. rewrite lookup_insert_Some. intros [[-> <-]|[_ ?]]; [by apply (Hr c g)|eauto].
  - intros c gc. rewrite lookup_insert_Some. intros [[-> <-]|[Hx Ec]]; simpl.
    + intros _. exists h. by rewrite lookup_insert_ne.
    + intros Hpc. destruct (Hp c gc Ec Hpc) as (hc & E' & ?).
      exists hc. rewrite lookup_insert_ne; [done|]. intros E. by apply (Hnc c gc).
  - exists (λ z, if decide (z = x) then O else S (rank z)).
    intros c gc. rewrite lookup_insert_Some. intros [[-> <-]|[Hx Ec]]; simpl; intros Hpc.
    + rewrite decide_True, decide_False by done. lia.
    + rewrite (decide_False (P := c = x)), (decide_False (P := g_parent gc = x)).
      * specialize (Hk c gc Ec Hpc). lia.
      * by apply (Hnc c).
      * congruence.
Qed.

(** ... its parent becomes NULL. *)
Lemma view_ok_detach V x g : view_ok V → V !! x = Some g → view_ok (<[x := g_set_parent 0 g]> V).
Proof.
  intros [H0 Hr Hp [rank Hk]] Ex. split.
  - rewrite lookup_insert_ne; [done|]. intros ->. by rewrite H0 in Ex.
  - intros c gc. rewrite lookup_insert_Some. intros [[-> <-]|[_ ?]]; [by apply (Hr c g)|eauto].
  - intros c gc. rewrite lookup_insert_Some. intros [[-> <-]|[Hx Ec]]; [done|].
    intros Hpc. destruct (Hp c gc Ec Hpc) as (hc & E' & ?). destruct (decide (x = g_parent gc)) as [->|].
    + simplify_eq. eexists. rewrite lookup_insert_eq. done.
    + exists hc. by rewrite lookup_insert_ne.
  - exists rank. intros c gc. rewrite lookup_insert_Some. intros [[-> <-]|[Hx Ec]]; [done|eauto].
Qed.

(** The descriptors whose pointers may change: the children in front of the place
    and [x] for siblings, the parent for children. *)
Record links_changed (m m' : res_mem) (S : Z → Prop) (P : Z → Prop) : Prop := {
  lc_sibling : ∀ c r, ¬ S c → m !! c = Some r → ∃ r', m' !! c = Some r' ∧ r_sibling r' = r_sibling r;
  lc_child : ∀ c r, ¬ P c → m !! c = Some r → ∃ r', m' !! c = Some r' ∧ r_child r' = r_child r }.

Lemma links_changed_trans m1 m2 m3 S S1 S2 P P1 P2 :
  links_changed m1 m2 S1 P1 → links_changed m2 m3 S2 P2 →
  (∀ c, S1 c ∨ S2 c → S c) → (∀ c, P1 c ∨ P2 c → P c) → links_changed m1 m3 S P.
Proof.
  intros [Hs1 Hc1] [Hs2 Hc2] HS HP. split; intros c r Hc E.
  - destruct (Hs1 c r) as (r2 & E2 & <-); [naive_solver|done|]. apply Hs2; naive_solver.
  - destruct (Hc1 c r) as (r2 & E2 & <-); [naive_solver|done|]. apply Hc2; naive_solver.
Qed.

(** The family of [q] is the same before and after. *)
Definition untouched (m m' : res_mem) (S P : Z → Prop) (q : Z) : Prop :=
  is_Some (m !! q) ∧ ¬ P q ∧
  (∀ c, child_of m q c → ¬ S c ∧ view m' !! c = view m !! c) ∧
  (∀ c, child_of m' q c → child_of m q c).

Lemma untouched_family m m' S P q l :
  links_changed m m' S P → untouched m m' S P q → family m q l → family m' q l.
Proof.
  intros [Hs Hc] ([rq Eq] & HP & Hch & Hback) HF. destruct (Hc q rq HP Eq) as (rq' & Eq' & ?).
  assert (Hin : ∀ c, c ∈ l → child_of m q c) by (destruct HF as (_ & _ & _ & Hl & _); intros c; apply Hl).
  apply (family_keep m m' q l rq rq'); try done.
  - intros c rc Hcl Ec. apply Hs; [|done]. by apply Hch, Hin.
  - intros c Hcl. by apply Hch, Hin.
  - intros c _. apply Hback.
Qed.

(** A change keeps the invariant if its view is fine and the families it touches
    are linked afterwards. *)
Lemma wf_change m m' S P :
  res_wf m → links_changed m m' S P → view_ok (view m') →
  (∀ q, is_Some (m' !! q) → untouched m m' S P q ∨ ∃ l, family m' q l) → res_wf m'.
Proof.
  intros H HL HV Hq. split; [done|]. intros q Eq. destruct (Hq q Eq) as [Hu|]; [|done].
  destruct (wf_links _ H q) as [l HF]; [apply Hu|]. exists l. by apply (untouched_family m m' S P).
Qed.

(** Order between two descriptors only depends on their entries in the view. *)
Lemma before_kept m m' a b :
  view m' !! a = view m !! a → view m' !! b = view m !! b → before m a b → before m' a b.
Proof. intros Ha Hb. by rewrite !before_view, Ha, Hb. Qed.

Lemma view_known m m' q : (∀ c, is_Some (view m' !! c) ↔ is_Some (view m !! c)) → is_Some (m' !! q) ↔ is_Some (m !! q).
Proof. intros Hv. specialize (Hv q). by rewrite !view_lookup, !fmap_is_Some in Hv. Qed.

(** What a descriptor that is in no family is like. *)
Lemma orphan_not_in m p l x rx : res_wf m → family m p l → m !! x = Some rx → r_parent rx = 0 → x ∉ l.
Proof.
  intros H HF Ex Hp Hin. destruct (family_in _ _ _ _ HF Hin) as (? & ? & ?). simplify_eq.
  destruct HF as (r & E & _). rewrite Hp in E. by rewrite (wf_null _ H) in E.
Qed.

(** One descriptor has got another parent: only families of these two change. *)
Lemma wf_moved m m' S p l l' x rx v :
  res_wf m → family m p l → m !! x = Some rx → r_parent rx = 0 ∨ r_parent rx = p → v = 0 ∨ v = p →
  view m' = <[x := g_set_parent v (view1 rx)]> (view m) → view_ok (view m') →
  links_changed m m' S (λ c, c = p) → (∀ c, S c → c = x ∨ c ∈ l) → family m' p l' → res_wf m'.
Proof.
  intros H HF Ex Hold Hnew Hv' HV HL HS HF'. eapply wf_change; [done..|].
  assert (Hvc : ∀ c, c ≠ x → view m' !! c = view m !! c) by (intros; rewrite Hv'; by apply lookup_insert_ne).
  intros q Hq. destruct (decide (q = p)) as [->|Hqp]; [eauto|]. left.
  assert (Hqm : is_Some (m !! q)).
  { apply (view_known m m'); [|done]. intros c. destruct (decide (c = x)) as [->|]; [|by rewrite Hvc].
    rewrite Hv', lookup_insert_eq, (view_some _ _ _ Ex). by split; eauto. }
  assert (Hq0 : q ≠ 0) by (destruct Hqm; eauto using wf_neq0).
  split; [done|split; [done|split]].
  - intros c (rc & Ec & Hc). assert (c ≠ x) by (intros ->; simplify_eq; by destruct Hold).
    split; [|by apply Hvc]. intros [?|Hc']%HS; [done|]. destruct (family_in _ _ _ c HF Hc') as (? & ? & ?). by simplify_eq.
  - intros c. rewrite !child_of_view. destruct (decide (c = x)) as [->|Hcx']; [|by rewrite Hvc].
    rewrite Hv', lookup_insert_eq. intros (g & [= <-] & Hg). simpl in Hg. subst q. by destruct Hnew.
Qed.

Lemma link_in_links m p r l1 l2 x rx :
  res_wf m → family m p (l1 ++ l2) → m !! p = Some r →
  m !! x = Some rx → r_parent rx = 0 → p ≠ x →
  ∃ m', request_place m p x (place p l1) (hd 0 l2) = Some (m', 0) ∧
    view m' = <[x := g_set_parent p (view1 rx)]> (view m) ∧
    (∃ r', m' !! p = Some r' ∧ seg m' (r_child r') (l1 ++ x :: l2) 0) ∧
    links_changed m m' (λ c, c = x ∨ c ∈ l1) (λ c, c = p).
Proof.
  intros H HF E Ex Hpx Hne.
  pose proof (orphan_not_in _ _ _ _ _ H HF Ex Hpx) as [Hx1 Hx2]%not_elem_of_app.
  pose proof (family_NoDup _ _ _ H HF) as (Hnd1 & Hnd12 & Hnd2)%NoDup_app.
  pose proof (family_not_self _ _ _ H HF) as [Hp1 Hp2]%not_elem_of_app.
  destruct (family_split _ _ _ _ _ HF E) as [Hs1 Hs2].
  unfold request_place, res_upd. rewrite Ex. simpl.
  set (m1 := <[x := w_sibling (hd 0 l2) rx]> m).
  assert (Hm1 : ∀ c, c ≠ x → m1 !! c = m !! c) by (intros; by apply lookup_insert_ne).
  assert (Hvm1 : view m1 = view m) by by apply view_insert_same with rx.
  destruct (place_write m1 p r l1 (hd 0 l2) x) as (m2 & -> & [Hv2 (r2 & E2 & Hs2') Hsib2 Hch2]);
    [by rewrite Hm1| |done|done|].
  { apply (seg_frame m); [|done]. intros c rc Hc Ec. exists rc. rewrite Hm1; [done|]. by intros ->. }
  simpl. destruct (Hsib2 x (w_sibling (hd 0 l2) rx)) as (rx2 & Ex2 & Hsx2); [done|apply lookup_insert_eq|].
  rewrite Ex2. simpl. eexists. split; [done|]. set (m' := <[x := w_parent p rx2]> m2).
  assert (Hm' : ∀ c, c ≠ x → m' !! c = m2 !! c) by (intros; by apply lookup_insert_ne).
  assert (Hsib : ∀ c rc, ¬ (c = x ∨ c ∈ l1) → m !! c = Some rc → ∃ rc', m' !! c = Some rc' ∧ r_sibling rc' = r_sibling rc).
  { intros c rc Hc Ec. rewrite Hm' by tauto. apply Hsib2; [tauto|]. rewrite Hm1; tauto. }
  split; [|split; [|split; [done|]]].
  - unfold m'. rewrite view_insert, Hv2, Hvm1. f_equal.
    assert (Hvx : view1 rx2 = view1 rx).
    { apply (inj Some). rewrite <- (view_some _ _ _ Ex2), Hv2, Hvm1. by apply view_some. }
    by rewrite <- Hvx.
  - exists r2. rewrite Hm' by done. split; [done|]. apply seg_app. exists x. split.
    + apply (seg_frame m2); [|done]. intros c rc Hc Ec. exists rc. rewrite Hm'; [done|]. by intros ->.
    + split; [done|]. exists (w_parent p rx2). split; [apply lookup_insert_eq|]. simpl. rewrite Hsx2. simpl.
      apply (seg_frame m); [|done]. intros c rc Hc. apply Hsib. intros [->|Hc']; [done|by apply (Hnd12 c)].
  - intros c rc Hc Ec. destruct (decide (c = x)) as [->|Hcx].
    + destruct (Hch2 x (w_sibling (hd 0 l2) rx)) as (? & ? & Hcc); [done|apply lookup_insert_eq|].
      simplify_eq. eexists. split; [apply lookup_insert_eq|done].
    + rewrite Hm' by done. apply Hch2; [done|]. by rewrite Hm1.
Qed.

Lemma link_in m p r l1 l2 x rx :
  res_wf m → family m p (l1 ++ l2) → m !! p = Some r →
  m !! x = Some rx → r_parent rx = 0 → r_child rx = 0 → p ≠ x →
  r_start r ≤ r_start rx ≤ r_end rx → r_end rx ≤ r_end r →
  (∀ c rc, c ∈ l1 → m !! c = Some rc → r_end rc < r_start rx) →
  (∀ c rc, c ∈ l2 → m !! c = Some rc → r_end rx < r_start rc) →
  ∃ m', request_place m p x (place p l1) (hd 0 l2) = Some (m', 0) ∧ res_wf m' ∧
    view m' = <[x := g_set_parent p (view1 rx)]> (view m) ∧ family m' p (l1 ++ x :: l2).
Proof.
  intros H HF E Ex Hpx Hcx Hne Hin1 Hin2 Hl1 Hl2.
  pose proof (orphan_not_in _ _ _ _ _ H HF Ex Hpx) as [Hx1 Hx2]%not_elem_of_app.
  destruct (link_in_links m p r l1 l2 x rx) as (m' & -> & Hv' & (r' & E' & Hs') & HL); try done.
  exists m'. split; [done|].
  assert (Hvc : ∀ c, c ≠ x → view m' !! c = view m !! c) by (intros; rewrite Hv'; by apply lookup_insert_ne).
  assert (HF' : family m' p (l1 ++ x :: l2)).
  { apply family_intro with r'; [done..| |].
    - intros c. rewrite elem_of_app, elem_of_cons. destruct (decide (c = x)) as [->|Hcx'].
      + rewrite Hv', lookup_insert_eq. split; [eauto|auto].
      + rewrite Hvc, <- (family_parent _ _ _ _ HF), elem_of_app by done. naive_solver.
    - destruct HF as (? & _ & _ & Hl & (H12 & HS1 & HS2)%StronglySorted_app).
      assert (Hk : ∀ c, c ∈ l1 ++ l2 → c ≠ x ∧ ∃ rc, m !! c = Some rc).
      { intros c Hc. split; [intros ->; by apply elem_of_app in Hc as [?|?]|]. apply Hl in Hc as (? & ? & _). eauto. }
      setoid_rewrite elem_of_app in Hk.
      assert (Hb : ∀ a b, (a ∈ l1 ∨ a ∈ l2) → (b ∈ l1 ∨ b ∈ l2) → before m a b → before m' a b).
      { intros a b Ha Hb. apply before_kept; apply Hvc; by apply Hk. }
      apply StronglySorted_app. split; [|split].
      + intros a b Ha [->|Hb']%elem_of_cons; [|apply Hb; auto].
        destruct (Hk a) as (? & ra & Ea); [auto|]. apply before_view.
        rewrite (Hvc a), Hv', lookup_insert_eq, (view_some _ _ _ Ea) by done. do 2 eexists. do 2 (split; [done|]). by apply (Hl1 a).
      + apply (StronglySorted_impl (before m)); [|done]. auto.
      + constructor; [apply (StronglySorted_impl (before m)); [|done]; auto|].
        apply Forall_forall. intros b Hb'. destruct (Hk b) as (? & rb & Eb); [auto|]. apply before_view.
        rewrite (Hvc b), Hv', lookup_insert_eq, (view_some _ _ _ Eb) by done. do 2 eexists. do 2 (split; [done|]). by apply (Hl2 b). }
  split; [|done]. apply (wf_moved m m' (λ c, c = x ∨ c ∈ l1) p (l1 ++ l2) (l1 ++ x :: l2) x rx p); try done; [by left|by right| |].
  - rewrite Hv'. eapply view_ok_attach; [apply (wf_view _ H)|by apply view_some|by apply view_some|done..|].
    intros c gc Ec Hgc. assert (c ∈ []) as []%elem_of_nil.
    apply (family_parent m x); [|by exists gc]. by apply (detached_family m x rx).
  - intros c [?|?]; [by left|]. right. apply elem_of_app. by left.
Qed.

(** Taking [x] out of its family; it keeps its own children. *)
(** Writing the place in front of [x] and taking its parent away. *)
Lemma unlink_links m p r l1 l2 x rx :
  res_wf m → family m p (l1 ++ x :: l2) → m !! p = Some r → m !! x = Some rx →
  ∃ m2 rx2, let m' := <[x := w_parent 0 rx2]> m2 in
    link_write m (place p l1) (r_sibling rx) = Some m2 ∧ m2 !! x = Some rx2 ∧ r_child rx2 = r_child rx ∧
    view m' = <[x := g_set_parent 0 (view1 rx)]> (view m) ∧
    (∃ r', m' !! p = Some r' ∧ seg m' (r_child r') (l1 ++ l2) 0) ∧
    links_changed m m' (λ c, c ∈ l1) (λ c, c = p).
Proof.
  intros H HF E Ex.
  pose proof (family_NoDup _ _ _ H HF) as (Hnd1 & Hnd12 & Hnd2)%NoDup_app.
  pose proof (family_not_self _ _ _ H HF) as [Hp1 Hp2]%not_elem_of_app.
  assert (Hx1 : x ∉ l1) by (intros Hx; apply (Hnd12 x Hx); by left).
  assert (Hpx : p ≠ x) by (intros ->; apply Hp2; by left).
  destruct (family_split _ _ _ _ _ HF E) as [Hs1 (_ & rx' & Ex' & Hs2)]. simplify_eq.
  destruct (place_write m p r l1 x (r_sibling rx)) as (m2 & Hw & [Hv2 (r2 & E2 & Hs2') Hsib2 Hch2]); try done.
  destruct (Hch2 x rx) as (rx2 & Ex2 & Hcx); [done..|].
  exists m2, rx2. intros m'. do 3 (split; [done|]).
  assert (Hm' : ∀ c, c ≠ x → m' !! c = m2 !! c) by (intros; by apply lookup_insert_ne).
  assert (HL : links_changed m m' (λ c, c ∈ l1) (λ c, c = p)).
  { split; intros c rc Hc Ec; destruct (decide (c = x)) as [->|Hcx'].
    - destruct (Hsib2 x rx) as (? & ? & ?); [done..|]. simplify_eq. eexists. split; [apply lookup_insert_eq|done].
    - rewrite Hm' by done. by apply Hsib2.
    - simplify_eq. eexists. split; [apply lookup_insert_eq|done].
    - rewrite Hm' by done. by apply Hch2. }
  split; [|split; [|done]].
  - unfold m'. rewrite view_insert, Hv2. f_equal. assert (Hvx : view1 rx2 = view1 rx); [|by rewrite <- Hvx].
    apply (inj Some). rewrite <- (view_some _ _ _ Ex2), Hv2. by apply view_some.
  - exists r2. rewrite Hm' by done. split; [done|]. apply seg_app. exists (r_sibling rx). split.
    + apply (seg_frame m2); [|done]. intros c rc Hc Ec. exists rc. rewrite Hm'; [done|]. by intros ->.
    + apply (seg_frame m); [|done]. intros c rc Hc. apply HL. intros Hc'. apply (Hnd12 c Hc'). by right.
Qed.

Lemma unlink m p l1 l2 x rx :
  res_wf m → family m p (l1 ++ x :: l2) → m !! x = Some rx →
  ∃ m2 rx2, link_write m (place p l1) (r_sibling rx) = Some m2 ∧ m2 !! x = Some rx2 ∧ r_child rx2 = r_child rx ∧
    res_wf (<[x := w_parent 0 rx2]> m2) ∧
    view (<[x := w_parent 0 rx2]> m2) = <[x := g_set_parent 0 (view1 rx)]> (view m) ∧
    family (<[x := w_parent 0 rx2]> m2) p (l1 ++ l2).
Proof.
  intros H HF Ex. destruct (family_known _ _ _ HF) as [r E].
  pose proof (family_NoDup _ _ _ H HF) as (Hnd1 & Hnd12 & Hnd2)%NoDup_app.
  assert (Hx1 : x ∉ l1) by (intros Hx; apply (Hnd12 x Hx); by left).
  assert (Hx2 : x ∉ l2) by by apply NoDup_cons in Hnd2 as [? _].
  assert (Hrp : r_parent rx = p).
  { destruct (family_in _ _ _ x HF) as (? & ? & ?); [apply elem_of_app; right; by left|]. by simplify_eq. }
  assert (p0 : p ≠ 0) by eauto using wf_neq0.
  destruct (unlink_links m p r l1 l2 x rx) as (m2 & rx2 & Hw & Ex2 & Hcx & Hv' & (r2 & E2 & Hseg) & HL); [done..|].
  exists m2, rx2. do 3 (split; [done|]). set (m' := <[x := w_parent 0 rx2]> m2) in *.
  assert (Hvc : ∀ c, c ≠ x → view m' !! c = view m !! c) by (intros; rewrite Hv'; by apply lookup_insert_ne).
  assert (HF' : family m' p (l1 ++ l2)).
  { apply family_intro with r2; [done..| |].
    - intros c. destruct (decide (c = x)) as [->|Hcx'].
      + rewrite Hv', lookup_insert_eq, elem_of_app. split; [tauto|]. intros (g & [= <-] & Hg). by simpl in Hg.
      + rewrite Hvc, <- (family_parent _ _ _ _ HF), !elem_of_app, elem_of_cons by done. naive_solver.
    - destruct HF as (? & _ & _ & Hl & (H12 & HS1 & [_ HS2]%StronglySorted_cons)%StronglySorted_app).
      assert (Hk : ∀ a b, a ≠ x → b ≠ x → before m a b → before m' a b) by (intros; apply (before_kept m); auto).
      apply StronglySorted_app. split; [|split].
      + intros a b Ha Hb. apply Hk; [by intros ->..|]. apply H12; [done|by right].
      + apply (StronglySorted_impl (before m)); [|done]. intros a b Ha Hb. apply Hk; by intros ->.
      + apply (StronglySorted_impl (before m)); [|done]. intros a b Ha Hb. apply Hk; by intros ->. }
  split; [|done]. apply (wf_moved m m' (λ c, c ∈ l1) p (l1 ++ x :: l2) (l1 ++ l2) x rx 0); try done; [by right|by left| |].
  - rewrite Hv'. apply view_ok_detach; [apply (wf_view _ H)|by apply view_some].
  - intros c Hc. right. apply elem_of_app. by left.
Qed.

(** ** Splicing *)

Lemma set_parents_spec fuel m o l x :
  seg m o l 0 → NoDup l → (∀ c, c ∈ l → c ≠ 0) → (length l < fuel)%nat →
  ∃ m', set_parents fuel m o x = Some m' ∧
    (∀ c, c ∈ l → m' !! c = w_parent x <$> m !! c) ∧ (∀ c, c ∉ l → m' !! c = m !! c).
Proof.
  revert m o l. induction fuel as [|fuel IH]; intros m o [|c l] Hs Hnd H0 Hf; simpl in *; try lia.
  - subst o. simpl. exists m. split; [done|]. split; [by intros ? ?%elem_of_nil|done].
  - destruct Hs as (-> & r & E & Hs). apply NoDup_cons in Hnd as [Hc Hnd].
    destruct (Z.eqb_spec c 0) as [Hc0|_]; [exfalso; by apply (H0 c); [left|]|].
    unfold res_upd. rewrite E. simpl. rewrite lookup_insert_eq. simpl.
    destruct (IH (<[c := w_parent x r]> m) (r_sibling r) l) as (m' & -> & Hin & Hout).
    + apply (seg_frame m); [|done]. intros d rd Hd Ed. exists rd. rewrite lookup_insert_ne; [done|]. by intros ->.
    + done.
    + intros d Hd. apply H0. by right.
    + lia.
    + exists m'. split; [done|]. split.
      * intros d [->|Hd]%elem_of_cons.
        -- rewrite Hout, lookup_insert_eq, E by done. done.
        -- rewrite Hin, lookup_insert_ne by (try done; by intros ->). done.
      * intros d [Hd1 Hd2]%not_elem_of_cons. rewrite Hout, lookup_insert_ne by done. done.
Qed.

Lemma find_previous_spec fuel m o l y first :
  seg m o (l ++ [y]) first → first ∉ l ++ [y] → (length l < fuel)%nat →
  find_previous fuel m o first = Some y.
Proof.
  revert o l. induction fuel as [|fuel IH]; intros o l Hs Hn Hf; [lia|]. destruct l as [|c l]; simpl in *.
  - destruct Hs as (-> & r & -> & Hr). simpl. by rewrite Hr, Z.eqb_refl.
  - destruct Hs as (-> & r & -> & Hs). simpl. apply not_elem_of_cons in Hn as [_ Hn].
    destruct (Z.eqb_spec (r_sibling r) first) as [He|_].
    + exfalso. apply Hn. destruct l as [|d l]; destruct Hs as [Hs _]; rewrite <- He, Hs; apply elem_of_app; [right; by left|left; by left].
    + apply (IH _ l); [done|done|lia].
Qed.

(** The view in which the descriptors [l] have the parent [x]. *)
Definition reparent (l : list Z) (x : Z) (V : gmap Z region) : gmap Z region :=
  map_imap (λ c g, Some (if decide (c ∈ l) then g_set_parent x g else g)) V.

Lemma reparent_lookup l x V c :
  reparent l x V !! c = if decide (c ∈ l) then g_set_parent x <$> V !! c else V !! c.
Proof. unfold reparent. rewrite map_lookup_imap. destruct (V !! c); simpl; by destruct (decide (c ∈ l)). Qed.

Lemma view_ok_splice V x g p h l :
  view_ok V → V !! x = Some g → V !! p = Some h → p ≠ x → x ∉ l → p ∉ l →
  g_start h ≤ g_start g ≤ g_end g → g_end g ≤ g_end h →
  (∀ c gc, V !! c = Some gc → g_parent gc ≠ x) →
  (∀ c gc, c ∈ l → V !! c = Some gc → g_parent gc = p ∧ g_start g ≤ g_start gc ∧ g_end gc ≤ g_end g) →
  view_ok (<[x := g_set_parent p g]> (reparent l x V)).
Proof.
  intros [H0 Hr Hp [rank Hk]] Ex Ep Hne Hxl Hpl Hin1 Hin2 Hnc Hl.
  assert (Hp0 : p ≠ 0) by (intros ->; by rewrite H0 in Ep).
  (* the entries of the new view *)
  assert (Hcase : ∀ c gc, <[x := g_set_parent p g]> (reparent l x V) !! c = Some gc →
    c = x ∧ gc = g_set_parent p g ∨
    ∃ g0, c ≠ x ∧ V !! c = Some g0 ∧ (c ∈ l ∧ gc = g_set_parent x g0 ∨ c ∉ l ∧ gc = g0)).
  { intros c gc. rewrite lookup_insert_Some, reparent_lookup. intros [[-> <-]|[Hx Ec]]; [by left|]. right.
    destruct (decide (c ∈ l)) as [Hc|Hc].
    - apply fmap_Some in Ec as (g0 & ? & ->). exists g0. auto.
    - exists gc. auto. }
  split.
  - rewrite lookup_insert_ne, reparent_lookup by (intros ->; by rewrite H0 in Ex). rewrite H0. by destruct (decide _).
  - intros c gc [[-> ->]|(g0 & _ & E0 & [[_ ->]|[_ ->]])]%Hcase; [by apply (Hr x g)|by apply (Hr c g0)|by apply (Hr c g0)].
  - intros c gc [[-> ->]|(g0 & Hx & E0 & [[Hc ->]|[Hc ->]])]%Hcase; simpl; intros Hpc.
    + exists h. rewrite lookup_insert_ne, reparent_lookup, decide_False by done. done.
    + exists (g_set_parent p g). rewrite lookup_insert_eq. split; [done|]. simpl.
      destruct (Hl c g0) as (Hcp & ? & ?); [done..|]. destruct (Hp c g0) as (? & ? & ? & ?); [done|congruence|lia].
    + destruct (Hp c g0 E0 Hpc) as (hc & Eh & ?). assert (g_parent g0 ≠ x) by by apply (Hnc c).
      rewrite lookup_insert_ne, reparent_lookup by done. destruct (decide _); rewrite Eh; eexists; done.
  - exists (λ z, if decide (z = x) then (2 * rank p)%nat else S (2 * rank z)).
    intros c gc [[-> ->]|(g0 & Hx & E0 & [[Hc ->]|[Hc ->]])]%Hcase; simpl; intros Hpc.
    + rewrite decide_True, decide_False by done. lia.
    + rewrite decide_False, decide_True by done. destruct (Hl c g0) as (Hcp & ? & ?); [done..|].
      specialize (Hk c g0 E0 ltac:(congruence)). rewrite Hcp in Hk. lia.
    + rewrite !decide_False by (try done; by apply (Hnc c)). specialize (Hk c g0 E0 Hpc). lia.
Qed.

(** The end of insert_splice finds the place behind [l1]. *)
Lemma splice_place m p r l1 first x :
  m !! p = Some r → seg m (r_child r) l1 first → first ∉ l1 → (length l1 ≤ size m)%nat →
  (if r_child r =? first then res_upd m p (w_child x)
   else prev ← find_previous (res_fuel m) m (r_child r) first; res_upd m prev (w_sibling x)) =
  link_write m (place p l1) x.
Proof.
  intros E Hs Hn Hlen. destruct l1 as [|y l1 _] using rev_ind.
  - simpl in Hs. by rewrite Hs, Z.eqb_refl.
  - rewrite place_snoc. rewrite length_app in Hlen. simpl in Hlen.
    rewrite (find_previous_spec _ _ _ l1 y) by (try done; unfold res_fuel; lia). simpl.
    destruct (Z.eqb_spec (r_child r) first) as [He|]; [|done]. exfalso. apply Hn. rewrite <- He.
    destruct l1 as [|z l1]; destruct Hs as [-> _]; apply elem_of_app; [right; by left|left; by left].
Qed.

(** The store before the last write of insert_splice, [l2 = k2 ++ [next]]. *)
Record spliced (m m5 : res_mem) (p x first next e : Z) (rx : resource) (k2 : list Z) : Prop := {
  sp_new : m5 !! x = Some (w_child first (w_sibling e (w_parent p rx)));
  sp_last : m5 !! next = w_parent x ∘ w_sibling 0 <$> m !! next;
  sp_front : ∀ c, c ∈ k2 → m5 !! c = w_parent x <$> m !! c;
  sp_other : ∀ c, c ≠ x → c ≠ next → c ∉ k2 → m5 !! c = m !! c }.

Lemma splice_store m p x rx first next e rn k2 :
  m !! x = Some rx → m !! next = Some rn → r_sibling rn = e → seg m first k2 next →
  NoDup (k2 ++ [next]) → x ∉ k2 ++ [next] → 0 ∉ k2 ++ [next] → (length k2 < size m)%nat →
  ∃ m5, spliced m m5 p x first next e rx k2 ∧ size m5 = size m ∧
    insert_splice m p x first next =
      (pa ← m5 !! p;
       if r_child pa =? first then res_upd m5 p (w_child x)
       else prev ← find_previous (res_fuel m5) m5 (r_child pa) first; res_upd m5 prev (w_sibling x)).
Proof.
  intros Ex En Hrn Hs2 Hnd Hx2 H02 Hlen.
  assert (Hnx : x ≠ next) by (intros ->; apply Hx2, elem_of_app; right; by left).
  assert (Hk : ∀ c, c ∈ k2 → c ≠ x ∧ c ≠ next).
  { intros c Hc. split.
    - intros ->. apply Hx2, elem_of_app. by left.
    - intros ->. apply NoDup_app in Hnd as (_ & Hd & _). apply (Hd next Hc). by left. }
  unfold insert_splice, res_upd. rewrite Ex. run. rewrite (lookup_insert_ne _ x next), En by done. run.
  rewrite lookup_insert_eq. run. rewrite insert_insert_eq, lookup_insert_eq. run.
  rewrite insert_insert_eq, Hrn, (lookup_insert_ne _ x next), En by done. run.
  set (rx' := w_child first _). set (m4 := <[next := w_sibling 0 rn]> (<[x := rx']> m)).
  assert (Hm4 : ∀ c, c ≠ x → c ≠ next → m4 !! c = m !! c) by (intros; unfold m4; by rewrite !lookup_insert_ne).
  assert (Hsz4 : size m4 = size m) by (unfold m4; rewrite !map_size_insert_Some; eauto; by rewrite lookup_insert_ne).
  destruct (set_parents_spec (res_fuel m4) m4 first (k2 ++ [next]) x) as (m5 & -> & Hin5 & Hout5); run.
  - apply seg_app. exists next. split.
    + apply (seg_frame m); [|done]. intros c rc Hc Ec. exists rc. by rewrite Hm4 by by apply Hk.
    + split; [done|]. exists (w_sibling 0 rn). unfold m4. by rewrite lookup_insert_eq.
  - done.
  - intros c Hc ->. done.
  - unfold res_fuel. rewrite length_app, Hsz4. simpl. lia.
  - exists m5. split; [split|split; [|done]].
    + rewrite Hout5 by done. unfold m4. by rewrite lookup_insert_ne, lookup_insert_eq.
    + rewrite Hin5 by (apply elem_of_app; right; by left). unfold m4. by rewrite lookup_insert_eq, En.
    + intros c Hc. rewrite Hin5, Hm4 by (try (by apply Hk); apply elem_of_app; by left). done.
    + intros c ? ? ?. rewrite Hout5, Hm4 by (rewrite ?elem_of_app, ?list_elem_of_singleton; naive_solver). done.
    + rewrite <- Hsz4, <- !(size_dom (D := gset Z)). f_equal. apply set_eq. intros c. rewrite !elem_of_dom.
      destruct (decide (c ∈ k2 ++ [next])); [by rewrite Hin5, fmap_is_Some|by rewrite Hout5].
Qed.

Lemma spliced_view m m5 p x first next e rx k2 :
  spliced m m5 p x first next e rx k2 → x ∉ k2 ++ [next] → m !! x = Some rx →
  view m5 = <[x := g_set_parent p (view1 rx)]> (reparent (k2 ++ [next]) x (view m)).
Proof.
  intros [Hx Hn Hf Ho] Hx2 Ex. apply map_eq. intros c. rewrite view_lookup.
  destruct (decide (c = x)) as [->|Hcx]; [by rewrite lookup_insert_eq, Hx|].
  rewrite lookup_insert_ne, reparent_lookup, view_lookup by done.
  destruct (decide (c = next)) as [->|Hcn].
  - rewrite decide_True by (apply elem_of_app; right; by left). rewrite Hn. by destruct (m !! next).
  - destruct (decide (c ∈ k2)) as [Hc|Hc].
    + rewrite decide_True by (apply elem_of_app; by left). rewrite Hf by done. by destruct (m !! c).
    + rewrite decide_False by (rewrite elem_of_app, list_elem_of_singleton; naive_solver). by rewrite Ho.
Qed.

Lemma spliced_changed m m5 p x first next e rx k2 :
  spliced m m5 p x first next e rx k2 → links_changed m m5 (λ c, c = x ∨ c = next) (λ c, c = x).
Proof.
  intros [Hx Hn Hf Ho]. split; intros c rc Hc Ec.
  - destruct (decide (c ∈ k2)) as [Hck|Hck]; [rewrite Hf, Ec by done|rewrite Ho, Ec by tauto]; eauto.
  - destruct (decide (c = next)) as [->|]; [rewrite Hn, Ec; eauto|].
    destruct (decide (c ∈ k2)) as [Hck|Hck]; [rewrite Hf, Ec by done|rewrite Ho, Ec by done]; eauto.
Qed.

Lemma splice_links m p r l1 k2 next l3 x rx first :
  res_wf m → family m p (l1 ++ (k2 ++ [next]) ++ l3) → m !! p = Some r →
  m !! x = Some rx → r_parent rx = 0 → p ≠ x → hd 0 (k2 ++ [next]) = first →
  ∃ m', insert_splice m p x first next = Some m' ∧
    view m' = <[x := g_set_parent p (view1 rx)]> (reparent (k2 ++ [next]) x (view m)) ∧
    (∃ r', m' !! p = Some r' ∧ seg m' (r_child r') (l1 ++ x :: l3) 0) ∧
    (∃ rx', m' !! x = Some rx' ∧ seg m' (r_child rx') (k2 ++ [next]) 0) ∧
    links_changed m m' (λ c, c = x ∨ c ∈ l1 ++ k2 ++ [next]) (λ c, c = p ∨ c = x).
Proof.
  intros H HF E Ex Hpx Hne Hfirst.
  pose proof (orphan_not_in _ _ _ _ _ H HF Ex Hpx) as [Hx1 [Hx2 Hx3]%not_elem_of_app]%not_elem_of_app.
  pose proof (family_NoDup _ _ _ H HF) as (Hnd1 & Hnd12 & (Hnd2 & Hnd23 & Hnd3)%NoDup_app)%NoDup_app.
  pose proof (family_not_self _ _ _ H HF) as [Hp1 [Hp2 Hp3]%not_elem_of_app]%not_elem_of_app.
  pose proof (family_length _ _ _ H HF) as Hlen. rewrite !length_app in Hlen. unfold res_fuel in Hlen. simpl in Hlen.
  destruct (family_split _ _ _ _ _ HF E) as [Hs1 (e & Hs2 & Hs3)%seg_app].
  assert (Hh : hd 0 ((k2 ++ [next]) ++ l3) = first) by (rewrite <- Hfirst; by destruct k2). rewrite Hh in Hs1, Hs2.
  apply seg_app in Hs2 as (? & Hs2 & -> & rn & En & Hrn).
  assert (Hnx : next ∈ k2 ++ [next]) by (apply elem_of_app; right; by left).
  destruct (splice_store m p x rx first next e rn k2) as (m5 & Hsp & Hsz & ->); try done; [|lia|].
  { intros H0. destruct (family_in _ _ _ 0 HF) as (? & ? & _); [rewrite !elem_of_app in *; tauto|]. by rewrite (wf_null _ H) in *. }
  pose proof (spliced_changed _ _ _ _ _ _ _ _ _ Hsp) as HL5. pose proof Hsp as [Hsx Hsn Hsf Hso].
  assert (E5 : m5 !! p = Some r).
  { rewrite Hso; [done..| |]; intros Hp'; apply Hp2; [by subst|apply elem_of_app; by left]. }
  assert (Hfin : first ∈ k2 ++ [next]) by (subst first; destruct k2; by left).
  assert (Hs15 : seg m5 (r_child r) l1 first).
  { apply (seg_frame m); [|done]. intros c rc Hc. apply HL5. intros [->| ->]; [done|].
    apply (Hnd12 next Hc), elem_of_app. by left. }
  rewrite E5. run. rewrite (splice_place m5 p r l1); [|done..| |lia].
  2: { intros Hf. apply (Hnd12 first Hf). apply elem_of_app. by left. }
  destruct (place_write m5 p r l1 first x) as (m' & -> & [Hv' Hseg' Hsib' Hch']); try done.
  assert (HL : links_changed m m' (λ c, c = x ∨ c ∈ l1 ++ k2 ++ [next]) (λ c, c = p ∨ c = x)).
  { apply (links_changed_trans m m5 m' _ _ (λ c, c ∈ l1) _ _ (λ c, c = p) HL5); [by split| |].
    - intros c. rewrite !elem_of_app, list_elem_of_singleton. tauto.
    - tauto. }
  exists m'. split; [done|]. split; [rewrite Hv'; by apply (spliced_view _ _ _ _ first _ e)|].
  assert (Hx' : ∃ rx', m' !! x = Some rx' ∧ r_child rx' = first ∧ r_sibling rx' = e).
  { destruct (Hsib' x _ Hx1 Hsx) as (r1 & Er1 & ?). destruct (Hch' x _ ltac:(done) Hsx) as (r2 & Er2 & ?).
    simplify_eq. eauto. }
  destruct Hx' as (rx' & Ex' & Hxc & Hxs). split; [|split; [|done]].
  - destruct Hseg' as (r' & Er' & Hseg'). exists r'. split; [done|]. apply seg_app. exists x. split; [done|].
    split; [done|]. exists rx'. split; [done|]. rewrite Hxs. apply (seg_frame m); [|done].
    intros c rc Hc. apply HL. rewrite !elem_of_app. intros [->|[Hc'|Hc']]; [done| |].
    + apply (Hnd12 c Hc'). apply elem_of_app. by right.
    + apply (Hnd23 c); [|done]. by apply elem_of_app.
  - exists rx'. split; [done|]. rewrite Hxc. apply seg_app. exists next.
    assert (Hk : ∀ c, c ∈ k2 ++ [next] → c ∉ l1) by (intros c Hc Hc'; apply (Hnd12 c Hc'); apply elem_of_app; by left).
    split.
    + apply (seg_frame m); [|done]. intros c rc Hc Ec. destruct (Hsib' c (w_parent x rc)) as (rc' & ? & ?).
      * apply Hk, elem_of_app. by left.
      * by rewrite Hsf, Ec.
      * by exists rc'.
    + split; [done|]. destruct (Hsib' next (w_parent x (w_sibling 0 rn))) as (rn' & ? & Hs').
      * by apply Hk.
      * by rewrite Hsn, En.
      * by exists rn'.
Qed.

Section spliced_families.
Context (m m' : res_mem) (p x : Z) (rx : resource) (l1 l2 l3 : list Z).
Context (H : res_wf m) (HF : family m p (l1 ++ l2 ++ l3)) (Hpx : r_parent rx = 0) (Hne : p ≠ x) (Ex : m !! x = Some rx).
Context (Hcx : r_child rx = 0) (Hv' : view m' = <[x := g_set_parent p (view1 rx)]> (reparent l2 x (view m))).

Lemma spliced_kept c : c ≠ x → c ∉ l2 → view m' !! c = view m !! c.
Proof using Hv'. intros ? ?. by rewrite Hv', lookup_insert_ne, reparent_lookup, decide_False. Qed.

Lemma spliced_moved c : c ≠ x → c ∈ l2 → view m' !! c = g_set_parent x <$> view m !! c.
Proof using Hv'. intros ? ?. by rewrite Hv', lookup_insert_ne, reparent_lookup, decide_True. Qed.

Lemma spliced_new : view m' !! x = Some (g_set_parent p (view1 rx)).
Proof using Hv'. rewrite Hv'. apply lookup_insert_eq. Qed.

Lemma spliced_members c : c ∈ l1 ++ l2 ++ l3 → c ≠ x ∧ ∃ rc, m !! c = Some rc ∧ r_parent rc = p.
Proof using H HF Hpx Ex.
  intros Hc. split; [|by apply (family_in _ _ _ _ HF)]. intros ->. by apply (orphan_not_in _ _ _ _ _ H HF Ex Hpx).
Qed.

(** Order is kept: it does not depend on parents. *)
Lemma spliced_before a b : a ∈ l1 ++ l2 ++ l3 → b ∈ l1 ++ l2 ++ l3 → before m a b → before m' a b.
Proof using H HF Hpx Ex Hv'.
  intros Ha Hb (ra & rb & Ea & Eb & Hlt). apply before_view.
  assert (Hg : ∀ c rc, c ∈ l1 ++ l2 ++ l3 → m !! c = Some rc →
    ∃ g, view m' !! c = Some g ∧ g_start g = r_start rc ∧ g_end g = r_end rc).
  { intros c rc Hc Ec. destruct (spliced_members c Hc) as [Hcx' _]. destruct (decide (c ∈ l2)).
    - rewrite spliced_moved, (view_some _ _ _ Ec) by done. eexists. done.
    - rewrite spliced_kept, (view_some _ _ _ Ec) by done. eexists. done. }
  destruct (Hg a ra Ha Ea) as (ga & ? & ? & ?), (Hg b rb Hb Eb) as (gb & ? & ? & ?). exists ga, gb. split_and!; try done. lia.
Qed.

Lemma spliced_family_new rx' : m' !! x = Some rx' → seg m' (r_child rx') l2 0 → family m' x l2.
Proof using All.
  intros Ex' Hs. apply family_intro with rx'; [done..| |].
  - intros c. destruct (decide (c = x)) as [->|Hc].
    + rewrite spliced_new. split.
      * intros Hx2. exfalso. apply (spliced_members x); [|done]. rewrite !elem_of_app. auto.
      * intros (g & [= <-] & Hg). by simpl in Hg.
    + destruct (decide (c ∈ l2)) as [Hc2|Hc2].
      * rewrite spliced_moved by done. destruct (spliced_members c) as (_ & rc & Ec & _); [rewrite !elem_of_app; auto|].
        rewrite (view_some _ _ _ Ec). split; [|done]. intros _. by eexists.
      * rewrite spliced_kept, <- (family_parent m x []); [|by apply (detached_family m x rx)|done..].
        split; [done|]. by intros ?%elem_of_nil.
  - pose proof HF as (_ & _ & _ & _ & (_ & _ & (_ & HS2 & _)%StronglySorted_app)%StronglySorted_app).
    apply (StronglySorted_impl (before m)); [|done]. intros a b Ha Hb. apply spliced_before; rewrite !elem_of_app; auto.
Qed.

Lemma spliced_family_parent r' :
  (∀ c rc, c ∈ l1 → m !! c = Some rc → r_end rc < r_start rx) →
  (∀ c rc, c ∈ l3 → m !! c = Some rc → r_end rx < r_start rc) →
  m' !! p = Some r' → seg m' (r_child r') (l1 ++ x :: l3) 0 → family m' p (l1 ++ x :: l3).
Proof using All.
  intros Hl1 Hl3 E' Hs.
  pose proof (family_NoDup _ _ _ H HF) as (Hnd1 & Hnd12 & (Hnd2 & Hnd23 & Hnd3)%NoDup_app)%NoDup_app.
  pose proof HF as (_ & _ & _ & _ & (H12 & HS1 & (H23 & HS2 & HS3)%StronglySorted_app)%StronglySorted_app).
  assert (Hk : ∀ c, c ∈ l1 ∨ c ∈ l3 → c ≠ x ∧ c ∉ l2 ∧ ∃ rc, m !! c = Some rc).
  { intros c Hc. destruct (spliced_members c) as (? & rc & ? & _); [rewrite !elem_of_app; tauto|]. split; [done|]. split; [|eauto].
    intros Hc2. destruct Hc as [Hc|Hc]; [apply (Hnd12 c Hc), elem_of_app; by left|by apply (Hnd23 c)]. }
  apply family_intro with r'; [done..| |].
  - intros c. rewrite elem_of_app, elem_of_cons. destruct (decide (c = x)) as [->|Hc].
    + rewrite spliced_new. split; [intros _; by eexists|auto].
    + destruct (decide (c ∈ l2)) as [Hc2|Hc2].
      * rewrite spliced_moved by done. split; [naive_solver|].
        intros (g & (g0 & _ & ->)%fmap_Some & Hg). simpl in Hg. congruence.
      * rewrite spliced_kept, <- (family_parent _ _ _ _ HF), !elem_of_app by done. naive_solver.
  - assert (Hx1 : ∀ a, a ∈ l1 → before m' a x).
    { intros a Ha. destruct (Hk a) as (? & ? & ra & Ea); [auto|]. apply before_view.
      rewrite spliced_new, (spliced_kept a), (view_some _ _ _ Ea) by done. do 2 eexists. do 2 (split; [done|]). by apply (Hl1 a). }
    assert (Hx3 : ∀ b, b ∈ l3 → before m' x b).
    { intros b Hb. destruct (Hk b) as (? & ? & rb & Eb); [auto|]. apply before_view.
      rewrite spliced_new, (spliced_kept b), (view_some _ _ _ Eb) by done. do 2 eexists. do 2 (split; [done|]). by apply (Hl3 b). }
    apply StronglySorted_app. split; [|split].
    + intros a b Ha [->|Hb]%elem_of_cons; [auto|]. apply spliced_before; [rewrite !elem_of_app; auto..|].
      apply H12; [done|]. apply elem_of_app. by right.
    + apply (StronglySorted_impl (before m)); [|done]. intros a b Ha Hb. apply spliced_before; rewrite !elem_of_app; auto.
    + constructor; [|by apply Forall_forall]. apply (StronglySorted_impl (before m)); [|done].
      intros a b Ha Hb. apply spliced_before; rewrite !elem_of_app; auto.
Qed.
End spliced_families.

Lemma splice m p r l1 k2 next l3 x rx first :
  res_wf m → family m p (l1 ++ (k2 ++ [next]) ++ l3) → m !! p = Some r →
  m !! x = Some rx → r_parent rx = 0 → r_child rx = 0 → p ≠ x → hd 0 (k2 ++ [next]) = first →
  r_start r ≤ r_start rx ≤ r_end rx → r_end rx ≤ r_end r →
  (∀ c rc, c ∈ l1 → m !! c = Some rc → r_end rc < r_start rx) →
  (∀ c rc, c ∈ k2 ++ [next] → m !! c = Some rc → r_start rx ≤ r_start rc ∧ r_end rc ≤ r_end rx) →
  (∀ c rc, c ∈ l3 → m !! c = Some rc → r_end rx < r_start rc) →
  ∃ m', insert_splice m p x first next = Some m' ∧ res_wf m' ∧
    view m' = <[x := g_set_parent p (view1 rx)]> (reparent (k2 ++ [next]) x (view m)).
Proof.
  intros H HF E Ex Hpx Hcx Hne Hfirst Hin1 Hin2 Hl1 Hl2 Hl3.
  destruct (splice_links m p r l1 k2 next l3 x rx first) as (m' & -> & Hv' & (r' & E' & Hs') & (rx' & Ex' & Hsx') & HL); try done.
  exists m'. split; [done|]. split; [|done]. set (l2 := k2 ++ [next]) in *.
  pose proof (orphan_not_in _ _ _ _ _ H HF Ex Hpx) as [Hx1 [Hx2 Hx3]%not_elem_of_app]%not_elem_of_app.
  pose proof (family_NoDup _ _ _ H HF) as (Hnd1 & Hnd12 & (Hnd2 & Hnd23 & Hnd3)%NoDup_app)%NoDup_app.
  pose proof (family_not_self _ _ _ H HF) as [Hp1 [Hp2 Hp3]%not_elem_of_app]%not_elem_of_app.
  assert (Hvc : ∀ c, c ≠ x → c ∉ l2 → view m' !! c = view m !! c).
  { intros c ? ?. by rewrite Hv', lookup_insert_ne, reparent_lookup, decide_False. }
  assert (Hvx : view m' !! x = Some (g_set_parent p (view1 rx))) by (rewrite Hv'; apply lookup_insert_eq).
  assert (Hv2 : ∀ c, c ∈ l2 → view m' !! c = g_set_parent x <$> view m !! c).
  { intros c Hc. rewrite Hv', lookup_insert_ne, reparent_lookup, decide_True; [done..|]. by intros ->. }
  eapply wf_change; [done..| |].
  - rewrite Hv'. eapply view_ok_splice; [apply (wf_view _ H)|by apply view_some|by apply view_some|done..| |].
    + intros c gc Ec Hgc. assert (c ∈ []) as []%elem_of_nil.
      apply (family_parent m x); [|by exists gc]. by apply (detached_family m x rx).
    + intros c gc Hc (rc & Erc & <-)%view_some_inv. split; [|by apply (Hl2 c)].
      destruct (family_in _ _ _ c HF) as (? & ? & ?); [rewrite !elem_of_app; auto|]. by simplify_eq.
  - intros q Hq. destruct (decide (q = p)) as [->|Hqp]; [|destruct (decide (q = x)) as [->|Hqx]].
    + right. exists (l1 ++ x :: l3). by eapply (spliced_family_parent m m' p x rx l1 l2 l3).
    + right. exists l2. by eapply (spliced_family_new m m' p x rx l1 l2 l3).
    + left. split; [|split; [tauto|split]].
      * apply (view_known m m'); [|done]. intros c. rewrite Hv'. destruct (decide (c = x)) as [->|].
        -- rewrite lookup_insert_eq, (view_some _ _ _ Ex). by split; eauto.
        -- rewrite lookup_insert_ne, reparent_lookup by done. destruct (decide _); [by rewrite fmap_is_Some|done].
      * intros c (rc & Ec & Hc). assert (Hcl : c ∉ l1 ++ l2 ++ l3).
        { intros Hc'. destruct (family_in _ _ _ c HF Hc') as (? & ? & ?). by simplify_eq. }
        rewrite !elem_of_app in Hcl. assert (c ≠ x).
        { intros ->. simplify_eq. apply Hqx. exfalso. destruct Hq as [? Hq]. rewrite Hpx in Hq. apply view_some in Hq.
          rewrite Hvc, view_lookup, (wf_null _ H) in Hq; [done| |].
          - intros <-. by rewrite (wf_null _ H) in Ex.
          - intros H0. destruct (family_in _ _ _ 0 HF) as (? & ? & _); [rewrite !elem_of_app; auto|]. by rewrite (wf_null _ H) in *. }
        rewrite elem_of_app. split; [tauto|]. apply Hvc; tauto.
      * intros c. rewrite !child_of_view. destruct (decide (c = x)) as [->|Hcx'].
        -- rewrite Hvx. intros (g & [= <-] & Hg). simpl in Hg. congruence.
        -- destruct (decide (c ∈ l2)) as [Hc2|Hc2]; [|by rewrite Hvc]. rewrite Hv2 by done.
           intros (g & (g0 & _ & ->)%fmap_Some & Hg). simpl in Hg. congruence.
Qed.
End linking.

(** ** Descriptors outside of the tree *)

Section outside.
Implicit Types (m : res_mem) (l : list Z).

(** An address nobody points to: it is free or holds a detached descriptor. *)
Definition loose (m : res_mem) (x : Z) : Prop := x ≠ 0 ∧ (m !! x = None ∨ detached m x).

Lemma detached_loose m x : res_wf m → detached m x → loose m x.
Proof. intros H Hd. split; [|by right]. destruct Hd as (r & E & _). eauto using wf_neq0. Qed.

Lemma loose_no_child m x c rc : res_wf m → loose m x → m !! c = Some rc → r_parent rc ≠ x.
Proof.
  intros H [Hx0 [Hn|(r & E & Hp & Hc)]] Ec Hpc.
  - destruct (wf_inside m c rc) as (? & ? & _); [done|done|congruence|]. congruence.
  - assert (c ∈ []) as []%elem_of_nil. apply (family_parent m x); [by apply (detached_family m x r)|].
    exists (view1 rc). by rewrite (view_some _ _ _ Ec).
Qed.

Lemma loose_parent m x r : loose m x → m !! x = Some r → r_parent r = 0.
Proof. intros [_ [?|(? & ? & ? & _)]] E; by simplify_eq. Qed.

(** A view that differs at a loose address only, where a descriptor without parent
    is written or taken away. *)
Lemma view_ok_loose m x o :
  res_wf m → loose m x → (∀ g, o = Some g → g_parent g = 0 ∧ 0 ≤ g_start g < 2 ^ 32 ∧ 0 ≤ g_end g < 2 ^ 32) →
  view_ok (partial_alter (λ _, o) x (view m)).
Proof.
  intros H Hx Ho. pose proof (wf_view _ H) as [H0 Hr Hp [rank Hk]].
  assert (Hcase : ∀ c g, partial_alter (λ _, o) x (view m) !! c = Some g → c = x ∧ o = Some g ∨ c ≠ x ∧ view m !! c = Some g).
  { intros c g. destruct (decide (c = x)) as [->|]; [rewrite lookup_partial_alter_eq|rewrite lookup_partial_alter_ne by done]; auto. }
  split.
  - rewrite lookup_partial_alter_ne; [done|]. apply Hx.
  - intros c g [[-> Eo]|[_ Ec]]%Hcase; [by apply Ho|eauto].
  - intros c g [[-> Eo]|[Hc Ec]]%Hcase Hpc; [by destruct (Ho g Eo)|].
    destruct (Hp c g Ec Hpc) as (h & Eh & ?). exists h. rewrite lookup_partial_alter_ne; [done|].
    apply view_some_inv in Ec as (rc & Ec & <-). intros E. by apply (loose_no_child m x c rc).
  - exists rank. intros c g [[-> Eo]|[Hc Ec]]%Hcase Hpc; [by destruct (Ho g Eo)|eauto].
Qed.

Lemma wf_loose m m' x o :
  res_wf m → loose m x → view m' = partial_alter (λ _, o) x (view m) →
  (∀ g, o = Some g → g_parent g = 0 ∧ 0 ≤ g_start g < 2 ^ 32 ∧ 0 ≤ g_end g < 2 ^ 32) →
  (∀ c, c ≠ x → m' !! c = m !! c) → (∀ r, m' !! x = Some r → r_child r = 0) → res_wf m'.
Proof.
  intros H Hx Hv Ho Hm' Hc.
  apply (wf_change m m' (λ c, c = x) (λ c, c = x)); [done| |rewrite Hv; by apply view_ok_loose|].
  - split; intros c r Hcx Ec; exists r; by rewrite Hm'.
  - assert (Hback : ∀ q, q ≠ 0 → ∀ c, child_of m' q c → child_of m q c).
    { intros q Hq c. rewrite !child_of_view, Hv. intros (g & Eg & Hg). destruct (decide (c = x)) as [->|].
      - rewrite lookup_partial_alter_eq in Eg. destruct (Ho g Eg). congruence.
      - rewrite lookup_partial_alter_ne in Eg by done. by exists g. }
    intros q [rq Eq]. destruct (decide (q = x)) as [->|Hqx].
    + right. exists []. exists rq. split; [done|]. split; [simpl; auto|]. split; [|constructor].
      intros c. split; [by intros ?%elem_of_nil|]. intros (rc & Ec & Hp)%Hback; [|apply Hx].
      exfalso. by apply (loose_no_child m x c rc).
    + left. rewrite Hm' in Eq by done. assert (q ≠ 0) by eauto using wf_neq0. split; [eauto|]. split; [done|]. split; [|auto].
      intros c (rc & Ec & Hp). assert (c ≠ x).
      { intros ->. pose proof (loose_parent _ _ _ Hx Ec). congruence. }
      split; [done|]. by rewrite !view_lookup, Hm'.
Qed.

Lemma wf_put m x r :
  res_wf m → loose m x → r_parent r = 0 → r_child r = 0 →
  0 ≤ r_start r < 2 ^ 32 → 0 ≤ r_end r < 2 ^ 32 → res_wf (<[x := r]> m).
Proof.
  intros H Hx Hp Hc Hs He. apply (wf_loose m _ x (Some (view1 r))); try done.
  - by rewrite view_insert.
  - by intros g [= <-].
  - intros c ?. by apply lookup_insert_ne.
  - intros r'. rewrite lookup_insert_eq. by intros [= <-].
Qed.

Lemma wf_free m x : res_wf m → loose m x → res_wf (kfree_res m x).
Proof.
  intros H Hx. apply (wf_loose m _ x None); try done.
  - apply view_delete.
  - intros c ?. by apply lookup_delete_ne.
  - intros r'. unfold kfree_res. by rewrite lookup_delete_eq.
Qed.

Lemma wf_boot : res_wf resource_boot.
Proof.
  apply wf_put; [|split; [done|by left]|done..]. apply (wf_put ∅); [|split; [done|by left]|done..].
  split; [split|].
  - done.
  - intros p g. unfold view. rewrite fmap_empty. by rewrite lookup_empty.
  - intros p g. unfold view. rewrite fmap_empty. by rewrite lookup_empty.
  - exists (λ _, O). intros p g. unfold view. rewrite fmap_empty. by rewrite lookup_empty.
  - intros p [r E]. by rewrite lookup_empty in E.
Qed.

(** ** Changing the range of a linked descriptor *)

Lemma view_ok_adjust m x rx s e rp :
  res_wf m → m !! x = Some rx → m !! r_parent rx = Some rp →
  0 ≤ s ≤ e → e < 2 ^ 32 → r_start rp ≤ s → e ≤ r_end rp →
  (∀ c rc, m !! c = Some rc → r_parent rc = x → s ≤ r_start rc ∧ r_end rc ≤ e) →
  view_ok (<[x := g_set_range s e (view1 rx)]> (view m)).
Proof.
  intros H Ex Ep Hs He Hps Hpe Hc. pose proof (wf_view _ H) as [H0 Hr Hp [rank Hk]].
  pose proof (view_some _ _ _ Ex) as Evx.
  assert (Hxp : x ≠ r_parent rx).
  { intros E. specialize (Hk x (view1 rx) Evx). simpl in Hk. rewrite <- E in Hk. specialize (Hk (wf_neq0 _ _ _ H Ex)). lia. }
  split.
  - rewrite lookup_insert_ne; [done|]. intros ->. by rewrite H0 in Evx.
  - intros c g. rewrite lookup_insert_Some. intros [[-> <-]|[_ ?]]; [simpl; lia|eauto].
  - intros c g. rewrite lookup_insert_Some. intros [[-> <-]|[Hcx Ec]]; simpl; intros Hpc.
    + exists (view1 rp). rewrite lookup_insert_ne by done. rewrite (view_some _ _ _ Ep). split; [done|]. simpl. lia.
    + destruct (Hp c g Ec Hpc) as (h & Eh & ? & ?). destruct (decide (x = g_parent g)) as [E|].
      * exists (g_set_range s e (view1 rx)). rewrite <- E, lookup_insert_eq. split; [done|]. simpl.
        apply view_some_inv in Ec as (rc & Ec & <-). destruct (Hc c rc Ec); [done|]. simpl in *. lia.
      * exists h. by rewrite lookup_insert_ne.
  - exists rank. intros c g. rewrite lookup_insert_Some. intros [[-> <-]|[Hcx Ec]] Hpc; [by apply (Hk c (view1 rx))|eauto].
Qed.

Lemma wf_adjust m x rx s e rp l1 l2 :
  res_wf m → m !! x = Some rx → m !! r_parent rx = Some rp → family m (r_parent rx) (l1 ++ x :: l2) →
  0 ≤ s ≤ e → e < 2 ^ 32 → r_start rp ≤ s → e ≤ r_end rp →
  (∀ c rc, m !! c = Some rc → r_parent rc = x → s ≤ r_start rc ∧ r_end rc ≤ e) →
  (∀ c rc, c ∈ l1 → m !! c = Some rc → r_end rc < s) →
  (∀ c rc, c ∈ l2 → m !! c = Some rc → e < r_start rc) →
  res_wf (<[x := w_range s e rx]> m).
Proof.
  intros H Ex Ep HF Hs He Hps Hpe Hc Hl1 Hl2. set (m' := <[x := w_range s e rx]> m). set (p := r_parent rx) in *.
  pose proof (family_not_self _ _ _ H HF) as Hps'. pose proof (family_NoDup _ _ _ H HF) as (_ & Hnd1 & [Hnd2 _]%NoDup_cons)%NoDup_app.
  assert (Hpx : p ≠ x) by (intros E; apply Hps'; rewrite E; apply elem_of_app; right; by left).
  assert (Hm' : ∀ c, c ≠ x → m' !! c = m !! c) by (intros; by apply lookup_insert_ne).
  assert (Hx' : m' !! x = Some (w_range s e rx)) by apply lookup_insert_eq.
  assert (Hx1 : x ∉ l1) by (intros Hx; apply (Hnd1 x Hx); by left).
  assert (Hb : ∀ a b, a ≠ x → b ≠ x → before m a b → before m' a b).
  { intros a b Ha Hb. apply before_kept; by rewrite !view_lookup, Hm'. }
  assert (Hpar : ∀ q c, child_of m' q c ↔ child_of m q c).
  { intros q c. unfold child_of. destruct (decide (c = x)) as [->|]; [rewrite Hx', Ex|by rewrite Hm'].
    split; intros (r & [= <-] & Hr); by eexists. }
  apply (wf_change m m' (λ _, False) (λ _, False)); [done| | |].
  - split; intros c r _ Ec; (destruct (decide (c = x)) as [->|]; [simplify_eq; eauto|exists r; by rewrite Hm']).
  - unfold m'. rewrite view_insert. by eapply (view_ok_adjust m x rx s e rp).
  - intros q [rq' Eq']. destruct (decide (q = p)) as [->|Hqp].
    + right. exists (l1 ++ x :: l2). destruct HF as (r & E & Hseg & Hl & (H12 & HS1 & [HSx HS2]%StronglySorted_cons)%StronglySorted_app).
      exists r. rewrite Hm' by done. split; [done|]. split; [|split].
      * apply (seg_frame m); [|done]. intros c rc _ Ec. destruct (decide (c = x)) as [->|]; [simplify_eq; eauto|exists rc; by rewrite Hm'].
      * intros c. rewrite Hpar. apply Hl.
      * assert (Hk : ∀ c, c ∈ l1 ++ x :: l2 → ∃ rc, m !! c = Some rc) by (intros c (? & ? & _)%Hl; eauto).
        apply StronglySorted_app. split; [|split].
        -- intros a b Ha [->|Hbl]%elem_of_cons.
           ++ destruct (Hk a) as [ra Ea]; [apply elem_of_app; by left|]. exists ra, (w_range s e rx).
              rewrite (Hm' a), Hx' by by intros ->. split_and!; [done..|]. simpl. by apply (Hl1 a).
           ++ apply Hb; [by intros ->..|]. apply H12; [done|by right].
        -- apply (StronglySorted_impl (before m)); [|done]. intros a b Ha Hbl. apply Hb; by intros ->.
        -- constructor; [apply (StronglySorted_impl (before m)); [|done]; intros a b Ha Hbl; apply Hb; by intros ->|].
           apply Forall_forall. intros b Hbl. destruct (Hk b) as [rb Eb]; [apply elem_of_app; right; by right|].
           exists (w_range s e rx), rb. rewrite (Hm' b), Hx' by by intros ->. split_and!; [done..|]. simpl. by apply (Hl2 b).
    + left. split; [|split; [by intros []|split]].
      * destruct (decide (q = x)) as [->|]; [eauto|]. rewrite <- Hm' by done. eauto.
      * intros c (rc & Ec & Hrc). split; [by intros []|]. rewrite !view_lookup, Hm'; [done|]. intros ->. by simplify_eq.
      * intros c. by apply Hpar.
Qed.
End outside.
