(* ===== verification/ResourceOps.v ===== *)
(** The operations on the resource tree, against its view.

    Every operation is described by what it does to the view (ranges and parents);
    that the links present the new view is part of [res_wf].  First the requests,
    then the composed operations. *)

From stdpp Require Import strings.
From S2P Require Import Prelude Resource ResourceInv.

(** ** Ranges *)

Definition overlap (a b : resource) : Prop := r_start a ≤ r_end b ∧ r_start b ≤ r_end a.
Definition inside (a b : resource) : Prop := r_start b ≤ r_start a ∧ r_end a ≤ r_end b.
(** [n] is a range that can be placed under [r]. *)
Definition fits (r n : resource) : Prop := r_start n ≤ r_end n ∧ inside n r.

#[global] Instance overlap_dec a b : Decision (overlap a b).
Proof. unfold overlap. apply _. Defined.
#[global] Instance inside_dec a b : Decision (inside a b).
Proof. unfold inside. apply _. Defined.
#[global] Instance fits_dec a b : Decision (fits a b).
Proof. unfold fits. apply _. Defined.

Section requests.
Implicit Types (m : res_mem) (l : list Z).

(** The children of [p] that overlap [n]. *)
Definition conflicts (m : res_mem) (p : Z) (n : resource) (c : Z) : Prop :=
  ∃ rc, m !! c = Some rc ∧ r_parent rc = p ∧ overlap rc n.

(** ** __request_resource *)

Inductive request_result (m : res_mem) (root new : Z) (r n : resource) : res_mem → Z → Prop :=
| RequestDone m' :
    fits r n → (∀ c, ¬ conflicts m root n c) →
    res_wf m' → view m' = <[new := g_set_parent root (view1 n)]> (view m) →
    request_result m root new r n m' 0
| RequestOutside : ¬ fits r n → request_result m root new r n m root
| RequestConflict c rc :
    fits r n → m !! c = Some rc → r_parent rc = root → overlap rc n →
    (∀ d rd, d ≠ c → m !! d = Some rd → r_parent rd = root → overlap rd n → r_end rc < r_start rd) →
    request_result m root new r n m c.

Lemma request_loop_run fuel m p l1 l2 new start fin :
  family m p (l1 ++ l2) → (∀ c, c ∈ l2 → c ≠ 0) → (length l2 < fuel)%nat →
  ∃ k1 k2, l2 = k1 ++ k2 ∧ (∀ c rc, c ∈ k1 → m !! c = Some rc → r_end rc < start) ∧
    ((∀ c k rc, k2 = c :: k → m !! c = Some rc → r_start rc > fin) ∧
       request_loop fuel m p new start fin (place p l1) = request_place m p new (place p (l1 ++ k1)) (hd 0 k2) ∨
     ∃ c k rc, k2 = c :: k ∧ m !! c = Some rc ∧ r_start rc ≤ fin ∧ start ≤ r_end rc ∧
       request_loop fuel m p new start fin (place p l1) = Some (m, c)).
Proof.
  intros HF. revert l1 l2 HF. induction fuel as [|fuel IH]; intros l1 l2 HF H0 Hf; [lia|].
  destruct (family_known _ _ _ HF) as [r E]. destruct (family_split _ _ _ _ _ HF E) as [Hs1 Hs2].
  cbn [request_loop]. rewrite (place_read _ _ _ _ _ E Hs1). run.
  destruct l2 as [|c l2]; simpl hd.
  { exists [], []. split; [done|]. split; [by intros ? ? ?%elem_of_nil|]. left. split; [done|]. by rewrite app_nil_r. }
  destruct (Z.eqb_spec c 0) as [Hc0|_]; [exfalso; by apply (H0 c); [left|]|].
  destruct Hs2 as (_ & rc & Ec & Hs2). rewrite Ec. run. rewrite Z.gtb_ltb.
  destruct (Z.ltb_spec fin (r_start rc)); [|destruct (Z.ltb_spec (r_end rc) start)].
  - exists [], (c :: l2). split; [done|]. split; [by intros ? ? ?%elem_of_nil|]. left.
    rewrite app_nil_r. split; [|done]. intros ? ? ? [= <- <-] ?. simplify_eq. lia.
  - destruct (IH (l1 ++ [c]) l2) as (k1 & k2 & -> & Hk1 & Hcase).
    + by rewrite <- app_assoc.
    + intros d Hd. apply H0. by right.
    + simpl in Hf. lia.
    + exists (c :: k1), k2. split; [done|]. split.
      * intros d rd [->|Hd]%elem_of_cons Ed; [by simplify_eq|by apply (Hk1 d)].
      * rewrite place_snoc, <- app_assoc in Hcase. exact Hcase.
  - exists [], (c :: l2). split; [done|]. split; [by intros ? ? ?%elem_of_nil|]. right.
    exists c, l2, rc. split_and!; try done; lia.
Qed.

(** Of two children, in this order in the list of the family. *)
Lemma family_order m p l1 l2 a b ra rb :
  family m p (l1 ++ l2) → a ∈ l1 → b ∈ l2 → m !! a = Some ra → m !! b = Some rb → r_end ra < r_start rb.
Proof.
  intros (_ & _ & _ & _ & (H12 & _)%StronglySorted_app) Ha Hb Ea Eb.
  destruct (H12 a b Ha Hb) as (? & ? & ? & ? & ?). by simplify_eq.
Qed.

Lemma family_child m p l c rc : family m p l → m !! c = Some rc → r_parent rc = p → c ∈ l.
Proof. intros (_ & _ & _ & Hl & _) Ec Hc. apply Hl. by exists rc. Qed.

(** What starts behind [e] from some child on. *)
Lemma family_tail m p l1 l2 e :
  res_wf m → family m p (l1 ++ l2) → (∀ z k rz, l2 = z :: k → m !! z = Some rz → e < r_start rz) →
  ∀ c rc, c ∈ l2 → m !! c = Some rc → e < r_start rc.
Proof.
  intros H HF Hz c rc Hc Ec. destruct l2 as [|z k]; [by apply elem_of_nil in Hc|].
  assert (Hzl : z ∈ l1 ++ z :: k) by (apply elem_of_app; right; by left).
  destruct (family_in _ _ _ z HF Hzl) as (rz & Ez & _). specialize (Hz z k rz eq_refl Ez).
  apply elem_of_cons in Hc as [->|Hc]; [by simplify_eq|].
  destruct (family_known _ _ _ HF) as [r E]. pose proof (family_inside m p _ z r rz H HF Hzl E Ez).
  assert (r_end rz < r_start rc); [|lia]. rewrite (cons_middle z l1 k), app_assoc in HF.
  eapply (family_order m p (l1 ++ [z]) k z c); try done. apply elem_of_app. right. by left.
Qed.

(** The first child that overlaps [n] splits the family. *)
Lemma first_conflict m q first rf n :
  res_wf m → is_Some (m !! q) → m !! first = Some rf → r_parent rf = q → overlap rf n →
  (∀ d rd, d ≠ first → m !! d = Some rd → r_parent rd = q → overlap rd n → r_end rf < r_start rd) →
  ∃ l1 l2, family m q (l1 ++ first :: l2) ∧ (∀ c rc, c ∈ l1 → m !! c = Some rc → r_end rc < r_start n).
Proof.
  intros H [rq Eq] Ef Hfq Hov Hmin. destruct (wf_links _ H q) as [l HF]; [eauto|].
  pose proof (family_child _ _ _ _ _ HF Ef Hfq) as (l1 & l2 & ->)%list_elem_of_split.
  exists l1, l2. split; [done|]. intros c rc Hc Ec.
  assert (Hcl : c ∈ l1 ++ first :: l2) by (apply elem_of_app; by left).
  pose proof (family_inside m q _ c rq rc H HF Hcl Eq Ec) as (Hcq & ? & ?).
  pose proof (family_inside m q _ first rq rf H HF ltac:(apply elem_of_app; right; by left) Eq Ef) as (_ & ? & ?).
  assert (r_end rc < r_start rf) by (eapply (family_order m q l1 (first :: l2) c first); try done; by left).
  destruct (decide (overlap rc n)) as [Hco|Hco]; [|unfold overlap in *; lia].
  assert (c ≠ first) by (intros ->; simplify_eq; lia). specialize (Hmin c rc ltac:(done) Ec Hcq Hco). lia.
Qed.

Lemma __request_resource_spec m root new r n :
  res_wf m → m !! root = Some r → m !! new = Some n → r_parent n = 0 → r_child n = 0 → root ≠ new →
  ∃ m' c, __request_resource m root new = Some (m', c) ∧ request_result m root new r n m' c.
Proof.
  intros H E En Hp Hc Hne. unfold __request_resource. rewrite En. run. rewrite E. run.
  destruct (decide (fits r n)) as [Hfit|Hfit].
  2: { exists m, root. split; [unfold fits, inside in Hfit; zbool; try done; lia|by constructor]. }
  pose proof Hfit as [Hn [Hi1 Hi2]].
  rewrite (proj2 (Z.ltb_ge (r_end n) (r_start n))), (proj2 (Z.ltb_ge (r_start n) (r_start r))) by done.
  rewrite Z.gtb_ltb, (proj2 (Z.ltb_ge (r_end r) (r_end n))) by done.
  destruct (wf_links _ H root) as [l HF]; [eauto|].
  destruct (request_loop_run (res_fuel m) m root [] l new (r_start n) (r_end n)) as (k1 & k2 & -> & Hk1 & Hcase); [done| | |].
  { intros c Hcl. destruct (family_in _ _ _ _ HF Hcl) as (? & ? & _). eauto using wf_neq0. }
  { by apply (family_length m root). }
  rewrite place_nil in Hcase. destruct Hcase as [[Hk2 ->]|(c & k & rc & -> & Ec & Hc1 & Hc2 & ->)].
  - assert (Hk2' : ∀ c rc, c ∈ k2 → m !! c = Some rc → r_end n < r_start rc).
    { apply (family_tail m root k1); [done..|]. intros z k rz -> Ez. specialize (Hk2 z k rz eq_refl Ez). lia. }
    destruct (link_in m root r k1 k2 new n) as (m' & Hreq & Hwf & Hv & _); try done.
    simpl. rewrite Hreq. exists m', 0. split; [done|]. constructor; try done.
    intros c (rc & Ec & Hcr & Hov). pose proof (family_child _ _ _ _ _ HF Ec Hcr) as [Hck|Hck]%elem_of_app.
    + specialize (Hk1 c rc Hck Ec). unfold overlap in Hov. lia.
    + specialize (Hk2' c rc Hck Ec). unfold overlap in Hov. lia.
  - exists m, c. split; [done|].
    destruct (family_in _ _ _ c HF) as (rc' & Ec' & Hcp); [apply elem_of_app; right; by left|]. simplify_eq.
    econstructor; try done. intros d rd Hd Ed Hdp Hov.
    pose proof (family_child _ _ _ _ _ HF Ed Hdp) as [Hck|Hck]%elem_of_app.
    + specialize (Hk1 d rd Hck Ed). unfold overlap in Hov. lia.
    + apply elem_of_cons in Hck as [|Hck]; [done|]. rewrite (cons_middle c k1 k), app_assoc in HF.
      eapply (family_order m _ (k1 ++ [c]) k c d); try done. apply elem_of_app. right. by left.
Qed.

(** ** __release_resource *)

Lemma release_loop_run fuel m p l1 l2 x l3 :
  family m p (l1 ++ l2 ++ x :: l3) → (∀ c, c ∈ l2 ++ x :: l3 → c ≠ 0) → x ∉ l2 → (length l2 < fuel)%nat →
  release_res_loop fuel m x (place p l1) =
    (rx ← m !! x; m ← link_write m (place p (l1 ++ l2)) (r_sibling rx); m ← res_upd m x (w_parent 0); Some (m, 0)).
Proof.
  revert l1 l2. induction fuel as [|fuel IH]; intros l1 l2 HF H0 Hx Hf; [lia|].
  destruct (family_known _ _ _ HF) as [r E]. destruct (family_split _ _ _ _ _ HF E) as [Hs1 Hs2].
  cbn [release_res_loop]. rewrite (place_read _ _ _ _ _ E Hs1). run. destruct l2 as [|c l2]; simpl hd.
  - rewrite (proj2 (Z.eqb_neq x 0)) by (apply H0; by left). destruct Hs2 as (_ & rx & Ex & _). rewrite Ex. run.
    by rewrite Z.eqb_refl, app_nil_r.
  - rewrite (proj2 (Z.eqb_neq c 0)) by (apply H0; by left). destruct Hs2 as (_ & rc & Ec & _). rewrite Ec. run.
    apply not_elem_of_cons in Hx as [Hxc Hx]. rewrite (proj2 (Z.eqb_neq c x)) by done.
    rewrite <- (place_snoc p l1 c), (IH (l1 ++ [c]) l2).
    + by rewrite <- app_assoc.
    + by rewrite <- app_assoc.
    + intros d Hd. apply H0. by right.
    + done.
    + simpl in Hf. lia.
Qed.

Lemma __release_resource_spec m x rx :
  res_wf m → m !! x = Some rx → r_parent rx ≠ 0 →
  ∃ m', __release_resource m x = Some (m', 0) ∧ res_wf m' ∧
    view m' = <[x := g_set_parent 0 (view1 rx)]> (view m) ∧
    (∃ rx', m' !! x = Some rx' ∧ r_child rx' = r_child rx).
Proof.
  intros H Ex Hp. destruct (wf_inside m x rx H Ex Hp) as (rp & Ep & _).
  destruct (wf_links _ H (r_parent rx)) as [l HF]; [eauto|].
  pose proof (family_child _ _ _ _ _ HF Ex eq_refl) as (l1 & l2 & ->)%list_elem_of_split.
  pose proof (family_NoDup _ _ _ H HF) as (_ & Hnd & _)%NoDup_app.
  unfold __release_resource. rewrite Ex. run. rewrite <- place_nil, (release_loop_run _ m (r_parent rx) [] l1 x l2), Ex.
  - run. destruct (unlink m (r_parent rx) l1 l2 x rx) as (m2 & rx2 & Hw & Ex2 & Hc & Hwf & Hv & _); [done..|].
    simpl app. rewrite Hw. run. unfold res_upd. rewrite Ex2. run. eexists. split; [done|]. split; [done|]. split; [done|].
    eexists. rewrite lookup_insert_eq. done.
  - done.
  - intros c Hc. destruct (family_in _ _ _ _ HF Hc) as (? & ? & _). eauto using wf_neq0.
  - intros Hx. apply (Hnd x Hx). by left.
  - pose proof (family_length _ _ _ H HF) as Hlen. rewrite length_app in Hlen. simpl in Hlen. lia.
Qed.
End requests.

(** ** Descendants *)

Definition below (m : res_mem) : Z → Z → Prop := tc (child_of m).

Section descendants.
Implicit Types (m : res_mem) (l : list Z).

Lemma child_of_wf m p c : res_wf m → p ≠ 0 → child_of m p c →
  ∃ rp rc, m !! p = Some rp ∧ m !! c = Some rc ∧ r_parent rc = p ∧ fits rp rc.
Proof.
  intros H Hp (rc & Ec & Hc). destruct (wf_inside m c rc) as (rp & Ep & ? & ?); [done..|congruence|].
  rewrite Hc in Ep. exists rp, rc. unfold fits, inside. split_and!; try done; lia.
Qed.

(** What lies below a descriptor lies inside of it, under one of its children. *)
Lemma below_child m p d : res_wf m → p ≠ 0 → below m p d →
  ∃ c rp rc rd, m !! p = Some rp ∧ m !! c = Some rc ∧ m !! d = Some rd ∧ r_parent rc = p ∧
    fits rp rc ∧ fits rc rd ∧ (c = d ∨ below m c d).
Proof.
  intros H Hp Hd. induction Hd as [p d Hd|p c d Hc Hd IH].
  - destruct (child_of_wf m p d H Hp Hd) as (rp & rd & ? & ? & ? & Hf). exists d, rp, rd, rd.
    split_and!; try done; [|by left]. destruct Hf as [? _]. unfold fits, inside. lia.
  - destruct (child_of_wf m p c H Hp Hc) as (rp & rc & ? & Ec & ? & Hf).
    destruct IH as (c' & rc' & rc2 & rd & Ec' & ? & Ed & ? & Hf1 & Hf2 & _); [eauto using wf_neq0|]. assert (rc' = rc) as -> by congruence.
    exists c, rp, rc, rd. split_and!; try done; [|by right]. unfold fits, inside in *. lia.
Qed.

Lemma below_inside m p d rp : res_wf m → below m p d → m !! p = Some rp → ∃ rd, m !! d = Some rd ∧ fits rp rd.
Proof.
  intros H Hd E. destruct (below_child m p d) as (c & rp' & rc & rd & ? & ? & ? & _ & Hf1 & Hf2 & _); [done|eauto using wf_neq0|done|].
  simplify_eq. exists rd. split; [done|]. unfold fits, inside in *. lia.
Qed.

Lemma below_known m p d : res_wf m → p ≠ 0 → below m p d → is_Some (m !! p) ∧ is_Some (m !! d).
Proof. intros H Hp Hd. destruct (below_child m p d) as (c & rp & rc & rd & ? & ? & ? & _); eauto. Qed.

(** What is below something has a parent. *)
Lemma below_attached m p d : res_wf m → p ≠ 0 → below m p d → ∃ rd, m !! d = Some rd ∧ r_parent rd ≠ 0.
Proof.
  intros H Hp Hd. induction Hd as [p d (rd & Ed & <-)|p c d (rc & Ec & _) _ IH]; [eauto|].
  apply IH. eauto using wf_neq0.
Qed.

(** Levels: fuel for every loop that goes down. *)
Lemma wf_levels m : res_wf m →
  ∃ level : Z → nat, (∀ p, level p < res_fuel m)%nat ∧ ∀ p c, p ≠ 0 → child_of m p c → (level c < level p)%nat.
Proof.
  intros H. destruct (vo_rank _ (wf_view _ H)) as [rank Hk].
  exists (λ p, size (filter (λ x, (rank x < rank p)%nat) (dom m))). split.
  - intros p. unfold res_fuel. rewrite <- (size_dom (D := gset Z)). apply Nat.lt_succ_r, subseteq_size.
    intros x. rewrite elem_of_filter. by intros [_ ?].
  - intros p c Hp Hc. destruct (child_of_wf m p c H Hp Hc) as (rp & rc & Ep & Ec & Hrc & _).
    specialize (Hk c (view1 rc) (view_some _ _ _ Ec)). simpl in Hk. rewrite Hrc in Hk. specialize (Hk Hp).
    apply subset_size. split.
    + intros x. rewrite !elem_of_filter. intros [? ?]. split; [lia|done].
    + intros Hs. specialize (Hs c). rewrite !elem_of_filter, elem_of_dom in Hs. destruct Hs as [? _]; [|lia]. split; eauto.
Qed.

Lemma below_irrefl m p : res_wf m → p ≠ 0 → ¬ below m p p.
Proof.
  intros H Hp Hb. destruct (wf_levels m H) as (lev & _ & Hd).
  assert (Hlt : ∀ a b, a ≠ 0 → below m a b → (lev b < lev a)%nat); [|specialize (Hlt p p Hp Hb); lia].
  intros a b Ha Hab. induction Hab as [a b Hab|a b d Hab _ IH]; [auto|].
  specialize (Hd a b Ha Hab). destruct Hab as (rb & Eb & _). specialize (IH (wf_neq0 _ _ _ H Eb)). lia.
Qed.

(** Going up: to the parent. *)
Lemma below_up m p x r : m !! x = Some r → below m p x ↔ r_parent r = p ∨ below m p (r_parent r).
Proof.
  intros E. split.
  - intros Hb. revert x Hb r E. apply (tc_ind_r (λ x, ∀ r, m !! x = Some r → r_parent r = p ∨ below m p (r_parent r))).
    + intros x (r' & E' & Hp) r E. simplify_eq. by left.
    + intros y x Hy (r' & E' & Hp) _ r E. simplify_eq. by right.
  - intros [<-|Hb]; [apply tc_once|apply tc_r with (r_parent r); [done|]]; by exists r.
Qed.

Lemma below_dec m p x : res_wf m → p ≠ 0 → below m p x ∨ ¬ below m p x.
Proof.
  intros H Hp. destruct (wf_levels m H) as (lev & Hlev & Hdown).
  remember (res_fuel m - lev x)%nat as k eqn:Hk. revert x Hk. induction k as [k IH] using lt_wf_ind. intros x ->.
  destruct (m !! x) as [r|] eqn:E.
  - rewrite (below_up m p x r E). destruct (decide (r_parent r = p)) as [|Hn]; [auto|].
    destruct (decide (r_parent r = 0)) as [->|Hr].
    + right. intros [?|Hb]; [done|]. destruct (below_known m p 0 H Hp Hb) as [_ [? E0]]. by rewrite (wf_null _ H) in E0.
    + specialize (Hdown (r_parent r) x Hr (ex_intro _ r (conj E eq_refl))). pose proof (Hlev (r_parent r)).
      destruct (IH (res_fuel m - lev (r_parent r))%nat ltac:(lia) (r_parent r) eq_refl) as [?|?]; [auto|]. right. tauto.
  - right. intros Hb. destruct (below_known m p x H Hp Hb) as [_ [? ?]]. congruence.
Qed.

(** Nothing is below two siblings. *)
Lemma below_siblings m p c d rc rd x :
  res_wf m → m !! c = Some rc → m !! d = Some rd → r_parent rc = p → r_parent rd = p → p ≠ 0 → c ≠ d →
  (x = c ∨ below m c x) → (x = d ∨ below m d x) → False.
Proof.
  intros H Ec Ed Hc Hd Hp Hne Hx Hx'.
  destruct (child_of_wf m p c H Hp) as (rp & rc' & Ep & Ec' & _ & Hfc); [by exists rc|].
  destruct (child_of_wf m p d H Hp) as (rp' & rd' & Ep' & Ed' & _ & Hfd); [by exists rd|]. simplify_eq.
  assert (Hin : ∀ a ra, m !! a = Some ra → r_start ra ≤ r_end ra → (x = a ∨ below m a x) → ∃ rx, m !! x = Some rx ∧ fits ra rx).
  { intros a ra Ea Hr [->|Hb]; [exists ra; split; [done|unfold fits, inside; lia]|by apply (below_inside m a x)]. }
  destruct Hfc as [Hrc _], Hfd as [Hrd _].
  destruct (Hin c rc) as (rx & Ex & Hf1); [done..|]. destruct (Hin d rd) as (rx' & Ex' & Hf2); [done..|].
  assert (rx' = rx) as -> by congruence.
  destruct (siblings_disjoint m (r_parent rc) c d rc rd); try done; [eauto|..]; unfold fits, inside in *; lia.
Qed.
End descendants.

(** ** __insert_resource *)

(** Neither disjoint nor one inside of the other. *)
Definition partial (a b : resource) : Prop := overlap a b ∧ ¬ inside a b ∧ ¬ inside b a.

Section insertion.
Implicit Types (m : res_mem) (l : list Z).

(** Where the descent of __insert_resource ends: [q] is [p] or below it. *)
Inductive descend_result (m : res_mem) (p new : Z) (r n : resource) : res_mem → Z + Z * Z → Prop :=
| DescendPlaced m' q :
    fits r n → (q = p ∨ below m p q) → (∀ c, ¬ conflicts m q n c) → res_wf m' →
    view m' = <[new := g_set_parent q (view1 n)]> (view m) →
    (∀ d rd, below m p d → m !! d = Some rd → partial rd n → below m q d) →
    descend_result m p new r n m' (inl 0)
| DescendOutside : ¬ fits r n → descend_result m p new r n m (inl p)
| DescendConflict q rq first rf :
    fits r n → (q = p ∨ below m p q) → m !! q = Some rq → fits rq n →
    m !! first = Some rf → r_parent rf = q → overlap rf n →
    (∀ d rd, d ≠ first → m !! d = Some rd → r_parent rd = q → overlap rd n → r_end rf < r_start rd) →
    (inside n rf → inside rf n) →
    (∀ d rd, below m p d → m !! d = Some rd → partial rd n → below m q d) →
    descend_result m p new r n m (inr (q, first)).

(** Partial overlaps are found below the child that holds the whole range. *)
Lemma partial_below m p c rc n d rd :
  res_wf m → m !! c = Some rc → r_parent rc = p → p ≠ 0 → inside n rc → r_start n ≤ r_end n →
  below m p d → m !! d = Some rd → partial rd n → below m c d.
Proof.
  intros H Ec Hc Hp Hin Hn Hd Ed [Hov [_ Hpart]].
  destruct (below_child m p d) as (c' & rp & rc' & rd' & Ep & Ec' & Ed' & Hc' & Hf1 & Hf2 & Hcase); [done..|].
  unfold overlap, inside, fits in *. destruct (decide (c = c')) as [->|Hne].
  - destruct Hcase as [->|]; [|done]. by simplify_eq.
  - simplify_eq. destruct (siblings_disjoint m (r_parent rc) c c' rc rc'); try done; unfold inside in *; eauto; lia.
Qed.

Lemma insert_descend_spec level fuel m p new r n :
  res_wf m → (∀ p c, p ≠ 0 → child_of m p c → (level c < level p)%nat) → (level p < fuel)%nat →
  m !! p = Some r → m !! new = Some n → r_parent n = 0 → r_child n = 0 → p ≠ new →
  ∃ m' o, insert_descend fuel m p new = Some (m', o) ∧ descend_result m p new r n m' o.
Proof.
  intros H Hlev. revert p r. induction fuel as [|fuel IH]; intros p r Hf E En Hpn Hcn Hne; [lia|].
  assert (Hp0 : p ≠ 0) by eauto using wf_neq0. cbn [insert_descend].
  destruct (__request_resource_spec m p new r n) as (m' & c & -> & Hr); [done..|]. run.
  destruct Hr as [m' Hfit Hnc Hwf Hv|Hfit|c rc Hfit Ec Hcp Hov Hmin].
  - rewrite Z.eqb_refl. exists m', (inl 0). split; [done|]. by apply DescendPlaced with p; auto.
  - rewrite (proj2 (Z.eqb_neq p 0)), Z.eqb_refl by done. exists m, (inl p). split; [done|by constructor].
  - assert (c ≠ p).
    { intros ->. specialize (Hlev p p Hp0 (ex_intro _ rc (conj Ec Hcp))). lia. }
    rewrite (proj2 (Z.eqb_neq c 0)), (proj2 (Z.eqb_neq c p)), Ec by eauto using wf_neq0. run. rewrite En. run.
    assert (Hstop : (inside n rc → inside rc n) → descend_result m p new r n m (inr (p, c))).
    { intros Hi. econstructor; eauto. }
    destruct (decide (inside n rc ∧ ¬ inside rc n)) as [[Hin Hnin]|Hn].
    2: { exists m, (inr (p, c)). split; [|apply Hstop; intros ?; destruct (decide (inside rc n)); tauto].
         unfold inside in Hn. rewrite Z.gtb_ltb. zbool; simpl; try done; lia. }
    unfold inside in Hin, Hnin. destruct Hfit as [Hn1 Hn2].
    rewrite Z.gtb_ltb, (proj2 (Z.ltb_ge (r_start n) (r_start rc))), (proj2 (Z.ltb_ge (r_end rc) (r_end n))) by lia. simpl orb.
    replace ((r_start rc =? r_start n) && (r_end rc =? r_end n)) with false by (zbool; simpl; try done; lia).
    assert (Hcc : child_of m p c) by by exists rc.
    destruct (IH c rc) as (m' & o & -> & Hd); try done.
    + specialize (Hlev p c Hp0 Hcc). lia.
    + intros ->. by simplify_eq.
    + assert (Hbelow : ∀ q, q = c ∨ below m c q → q = p ∨ below m p q).
      { intros q [->|Hq]; right; [by apply tc_once|by apply tc_l with c]. }
      assert (Hpart : ∀ d rd, below m p d → m !! d = Some rd → partial rd n → below m c d).
      { intros d rd. by apply (partial_below m p c rc n). }
      exists m', o. split; [done|]. destruct Hd as [m' q _ Hq Hnc Hwf Hv Hpt|Hnf|q rq f rf _ Hq Eq Hfq Ef Hfp Hfo Hfm Hfi Hpt].
      * apply DescendPlaced with q; eauto. by split.
      * exfalso. apply Hnf. by split.
      * apply DescendConflict with rq rf; eauto. by split.
Qed.

Lemma insert_span_run fuel m n x l :
  seg m x (x :: l) 0 → 0 ∉ x :: l → (length l < fuel)%nat →
  ∃ s y k ry, x :: l = s ++ y :: k ∧ m !! y = Some ry ∧
    (∀ c rc, c ∈ s → m !! c = Some rc → inside rc n) ∧ (s ≠ [] → r_start ry ≤ r_end n) ∧
    (insert_span fuel m n x = Some (inl y) ∧ ¬ inside ry n ∨
     insert_span fuel m n x = Some (inr y) ∧ inside ry n ∧
       ∀ z k' rz, k = z :: k' → m !! z = Some rz → r_end n < r_start rz).
Proof.
  revert x l. induction fuel as [|fuel IH]; intros x l Hs H0 Hf; [lia|].
  destruct Hs as (_ & rx & Ex & Hs). cbn [insert_span]. rewrite Ex. run.
  assert (Hnil : ∀ c rc, c ∈ [] → m !! c = Some rc → inside rc n) by by intros ? ? ?%elem_of_nil.
  destruct (decide (inside rx n)) as [Hin|Hin].
  2: { exists [], x, l, rx. split_and!; try done. left. split; [|done]. unfold inside in Hin.
       rewrite Z.gtb_ltb. zbool; simpl; try done; lia. }
  pose proof Hin as [Hi1 Hi2].
  rewrite Z.gtb_ltb, (proj2 (Z.ltb_ge (r_start rx) (r_start n))), (proj2 (Z.ltb_ge (r_end n) (r_end rx))) by lia. simpl orb.
  destruct l as [|y l].
  - simpl in Hs. rewrite Hs. simpl. exists [], x, [], rx. split_and!; try done. right. by split_and!.
  - destruct Hs as (Hsy & ry & Ey & Hs). rewrite Hsy.
    apply not_elem_of_cons in H0 as [_ H0]. pose proof H0 as [Hy0 _]%not_elem_of_cons.
    rewrite (proj2 (Z.eqb_neq y 0)), Ey by done. run. rewrite Z.gtb_ltb. destruct (Z.ltb_spec (r_end n) (r_start ry)).
    + exists [], x, (y :: l), rx. split_and!; try done. right. split_and!; try done. intros ? ? ? [= <- <-] ?. by simplify_eq.
    + destruct (IH y l) as (s & z & k & rz & Heq & Ez & Hin' & Hs1 & Hcase).
      * split; [done|]. by exists ry.
      * done.
      * simpl in Hf. lia.
      * exists (x :: s), z, k, rz. rewrite Heq. split_and!; try done.
        -- intros c rc [->|Hc]%elem_of_cons Ec; [by simplify_eq|by apply (Hin' c)].
        -- intros _. destruct s as [|d s]; [|by apply Hs1]. by simplify_eq/=.
Qed.

(** [new] goes under [q], and the children [l] of [q] that lie inside of it go under
    [new]. *)
Inductive insert_result (m : res_mem) (p new : Z) (r n : resource) : res_mem → Z → Prop :=
| InsertDone m' q l :
    fits r n → (q = p ∨ below m p q) →
    (∀ d rd, below m p d → m !! d = Some rd → ¬ partial rd n) →
    (∀ c, c ∈ l ↔ ∃ rc, m !! c = Some rc ∧ r_parent rc = q ∧ inside rc n) →
    res_wf m' → view m' = <[new := g_set_parent q (view1 n)]> (reparent l new (view m)) →
    insert_result m p new r n m' 0
| InsertOutside : ¬ fits r n → insert_result m p new r n m p
| InsertPartial c rc :
    fits r n → below m p c → m !! c = Some rc → partial rc n → insert_result m p new r n m c.

Lemma reparent_nil x V : reparent [] x V = V.
Proof. apply map_eq. intros c. rewrite reparent_lookup. by rewrite decide_False by apply not_elem_of_nil. Qed.

(** Below [q] nothing overlaps [n] partially when its children do not. *)
Lemma no_partial_below m q rq n :
  res_wf m → m !! q = Some rq →
  (∀ c rc, m !! c = Some rc → r_parent rc = q → overlap rc n → inside rc n) →
  ∀ d rd, below m q d → m !! d = Some rd → ¬ partial rd n.
Proof.
  intros H E Hch d rd Hd Ed (Hov & Hni & _).
  destruct (below_child m q d) as (c & rp & rc & rd' & Ep & Ec & Ed' & Hc & Hf1 & Hf2 & _); [done|eauto using wf_neq0|done|].
  simplify_eq. apply Hni. assert (overlap rc n) by (unfold fits, overlap, inside in *; lia).
  specialize (Hch c rc Ec eq_refl ltac:(done)). unfold fits, inside in *. lia.
Qed.

Lemma insert_span_result m q rq first rf new n :
  res_wf m → m !! q = Some rq → fits rq n → m !! new = Some n → r_parent n = 0 → r_child n = 0 → q ≠ new →
  m !! first = Some rf → r_parent rf = q → overlap rf n →
  (∀ d rd, d ≠ first → m !! d = Some rd → r_parent rd = q → overlap rd n → r_end rf < r_start rd) →
  (inside n rf → inside rf n) →
  (∃ c rc, insert_span (res_fuel m) m n first = Some (inl c) ∧ m !! c = Some rc ∧ r_parent rc = q ∧ partial rc n) ∨
  ∃ next m' l, insert_span (res_fuel m) m n first = Some (inr next) ∧ insert_splice m q new first next = Some m' ∧
    res_wf m' ∧ view m' = <[new := g_set_parent q (view1 n)]> (reparent l new (view m)) ∧
    (∀ c, c ∈ l ↔ ∃ rc, m !! c = Some rc ∧ r_parent rc = q ∧ inside rc n) ∧
    (∀ c rc, m !! c = Some rc → r_parent rc = q → overlap rc n → inside rc n).
Proof.
  intros H Eq [Hn Hfit] En Hpn Hcn Hqn Ef Hfq Hov Hmin Hcont.
  destruct (first_conflict m q first rf n) as (l1 & l2 & HF & Hl1); [done|eauto|done..|].
  destruct (family_split _ _ _ _ _ HF Eq) as [_ Hs]. simpl hd in Hs.
  pose proof (family_length _ _ _ H HF) as Hlen. rewrite length_app in Hlen. simpl in Hlen.
  destruct (insert_span_run (res_fuel m) m n first l2) as (s & y & k & ry & Heq & Ey & Hsin & Hs1 & Hcase); [done| |lia|].
  { intros H0. destruct (family_in _ _ _ 0 HF) as (? & ? & _); [apply elem_of_app; by right|]. by rewrite (wf_null _ H) in *. }
  rewrite Heq in HF.
  assert (Hyq : r_parent ry = q).
  { destruct (family_in _ _ _ y HF) as (? & ? & ?); [rewrite !elem_of_app; right; right; by left|]. by simplify_eq. }
  pose proof (family_inside m q _ first rq rf H HF ltac:(rewrite <- Heq; apply elem_of_app; right; by left) Eq Ef) as Hrf.
  pose proof (family_inside m q _ y rq ry H HF ltac:(rewrite !elem_of_app; right; right; by left) Eq Ey) as Hry.
  (* the last conflict overlaps [n] and does not hold it *)
  assert (Hyov : overlap ry n ∧ (inside n ry → inside ry n)).
  { destruct s as [|f s]; [by simplify_eq/=|]. injection Heq as <- Heq.
    assert (r_end rf < r_start ry).
    { rewrite app_assoc in HF. eapply (family_order m q (l1 ++ first :: s) (y :: k) first y); try done.
      - apply elem_of_app. right. by left.
      - by left. }
    specialize (Hs1 ltac:(done)). unfold overlap, inside in *. lia. }
  destruct Hyov as [Hyov Hycont].
  destruct Hcase as [[-> Hni]|(-> & Hyin & Hk)]; [left; exists y, ry; unfold partial; tauto|]. right.
  rewrite (cons_middle y s k) in HF.
  assert (Hl3 : ∀ c rc, c ∈ k → m !! c = Some rc → r_end n < r_start rc).
  { rewrite !app_assoc in HF. by apply (family_tail m q ((l1 ++ s) ++ [y])). }
  assert (Hl2 : ∀ c rc, c ∈ s ++ [y] → m !! c = Some rc → inside rc n).
  { intros c rc [Hc| ->%list_elem_of_singleton]%elem_of_app Ec; [by apply (Hsin c)|by simplify_eq]. }
  rewrite (app_assoc s [y] k) in HF.
  destruct (splice m q rq l1 s y k new n first) as (m' & Hsp & Hwf & Hv); try done.
  { by destruct s; simplify_eq/=. }
  { unfold inside in Hfit. lia. }
  { unfold inside in Hfit. lia. }
  exists y, m', (s ++ [y]). split_and!; try done.
  - intros c. split.
    + intros Hc. destruct (family_in _ _ _ c HF) as (rc & Ec & Hcq); [rewrite !elem_of_app in *; tauto|].
      exists rc. split_and!; try done. by apply (Hl2 c).
    + intros (rc & Ec & Hcq & Hin). pose proof (family_child _ _ _ _ _ HF Ec Hcq) as Hc.
      pose proof (family_inside m q _ c rq rc H HF Hc Eq Ec). unfold inside in Hin.
      apply elem_of_app in Hc as [Hc|[Hc|Hc]%elem_of_app]; [|done|].
      * specialize (Hl1 c rc Hc Ec). lia.
      * specialize (Hl3 c rc Hc Ec). lia.
  - intros c rc Ec Hcq Hco. pose proof (family_child _ _ _ _ _ HF Ec Hcq) as [Hc|[Hc|Hc]%elem_of_app]%elem_of_app.
    + specialize (Hl1 c rc Hc Ec). unfold overlap in Hco. lia.
    + by apply (Hl2 c).
    + specialize (Hl3 c rc Hc Ec). unfold overlap in Hco. lia.
Qed.

Lemma __insert_resource_spec m p new r n :
  res_wf m → m !! p = Some r → m !! new = Some n → r_parent n = 0 → r_child n = 0 → p ≠ new →
  ∃ m' c, __insert_resource m p new = Some (m', c) ∧ insert_result m p new r n m' c.
Proof.
  intros H E En Hpn Hcn Hne. unfold __insert_resource. destruct (wf_levels m H) as (level & Hlev & Hdown).
  destruct (insert_descend_spec level (res_fuel m) m p new r n) as (m' & o & -> & Hd); [done..|]. run.
  destruct Hd as [m' q Hfit Hq Hnc Hwf Hv Hpt|Hnf|q rq f rf Hfit Hq Eq Hfq Ef Hfp Hfo Hfm Hfi Hpt].
  - exists m', 0. split; [done|]. assert (Hq' : ∃ rq, m !! q = Some rq).
    { destruct Hq as [->|Hq]; [eauto|]. destruct (below_known m p q H (wf_neq0 _ _ _ H E) Hq) as [_ [??]]. eauto. }
    destruct Hq' as [rq Eq]. apply InsertDone with q []; try done; [| |by rewrite reparent_nil].
    + intros d rd Hd Ed Hpart. apply (no_partial_below m q rq n H Eq) with d rd; [|eauto..].
      intros c rc Ec Hc Hov. exfalso. apply (Hnc c). by exists rc.
    + intros c. split; [by intros ?%elem_of_nil|]. intros (rc & Ec & Hc & Hin). exfalso. apply (Hnc c). exists rc.
      split_and!; try done. destruct (wf_inside m c rc H Ec) as (? & ? & ? & ?); [rewrite Hc; eauto using wf_neq0|].
      destruct Hfit. unfold overlap, inside in *. lia.
  - exists m, p. split; [done|by constructor].
  - rewrite En. run. assert (q ≠ new).
    { intros ->. apply (loose_no_child m new f rf H); [|done..]. apply detached_loose; [done|]. by exists n. }
    destruct (insert_span_result m q rq f rf new n) as [(c & rc & -> & Ec & Hc & Hpart)|(nx & m' & l & -> & Hsp & Hwf & Hv & Hl & Hin)]; try done; run.
    + exists m, c. split; [done|]. apply InsertPartial with rc; try done.
      destruct Hq as [->|Hq]; [by apply tc_once; exists rc|]. apply tc_r with q; [done|]. by exists rc.
    + rewrite Hsp. run. exists m', 0. split; [done|]. apply InsertDone with q l; try done.
      intros d rd Hd Ed Hpart. apply (no_partial_below m q rq n H Eq) with d rd; eauto.
Qed.
End insertion.

(** ** insert_resource_expand_to_fit *)

Section expansion.
Implicit Types (m : res_mem).

Lemma insert_resized m new n s e c rc : m !! new = Some n → c ≠ new → m !! c = Some rc → <[new := w_range s e n]> m !! c = Some rc.
Proof. intros. by rewrite lookup_insert_ne. Qed.

(** A change of the range of [new] changes no parent. *)
Lemma below_resized m new n s e p d :
  m !! new = Some n → below (<[new := w_range s e n]> m) p d ↔ below m p d.
Proof.
  intros En. assert (Hc : ∀ a b, child_of (<[new := w_range s e n]> m) a b ↔ child_of m a b).
  { intros a b. unfold child_of. destruct (decide (b = new)) as [->|].
    - rewrite lookup_insert_eq, En. split; intros (? & [= <-] & ?); by eexists.
    - by rewrite lookup_insert_ne. }
  split; (apply tc_congruence with (f := id); intros a b; apply Hc).
Qed.

(** The ends that can still be reached. *)
Definition stretch (m : res_mem) (s e : Z) : nat :=
  size (filter (λ x, from_option r_start s (m !! x) < s) (dom m)) +
  size (filter (λ x, e < from_option r_end e (m !! x)) (dom m)).

Lemma stretch_bound m s e : (stretch m s e ≤ 2 * size m)%nat.
Proof.
  unfold stretch. rewrite <- (size_dom (D := gset Z) m).
  assert (H : ∀ (P : Z → Prop) `{!∀ x, Decision (P x)}, (size (filter P (dom m)) ≤ size (dom m))%nat).
  { intros P ?. apply subseteq_size. intros x. rewrite elem_of_filter. by intros [_ ?]. }
  pose proof (H (λ x, from_option r_start s (m !! x) < s) _). pose proof (H (λ x, e < from_option r_end e (m !! x)) _). lia.
Qed.

Lemma stretch_shrinks m new n c rc s e :
  m !! new = Some n → m !! c = Some rc → s ≤ r_start n → r_end n ≤ e → s ≤ r_start rc → r_end rc ≤ e →
  s < r_start n ∧ r_start rc < r_start n ∨ r_end n < e ∧ r_end n < r_end rc →
  (stretch (<[new := w_range s e n]> m) s e < stretch m (r_start n) (r_end n))%nat.
Proof.
  intros En Ec Hs He Hcs Hce Hcase. unfold stretch. rewrite dom_insert_lookup_L by eauto.
  set (m' := <[new := w_range s e n]> m).
  assert (Hsub1 : filter (λ x, from_option r_start s (m' !! x) < s) (dom m) ⊆
                  filter (λ x, from_option r_start (r_start n) (m !! x) < r_start n) (dom m)).
  { intros x. rewrite !elem_of_filter. intros [Hx Hd]. split; [|done]. unfold m' in Hx. destruct (decide (x = new)) as [->|].
    - rewrite lookup_insert_eq in Hx. simpl in Hx. lia.
    - rewrite lookup_insert_ne in Hx by done. destruct (m !! x); simpl in *; lia. }
  assert (Hsub2 : filter (λ x, e < from_option r_end e (m' !! x)) (dom m) ⊆
                  filter (λ x, r_end n < from_option r_end (r_end n) (m !! x)) (dom m)).
  { intros x. rewrite !elem_of_filter. intros [Hx Hd]. split; [|done]. unfold m' in Hx. destruct (decide (x = new)) as [->|].
    - rewrite lookup_insert_eq in Hx. simpl in Hx. lia.
    - rewrite lookup_insert_ne in Hx by done. destruct (m !! x); simpl in *; lia. }
  assert (Hc' : ∃ rc', m' !! c = Some rc' ∧ s ≤ r_start rc' ∧ r_end rc' ≤ e).
  { unfold m'. destruct (decide (c = new)) as [->|]; [rewrite lookup_insert_eq|rewrite lookup_insert_ne by done]; eexists; (split; [done|]); simpl; lia. }
  destruct Hc' as (rc' & Ec' & Hs' & He').
  assert (Hdc : c ∈ dom m) by (apply elem_of_dom; eauto).
  pose proof (subseteq_size _ _ Hsub1). pose proof (subseteq_size _ _ Hsub2).
  destruct Hcase as [[_ Hlt]|[_ Hlt]].
  - enough (filter (λ x, from_option r_start s (m' !! x) < s) (dom m) ⊂
            filter (λ x, from_option r_start (r_start n) (m !! x) < r_start n) (dom m)) as ?%subset_size by lia.
    split; [done|]. intros Hx. specialize (Hx c). rewrite !elem_of_filter, Ec, Ec' in Hx. simpl in Hx.
    destruct Hx as [? _]; [split; [lia|done]|lia].
  - enough (filter (λ x, e < from_option r_end e (m' !! x)) (dom m) ⊂
            filter (λ x, r_end n < from_option r_end (r_end n) (m !! x)) (dom m)) as ?%subset_size by lia.
    split; [done|]. intros Hx. specialize (Hx c). rewrite !elem_of_filter, Ec, Ec' in Hx. simpl in Hx.
    destruct Hx as [? _]; [split; [lia|done]|lia].
Qed.

(** No resource below [p] cuts the range from [a] to [b]. *)
Definition uncut (m : res_mem) (p : Z) (n : resource) : Prop :=
  ∀ d rd, below m p d → m !! d = Some rd → ¬ partial rd n.

Lemma expand_loop_spec fuel m root new r n :
  res_wf m → m !! root = Some r → m !! new = Some n → r_parent n = 0 → r_child n = 0 → root ≠ new →
  fits r n → (stretch m (r_start n) (r_end n) < fuel)%nat →
  ∃ s e m', expand_loop fuel m root new = Some m' ∧
    inside n (w_range s e n) ∧
    (∀ k, inside n k → uncut m root k → inside (w_range s e n) k) ∧
    insert_result (<[new := w_range s e n]> m) root new r (w_range s e n) m' 0.
Proof.
  revert m n. induction fuel as [|fuel IH]; intros m n H E En Hpn Hcn Hne Hfit Hf; [lia|].
  cbn [expand_loop]. destruct (__insert_resource_spec m root new r n) as (m' & c & -> & Hr); [done..|]. run.
  destruct Hr as [m' q l Hfit' Hq Hnp Hl Hwf Hv|Hnf|c rc _ Hb Ec Hpart].
  - rewrite Z.eqb_refl. exists (r_start n), (r_end n), m'. split; [done|].
    assert (w_range (r_start n) (r_end n) n = n) as -> by by destruct n. rewrite insert_id by done.
    split; [unfold inside; lia|]. split; [auto|]. by apply InsertDone with q l.
  - done.
  - destruct (below_inside m root c r H Hb E) as (rc' & Ec' & Hfc). simplify_eq.
    assert (Hc0 : c ≠ 0) by eauto using wf_neq0.
    assert (Hcr : c ≠ root).
    { intros ->. by apply (below_irrefl m root). }
    rewrite (proj2 (Z.eqb_neq c 0)), (proj2 (Z.eqb_neq c root)), Ec by done. run. rewrite En. run.
    unfold res_upd. rewrite En. run.
    set (s := if r_start rc <? r_start n then r_start rc else r_start n).
    set (e := if r_end rc >? r_end n then r_end rc else r_end n). set (n' := w_range s e n).
    pose proof (wf_range _ _ _ H En). pose proof (wf_range _ _ _ H Ec).
    assert (Hs : s = Z.min (r_start rc) (r_start n)) by (unfold s; zbool; lia).
    assert (He : e = Z.max (r_end rc) (r_end n)) by (unfold e; zbool; lia).
    destruct (IH (<[new := n']> m) n') as (s' & e' & m' & -> & Hin & Hmin & Hres); try done.
    + apply wf_put; try done; [|simpl; lia..]. apply detached_loose; [done|]. by exists n.
    + by rewrite lookup_insert_ne.
    + apply lookup_insert_eq.
    + unfold fits, inside in *. simpl. lia.
    + assert (stretch (<[new := n']> m) s e < stretch m (r_start n) (r_end n))%nat; [|simpl; lia].
      apply (stretch_shrinks m new n c rc s e); try done; try lia.
      unfold partial, overlap, inside in Hpart. lia.
    + exists s', e', m'. split; [done|]. rewrite insert_insert_eq in Hres. split; [|split; [|done]].
      * unfold inside in *. simpl in *. lia.
      * intros k Hk Hu. apply Hmin; [|].
        -- assert (overlap rc k) by (unfold partial, overlap, inside in *; lia).
           specialize (Hu c rc Hb Ec). destruct (decide (inside rc k)) as [|Hni].
           ++ unfold inside in *. simpl. lia.
           ++ destruct (decide (inside k rc)); [unfold partial, inside in *; lia|unfold partial in Hu; tauto].
        -- intros d rd Hd Ed. apply (below_resized m new n s e) in Hd; [|done]. apply (Hu d); [done|].
           destruct (decide (d = new)) as [->|]; [|by rewrite lookup_insert_ne in Ed].
           destruct (below_attached m root new) as (? & ? & ?); [done|eauto using wf_neq0|done|]. by simplify_eq.
Qed.
End expansion.

(** ** adjust_resource *)

Section adjusting.
Implicit Types (m : res_mem) (l : list Z).

Lemma children_inside_run fuel m s e o l :
  seg m o l 0 → 0 ∉ l → (length l < fuel)%nat →
  ∃ b, children_inside fuel m s e o = Some b ∧
    (b = true ↔ ∀ c rc, c ∈ l → m !! c = Some rc → s ≤ r_start rc ∧ r_end rc ≤ e).
Proof.
  revert o l. induction fuel as [|fuel IH]; intros o l Hs H0 Hf; [lia|]. cbn [children_inside].
  destruct l as [|c l]; simpl in Hs.
  - rewrite Hs. simpl. exists true. split; [done|]. split; [by intros _ ? ? ?%elem_of_nil|done].
  - destruct Hs as (-> & rc & Ec & Hs). apply not_elem_of_cons in H0 as [Hc H0].
    rewrite (proj2 (Z.eqb_neq c 0)), Ec by done. run.
    destruct (decide (s ≤ r_start rc ∧ r_end rc ≤ e)) as [Hin|Hin].
    + rewrite Z.gtb_ltb, (proj2 (Z.ltb_ge (r_start rc) s)), (proj2 (Z.ltb_ge e (r_end rc))) by lia. simpl orb.
      destruct (IH (r_sibling rc) l) as (b & -> & Hb); [done|done|simpl in Hf; lia|]. exists b. split; [done|]. rewrite Hb. split.
      * intros Hall d rd [->|Hd]%elem_of_cons Ed; [by simplify_eq|by apply (Hall d)].
      * intros Hall d rd Hd. apply Hall. by right.
    + exists false. split; [rewrite Z.gtb_ltb; zbool; simpl; try done; lia|]. split; [done|]. intros Hall. exfalso. apply Hin, (Hall c); [by left|done].
Qed.

(** The children of [p] in front of [x] and behind it. *)
Lemma family_sides m p l1 l2 x rx :
  res_wf m → family m p (l1 ++ x :: l2) → m !! x = Some rx →
  ∀ c rc, m !! c = Some rc → r_parent rc = p → (r_end rc < r_start rx ↔ c ∈ l1) ∧ (r_end rx < r_start rc ↔ c ∈ l2).
Proof.
  intros H HF Ex c rc Ec Hc. destruct (family_known _ _ _ HF) as [r E].
  assert (Hx : x ∈ l1 ++ x :: l2) by (apply elem_of_app; right; by left).
  pose proof (family_child _ _ _ _ _ HF Ec Hc) as Hcl.
  pose proof (family_inside m p _ c r rc H HF Hcl E Ec). pose proof (family_inside m p _ x r rx H HF Hx E Ex).
  assert (Hf1 : c ∈ l1 → r_end rc < r_start rx) by (intros; eapply (family_order m p l1 (x :: l2) c x); try done; by left).
  assert (Hf2 : c ∈ l2 → r_end rx < r_start rc).
  { intros. rewrite (cons_middle x l1), app_assoc in HF.
    eapply (family_order m p (l1 ++ [x]) l2 x c); try done. apply elem_of_app. right. by left. }
  apply elem_of_app in Hcl as [Hcl|[->|Hcl]%elem_of_cons].
  - specialize (Hf1 Hcl). split; [tauto|]. split; [lia|]. intros Hc2. specialize (Hf2 Hc2). lia.
  - simplify_eq. split; (split; [lia|auto]).
  - specialize (Hf2 Hcl). split; [|tauto]. split; [lia|]. intros Hc1. specialize (Hf1 Hc1). lia.
Qed.

(** The range from [s] to [e] has room where [x] is. *)
Definition room_for (m : res_mem) (x s e : Z) (rx rp : resource) : Prop :=
  r_start rp ≤ s ∧ e ≤ r_end rp ∧
  (∀ c rc, m !! c = Some rc → r_parent rc = x → s ≤ r_start rc ∧ r_end rc ≤ e) ∧
  (∀ c rc, m !! c = Some rc → r_parent rc = r_parent rx → r_end rc < r_start rx → r_end rc < s) ∧
  (∀ c rc, m !! c = Some rc → r_parent rc = r_parent rx → r_end rx < r_start rc → e < r_start rc).

(** The blocking sibling behind [x], and the one in front of it. *)
Lemma next_sibling_blocks m p l1 x rx l2 e :
  res_wf m → family m p (l1 ++ x :: l2) → m !! x = Some rx →
  ∃ b, (if ctrue (r_sibling rx) then s ← m !! r_sibling rx; Some (r_start s <=? e) else Some false) = Some b ∧
    (b = false ↔ ∀ c rc, c ∈ l2 → m !! c = Some rc → e < r_start rc).
Proof.
  intros H HF Ex. destruct (family_known _ _ _ HF) as [r E]. destruct (family_split _ _ _ _ _ HF E) as [_ (_ & rx' & Ex' & Hs)].
  simplify_eq. rewrite (seg_head _ _ _ Hs). destruct l2 as [|z k].
  - exists false. split; [done|]. split; [by intros _ ? ? ?%elem_of_nil|done].
  - destruct Hs as (_ & rz & Ez & _). simpl hd. unfold ctrue. rewrite (proj2 (Z.eqb_neq z 0)), Ez by eauto using wf_neq0. run. simpl.
    eexists. split; [done|]. rewrite Z.leb_gt. split.
    + intros Hz. rewrite (cons_middle x l1), app_assoc in HF. apply (family_tail m p (l1 ++ [x])); [done..|]. intros ? ? ? [= <- <-] ?. by simplify_eq.
    + intros Hall. apply (Hall z); [by left|done].
Qed.

Lemma previous_sibling_blocks m p rp l1 x l2 s :
  res_wf m → family m p (l1 ++ x :: l2) → m !! p = Some rp →
  ∃ b, (if r_child rp =? x then Some false
        else prev ← find_previous (res_fuel m) m (r_child rp) x; t ← m !! prev; Some (s <=? r_end t)) = Some b ∧
    (b = false ↔ ∀ c rc, c ∈ l1 → m !! c = Some rc → r_end rc < s).
Proof.
  intros H HF E. destruct (family_split _ _ _ _ _ HF E) as [Hs _]. simpl hd in Hs.
  pose proof (family_NoDup _ _ _ H HF) as (_ & Hnd & _)%NoDup_app.
  pose proof (family_length _ _ _ H HF) as Hlen. rewrite length_app in Hlen.
  assert (Hx : x ∉ l1) by (intros Hx; apply (Hnd x Hx); by left).
  destruct l1 as [|y l1 _] using rev_ind.
  - simpl in Hs. rewrite Hs, Z.eqb_refl. exists false. split; [done|]. split; [by intros _ ? ? ?%elem_of_nil|done].
  - destruct (Z.eqb_spec (r_child rp) x) as [He|_].
    { exfalso. apply Hx. rewrite <- He. destruct l1; destruct Hs as [-> _]; apply elem_of_app; [right; by left|left; by left]. }
    rewrite length_app in Hlen. simpl in Hlen. rewrite (find_previous_spec _ _ _ l1 y) by (try done; lia). run.
    destruct (family_in _ _ _ y HF) as (ry & Ey & _); [rewrite !elem_of_app; left; right; by left|]. rewrite Ey. run.
    eexists. split; [done|]. rewrite Z.leb_gt. split.
    + intros Hy c rc [Hc| ->%list_elem_of_singleton]%elem_of_app Ec; [|by simplify_eq].
      rewrite <- app_assoc in HF. simpl in HF.
      pose proof (family_order m p l1 (y :: x :: l2) c y rc ry HF Hc ltac:(by left) Ec Ey).
      pose proof (family_inside m p _ y rp ry H HF ltac:(rewrite !elem_of_app; right; by left) E Ey). lia.
    + intros Hall. apply (Hall y); [|done]. apply elem_of_app. right. by left.
Qed.

Lemma adjust_resource_spec m x rx rp s size :
  res_wf m → m !! x = Some rx → r_parent rx ≠ 0 → m !! r_parent rx = Some rp →
  0 ≤ s → 1 ≤ size → s + size - 1 < 2 ^ 32 →
  let e := s + size - 1 in
  adjust_resource m x s size = Some (<[x := w_range s e rx]> m, 0) ∧ room_for m x s e rx rp ∧ res_wf (<[x := w_range s e rx]> m) ∨
  adjust_resource m x s size = Some (m, - EBUSY) ∧ ¬ room_for m x s e rx rp.
Proof.
  intros H Ex Hp Ep Hs0 Hsz He e. unfold adjust_resource. rewrite Ex. run. rewrite Ep. run.
  rewrite u32_small by lia. fold e.
  destruct (decide (r_start rp ≤ s ∧ e ≤ r_end rp)) as [Hin|Hin].
  2: { right. split; [rewrite Z.gtb_ltb; zbool; simpl; try done; lia|]. unfold room_for. tauto. }
  rewrite Z.gtb_ltb, (proj2 (Z.ltb_ge s (r_start rp))), (proj2 (Z.ltb_ge (r_end rp) e)) by lia. simpl orb.
  destruct (wf_links _ H x) as [lc HFc]; [eauto|].
  destruct (children_inside_run (res_fuel m) m s e (r_child rx) lc) as (b & -> & Hb); [| |by apply (family_length m x)|].
  { destruct HFc as (? & ? & ? & _). by simplify_eq. }
  { intros H0. destruct (family_in _ _ _ 0 HFc H0) as (? & ? & _). by rewrite (wf_null _ H) in *. }
  run. assert (Hb' : b = true ↔ ∀ c rc, m !! c = Some rc → r_parent rc = x → s ≤ r_start rc ∧ r_end rc ≤ e).
  { rewrite Hb. split.
    - intros Hall c rc Ec Hc. apply (Hall c); [|done]. by apply (family_child m x lc c rc).
    - intros Hall c rc Hc Ec. apply (Hall c); [done|]. destruct (family_in _ _ _ c HFc Hc) as (? & ? & ?). by simplify_eq. }
  destruct b; simpl negb; cbn iota.
  2: { right. split; [done|]. intros (_ & _ & Hall & _). apply Hb' in Hall. done. }
  destruct (wf_links _ H (r_parent rx)) as [l HF]; [eauto|].
  pose proof (family_child _ _ _ _ _ HF Ex eq_refl) as (l1 & l2 & ->)%list_elem_of_split.
  pose proof (family_sides m _ l1 l2 x rx H HF Ex) as Hside.
  destruct (next_sibling_blocks m (r_parent rx) l1 x rx l2 e) as (b2 & -> & Hb2); [done..|]. run.
  destruct b2; cbn iota.
  { right. split; [done|]. intros (_ & _ & _ & _ & Hall). assert (true = false); [|done]. apply Hb2.
    intros c rc Hc Ec. destruct (family_in _ _ _ c HF) as (? & ? & ?); [apply elem_of_app; right; by right|]. simplify_eq.
    apply (Hall c); [done..|]. by apply (Hside c). }
  destruct (previous_sibling_blocks m (r_parent rx) rp l1 x l2 s) as (b1 & -> & Hb1); [done..|]. run.
  destruct b1; cbn iota.
  { right. split; [done|]. intros (_ & _ & _ & Hall & _). assert (true = false); [|done]. apply Hb1.
    intros c rc Hc Ec. destruct (family_in _ _ _ c HF) as (? & ? & ?); [apply elem_of_app; by left|]. simplify_eq.
    apply (Hall c); [done..|]. by apply (Hside c). }
  left. unfold res_upd. rewrite Ex. run. split; [done|]. split.
  - split_and!; [lia|lia|by apply Hb'| |].
    + intros c rc Ec Hc Hlt. apply (proj1 Hb1 eq_refl c); [|done]. by apply (Hside c rc).
    + intros c rc Ec Hc Hlt. apply (proj1 Hb2 eq_refl c); [|done]. by apply (Hside c rc).
  - apply (wf_adjust m x rx s e rp l1 l2); try done; try lia; [by apply Hb'|by apply Hb1|by apply Hb2].
Qed.
End adjusting.
