(* ===== verification/ResourceRegion.v ===== *)
(** Busy regions and the composed operations on the resource tree: __request_region,
    __check_region, __release_region, find_resource and allocate_resource,
    reserve_region_with_split, release_child_resources. *)

From stdpp Require Import strings.
From S2P Require Import Prelude Resource ResourceInv ResourceOps.

(** ** __request_region *)

Section regions.
Implicit Types (m : res_mem) (l : list Z).

(** [c] is in the way of [n] below [p]: it overlaps, and it is busy or does not hold
    the whole range. *)
Definition blocks (m : res_mem) (p : Z) (n : resource) (c : Z) : Prop :=
  ∃ rc, below m p c ∧ m !! c = Some rc ∧ overlap rc n ∧ (is_busy rc = true ∨ ¬ inside n rc).

(** The way down to [q]: [p], or a descriptor that holds [n] and is not busy. *)
Definition way (m : res_mem) (p : Z) (n : resource) (q : Z) : Prop :=
  q = p ∨ ∃ rq, below m p q ∧ m !! q = Some rq ∧ fits rq n ∧ is_busy rq = false.

Inductive region_result (m : res_mem) (p res : Z) (r n : resource) (flags : Z) : res_mem → region_end → Prop :=
| RegionGranted m' q :
    fits r n → (∀ c, ¬ blocks m p n c) → way m p n q → (∀ c, ¬ conflicts m q n c) →
    res_wf m' → view m' = <[res := g_set_parent q (view1 n)]> (view m) →
    region_result m p res r n flags m' (Granted res)
| RegionRefused :
    ¬ fits r n ∨ (∃ c, blocks m p n c) → region_result m p res r n flags (kfree_res m res) Refused
| RegionAsleep c rc :
    m !! c = Some rc → ¬ fits r n ∧ c = p ∨ below m p c ∧ blocks m p n c →
    ctrue (Z.land (Z.land (r_flags rc) flags) IORESOURCE_MUXED) = true →
    region_result m p res r n flags m (Asleep c res).

(** Seen from above, what blocks below [c] blocks. *)
Lemma blocks_up m p n c d : child_of m p c → blocks m c n d → blocks m p n d.
Proof. intros Hc (rd & Hb & Hrest). exists rd. split; [|done]. by apply tc_l with c. Qed.

Lemma blocks_down m p c rc n d :
  res_wf m → p ≠ 0 → m !! c = Some rc → r_parent rc = p → is_busy rc = false → fits rc n →
  blocks m p n d → blocks m c n d.
Proof.
  intros H Hp Ec Hc Hb [Hn Hin] (rd & Hd & Ed & Hov & Hcase).
  destruct (below_child m p d) as (c' & rp & rc' & rd' & Ep & Ec' & Ed' & Hc' & Hf1 & Hf2 & Hor); [done..|].
  assert (rd' = rd) as -> by congruence.
  destruct (decide (c = c')) as [<-|Hne].
  - assert (rc' = rc) as -> by congruence. destruct Hor as [<-|Hor]; [|by exists rd].
    exfalso. simplify_eq. destruct Hcase as [?|?]; [congruence|done].
  - exfalso. destruct (siblings_disjoint m p c c' rc rc'); try done; [eauto|..]; unfold fits, inside, overlap in *; lia.
Qed.

Lemma region_loop_spec level fuel m p res r n flags :
  res_wf m → (∀ p c, p ≠ 0 → child_of m p c → (level c < level p)%nat) → (level p < fuel)%nat →
  m !! p = Some r → m !! res = Some n → r_parent n = 0 → r_child n = 0 → p ≠ res →
  ∃ m' e, region_loop fuel m p res flags = Some (m', e) ∧ region_result m p res r n flags m' e.
Proof.
  intros H Hlev. revert p r. induction fuel as [|fuel IH]; intros p r Hf E En Hpn Hcn Hne; [lia|].
  assert (Hp0 : p ≠ 0) by eauto using wf_neq0. cbn [region_loop].
  destruct (__request_resource_spec m p res r n) as (m' & c & -> & Hr); [done..|]. run.
  destruct Hr as [m' Hfit Hnc Hwf Hv|Hfit|c rc Hfit Ec Hcp Hov Hmin].
  - rewrite Z.eqb_refl. exists m', (Granted res). split; [done|]. apply RegionGranted with p; try done; [|by left].
    intros d (rd & Hd & Ed & Hdo & _).
    destruct (below_child m p d) as (c & rp & rc & rd' & Ep & Ec & Ed' & Hc & Hf1 & Hf2 & _); [done..|]. simplify_eq.
    apply (Hnc c). exists rc. split_and!; try done. unfold fits, inside, overlap in *. lia.
  - rewrite (proj2 (Z.eqb_neq p 0)), E by done. run. rewrite Z.eqb_refl. cbn [negb andb].
    destruct (ctrue _) eqn:Hmux; eexists _, _; (split; [done|]); [by apply RegionAsleep with r; [|left|]|].
    apply RegionRefused. by left.
  - assert (c ≠ p).
    { intros ->. specialize (Hlev p p Hp0 (ex_intro _ rc (conj Ec Hcp))). lia. }
    assert (Hcc : child_of m p c) by by exists rc.
    rewrite (proj2 (Z.eqb_neq c 0)), Ec by eauto using wf_neq0. run. rewrite (proj2 (Z.eqb_neq c p)) by done. cbn [negb andb].
    destruct (is_busy rc) eqn:Hbusy; cbn [negb].
    + assert (Hblk : blocks m p n c) by (exists rc; split_and!; [by apply tc_once|done..|by left]).
      destruct (ctrue _) eqn:Hmux; eexists _, _; (split; [done|]).
      * apply RegionAsleep with rc; [done| |done]. right. split; [by apply tc_once|done].
      * apply RegionRefused. right. eauto.
    + destruct (IH c rc) as (m' & e & -> & Hd); try done.
      { specialize (Hlev p c Hp0 Hcc). lia. }
      { intros ->. by simplify_eq. }
      assert (Hout : ¬ fits rc n → blocks m p n c).
      { intros Hnf. exists rc. split_and!; [by apply tc_once|done..|]. right. intros Hin. apply Hnf. split; [apply Hfit|done]. }
      exists m', e. split; [done|]. destruct Hd as [m' q Hfc Hnb Hq Hnc Hwf Hv|Hwhy|d rd Ed Hwhy Hmux].
      * apply RegionGranted with q; try done.
        -- intros d Hd. apply (Hnb d). by apply (blocks_down m p c rc).
        -- right. destruct Hq as [->|(rq & Hq & ? & ? & ?)]; [exists rc; split_and!; try done; by apply tc_once|].
           exists rq. split_and!; try done. by apply tc_l with c.
      * apply RegionRefused. right. destruct Hwhy as [?|[d Hd]]; [eauto|]. exists d. by apply (blocks_up m p n c).
      * apply RegionAsleep with rd; [done| |done]. right. destruct Hwhy as [[Hnf ->]|[Hb Hd]].
        -- split; [by apply tc_once|auto].
        -- split; [by apply tc_l with c|]. by apply (blocks_up m p n c).
Qed.

(** The descriptor that __request_region fills in. *)
Definition new_region (start n : Z) (name : string) (flags : Z) : resource :=
  mk_res start (u32 (start + n - 1)) (Some name) (Z.lor IORESOURCE_BUSY flags) 0 0 0.

Lemma kzalloc_loose m answer a : kzalloc m answer = Some a → loose m a ∧ m !! a = None.
Proof. unfold kzalloc. destruct answer as [x|]; [|done]. case_decide as Hd; [|done]. intros [= <-]. destruct Hd. by split; [split; [|left]|]. Qed.

(** A fresh descriptor, in no tree, changes nothing below another one. *)
Lemma below_fresh m a k p d : res_wf m → m !! a = None → r_parent k = 0 → p ≠ 0 → below (<[a := k]> m) p d ↔ below m p d.
Proof.
  intros H Ha Hk Hp. split; intros Hb; induction Hb as [p d (rd & Ed & Hd)|p c d (rc & Ec & Hc) _ IH].
  - apply tc_once. exists rd. apply lookup_insert_Some in Ed as [[_ <-]|[_ ?]]; [congruence|done].
  - apply lookup_insert_Some in Ec as [[_ <-]|[_ ?]]; [congruence|]. apply tc_l with c; [by exists rc|]. apply IH. eauto using wf_neq0.
  - apply tc_once. exists rd. split; [|done]. rewrite lookup_insert_ne; [done|]. by intros ->; rewrite Ha in Ed.
  - apply tc_l with c; [|apply IH; eauto using wf_neq0]. exists rc. split; [|done]. rewrite lookup_insert_ne; [done|]. by intros ->; rewrite Ha in Ec.
Qed.

Lemma __request_region_spec m answer p r start n name flags :
  res_wf m → m !! p = Some r → 0 ≤ start < 2 ^ 32 →
  (kzalloc m answer = None ∧ __request_region m answer p start n name flags = Some (m, Refused)) ∨
  ∃ res m' e, kzalloc m answer = Some res ∧ __request_region m answer p start n name flags = Some (m', e) ∧
    let m1 := <[res := new_region start n name flags]> m in
    res_wf m1 ∧ region_result m1 p res r (new_region start n name flags) flags m' e.
Proof.
  intros H E Hs. unfold __request_region. destruct (kzalloc m answer) as [res|] eqn:Hk; [|by left]. right.
  apply kzalloc_loose in Hk as [Hl Hn]. set (k := new_region start n name flags).
  assert (Hwf : res_wf (<[res := k]> m)).
  { apply wf_put; try done. simpl. apply u32_range. }
  destruct (wf_levels _ Hwf) as (level & Hlev & Hdown). assert (p ≠ res) by (intros ->; congruence).
  destruct (region_loop_spec level (res_fuel (<[res := k]> m)) (<[res := k]> m) p res r k flags) as (m' & e & Hr & Hres); try done.
  - by rewrite lookup_insert_ne.
  - apply lookup_insert_eq.
  - exists res, m', e. by split_and!.
Qed.

(** ** __release_region *)

(** The child [c] of [q] holds the range from [start] to [fin], the ones in front of it end
    before it: where the loop stops among the children of [q]. *)
Definition holder (m : res_mem) (q start fin c : Z) (rc : resource) : Prop :=
  m !! c = Some rc ∧ r_parent rc = q ∧ r_start rc ≤ start ∧ fin ≤ r_end rc.

Inductive release_found (m : res_mem) (start fin : Z) : Z → Z → Prop :=
| FoundHere q c rc :
    holder m q start fin c rc → is_busy rc = true → r_start rc = start → r_end rc = fin →
    release_found m start fin q c
| FoundBelow q c rc x :
    holder m q start fin c rc → is_busy rc = false → release_found m start fin c x →
    release_found m start fin q x.

(** A range that is not empty has at most one holder among the children. *)
Lemma holder_unique m q start fin c c' rc rc' :
  res_wf m → is_Some (m !! q) → start ≤ fin → holder m q start fin c rc → holder m q start fin c' rc' → c = c'.
Proof.
  intros H Hq Hne (Ec & Hc & ? & ?) (Ec' & Hc' & ? & ?). destruct (decide (c = c')) as [|Hn]; [done|].
  destruct (siblings_disjoint m q c c' rc rc'); try done; lia.
Qed.

Lemma release_found_unique m start fin q x y :
  res_wf m → is_Some (m !! q) → start ≤ fin → release_found m start fin q x → release_found m start fin q y → x = y.
Proof.
  intros H Hq Hne Hx. revert y Hq. induction Hx as [q c rc Hh Hb _ _|q c rc x Hh Hb _ IH]; intros y Hq Hy;
    destruct Hy as [q c' rc' Hh' Hb' _ _|q c' rc' y Hh' Hb' Hy];
    pose proof (holder_unique m q start fin c c' rc rc' H Hq Hne Hh Hh') as <-; destruct Hh as [Ec _], Hh' as [Ec' _];
    assert (rc' = rc) as -> by congruence; try congruence. apply IH; [eauto|done].
Qed.

Lemma release_found_known m start fin q x :
  release_found m start fin q x → ∃ rx, m !! x = Some rx ∧ r_start rx = start ∧ r_end rx = fin ∧ is_busy rx = true ∧ below m q x.
Proof.
  induction 1 as [q c rc (Ec & Hc & _) Hb Hs He|q c rc x (Ec & Hc & _) Hb _ (rx & Ex & ? & ? & ? & Hx)].
  - exists rc. split_and!; try done. apply tc_once. by exists rc.
  - exists rx. split_and!; try done. apply tc_l with c; [|done]. by exists rc.
Qed.

Lemma release_region_run level fuel m start fin q l1 l2 :
  res_wf m → start ≤ fin →
  (∀ p, level p < res_fuel m)%nat → (∀ p c, p ≠ 0 → child_of m p c → (level c < level p)%nat) →
  family m q (l1 ++ l2) → (level q * res_fuel m + length l2 < fuel)%nat →
  (∀ c rc, c ∈ l1 → m !! c = Some rc → ¬ (r_start rc ≤ start ∧ fin ≤ r_end rc)) →
  (release_region_loop fuel m start fin (place q l1) = Some (m, 0, false) ∧ (∀ x, ¬ release_found m start fin q x)) ∨
  ∃ p k1 k2 x rx m', release_found m start fin q x ∧ family m p (k1 ++ x :: k2) ∧ m !! x = Some rx ∧
    link_write m (place p k1) (r_sibling rx) = Some m' ∧
    release_region_loop fuel m start fin (place q l1) = Some (kfree_res m' x, x, ctrue (Z.land (r_flags rx) IORESOURCE_MUXED)).
Proof.
  intros H Hne Hlev Hdown. revert q l1 l2. induction fuel as [|fuel IH]; intros q l1 l2 HF Hf Hl1; [lia|].
  destruct (family_known _ _ _ HF) as [r E]. destruct (family_split _ _ _ _ _ HF E) as [Hs1 Hs2].
  cbn [release_region_loop]. rewrite (place_read _ _ _ _ _ E Hs1). run. destruct l2 as [|c l2]; simpl hd.
  { left. split; [done|]. intros x Hx. rewrite app_nil_r in HF.
    assert (∃ c rc, holder m q start fin c rc) as (c & rc & Ec & Hc & Hh) by (destruct Hx; eauto).
    apply (Hl1 c rc); [by apply (family_child m q l1 c rc)|done|lia]. }
  destruct Hs2 as (_ & rc & Ec & _). assert (Hcl : c ∈ l1 ++ c :: l2) by (apply elem_of_app; right; by left).
  destruct (family_in _ _ _ c HF Hcl) as (rc' & Ec' & Hcq). assert (rc' = rc) as -> by congruence. clear Ec'.
  rewrite (proj2 (Z.eqb_neq c 0)), Ec by eauto using wf_neq0. run. rewrite Z.geb_leb.
  destruct (decide (r_start rc ≤ start ∧ fin ≤ r_end rc)) as [Hh|Hh].
  - rewrite (proj2 (Z.leb_le (r_start rc) start)), (proj2 (Z.leb_le fin (r_end rc))) by lia. cbn [andb].
    assert (Hhold : holder m q start fin c rc) by (split_and!; try done; lia).
    assert (Huni : ∀ c' rc', holder m q start fin c' rc' → c' = c).
    { intros c' rc' Hc'. apply (holder_unique m q start fin c' c rc' rc); eauto. }
    destruct (is_busy rc) eqn:Hbusy; cbn [negb].
    + destruct (decide (r_start rc = start ∧ r_end rc = fin)) as [[Hst Hfi]|Hex].
      * right. rewrite (proj2 (Z.eqb_eq _ _) Hst), (proj2 (Z.eqb_eq _ _) Hfi). cbn [negb orb].
        destruct (unlink m q l1 l2 c rc) as (m2 & rx2 & Hw & _); [done..|]. rewrite Hw. run.
        exists q, l1, l2, c, rc, m2. split_and!; try done. by apply FoundHere with rc.
      * left. split; [zbool; simpl; try done; lia|]. intros x Hx. destruct Hx as [q c' rc' Hc' Hb Hs He|q c' rc' x Hc' Hb _].
        -- pose proof (Huni c' rc' Hc') as ->. destruct Hc' as (Ec' & _). simplify_eq. tauto.
        -- pose proof (Huni c' rc' Hc') as ->. destruct Hc' as (Ec' & _). simplify_eq. congruence.
    + destruct (wf_links _ H c) as [lc HFc]; [eauto|]. rewrite <- (place_nil c).
      assert (Hlc : (level c < level q)%nat) by (apply Hdown; [eauto using wf_neq0|by exists rc]).
      pose proof (family_length _ _ _ H HFc) as Hlen.
      assert (Hlc2 : (S (level c) * res_fuel m ≤ level q * res_fuel m)%nat) by (apply Nat.mul_le_mono_r; lia).
      destruct (IH c [] lc) as [[-> Hno]|(p & k1 & k2 & x & rx & m' & Hx & HFx & Ex & Hw & ->)]; [done| |by intros ? ? ?%elem_of_nil| |].
      * rewrite Nat.mul_succ_l in Hlc2. cbn [length] in Hf. lia.
      * left. split; [done|]. intros x Hx. destruct Hx as [q c' rc' Hc' Hb Hs He|q c' rc' x Hc' Hb Hx].
        -- pose proof (Huni c' rc' Hc') as ->. destruct Hc' as (Ec' & _). simplify_eq. congruence.
        -- pose proof (Huni c' rc' Hc') as ->. by apply (Hno x).
      * right. exists p, k1, k2, x, rx, m'. split_and!; try done. by apply FoundBelow with c rc.
  - replace ((r_start rc <=? start) && (fin <=? r_end rc)) with false by (zbool; simpl; try done; lia).
    rewrite <- (place_snoc q l1 c). apply (IH q (l1 ++ [c]) l2).
    + by rewrite <- app_assoc.
    + simpl in Hf. lia.
    + intros d rd [Hd| ->%list_elem_of_singleton]%elem_of_app Ed; [by apply (Hl1 d)|by simplify_eq].
Qed.

Lemma __release_region_spec m p start n :
  res_wf m → is_Some (m !! p) → 0 ≤ start → 1 ≤ n → start + n - 1 < 2 ^ 32 →
  let fin := start + n - 1 in
  (__release_region m p start n = Some (m, 0, false) ∧ (∀ x, ¬ release_found m start fin p x)) ∨
  ∃ x rx m', release_found m start fin p x ∧ m !! x = Some rx ∧
    __release_region m p start n = Some (m', x, ctrue (Z.land (r_flags rx) IORESOURCE_MUXED)) ∧
    (r_child rx = 0 → res_wf m' ∧ view m' = delete x (view m)).
Proof.
  intros H Hp Hs Hn Hf fin. unfold __release_region. rewrite u32_small by lia. fold fin.
  destruct (wf_levels _ H) as (level & Hlev & Hdown). destruct (wf_links _ H p Hp) as [l HF].
  rewrite <- (place_nil p).
  destruct (release_region_run level (res_fuel m * res_fuel m) m start fin p [] l) as
    [Hno|(q & k1 & k2 & x & rx & m' & Hx & HFx & Ex & Hw & ->)]; try done; [lia| |by intros ? ? ?%elem_of_nil|by left|].
  - pose proof (family_length _ _ _ H HF). specialize (Hlev p).
    assert (S (level p) * res_fuel m ≤ res_fuel m * res_fuel m)%nat as Hm by (apply Nat.mul_le_mono_r; lia).
    rewrite Nat.mul_succ_l in Hm. lia.
  - right. exists x, rx, (kfree_res m' x). split_and!; try done. intros Hc.
    destruct (unlink m q k1 k2 x rx) as (m2 & rx2 & Hw2 & Ex2 & Hc2 & Hwf & Hv & _); [done..|].
    assert (m2 = m') as -> by congruence.
    assert (Hdel : kfree_res (<[x := w_parent 0 rx2]> m') x = kfree_res m' x) by apply delete_insert_eq.
    rewrite <- Hdel. split.
    + apply wf_free; [done|]. apply detached_loose; [done|]. exists (w_parent 0 rx2). rewrite lookup_insert_eq. by rewrite <- Hc2 in Hc.
    + unfold kfree_res. by rewrite view_delete, Hv, delete_insert_eq.
Qed.

(** After a grant, the way to the region is the way its release goes. *)
Section way_back.
Context (m m' : res_mem) (res : Z) (n : resource).
Context (H : res_wf m) (Hne : r_start n ≤ r_end n) (En : m !! res = Some n) (Hpn : r_parent n = 0).
Context (Hv : ∀ c, c ≠ res → view m' !! c = view m !! c).

(** One level: a child that holds the range and is in nobody's way. *)
Lemma way_down p c rp rc :
  p ≠ 0 → m !! p = Some rp → m !! c = Some rc → r_parent rc = p → inside n rc → ¬ blocks m p n c →
  release_found m' (r_start n) (r_end n) c res → release_found m' (r_start n) (r_end n) p res.
Proof using H Hne En Hpn Hv.
  intros Hp Ep Ec Hcp Hin Hnb Hf.
  assert (Hnbusy : is_busy rc = false).
  { destruct (is_busy rc) eqn:Hb; [|done]. exfalso. apply Hnb. exists rc. split_and!; [apply tc_once; by exists rc|done| |by left].
    unfold overlap, inside in *. lia. }
  assert (c ≠ res) by (intros ->; simplify_eq; congruence).
  assert (Hvc : view m' !! c = Some (view1 rc)) by (rewrite Hv by done; by apply view_some).
  apply view_some_inv in Hvc as (k & Ek & Hk). injection Hk as Hk1 Hk2 Hk3 Hk4 Hk5.
  apply FoundBelow with c k; [|unfold is_busy in *; by rewrite Hk4|done].
  unfold inside in Hin. split_and!; try done; [congruence|lia..].
Qed.

Lemma way_found p q :
  view m' !! res = Some (g_set_parent q (view1 n)) → p ≠ 0 → (q = p ∨ below m p q) → (∀ c, ¬ blocks m p n c) →
  (∀ rq, below m p q → m !! q = Some rq → inside n rq) → is_busy n = true →
  release_found m' (r_start n) (r_end n) p res.
Proof using H Hne En Hpn Hv.
  intros Hx Hp Hq Hnb Hin Hbusy.
  assert (Hres : release_found m' (r_start n) (r_end n) q res).
  { apply view_some_inv in Hx as (k & Ek & Hk). injection Hk as Hk1 Hk2 Hk3 Hk4 Hk5.
    apply FoundHere with k; try done; [split_and!; try done; lia|]. unfold is_busy. by rewrite Hk4. }
  clear Hx. destruct Hq as [->|Hq]; [done|].
  induction Hq as [p q Hc|p c q Hc Hq IH]; destruct (child_of_wf m p _ H Hp Hc) as (rp & rc & Ep & Ec & Hcp & Hf).
  - apply (way_down p q rp rc); try done. apply Hin; [by apply tc_once|done].
  - destruct (below_inside m c q rc H Hq Ec) as (rq & Eq & Hfq).
    apply (way_down p c rp rc); try done.
    + specialize (Hin rq ltac:(by apply tc_l with c) Eq). unfold fits, inside in *. lia.
    + apply IH; try done; [eauto using wf_neq0| |].
      * intros d Hd. apply (Hnb d). by apply (blocks_up m p n c).
      * intros rq' Hb Eq'. apply Hin; [by apply tc_l with c|done].
Qed.
End way_back.
End regions.

(** ** find_resource and allocate_resource *)

Section allocation.
Implicit Types (m : res_mem) (l : list Z).

Lemma ALIGN_range x a : 0 ≤ ALIGN x a < 2 ^ 32.
Proof.
  unfold ALIGN. pose proof (u32_range (x + u32 (a - 1))) as Hx. pose proof (u32_range (Z.lnot (u32 (a - 1)))) as Hm.
  set (y := u32 (x + u32 (a - 1))) in *. set (z := u32 (Z.lnot (u32 (a - 1)))) in *.
  assert (0 ≤ Z.land y z) by (apply Z.land_nonneg; lia). split; [done|].
  destruct (Z.eq_dec (Z.land y z) 0) as [->|Hnz]; [lia|]. apply Z.log2_lt_pow2; [lia|].
  eapply Z.le_lt_trans; [apply Z.log2_land; lia|]. apply Z.min_lt_iff. left.
  destruct (Z.eq_dec y 0) as [->|]; [simpl; lia|]. apply Z.log2_lt_pow2; lia.
Qed.

(** Where nothing wraps, ALIGN is the next multiple of a power of two. *)
Lemma ALIGN_pow2 x k : 0 ≤ k < 32 → 0 ≤ x → x + 2 ^ k ≤ 2 ^ 32 → ALIGN x (2 ^ k) = (x + (2 ^ k - 1)) / 2 ^ k * 2 ^ k.
Proof.
  intros Hk Hx Hw. unfold ALIGN. assert (0 < 2 ^ k) by (apply Z.pow_pos_nonneg; lia).
  rewrite (u32_small (2 ^ k - 1)), (u32_small (x + (2 ^ k - 1))) by lia. set (y := x + (2 ^ k - 1)).
  replace (2 ^ k - 1) with (Z.ones k) by (rewrite Z.ones_equiv; lia).
  unfold u32. rewrite <- (Z.land_ones (Z.lnot (Z.ones k)) 32) by lia.
  rewrite (Z.land_comm (Z.lnot _)), Z.land_assoc, Z.land_ones by lia. rewrite (Z.mod_small y) by lia.
  rewrite <- Z.ldiff_land, Z.ldiff_ones_r, Z.shiftl_mul_pow2, Z.shiftr_div_pow2 by lia. done.
Qed.

Lemma ALIGN_least x k :
  0 ≤ k < 32 → 0 ≤ x → x + 2 ^ k ≤ 2 ^ 32 →
  x ≤ ALIGN x (2 ^ k) ∧ (2 ^ k | ALIGN x (2 ^ k)) ∧ ∀ s, x ≤ s → (2 ^ k | s) → ALIGN x (2 ^ k) ≤ s.
Proof.
  intros Hk Hx Hw. rewrite ALIGN_pow2 by done. assert (0 < 2 ^ k) by (apply Z.pow_pos_nonneg; lia). set (a := 2 ^ k) in *.
  pose proof (Z.div_mod (x + (a - 1)) a ltac:(lia)). pose proof (Z.mod_pos_bound (x + (a - 1)) a ltac:(lia)).
  split_and!; [nia|by exists ((x + (a - 1)) / a)|]. intros s Hs [q ->]. apply Z.mul_le_mono_nonneg_r; [lia|].
  apply Z.lt_succ_r, Z.div_lt_upper_bound; [lia|]. nia.
Qed.

Lemma find_loop_total size min max align alignf fuel m rt n start this l :
  seg m this l 0 → 0 ∉ l → (length l < fuel)%nat →
  ∃ o, find_loop size min max align alignf fuel m rt n start this = Some o ∧
    ∀ s e, o = Some (s, e) → 0 ≤ s < 2 ^ 32 ∧ 0 ≤ e < 2 ^ 32.
Proof.
  revert start this l. induction fuel as [|fuel IH]; intros start this l Hs H0 Hf; [lia|]. cbn [find_loop].
  assert (Hst : ∀ fin, 0 ≤ (find_start size min max align alignf n start fin).1 < 2 ^ 32).
  { intros fin. unfold find_start. destruct alignf; simpl; [apply u32_range|apply ALIGN_range]. }
  destruct l as [|c l]; simpl in Hs.
  - subst this. change (ctrue 0) with false. cbn iota. run. specialize (Hst (r_end rt)).
    destruct (find_start size min max align alignf n start (r_end rt)) as [s e]; simpl in Hst.
    destruct ((s <? e) && (u32 (e - s) >=? u32 (size - 1))); eexists; (split; [done|]); [|done].
    intros s' e' [= <- <-]. split; [done|apply u32_range].
  - destruct Hs as (-> & rc & Ec & Hs). apply not_elem_of_cons in H0 as [Hc H0].
    unfold ctrue. rewrite (proj2 (Z.eqb_neq c 0)), Ec by done. cbn [negb]. run. specialize (Hst (u32 (r_start rc - 1))).
    destruct (find_start size min max align alignf n start (u32 (r_start rc - 1))) as [s e]; simpl in Hst.
    destruct ((s <? e) && (u32 (e - s) >=? u32 (size - 1))).
    + eexists. split; [done|]. intros s' e' [= <- <-]. split; [done|apply u32_range].
    + apply (IH _ _ l); [done|done|simpl in Hf; lia].
Qed.

(** What find_resource leaves: a range in [new], or nothing changed. *)
Lemma find_resource_total size min max align alignf m root new r n :
  res_wf m → m !! root = Some r → m !! new = Some n →
  find_resource size min max align alignf m root new = Some (m, - EBUSY) ∨
  ∃ s e, find_resource size min max align alignf m root new = Some (<[new := w_range s e n]> m, 0) ∧
    0 ≤ s < 2 ^ 32 ∧ 0 ≤ e < 2 ^ 32.
Proof.
  intros H E En. unfold find_resource. rewrite E. run. rewrite En. run.
  destruct (wf_links _ H root) as [l HF]; [eauto|]. pose proof (family_length _ _ _ H HF) as Hlen.
  assert (H0 : 0 ∉ l) by (intros H0; destruct (family_in _ _ _ 0 HF H0) as (? & ? & _); by rewrite (wf_null _ H) in *).
  destruct HF as (r' & E' & Hs & _). assert (r' = r) as -> by congruence.
  assert (Hstart : ∃ start this k,
    (if ctrue (r_child r) then t ← m !! r_child r;
       Some (if r_start t =? 0 then (u32 (r_end t + 1), r_sibling t) else (r_start r, r_child r))
     else Some (r_start r, r_child r)) = Some (start, this) ∧ seg m this k 0 ∧ 0 ∉ k ∧ (length k ≤ length l)%nat).
  { destruct l as [|c l]; simpl in Hs.
    - rewrite Hs. simpl. by exists (r_start r), 0, [].
    - pose proof Hs as (-> & rc & Ec & Hs'). pose proof H0 as [Hc H0']%not_elem_of_cons.
      unfold ctrue. rewrite (proj2 (Z.eqb_neq c 0)), Ec by done. cbn [negb]. run. destruct (r_start rc =? 0).
      + exists (u32 (r_end rc + 1)), (r_sibling rc), l. split_and!; try done. simpl. lia.
      + exists (r_start r), c, (c :: l). split_and!; try done. split; [done|]. by exists rc. }
  destruct Hstart as (start & this & k & -> & Hk & Hk0 & Hkl). run.
  destruct (find_loop_total size min max align alignf (res_fuel m) m r n start this k) as (o & -> & Ho); [done|done|lia|]. run.
  destruct o as [[s e]|]; [|by left]. right. exists s, e. unfold res_upd. rewrite En. run. split; [done|by apply Ho].
Qed.

Lemma allocate_resource_total size min max align alignf m root new r n :
  res_wf m → m !! root = Some r → m !! new = Some n → r_parent n = 0 → r_child n = 0 → root ≠ new →
  ∃ m' v, allocate_resource size min max align alignf m root new = Some (m', v) ∧ res_wf m' ∧
    (v = 0 ∧ (∃ s e, view m' = <[new := g_set_parent root (g_set_range s e (view1 n))]> (view m)) ∨
     v = - EBUSY ∧ ∃ s e, view m' = <[new := g_set_range s e (view1 n)]> (view m)).
Proof.
  intros H E En Hp Hc Hne. unfold allocate_resource.
  destruct (find_resource_total size min max align alignf m root new r n) as [->|(s & e & -> & Hs & He)]; [done..| |]; run.
  - exists m, (- EBUSY). split_and!; try done. right. split; [done|]. exists (r_start n), (r_end n).
    symmetry. apply insert_id. rewrite (view_some _ _ _ En). done.
  - set (n' := w_range s e n). assert (Hwf : res_wf (<[new := n']> m)).
    { apply wf_put; try done. apply detached_loose; [done|]. by exists n. }
    simpl (0 >=? 0). cbn iota.
    destruct (__request_resource_spec (<[new := n']> m) root new r n') as (m' & c & -> & Hr); [done|by rewrite lookup_insert_ne|apply lookup_insert_eq|done..|].
    run. destruct Hr as [m' Hfit Hnc Hwf' Hv|Hfit|c rc Hfit Ec Hcp Hov Hmin].
    + simpl ctrue. exists m', 0. split; [done|]. split; [done|]. left. split; [done|]. exists s, e.
      rewrite Hv, view_insert, insert_insert_eq. done.
    + exists (<[new := n']> m), (- EBUSY). unfold ctrue. rewrite (proj2 (Z.eqb_neq root 0)) by eauto using wf_neq0.
      split_and!; try done. right. split; [done|]. exists s, e. by rewrite view_insert.
    + exists (<[new := n']> m), (- EBUSY). unfold ctrue. rewrite (proj2 (Z.eqb_neq c 0)) by eauto using wf_neq0.
      split_and!; try done. right. split; [done|]. exists s, e. by rewrite view_insert.
Qed.

(** A place of [size] bytes for a new child of [root]: aligned, within the limits and free. *)
Definition slot (m : res_mem) (root : Z) (r : resource) (size min max a s : Z) : Prop :=
  (a | s) ∧ min ≤ s ∧ r_start r ≤ s ∧ s + size - 1 ≤ max ∧ s + size - 1 ≤ r_end r ∧
  ∀ c rc, m !! c = Some rc → r_parent rc = root → ¬ (r_start rc ≤ s + size - 1 ∧ s ≤ r_end rc).

(** Where a gap between the children of [root] may begin. *)
Definition gap_start (m : res_mem) (root : Z) (r : resource) (x : Z) : Prop :=
  x = r_start r ∨ ∃ c rc, m !! c = Some rc ∧ r_parent rc = root ∧ x = r_end rc + 1.

Section first_fit.
Context (m : res_mem) (root : Z) (r n : resource) (size min max k : Z).
Context (H : res_wf m) (E : m !! root = Some r) (Hk : 0 ≤ k < 32) (Hsize : 2 ≤ size < 2 ^ 32).
Context (Hmin : 0 ≤ min) (Hmax : 0 ≤ max < 2 ^ 32) (Hw1 : ∀ x, gap_start m root r x → x + 2 ^ k ≤ 2 ^ 32) (Hw2 : min + 2 ^ k ≤ 2 ^ 32).

Let slot_at := slot m root r size min max (2 ^ k).

(** One gap: from [start], behind which the children [l1] end, to [fin], before the
    others start. *)
Lemma gap_first start fin s0 e0 l1 l2 :
  family m root (l1 ++ l2) → r_start r ≤ start ≤ r_end r + 1 → gap_start m root r start → 0 ≤ fin ≤ r_end r →
  (∀ c rc, c ∈ l1 → m !! c = Some rc → r_end rc < start) →
  (∀ c rc, c ∈ l2 → m !! c = Some rc → fin < r_start rc) →
  (∀ s, slot_at s → start ≤ s) →
  find_start size min max (2 ^ k) None n start fin = (s0, e0) →
  ((s0 <? e0) && (u32 (e0 - s0) >=? u32 (size - 1)) = true ∧ slot_at s0 ∧
     u32 (s0 + size - 1) = s0 + size - 1 ∧ ∀ s, slot_at s → s0 ≤ s) ∨
  ((s0 <? e0) && (u32 (e0 - s0) >=? u32 (size - 1)) = false ∧ ∀ s, slot_at s → fin < s + size - 1).
Proof using H E Hk Hsize Hmin Hmax Hw1 Hw2.
  intros HF Hst Hgap%Hw1 Hfin Hl1 Hl2 Hlow [= <- <-]. pose proof (wf_range _ _ _ H E).
  set (x := if start <? min then min else start). set (e := if fin >? max then max else fin).
  assert (Hx : x = Z.max start min) by (unfold x; zbool; lia).
  assert (He : e = Z.min fin max) by (unfold e; zbool; lia).
  destruct (ALIGN_least x k) as (Ha1 & Ha2 & Ha3); [done|lia|lia|]. pose proof (ALIGN_range x (2 ^ k)) as Har.
  set (s0 := ALIGN x (2 ^ k)) in *. rewrite (u32_small (size - 1)) by lia. rewrite Z.geb_leb.
  assert (Hleast : ∀ s, slot_at s → s0 ≤ s).
  { intros s Hs. pose proof (Hlow s Hs). destruct Hs as (? & ? & _). apply Ha3; [lia|done]. }
  destruct (decide (s0 < e ∧ size - 1 ≤ e - s0)) as [[Hlt Hle]|Hno].
  - left. rewrite (u32_small (e - s0)) by lia. rewrite (proj2 (Z.ltb_lt _ _) Hlt), (proj2 (Z.leb_le _ _) Hle).
    split; [done|]. split; [|split; [apply u32_small; lia|done]].
    split_and!; try done; try lia. intros c rc Ec Hc [? ?].
    pose proof (family_child _ _ _ _ _ HF Ec Hc) as [Hcl|Hcl]%elem_of_app.
    + specialize (Hl1 c rc Hcl Ec). lia.
    + specialize (Hl2 c rc Hcl Ec). lia.
  - right. split.
    + destruct (Z.ltb_spec s0 e); [|done]. rewrite u32_small by lia. simpl. apply Z.leb_gt. lia.
    + intros s Hs. pose proof (Hleast s Hs). destruct Hs as (_ & ? & _ & ? & _). lia.
Qed.

Lemma find_loop_first fuel start l1 l2 :
  family m root (l1 ++ l2) → r_start r ≤ start ≤ r_end r + 1 → gap_start m root r start → (length l2 < fuel)%nat →
  (∀ c rc, c ∈ l1 → m !! c = Some rc → r_end rc < start) →
  (∀ c rc, c ∈ l2 → m !! c = Some rc → 0 < r_start rc) →
  (∀ s, slot_at s → start ≤ s) →
  (∃ s, find_loop size min max (2 ^ k) None fuel m r n start (hd 0 l2) = Some (Some (s, s + size - 1)) ∧
     slot_at s ∧ ∀ s', slot_at s' → s ≤ s') ∨
  (find_loop size min max (2 ^ k) None fuel m r n start (hd 0 l2) = Some None ∧ ∀ s, ¬ slot_at s).
Proof using H E Hk Hsize Hmin Hmax Hw1 Hw2.
  pose proof (wf_range _ _ _ H E) as Hr. revert start l1 l2.
  induction fuel as [|fuel IH]; intros start l1 l2 HF Hst Hgap Hf Hl1 Hl2 Hlow; [lia|]. cbn [find_loop].
  destruct l2 as [|c l2]; simpl hd.
  - change (ctrue 0) with false. cbn iota. run.
    destruct (find_start size min max (2 ^ k) None n start (r_end r)) as [s0 e0] eqn:Hfs.
    destruct (gap_first start (r_end r) s0 e0 l1 []) as [(-> & Hs0 & Hu & Hleast)|(-> & Hno)]; try done; [lia| |..].
    + by intros ? ? ?%elem_of_nil.
    + left. exists s0. by rewrite Hu.
    + right. split; [done|]. intros s Hs. specialize (Hno s Hs). destruct Hs as (_ & _ & _ & _ & ? & _). lia.
  - assert (Hcl : c ∈ l1 ++ c :: l2) by (apply elem_of_app; right; by left).
    destruct (family_in _ _ _ c HF Hcl) as (rc & Ec & Hc). pose proof (family_inside m root _ c r rc H HF Hcl E Ec) as (_ & ? & ?).
    pose proof (Hl2 c rc ltac:(by left) Ec) as Hpos. pose proof (wf_range _ _ _ H Ec).
    unfold ctrue. rewrite (proj2 (Z.eqb_neq c 0)), Ec by eauto using wf_neq0. cbn [negb]. run. rewrite (u32_small (r_start rc - 1)) by lia.
    destruct (find_start size min max (2 ^ k) None n start (r_start rc - 1)) as [s0 e0] eqn:Hfs.
    destruct (gap_first start (r_start rc - 1) s0 e0 l1 (c :: l2)) as [(-> & Hs0 & Hu & Hleast)|(-> & Hno)]; try done; [lia| |..].
    + apply (family_tail m root l1); [done..|]. intros ? ? ? [= <- <-] ?. simplify_eq. lia.
    + left. exists s0. by rewrite Hu.
    + destruct (family_split _ _ _ _ _ HF E) as [_ (_ & rc' & Ec' & Hs2)]. assert (rc' = rc) as -> by congruence.
      assert (Hgc : gap_start m root r (r_end rc + 1)) by (right; by exists c, rc).
      pose proof (Hw1 _ Hgc). assert (0 < 2 ^ k) by (apply Z.pow_pos_nonneg; lia).
      rewrite (seg_head _ _ _ Hs2), (u32_small (r_end rc + 1)) by lia. rewrite (cons_middle c l1), app_assoc in HF.
      apply (IH (r_end rc + 1) (l1 ++ [c]) l2); try done; [lia|simpl in Hf; lia| | |].
      * intros d rd [Hd| ->%list_elem_of_singleton]%elem_of_app Ed; [|simplify_eq; lia].
        rewrite <- app_assoc in HF. pose proof (family_order m root l1 (c :: l2) d c rd rc HF Hd ltac:(by left) Ed Ec). lia.
      * intros d rd Hd. apply Hl2. by right.
      * intros s Hs. pose proof (Hno s Hs). destruct Hs as (_ & _ & _ & _ & _ & Hfree). specialize (Hfree c rc Ec Hc). lia.
Qed.
End first_fit.

(** allocate_resource places [new] at the lowest slot there is, and fails if there is none. *)
Lemma allocate_resource_first m root new r n size min max k :
  res_wf m → m !! root = Some r → m !! new = Some n → r_parent n = 0 → r_child n = 0 → root ≠ new →
  r_start r ≤ r_end r → 0 ≤ k < 32 → 2 ≤ size < 2 ^ 32 → 0 ≤ min → 0 ≤ max < 2 ^ 32 →
  (∀ x, gap_start m root r x → x + 2 ^ k ≤ 2 ^ 32) → min + 2 ^ k ≤ 2 ^ 32 →
  (∃ s m', allocate_resource size min max (2 ^ k) None m root new = Some (m', 0) ∧ res_wf m' ∧
     view m' = <[new := g_set_parent root (g_set_range s (s + size - 1) (view1 n))]> (view m) ∧
     slot m root r size min max (2 ^ k) s ∧ ∀ s', slot m root r size min max (2 ^ k) s' → s ≤ s') ∨
  (allocate_resource size min max (2 ^ k) None m root new = Some (m, - EBUSY) ∧
   ∀ s, ¬ slot m root r size min max (2 ^ k) s).
Proof.
  intros H E En Hp Hc Hne Hrr Hk Hsize Hmin Hmax Hw1 Hw2. pose proof (wf_range _ _ _ H E) as Hr.
  unfold allocate_resource, find_resource. rewrite E. run. rewrite En. run.
  destruct (wf_links _ H root) as [l HF]; [eauto|]. pose proof (family_length _ _ _ H HF) as Hlen.
  assert (Hfind : ∃ start l1 l2, l = l1 ++ l2 ∧
    (if ctrue (r_child r) then t ← m !! r_child r;
       Some (if r_start t =? 0 then (u32 (r_end t + 1), r_sibling t) else (r_start r, r_child r))
     else Some (r_start r, r_child r)) = Some (start, hd 0 l2) ∧ r_start r ≤ start ≤ r_end r + 1 ∧ gap_start m root r start ∧
    (∀ c rc, c ∈ l1 → m !! c = Some rc → r_end rc < start) ∧
    (∀ c rc, c ∈ l2 → m !! c = Some rc → 0 < r_start rc) ∧
    (∀ s, slot m root r size min max (2 ^ k) s → start ≤ s)).
  { pose proof HF as (r' & E' & Hs & _). assert (r' = r) as -> by congruence. destruct l as [|c l]; simpl in Hs.
    - rewrite Hs. exists (r_start r), [], []. 
      split_and!; [done|done|lia|lia|by left|by intros ? ? ?%elem_of_nil|by intros ? ? ?%elem_of_nil|by intros s (_ & _ & ? & _)].
    - destruct Hs as (Hch & rc & Ec & Hs). rewrite Hch. unfold ctrue. rewrite (proj2 (Z.eqb_neq c 0)), Ec by eauto using wf_neq0. cbn [negb]. run.
      pose proof (family_inside m root _ c r rc H HF ltac:(by left) E Ec) as (Hcp & ? & ?). pose proof (wf_range _ _ _ H Ec).
      assert (0 < 2 ^ k) by (apply Z.pow_pos_nonneg; lia).
      assert (Htail : ∀ d rd, d ∈ l → m !! d = Some rd → 0 < r_start rd).
      { intros d rd Hd Ed. pose proof (family_order m root [c] l c d rc rd HF ltac:(by left) Hd Ec Ed). lia. }
      destruct (Z.eqb_spec (r_start rc) 0).
      + assert (Hgc : gap_start m root r (r_end rc + 1)) by (right; by exists c, rc). pose proof (Hw1 _ Hgc).
        exists (r_end rc + 1), [c], l. rewrite (seg_head _ _ _ Hs), u32_small by lia. split_and!; try done; try lia.
        * intros d rd ->%list_elem_of_singleton Ed. simplify_eq. lia.
        * intros s (_ & ? & ? & ? & _ & Hfree). specialize (Hfree c rc Ec Hcp). lia.
      + exists (r_start r), [], (c :: l). split_and!; try done; try lia.
        * by left.
        * by intros ? ? ?%elem_of_nil.
        * intros d rd [->|Hd]%elem_of_cons Ed; [simplify_eq; lia|eauto].
        * by intros s (_ & _ & ? & _). }
  destruct Hfind as (start & l1 & l2 & -> & -> & Hst & Hgap & Hl1 & Hl2 & Hlow). run.
  destruct (find_loop_first m root r n size min max k H E Hk Hsize Hmin Hmax Hw1 Hw2 (res_fuel m) start l1 l2)
    as [(s & -> & Hslot & Hleast)|(-> & Hno)]; try done; [rewrite length_app in Hlen; lia|..]; run; [|by right].
  left. exists s. unfold res_upd. rewrite En. run. simpl (0 >=? 0). cbn iota. set (n' := w_range s (s + size - 1) n).
  pose proof Hslot as (_ & ? & ? & ? & ? & Hfree).
  destruct (__request_resource_spec (<[new := n']> m) root new r n') as (m' & c & -> & Hreq).
  - apply wf_put; try done; simpl; [|lia..]. apply detached_loose; [done|]. by exists n.
  - by rewrite lookup_insert_ne.
  - apply lookup_insert_eq.
  - done.
  - done.
  - done.
  - assert (Hfit : fits r n') by (unfold fits, inside; simpl; lia). run.
    destruct Hreq as [m' _ Hnc Hwf' Hv|Hnf|c rc _ Ec Hcp Hov _]; [|done|].
    + exists m'. simpl ctrue. cbn iota. split_and!; try done. by rewrite Hv, view_insert, insert_insert_eq.
    + exfalso. rewrite lookup_insert_Some in Ec. destruct Ec as [[_ <-]|[_ Ec]].
      * simpl in Hcp. rewrite Hp in Hcp. by apply (wf_neq0 _ _ _ H E).
      * apply (Hfree c rc Ec Hcp). unfold overlap in Hov. simpl in Hov. lia.
Qed.
End allocation.

(** ** reserve_region_with_split *)

Section splitting.
Context (root : Z) (name : string).
Implicit Types (m : res_mem) (V : gmap Z region) (answers : list (option Z)).

Definition hit (V : gmap Z region) (s e c : Z) : bool :=
  match V !! c with
  | Some g => (g_parent g =? root) && (g_start g <=? e) && (s <=? g_end g)
  | None => false
  end.
(** The children of [root] that overlap the range from [s] to [e]. *)
Definition hits (V : gmap Z region) (s e : Z) : gset Z := filter (λ c, hit V s e c = true) (dom V).

Lemma elem_of_hits V s e c :
  c ∈ hits V s e ↔ ∃ g, V !! c = Some g ∧ g_parent g = root ∧ g_start g ≤ e ∧ s ≤ g_end g.
Proof.
  unfold hits. rewrite elem_of_filter, elem_of_dom. unfold hit. split.
  - intros [Hh [g Eg]]. rewrite Eg in Hh. zprop. eauto.
  - intros (g & -> & Hp & Hs & He). split; [|eauto]. rewrite (proj2 (Z.eqb_eq _ _) Hp), (proj2 (Z.leb_le _ _) Hs), (proj2 (Z.leb_le _ _) He). done.
Qed.

(** [V'] has more children of [root], all busy and in the range from [s] to [e]. *)
Definition added (V V' : gmap Z region) (s e : Z) : Prop :=
  (∀ c g, V !! c = Some g → V' !! c = Some g) ∧
  (∀ c g, V' !! c = Some g → V !! c = Some g ∨
     g_parent g = root ∧ g_name g = Some name ∧ g_flags g = IORESOURCE_BUSY ∧ s ≤ g_start g ∧ g_start g ≤ g_end g ∧ g_end g ≤ e).

(** Every address from [s] to [e] belongs to a child of [root]. *)
Definition covered (V : gmap Z region) (s e : Z) : Prop :=
  ∀ x, s ≤ x ≤ e → ∃ c g, V !! c = Some g ∧ g_parent g = root ∧ g_start g ≤ x ≤ g_end g.

(** Answers of kzalloc that are no failures. *)
Definition good_answers (m : res_mem) answers : Prop :=
  NoDup answers ∧ Forall (λ a, ∃ x, a = Some x ∧ x ≠ 0 ∧ m !! x = None) answers.

Lemma added_refl V s e : added V V s e.
Proof. split; auto. Qed.

Lemma added_trans V V' V'' s e s1 e1 s2 e2 :
  added V V' s1 e1 → added V' V'' s2 e2 → s ≤ s1 → e1 ≤ e → s ≤ s2 → e2 ≤ e → added V V'' s e.
Proof.
  intros [H1 H1'] [H2 H2'] ? ? ? ?. split; [eauto|].
  intros c g Hc. destruct (H2' c g Hc) as [Hc'|(? & ? & ? & ? & ? & ?)]; [|right; split_and!; try done; lia].
  destruct (H1' c g Hc') as [|(? & ? & ? & ? & ? & ?)]; [by left|right; split_and!; try done; lia].
Qed.

Lemma covered_mono V V' s e : (∀ c g, V !! c = Some g → V' !! c = Some g) → covered V s e → covered V' s e.
Proof. intros HV Hc x Hx. destruct (Hc x Hx) as (c & g & Eg & ?). eauto. Qed.

(** What is added elsewhere does not count as a conflict. *)
Lemma hits_added V V' s e s' e' : added V V' s e → e < s' ∨ e' < s → hits V' s' e' = hits V s' e'.
Proof.
  intros [H1 H2] Hd. apply set_eq. intros c. rewrite !elem_of_hits. split; intros (g & Eg & ? & ? & ?); [|by eauto 10].
  destruct (H2 c g Eg) as [|(_ & _ & _ & ? & ? & ?)]; [eauto 10|lia].
Qed.

(** A conflict splits the others into those in front of it and those behind it. *)
Lemma hits_split m s e c rc :
  res_wf m → is_Some (m !! root) → m !! c = Some rc → r_parent rc = root → r_start rc ≤ e → s ≤ r_end rc →
  (size (hits (view m) s (r_start rc - 1)) + size (hits (view m) (r_end rc + 1) e) < size (hits (view m) s e))%nat.
Proof.
  intros H Hroot Ec Hc Hs He. pose proof Hroot as [r E].
  destruct (wf_inside m c rc H Ec) as (? & _ & ? & _); [rewrite Hc; eauto using wf_neq0|]. set (A := hits _ s (r_start rc - 1)). set (B := hits _ (r_end rc + 1) e).
  assert (Hne : ∀ d, d ∈ A ∨ d ∈ B → d ∈ hits (view m) s e ∧ d ≠ c).
  { intros d Hd. unfold A, B in Hd. rewrite !elem_of_hits in Hd. rewrite elem_of_hits.
    destruct Hd as [(g & Eg & Hg & ? & ?)|(g & Eg & Hg & ? & ?)]; apply view_some_inv in Eg as (rd & Ed & <-); simpl in *.
    - split; [|intros ->; simplify_eq; lia]. exists (view1 rd). rewrite (view_some _ _ _ Ed). split_and!; try done; simpl; lia.
    - split; [|intros ->; simplify_eq; lia]. exists (view1 rd). rewrite (view_some _ _ _ Ed). split_and!; try done; simpl; lia. }
  assert (Hdisj : A ## B).
  { intros d Ha Hb. destruct (Hne d (or_introl Ha)) as [_ Hdc]. unfold A, B in Ha, Hb. rewrite elem_of_hits in Ha, Hb.
    destruct Ha as (g & Eg & Hg & Hg1 & Hg2), Hb as (g' & Eg' & _ & Hg3 & Hg4). simplify_eq.
    apply view_some_inv in Eg as (rd & Ed & <-). simpl in *.
    destruct (siblings_disjoint m root c d rc rd); try done; lia. }
  rewrite <- size_union by done. apply subset_size. split.
  - intros d. rewrite elem_of_union. intros Hd. by apply Hne.
  - intros Hsub. assert (Hch : c ∈ hits (view m) s e).
    { apply elem_of_hits. exists (view1 rc). by rewrite (view_some _ _ _ Ec). }
    apply Hsub, elem_of_union in Hch. by destruct (Hne c Hch).
Qed.

(** The next answer, when the answers are good. *)
Lemma good_answers_cons m answers :
  good_answers m answers → answers ≠ [] →
  ∃ x, kzalloc m (default None (head answers)) = Some x ∧ Some x ∉ tail answers ∧ good_answers m (tail answers).
Proof.
  intros [Hnd Hall] Hne. destruct answers as [|a rest]; [done|]. apply Forall_cons in Hall as [(x & -> & Hx0 & Hx) Hall].
  apply NoDup_cons in Hnd as [Hn Hnd]. exists x. simpl. unfold kzalloc. rewrite decide_True by done. done.
Qed.

Lemma good_answers_grow m m' answers :
  good_answers m answers → (∀ x, is_Some (m' !! x) → is_Some (m !! x) ∨ Some x ∉ answers) → good_answers m' answers.
Proof.
  intros [Hnd Hall] Hm. split; [done|]. rewrite Forall_forall in *. intros a Ha.
  destruct (Hall a Ha) as (x & -> & Hx0 & Hx). exists x. split_and!; try done. apply eq_None_not_Some. intros Hs.
  destruct (Hm x Hs) as [[??]|]; [congruence|done].
Qed.

(** The calls of kzalloc for a range: two for every conflict and one. *)
Definition split_cost (V : gmap Z region) (s e : Z) : nat :=
  if decide (s ≤ e) then 2 * size (hits V s e) + 1 else 0.

Definition split_result (m : res_mem) (s e : Z) (answers : list (option Z)) (m' : res_mem) (answers' : list (option Z)) : Prop :=
  res_wf m' ∧ added (view m) (view m') s e ∧
  (good_answers m answers → (split_cost (view m) s e ≤ length answers)%nat →
     good_answers m' answers' ∧ (length answers ≤ length answers' + split_cost (view m) s e)%nat ∧ covered (view m') s e).

Lemma split_result_empty m s e answers : res_wf m → e < s → split_result m s e answers m answers.
Proof. intros H Hlt. split_and!; [done|apply added_refl|]. intros Hg _. split_and!; [done|lia|]. intros x Hx. lia. Qed.

(** The two parts around a conflict make up the whole. *)
Lemma split_result_join m s e c rc answers m1 answers1 m2 answers2 :
  res_wf m → is_Some (m !! root) → m !! c = Some rc → r_parent rc = root → r_start rc ≤ e → s ≤ r_end rc → s ≤ e →
  split_result m s (r_start rc - 1) (tail answers) m1 answers1 →
  split_result m1 (r_end rc + 1) e answers1 m2 answers2 →
  split_result m s e answers m2 answers2.
Proof.
  intros H Hroot Ec Hc Hs He Hse (Hwf1 & Ha1 & Hg1) (Hwf2 & Ha2 & Hg2).
  pose proof (hits_split m s e c rc H Hroot Ec Hc Hs He) as Hk. pose proof Hroot as [r E].
  destruct (wf_inside m c rc H Ec) as (? & _ & ? & _); [rewrite Hc; eauto using wf_neq0|].
  assert (Hcost : (S (split_cost (view m) s (r_start rc - 1) + split_cost (view m1) (r_end rc + 1) e) ≤ split_cost (view m) s e)%nat).
  { unfold split_cost. rewrite (hits_added _ _ _ _ (r_end rc + 1) e Ha1) by lia. rewrite (decide_True (P := s ≤ e)) by done.
    repeat case_decide; lia. }
  split_and!; [done|by apply (added_trans _ (view m1) _ s e s (r_start rc - 1) (r_end rc + 1) e); [..|lia|lia|lia|lia]|].
  intros Hg Hlen. destruct (good_answers_cons m answers) as (z & _ & _ & Hgt); [done|intros ->; simpl in Hlen; lia|].
  assert (Hlt : length answers = S (length (tail answers))) by (destruct answers; simpl in *; lia).
  destruct (Hg1 Hgt) as (Hg1' & Hlen1 & Hcov1); [lia|]. destruct (Hg2 Hg1') as (Hg2' & Hlen2 & Hcov2); [lia|].
  split_and!; [done|lia|]. intros y Hy. destruct (decide (y < r_start rc)) as [|Hy1].
  - destruct (Hcov1 y) as (d & g & Eg & ?); [lia|]. exists d, g. split; [by apply Ha2|done].
  - destruct (decide (y ≤ r_end rc)) as [|Hy2]; [|apply Hcov2; lia].
    exists c, (view1 rc). split; [apply Ha2, Ha1; by apply view_some|]. simpl. split; [done|lia].
Qed.

(** The range is free: the new region takes all of it. *)
Lemma split_result_whole m m1 res s e answers :
  kzalloc m (default None (head answers)) = Some res → res_wf m1 → s ≤ e →
  view m1 = <[res := mk_region s e (Some name) IORESOURCE_BUSY root]> (view m) →
  split_result m s e answers m1 (tail answers).
Proof.
  intros Hk Hwf Hse Hv. apply kzalloc_loose in Hk as Hk'. destruct Hk' as [_ Hres].
  assert (Hvres : view m !! res = None) by by rewrite view_lookup, Hres.
  split_and!; [done| |].
  - rewrite Hv. split.
    + intros d g Eg. rewrite lookup_insert_ne; [done|]. by intros ->; rewrite Hvres in Eg.
    + intros d g. rewrite lookup_insert_Some. intros [[<- <-]|[_ ?]]; [right|by left]. simpl. split_and!; try done; lia.
  - unfold split_cost. rewrite decide_True by done. intros Hg Hlen.
    destruct (good_answers_cons m answers) as (x & Hx & Hxt & Hg'); [done|intros ->; simpl in Hlen; lia|].
    assert (x = res) as -> by congruence. split_and!.
    + apply (good_answers_grow m); [done|]. intros y Hy. destruct (decide (y = res)) as [->|Hyr]; [by right|]. left.
      rewrite <- (fmap_is_Some view1), <- view_lookup, Hv, lookup_insert_ne, view_lookup, fmap_is_Some in Hy; done.
    + destruct answers; simpl; lia.
    + intros y Hy. eexists res, _. rewrite Hv, lookup_insert_eq. split_and!; try done; simpl; lia.
Qed.

Lemma added_lookup m m' s e c rc :
  added (view m) (view m') s e → m !! c = Some rc → ∃ rc', m' !! c = Some rc' ∧ view1 rc' = view1 rc.
Proof. intros [Ha _] Ec. apply view_some_inv, Ha. by apply view_some. Qed.

Lemma reserve_split_spec fuel m r s e answers :
  res_wf m → m !! root = Some r → r_start r ≤ s ≤ e → e ≤ r_end r → (size (hits (view m) s e) < fuel)%nat →
  ∃ m' answers', reserve_split fuel m root s e name answers = Some (m', answers') ∧ split_result m s e answers m' answers'.
Proof.
  revert m r s e answers. induction fuel as [|fuel IH]; intros m r s e answers H E Hs He Hf; [lia|]. cbn [reserve_split].
  pose proof (wf_range _ _ _ H E) as Hr.
  destruct (kzalloc m (default None (head answers))) as [res|] eqn:Hk.
  2: { exists m, (tail answers). split; [done|]. split_and!; [done|apply added_refl|]. unfold split_cost. rewrite decide_True by lia.
       intros Hg Hlen. destruct (good_answers_cons m answers) as (x & Hx & _); [done|intros ->; simpl in Hlen; lia|congruence]. }
  apply kzalloc_loose in Hk as Hk'. destruct Hk' as [Hl Hres]. set (n := mk_res s e (Some name) IORESOURCE_BUSY 0 0 0).
  assert (Hne : root ≠ res) by (intros ->; congruence).
  destruct (__request_resource_spec (<[res := n]> m) root res r n) as (m1 & c & -> & Hreq); try done.
  { apply wf_put; try done; simpl; lia. }
  { by rewrite lookup_insert_ne. }
  { apply lookup_insert_eq. }
  run. destruct Hreq as [m1 _ Hnc Hwf Hv|Hnf|c rc _ Ec Hcp Hov _].
  - rewrite Z.eqb_refl. exists m1, (tail answers). split; [done|].
    rewrite view_insert, insert_insert_eq in Hv. apply (split_result_whole m m1 res); try done. lia.
  - exfalso. apply Hnf. unfold fits, inside. simpl. lia.
  - assert (c ≠ res) by (intros ->; rewrite lookup_insert_eq in Ec; simplify_eq; simpl in *; by apply (wf_neq0 _ _ _ H E)).
    rewrite lookup_insert_ne in Ec by done. unfold overlap in Hov. simpl in Hov.
    rewrite (proj2 (Z.eqb_neq c 0)) by eauto using wf_neq0.
    assert (kfree_res (<[res := n]> m) res = m) as -> by by apply delete_insert_id. rewrite Ec. run.
    pose proof (wf_range _ _ _ H Ec). destruct (wf_inside m c rc H Ec) as (rp & Ep & ? & ?); [rewrite Hcp; eauto using wf_neq0|].
    assert (rp = r) as -> by congruence. rewrite Z.geb_leb, Z.gtb_ltb.
    pose proof (hits_split m s e c rc H ltac:(eauto) Ec Hcp ltac:(lia) ltac:(lia)) as Hk2.
    assert (Hpart1 : ∃ m1 a1, (if s <? r_start rc then reserve_split fuel m root s (u32 (r_start rc - 1)) name (tail answers)
        else Some (m, tail answers)) = Some (m1, a1) ∧ split_result m s (r_start rc - 1) (tail answers) m1 a1).
    { destruct (Z.ltb_spec s (r_start rc)).
      - rewrite u32_small by lia. apply (IH m r); [done|done|lia|lia|lia].
      - exists m, (tail answers). split; [done|]. apply split_result_empty; [done|lia]. }
    destruct Hpart1 as (m1 & a1 & Hp1 & Hr1). pose proof Hr1 as (Hwf1 & Ha1 & _).
    destruct (added_lookup _ _ _ _ _ _ Ha1 Ec) as (rc1 & Ec1 & Hv1). injection Hv1 as Hv1a Hv1b _ _ _.
    destruct (added_lookup _ _ _ _ _ _ Ha1 E) as (r1 & E1 & Hv2). injection Hv2 as Hv2a Hv2b _ _ _.
    assert (Hpart2 : ∃ m2 a2, (if r_end rc1 <? e then reserve_split fuel m1 root (u32 (r_end rc1 + 1)) e name a1
        else Some (m1, a1)) = Some (m2, a2) ∧ split_result m1 (r_end rc + 1) e a1 m2 a2).
    { rewrite Hv1b. destruct (Z.ltb_spec (r_end rc) e).
      - rewrite u32_small by lia. apply (IH m1 r1); [done|done|lia|lia|]. rewrite (hits_added _ _ _ _ (r_end rc + 1) e Ha1) by lia. lia.
      - exists m1, a1. split; [done|]. apply split_result_empty; [done|lia]. }
    destruct Hpart2 as (m2 & a2 & Hp2 & Hr2). exists m2, a2. split.
    + destruct (Z.leb_spec (r_start rc) s), (Z.leb_spec e (r_end rc)); cbn [andb].
      * rewrite (proj2 (Z.ltb_ge s (r_start rc))) in Hp1 by lia. simplify_eq.
        rewrite (proj2 (Z.ltb_ge (r_end rc) e)) in Hp2 by lia. by simplify_eq.
      * rewrite Hp1. run. rewrite Ec1. run. done.
      * rewrite Hp1. run. rewrite Ec1. run. done.
      * rewrite Hp1. run. rewrite Ec1. run. done.
    + apply (split_result_join m s e c rc answers m1 a1); eauto; lia.
Qed.
End splitting.

(** ** release_child_resources *)

Section releasing_children.
Implicit Types (G : res_mem) (S : gset Z) (l : list Z).

(** While it works on the children of a descriptor the code has cleared its child
    pointer.  [closed S G] is the store in which the descriptors [S] of [G] are in this
    state; the invariant is about [G]. *)
Definition closed (S : gset Z) (G : res_mem) : res_mem :=
  map_imap (λ p r, Some (if decide (p ∈ S) then w_child 0 r else r)) G.

Lemma closed_lookup S G p : closed S G !! p = (λ r, if decide (p ∈ S) then w_child 0 r else r) <$> G !! p.
Proof. unfold closed. rewrite map_lookup_imap. by destruct (G !! p). Qed.

Lemma closed_out S G p : p ∉ S → closed S G !! p = G !! p.
Proof. intros Hp. rewrite closed_lookup. destruct (G !! p); simpl; [|done]. by rewrite decide_False. Qed.

Lemma closed_insert S G p r : p ∉ S → closed S (<[p := r]> G) = <[p := r]> (closed S G).
Proof.
  intros Hp. apply map_eq. intros q. rewrite closed_lookup. destruct (decide (q = p)) as [->|].
  - rewrite !lookup_insert_eq. simpl. by rewrite decide_False.
  - by rewrite !lookup_insert_ne, closed_lookup.
Qed.

(** A change of a hidden child pointer does not show. *)
Lemma closed_hidden S G p r v : p ∈ S → G !! p = Some r → closed S (<[p := w_child v r]> G) = closed S G.
Proof.
  intros Hp E. apply map_eq. intros q. rewrite !closed_lookup. destruct (decide (q = p)) as [->|].
  - rewrite lookup_insert_eq, E. simpl. by rewrite !decide_True.
  - by rewrite lookup_insert_ne.
Qed.

Lemma closed_open S G p r : p ∉ S → G !! p = Some r → closed ({[p]} ∪ S) G = <[p := w_child 0 r]> (closed S G).
Proof.
  intros Hp E. apply map_eq. intros q. rewrite closed_lookup. destruct (decide (q = p)) as [->|Hq].
  - rewrite lookup_insert_eq, E. simpl. rewrite decide_True; [done|]. set_solver.
  - rewrite lookup_insert_ne, closed_lookup by done. destruct (G !! q); simpl; [|done]. repeat case_decide; try done; set_solver.
Qed.

Lemma closed_done S G p r : G !! p = Some r → r_child r = 0 → closed ({[p]} ∪ S) G = closed S G.
Proof.
  intros E Hc. apply map_eq. intros q. rewrite !closed_lookup. destruct (decide (q = p)) as [->|Hq].
  - rewrite E. simpl. assert (w_child 0 r = r) as -> by (destruct r; simpl in *; by subst). by repeat case_decide.
  - destruct (G !! q); simpl; [|done]. repeat case_decide; try done; set_solver.
Qed.

(** The descriptors that are in a tree. *)
Definition attached (G : res_mem) : gset Z := filter (λ x, from_option r_parent 0 (G !! x) ≠ 0) (dom G).

Lemma elem_of_attached G x : x ∈ attached G ↔ ∃ r, G !! x = Some r ∧ r_parent r ≠ 0.
Proof.
  unfold attached. rewrite elem_of_filter, elem_of_dom. split.
  - intros [Hp [r E]]. rewrite E in Hp. eauto.
  - intros (r & E & Hp). rewrite E. eauto.
Qed.

(** The state in which a released descriptor is left. *)
Definition released (r : resource) : resource :=
  mk_res 0 (u32 (resource_size r - 1)) (r_name r) (r_flags r) 0 0 0.

(** [G'] is [G] with everything below [p] released. *)
Record children_released (G G' : res_mem) (p : Z) : Prop := {
  cr_wf : res_wf G';
  cr_self : ∀ r, G !! p = Some r → G' !! p = Some (w_child 0 r);
  cr_below : ∀ x r, below G p x → G !! x = Some r → G' !! x = Some (released r);
  cr_other : ∀ x, x ≠ p → ¬ below G p x → G' !! x = G !! x }.

(** A stale sibling pointer outside of the trees does not matter. *)
Lemma wf_orphan_sibling G x r v : res_wf G → G !! x = Some r → r_parent r = 0 → res_wf (<[x := w_sibling v r]> G).
Proof.
  intros H E Hp. set (G' := <[x := w_sibling v r]> G).
  assert (Hv : view G' = view G) by by apply view_insert_same with r.
  apply (wf_change G G' (λ c, c = x) (λ _, False)); [done| |by rewrite Hv; apply wf_view|].
  - split; intros c rc Hc Ec.
    + exists rc. unfold G'. by rewrite lookup_insert_ne.
    + unfold G'. destruct (decide (c = x)) as [->|]; [rewrite lookup_insert_eq; simplify_eq; eauto|].
      exists rc. by rewrite lookup_insert_ne.
  - intros q Hq. left. assert (Hq' : is_Some (G !! q)) by (apply (view_known G G'); [by rewrite Hv|done]).
    split; [done|]. split; [by intros []|]. split.
    + intros c (rc & Ec & Hc). split; [|by rewrite Hv]. intros ->. simplify_eq. rewrite Hp in Hq'. by rewrite (wf_null _ H) in Hq'; destruct Hq'.
    + intros c. by rewrite !child_of_view, Hv.
Qed.

(** Taking the first child out. *)
Lemma unlink_first G p c l rp rc :
  res_wf G → family G p (c :: l) → G !! p = Some rp → G !! c = Some rc →
  let G1 := <[c := w_sibling 0 (w_parent 0 rc)]> (<[p := w_child (r_sibling rc) rp]> G) in
  res_wf G1 ∧ family G1 p l.
Proof.
  intros H HF Ep Ec G1. pose proof (family_not_self _ _ _ H HF) as [Hpc Hpl]%not_elem_of_cons.
  pose proof (family_NoDup _ _ _ H HF) as [Hcl _]%NoDup_cons.
  destruct (unlink G p [] l c rc) as (m2 & rc2 & Hw & Ec2 & Hcc & Hwf & Hv & HF2); [done..|].
  rewrite place_nil in Hw. simpl in Hw. unfold res_upd in Hw. rewrite Ep in Hw. injection Hw as <-.
  rewrite lookup_insert_ne in Ec2 by done. assert (rc2 = rc) as -> by congruence.
  set (G0 := <[c := w_parent 0 rc]> (<[p := w_child (r_sibling rc) rp]> G)) in *.
  assert (HG1 : G1 = <[c := w_sibling 0 (w_parent 0 rc)]> G0) by (unfold G1, G0; by rewrite insert_insert_eq).
  assert (HG0c : G0 !! c = Some (w_parent 0 rc)) by apply lookup_insert_eq.
  assert (Hwf1 : res_wf G1) by (rewrite HG1; by apply wf_orphan_sibling).
  split; [done|]. simpl in HF2. rewrite HG1.
  apply (family_keep G0 _ p l (w_child (r_sibling rc) rp) (w_child (r_sibling rc) rp)); try done.
  - unfold G0. rewrite lookup_insert_ne by done. apply lookup_insert_eq.
  - rewrite lookup_insert_ne by done. unfold G0. rewrite lookup_insert_ne by done. apply lookup_insert_eq.
  - intros d rd Hd Ed. exists rd. rewrite lookup_insert_ne; [done|]. by intros ->.
  - intros d Hd. rewrite !view_lookup, lookup_insert_ne; [done|]. by intros ->.
  - intros d _. rewrite !child_of_view, view_insert_same with (r := w_parent 0 rc); done.
Qed.

(** One turn of the loop: [c], the first child of [p], is taken out (giving [G1]), its
    children are released (giving [G2]), its range is reset (giving [G3]). *)
Section release_turn.
Context (G : res_mem) (p c : Z) (rp rc : resource) (l : list Z).
Context (H : res_wf G) (HF : family G p (c :: l)) (Ep : G !! p = Some rp) (Ec : G !! c = Some rc).

Let G1 := <[c := w_sibling 0 (w_parent 0 rc)]> (<[p := w_child (r_sibling rc) rp]> G).

Lemma turn_neq : p ≠ c ∧ p ≠ 0 ∧ c ≠ 0 ∧ r_parent rc = p.
Proof using H HF Ep Ec.
  pose proof (family_not_self _ _ _ H HF) as [? _]%not_elem_of_cons. destruct (family_in _ _ _ c HF) as (? & ? & ?); [by left|].
  split_and!; eauto using wf_neq0. by simplify_eq.
Qed.

Lemma turn_wf1 : res_wf G1 ∧ family G1 p l.
Proof using H HF Ep Ec. by apply unlink_first. Qed.

Lemma turn_lookup1 x : x ≠ c → x ≠ p → G1 !! x = G !! x.
Proof using. intros ? ?. unfold G1. by rewrite !lookup_insert_ne. Qed.

Lemma turn_child1 a b : a ≠ 0 → child_of G1 a b ↔ child_of G a b ∧ b ≠ c.
Proof using H HF Ep Ec.
  intros Ha. destruct turn_neq as (Hpc & _). unfold child_of, G1. destruct (decide (b = c)) as [->|Hb].
  - rewrite lookup_insert_eq. split; [intros (? & [= <-] & ?); by simpl in *|tauto].
  - rewrite lookup_insert_ne by done. destruct (decide (b = p)) as [->|].
    + rewrite lookup_insert_eq, Ep. split; [intros (? & [= <-] & ?); split; [by exists rp|done]|].
      intros [(? & [= <-] & ?) _]. by eexists.
    + rewrite lookup_insert_ne by done. tauto.
Qed.

Lemma turn_below1 x : below G1 c x ↔ below G c x.
Proof using H HF Ep Ec.
  destruct turn_neq as (_ & _ & Hc0 & _). split.
  - intros Hb. enough (x ≠ 0 → below G c x) as Hg.
    { apply Hg. destruct (below_known G1 c x) as [_ [? E]]; [apply turn_wf1|done..|]. exact (wf_neq0 _ _ _ (proj1 turn_wf1) E). }
    revert x Hb. apply (tc_ind_r (λ x, x ≠ 0 → below G c x)).
    + intros z Hz _. apply tc_once. by apply turn_child1 in Hz as [? _].
    + intros y z Hy Hz IH _. assert (y ≠ 0).
      { destruct (below_known G1 c y) as [_ [? E]]; [apply turn_wf1|done..|]. exact (wf_neq0 _ _ _ (proj1 turn_wf1) E). }
      apply tc_r with y; [by apply IH|]. by apply turn_child1 in Hz as [? _].
  - intros Hb. revert x Hb. apply (tc_ind_r (λ x, below G1 c x)).
    + intros z Hz. apply tc_once, turn_child1; [done|]. split; [done|]. intros ->. apply (below_irrefl G c H Hc0). by apply tc_once.
    + intros y z Hy Hz IH. apply tc_r with y; [done|]. assert (y ≠ 0).
      { destruct (below_known G c y H Hc0 Hy) as [_ [? E]]. eauto using wf_neq0. }
      apply turn_child1; [done|]. split; [done|]. intros ->. apply (below_irrefl G c H Hc0). by apply tc_r with y.
Qed.

(** [c] is in no tree afterwards, and nothing new is. *)
Lemma attached_fewer G' :
  (∀ a b, a ≠ 0 → child_of G' a b → child_of G a b ∧ b ≠ c) →
  (size (attached G') < size (attached G))%nat.
Proof using H HF Ep Ec.
  intros Hch. destruct turn_neq as (Hpc & Hp0 & Hc0 & Hcp). apply subset_size. split.
  - intros x. rewrite !elem_of_attached. intros (rx & E & Hp).
    destruct (Hch (r_parent rx) x Hp) as [(r' & ? & ?) _]; [by exists rx|]. exists r'. split; [done|congruence].
  - intros Hs. specialize (Hs c). rewrite !elem_of_attached in Hs. destruct Hs as (rx & E & Hp); [exists rc; split; [done|congruence]|].
    destruct (Hch (r_parent rx) c Hp) as [_ ?]; [by exists rx|done].
Qed.

Lemma turn_attached1 : (size (attached G1) < size (attached G))%nat.
Proof using H HF Ep Ec. apply attached_fewer. intros a b Ha. by apply turn_child1. Qed.

Context (G2 : res_mem) (Hr : children_released G1 G2 c).
Let G3 := <[c := released rc]> G2.

Lemma turn_lookup3 x : x ≠ c → x ≠ p → ¬ below G c x → G3 !! x = G !! x.
Proof using H HF Ep Ec Hr.
  intros Hx Hxp Hb. unfold G3. rewrite lookup_insert_ne, (cr_other _ _ _ Hr); [by apply turn_lookup1|done| |done].
  by rewrite turn_below1.
Qed.

Lemma turn_self3 : G3 !! p = Some (w_child (r_sibling rc) rp).
Proof using H HF Ep Ec Hr.
  destruct turn_neq as (Hpc & Hp0 & Hc0 & Hcp). unfold G3. rewrite lookup_insert_ne, (cr_other _ _ _ Hr); [|done| |done].
  - unfold G1. rewrite lookup_insert_ne by done. apply lookup_insert_eq.
  - rewrite turn_below1. intros Hb. apply (below_irrefl G p H Hp0). apply tc_l with c; [by exists rc|done].
Qed.

Lemma turn_below3 x r : below G c x → G !! x = Some r → G3 !! x = Some (released r).
Proof using H HF Ep Ec Hr.
  intros Hb E. destruct turn_neq as (Hpc & Hp0 & Hc0 & Hcp).
  assert (x ≠ c) by (intros ->; by apply (below_irrefl G c H Hc0)).
  assert (x ≠ p) by (intros ->; apply (below_irrefl G p H Hp0); apply tc_l with c; [by exists rc|done]).
  unfold G3. rewrite lookup_insert_ne by done. apply (cr_below _ _ _ Hr); [by apply turn_below1|]. by rewrite turn_lookup1.
Qed.

Lemma turn_child3 a b : a ≠ 0 → child_of G3 a b → child_of G a b ∧ b ≠ c.
Proof using H HF Ep Ec Hr.
  intros Ha (r & E & Hp). destruct turn_neq as (Hpc & Hp0 & Hc0 & Hcp). destruct (decide (b = c)) as [->|Hb].
  - unfold G3 in E. rewrite lookup_insert_eq in E. injection E as <-. by simpl in Hp.
  - split; [|done]. destruct (decide (b = p)) as [->|Hbp].
    { rewrite turn_self3 in E. injection E as <-. by exists rp. }
    destruct (below_dec G c b H Hc0) as [Hbe|Hbe].
    + destruct (below_known G c b H Hc0 Hbe) as [_ [r0 E0]]. rewrite (turn_below3 b r0) in E by done. injection E as <-. by simpl in Hp.
    + rewrite turn_lookup3 in E by done. by exists r.
Qed.

Lemma turn_wf3 : res_wf G3.
Proof using H HF Ep Ec Hr.
  apply wf_put; [apply Hr| |done|done|simpl; lia|simpl; apply u32_range].
  apply detached_loose; [apply Hr|]. eexists. split; [apply (cr_self _ _ _ Hr); apply lookup_insert_eq|done].
Qed.

Lemma turn_family3 : family G3 p l.
Proof using H HF Ep Ec Hr.
  destruct turn_neq as (Hpc & Hp0 & Hc0 & Hcp). pose proof (family_NoDup _ _ _ H HF) as [Hcl _]%NoDup_cons.
  destruct turn_wf1 as [Hwf1 HF1].
  assert (Hl : ∀ d, d ∈ l → G3 !! d = G1 !! d).
  { intros d Hd. destruct (family_in _ _ _ d HF) as (rd & Ed & Hdp); [by right|].
    assert (d ≠ c) by (intros ->; done).
    assert (d ≠ p) by (intros ->; by apply (family_not_self _ _ _ H HF); right).
    rewrite turn_lookup1 by done. apply turn_lookup3; try done.
    intros Hb. by apply (below_siblings G p c d rc rd d H Ec Ed Hcp Hdp); auto. }
  assert (E1 : G1 !! p = Some (w_child (r_sibling rc) rp)) by (unfold G1; rewrite lookup_insert_ne by done; apply lookup_insert_eq).
  apply (family_keep G1 G3 p l _ _ HF1 E1 turn_self3); try done.
  - intros d rd Hd Ed. exists rd. by rewrite Hl.
  - intros d Hd. by rewrite !view_lookup, Hl.
  - intros d _ Hd. apply turn_child1; [done|]. by apply turn_child3.
Qed.

Lemma turn_up3 a x : a ≠ 0 → below G3 a x → below G a x.
Proof using H HF Ep Ec Hr.
  intros Ha. revert x. apply (tc_ind_r (λ x, below G a x)).
  - intros z Hz. apply tc_once. by apply turn_child3 in Hz as [? _].
  - intros y z Hy (rz & Ez & Hz) IH. apply tc_r with y; [done|]. apply (turn_child3 y z); [|by exists rz].
    destruct (below_known G3 a y turn_wf3 Ha Hy) as [_ [? E]]. exact (wf_neq0 _ _ _ turn_wf3 E).
Qed.

(** Below the other children nothing has changed. *)
Lemma turn_down3 d rd x :
  G !! d = Some rd → r_parent rd = p → d ≠ c → below G d x → below G3 d x ∧ x ≠ c ∧ x ≠ p ∧ ¬ below G c x.
Proof using H HF Ep Ec Hr.
  intros Ed Hdp Hdc. destruct turn_neq as (Hpc & Hp0 & Hc0 & Hcp). assert (Hd0 : d ≠ 0) by eauto using wf_neq0.
  assert (Hout : ∀ z, below G d z → z ≠ c ∧ z ≠ p ∧ ¬ below G c z).
  { intros z Hz. split_and!.
    - intros ->. apply (below_siblings G p c d rc rd c H Ec Ed Hcp Hdp); auto.
    - intros ->. apply (below_irrefl G p H Hp0). apply tc_l with d; [by exists rd|done].
    - intros Hb. apply (below_siblings G p c d rc rd z H Ec Ed Hcp Hdp); auto. }
  intros Hx. split; [|by apply Hout]. revert x Hx. apply (tc_ind_r (λ x, below G3 d x)).
  - intros z (rz & Ez & Hz). destruct (Hout z) as (? & ? & ?); [apply tc_once; by exists rz|].
    apply tc_once. exists rz. by rewrite turn_lookup3.
  - intros y z Hy (rz & Ez & Hz) IH. destruct (Hout z) as (? & ? & ?); [apply tc_r with y; [done|by exists rz]|].
    apply tc_r with y; [done|]. exists rz. by rewrite turn_lookup3.
Qed.

Lemma turn_attached3 : (size (attached G3) < size (attached G))%nat.
Proof using H HF Ep Ec Hr. apply attached_fewer. apply turn_child3. Qed.

(** The rest of the loop completes the work. *)
Lemma turn_complete G4 : children_released G3 G4 p → children_released G G4 p.
Proof using H HF Ep Ec Hr.
  intros [Hwf Hself Hbelow Hother]. destruct turn_neq as (Hpc & Hp0 & Hc0 & Hcp).
  assert (Hdet : ∀ x r, G3 !! x = Some r → r_parent r = 0 → x ≠ p → G4 !! x = Some r).
  { intros x r E Hp Hxp. rewrite Hother; [done..|]. intros Hb.
    destruct (below_attached G3 p x turn_wf3 Hp0 Hb) as (? & ? & ?). by simplify_eq. }
  split; [done| | |].
  - intros r E. assert (r = rp) as -> by congruence. by rewrite (Hself _ turn_self3).
  - intros x r Hb E. destruct (below_child G p x H Hp0 Hb) as (d & rp' & rd & rx & Ep' & Ed & Ex & Hdp & _ & _ & Hor).
    assert (rx = r) as -> by congruence. destruct (decide (d = c)) as [->|Hdc].
    + destruct Hor as [<-|Hor].
      * assert (r = rc) as -> by congruence. apply Hdet; [apply lookup_insert_eq|done..].
      * apply Hdet; [by apply turn_below3|done|]. intros ->. by apply (below_irrefl G p H Hp0).
    + assert (Hd3 : G3 !! d = Some rd).
      { rewrite turn_lookup3; [done|done| |].
        - intros ->. apply (below_irrefl G p H Hp0). apply tc_once. by exists rd.
        - intros Hbc. by apply (below_siblings G p c d rc rd d H Ec Ed Hcp Hdp); auto. }
      destruct Hor as [<-|Hor].
      * apply Hbelow; [apply tc_once; by exists rd|congruence].
      * destruct (turn_down3 d rd x Ed Hdp Hdc Hor) as (Hb3 & ? & ? & ?).
        apply Hbelow; [apply tc_l with d; [by exists rd|done]|by rewrite turn_lookup3].
  - intros x Hxp Hb. rewrite Hother; [|done|intros Hb3; apply Hb; by apply turn_up3].
    apply turn_lookup3; [|done|].
    + intros ->. apply Hb. apply tc_once. by exists rc.
    + intros Hbc. apply Hb. apply tc_l with c; [by exists rc|done].
Qed.
End release_turn.

Lemma release_child_loop_spec fuel G S p rp l :
  res_wf G → G !! p = Some rp → family G p l → p ∈ S → (∀ x, below G p x → x ∉ S) → (size (attached G) < fuel)%nat →
  ∃ G', release_child_loop fuel (closed S G) (hd 0 l) = Some (closed S G') ∧ children_released G G' p.
Proof.
  revert G S p rp l. induction fuel as [|fuel IH]; intros G S p rp l H Ep HF HpS HS Hf; [lia|]. cbn [release_child_loop].
  destruct l as [|c l]; simpl hd.
  { exists G. split; [done|]. pose proof HF as (r & E & Hs & Hl & _). assert (r = rp) as -> by congruence. simpl in Hs.
    assert (Hnb : ∀ x, ¬ below G p x).
    { intros x Hb. destruct (below_child G p x H (wf_neq0 _ _ _ H Ep) Hb) as (d & ? & rd & ? & ? & Ed & ? & Hd & _).
      assert (d ∈ []) as []%elem_of_nil. apply Hl. by exists rd. }
    split; [done| |intros x ? Hb; by apply Hnb in Hb|done]. intros r E'. assert (r = rp) as -> by congruence. rewrite E. f_equal. destruct rp; simpl in *. by subst. }
  destruct (family_in _ _ _ c HF) as (rc & Ec & Hcp); [by left|].
  destruct (turn_neq G p c rp rc l H HF Ep Ec) as (Hpc & Hp0 & Hc0 & _).
  assert (Hbc : below G p c) by (apply tc_once; by exists rc). assert (HcS : c ∉ S) by by apply HS.
  rewrite (proj2 (Z.eqb_neq c 0)) by done. rewrite (closed_out S G c HcS), Ec. run.
  unfold res_upd. rewrite (closed_out S G c HcS), Ec. run. rewrite lookup_insert_eq. run. rewrite insert_insert_eq.
  set (rc1 := w_sibling 0 (w_parent 0 rc)). set (G1 := <[c := rc1]> (<[p := w_child (r_sibling rc) rp]> G)).
  assert (HG1 : <[c := rc1]> (closed S G) = closed S G1) by (unfold G1; by rewrite closed_insert, closed_hidden).
  rewrite HG1. assert (Ec1 : G1 !! c = Some rc1) by apply lookup_insert_eq.
  cbn [link_read]. rewrite (closed_out S G1 c HcS), Ec1. run.
  rewrite <- (closed_open S G1 c rc1 HcS Ec1).
  destruct (turn_wf1 G p c rp rc l H HF Ep Ec) as [Hwf1 HF1]. change (res_wf G1) in Hwf1. destruct (wf_links _ Hwf1 c) as [lc HFc]; [eauto|].
  assert (Hlc : r_child rc1 = hd 0 lc) by (destruct HFc as (r & E & Hs & _); rewrite <- (seg_head _ _ _ Hs); congruence).
  rewrite Hlc.
  pose proof (turn_attached1 G p c rp rc l H HF Ep Ec) as Hatt1. change (size (attached G1) < size (attached G))%nat in Hatt1.
  destruct (IH G1 ({[c]} ∪ S) c rc1 lc) as (G2 & -> & Hr2); [done|done|done|set_solver| |lia|].
  { intros x Hb. apply (turn_below1 G p c rp rc l H HF Ep Ec) in Hb. intros [->%elem_of_singleton|Hx]%elem_of_union.
    - by apply (below_irrefl G c H Hc0).
    - apply (HS x); [|done]. apply tc_l with c; [by exists rc|done]. }
  pose proof (cr_self _ _ _ Hr2 rc1 Ec1) as Ec2. run. rewrite (closed_done S G2 c _ Ec2) by done.
  rewrite (closed_out S G2 c HcS), Ec2. run.
  change (w_range 0 _ (w_child 0 rc1)) with (released rc). rewrite <- (closed_insert S G2 c) by done. set (G3 := <[c := released rc]> G2).
  assert (Hsib : r_sibling rc = hd 0 l).
  { destruct (family_split G p [c] l rp HF Ep) as [(_ & rc' & Ec' & Hs) _]. simpl in Hs. congruence. }
  rewrite Hsib.
  pose proof (turn_attached3 G p c rp rc l H HF Ep Ec G2 Hr2) as Hatt3. change (size (attached G3) < size (attached G))%nat in Hatt3.
  destruct (IH G3 S p (w_child (r_sibling rc) rp) l) as (G4 & -> & Hr4).
  - exact (turn_wf3 G p c rp rc l H HF Ep Ec G2 Hr2).
  - exact (turn_self3 G p c rp rc l H HF Ep Ec G2 Hr2).
  - exact (turn_family3 G p c rp rc l H HF Ep Ec G2 Hr2).
  - done.
  - intros x Hb. apply HS. exact (turn_up3 G p c rp rc l H HF Ep Ec G2 Hr2 p x Hp0 Hb).
  - lia.
  - exists G4. split; [done|]. exact (turn_complete G p c rp rc l H HF Ep Ec G2 Hr2 G4 Hr4).
Qed.

Lemma release_child_resources_spec G p rp :
  res_wf G → G !! p = Some rp → ∃ G', release_child_resources G p = Some G' ∧ children_released G G' p.
Proof.
  intros H Ep. unfold release_child_resources, __release_child_resources. cbn [link_read]. rewrite Ep. run.
  unfold res_upd. rewrite Ep. run. destruct (wf_links _ H p) as [l HF]; [eauto|].
  assert (Hl : r_child rp = hd 0 l) by (destruct HF as (r & E & Hs & _); rewrite <- (seg_head _ _ _ Hs); congruence). rewrite Hl.
  assert (Hcl : <[p := w_child 0 rp]> G = closed {[p]} G).
  { apply map_eq. intros q. rewrite closed_lookup. destruct (decide (q = p)) as [->|].
    - rewrite lookup_insert_eq, Ep. simpl. by rewrite decide_True by set_solver.
    - rewrite lookup_insert_ne by done. destruct (G !! q); simpl; [|done]. by rewrite decide_False by set_solver. }
  destruct (release_child_loop_spec (res_fuel (<[p := w_child 0 rp]> G)) G {[p]} p rp l) as (G' & Hrun & Hr); try done.
  - set_solver.
  - intros x Hb ->%elem_of_singleton. by apply (below_irrefl G p H (wf_neq0 _ _ _ H Ep)).
  - unfold res_fuel. rewrite map_size_insert_Some by eauto. apply Nat.lt_succ_r.
    rewrite <- (size_dom (D := gset Z) G). apply subseteq_size. intros x. unfold attached. rewrite elem_of_filter. by intros [_ ?].
  - exists G'. split; [|done]. rewrite Hcl in *. rewrite Hrun. f_equal.
    pose proof (cr_self _ _ _ Hr rp Ep) as E'. pose proof (closed_done ∅ G' p _ E' eq_refl) as Hd. rewrite union_empty_r_L in Hd. rewrite Hd.
    apply map_eq. intros q. apply closed_out. set_solver.
Qed.
End releasing_children.
