(* ===== verification/ResourceWalk.v ===== *)
(** Walks over the resource tree: r_next visits every descriptor below the root once,
    parents before children and in the order of start addresses.  On top of it the
    checks of mappings of physical memory, and the search for system memory. *)

From stdpp Require Import strings.
From S2P Require Import Prelude Resource ResourceInv ResourceOps.

(** ** The order of the walk *)

(** The descriptors of the trees under the siblings [l], each before what is below it. *)
Inductive preorder (m : res_mem) : list Z → list Z → Prop :=
| pre_nil : preorder m [] []
| pre_cons c k l K L :
    family m c k → preorder m k K → preorder m l L → preorder m (c :: l) (c :: K ++ L).

(** Where the walk goes on when it is done with what is below [x]. *)
Inductive leaves_to (m : res_mem) : Z → Z → Prop :=
| leave_sibling x r : m !! x = Some r → r_sibling r ≠ 0 → leaves_to m x (r_sibling r)
| leave_top x r : m !! x = Some r → r_sibling r = 0 → r_parent r = 0 → leaves_to m x 0
| leave_parent x r e :
    m !! x = Some r → r_sibling r = 0 → r_parent r ≠ 0 → leaves_to m (r_parent r) e → leaves_to m x e.

Section walk.
Context (m : res_mem) (H : res_wf m).
Implicit Types (l K L : list Z).

Lemma preorder_exists_level level n l :
  (∀ p c, p ≠ 0 → child_of m p c → (level c < level p)%nat) →
  (∀ c, c ∈ l → is_Some (m !! c) ∧ (level c < n)%nat) → ∃ L, preorder m l L.
Proof using H.
  intros Hdown. revert l. induction n as [|n IHn]; intros l Hl.
  { destruct l as [|c l]; [exists []; constructor|]. destruct (Hl c) as [_ ?]; [by left|lia]. }
  induction l as [|c l IHl]; [exists []; constructor|].
  destruct (Hl c) as [Hc Hlc]; [by left|]. destruct (wf_links _ H c Hc) as [k Hk].
  destruct (IHn k) as [K HK].
  { intros d Hd. destruct (family_in _ _ _ d Hk Hd) as (rd & Ed & Hdp). split; [eauto|].
    destruct Hc as [rc Ec]. assert (level d < level c)%nat; [|lia]. apply Hdown; [eauto using wf_neq0|by exists rd]. }
  destruct IHl as [L HL]; [intros d Hd; apply Hl; by right|]. exists (c :: K ++ L). by apply pre_cons with k.
Qed.

Lemma preorder_exists l : (∀ c, c ∈ l → is_Some (m !! c)) → ∃ L, preorder m l L.
Proof using H.
  intros Hl. destruct (wf_levels m H) as (level & Hlev & Hdown).
  apply (preorder_exists_level level (res_fuel m)); [done|]. intros c Hc. split; [by apply Hl|apply Hlev].
Qed.

(** The walk meets everything, and nothing else. *)
Lemma elem_of_preorder l L x : preorder m l L → 0 ∉ l → x ∈ L ↔ ∃ c, c ∈ l ∧ (x = c ∨ below m c x).
Proof using H.
  intros HL. revert x. induction HL as [|c k l K L Hk HK IHK HL IHL]; intros x H0.
  - split; [by intros ?%elem_of_nil|by intros (? & ?%elem_of_nil & _)].
  - apply not_elem_of_cons in H0 as [Hc0 H0].
    assert (Hk0 : 0 ∉ k).
    { intros Hin. destruct (family_in _ _ _ 0 Hk Hin) as (? & ? & _). by rewrite (wf_null _ H) in *. }
    rewrite elem_of_cons, elem_of_app, (IHK x Hk0), (IHL x H0). split.
    + intros [->|[(d & Hd & Hx)|(d & Hd & Hx)]].
      * exists c. split; [by left|by left].
      * exists c. split; [by left|]. right. destruct (family_in _ _ _ d Hk Hd) as (rd & Ed & Hdp).
        destruct Hx as [->|Hx]; [by apply tc_once; exists rd|]. apply tc_l with d; [by exists rd|done].
      * exists d. split; [by right|done].
    + intros (d & [->|Hd]%elem_of_cons & Hx); [|right; right; eauto]. destruct Hx as [->|Hx]; [by left|]. right. left.
      destruct (below_child m c x H) as (d & ? & rd & ? & _ & Ed & _ & Hdc & _ & _ & Hor); [done|done|].
      exists d. split; [by apply (family_child m c k d rd)|]. destruct Hor; auto.
Qed.

(** Siblings: children of the same descriptor, in the order of their ranges. *)
Definition siblings (q : Z) (l : list Z) : Prop := ∃ l1, family m q (l1 ++ l).

Lemma siblings_tail q c l : siblings q (c :: l) → siblings q l.
Proof using. intros [l1 HF]. exists (l1 ++ [c]). by rewrite <- app_assoc. Qed.

Lemma siblings_null q l : siblings q l → 0 ∉ l.
Proof using H.
  intros [l1 HF] H0. destruct (family_in _ _ _ 0 HF) as (? & ? & _); [apply elem_of_app; by right|]. by rewrite (wf_null _ H) in *.
Qed.

Lemma siblings_known q l c : siblings q l → c ∈ l → ∃ rc, m !! c = Some rc ∧ r_parent rc = q.
Proof using. intros [l1 HF] Hc. apply (family_in _ _ _ c HF). apply elem_of_app. by right. Qed.

(** Addresses only grow along the walk. *)
Definition starts_before (a b : Z) : Prop := ∃ ra rb, m !! a = Some ra ∧ m !! b = Some rb ∧ r_start ra ≤ r_start rb.

(** What is under one sibling lies before what is under a later one. *)
Lemma siblings_before q c l x y :
  q ≠ 0 → siblings q (c :: l) → (x = c ∨ below m c x) → (∃ d, d ∈ l ∧ (y = d ∨ below m d y)) →
  ∃ rx ry, m !! x = Some rx ∧ m !! y = Some ry ∧ r_start rx ≤ r_start ry ∧ x ≠ y.
Proof using H.
  intros Hq [l1 HF] Hx (d & Hd & Hy).
  destruct (family_in _ _ _ c HF) as (rc & Ec & Hcq); [apply elem_of_app; right; by left|].
  destruct (family_in _ _ _ d HF) as (rd & Ed & Hdq); [apply elem_of_app; right; by right|].
  assert (Hlt : r_end rc < r_start rd).
  { rewrite (cons_middle c l1), app_assoc in HF. eapply (family_order m q (l1 ++ [c]) l c d); try done. apply elem_of_app. right. by left. }
  assert (Hin : ∀ a ra z, m !! a = Some ra → r_parent ra = q → (z = a ∨ below m a z) → ∃ rz, m !! z = Some rz ∧ fits ra rz).
  { intros a ra z Ea Ha Hz. destruct (wf_inside m a ra H Ea) as (? & _ & ? & _); [congruence|].
    destruct Hz as [->|Hz]; [exists ra; split; [done|unfold fits, inside; lia]|by apply (below_inside m a z)]. }
  destruct (Hin c rc x Ec Hcq Hx) as (rx & Ex & Hfx), (Hin d rd y Ed Hdq Hy) as (ry & Ey & Hfy).
  exists rx, ry. unfold fits, inside in *. split_and!; try done; [lia|]. intros ->. simplify_eq. lia.
Qed.

Lemma preorder_sorted q l L : q ≠ 0 → siblings q l → preorder m l L → StronglySorted starts_before L ∧ NoDup L.
Proof using H.
  intros Hq Hsib HL. revert q Hq Hsib. induction HL as [|c k l K L Hk HK IHK HL IHL]; intros q Hq Hsib.
  { split; constructor. }
  destruct (siblings_known q (c :: l) c Hsib ltac:(by left)) as (rc & Ec & Hcq).
  assert (Hc0 : c ≠ 0) by eauto using wf_neq0.
  pose proof (siblings_tail _ _ _ Hsib) as Hsib'.
  destruct (IHK c Hc0) as [HsK HnK]; [by exists []|]. destruct (IHL q Hq Hsib') as [HsL HnL].
  assert (HK' : ∀ x, x ∈ K → below m c x).
  { intros x Hx. apply (elem_of_preorder k K x HK) in Hx as (d & Hd & Hx).
    - destruct (family_in _ _ _ d Hk Hd) as (rd & Ed & Hdp). destruct Hx as [->|Hx]; [by apply tc_once; exists rd|]. apply tc_l with d; [by exists rd|done].
    - apply (siblings_null c). by exists []. }
  assert (HL' : ∀ y, y ∈ L → ∃ d, d ∈ l ∧ (y = d ∨ below m d y)).
  { intros y Hy. by apply (elem_of_preorder l L y HL), Hy; apply (siblings_null q). }
  assert (HcK : ∀ x, x ∈ K → starts_before c x).
  { intros x Hx. destruct (below_inside m c x rc H (HK' x Hx) Ec) as (rx & Ex & Hf). exists rc, rx. unfold fits, inside in Hf. split_and!; try done; lia. }
  split.
  - constructor.
    + apply StronglySorted_app. split_and!; [|done|done]. intros x y Hx Hy.
      destruct (siblings_before q c l x y Hq Hsib (or_intror (HK' x Hx)) (HL' y Hy)) as (rx & ry & ? & ? & ? & _). by exists rx, ry.
    + apply Forall_app. split; apply Forall_forall; [done|]. intros y Hy.
      destruct (siblings_before q c l c y Hq Hsib (or_introl eq_refl) (HL' y Hy)) as (rx & ry & ? & ? & ? & _). by exists rx, ry.
  - apply NoDup_cons. split.
    + intros [Hx|Hy]%elem_of_app; [by apply (below_irrefl m c H Hc0), HK'|].
      destruct (siblings_before q c l c c Hq Hsib (or_introl eq_refl) (HL' c Hy)) as (_ & _ & _ & _ & _ & ?). done.
    + apply NoDup_app. split_and!; [done| |done]. intros x Hx Hy.
      destruct (siblings_before q c l x x Hq Hsib (or_intror (HK' x Hx)) (HL' x Hy)) as (_ & _ & _ & _ & _ & ?). done.
Qed.
End walk.

(** ** r_next and the loops on it *)

Section loops.
Context (m : res_mem) (H : res_wf m).
Implicit Types (l K L : list Z).

Lemma r_up_leaves level fuel x e :
  (∀ p, level p < res_fuel m)%nat → (∀ p c, p ≠ 0 → child_of m p c → (level c < level p)%nat) →
  leaves_to m x e → (res_fuel m - level x ≤ fuel)%nat → r_up fuel m x = Some e.
Proof using H.
  intros Hlev Hdown Hx. revert fuel. induction Hx as [x r E Hs|x r E Hs Hp|x r e E Hs Hp Hx IH]; intros fuel Hf;
    (destruct fuel as [|fuel]; [specialize (Hlev x); lia|]); cbn [r_up]; rewrite E; run.
  - by rewrite (proj2 (Z.eqb_neq _ _) Hs).
  - by rewrite Hs, Hp.
  - rewrite Hs. unfold ctrue. rewrite (proj2 (Z.eqb_neq _ _) Hp). cbn [negb andb Z.eqb]. apply IH.
    specialize (Hdown (r_parent r) x Hp (ex_intro _ r (conj E eq_refl))). lia.
Qed.

Lemma r_next_child c k : family m c k → k ≠ [] → r_next m c = Some (hd 0 k).
Proof using H.
  intros HF Hk. pose proof HF as (r & E & Hs & _). destruct k as [|d k]; [done|].
  destruct (family_in _ _ _ d HF) as (rd & Ed & _); [by left|]. destruct Hs as [Hd _].
  unfold r_next. rewrite E. run. unfold ctrue. rewrite Hd, (proj2 (Z.eqb_neq d 0)) by eauto using wf_neq0. done.
Qed.

Lemma r_next_leaf c e : family m c [] → leaves_to m c e → r_next m c = Some e.
Proof using H.
  intros (r & E & Hs & _) Hl. destruct (wf_levels m H) as (level & Hlev & Hdown).
  unfold r_next. rewrite E. run. simpl in Hs. rewrite Hs. change (ctrue 0) with false. cbn iota.
  apply (r_up_leaves level (res_fuel m) c e Hlev Hdown Hl). lia.
Qed.

(** The first answer of [visit] along the list. *)
Fixpoint first_visit (visit : resource → option Z) (L : list Z) : option Z :=
  match L with
  | [] => None
  | x :: L => match m !! x ≫= visit with Some v => Some v | None => first_visit visit L end
  end.

Lemma first_visit_app visit K L :
  first_visit visit (K ++ L) = match first_visit visit K with Some v => Some v | None => first_visit visit L end.
Proof using. induction K as [|x K IH]; [done|]. simpl. destruct (m !! x ≫= visit); [done|apply IH]. Qed.

(** Leaving a sibling: to the next one, or to where their parent leaves to. *)
Lemma leaves_sibling q c l e : q ≠ 0 → siblings m q (c :: l) → leaves_to m q e → leaves_to m c (hd e l).
Proof using H.
  intros Hq [l1 HF] Hl. destruct (family_in _ _ _ c HF) as (rc & Ec & Hcq); [apply elem_of_app; right; by left|].
  destruct (family_known _ _ _ HF) as [r E]. destruct (family_split _ _ _ _ _ HF E) as [_ (_ & rc' & Ec' & Hs)].
  assert (rc' = rc) as -> by congruence. destruct l as [|d l]; simpl in *.
  - apply leave_parent with rc; try done; congruence.
  - destruct Hs as (Hd & rd & Ed & _). rewrite <- Hd. apply leave_sibling; [done|]. rewrite Hd. eauto using wf_neq0.
Qed.

(** The loop visits the forest under [l] and goes on where its parent leaves to. *)
Lemma iomem_loop_walk visit q l L e fuel :
  q ≠ 0 → siblings m q l → preorder m l L → leaves_to m q e →
  iomem_loop (length L + fuel) m visit (hd e l) =
    match first_visit visit L with Some v => Some v | None => iomem_loop fuel m visit e end.
Proof using H.
  intros Hq Hsib HL. revert q e fuel Hq Hsib. induction HL as [|c k l K L Hk HK IHK HL IHL]; intros q e fuel Hq Hsib Hl; [done|].
  destruct (siblings_known m q (c :: l) c Hsib ltac:(by left)) as (rc & Ec & Hcq).
  assert (Hc0 : c ≠ 0) by eauto using wf_neq0. pose proof (leaves_sibling q c l e Hq Hsib Hl) as Hlc.
  cbn [length Nat.add iomem_loop hd]. rewrite (proj2 (Z.eqb_neq c 0)), Ec by done. run. cbn [first_visit]. rewrite Ec. run.
  destruct (visit rc) as [v|]; [done|]. rewrite first_visit_app, length_app.
  assert (Hnext : r_next m c = Some (hd (hd e l) k)).
  { destruct k as [|d k]; [by apply r_next_leaf|by apply (r_next_child c (d :: k))]. }
  rewrite Hnext. run. rewrite <- Nat.add_assoc, (IHK c (hd e l)); [|done|by exists []|done].
  destruct (first_visit visit K) as [v|]; [done|]. apply (IHL q); [done| |done]. by apply (siblings_tail m q c).
Qed.

(** The whole walk below a root. *)
Lemma iomem_walk visit root r :
  m !! root = Some r → r_parent r = 0 → r_sibling r = 0 →
  ∃ L, (∀ x, x ∈ L ↔ below m root x) ∧ StronglySorted (starts_before m) L ∧
    ∀ child, link_read m (ChildOf root) = Some child →
      iomem_loop (res_fuel m) m visit child = Some (default 0 (first_visit visit L)).
Proof using H.
  intros E Hp Hs. assert (Hr0 : root ≠ 0) by eauto using wf_neq0. destruct (wf_links _ H root) as [l HF]; [eauto|].
  assert (Hsib : siblings m root l) by by exists [].
  destruct (preorder_exists m H l) as [L HL]; [intros c Hc; destruct (family_in _ _ _ c HF Hc) as (? & ? & _); eauto|].
  destruct (preorder_sorted m H root l L Hr0 Hsib HL) as [Hsorted Hnd]. pose proof (siblings_null m H root l Hsib) as H0.
  exists L. assert (Hin : ∀ x, x ∈ L ↔ below m root x).
  { intros x. rewrite (elem_of_preorder m H l L x HL H0). split.
    - intros (c & Hc & Hx). destruct (family_in _ _ _ c HF Hc) as (rc & Ec & Hcr).
      destruct Hx as [->|Hx]; [by apply tc_once; exists rc|]. apply tc_l with c; [by exists rc|done].
    - intros Hb. destruct (below_child m root x H Hr0 Hb) as (c & ? & rc & ? & _ & Ec & _ & Hcr & _ & _ & Hor).
      exists c. split; [by apply (family_child m root l c rc)|]. destruct Hor; auto. }
  split; [done|]. split; [done|]. intros child. cbn [link_read]. rewrite E. run. intros [= <-].
  destruct HF as (r' & E' & Hseg & _). assert (r' = r) as -> by congruence. rewrite (seg_head _ _ _ Hseg).
  assert (Hlen : (length L ≤ size m)%nat).
  { apply NoDup_known_length; [done|]. intros x Hx%Hin. by destruct (below_known m root x H Hr0 Hx). }
  unfold res_fuel. replace (S (size m)) with (length L + S (size m - length L))%nat by lia.
  rewrite (iomem_loop_walk visit root l L 0); [|done|done|done|by apply leave_top with r].
  by destruct (first_visit visit L).
Qed.

(** ** iomem_is_exclusive and iomem_map_sanity_check *)

(** A reserved page: part of it belongs to a busy and exclusive resource. *)
Definition exclusive_page (addr : Z) : Prop :=
  ∃ x r, below m iomem_resource x ∧ m !! x = Some r ∧ r_start r < addr + PAGE_SIZE ∧ addr ≤ r_end r ∧
    is_busy r = true ∧ ctrue (Z.land (r_flags r) IORESOURCE_EXCLUSIVE) = true.

Lemma first_visit_exclusive addr L :
  StronglySorted (starts_before m) L → (∀ x, x ∈ L → is_Some (m !! x)) →
  default 0 (first_visit (exclusive_visit addr) L) = 1 ∧
    (∃ x r, x ∈ L ∧ m !! x = Some r ∧ r_start r < addr + PAGE_SIZE ∧ addr ≤ r_end r ∧
       is_busy r = true ∧ ctrue (Z.land (r_flags r) IORESOURCE_EXCLUSIVE) = true) ∨
  default 0 (first_visit (exclusive_visit addr) L) = 0 ∧
    ¬ (∃ x r, x ∈ L ∧ m !! x = Some r ∧ r_start r < addr + PAGE_SIZE ∧ addr ≤ r_end r ∧
       is_busy r = true ∧ ctrue (Z.land (r_flags r) IORESOURCE_EXCLUSIVE) = true).
Proof using.
  intros Hs Hk. induction L as [|x L IH]; [right; split; [done|by intros (? & ? & ?%elem_of_nil & _)]|].
  apply StronglySorted_inv in Hs as [Hs Hx]. destruct (Hk x) as [r E]; [by left|]. cbn [first_visit]. rewrite E. run.
  unfold exclusive_visit at 1 3. rewrite Z.geb_leb. destruct (Z.leb_spec (addr + PAGE_SIZE) (r_start r)).
  - right. split; [done|]. intros (y & ry & [->|Hy]%elem_of_cons & Ey & ? & _); [simplify_eq; lia|].
    rewrite Forall_forall in Hx. destruct (Hx y Hy) as (? & ? & ? & ? & ?). simplify_eq. lia.
  - assert (Hskip : ¬ (addr ≤ r_end r ∧ is_busy r = true ∧ ctrue (Z.land (r_flags r) IORESOURCE_EXCLUSIVE) = true) →
      (if r_end r <? addr then None else if is_busy r && ctrue (Z.land (r_flags r) IORESOURCE_EXCLUSIVE) then Some 1 else None) = None).
    { intros Hn. destruct (Z.ltb_spec (r_end r) addr); [done|]. destruct (is_busy r && _) eqn:Hb; [|done].
      apply andb_true_iff in Hb. exfalso. apply Hn. tauto. }
    destruct (decide (addr ≤ r_end r ∧ is_busy r = true ∧ ctrue (Z.land (r_flags r) IORESOURCE_EXCLUSIVE) = true)) as [(Ha & Hb & He)|Hn].
    + left. rewrite Hb, He, (proj2 (Z.ltb_ge (r_end r) addr)) by done. split; [done|]. exists x, r. split_and!; try done. by left.
    + rewrite Hskip by done. destruct (IH Hs) as [[-> (y & ry & Hy & Hrest)]|[-> Hno]]; [intros y Hy; apply Hk; by right|..].
      * left. split; [done|]. exists y, ry. split; [by right|done].
      * right. split; [done|]. intros (y & ry & [->|Hy]%elem_of_cons & Ey & ? & ? & ? & ?); [simplify_eq; tauto|].
        apply Hno. by exists y, ry.
Qed.
End loops.

Section checks.
Context (m : res_mem) (H : res_wf m).
Context (root : resource) (E : m !! iomem_resource = Some root) (Hp : r_parent root = 0) (Hs : r_sibling root = 0).

Lemma iomem_is_exclusive_spec addr :
  0 ≤ addr < 2 ^ 32 →
  ∃ v, iomem_is_exclusive true m addr = Some v ∧
    (v = 1 ∧ exclusive_page m (addr / 4096 * 4096) ∨ v = 0 ∧ ¬ exclusive_page m (addr / 4096 * 4096)).
Proof using H E Hp Hs.
  intros Ha. unfold iomem_is_exclusive. cbn [negb]. rewrite land_page_mask by done. set (a := addr / 4096 * 4096).
  destruct (iomem_walk m H (exclusive_visit a) iomem_resource root E Hp Hs) as (L & Hin & Hsorted & Hrun).
  destruct (link_read m (ChildOf iomem_resource)) as [child|] eqn:Hc; [|cbn [link_read] in Hc; by rewrite E in Hc].
  run. rewrite (Hrun child eq_refl). eexists. split; [done|].
  assert (Hio : iomem_resource ≠ 0) by done.
  destruct (first_visit_exclusive m a L Hsorted) as [[-> (x & r & Hx & Hrest)]|[-> Hno]].
  - intros x Hx%Hin. by destruct (below_known m iomem_resource x H Hio Hx).
  - left. split; [done|]. exists x, r. split; [by apply Hin|done].
  - right. split; [done|]. intros (x & r & Hx & Hrest). apply Hno. exists x, r. split; [by apply Hin|done].
Qed.

(** The first descriptor the body objects to. *)
Lemma first_visit_found visit L :
  (∀ r v, visit r = Some v → v = -1) → (∀ x, x ∈ L → is_Some (m !! x)) →
  default 0 (first_visit m visit L) = -1 ∧ (∃ x r, x ∈ L ∧ m !! x = Some r ∧ visit r = Some (-1)) ∨
  default 0 (first_visit m visit L) = 0 ∧ ¬ (∃ x r, x ∈ L ∧ m !! x = Some r ∧ visit r = Some (-1)).
Proof using.
  intros Hv Hk. induction L as [|x L IH]; [right; split; [done|by intros (? & ? & ?%elem_of_nil & _)]|].
  destruct (Hk x) as [r Ex]; [by left|]. cbn [first_visit]. rewrite Ex. run. destruct (visit r) as [v|] eqn:Hvr.
  - left. pose proof (Hv r v Hvr) as ->. split; [done|]. exists x, r. split; [by left|done].
  - destruct IH as [[-> (y & ry & Hy & Hrest)]|[-> Hno]]; [intros y Hy; apply Hk; by right|..].
    + left. split; [done|]. exists y, ry. split; [by right|done].
    + right. split; [done|]. intros (y & ry & [->|Hy]%elem_of_cons & Ey & Hvy); [congruence|]. apply Hno. by exists y, ry.
Qed.

(** A hardware resource that the mapping of [size] bytes at [addr] cuts. *)
Definition cut_resource (addr size : Z) : Prop :=
  ∃ x r, below m iomem_resource x ∧ m !! x = Some r ∧ is_busy r = false ∧
    r_start r < addr + size ∧ addr ≤ r_end r ∧
    ¬ (r_start r / 4096 ≤ addr / 4096 ∧ (addr + size - 1) / 4096 ≤ r_end r / 4096).

Lemma iomem_map_sanity_check_spec addr size :
  0 ≤ addr → 1 ≤ size → addr + size < 2 ^ 32 →
  ∃ v, iomem_map_sanity_check m addr size = Some v ∧ (v = -1 ∧ cut_resource addr size ∨ v = 0 ∧ ¬ cut_resource addr size).
Proof using H E Hp Hs.
  intros Ha Hsz Hw. unfold iomem_map_sanity_check.
  destruct (iomem_walk m H (sanity_visit addr size) iomem_resource root E Hp Hs) as (L & Hin & _ & Hrun).
  destruct (link_read m (ChildOf iomem_resource)) as [child|] eqn:Hc; [|cbn [link_read] in Hc; by rewrite E in Hc].
  run. rewrite (Hrun child eq_refl). eexists. split; [done|].
  assert (Hvis : ∀ r, sanity_visit addr size r = Some (-1) ↔ is_busy r = false ∧ r_start r < addr + size ∧ addr ≤ r_end r ∧
    ¬ (r_start r / 4096 ≤ addr / 4096 ∧ (addr + size - 1) / 4096 ≤ r_end r / 4096)).
  { intros r. unfold sanity_visit, PFN_DOWN. rewrite !(u32_small (addr + size)), !(u32_small (addr + size - 1)) by lia.
    rewrite !Z.shiftr_div_pow2 by done. change (2 ^ PAGE_SHIFT) with 4096. rewrite !Z.geb_leb.
    destruct (Z.leb_spec (addr + size) (r_start r)); [split; [done|lia]|]. destruct (Z.ltb_spec (r_end r) addr); [split; [done|lia]|].
    destruct (Z.leb_spec (r_start r / 4096) (addr / 4096)), (Z.leb_spec ((addr + size - 1) / 4096) (r_end r / 4096)); cbn [andb];
      destruct (is_busy r); split; try done; try (intros (? & _ & _ & Hn); exfalso; apply Hn; done); intros _; split_and!; try done; lia. }
  destruct (first_visit_found (sanity_visit addr size) L) as [[-> (x & r & Hx & Ex & Hrest)]|[-> Hno]].
  - intros r v. unfold sanity_visit. repeat (case_match; try done). by intros [= <-].
  - intros x Hx%Hin. by destruct (below_known m iomem_resource x H ltac:(done) Hx).
  - left. split; [done|]. exists x, r. split; [by apply Hin|]. split; [done|]. by apply Hvis.
  - right. split; [done|]. intros (x & r & Hx & Ex & Hrest). apply Hno. exists x, r. split; [by apply Hin|]. split; [done|]. by apply Hvis.
Qed.

(** ** System memory *)

Definition ram_flags : Z := Z.lor IORESOURCE_MEM IORESOURCE_BUSY.
Definition is_ram (t : resource) : Prop := r_flags t = ram_flags ∧ r_name t = Some "System RAM"%string.

Lemma find_ram_run fuel start fin q l1 l :
  family m q (l1 ++ l) → (length l < fuel)%nat →
  (∀ c rc, m !! c = Some rc → r_parent rc = q → r_flags rc = ram_flags → r_name rc ≠ None) →
  ∃ o, find_ram_loop fuel m start fin ram_flags (Some "System RAM"%string) (hd 0 l) = Some o ∧
    match o with
    | Some t => ∃ c, c ∈ l ∧ m !! c = Some t ∧ is_ram t ∧ start ≤ r_end t ∧ r_start t < fin
    | None => ∀ c t, c ∈ l → m !! c = Some t → is_ram t → ¬ (start ≤ r_end t ∧ r_start t < fin)
    end.
Proof using H.
  intros HF Hf Hname. revert l1 l HF Hf. induction fuel as [|fuel IH]; intros l1 l HF Hf; [lia|].
  destruct l as [|c l]; cbn [find_ram_loop hd]; [exists None; split; [done|by intros ? ? ?%elem_of_nil]|].
  destruct (family_in _ _ _ c HF) as (t & Ec & Hcq); [apply elem_of_app; right; by left|].
  rewrite (proj2 (Z.eqb_neq c 0)), Ec by eauto using wf_neq0. run.
  destruct (family_known _ _ _ HF) as [r Er]. destruct (family_split _ _ _ _ _ HF Er) as [_ (_ & t' & Ec' & Hseg)].
  assert (t' = t) as -> by congruence. rewrite (seg_head _ _ _ Hseg).
  destruct (IH (l1 ++ [c]) l) as (o & Ho & Hcase); [by rewrite <- app_assoc|simpl in Hf; lia|].
  assert (Hgo : ¬ (is_ram t ∧ start ≤ r_end t ∧ r_start t < fin) → match o with
    | Some t => ∃ c', c' ∈ c :: l ∧ m !! c' = Some t ∧ is_ram t ∧ start ≤ r_end t ∧ r_start t < fin
    | None => ∀ c' t, c' ∈ c :: l → m !! c' = Some t → is_ram t → ¬ (start ≤ r_end t ∧ r_start t < fin) end).
  { intros Hn. destruct o as [u|].
    - destruct Hcase as (d & Hd & Hrest). exists d. split; [by right|done].
    - intros d u [->|Hd]%elem_of_cons Ed Hu; [simplify_eq; tauto|by apply (Hcase d)]. }
  destruct (Z.eqb_spec (r_flags t) ram_flags) as [Hfl|Hfl]; cbn [negb].
  2: { exists o. split; [done|]. apply Hgo. intros [[? _] _]. done. }
  destruct (r_name t) as [nm|] eqn:Hnm; [|by destruct (Hname c t Ec Hcq Hfl)]. run.
  destruct (decide (nm = "System RAM"%string)) as [->|Hne].
  2: { rewrite bool_decide_eq_true_2 by done. exists o. split; [done|]. apply Hgo. intros [[_ ?] _]. congruence. }
  rewrite bool_decide_eq_false_2 by tauto. assert (Hram : is_ram t) by done. rewrite Z.gtb_ltb, Z.geb_leb.
  destruct (Z.ltb_spec fin (r_start t)).
  - exists None. split; [done|]. intros d u Hd Ed Hu.
    pose proof (family_tail m q l1 (c :: l) fin H HF) as Htail. specialize (Htail ltac:(intros ? ? ? [= <- <-] ?; simplify_eq; lia) d u Hd Ed). lia.
  - destruct (Z.leb_spec start (r_end t)), (Z.ltb_spec (r_start t) fin); cbn [andb].
    + exists (Some t). split; [done|]. exists c. split; [by left|done].
    + exists o. split; [done|]. apply Hgo. lia.
    + exists o. split; [done|]. apply Hgo. lia.
    + exists o. split; [done|]. apply Hgo. lia.
Qed.

Lemma page_is_ram_spec pfn :
  0 ≤ pfn < 2 ^ 20 - 1 →
  (∀ c rc, m !! c = Some rc → r_parent rc = iomem_resource → r_flags rc = ram_flags → r_name rc ≠ None) →
  ∃ b, page_is_ram m pfn = Some b ∧
    (b = true ↔ ∃ c t, m !! c = Some t ∧ r_parent t = iomem_resource ∧ is_ram t ∧
       r_start t ≤ pfn * 4096 ∧ pfn * 4096 + 4095 ≤ r_end t).
Proof using H E.
  intros Hpfn Hname. unfold page_is_ram, walk_system_ram_range. rewrite !Z.shiftl_mul_pow2 by done. change (2 ^ PAGE_SHIFT) with 4096.
  rewrite (u32_small (pfn + 1)), (u32_small (pfn * 4096)), (u32_small ((pfn + 1) * 4096 - 1)) by lia.
  replace ((pfn + 1) * 4096 - 1) with (pfn * 4096 + 4095) by lia. set (st := pfn * 4096) in *.
  unfold res_fuel at 1. cbn [walk_ram_loop]. rewrite (proj2 (Z.ltb_lt st (st + 4095))) by lia.
  unfold find_next_system_ram. rewrite Z.geb_leb, (proj2 (Z.leb_gt (st + 4095) st)) by lia.
  cbn [link_read]. rewrite E. run. destruct (wf_links _ H iomem_resource) as [l HF]; [eauto|].
  pose proof HF as (r & Er & Hseg & _). assert (r = root) as -> by congruence. rewrite (seg_head _ _ _ Hseg).
  destruct (find_ram_run (res_fuel m) st (st + 4095) iomem_resource [] l HF (family_length _ _ _ H HF) Hname) as (o & Ho & Hcase).
  change (Z.lor IORESOURCE_MEM IORESOURCE_BUSY) with ram_flags. rewrite Ho. run. destruct o as [t|].
  - destruct Hcase as (c & Hc & Ec & Hram & Hov1 & Hov2). destruct (family_in _ _ _ c HF Hc) as (t' & Ec' & Hcq).
    assert (t' = t) as -> by congruence. pose proof (wf_range _ _ _ H Ec).
    assert (Huni : (∃ c t, m !! c = Some t ∧ r_parent t = iomem_resource ∧ is_ram t ∧ r_start t ≤ st ∧ st + 4095 ≤ r_end t) →
      r_start t ≤ st ∧ st + 4095 ≤ r_end t).
    { intros (d & u & Ed & Hdq & _ & Hu1 & Hu2). destruct (decide (d = c)) as [->|Hdc]; [by simplify_eq|].
      destruct (siblings_disjoint m iomem_resource c d t u); try done; eauto; lia. }
    set (s := if st <? r_start t then r_start t else st). set (e := if st + 4095 >? r_end t then r_end t else st + 4095).
    assert (Hs' : s = Z.max st (r_start t)) by (unfold s; zbool; lia). assert (He' : e = Z.min (st + 4095) (r_end t)) by (unfold e; zbool; lia).
    change PAGE_SIZE with 4096. rewrite !Z.shiftr_div_pow2 by done. change (2 ^ PAGE_SHIFT) with 4096.
    rewrite (u32_small (s + 4096 - 1)), (u32_small (e + 1)), Z.gtb_ltb by lia.
    destruct (decide (r_start t ≤ st ∧ st + 4095 ≤ r_end t)) as [Hcov|Hcov].
    + rewrite (proj2 (Z.ltb_lt ((s + 4096 - 1) / 4096) ((e + 1) / 4096))).
      * cbn. exists true. split; [done|]. split; [|done]. intros _. exists c, t. split_and!; try done; lia.
      * replace s with (pfn * 4096) by (unfold st in *; lia). replace e with (pfn * 4096 + 4095) by (unfold st in *; lia).
        replace (pfn * 4096 + 4096 - 1) with (4095 + pfn * 4096) by lia. replace (pfn * 4096 + 4095 + 1) with (0 + (pfn + 1) * 4096) by lia.
        rewrite !Z.div_add by done. change (4095 / 4096) with 0. change (0 / 4096) with 0. lia.
    + rewrite (proj2 (Z.ltb_ge ((s + 4096 - 1) / 4096) ((e + 1) / 4096))).
      * cbn. exists false. split; [done|]. split; [done|]. intros Hex. by apply Huni in Hex.
      * assert (Hq : (e + 1) / 4096 ≤ pfn + 1) by (apply Z.lt_succ_r, Z.div_lt_upper_bound; unfold st in *; lia).
        assert (Hq' : pfn ≤ (s + 4096 - 1) / 4096) by (apply Z.div_le_lower_bound; unfold st in *; lia).
        destruct (decide (st < s)); [transitivity (pfn + 1); [done|]; apply Z.div_le_lower_bound; unfold st in *; lia|].
        transitivity pfn; [|done]. apply Z.lt_succ_r, Z.div_lt_upper_bound; unfold st in *; lia.
  - cbn. exists false. split; [done|]. split; [done|]. intros (c & t & Ec & Hcq & Hram & ? & ?). exfalso.
    apply (Hcase c t); [by apply (family_child _ _ _ _ _ HF Ec Hcq)|done|done|lia].
Qed.
End checks.
