(* ===== verification/ResourceTree.v ===== *)
(** The theorems about the resource tree: the invariant over any sequence of
    operations, what requesting, inserting, expanding, allocating, and the claiming and
    releasing of busy regions do, and flaws at the edges. *)

From stdpp Require Import strings.
From S2P Require Import Prelude Resource ResourceInv ResourceOps ResourceRegion ResourceWalk.

(** ** Operations and what their callers promise *)

Inductive res_op :=
| OpDescriptor (a start fin : Z) (name : option string) (flags : Z)
| OpRequest (root new : Z)
| OpRelease (old : Z)
| OpReleaseChildren (r : Z)
| OpAllocate (root new size min max align : Z) (alignf : option alignf_t)
| OpInsert (parent new : Z)
| OpExpand (root new : Z)
| OpAdjust (res start size : Z)
| OpReserve (root start fin : Z) (name : string) (answers : list (option Z))
| OpRegion (answer : option Z) (parent start n : Z) (name : string) (flags : Z)
| OpWake (parent res flags : Z)
| OpCheckRegion (answer : option Z) (parent start n : Z)
| OpReleaseRegion (parent start n : Z).

(** The operation, with the answers of the functions left out.  [OpDescriptor] is a
    driver that fills in a descriptor of its own. *)
Definition res_step (m : res_mem) (op : res_op) : option res_mem :=
  match op with
  | OpDescriptor a start fin name flags => Some (<[a := mk_res start fin name flags 0 0 0]> m)
  | OpRequest root new => fst <$> request_resource m root new
  | OpRelease old => fst <$> release_resource m old
  | OpReleaseChildren r => release_child_resources m r
  | OpAllocate root new size min max align alignf => fst <$> allocate_resource size min max align alignf m root new
  | OpInsert parent new => fst <$> insert_resource m parent new
  | OpExpand root new => insert_resource_expand_to_fit m root new
  | OpAdjust res start size => fst <$> adjust_resource m res start size
  | OpReserve root start fin name answers => reserve_region_with_split m root start fin name answers
  | OpRegion answer parent start n name flags => fst <$> __request_region m answer parent start n name flags
  | OpWake parent res flags => fst <$> request_region_wake m parent res flags
  | OpCheckRegion answer parent start n => fst <$> __check_region m answer parent start n
  | OpReleaseRegion parent start n => (λ x, x.1.1) <$> __release_region m parent start n
  end.

(** [new] may be linked under [root]. *)
Definition may_link (m : res_mem) (root new : Z) : Prop := is_Some (m !! root) ∧ detached m new ∧ root ≠ new.

(** What the callers promise.  __request_region itself relies on [OpWake]'s promise: a task
    that waited for a muxed region goes on with the parent it remembers (resource.c:720-730),
    which the code does not check to be still there; [muxed_region_dangling] shows a run in
    which it is not. *)
Definition res_pre (m : res_mem) (op : res_op) : Prop :=
  match op with
  | OpDescriptor a start fin _ _ => loose m a ∧ 0 ≤ start < 2 ^ 32 ∧ 0 ≤ fin < 2 ^ 32
  | OpRequest root new | OpAllocate root new _ _ _ _ _ | OpInsert root new | OpExpand root new => may_link m root new
  | OpRelease old => ∃ r, m !! old = Some r ∧ r_parent r ≠ 0
  | OpReleaseChildren r => is_Some (m !! r)
  | OpAdjust res start size =>
      (∃ r, m !! res = Some r ∧ r_parent r ≠ 0) ∧ 0 ≤ start ∧ 1 ≤ size ∧ start + size ≤ 2 ^ 32
  | OpReserve root start fin _ _ => ∃ r, m !! root = Some r ∧ r_start r ≤ start ≤ fin ∧ fin ≤ r_end r
  | OpRegion _ parent start _ _ _ | OpCheckRegion _ parent start _ => is_Some (m !! parent) ∧ 0 ≤ start < 2 ^ 32
  | OpWake parent res _ => may_link m parent res
  | OpReleaseRegion parent start n =>
      is_Some (m !! parent) ∧ 0 ≤ start ∧ 1 ≤ n ∧ start + n ≤ 2 ^ 32 ∧
      ∀ x r, release_found m start (start + n - 1) parent x → m !! x = Some r → r_child r = 0
  end.

Fixpoint res_run (m : res_mem) (ops : list res_op) : option res_mem :=
  match ops with
  | [] => Some m
  | op :: ops => m ← res_step m op; res_run m ops
  end.

Fixpoint res_legal (m : res_mem) (ops : list res_op) : Prop :=
  match ops with
  | [] => True
  | op :: ops => res_pre m op ∧ ∀ m', res_step m op = Some m' → res_legal m' ops
  end.

(** ** Every operation keeps the invariant *)

Section steps.
Implicit Types (m : res_mem).

Lemma request_resource_step m root new :
  res_wf m → may_link m root new → ∃ m' v, request_resource m root new = Some (m', v) ∧ res_wf m'.
Proof.
  intros H ([r E] & (n & En & Hp & Hc) & Hne). unfold request_resource, request_resource_conflict.
  destruct (__request_resource_spec m root new r n) as (m' & c & -> & Hr); [done..|]. run.
  destruct Hr; eauto.
Qed.

Lemma insert_resource_step m root new :
  res_wf m → may_link m root new → ∃ m' v, insert_resource m root new = Some (m', v) ∧ res_wf m'.
Proof.
  intros H ([r E] & (n & En & Hp & Hc) & Hne). unfold insert_resource, insert_resource_conflict.
  destruct (__insert_resource_spec m root new r n) as (m' & c & -> & Hr); [done..|]. run.
  destruct Hr; eauto.
Qed.

(** What the answer NULL of an insertion means. *)
Lemma insert_result_done m p new r n m' :
  insert_result m p new r n m' 0 → p ≠ 0 → m !! 0 = None →
  ∃ q l, fits r n ∧ (q = p ∨ below m p q) ∧ uncut m p n ∧
    (∀ c, c ∈ l ↔ ∃ rc, m !! c = Some rc ∧ r_parent rc = q ∧ inside rc n) ∧
    res_wf m' ∧ view m' = <[new := g_set_parent q (view1 n)]> (reparent l new (view m)).
Proof.
  intros Hr Hp H0. remember 0 as z eqn:Hz. destruct Hr as [m' q l Hfit Hq Hnp Hl Hwf Hv|_|c rc _ _ Ec _].
  - by exists q, l.
  - done.
  - subst c. congruence.
Qed.

(** A range that does not fit into the root is left alone by the expansion. *)
Lemma insert_resource_expand_outside m root new r n :
  res_wf m → m !! root = Some r → m !! new = Some n → r_parent n = 0 → r_child n = 0 → root ≠ new → ¬ fits r n →
  insert_resource_expand_to_fit m root new = Some m.
Proof.
  intros H E En Hp Hc Hne Hnf. unfold insert_resource_expand_to_fit. rewrite En. run. rewrite Hp. change (ctrue 0) with false. cbn iota.
  cbn [expand_loop]. destruct (__insert_resource_spec m root new r n) as (m' & c & -> & Hr); [done..|]. run.
  destruct Hr as [m' q l Hfit|_|c rc Hfit]; [done| |done].
  rewrite (proj2 (Z.eqb_neq root 0)), Z.eqb_refl by eauto using wf_neq0. done.
Qed.

Lemma insert_resource_expand_fits m root new r n :
  res_wf m → m !! root = Some r → m !! new = Some n → r_parent n = 0 → r_child n = 0 → root ≠ new → fits r n →
  ∃ s e m', insert_resource_expand_to_fit m root new = Some m' ∧
    inside n (w_range s e n) ∧
    (∀ k, inside n k → uncut m root k → inside (w_range s e n) k) ∧
    insert_result (<[new := w_range s e n]> m) root new r (w_range s e n) m' 0.
Proof.
  intros H E En Hp Hc Hne Hfit. unfold insert_resource_expand_to_fit. rewrite En. run. rewrite Hp. change (ctrue 0) with false. cbn iota.
  apply expand_loop_spec; try done. apply Nat.lt_succ_r, stretch_bound.
Qed.

Lemma expand_step m root new :
  res_wf m → may_link m root new → ∃ m', insert_resource_expand_to_fit m root new = Some m' ∧ res_wf m'.
Proof.
  intros H ([r E] & (n & En & Hp & Hc) & Hne). destruct (decide (fits r n)) as [Hfit|Hnf].
  - destruct (insert_resource_expand_fits m root new r n) as (s & e & m' & -> & _ & _ & Hr); [done..|]. exists m'. split; [done|].
    apply insert_result_done in Hr as (q & l & _ & _ & _ & _ & Hwf & _); [done|eauto using wf_neq0|].
    rewrite lookup_insert_ne; [by apply wf_null|]. intros ->. by rewrite (wf_null _ H) in En.
  - exists m. split; [by apply (insert_resource_expand_outside m root new r n)|done].
Qed.

(** What is left of a request that was refused. *)
Lemma region_end_wf m p res r n flags m' e :
  res_wf m → m !! res = Some n → r_parent n = 0 → r_child n = 0 → region_result m p res r n flags m' e → res_wf m'.
Proof. intros H En Hp Hc Hr. destruct Hr; try done. apply wf_free; [done|]. apply detached_loose; [done|]. by exists n. Qed.

Lemma request_region_step m answer p start n name flags :
  res_wf m → is_Some (m !! p) → 0 ≤ start < 2 ^ 32 →
  ∃ m' e, __request_region m answer p start n name flags = Some (m', e) ∧ res_wf m'.
Proof.
  intros H [r E] Hs. destruct (__request_region_spec m answer p r start n name flags) as [[_ ->]|(res & m' & e & _ & -> & Hwf & Hr)]; [done..|eauto|].
  exists m', e. split; [done|]. eapply region_end_wf; [done|apply lookup_insert_eq|done|done|done].
Qed.

Lemma region_wake_step m p res flags :
  res_wf m → may_link m p res → ∃ m' e, request_region_wake m p res flags = Some (m', e) ∧ res_wf m'.
Proof.
  intros H ([r E] & (n & En & Hp & Hc) & Hne). destruct (wf_levels _ H) as (level & Hlev & Hdown). unfold request_region_wake.
  destruct (region_loop_spec level (res_fuel m) m p res r n flags) as (m' & e & -> & Hr); [done..|].
  exists m', e. split; [done|]. by eapply region_end_wf.
Qed.

(** Without a descriptor that names it as parent, the child pointer is NULL. *)
Lemma childless m x r : res_wf m → m !! x = Some r → (∀ c g, view m !! c = Some g → g_parent g ≠ x) → r_child r = 0.
Proof.
  intros H E Hno. destruct (wf_links _ H x) as [l HF]; [eauto|]. destruct l as [|c l].
  - destruct HF as (r' & E' & Hs & _). simpl in Hs. congruence.
  - exfalso. destruct (proj1 (family_parent m x (c :: l) c HF)) as (g & Eg & Hg); [by left|]. by apply (Hno c g).
Qed.

(** A region that was granted: where it is, and that it has no children. *)
Lemma granted_region m res k q m' :
  res_wf m → m !! res = None → res ≠ 0 → res_wf m' →
  view m' = <[res := g_set_parent q (view1 k)]> (view (<[res := k]> m)) → q ≠ res →
  ∃ rx, m' !! res = Some rx ∧ view1 rx = g_set_parent q (view1 k) ∧ r_child rx = 0.
Proof.
  intros H Hn H0 Hwf Hv Hq. assert (Hx : view m' !! res = Some (g_set_parent q (view1 k))) by (rewrite Hv; apply lookup_insert_eq).
  apply view_some_inv in Hx as (rx & Ex & Hrx). exists rx. split_and!; try done. apply (childless m' res rx Hwf Ex).
  intros c g. rewrite Hv, view_insert, insert_insert_eq, lookup_insert_Some. intros [[<- <-]|[Hc Eg]]; [done|].
  apply view_some_inv in Eg as (rc & Ec & <-). simpl. apply (loose_no_child m res c rc H); [|done]. split; [done|by left].
Qed.

Lemma way_known m p n q : res_wf m → is_Some (m !! p) → way m p n q → is_Some (m !! q) ∧ q ≠ 0.
Proof.
  intros H [r E] [->|(rq & _ & Eq & _)]; split; eauto using wf_neq0.
Qed.

Lemma __check_region_spec m answer p r start n :
  res_wf m → m !! p = Some r → 0 ≤ start < 2 ^ 32 →
  ∃ m' v, __check_region m answer p start n = Some (m', v) ∧ res_wf m' ∧ view m' = view m ∧ (v = 0 ∨ v = - EBUSY).
Proof.
  intros H E Hs. unfold __check_region.
  destruct (__request_region_spec m answer p r start n "check-region" 0) as [[_ ->]|(res & m' & e & Hk & -> & Hwf & Hr)]; [done..| |]; run.
  { exists m, (- EBUSY). auto. }
  apply kzalloc_loose in Hk as [Hl Hn]. set (k := new_region start n "check-region" 0) in *.
  assert (Hpr : p ≠ res) by (intros ->; congruence).
  destruct Hr as [m' q Hfit Hnb Hq Hnc Hwf' Hv|Hwhy|c rc Ec Hwhy Hmux].
  - assert (Hqr : q ≠ res).
    { destruct Hq as [->|(rq & Hb & Eq & _)]; [done|]. intros ->. destruct (below_attached _ p res Hwf (wf_neq0 _ _ _ H E) Hb) as (? & Er & Hp').
      rewrite lookup_insert_eq in Er. injection Er as <-. by simpl in Hp'. }
    destruct (way_known (<[res := k]> m) p k q) as [_ Hq0]; [done|rewrite lookup_insert_ne by done; eauto|done|].
    destruct (granted_region m res k q m') as (rx & Ex & Hrx & Hcx); [done|done|apply Hl|done..|].
    destruct (__release_resource_spec m' res rx) as (m2 & Hrel & Hwf2 & Hv2 & rx2 & Ex2 & Hc2); [done|done| |].
    { apply (f_equal g_parent) in Hrx. simpl in Hrx. by rewrite Hrx. }
    unfold release_resource. rewrite Hrel. run. exists (kfree_res m2 res), 0. split; [done|]. split; [|split; [|by left]].
    + apply wf_free; [done|]. apply detached_loose; [done|]. exists rx2. split; [done|]. split; [|congruence].
      pose proof (view_some _ _ _ Ex2) as Hx2. rewrite Hv2, lookup_insert_eq in Hx2. by injection Hx2.
    + unfold kfree_res. rewrite view_delete, Hv2, Hv, view_insert, !insert_insert_eq. apply delete_insert_id. by rewrite view_lookup, Hn.
  - assert (kfree_res (<[res := k]> m) res = m) as -> by by apply delete_insert_id. exists m, (- EBUSY). auto.
  - rewrite Z.land_0_r in Hmux. done.
Qed.

Lemma reserve_region_with_split_spec m root r start fin name answers :
  res_wf m → m !! root = Some r → r_start r ≤ start ≤ fin → fin ≤ r_end r →
  ∃ m' answers', reserve_region_with_split m root start fin name answers = Some m' ∧
    split_result root name m start fin answers m' answers'.
Proof.
  intros H E Hs He. unfold reserve_region_with_split.
  destruct (reserve_split_spec root name (res_fuel m) m r start fin answers) as (m' & a' & -> & Hr); [done..| |].
  - unfold res_fuel. apply Nat.lt_succ_r. transitivity (size (dom (view m))).
    + apply subseteq_size. intros x. unfold hits. rewrite elem_of_filter. by intros [_ ?].
    + rewrite size_dom. unfold view. by rewrite map_size_fmap.
  - run. eauto.
Qed.

Lemma res_step_wf m op : res_wf m → res_pre m op → ∃ m', res_step m op = Some m' ∧ res_wf m'.
Proof.
  intros H Hpre. destruct op; cbn [res_step res_pre] in *.
  - destruct Hpre as (Hl & Hs & Hf). eexists. split; [done|]. by apply wf_put.
  - destruct (request_resource_step m root new H Hpre) as (m' & v & -> & Hwf). by exists m'.
  - destruct Hpre as (r & E & Hp). destruct (__release_resource_spec m old r H E Hp) as (m' & Hr & Hwf & _).
    unfold release_resource. rewrite Hr. by exists m'.
  - destruct Hpre as [rp Ep]. destruct (release_child_resources_spec m r rp H Ep) as (m' & -> & Hr). exists m'. split; [done|apply Hr].
  - destruct Hpre as ([r E] & (n & En & Hp & Hc) & Hne).
    destruct (allocate_resource_total size min max align alignf m root new r n) as (m' & v & -> & Hwf & _); [done..|]. by exists m'.
  - destruct (insert_resource_step m parent new H Hpre) as (m' & v & -> & Hwf). by exists m'.
  - by apply expand_step.
  - destruct Hpre as ((r & E & Hp) & Hs & Hsz & Hw). destruct (wf_inside m res r H E Hp) as (rp & Ep & _).
    destruct (adjust_resource_spec m res r rp start size H E Hp Ep Hs Hsz ltac:(lia)) as [(-> & _ & Hwf)|(-> & _)]; eauto.
  - destruct Hpre as (r & E & Hs & He). destruct (reserve_region_with_split_spec m root r start fin name answers) as (m' & a' & -> & Hwf & _); [done..|]. by exists m'.
  - destruct Hpre as [Hp Hs]. destruct (request_region_step m answer parent start n name flags H Hp Hs) as (m' & e & -> & Hwf). by exists m'.
  - destruct (region_wake_step m parent res flags H Hpre) as (m' & e & -> & Hwf). by exists m'.
  - destruct Hpre as [[r E] Hs]. destruct (__check_region_spec m answer parent r start n H E Hs) as (m' & v & -> & Hwf & _). by exists m'.
  - destruct Hpre as (Hp & Hs & Hn & Hw & Hc).
    destruct (__release_region_spec m parent start n) as [[-> _]|(x & rx & m' & Hf & Ex & -> & Hok)]; [done|done|done|done|lia|eauto|].
    exists m'. split; [done|]. apply Hok. by apply (Hc x).
Qed.
End steps.

Lemma res_run_wf ops m : res_wf m → res_legal m ops → ∃ m', res_run m ops = Some m' ∧ res_wf m'.
Proof.
  revert m. induction ops as [|op ops IH]; intros m H Hl; [by exists m|].
  destruct Hl as [Hpre Hl]. cbn [res_run]. destruct (res_step_wf m op H Hpre) as (m' & E & H'). rewrite E. run. apply IH; auto.
Qed.

(** A step of a run on concrete data: the promise is checked, the result computed. *)
Ltac legal_step :=
  split; [|intros ? Hstep; vm_compute in Hstep; injection Hstep as <-].

(** The promises of the operations, on concrete data. *)
Ltac legal_link := split; [vm_compute; eauto|]; split; [eexists; split; [vm_compute; reflexivity|done]|done].
Ltac legal_region := split; [vm_compute; eauto|done].

(** A small tree: a block of memory, and a busy region in it. *)
Definition demo_ops : list res_op :=
  [OpDescriptor 100 16 31 (Some "block"%string) IORESOURCE_MEM; OpRequest iomem_resource 100;
   OpRegion (Some 200) iomem_resource 20 4 "driver" 0].
Definition demo_tree : res_mem := default ∅ (res_run resource_boot demo_ops).

Lemma demo_legal : res_legal resource_boot demo_ops.
Proof.
  legal_step; [split; [split; [done|by left]|done]|].
  legal_step; [legal_link|].
  legal_step; [legal_region|done].
Qed.

Lemma demo_wf : res_wf demo_tree.
Proof. destruct (res_run_wf demo_ops _ wf_boot demo_legal) as (m & E & H). unfold demo_tree. by rewrite E. Qed.

(** The small tree and a descriptor of a driver. *)
Definition demo_with (s e : Z) : res_mem := <[300 := mk_res s e None 0 0 0 0]> demo_tree.
Definition demo_new (s e : Z) : resource := mk_res s e None 0 0 0 0.

Lemma demo_with_wf s e : 0 ≤ s < 2 ^ 32 → 0 ≤ e < 2 ^ 32 → res_wf (demo_with s e).
Proof. intros ? ?. apply wf_put; [apply demo_wf| |done..]. split; [done|]. left. vm_compute. reflexivity. Qed.

Definition demo_root : resource := mk_res 0 0xffffffff (Some "PCI mem"%string) IORESOURCE_MEM 0 0 100.





(** ** Requesting *)

(** The child of [p] that comes first of those that overlap [n]. *)
Definition first_conflict (m : res_mem) (p : Z) (n : resource) (c : Z) : Prop :=
  ∃ rc, m !! c = Some rc ∧ r_parent rc = p ∧ overlap rc n ∧
    ∀ d rd, d ≠ c → m !! d = Some rd → r_parent rd = p → overlap rd n → r_end rc < r_start rd.

(** C32: request_resource succeeds exactly if the range is one, lies inside of the parent and
    overlaps none of its children, and then does nothing but to make the descriptor a child;
    releasing it takes this back.  Otherwise the answer is -EBUSY and nothing has changed, and
    request_resource_conflict names what is in the way: the parent if the range is none or
    does not lie inside of it, or else the first child that overlaps the range. *)
Theorem request_resource_correct m root new r n :
  res_wf m → m !! root = Some r → m !! new = Some n → r_parent n = 0 → r_child n = 0 → root ≠ new →
  (fits r n ∧ (∀ c, ¬ conflicts m root n c) ∧
     ∃ m', request_resource_conflict m root new = Some (m', 0) ∧ request_resource m root new = Some (m', 0) ∧ res_wf m' ∧
       view m' = <[new := g_set_parent root (view1 n)]> (view m) ∧
       ∃ m'', release_resource m' new = Some (m'', 0) ∧ res_wf m'' ∧ view m'' = view m) ∨
  (∃ c, request_resource_conflict m root new = Some (m, c) ∧ request_resource m root new = Some (m, - EBUSY) ∧
     (¬ fits r n ∧ c = root ∨ fits r n ∧ first_conflict m root n c)).
Proof.
  intros H E En Hp Hc Hne. assert (Hr0 : root ≠ 0) by eauto using wf_neq0. unfold request_resource, request_resource_conflict.
  destruct (__request_resource_spec m root new r n) as (m' & c & -> & Hr); [done..|]. run.
  destruct Hr as [m' Hfit Hnc Hwf Hv|Hnf|c rc Hfit Ec Hcp Hov Hfirst]; unfold ctrue.
  - left. split_and!; try done. exists m'. split_and!; try done.
    assert (Hx : view m' !! new = Some (g_set_parent root (view1 n))) by (rewrite Hv; apply lookup_insert_eq).
    apply view_some_inv in Hx as (rx & Ex & Hrx).
    destruct (__release_resource_spec m' new rx Hwf Ex) as (m2 & Hrel & Hwf2 & Hv2 & _).
    { apply (f_equal g_parent) in Hrx. simpl in Hrx. by rewrite Hrx. }
    exists m2. split_and!; try done. rewrite Hv2, Hv, insert_insert_eq, Hrx. apply insert_id. rewrite (view_some _ _ _ En).
    destruct n. simpl in *. by subst.
  - right. exists root. rewrite (proj2 (Z.eqb_neq root 0)) by done. auto.
  - right. exists c. rewrite (proj2 (Z.eqb_neq c 0)) by eauto using wf_neq0. split_and!; try done. right. split; [done|]. by exists rc.
Qed.

Lemma request_resource_correct_witness :
  (∃ m', request_resource (demo_with 32 63) iomem_resource 300 = Some (m', 0) ∧ res_wf m' ∧
     ∃ m'', release_resource m' 300 = Some (m'', 0) ∧ view m'' = view (demo_with 32 63)) ∧
  (∃ c, request_resource_conflict (demo_with 24 40) iomem_resource 300 = Some (demo_with 24 40, c) ∧
     first_conflict (demo_with 24 40) iomem_resource (demo_new 24 40) c).
Proof.
  split.
  - destruct (request_resource_correct (demo_with 32 63) iomem_resource 300 demo_root (demo_new 32 63))
      as [(_ & _ & m' & _ & Hr & Hwf & _ & m'' & Hrel & _ & Hv)|(c & _ & Hbad & _)];
      [by apply demo_with_wf|vm_compute; reflexivity|vm_compute; reflexivity|done|done|done| |vm_compute in Hbad; done].
    exists m'. split; [exact Hr|]. split; [exact Hwf|]. exists m''. split; [exact Hrel|exact Hv].
  - destruct (request_resource_correct (demo_with 24 40) iomem_resource 300 demo_root (demo_new 24 40))
      as [(_ & _ & m' & _ & Hbad & _)|(c & Hr & _ & [[Hno _]|[_ Hc]])];
      [by apply demo_with_wf|vm_compute; reflexivity|vm_compute; reflexivity|done|done|done|vm_compute in Hbad; done| |].
    + destruct Hno. split; [vm_compute; discriminate|]. split; vm_compute; discriminate.
    + exists c. split; [exact Hr|exact Hc].
Defined.

(** ** Inserting *)

(** C33: insert_resource succeeds exactly if the range lies inside of the parent and no resource
    below the parent is cut by it.  The new descriptor then goes under the deepest resource
    that holds its range strictly and takes over those children of it that lie inside of
    its range; nothing else changes.  Otherwise the answer is -EBUSY and nothing has changed. *)
Theorem insert_resource_correct m parent new r n :
  res_wf m → m !! parent = Some r → m !! new = Some n → r_parent n = 0 → r_child n = 0 → parent ≠ new →
  (fits r n ∧ uncut m parent n ∧
     ∃ m' q l, insert_resource m parent new = Some (m', 0) ∧ res_wf m' ∧ (q = parent ∨ below m parent q) ∧
       (∀ c, c ∈ l ↔ ∃ rc, m !! c = Some rc ∧ r_parent rc = q ∧ inside rc n) ∧
       view m' = <[new := g_set_parent q (view1 n)]> (reparent l new (view m))) ∨
  ((¬ fits r n ∨ ¬ uncut m parent n) ∧ insert_resource m parent new = Some (m, - EBUSY)).
Proof.
  intros H E En Hp Hc Hne. unfold insert_resource, insert_resource_conflict.
  destruct (__insert_resource_spec m parent new r n) as (m' & c & -> & Hr); [done..|]. run.
  destruct Hr as [m' q l Hfit Hq Hnp Hl Hwf Hv|Hnf|c rc Hfit Hb Ec Hpart]; unfold ctrue.
  - left. split_and!; try done. by exists m', q, l.
  - right. rewrite (proj2 (Z.eqb_neq parent 0)) by eauto using wf_neq0. auto.
  - right. rewrite (proj2 (Z.eqb_neq c 0)) by eauto using wf_neq0. split; [|done]. right. intros Hu. by apply (Hu c rc).
Qed.

Lemma insert_resource_correct_witness :
  (∃ m' q l, insert_resource (demo_with 8 63) iomem_resource 300 = Some (m', 0) ∧
     view m' = <[300 := g_set_parent q (view1 (demo_new 8 63))]> (reparent l 300 (view (demo_with 8 63)))) ∧
  insert_resource (demo_with 24 40) iomem_resource 300 = Some (demo_with 24 40, - EBUSY).
Proof.
  split.
  - destruct (insert_resource_correct (demo_with 8 63) iomem_resource 300 demo_root (demo_new 8 63))
      as [(_ & _ & m' & q & l & Hr & _ & _ & _ & Hv)|[_ Hbad]];
      [by apply demo_with_wf|vm_compute; reflexivity|vm_compute; reflexivity|done|done|done| |vm_compute in Hbad; done].
    exists m', q, l. split; [exact Hr|exact Hv].
  - destruct (insert_resource_correct (demo_with 24 40) iomem_resource 300 demo_root (demo_new 24 40))
      as [(_ & _ & m' & q & l & Hbad & _)|[_ Hr]];
      [by apply demo_with_wf|vm_compute; reflexivity|vm_compute; reflexivity|done|done|done|vm_compute in Hbad; done|exact Hr].
Defined.

(** C34: insert_resource_expand_to_fit ends.  A range inside of the root is widened to the least
    range around it that cuts no resource below the root, and the descriptor is inserted
    with that range; a range that is not inside of the root is left alone. *)
Theorem insert_resource_expand_least m root new r n :
  res_wf m → m !! root = Some r → m !! new = Some n → r_parent n = 0 → r_child n = 0 → root ≠ new →
  (fits r n ∧ ∃ s e m' q l, insert_resource_expand_to_fit m root new = Some m' ∧ res_wf m' ∧
     let n' := w_range s e n in
     fits r n' ∧ inside n n' ∧ uncut m root n' ∧ (∀ k, inside n k → uncut m root k → inside n' k) ∧
     (q = root ∨ below m root q) ∧
     (∀ c, c ∈ l ↔ c ≠ new ∧ ∃ rc, m !! c = Some rc ∧ r_parent rc = q ∧ inside rc n') ∧
     view m' = <[new := g_set_parent q (view1 n')]> (reparent l new (view m))) ∨
  (¬ fits r n ∧ insert_resource_expand_to_fit m root new = Some m).
Proof.
  intros H E En Hp Hc Hne. destruct (decide (fits r n)) as [Hfit|Hnf].
  2: { right. split; [done|]. by apply (insert_resource_expand_outside m root new r n). }
  left. split; [done|]. assert (Hr0 : root ≠ 0) by eauto using wf_neq0. assert (Hn0 : new ≠ 0) by eauto using wf_neq0.
  destruct (insert_resource_expand_fits m root new r n) as (s & e & m' & Hrun & Hin & Hleast & Hr); [done..|].
  apply insert_result_done in Hr as (q & l & Hfit' & Hq & Hu & Hl & Hwf & Hv); [|done|rewrite lookup_insert_ne by done; by apply wf_null].
  set (n' := w_range s e n) in *. exists s, e, m', q, l.
  assert (Hbel : ∀ d, below (<[new := n']> m) root d ↔ below m root d) by (intros d; by apply below_resized).
  assert (Hnb : ¬ below m root new).
  { intros Hb. destruct (below_attached m root new H Hr0 Hb) as (? & ? & ?). by simplify_eq. }
  split; [done|]. split; [done|]. cbv zeta. fold n'. split_and!; try done.
  - intros d rd Hd Ed. apply (Hu d); [by apply Hbel|]. rewrite lookup_insert_ne; [done|]. by intros ->.
  - by rewrite Hbel in Hq.
  - intros c. rewrite Hl. destruct (decide (c = new)) as [->|Hcn]; [|rewrite lookup_insert_ne by done; tauto].
    rewrite lookup_insert_eq. split; [|tauto]. intros (rc & [= <-] & Hq' & _). exfalso. simpl in Hq'. rewrite Hp in Hq'.
    destruct Hq as [->|Hb%Hbel]; [done|]. subst q. destruct (below_known m root 0 H Hr0 Hb) as [_ [? E0]]. by rewrite (wf_null _ H) in E0.
  - rewrite Hv, view_insert. apply map_eq. intros c. destruct (decide (c = new)) as [->|Hcn]; [by rewrite !lookup_insert_eq|].
    rewrite !lookup_insert_ne, !reparent_lookup, lookup_insert_ne by done. done.
Qed.

Lemma insert_resource_expand_least_witness :
  ∃ s e m', insert_resource_expand_to_fit (demo_with 24 40) iomem_resource 300 = Some m' ∧ res_wf m' ∧
    inside (demo_new 24 40) (w_range s e (demo_new 24 40)) ∧ uncut (demo_with 24 40) iomem_resource (w_range s e (demo_new 24 40)).
Proof.
  destruct (insert_resource_expand_least (demo_with 24 40) iomem_resource 300 demo_root (demo_new 24 40))
    as [(_ & s & e & m' & q & l & Hr & Hwf & _ & Hin & Hu & _)|[Hbad _]];
    [by apply demo_with_wf|vm_compute; reflexivity|vm_compute; reflexivity|done|done|done| |].
  - exists s, e, m'. split; [exact Hr|]. split; [exact Hwf|]. split; [exact Hin|exact Hu].
  - exfalso. apply Hbad. unfold fits, inside. simpl. lia.
Defined.

(** ** Allocating *)

(** C35: allocate_resource, for a power of two as alignment, no alignment function, at least two
    bytes, and where neither the lower limit nor the beginning of a gap between the children
    of the root is so close to 2^32 that rounding it up wraps, gives the new descriptor the lowest
    aligned place of the size asked for, within the limits, that overlaps no child of the
    root, and makes it a child; it answers -EBUSY, with nothing changed, exactly if there is
    no such place.  (Of the cases left out, [allocate_resource_misses_byte] and
    [allocate_resource_below_minimum] show that the code then does otherwise.) *)
Theorem allocate_resource_first_fit m root new r n size min max k :
  res_wf m → m !! root = Some r → m !! new = Some n → r_parent n = 0 → r_child n = 0 → root ≠ new →
  r_start r ≤ r_end r → 0 ≤ k < 32 → 2 ≤ size < 2 ^ 32 → 0 ≤ min → 0 ≤ max < 2 ^ 32 →
  (∀ x, gap_start m root r x → x + 2 ^ k ≤ 2 ^ 32) → min + 2 ^ k ≤ 2 ^ 32 →
  (∃ s m', allocate_resource size min max (2 ^ k) None m root new = Some (m', 0) ∧ res_wf m' ∧
     view m' = <[new := g_set_parent root (g_set_range s (s + size - 1) (view1 n))]> (view m) ∧
     slot m root r size min max (2 ^ k) s ∧ ∀ s', slot m root r size min max (2 ^ k) s' → s ≤ s') ∨
  (allocate_resource size min max (2 ^ k) None m root new = Some (m, - EBUSY) ∧
   ∀ s, ¬ slot m root r size min max (2 ^ k) s).
Proof. apply allocate_resource_first. Qed.

(** Room in the whole address space, beside what the small tree holds. *)
Lemma allocate_resource_first_fit_witness :
  ∃ s m', allocate_resource 64 0 4095 (2 ^ 5) None (demo_with 0 0) iomem_resource 300 = Some (m', 0) ∧
    view m' = <[300 := g_set_parent iomem_resource (g_set_range s (s + 64 - 1) (view1 (demo_new 0 0)))]> (view (demo_with 0 0)) ∧
    slot (demo_with 0 0) iomem_resource demo_root 64 0 4095 (2 ^ 5) s.
Proof.
  destruct (allocate_resource_first_fit (demo_with 0 0) iomem_resource 300 demo_root (demo_new 0 0) 64 0 4095 5)
    as [(s & m' & Hr & _ & Hv & Hs & _)|[Hbad _]];
    [by apply demo_with_wf|vm_compute; reflexivity|vm_compute; reflexivity|done|done|done|done|done|done|done|done| |done| |vm_compute in Hbad; done].
  - intros x [->|(c & rc & Ec & Hc & ->)]; [vm_compute; discriminate|].
    assert (Hall : map_Forall (λ _ rc, r_end rc ≤ 0xffff ∨ r_parent rc ≠ iomem_resource) (demo_with 0 0)) by (apply (bool_decide_unpack _); vm_compute; exact I).
    specialize (Hall c rc Ec). simpl in Hall. destruct Hall; [lia|done].
  - exists s, m'. split; [exact Hr|]. split; [exact Hv|exact Hs].
Defined.

(** ** Busy regions *)

Lemma busy_new start n name flags : is_busy (new_region start n name flags) = true.
Proof.
  unfold is_busy, new_region. simpl r_flags. assert (Z.land (Z.lor IORESOURCE_BUSY flags) IORESOURCE_BUSY = IORESOURCE_BUSY) as ->; [|done].
  apply Z.bits_inj'. intros i Hi. rewrite Z.land_spec, Z.lor_spec. by destruct (Z.testbit IORESOURCE_BUSY i), (Z.testbit flags i).
Qed.

Section fresh.
Context (m : res_mem) (res : Z) (k : resource).
Context (H : res_wf m) (Hn : m !! res = None) (Hk : r_parent k = 0).

(** A descriptor that is not in a tree yet is in nobody's way. *)
Lemma blocks_fresh p n c : p ≠ 0 → blocks (<[res := k]> m) p n c ↔ blocks m p n c.
Proof using H Hn Hk.
  intros Hp. unfold blocks. setoid_rewrite (below_fresh m res k p c H Hn Hk Hp).
  split; intros (rc & Hb & Ec & Hrest); exists rc; (split; [done|]).
  - apply lookup_insert_Some in Ec as [[<- _]|[_ ?]]; [|done]. destruct (below_known m p res H Hp Hb) as [_ [??]]. congruence.
  - split; [|done]. rewrite lookup_insert_ne; [done|]. intros ->. congruence.
Qed.

Lemma way_fresh p n q : p ≠ 0 → way (<[res := k]> m) p n q ↔ way m p n q.
Proof using H Hn Hk.
  intros Hp. unfold way. setoid_rewrite (below_fresh m res k p q H Hn Hk Hp).
  split; (intros [->|(rq & Hb & Eq & Hrest)]; [by left|right; exists rq; split; [done|]]).
  - apply lookup_insert_Some in Eq as [[<- _]|[_ ?]]; [|done]. destruct (below_known m p res H Hp Hb) as [_ [??]]. congruence.
  - split; [|done]. rewrite lookup_insert_ne; [done|]. intros ->. congruence.
Qed.
End fresh.

(** C36: A request for a region that may not be shared is granted exactly if it lies inside of the parent
    and whatever it overlaps below the parent is not busy and holds it whole; so two busy
    regions that were claimed never overlap.  It is put under a resource that holds it and
    nothing else changes; a request that is refused leaves everything as it was. *)
Theorem request_region_exclusive m res p r start n name flags :
  res_wf m → m !! p = Some r → 0 ≤ start < 2 ^ 32 → res ≠ 0 → m !! res = None → Z.land flags IORESOURCE_MUXED = 0 →
  let k := new_region start n name flags in
  (fits r k ∧ (∀ c, ¬ blocks m p k c) ∧
     ∃ m' q, __request_region m (Some res) p start n name flags = Some (m', Granted res) ∧ res_wf m' ∧ way m p k q ∧
       view m' = <[res := g_set_parent q (view1 k)]> (view m)) ∨
  ((¬ fits r k ∨ ∃ c, blocks m p k c) ∧ __request_region m (Some res) p start n name flags = Some (m, Refused)).
Proof.
  intros H E Hs H0 Hn Hmux k. assert (Hp0 : p ≠ 0) by eauto using wf_neq0.
  assert (Hkz : kzalloc m (Some res) = Some res) by (unfold kzalloc; by rewrite decide_True).
  destruct (__request_region_spec m (Some res) p r start n name flags) as [[Hbad _]|(res' & m' & e & Hk' & -> & Hwf & Hr)]; [done..|congruence|].
  assert (res' = res) as -> by congruence. fold k in Hwf, Hr.
  assert (Hb : ∀ c, blocks (<[res := k]> m) p k c ↔ blocks m p k c) by (intros c; by apply blocks_fresh).
  destruct Hr as [m' q Hfit Hnb Hq _ Hwf' Hv|Hwhy|c rc Ec Hwhy Hmx].
  - left. split; [done|]. split; [intros c; by rewrite <- Hb|]. exists m', q. split_and!; try done.
    + by apply (way_fresh m res k).
    + by rewrite Hv, view_insert, insert_insert_eq.
  - right. assert (kfree_res (<[res := k]> m) res = m) as -> by by apply delete_insert_id. split; [|done].
    destruct Hwhy as [?|[c Hc]]; [by left|]. right. exists c. by apply Hb.
  - rewrite <- Z.land_assoc, Hmux, Z.land_0_r in Hmx. done.
Qed.

Lemma request_region_exclusive_witness :
  (∃ m' q, __request_region demo_tree (Some 300) iomem_resource 24 4 "driver" 0 = Some (m', Granted 300) ∧
     view m' = <[300 := g_set_parent q (view1 (new_region 24 4 "driver" 0))]> (view demo_tree)) ∧
  __request_region demo_tree (Some 300) iomem_resource 22 4 "driver" 0 = Some (demo_tree, Refused).
Proof.
  split.
  - destruct (request_region_exclusive demo_tree 300 iomem_resource demo_root 24 4 "driver" 0)
      as [(_ & _ & m' & q & Hr & _ & _ & Hv)|[_ Hbad]];
      [apply demo_wf|vm_compute; reflexivity|done|done|vm_compute; reflexivity|done| |vm_compute in Hbad; done].
    exists m', q. split; [exact Hr|exact Hv].
  - destruct (request_region_exclusive demo_tree 300 iomem_resource demo_root 22 4 "driver" 0)
      as [(_ & _ & m' & q & Hbad & _)|[_ Hr]];
      [apply demo_wf|vm_compute; reflexivity|done|done|vm_compute; reflexivity|done|vm_compute in Hbad; done|exact Hr].
Defined.

(** A region that was granted is found and given back from any tree of the same shape. *)
Lemma region_given_back m res p r start n name flags m1 m' :
  res_wf m → m !! p = Some r → 0 ≤ start < 2 ^ 32 → 1 ≤ n < 2 ^ 32 →
  __request_region m (Some res) p start n name flags = Some (m1, Granted res) → res_wf m' → view m' = view m1 →
  ∃ m'' wake, __release_region m' p start n = Some (m'', res, wake) ∧ res_wf m'' ∧ view m'' = view m.
Proof.
  intros H E Hs Hn Hrun Hwf' Hv1. assert (Hp0 : p ≠ 0) by eauto using wf_neq0. set (k := new_region start n name flags).
  destruct (__request_region_spec m (Some res) p r start n name flags) as [[_ Hbad]|(res' & m1' & e & Hk' & Hrun' & Hwf & Hr)]; [done..|congruence|].
  rewrite Hrun in Hrun'. injection Hrun' as <- <-. fold k in Hwf, Hr.
  assert (res' = res) as -> by (unfold kzalloc in Hk'; case_decide; congruence). apply kzalloc_loose in Hk' as [Hl Hnone].
  assert (Hpr : p ≠ res) by (intros ->; congruence).
  inversion Hr as [m1' q Hfit Hnb Hq _ _ Hv| |]; subst. rewrite <- Hv1 in Hv.
  assert (Hfin : r_end k = start + n - 1).
  { destruct Hfit as [Hle _]. simpl in *. unfold u32 in *. destruct (decide (start + n - 1 < 2 ^ 32)); [apply Z.mod_small; lia|].
    exfalso. rewrite <- (Z_mod_plus_full _ (-1)), Z.mod_small in Hle by lia. lia. }
  assert (Hfin32 : start + n - 1 < 2 ^ 32) by (rewrite <- Hfin; simpl; apply u32_range).
  assert (Ek : <[res := k]> m !! res = Some k) by apply lookup_insert_eq.
  assert (Hq' : q ≠ res).
  { destruct Hq as [->|(rq & Hb & Eq & _)]; [done|]. intros ->.
    destruct (below_attached _ p res Hwf Hp0 Hb) as (? & Er & Hp'). rewrite Ek in Er. injection Er as <-. by simpl in Hp'. }
  assert (Hfound : release_found m' start (start + n - 1) p res).
  { rewrite <- Hfin. change start with (r_start k). apply (way_found (<[res := k]> m) m' res k) with q; try done.
    - apply Hfit.
    - intros c Hc. by rewrite Hv, lookup_insert_ne.
    - rewrite Hv. apply lookup_insert_eq.
    - destruct Hq as [->|(rq & Hb & _)]; auto.
    - intros rq Hb Eq. destruct Hq as [->|(rq' & _ & Eq' & Hf & _)]; [by apply below_irrefl in Hb|]. rewrite Eq' in Eq. injection Eq as <-. apply Hf.
    - apply busy_new. }
  destruct (granted_region m res k q m') as (rx & Ex & Hrx & Hcx); [done|done|apply Hl|done..|].
  assert (Hpm' : is_Some (m' !! p)).
  { assert (Hvp : view m' !! p = Some (view1 r)) by (rewrite Hv, view_insert, !lookup_insert_ne by done; by apply view_some).
    apply view_some_inv in Hvp as (r' & E' & _). eauto. }
  destruct (__release_region_spec m' p start n) as [[_ Hno]|(x & rx' & m2 & Hx & Ex' & -> & Hok)]; [done|done|lia|lia|done|by apply Hno in Hfound|].
  pose proof (release_found_unique m' start (start + n - 1) p x res Hwf' Hpm' ltac:(lia) Hx Hfound) as ->.
  destruct Hok as [Hwf2 Hv2]; [congruence|]. do 2 eexists. split_and!; try done.
  rewrite Hv2, Hv, view_insert, insert_insert_eq. apply delete_insert_id. by rewrite view_lookup, Hnone.
Qed.

(** Releasing the region that a request was granted gives back the tree as it was before
    the request. *)
Theorem region_roundtrip m res p r start n name flags m' :
  res_wf m → m !! p = Some r → 0 ≤ start < 2 ^ 32 → 1 ≤ n < 2 ^ 32 →
  __request_region m (Some res) p start n name flags = Some (m', Granted res) →
  ∃ m'' wake, __release_region m' p start n = Some (m'', res, wake) ∧ res_wf m'' ∧ view m'' = view m.
Proof.
  intros H E Hs Hn Hrun. destruct (request_region_step m (Some res) p start n name flags) as (m1 & e & Hrun' & Hwf); [done|eauto|done|].
  rewrite Hrun in Hrun'. injection Hrun' as <- <-. by apply (region_given_back m res p r start n name flags m').
Qed.

Lemma region_roundtrip_witness :
  ∃ m' m'' wake, __request_region demo_tree (Some 300) iomem_resource 24 4 "driver" 0 = Some (m', Granted 300) ∧
    __release_region m' iomem_resource 24 4 = Some (m'', 300, wake) ∧ view m'' = view demo_tree.
Proof.
  eexists. destruct (region_roundtrip demo_tree 300 iomem_resource demo_root 24 4 "driver" 0 _ demo_wf ltac:(vm_compute; reflexivity)
    ltac:(done) ltac:(done) ltac:(vm_compute; reflexivity)) as (m'' & wake & Hr & _ & Hv).
  exists m'', wake. split; [|split; [exact Hr|exact Hv]]. vm_compute. reflexivity.
Defined.

(** ** The checks *)

(** iomem_is_exclusive answers 1 exactly for the pages of which a part belongs to a busy and
    exclusive resource anywhere below the root of memory: the walk over the tree ends, and
    leaving it at the first resource behind the page misses nothing. *)
Theorem iomem_is_exclusive_correct m root addr :
  res_wf m → m !! iomem_resource = Some root → r_parent root = 0 → r_sibling root = 0 → 0 ≤ addr < 2 ^ 32 →
  ∃ v, iomem_is_exclusive true m addr = Some v ∧
    (v = 1 ∧ exclusive_page m (addr / 4096 * 4096) ∨ v = 0 ∧ ¬ exclusive_page m (addr / 4096 * 4096)).
Proof. intros H E Hp Hs. by apply (iomem_is_exclusive_spec m H root). Qed.

Lemma iomem_is_exclusive_correct_witness :
  ∃ v, iomem_is_exclusive true demo_tree 17 = Some v ∧
    (v = 1 ∧ exclusive_page demo_tree (17 / 4096 * 4096) ∨ v = 0 ∧ ¬ exclusive_page demo_tree (17 / 4096 * 4096)).
Proof. apply (iomem_is_exclusive_correct demo_tree demo_root 17); [apply demo_wf|vm_compute; reflexivity|done|done|done]. Defined.

(** reserve_region_with_split, for a range inside of the root and with enough memory: all
    that was there stays, only busy children of the root inside of the range are added,
    and afterwards every address of the range belongs to a child of the root. *)
Theorem reserve_region_covers m root r start fin name answers :
  res_wf m → m !! root = Some r → r_start r ≤ start ≤ fin → fin ≤ r_end r →
  good_answers m answers → (2 * size (hits root (view m) start fin) + 1 ≤ length answers)%nat →
  ∃ m', reserve_region_with_split m root start fin name answers = Some m' ∧ res_wf m' ∧
    added root name (view m) (view m') start fin ∧ covered root (view m') start fin.
Proof.
  intros H E Hs He Hg Hlen. destruct (reserve_region_with_split_spec m root r start fin name answers) as (m' & a' & -> & Hwf & Ha & Hc); [done..|].
  exists m'. split_and!; try done. apply Hc; [done|]. unfold split_cost. rewrite decide_True by lia. done.
Qed.

(** ** Flaws *)

(** A task that waits for a shared region keeps a pointer to it as the place to try again.
    Woken up by the release of another region it is granted the one it waited for inside of
    the one of the owner: both have it. *)
Theorem muxed_region_shared :
  ∃ m1 m2 m3 m4 m5,
    __request_region resource_boot (Some 100) ioport_resource 0x70 2 "first" IORESOURCE_MUXED = Some (m1, Granted 100) ∧
    __request_region m1 (Some 200) ioport_resource 0x80 2 "other" IORESOURCE_MUXED = Some (m2, Granted 200) ∧
    __request_region m2 (Some 300) ioport_resource 0x70 2 "second" IORESOURCE_MUXED = Some (m3, Asleep 100 300) ∧
    __release_region m3 ioport_resource 0x80 2 = Some (m4, 200, true) ∧
    request_region_wake m4 100 300 IORESOURCE_MUXED = Some (m5, Granted 300) ∧ is_Some (m5 !! 100).
Proof. do 5 eexists. do 5 (split; [vm_compute; reflexivity|]). vm_compute. eauto. Qed.

(** Woken up by the release of the region it waited for, it follows a pointer to freed
    memory. *)
Theorem muxed_region_dangling :
  ∃ m1 m2 m3,
    __request_region resource_boot (Some 100) ioport_resource 0x70 2 "first" IORESOURCE_MUXED = Some (m1, Granted 100) ∧
    __request_region m1 (Some 300) ioport_resource 0x70 2 "second" IORESOURCE_MUXED = Some (m2, Asleep 100 300) ∧
    __release_region m2 ioport_resource 0x70 2 = Some (m3, 100, true) ∧
    request_region_wake m3 100 300 IORESOURCE_MUXED = None.
Proof. do 3 eexists. do 3 (split; [vm_compute; reflexivity|]). vm_compute. reflexivity. Qed.

(** With a range that begins before the root, __reserve_region_with_split calls itself with
    the same range without end: no depth of the stack is enough while there is memory. *)
Theorem reserve_region_diverges m root r start fin name a :
  m !! root = Some r → root ≠ 0 → start < r_start r < 2 ^ 32 → 0 ≤ start → a ≠ 0 → m !! a = None →
  ∀ fuel, reserve_split fuel m root start fin name (replicate fuel (Some a)) = None.
Proof.
  intros E Hr0 Hs H0 Ha Hn fuel. revert fin. induction fuel as [|fuel IH]; intros fin; [done|].
  cbn [reserve_split]. change (tail (replicate (S fuel) (Some a))) with (replicate fuel (Some a)).
  change (kzalloc m (default None (head (replicate (S fuel) (Some a))))) with (kzalloc m (Some a)).
  assert (kzalloc m (Some a) = Some a) as -> by (unfold kzalloc; by rewrite decide_True).
  assert (Hreq : __request_resource (<[a := mk_res start fin (Some name) IORESOURCE_BUSY 0 0 0]> m) root a =
    Some (<[a := mk_res start fin (Some name) IORESOURCE_BUSY 0 0 0]> m, root)).
  { unfold __request_resource. rewrite lookup_insert_eq. run. simpl. destruct (fin <? start); [done|].
    rewrite lookup_insert_ne, E by congruence. run. by rewrite (proj2 (Z.ltb_lt start (r_start r))) by lia. }
  rewrite Hreq. run. rewrite (proj2 (Z.eqb_neq root 0)) by done.
  unfold kfree_res. rewrite delete_insert_id by done. rewrite E. run.
  rewrite (proj2 (Z.leb_gt (r_start r) start)) by lia. cbn [andb]. rewrite Z.gtb_ltb, (proj2 (Z.ltb_lt start (r_start r))) by lia.
  by rewrite IH.
Qed.

(** Rounding up may wrap to 0: a request for memory from 2 GiB on is given address 0. *)
Theorem allocate_resource_below_minimum :
  ∃ m m' r, res_run resource_boot [OpDescriptor 100 0x80000000 0xffff0000 None 0; OpRequest iomem_resource 100;
                                  OpDescriptor 200 0 0 None 0] = Some m ∧
    allocate_resource 16 0x80000000 0xffffffff 0x100000 None m iomem_resource 200 = Some (m', 0) ∧
    m' !! 200 = Some r ∧ r_start r = 0.
Proof. do 3 eexists. do 3 (split; [vm_compute; reflexivity|]). reflexivity. Qed.

(** A free place of one byte is not found. *)
Theorem allocate_resource_misses_byte :
  ∃ m, res_run resource_boot [OpDescriptor 100 5 5 None 0; OpDescriptor 200 0 0 None 0] = Some m ∧
    allocate_resource 1 0 100 1 None m 100 200 = Some (m, - EBUSY).
Proof. eexists. split; [vm_compute; reflexivity|]. vm_compute. reflexivity. Qed.

(** adjust_resource takes a size that wraps, and leaves a resource that ends before it starts. *)
Theorem adjust_resource_wraps :
  ∃ m m' r, res_run resource_boot [OpDescriptor 100 16 31 None 0; OpRequest iomem_resource 100] = Some m ∧
    adjust_resource m 100 0xfffffff0 32 = Some (m', 0) ∧ m' !! 100 = Some r ∧ r_end r < r_start r.
Proof. do 3 eexists. do 3 (split; [vm_compute; reflexivity|]). done. Qed.

(** A first piece of system memory without a full page ends the walk: the memory behind it is
    not visited. *)
Theorem walk_system_ram_stops :
  ∃ m, res_run resource_boot
      [OpDescriptor 100 0x1000 0x17ff (Some "System RAM"%string) ram_flags; OpRequest iomem_resource 100;
       OpDescriptor 200 0x2000 0x3fff (Some "System RAM"%string) ram_flags; OpRequest iomem_resource 200] = Some m ∧
    walk_system_ram_range (λ pfn n seen, (seen ++ [(pfn, n)], 0)) m 1 8 [] = Some ([], -1) ∧
    walk_system_ram_range (λ pfn n seen, (seen ++ [(pfn, n)], 0)) m 2 8 [] = Some ([(2, 2)], 0).
Proof. eexists. split; [vm_compute; reflexivity|]. split; [vm_compute; reflexivity|]. vm_compute. reflexivity. Qed.
