(* ===== verification/ResourceSetup.v ===== *)
(** The boot parameters of the resource tree (kernel/resource.c: reserve_setup and
    strict_iomem; lib/cmdline.c: get_option).  "reserve=" takes up to four ranges of ports
    or memory out of use; "iomem=" turns the check for exclusive pages on and off.

    A parameter is a string without the final NUL.  The four descriptors are static; their
    number in use is kept between parameters. *)

From stdpp Require Import strings.
From S2P Require Import Prelude KString Resource ResourceInv ResourceOps ResourceTree.

(** ** The code *)

Definition simple_strtoul (cp : list Z) (base : Z) : Z * list Z :=
  let '(v, endp) := simple_strtoull cp base in (u32 v, endp).

Definition simple_strtol (cp : list Z) (base : Z) : Z * list Z :=
  if chr cp =? 45 then let '(v, endp) := simple_strtoul (tail cp) base in (s32 (u32 (- v)), endp)
  else let '(v, endp) := simple_strtoul cp base in (s32 v, endp).

(** The answer, the number ([None] if it was not written) and the rest of the string.  The
    pointers are equal when nothing was read. *)
Definition get_option (str : list Z) : Z * option Z * list Z :=
  match str with
  | [] => (0, None, str)
  | _ =>
      let '(v, endp) := simple_strtol str 0 in
      if (length endp =? length str)%nat then (0, Some v, endp)
      else if chr endp =? 44 then (2, Some v, tail endp)
      else if chr endp =? 45 then (3, Some v, endp)
      else (1, Some v, endp)
  end.

Definition MAXRESERVE : Z := 4.
(** [reserve + x], at fixed addresses. *)
Definition reserve_slot (x : Z) : Z := 12 + 4 * x.

(** [res->name = "reserved"; ... res->child = NULL;] *)
Definition w_reserved (s e : Z) (r : resource) : resource :=
  mk_res s e (Some "reserved") IORESOURCE_BUSY (r_parent r) (r_sibling r) 0.

(** The loop of reserve_setup; the result is the tree and [reserved]. *)
Fixpoint reserve_loop (fuel : nat) (m : res_mem) (reserved : Z) (str : list Z) : option (res_mem * Z) :=
  match fuel with
  | O => None
  | S fuel =>
      let x := reserved in
      let '(got, v, str) := get_option str in
      if negb (got =? 2) then Some (m, reserved)
      else
        io_start ← v;
        let '(got, v, str) := get_option str in
        if got =? 0 then Some (m, reserved)
        else
          io_num ← v;
          if x <? MAXRESERVE then
            let res := reserve_slot x in
            let start := u32 io_start in
            m ← res_upd m res (w_reserved start (u32 (start + u32 io_num - 1)));
            '(m, err) ← request_resource m (if start >=? 0x10000 then iomem_resource else ioport_resource) res;
            reserve_loop fuel m (if err =? 0 then x + 1 else reserved) str
          else reserve_loop fuel m reserved str
  end.

Definition reserve_setup (m : res_mem) (reserved : Z) (str : list Z) : option (res_mem * Z) :=
  reserve_loop (S (length str)) m reserved str.

(** strstr(s1, s2) != NULL, for [s2] that is not empty. *)
Fixpoint strstr (s1 s2 : list Z) : bool :=
  (length s2 <=? length s1)%nat &&
  (bool_decide (take (length s2) s1 = s2) || match s1 with [] => false | _ :: s1 => strstr s1 s2 end).

Definition codes (s : string) : list Z := (λ c, Z.of_N (Ascii.N_of_ascii c)) <$> String.list_ascii_of_string s.

Definition strict_iomem (strict_iomem_checks : bool) (str : list Z) : bool :=
  let checks := if strstr str (codes "relaxed") then false else strict_iomem_checks in
  if strstr str (codes "strict") then true else checks.

(** ** Parsing ends *)

Lemma strtoull_loop_shorter base acc cp : (length (strtoull_loop base acc cp).2 ≤ length cp)%nat.
Proof.
  revert acc. induction cp as [|c cp IH]; intros acc; simpl; [lia|]. destruct (isxdigit c); [|simpl; lia].
  destruct (_ >=? base); [simpl; lia|]. specialize (IH (u64 (acc * base + (if isdigit c then c - 48 else TOLOWER c - 97 + 10)))). lia.
Qed.

Lemma strtoul_shorter cp base : (length (simple_strtoul cp base).2 ≤ length cp)%nat.
Proof.
  unfold simple_strtoul, simple_strtoull. set (b := if base =? 0 then _ else _). destruct (_ && _).
  - pose proof (strtoull_loop_shorter b 0 (drop 2 cp)) as H. destruct (strtoull_loop b 0 (drop 2 cp)). rewrite length_drop in H. simpl in *. lia.
  - pose proof (strtoull_loop_shorter b 0 cp) as H. by destruct (strtoull_loop b 0 cp).
Qed.

Lemma strtol_spec cp base : (length (simple_strtol cp base).2 ≤ length cp)%nat.
Proof.
  unfold simple_strtol. destruct (chr cp =? 45).
  - pose proof (strtoul_shorter (tail cp) base) as H. destruct (simple_strtoul (tail cp) base). simpl in *. destruct cp; simpl in *; lia.
  - pose proof (strtoul_shorter cp base) as H. by destruct (simple_strtoul cp base).
Qed.

Lemma get_option_spec str got v rest :
  get_option str = (got, v, rest) →
  (length rest ≤ length str)%nat ∧ (got ≠ 0 → is_Some v) ∧ (got = 2 → (length rest < length str)%nat).
Proof.
  unfold get_option. destruct str as [|c str]; [intros [= <- <- <-]; split_and!; [lia|done|done]|].
  pose proof (strtol_spec (c :: str) 0) as Hs. destruct (simple_strtol (c :: str) 0) as [w endp]. simpl snd in Hs.
  destruct (Nat.eqb_spec (length endp) (length (c :: str))) as [Hl|Hl]; [intros [= <- <- <-]; split_and!; done|].
  destruct (chr endp =? 44); [|destruct (chr endp =? 45)]; intros [= <- <- <-]; split_and!; eauto; try done; destruct endp; simpl in *; lia.
Qed.

(** ** The parameter keeps the tree *)

(** A request for one descriptor leaves the others that are in no tree alone. *)
Lemma request_others m m' root new n x :
  res_wf m → res_wf m' → view m' = <[new := g_set_parent root (view1 n)]> (view m) → x ≠ new → x ≠ root →
  detached m x → detached m' x.
Proof.
  intros H H' Hv Hx Hr Hd. pose proof (detached_loose m x H Hd) as Hl. destruct Hd as (rx & Ex & Hp & Hc).
  assert (Hvx : view m' !! x = Some (view1 rx)) by (rewrite Hv, lookup_insert_ne by done; by apply view_some).
  apply view_some_inv in Hvx as (r' & E' & Hr'). exists r'. split; [done|]. injection Hr' as _ _ _ _ Hp'. split; [congruence|].
  apply (childless m' x r' H' E'). intros c g. rewrite Hv, lookup_insert_Some. intros [[<- <-]|[_ Eg]]; [done|].
  apply view_some_inv in Eg as (rc & Ec & <-). by apply (loose_no_child m x c rc H).
Qed.

(** The roots are there, the descriptors below [x] are busy children of them, and those
    from [x] on are in no tree. *)
Definition in_use (m : res_mem) (y : Z) : Prop :=
  ∃ g, view m !! reserve_slot y = Some g ∧ (g_parent g = ioport_resource ∨ g_parent g = iomem_resource) ∧ g_flags g = IORESOURCE_BUSY.

Record reserve_ok (m : res_mem) (x : Z) : Prop := {
  ro_wf : res_wf m;
  ro_ioport : is_Some (m !! ioport_resource);
  ro_iomem : is_Some (m !! iomem_resource);
  ro_range : 0 ≤ x ≤ MAXRESERVE;
  ro_used : ∀ y, 0 ≤ y < x → in_use m y;
  ro_free : ∀ y, x ≤ y < MAXRESERVE → detached m (reserve_slot y) }.

Lemma known_view m m' q : (∀ g, view m !! q = Some g → view m' !! q = Some g) → is_Some (m !! q) → is_Some (m' !! q).
Proof. intros Hv [r E]. apply view_some in E. apply Hv, view_some_inv in E as (r' & E' & _). eauto. Qed.

Lemma slot_neq x y : y ≠ x → reserve_slot y ≠ reserve_slot x.
Proof. unfold reserve_slot. lia. Qed.

Lemma slot_not_root x : 0 ≤ x → reserve_slot x ≠ ioport_resource ∧ reserve_slot x ≠ iomem_resource.
Proof. unfold reserve_slot, ioport_resource, iomem_resource. lia. Qed.

(** Filling in the next descriptor. *)
Lemma reserve_fill m x s e r :
  reserve_ok m x → x < MAXRESERVE → 0 ≤ s < 2 ^ 32 → 0 ≤ e < 2 ^ 32 → m !! reserve_slot x = Some r →
  reserve_ok (<[reserve_slot x := w_reserved s e r]> m) x.
Proof.
  intros [H Hio Hmem Hx Hused Hfree] Hlt Hs He E. destruct (Hfree x) as (r' & E' & Hp & Hc); [lia|]. simplify_eq.
  destruct (slot_not_root x) as [? ?]; [lia|]. split; try done.
  - apply wf_put; try done. apply detached_loose; [done|]. by exists r.
  - by rewrite lookup_insert_ne.
  - by rewrite lookup_insert_ne.
  - intros y Hy. destruct (Hused y Hy) as (g & Eg & ?). exists g. rewrite view_insert, lookup_insert_ne; [done|]. apply slot_neq. lia.
  - intros y Hy. destruct (decide (y = x)) as [->|Hne]; [eexists; by rewrite lookup_insert_eq|].
    destruct (Hfree y Hy) as (ry & ? & ?). exists ry. by rewrite lookup_insert_ne by (apply slot_neq; lia).
Qed.

(** It becomes a child of a root. *)
Lemma reserve_taken m m' x n root :
  reserve_ok m x → x < MAXRESERVE → root = ioport_resource ∨ root = iomem_resource → r_flags n = IORESOURCE_BUSY → res_wf m' →
  view m' = <[reserve_slot x := g_set_parent root (view1 n)]> (view m) → reserve_ok m' (x + 1).
Proof.
  intros [H Hio Hmem Hx Hused Hfree] Hlt Hroot Hb H' Hv. destruct (slot_not_root x) as [? ?]; [lia|].
  assert (Hold : ∀ q g, q ≠ reserve_slot x → view m !! q = Some g → view m' !! q = Some g) by (intros q g Hq Eg; by rewrite Hv, lookup_insert_ne).
  split; [done| | |lia| |].
  - apply (known_view m); [|done]. intros g. by apply Hold.
  - apply (known_view m); [|done]. intros g. by apply Hold.
  - intros y Hy. destruct (decide (y = x)) as [->|Hyx].
    + exists (g_set_parent root (view1 n)). rewrite Hv, lookup_insert_eq. split_and!; [done|by destruct Hroot as [-> | ->]; [left|right]|done].
    + destruct (Hused y) as (g & Eg & ?); [lia|]. exists g. split; [|done]. apply Hold; [by apply slot_neq|done].
  - intros y Hy. destruct (slot_not_root y) as [? ?]; [lia|].
    apply (request_others m m' root (reserve_slot x) n); try done; [apply slot_neq; lia|by destruct Hroot as [-> | ->]|apply Hfree; lia].
Qed.

Lemma reserve_step m x s e root :
  reserve_ok m x → x < MAXRESERVE → 0 ≤ s < 2 ^ 32 → 0 ≤ e < 2 ^ 32 → root = ioport_resource ∨ root = iomem_resource →
  ∃ m1 m' err, res_upd m (reserve_slot x) (w_reserved s e) = Some m1 ∧
    request_resource m1 root (reserve_slot x) = Some (m', err) ∧ reserve_ok m' (if err =? 0 then x + 1 else x).
Proof.
  intros H Hlt Hs He Hroot. pose proof (ro_range _ _ H). destruct (ro_free _ _ H x) as (r & E & Hp & Hc); [lia|].
  unfold res_upd. rewrite E. run. set (n := w_reserved s e r). set (m1 := <[reserve_slot x := n]> m).
  assert (H1 : reserve_ok m1 x) by by apply reserve_fill.
  unfold request_resource, request_resource_conflict.
  assert (is_Some (m1 !! root)) as [rr Er] by (destruct Hroot as [-> | ->]; apply H1).
  assert (En : m1 !! reserve_slot x = Some n) by apply lookup_insert_eq.
  assert (Hne : root ≠ reserve_slot x) by (destruct (slot_not_root x) as [? ?]; [lia|destruct Hroot as [-> | ->]; congruence]).
  destruct (__request_resource_spec m1 root (reserve_slot x) rr n (ro_wf _ _ H1)) as (m' & c & Hreq & Hr); [done..|].
  exists m1, m', (if ctrue c then - EBUSY else 0). split; [done|]. rewrite Hreq. split; [done|].
  assert (Hfail : c ≠ 0 → reserve_ok m1 x → reserve_ok m1 (if (if ctrue c then - EBUSY else 0) =? 0 then x + 1 else x)).
  { intros Hc0. unfold ctrue. by rewrite (proj2 (Z.eqb_neq c 0)). }
  destruct Hr as [m' _ _ H' Hv|_|c rc _ Ec _ _ _].
  - by apply (reserve_taken m1 m' x n root).
  - apply Hfail; [by destruct Hroot as [-> | ->]|done].
  - apply Hfail; [|done]. intros ->. by rewrite (wf_null _ (ro_wf _ _ H1)) in Ec.
Qed.

Lemma reserve_loop_spec fuel m x str :
  reserve_ok m x → (length str < fuel)%nat → ∃ m' x', reserve_loop fuel m x str = Some (m', x') ∧ x ≤ x' ∧ reserve_ok m' x'.
Proof.
  revert m x str. induction fuel as [|fuel IH]; intros m x str H Hf; [lia|]. cbn [reserve_loop].
  destruct (get_option str) as [[got v] str1] eqn:E1. apply get_option_spec in E1 as (Hl1 & Hv1 & Hd1).
  destruct (Z.eqb_spec got 2) as [->|]; simpl negb; cbv iota; [|exists m, x; split; [done|]; split; [lia|done]].
  destruct (Hv1 ltac:(done)) as [io_start ->]. run.
  destruct (get_option str1) as [[got v] str2] eqn:E2. apply get_option_spec in E2 as (Hl2 & Hv2 & _).
  destruct (Z.eqb_spec got 0) as [->|Hg]; [exists m, x; split; [done|]; split; [lia|done]|].
  destruct (Hv2 Hg) as [io_num ->]. run. specialize (Hd1 eq_refl).
  destruct (Z.ltb_spec x MAXRESERVE) as [Hx|Hx]; [|apply IH; [done|lia]].
  destruct (reserve_step m x (u32 io_start) (u32 (u32 io_start + u32 io_num - 1)) (if u32 io_start >=? 65536 then iomem_resource else ioport_resource))
    as (m1 & m' & err & -> & Hreq & H'); [done|done|apply u32_range|apply u32_range|destruct (_ >=? _); auto|].
  run. rewrite Hreq. run. destruct (IH m' (if err =? 0 then x + 1 else x) str2 H') as (m2 & x2 & Hr & Hle & H2); [lia|].
  exists m2, x2. split; [done|]. split; [|done]. destruct (err =? 0); lia.
Qed.

(** At boot: the two roots, and four descriptors that are not in use. *)
Definition reserve_boot : res_mem :=
  foldr (λ x m, <[reserve_slot x := mk_res 0 0 None 0 0 0 0]> m) resource_boot [0; 1; 2; 3].

Lemma reserve_boot_ok : reserve_ok reserve_boot 0.
Proof.
  split; [|vm_compute; eauto..|done|lia|].
  - unfold reserve_boot. simpl. do 4 (apply wf_put; [|split; [done|left; done]|done..]). apply wf_boot.
  - intros y Hy. unfold MAXRESERVE in Hy. assert (y = 0 ∨ y = 1 ∨ y = 2 ∨ y = 3) as [->|[->|[->| ->]]] by lia;
      (eexists; split; [vm_compute; reflexivity|done]).
Qed.

(** However often the parameter is given and whatever it says, parsing ends without a fault, the
    tree stays a tree, and the ranges taken so far, four at most, are busy children of the roots. *)
Theorem reserve_setup_safe (params : list (list Z)) :
  ∃ m x, foldl (λ st str, '(m, x) ← st; reserve_setup m x str) (Some (reserve_boot, 0)) params = Some (m, x) ∧ reserve_ok m x.
Proof.
  assert (Hgo : ∀ m x, reserve_ok m x → ∃ m' x', foldl (λ st str, '(m, x) ← st; reserve_setup m x str) (Some (m, x)) params = Some (m', x') ∧ reserve_ok m' x').
  { induction params as [|str params IH]; intros m x H; simpl; [eauto|].
    destruct (reserve_loop_spec (S (length str)) m x str H) as (m' & x' & Hr & _ & H'); [lia|].
    change (reserve_setup m x str) with (reserve_loop (S (length str)) m x str). rewrite Hr. by apply IH. }
  apply Hgo, reserve_boot_ok.
Qed.

(** "reserve=0x100,16,0x20000,0x1000": a range of ports and one of memory. *)
Example reserve_setup_demo :
  ∃ m, reserve_setup reserve_boot 0 (codes "0x100,16,0x20000,0x1000") = Some (m, 2) ∧
    r_start <$> m !! reserve_slot 0 = Some 256 ∧ r_end <$> m !! reserve_slot 0 = Some 271 ∧
    r_parent <$> m !! reserve_slot 1 = Some iomem_resource ∧ r_end <$> m !! reserve_slot 1 = Some 0x20fff.
Proof. eexists. split; [vm_compute; reflexivity|]. vm_compute. done. Qed.

Example strict_iomem_demo : strict_iomem true (codes "relaxed") = false ∧ strict_iomem false (codes "strict") = true.
Proof. vm_compute. done. Qed.
