(* ===== verification/Devres.v ===== *)
(** Managed resources of a device (drivers/base/devres.c): what a driver has
    registered with a device is released, in reverse order, when the driver is
    detached; groups mark a part of it that can be released on its own.

    A devres and a group are blocks of memory, named by their address; a group has
    two list nodes, the markers of its opening and of its closing.  The list of the
    device is a list of nodes.  A pointer to the data of a devres is its address
    plus the size of the header, as in C.  A release function changes the rest of
    the system, a type [W] that the users of this file choose, and not the list of
    the device.  [None] is a BUG_ON or a pointer that leads nowhere.

    This file holds the code; DevresInv.v the theorems. *)

From S2P Require Import Prelude.

Definition ENOENT : Z := 2.

(** ** Nodes, devres and groups *)

(** A list node: that of the devres at an address, or one of the two of a group. *)
Inductive devres_node := NodeDr (a : Z) | NodeOpen (g : Z) | NodeClose (g : Z).

#[global] Instance devres_node_eq_dec : EqDecision devres_node.
Proof. solve_decision. Defined.

(** Functions are compared by address; those of groups are private to the file. *)
Inductive dr_release_t := group_open_release | group_close_release | Release (f : Z).

#[global] Instance dr_release_t_eq_dec : EqDecision dr_release_t.
Proof. solve_decision. Defined.

Record devres_group := mk_grp { grp_id : Z; grp_color : Z }.
Definition grp_set_color (c : Z) (g : devres_group) : devres_group := mk_grp (grp_id g) c.

(** [sizeof(struct devres)], which is the offset of the data. *)
Definition DEVRES_DATA : Z := 16.
Definition dr_data_ptr (dr : Z) : Z := u32 (dr + DEVRES_DATA).
Definition dr_container (res : Z) : Z := u32 (res - DEVRES_DATA).

Section devres.
Context {D : Type} (zero : D).

Record devres := mk_dr { dr_release : dr_release_t; dr_data : D }.

(** A device: the list (None before device_initialize), and the memory of all its
    devres and groups, those that are not on the list included. *)
Record device := mk_dev {
  devres_head : option (list devres_node);
  dv_drs : gmap Z devres;
  dv_grps : gmap Z devres_group }.

Definition set_dr_head (l : list devres_node) (s : device) : device := mk_dev (Some l) (dv_drs s) (dv_grps s).
Definition set_drs (m : gmap Z devres) (s : device) : device := mk_dev (devres_head s) m (dv_grps s).
Definition set_grps (m : gmap Z devres_group) (s : device) : device := mk_dev (devres_head s) (dv_drs s) m.

(** [!list_empty(&node->entry)]. *)
Definition on_list (s : device) (node : devres_node) : bool :=
  match devres_head s with Some l => bool_decide (node ∈ l) | None => false end.

(** kmalloc: an answer that is not a free block is a failure. *)
Definition kmalloc_dr (s : device) (answer : option Z) : option Z :=
  match answer with
  | Some a => if decide (0 < a ∧ a + DEVRES_DATA < 2 ^ 32 ∧ dv_drs s !! a = None ∧ dv_grps s !! a = None)
              then Some a else None
  | None => None
  end.

(** The group of a node, and [None] for the node of a devres. *)
Definition node_to_group (node : devres_node) : option Z :=
  match node with NodeOpen g | NodeClose g => Some g | NodeDr _ => None end.

(** [INIT_LIST_HEAD(&dev->devres_head)] of device_initialize. *)
Definition device_initialize : device := mk_dev (Some []) ∅ ∅.

(** ** Single resources *)

(** The address of the devres, or 0. *)
Definition alloc_dr (s : device) (answer : option Z) (release : dr_release_t) : device * Z :=
  match kmalloc_dr s answer with
  | None => (s, 0)
  | Some dr => (set_drs (<[dr := mk_dr release zero]> (dv_drs s)) s, dr)
  end.

Definition add_dr (s : device) (node : devres_node) : option device :=
  if on_list s node then None
  else
    l ← devres_head s;
    Some (set_dr_head (l ++ [node]) s).

Definition devres_alloc (s : device) (answer : option Z) (release : dr_release_t) : device * Z :=
  let '(s, dr) := alloc_dr s answer release in
  if dr =? 0 then (s, 0) else (s, dr_data_ptr dr).

Definition devres_free (s : device) (res : Z) : option device :=
  if res =? 0 then Some s
  else
    let dr := dr_container res in
    _ ← dv_drs s !! dr;
    if on_list s (NodeDr dr) then None
    else Some (set_drs (delete dr (dv_drs s)) s).

Definition devres_add (s : device) (res : Z) : option device :=
  let dr := dr_container res in
  _ ← dv_drs s !! dr;
  add_dr s (NodeDr dr).

(** The function of a node. *)
Definition node_release (s : device) (node : devres_node) : option dr_release_t :=
  match node with
  | NodeDr a => d ← dv_drs s !! a; Some (dr_release d)
  | NodeOpen _ => Some group_open_release
  | NodeClose _ => Some group_close_release
  end.

(** [match(dev, dr->data, match_data)], a function of the pointer and of what it
    points to. *)
Definition dr_match_t := Z → D → bool.

Fixpoint find_dr_loop (s : device) (release : dr_release_t) (mat : option dr_match_t) (nodes : list devres_node)
    : option Z :=
  match nodes with
  | [] => Some 0
  | node :: nodes =>
      r ← node_release s node;
      if decide (r ≠ release) then find_dr_loop s release mat nodes
      else
        match node with
        | NodeDr dr =>
            d ← dv_drs s !! dr;
            match mat with
            | Some f => if negb (f (dr_data_ptr dr) (dr_data d)) then find_dr_loop s release mat nodes else Some dr
            | None => Some dr
            end
        | _ => None
        end
  end.

(** From the end of the list; the address of the devres, or 0. *)
Definition find_dr (s : device) (release : dr_release_t) (mat : option dr_match_t) : option Z :=
  l ← devres_head s;
  find_dr_loop s release mat (reverse l).

Definition devres_find (s : device) (release : dr_release_t) (mat : option dr_match_t) : option Z :=
  dr ← find_dr s release mat;
  Some (if ctrue dr then dr_data_ptr dr else 0).

(** With the list of the device: the pointer to the data.  When one is found,
    [devres_free(new_dr)] gets the address of the devres, not of its data. *)
Definition devres_get (s : device) (new_res : Z) (mat : option dr_match_t) : option (device * Z) :=
  let new_dr := dr_container new_res in
  d ← dv_drs s !! new_dr;
  dr ← find_dr s (dr_release d) mat;
  '(s, dr, new_dr) ← (if dr =? 0 then
                        s ← add_dr s (NodeDr new_dr);
                        Some (s, new_dr, 0)
                      else Some (s, dr, new_dr));
  s ← devres_free s new_dr;
  Some (s, dr_data_ptr dr).

(** [dr_list_del_init(entry)]. *)
Definition dr_list_del (node : devres_node) (l : list devres_node) : list devres_node := filter (λ x, x ≠ node) l.

Definition devres_remove (s : device) (release : dr_release_t) (mat : option dr_match_t) : option (device * Z) :=
  dr ← find_dr s release mat;
  if ctrue dr then
    l ← devres_head s;
    Some (set_dr_head (dr_list_del (NodeDr dr) l) s, dr_data_ptr dr)
  else Some (s, 0).

Definition devres_destroy (s : device) (release : dr_release_t) (mat : option dr_match_t) : option (device * Z) :=
  '(s, res) ← devres_remove s release mat;
  if res =? 0 then Some (s, - ENOENT)
  else
    s ← devres_free s res;
    Some (s, 0).

(** ** Releasing a part of the list *)

(** [cur->next], where the list head is [None]. *)
Fixpoint dr_list_next (l : list devres_node) (x : devres_node) : option (option devres_node) :=
  match l with
  | [] => None
  | y :: l => if decide (x = y) then Some (head l) else dr_list_next l x
  end.

(** What remove_nodes changes: the list of the device, its own list, the colours. *)
Record sweep := mk_sweep { sw_head : list devres_node; sw_todo : list devres_node; sw_grps : gmap Z devres_group }.

(** [list_move_tail(&node->entry, todo)]. *)
Definition move_todo (node : devres_node) (w : sweep) : sweep :=
  mk_sweep (dr_list_del node (sw_head w)) (dr_list_del node (sw_todo w) ++ [node]) (sw_grps w).
Definition sw_empty (w : sweep) (node : devres_node) : bool := bool_decide (node ∉ sw_head w ++ sw_todo w).
Definition sw_color (g : Z) (f : devres_group → devres_group) (w : sweep) : option sweep :=
  x ← sw_grps w !! g;
  Some (mk_sweep (sw_head w) (sw_todo w) (<[g := f x]> (sw_grps w))).

(** The first pass. *)
Fixpoint collect_loop (fuel : nat) (w : sweep) (first cur fin : option devres_node) (cnt nr_groups : Z)
    : option (sweep * option devres_node * Z * Z) :=
  match fuel with
  | O => None
  | S fuel =>
      if decide (cur = fin) then Some (w, first, cnt, nr_groups)
      else
        node ← cur;
        next ← dr_list_next (sw_head w) node;
        match node_to_group node with
        | Some g =>
            w ← sw_color g (grp_set_color 0) w;
            collect_loop fuel w first next fin cnt (nr_groups + 1)
        | None =>
            let first := if decide (first = Some node) then next else first in
            collect_loop fuel (move_todo node w) first next fin (cnt + 1) nr_groups
        end
  end.

(** One turn of the second pass. *)
Definition color_node (w : sweep) (node : devres_node) : option sweep :=
  g ← node_to_group node;
  if sw_empty w (NodeOpen g) then None
  else
    w ← sw_color g (λ x, grp_set_color (grp_color x + 1) x) w;
    w ← (if sw_empty w (NodeClose g) then sw_color g (λ x, grp_set_color (grp_color x + 1) x) w else Some w);
    x ← sw_grps w !! g;
    if (grp_color x <=? 0) || (grp_color x >? 2) then None
    else if grp_color x =? 2 then
      let w := move_todo (NodeOpen g) w in
      Some (mk_sweep (dr_list_del (NodeClose g) (sw_head w)) (dr_list_del (NodeClose g) (sw_todo w)) (sw_grps w))
    else Some w.

(** The second pass. *)
Fixpoint color_loop (fuel : nat) (w : sweep) (cur fin : option devres_node) : option sweep :=
  match fuel with
  | O => None
  | S fuel =>
      if decide (cur = fin) then Some w
      else
        node ← cur;
        next ← dr_list_next (sw_head w) node;
        w ← color_node w node;
        color_loop fuel w next fin
  end.

Definition remove_nodes (s : device) (first fin : option devres_node) : option (sweep * Z) :=
  l ← devres_head s;
  let fuel := S (length l) in
  '(w, first, cnt, nr_groups) ← collect_loop fuel (mk_sweep l [] (dv_grps s)) first first fin 0 0;
  if nr_groups =? 0 then Some (w, cnt)
  else
    w ← color_loop fuel w first fin;
    Some (w, cnt).

Section release.
Context {W : Type} (release_fn : Z → D → W → option W).

(** [dr->node.release(dev, dr->data); kfree(dr);]  The node of a group that is
    released is its first one, so that the group itself is freed. *)
Definition release_one (sw : device * W) (node : devres_node) : option (device * W) :=
  let '(s, w) := sw in
  match node with
  | NodeDr dr =>
      d ← dv_drs s !! dr;
      match dr_release d with
      | Release f => w ← release_fn f (dr_data d) w; Some (set_drs (delete dr (dv_drs s)) s, w)
      | _ => None
      end
  | NodeOpen g => _ ← dv_grps s !! g; Some (set_grps (delete g (dv_grps s)) s, w)
  | NodeClose _ => None
  end.

Fixpoint release_todo (sw : device * W) (nodes : list devres_node) : option (device * W) :=
  match nodes with
  | [] => Some sw
  | node :: nodes => sw ← release_one sw node; release_todo sw nodes
  end.

Definition release_nodes (s : device) (w : W) (first fin : option devres_node) : option (device * W * Z) :=
  '(sw, cnt) ← remove_nodes s first fin;
  '(s, w) ← release_todo (set_grps (sw_grps sw) (set_dr_head (sw_head sw) s), w) (reverse (sw_todo sw));
  Some (s, w, cnt).

Definition devres_release_all (s : device) (w : W) : option (device * W * Z) :=
  match devres_head s with
  | None => Some (s, w, - ENODEV)
  | Some l => release_nodes s w (head l) None
  end.

(** ** Groups *)

(** The id of the group, or 0.  kmalloc leaves the colour of a new group unset; it is
    cleared before it is read. *)
Definition devres_open_group (s : device) (answer : option Z) (id : Z) : option (device * Z) :=
  match kmalloc_dr s answer with
  | None => Some (s, 0)
  | Some grp =>
      let gid := if ctrue id then id else grp in
      let s := set_grps (<[grp := mk_grp gid 0]> (dv_grps s)) s in
      s ← add_dr s (NodeOpen grp);
      Some (s, gid)
  end.

Fixpoint find_group_loop (s : device) (id : Z) (nodes : list devres_node) : option Z :=
  match nodes with
  | [] => Some 0
  | NodeOpen g :: nodes =>
      x ← dv_grps s !! g;
      if ctrue id then if grp_id x =? id then Some g else find_group_loop s id nodes
      else if negb (on_list s (NodeClose g)) then Some g else find_group_loop s id nodes
  | _ :: nodes => find_group_loop s id nodes
  end.

Definition find_group (s : device) (id : Z) : option Z :=
  l ← devres_head s;
  find_group_loop s id (reverse l).

Definition devres_close_group (s : device) (id : Z) : option device :=
  grp ← find_group s id;
  if ctrue grp then add_dr s (NodeClose grp) else Some s.

Definition devres_remove_group (s : device) (id : Z) : option device :=
  grp ← find_group s id;
  if ctrue grp then
    l ← devres_head s;
    Some (set_grps (delete grp (dv_grps s)) (set_dr_head (dr_list_del (NodeClose grp) (dr_list_del (NodeOpen grp) l)) s))
  else Some s.

Definition devres_release_group (s : device) (w : W) (id : Z) : option (device * W * Z) :=
  grp ← find_group s id;
  if ctrue grp then
    l ← devres_head s;
    fin ← (if on_list s (NodeClose grp) then dr_list_next l (NodeClose grp) else Some None);
    release_nodes s w (Some (NodeOpen grp)) fin
  else Some (s, w, 0).
End release.

(** ** Managed memory *)

(** [devm_kzalloc_release] is the function with this number; it does nothing. *)
Definition devm_kzalloc_release : Z := 1.
Definition devm_kzalloc_match (p res : Z) (_ : D) : bool := res =? p.

Definition devm_kzalloc (s : device) (answer : option Z) : option (device * Z) :=
  let '(s, dr) := alloc_dr s answer (Release devm_kzalloc_release) in
  if dr =? 0 then Some (s, 0)
  else
    s ← devres_add s (dr_data_ptr dr);
    Some (s, dr_data_ptr dr).

(** With the device: the answer that the WARN_ON looks at. *)
Definition devm_kfree (s : device) (p : Z) : option (device * Z) :=
  devres_destroy s (Release devm_kzalloc_release) (Some (devm_kzalloc_match p)).
End devres.
