(* ===== verification/DevresInv.v ===== *)
(** Managed resources of a device, verified: the two passes of remove_nodes against the
    part of the list they are about, the state of a device and how single calls keep it,
    and the theorems.  No sequence of calls reaches a BUG; devres_release_group and
    devres_release_all release what they should, in reverse order, and leave the rest. *)

From S2P Require Import Prelude Devres.

(** ** Lists of nodes *)

#[local] Ltac run := cbn [mbind option_bind].

Section nodes.
Implicit Types (l pre post : list devres_node) (n : devres_node) (g : Z).

Lemma dr_list_del_app n l1 l2 : dr_list_del n (l1 ++ l2) = dr_list_del n l1 ++ dr_list_del n l2.
Proof. apply filter_app. Qed.

Lemma dr_list_del_notin n l : n ∉ l → dr_list_del n l = l.
Proof.
  induction l as [|x l IH]; [done|]. intros [Hx Hl]%not_elem_of_cons. unfold dr_list_del in *.
  rewrite filter_cons_True, IH by done. done.
Qed.

Lemma dr_list_del_mid n l1 l2 : NoDup (l1 ++ n :: l2) → dr_list_del n (l1 ++ n :: l2) = l1 ++ l2.
Proof.
  intros (H1 & H12 & [H2 _]%NoDup_cons)%NoDup_app. rewrite dr_list_del_app, (dr_list_del_notin n l1).
  - unfold dr_list_del at 1. rewrite filter_cons_False by tauto. fold (dr_list_del n l2). by rewrite dr_list_del_notin.
  - intros Hn. apply (H12 n Hn). by left.
Qed.

Lemma elem_of_dr_list_del n x l : x ∈ dr_list_del n l ↔ x ≠ n ∧ x ∈ l.
Proof. unfold dr_list_del. by rewrite list_elem_of_filter. Qed.

Lemma dr_list_next_mid n l1 l2 : n ∉ l1 → dr_list_next (l1 ++ n :: l2) n = Some (head l2).
Proof.
  induction l1 as [|x l1 IH]; simpl; [intros _; by rewrite decide_True|].
  intros [Hx Hl]%not_elem_of_cons. rewrite decide_False by done. by apply IH.
Qed.

(** The markers and the regular entries of a part of the list. *)
Definition is_marker n : Prop := is_Some (node_to_group n).
#[global] Instance is_marker_dec n : Decision (is_marker n).
Proof. unfold is_marker. apply _. Defined.

Definition markers l : list devres_node := filter is_marker l.
Definition regular l : list devres_node := filter (λ n, ¬ is_marker n) l.

Lemma elem_of_markers n l : n ∈ markers l ↔ is_marker n ∧ n ∈ l.
Proof. unfold markers. by rewrite list_elem_of_filter. Qed.
Lemma elem_of_regular n l : n ∈ regular l ↔ ¬ is_marker n ∧ n ∈ l.
Proof. unfold regular. by rewrite list_elem_of_filter. Qed.
End nodes.

(** ** The first pass *)

Section collect.
Implicit Types (l pre post rest dg todo : list devres_node).

(** Colours of some groups cleared, nothing else changed. *)
Definition cleared (G G' : gmap Z devres_group) l : Prop :=
  ∀ g, G' !! g = if decide (NodeOpen g ∈ l ∨ NodeClose g ∈ l) then grp_set_color 0 <$> G !! g else G !! g.

(** Every marker of the part belongs to a group. *)
Definition known_groups (G : gmap Z devres_group) l : Prop :=
  ∀ n g, n ∈ l → node_to_group n = Some g → is_Some (G !! g).

Lemma cleared_marker G G' n g x l :
  G !! g = Some x → node_to_group n = Some g → cleared (<[g := grp_set_color 0 x]> G) G' l → cleared G G' (n :: l).
Proof.
  intros E Hn H h. rewrite H. destruct (decide (h = g)) as [->|Hne].
  - rewrite lookup_insert_eq, E, (decide_True _ _ (P := NodeOpen g ∈ n :: l ∨ NodeClose g ∈ n :: l)); [by case_decide|].
    destruct n; simplify_eq/=; [left|right]; left.
  - rewrite lookup_insert_ne by done. repeat case_decide; rewrite ?elem_of_cons in *; destruct n; naive_solver.
Qed.

Lemma cleared_regular G G' n l : node_to_group n = None → cleared G G' l → cleared G G' (n :: l).
Proof. intros Hn H h. rewrite H. destruct n; try done. repeat case_decide; rewrite ?elem_of_cons in *; naive_solver. Qed.

Lemma head_not_fin n l post : NoDup (n :: l ++ post) → Some n ≠ head post.
Proof. intros [Hn _]%NoDup_cons Hh. destruct post; simplify_eq/=. apply Hn, elem_of_app. right. left. Qed.

Lemma collect_loop_spec fuel pre dg rest post todo G cnt nr :
  NoDup (pre ++ dg ++ rest ++ post) → (∀ n, n ∈ todo → n ∉ rest) → known_groups G rest → (length rest < fuel)%nat →
  ∃ G', collect_loop fuel (mk_sweep (pre ++ dg ++ rest ++ post) todo G) (head (dg ++ rest ++ post)) (head (rest ++ post)) (head post) cnt nr =
    Some (mk_sweep (pre ++ (dg ++ markers rest) ++ post) (todo ++ regular rest) G', head ((dg ++ markers rest) ++ post),
          cnt + zlen (regular rest), nr + zlen (markers rest)) ∧ cleared G G' rest.
Proof.
  revert dg rest todo G cnt nr. induction fuel as [|fuel IH]; intros dg rest todo G cnt nr Hnd Ht HG Hf; [lia|].
  destruct rest as [|n rest]; cbn [collect_loop].
  - rewrite decide_True by done. exists G. unfold zlen. simpl. rewrite !app_nil_r, !Z.add_0_r. split; [done|].
    intros g. by rewrite decide_False by (rewrite !elem_of_nil; tauto).
  - assert (Hn : n ∉ pre ++ dg ∧ NoDup (n :: rest ++ post)).
    { rewrite app_assoc in Hnd. apply NoDup_app in Hnd as (_ & Hd & H2). split; [|done]. intros Hn. apply (Hd n Hn). left. }
    destruct Hn as [Hn Hnd2]. simpl (head ((n :: rest) ++ post)). rewrite decide_False by by eapply head_not_fin.
    run. simpl ((n :: rest) ++ post). simpl sw_head. rewrite app_assoc, (dr_list_next_mid n) by done. rewrite <- app_assoc. run.
    assert (HG' : known_groups G rest) by (intros x g Hx; apply HG; by right).
    unfold markers, regular. destruct (node_to_group n) as [g|] eqn:Hg.
    + assert (is_marker n) by (unfold is_marker; by rewrite Hg).
      rewrite (filter_cons_True _ n), (filter_cons_False (λ n, ¬ is_marker n) n) by tauto. fold (markers rest) (regular rest).
      destruct (HG n g) as [x Ex]; [by left|done|]. unfold sw_color. simpl sw_grps. rewrite Ex. run. simpl.
      destruct (IH (dg ++ [n]) rest todo (<[g := grp_set_color 0 x]> G) cnt (nr + 1)) as (G' & Hr & Hc); [| | |simpl in Hf; lia|].
      * by rewrite <- app_assoc.
      * intros y Hy Hr. apply (Ht y Hy). by right.
      * intros y h Hy Hh. apply lookup_insert_is_Some'. right. by apply (HG' y).
      * exists G'. split; [|by apply cleared_marker with g x]. rewrite <- !(app_assoc dg [n]) in Hr. simpl in Hr |- *. rewrite Hr, zlen_cons.
        by replace (nr + 1 + zlen (markers rest)) with (nr + (1 + zlen (markers rest))) by lia.
    + assert (Hm : ¬ is_marker n) by (unfold is_marker; rewrite Hg; by intros []).
      rewrite (filter_cons_False is_marker n), (filter_cons_True _ n) by done. fold (markers rest) (regular rest).
      unfold move_todo. simpl sw_head. simpl sw_todo. simpl sw_grps.
      rewrite app_assoc, dr_list_del_mid, <- app_assoc by by rewrite <- app_assoc.
      rewrite (dr_list_del_notin n todo) by (intros Hin; apply (Ht n Hin); left).
      assert ((if decide (head (dg ++ n :: rest ++ post) = Some n) then head (rest ++ post) else head (dg ++ n :: rest ++ post)) =
        head (dg ++ rest ++ post)) as ->.
      { destruct dg as [|y dg]; simpl; [by rewrite decide_True|]. rewrite decide_False; [done|].
        intros [= ->]. apply Hn, elem_of_app. right. left. }
      destruct (IH dg rest (todo ++ [n]) G (cnt + 1) nr) as (G' & Hr & Hc); [|  |done|simpl in Hf; lia|].
      * rewrite app_assoc in *. apply NoDup_app in Hnd as (H1 & H2 & [_ H3]%NoDup_cons). apply NoDup_app.
        split_and!; try done. intros y Hy Hy'. apply (H2 y Hy). by right.
      * intros y [Hy| ->%list_elem_of_singleton]%elem_of_app Hr; [apply (Ht y Hy); by right|].
        apply NoDup_cons in Hnd2 as [Hx _]. apply Hx, elem_of_app. by left.
      * exists G'. split; [|by apply cleared_regular]. rewrite Hr, <- (app_assoc todo), zlen_cons. by replace (cnt + 1 + zlen (regular rest)) with (cnt + (1 + zlen (regular rest))) by lia.
Qed.
End collect.

(** ** The second pass *)

(** The closing of a group comes after its opening. *)
Definition paired (l : list devres_node) : Prop :=
  ∀ g, NodeClose g ∈ l → ∃ l1 l2 l3, l = l1 ++ NodeOpen g :: l2 ++ NodeClose g :: l3.

Lemma filter_all {A} (P : A → Prop) `{∀ x, Decision (P x)} (l : list A) : (∀ x, x ∈ l → P x) → filter P l = l.
Proof.
  induction l as [|x l IH]; [done|]. intros HP. rewrite filter_cons_True by (apply HP; left).
  f_equal. apply IH. intros y Hy. apply HP. by right.
Qed.

Lemma filter_none {A} (P : A → Prop) `{∀ x, Decision (P x)} (l : list A) : (∀ x, x ∈ l → ¬ P x) → filter P l = [].
Proof.
  induction l as [|x l IH]; [done|]. intros HP. rewrite filter_cons_False by (apply HP; left). apply IH.
  intros y Hy. apply HP. by right.
Qed.

Lemma marker_cases n g : node_to_group n = Some g → n = NodeOpen g ∨ n = NodeClose g.
Proof. destruct n; simpl; intros [= ->]; auto. Qed.

(** An element of a list without duplicates is at one place. *)
Lemma NoDup_place {A} (x : A) a b c d : NoDup (a ++ x :: b) → a ++ x :: b = c ++ x :: d → a = c ∧ b = d.
Proof.
  revert c. induction a as [|y a IH]; intros [|z c]; simpl; intros Hnd E; simplify_eq; try done.
  - apply NoDup_cons in Hnd as [Hx _]. exfalso. apply Hx, elem_of_app. right. left.
  - apply NoDup_cons in Hnd as [Hx _]. exfalso. apply Hx, elem_of_app. right. left.
  - apply NoDup_cons in Hnd as [_ Hnd]. destruct (IH c) as [-> ->]; done.
Qed.

Lemma paired_close l a g b : NoDup l → paired l → l = a ++ NodeClose g :: b → NodeOpen g ∈ a.
Proof.
  intros Hnd Hp ->. destruct (Hp g) as (l1 & l2 & l3 & E); [apply elem_of_app; right; left|].
  rewrite (app_comm_cons l2), app_assoc in E. apply NoDup_place in E as [-> _]; [|done]. apply elem_of_app. right. left.
Qed.

Lemma paired_open l a g b : NoDup l → paired l → l = a ++ NodeOpen g :: b → NodeClose g ∉ a.
Proof.
  intros Hnd Hp -> (a1 & a2 & ->)%list_elem_of_split. rewrite <- app_assoc in *. simpl in *.
  pose proof (paired_close _ a1 g _ Hnd Hp eq_refl) as Ho. apply NoDup_app in Hnd as (_ & Hd & _).
  apply (Hd _ Ho). right. apply elem_of_app. right. left.
Qed.

Section color.
Context (pre gs post : list devres_node).
Notation all := (pre ++ gs ++ post).
Context (Hnd : NoDup all) (Hpair : paired all).
Implicit Types (dn rest todo : list devres_node) (G : gmap Z devres_group) (g : Z).

(** The group lies in the part as a whole, as far as the walk has come. *)
Definition gone dn g : Prop := NodeOpen g ∈ dn ∧ (NodeClose g ∈ dn ∨ NodeClose g ∉ all).
#[local] Instance gone_dec dn g : Decision (gone dn g).
Proof. unfold gone. apply _. Defined.

Definition stays dn (n : devres_node) : Prop := match node_to_group n with Some g => ¬ gone dn g | None => True end.
#[local] Instance stays_dec dn n : Decision (stays dn n).
Proof. unfold stays. destruct (node_to_group n); apply _. Defined.

(** The colours of the groups that are still there. *)
Definition colours G dn : Prop :=
  ∀ g x, NodeOpen g ∈ gs ∨ NodeClose g ∈ gs → ¬ gone dn g → G !! g = Some x →
    grp_color x = if decide (NodeOpen g ∈ dn ∨ NodeClose g ∈ dn) then 1 else 0.

Definition other g (n : devres_node) : Prop := n ≠ NodeOpen g ∧ n ≠ NodeClose g.
#[local] Instance other_dec g n : Decision (other g n).
Proof. unfold other. apply _. Defined.

Lemma dr_list_del_both g l : dr_list_del (NodeClose g) (dr_list_del (NodeOpen g) l) = filter (other g) (l : list devres_node).
Proof. unfold dr_list_del. rewrite list_filter_filter. apply list_filter_iff. unfold other. tauto. Qed.

(** One turn changes what happens to its group only. *)
Lemma gone_other dn n g h : node_to_group n = Some g → h ≠ g → gone (dn ++ [n]) h ↔ gone dn h.
Proof. intros Hn Hh. unfold gone. rewrite !elem_of_app, !list_elem_of_singleton. destruct n; naive_solver. Qed.

Lemma stays_other dn n g x : node_to_group n = Some g → node_to_group x ≠ Some g → stays (dn ++ [n]) x ↔ stays dn x.
Proof. intros Hn Hx. unfold stays. destruct (node_to_group x) as [h|] eqn:Eh; [|done]. rewrite (gone_other dn n g h); naive_solver. Qed.

Lemma kept_stay dn n g :
  node_to_group n = Some g → ¬ gone (dn ++ [n]) g → filter (stays (dn ++ [n])) (dn ++ [n]) = filter (stays dn) dn ++ [n].
Proof.
  intros Hn Hg. rewrite filter_app. f_equal.
  - apply list_filter_iff. intros x. destruct (decide (node_to_group x = Some g)) as [Hx|Hx]; [|by apply (stays_other dn n g)].
    unfold stays. rewrite Hx. unfold gone in *. rewrite !elem_of_app in *. tauto.
  - unfold stays. rewrite filter_cons_True; [done|]. by rewrite Hn.
Qed.

Lemma kept_gone dn n g rest :
  gs = dn ++ n :: rest → node_to_group n = Some g → gone (dn ++ [n]) g → ¬ gone dn g →
  filter (other g) (pre ++ filter (stays dn) dn ++ n :: rest ++ post) =
  pre ++ filter (stays (dn ++ [n])) (dn ++ [n]) ++ rest ++ post.
Proof using Hnd.
  intros Hgs Hn [Ho Hc] Hng. assert (Hout : ∀ x, x ∈ pre ∨ x ∈ rest ∨ x ∈ post → other g x).
  { assert (Hall : all = pre ++ (dn ++ [n]) ++ rest ++ post) by by rewrite Hgs, <- !app_assoc.
    pose proof Hnd as Hnd'. rewrite Hall in Hnd', Hc. apply NoDup_app in Hnd' as (_ & H1 & (_ & H2 & _)%NoDup_app). rewrite !elem_of_app in Hc.
    assert (∀ y, y ∈ dn ++ [n] → y ∉ pre ∧ y ∉ rest ∧ y ∉ post) as Hno.
    { intros y Hy. specialize (H2 y Hy). split_and!.
      - intros Hy'. apply (H1 y Hy'). apply elem_of_app. by left.
      - intros Hy'. apply H2. apply elem_of_app. by left.
      - intros Hy'. apply H2. apply elem_of_app. by right. }
    intros x Hx. split; intros ->; [apply Hno in Ho; tauto|]. destruct Hc as [Hc|Hc]; [|tauto].
    destruct (Hno (NodeClose g)) as (? & ? & ?); [by apply elem_of_app|tauto]. }
  assert (Hself : ¬ other g n) by (destruct n; simplify_eq/=; unfold other; tauto).
  assert (Hsn : ¬ stays (dn ++ [n]) n) by (unfold stays; rewrite Hn; unfold gone; tauto).
  rewrite !filter_app, (filter_all _ pre) by auto. rewrite (filter_cons_False _ n) by done. rewrite (filter_cons_False _ n []) by done.
  rewrite filter_app, (filter_all _ rest), (filter_all _ post), app_nil_r by auto. f_equal. f_equal.
  rewrite list_filter_filter. apply list_filter_iff. intros x. destruct (decide (node_to_group x = Some g)) as [Hx|Hx].
  - split; [intros [[? ?] _]; destruct x; simplify_eq/=|]. unfold stays. rewrite Hx. unfold gone. tauto.
  - rewrite (stays_other dn n g) by done. unfold other. split; [tauto|]. intros Hs. split; [|done]. destruct x; naive_solver.
Qed.

(** One turn, as a change of the walk. *)
Lemma color_node_eval w n g x c :
  node_to_group n = Some g → sw_empty w (NodeOpen g) = false → sw_grps w !! g = Some x →
  c = grp_color x + 1 + (if sw_empty w (NodeClose g) then 1 else 0) → c = 1 ∨ c = 2 →
  color_node w n = Some (let G := <[g := grp_set_color c x]> (sw_grps w) in
    if c =? 2 then mk_sweep (filter (other g) (sw_head w)) (filter (other g) (sw_todo w) ++ [NodeOpen g]) G
    else mk_sweep (sw_head w) (sw_todo w) G).
Proof using.
  intros Hn Ho Ex Hc H12. unfold color_node. rewrite Hn. run. rewrite Ho. unfold sw_color. rewrite Ex. run.
  assert (Hsame : ∀ G, sw_empty (mk_sweep (sw_head w) (sw_todo w) G) (NodeClose g) = sw_empty w (NodeClose g)) by done.
  rewrite Hsame. clear Hsame. assert (Hd : ∀ k, dr_list_del (NodeClose g) (dr_list_del (NodeOpen g) k ++ [NodeOpen g]) = filter (other g) k ++ [NodeOpen g]).
  { intros k. by rewrite dr_list_del_app, dr_list_del_both, (dr_list_del_notin _ [_]) by (rewrite list_elem_of_singleton; done). }
  destruct (sw_empty w (NodeClose g)); simpl sw_grps; rewrite ?lookup_insert_eq; run; simpl sw_grps; rewrite ?lookup_insert_eq; run;
    rewrite ?insert_insert_eq; simpl grp_color; rewrite ?Z.add_0_r in Hc; unfold grp_set_color; simpl;
    rewrite <- Hc; destruct H12 as [->| ->]; simpl; unfold move_todo; simpl; by rewrite ?dr_list_del_both, ?Hd.
Qed.

(** What the walk has done after [dn]. *)
Record walked dn rest todo0 (w : sweep) G0 : Prop := {
  wk_head : sw_head w = pre ++ filter (stays dn) dn ++ rest ++ post;
  wk_todo : ∃ ns, sw_todo w = todo0 ++ ns ∧ NoDup ns ∧ ∀ n, n ∈ ns ↔ ∃ g, n = NodeOpen g ∧ gone dn g;
  wk_colours : colours (sw_grps w) dn;
  wk_ids : ∀ g, grp_id <$> sw_grps w !! g = grp_id <$> G0 !! g }.

Section turn.
Context (dn rest : list devres_node) (n : devres_node) (g : Z).
Context (Hgs : gs = dn ++ n :: rest) (Hn : node_to_group n = Some g).

Lemma turn_all : all = (pre ++ dn) ++ n :: rest ++ post.
Proof using Hgs. by rewrite Hgs, <- !app_assoc. Qed.

Lemma turn_fresh : n ∉ dn.
Proof using Hnd Hgs.
  pose proof Hnd as H. rewrite turn_all in H. apply NoDup_app in H as (_ & H & _). intros Hin. apply (H n); [|left].
  apply elem_of_app. by right.
Qed.

Lemma turn_here : n ∈ all.
Proof using Hgs. rewrite turn_all. apply elem_of_app. right. left. Qed.

(** How far the walk has come with the group of [n]. *)
Lemma turn_cases :
  (n = NodeOpen g ∧ NodeOpen g ∉ dn ∧ NodeClose g ∉ dn) ∨ (n = NodeClose g ∧ NodeClose g ∉ dn ∧ NodeOpen g ∈ pre ++ dn).
Proof using Hnd Hpair Hgs Hn.
  pose proof turn_fresh as Hf. pose proof turn_all as Ha. destruct (marker_cases n g Hn) as [E|E]; rewrite E in Hf, Ha; [left|right]; split_and!; try done.
  - intros Hc. apply (paired_open all (pre ++ dn) g (rest ++ post)); [done..|]. apply elem_of_app. by right.
  - by apply (paired_close all (pre ++ dn) g (rest ++ post)).
Qed.

Lemma turn_not_gone : ¬ gone dn g.
Proof using Hnd Hpair Hgs Hn.
  pose proof turn_here as Hin. unfold gone. destruct turn_cases as [(E & ? & ?)|(E & ? & ?)]; rewrite E in Hin; tauto.
Qed.

Lemma turn_open : NodeOpen g ∈ all.
Proof using Hnd Hpair Hgs Hn.
  pose proof turn_here as Hin. destruct turn_cases as [(E & _)|(E & _ & Ho)]; [by rewrite <- E|]. rewrite turn_all. apply elem_of_app. by left.
Qed.

(** The markers of the group are still in the list. *)
Lemma turn_kept x : node_to_group x = Some g → x ∈ pre ++ filter (stays dn) dn ++ n :: rest ++ post ↔ x ∈ all.
Proof using Hnd Hpair Hgs Hn.
  intros Hx. assert (stays dn x) by (unfold stays; rewrite Hx; apply turn_not_gone).
  rewrite turn_all, !elem_of_app, list_elem_of_filter. tauto.
Qed.

(** The colour it gets. *)
Lemma turn_colour G x :
  colours G dn → G !! g = Some x →
  grp_color x + 1 + (if bool_decide (NodeClose g ∉ all) then 1 else 0) = if decide (gone (dn ++ [n]) g) then 2 else 1.
Proof using Hnd Hpair Hgs Hn.
  intros Hc Ex. pose proof turn_here as Hin. rewrite (Hc g x); [| |apply turn_not_gone|done].
  2: { rewrite Hgs, !elem_of_app, !elem_of_cons. destruct (marker_cases n g Hn) as [<-|<-]; tauto. }
  assert (Hg : gone (dn ++ [n]) g ↔ (NodeOpen g ∈ dn ∨ NodeOpen g = n) ∧ ((NodeClose g ∈ dn ∨ NodeClose g = n) ∨ NodeClose g ∉ all))
    by (unfold gone; by rewrite !elem_of_app, !list_elem_of_singleton).
  destruct turn_cases as [(E & H1 & H2)|(E & H1 & H2)]; rewrite E in Hg, Hin |- *.
  - rewrite decide_False by tauto. assert (Hg' : gone (dn ++ [NodeOpen g]) g ↔ NodeClose g ∉ all).
    { rewrite Hg. split; [|auto]. by intros [_ [[?|?]|?]]. }
    case_bool_decide; case_decide; tauto.
  - rewrite bool_decide_eq_false_2 by tauto. assert (Hg' : gone (dn ++ [NodeClose g]) g ↔ NodeOpen g ∈ dn).
    { rewrite Hg. split; [by intros [[?|?] _]|]. auto. }
    repeat case_decide; tauto.
Qed.

(** The groups that are gone after the turn. *)
Lemma turn_gone h : gone (dn ++ [n]) h ↔ gone dn h ∨ h = g ∧ gone (dn ++ [n]) g.
Proof using Hnd Hpair Hgs Hn.
  destruct (decide (h = g)) as [->|Hh]; [|rewrite (gone_other dn n g h) by done; tauto]. pose proof turn_not_gone. tauto.
Qed.

Lemma turn_colours G x c :
  colours G dn → (c = 1 ∨ gone (dn ++ [n]) g) → colours (<[g := grp_set_color c x]> G) (dn ++ [n]).
Proof using Hgs Hn.
  intros HC Hc h y Hh Hng. destruct (decide (h = g)) as [->|Hne].
  - rewrite lookup_insert_eq. intros [= <-]. destruct Hc as [->|]; [|done]. rewrite decide_True; [done|].
    rewrite !elem_of_app, !list_elem_of_singleton. destruct (marker_cases n g Hn) as [<-|<-]; tauto.
  - rewrite lookup_insert_ne by done. rewrite (gone_other dn n g h Hn Hne) in Hng. intros Ey. rewrite (HC h y Hh Hng Ey).
    assert (NodeOpen h ≠ n ∧ NodeClose h ≠ n) as [? ?] by (clear Hgs; destruct n; naive_solver).
    repeat case_decide; rewrite ?elem_of_app, ?list_elem_of_singleton in *; tauto.
Qed.

Lemma color_step todo0 w G0 :
  is_Some (G0 !! g) → (∀ h, NodeOpen h ∉ todo0 ∧ NodeClose h ∉ todo0) → walked dn (n :: rest) todo0 w G0 →
  ∃ w', color_node w n = Some w' ∧ walked (dn ++ [n]) rest todo0 w' G0.
Proof using Hnd Hpair Hgs Hn.
  intros [x0 E0] Ht [Hh (ns & Htodo & Hns & Hmem) HC Hid].
  assert (∃ x, sw_grps w !! g = Some x) as [x Ex].
  { specialize (Hid g). rewrite E0 in Hid. destruct (sw_grps w !! g); [eauto|done]. }
  assert (Htn : ∀ y, node_to_group y = Some g → y ∉ sw_todo w).
  { intros y Hy. rewrite Htodo, elem_of_app. intros [Hin|Hin].
    - destruct (Ht g). destruct (marker_cases y g Hy) as [->| ->]; tauto.
    - apply Hmem in Hin as (h & -> & Hg). simplify_eq/=. by apply turn_not_gone. }
  assert (Hemp : ∀ y, node_to_group y = Some g → sw_empty w y = bool_decide (y ∉ all)).
  { intros y Hy. unfold sw_empty. apply bool_decide_ext. rewrite elem_of_app, Hh. simpl app. rewrite (turn_kept y Hy).
    specialize (Htn y Hy). tauto. }
  pose proof (turn_colour (sw_grps w) x HC Ex) as Hc. set (c := if decide (gone (dn ++ [n]) g) then 2 else 1) in *.
  assert (H12 : c = 1 ∨ c = 2) by (unfold c; destruct (decide _); auto).
  rewrite (color_node_eval w n g x c); [|done| |done| |done].
  2: { rewrite (Hemp (NodeOpen g)) by done. apply bool_decide_eq_false_2. intros Hno. apply Hno, turn_open. }
  2: by rewrite (Hemp (NodeClose g)).
  eexists. split; [done|].
  assert (Hids : ∀ h, grp_id <$> <[g := grp_set_color c x]> (sw_grps w) !! h = grp_id <$> G0 !! h).
  { intros h. rewrite <- Hid. destruct (decide (h = g)) as [->|]; [by rewrite lookup_insert_eq, Ex|by rewrite lookup_insert_ne]. }
  unfold c in *. case_decide as Hg; cbn [Z.eqb Pos.eqb]; split; simpl; try done.
  - rewrite Hh. simpl app. by apply kept_gone; [done..|apply turn_not_gone].
  - exists (ns ++ [NodeOpen g]). rewrite filter_all, Htodo, app_assoc; [split; [done|]|].
    + split.
      * apply NoDup_app. split_and!; [done| |apply NoDup_singleton]. intros y Hy ->%list_elem_of_singleton.
        apply Hmem in Hy as (h & [= <-] & Hg'). by apply turn_not_gone.
      * intros y. rewrite elem_of_app, list_elem_of_singleton, Hmem. setoid_rewrite turn_gone. naive_solver.
    + intros y Hy. split; intros ->; by apply Htn in Hy.
  - apply turn_colours; auto.
  - rewrite Hh, kept_stay with (g := g) by done. by rewrite <- !app_assoc.
  - exists ns. split_and!; try done. intros y. rewrite Hmem. setoid_rewrite turn_gone. naive_solver.
  - apply turn_colours; auto.
Qed.
End turn.

Lemma color_loop_spec fuel dn rest todo0 w G0 :
  gs = dn ++ rest → (length rest < fuel)%nat → (∀ n, n ∈ gs → is_marker n) → known_groups G0 gs →
  (∀ h, NodeOpen h ∉ todo0 ∧ NodeClose h ∉ todo0) → walked dn rest todo0 w G0 →
  ∃ w', color_loop fuel w (head (rest ++ post)) (head post) = Some w' ∧ walked gs [] todo0 w' G0.
Proof using Hnd Hpair.
  revert dn rest w. induction fuel as [|fuel IH]; intros dn rest w Hgs Hf Hm HG Ht Hw; [lia|]. cbn [color_loop].
  destruct rest as [|n rest].
  - rewrite decide_True by done. exists w. split; [done|]. rewrite app_nil_r in Hgs. rewrite Hgs in *. done.
  - pose proof (turn_all dn rest n Hgs) as Hall. pose proof Hnd as Hnd'. rewrite Hall in Hnd'.
    apply NoDup_app in Hnd' as (_ & Hd & Hr). simpl (head ((n :: rest) ++ post)).
    rewrite decide_False by by eapply head_not_fin. run. rewrite (wk_head _ _ _ _ _ Hw). simpl app. rewrite app_assoc, dr_list_next_mid.
    2: { rewrite elem_of_app, list_elem_of_filter. intros Hin. apply (Hd n); [|left]. apply elem_of_app. tauto. }
    run. destruct (Hm n) as [g Hn]; [rewrite Hgs; apply elem_of_app; right; left|].
    destruct (color_step dn rest n g Hgs Hn todo0 w G0) as (w' & -> & Hw'); [|done..|].
    { apply (HG n); [|done]. rewrite Hgs. apply elem_of_app. right. left. }
    run. apply (IH (dn ++ [n]) rest); try done; [by rewrite <- app_assoc|simpl in Hf; lia].
Qed.
End color.

(** ** Releasing a part of the list *)

Section part.
Implicit Types (l pre rg post k : list devres_node) (G : gmap Z devres_group) (n : devres_node) (g : Z).

(** The group lies in the part as a whole: its opening does, and its closing unless
    it is still open. *)
Definition whole l rg g : Prop := NodeOpen g ∈ rg ∧ (NodeClose g ∈ rg ∨ NodeClose g ∉ l).
#[global] Instance whole_dec l rg g : Decision (whole l rg g).
Proof. unfold whole. apply _. Defined.

(** What is left of the list: all outside of the part, and the markers of the groups
    that reach out of it. *)
Definition remains l rg n : Prop := match node_to_group n with Some g => ¬ whole l rg g | None => n ∉ rg end.
#[global] Instance remains_dec l rg n : Decision (remains l rg n).
Proof. unfold remains. destruct (node_to_group n); apply _. Defined.
Definition left_over l rg : list devres_node := filter (remains l rg) l.

Lemma filter_iff_in {A} (P Q : A → Prop) `{∀ x, Decision (P x)} `{∀ x, Decision (Q x)} (l : list A) :
  (∀ x, x ∈ l → P x ↔ Q x) → filter P l = filter Q l.
Proof.
  induction l as [|x l IH]; [done|]. intros HPQ. assert (Hx := HPQ x ltac:(left)).
  assert (E : filter P l = filter Q l) by (apply IH; intros y Hy; apply HPQ; by right).
  destruct (decide (P x)); [rewrite !filter_cons_True by tauto|rewrite !filter_cons_False by tauto]; by rewrite E.
Qed.

Lemma paired_filter (P : devres_node → Prop) `{∀ x, Decision (P x)} l :
  paired l → (∀ g, NodeClose g ∈ l → P (NodeClose g) → P (NodeOpen g)) → paired (filter P l).
Proof.
  intros Hp HP g [HPc Hin]%list_elem_of_filter. destruct (Hp g Hin) as (l1 & l2 & l3 & E).
  exists (filter P l1), (filter P l2), (filter P l3). specialize (HP g Hin HPc). rewrite E.
  by rewrite filter_app, (filter_cons_True _ (NodeOpen g)), filter_app, (filter_cons_True _ (NodeClose g)) by done.
Qed.

Lemma paired_left l rg : paired l → paired (left_over l rg).
Proof. intros Hp. by apply paired_filter. Qed.

Section split.
Context (l pre rg post : list devres_node) (Hl : l = pre ++ rg ++ post) (Hnd : NoDup l) (Hpair : paired l).

Lemma part_disjoint n : n ∈ rg → n ∉ pre ∧ n ∉ post ∧ n ∈ l.
Proof using Hl Hnd.
  intros Hn. pose proof Hnd as H. rewrite Hl in H. apply NoDup_app in H as (_ & H1 & (_ & H2 & _)%NoDup_app). split_and!.
  - intros Hp. apply (H1 n Hp). apply elem_of_app. by left.
  - by apply H2.
  - rewrite Hl, !elem_of_app. tauto.
Qed.

Lemma outside_remains n : n ∈ pre ∨ n ∈ post → remains l rg n.
Proof using Hl Hnd.
  intros Hn. assert (Hin : n ∈ l ∧ n ∉ rg).
  { split; [rewrite Hl, !elem_of_app; tauto|]. intros Hr. apply part_disjoint in Hr. tauto. }
  unfold remains. destruct (node_to_group n) as [g|] eqn:Hg; [|tauto].
  unfold whole. destruct (marker_cases n g Hg) as [->| ->]; tauto.
Qed.

(** The list after the first pass. *)
Lemma first_pass_filter : pre ++ markers rg ++ post = filter (λ n, is_marker n ∨ n ∉ rg) l.
Proof using Hl Hnd.
  assert (Hout : ∀ n, n ∈ pre ∨ n ∈ post → n ∉ rg) by (intros n Hn Hr; apply part_disjoint in Hr; tauto).
  rewrite Hl, !filter_app, (filter_all _ pre), (filter_all _ post) by auto. f_equal. f_equal.
  apply filter_iff_in. intros n Hn. tauto.
Qed.

Lemma first_pass_fine : NoDup (pre ++ markers rg ++ post) ∧ paired (pre ++ markers rg ++ post).
Proof using Hl Hnd Hpair.
  rewrite first_pass_filter. split; [by apply NoDup_filter|]. apply paired_filter; [done|]. intros g _ _. left. by eexists.
Qed.

Lemma gone_whole g : gone pre (markers rg) post (markers rg) g ↔ whole l rg g.
Proof using Hl Hnd.
  assert (Hm : ∀ h, is_marker (NodeOpen h) ∧ is_marker (NodeClose h)) by (intros h; split; by eexists).
  unfold gone, whole. rewrite Hl, !elem_of_app, !elem_of_markers. specialize (Hm g). tauto.
Qed.

Lemma second_pass_left dec : pre ++ @filter _ _ _ (stays pre (markers rg) post (markers rg)) dec (markers rg) ++ post = left_over l rg.
Proof using Hl Hnd.
  unfold left_over. transitivity (filter (remains l rg) (pre ++ rg ++ post)); [|by rewrite <- Hl].
  rewrite !filter_app, (filter_all _ pre), (filter_all _ post) by (intros; apply outside_remains; auto). f_equal. f_equal.
  revert dec. generalize (gone_whole). unfold stays. generalize (gone pre (markers rg) post (markers rg)). intros P HP dec.
  unfold markers. rewrite list_filter_filter. apply filter_iff_in. intros n Hn.
  unfold remains, is_marker. destruct (node_to_group n) as [g|]; [|split; [by intros [_ []]|done]].
  rewrite HP. split; [by intros [? _]|]. intros. split; [done|by eexists].
Qed.
End split.
End part.

(** ** The state of a device *)

Section wf.
Context {D : Type}.
Implicit Types (s : @device D) (l pre rg post k : list devres_node) (n : devres_node) (g a : Z).

(** Blocks of memory have addresses at which there is room for the header. *)
Definition block a : Prop := 0 < a ∧ a + DEVRES_DATA < 2 ^ 32.

(** Nothing is on the list twice, what is on it is in memory, groups are on it and
    closed after they were opened. *)
Record dev_wf s l : Prop := {
  dw_head : devres_head s = Some l;
  dw_nodup : NoDup l;
  dw_paired : paired l;
  dw_drs : ∀ a, NodeDr a ∈ l → is_Some (dv_drs s !! a);
  dw_grps : ∀ g, is_Some (dv_grps s !! g) ↔ NodeOpen g ∈ l;
  dw_release : ∀ a d, dv_drs s !! a = Some d → ∃ f, dr_release d = Release f;
  dw_block : ∀ a, is_Some (dv_drs s !! a) ∨ is_Some (dv_grps s !! a) → block a }.

Lemma container_ptr a : block a → dr_container (dr_data_ptr a) = a ∧ dr_data_ptr a ≠ 0 ∧ 0 < dr_data_ptr a.
Proof.
  intros [H1 H2]. unfold dr_container, dr_data_ptr, DEVRES_DATA in *. rewrite (u32_small (a + 16)) by lia.
  rewrite u32_small by lia. lia.
Qed.

Lemma wf_groups s l k : dev_wf s l → (∀ n, n ∈ k → n ∈ l) → known_groups (dv_grps s) k.
Proof.
  intros H Hk n g Hn Hg. apply (dw_grps _ _ H). apply Hk in Hn.
  destruct (marker_cases n g Hg) as [->| ->]; [done|]. destruct (dw_paired _ _ H g Hn) as (l1 & l2 & l3 & ->).
  apply elem_of_app. right. left.
Qed.

Lemma remove_nodes_spec s l pre rg post :
  dev_wf s l → l = pre ++ rg ++ post →
  ∃ w ns, remove_nodes s (head (rg ++ post)) (head post) = Some (w, zlen (regular rg)) ∧
    sw_head w = left_over l rg ∧ sw_todo w = regular rg ++ ns ∧ NoDup ns ∧
    (∀ n, n ∈ ns ↔ ∃ g, n = NodeOpen g ∧ whole l rg g) ∧
    (∀ g, grp_id <$> sw_grps w !! g = grp_id <$> dv_grps s !! g).
Proof.
  intros H Hl. pose proof (dw_nodup _ _ H) as Hnd. pose proof (dw_paired _ _ H) as Hp.
  assert (HG : known_groups (dv_grps s) rg) by (apply (wf_groups s l); [done|]; intros n Hn; rewrite Hl, !elem_of_app; tauto).
  unfold remove_nodes. rewrite (dw_head _ _ H). run.
  destruct (collect_loop_spec (S (length l)) pre [] rg post [] (dv_grps s) 0 0) as (G & Hcol & HC); [simpl; by rewrite <- Hl|by intros ? ?%elem_of_nil|done| |].
  { rewrite Hl, !length_app. lia. }
  simpl app in Hcol. rewrite <- Hl in Hcol. rewrite Hcol. run. rewrite !Z.add_0_l.
  assert (Hids : ∀ g, grp_id <$> G !! g = grp_id <$> dv_grps s !! g).
  { intros g. rewrite (HC g). case_decide; [|done]. by destruct (dv_grps s !! g). }
  destruct (first_pass_fine l pre rg post Hl Hnd Hp) as [Hnd1 Hp1].
  assert (Ht : ∀ h, NodeOpen h ∉ regular rg ∧ NodeClose h ∉ regular rg).
  { intros h. rewrite !elem_of_regular. split; intros [Hm _]; apply Hm; by eexists. }
  set (w0 := mk_sweep (pre ++ markers rg ++ post) (regular rg) G).
  assert (Hw0 : walked pre (markers rg) post [] (markers rg) (regular rg) w0 G).
  { split; simpl; [done| | |done].
    - exists []. rewrite app_nil_r. split_and!; [done|constructor|]. intros n. unfold gone. rewrite elem_of_nil. split; [done|].
      intros (g & _ & []%elem_of_nil & _).
    - intros g x Hg _ Ex. rewrite decide_False by (rewrite !elem_of_nil; tauto). rewrite (HC g) in Ex.
      rewrite decide_True in Ex by (rewrite !elem_of_markers in Hg; tauto). destruct (dv_grps s !! g); simplify_eq/=. done. }
  destruct (color_loop_spec pre (markers rg) post Hnd1 Hp1 (S (length l)) [] (markers rg) (regular rg) w0 G) as (w & Hrun & Hw); try done.
  { pose proof (length_filter is_marker rg). fold (markers rg) in *. rewrite Hl, !length_app. lia. }
  { intros n. rewrite elem_of_markers. tauto. }
  { intros n g Hn Hg. apply elem_of_markers in Hn as [_ Hn]. destruct (HG n g Hn Hg) as [x Ex]. specialize (Hids g).
    rewrite Ex in Hids. destruct (G !! g); [eauto|done]. }
  assert (Hend : (if zlen (markers rg) =? 0 then Some (w0, zlen (regular rg)) else
    w ← color_loop (S (length l)) w0 (head (markers rg ++ post)) (head post); Some (w, zlen (regular rg))) = Some (w, zlen (regular rg))).
  { rewrite Hrun. destruct (markers rg) as [|n k] eqn:Hk; [|done]. simpl in Hrun. rewrite decide_True in Hrun by done. by simplify_eq/=. }
  rewrite Hend. destruct Hw as [Hh (ns & Htodo & Hns & Hmem) _ Hid]. exists w, ns. split_and!; try done.
  - rewrite Hh. simpl. by apply second_pass_left.
  - intros n. rewrite Hmem. by setoid_rewrite (gone_whole l pre rg post Hl Hnd).
  - intros g. by rewrite Hid, Hids.
Qed.

(** The release functions of some entries, in the order of the list. *)
Section release_spec.
Context {W : Type} (release_fn : Z → D → W → option W).

Fixpoint released (m : gmap Z (@devres D)) (nodes : list devres_node) (w : W) : option W :=
  match nodes with
  | [] => Some w
  | NodeDr a :: nodes =>
      d ← m !! a;
      match dr_release d with
      | Release f => w ← release_fn f (dr_data d) w; released m nodes w
      | _ => None
      end
  | _ :: _ => None
  end.

Lemma released_kept m m' k w : (∀ a, NodeDr a ∈ k → m' !! a = m !! a) → released m' k w = released m k w.
Proof.
  revert w. induction k as [|n k IH]; intros w Hm; [done|]. simpl. destruct n as [a|g|g]; [|done..].
  rewrite (Hm a ltac:(left)). destruct (m !! a) as [d|]; [|done]. run. destruct (dr_release d); try done.
  destruct (release_fn _ _ _); [|done]. run. apply IH. intros b Hb. apply Hm. by right.
Qed.

Lemma release_todo_app sw k1 k2 : release_todo release_fn sw (k1 ++ k2) = (sw ← release_todo release_fn sw k1; release_todo release_fn sw k2).
Proof. revert sw. induction k1 as [|n k1 IH]; intros sw; [done|]. simpl. destruct (release_one _ sw n); [|done]. run. apply IH. Qed.

(** Groups are freed. *)
Lemma release_groups s w k :
  NoDup k → (∀ n, n ∈ k → ∃ g, n = NodeOpen g ∧ is_Some (dv_grps s !! g)) →
  ∃ G, release_todo release_fn (s, w) k = Some (set_grps G s, w) ∧
    ∀ g, G !! g = if decide (NodeOpen g ∈ k) then None else dv_grps s !! g.
Proof.
  revert s. induction k as [|n k IH]; intros s Hnd Hk.
  - exists (dv_grps s). split; [by destruct s|]. intros g. by rewrite decide_False by (by intros ?%elem_of_nil).
  - apply NoDup_cons in Hnd as [Hn Hnd]. destruct (Hk n) as (g & -> & [x Ex]); [left|]. simpl. rewrite Ex. run.
    destruct (IH (set_grps (delete g (dv_grps s)) s)) as (G & -> & HG); [done| |].
    + intros n Hin. destruct (Hk n) as (h & -> & Hh); [by right|]. exists h. split; [done|]. simpl.
      rewrite lookup_delete_ne; [done|]. by intros ->.
    + exists G. split; [done|]. intros h. rewrite HG. simpl. destruct (decide (h = g)) as [->|Hne].
      * rewrite lookup_delete_eq, (decide_True (P := NodeOpen g ∈ NodeOpen g :: k)) by left. by case_decide.
      * rewrite lookup_delete_ne by done. repeat case_decide; rewrite ?elem_of_cons in *; naive_solver.
Qed.

(** Entries are released and freed. *)
Lemma release_regular s w w' k :
  NoDup k → released (dv_drs s) k w = Some w' →
  ∃ m, release_todo release_fn (s, w) k = Some (set_drs m s, w') ∧
    ∀ a, m !! a = if decide (NodeDr a ∈ k) then None else dv_drs s !! a.
Proof.
  revert s w. induction k as [|n k IH]; intros s w Hnd Hr; simpl in Hr.
  - simplify_eq. exists (dv_drs s). split; [by destruct s|]. intros a. by rewrite decide_False by (by intros ?%elem_of_nil).
  - apply NoDup_cons in Hnd as [Hn Hnd]. destruct n as [b| |]; [|done..]. simpl.
    destruct (dv_drs s !! b) as [d|] eqn:Ed; [|done]. simpl in Hr. run. destruct (dr_release d) as [| |f]; [done..|].
    destruct (release_fn f (dr_data d) w) as [w1|]; [|done]. simpl in Hr. run.
    destruct (IH (set_drs (delete b (dv_drs s)) s) w1) as (m & -> & Hm); [done| |].
    + rewrite (released_kept (dv_drs s)); [done|]. intros a Ha. simpl. rewrite lookup_delete_ne; [done|]. by intros ->.
    + exists m. split; [done|]. intros a. rewrite Hm. simpl. destruct (decide (a = b)) as [->|Hne].
      * rewrite lookup_delete_eq, (decide_True (P := NodeDr b ∈ NodeDr b :: k)) by left. by case_decide.
      * rewrite lookup_delete_ne by done. repeat case_decide; rewrite ?elem_of_cons in *; naive_solver.
Qed.

(** What releasing a part of the list does. *)
Record part_released s s' l rg : Prop := {
  pr_wf : dev_wf s' (left_over l rg);
  pr_drs : ∀ a, dv_drs s' !! a = if decide (NodeDr a ∈ rg) then None else dv_drs s !! a;
  pr_grps : ∀ g, grp_id <$> dv_grps s' !! g = if decide (whole l rg g) then None else grp_id <$> dv_grps s !! g }.

Lemma part_released_wf s s' l pre rg post :
  dev_wf s l → l = pre ++ rg ++ post → devres_head s' = Some (left_over l rg) →
  (∀ a, dv_drs s' !! a = if decide (NodeDr a ∈ rg) then None else dv_drs s !! a) →
  (∀ g, grp_id <$> dv_grps s' !! g = if decide (whole l rg g) then None else grp_id <$> dv_grps s !! g) →
  part_released s s' l rg.
Proof.
  intros H Hl Hh Hd Hg. split; [|done..].
  assert (Hgs : ∀ g, is_Some (dv_grps s' !! g) ↔ ¬ whole l rg g ∧ is_Some (dv_grps s !! g)).
  { intros g. rewrite <- !(fmap_is_Some grp_id), Hg. case_decide; [|tauto]. rewrite is_Some_alt. tauto. }
  split; [done| | | | | |].
  - by apply NoDup_filter, (dw_nodup _ _ H).
  - by apply paired_left, (dw_paired _ _ H).
  - intros a [Hr Ha]%list_elem_of_filter. rewrite Hd, decide_False by done. by apply (dw_drs _ _ H).
  - intros g. rewrite Hgs, (dw_grps _ _ H). unfold left_over. by rewrite list_elem_of_filter.
  - intros a d. rewrite Hd. case_decide; [done|]. apply (dw_release _ _ H).
  - intros a. rewrite Hgs, Hd. intros Ha. apply (dw_block _ _ H). case_decide; [|tauto]. destruct Ha as [[? ?]|[_ ?]]; [done|auto].
Qed.

Lemma release_nodes_spec s l pre rg post w w' :
  dev_wf s l → l = pre ++ rg ++ post → released (dv_drs s) (reverse (regular rg)) w = Some w' →
  ∃ s', release_nodes release_fn s w (head (rg ++ post)) (head post) = Some (s', w', zlen (regular rg)) ∧ part_released s s' l rg.
Proof.
  intros H Hl Hr. destruct (remove_nodes_spec s l pre rg post H Hl) as (sw & ns & Hrem & Hh & Ht & Hns & Hmem & Hid).
  unfold release_nodes. rewrite Hrem. run. rewrite Ht, reverse_app, release_todo_app, Hh.
  set (s1 := set_grps (sw_grps sw) (set_dr_head (left_over l rg) s)).
  destruct (release_groups s1 w (reverse ns)) as (G & -> & HG).
  { by rewrite reverse_Permutation. }
  { intros n Hn. rewrite elem_of_reverse, Hmem in Hn. destruct Hn as (g & -> & Hg). exists g. split; [done|]. simpl.
    rewrite <- (fmap_is_Some grp_id), Hid, fmap_is_Some, (dw_grps _ _ H), Hl. destruct Hg as [Hg _]. rewrite !elem_of_app. tauto. }
  run. assert (Hnd : NoDup (reverse (regular rg))).
  { rewrite reverse_Permutation. apply NoDup_filter. pose proof (dw_nodup _ _ H) as Hnd. rewrite Hl in Hnd.
    by apply NoDup_app in Hnd as (_ & _ & (? & _)%NoDup_app). }
  destruct (release_regular (set_grps G s1) w w' (reverse (regular rg))) as (m & -> & Hm); [done..|].
  eexists. split; [done|]. apply part_released_wf with pre post; [done..| |].
  - intros a. rewrite Hm. simpl. assert (Hr' : NodeDr a ∈ reverse (regular rg) ↔ NodeDr a ∈ rg).
    { rewrite elem_of_reverse, elem_of_regular. split; [tauto|]. intros. split; [by intros []|done]. }
    repeat case_decide; tauto.
  - intros g. simpl. rewrite HG. simpl. assert (Hg' : NodeOpen g ∈ reverse ns ↔ whole l rg g).
    { rewrite elem_of_reverse, Hmem. naive_solver. }
    repeat case_decide; try tauto. apply Hid.
Qed.
End release_spec.
End wf.

(** ** Searching *)

(** The last entry of a kind that has a property, or 0 if there is none. *)
Definition latest (node : Z → devres_node) (P : Z → Prop) (k : list devres_node) (a : Z) : Prop :=
  (a = 0 ∧ ∀ b, node b ∈ k → ¬ P b) ∨
  (a ≠ 0 ∧ P a ∧ ∃ l1 l2, k = l1 ++ node a :: l2 ∧ ∀ b, node b ∈ l2 → ¬ P b).

Lemma latest_nil node P : latest node P [] 0.
Proof. left. split; [done|]. by intros b ?%elem_of_nil. Qed.

Lemma latest_here node P k a : a ≠ 0 → P a → latest node P (k ++ [node a]) a.
Proof. intros Ha HP. right. split_and!; try done. exists k, []. split; [done|]. by intros b ?%elem_of_nil. Qed.

Lemma latest_skip node P k n a : (∀ b, node b = n → ¬ P b) → latest node P k a → latest node P (k ++ [n]) a.
Proof.
  intros Hn [[-> Ha]|(Ha & HP & l1 & l2 & -> & Hl)]; [left|right].
  - split; [done|]. intros b [Hb|Hb%list_elem_of_singleton]%elem_of_app; [by apply Ha|by apply Hn].
  - split_and!; try done. exists l1, (l2 ++ [n]). split; [by rewrite <- app_assoc|].
    intros b [Hb|Hb%list_elem_of_singleton]%elem_of_app; [by apply Hl|by apply Hn].
Qed.

Section search.
Context {D : Type} (s : @device D) (l : list devres_node) (H : dev_wf s l).

(** The entries that find_dr looks for. *)
Definition dr_matches (f : Z) (mat : option dr_match_t) (a : Z) : Prop :=
  ∃ d, dv_drs s !! a = Some d ∧ dr_release d = Release f ∧
    match mat with Some t => t (dr_data_ptr a) (dr_data d) = true | None => True end.

Lemma find_dr_loop_spec f mat k :
  (∀ b, NodeDr b ∈ k → is_Some (dv_drs s !! b)) →
  ∃ a, find_dr_loop s (Release f) mat (reverse k) = Some a ∧ latest NodeDr (dr_matches f mat) k a.
Proof using H.
  induction k as [|n k IH] using rev_ind; intros Hd; [exists 0; split; [done|apply latest_nil]|].
  destruct IH as (a & Hr & Ha); [intros b Hb; apply Hd, elem_of_app; by left|].
  rewrite reverse_snoc. cbn [find_dr_loop].
  destruct n as [b|g|g]; simpl node_release; run; [|rewrite decide_True by done; exists a; split; [done|]; by apply latest_skip..].
  destruct (Hd b) as [d Ed]; [apply elem_of_app; right; left|]. rewrite Ed. run.
  assert (Hb : b ≠ 0) by (destruct (dw_block _ _ H b) as [? _]; [by left; eauto|lia]).
  destruct (decide (dr_release d ≠ Release f)) as [Hf|Hf%dec_stable].
  - exists a. split; [done|]. apply latest_skip; [|done]. intros c [= ->] (d' & E' & Hf' & _). by simplify_eq.
  - destruct mat as [t|]; [|exists b; split; [done|]; apply latest_here; [done|by exists d]].
    destruct (t (dr_data_ptr b) (dr_data d)) eqn:Et; simpl.
    + exists b. split; [done|]. apply latest_here; [done|by exists d].
    + exists a. split; [done|]. apply latest_skip; [|done]. intros c [= ->] (d' & E' & _ & Ht). simplify_eq. congruence.
Qed.

Lemma find_dr_spec f mat : ∃ a, find_dr s (Release f) mat = Some a ∧ latest NodeDr (dr_matches f mat) l a.
Proof using H. unfold find_dr. rewrite (dw_head _ _ H). run. apply find_dr_loop_spec, (dw_drs _ _ H). Qed.

(** The groups that find_group looks for. *)
Definition grp_matches (id g : Z) : Prop :=
  if ctrue id then grp_id <$> dv_grps s !! g = Some id else NodeClose g ∉ l.

Lemma find_group_loop_spec id k :
  (∀ g, NodeOpen g ∈ k → is_Some (dv_grps s !! g)) →
  ∃ g, find_group_loop s id (reverse k) = Some g ∧ latest NodeOpen (grp_matches id) k g.
Proof using H.
  assert (Hon : ∀ n, on_list s n = bool_decide (n ∈ l)) by (intros n; unfold on_list; by rewrite (dw_head _ _ H)).
  induction k as [|n k IH] using rev_ind; intros Hd; [exists 0; split; [done|apply latest_nil]|].
  destruct IH as (a & Hr & Ha); [intros b Hb; apply Hd, elem_of_app; by left|].
  rewrite reverse_snoc. cbn [find_group_loop].
  destruct n as [b|g|g]; [exists a; split; [done|]; by apply latest_skip| |exists a; split; [done|]; by apply latest_skip].
  destruct (Hd g) as [x Ex]; [apply elem_of_app; right; left|]. rewrite Ex. run. rewrite Hon.
  assert (Hg : g ≠ 0) by (destruct (dw_block _ _ H g) as [? _]; [by right; eauto|lia]).
  assert (Hm : grp_matches id g ↔ if ctrue id then grp_id x = id else NodeClose g ∉ l).
  { unfold grp_matches. rewrite Ex. destruct (ctrue id); [|done]. simpl. split; [by intros [= ->]|by intros ->]. }
  assert (Hskip : ¬ grp_matches id g → latest NodeOpen (grp_matches id) (k ++ [NodeOpen g]) a).
  { intros Hn. apply latest_skip; [|done]. by intros b [= ->]. }
  destruct (ctrue id); [destruct (Z.eqb_spec (grp_id x) id)|case_bool_decide; simpl].
  1, 4: exists g; split; [done|]; apply latest_here; [done|tauto].
  all: exists a; split; [done|]; apply Hskip; tauto.
Qed.

Lemma find_group_spec id : ∃ g, find_group s id = Some g ∧ latest NodeOpen (grp_matches id) l g.
Proof using H.
  unfold find_group. rewrite (dw_head _ _ H). run. apply find_group_loop_spec. intros g. apply (dw_grps _ _ H).
Qed.
End search.

(** ** Single operations *)

Section operations.
Context {D : Type}.
Implicit Types (s : @device D) (l : list devres_node) (n : devres_node) (a g : Z).

Lemma paired_snoc l n : paired l → (∀ g, n = NodeClose g → NodeOpen g ∈ l) → paired (l ++ [n]).
Proof.
  intros Hp Hn g [Hg|Hg%list_elem_of_singleton]%elem_of_app.
  - destruct (Hp g Hg) as (l1 & l2 & l3 & ->). exists l1, l2, (l3 ++ [n]). rewrite <- app_assoc. simpl. by rewrite <- app_assoc.
  - destruct (list_elem_of_split l (NodeOpen g)) as (l1 & l2 & ->); [by apply Hn|]. exists l1, l2, [].
    rewrite <- app_assoc. simpl. by subst.
Qed.

Lemma kmalloc_dr_some s answer a : kmalloc_dr s answer = Some a → block a ∧ dv_grps s !! a = None.
Proof. unfold kmalloc_dr. destruct answer; [|done]. case_decide as Ha; [|done]. intros [= ->]. unfold block. tauto. Qed.

Lemma dev_put s l a d f : dev_wf s l → block a → dr_release d = Release f → dev_wf (set_drs (<[a := d]> (dv_drs s)) s) l.
Proof.
  intros [] Hb Hd. split; simpl; try done.
  - intros b Hb'. apply lookup_insert_is_Some'. eauto.
  - intros b d'. rewrite lookup_insert_Some. intros [[<- <-]|[_ E]]; eauto.
  - intros b [Hb'%lookup_insert_is_Some'|Hb']; [destruct Hb' as [<-|]|]; eauto.
Qed.

Lemma dev_drop s l a : dev_wf s l → NodeDr a ∉ l → dev_wf (set_drs (delete a (dv_drs s)) s) l.
Proof.
  intros [] Hn. split; simpl; try done.
  - intros b Hb. rewrite lookup_delete_ne; [eauto|]. by intros ->.
  - intros b d. rewrite lookup_delete_Some. intros [_ E]. eauto.
  - intros b. rewrite lookup_delete_is_Some. intros [[_ ?]|?]; eauto.
Qed.

Lemma dev_add s l a : dev_wf s l → is_Some (dv_drs s !! a) → NodeDr a ∉ l → dev_wf (set_dr_head (l ++ [NodeDr a]) s) (l ++ [NodeDr a]).
Proof.
  intros [] Ha Hn. split; simpl; try done.
  - apply NoDup_app. split_and!; [done| |apply NoDup_singleton]. by intros x Hx ->%list_elem_of_singleton.
  - by apply paired_snoc.
  - intros b [Hb|Hb%list_elem_of_singleton]%elem_of_app; [eauto|congruence].
  - intros g. rewrite dw_grps0, elem_of_app, list_elem_of_singleton. naive_solver.
Qed.

Lemma dev_del s l a : dev_wf s l → dev_wf (set_dr_head (dr_list_del (NodeDr a) l) s) (dr_list_del (NodeDr a) l).
Proof.
  intros []. split; simpl; try done.
  - by apply NoDup_filter.
  - by apply paired_filter.
  - intros b [_ Hb]%elem_of_dr_list_del. eauto.
  - intros g. rewrite dw_grps0, elem_of_dr_list_del. naive_solver.
Qed.

Lemma dev_open s l g x :
  dev_wf s l → block g → dv_grps s !! g = None →
  dev_wf (set_dr_head (l ++ [NodeOpen g]) (set_grps (<[g := x]> (dv_grps s)) s)) (l ++ [NodeOpen g]).
Proof.
  intros H Hb Hg. assert (Hn : NodeOpen g ∉ l) by (rewrite <- (dw_grps _ _ H), Hg; by intros []). destruct H. split; simpl; try done.
  - apply NoDup_app. split_and!; [done| |apply NoDup_singleton]. by intros y Hy ->%list_elem_of_singleton.
  - by apply paired_snoc.
  - intros b [Hb'|Hb'%list_elem_of_singleton]%elem_of_app; [eauto|done].
  - intros h. rewrite lookup_insert_is_Some', dw_grps0, elem_of_app, list_elem_of_singleton. naive_solver.
  - intros b. rewrite lookup_insert_is_Some'. intros [?|[<-|?]]; eauto.
Qed.

Lemma dev_close s l g :
  dev_wf s l → NodeOpen g ∈ l → NodeClose g ∉ l → dev_wf (set_dr_head (l ++ [NodeClose g]) s) (l ++ [NodeClose g]).
Proof.
  intros [] Ho Hn. split; simpl; try done.
  - apply NoDup_app. split_and!; [done| |apply NoDup_singleton]. by intros y Hy ->%list_elem_of_singleton.
  - apply paired_snoc; [done|]. by intros h [= ->].
  - intros b [Hb'|Hb'%list_elem_of_singleton]%elem_of_app; [eauto|done].
  - intros h. rewrite dw_grps0, elem_of_app, list_elem_of_singleton. naive_solver.
Qed.

Lemma dev_ungroup s l g :
  dev_wf s l →
  let l' := dr_list_del (NodeClose g) (dr_list_del (NodeOpen g) l) in
  dev_wf (set_grps (delete g (dv_grps s)) (set_dr_head l' s)) l'.
Proof.
  intros [] l'. assert (Hin : ∀ n, n ∈ l' ↔ other g n ∧ n ∈ l) by (intros n; unfold l'; rewrite !elem_of_dr_list_del; unfold other; tauto).
  split; simpl; try done.
  - by apply NoDup_filter, NoDup_filter.
  - unfold l'. rewrite dr_list_del_both. apply paired_filter; [done|]. intros h _ [_ Hc]. split; naive_solver.
  - intros b [_ Hb]%Hin. eauto.
  - intros h. rewrite lookup_delete_is_Some, dw_grps0, Hin. unfold other. naive_solver.
  - intros b. rewrite lookup_delete_is_Some. intros [?|[_ ?]]; eauto.
Qed.
End operations.

(** ** Theorems *)

Section parts.
Context {D : Type}.
Implicit Types (s : @device D) (l pre rg post : list devres_node).

(** From the opening of the group to its closing, or to the end while it is open. *)
Definition group_part l (g : Z) rg post : Prop :=
  head rg = Some (NodeOpen g) ∧ (last rg = Some (NodeClose g) ∨ NodeClose g ∉ l ∧ post = []).

Lemma group_part_exists s l g l1 l2 :
  dev_wf s l → l = l1 ++ NodeOpen g :: l2 → ∃ rg post, l = l1 ++ rg ++ post ∧ group_part l g rg post ∧
    (if on_list s (NodeClose g) then dr_list_next l (NodeClose g) else Some None) = Some (head post).
Proof.
  intros H Hl. unfold on_list. rewrite (dw_head _ _ H). case_bool_decide as Hc.
  - assert (Hc2 : NodeClose g ∈ l2).
    { pose proof (paired_open l l1 g l2 (dw_nodup _ _ H) (dw_paired _ _ H) Hl). rewrite Hl, elem_of_app, elem_of_cons in Hc. naive_solver. }
    apply list_elem_of_split in Hc2 as (k1 & k2 & ->). exists (NodeOpen g :: k1 ++ [NodeClose g]), k2. split_and!.
    + rewrite Hl. simpl. by rewrite <- app_assoc.
    + split; [done|]. left. by rewrite app_comm_cons, last_snoc.
    + pose proof (dw_nodup _ _ H) as Hnd. rewrite Hl, app_comm_cons, app_assoc in Hnd |- *. apply dr_list_next_mid.
      apply NoDup_app in Hnd as (_ & Hd & _). intros Hin. apply (Hd _ Hin). left.
  - exists (NodeOpen g :: l2), []. rewrite app_nil_r. split_and!; [done| |done]. split; [done|auto].
Qed.

Lemma left_over_all l : paired l → left_over l l = [].
Proof.
  intros Hp. apply filter_none. intros n Hn Hr. unfold remains in Hr. destruct (node_to_group n) as [g|] eqn:Hg; [|done]. apply Hr.
  assert (Ho : NodeOpen g ∈ l); [|split; [done|]; destruct (decide (NodeClose g ∈ l)); auto].
  destruct (marker_cases n g Hg) as [->| ->]; [done|]. destruct (Hp g Hn) as (l1 & l2 & l3 & ->). apply elem_of_app. right. left.
Qed.

End parts.

Section theorems.
Context {D W : Type} (release_fn : Z → D → W → option W).
Implicit Types (s : @device D) (w : W) (l pre rg post : list devres_node).

Lemma devres_release_group_spec s l w id :
  dev_wf s l →
  ((∀ g, NodeOpen g ∈ l → ¬ grp_matches s l id g) ∧ devres_release_group release_fn s w id = Some (s, w, 0)) ∨
  ∃ g pre rg post, l = pre ++ rg ++ post ∧ group_part l g rg post ∧ grp_matches s l id g ∧
    (∀ h, NodeOpen h ∈ l → grp_matches s l id h → h = g ∨ NodeOpen h ∈ pre) ∧
    ∀ w', released release_fn (dv_drs s) (reverse (regular rg)) w = Some w' →
      ∃ s', devres_release_group release_fn s w id = Some (s', w', zlen (regular rg)) ∧ part_released s s' l rg.
Proof.
  intros H. unfold devres_release_group.
  destruct (find_group_spec s l H id) as (g & -> & [[-> Hno]|(Hg & Hm & l1 & l2 & Hl & Hno)]); run; [left; split; [done|reflexivity]|].
  right. unfold ctrue at 1. rewrite (proj2 (Z.eqb_neq g 0) Hg). simpl negb. cbv iota. rewrite (dw_head _ _ H). run.
  destruct (group_part_exists s l g l1 l2 H Hl) as (rg & post & Hl' & Hpart & ->). run.
  exists g, l1, rg, post. split_and!; try done.
  - intros h Hh Hmh. rewrite Hl, elem_of_app, elem_of_cons in Hh. destruct Hh as [Hh|[[= ->]|Hh]]; [auto..|]. by apply Hno in Hh.
  - intros w' Hw. destruct (release_nodes_spec release_fn s l l1 rg post w w' H Hl' Hw) as (s' & Hr & Hp). exists s'.
    split; [|done]. rewrite <- Hr. destruct Hpart as [Hh _]. by destruct rg; simplify_eq/=.
Qed.

Lemma devres_release_all_spec s l w w' :
  dev_wf s l → released release_fn (dv_drs s) (reverse (regular l)) w = Some w' →
  ∃ s', devres_release_all release_fn s w = Some (s', w', zlen (regular l)) ∧ dev_wf s' [] ∧ dv_grps s' = ∅ ∧
    ∀ a, dv_drs s' !! a = if decide (NodeDr a ∈ l) then None else dv_drs s !! a.
Proof.
  intros H Hw. unfold devres_release_all. rewrite (dw_head _ _ H).
  destruct (release_nodes_spec release_fn s l [] l [] w w' H) as (s' & Hr & [Hwf Hd _]); [by rewrite app_nil_r|done|].
  rewrite app_nil_r in Hr. rewrite left_over_all in Hwf by apply (dw_paired _ _ H). exists s'. split_and!; try done.
  apply map_empty. intros g. apply eq_None_not_Some. rewrite (dw_grps _ _ Hwf). by intros ?%elem_of_nil.
Qed.

(** *** Sequences of calls *)

Inductive dev_op :=
| DvAlloc (answer : option Z) (f : Z)
| DvWrite (a : Z) (d : D)
| DvFree (res : Z)
| DvAdd (res : Z)
| DvFind (f : Z) (mat : option (@dr_match_t D))
| DvGet (res : Z) (mat : option (@dr_match_t D))
| DvRemove (f : Z) (mat : option (@dr_match_t D))
| DvDestroy (f : Z) (mat : option (@dr_match_t D))
| DvOpen (answer : option Z) (id : Z)
| DvClose (id : Z)
| DvUngroup (id : Z)
| DvReleaseGroup (id : Z)
| DvReleaseAll
| DvKzalloc (answer : option Z)
| DvKfree (p : Z).

Context (zero : D).

(** [DvWrite] is the driver filling in the data of a devres. *)
Definition dev_step (s : @device D) (w : W) (op : dev_op) : option (device * W) :=
  match op with
  | DvAlloc answer f => Some ((devres_alloc zero s answer (Release f)).1, w)
  | DvWrite a d => x ← dv_drs s !! a; Some (set_drs (<[a := mk_dr (dr_release x) d]> (dv_drs s)) s, w)
  | DvFree res => s ← devres_free s res; Some (s, w)
  | DvAdd res => s ← devres_add s res; Some (s, w)
  | DvFind f mat => _ ← devres_find s (Release f) mat; Some (s, w)
  | DvGet res mat => '(s, _) ← devres_get s res mat; Some (s, w)
  | DvRemove f mat => '(s, _) ← devres_remove s (Release f) mat; Some (s, w)
  | DvDestroy f mat => '(s, _) ← devres_destroy s (Release f) mat; Some (s, w)
  | DvOpen answer id => '(s, _) ← devres_open_group s answer id; Some (s, w)
  | DvClose id => s ← devres_close_group s id; Some (s, w)
  | DvUngroup id => s ← devres_remove_group s id; Some (s, w)
  | DvReleaseGroup id => '(s, w, _) ← devres_release_group release_fn s w id; Some (s, w)
  | DvReleaseAll => '(s, w, _) ← devres_release_all release_fn s w; Some (s, w)
  | DvKzalloc answer => '(s, _) ← devm_kzalloc zero s answer; Some (s, w)
  | DvKfree p => '(s, _) ← devm_kfree s p; Some (s, w)
  end.

(** A devres that is allocated and not on the list. *)
Definition held s l (res : Z) : Prop := ∃ a, res = dr_data_ptr a ∧ is_Some (dv_drs s !! a) ∧ NodeDr a ∉ l.

(** What the callers promise; the code checks none of it.  A devres that is given back or
    registered is one that is allocated and not registered.  devres_get is called where there
    is no match yet: otherwise it frees the wrong block (devres.c:260,
    [devres_get_frees_wrong]).  A group that is closed is not closed yet: otherwise its
    closing marker is added a second time, which is the BUG_ON of add_dr. *)
Definition dev_pre s (op : dev_op) : Prop :=
  ∃ l, devres_head s = Some l ∧
  match op with
  | DvWrite a _ => is_Some (dv_drs s !! a)
  | DvFree res => res = 0 ∨ held s l res
  | DvAdd res => held s l res
  | DvGet res mat => held s l res ∧ ∀ d, dv_drs s !! dr_container res = Some d → find_dr s (dr_release d) mat = Some 0
  | DvClose id => ∀ g, find_group s id = Some g → NodeClose g ∉ l
  | _ => True
  end.

Lemma alloc_dr_spec s l answer f :
  dev_wf s l →
  alloc_dr zero s answer (Release f) = (s, 0) ∨
  ∃ a, block a ∧ a ≠ 0 ∧ dv_drs s !! a = None ∧ dv_grps s !! a = None ∧
    alloc_dr zero s answer (Release f) = (set_drs (<[a := mk_dr (Release f) zero]> (dv_drs s)) s, a).
Proof.
  intros H. unfold alloc_dr, kmalloc_dr. destruct answer as [a|]; [|by left]. case_decide as Ha; [|by left].
  right. exists a. destruct Ha as (? & ? & ? & ?). split_and!; [split|..]; try done. lia.
Qed.

Lemma devres_alloc_step s l answer f : dev_wf s l → dev_wf (devres_alloc zero s answer (Release f)).1 l.
Proof.
  intros H. unfold devres_alloc. destruct (alloc_dr_spec s l answer f H) as [->|(a & Hb & Ha & _ & _ & ->)]; [done|].
  rewrite (proj2 (Z.eqb_neq a 0)) by done. by apply dev_put with f.
Qed.

Lemma devres_free_step s l res : dev_wf s l → res = 0 ∨ held s l res → ∃ s', devres_free s res = Some s' ∧ dev_wf s' l.
Proof.
  intros H [->|(a & -> & Ha & Hn)]; [by exists s|]. destruct (container_ptr a) as (Hc & H0 & _); [apply (dw_block _ _ H); auto|].
  unfold devres_free. rewrite (proj2 (Z.eqb_neq _ 0)), Hc by done. destruct Ha as [d Ed]. rewrite Ed. run.
  unfold on_list. rewrite (dw_head _ _ H), bool_decide_eq_false_2 by done. eexists. split; [done|]. by apply dev_drop.
Qed.

Lemma devres_add_step s l a :
  dev_wf s l → is_Some (dv_drs s !! a) → NodeDr a ∉ l →
  devres_add s (dr_data_ptr a) = Some (set_dr_head (l ++ [NodeDr a]) s) ∧ dev_wf (set_dr_head (l ++ [NodeDr a]) s) (l ++ [NodeDr a]).
Proof.
  intros H Ha Hn. destruct (container_ptr a) as (Hc & _); [apply (dw_block _ _ H); auto|].
  unfold devres_add. rewrite Hc. split; [|by apply dev_add]. destruct Ha as [d ->]. run. unfold add_dr, on_list.
  by rewrite (dw_head _ _ H), bool_decide_eq_false_2.
Qed.

Lemma devres_remove_step s l f mat :
  dev_wf s l → ∃ s' res, devres_remove s (Release f) mat = Some (s', res) ∧ ∃ l', dev_wf s' l' ∧ (res = 0 ∨ held s' l' res).
Proof.
  intros H. unfold devres_remove. destruct (find_dr_spec s l H f mat) as (a & -> & Ha). run.
  destruct Ha as [[-> _]|(Ha & (d & Ed & _) & _)]; [do 2 eexists; split; [done|]; eauto|].
  unfold ctrue. rewrite (proj2 (Z.eqb_neq a 0)) by done. simpl negb. rewrite (dw_head _ _ H). run. do 2 eexists. split; [done|].
  eexists. split; [by apply dev_del|]. right. exists a. split_and!; [done|simpl; eauto|]. rewrite elem_of_dr_list_del. tauto.
Qed.

Lemma devres_destroy_step s l f mat : dev_wf s l → ∃ s' v l', devres_destroy s (Release f) mat = Some (s', v) ∧ dev_wf s' l'.
Proof.
  intros H. unfold devres_destroy. destruct (devres_remove_step s l f mat H) as (s' & res & -> & l' & H' & Hres). run.
  destruct (Z.eqb_spec res 0); [eauto 6|]. destruct (devres_free_step s' l' res H' Hres) as (s2 & -> & H2). run. eauto 6.
Qed.

Lemma devres_get_step s l res mat :
  dev_wf s l → held s l res → (∀ d, dv_drs s !! dr_container res = Some d → find_dr s (dr_release d) mat = Some 0) →
  ∃ s' v l', devres_get s res mat = Some (s', v) ∧ dev_wf s' l'.
Proof.
  intros H (a & -> & Ha & Hn) Hf. destruct (container_ptr a) as (Hc & _); [apply (dw_block _ _ H); auto|].
  destruct (devres_add_step s l a H Ha Hn) as [Hadd Hwf]. unfold devres_add in Hadd. rewrite Hc in Hadd.
  unfold devres_get. rewrite Hc in *. destruct Ha as [d Ed]. rewrite Ed in *. simpl in Hadd. run. rewrite (Hf d eq_refl). run.
  cbn [Z.eqb]. rewrite Hadd. run. eauto.
Qed.

Lemma open_group_step s l answer id : dev_wf s l → ∃ s' v l', devres_open_group s answer id = Some (s', v) ∧ dev_wf s' l'.
Proof.
  intros H. unfold devres_open_group. destruct (kmalloc_dr s answer) as [g|] eqn:Hk; [|eauto 6].
  apply kmalloc_dr_some in Hk as [Hb Hg]. unfold add_dr, on_list. simpl. rewrite (dw_head _ _ H).
  rewrite bool_decide_eq_false_2 by (rewrite <- (dw_grps _ _ H), Hg; by intros []). run. do 3 eexists. split; [done|]. by apply dev_open.
Qed.

Lemma group_op_step s l id : dev_wf s l → (∀ g, find_group s id = Some g → NodeClose g ∉ l) → ∃ s' l', devres_close_group s id = Some s' ∧ dev_wf s' l'.
Proof.
  intros H Hc. unfold devres_close_group. destruct (find_group_spec s l H id) as (g & Hf & Hg). specialize (Hc g Hf). rewrite Hf. run.
  destruct Hg as [[-> _]|(Hg & _ & l1 & l2 & Hl & _)]; [eauto|]. unfold ctrue. rewrite (proj2 (Z.eqb_neq g 0)) by done. simpl negb.
  unfold add_dr, on_list. rewrite (dw_head _ _ H), bool_decide_eq_false_2 by done. run. do 2 eexists. split; [done|].
  apply dev_close; [done| |done]. rewrite Hl. apply elem_of_app. right. left.
Qed.

Lemma remove_group_step s l id : dev_wf s l → ∃ s' l', devres_remove_group s id = Some s' ∧ dev_wf s' l'.
Proof.
  intros H. unfold devres_remove_group. destruct (find_group_spec s l H id) as (g & -> & Hg). run.
  destruct Hg as [[-> _]|(Hg & _)]; [eauto|]. unfold ctrue. rewrite (proj2 (Z.eqb_neq g 0)) by done. simpl negb. cbv iota.
  rewrite (dw_head _ _ H). run. do 2 eexists. split; [done|]. by apply dev_ungroup.
Qed.

Lemma kzalloc_step s l answer : dev_wf s l → ∃ s' v l', devm_kzalloc zero s answer = Some (s', v) ∧ dev_wf s' l'.
Proof.
  intros H. unfold devm_kzalloc. destruct (alloc_dr_spec s l answer devm_kzalloc_release H) as [->|(a & Hb & Ha & Hno & _ & ->)]; [eauto 6|].
  rewrite (proj2 (Z.eqb_neq a 0)) by done. set (s1 := set_drs _ s).
  assert (H1 : dev_wf s1 l) by by apply dev_put with devm_kzalloc_release.
  destruct (devres_add_step s1 l a) as [-> Hwf]; [done|simpl; rewrite lookup_insert_eq; eauto| |].
  { intros Hin. apply (dw_drs _ _ H) in Hin as [? ?]. congruence. }
  run. eauto.
Qed.

Section total.
Context (Hrel : ∀ f d w, is_Some (release_fn f d w)).

Lemma released_total s l k w : dev_wf s l → (∀ n, n ∈ k → n ∈ l ∧ ¬ is_marker n) → is_Some (released release_fn (dv_drs s) k w).
Proof using Hrel.
  intros H. revert w. induction k as [|n k IH]; intros w Hk; [by eexists|]. simpl.
  destruct (Hk n) as [Hn Hm]; [left|]. destruct n as [a|g|g]; [|exfalso; apply Hm; by eexists..].
  destruct (dw_drs _ _ H a Hn) as [d Ed]. rewrite Ed. run. destruct (dw_release _ _ H a d Ed) as [f ->].
  destruct (Hrel f (dr_data d) w) as [w' ->]. run. apply IH. intros m Hm'. apply Hk. by right.
Qed.

Lemma regular_released s l rg w : dev_wf s l → (∀ n, n ∈ rg → n ∈ l) → is_Some (released release_fn (dv_drs s) (reverse (regular rg)) w).
Proof using Hrel.
  intros H Hrg. apply (released_total s l); [done|]. intros n. rewrite elem_of_reverse, elem_of_regular. naive_solver.
Qed.

Lemma dev_step_wf s l w op : dev_wf s l → dev_pre s op → ∃ s' w' l', dev_step s w op = Some (s', w') ∧ dev_wf s' l'.
Proof using Hrel.
  intros H (l' & Hl' & Hp). assert (l' = l) as -> by (pose proof (dw_head _ _ H); congruence). destruct op; simpl in *.
  - do 3 eexists. split; [done|]. by apply devres_alloc_step.
  - destruct Hp as [x Ex]. rewrite Ex. run. do 3 eexists. split; [done|]. destruct (dw_release _ _ H a x Ex) as [f Hf].
    apply dev_put with f; [done| |done]. apply (dw_block _ _ H). eauto.
  - destruct (devres_free_step s l res H Hp) as (s' & -> & ?). run. eauto.
  - destruct Hp as (a & -> & Ha & Hn). destruct (devres_add_step s l a H Ha Hn) as [-> ?]. run. eauto.
  - unfold devres_find. destruct (find_dr_spec s l H f mat) as (a & -> & _). run. eauto.
  - destruct Hp as [Hh Hf]. destruct (devres_get_step s l res mat H Hh Hf) as (s' & v & k & -> & ?). run. eauto.
  - destruct (devres_remove_step s l f mat H) as (s' & v & -> & k & ? & _). run. eauto.
  - destruct (devres_destroy_step s l f mat H) as (s' & v & k & -> & ?). run. eauto.
  - destruct (open_group_step s l answer id H) as (s' & v & k & -> & ?). run. eauto.
  - destruct (group_op_step s l id H Hp) as (s' & k & -> & ?). run. eauto.
  - destruct (remove_group_step s l id H) as (s' & k & -> & ?). run. eauto.
  - destruct (devres_release_group_spec s l w id H) as [[_ ->]|(g & pre & rg & post & Hl & _ & _ & _ & Hrun)]; [run; eauto|].
    destruct (regular_released s l rg w H) as [w' Hw]; [intros n Hn; rewrite Hl, !elem_of_app; tauto|].
    destruct (Hrun w' Hw) as (s' & -> & [? _ _]). run. eauto.
  - destruct (regular_released s l l w H) as [w' Hw]; [done|].
    destruct (devres_release_all_spec s l w w' H Hw) as (s' & -> & ? & _). run. eauto.
  - destruct (kzalloc_step s l answer H) as (s' & v & k & -> & ?). run. eauto.
  - destruct (devres_destroy_step s l devm_kzalloc_release (Some (devm_kzalloc_match p)) H) as (s' & v & k & Hd & ?).
    unfold devm_kfree. rewrite Hd. run. eauto.
Qed.
End total.

Fixpoint dev_run s w (ops : list dev_op) : option (device * W) :=
  match ops with
  | [] => Some (s, w)
  | op :: ops => '(s, w) ← dev_step s w op; dev_run s w ops
  end.

Fixpoint dev_legal s w (ops : list dev_op) : Prop :=
  match ops with
  | [] => True
  | op :: ops => dev_pre s op ∧ ∀ s' w', dev_step s w op = Some (s', w') → dev_legal s' w' ops
  end.

Lemma dev_run_wf ops s l w :
  (∀ f d w, is_Some (release_fn f d w)) → dev_wf s l → dev_legal s w ops → ∃ s' w' l', dev_run s w ops = Some (s', w') ∧ dev_wf s' l'.
Proof.
  intros Hrel. revert s l w. induction ops as [|op ops IH]; intros s l w H Hleg; [simpl; eauto|].
  destruct Hleg as [Hp Hnext]. destruct (dev_step_wf Hrel s l w op H Hp) as (s1 & w1 & l1 & Hstep & H1). simpl. rewrite Hstep. run.
  by apply (IH s1 l1 w1); [|apply Hnext].
Qed.
End theorems.

Lemma device_initialize_wf {D} : dev_wf (@device_initialize D) [].
Proof.
  split; simpl; try done.
  - constructor.
  - by intros g ?%elem_of_nil.
  - by intros a ?%elem_of_nil.
  - intros g. rewrite elem_of_nil, lookup_empty, is_Some_alt. done.
  - intros a. rewrite !lookup_empty. by intros [[]|[]].
Qed.

(** A small system: the data are numbers, and releasing writes them down. *)
Definition note_release (f d : Z) (w : list Z) : option (list Z) := Some (w ++ [d]).

(** An entry; the group 7 with two more, into which another group reaches; an entry
    behind both. *)
Definition demo_calls : list (@dev_op Z) :=
  [DvAlloc (Some 100) 5; DvWrite 100 1; DvAdd 116; DvOpen (Some 200) 7; DvAlloc (Some 300) 5; DvWrite 300 2; DvAdd 316;
   DvOpen (Some 400) 0; DvAlloc (Some 500) 5; DvWrite 500 3; DvAdd 516; DvClose 7; DvClose 400; DvKzalloc (Some 600)].
Definition demo_part : list devres_node := [NodeOpen 200; NodeDr 300; NodeOpen 400; NodeDr 500; NodeClose 200].
Definition demo_list : list devres_node := [NodeDr 100] ++ demo_part ++ [NodeClose 400; NodeDr 600].
Definition demo_device : @device Z :=
  match dev_run note_release 0 device_initialize [] demo_calls with Some (s, _) => s | None => device_initialize end.

#[local] Ltac dev_legal_step :=
  split; [eexists; split; [vm_compute; reflexivity|try exact I]|
          let Hs := fresh in intros ? ? Hs; vm_compute in Hs; injection Hs as <- <-].
#[local] Ltac dev_known := vm_compute; by eexists.
#[local] Ltac not_listed := apply (bool_decide_unpack _); vm_compute; exact I.
#[local] Ltac dev_held a := exists a; split; [vm_compute; reflexivity|split; [dev_known|not_listed]].
#[local] Ltac dev_closed := let Hs := fresh in intros ? Hs; vm_compute in Hs; injection Hs as <-; not_listed.

Lemma demo_calls_legal : dev_legal note_release 0 device_initialize [] demo_calls.
Proof.
  dev_legal_step. dev_legal_step; [dev_known|]. dev_legal_step; [dev_held 100|]. do 2 dev_legal_step. dev_legal_step; [dev_known|].
  dev_legal_step; [dev_held 300|]. do 2 dev_legal_step. dev_legal_step; [dev_known|]. dev_legal_step; [dev_held 500|]. dev_legal_step; [dev_closed|]. dev_legal_step; [dev_closed|].
  by dev_legal_step.
Qed.

Lemma demo_device_wf : dev_wf demo_device demo_list.
Proof.
  destruct (dev_run_wf note_release 0 demo_calls device_initialize [] []) as (s & w & l & Hr & H); [by eexists|apply device_initialize_wf|apply demo_calls_legal|].
  assert (s = demo_device) as -> by (unfold demo_device; by rewrite Hr).
  pose proof (dw_head _ _ H) as Hl. vm_compute in Hl. injection Hl as <-. exact H.
Qed.

(** *** The properties *)

(** C37: From the initialisation of a device on, over any sequence of calls whose callers keep
    their promises (a devres that is freed or registered is allocated and not registered,
    devres_get is only called where there is no match yet, and no group is closed twice), with
    release callbacks that return, and with any failures of memory, no BUG is reached and no pointer is
    followed to memory that has been freed: the list holds nothing twice and only what is
    in memory, and groups are on it and closed after they were opened. *)
Theorem devres_invariant {D W} (zero : D) (release_fn : Z → D → W → option W) ops w :
  (∀ f d w, is_Some (release_fn f d w)) → dev_legal release_fn zero device_initialize w ops →
  ∃ s w' l, dev_run release_fn zero device_initialize w ops = Some (s, w') ∧ dev_wf s l.
Proof. intros Hrel Hleg. by apply (dev_run_wf release_fn zero ops device_initialize [] w); [|apply device_initialize_wf|]. Qed.

Lemma devres_invariant_witness :
  ∃ s w l, dev_run note_release 0 device_initialize [] demo_calls = Some (s, w) ∧ dev_wf s l.
Proof. apply (devres_invariant 0 note_release demo_calls []); [intros f d w; by eexists|apply demo_calls_legal]. Defined.

(** C38: devres_release_group takes the latest group with the given id, or the latest open one.
    It releases exactly the entries from its opening to its closing (to the end of the list
    while it is open), the last one first, frees them, and answers their number.  The
    markers of the groups that lie in that part as a whole are removed and these groups
    freed; everything else, the markers of groups that reach out of the part included,
    stays in its order.  Without such a group nothing happens. *)
Theorem devres_release_group_correct {D W} (release_fn : Z → D → W → option W) (s : @device D) l w id :
  dev_wf s l →
  ((∀ g, NodeOpen g ∈ l → ¬ grp_matches s l id g) ∧ devres_release_group release_fn s w id = Some (s, w, 0)) ∨
  ∃ g pre rg post, l = pre ++ rg ++ post ∧ group_part l g rg post ∧ grp_matches s l id g ∧
    (∀ h, NodeOpen h ∈ l → grp_matches s l id h → h = g ∨ NodeOpen h ∈ pre) ∧
    ∀ w', released release_fn (dv_drs s) (reverse (regular rg)) w = Some w' →
      ∃ s', devres_release_group release_fn s w id = Some (s', w', zlen (regular rg)) ∧ part_released s s' l rg.
Proof. intros H. by apply devres_release_group_spec. Qed.

(** In the demo the group 7 is released with its two entries, the last one first; the
    group that reaches out of it keeps its markers. *)
Lemma devres_release_group_correct_witness :
  ∃ s', devres_release_group note_release demo_device [] 7 = Some (s', [3; 2], 2) ∧
    part_released demo_device s' demo_list demo_part ∧
    devres_head s' = Some [NodeDr 100; NodeOpen 400; NodeClose 400; NodeDr 600].
Proof.
  destruct (devres_release_group_correct note_release demo_device demo_list [] 7 demo_device_wf)
    as [[Hno _]|(g & pre & rg & post & Hl & [Hh Hlast] & Hm & _ & Hrun)].
  { exfalso. apply (Hno 200); [apply (bool_decide_unpack _); vm_compute; exact I|]. vm_compute. reflexivity. }
  pose proof (dw_nodup _ _ demo_device_wf) as Hnd.
  destruct rg as [|n rg]; [done|]. injection Hh as ->.
  assert (Hg : NodeOpen g ∈ demo_list) by (rewrite Hl; apply elem_of_app; right; left).
  apply list_elem_of_In in Hg. simpl in Hg. repeat (destruct Hg as [Hg|Hg]; [try discriminate Hg; injection Hg as <-|]); [| |done].
  2: { vm_compute in Hm. done. }
  destruct Hlast as [Hlast|[Hc _]]; [|exfalso; apply Hc, (bool_decide_unpack _); vm_compute; exact I].
  apply last_Some in Hlast as [k Hk]. assert (Hpart : NodeOpen 200 :: rg = demo_part).
  { rewrite Hk in Hl |- *. rewrite <- app_assoc, app_assoc in Hl.
    destruct (NoDup_place (NodeClose 200) [NodeDr 100; NodeOpen 200; NodeDr 300; NodeOpen 400; NodeDr 500] [NodeClose 400; NodeDr 600]
      (pre ++ k) post Hnd Hl) as [Hpk _]. destruct k as [|y k]; [by simplify_list_eq|]. injection Hk as <- Hk.
    destruct (NoDup_place (NodeOpen 200) [NodeDr 100] [NodeDr 300; NodeOpen 400; NodeDr 500] pre k) as [_ <-]; [|done|done].
    apply (bool_decide_unpack _). vm_compute. exact I. }
  rewrite Hpart in Hrun. destruct (Hrun [3; 2]) as (s' & Hr & Hp); [vm_compute; reflexivity|]. exists s'. split; [exact Hr|]. split; [exact Hp|].
  vm_compute in Hr. injection Hr as <-. reflexivity.
Defined.

(** ** A flaw *)

(** devres_get, when there is already a matching entry, gives back the new one by the address
    of the devres instead of that of its data: it looks for a devres in front of it. *)
Theorem devres_get_frees_wrong {D} (s : @device D) l a d f mat b :
  dev_wf s l → dv_drs s !! a = Some d → dr_release d = Release f → find_dr s (Release f) mat = Some b → b ≠ 0 →
  dv_drs s !! (u32 (a - DEVRES_DATA)) = None → devres_get s (dr_data_ptr a) mat = None.
Proof.
  intros H Ed Hf Hb Hb0 Hno. destruct (container_ptr a) as (Hc & _); [apply (dw_block _ _ H); eauto|].
  assert (a ≠ 0) by (destruct (dw_block _ _ H a) as [? _]; [eauto|lia]).
  unfold devres_get. rewrite Hc, Ed. run. rewrite Hf, Hb. run. rewrite (proj2 (Z.eqb_neq b 0)) by done. run.
  unfold devres_free. rewrite (proj2 (Z.eqb_neq a 0)) by done. unfold dr_container. by rewrite Hno.
Qed.
