(* ===== verification/DevresRegion.v ===== *)
(** Managed regions (the devm functions of kernel/resource.c): a driver requests busy
    regions for its device, and they are released with the other resources of the device.

    Here the managed resources of Devres.v meet the resource tree: the data of a devres is
    the region it stands for, and what its release function changes is the tree.  The
    theorem says that a driver that requests regions in a group and gives the group up
    leaves the tree and the device as it found them. *)

From stdpp Require Import strings.
From S2P Require Import Prelude Resource ResourceInv ResourceOps ResourceRegion ResourceTree Devres DevresInv.

(** ** The code *)

Record region_devres := mk_rd { rd_parent : Z; rd_start : Z; rd_n : Z }.
#[global] Instance region_devres_eq_dec : EqDecision region_devres.
Proof. solve_decision. Defined.

Definition zero_rd : region_devres := mk_rd 0 0 0.

(** The number of the function devm_region_release, and what the release functions of a
    device with memory and regions do to the tree. *)
Definition devm_region_release_fn : Z := 2.
Definition devm_region_release (this : region_devres) (m : res_mem) : option res_mem :=
  '(m, _, _) ← __release_region m (rd_parent this) (rd_start this) (rd_n this);
  Some m.
Definition devm_release (f : Z) (this : region_devres) (m : res_mem) : option res_mem :=
  if f =? devm_region_release_fn then devm_region_release this m
  else if f =? devm_kzalloc_release then Some m
  else None.

Definition devm_region_match (mat : region_devres) (_ : Z) (this : region_devres) : bool :=
  (rd_parent this =? rd_parent mat) && (rd_start this =? rd_start mat) && (rd_n this =? rd_n mat).

(** [dr->field = ...] for the data at a pointer. *)
Definition set_dr_data (s : @device region_devres) (res : Z) (d : region_devres) : option device :=
  x ← dv_drs s !! dr_container res;
  Some (set_drs (<[dr_container res := mk_dr (dr_release x) d]> (dv_drs s)) s).

(** The answers of the two allocations are arguments; the result is the region or NULL.
    Without flags the request never waits. *)
Definition __devm_request_region (s : @device region_devres) (m : res_mem) (dr_answer answer : option Z)
    (parent start n : Z) (name : string) : option (device * res_mem * Z) :=
  let '(s, dr) := devres_alloc zero_rd s dr_answer (Release devm_region_release_fn) in
  if dr =? 0 then Some (s, m, 0)
  else
    s ← set_dr_data s dr (mk_rd parent start n);
    '(m, e) ← __request_region m answer parent start n name 0;
    match e with
    | Granted res => s ← devres_add s dr; Some (s, m, res)
    | Refused => s ← devres_free s dr; Some (s, m, 0)
    | Asleep _ _ => None
    end.

(** With the state: the answer that the WARN_ON looks at. *)
Definition __devm_release_region (s : @device region_devres) (m : res_mem) (parent start n : Z)
    : option (device * res_mem * Z) :=
  let match_data := mk_rd parent start n in
  '(m, _, _) ← __release_region m parent start n;
  '(s, rc) ← devres_destroy s (Release devm_region_release_fn) (Some (devm_region_match match_data));
  Some (s, m, rc).

(** ** Requests of a driver *)

Record region_request := mk_rq { rq_dr : option Z; rq_res : option Z; rq_parent : Z; rq_start : Z; rq_n : Z; rq_name : string }.

Fixpoint devm_requests (s : @device region_devres) (m : res_mem) (rqs : list region_request) : option (device * res_mem) :=
  match rqs with
  | [] => Some (s, m)
  | rq :: rqs =>
      '(s, m, _) ← __devm_request_region s m (rq_dr rq) (rq_res rq) (rq_parent rq) (rq_start rq) (rq_n rq) (rq_name rq);
      devm_requests s m rqs
  end.

(** The parent is in the tree, the range is one. *)
Definition request_ok (m : res_mem) (rq : region_request) : Prop :=
  is_Some (m !! rq_parent rq) ∧ 0 ≤ rq_start rq < 2 ^ 32 ∧ 1 ≤ rq_n rq < 2 ^ 32.

(** Entries that can be released to get from any tree that looks like [m'] to one that looks like [m]. *)
Definition undo (drs : gmap Z (@devres region_devres)) (k : list devres_node) (m m' : res_mem) : Prop :=
  ∀ mA, res_wf mA → view mA = view m' →
    ∃ mB, released devm_release drs (reverse k) mA = Some mB ∧ res_wf mB ∧ view mB = view m.

Lemma undo_nil drs m : undo drs [] m m.
Proof. intros mA Hwf Hv. by exists mA. Qed.

Lemma released_app {D W} (f : Z → D → W → option W) drs k1 k2 w :
  released f drs (k1 ++ k2) w = (w ← released f drs k1 w; released f drs k2 w).
Proof.
  revert w. induction k1 as [|n k1 IH]; intros w; [done|]. simpl. destruct n as [a|g|g]; [|done..].
  destruct (drs !! a) as [d|]; [|done]. run. destruct (dr_release d); try done. destruct (f _ _ _); [|done]. run. apply IH.
Qed.

Lemma undo_app drs k1 k2 m m1 m2 : undo drs k1 m m1 → undo drs k2 m1 m2 → undo drs (k1 ++ k2) m m2.
Proof.
  intros H1 H2 mA Hwf Hv. destruct (H2 mA Hwf Hv) as (mB & Hr & HwfB & HvB). destruct (H1 mB HwfB HvB) as (mC & Hr' & ? & ?).
  exists mC. split; [|done]. by rewrite reverse_app, released_app, Hr.
Qed.

Lemma undo_kept drs drs' k m m' : (∀ a, NodeDr a ∈ k → drs' !! a = drs !! a) → undo drs k m m' → undo drs' k m m'.
Proof.
  intros Hk Hu mA Hwf Hv. destruct (Hu mA Hwf Hv) as (mB & Hr & ?). exists mB. split; [|done]. rewrite <- Hr.
  apply released_kept. intros a Ha. apply Hk. by rewrite elem_of_reverse in Ha.
Qed.

(** A request without flags never waits; what it grants can be given back. *)
Lemma request_granted m answer p start n name :
  res_wf m → is_Some (m !! p) → 0 ≤ start < 2 ^ 32 → 1 ≤ n < 2 ^ 32 →
  __request_region m answer p start n name 0 = Some (m, Refused) ∨
  ∃ m' res, __request_region m answer p start n name 0 = Some (m', Granted res) ∧ res_wf m' ∧
    (∀ q, is_Some (m !! q) → is_Some (m' !! q)) ∧
    ∀ mA, res_wf mA → view mA = view m' →
      ∃ mB wake, __release_region mA p start n = Some (mB, res, wake) ∧ res_wf mB ∧ view mB = view m.
Proof.
  intros H [r E] Hs Hn. destruct (__request_region_spec m answer p r start n name 0) as [[_ ->]|(res & m' & e & Hk & Hrun & Hwf & Hr)]; [done..|by left|].
  assert (answer = Some res) as -> by (unfold kzalloc in Hk; destruct answer; [|done]; case_decide; congruence).
  apply kzalloc_loose in Hk as [_ Hnone]. inversion Hr as [m1 q _ _ _ _ Hwf' Hv|_|c rc _ _ Hmx]; subst.
  - right. exists m', res. split_and!; try done.
    + intros x [rx Ex]. assert (x ≠ res) by congruence.
      assert (Hvx : view m' !! x = Some (view1 rx)) by (rewrite Hv, view_insert, !lookup_insert_ne by done; by apply view_some).
      apply view_some_inv in Hvx as (? & ? & _). eauto.
    + intros mA HwfA HvA. by apply (region_given_back m res p r start n name 0 m' mA).
  - left. rewrite Hrun. do 2 f_equal. by apply delete_insert_id.
  - by rewrite Z.land_0_r, Z.land_0_l in Hmx.
Qed.

(** One managed request: at most one new entry, with which it can be undone. *)
Definition grown (s s' : @device region_devres) (l k : list devres_node) : Prop :=
  dev_wf s' (l ++ k) ∧ dv_grps s' = dv_grps s ∧
  (∀ x, x ∈ k → ∃ a, x = NodeDr a ∧ dv_drs s !! a = None) ∧ (∀ a, NodeDr a ∉ k → dv_drs s' !! a = dv_drs s !! a).

Lemma grown_refl s l : dev_wf s l → grown s s l [].
Proof. intros H. split_and!; try done; [by rewrite app_nil_r|]. by intros x ?%elem_of_nil. Qed.

Lemma devm_request_step s l m dra answer p start n name :
  dev_wf s l → res_wf m → is_Some (m !! p) → 0 ≤ start < 2 ^ 32 → 1 ≤ n < 2 ^ 32 →
  ∃ s' m' v k, __devm_request_region s m dra answer p start n name = Some (s', m', v) ∧ res_wf m' ∧
    (∀ q, is_Some (m !! q) → is_Some (m' !! q)) ∧ grown s s' l k ∧ undo (dv_drs s') k m m'.
Proof.
  intros H Hm Hp Hs Hn. unfold __devm_request_region, devres_alloc.
  destruct (alloc_dr_spec zero_rd s l dra devm_region_release_fn H) as [->|(a & Hb & Ha & Hno & _ & ->)].
  { exists s, m, 0, []. split_and!; try done; [by apply grown_refl|apply undo_nil]. }
  destruct (container_ptr a Hb) as (Hc & Hp0 & _). rewrite (proj2 (Z.eqb_neq a 0)) by done. cbv iota.
  rewrite (proj2 (Z.eqb_neq (dr_data_ptr a) 0)) by done. unfold set_dr_data. rewrite Hc. simpl dv_drs. rewrite lookup_insert_eq. run.
  rewrite insert_insert_eq. set (d := mk_dr _ _). set (s1 := set_drs _ (set_drs _ s)).
  assert (Hs1 : s1 = set_drs (<[a := d]> (dv_drs s)) s) by by destruct s. clearbody s1.
  assert (H1 : dev_wf s1 l) by (rewrite Hs1; by apply dev_put with devm_region_release_fn).
  assert (Hal : NodeDr a ∉ l) by (intros Hin; apply (dw_drs _ _ H) in Hin as [? ?]; congruence).
  assert (Ed : dv_drs s1 !! a = Some d) by (rewrite Hs1; apply lookup_insert_eq).
  destruct (request_granted m answer p start n name Hm Hp Hs Hn) as [->|(m' & res & -> & Hm' & Hk & Hback)]; run.
  - unfold devres_free. rewrite (proj2 (Z.eqb_neq (dr_data_ptr a) 0)), Hc, Ed by done. run. unfold on_list.
    rewrite (dw_head _ _ H1), bool_decide_eq_false_2 by done. run. exists s, m, 0, []. split_and!; try done; [|by apply grown_refl|apply undo_nil].
    rewrite Hs1. simpl. rewrite delete_insert_id by done. by destruct s.
  - destruct (devres_add_step s1 l a H1) as [-> Hwf]; [eauto|done|]. run. do 3 eexists. exists [NodeDr a]. split_and!; try done.
    + split_and!; try done; [by rewrite Hs1|intros x ->%list_elem_of_singleton; eauto|].
      intros b Hb'. rewrite Hs1. apply lookup_insert_ne. intros ->. apply Hb'. left.
    + intros mA HwfA HvA. destruct (Hback mA HwfA HvA) as (mB & wake & Hr & ? & ?). exists mB. split; [|done].
      simpl. rewrite Ed. run. unfold devm_release, devm_region_release. simpl. by rewrite Hr.
Qed.

Lemma devm_requests_spec rqs s l m :
  dev_wf s l → res_wf m → (∀ rq, rq ∈ rqs → request_ok m rq) →
  ∃ s' m' k, devm_requests s m rqs = Some (s', m') ∧ res_wf m' ∧ grown s s' l k ∧ undo (dv_drs s') k m m'.
Proof.
  revert s l m. induction rqs as [|rq rqs IH]; intros s l m H Hm Hok.
  { exists s, m, []. split_and!; try done; [by apply grown_refl|apply undo_nil]. }
  destruct (Hok rq) as (Hp & Hs & Hn); [left|]. simpl.
  destruct (devm_request_step s l m (rq_dr rq) (rq_res rq) _ _ _ (rq_name rq) H Hm Hp Hs Hn)
    as (s1 & m1 & v & k1 & -> & Hm1 & Hk & (Hwf1 & Hg1 & Hnew1 & Hold1) & Hu1). run.
  destruct (IH s1 (l ++ k1) m1) as (s2 & m2 & k2 & -> & Hm2 & (Hwf2 & Hg2 & Hnew2 & Hold2) & Hu2); [done..| |].
  { intros rq' Hin. destruct (Hok rq') as (? & ?); [by right|]. split; [by apply Hk|done]. }
  assert (H12 : ∀ a, NodeDr a ∈ k1 → NodeDr a ∉ k2).
  { intros a Ha1 Ha2. destruct (Hnew2 _ Ha2) as (b & [= <-] & Hno). destruct (dw_drs _ _ Hwf1 a) as [? ?]; [apply elem_of_app; by right|congruence]. }
  exists s2, m2, (k1 ++ k2). split_and!; try done.
  - split_and!; [by rewrite app_assoc|congruence| |].
    + intros x [Hx|Hx]%elem_of_app; [by apply Hnew1|]. destruct (Hnew2 x Hx) as (a & -> & Hno). exists a. split; [done|].
      rewrite <- Hold1; [done|]. intros Ha1. by apply (H12 a).
    + intros a [Ha1 Ha2]%not_elem_of_app. by rewrite Hold2, Hold1.
  - apply undo_app with m1; [|done]. apply (undo_kept (dv_drs s1)); [|done]. intros a Ha. apply Hold2. by apply H12.
Qed.

(** All that was registered since a group was opened is the part of the group. *)
Lemma open_part l g k rg pre post :
  NoDup (l ++ NodeOpen g :: k) → (∀ x, x ∈ k → ∃ a, x = NodeDr a) → l ++ NodeOpen g :: k = pre ++ rg ++ post →
  group_part (l ++ NodeOpen g :: k) g rg post → NodeClose g ∉ l ++ NodeOpen g :: k → pre = l ∧ rg = NodeOpen g :: k ∧ post = [].
Proof.
  intros Hnd Hk Hl [Hh [Hlast|[_ ->]]] Hc.
  - exfalso. apply Hc. rewrite Hl, !elem_of_app. right. left. apply last_Some in Hlast as [k' ->]. apply elem_of_app. right. left.
  - rewrite app_nil_r in Hl. destruct rg as [|x rg]; [done|]. injection Hh as ->. apply NoDup_place in Hl as [-> ->]; done.
Qed.

Lemma left_over_group l g k :
  NoDup (l ++ NodeOpen g :: k) → (∀ x, x ∈ k → ∃ a, x = NodeDr a) → NodeClose g ∉ l ++ NodeOpen g :: k →
  left_over (l ++ NodeOpen g :: k) (NodeOpen g :: k) = l.
Proof.
  intros Hnd Hk Hc. unfold left_over. rewrite filter_app, (filter_all _ l).
  - rewrite filter_none, app_nil_r; [done|]. intros x Hx. unfold remains. destruct (node_to_group x) as [h|] eqn:Hg; [|tauto].
    apply elem_of_cons in Hx as [->|Hx]; [|destruct (Hk x Hx) as [a ->]; done]. injection Hg as <-. intros Hw. apply Hw.
    split; [left|by right].
  - intros x Hx. apply (outside_remains _ l (NodeOpen g :: k) []); [by rewrite app_nil_r|done|auto].
Qed.

Lemma open_group_fresh {D} (s s1 : @device D) l answer id gid :
  dev_wf s l → devres_open_group s answer id = Some (s1, gid) → gid ≠ 0 →
  ∃ g, dv_grps s !! g = None ∧ NodeClose g ∉ l ∧ dev_wf s1 (l ++ [NodeOpen g]) ∧ dv_drs s1 = dv_drs s ∧
    dv_grps s1 = <[g := mk_grp gid 0]> (dv_grps s).
Proof.
  intros H. unfold devres_open_group. destruct (kmalloc_dr s answer) as [g|] eqn:Hk; [|by intros [= -> <-]].
  apply kmalloc_dr_some in Hk as [Hb Hg]. assert (Ho : NodeOpen g ∉ l) by (rewrite <- (dw_grps _ _ H), Hg; by intros []).
  unfold add_dr, on_list. simpl. rewrite (dw_head _ _ H), bool_decide_eq_false_2 by done. run. intros [= <- <-] _.
  exists g. split_and!; try done; [|by apply dev_open]. intros Hc. apply Ho. destruct (dw_paired _ _ H g Hc) as (l1 & l2 & l3 & ->).
  apply elem_of_app. right. left.
Qed.

(** The group that was opened last is the one that is found, and its part is what was
    registered since. *)
Lemma release_open_group s l g k gid w w' :
  dev_wf s (l ++ NodeOpen g :: k) → (∀ x, x ∈ k → ∃ a, x = NodeDr a) → NodeClose g ∉ l ++ NodeOpen g :: k →
  gid ≠ 0 → grp_id <$> dv_grps s !! g = Some gid → released devm_release (dv_drs s) (reverse k) w = Some w' →
  ∃ s' cnt, devres_release_group devm_release s w gid = Some (s', w', cnt) ∧
    part_released s s' (l ++ NodeOpen g :: k) (NodeOpen g :: k).
Proof.
  intros H Hk Hc Hgid Hg Hw. set (l2 := l ++ NodeOpen g :: k) in *. pose proof (dw_nodup _ _ H) as Hnd.
  assert (Hm : grp_matches s l2 gid g) by (unfold grp_matches, ctrue; by rewrite (proj2 (Z.eqb_neq gid 0))).
  assert (Hin : NodeOpen g ∈ l2) by (apply elem_of_app; right; left).
  destruct (devres_release_group_spec devm_release s l2 w gid H) as [[Hno _]|(g' & pre & rg & post & Hl & Hpart & _ & Hlast & Hrun)];
    [by apply Hno in Hm|].
  destruct (Hlast g Hin Hm) as [<-|Hpre].
  - destruct (open_part l g k rg pre post) as (-> & -> & ->); [done..|].
    assert (Hreg : regular (NodeOpen g :: k) = k).
    { unfold regular. rewrite filter_cons_False by (intros Hn; apply Hn; by eexists). apply filter_all.
      intros x Hx. destruct (Hk x Hx) as [a ->]. by intros []. }
    rewrite Hreg in Hrun. destruct (Hrun w' Hw) as (s' & Hr & Hp). eauto.
  - exfalso. apply list_elem_of_split in Hpre as (p1 & p2 & ->). rewrite <- app_assoc in Hl. simpl in Hl.
    apply NoDup_place in Hl as [_ Hl]; [|done]. destruct Hpart as [Hh _]. destruct rg as [|x rg]; [done|]. injection Hh as ->.
    destruct (Hk (NodeOpen g')) as [a ?]; [|done]. rewrite Hl, !elem_of_app. right. left. left.
Qed.

(** C39: A driver that opens a group, requests any regions for its device, of which any number
    may be refused for lack of room or of memory, and then releases the group (because it
    cannot go on, or because it is detached) leaves the resource tree and the list and
    memory of the device as they were before: nothing faults, every region that was granted
    is found and given back, and nothing else is touched. *)
Theorem devm_group_restores s l m answer id s1 gid rqs :
  dev_wf s l → res_wf m → (∀ rq, rq ∈ rqs → request_ok m rq) →
  devres_open_group s answer id = Some (s1, gid) → gid ≠ 0 →
  ∃ s2 m2 s3 m3 cnt, devm_requests s1 m rqs = Some (s2, m2) ∧
    devres_release_group devm_release s2 m2 gid = Some (s3, m3, cnt) ∧
    res_wf m3 ∧ view m3 = view m ∧ dev_wf s3 l ∧ dv_drs s3 = dv_drs s ∧
    ∀ g, grp_id <$> dv_grps s3 !! g = grp_id <$> dv_grps s !! g.
Proof.
  intros H Hm Hok Hopen Hgid.
  destruct (open_group_fresh s s1 l answer id gid H Hopen Hgid) as (g & Hno & Hcl & H1 & Hd1 & Hg1).
  destruct (devm_requests_spec rqs s1 (l ++ [NodeOpen g]) m H1 Hm Hok) as (s2 & m2 & k & -> & Hm2 & (H2 & Hg2 & Hnew & Hold) & Hu).
  rewrite <- app_assoc in H2. simpl in H2. rewrite Hd1 in Hnew, Hold. rewrite Hg1 in Hg2. pose proof (dw_nodup _ _ H2) as Hnd.
  assert (Hk : ∀ x, x ∈ k → ∃ a, x = NodeDr a) by (intros x Hx; destruct (Hnew x Hx) as (a & -> & _); eauto).
  assert (Hc : NodeClose g ∉ l ++ NodeOpen g :: k).
  { rewrite elem_of_app, elem_of_cons. intros [?|[?|Hx]]; [done..|]. by destruct (Hk _ Hx). }
  destruct (Hu m2 Hm2 eq_refl) as (m3 & Hrel & Hm3 & Hv3).
  destruct (release_open_group s2 l g k gid m2 m3) as (s3 & cnt & Hrun & [H3 Hd3 Hg3]); try done.
  { by rewrite Hg2, lookup_insert_eq. }
  rewrite left_over_group in H3 by done. exists s2, m2, s3, m3, cnt. split_and!; try done.
  - apply map_eq. intros a. rewrite Hd3. case_decide as Ha.
    + apply elem_of_cons in Ha as [?|Ha]; [done|]. by destruct (Hnew _ Ha) as (b & [= <-] & ->).
    + apply Hold. intros Hin. apply Ha. by right.
  - intros h. rewrite Hg3, Hg2. case_decide as Hw.
    + destruct Hw as [[[= ->]|Hin]%elem_of_cons _]; [by rewrite Hno|]. by destruct (Hk _ Hin).
    + rewrite lookup_insert_ne; [done|]. intros <-. apply Hw. split; [left|by right].
Qed.

(** ** A driver *)

(** On the small tree of ResourceTree.v: the first region is granted, the second one is refused
    because the first one is there, the third one is granted. *)
Definition demo_requests : list region_request :=
  [mk_rq (Some 1000) (Some 500) iomem_resource 24 4 "a"; mk_rq (Some 2000) (Some 600) iomem_resource 26 4 "b";
   mk_rq (Some 2000) (Some 600) iomem_resource 4096 16 "c"].
Definition demo_opened : @device region_devres :=
  match devres_open_group device_initialize (Some 700) 9 with Some (s, _) => s | None => device_initialize end.

Lemma devm_group_restores_witness :
  ∃ s2 m2 s3 m3, devm_requests demo_opened demo_tree demo_requests = Some (s2, m2) ∧
    devres_head s2 = Some [NodeOpen 700; NodeDr 1000; NodeDr 2000] ∧
    devres_release_group devm_release s2 m2 9 = Some (s3, m3, 2) ∧ view m3 = view demo_tree ∧ dev_wf s3 [].
Proof.
  destruct (devm_group_restores device_initialize [] demo_tree (Some 700) 9 demo_opened 9 demo_requests device_initialize_wf demo_wf)
    as (s2 & m2 & s3 & m3 & cnt & Hreq & Hrel & _ & Hv & Hwf & _).
  - intros rq Hrq. apply list_elem_of_In in Hrq. simpl in Hrq. destruct Hrq as [<-|[<-|[<-|[]]]]; (split; [vm_compute; by eexists|done]).
  - vm_compute. reflexivity.
  - done.
  - exists s2, m2, s3, m3. pose proof Hreq as Hq. vm_compute in Hq. injection Hq as <- <-. split; [exact Hreq|]. split; [reflexivity|].
    pose proof Hrel as Hr. vm_compute in Hr. injection Hr as <- <- <-. split; [exact Hrel|]. split; [exact Hv|exact Hwf].
Defined.
