(* ===== verification/BinderDeath.v ===== *)
(** Death notices of binder (drivers/staging/android/binder.c): a process that holds a
    reference asks to be told when the process behind the node goes away.

    The notice is a block of memory that the reference points to and that is a work item:
    it waits in the list of a thread or of the process, is then kept in the list of
    delivered notices until user space confirms it, and is freed after the client has
    taken it back and has been told so.  Places are the three kinds of lists; the field
    [bd_entry] is the list node inside of the notice.  Other work items in the lists are
    numbers.  The counts of references and the trees that find them are modelled in
    BinderRef.v, threads and transactions in BinderTxn.v; here a map gives the reference of
    a descriptor, and the commands that make and drop processes, threads, nodes and
    references are steps of their own.  [None] is a BUG, a broken list or a pointer that
    leads nowhere. *)

From S2P Require Import Prelude.

(** ** Data *)

(** The types of a notice; kzalloc leaves zero, which is none of them. *)
Inductive work_type := BINDER_WORK_NONE | BINDER_WORK_DEAD_BINDER | BINDER_WORK_DEAD_BINDER_AND_CLEAR | BINDER_WORK_CLEAR_DEATH_NOTIFICATION.
#[global] Instance work_type_eq_dec : EqDecision work_type.
Proof. solve_decision. Defined.

Inductive dplace := ThreadTodo (t : Z) | ProcTodo (p : Z) | DeliveredDeath (p : Z).
#[global] Instance dplace_eq_dec : EqDecision dplace.
Proof. solve_decision. Defined.
#[global] Instance dplace_countable : Countable dplace.
Proof.
  apply (inj_countable' (λ x, match x with ThreadTodo t => inl t | ProcTodo p => inr (inl p) | DeliveredDeath p => inr (inr p) end)
    (λ x, match x with inl t => ThreadTodo t | inr (inl p) => ProcTodo p | inr (inr p) => DeliveredDeath p end)). by intros [].
Defined.

Inductive dwork := DeathWork (a : Z) | OtherWork (k : Z).
#[global] Instance dwork_eq_dec : EqDecision dwork.
Proof. solve_decision. Defined.

Record binder_ref_death := mk_bd { bd_type : work_type; bd_cookie : Z; bd_entry : option dplace }.
Record death_ref := mk_rf { rf_proc : Z; rf_desc : Z; rf_node : Z; rf_death : Z }.
Record death_node := mk_nd { nd_proc : Z; nd_refs : list Z }.
Record death_thread := mk_th { td_proc : Z; td_looper : Z; td_return_error : Z }.

Record dstate := mk_ds {
  ds_lists : gmap dplace (list dwork);
  ds_threads : gmap Z death_thread;
  ds_descs : gmap (Z * Z) Z;
  ds_refs : gmap Z death_ref;
  ds_nodes : gmap Z death_node;
  ds_deaths : gmap Z binder_ref_death }.

Definition u_lists (f : gmap dplace (list dwork) → gmap dplace (list dwork)) (s : dstate) : dstate :=
  mk_ds (f (ds_lists s)) (ds_threads s) (ds_descs s) (ds_refs s) (ds_nodes s) (ds_deaths s).
Definition u_threads (f : gmap Z death_thread → gmap Z death_thread) (s : dstate) : dstate :=
  mk_ds (ds_lists s) (f (ds_threads s)) (ds_descs s) (ds_refs s) (ds_nodes s) (ds_deaths s).
Definition u_descs (f : gmap (Z * Z) Z → gmap (Z * Z) Z) (s : dstate) : dstate :=
  mk_ds (ds_lists s) (ds_threads s) (f (ds_descs s)) (ds_refs s) (ds_nodes s) (ds_deaths s).
Definition u_refs (f : gmap Z death_ref → gmap Z death_ref) (s : dstate) : dstate :=
  mk_ds (ds_lists s) (ds_threads s) (ds_descs s) (f (ds_refs s)) (ds_nodes s) (ds_deaths s).
Definition u_nodes (f : gmap Z death_node → gmap Z death_node) (s : dstate) : dstate :=
  mk_ds (ds_lists s) (ds_threads s) (ds_descs s) (ds_refs s) (f (ds_nodes s)) (ds_deaths s).
Definition u_deaths (f : gmap Z binder_ref_death → gmap Z binder_ref_death) (s : dstate) : dstate :=
  mk_ds (ds_lists s) (ds_threads s) (ds_descs s) (ds_refs s) (ds_nodes s) (f (ds_deaths s)).

Definition BINDER_LOOPER_READY : Z := Z.lor 1 2.
Definition BR_ERROR : Z := 0x80047200.

(** ** Lists *)

(** [list_add_tail(&death->work.entry, list)], for an entry that is on no list. *)
Definition death_add_tail (s : dstate) (a : Z) (pl : dplace) : option dstate :=
  d ← ds_deaths s !! a;
  l ← ds_lists s !! pl;
  match bd_entry d with
  | Some _ => None
  | None => Some (u_lists <[pl := l ++ [DeathWork a]]> (u_deaths <[a := mk_bd (bd_type d) (bd_cookie d) (Some pl)]> s))
  end.

Definition death_list_del (a : Z) (l : list dwork) : list dwork := filter (λ w, w ≠ DeathWork a) l.

(** [list_del_init(&death->work.entry)]. *)
Definition death_del (s : dstate) (a : Z) : option dstate :=
  d ← ds_deaths s !! a;
  match bd_entry d with
  | None => Some s
  | Some pl =>
      l ← ds_lists s !! pl;
      Some (u_lists <[pl := death_list_del a l]> (u_deaths <[a := mk_bd (bd_type d) (bd_cookie d) None]> s))
  end.

(** [list_move(&w->entry, list)]: to the front. *)
Definition death_move (s : dstate) (a : Z) (pl : dplace) : option dstate :=
  s ← death_del s a;
  d ← ds_deaths s !! a;
  l ← ds_lists s !! pl;
  Some (u_lists <[pl := DeathWork a :: l]> (u_deaths <[a := mk_bd (bd_type d) (bd_cookie d) (Some pl)]> s)).

(** [death->work.type = t]. *)
Definition death_set_type (s : dstate) (a : Z) (t : work_type) : option dstate :=
  d ← ds_deaths s !! a;
  Some (u_deaths <[a := mk_bd t (bd_cookie d) (bd_entry d)]> s).

(** To the thread that gave the command if it is a looper, to its process otherwise. *)
Definition death_queue (s : dstate) (proc thread a : Z) : option dstate :=
  th ← ds_threads s !! thread;
  if ctrue (Z.land (td_looper th) BINDER_LOOPER_READY) then death_add_tail s a (ThreadTodo thread)
  else death_add_tail s a (ProcTodo proc).

(** ** Commands *)

Definition kzalloc_death (s : dstate) (answer : option Z) : option Z :=
  match answer with
  | Some a => if decide (a ≠ 0 ∧ ds_deaths s !! a = None) then Some a else None
  | None => None
  end.

Definition ref_set_death (a : Z) (ref : death_ref) : death_ref := mk_rf (rf_proc ref) (rf_desc ref) (rf_node ref) a.

(** BC_REQUEST_DEATH_NOTIFICATION. *)
Definition bc_request_death (s : dstate) (proc thread target cookie : Z) (answer : option Z) : option dstate :=
  match ds_descs s !! (proc, target) with
  | None => Some s
  | Some r =>
      ref ← ds_refs s !! r;
      if ctrue (rf_death ref) then Some s
      else
        match kzalloc_death s answer with
        | None =>
            th ← ds_threads s !! thread;
            Some (u_threads <[thread := mk_th (td_proc th) (td_looper th) BR_ERROR]> s)
        | Some a =>
            let s := u_deaths <[a := mk_bd BINDER_WORK_NONE cookie None]> s in
            let s := u_refs <[r := ref_set_death a ref]> s in
            node ← ds_nodes s !! rf_node ref;
            if nd_proc node =? 0 then
              s ← death_set_type s a BINDER_WORK_DEAD_BINDER;
              death_queue s proc thread a
            else Some s
        end
  end.

(** BC_CLEAR_DEATH_NOTIFICATION. *)
Definition bc_clear_death (s : dstate) (proc thread target cookie : Z) : option dstate :=
  match ds_descs s !! (proc, target) with
  | None => Some s
  | Some r =>
      ref ← ds_refs s !! r;
      if rf_death ref =? 0 then Some s
      else
        let a := rf_death ref in
        d ← ds_deaths s !! a;
        if negb (bd_cookie d =? cookie) then Some s
        else
          let s := u_refs <[r := ref_set_death 0 ref]> s in
          match bd_entry d with
          | None =>
              s ← death_set_type s a BINDER_WORK_CLEAR_DEATH_NOTIFICATION;
              death_queue s proc thread a
          | Some _ =>
              if decide (bd_type d ≠ BINDER_WORK_DEAD_BINDER) then None
              else death_set_type s a BINDER_WORK_DEAD_BINDER_AND_CLEAR
          end
  end.

(** The search in [proc->delivered_death]; every entry is a notice. *)
Fixpoint find_delivered (s : dstate) (cookie : Z) (l : list dwork) : option (option Z) :=
  match l with
  | [] => Some None
  | DeathWork a :: l =>
      d ← ds_deaths s !! a;
      if bd_cookie d =? cookie then Some (Some a) else find_delivered s cookie l
  | OtherWork _ :: _ => None
  end.

(** BC_DEAD_BINDER_DONE. *)
Definition bc_dead_binder_done (s : dstate) (proc thread cookie : Z) : option dstate :=
  l ← ds_lists s !! DeliveredDeath proc;
  found ← find_delivered s cookie l;
  match found with
  | None => Some s
  | Some a =>
      s ← death_del s a;
      d ← ds_deaths s !! a;
      if decide (bd_type d = BINDER_WORK_DEAD_BINDER_AND_CLEAR) then
        s ← death_set_type s a BINDER_WORK_CLEAR_DEATH_NOTIFICATION;
        death_queue s proc thread a
      else Some s
  end.

(** ** Reading *)

Inductive death_report := BR_DEAD_BINDER | BR_CLEAR_DEATH_NOTIFICATION_DONE.

(** One turn of binder_thread_read for a notice in front of a list: what user space gets,
    for which notice. *)
Definition br_death (s : dstate) (proc a : Z) : option (dstate * (death_report * Z * Z)) :=
  d ← ds_deaths s !! a;
  match bd_type d with
  | BINDER_WORK_NONE => None
  | BINDER_WORK_CLEAR_DEATH_NOTIFICATION =>
      s ← death_del s a;
      Some (u_deaths (delete a) s, (BR_CLEAR_DEATH_NOTIFICATION_DONE, a, bd_cookie d))
  | _ =>
      s ← death_move s a (DeliveredDeath proc);
      Some (s, (BR_DEAD_BINDER, a, bd_cookie d))
  end.

(** Which item is next: the first one of the thread, or of the process if the thread waits
    for its work. *)
Definition first_work (s : dstate) (proc thread : Z) (wait_for_proc_work : bool) : option (option (dplace * dwork)) :=
  lt ← ds_lists s !! ThreadTodo thread;
  match lt with
  | w :: _ => Some (Some (ThreadTodo thread, w))
  | [] =>
      lp ← ds_lists s !! ProcTodo proc;
      match lp with
      | w :: _ => if wait_for_proc_work then Some (Some (ProcTodo proc, w)) else Some None
      | [] => Some None
      end
  end.

(** [fault] is a failing put_user, or a user buffer without room: nothing has changed then.
    Other items are the business of the rest of the function, which takes them out when it
    is done with them. *)
Definition binder_read_death (s : dstate) (proc thread : Z) (wait_for_proc_work fault : bool)
    : option (dstate * option (death_report * Z * Z)) :=
  w ← first_work s proc thread wait_for_proc_work;
  match w with
  | None => Some (s, None)
  | Some (_, OtherWork _) => Some (s, None)
  | Some (_, DeathWork a) =>
      if fault then Some (s, None)
      else
        '(s, rep) ← br_death s proc a;
        Some (s, Some rep)
  end.

(** ** The end of references, nodes, threads and processes *)

(** binder_delete_ref, as far as the notice is concerned. *)
Definition delete_ref_death (s : dstate) (r : Z) : option dstate :=
  ref ← ds_refs s !! r;
  node ← ds_nodes s !! rf_node ref;
  let s := u_descs (delete (rf_proc ref, rf_desc ref)) s in
  let s := u_nodes <[rf_node ref := mk_nd (nd_proc node) (filter (λ q, q ≠ r) (nd_refs node))]> s in
  s ← (if ctrue (rf_death ref) then
         s ← death_del s (rf_death ref);
         Some (u_deaths (delete (rf_death ref)) s)
       else Some s);
  Some (u_refs (delete r) s).

(** [hlist_for_each_entry(ref, pos, &node->refs, node_entry)] of binder_deferred_release. *)
Fixpoint notify_refs (s : dstate) (refs : list Z) : option dstate :=
  match refs with
  | [] => Some s
  | r :: refs =>
      ref ← ds_refs s !! r;
      if ctrue (rf_death ref) then
        d ← ds_deaths s !! rf_death ref;
        match bd_entry d with
        | None =>
            s ← death_set_type s (rf_death ref) BINDER_WORK_DEAD_BINDER;
            s ← death_add_tail s (rf_death ref) (ProcTodo (rf_proc ref));
            notify_refs s refs
        | Some _ => None
        end
      else notify_refs s refs
  end.

(** One turn of the loop over the nodes of the process that goes away. *)
Definition release_node (s : dstate) (n : Z) : option dstate :=
  node ← ds_nodes s !! n;
  match nd_refs node with
  | [] => Some (u_nodes (delete n) s)
  | refs => notify_refs (u_nodes <[n := mk_nd 0 refs]> s) refs
  end.

(** binder_release_work: the items are taken out of the list; notices are not freed. *)
Fixpoint release_items (s : dstate) (l : list dwork) : option dstate :=
  match l with
  | [] => Some s
  | DeathWork a :: l => s ← death_del s a; release_items s l
  | OtherWork _ :: l => release_items s l
  end.
Definition binder_release_work (s : dstate) (pl : dplace) : option dstate :=
  l ← ds_lists s !! pl;
  s ← release_items s l;
  Some (u_lists <[pl := []]> s).

(** binder_free_thread, as far as its list is concerned. *)
Definition free_thread (s : dstate) (t : Z) : option dstate :=
  s ← binder_release_work s (ThreadTodo t);
  Some (u_lists (delete (ThreadTodo t)) (u_threads (delete t) s)).

Fixpoint each {A} (f : dstate → A → option dstate) (s : dstate) (l : list A) : option dstate :=
  match l with
  | [] => Some s
  | x :: l => s ← f s x; each f s l
  end.

(** binder_deferred_release: threads, nodes and references of the process, its list, and
    the process itself. *)
Definition deferred_release (s : dstate) (p : Z) (threads nodes refs : list Z) : option dstate :=
  s ← each free_thread s threads;
  s ← each release_node s nodes;
  s ← each delete_ref_death s refs;
  s ← binder_release_work s (ProcTodo p);
  Some (u_lists (λ m, delete (DeliveredDeath p) (delete (ProcTodo p) m)) s).
