(* ===== verification/BinderDeathInv.v ===== *)
(** Death notices of binder, verified.  The invariant says how the state of a notice (its
    type, the list it is in, the reference it belongs to) goes with the node it is about and
    with what user space has been told; every command, every read and every end of a
    reference, thread or process keeps it. *)

From S2P Require Import Prelude BinderDeath.

#[local] Ltac run := cbn [mbind option_bind].

(** ** The invariant *)

(** The process a list belongs to. *)
Definition place_proc (s : dstate) (pl : dplace) : option Z :=
  match pl with
  | ThreadTodo t => td_proc <$> ds_threads s !! t
  | ProcTodo p | DeliveredDeath p => Some p
  end.

(** A notice of a reference: untouched while the node lives, and about a death in a list of
    the process, or taken out of it, afterwards.  References in [pend] have not been told yet. *)
Definition notice_owned (pend : list Z) (s : dstate) (r : Z) (ref : death_ref) (d : binder_ref_death) : Prop :=
  ∃ nd, ds_nodes s !! rf_node ref = Some nd ∧
    if decide (nd_proc nd = 0 ∧ r ∉ pend)
    then bd_type d = BINDER_WORK_DEAD_BINDER ∧ ∀ pl, bd_entry d = Some pl → is_Some (ds_lists s !! pl) ∧ place_proc s pl = Some (rf_proc ref)
    else bd_type d = BINDER_WORK_NONE ∧ bd_entry d = None.

Definition unowned (s : dstate) (a : Z) : Prop := ∀ r ref, ds_refs s !! r = Some ref → rf_death ref ≠ a.

(** What user space has been told about a notice; [gone] is why a notice of a death may be
    in no list before it has been told. *)
Definition log_ok (gone : Prop) (d : binder_ref_death) (lg : list death_report) : Prop :=
  (lg = [] ∨ lg = [BR_DEAD_BINDER]) ∧ (bd_type d = BINDER_WORK_NONE → lg = []) ∧
  match bd_entry d with
  | Some (DeliveredDeath _) => lg = [BR_DEAD_BINDER] ∧ bd_type d ≠ BINDER_WORK_CLEAR_DEATH_NOTIFICATION
  | Some _ => bd_type d ≠ BINDER_WORK_NONE ∧ (bd_type d ≠ BINDER_WORK_CLEAR_DEATH_NOTIFICATION → lg = [])
  | None => bd_type d = BINDER_WORK_DEAD_BINDER → lg = [] → gone
  end.

(** [lost] are the notices that were waiting in the list of a thread that went away. *)

Record death_wf (pend : list Z) (s : dstate) (logs : gmap Z (list death_report)) (lost : gset Z) : Prop := {
  dt_links : ∀ pl l a, ds_lists s !! pl = Some l → DeathWork a ∈ l ↔ ∃ d, ds_deaths s !! a = Some d ∧ bd_entry d = Some pl;
  dt_delivered : ∀ p l k, ds_lists s !! DeliveredDeath p = Some l → OtherWork k ∉ l;
  dt_zero : ds_deaths s !! 0 = None;
  dt_owner : ∀ r ref, ds_refs s !! r = Some ref → rf_death ref ≠ 0 →
    ∃ d, ds_deaths s !! rf_death ref = Some d ∧ notice_owned pend s r ref d;
  dt_unique : ∀ r1 r2 ref1 ref2, ds_refs s !! r1 = Some ref1 → ds_refs s !! r2 = Some ref2 →
    rf_death ref1 = rf_death ref2 → rf_death ref1 ≠ 0 → r1 = r2;
  dt_log : ∀ a d, ds_deaths s !! a = Some d → ∃ lg, logs !! a = Some lg ∧ log_ok (a ∈ lost ∨ unowned s a) d lg;
  dt_desc : ∀ p t r, ds_descs s !! (p, t) = Some r → ∃ ref, ds_refs s !! r = Some ref ∧ rf_proc ref = p ∧ rf_desc ref = t;
  dt_refs : ∀ r ref, ds_refs s !! r = Some ref →
    (∃ nd, ds_nodes s !! rf_node ref = Some nd ∧ r ∈ nd_refs nd) ∧ is_Some (ds_lists s !! ProcTodo (rf_proc ref));
  dt_nodes : ∀ n nd, ds_nodes s !! n = Some nd →
    NoDup (nd_refs nd) ∧ ∀ r, r ∈ nd_refs nd → ∃ ref, ds_refs s !! r = Some ref ∧ rf_node ref = n;
  dt_threads : ∀ t th, ds_threads s !! t = Some th →
    is_Some (ds_lists s !! ThreadTodo t) ∧ is_Some (ds_lists s !! ProcTodo (td_proc th)) ∧ is_Some (ds_lists s !! DeliveredDeath (td_proc th)) }.

(** ** A change of one notice *)

(** The lists are the same but for the notice [a], which is now at [e]. *)
Definition relisted (s s' : dstate) (a : Z) (e : option dplace) : Prop :=
  ∀ pl, (∀ l', ds_lists s' !! pl = Some l' → ∃ l, ds_lists s !! pl = Some l ∧
           (∀ w, w ≠ DeathWork a → w ∈ l' ↔ w ∈ l) ∧ (DeathWork a ∈ l' ↔ e = Some pl)) ∧
        (is_Some (ds_lists s !! pl) → is_Some (ds_lists s' !! pl)).

Definition same_ref (ref ref' : death_ref) : Prop := rf_proc ref' = rf_proc ref ∧ rf_desc ref' = rf_desc ref ∧ rf_node ref' = rf_node ref.

(** References point to the same notices as before, to [a], or to none. *)
Definition repointed (s s' : dstate) (a : Z) : Prop :=
  ∀ q, (∀ ref', ds_refs s' !! q = Some ref' → ∃ ref, ds_refs s !! q = Some ref ∧ same_ref ref ref' ∧
          (rf_death ref' = rf_death ref ∨ rf_death ref' = 0 ∨ rf_death ref' = a)) ∧
       (∀ ref, ds_refs s !! q = Some ref → ∃ ref', ds_refs s' !! q = Some ref' ∧ same_ref ref ref').

(** Nothing else has changed. *)
Definition same_elsewhere (s s' : dstate) (a : Z) : Prop :=
  ds_threads s' = ds_threads s ∧ ds_descs s' = ds_descs s ∧ ds_nodes s' = ds_nodes s ∧ ∀ b, b ≠ a → ds_deaths s' !! b = ds_deaths s !! b.

Lemma log_ok_mono (gone gone' : Prop) d lg : (gone → gone') → log_ok gone d lg → log_ok gone' d lg.
Proof. intros Hg (H1 & H2 & H3). split_and!; try done. destruct (bd_entry d) as [[]|]; auto. Qed.

Lemma owned_kept pend pend' s s' r ref ref' d :
  ds_threads s' = ds_threads s → ds_nodes s' = ds_nodes s → (∀ pl, is_Some (ds_lists s !! pl) → is_Some (ds_lists s' !! pl)) →
  same_ref ref ref' → (r ∈ pend ↔ r ∈ pend') → notice_owned pend s r ref d → notice_owned pend' s' r ref' d.
Proof.
  intros Ht Hn Hl (Hp & _ & Hr) Hpe (nd & En & Hif). exists nd. rewrite Hn, Hr. split; [done|].
  assert (Hpp : ∀ pl, place_proc s' pl = place_proc s pl) by (intros []; simpl; by rewrite ?Ht).
  destruct (decide (nd_proc nd = 0 ∧ r ∉ pend')) as [H2|H2].
  - rewrite decide_True in Hif by tauto. destruct Hif as [? Hif]. split; [done|]. intros pl E. rewrite Hpp, Hp. destruct (Hif pl E). auto.
  - by rewrite decide_False in Hif by tauto.
Qed.

Lemma death_frame pend pend' s s' logs logs' lost lost' a od :
  death_wf pend s logs lost → a ≠ 0 → same_elsewhere s s' a → relisted s s' a (od ≫= bd_entry) → repointed s s' a → ds_deaths s' !! a = od →
  (∀ b, b ≠ a → logs' !! b = logs !! b) → lost ⊆ lost' → (∀ d, od = Some d → ∃ lg, logs' !! a = Some lg ∧ log_ok (a ∈ lost' ∨ unowned s' a) d lg) →
  (∀ q ref, ds_refs s' !! q = Some ref → rf_death ref = a → ∃ d, od = Some d ∧ notice_owned pend' s' q ref d) →
  (∀ q1 q2 ref1 ref2, ds_refs s' !! q1 = Some ref1 → ds_refs s' !! q2 = Some ref2 → rf_death ref1 = a → rf_death ref2 = a → q1 = q2) →
  (∀ q ref, ds_refs s' !! q = Some ref → rf_death ref ≠ 0 → rf_death ref ≠ a → q ∈ pend ↔ q ∈ pend') →
  death_wf pend' s' logs' lost'.
Proof.
  intros H Ha (Ht & Hd & Hn & Hb) Hre Hrp Ea Hlogs Hlost Hlog Hown Huni Hpe.
  assert (Hkeys : ∀ pl, is_Some (ds_lists s !! pl) → is_Some (ds_lists s' !! pl)) by (intros pl; apply (Hre pl)).
  split.
  - intros pl l' b El. destruct (proj1 (Hre pl) l' El) as (l & El0 & Hsame & Hself). destruct (decide (b = a)) as [->|Hne].
    + rewrite Hself, Ea. destruct od as [d|]; simpl; [|by split; [|intros (? & ? & _)]]. split; [eauto|]. by intros (? & [= <-] & ?).
    + rewrite Hsame, (dt_links _ _ _ _ H pl l b El0), Hb by (congruence || done). done.
  - intros p l' k El. destruct (proj1 (Hre _) l' El) as (l & El0 & Hsame & _). rewrite Hsame by done. by apply (dt_delivered _ _ _ _ H p l).
  - rewrite Hb by done. apply (dt_zero _ _ _ _ H).
  - intros r ref' Er H0. destruct (decide (rf_death ref' = a)) as [Hra|Hra].
    + destruct (Hown r ref' Er Hra) as (d & -> & ?). exists d. by rewrite Hra.
    + destruct (proj1 (Hrp r) ref' Er) as (ref & Er0 & Hs & [Hrd|[?|?]]); [|done..]. rewrite Hrd in *.
      destruct (dt_owner _ _ _ _ H r ref Er0 H0) as (d & Ed & Ho). exists d. rewrite Hb by done. split; [done|].
      apply (owned_kept pend pend' s s' r ref ref'); try done. by apply (Hpe r ref' Er); rewrite Hrd.
  - intros r1 r2 ref1 ref2 E1 E2 Heq H0. destruct (decide (rf_death ref1 = a)) as [Hra|Hra]; [eapply Huni; [done..|congruence]|].
    destruct (proj1 (Hrp r1) ref1 E1) as (o1 & Eo1 & _ & [H1|[?|?]]); [|done..].
    destruct (proj1 (Hrp r2) ref2 E2) as (o2 & Eo2 & _ & [H2|[?|?]]); [|congruence..]. apply (dt_unique _ _ _ _ H r1 r2 o1 o2); congruence.
  - intros b d Ed. destruct (decide (b = a)) as [->|Hne]; [apply Hlog; congruence|]. rewrite Hb in Ed by done.
    destruct (dt_log _ _ _ _ H b d Ed) as (lg & Elg & Hok). exists lg. rewrite Hlogs by done. split; [done|]. revert Hok. apply log_ok_mono.
    intros [?|Hu]; [left; by apply Hlost|right]. intros r ref' Er Hr. destruct (proj1 (Hrp r) ref' Er) as (ref & Er0 & _ & [Hs|[Hs|?]]); [|subst|congruence].
    + apply (Hu r ref Er0). congruence.
    + rewrite Hs, (dt_zero _ _ _ _ H) in Ed. done.
  - intros p t r. rewrite Hd. intros Er. destruct (dt_desc _ _ _ _ H p t r Er) as (ref & Eref & ? & ?).
    destruct (proj2 (Hrp r) ref Eref) as (ref' & ? & (? & ? & _)). exists ref'. split_and!; congruence.
  - intros r ref' Er. destruct (proj1 (Hrp r) ref' Er) as (ref & Er0 & (Hp & _ & Hnode) & _).
    destruct (dt_refs _ _ _ _ H r ref Er0) as [? ?]. rewrite Hn, Hp, Hnode. auto.
  - intros n nd. rewrite Hn. intros En. destruct (dt_nodes _ _ _ _ H n nd En) as [? Hrefs]. split; [done|]. intros r Hr.
    destruct (Hrefs r Hr) as (ref & Er & ?). destruct (proj2 (Hrp r) ref Er) as (ref' & ? & (_ & _ & ?)). exists ref'. split; congruence.
  - intros t th. rewrite Ht. intros Et. destruct (dt_threads _ _ _ _ H t th Et) as (? & ? & ?). auto.
Qed.

(** ** The primitives *)

Definition links_ok (s : dstate) : Prop :=
  ∀ pl l b, ds_lists s !! pl = Some l → DeathWork b ∈ l ↔ ∃ d, ds_deaths s !! b = Some d ∧ bd_entry d = Some pl.

(** The notice [a] has become [d]; nothing else has changed. *)
Definition moved (s s' : dstate) (a : Z) (d : binder_ref_death) : Prop :=
  same_elsewhere s s' a ∧ relisted s s' a (bd_entry d) ∧ ds_refs s' = ds_refs s ∧ ds_deaths s' !! a = Some d.

Lemma elem_of_death_list_del w b l : w ∈ death_list_del b l ↔ w ≠ DeathWork b ∧ w ∈ l.
Proof. unfold death_list_del. by rewrite list_elem_of_filter. Qed.

Lemma moved_links s s' a d : links_ok s → moved s s' a d → links_ok s'.
Proof.
  intros Hl ((_ & _ & _ & Hb) & Hre & _ & Ea) pl l' b El. destruct (proj1 (Hre pl) l' El) as (l & El0 & Hsame & Hself).
  destruct (decide (b = a)) as [->|Hne]; [|rewrite Hsame, (Hl pl l b El0), Hb by (congruence || done); done].
  rewrite Hself, Ea. split; [eauto|]. by intros (? & [= <-] & ?).
Qed.

Lemma moved_keys s s' a d pl : moved s s' a d → is_Some (ds_lists s' !! pl) ↔ is_Some (ds_lists s !! pl).
Proof. intros (_ & Hre & _). split; [|apply (Hre pl)]. intros [l' El]. destruct (proj1 (Hre pl) l' El) as (l & ? & _). eauto. Qed.

Lemma moved_trans s s1 s2 a d1 d2 : moved s s1 a d1 → moved s1 s2 a d2 → moved s s2 a d2.
Proof.
  intros M1 M2. pose proof (moved_keys s s1 a d1) as K1. pose proof (moved_keys s1 s2 a d2) as K2.
  destruct M1 as ((? & ? & ? & Hb1) & Hre1 & ? & _), M2 as ((? & ? & ? & Hb2) & Hre2 & ? & ?).
  split_and!; try congruence.
  - split_and!; try congruence. intros b Hb. by rewrite Hb2, Hb1.
  - intros pl. split; [|intros Hk; apply (Hre2 pl), (Hre1 pl), Hk]. intros l2 E2. destruct (proj1 (Hre2 pl) l2 E2) as (l1 & E1 & Hs2 & Hself).
    destruct (proj1 (Hre1 pl) l1 E1) as (l & E & Hs1 & _). exists l. split_and!; try done. intros w Hw. by rewrite Hs2, Hs1.
Qed.

Section primitives.
Context (s : dstate) (a : Z) (d : binder_ref_death) (Hlinks : links_ok s) (Ea : ds_deaths s !! a = Some d).

Lemma not_in_list pl l : ds_lists s !! pl = Some l → bd_entry d ≠ Some pl → DeathWork a ∉ l.
Proof using Hlinks Ea. intros El He Hin. apply (Hlinks pl l a El) in Hin as (d' & Ed & ?). congruence. Qed.

(** The new list [l2] at [pl] has [a]; the others keep what they have. *)
Lemma moved_put pl l l2 t c :
  bd_entry d = None → ds_lists s !! pl = Some l → (∀ w, w ∈ l2 ↔ w = DeathWork a ∨ w ∈ l) →
  moved s (u_lists <[pl := l2]> (u_deaths <[a := mk_bd t c (Some pl)]> s)) a (mk_bd t c (Some pl)).
Proof using Hlinks Ea.
  intros He El Hl2. split_and!; simpl; try done; [|intros pl'; simpl; split|by rewrite lookup_insert_eq].
  - split_and!; try done. intros b Hb. simpl. by rewrite lookup_insert_ne.
  - intros l'. rewrite lookup_insert_Some. intros [[<- <-]|[Hne El']].
    + exists l. split; [done|]. split; [intros w Hw; rewrite Hl2; naive_solver|]. rewrite Hl2. naive_solver.
    + exists l'. split; [done|]. split; [done|]. split; [|congruence]. intros Hin. exfalso. apply (not_in_list pl' l' El'); [congruence|done].
  - intros Hs. apply lookup_insert_is_Some'. auto.
Qed.

Lemma death_add_tail_spec pl :
  bd_entry d = None → is_Some (ds_lists s !! pl) →
  ∃ s', death_add_tail s a pl = Some s' ∧ moved s s' a (mk_bd (bd_type d) (bd_cookie d) (Some pl)).
Proof using Hlinks Ea.
  intros He [l El]. unfold death_add_tail. rewrite Ea. run. rewrite El. run. rewrite He. eexists. split; [done|].
  apply moved_put with l; [done..|]. intros w. rewrite elem_of_app, list_elem_of_singleton. tauto.
Qed.

Lemma death_set_type_spec t :
  ∃ s', death_set_type s a t = Some s' ∧ moved s s' a (mk_bd t (bd_cookie d) (bd_entry d)).
Proof using Hlinks Ea.
  unfold death_set_type. rewrite Ea. run. eexists. split; [done|]. split_and!; simpl; try done; [| |by rewrite lookup_insert_eq].
  - split_and!; try done. intros b Hb. simpl. by rewrite lookup_insert_ne.
  - intros pl. split; [|done]. simpl. intros l El. exists l. split_and!; try done. rewrite (Hlinks pl l a El), Ea. split; [|eauto].
    by intros (? & [= <-] & ?).
Qed.

Lemma death_del_spec :
  (∀ pl, bd_entry d = Some pl → is_Some (ds_lists s !! pl)) →
  ∃ s', death_del s a = Some s' ∧ moved s s' a (mk_bd (bd_type d) (bd_cookie d) None).
Proof using Hlinks Ea.
  intros Hk. unfold death_del. rewrite Ea. run. destruct (bd_entry d) as [pl|] eqn:He.
  - destruct (Hk pl eq_refl) as [l El]. rewrite El. run. eexists. split; [done|]. split_and!; simpl; try done; [| |by rewrite lookup_insert_eq].
    + split_and!; try done. intros b Hb. simpl. by rewrite lookup_insert_ne.
    + intros pl'. simpl. split; [|intros Hs; apply lookup_insert_is_Some'; auto]. intros l'. rewrite lookup_insert_Some. intros [[<- <-]|[Hne El']].
      * exists l. split; [done|]. split; [intros w Hw; rewrite elem_of_death_list_del; tauto|]. rewrite elem_of_death_list_del. naive_solver.
      * exists l'. split; [done|]. split; [done|]. split; [|done]. intros Hin. exfalso. apply (not_in_list pl' l' El'); [congruence|done].
  - exists s. split; [done|]. split_and!; try done.
    + intros pl'. split; [|done]. intros l El. exists l. split; [done|]. split; [done|]. split; [|done].
      intros Hin. exfalso. apply (not_in_list pl' l El); [congruence|done].
    + rewrite Ea. destruct d; simpl in *; congruence.
Qed.
End primitives.

(** Two primitives after each other. *)
Lemma death_queue_spec s p t th a d :
  links_ok s → ds_deaths s !! a = Some d → bd_entry d = None → ds_threads s !! t = Some th →
  is_Some (ds_lists s !! ThreadTodo t) → is_Some (ds_lists s !! ProcTodo p) →
  ∃ s' pl, death_queue s p t a = Some s' ∧ (pl = ThreadTodo t ∨ pl = ProcTodo p) ∧
    moved s s' a (mk_bd (bd_type d) (bd_cookie d) (Some pl)).
Proof.
  intros Hl Ea He Et Ht Hp. unfold death_queue. rewrite Et. run. destruct (ctrue _).
  - destruct (death_add_tail_spec s a d Hl Ea (ThreadTodo t) He Ht) as (s' & -> & ?). eauto 6.
  - destruct (death_add_tail_spec s a d Hl Ea (ProcTodo p) He Hp) as (s' & -> & ?). eauto 6.
Qed.

Lemma type_queue_spec s p t th a d ty :
  links_ok s → ds_deaths s !! a = Some d → bd_entry d = None → ds_threads s !! t = Some th →
  is_Some (ds_lists s !! ThreadTodo t) → is_Some (ds_lists s !! ProcTodo p) →
  ∃ s' pl, (s ← death_set_type s a ty; death_queue s p t a) = Some s' ∧ (pl = ThreadTodo t ∨ pl = ProcTodo p) ∧
    moved s s' a (mk_bd ty (bd_cookie d) (Some pl)).
Proof.
  intros Hl Ea He Et Ht Hp. destruct (death_set_type_spec s a d Hl Ea ty) as (s1 & -> & M1). run.
  pose proof (moved_links _ _ _ _ Hl M1) as Hl1. pose proof (moved_keys s s1 a _ (ThreadTodo t) M1) as K1. pose proof (moved_keys s s1 a _ (ProcTodo p) M1) as K2.
  pose proof M1 as ((Hth & _) & _ & _ & Ea1).
  destruct (death_queue_spec s1 p t th a _ Hl1 Ea1) as (s2 & pl & -> & Hpl & M2); simpl; try done; [congruence|tauto|tauto|].
  exists s2, pl. split_and!; try done. by apply (moved_trans s s1 s2 a _ _ M1).
Qed.

Lemma death_move_spec s a d pl :
  links_ok s → ds_deaths s !! a = Some d → (∀ pl', bd_entry d = Some pl' → is_Some (ds_lists s !! pl')) → is_Some (ds_lists s !! pl) →
  ∃ s', death_move s a pl = Some s' ∧ moved s s' a (mk_bd (bd_type d) (bd_cookie d) (Some pl)).
Proof.
  intros Hl Ea Hk Hp. unfold death_move. destruct (death_del_spec s a d Hl Ea Hk) as (s1 & -> & M1). run.
  pose proof (moved_links _ _ _ _ Hl M1) as Hl1. destruct (proj2 (moved_keys s s1 a _ pl M1) Hp) as [l El]. pose proof M1 as (_ & _ & _ & Ea1).
  rewrite Ea1. run. rewrite El. run. eexists. split; [done|]. apply (moved_trans s s1 _ a _ _ M1). simpl.
  apply (moved_put s1 a _ Hl1 Ea1) with l; [done..|]. intros w. by rewrite elem_of_cons.
Qed.

(** ** Commands and reads *)

Section commands.
Context (s : dstate) (logs : gmap Z (list death_report)) (lost : gset Z) (H : death_wf [] s logs lost).

Definition thread_of (t p : Z) : Prop := ∃ th, ds_threads s !! t = Some th ∧ td_proc th = p.

Lemma thread_lists t p :
  thread_of t p → ∃ th, ds_threads s !! t = Some th ∧ td_proc th = p ∧
    is_Some (ds_lists s !! ThreadTodo t) ∧ is_Some (ds_lists s !! ProcTodo p) ∧ is_Some (ds_lists s !! DeliveredDeath p).
Proof using H. intros (th & Et & <-). exists th. destruct (dt_threads _ _ _ _ H t th Et) as (? & ? & ?). auto. Qed.

Lemma repointed_same s' a : ds_refs s' = ds_refs s → repointed s s' a.
Proof using. intros E q. rewrite E. split; intros ref Er; exists ref; split_and!; auto; done. Qed.

(** A change of one notice, seen from the invariant. *)
Lemma death_moved s' logs' lost' a d d' :
  ds_deaths s !! a = Some d → moved s s' a d' → (∀ b, b ≠ a → logs' !! b = logs !! b) → lost ⊆ lost' →
  (∃ lg, logs' !! a = Some lg ∧ log_ok (a ∈ lost' ∨ unowned s' a) d' lg) →
  (∀ q ref, ds_refs s !! q = Some ref → rf_death ref = a → notice_owned [] s' q ref d') → death_wf [] s' logs' lost'.
Proof using H.
  intros Ea (Hw & Hre & Hrefs & Ea') Hlogs Hlost Hlog Hown.
  assert (Ha0 : a ≠ 0) by (intros ->; rewrite (dt_zero _ _ _ _ H) in Ea; done).
  apply (death_frame [] [] s s' logs logs' lost lost' a (Some d')); try done.
  - by apply repointed_same.
  - intros ? [= <-]. done.
  - intros q ref Er Hra. rewrite Hrefs in Er. eauto.
  - intros q1 q2 ref1 ref2 E1 E2 H1 H2. rewrite Hrefs in E1, E2. apply (dt_unique _ _ _ _ H q1 q2 ref1 ref2); congruence.
Qed.

(** What a queued notice looks like, from its owner. *)
Lemma owner_dead r ref a d pl :
  ds_refs s !! r = Some ref → rf_death ref = a → a ≠ 0 → ds_deaths s !! a = Some d → bd_entry d = Some pl →
  bd_type d = BINDER_WORK_DEAD_BINDER ∧ is_Some (ds_lists s !! pl) ∧ place_proc s pl = Some (rf_proc ref) ∧
  ∃ nd, ds_nodes s !! rf_node ref = Some nd ∧ nd_proc nd = 0.
Proof using H.
  intros Er <- H0 Ed He. destruct (dt_owner _ _ _ _ H r ref Er H0) as (d' & Ed' & nd & En & Hif). simplify_eq.
  case_decide as Hd; [|destruct Hif; congruence]. destruct Hif as [? Hif]. destruct (Hif pl He). split_and!; try done. naive_solver.
Qed.

Lemma queued_known a d pl l : ds_lists s !! pl = Some l → DeathWork a ∈ l → ds_deaths s !! a = Some d → bd_entry d = Some pl.
Proof using H. intros El Hin Ed. apply (dt_links _ _ _ _ H pl l a El) in Hin as (d' & ? & ?). congruence. Qed.

(** BC_DEAD_BINDER_DONE. *)
Lemma find_delivered_spec p l cookie :
  ds_lists s !! DeliveredDeath p = Some l →
  ∃ o, find_delivered s cookie l = Some o ∧
    ∀ a, o = Some a → ∃ d, ds_deaths s !! a = Some d ∧ bd_entry d = Some (DeliveredDeath p) ∧ bd_cookie d = cookie.
Proof using H.
  intros El. assert (Hk : ∀ a, DeathWork a ∈ l → ∃ d, ds_deaths s !! a = Some d ∧ bd_entry d = Some (DeliveredDeath p)).
  { intros a. apply (dt_links _ _ _ _ H _ l a El). }
  assert (Ho : ∀ k, OtherWork k ∉ l) by (intros k; by apply (dt_delivered _ _ _ _ H p)). clear El.
  induction l as [|w l IH]; simpl; [by exists None|]. destruct w as [a|k]; [|exfalso; apply (Ho k); left].
  destruct (Hk a) as (d & Ed & He); [left|]. rewrite Ed. run. destruct (Z.eqb_spec (bd_cookie d) cookie).
  - exists (Some a). split; [done|]. intros ? [= <-]. eauto.
  - apply IH; [intros b Hb; apply Hk; by right|intros k Hb; apply (Ho k); by right].
Qed.

Lemma dead_binder_done_step p t cookie :
  thread_of t p → ∃ s', bc_dead_binder_done s p t cookie = Some s' ∧ death_wf [] s' logs lost.
Proof using H.
  intros Ht. destruct (thread_lists t p Ht) as (th & Et & Hp & HlT & HlP & [l El]). unfold bc_dead_binder_done. rewrite El. run.
  destruct (find_delivered_spec p l cookie El) as ([a|] & -> & Hfound); run; [|eauto]. destruct (Hfound a eq_refl) as (d & Ed & He & _).
  pose proof (dt_links _ _ _ _ H) as Hlinks. destruct (dt_log _ _ _ _ H a d Ed) as (lg & Elg & Hlg & _ & Hent). rewrite He in Hent. destruct Hent as [-> Hnc].
  assert (Ha0 : a ≠ 0) by (intros ->; rewrite (dt_zero _ _ _ _ H) in Ed; done).
  destruct (death_del_spec s a d Hlinks Ed) as (s1 & -> & M1); [intros pl; rewrite He; intros [= <-]; eauto|]. run.
  pose proof M1 as ((Hth1 & _ & Hnd1 & _) & _ & _ & Ed1). rewrite Ed1. run. simpl. case_decide as Hty.
  - pose proof (moved_links _ _ _ _ Hlinks M1) as Hl1.
    destruct (type_queue_spec s1 p t th a _ BINDER_WORK_CLEAR_DEATH_NOTIFICATION Hl1 Ed1) as (s2 & pl & -> & Hpl & M2);
      [done|congruence|by apply (moved_keys s s1 a _ _ M1)|by apply (moved_keys s s1 a _ _ M1)|].
    exists s2. split; [done|]. apply (death_moved s2 logs lost a d _ Ed (moved_trans _ _ _ _ _ _ M1 M2)); [done..| |].
    + exists [BR_DEAD_BINDER]. split; [done|]. split_and!; simpl; [auto|done|]. by destruct Hpl as [-> | ->].
    + intros q ref Er Hra. destruct (owner_dead q ref a d _ Er Hra Ha0 Ed He) as (? & _). congruence.
  - exists s1. split; [done|]. apply (death_moved s1 logs lost a d _ Ed M1); [done..| |].
    + exists [BR_DEAD_BINDER]. split; [done|]. split_and!; simpl; [auto| |done]. intros Hn. destruct (dt_log _ _ _ _ H a d Ed) as (lg' & ? & _ & Hno & _).
      specialize (Hno Hn). congruence.
    + intros q ref Er Hra. destruct (owner_dead q ref a d _ Er Hra Ha0 Ed He) as (Hdead & _ & _ & nd & En & Hz).
      exists nd. rewrite Hnd1. split; [done|]. rewrite decide_True by (split; [done|apply not_elem_of_nil]). by split.
Qed.

(** A reference that points to another notice than before. *)
Lemma repointed_at s' r ref a v :
  ds_refs s !! r = Some ref → ds_refs s' = <[r := ref_set_death v ref]> (ds_refs s) → v = 0 ∨ v = a → repointed s s' a.
Proof using.
  intros Er E Hv q. rewrite E. destruct (decide (q = r)) as [->|Hne].
  - rewrite lookup_insert_eq. split; [intros ? [= <-]; exists ref; split_and!; [done|done|simpl; tauto]|].
    intros ref0 E0. simplify_eq. by eexists.
  - rewrite lookup_insert_ne by done. split; intros ref' Er'; exists ref'; split_and!; auto; done.
Qed.

(** BC_CLEAR_DEATH_NOTIFICATION: the notice has no owner any more. *)
Lemma clear_owner s' r ref a d d' :
  ds_refs s !! r = Some ref → rf_death ref = a → a ≠ 0 → ds_deaths s !! a = Some d →
  moved (u_refs <[r := ref_set_death 0 ref]> s) s' a d' → (∀ lg, log_ok (a ∈ lost ∨ unowned s a) d lg → log_ok False d' lg) → death_wf [] s' logs lost.
Proof using H.
  intros Er Hra Ha0 Ed (Hw & Hre & Hrefs & Ed') Hlog.
  assert (Hno : ∀ q ref', ds_refs s' !! q = Some ref' → rf_death ref' ≠ a).
  { intros q ref'. rewrite Hrefs. simpl. rewrite lookup_insert_Some. intros [[<- <-]|[Hne Eq]]; [done|]. intros Hq. apply Hne.
    apply (dt_unique _ _ _ _ H r q ref ref'); congruence. }
  apply (death_frame [] [] s s' logs logs lost lost a (Some d')); try done.
  - by apply (repointed_at s' r ref a 0); [|rewrite Hrefs|left].
  - intros ? [= <-]. destruct (dt_log _ _ _ _ H a d Ed) as (lg & Elg & Hok). exists lg. split; [done|]. by apply (log_ok_mono False); [|apply Hlog].
  - intros q ref' Eq Hq. by destruct (Hno q ref' Eq).
  - intros q1 q2 ref1 ref2 E1 E2 H1. by destruct (Hno q1 ref1 E1).
Qed.

Lemma clear_death_step p t target cookie :
  thread_of t p → ∃ s', bc_clear_death s p t target cookie = Some s' ∧ death_wf [] s' logs lost.
Proof using H.
  intros Ht. destruct (thread_lists t p Ht) as (th & Et & Hp & HlT & HlP & _). unfold bc_clear_death.
  destruct (ds_descs s !! (p, target)) as [r|] eqn:Er; [|eauto]. destruct (dt_desc _ _ _ _ H p target r Er) as (ref & Eref & _). rewrite Eref. run.
  destruct (Z.eqb_spec (rf_death ref) 0) as [|Ha0]; [eauto|].
  destruct (dt_owner _ _ _ _ H r ref Eref Ha0) as (d & Ed & nd & En & Hif). rewrite Ed. run. destruct (negb _); [eauto|].
  set (s0 := u_refs _ s). assert (Hlinks : links_ok s0) by exact (dt_links _ _ _ _ H). destruct (bd_entry d) as [pl|] eqn:He.
  - destruct (owner_dead r ref _ d pl Eref eq_refl Ha0 Ed He) as (Hdead & _). rewrite decide_False by (intros Hn; by apply Hn).
    destruct (death_set_type_spec s0 (rf_death ref) d Hlinks Ed BINDER_WORK_DEAD_BINDER_AND_CLEAR) as (s1 & -> & M). exists s1. split; [done|].
    apply (clear_owner s1 r ref (rf_death ref) d _ Eref eq_refl Ha0 Ed M). intros lg (H1 & H2 & H3). rewrite He in *. split_and!; simpl; [done..|].
    destruct pl; (split; [naive_solver|]); try done; intros _; apply H3; by rewrite Hdead.
  - destruct (type_queue_spec s0 p t th (rf_death ref) d BINDER_WORK_CLEAR_DEATH_NOTIFICATION Hlinks Ed He Et HlT HlP) as (s1 & pl & -> & Hpl & M).
    exists s1. split; [done|]. apply (clear_owner s1 r ref (rf_death ref) d _ Eref eq_refl Ha0 Ed M).
    intros lg (H1 & _ & _). split_and!; simpl; [done..|]. by destruct Hpl as [-> | ->].
Qed.

(** BC_REQUEST_DEATH_NOTIFICATION.  Nothing has been told about a new notice. *)
Definition fresh_logs (s s' : dstate) (logs : gmap Z (list death_report)) : gmap Z (list death_report) :=
  ((λ _, []) <$> (ds_deaths s' ∖ ds_deaths s)) ∪ logs.

Lemma fresh_logs_same s' : ds_deaths s' = ds_deaths s → fresh_logs s s' logs = logs.
Proof using. intros E. unfold fresh_logs. by rewrite E, map_difference_diag, fmap_empty, (left_id_L ∅ (∪)). Qed.

Lemma fresh_logs_new s' a d :
  ds_deaths s !! a = None → ds_deaths s' !! a = Some d → (∀ b, b ≠ a → ds_deaths s' !! b = ds_deaths s !! b) →
  fresh_logs s s' logs !! a = Some [] ∧ ∀ b, b ≠ a → fresh_logs s s' logs !! b = logs !! b.
Proof using.
  intros Hno Ea Hb. unfold fresh_logs. split.
  - apply lookup_union_Some_l. rewrite lookup_fmap, lookup_difference, Hno, Ea. done.
  - intros b Hne. rewrite lookup_union_r; [done|]. rewrite lookup_fmap, lookup_difference, Hb by done. by destruct (ds_deaths s !! b).
Qed.

Lemma request_owner s0 s' r ref a d' c :
  ds_refs s !! r = Some ref → rf_death ref = 0 → a ≠ 0 → ds_deaths s !! a = None →
  s0 = u_refs <[r := ref_set_death a ref]> (u_deaths <[a := mk_bd BINDER_WORK_NONE c None]> s) →
  s' = s0 ∧ d' = mk_bd BINDER_WORK_NONE c None ∨ moved s0 s' a d' → log_ok False d' [] → notice_owned [] s' r (ref_set_death a ref) d' →
  death_wf [] s' (fresh_logs s s' logs) lost.
Proof using H.
  intros Er Hr0 Ha0 Hno -> Hm Hlog Hown. set (s0 := u_refs _ _) in *.
  assert (Hnew : ∀ pl l, ds_lists s !! pl = Some l → DeathWork a ∉ l).
  { intros pl l El Hin. apply (dt_links _ _ _ _ H pl l a El) in Hin as (? & ? & _). congruence. }
  assert (M : same_elsewhere s s' a ∧ relisted s s' a (bd_entry d') ∧ ds_refs s' = ds_refs s0 ∧ ds_deaths s' !! a = Some d').
  { destruct Hm as [[-> ->]|((? & ? & ? & Hb) & Hre & Hrefs & Ea)].
    - split_and!; simpl; try done; [|intros pl; split; [|done]; simpl|by rewrite lookup_insert_eq].
      + split_and!; try done. intros b Hb. simpl. by rewrite lookup_insert_ne.
      + intros l El. exists l. split_and!; try done. split; [|done]. intros Hin. by destruct (Hnew pl l El Hin).
    - split_and!; try done. split_and!; try done. intros b Hne. rewrite Hb by done. simpl. by rewrite lookup_insert_ne. }
  destruct M as (Hw & Hre & Hrefs & Ea). pose proof Hw as (_ & _ & _ & Hb). destruct (fresh_logs_new s' a d' Hno Ea Hb) as [Hl1 Hl2].
  assert (Honly : ∀ q ref', ds_refs s' !! q = Some ref' → rf_death ref' = a → q = r ∧ ref' = ref_set_death a ref).
  { intros q ref'. rewrite Hrefs. simpl. rewrite lookup_insert_Some. intros [[<- <-]|[Hne Eq]]; [done|]. intros Hq. exfalso.
    destruct (dt_owner _ _ _ _ H q ref' Eq) as (d & Ed & _); [congruence|]. congruence. }
  apply (death_frame [] [] s s' logs (fresh_logs s s' logs) lost lost a (Some d')); try done.
  - by apply (repointed_at s' r ref a a); [|rewrite Hrefs|right].
  - intros ? [= <-]. exists []. split; [done|]. by apply (log_ok_mono False).
  - intros q ref' Eq Hq. destruct (Honly q ref' Eq Hq) as [-> ->]. eauto.
  - intros q1 q2 ref1 ref2 E1 E2 H1 H2. destruct (Honly q1 ref1 E1 H1) as [-> _], (Honly q2 ref2 E2 H2) as [-> _]. done.
Qed.

Lemma wf_threads s' :
  ds_lists s' = ds_lists s → ds_descs s' = ds_descs s → ds_refs s' = ds_refs s → ds_nodes s' = ds_nodes s → ds_deaths s' = ds_deaths s →
  (∀ t th', ds_threads s' !! t = Some th' → ∃ th, ds_threads s !! t = Some th ∧ td_proc th' = td_proc th) →
  (∀ t, td_proc <$> ds_threads s' !! t = td_proc <$> ds_threads s !! t) → death_wf [] s' logs lost.
Proof using H.
  intros El Ed Er En Ede Ht Hpt. destruct H. split; unfold unowned in *; rewrite ?El, ?Ed, ?Er, ?En, ?Ede; try done.
  - intros r ref Eref H0. destruct (dt_owner0 r ref Eref H0) as (d & ? & nd & ? & Hif). exists d. split; [done|]. exists nd. rewrite En.
    split; [done|]. case_decide; [|done]. destruct Hif as [? Hif]. split; [done|]. intros pl Hpl. destruct (Hif pl Hpl) as [? Hpp].
    rewrite El. split; [done|]. rewrite <- Hpp. destruct pl; try done. apply Hpt.
  - intros t th' Et. destruct (Ht t th' Et) as (th & Eth & ->). eauto.
Qed.

Lemma request_death_step p t target cookie answer :
  thread_of t p → ∃ s', bc_request_death s p t target cookie answer = Some s' ∧ death_wf [] s' (fresh_logs s s' logs) lost.
Proof using H.
  intros Ht. destruct (thread_lists t p Ht) as (th & Et & Hp & HlT & HlP & _). unfold bc_request_death.
  assert (Hsame : ∀ s', ds_deaths s' = ds_deaths s → death_wf [] s' logs lost → death_wf [] s' (fresh_logs s s' logs) lost)
    by (intros s' E Hwf; by rewrite fresh_logs_same).
  destruct (ds_descs s !! (p, target)) as [r|] eqn:Er; [|exists s; auto].
  destruct (dt_desc _ _ _ _ H p target r Er) as (ref & Eref & Hrp & _). rewrite Eref. run.
  unfold ctrue at 1. destruct (Z.eqb_spec (rf_death ref) 0) as [Hr0|]; simpl negb; cbv iota; [|exists s; auto].
  destruct (kzalloc_death s answer) as [a|] eqn:Hk.
  2: { rewrite Et. run. eexists. split; [done|]. apply Hsame; [done|]. apply wf_threads; try done; simpl.
       - intros t' th'. rewrite lookup_insert_Some. intros [[<- <-]|[_ E']]; eauto.
       - intros t'. destruct (decide (t' = t)) as [->|]; [by rewrite lookup_insert_eq, Et|by rewrite lookup_insert_ne]. }
  assert (a ≠ 0 ∧ ds_deaths s !! a = None) as [Ha0 Hno].
  { unfold kzalloc_death in Hk. destruct answer; [|done]. case_decide; [|done]. by simplify_eq. }
  destruct (dt_refs _ _ _ _ H r ref Eref) as [(nd & En & _) _]. simpl ds_nodes. rewrite En. run. set (s0 := u_refs _ _).
  destruct (Z.eqb_spec (nd_proc nd) 0) as [Hz|Hz].
  - assert (Ea0 : ds_deaths s0 !! a = Some (mk_bd BINDER_WORK_NONE cookie None)) by apply lookup_insert_eq.
    assert (Hl0 : links_ok s0).
    { intros pl l b El. simpl in El. destruct (decide (b = a)) as [->|Hne].
      - rewrite Ea0. split; [intros (d & Hd & _)%(dt_links _ _ _ _ H pl l a El); congruence|by intros (? & [= <-] & ?)].
      - simpl. rewrite lookup_insert_ne by done. by apply (dt_links _ _ _ _ H). }
    destruct (type_queue_spec s0 p t th a _ BINDER_WORK_DEAD_BINDER Hl0 Ea0 eq_refl Et HlT HlP) as (s1 & pl & -> & Hpl & M).
    exists s1. split; [done|]. apply (request_owner s0 s1 r ref a _ cookie Eref Hr0 Ha0 Hno eq_refl (or_intror M)).
    + split_and!; simpl; [auto|done|]. by destruct Hpl as [-> | ->].
    + pose proof M as ((Hth & _ & Hnd & _) & _). exists nd. rewrite Hnd. split; [done|].
      rewrite decide_True by (split; [done|apply not_elem_of_nil]). split; [done|]. intros ? [= <-]. rewrite (moved_keys s0 s1 a _ pl M). simpl.
      destruct Hpl as [-> | ->]; simpl; [rewrite Hth; simpl; rewrite Et; simpl; split; [done|congruence]|split; [done|congruence]].
  - exists s0. split; [done|]. apply (request_owner s0 s0 r ref a (mk_bd BINDER_WORK_NONE cookie None) cookie Eref Hr0 Ha0 Hno eq_refl); [by left| |].
    + by split_and!; auto.
    + exists nd. split; [done|]. rewrite decide_False by tauto. done.
Qed.

(** ** Reading *)

Lemma first_work_known p t wait pl w :
  thread_of t p → first_work s p t wait = Some (Some (pl, w)) → ∃ l, ds_lists s !! pl = Some (w :: l) ∧ (pl = ThreadTodo t ∨ pl = ProcTodo p).
Proof using H.
  intros Ht. destruct (thread_lists t p Ht) as (th & _ & _ & [lt Elt] & [lp Elp] & _). unfold first_work. rewrite Elt. run.
  destruct lt as [|w' lt].
  - rewrite Elp. run. destruct lp as [|w' lp]; [done|]. destruct wait; [|done]. intros [= <- <-]. eauto.
  - intros [= <- <-]. eauto.
Qed.

(** Other items come and go. *)
Lemma wf_relist pl l l' :
  ds_lists s !! pl = Some l → (∀ a, DeathWork a ∈ l' ↔ DeathWork a ∈ l) → (∀ p k, pl = DeliveredDeath p → OtherWork k ∉ l') →
  death_wf [] (u_lists <[pl := l']> s) logs lost.
Proof using H.
  intros El Hd Ho. assert (Hk : ∀ pl', is_Some (ds_lists s !! pl') → is_Some (<[pl := l']> (ds_lists s) !! pl')) by (intros; apply lookup_insert_is_Some'; auto).
  destruct H. split; simpl; try done.
  - intros pl' k a. rewrite lookup_insert_Some. intros [[<- <-]|[_ E]]; [rewrite Hd|]; by apply dt_links0.
  - intros p k x. rewrite lookup_insert_Some. intros [[Hp <-]|[_ E]]; [by apply (Ho p)|by apply (dt_delivered0 p)].
  - intros r ref Er H0. destruct (dt_owner0 r ref Er H0) as (d & ? & Hown). exists d. split; [done|].
    by apply (owned_kept [] [] s _ r ref ref d).
  - intros r ref Er. destruct (dt_refs0 r ref Er). auto.
  - intros t th Et. destruct (dt_threads0 t th Et) as (? & ? & ?). auto.
Qed.

(** A notice that nobody points to is freed. *)
Lemma death_freed s1 logs' a d d1 :
  ds_deaths s !! a = Some d → same_elsewhere s s1 a → relisted s s1 a None → repointed s s1 a → ds_deaths s1 !! a = Some d1 →
  (∀ q ref, ds_refs s1 !! q = Some ref → rf_death ref ≠ a) → (∀ b, b ≠ a → logs' !! b = logs !! b) →
  death_wf [] (u_deaths (delete a) s1) logs' lost.
Proof using H.
  intros Ed (Hw1 & Hw2 & Hw3 & Hb) Hre Hrp Ed1 Hno Hlogs. assert (Ha0 : a ≠ 0) by (intros ->; rewrite (dt_zero _ _ _ _ H) in Ed; done).
  apply (death_frame [] [] s (u_deaths (delete a) s1) logs logs' lost lost a None); try done.
  - split_and!; try done. intros b Hne. simpl. rewrite lookup_delete_ne by done. by apply Hb.
  - apply lookup_delete_eq.
  - intros q ref Eq Hq. by destruct (Hno q ref Eq).
  - intros q1 q2 ref1 ref2 E1 E2 H1. by destruct (Hno q1 ref1 E1).
Qed.

Definition log_report (logs : gmap Z (list death_report)) (a : Z) (rep : death_report) : gmap Z (list death_report) :=
  <[a := default [] (logs !! a) ++ [rep]]> logs.

(** What a report says, and when it is made. *)
Definition report_ok (s' : dstate) (rep : death_report) (a cookie : Z) : Prop :=
  ∃ d lg, ds_deaths s !! a = Some d ∧ bd_cookie d = cookie ∧ logs !! a = Some lg ∧
    match rep with
    | BR_DEAD_BINDER => lg = [] ∧ ∀ q ref, ds_refs s !! q = Some ref → rf_death ref = a → ∃ nd, ds_nodes s !! rf_node ref = Some nd ∧ nd_proc nd = 0
    | BR_CLEAR_DEATH_NOTIFICATION_DONE => (lg = [] ∨ lg = [BR_DEAD_BINDER]) ∧ ds_deaths s' !! a = None ∧
        ∀ q ref, ds_refs s !! q = Some ref → rf_death ref ≠ a
    end.

Lemma br_death_step p t pl l a :
  thread_of t p → ds_lists s !! pl = Some l → DeathWork a ∈ l → pl = ThreadTodo t ∨ pl = ProcTodo p →
  ∃ s' rep c, br_death s p a = Some (s', (rep, a, c)) ∧ report_ok s' rep a c ∧ death_wf [] s' (log_report logs a rep) lost.
Proof using H.
  intros Ht El Hin Hpl. destruct (thread_lists t p Ht) as (th & Et & Hp & _ & _ & HlD).
  destruct (proj1 (dt_links _ _ _ _ H pl l a El) Hin) as (d & Ed & He). destruct (dt_log _ _ _ _ H a d Ed) as (lg & Elg & Hlg & Hnone & Hent).
  assert (Hty : bd_type d ≠ BINDER_WORK_NONE ∧ (bd_type d ≠ BINDER_WORK_CLEAR_DEATH_NOTIFICATION → lg = [])) by (rewrite He in Hent; destruct Hpl as [-> | ->]; done).
  destruct Hty as [Hty Hlg0]. assert (Ha0 : a ≠ 0) by (intros ->; rewrite (dt_zero _ _ _ _ H) in Ed; done).
  assert (Hk : ∀ pl', bd_entry d = Some pl' → is_Some (ds_lists s !! pl')) by (rewrite He; intros ? [= <-]; eauto).
  assert (Hrest : ∀ rep b, b ≠ a → log_report logs a rep !! b = logs !! b) by (intros; by apply lookup_insert_ne).
  pose proof (dt_links _ _ _ _ H) as Hlinks. unfold br_death. rewrite Ed. run.
  assert (Hdead : bd_type d ≠ BINDER_WORK_CLEAR_DEATH_NOTIFICATION → ∃ s', (s ← death_move s a (DeliveredDeath p); Some (s, (BR_DEAD_BINDER, a, bd_cookie d))) =
    Some (s', (BR_DEAD_BINDER, a, bd_cookie d)) ∧ report_ok s' BR_DEAD_BINDER a (bd_cookie d) ∧ death_wf [] s' (log_report logs a BR_DEAD_BINDER) lost).
  { intros Hc. destruct (death_move_spec s a d (DeliveredDeath p) Hlinks Ed Hk HlD) as (s' & -> & M). run. exists s'. split; [done|].
    specialize (Hlg0 Hc) as ->. split.
    - exists d, []. split_and!; try done. intros q ref Er Hq. by destruct (owner_dead q ref a d pl Er Hq Ha0 Ed He) as (_ & _ & _ & ?).
    - apply (death_moved s' _ lost a d _ Ed M); [by apply Hrest|done| |].
      + eexists. unfold log_report. rewrite lookup_insert_eq, Elg. split; [done|]. split_and!; simpl; auto. done.
      + intros q ref Er Hq. destruct (owner_dead q ref a d pl Er Hq Ha0 Ed He) as (Hd & _ & Hpp & nd & En & Hz).
        pose proof M as ((_ & _ & Hnd & _) & _). exists nd. rewrite Hnd. split; [done|]. rewrite decide_True by (split; [done|apply not_elem_of_nil]).
        split; [done|]. intros ? [= <-]. rewrite (moved_keys s s' a _ _ M). split; [done|]. rewrite <- Hpp.
        destruct Hpl as [-> | ->]; [|done]. simpl. rewrite Et. simpl. congruence. }
  destruct (bd_type d) eqn:Hd; [done| | |].
  1, 2: destruct Hdead as (s' & Hr & Hrep & Hwf); [done|]; exists s', BR_DEAD_BINDER, (bd_cookie d); done.
  assert (Hno : ∀ q ref, ds_refs s !! q = Some ref → rf_death ref ≠ a).
  { intros q ref Er Hq. destruct (owner_dead q ref a d pl Er Hq Ha0 Ed He) as (Hdd & _). congruence. }
  destruct (death_del_spec s a d Hlinks Ed Hk) as (s1 & -> & M). run. do 3 eexists. split; [done|]. pose proof M as (Hw & Hre & Hrefs & Ed1). split.
  - exists d, lg. split_and!; try done. apply lookup_delete_eq.
  - apply (death_freed s1 _ a d _ Ed Hw Hre (repointed_same s1 a Hrefs) Ed1); [|by apply Hrest]. intros q ref. rewrite Hrefs. apply Hno.
Qed.

Lemma read_step p t wait fault :
  thread_of t p → ∃ s' ev, binder_read_death s p t wait fault = Some (s', ev) ∧
    match ev with
    | None => death_wf [] s' logs lost
    | Some (rep, a, c) => report_ok s' rep a c ∧ death_wf [] s' (log_report logs a rep) lost
    end.
Proof using H.
  intros Ht. unfold binder_read_death. destruct (first_work s p t wait) as [[[pl w]|]|] eqn:Hf; run; [|eauto|].
  - destruct (first_work_known p t wait pl w Ht Hf) as (l & El & Hpl). destruct w as [a|k].
    + destruct fault; [eauto|]. destruct (br_death_step p t pl _ a Ht El ltac:(left) Hpl) as (s' & rep & c & -> & ? & ?). run.
      exists s', (Some (rep, a, c)). done.
    + exists s, None. done.
  - exfalso. destruct (thread_lists t p Ht) as (th & _ & _ & [lt Elt] & [lp Elp] & _). unfold first_work in Hf. rewrite Elt in Hf. simpl in Hf.
    destruct lt; [|done]. rewrite Elp in Hf. simpl in Hf. destruct lp; [done|]. by destruct wait.
Qed.
End commands.

(** ** The end of a reference *)

Definition without_ref (s : dstate) (r : Z) (ref : death_ref) (nd : death_node) : dstate :=
  u_refs (delete r) (u_nodes <[rf_node ref := mk_nd (nd_proc nd) (filter (λ q, q ≠ r) (nd_refs nd))]> (u_descs (delete (rf_proc ref, rf_desc ref)) s)).

Lemma wf_drop_ref s logs lost r ref nd :
  death_wf [] s logs lost → ds_refs s !! r = Some ref → rf_death ref = 0 → ds_nodes s !! rf_node ref = Some nd → death_wf [] (without_ref s r ref nd) logs lost.
Proof.
  intros H Er H0 En. destruct H. split; simpl; try done.
  - intros q ref'. rewrite lookup_delete_Some. intros [Hne Eq] Hq0. destruct (dt_owner0 q ref' Eq Hq0) as (d & ? & nd' & En' & Hif).
    exists d. split; [done|]. destruct (decide (rf_node ref' = rf_node ref)) as [Hs|Hs].
    + eexists. simpl. rewrite Hs, lookup_insert_eq. split; [done|]. simpl. by assert (nd' = nd) as -> by congruence.
    + exists nd'. simpl. by rewrite lookup_insert_ne.
  - intros r1 r2 ref1 ref2. rewrite !lookup_delete_Some. intros [_ ?] [_ ?]. eauto.
  - intros a d Ed. destruct (dt_log0 a d Ed) as (lg & ? & Hok). exists lg. split; [done|]. revert Hok. apply log_ok_mono.
    intros [?|Hu]; [by left|right]. intros q ref'. simpl. rewrite lookup_delete_Some. intros [_ ?]. by apply (Hu q).
  - intros p t q. rewrite lookup_delete_Some. intros [Hne Eq]. destruct (dt_desc0 p t q Eq) as (ref' & Er' & ? & ?). exists ref'.
    split; [|done]. rewrite lookup_delete_ne; [done|]. intros ->. apply Hne. congruence.
  - intros q ref'. rewrite lookup_delete_Some. intros [Hne Eq]. destruct (dt_refs0 q ref' Eq) as [(nd' & En' & Hin) ?]. split; [|done].
    destruct (decide (rf_node ref' = rf_node ref)) as [Hs|Hs]; [|exists nd'; by rewrite lookup_insert_ne].
    eexists. rewrite Hs, lookup_insert_eq. split; [done|]. simpl. apply list_elem_of_filter. split; [done|]. by assert (nd' = nd) as <- by congruence.
  - intros n nd'. rewrite lookup_insert_Some. intros [[<- <-]|[Hne En']].
    + destruct (dt_nodes0 _ nd En) as [Hnd Hq]. simpl. split; [by apply NoDup_filter|]. intros q [Hqr Hin]%list_elem_of_filter.
      destruct (Hq q Hin) as (ref' & ? & ?). exists ref'. by rewrite lookup_delete_ne.
    + destruct (dt_nodes0 n nd' En') as [? Hq]. split; [done|]. intros q Hin. destruct (Hq q Hin) as (ref' & Eq & ?). exists ref'.
      rewrite lookup_delete_ne; [done|]. intros ->. simplify_eq.
Qed.

(** death_del only looks at lists and notices. *)
Lemma death_del_local s1 s2 s1' a :
  ds_lists s2 = ds_lists s1 → ds_deaths s2 = ds_deaths s1 → death_del s1 a = Some s1' →
  death_del s2 a = Some (u_lists (λ _, ds_lists s1') (u_deaths (λ _, ds_deaths s1') s2)).
Proof.
  intros El Ed. unfold death_del. rewrite Ed. destruct (ds_deaths s1 !! a) as [d|]; [|done]. run. destruct (bd_entry d) as [pl|].
  - rewrite El. destruct (ds_lists s1 !! pl); [|done]. run. intros [= <-]. destruct s1, s2; simpl in *. by subst.
  - intros [= <-]. destruct s1, s2; simpl in *. by subst.
Qed.

Lemma delete_ref_step s logs lost r : death_wf [] s logs lost → is_Some (ds_refs s !! r) → ∃ s' ref nd, delete_ref_death s r = Some s' ∧ death_wf [] s' logs lost ∧
  ds_refs s !! r = Some ref ∧ ds_refs s' = delete r (ds_refs s) ∧ ds_threads s' = ds_threads s ∧ ds_nodes s !! rf_node ref = Some nd ∧
  ds_nodes s' = <[rf_node ref := mk_nd (nd_proc nd) (filter (λ q, q ≠ r) (nd_refs nd))]> (ds_nodes s) ∧
  (∀ pl, is_Some (ds_lists s' !! pl) ↔ is_Some (ds_lists s !! pl)).
Proof.
  intros H [ref Er]. destruct (dt_refs _ _ _ _ H r ref Er) as [(nd & En & _) _]. unfold delete_ref_death. rewrite Er. run. rewrite En. run.
  unfold ctrue. destruct (Z.eqb_spec (rf_death ref) 0) as [H0|Ha0]; simpl negb; cbv iota; run.
  { do 3 eexists. split; [done|]. split; [by apply (wf_drop_ref s logs lost r ref nd)|]. by split_and!. }
  destruct (dt_owner _ _ _ _ H r ref Er Ha0) as (d & Ed & Hown). set (a := rf_death ref) in *.
  set (s0 := u_refs <[r := ref_set_death 0 ref]> s).
  assert (Hk : ∀ pl, bd_entry d = Some pl → is_Some (ds_lists s0 !! pl)).
  { intros pl He. destruct (owner_dead s logs lost H r ref a d pl Er eq_refl Ha0 Ed He) as (_ & ? & _). done. }
  destruct (death_del_spec s0 a d (dt_links _ _ _ _ H) Ed Hk) as (s1 & Hdel & M). pose proof M as (Hw & Hre & Hrefs & Ed1).
  match goal with |- context [death_del ?x a] => rewrite (death_del_local s0 x s1 a eq_refl eq_refl Hdel) end. run.
  assert (Hno : ∀ q ref', ds_refs s1 !! q = Some ref' → rf_death ref' ≠ a).
  { intros q ref'. rewrite Hrefs. simpl. rewrite lookup_insert_Some. intros [[<- <-]|[Hne Eq]]; [done|]. intros Hq. apply Hne.
    apply (dt_unique _ _ _ _ H r q ref ref'); unfold a in *; congruence. }
  assert (Hwf : death_wf [] (u_deaths (delete a) s1) logs lost).
  { eapply (death_freed s logs lost H s1 logs a d _ Ed Hw Hre); [|exact Ed1|done|done]. by apply (repointed_at s s1 r ref a 0); [|rewrite Hrefs|left]. }
  pose proof Hw as (Ht & Hd & Hn & _). simpl in Ht, Hd, Hn, Hrefs.
  do 3 eexists. split; [done|]. split; [|split_and!; try done; intros pl; simpl; apply (moved_keys s0 s1 a _ pl M)].
  pose proof (wf_drop_ref (u_deaths (delete a) s1) logs lost r (ref_set_death 0 ref) nd Hwf) as Hfin. unfold without_ref in Hfin. simpl in Hfin.
  destruct s1; simpl in *. subst. unfold u_refs, u_nodes, u_descs, u_deaths, u_lists in *. simpl in *.
  rewrite lookup_insert_eq, delete_insert_eq in Hfin. by apply Hfin.
Qed.

(** ** The end of a node *)

Lemma wf_pend pend pend' s logs lost :
  death_wf pend s logs lost → (∀ q ref, ds_refs s !! q = Some ref → rf_death ref ≠ 0 → q ∈ pend ↔ q ∈ pend') → death_wf pend' s logs lost.
Proof.
  intros [] Hp. split; try done. intros r ref Er H0. destruct (dt_owner0 r ref Er H0) as (d & ? & Hown). exists d. split; [done|].
  apply (owned_kept pend pend' s s r ref ref d); try done. by apply (Hp r ref).
Qed.

Lemma wf_free_node s logs lost n nd : death_wf [] s logs lost → ds_nodes s !! n = Some nd → nd_refs nd = [] → death_wf [] (u_nodes (delete n) s) logs lost.
Proof.
  intros [] En Hno. assert (Hne : ∀ r ref, ds_refs s !! r = Some ref → rf_node ref ≠ n).
  { intros r ref Er <-. destruct (dt_refs0 r ref Er) as [(nd' & En' & Hin) _]. simplify_eq. rewrite Hno in Hin. by apply elem_of_nil in Hin. }
  split; simpl; try done.
  - intros r ref Er H0. destruct (dt_owner0 r ref Er H0) as (d & ? & nd' & En' & ?). exists d. split; [done|]. exists nd'. simpl.
    rewrite lookup_delete_ne; [done|]. by apply not_eq_sym, (Hne r).
  - intros r ref Er. destruct (dt_refs0 r ref Er) as [(nd' & ? & ?) ?]. split; [|done]. exists nd'. rewrite lookup_delete_ne; [done|]. by apply not_eq_sym, (Hne r).
  - intros m nd'. rewrite lookup_delete_Some. intros [_ Em]. eauto.
Qed.

(** The references of a node that has just died, before they are told. *)
Lemma wf_node_dies s logs lost n nd :
  death_wf [] s logs lost → ds_nodes s !! n = Some nd → nd_proc nd ≠ 0 →
  death_wf (nd_refs nd) (u_nodes <[n := mk_nd 0 (nd_refs nd)]> s) logs lost.
Proof.
  intros [] En Hlive. destruct (dt_nodes0 n nd En) as [Hnd Hrefs]. split; simpl; try done.
  - intros r ref Er H0. destruct (dt_owner0 r ref Er H0) as (d & ? & nd' & En' & Hif). exists d. split; [done|].
    destruct (dt_refs0 r ref Er) as [(nd2 & En2 & Hin) _]. simplify_eq. destruct (decide (rf_node ref = n)) as [<-|Hne].
    + simplify_eq. eexists. simpl. rewrite lookup_insert_eq. split; [done|]. rewrite decide_False by tauto. by rewrite decide_False in Hif by tauto.
    + exists nd'. simpl. rewrite lookup_insert_ne by done. split; [done|]. assert (Hnot : r ∉ nd_refs nd).
      { intros Hr. destruct (Hrefs r Hr) as (? & ? & ?). congruence. }
      destruct (decide (nd_proc nd' = 0 ∧ r ∉ [])) as [Hd|Hd]; [rewrite decide_True by tauto; done|].
      rewrite decide_False; [done|]. intros [? _]. apply Hd. split; [done|apply not_elem_of_nil].
  - intros r ref Er. destruct (dt_refs0 r ref Er) as [(nd2 & En2 & Hin) ?]. split; [|done]. destruct (decide (rf_node ref = n)) as [Hn|Hne].
    + eexists. rewrite Hn, lookup_insert_eq. split; [done|]. simpl. congruence.
    + exists nd2. by rewrite lookup_insert_ne.
  - intros m nd'. rewrite lookup_insert_Some. intros [[<- <-]|[_ Em]]; eauto.
Qed.

Definition dead_refs (s : dstate) (k : list Z) : Prop :=
  ∀ q, q ∈ k → ∃ ref nd, ds_refs s !! q = Some ref ∧ ds_nodes s !! rf_node ref = Some nd ∧ nd_proc nd = 0.

Lemma notify_refs_spec k s logs lost :
  death_wf k s logs lost → NoDup k → dead_refs s k →
  ∃ s', notify_refs s k = Some s' ∧ death_wf [] s' logs lost ∧ ds_refs s' = ds_refs s ∧ ds_threads s' = ds_threads s ∧ ds_nodes s' = ds_nodes s ∧
    ∀ pl, is_Some (ds_lists s' !! pl) ↔ is_Some (ds_lists s !! pl).
Proof.
  revert s. induction k as [|r k IH]; intros s H Hnd Hdead; [by exists s|]. apply NoDup_cons in Hnd as [Hr Hnd]. simpl.
  destruct (Hdead r) as (ref & nd & Er & En & Hz); [left|]. rewrite Er. run.
  assert (Hrest : ∀ q ref', ds_refs s !! q = Some ref' → q ≠ r → q ∈ r :: k ↔ q ∈ k) by (intros q ref' _ Hq; rewrite elem_of_cons; tauto).
  unfold ctrue. destruct (Z.eqb_spec (rf_death ref) 0) as [H0|Ha0]; simpl negb; cbv iota.
  { apply IH; [|done|intros q Hq; apply Hdead; by right]. apply (wf_pend (r :: k)); [done|]. intros q ref' Eq Hq. apply (Hrest q ref' Eq).
    intros ->. congruence. }
  destruct (dt_owner _ _ _ _ H r ref Er Ha0) as (d & Ed & nd' & En' & Hif). assert (nd' = nd) as -> by congruence.
  rewrite decide_False in Hif by (intros [_ Hp]; apply Hp; left). destruct Hif as [Hty He]. rewrite Ed. run. rewrite He.
  pose proof (dt_links _ _ _ _ H) as Hl. destruct (death_set_type_spec s _ d Hl Ed BINDER_WORK_DEAD_BINDER) as (s1 & -> & M1). run.
  destruct (dt_refs _ _ _ _ H r ref Er) as [_ HlP]. pose proof M1 as (_ & _ & _ & Ed1). rewrite He in M1, Ed1.
  destruct (death_add_tail_spec s1 _ _ (moved_links _ _ _ _ Hl M1) Ed1 (ProcTodo (rf_proc ref))) as (s2 & -> & M2); [done|by apply (moved_keys s s1 _ _ _ M1)|]. run.
  pose proof (moved_trans _ _ _ _ _ _ M1 M2) as M. simpl in M. pose proof M as ((Ht & Hd & Hn & Hb) & Hre & Hrefs & Ed2).
  destruct (IH s2) as (s3 & -> & Hwf & Hr3 & Ht3 & Hn3 & Hk3); [|done| |].
  - apply (death_frame (r :: k) k s s2 logs logs lost lost (rf_death ref) (Some (mk_bd BINDER_WORK_DEAD_BINDER (bd_cookie d) (Some (ProcTodo (rf_proc ref)))))); try done.
    + by apply repointed_same.
    + intros ? [= <-]. destruct (dt_log _ _ _ _ H _ d Ed) as (lg & Elg & _ & Hno & _). exists lg. split; [done|]. rewrite (Hno Hty). split_and!; simpl; auto; done.
    + intros q ref' Eq Hq. rewrite Hrefs in Eq. assert (q = r) as -> by (apply (dt_unique _ _ _ _ H q r ref' ref); congruence). simplify_eq.
      eexists. split; [done|]. exists nd. rewrite Hn. split; [done|]. rewrite decide_True by done. split; [done|]. intros ? [= <-].
      rewrite (moved_keys s s2 _ _ _ M). done.
    + intros q1 q2 ref1 ref2 E1 E2 H1 H2. rewrite Hrefs in E1, E2. apply (dt_unique _ _ _ _ H q1 q2 ref1 ref2); congruence.
    + intros q ref' Eq _ Hq. rewrite Hrefs in Eq. apply (Hrest q ref' Eq). intros ->. congruence.
  - intros q Hq. rewrite Hrefs, Hn. apply Hdead. by right.
  - exists s3. split_and!; try congruence. intros pl. by rewrite Hk3, (moved_keys s s2 _ _ _ M).
Qed.

(** What else is there stays. *)
Definition world_kept (s s' : dstate) : Prop :=
  ds_refs s' = ds_refs s ∧ ds_threads s' = ds_threads s ∧ ∀ pl, is_Some (ds_lists s' !! pl) ↔ is_Some (ds_lists s !! pl).

Lemma release_node_step s logs lost n nd :
  death_wf [] s logs lost → ds_nodes s !! n = Some nd → nd_proc nd ≠ 0 →
  ∃ s', release_node s n = Some s' ∧ death_wf [] s' logs lost ∧ world_kept s s' ∧ ∀ m, m ≠ n → ds_nodes s' !! m = ds_nodes s !! m.
Proof.
  intros H En Hlive. unfold release_node. rewrite En. run. destruct (dt_nodes _ _ _ _ H n nd En) as [Hnd Hrefs].
  destruct (nd_refs nd) as [|r k] eqn:Hk.
  - eexists. split; [done|]. split; [by apply (wf_free_node s logs lost n nd)|]. split; [by split_and!|]. intros m Hm. simpl. by rewrite lookup_delete_ne.
  - pose proof (wf_node_dies s logs lost n nd H En Hlive) as Hd. rewrite Hk in Hd.
    destruct (notify_refs_spec (r :: k) _ logs lost Hd Hnd) as (s' & -> & Hwf & Hr & Ht & Hn & Hl).
    + intros q Hq. destruct (Hrefs q Hq) as (ref & Eq & Hqn). exists ref, (mk_nd 0 (r :: k)). split_and!; try done. simpl. by rewrite Hqn, lookup_insert_eq.
    + exists s'. split_and!; try done. intros m Hm. rewrite Hn. simpl. by rewrite lookup_insert_ne.
Qed.

(** ** The end of lists *)

Definition deaths_in (l : list dwork) : gset Z := list_to_set (omap (λ w, match w with DeathWork a => Some a | OtherWork _ => None end) l).

Lemma elem_of_deaths_in a l : a ∈ deaths_in l ↔ DeathWork a ∈ l.
Proof.
  unfold deaths_in. rewrite elem_of_list_to_set, list_elem_of_omap. split.
  - intros ([b|k] & Hin & Hb); by simplify_eq.
  - intros Hin. by exists (DeathWork a).
Qed.

Lemma wf_lost s logs lost lost' : death_wf [] s logs lost → lost ⊆ lost' → death_wf [] s logs lost'.
Proof.
  intros [] Hs. split; try done. intros a d Ed. destruct (dt_log0 a d Ed) as (lg & ? & Hok). exists lg. split; [done|]. revert Hok. apply log_ok_mono. set_solver.
Qed.

Lemma release_items_spec pl l s logs lost :
  death_wf [] s logs lost → is_Some (ds_lists s !! pl) →
  (∀ a, DeathWork a ∈ l → ∃ d, ds_deaths s !! a = Some d ∧ (bd_entry d = Some pl ∨ bd_entry d = None)) →
  ∃ s', release_items s l = Some s' ∧ death_wf [] s' logs (lost ∪ deaths_in l) ∧ world_kept s s' ∧ ds_nodes s' = ds_nodes s ∧
    ∀ a d', ds_deaths s' !! a = Some d' → ∃ d, ds_deaths s !! a = Some d ∧ (bd_entry d' = None ∨ bd_entry d' = bd_entry d ∧ DeathWork a ∉ l).
Proof.
  revert s lost. induction l as [|w l IH]; intros s lost H Hpl Hl.
  { exists s. split; [done|]. split; [by apply (wf_lost s logs lost); [|set_solver]|]. split_and!; try done. intros a d' Ed. exists d'. split; [done|]. right.
    split; [done|apply not_elem_of_nil]. }
  destruct w as [a|k]; simpl.
  2: { destruct (IH s lost H Hpl) as (s' & -> & Hwf & Hk & Hn & Hd); [intros a Ha; apply Hl; by right|]. exists s'. split_and!; try done.
       intros a d' Ed. destruct (Hd a d' Ed) as (d & ? & [?|[? ?]]); exists d; (split; [done|]); [by left|right]. split; [done|].
       rewrite elem_of_cons. naive_solver. }
  destruct (Hl a) as (d & Ed & He); [left|]. pose proof (dt_links _ _ _ _ H) as Hlinks.
  destruct (death_del_spec s a d Hlinks Ed) as (s1 & -> & M); [intros pl'; destruct He as [-> | ->]; [by intros [= <-]|done]|]. run.
  pose proof M as ((Ht & Hde & Hnd & Hb) & Hre & Hrefs & Ed1).
  assert (H1 : death_wf [] s1 logs (lost ∪ {[a]})).
  { apply (death_moved s logs lost H s1 logs (lost ∪ {[a]}) a d _ Ed M); [done|set_solver| |].
    - destruct (dt_log _ _ _ _ H a d Ed) as (lg & ? & ? & ? & _). exists lg. split; [done|]. split_and!; simpl; try done. set_solver.
    - intros q ref Er Hq. assert (Ha0 : a ≠ 0) by (intros ->; rewrite (dt_zero _ _ _ _ H) in Ed; done).
      destruct (dt_owner _ _ _ _ H q ref Er) as (d2 & Ed2 & nd & En & Hif); [congruence|]. rewrite Hq in Ed2. simplify_eq. exists nd. rewrite Hnd.
      split; [done|]. case_decide; [by destruct Hif|]. by destruct Hif. }
  destruct (IH s1 (lost ∪ {[a]}) H1) as (s2 & -> & Hwf & (Hr2 & Ht2 & Hk2) & Hn2 & Hd2); [by apply (moved_keys s s1 a _ _ M)| |].
  { intros b Hb'. destruct (decide (b = a)) as [->|Hne]; [rewrite Ed1; eauto|]. rewrite Hb by done. apply Hl. by right. }
  exists s2. split; [done|]. split_and!; try congruence.
  - apply (wf_lost s2 logs _ _ Hwf). unfold deaths_in. simpl. set_solver.
  - split_and!; try congruence. intros pl'. by rewrite Hk2, (moved_keys s s1 a _ _ M).
  - intros b d' Eb. destruct (Hd2 b d' Eb) as (d2 & Eb1 & Hcase). destruct (decide (b = a)) as [->|Hne].
    + rewrite Ed1 in Eb1. simplify_eq. simpl in Hcase. exists d. split; [done|]. left. by destruct Hcase as [?|[? _]].
    + rewrite Hb in Eb1 by done. exists d2. split; [done|]. destruct Hcase as [?|[? ?]]; [by left|right]. split; [done|]. rewrite elem_of_cons. naive_solver.
Qed.

Lemma release_work_spec pl l s logs lost :
  death_wf [] s logs lost → ds_lists s !! pl = Some l →
  ∃ s', binder_release_work s pl = Some s' ∧ death_wf [] s' logs (lost ∪ deaths_in l) ∧ world_kept s s' ∧ ds_nodes s' = ds_nodes s ∧ ds_lists s' !! pl = Some [].
Proof.
  intros H El. unfold binder_release_work. rewrite El. run.
  destruct (release_items_spec pl l s logs lost H) as (s' & -> & Hwf & (Hr & Ht & Hk) & Hn & Hd); [eauto| |].
  { intros a Ha. apply (dt_links _ _ _ _ H pl l a El) in Ha as (d & ? & ?). eauto. }
  run. destruct (proj2 (Hk pl)) as [l' El']; [eauto|]. eexists. split; [done|]. split_and!; simpl; try done; [| |by rewrite lookup_insert_eq].
  - apply (wf_relist s' logs _ Hwf pl l' []); [done| |by intros; apply not_elem_of_nil].
    intros a. rewrite elem_of_nil. split; [done|]. intros Hin. apply (dt_links _ _ _ _ Hwf pl l' a El') in Hin as (d' & Ed' & He').
    destruct (Hd a d' Ed') as (d & Ed & [?|[Hee Hno]]); [congruence|]. apply Hno, (dt_links _ _ _ _ H pl l a El). exists d. split; congruence.
  - split_and!; try done. intros pl'. rewrite <- Hk. simpl. split; [|intros; apply lookup_insert_is_Some'; auto].
    intros [?|[_ ?]]%lookup_insert_is_Some; [subst; eauto|done].
Qed.

(** Lists that nothing of the rest refers to are dropped. *)
Lemma wf_drop_lists s logs lost (gone : dplace → Prop) s' :
  death_wf [] s logs lost → ds_descs s' = ds_descs s → ds_refs s' = ds_refs s → ds_nodes s' = ds_nodes s → ds_deaths s' = ds_deaths s →
  (∀ pl l, ds_lists s' !! pl = Some l → ds_lists s !! pl = Some l) → (∀ pl, ¬ gone pl → ds_lists s' !! pl = ds_lists s !! pl) →
  (∀ r ref d pl, ds_refs s !! r = Some ref → rf_death ref ≠ 0 → ds_deaths s !! rf_death ref = Some d → bd_entry d = Some pl →
     place_proc s pl = Some (rf_proc ref) → ¬ gone pl ∧ place_proc s' pl = place_proc s pl) →
  (∀ r ref, ds_refs s !! r = Some ref → ¬ gone (ProcTodo (rf_proc ref))) →
  (∀ t th, ds_threads s' !! t = Some th → ds_threads s !! t = Some th ∧ ¬ gone (ThreadTodo t) ∧ ¬ gone (ProcTodo (td_proc th)) ∧ ¬ gone (DeliveredDeath (td_proc th))) →
  death_wf [] s' logs lost.
Proof.
  intros [] Ed Er En Ede Hsub Hsame Hown Hrp Hth. split; unfold unowned in *; rewrite ?Ed, ?Er, ?En, ?Ede; try done.
  - intros pl l a El. by apply dt_links0, Hsub.
  - intros p l k El. by apply (dt_delivered0 p), Hsub.
  - intros r ref Eref H0. destruct (dt_owner0 r ref Eref H0) as (d & Edd & nd & End & Hif). exists d. split; [done|]. exists nd. rewrite En. split; [done|].
    case_decide; [|done]. destruct Hif as [? Hif]. split; [done|]. intros pl He. destruct (Hif pl He) as [? Hpp].
    destruct (Hown r ref d pl Eref H0 Edd He Hpp) as [Hng ->]. by rewrite Hsame.
  - intros r ref Eref. destruct (dt_refs0 r ref Eref) as [? ?]. split; [done|]. rewrite Hsame; [done|]. by apply (Hrp r).
  - intros t th Et. destruct (Hth t th Et) as (Et0 & ? & ? & ?). destruct (dt_threads0 t th Et0) as (? & ? & ?). by rewrite !Hsame.
Qed.

Lemma free_thread_step s logs lost t th l :
  death_wf [] s logs lost → ds_threads s !! t = Some th → ds_lists s !! ThreadTodo t = Some l →
  ∃ s', free_thread s t = Some s' ∧ death_wf [] s' logs (lost ∪ deaths_in l) ∧ ds_refs s' = ds_refs s ∧ ds_nodes s' = ds_nodes s ∧
    ds_threads s' = delete t (ds_threads s) ∧ ∀ pl, pl ≠ ThreadTodo t → is_Some (ds_lists s' !! pl) ↔ is_Some (ds_lists s !! pl).
Proof.
  intros H Et El. unfold free_thread. destruct (release_work_spec (ThreadTodo t) l s logs lost H El) as (s1 & -> & Hwf & (Hr & Ht & Hk) & Hn & Hempty). run.
  eexists. split; [done|]. split_and!; simpl; try congruence; [|by intros pl Hne; rewrite lookup_delete_ne].
  apply (wf_drop_lists s1 logs _ (λ pl, pl = ThreadTodo t)); simpl; try done.
  - intros pl k. rewrite lookup_delete_Some. by intros [_ ?].
  - intros pl Hne. by rewrite lookup_delete_ne.
  - intros r ref d pl Eref H0 Ed He _. assert (pl ≠ ThreadTodo t) as Hne.
    { intros ->. assert (Hin : DeathWork (rf_death ref) ∈ []) by (apply (dt_links _ _ _ _ Hwf _ [] _ Hempty); eauto). by apply elem_of_nil in Hin. }
    split; [done|]. destruct pl as [t'|p|p]; simpl; [|done..]. rewrite lookup_delete_ne; [done|]. by intros ->.
  - intros t' th'. rewrite lookup_delete_Some. intros [? ?]. split_and!; try done. naive_solver.
Qed.

(** ** The end of a process *)

Lemma wf_unlost s logs lost X :
  death_wf [] s logs (lost ∪ X) → (∀ r ref, ds_refs s !! r = Some ref → rf_death ref ∉ X) → death_wf [] s logs lost.
Proof.
  intros [] HX. split; try done. intros a d Ed. destruct (dt_log0 a d Ed) as (lg & ? & Hok). exists lg. split; [done|]. revert Hok. apply log_ok_mono.
  intros [[?|Ha]%elem_of_union|?]; [by left| |by right]. right. intros r ref Er <-. by apply (HX r ref).
Qed.

(** While the process [p] goes away, notices that drop out of its lists are its own. *)
Definition releasing (p : Z) (s : dstate) (logs : gmap Z (list death_report)) (lost : gset Z) : Prop :=
  ∃ X, death_wf [] s logs (lost ∪ X) ∧ ∀ r ref, ds_refs s !! r = Some ref → rf_death ref ∈ X → rf_proc ref = p.

Lemma releasing_more p s s' logs lost X pl l :
  death_wf [] s logs (lost ∪ X) → (∀ r ref, ds_refs s !! r = Some ref → rf_death ref ∈ X → rf_proc ref = p) →
  ds_lists s !! pl = Some l → place_proc s pl = Some p → ds_refs s' = ds_refs s → death_wf [] s' logs (lost ∪ X ∪ deaths_in l) → releasing p s' logs lost.
Proof.
  intros H HX El Hpl Hr H'. exists (X ∪ deaths_in l). rewrite (assoc_L (∪)). split; [done|]. rewrite Hr.
  intros r ref Er [?|Hin%elem_of_deaths_in]%elem_of_union; [by eapply HX|].
  pose proof (proj1 (dt_links _ _ _ _ H pl l _ El) Hin) as (d & Ed & He). destruct (decide (rf_death ref = 0)) as [H0|H0].
  - rewrite H0, (dt_zero _ _ _ _ H) in Ed. done.
  - destruct (owner_dead s logs _ H r ref _ d pl Er eq_refl H0 Ed He) as (_ & _ & Hpp & _). congruence.
Qed.

Lemma each_free_thread p ts s logs lost :
  releasing p s logs lost → NoDup ts → (∀ t, t ∈ ts → thread_of s t p) →
  ∃ s', each free_thread s ts = Some s' ∧ releasing p s' logs lost ∧ ds_refs s' = ds_refs s ∧ ds_nodes s' = ds_nodes s ∧
    (∀ t th, ds_threads s' !! t = Some th → ds_threads s !! t = Some th ∧ t ∉ ts) ∧
    (is_Some (ds_lists s' !! ProcTodo p) ↔ is_Some (ds_lists s !! ProcTodo p)).
Proof.
  revert s. induction ts as [|t ts IH]; intros s HR Hnd Hts; [exists s; split_and!; try done; intros; split; [done|apply not_elem_of_nil]|].
  apply NoDup_cons in Hnd as [Hnot Hnd]. destruct HR as (X & H & HX). destruct (Hts t) as (th & Et & Hp); [left|].
  destruct (dt_threads _ _ _ _ H t th Et) as ([l El] & _). simpl.
  destruct (free_thread_step s logs _ t th l H Et El) as (s1 & -> & H1 & Hr1 & Hn1 & Ht1 & Hk1). run.
  destruct (IH s1) as (s2 & -> & HR2 & Hr2 & Hn2 & Ht2 & Hk2); [|done| |].
  - apply (releasing_more p s s1 logs lost X (ThreadTodo t) l); try done. simpl. rewrite Et. simpl. congruence.
  - intros t' Ht'. destruct (Hts t') as (th' & Et' & ?); [by right|]. exists th'. rewrite Ht1, lookup_delete_ne; [done|]. by intros <-.
  - exists s2. split_and!; try congruence; [|by rewrite Hk2, Hk1]. intros t' th' Et'. destruct (Ht2 t' th' Et') as [Ed Hno].
    rewrite Ht1, lookup_delete_Some in Ed. destruct Ed. split; [done|]. rewrite elem_of_cons. naive_solver.
Qed.

Lemma each_release_node p ns s logs lost :
  releasing p s logs lost → NoDup ns → (∀ n, n ∈ ns → ∃ nd, ds_nodes s !! n = Some nd ∧ nd_proc nd ≠ 0) →
  ∃ s', each release_node s ns = Some s' ∧ releasing p s' logs lost ∧ world_kept s s'.
Proof.
  revert s. induction ns as [|n ns IH]; intros s HR Hnd Hns; [by exists s|]. apply NoDup_cons in Hnd as [Hnot Hnd]. destruct HR as (X & H & HX).
  destruct (Hns n) as (nd & En & Hlive); [left|]. simpl.
  destruct (release_node_step s logs _ n nd H En Hlive) as (s1 & -> & H1 & (Hr1 & Ht1 & Hk1) & Hn1). run.
  destruct (IH s1) as (s2 & -> & HR2 & (Hr2 & Ht2 & Hk2)); [|done| |].
  - exists X. by rewrite Hr1.
  - intros m Hm. rewrite Hn1; [apply Hns; by right|]. by intros ->.
  - exists s2. split_and!; try done. split_and!; try congruence. intros pl. by rewrite Hk2.
Qed.

Lemma each_delete_ref p rs s logs lost :
  releasing p s logs lost → NoDup rs → (∀ r, r ∈ rs → is_Some (ds_refs s !! r)) →
  ∃ s', each delete_ref_death s rs = Some s' ∧ releasing p s' logs lost ∧ ds_threads s' = ds_threads s ∧
    (∀ r ref, ds_refs s' !! r = Some ref → ds_refs s !! r = Some ref ∧ r ∉ rs) ∧ ∀ pl, is_Some (ds_lists s' !! pl) ↔ is_Some (ds_lists s !! pl).
Proof.
  revert s. induction rs as [|r rs IH]; intros s HR Hnd Hrs; [exists s; split_and!; try done; intros; split; [done|apply not_elem_of_nil]|].
  apply NoDup_cons in Hnd as [Hnot Hnd]. destruct HR as (X & H & HX). simpl.
  destruct (delete_ref_step s logs _ r H) as (s1 & ref & nd & -> & H1 & Er & Hr1 & Ht1 & _ & _ & Hk1); [apply Hrs; left|]. run.
  destruct (IH s1) as (s2 & -> & HR2 & Ht2 & Hr2 & Hk2); [|done| |].
  - exists X. split; [done|]. intros q ref'. rewrite Hr1, lookup_delete_Some. intros [_ ?]. by eapply HX.
  - intros q Hq. rewrite Hr1, lookup_delete_ne; [apply Hrs; by right|]. by intros ->.
  - exists s2. split_and!; try congruence; [|intros pl; by rewrite Hk2]. intros q ref' Eq. destruct (Hr2 q ref' Eq) as [Ed Hno].
    rewrite Hr1, lookup_delete_Some in Ed. destruct Ed. split; [done|]. rewrite elem_of_cons. naive_solver.
Qed.

(** The threads, nodes and references that the trees of the process hold, in some order. *)
Definition release_lists (s : dstate) (p : Z) (ts ns rs : list Z) : Prop :=
  (NoDup ts ∧ ∀ t, t ∈ ts ↔ thread_of s t p) ∧ (NoDup ns ∧ ∀ n, n ∈ ns ↔ ∃ nd, ds_nodes s !! n = Some nd ∧ nd_proc nd = p) ∧
  (NoDup rs ∧ ∀ r, r ∈ rs ↔ ∃ ref, ds_refs s !! r = Some ref ∧ rf_proc ref = p).

Lemma deferred_release_step s logs lost p ts ns rs :
  death_wf [] s logs lost → p ≠ 0 → is_Some (ds_lists s !! ProcTodo p) → release_lists s p ts ns rs →
  ∃ s', deferred_release s p ts ns rs = Some s' ∧ death_wf [] s' logs lost ∧ (∀ r ref, ds_refs s' !! r = Some ref → rf_proc ref ≠ p).
Proof.
  intros H Hp Hk ((HNt & Ht) & (HNn & Hn) & (HNr & Hr)). unfold deferred_release.
  destruct (each_free_thread p ts s logs lost) as (s1 & -> & HR1 & Er1 & En1 & Et1 & Hk1); [exists ∅; by rewrite (right_id_L ∅ (∪))|done|apply Ht|]. run.
  destruct (each_release_node p ns s1 logs lost HR1 HNn) as (s2 & -> & HR2 & (Er2 & Et2 & Hk2)); [intros n (nd & ? & <-)%Hn; rewrite En1; eauto|]. run.
  destruct (each_delete_ref p rs s2 logs lost HR2 HNr) as (s3 & -> & (X & H3 & HX) & Et3 & Er3 & Hk3); [intros r (ref & ? & ?)%Hr; rewrite Er2, Er1; eauto|]. run.
  destruct (proj2 (Hk3 (ProcTodo p)) (proj2 (Hk2 _) (proj2 Hk1 Hk))) as [l El].
  destruct (release_work_spec _ l s3 logs _ H3 El) as (s4 & -> & H4 & (Er4 & Et4 & Hk4) & En4 & Hempty). run.
  assert (Hnop : ∀ r ref, ds_refs s4 !! r = Some ref → rf_proc ref ≠ p).
  { intros r ref. rewrite Er4. intros Er Hrp. destruct (Er3 r ref Er) as [E Hno]. apply Hno, Hr. rewrite Er2, Er1 in E. eauto. }
  destruct (releasing_more p s3 s4 logs lost X (ProcTodo p) l) as (Y & HY & HYp); try done.
  apply wf_unlost in HY; [|intros r ref Er Hin; by apply (Hnop r ref Er), (HYp r ref Er)].
  eexists. split; [done|]. split; [|done]. apply (wf_drop_lists s4 logs lost (λ pl, pl = ProcTodo p ∨ pl = DeliveredDeath p)); simpl; try done.
  - intros pl k. rewrite !lookup_delete_Some. by intros (_ & _ & ?).
  - intros pl Hno. by rewrite !lookup_delete_ne by (intros <-; tauto).
  - intros r ref d pl Er _ _ _ Hpp. split; [|done]. intros [-> | ->]; injection Hpp; intros Heq; by apply (Hnop r ref Er).
  - intros r ref Er [[= Hq]|?]; [by apply (Hnop r ref Er)|done].
  - intros t th Et. split; [done|]. rewrite Et4, Et3, Et2 in Et. destruct (Et1 t th Et) as [E0 Hno].
    assert (td_proc th ≠ p) by (intros Hq; apply Hno, Ht; by exists th). naive_solver.
Qed.
