(* ===== verification/BinderDeathRun.v ===== *)
(** Death notices of binder over every sequence of operations of any number of processes:
    no BUG, what is reported and when, that no death is missed, that reads deliver what
    waits, and where notices are lost and leaked. *)

From S2P Require Import Prelude BinderDeath BinderDeathInv.

#[local] Ltac run := cbn [mbind option_bind].

(** ** Operations *)

(** The commands and ends of BinderDeath.v, and what the rest of the driver does meanwhile:
    processes, threads, nodes and references come, threads change their looper state, nodes
    without references go, and other items come into lists and leave them. *)
Inductive dop :=
  | DNewProc (p : Z) | DNewThread (t p looper : Z) | DLooper (t looper : Z) | DNewNode (n p : Z) | DNewRef (r p desc n : Z)
  | DFreeNode (n : Z) | DOther (pl : dplace) (l : list dwork)
  | DRequest (p t target cookie : Z) (answer : option Z) | DClear (p t target cookie : Z) | DDone (p t cookie : Z)
  | DRead (p t : Z) (wait_for_proc_work fault : bool) | DDeleteRef (r : Z) | DThreadExit (t : Z) | DRelease (p : Z) (ts ns rs : list Z).

Definition report := (death_report * Z * Z)%type.

Definition dop_step (s : dstate) (o : dop) : option (dstate * option report) :=
  let quiet os := s ← os; Some (s, None) in
  match o with
  | DNewProc p => quiet (Some (u_lists (λ m, <[ProcTodo p := []]> (<[DeliveredDeath p := []]> m)) s))
  | DNewThread t p looper => quiet (Some (u_lists <[ThreadTodo t := []]> (u_threads <[t := mk_th p looper 0]> s)))
  | DLooper t looper => quiet (th ← ds_threads s !! t; Some (u_threads <[t := mk_th (td_proc th) looper (td_return_error th)]> s))
  | DNewNode n p => quiet (Some (u_nodes <[n := mk_nd p []]> s))
  | DNewRef r p desc n =>
      quiet (nd ← ds_nodes s !! n;
             Some (u_descs <[(p, desc) := r]> (u_refs <[r := mk_rf p desc n 0]> (u_nodes <[n := mk_nd (nd_proc nd) (r :: nd_refs nd)]> s))))
  | DFreeNode n => quiet (Some (u_nodes (delete n) s))
  | DOther pl l => quiet (Some (u_lists <[pl := l]> s))
  | DRequest p t target cookie answer => quiet (bc_request_death s p t target cookie answer)
  | DClear p t target cookie => quiet (bc_clear_death s p t target cookie)
  | DDone p t cookie => quiet (bc_dead_binder_done s p t cookie)
  | DRead p t wait fault => binder_read_death s p t wait fault
  | DDeleteRef r => quiet (delete_ref_death s r)
  | DThreadExit t => quiet (free_thread s t)
  | DRelease p ts ns rs => quiet (deferred_release s p ts ns rs)
  end.

(** A list that is not there, and that no leaked notice still points to. *)
Definition fresh_place (s : dstate) (pl : dplace) : Prop :=
  ds_lists s !! pl = None ∧ map_Forall (λ _ d, bd_entry d ≠ Some pl) (ds_deaths s).
Definition is_death (w : dwork) : Prop := match w with DeathWork _ => True | OtherWork _ => False end.
#[global] Instance is_death_dec w : Decision (is_death w).
Proof. destruct w; simpl; apply _. Defined.
Definition keys_with {A} (f : A → Z) (p : Z) (m : gmap Z A) : list Z := (map_to_list (filter (λ kx, f kx.2 = p) m)).*1.
Definition proc_open (s : dstate) (p : Z) : Prop := is_Some (ds_lists s !! ProcTodo p) ∧ is_Some (ds_lists s !! DeliveredDeath p).

(** What the driver makes sure of before each operation. *)
Definition dop_legal (s : dstate) (o : dop) : Prop :=
  match o with
  | DNewProc p => p ≠ 0 ∧ fresh_place s (ProcTodo p) ∧ fresh_place s (DeliveredDeath p)
  | DNewThread t p _ => proc_open s p ∧ ds_threads s !! t = None ∧ fresh_place s (ThreadTodo t)
  | DLooper t _ => is_Some (ds_threads s !! t)
  | DNewNode n p => p ≠ 0 ∧ proc_open s p ∧ ds_nodes s !! n = None
  | DNewRef r p desc n => proc_open s p ∧ ds_refs s !! r = None ∧ ds_descs s !! (p, desc) = None ∧ is_Some (ds_nodes s !! n)
  | DFreeNode n => nd_refs <$> ds_nodes s !! n = Some []
  | DOther pl l => match pl with DeliveredDeath _ => False | _ => True end ∧ (λ k, filter is_death k) <$> ds_lists s !! pl = Some (filter is_death l)
  | DRequest p t _ _ _ | DClear p t _ _ | DDone p t _ | DRead p t _ _ => td_proc <$> ds_threads s !! t = Some p
  | DDeleteRef r => is_Some (ds_refs s !! r)
  | DThreadExit t => is_Some (ds_threads s !! t)
  | DRelease p ts ns rs => p ≠ 0 ∧ is_Some (ds_lists s !! ProcTodo p) ∧ ts ≡ₚ keys_with td_proc p (ds_threads s) ∧
      ns ≡ₚ keys_with nd_proc p (ds_nodes s) ∧ rs ≡ₚ keys_with rf_proc p (ds_refs s)
  end.

(** ** What user space has been told *)

(** The reports about each notice so far, and the notices that were waiting in the list of a
    thread that has exited. *)
Definition death_logs := gmap Z (list death_report).
Definition dop_logs (s s' : dstate) (o : dop) (ev : option report) (logs : death_logs) : death_logs :=
  match o, ev with
  | DRequest _ _ _ _ _, _ => fresh_logs s s' logs
  | _, Some (rep, a, _) => log_report logs a rep
  | _, None => logs
  end.
Definition dop_lost (s : dstate) (o : dop) (lost : gset Z) : gset Z :=
  match o with
  | DThreadExit t => lost ∪ deaths_in (default [] (ds_lists s !! ThreadTodo t))
  | _ => lost
  end.

Definition dstore := (dstate * death_logs * gset Z)%type.
Definition dop_next (g : dstore) (o : dop) : option (dstore * option report) :=
  let '(s, logs, lost) := g in
  '(s', ev) ← dop_step s o;
  Some (s', dop_logs s s' o ev logs, dop_lost s o lost ∩ dom (ds_deaths s'), ev).

Fixpoint drun (g : dstore) (os : list dop) : option dstore :=
  match os with
  | [] => Some g
  | o :: os => '(g, _) ← dop_next g o; drun g os
  end.

Fixpoint dlegal (g : dstore) (os : list dop) : Prop :=
  match os with
  | [] => True
  | o :: os => dop_legal g.1.1 o ∧ match dop_next g o with Some (g', _) => dlegal g' os | None => True end
  end.

#[global] Instance dop_legal_dec s o : Decision (dop_legal s o).
Proof. destruct o as [| | | | | |[]| | | | | | |]; simpl; unfold fresh_place, proc_open; apply _. Defined.
#[global] Instance dlegal_dec g os : Decision (dlegal g os).
Proof. revert g. induction os; intros g; simpl; [apply _|]. destruct (dop_next g a) as [[g' ev]|]; apply _. Defined.

Definition dempty : dstore := (mk_ds ∅ ∅ ∅ ∅ ∅ ∅, ∅, ∅).
Definition store_wf (g : dstore) : Prop := death_wf [] g.1.1 g.1.2 g.2.

(** ** The rest of the driver *)

Section environment.
Context (s : dstate) (logs : death_logs) (lost : gset Z) (H : death_wf [] s logs lost).

(** New lists and threads. *)
Lemma wf_new_lists (s' : dstate) :
  ds_descs s' = ds_descs s → ds_refs s' = ds_refs s → ds_nodes s' = ds_nodes s → ds_deaths s' = ds_deaths s →
  (∀ pl, is_Some (ds_lists s !! pl) → ds_lists s' !! pl = ds_lists s !! pl) →
  (∀ pl l, ds_lists s !! pl = None → ds_lists s' !! pl = Some l → l = [] ∧ fresh_place s pl) →
  (∀ t th, ds_threads s !! t = Some th → ds_threads s' !! t = Some th) →
  (∀ t th, ds_threads s' !! t = Some th → ds_threads s !! t = Some th ∨
     is_Some (ds_lists s' !! ThreadTodo t) ∧ is_Some (ds_lists s' !! ProcTodo (td_proc th)) ∧ is_Some (ds_lists s' !! DeliveredDeath (td_proc th))) →
  death_wf [] s' logs lost.
Proof using H.
  intros Ed Er En Ede Hold Hnew Hth Hth'. assert (Hk : ∀ pl, is_Some (ds_lists s !! pl) → is_Some (ds_lists s' !! pl)) by (intros pl Hs; by rewrite Hold).
  destruct H. split; unfold unowned in *; rewrite ?Ed, ?Er, ?En, ?Ede; try done.
  - intros pl l a El. destruct (ds_lists s !! pl) as [l0|] eqn:E0; [rewrite Hold, E0 in El by eauto; injection El as <-; by apply dt_links|].
    destruct (Hnew pl l E0 El) as [-> [_ Hf]]. rewrite elem_of_nil. split; [done|]. intros (d & Ea & He). by apply (Hf a d Ea).
  - intros p l k El. destruct (ds_lists s !! DeliveredDeath p) as [l0|] eqn:E0; [rewrite Hold, E0 in El by eauto; injection El as <-; by apply (dt_delivered p)|].
    destruct (Hnew _ l E0 El) as [-> _]. apply not_elem_of_nil.
  - intros r ref Eref H0. destruct (dt_owner r ref Eref H0) as (d & Edd & nd & End & Hif). exists d. split; [done|]. exists nd. rewrite En. split; [done|].
    case_decide; [|done]. destruct Hif as [? Hif]. split; [done|]. intros pl He. destruct (Hif pl He) as [? Hpp]. split; [auto|].
    destruct pl as [t|p|p]; simpl in *; try done. destruct (ds_threads s !! t) as [th|] eqn:Et; [|done]. by rewrite (Hth t th Et).
  - intros r ref Eref. destruct (dt_refs r ref Eref). auto.
  - intros t th Et. destruct (Hth' t th Et) as [E0|?]; [|done]. destruct (dt_threads t th E0) as (? & ? & ?). auto.
Qed.

Lemma wf_new_node n p : ds_nodes s !! n = None → death_wf [] (u_nodes <[n := mk_nd p []]> s) logs lost.
Proof using H.
  intros En. destruct H. split; simpl; try done.
  - intros r ref Er H0. destruct (dt_owner r ref Er H0) as (d & ? & nd & En' & ?). exists d. split; [done|]. exists nd. simpl.
    rewrite lookup_insert_ne; [done|]. congruence.
  - intros r ref Er. destruct (dt_refs r ref Er) as [(nd & ? & ?) ?]. split; [|done]. exists nd. rewrite lookup_insert_ne; [done|]. congruence.
  - intros m nd. rewrite lookup_insert_Some. intros [[<- <-]|[_ Em]]; [|eauto]. split; [apply NoDup_nil_2|]. by intros r ?%elem_of_nil.
Qed.

Lemma wf_new_ref r p desc n nd :
  ds_refs s !! r = None → ds_descs s !! (p, desc) = None → ds_nodes s !! n = Some nd → is_Some (ds_lists s !! ProcTodo p) →
  death_wf [] (u_descs <[(p, desc) := r]> (u_refs <[r := mk_rf p desc n 0]> (u_nodes <[n := mk_nd (nd_proc nd) (r :: nd_refs nd)]> s))) logs lost.
Proof using H.
  intros Er Ed En Hp. destruct H. assert (Hnew : ∀ q ref, ds_refs s !! q = Some ref → q ≠ r) by congruence.
  split; simpl; try done.
  - intros q ref. rewrite lookup_insert_Some. intros [[<- <-]|[Hne Eq]] H0; [done|].
    destruct (dt_owner q ref Eq H0) as (d & ? & nd' & En' & Hif). exists d. split; [done|]. destruct (decide (rf_node ref = n)) as [<-|Hn].
    + simplify_eq. eexists. simpl. rewrite lookup_insert_eq. split; [done|]. done.
    + exists nd'. simpl. by rewrite lookup_insert_ne.
  - intros r1 r2 ref1 ref2. rewrite !lookup_insert_Some. intros [[<- <-]|[_ E1]] [[<- <-]|[_ E2]]; simpl; try congruence. eauto.
  - intros a d Ea. destruct (dt_log a d Ea) as (lg & ? & Hok). exists lg. split; [done|]. revert Hok. apply log_ok_mono.
    intros [?|Hu]; [by left|right]. intros q ref. simpl. rewrite lookup_insert_Some. intros [[<- <-]|[_ Eq]]; [|by apply (Hu q)].
    simpl. intros <-. congruence.
  - intros p' t' q. rewrite lookup_insert_Some. intros [[[= <- <-] <-]|[_ Eq]].
    + eexists. rewrite lookup_insert_eq. done.
    + destruct (dt_desc p' t' q Eq) as (ref & Eref & ?). exists ref. rewrite lookup_insert_ne; [done|]. by apply not_eq_sym, (Hnew q ref).
  - intros q ref. rewrite lookup_insert_Some. intros [[<- <-]|[Hne Eq]]; simpl.
    + split; [|done]. eexists. rewrite lookup_insert_eq. split; [done|]. left.
    + destruct (dt_refs q ref Eq) as [(nd' & En' & Hin) ?]. split; [|done]. destruct (decide (rf_node ref = n)) as [<-|Hn].
      * simplify_eq. eexists. rewrite lookup_insert_eq. split; [done|]. by right.
      * exists nd'. by rewrite lookup_insert_ne.
  - intros m nd'. rewrite lookup_insert_Some. intros [[<- <-]|[Hne Em]]; simpl.
    + destruct (dt_nodes n nd En) as [Hnd Hq]. split.
      * apply NoDup_cons. split; [|done]. intros Hin. destruct (Hq r Hin) as (? & ? & _). congruence.
      * intros q [->|Hin]%elem_of_cons; [eexists; by rewrite lookup_insert_eq|]. destruct (Hq q Hin) as (ref & Eq & ?). exists ref.
        rewrite lookup_insert_ne; [done|]. by apply not_eq_sym, (Hnew q ref).
    + destruct (dt_nodes m nd' Em) as [? Hq]. split; [done|]. intros q Hin. destruct (Hq q Hin) as (ref & Eq & ?). exists ref.
      rewrite lookup_insert_ne; [done|]. by apply not_eq_sym, (Hnew q ref).
Qed.

(** Notices that are gone are not lost. *)
Lemma wf_lost_live : death_wf [] s logs (lost ∩ dom (ds_deaths s)).
Proof using H.
  destruct H. split; try done. intros a d Ed. destruct (dt_log a d Ed) as (lg & ? & Hok). exists lg. split; [done|]. revert Hok. apply log_ok_mono.
  intros [?|?]; [left|by right]. apply elem_of_intersection. split; [done|]. apply elem_of_dom. eauto.
Qed.
End environment.

(** ** Every operation *)

Definition event_ok (s s' : dstate) (logs : death_logs) (ev : option report) : Prop :=
  match ev with Some (rep, a, cookie) => report_ok s logs s' rep a cookie | None => True end.

Lemma elem_of_keys_with {A} (f : A → Z) p (m : gmap Z A) k : k ∈ keys_with f p m ↔ ∃ x, m !! k = Some x ∧ f x = p.
Proof.
  unfold keys_with. rewrite list_elem_of_fmap. split.
  - intros ([k' x] & -> & Hin). apply elem_of_map_to_list in Hin. apply map_lookup_filter_Some in Hin as [? ?]. eauto.
  - intros (x & E & Hf). exists (k, x). split; [done|]. apply elem_of_map_to_list. by apply map_lookup_filter_Some.
Qed.

Lemma keys_with_lists s p ts ns rs :
  ts ≡ₚ keys_with td_proc p (ds_threads s) → ns ≡ₚ keys_with nd_proc p (ds_nodes s) → rs ≡ₚ keys_with rf_proc p (ds_refs s) → release_lists s p ts ns rs.
Proof.
  intros H1 H2 H3. assert (Hn : ∀ {A} (f : A → Z) m, NoDup (keys_with f p m)) by (intros; apply NoDup_fst_map_to_list).
  split; [rewrite H1|split; [rewrite H2|rewrite H3]]; (split; [apply Hn|]); intros k; rewrite ?H1, ?H2, ?H3; apply elem_of_keys_with.
Qed.

Lemma is_death_same (l l' : list dwork) a : filter is_death l = filter is_death l' → DeathWork a ∈ l' ↔ DeathWork a ∈ l.
Proof.
  intros E. assert (Hf : ∀ k, DeathWork a ∈ k ↔ DeathWork a ∈ filter is_death k) by (intros k; rewrite list_elem_of_filter; naive_solver).
  rewrite (Hf l'), (Hf l). f_equiv. by apply reflexive_eq.
Qed.

Definition step_good (s : dstate) (logs : death_logs) (lost : gset Z) (o : dop) : Prop :=
  ∃ s' ev, dop_step s o = Some (s', ev) ∧ death_wf [] s' (dop_logs s s' o ev logs) (dop_lost s o lost) ∧ event_ok s s' logs ev.

Lemma quiet_good s logs lost o (os : option dstate) :
  dop_step s o = (s ← os; Some (s, None)) → (∃ s', os = Some s' ∧ death_wf [] s' (dop_logs s s' o None logs) (dop_lost s o lost)) → step_good s logs lost o.
Proof. intros E (s' & -> & Hwf). exists s', None. rewrite E. done. Qed.

Section operations.
Context (s : dstate) (logs : death_logs) (lost : gset Z) (H : death_wf [] s logs lost).

Lemma new_proc_good p : dop_legal s (DNewProc p) → step_good s logs lost (DNewProc p).
Proof using H.
  intros (Hp & F1 & F2). eapply quiet_good; [done|]. eexists. split; [done|]. apply (wf_new_lists s logs lost H); simpl; try done.
  - intros pl Hs. rewrite !lookup_insert_ne; [done|..]; intros <-; destruct F1, F2, Hs; congruence.
  - intros pl l Hno. rewrite !lookup_insert_Some. intros [[<- <-]|[_ [[<- <-]|[_ ?]]]]; [done..|congruence].
  - intros t th Et. by left.
Qed.

Lemma new_thread_good t p looper : dop_legal s (DNewThread t p looper) → step_good s logs lost (DNewThread t p looper).
Proof using H.
  intros ([HlP HlD] & Ht & F). eapply quiet_good; [done|]. eexists. split; [done|]. apply (wf_new_lists s logs lost H); simpl; try done.
  - intros pl Hs. rewrite lookup_insert_ne; [done|]. intros <-. destruct F, Hs; congruence.
  - intros pl l Hno. rewrite lookup_insert_Some. intros [[<- <-]|[_ ?]]; [done|congruence].
  - intros t' th Et. rewrite lookup_insert_ne; [done|]. congruence.
  - intros t' th. rewrite lookup_insert_Some. intros [[<- <-]|[_ ?]]; [right|by left]. simpl. rewrite lookup_insert_eq, !lookup_insert_ne by done. eauto.
Qed.

Lemma looper_good t looper : dop_legal s (DLooper t looper) → step_good s logs lost (DLooper t looper).
Proof using H.
  intros [th Et]. eapply quiet_good; [done|]. rewrite Et. run. eexists. split; [done|]. apply (wf_threads s logs lost H); simpl; try done.
  - intros t' th'. rewrite lookup_insert_Some. intros [[<- <-]|[_ E']]; eauto.
  - intros t'. destruct (decide (t' = t)) as [->|]; [by rewrite lookup_insert_eq, Et|by rewrite lookup_insert_ne].
Qed.

Lemma command_thread t p : td_proc <$> ds_threads s !! t = Some p → thread_of s t p.
Proof using. destruct (ds_threads s !! t) as [th|] eqn:Et; intros [= <-]. by exists th. Qed.

Lemma dop_good o : dop_legal s o → step_good s logs lost o.
Proof using H.
  destruct o as [p|t p v|t v|n p|r p desc n|n|pl l|p t target c answer|p t target c|p t c|p t wait fault|r|t|p ts ns rs]; intros Hl.
  - by apply new_proc_good.
  - by apply new_thread_good.
  - by apply looper_good.
  - destruct Hl as (_ & _ & En). eapply quiet_good; [done|]. eexists. split; [done|]. by apply (wf_new_node s logs lost H).
  - destruct Hl as ([HlP _] & Er & Ed & [nd En]). eapply quiet_good; [done|]. rewrite En. run. eexists. split; [done|].
    by apply (wf_new_ref s logs lost H).
  - simpl in Hl. apply fmap_Some in Hl as (nd & En & Hr). eapply quiet_good; [done|]. eexists. split; [done|]. by apply (wf_free_node s logs lost n nd H).
  - destruct Hl as [Hpl Hl]. apply fmap_Some in Hl as (l0 & El & Hf). eapply quiet_good; [done|]. eexists. split; [done|].
    apply (wf_relist s logs lost H pl l0 l El); [intros a; by apply is_death_same|]. by intros p k ->.
  - eapply quiet_good; [done|]. apply (request_death_step s logs lost H). by apply command_thread.
  - eapply quiet_good; [done|]. apply (clear_death_step s logs lost H). by apply command_thread.
  - eapply quiet_good; [done|]. apply (dead_binder_done_step s logs lost H). by apply command_thread.
  - destruct (read_step s logs lost H p t wait fault (command_thread t p Hl)) as (s' & ev & E & Hev). exists s', ev. split; [done|].
    destruct ev as [[[rep a] c]|]; [|done]. by destruct Hev.
  - eapply quiet_good; [done|]. destruct (delete_ref_step s logs lost r H Hl) as (s' & _ & _ & E & Hwf & _). by exists s'.
  - destruct Hl as [th Et]. eapply quiet_good; [done|]. destruct (dt_threads _ _ _ _ H t th Et) as ([l El] & _).
    destruct (free_thread_step s logs lost t th l H Et El) as (s' & E & Hwf & _). exists s'. split; [done|]. simpl. by rewrite El.
  - destruct Hl as (Hp & Hk & H1 & H2 & H3). eapply quiet_good; [done|].
    destruct (deferred_release_step s logs lost p ts ns rs H Hp Hk (keys_with_lists s p ts ns rs H1 H2 H3)) as (s' & E & Hwf & _). by exists s'.
Qed.
End operations.

Lemma dop_next_good g o : store_wf g → dop_legal g.1.1 o → ∃ g' ev, dop_next g o = Some (g', ev) ∧ store_wf g' ∧ event_ok g.1.1 g'.1.1 g.1.2 ev.
Proof.
  destruct g as [[s logs] lost]. intros H Hl. destruct (dop_good s logs lost H o Hl) as (s' & ev & E & Hwf & Hev). unfold dop_next. rewrite E. run.
  do 2 eexists. split; [done|]. split; [|done]. by apply wf_lost_live.
Qed.

Lemma drun_good g os : store_wf g → dlegal g os → ∃ g', drun g os = Some g' ∧ store_wf g'.
Proof.
  revert g. induction os as [|o os IH]; intros g H Hl; [by exists g|]. destruct Hl as [Hl Hrest]. simpl.
  destruct (dop_next_good g o H Hl) as (g' & ev & E & H' & _). rewrite E in *. run. by apply IH.
Qed.

Lemma dempty_wf : store_wf dempty.
Proof. by split. Qed.

(** ** Reading until nothing waits *)

Lemma log_report_eq logs a rep lg : logs !! a = Some lg → log_report logs a rep !! a = Some (lg ++ [rep]).
Proof. intros E. unfold log_report. by rewrite lookup_insert_eq, E. Qed.

Lemma log_report_ne logs a b rep : b ≠ a → log_report logs a rep !! b = logs !! b.
Proof. intros Hne. unfold log_report. by rewrite lookup_insert_ne. Qed.

Lemma br_death_moves s p a d pl :
  links_ok s → ds_deaths s !! a = Some d → bd_entry d = Some pl → is_Some (ds_lists s !! pl) → is_Some (ds_lists s !! DeliveredDeath p) →
  bd_type d ≠ BINDER_WORK_NONE →
  ∃ s' rep, br_death s p a = Some (s', (rep, a, bd_cookie d)) ∧ same_elsewhere s s' a ∧ ds_refs s' = ds_refs s ∧
    if decide (bd_type d = BINDER_WORK_CLEAR_DEATH_NOTIFICATION) then relisted s s' a None ∧ rep = BR_CLEAR_DEATH_NOTIFICATION_DONE ∧ ds_deaths s' !! a = None
    else relisted s s' a (Some (DeliveredDeath p)) ∧ rep = BR_DEAD_BINDER ∧
         ds_deaths s' !! a = Some (mk_bd (bd_type d) (bd_cookie d) (Some (DeliveredDeath p))).
Proof.
  intros Hl Ed He Hpl HlD Hty. unfold br_death. rewrite Ed. run.
  assert (Hk : ∀ pl', bd_entry d = Some pl' → is_Some (ds_lists s !! pl')) by (rewrite He; by intros ? [= <-]).
  destruct (death_move_spec s a d (DeliveredDeath p) Hl Ed Hk HlD) as (s2 & E2 & (Hw2 & Hre2 & Hr2 & Ed2)).
  destruct (death_del_spec s a d Hl Ed Hk) as (s1 & E1 & ((W1 & W2 & W3 & W4) & Hre1 & Hr1 & _)).
  destruct (bd_type d); [done|rewrite E2; run..|rewrite E1; run]; do 2 eexists; (split; [done|]); (split; [|split; [done|]]); try done.
  - split_and!; try done. intros b Hb. simpl. rewrite lookup_delete_ne by done. by apply W4.
  - split_and!; try done. apply lookup_delete_eq.
Qed.

Section drain.
Context (p t : Z).

(** The thread reads for the process, and only notices wait. *)
Record only_deaths (g : dstore) (lt lp : list dwork) : Prop := {
  od_wf : store_wf g;
  od_thread : td_proc <$> ds_threads g.1.1 !! t = Some p;
  od_lt : ds_lists g.1.1 !! ThreadTodo t = Some lt;
  od_lp : ds_lists g.1.1 !! ProcTodo p = Some lp;
  od_all : Forall is_death (lt ++ lp) }.

(** What has become of a notice. *)
Definition told (g g' : dstore) (a : Z) : Prop :=
  ∃ d, ds_deaths g.1.1 !! a = Some d ∧
    if decide (bd_type d = BINDER_WORK_CLEAR_DEATH_NOTIFICATION) then ds_deaths g'.1.1 !! a = None
    else g'.1.2 !! a = Some [BR_DEAD_BINDER] ∧ ds_deaths g'.1.1 !! a = Some (mk_bd (bd_type d) (bd_cookie d) (Some (DeliveredDeath p))).

Definition notice_untouched (g g' : dstore) (b : Z) : Prop := ds_deaths g'.1.1 !! b = ds_deaths g.1.1 !! b ∧ g'.1.2 !! b = g.1.2 !! b.

Lemma relisted_todo s s' a d lt lp e :
  links_ok s → relisted s s' a e → ds_deaths s !! a = Some d → ds_lists s !! ThreadTodo t = Some lt → ds_lists s !! ProcTodo p = Some lp →
  e = None ∨ e = Some (DeliveredDeath p) →
  ∃ lt' lp', ds_lists s' !! ThreadTodo t = Some lt' ∧ ds_lists s' !! ProcTodo p = Some lp' ∧ ∀ w, w ∈ lt' ++ lp' ↔ w ≠ DeathWork a ∧ w ∈ lt ++ lp.
Proof using.
  intros Hl Hre Ed Et Ep He. destruct (proj2 (Hre (ThreadTodo t))) as [lt' Et']; [eauto|]. destruct (proj2 (Hre (ProcTodo p))) as [lp' Ep']; [eauto|].
  exists lt', lp'. split_and!; try done. destruct (proj1 (Hre _) lt' Et') as (? & E1 & Hs1 & Ha1), (proj1 (Hre _) lp' Ep') as (? & E2 & Hs2 & Ha2). simplify_eq.
  intros w. rewrite !elem_of_app. destruct (decide (w = DeathWork a)) as [->|Hne]; [|rewrite Hs1, Hs2 by done; tauto].
  rewrite Ha1, Ha2. destruct He as [-> | ->]; naive_solver.
Qed.

Lemma first_death g lt lp :
  only_deaths g lt lp → lt ++ lp ≠ [] → ∃ a pl l, first_work g.1.1 p t true = Some (Some (pl, DeathWork a)) ∧ DeathWork a ∈ lt ++ lp ∧
    ds_lists g.1.1 !! pl = Some l ∧ DeathWork a ∈ l ∧ (pl = ThreadTodo t ∨ pl = ProcTodo p).
Proof using.
  intros [] Hne. unfold first_work. rewrite od_lt0. run. destruct lt as [|[a|k] lt].
  - rewrite od_lp0. run. destruct lp as [|[a|k] lp]; [done| |by inversion od_all0].
    exists a, (ProcTodo p). eexists. split_and!; [done|left|done|left|by right].
  - exists a, (ThreadTodo t). eexists. split_and!; [done|left|done|left|by left].
  - by inversion od_all0.
Qed.

Lemma drain_step g lt lp :
  only_deaths g lt lp → lt ++ lp ≠ [] →
  ∃ g' ev a lt' lp', dop_next g (DRead p t true false) = Some (g', ev) ∧ only_deaths g' lt' lp' ∧ DeathWork a ∈ lt ++ lp ∧ told g g' a ∧
    (∀ w, w ∈ lt' ++ lp' ↔ w ≠ DeathWork a ∧ w ∈ lt ++ lp) ∧ ∀ b, b ≠ a → notice_untouched g g' b.
Proof using.
  intros O Hne. pose proof O as [H Hth Et Ep Hall]. destruct (first_death g lt lp O Hne) as (a & pl & l & Hf & Hin & El & Hinl & Hpl).
  destruct (dop_next_good g (DRead p t true false) H Hth) as (g' & ev & E & H' & Hev). destruct g as [[s logs] lost]. unfold store_wf in H. simpl in *.
  destruct (proj1 (dt_links _ _ _ _ H pl l a El) Hinl) as (d & Ed & He). destruct (dt_log _ _ _ _ H a d Ed) as (lg & Elg & _ & _ & Hent).
  assert (Hty : bd_type d ≠ BINDER_WORK_NONE ∧ (bd_type d ≠ BINDER_WORK_CLEAR_DEATH_NOTIFICATION → lg = [])) by (rewrite He in Hent; destruct Hpl as [-> | ->]; done).
  destruct (thread_lists s logs lost H t p (command_thread s t p Hth)) as (_ & _ & _ & _ & _ & HlD).
  destruct (br_death_moves s p a d pl (dt_links _ _ _ _ H) Ed He) as (s' & rep & Hb & (W1 & W2 & W3 & W4) & Hr & Hcase); [eauto|done|tauto|].
  unfold dop_next in E. simpl in E. unfold binder_read_death in E. rewrite Hf in E. simpl in E. rewrite Hb in E. simpl in E. injection E as <- <-. simpl in *.
  assert (Hre : ∃ e, relisted s s' a e ∧ (e = None ∨ e = Some (DeliveredDeath p))) by (case_decide; destruct Hcase; eauto).
  destruct Hre as (e & Hre & Hee). destruct (relisted_todo s s' a d lt lp e (dt_links _ _ _ _ H) Hre Ed Et Ep Hee) as (lt' & lp' & Et' & Ep' & Hw).
  do 2 eexists. exists a, lt', lp'. unfold dop_next. simpl. unfold binder_read_death. rewrite Hf. simpl. rewrite Hb. simpl. split; [done|]. split_and!; try done.
  - split; simpl; try done; [congruence|]. apply Forall_forall. intros w [_ Hx]%Hw. by apply (proj1 (Forall_forall _ _) Hall).
  - exists d. split; [done|]. simpl. case_decide as Hc; [by destruct Hcase as (_ & _ & ?)|]. destruct Hcase as (_ & -> & ?). split; [|done].
    rewrite (log_report_eq logs a _ lg Elg). by rewrite (proj2 Hty Hc).
  - intros b Hb'. split; simpl; [by apply W4|]. by apply log_report_ne.
Qed.
Lemma drain_empty g : only_deaths g [] [] → ∃ g' ev, dop_next g (DRead p t true false) = Some (g', ev) ∧ only_deaths g' [] [] ∧ ∀ b, notice_untouched g g' b.
Proof using.
  intros [H Hth Et Ep Hall]. destruct (dop_next_good g (DRead p t true false) H Hth) as (g' & ev & E & H' & _). exists g', ev. split; [done|].
  destruct g as [[s logs] lost]. simpl in *. unfold dop_next in E. simpl in E. unfold binder_read_death, first_work in E.
  rewrite Et in E. simpl in E. rewrite Ep in E. simpl in E. injection E as <- <-. by split.
Qed.

Lemma untouched_trans g1 g2 g3 b : notice_untouched g1 g2 b → notice_untouched g2 g3 b → notice_untouched g1 g3 b.
Proof using. intros [H1 H2] [H3 H4]. split; congruence. Qed.

Lemma told_later g1 g2 g3 b : told g1 g2 b → notice_untouched g2 g3 b → told g1 g3 b.
Proof using. intros (d & Ed & Hd) [H1 H2]. exists d. split; [done|]. rewrite H1, H2. done. Qed.

Lemma told_earlier g1 g2 g3 b : notice_untouched g1 g2 b → told g2 g3 b → told g1 g3 b.
Proof using. intros [H1 H2] (d & Ed & Hd). exists d. split; [congruence|done]. Qed.

Lemma drain_all n g lt lp :
  only_deaths g lt lp → (size (deaths_in (lt ++ lp)) ≤ n)%nat →
  ∃ g', drun g (repeat (DRead p t true false) n) = Some g' ∧ only_deaths g' [] [] ∧ (∀ a, DeathWork a ∈ lt ++ lp → told g g' a) ∧
    ∀ b, DeathWork b ∉ lt ++ lp → notice_untouched g g' b.
Proof using.
  revert g lt lp. induction n as [|n IH]; intros g lt lp O Hn.
  - assert (lt ++ lp = []) as [-> ->]%app_nil.
    { destruct (lt ++ lp) as [|w k] eqn:Hk; [done|]. destruct w as [a|x]; [|pose proof (od_all _ _ _ O) as Ha; rewrite Hk in Ha; by inversion Ha].
      assert (Hx : deaths_in (DeathWork a :: k) ≡ ∅) by (apply size_empty_inv; lia). assert (a ∈ deaths_in (DeathWork a :: k)) by (apply elem_of_deaths_in; left). set_solver. }
    exists g. split_and!; try done. by intros a ?%elem_of_nil.
  - cbn [repeat drun]. destruct (decide (lt ++ lp = [])) as [[-> ->]%app_nil|Hne].
    + destruct (drain_empty g O) as (g1 & ev & E & O1 & Hu). rewrite E. run. destruct (IH g1 [] [] O1) as (g' & -> & O' & _ & Hu'); [apply Nat.le_0_l|].
      exists g'. split_and!; try done; [by intros a ?%elem_of_nil|]. intros b _. apply (untouched_trans g g1); [done|]. by apply Hu', not_elem_of_nil.
    + destruct (drain_step g lt lp O Hne) as (g1 & ev & a & lt' & lp' & E & O1 & Ha & Htold & Hw & Hu). rewrite E. run.
      destruct (IH g1 lt' lp' O1) as (g' & -> & O' & Ht & Hu').
      { assert (size (deaths_in (lt' ++ lp')) < size (deaths_in (lt ++ lp)))%nat; [|lia]. apply subset_size. split.
        - intros b. rewrite !elem_of_deaths_in, Hw. tauto.
        - intros Hsub. specialize (Hsub a). rewrite !elem_of_deaths_in, Hw in Hsub. by destruct (Hsub Ha). }
      exists g'. split_and!; try done.
      * intros b Hb. destruct (decide (b = a)) as [->|Hba].
        -- apply (told_later g g1); [done|]. apply Hu'. rewrite Hw. naive_solver.
        -- apply (told_earlier g g1); [by apply Hu|]. apply Ht, Hw. split; [congruence|done].
      * intros b Hb. apply (untouched_trans g g1); [apply Hu; congruence|]. apply Hu'. rewrite Hw. tauto.
Qed.
End drain.

(** ** Theorems *)

Lemma dlegal_app g g' os os' : dlegal g (os ++ os') → drun g os = Some g' → dlegal g' os'.
Proof.
  revert g. induction os as [|o os IH]; simpl; intros g; [by intros ? [= <-]|]. intros [_ Hl]. destruct (dop_next g o) as [[g1 ev]|]; [|done]. by apply IH.
Qed.

Lemma dlegal_prefix g os os' : dlegal g (os ++ os') → dlegal g os.
Proof.
  revert g. induction os as [|o os IH]; simpl; intros g; [done|]. intros [? Hl]. split; [done|]. destruct (dop_next g o) as [[g1 ev]|]; [|done]. by apply IH.
Qed.

Lemma run_wf os : dlegal dempty os → ∃ g, drun dempty os = Some g ∧ store_wf g.
Proof. apply drun_good, dempty_wf. Qed.

(** C25: Death notices.  Whatever processes do, one after the other: no operation of the driver
    hits a BUG, a broken list or a pointer to a notice that is gone; every reference with
    a notice on a dead node has one of type BINDER_WORK_DEAD_BINDER, on a live node one that
    is untouched; and what a read reports is right: BR_DEAD_BINDER only for a notice that
    has not been reported before, and whose node, if the client has not taken it back, is
    dead; BR_CLEAR_DEATH_NOTIFICATION_DONE only for a notice that no reference has any more,
    as the last report about it, after which it is freed. *)
Theorem death_notices_invariant os o :
  dlegal dempty (os ++ [o]) →
  ∃ g g' ev, drun dempty os = Some g ∧ dop_next g o = Some (g', ev) ∧ store_wf g' ∧ event_ok g.1.1 g'.1.1 g.1.2 ev.
Proof.
  intros Hl. destruct (run_wf os (dlegal_prefix _ _ _ Hl)) as (g & E & Hwf). exists g. destruct (dlegal_app _ _ _ _ Hl E) as [Ho _].
  destruct (dop_next_good g o Hwf Ho) as (g' & ev & ? & ? & ?). by exists g', ev.
Qed.

(** The server 1 has the node 10, to which the client 2 has the reference 30 as handle 1. *)
Definition death_demo : list dop :=
  [DNewProc 1; DNewProc 2; DNewThread 20 2 0x02; DNewNode 10 1; DNewRef 30 2 1 10; DRequest 2 20 1 77 (Some 900)].
Definition death_demo_end : list dop := [DRead 2 20 true false; DClear 2 20 1 77; DDone 2 20 77].

Lemma death_notices_invariant_witness :
  ∃ g g' ev, drun dempty (death_demo ++ DRelease 1 [] [10] [] :: death_demo_end) = Some g ∧
    dop_next g (DRead 2 20 true false) = Some (g', ev) ∧ ev = Some (BR_CLEAR_DEATH_NOTIFICATION_DONE, 900, 77) ∧ store_wf g'.
Proof.
  destruct (death_notices_invariant (death_demo ++ DRelease 1 [] [10] [] :: death_demo_end) (DRead 2 20 true false)) as (g & g' & ev & E & E' & Hwf & _).
  - apply (bool_decide_unpack _). vm_compute. exact I.
  - exists g, g', ev. split_and!; try done. revert E'. vm_compute in E. injection E as <-. vm_compute. by intros [= _ <-].
Defined.

Lemma lost_from_exit os g g' a :
  drun g os = Some g' → a ∈ g'.2 → a ∈ g.2 ∨
  ∃ os1 t os2 g1 l, os = os1 ++ DThreadExit t :: os2 ∧ drun g os1 = Some g1 ∧ ds_lists g1.1.1 !! ThreadTodo t = Some l ∧ DeathWork a ∈ l.
Proof.
  revert g. induction os as [|o os IH]; simpl; intros g; [intros [= ->]; by left|]. destruct (dop_next g o) as [[g1 ev]|] eqn:E; [|done]. simpl. intros Hr Ha.
  destruct (IH g1 Hr Ha) as [H1|(os1 & t & os2 & g2 & l & -> & Hr1 & ? & ?)].
  - destruct g as [[s logs] lost]. simpl in *. destruct (dop_step s o) as [[s' ev']|]; [|done]. simpl in E. injection E as <- <-. simpl in H1.
    apply elem_of_intersection in H1 as [H1 _]. destruct o; try (by left). simpl in H1. apply elem_of_union in H1 as [?|H1]; [by left|right].
    apply elem_of_deaths_in in H1. destruct (ds_lists s !! ThreadTodo t) as [l|] eqn:El; [|by apply elem_of_nil in H1].
    exists [], t, os, (s, logs, lost), l. done.
  - right. exists (o :: os1), t, os2, g2, l. split_and!; try done. simpl. by rewrite E.
Qed.

(** Why a notice may never be reported: it waited in the list of a thread that exited. *)
Definition waited_in_exit (os : list dop) (a : Z) : Prop :=
  ∃ os1 t os2 g1 l, os = os1 ++ DThreadExit t :: os2 ∧ drun dempty os1 = Some g1 ∧ ds_lists g1.1.1 !! ThreadTodo t = Some l ∧ DeathWork a ∈ l.
Definition todo_of_proc (s : dstate) (p : Z) (pl : dplace) : Prop := pl = ProcTodo p ∨ ∃ t, pl = ThreadTodo t ∧ thread_of s t p.

(** C26: No death is missed.  If a reference has a notice and its node is dead, then its
    process has been told, exactly once, or the notice is in the list of work of that process
    or of one of its threads, from which it is read; the one exception is a notice that was
    waiting in the list of a thread when the thread exited. *)
Theorem death_notice_not_missed os s logs lost r ref nd :
  dlegal dempty os → drun dempty os = Some (s, logs, lost) →
  ds_refs s !! r = Some ref → rf_death ref ≠ 0 → ds_nodes s !! rf_node ref = Some nd → nd_proc nd = 0 →
  logs !! rf_death ref = Some [BR_DEAD_BINDER] ∨
  logs !! rf_death ref = Some [] ∧
    (waited_in_exit os (rf_death ref) ∨
     ∃ pl l, todo_of_proc s (rf_proc ref) pl ∧ ds_lists s !! pl = Some l ∧ DeathWork (rf_death ref) ∈ l).
Proof.
  intros Hl Hr Er H0 En Hz. destruct (run_wf os Hl) as (g & E & H). rewrite Hr in E. injection E as <-. unfold store_wf in H. simpl in H.
  destruct (dt_owner _ _ _ _ H r ref Er H0) as (d & Ed & nd' & En' & Hif). assert (nd' = nd) as -> by congruence.
  rewrite decide_True in Hif by (split; [done|apply not_elem_of_nil]). destruct Hif as [Hty Hpl].
  destruct (dt_log _ _ _ _ H _ d Ed) as (lg & Elg & Hlg & _ & Hent). destruct Hlg as [-> | ->]; [right|by left]. split; [done|].
  destruct (bd_entry d) as [pl|] eqn:He.
  - right. destruct (Hpl pl eq_refl) as [[l El] Hpp]. exists pl, l. split_and!; try done.
    + destruct pl as [t|p|p]; simpl in Hpp; [right; exists t; split; [done|by apply command_thread]|left; congruence|by destruct Hent].
    + apply (dt_links _ _ _ _ H pl l _ El). eauto.
  - left. destruct (Hent Hty eq_refl) as [Ha|Hu]; [|by destruct (Hu r ref Er)].
    destruct (lost_from_exit os dempty _ _ Hr Ha) as [Hx|?]; [by apply elem_of_empty in Hx|done].
Qed.

Lemma death_notice_not_missed_witness :
  ∃ s logs lost, drun dempty (death_demo ++ [DRelease 1 [] [10] []]) = Some (s, logs, lost) ∧
    (logs !! 900 = Some [BR_DEAD_BINDER] ∨
     logs !! 900 = Some [] ∧ (waited_in_exit (death_demo ++ [DRelease 1 [] [10] []]) 900 ∨
       ∃ pl l, todo_of_proc s 2 pl ∧ ds_lists s !! pl = Some l ∧ DeathWork 900 ∈ l)).
Proof.
  destruct (drun dempty (death_demo ++ [DRelease 1 [] [10] []])) as [[[s logs] lost]|] eqn:E; [|by vm_compute in E].
  exists s, logs, lost. split; [done|].
  assert (Hr : ds_refs s !! 30 = Some (mk_rf 2 1 10 900)) by (vm_compute in E; injection E as <- _ _; by vm_compute).
  assert (Hn : ds_nodes s !! 10 = Some (mk_nd 0 [30])) by (vm_compute in E; injection E as <- _ _; by vm_compute).
  apply (death_notice_not_missed _ s logs lost 30 (mk_rf 2 1 10 900) (mk_nd 0 [30])); [|done..].
  apply (bool_decide_unpack _). vm_compute. exact I.
Defined.

Lemma size_deaths_in l : (size (deaths_in l) ≤ length l)%nat.
Proof.
  induction l as [|[a|k] l IH]; simpl; [apply Nat.le_refl| |].
  - change (deaths_in (DeathWork a :: l)) with ({[a]} ∪ deaths_in l). rewrite size_union_alt, size_singleton.
    assert (size (deaths_in l ∖ {[a]}) ≤ size (deaths_in l))%nat by (apply subseteq_size; set_solver). lia.
  - change (deaths_in (OtherWork k :: l)) with (deaths_in l). lia.
Qed.

(** C27: Waiting notices reach user space.  If only notices are waiting in the list of a thread
    and in that of its process, and the thread handles work of its process (it has no
    transaction stack), then as many reads of this thread as there are notices, each with room
    for the report and without a fault, empty both lists; each death has then been reported once and is kept until it is
    confirmed, each notice that was to be cleared is freed; other notices are as before. *)
Theorem death_reads_deliver os s logs lost p t lt lp :
  dlegal dempty os → drun dempty os = Some (s, logs, lost) → td_proc <$> ds_threads s !! t = Some p →
  ds_lists s !! ThreadTodo t = Some lt → ds_lists s !! ProcTodo p = Some lp → Forall is_death (lt ++ lp) →
  ∃ g', drun (s, logs, lost) (repeat (DRead p t true false) (length (lt ++ lp))) = Some g' ∧
    ds_lists g'.1.1 !! ThreadTodo t = Some [] ∧ ds_lists g'.1.1 !! ProcTodo p = Some [] ∧
    (∀ a, DeathWork a ∈ lt ++ lp → told p (s, logs, lost) g' a) ∧ (∀ b, DeathWork b ∉ lt ++ lp → notice_untouched (s, logs, lost) g' b).
Proof.
  intros Hl Hr Hth Et Ep Hall. destruct (run_wf os Hl) as (g & E & H). rewrite Hr in E. injection E as <-.
  destruct (drain_all p t (length (lt ++ lp)) (s, logs, lost) lt lp) as (g' & ? & [] & ? & ?); [done|apply size_deaths_in|]. by exists g'.
Qed.

Lemma death_reads_deliver_witness :
  ∃ s logs lost g', drun dempty (death_demo ++ [DRelease 1 [] [10] []]) = Some (s, logs, lost) ∧
    drun (s, logs, lost) [DRead 2 20 true false] = Some g' ∧ told 2 (s, logs, lost) g' 900.
Proof.
  destruct (drun dempty (death_demo ++ [DRelease 1 [] [10] []])) as [[[s logs] lost]|] eqn:E; [|by vm_compute in E].
  exists s, logs, lost. destruct (death_reads_deliver (death_demo ++ [DRelease 1 [] [10] []]) s logs lost 2 20 [] [DeathWork 900]) as (g' & Hg & _ & _ & Ht & _).
  - apply (bool_decide_unpack _). vm_compute. exact I.
  - done.
  - vm_compute in E. injection E as <- _ _. by vm_compute.
  - vm_compute in E. injection E as <- _ _. by vm_compute.
  - vm_compute in E. injection E as <- _ _. by vm_compute.
  - by repeat constructor.
  - exists g'. split_and!; try done. apply Ht. left.
Defined.

(** ** Where notices are lost *)

(** The node has died before the looper 20 asks for a notice, so that the notice waits in the
    list of this thread.  The thread exits: the client keeps a notice that is of no list, and
    other threads of the process wait for nothing. *)
Example death_notice_lost_by_exit :
  ∃ s logs lost, drun dempty
    [DNewProc 1; DNewProc 2; DNewThread 20 2 0x02; DNewThread 21 2 0x02; DNewNode 10 1; DNewRef 30 2 1 10; DRelease 1 [] [10] [];
     DRequest 2 20 1 77 (Some 900); DThreadExit 20] = Some (s, logs, lost) ∧
    ds_deaths s !! 900 = Some (mk_bd BINDER_WORK_DEAD_BINDER 77 None) ∧ logs !! 900 = Some [] ∧ first_work s 2 21 true = Some None.
Proof. do 3 eexists. vm_compute. done. Qed.

(** A client that has taken its notice back and goes away before it confirms the death leaves
    the notice behind: its list of delivered notices is dropped, not emptied. *)
Example death_notice_leaked :
  ∃ s logs lost, drun dempty
    (death_demo ++ [DRelease 1 [] [10] []; DRead 2 20 true false; DClear 2 20 1 77; DRelease 2 [20] [] [30]]) = Some (s, logs, lost) ∧
    ds_refs s !! 30 = None ∧ ds_threads s !! 20 = None ∧ ds_lists s !! DeliveredDeath 2 = None ∧
    ds_deaths s !! 900 = Some (mk_bd BINDER_WORK_DEAD_BINDER_AND_CLEAR 77 (Some (DeliveredDeath 2))).
Proof. do 3 eexists. vm_compute. done. Qed.
